(* ===== verification/_CoqProject ===== *)
-Q . S2P
Prelude.v
Calendar.v
CronExpression.v
CronGrammar.v
TextValidation.v
Tzif.v
TimezoneMap.v
CronEngine.v
UtcTimestamp.v
Uuid.v
Framing.v
CommandArgv.v
Values.v
OutputCapture.v
CliExitPolicy.v
Binary64.v
RetryPolicy.v
HttpRetry.v
HttpValidation.v
Effects.v
Domain.v
Base64.v
Attributes.v
AttributeLayers.v
AttributePolicy.v
AttributeJson.v
AttributeCodec.v
SchedulerDispatch.v
SchedulerFairness.v
SchedulerSafety.v
EventLoop.v
EventLoopSafety.v
IniFile.v
Configuration.v
DaemonRuntime.v
DaemonSafety.v
Database.v
DatabaseSafety.v
ResourceNames.v
JobPayload.v
HttpPayload.v
StorageFailure.v
PayloadTemplate.v
PayloadParsing.v
PreparedPayload.v
PayloadLimits.v
Storage.v
WaitRepository.v
SchedulerRepository.v
ManagementRepository.v
Lifecycle.v
Management.v
ManagementOperations.v
Completion.v
RecoveryRepository.v
Recovery.v
Keyset.v
StoreLogic.v
ManagementLogic.v
ManagementAtomicity.v
StoreInvariant.v
SchedulerStore.v
RecoveryLogic.v
RecoverySound.v
RecoverySafety.v
RecoveryTermination.v
StartupRecovery.v
ManagementStatements.v
ManagementSpec.v
ManagementRefinement.v
ManagementContract.v
ManagedAttributes.v
ManagedPayloads.v
RetentionRepository.v
Retention.v
RetentionSpec.v
RetentionRefinement.v
RetentionContract.v
RetentionService.v
System.v
