(* ===== verification/Prelude.v ===== *)
(** * A verification library for JobU

    JobU is a persistent job scheduler.  Clients define queues and jobs; a job
    is one-time or recurring (a cron expression in a timezone) and runs a
    command or an HTTP request.  Each occurrence of a job is a run, each try of
    a run an attempt; queues, jobs, runs and attempts live in an SQLite store.
    The daemon dispatches due runs within concurrency limits and in proportion
    to queue weights, completes them through executors, retries failures, and
    repairs interrupted work when it starts.  Clients manage queues, jobs and
    runs through a control protocol, JSON over a framed byte stream.

    Paths below are relative to [src/src].

    ** Parts and files

    Shared: this file (bytes, machine integers, [Error] and [result] of
    [core/error.hpp] and [core/result.hpp], decimal text, generic lemmas),
    [Values] and [Domain] (JSON and attribute values, states, jobs, runs,
    attempts, scheduler records), [Effects] (the monad of stateful code that
    returns a [Result], with its program logic), [Binary64] (doubles).

    Time and schedules:
    - [Calendar]: civil dates ([jobu/utc_timestamp.cpp], [std::chrono]).
    - [CronExpression]: parser and search of [jobu/cron_expression_priv.cpp];
      [CronGrammar]: the language it accepts.
    - [Tzif], [TimezoneMap]: [jobu/cron_timezone_priv.cpp], the file format and
      the mapping between instants and local times.
    - [CronEngine]: [jobu/cron.cpp], the class [CronEngine] with its law, and
      the system engine as an instance.
    - [UtcTimestamp]: the text form of [jobu/utc_timestamp.cpp].

    Text and bytes:
    - [TextValidation] ([core/text_validation.cpp]), [Uuid]
      ([core/uuid.cpp]), [CommandArgv] ([core/command_argv.cpp]), [Framing]
      ([rpc/framing.cpp]), [OutputCapture] ([jobu/cli_capture_priv.cpp],
      [net/http_capture_priv.cpp]).

    Outcome of an attempt:
    - [CliExitPolicy] ([jobu/cli_exit_policy_priv.cpp]), [HttpRetry]
      ([jobu/http_retry_priv.cpp]), [RetryPolicy]
      ([jobu/retry_policy_priv.cpp], [jobu/recovery_retry_priv.cpp]).

    Attributes ([jobu/attribute_registry.cpp], [jobu/attribute_set_json.cpp],
    [jobu/attribute_codec_priv.cpp]):
    - [Attributes]: the registry interface, the standard registry and its
      definitions, the validation of a set, and materialization;
      [AttributeLayers]: the law of a registry ([RegistryContract]) and the
      specification of materialization by layers; [AttributePolicy]: the
      standard registry obeys the law, and what it accepts can be executed.
    - [AttributeJson]: the public JSON form; [AttributeCodec]: the documents
      kept in the store.
    - [ManagedAttributes]: management over the standard registry.

    Payloads of jobs ([jobu/cli_job_payload_priv.cpp],
    [jobu/http_job_payload_priv.cpp], [jobu/http_job_method_priv.cpp],
    [jobu/job_payload_admission_priv.cpp], [jobu/payload_template_priv.cpp]):
    - [HttpValidation]: the checks of a request,
      [net/http_validation_priv.cpp]; [Base64]: the text of bodies.
    - [JobPayload]: the collector of references and the parser of command-line
      payloads; [HttpPayload]: methods, the parser of HTTP payloads, templates
      and admission; [PayloadTemplate]: the preparation of a template over the
      class [SecretProvider].
    - [PayloadParsing]: a program logic of the parsers and what they accept;
      [PreparedPayload], [PayloadLimits]: the theorems;
      [ManagedPayloads]: management over this admission.

    Scheduler:
    - [SchedulerDispatch]: the cycle of [jobu/scheduler_core_priv.cpp] over the
      interface [Outside] of what it calls; [SchedulerFairness] and
      [SchedulerSafety]: its theorems.
    - [Storage]: the tables of [jobu/sqlite/sqlite_schema.cpp] and the
      repositories of queues, jobs, runs and attempts; [SchedulerRepository]:
      [jobu/scheduler_repository_priv.cpp]; [Lifecycle]:
      [jobu/job_lifecycle_priv.cpp] and [jobu/recurrence_priv.cpp];
      [Completion]: the start, the completion and the cancellation of attempts
      ([jobu/scheduler_dispatch_priv.cpp], [process_completion] and
      [cancel_run_impl] of [jobu/scheduler_core_priv.cpp]).
    - [StoreLogic]: a program logic for transactions; [StoreInvariant]: the
      invariant of the store and that each transition keeps it;
      [SchedulerStore]: any sequence of steps.

    Recovery at start ([jobu/recovery.cpp], [jobu/recovery_priv.hpp],
    [jobu/recovery_repository_priv.cpp]):
    - [WaitRepository]: the rows of waiting time
      ([jobu/wait_repository_priv.cpp]); [StorageFailure]:
      [jobu/storage_failure_priv.cpp]; [RecoveryRepository] and [Recovery]: the
      statements and the procedure, with its pages and its transactions.
    - [Keyset]: paging by key over a finite map; [RecoveryLogic],
      [RecoverySound], [RecoverySafety], [RecoveryTermination]: what each unit
      does; [StartupRecovery]: the theorems of the whole.

    Management ([jobu/management.cpp] and the repositories it calls):
    - [ResourceNames] (names), [ManagementRepository] (the
      statements), [Management] (the service: admission of requests,
      transactions, the fatal failure), [ManagementOperations] (one definition
      per operation, and [serve]).
    - [ManagementLogic], [ManagementStatements], [ManagementAtomicity]: the
      logic of requests and what each statement does; [ManagementSpec]: an
      abstract transition system over the tables; [ManagementRefinement]: the
      operations make its transitions; [ManagementContract]: the theorems.

    Retention of history ([jobu/retention.cpp],
    [jobu/retention_repository_priv.cpp],
    [jobu/retention_owner_repository_priv.cpp]):
    - [RetentionRepository] (the statements), [Retention] (replay records,
      batches, the phases of a sweep), [RetentionSpec] (what may be removed, and
      a program logic), [RetentionRefinement] (what each part removes),
      [RetentionContract] (the theorems), [RetentionService] (the service, its
      timer and its signals, over the class [RetentionHost]).

    The whole:
    - [System]: the life of the daemon over one store, scheduling, management,
      retention, stops and recoveries in any order.

    Infrastructure:
    - [Database]: [db/database.cpp], [db/transaction.cpp], [db/query.cpp] over
      the class [Driver]; [DatabaseSafety]: its theorems under [DriverContract].
    - [EventLoop]: [core/timer_heap.hpp] and [core/event_loop.cpp] over the
      class [Machine]; [EventLoopSafety].
    - [IniFile]: [core/ini_file.cpp] over the class [FileSystem];
      [Configuration]: [jobud/configuration_priv.cpp].
    - [DaemonRuntime]: [jobud/runtime_priv.cpp] over the class [Host];
      [DaemonSafety]: the specification of its life, which it refines.

    ** What the theorems show

    - Cron: the search returns the least matching minute and its error means
      that there is none; the parser is sound and complete for its language;
      the engine's loop terminates and its cache is transparent.
    - Timezones: parsed data is valid whatever the bytes; local times map to
      their earliest instant, or past the gap that skips them; loading reads
      no file outside the zone directories.
    - Round trips: timestamps, identifiers, framed messages, quoted commands,
      cron expressions.  Identifiers are strictly increasing for every clock
      and random source.
    - Framing is independent of how the stream is cut, and bounded.
    - Capture buffers hold the head, the tail and the length of the stream.
    - Retry: the delay is bounded in spite of rounding, exact where no
      rounding happens; a retry is decided exactly as documented; the
      [Retry-After] header cannot push it beyond its bound.
    - Attributes: the value of a materialized attribute is that of the first
      layer that has one; what validation lets through is accepted by every
      decoder of the executors and of the retry policy; public and stored
      documents are read back as they were written; every job that management
      ever stores carries executable attributes.
    - Payloads: a prepared payload is its template with the values of its
      secrets and nothing else changed; no secret chooses the command, the
      search path or the URL, adds a line to a request, or appears in a failure;
      preparation never throws and asks for each secret once; what is decoded
      fits the limits of the process and of the wire; base64 bodies are
      canonical; every job that management ever stores can be prepared.
    - Dispatch: eligible queues are served in proportion to their weights;
      limits hold whatever the collaborators do.
    - Store: attempts stay numbered, live runs unique, memory and store agree
      on what is running, under every order of steps and every failure; an
      ended recurring run has exactly one successor, at the next occurrence.
    - Recovery: when it succeeds nothing runs and every recurring job has its
      next run; whatever fails in it, a valid store stays valid; it comes to an
      end although it changes the tables that it pages through.
    - Management: every request that succeeds makes the transition of the
      specification, one that fails changes nothing; of updates that insist on
      one revision at most one succeeds; a deleted queue is drained; rows stay
      decodable; a fatal failure is announced once and is final.
    - Retention: a batch removes only what may go (expired runs with all that
      belongs to them, records with their resources, deleted owners without
      dependents), reports exactly that and keeps the store valid; a visit that
      is not full leaves nothing expired; a sweep ends; the cutoff is exact at
      the width of the clock; the timer runs exactly while the service is
      active, and a failure is announced once and is final.
    - System: over the whole life of the daemon the store keeps its invariant
      and agrees with the scheduler's memory.
    - Database: a guarded transaction is atomic whatever fails, and nothing
      ends a transaction that it does not own.
    - Event loop: a pass over the expired timers ends, in the order of the
      deadlines, with nothing due left; a cancelled timer never fires; nothing
      is delivered after the loop was told to quit.
    - Configuration: what is accepted is typed and in range; errors quote
      nothing of the file; written entries are read back; includes end.
    - Daemon: every run is a behaviour of the lifecycle (start in order, one
      logged failure, teardown in order) and ends stopped.

    ** Bounds and fuel

    Integers keep their width where the code could overflow; times are 64-bit
    nanosecond counts, as on the supported Linux platforms with libstdc++.
    Recursion that is not structural takes fuel, with a lemma that the fuel
    given is enough: [next_after_fuel] (offsets lie in [-89999, 93599] seconds,
    so at most 3060 minutes are rejected), [step_fuel] (the length of a range),
    the loops of [Framing] (the length of the text), decimal text (the number
    of digits).  Loops of the scheduler whose length depends on what its
    collaborators answer ([load_pages], [dispatch_rounds]) return [None] when
    the fuel given by the caller is used up; their theorems hold for every
    fuel.  [blocking_loop] has one round per retry.  [visit_pages] of recovery
    takes fuel per table; [recovery_terminates] gives an amount that is enough.
    The pages of replay records take fuel, and a batch falls short of it only if
    there are as many records; the rounds of [purge_rounds] are one more than
    its limit; [sweep_terminates] bounds the batches of a sweep.
    [fire_expired] takes fuel, and [expired_timers_fire] says how much; the
    passes of [run] are as many as the caller allows, since a loop need not
    end.  The documents of attributes are read and written by structural
    recursion on [remaining], what is left of the limit of 64 levels of
    nesting, at which the code itself gives up.  [IniFile.parse] takes the depth of includes, bounded by the number of
    files.

    ** Parameters

    The file system and the zone loader ([TimezoneMap], [CronEngine]), the JSON
    encoder, the clock and the random source ([Uuid]), the collaborators of a
    cycle ([Outside]), the database engine, generator, decoders and accounting
    of waiting time ([Environment]), executors and secrets ([Runner]), the stop
    request and clock of recovery ([Startup]), the validation of attributes and
    payloads and the codec of idempotency records ([Admission]; its parts
    on attributes and payloads are given by the program's own in
    [ManagedAttributes] and [ManagedPayloads]), the provider of secrets
    ([SecretProvider]), the database backend ([Driver]), the operating system's readiness interface
    ([Machine]), files ([FileSystem]), what settings are checked against
    ([Surroundings]), what the daemon's runtime calls ([Host]), the scopes in
    the requests of replay records ([ReplayScopes]) and what surrounds the
    retention service ([RetentionHost]).  SQL
    statements are translated to functions on finite maps; any of them may
    fail.

    ** Not modelled, and why

    Not modelled yet: the secret service (its table is part of [Storage], its
    values come through [SecretProvider]), history and statistics (they only
    read), the telemetry of waiting time, the command-line parser of the
    control tool, the RPC protocol state.  Outside the scope: the event loop's back ends, processes,
    sockets, the libcurl and SQLite wrappers and the PHP bindings
    (operating-system and library calls), the JSON reader and writer (a
    third-party library) and the codecs that copy fields to and from it, the
    terminal front end. *)

From stdpp Require Import base list list_numbers numbers strings gmap.
From Stdlib Require Import ZArith Lia Ascii.

#[global] Set Default Goal Selector "!".
#[global] Open Scope Z_scope.

(** ** Bytes, characters and string literals

    A [std::string_view] is a list of bytes, a byte a [Z] in [0, 256).  The
    notations [#"x"] and [bs!"text"] elaborate to the code of a character and
    to the bytes of a literal, so that [lia] sees plain numerals. *)

Abbreviation bytes := (list Z).

Definition byte_of_ascii (a : ascii) : Z := Z.of_N (N_of_ascii a).

Definition bytes_of (s : string) : bytes :=
  map byte_of_ascii (String.list_ascii_of_string s).

Notation "'#' c" :=
  ltac:(let x := eval vm_compute in (byte_of_ascii c%char) in exact x)
    (at level 9, c constr at level 0, only parsing).
Notation "'bs!' s" :=
  ltac:(let x := eval vm_compute in (bytes_of s%string) in exact x)
    (at level 9, s constr at level 0, only parsing).

Definition is_byte (b : Z) : Prop := 0 <= b < 256.

(** Equality of byte strings, as [operator==] on string views. *)
Definition bytes_eqb (a b : bytes) : bool := bool_decide (a = b).

(** ** Machine integers *)

Definition int16_min : Z := - 2 ^ 15.
Definition int16_max : Z := 2 ^ 15 - 1.
Definition int32_min : Z := - 2 ^ 31.
Definition int32_max : Z := 2 ^ 31 - 1.
Definition uint32_max : Z := 2 ^ 32 - 1.
Definition int64_min : Z := - 2 ^ 63.
Definition int64_max : Z := 2 ^ 63 - 1.
Definition uint64_max : Z := 2 ^ 64 - 1.
(** [std::size_t] on the 64-bit targets the program supports. *)
Definition size_max : Z := uint64_max.

Definition in_int32 (z : Z) : Prop := int32_min <= z <= int32_max.
Definition in_int64 (z : Z) : Prop := int64_min <= z <= int64_max.

(** Two's complement reinterpretation of the low [w] bits. *)
Definition wrap_signed (w z : Z) : Z := (z + 2 ^ (w - 1)) mod 2 ^ w - 2 ^ (w - 1).
Definition wrap_unsigned (w z : Z) : Z := z mod 2 ^ w.

Lemma pow2_half w : 0 < w → 2 ^ w = 2 ^ (w - 1) + 2 ^ (w - 1) ∧ 0 < 2 ^ (w - 1).
Proof.
  intros Hw. split; [|apply Z.pow_pos_nonneg; lia].
  replace w with (Z.succ (w - 1)) at 1 by lia. rewrite Z.pow_succ_r; lia.
Qed.

Lemma wrap_signed_range w z :
  0 < w → - 2 ^ (w - 1) <= wrap_signed w z < 2 ^ (w - 1).
Proof.
  intros Hw. destruct (pow2_half w Hw). unfold wrap_signed.
  pose proof (Z.mod_pos_bound (z + 2 ^ (w - 1)) (2 ^ w)). lia.
Qed.

Lemma wrap_signed_id w z :
  0 < w → - 2 ^ (w - 1) <= z < 2 ^ (w - 1) → wrap_signed w z = z.
Proof.
  intros Hw Hz. destruct (pow2_half w Hw). unfold wrap_signed.
  rewrite Z.mod_small; lia.
Qed.

(** ** Errors and results: [core/error.hpp], [core/result.hpp] *)

Inductive ErrorCategory :=
  | InvalidArgument | NotFound | Conflict | PermissionDenied | Unavailable
  | ResourceExhausted | Cancelled | Timeout | Io | Unsupported | Internal.

Record Error := mkError {
  category : ErrorCategory;
  code : string;
  message : string;
  detail : string }.

#[export] Instance ErrorCategory_eq_dec : EqDecision ErrorCategory.
Proof. solve_decision. Defined.
#[export] Instance Error_eq_dec : EqDecision Error.
Proof. solve_decision. Defined.

(** [Result<T, E>], the uninitialised alternative left out: no operation of
    the program returns it. *)
Inductive result (E T : Type) : Type :=
  | success (value : T)
  | failure (error : E).
Arguments success {E T} value.
Arguments failure {E T} error.

Definition is_some {A} (o : option A) : bool := match o with Some _ => true | None => false end.

#[export] Instance result_ret E : MRet (result E) := λ T v, success v.
#[export] Instance result_bind E : MBind (result E) := λ T U k r,
  match r with success v => k v | failure e => failure e end.
#[export] Instance result_fmap E : FMap (result E) := λ T U k r,
  match r with success v => success (k v) | failure e => failure e end.

Definition is_success {E T} (r : result E T) : bool :=
  match r with success _ => true | failure _ => false end.

(** The value of a result that is known to have one. *)
Definition value_or {E T} (default : T) (r : result E T) : T :=
  match r with success v => v | failure _ => default end.

Lemma success_value_or {E T} (default : T) (r : result E T) : is_success r = true → r = success (value_or default r).
Proof. by destruct r. Qed.

(** [if (!value) return failure(error)] around an optional. *)
Definition ok_or {E T} (o : option T) (e : E) : result E T :=
  match o with Some v => success v | None => failure e end.

(** [if (!condition) return failure(error)]. *)
Definition check {E} (b : bool) (e : E) : result E unit :=
  if b then success tt else failure e.

(** ** Loops *)

(** [for (i = start; i < start + n; ++i) if (auto r = f(i)) return r;] *)
Fixpoint for_first {A} (f : Z → option A) (start : Z) (n : nat) : option A :=
  match n with
  | O => None
  | S n => match f start with
           | Some r => Some r
           | None => for_first f (start + 1) n
           end
  end.

(** A loop over a sequence that threads a state and stops on failure. *)
Fixpoint fold_opt {S A} (f : S → A → option S) (s : S) (l : list A) : option S :=
  match l with
  | [] => Some s
  | x :: l => s' ← f s x; fold_opt f s' l
  end.

Lemma fold_opt_app {S A} (f : S → A → option S) s l r :
  fold_opt f s (l ++ r) = (s' ← fold_opt f s l; fold_opt f s' r).
Proof.
  revert s. induction l as [|x l IH]; intros s; simpl; [done|]. destruct (f s x); simpl; [apply IH|done].
Qed.

(** [o] is the least element of [P] in [lo, hi), if there is one. *)
Definition least_in (P : Z → Prop) (lo hi : Z) (o : option Z) : Prop :=
  match o with
  | Some r => lo <= r < hi ∧ P r ∧ ∀ x, lo <= x < r → ¬ P x
  | None => ∀ x, lo <= x < hi → ¬ P x
  end.

(** If the body searches the block [b i, b (i+1)) then the loop searches the
    concatenation of the blocks. *)
Lemma for_first_least (P : Z → Prop) (b : Z → Z) f start n :
  (∀ i, start <= i < start + Z.of_nat n → b i <= b (i + 1)) →
  (∀ i, start <= i < start + Z.of_nat n → least_in P (b i) (b (i + 1)) (f i)) →
  least_in P (b start) (b (start + Z.of_nat n)) (for_first f start n).
Proof.
  revert start. induction n as [|n IH]; intros start Hmono Hf; simpl.
  { intros x Hx. rewrite Z.add_0_r in Hx. exfalso. lia. }
  assert (Hrest : b (start + 1) <= b (start + Z.of_nat (S n))).
  { assert (∀ k, (k <= n)%nat → b (start + 1) <= b (start + 1 + Z.of_nat k)) as Hk.
    { induction k as [|k IHk]; intros Hle.
      - replace (start + 1 + Z.of_nat 0) with (start + 1) by lia. lia.
      - etrans; [apply IHk; lia|].
        replace (start + 1 + Z.of_nat (S k)) with ((start + 1 + Z.of_nat k) + 1) by lia.
        apply Hmono; lia. }
    specialize (Hk n ltac:(lia)).
    by replace (start + Z.of_nat (S n)) with (start + 1 + Z.of_nat n) by lia. }
  pose proof (Hf start ltac:(lia)) as H0.
  destruct (f start) as [r|] eqn:Hr.
  { destruct H0 as (? & ? & ?). split_and!; [lia|lia|done|done]. }
  specialize (IH (start + 1)).
  replace (start + Z.of_nat (S n)) with (start + 1 + Z.of_nat n) in * by lia.
  assert (Hnext : least_in P (b (start + 1)) (b (start + 1 + Z.of_nat n))
                    (for_first f (start + 1) n)).
  { apply IH; intros i Hi; [apply Hmono|apply Hf]; lia. }
  pose proof (Hmono start ltac:(lia)).
  destruct (for_first f (start + 1) n) as [r|]; simpl in *.
  - destruct Hnext as (? & ? & Hno). split_and!; [lia|lia|done|].
    intros x Hx. destruct (decide (x < b (start + 1))); [apply H0|apply Hno]; lia.
  - intros x Hx. destruct (decide (x < b (start + 1))); [apply H0|apply Hnext]; lia.
Qed.

(** ** String views *)

(** [s.find(c)]; [None] is [npos]. *)
Fixpoint find (c : Z) (s : bytes) : option nat :=
  match s with
  | [] => None
  | x :: s => if x =? c then Some O else S <$> find c s
  end.

(** [s.find(c, pos)]. *)
Definition find_from (c : Z) (s : bytes) (pos : nat) : option nat :=
  (λ i, (pos + i)%nat) <$> find c (drop pos s).

(** [s.substr(pos, count)]. *)
Definition substr (s : bytes) (pos count : nat) : bytes := take count (drop pos s).

(** The loop [begin = 0; while (begin <= s.size()) { end = s.find(c, begin);
    use(s.substr(begin, end - begin)); if (end == npos) break; begin = end + 1; }]
    visits the [c]-separated members of [s] from left to right. *)
Fixpoint members (c : Z) (s : bytes) : list bytes :=
  match s with
  | [] => [[]]
  | x :: s => if x =? c then [] :: members c s
              else match members c s with
                   | [] => [[x]]
                   | m :: ms => (x :: m) :: ms
                   end
  end.

(** [while (!at_end() && p(s[position])) ++position;]: what was passed, and the
    rest. *)
Fixpoint span_while (p : Z → bool) (s : bytes) : bytes * bytes :=
  match s with
  | c :: s' => if p c then let '(w, r) := span_while p s' in (c :: w, r) else ([], s)
  | [] => ([], [])
  end.

Definition ascii_digit (c : Z) : bool := (#"0" <=? c) && (c <=? #"9").
Definition ascii_lower_alpha (c : Z) : bool := (#"a" <=? c) && (c <=? #"z").
Definition ascii_upper_alpha (c : Z) : bool := (#"A" <=? c) && (c <=? #"Z").

(** The value of a digit string, most significant digit first. *)
Definition digits_value (s : bytes) : Z := foldl (λ a c, a * 10 + (c - #"0")) 0 s.

(** [std::from_chars(first, last, value)] for an unsigned type with maximum
    [max], restricted to the case in which the complete range must be
    consumed: digits only (no sign is recognised for unsigned types), at least
    one of them, and a representable value. *)
Definition from_chars_all (max : Z) (s : bytes) : option Z :=
  if bool_decide (s = []) then None
  else if forallb ascii_digit s
       then if digits_value s <=? max then Some (digits_value s) else None
       else None.

(** ** Shared tactics and hints *)

(** [lia] after replacing quotients and remainders by their equations. *)
Ltac dlia := Z.to_euclidean_division_equations; lia.

Create HintDb jobu.

(** ** Decimal numerals *)

(** [std::to_string] of an unsigned value. *)
Fixpoint decimal_from (fuel : nat) (n : Z) (acc : bytes) : bytes :=
  match fuel with
  | O => acc
  | S fuel => let acc := (#"0" + n mod 10) :: acc in
              if n <? 10 then acc else decimal_from fuel (n / 10) acc
  end.

Definition decimal (n : Z) : bytes := decimal_from (S (Z.to_nat (Z.log2 n))) n [].

Lemma digits_value_app l r :
  digits_value (l ++ r) = digits_value l * 10 ^ Z.of_nat (length r) + digits_value r.
Proof.
  unfold digits_value. rewrite foldl_app. generalize (foldl (λ a c, a * 10 + (c - 48)) 0 l).
  induction r as [|c r IH] using rev_ind; intros a; [simpl; lia|].
  rewrite !foldl_app, IH, length_app. simpl.
  replace (Z.of_nat (length r + 1)) with (Z.succ (Z.of_nat (length r))) by lia.
  rewrite Z.pow_succ_r by lia. lia.
Qed.

Lemma digits_value_nonneg s : forallb ascii_digit s = true → 0 <= digits_value s.
Proof.
  induction s as [|c s IH] using rev_ind; [done|].
  rewrite forallb_app, andb_true_iff, digits_value_app. intros [Hs Hc].
  specialize (IH Hs). simpl in Hc. unfold ascii_digit in Hc.
  rewrite !andb_true_iff, !Z.leb_le in Hc.
  change (digits_value [c]) with (0 * 10 + (c - 48)). simpl length. lia.
Qed.

Lemma decimal_from_spec fuel n acc :
  0 <= n < 10 ^ Z.of_nat fuel → (0 < fuel)%nat → forallb ascii_digit acc = true →
  digits_value (decimal_from fuel n acc) = n * 10 ^ Z.of_nat (length acc) + digits_value acc ∧
  forallb ascii_digit (decimal_from fuel n acc) = true ∧ decimal_from fuel n acc ≠ [].
Proof.
  revert n acc. induction fuel as [|fuel IH]; intros n acc Hn Hf Hacc; [lia|]. simpl.
  set (c := 48 + n mod 10).
  assert (Hc : forallb ascii_digit (c :: acc) = true).
  { simpl. rewrite Hacc, andb_true_r. unfold ascii_digit.
    rewrite andb_true_iff, !Z.leb_le. subst c. dlia. }
  assert (Hv : digits_value (c :: acc) = (n mod 10) * 10 ^ Z.of_nat (length acc) + digits_value acc).
  { change (c :: acc) with ([c] ++ acc). rewrite digits_value_app. f_equal.
    f_equal. unfold digits_value. simpl. lia. }
  destruct (Z.ltb_spec n 10).
  - rewrite Hv, Z.mod_small by lia. done.
  - rewrite Nat2Z.inj_succ, Z.pow_succ_r in Hn by lia.
    destruct fuel as [|fuel]; [simpl in Hn; lia|].
    destruct (IH (n / 10) (c :: acc)) as (He & ? & ?); [dlia|lia|done|].
    split_and!; [|done..]. rewrite He, Hv. cbn [length].
    rewrite Nat2Z.inj_succ, Z.pow_succ_r by lia. rewrite (Z.div_mod n 10) at 3 by lia. lia.
Qed.

Lemma decimal_spec n :
  0 <= n →
  digits_value (decimal n) = n ∧ forallb ascii_digit (decimal n) = true ∧ decimal n ≠ [].
Proof.
  intros Hn. unfold decimal.
  destruct (decimal_from_spec (S (Z.to_nat (Z.log2 n))) n []) as (-> & ? & ?);
    [|lia|done|].
  - split; [done|]. pose proof (Z.log2_nonneg n).
    replace (Z.of_nat (S (Z.to_nat (Z.log2 n)))) with (Z.succ (Z.log2 n)) by lia.
    destruct (decide (n = 0)) as [->|]; [done|].
    pose proof (Z.log2_spec n ltac:(lia)).
    pose proof (Z.pow_le_mono_l 2 10 (Z.succ (Z.log2 n))). lia.
  - split_and!; [simpl; unfold digits_value; simpl; lia|done..].
Qed.

Lemma from_chars_all_decimal max n :
  0 <= n <= max → from_chars_all max (decimal n) = Some n.
Proof.
  intros Hn. destruct (decimal_spec n) as (Hv & Hd & Hne); [lia|].
  unfold from_chars_all. rewrite bool_decide_false by done. rewrite Hd, Hv.
  by rewrite (proj2 (Z.leb_le n max)) by lia.
Qed.

Lemma from_chars_all_range max s n :
  from_chars_all max s = Some n → 0 <= n <= max.
Proof.
  unfold from_chars_all. repeat case_match; intros; simplify_eq.
  rewrite Z.leb_le in *. split; [by apply digits_value_nonneg|done].
Qed.

(** A numeral without superfluous zeros is the decimal of its value. *)
Definition canonical_numeral (s : bytes) : Prop :=
  s ≠ [] ∧ forallb ascii_digit s = true ∧ ((1 < length s)%nat → head s ≠ Some #"0").

Lemma canonical_lower s :
  canonical_numeral s → (1 < length s)%nat → 10 ^ (Z.of_nat (length s) - 1) <= digits_value s.
Proof.
  intros (_ & Hd & Hz) Hl. specialize (Hz Hl). destruct s as [|c s]; [done|]. cbn [length head] in *.
  rewrite Nat2Z.inj_succ, Z.sub_1_r, Z.pred_succ. change (c :: s) with ([c] ++ s).
  rewrite digits_value_app. cbn [forallb] in Hd. rewrite andb_true_iff in Hd. destruct Hd as [Hc Hs].
  unfold ascii_digit in Hc. rewrite andb_true_iff, !Z.leb_le in Hc.
  pose proof (digits_value_nonneg s Hs). change (digits_value [c]) with (0 * 10 + (c - 48)).
  assert (c ≠ 48) by congruence. pose proof (Z.pow_pos_nonneg 10 (Z.of_nat (length s))). nia.
Qed.

Lemma canonical_prefix s c : s ≠ [] → canonical_numeral (s ++ [c]) → canonical_numeral s.
Proof.
  intros Hne (_ & Hd & Hz). rewrite forallb_app, andb_true_iff in Hd. split_and!; [done|apply Hd|].
  intros Hl. destruct s as [|x s]; [done|]. apply Hz. rewrite length_app. lia.
Qed.

Lemma decimal_from_canonical fuel s acc :
  canonical_numeral s → (length s <= fuel)%nat → decimal_from fuel (digits_value s) acc = s ++ acc.
Proof.
  revert s acc. induction fuel as [|fuel IH]; intros s acc Hs Hf.
  { destruct Hs as [Hne _]. destruct s; [done|simpl in Hf; lia]. }
  destruct (exists_last (proj1 Hs)) as (l & c & ->). cbn [decimal_from].
  pose proof Hs as (_ & Hd & _). rewrite forallb_app, andb_true_iff in Hd. destruct Hd as [Hdl Hdc].
  cbn in Hdc. rewrite andb_true_r in Hdc. unfold ascii_digit in Hdc. rewrite andb_true_iff, !Z.leb_le in Hdc.
  rewrite digits_value_app. change (digits_value [c]) with (0 * 10 + (c - 48)). cbn [length].
  change (10 ^ Z.of_nat 1) with 10. rewrite length_app in Hf. cbn [length] in Hf.
  replace (48 + (digits_value l * 10 + (0 * 10 + (c - 48))) mod 10) with c by dlia.
  destruct l as [|x l].
  { change (digits_value []) with 0. by rewrite (proj2 (Z.ltb_lt _ _)) by lia. }
  assert (Hl : canonical_numeral (x :: l)) by (by apply (canonical_prefix _ c)).
  assert (Hpos : 1 <= digits_value (x :: l)).
  { pose proof (canonical_lower _ Hs) as Hlow. rewrite length_app in Hlow. cbn [length] in Hlow.
    specialize (Hlow ltac:(lia)). rewrite digits_value_app in Hlow.
    change (digits_value [c]) with (0 * 10 + (c - 48)) in Hlow. change (10 ^ Z.of_nat 1) with 10 in Hlow.
    assert (10 ^ 1 <= 10 ^ (Z.of_nat (S (length l) + 1) - 1)) by (apply Z.pow_le_mono_r; lia). lia. }
  rewrite (proj2 (Z.ltb_ge _ _)) by lia.
  replace ((digits_value (x :: l) * 10 + (0 * 10 + (c - 48))) / 10) with (digits_value (x :: l)) by dlia.
  rewrite IH by (done || lia). by rewrite <- app_assoc.
Qed.

Lemma decimal_canonical s : canonical_numeral s → decimal (digits_value s) = s.
Proof.
  intros Hs. unfold decimal. rewrite decimal_from_canonical; [by rewrite app_nil_r|done|].
  destruct (decide (1 < length s)%nat) as [Hl|]; [|lia]. pose proof (canonical_lower s Hs Hl).
  assert (2 ^ (Z.of_nat (length s) - 1) <= digits_value s).
  { etrans; [|done]. apply Z.pow_le_mono_l. lia. }
  assert (Z.of_nat (length s) - 1 <= Z.log2 (digits_value s)) as Hlog.
  { pose proof (Z.pow_pos_nonneg 2 (Z.of_nat (length s) - 1)). apply Z.log2_le_pow2; lia. }
  lia.
Qed.

(** ** Members of a joined string *)

Fixpoint join (c : Z) (l : list bytes) : bytes :=
  match l with
  | [] => []
  | [m] => m
  | m :: l => m ++ c :: join c l
  end.

Lemma members_cons c m s :
  c ∉ m → members c (m ++ c :: s) = m :: members c s.
Proof.
  induction m as [|x m IH]; intros Hc; simpl; [by rewrite Z.eqb_refl|].
  apply not_elem_of_cons in Hc as [? ?].
  rewrite (proj2 (Z.eqb_neq x c)), IH by done. done.
Qed.

Lemma members_single c m : c ∉ m → members c m = [m].
Proof.
  induction m as [|x m IH]; intros Hc; simpl; [done|].
  apply not_elem_of_cons in Hc as [? ?].
  by rewrite (proj2 (Z.eqb_neq x c)), IH by done.
Qed.

Lemma members_join c l :
  l ≠ [] → Forall (λ m, c ∉ m) l → members c (join c l) = l.
Proof.
  intros Hne Hl. induction Hl as [|m l Hm Hl IH]; [done|].
  destruct l as [|m' l]; [by apply members_single|].
  change (join c (m :: m' :: l)) with (m ++ c :: join c (m' :: l)).
  by rewrite members_cons, IH.
Qed.

Lemma find_app c m s :
  c ∉ m → find c (m ++ c :: s) = Some (length m).
Proof.
  induction m as [|x m IH]; intros Hc; simpl; [by rewrite Z.eqb_refl|].
  apply not_elem_of_cons in Hc as [? ?].
  by rewrite (proj2 (Z.eqb_neq x c)), IH by done.
Qed.

Lemma find_none c m : c ∉ m → find c m = None.
Proof.
  induction m as [|x m IH]; intros Hc; simpl; [done|].
  apply not_elem_of_cons in Hc as [? ?].
  by rewrite (proj2 (Z.eqb_neq x c)), IH by done.
Qed.

Lemma find_none_inv c m : find c m = None → c ∉ m.
Proof.
  induction m as [|x m IH]; simpl; intros H; [by apply not_elem_of_nil|].
  destruct (Z.eqb_spec x c); [done|].
  destruct (find c m); [done|]. apply not_elem_of_cons. split; [done|by apply IH].
Qed.

Lemma find_some_inv c s i :
  find c s = Some i →
  (s = take i s ++ c :: drop (S i) s) ∧ (c ∉ take i s) ∧ length (take i s) = i.
Proof.
  revert i. induction s as [|x s IH]; intros i; simpl; [done|].
  destruct (Z.eqb_spec x c) as [->|Hne].
  - intros [= <-]. split_and!; [done|by apply not_elem_of_nil|done].
  - destruct (find c s) as [j|] eqn:Hj; [|done]. simpl. intros [= <-].
    destruct (IH j eq_refl) as (He & Hn & Hl). simpl. split_and!.
    + f_equal. exact He.
    + apply not_elem_of_cons. split; [congruence|done].
    + by rewrite Hl.
Qed.

Lemma span_while_app p s w r : span_while p s = (w, r) → s = w ++ r ∧ forallb p w = true.
Proof.
  revert w r. induction s as [|c s IH]; intros w r; simpl; [by intros [= <- <-]|].
  destruct (p c) eqn:Hc; [|by intros [= <- <-]].
  destruct (span_while p s) as [w' r'] eqn:Hs. intros [= <- <-].
  destruct (IH w' r' eq_refl) as [-> ?]. simpl. by rewrite Hc.
Qed.

(** Induction for loops that take several elements at a time. *)
Lemma list_length_ind {A} (P : list A → Prop) :
  (∀ l, (∀ r, (length r < length l)%nat → P r) → P l) → ∀ l, P l.
Proof.
  intros Hstep l. remember (length l) as n eqn:Hn. revert l Hn.
  induction (lt_wf n) as [n _ IH]. intros l ->. apply Hstep. intros r Hr. by apply (IH (length r)).
Qed.

(** ** Finite checks *)

(** A check over an interval proves a statement about its elements. *)
Lemma interval_check (p : Z → bool) lo n x :
  forallb p (seqZ lo n) = true → lo <= x < lo + n → p x = true.
Proof.
  rewrite forallb_forall. intros Hp Hx. apply Hp, list_elem_of_In, elem_of_seqZ. lia.
Qed.

(** ** Sorting *)

(** [std::ranges::stable_sort] by an integer key, as insertion after the
    elements that are not greater. *)
Fixpoint insert_by {A} (key : A → Z) (x : A) (l : list A) : list A :=
  match l with
  | [] => [x]
  | y :: l' => if key x <? key y then x :: l else y :: insert_by key x l'
  end.

Definition stable_sort {A} (key : A → Z) (l : list A) : list A :=
  foldl (λ acc x, insert_by key x acc) [] l.

(** [std::ranges::unique] followed by [erase]: adjacent duplicates go. *)
Fixpoint unique (l : list Z) : list Z :=
  match l with
  | x :: (y :: _) as l' => if x =? y then unique l' else x :: unique l'
  | _ => l
  end.

Definition sort_unique (l : list Z) : list Z := unique (stable_sort (λ x, x) l).

Lemma insert_by_elem {A} (key : A → Z) x y l : y ∈ insert_by key x l ↔ y = x ∨ y ∈ l.
Proof.
  induction l as [|z l IH]; simpl; [rewrite list_elem_of_singleton, elem_of_nil; tauto|].
  case_match; rewrite !elem_of_cons, ?IH, ?elem_of_cons; tauto.
Qed.

Lemma stable_sort_elem {A} (key : A → Z) l y : y ∈ stable_sort key l ↔ y ∈ l.
Proof.
  unfold stable_sort. induction l as [|x l IH] using rev_ind; [done|].
  rewrite foldl_app. simpl. rewrite insert_by_elem, IH, elem_of_app, list_elem_of_singleton. tauto.
Qed.

Lemma insert_by_perm {A} (key : A → Z) x l : insert_by key x l ≡ₚ x :: l.
Proof.
  induction l as [|y l IH]; simpl; [done|]. destruct (key x <? key y); [done|].
  rewrite IH. apply Permutation_swap.
Qed.

Lemma stable_sort_perm {A} (key : A → Z) l : stable_sort key l ≡ₚ l.
Proof.
  unfold stable_sort. induction l as [|x l IH] using rev_ind; [done|].
  rewrite foldl_app. cbn. rewrite insert_by_perm, IH. apply Permutation_cons_append.
Qed.

(** Every element is at least the head, recursively. *)
Fixpoint ordered {A} (key : A → Z) (l : list A) : Prop :=
  match l with
  | [] => True
  | x :: l => (∀ y, y ∈ l → key x <= key y) ∧ ordered key l
  end.

Lemma insert_by_ordered {A} (key : A → Z) x l : ordered key l → ordered key (insert_by key x l).
Proof.
  induction l as [|z l IH]; simpl; intros Hl; [split; [by intros y ?%elem_of_nil|done]|].
  destruct Hl as [Hz Hl]. destruct (Z.ltb_spec (key x) (key z)); simpl.
  - split; [|done]. intros y [->|Hy]%elem_of_cons; [lia|]. specialize (Hz y Hy). lia.
  - split; [|by apply IH]. intros y [->|Hy]%insert_by_elem; [lia|by apply Hz].
Qed.

Lemma stable_sort_ordered {A} (key : A → Z) l : ordered key (stable_sort key l).
Proof.
  unfold stable_sort. induction l as [|x l IH] using rev_ind; [done|].
  rewrite foldl_app. by apply insert_by_ordered.
Qed.

Lemma unique_elem l y : y ∈ unique l ↔ y ∈ l.
Proof.
  induction l as [|x l IH]; [done|]. destruct l as [|z l]; [done|]. simpl in *.
  destruct (Z.eqb_spec x z) as [->|].
  - rewrite IH, !elem_of_cons. tauto.
  - rewrite elem_of_cons, IH, !elem_of_cons. tauto.
Qed.

Lemma sort_unique_elem l y : y ∈ sort_unique l ↔ y ∈ l.
Proof. unfold sort_unique. by rewrite unique_elem, stable_sort_elem. Qed.

Lemma unique_head l : head (unique l) = head l.
Proof.
  induction l as [|x l IH]; [done|]. destruct l as [|z l]; [done|]. simpl in *.
  destruct (Z.eqb_spec x z) as [->|]; done.
Qed.

(** The front of a sorted and deduplicated vector is its minimum. *)
Lemma sort_unique_head l x :
  head (sort_unique l) = Some x → x ∈ l ∧ ∀ y, y ∈ l → x <= y.
Proof.
  unfold sort_unique. rewrite unique_head. intros Hh.
  pose proof (stable_sort_ordered (λ x : Z, x) l) as Ho.
  destruct (stable_sort (λ x : Z, x) l) as [|z s] eqn:Hs; [done|]. injection Hh as ->.
  split; [rewrite <- (stable_sort_elem (λ x : Z, x) l), Hs; apply elem_of_cons; by left|].
  intros y Hy. rewrite <- (stable_sort_elem (λ x : Z, x) l), Hs in Hy.
  apply elem_of_cons in Hy as [->|Hy]; [lia|]. by apply Ho.
Qed.

Lemma sort_unique_nil l : sort_unique l = [] ↔ l = [].
Proof.
  split; [|by intros ->]. intros Hl. destruct l as [|x l]; [done|].
  assert (Hx : x ∈ sort_unique (x :: l)) by (apply sort_unique_elem, elem_of_cons; by left).
  rewrite Hl in Hx. by apply elem_of_nil in Hx.
Qed.
