(* ===== verification/Calendar.v ===== *)
(** * The proleptic Gregorian calendar

    The civil-calendar functions of [src/jobu/utc_timestamp.cpp] and the part
    of [std::chrono] the cron code uses ([year_month_day], [weekday],
    [year_month_day_last], [local_days]), which computes the same calendar.
    The main facts: the conversion between day numbers and civil dates is a
    bijection onto the valid dates, months and years are contiguous blocks of
    days, and the calendar repeats every 400 years. *)

From stdpp Require Import base list numbers.
From S2P Require Import Prelude.
Local Open Scope Z_scope.

Record CivilDate := mkDate { year : Z; month : Z; day : Z }.

#[export] Instance CivilDate_eq_dec : EqDecision CivilDate.
Proof. solve_decision. Defined.

(** ** Definitions *)

Definition is_leap_year (y : Z) : bool :=
  (Z.rem y 4 =? 0) && (negb (Z.rem y 100 =? 0) || (Z.rem y 400 =? 0)).

Definition month_lengths : list Z := [0; 31; 28; 31; 30; 31; 30; 31; 31; 30; 31; 30; 31].

Definition days_in_month (y m : Z) : Z :=
  if (m =? 2) && is_leap_year y then 29
  else if m <=? 12 then default 0 (month_lengths !! Z.to_nat m) else 0.

(** Signed division truncates towards zero, hence the shifted numerators. *)
Definition days_from_civil (y m d : Z) : Z :=
  let y := y - (if m <=? 2 then 1 else 0) in
  let era := Z.quot (if 0 <=? y then y else y - 399) 400 in
  let year_of_era := y - era * 400 in
  let adjusted_month := if 2 <? m then m - 3 else m + 9 in
  let day_of_year := (153 * adjusted_month + 2) / 5 + d - 1 in
  let day_of_era := year_of_era * 365 + year_of_era / 4 - year_of_era / 100 + day_of_year in
  era * 146097 + day_of_era - 719468.

Definition civil_from_days (days : Z) : CivilDate :=
  let days := days + 719468 in
  let era := Z.quot (if 0 <=? days then days else days - 146096) 146097 in
  let day_of_era := days - era * 146097 in
  let year_of_era :=
    (day_of_era - day_of_era / 1460 + day_of_era / 36524 - day_of_era / 146096) / 365 in
  let y := year_of_era + era * 400 in
  let day_of_year := day_of_era - (365 * year_of_era + year_of_era / 4 - year_of_era / 100) in
  let month_prime := (5 * day_of_year + 2) / 153 in
  let d := day_of_year - (153 * month_prime + 2) / 5 + 1 in
  let m := if month_prime <? 10 then month_prime + 3 else month_prime - 9 in
  mkDate (y + (if m <=? 2 then 1 else 0)) m d.

(** [weekday{days}.c_encoding()]: Sunday is 0, and 1970-01-01 is a Thursday. *)
Definition weekday_of_days (days : Z) : Z := (days + 4) mod 7.

Definition valid_date (y m d : Z) : bool :=
  (1 <=? m) && (m <=? 12) && (1 <=? d) && (d <=? days_in_month y m).

(** [std::chrono::year] holds a [short]; its [ok()] excludes only the value
    below [year::min()]. *)
Definition year_min : Z := -32767.
Definition year_max : Z := 32767.
Definition year_ok (y : Z) : bool :=
  let y := wrap_signed 16 y in (year_min <=? y) && (y <=? year_max).

(** ** Arithmetic *)

Lemma div_bounds a b : 0 < b → b * (a / b) <= a < b * (a / b) + b.
Proof. intros Hb. pose proof (Z.div_mod a b). pose proof (Z.mod_pos_bound a b). lia. Qed.

Lemma quot_floor (n z : Z) :
  0 < n → Z.quot (if 0 <=? z then z else z - (n - 1)) n = z / n.
Proof.
  intros Hn. destruct (Z.leb_spec 0 z) as [Hz|Hz].
  - apply Z.quot_div_nonneg; lia.
  - rewrite <- (Z.opp_involutive (z - (n - 1))), Z.quot_opp_l by lia.
    rewrite Z.quot_div_nonneg by lia.
    pose proof (div_bounds (- (z - (n - 1))) n Hn). pose proof (div_bounds z n Hn). nia.
Qed.

(** The day number within an era of 400 March-based years. *)
Definition era_start (yoe : Z) : Z := 365 * yoe + yoe / 4 - yoe / 100.
Definition march_leap (yoe : Z) : bool :=
  ((yoe + 1) mod 4 =? 0) && (negb ((yoe + 1) mod 100 =? 0) || ((yoe + 1) mod 400 =? 0)).
Definition march_length (yoe : Z) : Z := if march_leap yoe then 366 else 365.

Definition month_start (mp : Z) : Z := (153 * mp + 2) / 5.

Lemma is_leap_year_mod y :
  is_leap_year y = (y mod 4 =? 0) && (negb (y mod 100 =? 0) || (y mod 400 =? 0)).
Proof.
  unfold is_leap_year.
  assert (Hr : ∀ n, 0 < n → (Z.rem y n =? 0) = (y mod n =? 0)).
  { intros n Hn. apply eq_bool_prop_intro. rewrite !Is_true_true, !Z.eqb_eq.
    rewrite Z.rem_divide, Z.mod_divide by lia. done. }
  by rewrite !Hr by lia.
Qed.

Lemma days_from_civil_floor y m d :
  days_from_civil y m d =
    let y' := if m <=? 2 then y - 1 else y in
    let mp := if 2 <? m then m - 3 else m + 9 in
    146097 * (y' / 400) + era_start (y' mod 400) + month_start mp + d - 719469.
Proof.
  unfold days_from_civil, era_start, month_start. cbv zeta.
  change 399 with (400 - 1). rewrite (quot_floor 400) by lia.
  replace (if m <=? 2 then y - 1 else y) with (y - (if m <=? 2 then 1 else 0))
    by (destruct (m <=? 2); lia).
  set (y' := y - (if m <=? 2 then 1 else 0)).
  replace (y' mod 400) with (y' - y' / 400 * 400)
    by (rewrite (Z.div_mod y' 400) at 1 by lia; lia).
  destruct (2 <? m); lia.
Qed.

Lemma march_length_succ yoe :
  0 <= yoe < 400 →
  era_start yoe + march_length yoe =
    if yoe =? 399 then 146097 else era_start (yoe + 1).
Proof.
  intros Hy. unfold march_length, march_leap, era_start.
  destruct (Z.eqb_spec yoe 399) as [->|]; [done|].
  rewrite (Z.mod_small (yoe + 1) 400) by lia.
  destruct (Z.eqb_spec ((yoe + 1) mod 4) 0), (Z.eqb_spec ((yoe + 1) mod 100) 0),
    (Z.eqb_spec (yoe + 1) 0); simpl; dlia.
Qed.

Lemma era_start_mono yoe yoe' : 0 <= yoe → yoe < yoe' → era_start yoe + 365 <= era_start yoe'.
Proof.
  intros. unfold era_start. change 100 with (4 * 25).
  rewrite <- !Z.div_div by lia. pose proof (Z.div_le_mono yoe yoe' 4). dlia.
Qed.

(** The year-of-era formula, with every quotient a variable. *)
Lemma yoe_arith doe q1 c q3 yoe y4 y100 y4' y100' :
  0 <= doe < 146097 →
  1460 * q1 <= doe < 1460 * q1 + 1460 →
  36524 * c <= doe < 36524 * c + 36524 →
  146096 * q3 <= doe < 146096 * q3 + 146096 →
  365 * yoe <= doe - q1 + c - q3 < 365 * yoe + 365 →
  4 * y4 <= yoe < 4 * y4 + 4 →
  100 * y100 <= yoe < 100 * y100 + 100 →
  4 * y4' <= yoe + 1 < 4 * y4' + 4 →
  100 * y100' <= yoe + 1 < 100 * y100' + 100 →
  0 <= yoe < 400 ∧ 365 * yoe + y4 - y100 <= doe ∧
  (yoe < 399 → doe < 365 * (yoe + 1) + y4' - y100').
Proof.
  intros. assert (q3 = 0 ∨ q3 = 1) as Hq by lia.
  assert (c = 0 ∨ c = 1 ∨ c = 2 ∨ c = 3 ∨ c = 4) as Hc by lia.
  destruct Hq as [-> | ->]; destruct_or! Hc; subst; lia.
Qed.

Definition year_of_era (doe : Z) : Z :=
  (doe - doe / 1460 + doe / 36524 - doe / 146096) / 365.

Lemma year_of_era_spec doe :
  0 <= doe < 146097 →
  0 <= year_of_era doe < 400 ∧
  era_start (year_of_era doe) <= doe <
    era_start (year_of_era doe) + march_length (year_of_era doe).
Proof.
  intros H. set (yoe := year_of_era doe).
  destruct (yoe_arith doe (doe / 1460) (doe / 36524) (doe / 146096) yoe
    (yoe / 4) (yoe / 100) ((yoe + 1) / 4) ((yoe + 1) / 100)) as (Hy & Hl & Hu);
    [done|apply div_bounds; lia..|].
  split_and!; [lia|lia|unfold era_start; lia|].
  rewrite march_length_succ by lia.
  destruct (Z.eqb_spec yoe 399); unfold era_start; lia.
Qed.

Lemma day_of_era_range yoe doy :
  0 <= yoe < 400 → 0 <= doy < march_length yoe → 0 <= era_start yoe + doy < 146097.
Proof.
  intros Hy Hd. pose proof (march_length_succ yoe Hy).
  assert (0 <= era_start yoe) by (unfold era_start; dlia).
  destruct (Z.eqb_spec yoe 399); [lia|].
  assert (era_start (yoe + 1) <= 145731) by (unfold era_start; dlia). lia.
Qed.

Lemma year_of_era_unique yoe doy :
  0 <= yoe < 400 → 0 <= doy < march_length yoe →
  year_of_era (era_start yoe + doy) = yoe.
Proof.
  intros Hy Hd. pose proof (day_of_era_range yoe doy Hy Hd) as Hdoe.
  set (doe := era_start yoe + doy) in *.
  destruct (year_of_era_spec doe Hdoe) as (Hy' & Hl & Hu).
  set (y' := year_of_era doe) in *. clearbody y'.
  destruct (Z.lt_trichotomy y' yoe) as [Hlt|[->|Hlt]]; [|done|].
  - rewrite march_length_succ in Hu by lia.
    destruct (Z.eqb_spec y' 399); [lia|].
    assert (era_start (y' + 1) <= era_start yoe); [|lia].
    destruct (decide (y' + 1 = yoe)) as [->|]; [lia|].
    pose proof (era_start_mono (y' + 1) yoe). lia.
  - pose proof (march_length_succ yoe Hy). destruct (Z.eqb_spec yoe 399); [lia|].
    assert (era_start (yoe + 1) <= era_start y'); [|lia].
    destruct (decide (yoe + 1 = y')) as [->|]; [lia|].
    pose proof (era_start_mono (yoe + 1) y'). lia.
Qed.

(** ** Dates and day numbers *)

Definition march_year (y m : Z) : Z := if m <=? 2 then y - 1 else y.
Definition march_month (m : Z) : Z := if 2 <? m then m - 3 else m + 9.

Lemma civil_from_days_floor days :
  civil_from_days days =
    let era := (days + 719468) / 146097 in
    let doe := (days + 719468) mod 146097 in
    let yoe := year_of_era doe in
    let doy := doe - era_start yoe in
    let mp := (5 * doy + 2) / 153 in
    let m := if mp <? 10 then mp + 3 else mp - 9 in
    mkDate (yoe + era * 400 + (if m <=? 2 then 1 else 0)) m (doy - month_start mp + 1).
Proof.
  unfold civil_from_days, month_start, era_start, year_of_era. cbv zeta.
  pose proof (quot_floor 146097 (days + 719468) ltac:(lia)) as Hq.
  change (146097 - 1) with 146096 in Hq. rewrite Hq.
  replace (days + 719468 - (days + 719468) / 146097 * 146097)
    with ((days + 719468) mod 146097)
    by (rewrite (Z.div_mod (days + 719468) 146097) at 2 by lia; lia).
  done.
Qed.

(** The leap day is the last day of a March-based year. *)
Lemma march_leap_year era yoe :
  0 <= yoe < 400 → is_leap_year (yoe + era * 400 + 1) = march_leap yoe.
Proof.
  intros. rewrite is_leap_year_mod. unfold march_leap.
  replace (yoe + era * 400 + 1) with (yoe + 1 + era * 400) by lia.
  f_equal; [|f_equal; [f_equal|]].
  - replace (era * 400) with (era * 100 * 4) by lia. by rewrite Z.mod_add by lia.
  - replace (era * 400) with (era * 4 * 100) by lia. by rewrite Z.mod_add by lia.
  - by rewrite Z.mod_add by lia.
Qed.

Lemma month_cases m : 1 <= m <= 12 →
  m = 1 ∨ m = 2 ∨ m = 3 ∨ m = 4 ∨ m = 5 ∨ m = 6 ∨
  m = 7 ∨ m = 8 ∨ m = 9 ∨ m = 10 ∨ m = 11 ∨ m = 12.
Proof. lia. Qed.

Ltac case_month m :=
  let H := fresh in
  assert (H : 1 <= m <= 12) by lia; apply month_cases in H;
  destruct_or! H; subst m.

(** Day of the March-based year: every month is a block of [days_in_month]. *)
Lemma month_block era yoe m :
  0 <= yoe < 400 → 1 <= m <= 12 →
  let y := yoe + era * 400 + (if m <=? 2 then 1 else 0) in
  0 <= month_start (march_month m) ∧
  month_start (march_month m) + days_in_month y m =
    (if m =? 2 then march_length yoe else month_start (march_month m + 1)).
Proof.
  intros Hy Hm. cbv zeta. unfold days_in_month.
  case_month m; simpl; rewrite ?march_leap_year by done; unfold march_length;
    try (split; [|]; unfold month_start, march_month; simpl; dlia).
  split; [done|]. by destruct (march_leap yoe).
Qed.

Lemma days_from_civil_march y m d :
  days_from_civil y m d =
    146097 * (march_year y m / 400) + era_start (march_year y m mod 400) +
    month_start (march_month m) + d - 719469.
Proof. apply days_from_civil_floor. Qed.

Lemma month_prime_spec m doy len :
  1 <= m <= 12 → month_start (march_month m) <= doy < month_start (march_month m) + len →
  (if m =? 2 then len <= 29 else month_start (march_month m) + len = month_start (march_month m + 1)) →
  let mp := (5 * doy + 2) / 153 in
  mp = march_month m ∧ (if mp <? 10 then mp + 3 else mp - 9) = m.
Proof.
  intros Hm Hd Hlen mp. assert (mp = march_month m) as ->.
  { subst mp. unfold month_start, march_month in *. case_month m; simpl in *; dlia. }
  split; [done|]. unfold march_month. by case_month m.
Qed.

Lemma march_year_undo y m :
  march_year y m + (if m <=? 2 then 1 else 0) = y.
Proof. unfold march_year. destruct (m <=? 2); lia. Qed.

Lemma march_year_split y m :
  let era := march_year y m / 400 in
  let yoe := march_year y m mod 400 in
  0 <= yoe < 400 ∧ yoe + era * 400 + (if m <=? 2 then 1 else 0) = y.
Proof.
  cbv zeta. split; [apply Z.mod_pos_bound; lia|].
  pose proof (march_year_undo y m). pose proof (Z.div_mod (march_year y m) 400). lia.
Qed.

(** Position of a valid date inside its March-based year. *)
Lemma date_day_of_year era yoe m d :
  0 <= yoe < 400 → 1 <= m <= 12 →
  let y := yoe + era * 400 + (if m <=? 2 then 1 else 0) in
  let doy := month_start (march_month m) + (d - 1) in
  1 <= d <= days_in_month y m →
  0 <= doy < march_length yoe ∧
  let mp := (5 * doy + 2) / 153 in
  mp = march_month m ∧ (if mp <? 10 then mp + 3 else mp - 9) = m.
Proof.
  intros Hyoe Hm y doy Hd.
  destruct (month_block era yoe m Hyoe Hm) as [Hs Hblock]. fold y in Hblock.
  split.
  - subst doy. split; [lia|]. destruct (Z.eqb_spec m 2); [lia|].
    assert (month_start (march_month m + 1) <= 337);
      [|unfold march_length; destruct (march_leap yoe); lia].
    unfold march_month, month_start. case_month m; simpl; first [done|lia].
  - apply (month_prime_spec m doy (days_in_month y m)); [lia|subst doy; lia|].
    destruct (Z.eqb_spec m 2); [|lia].
    clearbody y. subst m. unfold days_in_month. simpl. by destruct (is_leap_year y).
Qed.

(** A date is recovered from its day number. *)
Lemma civil_from_days_from_civil y m d :
  valid_date y m d = true → civil_from_days (days_from_civil y m d) = mkDate y m d.
Proof.
  unfold valid_date. rewrite !andb_true_iff, !Z.leb_le. intros [[[? ?] ?] Hd].
  destruct (march_year_split y m) as [Hyoe Hy].
  set (era := march_year y m / 400) in *. set (yoe := march_year y m mod 400) in *.
  destruct (date_day_of_year era yoe m d Hyoe ltac:(lia)) as (Hdoy & Hmp & Hm');
    [rewrite Hy; lia|].
  set (doy := month_start (march_month m) + (d - 1)) in *.
  rewrite civil_from_days_floor, days_from_civil_march. fold era yoe.
  replace (146097 * era + era_start yoe + month_start (march_month m) + d - 719469 + 719468)
    with (era_start yoe + doy + era * 146097) by (subst doy; lia).
  pose proof (day_of_era_range yoe doy Hyoe Hdoy).
  rewrite Z.div_add, Z.mod_add by lia.
  rewrite (Z.div_small _ 146097), (Z.mod_small _ 146097) by lia.
  cbv zeta. rewrite (year_of_era_unique yoe doy) by done.
  replace (era_start yoe + doy - era_start yoe) with doy by lia.
  rewrite Hm', Hmp. f_equal; [rewrite <- Hy; lia|subst doy; lia].
Qed.

(** Conversely, every day number is that of a valid date. *)
Lemma days_from_civil_from_days z :
  let c := civil_from_days z in
  valid_date (year c) (month c) (day c) = true ∧
  days_from_civil (year c) (month c) (day c) = z.
Proof.
  cbv zeta. rewrite civil_from_days_floor. cbv zeta.
  set (era := (z + 719468) / 146097). set (doe := (z + 719468) mod 146097).
  assert (Hz : z + 719468 = 146097 * era + doe) by (apply Z.div_mod; lia).
  destruct (year_of_era_spec doe) as (Hyoe & Hdoy); [apply Z.mod_pos_bound; lia|].
  set (yoe := year_of_era doe) in *. set (doy := doe - era_start yoe).
  set (mp := (5 * doy + 2) / 153).
  assert (Hmp : 0 <= mp <= 11).
  { assert (0 <= doy <= 365) by (unfold march_length in *; destruct (march_leap yoe); lia).
    subst mp. dlia. }
  set (m := if mp <? 10 then mp + 3 else mp - 9).
  assert (Hm : 1 <= m <= 12 ∧ march_month m = mp ∧ (m <=? 2) = negb (mp <? 10)).
  { subst m. unfold march_month. destruct (Z.ltb_spec mp 10); simpl;
      repeat case_match; lia. }
  destruct Hm as (Hm & Hmm & Hm2).
  destruct (month_block era yoe m Hyoe Hm) as [_ Hblock]. cbv zeta in Hblock.
  set (y := yoe + era * 400 + (if m <=? 2 then 1 else 0)) in *. simpl.
  assert (Hmy : march_year y m = yoe + era * 400).
  { unfold march_year. subst y. destruct (m <=? 2); lia. }
  split.
  - unfold valid_date. rewrite !andb_true_iff, !Z.leb_le.
    rewrite Hmm in Hblock. split_and!; [lia|lia|unfold month_start; subst mp; dlia|].
    destruct (Z.eqb_spec m 2) as [Heq|]; [lia|].
    assert (doy < month_start (mp + 1)); [|lia]. unfold month_start; subst mp; dlia.
  - rewrite days_from_civil_march, Hmy, Hmm.
    rewrite Z.div_add, Z.mod_add by lia.
    rewrite (Z.div_small yoe 400), (Z.mod_small yoe 400) by lia. subst doy. lia.
Qed.

(** ** Contiguity and periodicity *)

Lemma days_from_civil_day y m d :
  days_from_civil y m d = days_from_civil y m 1 + (d - 1).
Proof. rewrite !days_from_civil_march. lia. Qed.

Lemma days_from_civil_month_succ y m :
  1 <= m < 12 →
  days_from_civil y (m + 1) 1 = days_from_civil y m 1 + days_in_month y m.
Proof.
  intros Hm. destruct (march_year_split y m) as [Hyoe Hy].
  destruct (month_block (march_year y m / 400) _ m Hyoe ltac:(lia)) as [_ Hblock].
  cbv zeta in Hblock. rewrite Hy in Hblock. rewrite !days_from_civil_march.
  destruct (Z.eqb_spec m 2) as [->|Hne].
  - change (march_year y (2 + 1)) with y.
    change (march_year y 2) with (y - 1) in *.
    pose proof (march_length_succ ((y - 1) mod 400) Hyoe) as Hlen.
    change (month_start (march_month (2 + 1))) with 0.
    pose proof (Z.div_mod y 400). pose proof (Z.div_mod (y - 1) 400).
    pose proof (Z.mod_pos_bound y 400).
    destruct (Z.eqb_spec ((y - 1) mod 400) 399) as [He|He].
    + assert (y mod 400 = 0 ∧ y / 400 = (y - 1) / 400 + 1) as [-> ->] by lia.
      change (era_start 0) with 0. lia.
    + assert (y mod 400 = (y - 1) mod 400 + 1 ∧ y / 400 = (y - 1) / 400) as [-> ->] by lia.
      lia.
  - assert (march_year y (m + 1) = march_year y m) as ->.
    { unfold march_year. repeat case_match; lia. }
    assert (march_month (m + 1) = march_month m + 1) as ->.
    { unfold march_month. repeat case_match; lia. }
    lia.
Qed.

Lemma days_from_civil_year_succ y :
  days_from_civil (y + 1) 1 1 = days_from_civil y 12 1 + days_in_month y 12.
Proof.
  rewrite !days_from_civil_march. unfold march_year. simpl.
  replace (y + 1 - 1) with y by lia. change (days_in_month y 12) with 31.
  change (month_start (march_month 1)) with 306.
  change (month_start (march_month 12)) with 275. lia.
Qed.

Lemma days_in_month_bounds y m : 1 <= m <= 12 → 28 <= days_in_month y m <= 31.
Proof. intros. unfold days_in_month. case_month m; simpl; destruct (is_leap_year y); lia. Qed.

(** The first day of month [m], with month 13 the next January. *)
Definition month_first (y m : Z) : Z :=
  if m =? 13 then days_from_civil (y + 1) 1 1 else days_from_civil y m 1.

Lemma month_first_succ y m :
  1 <= m <= 12 → month_first y (m + 1) = month_first y m + days_in_month y m.
Proof.
  intros Hm. unfold month_first. rewrite (proj2 (Z.eqb_neq m 13)) by lia.
  destruct (Z.eqb_spec (m + 1) 13).
  - assert (m = 12) as -> by lia. apply days_from_civil_year_succ.
  - apply days_from_civil_month_succ. lia.
Qed.

Lemma year_length y :
  days_from_civil (y + 1) 1 1 = days_from_civil y 1 1 + (if is_leap_year y then 366 else 365).
Proof.
  change (days_from_civil (y + 1) 1 1) with (month_first y (11 + 1 + 1)).
  change (days_from_civil y 1 1) with (month_first y 1).
  replace (month_first y (11 + 1 + 1)) with
    (month_first y 1 + days_in_month y 1 + days_in_month y 2 + days_in_month y 3 +
     days_in_month y 4 + days_in_month y 5 + days_in_month y 6 + days_in_month y 7 +
     days_in_month y 8 + days_in_month y 9 + days_in_month y 10 + days_in_month y 11 +
     days_in_month y 12).
  - unfold days_in_month. simpl. destruct (is_leap_year y); lia.
  - rewrite <- !month_first_succ by lia. done.
Qed.

(** A civil date as an offset from the first of January. *)
Lemma days_from_january y m d :
  1 <= m <= 12 →
  days_from_civil y m d =
    days_from_civil y 1 1 + (days_from_civil (if is_leap_year y then 0 else 1) m d -
                             days_from_civil (if is_leap_year y then 0 else 1) 1 1).
Proof.
  intros Hm. rewrite (days_from_civil_day _ m d), (days_from_civil_day (if is_leap_year y then 0 else 1) m d).
  set (y0 := if is_leap_year y then 0 else 1).
  assert (Hl : ∀ k, days_in_month y0 k = days_in_month y k).
  { intros k. unfold days_in_month, y0. by destruct (is_leap_year y). }
  assert (Hind : ∀ n, (n <= 11)%nat →
    days_from_civil y (1 + Z.of_nat n) 1 - days_from_civil y 1 1 =
    days_from_civil y0 (1 + Z.of_nat n) 1 - days_from_civil y0 1 1).
  { induction n as [|n IH]; intros Hn; [change (1 + Z.of_nat 0) with 1; lia|].
    replace (1 + Z.of_nat (S n)) with (1 + Z.of_nat n + 1) by lia.
    rewrite !(days_from_civil_month_succ) by lia. rewrite Hl. lia. }
  specialize (Hind (Z.to_nat (m - 1)) ltac:(lia)).
  replace (1 + Z.of_nat (Z.to_nat (m - 1))) with m in Hind by lia. lia.
Qed.

Lemma is_leap_year_period y k : is_leap_year (y + 400 * k) = is_leap_year y.
Proof.
  rewrite !is_leap_year_mod. f_equal; [|f_equal; [f_equal|]]; f_equal.
  - replace (400 * k) with (k * 100 * 4) by lia. by rewrite Z.mod_add by lia.
  - replace (400 * k) with (k * 4 * 100) by lia. by rewrite Z.mod_add by lia.
  - replace (400 * k) with (k * 400) by lia. by rewrite Z.mod_add by lia.
Qed.

Lemma days_from_civil_period y m d k :
  days_from_civil (y + 400 * k) m d = days_from_civil y m d + 146097 * k.
Proof.
  rewrite !days_from_civil_march.
  replace (march_year (y + 400 * k) m) with (march_year y m + k * 400)
    by (unfold march_year; case_match; lia).
  rewrite Z.div_add, Z.mod_add by lia. lia.
Qed.

Lemma january_mono y y' : y <= y' → days_from_civil y 1 1 <= days_from_civil y' 1 1.
Proof.
  intros Hle. replace y' with (y + Z.of_nat (Z.to_nat (y' - y))) by lia.
  generalize (Z.to_nat (y' - y)). clear. intros n. induction n as [|n IH].
  - by rewrite Z.add_0_r.
  - replace (y + Z.of_nat (S n)) with (y + Z.of_nat n + 1) by lia.
    rewrite year_length. case_match; lia.
Qed.

Lemma month_first_mono y m m' :
  1 <= m → m <= m' → m' <= 13 → month_first y m <= month_first y m'.
Proof.
  intros H1 H2 H3. replace m' with (m + Z.of_nat (Z.to_nat (m' - m))) in * by lia.
  revert H3. generalize (Z.to_nat (m' - m)). clear H2. intros n.
  induction n as [|n IH]; intros H3; [by rewrite Z.add_0_r|].
  replace (m + Z.of_nat (S n)) with (m + Z.of_nat n + 1) by lia.
  rewrite month_first_succ by lia.
  pose proof (days_in_month_bounds y (m + Z.of_nat n)). lia.
Qed.

(** A day belongs to the year whose Januaries enclose it. *)
Lemma civil_year_bounds z :
  let y := year (civil_from_days z) in
  days_from_civil y 1 1 <= z < days_from_civil (y + 1) 1 1.
Proof.
  cbv zeta. destruct (days_from_civil_from_days z) as [Hv Hz].
  destruct (civil_from_days z) as [y m d]. simpl in *.
  unfold valid_date in Hv. rewrite !andb_true_iff, !Z.leb_le in Hv.
  rewrite days_from_civil_day in Hz.
  pose proof (month_first_mono y 1 m). pose proof (month_first_mono y (m + 1) 13).
  pose proof (month_first_succ y m).
  unfold month_first in *. simpl in *. destruct (Z.eqb_spec m 13); [lia|].
  destruct (Z.eqb_spec (m + 1) 13); lia.
Qed.

Lemma civil_year_unique y z :
  days_from_civil y 1 1 <= z < days_from_civil (y + 1) 1 1 → year (civil_from_days z) = y.
Proof.
  intros Hz. pose proof (civil_year_bounds z) as Hb. cbv zeta in Hb.
  set (y' := year (civil_from_days z)) in *.
  destruct (Z.lt_trichotomy y y') as [Hlt|[->|Hlt]]; [|done|].
  - pose proof (january_mono (y + 1) y'). lia.
  - pose proof (january_mono (y' + 1) y). lia.
Qed.

(** The years within 107000 days of the epoch, which include everything that
    a 64-bit nanosecond clock reaches. *)
Lemma near_epoch_year z : -107000 <= z <= 107000 → 1670 <= year (civil_from_days z) <= 2270.
Proof.
  intros Hz. pose proof (civil_year_bounds z) as Hb. cbv zeta in Hb.
  set (y := year (civil_from_days z)) in *. destruct (decide (y < 1670)).
  { pose proof (january_mono (y + 1) 1670 ltac:(lia)) as H1.
    change (days_from_civil 1670 1 1) with (-109572) in H1. lia. }
  destruct (decide (2270 < y)); [|lia].
  pose proof (january_mono 2271 y ltac:(lia)) as H1.
  change (days_from_civil 2271 1 1) with 109938 in H1. lia.
Qed.
