(* ===== verification/CronExpression.v ===== *)
(** * Cron expressions: [src/jobu/cron_expression_priv.cpp]

    The five-field parser (Module [Parse]) and the search for the next local
    minute that matches (Module [Search]).  Bit sets are integers used with
    [Z.testbit] and [Z.setbit]. *)

From stdpp Require Import base list numbers strings.
From Stdlib Require Import Ascii.
From S2P Require Import Prelude Calendar.
Local Open Scope Z_scope.

Record CronExpression := mkCron {
  minutes : Z;        (* std::bitset<60> *)
  hours : Z;          (* std::bitset<24> *)
  days_of_month : Z;  (* std::bitset<31> *)
  months : Z;         (* std::bitset<12> *)
  days_of_week : Z }. (* std::bitset<7> *)

#[export] Instance CronExpression_eq_dec : EqDecision CronExpression.
Proof. solve_decision. Defined.

Definition invalid_expression : Error :=
  mkError InvalidArgument "jobu.schedule.invalid_expression" "Cron expression is invalid" "".
Definition no_future_occurrence : Error :=
  mkError InvalidArgument "jobu.schedule.no_future_occurrence"
    "Cron expression has no future occurrence" "".
Definition occurrence_out_of_range : Error :=
  mkError ResourceExhausted "jobu.schedule.out_of_range"
    "Cron occurrence is outside the representable range" "".

Module Parse.

Record FieldName := mkName { text : bytes; value : Z }.

Definition kMonthNames : list FieldName :=
  [mkName bs!"JAN" 1; mkName bs!"FEB" 2; mkName bs!"MAR" 3; mkName bs!"APR" 4;
   mkName bs!"MAY" 5; mkName bs!"JUN" 6; mkName bs!"JUL" 7; mkName bs!"AUG" 8;
   mkName bs!"SEP" 9; mkName bs!"OCT" 10; mkName bs!"NOV" 11; mkName bs!"DEC" 12].

Definition kWeekdayNames : list FieldName :=
  [mkName bs!"SUN" 0; mkName bs!"MON" 1; mkName bs!"TUE" 2; mkName bs!"WED" 3;
   mkName bs!"THU" 4; mkName bs!"FRI" 5; mkName bs!"SAT" 6].

Record WeekdayValue := mkWeekday {
  weekday : Z; numeric_zero : bool; numeric_seven : bool }.

Definition is_field_separator (c : Z) : bool := (c =? #" ") || (c =? 9).

Fixpoint trim_front (s : bytes) : bytes :=
  match s with
  | c :: s' => if is_field_separator c then trim_front s' else s
  | [] => []
  end.

Definition trim_field_separators (s : bytes) : bytes :=
  reverse (trim_front (reverse (trim_front s))).

Definition ascii_upper (c : Z) : Z :=
  if (#"a" <=? c) && (c <=? #"z") then c - (#"a" - #"A") else c.

Fixpoint equals_name (s name : bytes) : bool :=
  match s, name with
  | [], [] => true
  | c :: s, n :: name => (ascii_upper c =? n) && equals_name s name
  | _, _ => false
  end.

Definition parse_unsigned (s : bytes) : option Z := from_chars_all uint32_max s.

Fixpoint lookup_name (s : bytes) (names : list FieldName) : option Z :=
  match names with
  | [] => None
  | n :: names => if equals_name s (text n) then Some (value n) else lookup_name s names
  end.

Definition parse_linear_value (s : bytes) (minimum maximum : Z) (names : list FieldName) : option Z :=
  match lookup_name s names with
  | Some v => Some v
  | None => match parse_unsigned s with
            | Some v => if (v <? minimum) || (maximum <? v) then None else Some v
            | None => None
            end
  end.

(** The step loop: [bits.set(value - minimum)] from [value] up to [last]; the
    inner break stops before the addition could pass [last]. *)
Fixpoint set_steps (fuel : nat) (minimum last step v bits : Z) : Z :=
  match fuel with
  | O => bits
  | S fuel =>
      if last <? v then bits
      else let bits := Z.setbit bits (v - minimum) in
           if last - v <? step then bits
           else set_steps fuel minimum last step (v + step) bits
  end.

Definition step_fuel (first last : Z) : nat := S (Z.to_nat (last - first)).

(** [base], [step] and whether a step was written: the text around the only
    slash of a member. *)
Definition split_step (member : bytes) : option (bytes * Z * bool) :=
  let slash := find #"/" member in
  if (match slash with
      | Some i => bool_decide (is_Some (find_from #"/" member (S i)))
      | None => false
      end) then None
  else
    let base := match slash with Some i => take i member | None => member end in
    let step := match slash with
                | Some i => parse_unsigned (drop (S i) member)
                | None => Some 1
                end in
    match step with
    | Some step => if bool_decide (base = []) || (step =? 0) then None
                   else Some (base, step, bool_decide (is_Some slash))
    | None => None
    end.

Definition parse_linear_member (member : bytes) (minimum maximum : Z)
    (names : list FieldName) (bits : Z) : option Z :=
  '(base, step, has_slash) ← split_step member;
  if bytes_eqb base bs!"*" then
    Some (set_steps (step_fuel minimum maximum) minimum maximum step minimum bits)
  else
    match find #"-" base with
    | None =>
        if (has_slash : bool) then None
        else parsed ← parse_linear_value base minimum maximum names;
             Some (Z.setbit bits (parsed - minimum))
    | Some dash =>
        if bool_decide (is_Some (find_from #"-" base (S dash))) then None
        else first ← parse_linear_value (take dash base) minimum maximum names;
             last ← parse_linear_value (drop (S dash) base) minimum maximum names;
             if last <? first then None
             else Some (set_steps (step_fuel first last) minimum last step first bits)
    end.

Definition parse_linear_field (field : bytes) (minimum maximum : Z)
    (names : list FieldName) (bits : Z) : option Z :=
  fold_opt (λ bits member,
    if bool_decide (member = []) then None
    else parse_linear_member member minimum maximum names bits) bits (members #"," field).

Definition parse_weekday_value (s : bytes) : option WeekdayValue :=
  match lookup_name s kWeekdayNames with
  | Some v => Some (mkWeekday v false false)
  | None => match parse_unsigned s with
            | Some v => if 7 <? v then None
                        else Some (mkWeekday (if v =? 7 then 0 else v) (v =? 0) (v =? 7))
            | None => None
            end
  end.

(** The bits of the field and the two flags of [record_sunday_convention]. *)
Record WeekdayBits := mkWeekdayBits { wbits : Z; uses_zero : bool; uses_seven : bool }.

Definition record_sunday_convention (v : WeekdayValue) (s : WeekdayBits) : WeekdayBits :=
  mkWeekdayBits (wbits s) (uses_zero s || numeric_zero v) (uses_seven s || numeric_seven v).

Definition with_bits (s : WeekdayBits) (b : Z) : WeekdayBits :=
  mkWeekdayBits b (uses_zero s) (uses_seven s).

(** The cyclic expansion; [fuel] counts the offsets still allowed below 7. *)
Fixpoint set_weekdays (fuel : nat) (offset step v last bits : Z) : option Z :=
  match fuel with
  | O => None
  | S fuel =>
      let bits := if offset mod step =? 0 then Z.setbit bits v else bits in
      if v =? last then Some bits
      else set_weekdays fuel (offset + 1) step ((v + 1) mod 7) last bits
  end.

Definition parse_weekday_member (member : bytes) (s : WeekdayBits) : option WeekdayBits :=
  '(base, step, has_slash) ← split_step member;
  if bytes_eqb base bs!"*" then
    if (has_slash : bool) then None else Some (with_bits s (Z.ones 7))
  else
    match find #"-" base with
    | None =>
        if (has_slash : bool) then None
        else parsed ← parse_weekday_value base;
             Some (with_bits (record_sunday_convention parsed s)
                             (Z.setbit (wbits s) (weekday parsed)))
    | Some dash =>
        if bool_decide (is_Some (find_from #"-" base (S dash))) then None
        else first ← parse_weekday_value (take dash base);
             last ← parse_weekday_value (drop (S dash) base);
             let s := record_sunday_convention last (record_sunday_convention first s) in
             bits ← set_weekdays 7 0 step (weekday first) (weekday last) (wbits s);
             Some (with_bits s bits)
    end.

Definition parse_weekday_field (field : bytes) (bits : Z) : option Z :=
  s ← fold_opt (λ s member,
    if bool_decide (member = []) then None else parse_weekday_member member s)
    (mkWeekdayBits bits false false) (members #"," field);
  if uses_zero s && uses_seven s then None else Some (wbits s).

(** Fields in order of appearance; the loop of [split_fields] without the
    count, which its caller checks below. *)
Fixpoint fields_from (current : bytes) (s : bytes) : list bytes :=
  match s with
  | [] => if bool_decide (current = []) then [] else [reverse current]
  | c :: s =>
      if is_field_separator c
      then if bool_decide (current = []) then fields_from [] s
           else reverse current :: fields_from [] s
      else fields_from (c :: current) s
  end.

Definition split_fields (expression : bytes) : option (list bytes) :=
  let fields := fields_from [] expression in
  if bool_decide (length fields = 5%nat) then Some fields else None.

Definition expanded_alias (expression : bytes) : bytes :=
  if bytes_eqb expression bs!"@hourly" then bs!"0 * * * *"
  else if bytes_eqb expression bs!"@daily" then bs!"0 0 * * *"
  else if bytes_eqb expression bs!"@weekly" then bs!"0 0 * * SUN"
  else expression.

Definition parse_cron_expression (expression : bytes) : result Error CronExpression :=
  if (512 <? Z.of_nat (length expression)) || bool_decide (is_Some (find 0 expression))
  then failure invalid_expression
  else
    match split_fields (expanded_alias (trim_field_separators expression)) with
    | Some [f0; f1; f2; f3; f4] =>
        ok_or (minutes ← parse_linear_field f0 0 59 [] 0;
               hours ← parse_linear_field f1 0 23 [] 0;
               days ← parse_linear_field f2 1 31 [] 0;
               months ← parse_linear_field f3 1 12 kMonthNames 0;
               weekdays ← parse_weekday_field f4 0;
               Some (mkCron minutes hours days months weekdays)) invalid_expression
    | _ => failure invalid_expression
    end.

End Parse.

Module Search.

(** A [LocalTimePoint] counts nanoseconds, a [LocalMinute] minutes. *)
Definition ns_per_minute : Z := 60 * 10 ^ 9.
Definition ns_per_day : Z := 86400 * 10 ^ 9.

Definition minimum_calendar_day : Z := days_from_civil year_min 1 1.
Definition maximum_calendar_day : Z := days_from_civil year_max 12 31.

Definition calendar_day_in_range (d : Z) : bool :=
  (minimum_calendar_day <=? d) && (d <=? maximum_calendar_day).

Definition minute_loop (e : CronExpression) (first_candidate hour_start : Z) : option Z :=
  for_first (λ current_minute,
    if Z.testbit (minutes e) current_minute then
      let candidate := hour_start + current_minute in
      if first_candidate <=? candidate then Some candidate else None
    else None) 0 60.

Definition hour_loop (e : CronExpression) (first_candidate date_start : Z) : option Z :=
  for_first (λ current_hour,
    if Z.testbit (hours e) current_hour
    then minute_loop e first_candidate (date_start + current_hour * 60)
    else None) 0 24.

Definition day_loop (e : CronExpression) (first_candidate y m : Z) : option Z :=
  for_first (λ current_day,
    if Z.testbit (days_of_month e) (current_day - 1) then
      let date := days_from_civil y m current_day in
      if Z.testbit (days_of_week e) (weekday_of_days date)
      then hour_loop e first_candidate (date * 1440)
      else None
    else None) 1 (Z.to_nat (days_in_month y m)).

Definition month_loop (e : CronExpression) (first_candidate y : Z) : option Z :=
  for_first (λ current_month,
    if Z.testbit (months e) (current_month - 1)
    then day_loop e first_candidate y current_month
    else None) 1 12.

Definition year_loop (e : CronExpression) (first_candidate first_year last_year : Z) : option Z :=
  for_first (month_loop e first_candidate) first_year (Z.to_nat (last_year - first_year + 1)).

Definition next_local_occurrence (e : CronExpression) (exclusive_lower_bound : Z)
    : result Error Z :=
  let lower_minute := exclusive_lower_bound / ns_per_minute in
  if lower_minute =? int64_max then failure occurrence_out_of_range
  else
    let first_candidate := lower_minute + 1 in
    let lower_day := exclusive_lower_bound / ns_per_day in
    let first_day := first_candidate / 1440 in
    if negb (calendar_day_in_range lower_day) || negb (calendar_day_in_range first_day)
    then failure occurrence_out_of_range
    else
      let first_year := year (civil_from_days first_day) in
      let last_year := year (civil_from_days lower_day) + 399 in
      if negb (year_ok last_year) then failure occurrence_out_of_range
      else ok_or (year_loop e first_candidate first_year last_year) no_future_occurrence.

(** ** Specification: what it means for a local minute to match *)

Definition matches (e : CronExpression) (m : Z) : bool :=
  let date := m / 1440 in
  let c := civil_from_days date in
  Z.testbit (months e) (month c - 1) && Z.testbit (days_of_month e) (day c - 1) &&
  Z.testbit (days_of_week e) (weekday_of_days date) &&
  Z.testbit (hours e) (m mod 1440 / 60) && Z.testbit (minutes e) (m mod 60).

Lemma matches_at e y m d h mi :
  valid_date y m d = true → 0 <= h < 24 → 0 <= mi < 60 →
  matches e (days_from_civil y m d * 1440 + h * 60 + mi) =
    Z.testbit (months e) (m - 1) && Z.testbit (days_of_month e) (d - 1) &&
    Z.testbit (days_of_week e) (weekday_of_days (days_from_civil y m d)) &&
    Z.testbit (hours e) h && Z.testbit (minutes e) mi.
Proof.
  intros Hv Hh Hm. unfold matches. set (D := days_from_civil y m d).
  replace ((D * 1440 + h * 60 + mi) / 1440) with D by dlia.
  replace ((D * 1440 + h * 60 + mi) mod 1440 / 60) with h by dlia.
  replace ((D * 1440 + h * 60 + mi) mod 60) with mi by dlia.
  subst D. by rewrite civil_from_days_from_civil.
Qed.

Section Loops.
Context (e : CronExpression) (first_candidate : Z).

Definition wanted (x : Z) : Prop := first_candidate <= x ∧ matches e x = true.

Lemma minute_loop_least y m d h :
  valid_date y m d = true → 0 <= h < 24 →
  Z.testbit (months e) (m - 1) = true → Z.testbit (days_of_month e) (d - 1) = true →
  Z.testbit (days_of_week e) (weekday_of_days (days_from_civil y m d)) = true →
  Z.testbit (hours e) h = true →
  let start := days_from_civil y m d * 1440 + h * 60 in
  least_in wanted start (start + 60) (minute_loop e first_candidate start).
Proof.
  intros Hv Hh Hmo Hd Hw Hhr start.
  pose proof (for_first_least wanted (λ i, start + i)) as HL. simpl in HL.
  replace start with (start + 0) at 1 by lia. apply HL; clear HL; [lia|].
  intros i Hi. cbv zeta. pose proof (matches_at e y m d h i Hv Hh ltac:(lia)) as Hma.
  rewrite Hmo, Hd, Hw, Hhr in Hma. simpl in Hma. fold start in Hma.
  replace (start + (i + 1)) with (start + i + 1) by lia.
  destruct (Z.testbit (minutes e) i); [destruct (Z.leb_spec first_candidate (start + i))|]; simpl.
  - unfold least_in, wanted. split_and!; (lia || done).
  - intros x Hx [? _]. lia.
  - intros x Hx [_ Hm]. replace x with (start + i) in Hm by lia. congruence.
Qed.

(** A block that fails one of the coarser tests holds no wanted minute. *)
Lemma least_in_none (P : Z → Prop) lo hi :
  (∀ x, lo <= x < hi → ¬ P x) → least_in P lo hi None.
Proof. done. Qed.

(** A minute of a given date in its coordinates. *)
Lemma minute_coordinates y m d x :
  days_from_civil y m d * 1440 <= x < days_from_civil y m d * 1440 + 1440 →
  ∃ h mi, 0 <= h < 24 ∧ 0 <= mi < 60 ∧ x = days_from_civil y m d * 1440 + h * 60 + mi.
Proof.
  intros Hx. exists ((x - days_from_civil y m d * 1440) / 60),
    ((x - days_from_civil y m d * 1440) mod 60). dlia.
Qed.

Lemma hour_loop_least y m d :
  valid_date y m d = true →
  Z.testbit (months e) (m - 1) = true → Z.testbit (days_of_month e) (d - 1) = true →
  Z.testbit (days_of_week e) (weekday_of_days (days_from_civil y m d)) = true →
  let start := days_from_civil y m d * 1440 in
  least_in wanted start (start + 1440) (hour_loop e first_candidate start).
Proof.
  intros Hv Hmo Hd Hw start.
  pose proof (for_first_least wanted (λ i, start + i * 60)) as HL. simpl in HL.
  replace start with (start + 0 * 60) at 1 by lia.
  replace (start + 1440) with (start + (0 + Z.of_nat 24) * 60) by lia.
  apply HL; clear HL; [lia|].
  intros h Hh. replace (start + (h + 1) * 60) with (start + h * 60 + 60) by lia.
  destruct (Z.testbit (hours e) h) eqn:Hhr.
  - by apply minute_loop_least; [|lia|..].
  - apply least_in_none. intros x Hx [_ Hm].
    replace x with (start + h * 60 + (x - start - h * 60)) in Hm by lia.
    subst start. rewrite matches_at, Hhr in Hm by (done || lia).
    rewrite andb_false_r in Hm. done.
Qed.

Lemma day_loop_least y m :
  1 <= m <= 12 → Z.testbit (months e) (m - 1) = true →
  let start := days_from_civil y m 1 * 1440 in
  least_in wanted start (start + days_in_month y m * 1440)
    (day_loop e first_candidate y m).
Proof.
  intros Hm Hmo start. pose proof (days_in_month_bounds y m Hm) as Hlen.
  pose proof (for_first_least wanted (λ d, days_from_civil y m d * 1440)) as HL.
  cbv beta in HL.
  replace (start + days_in_month y m * 1440)
    with (days_from_civil y m (1 + Z.of_nat (Z.to_nat (days_in_month y m))) * 1440)
    by (rewrite days_from_civil_day; subst start; lia).
  apply HL; clear HL; intros d Hd.
  { rewrite (days_from_civil_day y m d), (days_from_civil_day y m (d + 1)). lia. }
  assert (Hv : valid_date y m d = true).
  { unfold valid_date. rewrite !andb_true_iff, !Z.leb_le. lia. }
  replace (days_from_civil y m (d + 1) * 1440) with (days_from_civil y m d * 1440 + 1440)
    by (rewrite (days_from_civil_day y m d), (days_from_civil_day y m (d + 1)); lia).
  cbv zeta. destruct (Z.testbit (days_of_month e) (d - 1)) eqn:Hdm;
    [destruct (Z.testbit (days_of_week e) (weekday_of_days (days_from_civil y m d))) eqn:Hw|];
    [by apply hour_loop_least| |];
    apply least_in_none; intros x Hx [_ Hma];
    apply minute_coordinates in Hx as (h & mi & ? & ? & ->);
    rewrite matches_at in Hma by done; rewrite ?Hdm, ?Hw, ?andb_false_r in Hma; done.
Qed.

Lemma month_loop_least y :
  least_in wanted (days_from_civil y 1 1 * 1440) (days_from_civil (y + 1) 1 1 * 1440)
    (month_loop e first_candidate y).
Proof.
  pose proof (for_first_least wanted (λ m, month_first y m * 1440)) as HL. cbv beta in HL.
  change (days_from_civil y 1 1) with (month_first y 1).
  change (days_from_civil (y + 1) 1 1) with (month_first y (1 + Z.of_nat 12)).
  apply HL; clear HL; intros m Hm.
  { pose proof (month_first_mono y m (m + 1)). lia. }
  rewrite month_first_succ by lia.
  assert (month_first y m = days_from_civil y m 1) as ->.
  { unfold month_first. by rewrite (proj2 (Z.eqb_neq m 13)) by lia. }
  rewrite Z.mul_add_distr_r. destruct (Z.testbit (months e) (m - 1)) eqn:Hmo.
  { by apply day_loop_least; [lia|]. }
  apply least_in_none. intros x Hx [_ Hma].
  set (d := x / 1440 - days_from_civil y m 1 + 1).
  assert (Hd : 1 <= d <= days_in_month y m) by (subst d; dlia).
  assert (Hv : valid_date y m d = true).
  { unfold valid_date. rewrite !andb_true_iff, !Z.leb_le. lia. }
  assert (Hxd : days_from_civil y m d * 1440 <= x < days_from_civil y m d * 1440 + 1440).
  { rewrite days_from_civil_day. subst d. dlia. }
  clearbody d. apply minute_coordinates in Hxd as (h & mi & ? & ? & ->).
  rewrite matches_at in Hma by done. by rewrite Hmo in Hma.
Qed.

Lemma year_loop_least first_year last_year :
  first_year <= last_year + 1 →
  least_in wanted (days_from_civil first_year 1 1 * 1440)
    (days_from_civil (last_year + 1) 1 1 * 1440)
    (year_loop e first_candidate first_year last_year).
Proof.
  intros Hy. unfold year_loop.
  pose proof (for_first_least wanted (λ y, days_from_civil y 1 1 * 1440)) as HL.
  cbv beta in HL.
  replace (last_year + 1) with (first_year + Z.of_nat (Z.to_nat (last_year - first_year + 1))) at 1
    by lia.
  apply HL; clear HL; intros y Hi.
  - pose proof (january_mono y (y + 1)). lia.
  - apply month_loop_least.
Qed.

End Loops.

(** ** Years with the same calendar *)

Definition same_calendar (y y' : Z) : bool :=
  Bool.eqb (is_leap_year y) (is_leap_year y') &&
  (weekday_of_days (days_from_civil y 1 1) =? weekday_of_days (days_from_civil y' 1 1)).

Lemma weekday_shift a b k : weekday_of_days a = weekday_of_days b →
  weekday_of_days (a + k) = weekday_of_days (b + k).
Proof. unfold weekday_of_days. intros. dlia. Qed.

Lemma same_calendar_period y y' k k' :
  same_calendar (y + 400 * k) (y' + 400 * k') = same_calendar y y'.
Proof.
  unfold same_calendar. rewrite !is_leap_year_period, !days_from_civil_period.
  assert (Hw : ∀ a j, weekday_of_days (a + 146097 * j) = weekday_of_days a).
  { intros a j. unfold weekday_of_days.
    replace (a + 146097 * j + 4) with (a + 4 + (20871 * j) * 7) by lia.
    by rewrite Z.mod_add by lia. }
  by rewrite !Hw.
Qed.

(** Each of the 400 years of the cycle has a twin among the next 40. *)
Definition has_twin (r : Z) : bool :=
  match for_first (λ k, if same_calendar r (r + k) then Some k else None) 1 40 with
  | Some _ => true
  | None => false
  end.

Lemma for_first_some {A} (f : Z → option A) start n a :
  for_first f start n = Some a → ∃ i, start <= i < start + Z.of_nat n ∧ f i = Some a.
Proof.
  revert start. induction n as [|n IH]; intros start; simpl; [done|].
  destruct (f start) eqn:Hf; intros H.
  - simplify_eq. exists start. split; [lia|done].
  - destruct (IH (start + 1) H) as (i & ? & ?). exists i. split; [lia|done].
Qed.

Lemma all_twins : forallb (λ n, has_twin (Z.of_nat n)) (seq 0 400) = true.
Proof. vm_compute. done. Qed.

Lemma twin_year y : ∃ y', y < y' <= y + 40 ∧ same_calendar y y' = true.
Proof.
  set (r := y mod 400). assert (Hr : 0 <= r < 400) by (apply Z.mod_pos_bound; lia).
  pose proof all_twins as Hall. rewrite forallb_forall in Hall.
  specialize (Hall (Z.to_nat r)). rewrite in_seq, Z2Nat.id in Hall by lia.
  specialize (Hall ltac:(lia)). unfold has_twin in Hall.
  destruct (for_first _ 1 40) as [k|] eqn:Hk; [|done].
  apply for_first_some in Hk as (i & Hi & Hc). case_match; simplify_eq.
  exists (y + k). split; [lia|].
  pose proof (Z.div_mod y 400 ltac:(lia)) as Hy. fold r in Hy.
  rewrite Hy. replace (400 * (y / 400) + r) with (r + 400 * (y / 400)) by lia.
  replace (r + 400 * (y / 400) + k) with (r + k + 400 * (y / 400)) by lia.
  by rewrite same_calendar_period.
Qed.

(** Every calendar occurs strictly inside each window of 400 years. *)
Lemma twin_in_window y y0 : ∃ y', y0 < y' < y0 + 400 ∧ same_calendar y y' = true.
Proof.
  set (k := (y0 - y) / 400 + 1).
  assert (Hk : y0 < y + 400 * k <= y0 + 400) by (subst k; dlia).
  destruct (decide (y + 400 * k = y0 + 400)) as [He|He].
  - destruct (twin_year y) as (y' & Hy' & Hs). exists (y' + 400 * (k - 1)).
    split; [lia|]. rewrite <- (Z.add_0_r y). change 0 with (400 * 0).
    by rewrite same_calendar_period.
  - exists (y + 400 * k). split; [lia|].
    rewrite <- (Z.add_0_r y) at 1. change 0 with (400 * 0).
    rewrite same_calendar_period. unfold same_calendar.
    by rewrite Bool.eqb_reflx, Z.eqb_refl.
Qed.

Lemma same_calendar_weekday y y' m d :
  1 <= m <= 12 → same_calendar y y' = true →
  weekday_of_days (days_from_civil y m d) = weekday_of_days (days_from_civil y' m d).
Proof.
  intros Hm Hs. unfold same_calendar in Hs. rewrite andb_true_iff, Z.eqb_eq in Hs.
  destruct Hs as [Hl Hw]. apply Bool.eqb_prop in Hl.
  rewrite (days_from_january y), (days_from_january y'), Hl by done.
  by apply weekday_shift.
Qed.

(** A matching minute has a twin in every window of 400 years. *)
Lemma matches_in_window e x y0 :
  matches e x = true →
  ∃ x', days_from_civil (y0 + 1) 1 1 * 1440 <= x' < days_from_civil (y0 + 400) 1 1 * 1440 ∧
        matches e x' = true.
Proof.
  intros Hx. destruct (days_from_civil_from_days (x / 1440)) as [Hv Hd].
  destruct (civil_from_days (x / 1440)) as [y m d]. simpl in *.
  destruct (minute_coordinates y m d x) as (h & mi & Hh & Hmi & ->); [rewrite Hd; dlia|].
  clear Hd. rewrite matches_at in Hx by done.
  destruct (twin_in_window y y0) as (y' & Hy' & Hs).
  assert (Hm : 1 <= m <= 12).
  { unfold valid_date in Hv. rewrite !andb_true_iff, !Z.leb_le in Hv. lia. }
  assert (Hv' : valid_date y' m d = true).
  { unfold same_calendar in Hs. apply andb_true_iff in Hs as [Hl%Bool.eqb_prop _].
    unfold valid_date, days_in_month in *. by rewrite <- Hl. }
  exists (days_from_civil y' m d * 1440 + h * 60 + mi). split.
  - pose proof (civil_year_bounds (days_from_civil y' m d)) as Hb.
    rewrite civil_from_days_from_civil in Hb by done. simpl in Hb.
    pose proof (january_mono (y0 + 1) y'). pose proof (january_mono (y' + 1) (y0 + 400)). lia.
  - by rewrite matches_at, <- (same_calendar_weekday y y').
Qed.

(** The nanosecond clock stays well inside the representable years. *)
Lemma int64_day_range d :
  -106753 <= d <= 106753 →
  calendar_day_in_range d = true ∧ 1600 <= year (civil_from_days d) <= 2300.
Proof.
  intros Hd. split.
  - unfold calendar_day_in_range. rewrite andb_true_iff, !Z.leb_le.
    change minimum_calendar_day with (-12687428). change maximum_calendar_day with 11248737. lia.
  - pose proof (civil_year_bounds d) as Hb. cbv zeta in Hb.
    set (y := year (civil_from_days d)) in *.
    pose proof (january_mono (y + 1) 1600). pose proof (january_mono 2301 y).
    change (days_from_civil 1600 1 1) with (-135140) in *.
    change (days_from_civil 2301 1 1) with 120895 in *. lia.
Qed.

(** The three range checks never fire for an instant of the system clock. *)
Lemma next_local_occurrence_in_range e lb :
  in_int64 lb →
  let first_candidate := lb / ns_per_minute + 1 in
  let lower_year := year (civil_from_days (lb / ns_per_day)) in
  let first_year := year (civil_from_days (first_candidate / 1440)) in
  next_local_occurrence e lb =
    ok_or (year_loop e first_candidate first_year (lower_year + 399)) no_future_occurrence ∧
  lower_year <= first_year <= lower_year + 1.
Proof.
  unfold in_int64, int64_min, int64_max. intros Hlb. cbv zeta. unfold next_local_occurrence.
  assert (Hm : -153722868 <= lb / ns_per_minute <= 153722868) by (unfold ns_per_minute; dlia).
  assert (Hd : lb / ns_per_day = lb / ns_per_minute / 1440).
  { unfold ns_per_day, ns_per_minute. by rewrite Z.div_div by lia. }
  rewrite (proj2 (Z.eqb_neq (lb / ns_per_minute) int64_max)) by (unfold int64_max; lia).
  destruct (int64_day_range (lb / ns_per_day)) as [Hr Hy]; [rewrite Hd; dlia|].
  destruct (int64_day_range ((lb / ns_per_minute + 1) / 1440)) as [Hr' Hy']; [dlia|].
  rewrite Hr, Hr'. cbn [negb orb].
  assert (year_ok (year (civil_from_days (lb / ns_per_day)) + 399) = true) as ->.
  { unfold year_ok. rewrite wrap_signed_id by lia.
    rewrite andb_true_iff, !Z.leb_le. unfold year_min, year_max. lia. }
  cbn [negb]. split; [done|]. rewrite Hd in *.
  set (D := lb / ns_per_minute / 1440) in *. set (D' := (lb / ns_per_minute + 1) / 1440) in *.
  assert (HD : D <= D' <= D + 1) by (subst D D'; dlia).
  pose proof (civil_year_bounds D) as HbD. pose proof (civil_year_bounds D') as HbD'.
  cbv zeta in HbD, HbD'. clearbody D D'.
  set (y := year (civil_from_days D)) in *. set (y' := year (civil_from_days D')) in *.
  pose proof (january_mono (y' + 1) y). pose proof (january_mono (y + 2) y').
  pose proof (year_length (y + 1)) as Hl. replace (y + 1 + 1) with (y + 2) in Hl by lia.
  destruct (is_leap_year (y + 1)); lia.
Qed.

Lemma next_local_occurrence_exact e lb :
  in_int64 lb →
  match next_local_occurrence e lb with
  | success m =>
      lb < m * ns_per_minute ∧ matches e m = true ∧
      ∀ x, lb < x * ns_per_minute → matches e x = true → m <= x
  | failure err => err = no_future_occurrence ∧ ∀ x, matches e x = false
  end.
Proof.
  intros Hlb. destruct (next_local_occurrence_in_range e lb Hlb) as [-> Hy]. cbv zeta in *.
  set (fc := lb / ns_per_minute + 1) in *.
  assert (Hfc : ∀ x, lb < x * ns_per_minute ↔ fc <= x).
  { intros x. subst fc. unfold ns_per_minute. dlia. }
  set (fy := year (civil_from_days (fc / 1440))) in *.
  set (ly := year (civil_from_days (lb / ns_per_day))) in *.
  pose proof (year_loop_least e fc fy (ly + 399) ltac:(lia)) as HL.
  replace (ly + 399 + 1) with (ly + 400) in HL by lia.
  pose proof (civil_year_bounds (fc / 1440)) as Hb. cbv zeta in Hb. fold fy in Hb.
  destruct (year_loop e fc fy (ly + 399)) as [m|]; simpl in HL |- *.
  - destruct HL as (Hm & [Hge Hma] & Hno). split_and!; [by apply Hfc|done|].
    intros x Hx%Hfc Hmx. destruct (decide (m <= x)) as [|Hlt]; [done|].
    exfalso. apply (Hno x); [|by split]. dlia.
  - split; [done|]. intros x. destruct (matches e x) eqn:Hmx; [|done].
    destruct (matches_in_window e x ly Hmx) as (x' & Hx' & Hmx').
    exfalso. pose proof (january_mono fy (ly + 1)).
    apply (HL x'); [lia|]. split; [|done].
    assert (fc <= days_from_civil (ly + 1) 1 1 * 1440); [|lia].
    pose proof (civil_year_bounds (lb / ns_per_day)) as Hbl. cbv zeta in Hbl. fold ly in Hbl.
    subst fc. unfold ns_per_day, ns_per_minute in *. dlia.
Qed.

(** C32.  The search for the next occurrence is exact.  On success the result
    is the least local minute after the lower bound that matches all five
    fields, day of month and weekday conjunctively; on failure the error is
    [no_future_occurrence] and no minute at all matches the expression. *)
Theorem next_local_occurrence_spec e lb :
  in_int64 lb →
  match next_local_occurrence e lb with
  | success m =>
      lb < m * ns_per_minute ∧ matches e m = true ∧
      ∀ x, lb < x * ns_per_minute → matches e x = true → m <= x
  | failure err => err = no_future_occurrence ∧ ∀ x, matches e x = false
  end.
Proof. apply next_local_occurrence_exact. Qed.

(** "30 2 29 2 SUN": the first Sunday that is a leap day after 1970. *)
Definition leap_sunday : CronExpression := mkCron (2 ^ 30) (2 ^ 2) (2 ^ 28) (2 ^ 1) (2 ^ 0).

Lemma next_local_occurrence_spec_witness :
  next_local_occurrence leap_sunday 0 = success 3240150 ∧
  ∀ x, 0 < x * ns_per_minute → matches leap_sunday x = true → 3240150 <= x.
Proof.
  assert (Heq : next_local_occurrence leap_sunday 0 = success 3240150)
    by (vm_compute; reflexivity).
  split; [exact Heq|].
  pose proof (next_local_occurrence_spec leap_sunday 0
    ltac:(unfold in_int64, int64_min, int64_max; lia)) as H.
  rewrite Heq in H. apply H.
Defined.

End Search.
