(* ===== verification/CronGrammar.v ===== *)
(** * Cron expressions: the language the parser accepts

    An abstract syntax of the five fields with a denotation as sets of
    numbers, and the theorems that relate the parser of [CronExpression] to
    it: whatever the parser accepts denotes a set of in-range values, and
    every well-formed abstract schedule, once printed, is parsed to exactly
    its denotation. *)

From stdpp Require Import base list numbers strings sets.
From Stdlib Require Import Ascii.
From S2P Require Import Prelude Calendar CronExpression.
Import CronExpression.Parse.
Local Open Scope Z_scope.



(** ** Step loops *)

(** The values [first], [first + step], ... up to [last]. *)
Definition stepped (first last step v : Z) : bool :=
  (first <=? v) && (v <=? last) && ((v - first) mod step =? 0).

Lemma stepped_next first last step v :
  0 < step → stepped first last step v = ((v =? first) && (first <=? last)) || stepped (first + step) last step v.
Proof.
  intros Hs. unfold stepped. destruct (Z.eqb_spec v first) as [->|Hne].
  - rewrite Z.leb_refl, Z.sub_diag, Z.mod_0_l by lia. simpl.
    rewrite (proj2 (Z.leb_gt (first + step) first)) by lia. simpl.
    by rewrite andb_true_r, orb_false_r.
  - simpl. replace (v - first) with (v - (first + step) + 1 * step) by lia.
    rewrite Z.mod_add by lia.
    destruct (Z.leb_spec first v), (Z.leb_spec (first + step) v); simpl; try done; try lia.
    rewrite (proj2 (Z.eqb_neq ((v - (first + step)) mod step) 0)), andb_false_r; [done|].
    replace (v - (first + step)) with (v - first + (-1) * step) by lia.
    rewrite Z.mod_add by lia. rewrite Z.mod_small; lia.
Qed.

Lemma set_steps_testbit fuel minimum last step v bits i :
  0 < step → minimum <= v → (Z.to_nat (last - v) < fuel)%nat → 0 <= i →
  Z.testbit (set_steps fuel minimum last step v bits) i =
    Z.testbit bits i || stepped v last step (i + minimum).
Proof.
  intros Hs. revert v bits. induction fuel as [|fuel IH]; intros v bits Hv Hf Hi; [lia|].
  simpl. destruct (Z.ltb_spec last v).
  { unfold stepped. rewrite orb_comm.
    destruct (Z.leb_spec v (i + minimum)), (Z.leb_spec (i + minimum) last); simpl; done || lia. }
  rewrite (stepped_next v) by done. rewrite (proj2 (Z.leb_le v last)), andb_true_r by lia.
  assert (Hbit : Z.testbit (Z.setbit bits (v - minimum)) i = Z.testbit bits i || (i + minimum =? v)).
  { rewrite Z.setbit_eqb by lia. rewrite orb_comm. f_equal.
    destruct (Z.eqb_spec (v - minimum) i), (Z.eqb_spec (i + minimum) v); done || lia. }
  destruct (Z.ltb_spec (last - v) step).
  - rewrite Hbit. f_equal. symmetry. apply orb_false_intro || idtac.
    unfold stepped. rewrite (orb_comm (_ =? _)).
    destruct (Z.leb_spec (v + step) (i + minimum)), (Z.leb_spec (i + minimum) last);
      simpl; done || lia.
  - rewrite IH, Hbit, orb_assoc by lia. done.
Qed.

(** ** Cyclic weekday ranges *)

(** Weekday [w] is [first + k] modulo 7 for a multiple [k] of the step that
    does not pass [last]. *)
Definition cyclic_stepped (first last step w : Z) : bool :=
  let k := (w - first) mod 7 in
  (k <=? (last - first) mod 7) && (k mod step =? 0).

Lemma mod7_succ a v : 0 <= v < 7 → a mod 7 ≠ v mod 7 →
  (a - (v + 1) mod 7) mod 7 = (a - v) mod 7 - 1.
Proof. intros. dlia. Qed.

Lemma set_weekdays_testbit fuel offset step v last bits :
  0 < step → 0 <= v < 7 → 0 <= last < 7 → (last - v) mod 7 < Z.of_nat fuel →
  ∃ bits', set_weekdays fuel offset step v last bits = Some bits' ∧
  ∀ i, 0 <= i < 7 →
    Z.testbit bits' i = Z.testbit bits i ||
      (((i - v) mod 7 <=? (last - v) mod 7) && ((offset + (i - v) mod 7) mod step =? 0)).
Proof.
  intros Hs. revert offset v bits. induction fuel as [|fuel IH]; intros offset v bits Hv Hl Hf.
  { dlia. }
  simpl. set (bits1 := if offset mod step =? 0 then Z.setbit bits v else bits).
  assert (Hb1 : ∀ i, 0 <= i < 7 →
    Z.testbit bits1 i = Z.testbit bits i || ((i =? v) && (offset mod step =? 0))).
  { intros i Hi. subst bits1. destruct (offset mod step =? 0); rewrite ?andb_false_r, ?orb_false_r; [|done].
    rewrite Z.setbit_eqb, andb_true_r, orb_comm by lia. by rewrite (Z.eqb_sym v i). }
  destruct (Z.eqb_spec v last) as [->|Hne].
  - eexists. split; [done|]. intros i Hi. rewrite Hb1 by done. f_equal.
    rewrite Z.sub_diag, Z.mod_0_l by lia.
    destruct (Z.eqb_spec i last) as [->|].
    + by rewrite Z.sub_diag, Z.mod_0_l, Z.add_0_r by lia.
    + rewrite (proj2 (Z.leb_gt ((i - last) mod 7) 0)); [done|dlia].
  - assert (Hm : last mod 7 ≠ v mod 7) by dlia.
    pose proof (mod7_succ last v Hv Hm) as Hlast.
    destruct (IH (offset + 1) ((v + 1) mod 7) bits1) as (bits' & -> & Hbits');
      [dlia|done|lia|].
    eexists. split; [done|]. intros i Hi. rewrite Hbits', Hb1, <- orb_assoc by done. f_equal.
    rewrite Hlast. destruct (Z.eqb_spec i v) as [->|Hiv].
    + rewrite Z.sub_diag, Z.mod_0_l, Z.add_0_r by lia.
      rewrite (proj2 (Z.leb_gt ((v - (v + 1) mod 7) mod 7) _)) by dlia.
      rewrite (proj2 (Z.leb_le 0 _)) by dlia. simpl. by rewrite orb_false_r.
    + rewrite mod7_succ by (done || dlia). simpl.
      replace (offset + 1 + ((i - v) mod 7 - 1)) with (offset + (i - v) mod 7) by lia.
      f_equal. destruct (Z.leb_spec ((i - v) mod 7 - 1) ((last - v) mod 7 - 1)),
        (Z.leb_spec ((i - v) mod 7) ((last - v) mod 7)); done || lia.
Qed.

(** The loop of [parse_weekday_member] always meets [last] within seven
    offsets, so its final [return false] is unreachable. *)
Lemma set_weekdays_spec step first last bits :
  0 < step → 0 <= first < 7 → 0 <= last < 7 →
  ∃ bits', set_weekdays 7 0 step first last bits = Some bits' ∧
  ∀ i, 0 <= i < 7 →
    Z.testbit bits' i = Z.testbit bits i || cyclic_stepped first last step i.
Proof. intros. apply set_weekdays_testbit; try done. dlia. Qed.

(** ** Soundness: accepted text denotes in-range values *)

(** A block of values [first], [first + step], ..., at most [last]. *)
Record Span := mkSpan { span_first : Z; span_last : Z; span_step : Z }.

Definition span_ok (minimum maximum : Z) (s : Span) : Prop :=
  minimum <= span_first s ∧ span_first s <= span_last s ∧ span_last s <= maximum ∧ 0 < span_step s.
Definition span_has (v : Z) (s : Span) : bool :=
  stepped (span_first s) (span_last s) (span_step s) v.

(** A weekday range, read forward and modulo 7. *)
Definition weekday_span_ok (s : Span) : Prop :=
  0 <= span_first s < 7 ∧ 0 <= span_last s < 7 ∧ 0 < span_step s.
Definition weekday_span_has (v : Z) (s : Span) : bool :=
  cyclic_stepped (span_first s) (span_last s) (span_step s) v.

Definition linear_adds (minimum : Z) (spans : list Span) (bits bits' : Z) : Prop :=
  ∀ i, 0 <= i →
    Z.testbit bits' i = Z.testbit bits i || existsb (span_has (i + minimum)) spans.
Definition weekday_adds (spans : list Span) (bits bits' : Z) : Prop :=
  ∀ i, 0 <= i < 7 →
    Z.testbit bits' i = Z.testbit bits i || existsb (weekday_span_has i) spans.

Definition names_ok (minimum maximum : Z) (names : list FieldName) : Prop :=
  Forall (λ n, minimum <= value n <= maximum) names.

Lemma lookup_name_ok minimum maximum names s v :
  names_ok minimum maximum names → lookup_name s names = Some v → minimum <= v <= maximum.
Proof. induction 1; simpl; [done|]. case_match; intros; simplify_eq; auto. Qed.

Lemma parse_linear_value_ok minimum maximum names s v :
  names_ok minimum maximum names → parse_linear_value s minimum maximum names = Some v →
  minimum <= v <= maximum.
Proof.
  unfold parse_linear_value. intros Hn. destruct (lookup_name s names) eqn:Hl.
  - intros [= <-]. by eapply lookup_name_ok.
  - destruct (parse_unsigned s); [|done]. case_match eqn:Hc; [done|]. intros [= <-].
    apply orb_false_iff in Hc as [?%Z.ltb_ge ?%Z.ltb_ge]. done.
Qed.

Lemma split_step_ok member base step slash :
  split_step member = Some (base, step, slash) → 0 < step.
Proof.
  unfold split_step, parse_unsigned.
  case_match; [done|]. repeat case_match; intros; simplify_eq;
    repeat match goal with
    | H : from_chars_all _ _ = Some _ |- _ => apply from_chars_all_range in H
    | H : _ || _ = false |- _ => apply orb_false_iff in H as [? ?]
    end; rewrite ?Z.eqb_neq in *; lia.
Qed.

Lemma set_steps_adds minimum first last step bits :
  0 < step → minimum <= first → first <= last →
  linear_adds minimum [mkSpan first last step] bits
    (set_steps (step_fuel first last) minimum last step first bits).
Proof.
  intros Hs Hm Hle i Hi. unfold step_fuel. rewrite set_steps_testbit by lia.
  simpl. by rewrite orb_false_r.
Qed.

Lemma setbit_adds minimum v bits :
  minimum <= v → linear_adds minimum [mkSpan v v 1] bits (Z.setbit bits (v - minimum)).
Proof.
  intros Hv i Hi. rewrite Z.setbit_eqb by lia. rewrite orb_comm. f_equal. simpl.
  rewrite orb_false_r. unfold span_has, stepped. simpl. rewrite Z.mod_1_r, andb_true_r.
  destruct (Z.eqb_spec (v - minimum) i), (Z.leb_spec v (i + minimum)),
    (Z.leb_spec (i + minimum) v); simpl; done || lia.
Qed.

Lemma set_steps_nonneg fuel minimum last step v bits :
  0 < step → minimum <= v → 0 <= bits → 0 <= set_steps fuel minimum last step v bits.
Proof.
  intros Hs. revert v bits. induction fuel as [|fuel IH]; intros v bits Hv Hb; simpl; [done|].
  assert (0 <= Z.setbit bits (v - minimum)).
  { rewrite Z.setbit_spec'. apply Z.lor_nonneg. split; [done|]. apply Z.pow_nonneg. lia. }
  repeat case_match; try done. apply IH; [lia|done].
Qed.

Lemma setbit_nonneg bits i : 0 <= bits → 0 <= Z.setbit bits i.
Proof.
  intros Hb. rewrite Z.setbit_spec'. apply Z.lor_nonneg. split; [done|].
  apply Z.pow_nonneg. lia.
Qed.

#[local] Opaque set_steps.

Lemma parse_linear_member_sound member minimum maximum names bits bits' :
  minimum <= maximum → names_ok minimum maximum names → 0 <= bits →
  parse_linear_member member minimum maximum names bits = Some bits' →
  0 <= bits' ∧ ∃ s, span_ok minimum maximum s ∧ linear_adds minimum [s] bits bits'.
Proof.
  intros Hmm Hn Hb. unfold parse_linear_member.
  destruct (split_step member) as [[[base step] slash]|] eqn:Hs; [|done]. simpl.
  apply split_step_ok in Hs. case_match.
  { intros [= <-]. split; [by apply set_steps_nonneg|].
    exists (mkSpan minimum maximum step). split; [unfold span_ok; simpl; lia|].
    by apply set_steps_adds. }
  destruct (find _ base).
  - case_match; [done|].
    destruct (parse_linear_value (take n base) minimum maximum names) as [first|] eqn:Hf; [|done].
    destruct (parse_linear_value (drop (S n) base) minimum maximum names) as [last|] eqn:Hl; [|done].
    simpl. apply parse_linear_value_ok in Hf; [|done]. apply parse_linear_value_ok in Hl; [|done].
    destruct (Z.ltb_spec last first); [done|]. intros [= <-].
    split; [apply set_steps_nonneg; lia|].
    exists (mkSpan first last step). split; [unfold span_ok; simpl; lia|].
    apply set_steps_adds; lia.
  - destruct slash; [done|].
    destruct (parse_linear_value base minimum maximum names) as [v|] eqn:Hv; [|done].
    simpl. apply parse_linear_value_ok in Hv; [|done]. intros [= <-].
    split; [by apply setbit_nonneg|].
    exists (mkSpan v v 1). split; [unfold span_ok; simpl; lia|]. apply setbit_adds; lia.
Qed.

Lemma linear_adds_app minimum l1 l2 b1 b2 b3 :
  linear_adds minimum l1 b1 b2 → linear_adds minimum l2 b2 b3 →
  linear_adds minimum (l1 ++ l2) b1 b3.
Proof.
  intros H1 H2 i Hi. by rewrite H2, H1, existsb_app, orb_assoc.
Qed.

Lemma members_ne c s : members c s ≠ [].
Proof. destruct s; simpl; repeat case_match; done. Qed.

Lemma parse_linear_field_sound field minimum maximum names bits bits' :
  minimum <= maximum → names_ok minimum maximum names → 0 <= bits →
  parse_linear_field field minimum maximum names bits = Some bits' →
  0 <= bits' ∧ ∃ spans, spans ≠ [] ∧ Forall (span_ok minimum maximum) spans ∧
    linear_adds minimum spans bits bits'.
Proof.
  intros Hmm Hn Hb. unfold parse_linear_field.
  pose proof (members_ne (#",") field) as Hne. revert Hne bits Hb.
  induction (members _ field) as [|m ms IH]; [done|]. intros _ bits Hb. simpl.
  case_bool_decide; [done|].
  destruct (parse_linear_member m minimum maximum names bits) as [b1|] eqn:Hm; [|done]. simpl.
  apply parse_linear_member_sound in Hm as (Hb1 & s & Hs & Ha); [|done..].
  destruct ms as [|m' ms].
  - simpl. intros [= <-]. split; [done|]. exists [s]. split_and!; [done|by constructor|done].
  - intros Hr. apply IH in Hr as (? & spans & ? & ? & ?); [|done..].
    split; [done|]. exists ([s] ++ spans). split_and!; [done|by constructor|].
    by eapply linear_adds_app.
Qed.

Lemma weekday_adds_app l1 l2 b1 b2 b3 :
  weekday_adds l1 b1 b2 → weekday_adds l2 b2 b3 → weekday_adds (l1 ++ l2) b1 b3.
Proof. intros H1 H2 i Hi. by rewrite H2, H1, existsb_app, orb_assoc. Qed.

(** Bits outside the seven weekdays are never set. *)
Definition week_bits (b : Z) : Prop := 0 <= b ∧ ∀ i, 7 <= i → Z.testbit b i = false.

Lemma setbit_week_bits b v : 0 <= v < 7 → week_bits b → week_bits (Z.setbit b v).
Proof.
  intros Hv [Hb Hi]. split; [by apply setbit_nonneg|].
  intros i Hge. rewrite Z.setbit_eqb by lia. rewrite Hi by done.
  by rewrite (proj2 (Z.eqb_neq v i)) by lia.
Qed.

Lemma set_weekdays_week_bits fuel offset step v last b b' :
  0 <= v < 7 → week_bits b → set_weekdays fuel offset step v last b = Some b' → week_bits b'.
Proof.
  revert offset v b. induction fuel as [|fuel IH]; intros offset v b Hv Hb; simpl; [done|].
  assert (Hb1 : week_bits (if offset mod step =? 0 then Z.setbit b v else b)).
  { case_match; [by apply setbit_week_bits|done]. }
  destruct (v =? last); [by intros [= <-]|]. apply IH; [dlia|done].
Qed.

Lemma parse_weekday_value_ok s v :
  parse_weekday_value s = Some v → 0 <= weekday v < 7.
Proof.
  unfold parse_weekday_value. destruct (lookup_name s kWeekdayNames) as [n|] eqn:Hl.
  - intros [= <-]. apply (lookup_name_ok 0 6) in Hl; [simpl; lia|].
    repeat constructor; simpl; lia.
  - destruct (parse_unsigned s) as [n|] eqn:Hp; [|done].
    apply from_chars_all_range in Hp. destruct (Z.ltb_spec 7 n); [done|].
    intros [= <-]. simpl. case_match; [lia|]. rewrite Z.eqb_neq in *. lia.
Qed.

Lemma weekday_single_has v i :
  0 <= v < 7 → 0 <= i < 7 → weekday_span_has i (mkSpan v v 1) = (i =? v).
Proof.
  intros Hv Hi. unfold weekday_span_has, cyclic_stepped. simpl.
  rewrite Z.mod_1_r, andb_true_r, Z.sub_diag, Z.mod_0_l by lia.
  destruct (Z.eqb_spec i v), (Z.leb_spec ((i - v) mod 7) 0); done || dlia.
Qed.

Lemma parse_weekday_member_sound member s s' :
  week_bits (wbits s) → parse_weekday_member member s = Some s' →
  week_bits (wbits s') ∧
  ∃ sp, weekday_span_ok sp ∧ weekday_adds [sp] (wbits s) (wbits s').
Proof.
  intros Hb. unfold parse_weekday_member.
  destruct (split_step member) as [[[base step] slash]|] eqn:Hs; [|done]. cbn [mbind option_bind].
  apply split_step_ok in Hs. case_match.
  { destruct slash; [done|]. intros [= <-]. cbn [with_bits wbits].
    split; [split; [done|]; intros i Hi; by rewrite Z.ones_spec_high by lia|].
    exists (mkSpan 0 6 1). split; [unfold weekday_span_ok; simpl; lia|].
    intros i Hi. rewrite Z.ones_spec_low by lia. simpl.
    unfold weekday_span_has, cyclic_stepped. simpl.
    rewrite Z.mod_1_r, andb_true_r, orb_false_r.
    rewrite (proj2 (Z.leb_le ((i - 0) mod 7) ((6 - 0) mod 7))) by dlia. by rewrite orb_true_r. }
  destruct (find _ base) as [dash|].
  - case_match; [done|].
    destruct (parse_weekday_value (take dash base)) as [first|] eqn:Hf; [|done].
    destruct (parse_weekday_value (drop (S dash) base)) as [last|] eqn:Hl; [|done].
    cbn [mbind option_bind]. apply parse_weekday_value_ok in Hf, Hl.
    destruct (set_weekdays_spec step (weekday first) (weekday last) (wbits s) Hs Hf Hl)
      as (bits' & He & Ha). cbn [record_sunday_convention wbits]. rewrite He.
    cbn [mbind option_bind]. intros [= <-]. cbn [with_bits wbits].
    split; [by eapply set_weekdays_week_bits, He|].
    exists (mkSpan (weekday first) (weekday last) step).
    split; [done|]. intros i Hi. rewrite Ha by done. simpl. by rewrite orb_false_r.
  - destruct slash; [done|].
    destruct (parse_weekday_value base) as [v|] eqn:Hv; [|done].
    cbn [mbind option_bind]. apply parse_weekday_value_ok in Hv. intros [= <-].
    cbn [with_bits wbits]. split; [by apply setbit_week_bits|].
    exists (mkSpan (weekday v) (weekday v) 1).
    split; [unfold weekday_span_ok; simpl; lia|]. intros i Hi. cbn [existsb].
    rewrite weekday_single_has by done. rewrite Z.setbit_eqb by lia.
    rewrite orb_false_r, orb_comm. by rewrite (Z.eqb_sym (weekday v) i).
Qed.

Lemma weekday_members_sound ms st s' :
  ms ≠ [] → week_bits (wbits st) →
  fold_opt (λ s member, if bool_decide (member = []) then None
                        else parse_weekday_member member s) st ms = Some s' →
  week_bits (wbits s') ∧ ∃ spans, spans ≠ [] ∧ Forall weekday_span_ok spans ∧
    weekday_adds spans (wbits st) (wbits s').
Proof.
  intros Hne. revert st. induction ms as [|m ms IH]; [done|]. intros st Hb. cbn [fold_opt].
  case_bool_decide; [done|].
  destruct (parse_weekday_member m st) as [s1|] eqn:Hm; [|done]. cbn [mbind option_bind].
  apply parse_weekday_member_sound in Hm as (Hb1 & s & Hs & Ha); [|done].
  destruct ms as [|m' ms].
  - intros [= <-]. split; [done|]. exists [s]. split_and!; [done|by constructor|done].
  - intros Hr. apply IH in Hr as (? & spans & ? & ? & ?); [|done..].
    split; [done|]. exists ([s] ++ spans). split_and!; [done|by constructor|].
    by eapply weekday_adds_app.
Qed.

Lemma parse_weekday_field_sound field bits bits' :
  week_bits bits → parse_weekday_field field bits = Some bits' →
  week_bits bits' ∧ ∃ spans, spans ≠ [] ∧ Forall weekday_span_ok spans ∧
    weekday_adds spans bits bits'.
Proof.
  unfold parse_weekday_field. intros Hb.
  destruct (fold_opt _ _ _) as [s'|] eqn:Hf; [|done]. cbn [mbind option_bind].
  apply weekday_members_sound in Hf; [|by apply members_ne|done].
  by case_match; [|intros [= <-]].
Qed.

(** ** The whole expression *)

(** The five fields as lists of spans. *)
Record Schedule := mkSchedule {
  s_minutes : list Span; s_hours : list Span; s_days : list Span;
  s_months : list Span; s_weekdays : list Span }.

Definition field_ok (minimum maximum : Z) (spans : list Span) : Prop :=
  spans ≠ [] ∧ Forall (span_ok minimum maximum) spans.

Definition schedule_ok (s : Schedule) : Prop :=
  field_ok 0 59 (s_minutes s) ∧ field_ok 0 23 (s_hours s) ∧ field_ok 1 31 (s_days s) ∧
  field_ok 1 12 (s_months s) ∧ s_weekdays s ≠ [] ∧ Forall weekday_span_ok (s_weekdays s).

(** [e] holds exactly the values of [s]. *)
Definition denotes (s : Schedule) (e : CronExpression) : Prop :=
  linear_adds 0 (s_minutes s) 0 (minutes e) ∧ linear_adds 0 (s_hours s) 0 (hours e) ∧
  linear_adds 1 (s_days s) 0 (days_of_month e) ∧ linear_adds 1 (s_months s) 0 (months e) ∧
  weekday_adds (s_weekdays s) 0 (days_of_week e).

(** Every bit set fits its [std::bitset] and is not empty: no [set] or [test]
    of the program is out of range. *)
Definition bits_in (n b : Z) : Prop := 0 < b < 2 ^ n.

Definition expression_wf (e : CronExpression) : Prop :=
  bits_in 60 (minutes e) ∧ bits_in 24 (hours e) ∧ bits_in 31 (days_of_month e) ∧
  bits_in 12 (months e) ∧ bits_in 7 (days_of_week e).

Lemma bits_in_intro n b i :
  0 <= n → 0 <= b → (∀ j, n <= j → Z.testbit b j = false) → Z.testbit b i = true → bits_in n b.
Proof.
  intros Hn Hb Hhigh Hi. split.
  - destruct (decide (b = 0)) as [->|]; [by rewrite Z.bits_0 in Hi|lia].
  - destruct (decide (b = 0)) as [->|]; [apply Z.pow_pos_nonneg; lia|].
    apply Z.log2_lt_pow2; [lia|]. destruct (decide (Z.log2 b < n)) as [|Hge]; [done|].
    specialize (Hhigh (Z.log2 b) ltac:(lia)). by rewrite Z.bit_log2 in Hhigh by lia.
Qed.

Lemma linear_bits_in minimum maximum spans b :
  0 <= minimum → minimum <= maximum → 0 <= b → field_ok minimum maximum spans →
  linear_adds minimum spans 0 b → bits_in (maximum - minimum + 1) b.
Proof.
  intros H0 Hmm Hb [Hne Hok] Ha. destruct spans as [|s spans]; [done|].
  apply Forall_cons in Hok as Hs. destruct Hs as [(Hs1 & Hs2 & Hs3 & Hs4) _].
  apply (bits_in_intro _ _ (span_first s - minimum)); [lia|done| |].
  - intros j Hj. rewrite Ha, Z.bits_0 by lia. cbn [orb].
    destruct (existsb _ _) eqn:He; [|done].
    apply existsb_exists in He as (s' & Hin & Hh).
    rewrite Forall_forall in Hok. specialize (Hok s').
    rewrite list_elem_of_In in Hok. destruct (Hok Hin) as (? & ? & ? & ?).
    unfold span_has, stepped in Hh. rewrite !andb_true_iff, !Z.leb_le in Hh. lia.
  - rewrite Ha, Z.bits_0 by lia. cbn [orb existsb].
    replace (span_first s - minimum + minimum) with (span_first s) by lia.
    unfold span_has, stepped.
    rewrite Z.leb_refl, (proj2 (Z.leb_le _ _)), Z.sub_diag, Z.mod_0_l by lia. done.
Qed.

Lemma weekday_bits_in spans b :
  week_bits b → spans ≠ [] → Forall weekday_span_ok spans → weekday_adds spans 0 b → bits_in 7 b.
Proof.
  intros [Hb Hhigh] Hne Hok Ha. destruct spans as [|s spans]; [done|].
  apply Forall_cons in Hok as [(Hs1 & Hs2 & Hs3) _].
  apply (bits_in_intro _ _ (span_first s)); [lia|done|done|].
  rewrite Ha, Z.bits_0 by lia. cbn [orb existsb].
  unfold weekday_span_has, cyclic_stepped. rewrite Z.sub_diag, !Z.mod_0_l by lia.
  by rewrite (proj2 (Z.leb_le _ _)) by dlia.
Qed.

(** Soundness of the parser: an accepted expression denotes a schedule
    of in-range, non-empty fields, and each of its bit sets fits its width.
    In particular mixed Sunday conventions, out-of-range values, reversed
    ranges and zero steps are never accepted. *)
Theorem parse_cron_expression_sound text e :
  parse_cron_expression text = success e →
  expression_wf e ∧ ∃ s, schedule_ok s ∧ denotes s e.
Proof.
  unfold parse_cron_expression. case_match; [done|].
  destruct (split_fields _) as [[|f0 [|f1 [|f2 [|f3 [|f4 [|]]]]]]|]; try done.
  destruct (parse_linear_field f0 _ _ _ _) as [mi|] eqn:H0; [|done].
  destruct (parse_linear_field f1 _ _ _ _) as [ho|] eqn:H1; [|done].
  destruct (parse_linear_field f2 _ _ _ _) as [dm|] eqn:H2; [|done].
  destruct (parse_linear_field f3 _ _ _ _) as [mo|] eqn:H3; [|done].
  destruct (parse_weekday_field f4 _) as [dw|] eqn:H4; [|done].
  cbn [mbind option_bind ok_or]. intros [= <-].
  apply parse_linear_field_sound in H0 as (? & l0 & ? & ? & ?); [|lia|constructor|done].
  apply parse_linear_field_sound in H1 as (? & l1 & ? & ? & ?); [|lia|constructor|done].
  apply parse_linear_field_sound in H2 as (? & l2 & ? & ? & ?); [|lia|constructor|done].
  apply parse_linear_field_sound in H3 as (? & l3 & ? & ? & ?);
    [|lia|repeat constructor; simpl; lia|done].
  apply parse_weekday_field_sound in H4 as (Hw & l4 & ? & ? & ?);
    [|split; [done|intros; apply Z.bits_0]].
  split; [|exists (mkSchedule l0 l1 l2 l3 l4); done].
  unfold expression_wf. cbn [minutes hours days_of_month months days_of_week].
  split_and!.
  - by apply (linear_bits_in 0 59 l0).
  - by apply (linear_bits_in 0 23 l1).
  - by apply (linear_bits_in 1 31 l2).
  - by apply (linear_bits_in 1 12 l3).
  - by apply (weekday_bits_in l4).
Qed.

Lemma parse_cron_expression_sound_witness :
  ∃ e, parse_cron_expression bs!"*/15 8-18/2 1,15 jan-MAR FRI-1" = success e ∧ expression_wf e.
Proof.
  eexists. split; [vm_compute; reflexivity|].
  eapply (parse_cron_expression_sound bs!"*/15 8-18/2 1,15 jan-MAR FRI-1").
  vm_compute. reflexivity.
Defined.

(** ** Completeness: every schedule can be written *)

Inductive Item :=
  | Every (step : option Z)
  | Value (v : Z)
  | Range (a b : Z) (step : option Z).

Definition print_step (step : option Z) : bytes :=
  match step with Some s => #"/" :: decimal s | None => [] end.

Definition print_item (it : Item) : bytes :=
  match it with
  | Every step => bs!"*" ++ print_step step
  | Value v => decimal v
  | Range a b step => (decimal a ++ #"-" :: decimal b) ++ print_step step
  end.

Definition print_field (items : list Item) : bytes := join #"," (map print_item items).

Definition step_ok (step : option Z) : Prop :=
  match step with Some s => 0 < s <= uint32_max | None => True end.

Definition item_ok (minimum maximum : Z) (it : Item) : Prop :=
  match it with
  | Every step => step_ok step
  | Value v => minimum <= v <= maximum
  | Range a b step => minimum <= a ∧ a <= b ∧ b <= maximum ∧ step_ok step
  end.

Definition item_span (minimum maximum : Z) (it : Item) : Span :=
  match it with
  | Every step => mkSpan minimum maximum (default 1 step)
  | Value v => mkSpan v v 1
  | Range a b step => mkSpan a b (default 1 step)
  end.

(** The characters of printed fields: none is a separator, a comma or NUL. *)
Definition cron_char (c : Z) : bool :=
  ascii_digit c || (c =? #"*") || (c =? #"-") || (c =? #"/").

Lemma ascii_digit_spec c : ascii_digit c = true ↔ 48 <= c <= 57.
Proof. unfold ascii_digit. rewrite andb_true_iff, !Z.leb_le. done. Qed.

Lemma cron_char_spec c :
  cron_char c = true ↔ 48 <= c <= 57 ∨ c = 42 ∨ c = 45 ∨ c = 47.
Proof.
  unfold cron_char. rewrite !orb_true_iff, ascii_digit_spec, !Z.eqb_eq. tauto.
Qed.

Lemma decimal_digits n : 0 <= n → Forall (λ c, ascii_digit c = true) (decimal n).
Proof.
  intros Hn. destruct (decimal_spec n Hn) as (_ & Hd & _).
  rewrite forallb_forall in Hd. apply Forall_forall. intros c Hc.
  apply Hd. by apply list_elem_of_In.
Qed.

Lemma decimal_not_in c n : 0 <= n → ascii_digit c = false → c ∉ decimal n.
Proof.
  intros Hn Hc Hin. pose proof (decimal_digits n Hn) as Hd.
  rewrite Forall_forall in Hd. specialize (Hd c Hin). congruence.
Qed.

Lemma step_nonneg step : step_ok step → 0 < default 1 step <= uint32_max.
Proof. destruct step; simpl; [done|]. intros _. unfold uint32_max. lia. Qed.

Lemma split_step_print base step :
  base ≠ [] → #"/" ∉ base → step_ok step →
  split_step (base ++ print_step step) =
    Some (base, default 1 step, bool_decide (is_Some step)).
Proof.
  intros Hne Hb Hs. unfold split_step. destruct step as [s|]; simpl.
  - rewrite find_app by done. unfold find_from.
    assert (Hd : drop (S (length base)) (base ++ 47 :: decimal s) = decimal s).
    { change (47 :: decimal s) with ([47] ++ decimal s). rewrite app_assoc.
      replace (S (length base)) with (length (base ++ [47])) by (rewrite length_app; simpl; lia).
      apply drop_app_length. }
    rewrite Hd, find_none by (apply decimal_not_in; [simpl in Hs; lia|done]).
    simpl. rewrite take_app_length. unfold parse_unsigned.
    rewrite from_chars_all_decimal by (simpl in Hs; lia).
    rewrite bool_decide_false by done. simpl in Hs.
    rewrite (proj2 (Z.eqb_neq s 0)) by lia. done.
  - rewrite app_nil_r, find_none by done. by rewrite bool_decide_false.
Qed.

Lemma split_step_numeral v : 0 <= v → split_step (decimal v) = Some (decimal v, 1, false).
Proof.
  intros Hv. destruct (decimal_spec v Hv) as (_ & _ & Hne).
  pose proof (split_step_print (decimal v) None Hne) as Hsp. cbn [print_step] in Hsp.
  rewrite app_nil_r in Hsp. apply Hsp; [by apply decimal_not_in|done].
Qed.

(** Names start with a letter, so numerals are never names. *)
Definition alphabetic (names : list FieldName) : Prop :=
  Forall (λ n, ∃ c r, text n = c :: r ∧ ascii_digit c = false) names.

Lemma lookup_name_numeral names n :
  0 <= n → alphabetic names → lookup_name (decimal n) names = None.
Proof.
  intros Hn Ha. pose proof (decimal_digits n Hn) as Hd.
  destruct (decimal_spec n Hn) as (_ & _ & Hne).
  destruct (decimal n) as [|d ds]; [done|]. apply Forall_cons in Hd as [Hd _].
  induction Ha as [|nm names (c & r & Ht & Hc) Ha IH]; [done|]. simpl.
  rewrite Ht. simpl. unfold ascii_upper. apply ascii_digit_spec in Hd.
  rewrite (proj2 (Z.leb_gt 97 d)) by lia. simpl.
  destruct (Z.eqb_spec d c) as [->|]; [|done].
  apply not_true_iff_false in Hc. rewrite ascii_digit_spec in Hc. lia.
Qed.

Lemma parse_linear_value_numeral minimum maximum names n :
  0 <= minimum → maximum <= uint32_max → alphabetic names → minimum <= n <= maximum →
  parse_linear_value (decimal n) minimum maximum names = Some n.
Proof.
  intros. unfold parse_linear_value. rewrite lookup_name_numeral by (done || lia).
  unfold parse_unsigned. rewrite from_chars_all_decimal by lia.
  rewrite (proj2 (Z.ltb_ge n minimum)), (proj2 (Z.ltb_ge maximum n)) by lia. done.
Qed.

(** Take a numeral range apart. *)
Lemma find_range a b :
  0 <= a → 0 <= b →
  let base := decimal a ++ #"-" :: decimal b in
  find #"-" base = Some (length (decimal a)) ∧
  take (length (decimal a)) base = decimal a ∧
  drop (S (length (decimal a))) base = decimal b ∧
  find_from #"-" base (S (length (decimal a))) = None ∧ bytes_eqb base bs!"*" = false.
Proof.
  intros Ha Hb base.
  assert (Hd : drop (S (length (decimal a))) base = decimal b).
  { subst base. change (45 :: decimal b) with ([45] ++ decimal b). rewrite app_assoc.
    replace (S (length (decimal a))) with (length (decimal a ++ [45]))
      by (rewrite length_app; simpl; lia).
    apply drop_app_length. }
  split_and!.
  - apply find_app. by apply decimal_not_in.
  - apply take_app_length.
  - done.
  - unfold find_from. rewrite Hd, find_none by (by apply decimal_not_in). done.
  - unfold bytes_eqb. apply bool_decide_false. intros He.
    pose proof (decimal_digits a Ha) as Hda. subst base.
    destruct (decimal_spec a Ha) as (_ & _ & Hne).
    destruct (decimal a) as [|c s]; [done|]. apply Forall_cons in Hda as [Hc _].
    apply ascii_digit_spec in Hc. simplify_eq/=. lia.
Qed.

Lemma decimal_not_star n : 0 <= n → bytes_eqb (decimal n) bs!"*" = false.
Proof.
  intros Hn. apply bool_decide_false. intros He.
  pose proof (decimal_digits n Hn) as Hd. rewrite He in Hd.
  apply Forall_cons in Hd as [Hd _]. apply ascii_digit_spec in Hd. lia.
Qed.

Lemma parse_linear_member_print minimum maximum names it bits :
  0 <= minimum → minimum <= maximum → maximum <= uint32_max → alphabetic names →
  item_ok minimum maximum it →
  ∃ bits', parse_linear_member (print_item it) minimum maximum names bits = Some bits' ∧
           linear_adds minimum [item_span minimum maximum it] bits bits'.
Proof.
  intros H0 Hmm Hmax Ha Hok. unfold parse_linear_member. destruct it as [step|v|a b step]; simpl in Hok.
  - cbn [print_item]. rewrite split_step_print by (done || by rewrite list_elem_of_singleton).
    cbn [mbind option_bind].
    eexists. split; [done|]. apply step_nonneg in Hok. apply set_steps_adds; lia.
  - cbn [print_item]. rewrite split_step_numeral by lia.
    cbn [mbind option_bind]. rewrite decimal_not_star by lia.
    rewrite find_none by (apply decimal_not_in; [lia|done]).
    rewrite parse_linear_value_numeral by done. cbn [mbind option_bind].
    eexists. split; [done|]. apply setbit_adds. lia.
  - destruct Hok as (? & ? & ? & Hs). cbn [print_item].
    destruct (find_range a b) as (Hf & Ht & Hd & Hf' & Hstar); [lia..|].
    rewrite split_step_print; [|by destruct (decimal a)| |done].
    + cbn [mbind option_bind]. rewrite Hstar, Hf, Hf'. simpl.
      rewrite Ht, Hd, !parse_linear_value_numeral by (done || lia). simpl.
      rewrite (proj2 (Z.ltb_ge b a)) by lia.
      eexists. split; [done|]. apply step_nonneg in Hs. apply set_steps_adds; lia.
    + rewrite not_elem_of_app, not_elem_of_cons.
      split_and!; [apply decimal_not_in; [lia|done]|done|apply decimal_not_in; [lia|done]].
Qed.

(** Printing is meaningful for natural numbers. *)
Definition printable (it : Item) : Prop :=
  match it with
  | Every step => step_ok step
  | Value v => 0 <= v
  | Range a b step => 0 <= a ∧ 0 <= b ∧ step_ok step
  end.

Lemma item_ok_printable minimum maximum it :
  0 <= minimum → item_ok minimum maximum it → printable it.
Proof. destruct it; simpl; [done|lia|]. intros ? (? & ? & ? & ?). split_and!; [lia..|done]. Qed.

Lemma print_item_ne it : printable it → print_item it ≠ [].
Proof.
  destruct it as [|v|a b]; simpl; intros Hok; [done|by apply decimal_spec|].
  intros He. apply (f_equal length) in He. rewrite !length_app in He. simpl in He. lia.
Qed.

Lemma linear_items_print minimum maximum names items bits :
  0 <= minimum → minimum <= maximum → maximum <= uint32_max → alphabetic names →
  Forall (item_ok minimum maximum) items →
  ∃ bits',
    fold_opt (λ bits member, if bool_decide (member = []) then None
                             else parse_linear_member member minimum maximum names bits)
      bits (map print_item items) = Some bits' ∧
    linear_adds minimum (map (item_span minimum maximum) items) bits bits'.
Proof.
  intros H0 Hmm Hmax Ha Hok. revert bits.
  induction Hok as [|it items Hit Hok IH]; intros bits; cbn [map fold_opt].
  - exists bits. split; [done|]. intros i Hi. simpl. by rewrite orb_false_r.
  - rewrite bool_decide_false by (by eapply print_item_ne, item_ok_printable).
    destruct (parse_linear_member_print minimum maximum names it bits) as (b1 & -> & Hb1); [done..|].
    cbn [mbind option_bind]. destruct (IH b1) as (b2 & -> & Hb2).
    exists b2. split; [done|]. by apply (linear_adds_app _ [_] _ _ b1).
Qed.

Lemma cron_chars_decimal n : 0 <= n → Forall (λ c, cron_char c = true) (decimal n).
Proof.
  intros Hn. eapply Forall_impl; [by apply decimal_digits|].
  intros c Hc%ascii_digit_spec. apply cron_char_spec. lia.
Qed.

Lemma print_item_chars it :
  printable it → Forall (λ c, cron_char c = true) (print_item it).
Proof.
  assert (Hstep : ∀ st, step_ok st → Forall (λ c, cron_char c = true) (print_step st)).
  { intros [s|] Hs; simpl; [|constructor]. constructor; [done|].
    apply cron_chars_decimal. simpl in Hs. lia. }
  destruct it as [step|v|a b step]; simpl; intros Hok.
  - constructor; [done|]. auto.
  - by apply cron_chars_decimal.
  - destruct Hok as (? & ? & ?). apply Forall_app. split; [|by apply Hstep]. apply Forall_app.
    split; [by apply cron_chars_decimal|]. constructor; [done|]. by apply cron_chars_decimal.
Qed.

Lemma print_items_no_comma items :
  Forall printable items → Forall (λ m, #"," ∉ m) (map print_item items).
Proof.
  intros Hok. rewrite Forall_map. eapply Forall_impl; [exact Hok|].
  intros it Hit%print_item_chars Hin. rewrite Forall_forall in Hit. apply Hit in Hin.
  by apply cron_char_spec in Hin as [?|[?|[?|?]]]; lia.
Qed.

Lemma parse_linear_field_print minimum maximum names items :
  0 <= minimum → minimum <= maximum → maximum <= uint32_max → alphabetic names →
  items ≠ [] → Forall (item_ok minimum maximum) items →
  ∃ bits, parse_linear_field (print_field items) minimum maximum names 0 = Some bits ∧
          linear_adds minimum (map (item_span minimum maximum) items) 0 bits.
Proof.
  intros ???? Hne Hok. unfold parse_linear_field, print_field.
  rewrite members_join; [by apply linear_items_print|by destruct items|].
  apply print_items_no_comma. eapply Forall_impl; [exact Hok|]. intros it. by apply item_ok_printable.
Qed.

(** Weekdays are written 0 to 7, Sunday as 0 or as 7 but not both in one
    field, and a wildcard takes no step. *)
Definition weekday_item_ok (it : Item) : Prop :=
  match it with
  | Every step => step = None
  | Value v => 0 <= v <= 7
  | Range a b step => 0 <= a <= 7 ∧ 0 <= b <= 7 ∧ step_ok step
  end.

Definition sunday (v : Z) : Z := if v =? 7 then 0 else v.

Definition weekday_item_span (it : Item) : Span :=
  match it with
  | Every _ => mkSpan 0 6 1
  | Value v => mkSpan (sunday v) (sunday v) 1
  | Range a b step => mkSpan (sunday a) (sunday b) (default 1 step)
  end.

Definition item_uses (n : Z) (it : Item) : bool :=
  match it with
  | Every _ => false
  | Value v => v =? n
  | Range a b _ => (a =? n) || (b =? n)
  end.

Definition weekday_items_ok (items : list Item) : Prop :=
  items ≠ [] ∧ Forall weekday_item_ok items ∧
  existsb (item_uses 0) items && existsb (item_uses 7) items = false.

Lemma parse_weekday_value_numeral v :
  0 <= v <= 7 → parse_weekday_value (decimal v) = Some (mkWeekday (sunday v) (v =? 0) (v =? 7)).
Proof.
  intros Hv. unfold parse_weekday_value. rewrite lookup_name_numeral; [|lia|].
  - unfold parse_unsigned. rewrite from_chars_all_decimal by (unfold uint32_max; lia).
    by rewrite (proj2 (Z.ltb_ge 7 v)) by lia.
  - repeat constructor; do 2 eexists; done.
Qed.

Lemma sunday_range v : 0 <= v <= 7 → 0 <= sunday v < 7.
Proof. unfold sunday. intros. destruct (Z.eqb_spec v 7); lia. Qed.

Lemma parse_weekday_member_print it s :
  weekday_item_ok it →
  ∃ s', parse_weekday_member (print_item it) s = Some s' ∧
    weekday_adds [weekday_item_span it] (wbits s) (wbits s') ∧
    uses_zero s' = uses_zero s || item_uses 0 it ∧
    uses_seven s' = uses_seven s || item_uses 7 it.
Proof.
  intros Hok. unfold parse_weekday_member. destruct it as [step|v|a b step]; simpl in Hok.
  - subst step. cbn [print_item].
    rewrite split_step_print by (done || by rewrite list_elem_of_singleton).
    cbn. eexists. split; [done|]. simpl. rewrite !orb_false_r. split_and!; [|done..].
    intros i Hi. rewrite Z.ones_spec_low by lia. simpl.
    unfold weekday_span_has, cyclic_stepped. simpl. rewrite Z.mod_1_r, andb_true_r, orb_false_r.
    rewrite (proj2 (Z.leb_le ((i - 0) mod 7) ((6 - 0) mod 7))) by dlia. by rewrite orb_true_r.
  - cbn [print_item]. rewrite split_step_numeral by lia. cbn [mbind option_bind].
    rewrite decimal_not_star by lia. rewrite find_none by (apply decimal_not_in; [lia|done]).
    rewrite parse_weekday_value_numeral by lia. cbn [mbind option_bind].
    eexists. split; [done|]. cbn [with_bits wbits record_sunday_convention uses_zero uses_seven
      numeric_zero numeric_seven weekday item_uses]. split_and!; [|done..].
    pose proof (sunday_range v ltac:(lia)). intros i Hi. cbn [existsb weekday_item_span].
    rewrite weekday_single_has by lia. rewrite Z.setbit_eqb by lia.
    rewrite orb_false_r, orb_comm. by rewrite (Z.eqb_sym (sunday v) i).
  - destruct Hok as (? & ? & Hs). cbn [print_item].
    destruct (find_range a b) as (Hf & Ht & Hd & Hf' & Hstar); [lia..|].
    rewrite split_step_print; [|by destruct (decimal a)| |done].
    + cbn [mbind option_bind]. rewrite Hstar, Hf, Hf'.
      rewrite bool_decide_false by (intros [? ?]; done).
      rewrite Ht, Hd, !parse_weekday_value_numeral by lia. cbn [mbind option_bind].
      apply step_nonneg in Hs.
      destruct (set_weekdays_spec (default 1 step) (sunday a) (sunday b) (wbits s))
        as (bits' & He & Hb'); [lia|apply sunday_range; lia..|].
      cbn [record_sunday_convention wbits weekday]. rewrite He. cbn [mbind option_bind].
      eexists. split; [done|]. simpl. rewrite !orb_assoc. split_and!; [|done..].
      intros i Hi. rewrite Hb' by done. simpl. by rewrite orb_false_r.
    + rewrite not_elem_of_app, not_elem_of_cons.
      split_and!; [apply decimal_not_in; [lia|done]|done|apply decimal_not_in; [lia|done]].
Qed.

Lemma weekday_item_printable it : weekday_item_ok it → printable it.
Proof. destruct it; simpl; [by intros ->|lia|]. intros (? & ? & ?). split_and!; [lia..|done]. Qed.

Lemma weekday_items_print items s :
  Forall weekday_item_ok items →
  ∃ s',
    fold_opt (λ s member, if bool_decide (member = []) then None
                          else parse_weekday_member member s) s (map print_item items) = Some s' ∧
    weekday_adds (map weekday_item_span items) (wbits s) (wbits s') ∧
    uses_zero s' = uses_zero s || existsb (item_uses 0) items ∧
    uses_seven s' = uses_seven s || existsb (item_uses 7) items.
Proof.
  intros Hok. revert s. induction Hok as [|it items Hit Hok IH]; intros s; cbn [map fold_opt existsb].
  - exists s. rewrite !orb_false_r. split_and!; [done| |done..].
    intros i Hi. simpl. by rewrite orb_false_r.
  - rewrite bool_decide_false by (by apply print_item_ne, weekday_item_printable).
    destruct (parse_weekday_member_print it s Hit) as (s1 & -> & Ha1 & Hz1 & Hs1).
    cbn [mbind option_bind]. destruct (IH s1) as (s2 & -> & Ha2 & Hz2 & Hs2).
    exists s2. rewrite Hz2, Hs2, Hz1, Hs1, !orb_assoc. split_and!; [done| |done..].
    by apply (weekday_adds_app [_] _ _ (wbits s1)).
Qed.

Lemma parse_weekday_field_print items :
  weekday_items_ok items →
  ∃ bits, parse_weekday_field (print_field items) 0 = Some bits ∧
          weekday_adds (map weekday_item_span items) 0 bits.
Proof.
  intros (Hne & Hok & Hmix). unfold parse_weekday_field, print_field. rewrite members_join.
  - destruct (weekday_items_print items (mkWeekdayBits 0 false false) Hok) as (s' & -> & Ha & Hz & Hs).
    cbn [mbind option_bind]. rewrite Hz, Hs. simpl. rewrite Hmix. by eexists.
  - by destruct items.
  - apply print_items_no_comma. eapply Forall_impl; [exact Hok|]. apply weekday_item_printable.
Qed.

(** The five printed fields, separated by single spaces. *)
Record Text := mkText {
  t_minutes : list Item; t_hours : list Item; t_days : list Item;
  t_months : list Item; t_weekdays : list Item }.

Definition print_text (t : Text) : bytes :=
  join #" " [print_field (t_minutes t); print_field (t_hours t); print_field (t_days t);
             print_field (t_months t); print_field (t_weekdays t)].

Definition items_ok (minimum maximum : Z) (items : list Item) : Prop :=
  items ≠ [] ∧ Forall (item_ok minimum maximum) items.

Definition text_ok (t : Text) : Prop :=
  items_ok 0 59 (t_minutes t) ∧ items_ok 0 23 (t_hours t) ∧ items_ok 1 31 (t_days t) ∧
  items_ok 1 12 (t_months t) ∧ weekday_items_ok (t_weekdays t).

Definition text_schedule (t : Text) : Schedule :=
  mkSchedule (map (item_span 0 59) (t_minutes t)) (map (item_span 0 23) (t_hours t))
    (map (item_span 1 31) (t_days t)) (map (item_span 1 12) (t_months t))
    (map weekday_item_span (t_weekdays t)).

(** A printed field is a non-empty word of harmless characters. *)
Definition word (s : bytes) : Prop :=
  s ≠ [] ∧ Forall (λ c, cron_char c || (c =? #",") = true) s.

Lemma print_field_word items : items ≠ [] → Forall printable items → word (print_field items).
Proof.
  intros Hne Hok. unfold print_field.
  assert (Hch : ∀ it, printable it → Forall (λ c, cron_char c || (c =? 44) = true) (print_item it)).
  { intros it Hit%print_item_chars. eapply Forall_impl; [exact Hit|]. by intros c ->. }
  induction Hok as [|it items Hit Hok IH]; [done|]. clear Hne.
  destruct items as [|it' items].
  { split; [by apply print_item_ne|by apply Hch]. }
  change (join _ (map print_item (it :: it' :: items)))
    with (print_item it ++ 44 :: join 44 (map print_item (it' :: items))).
  destruct (IH ltac:(done)) as [_ Hf]. split.
  - intros He. apply (f_equal length) in He. rewrite length_app in He. simpl in He. lia.
  - apply Forall_app. split; [by apply Hch|]. by constructor.
Qed.

Lemma word_char c : cron_char c || (c =? 44) = true →
  is_field_separator c = false ∧ c ≠ 0 ∧ c ≠ 64.
Proof.
  rewrite orb_true_iff, cron_char_spec, Z.eqb_eq. intros Hc.
  unfold is_field_separator. rewrite orb_false_iff, !Z.eqb_neq. lia.
Qed.

Lemma fields_from_word w current rest :
  Forall (λ c, cron_char c || (c =? 44) = true) w →
  fields_from current (w ++ rest) = fields_from (reverse w ++ current) rest.
Proof.
  intros Hw. revert current. induction Hw as [|c w Hc Hw IH]; intros current; [done|].
  simpl. destruct (word_char c Hc) as [-> _]. rewrite IH, reverse_cons, <- app_assoc. done.
Qed.

Lemma reverse_ne {A} (s : list A) : s ≠ [] → reverse s ≠ [].
Proof.
  intros Hs He. apply (f_equal reverse) in He. by rewrite reverse_involutive in He.
Qed.

Lemma fields_from_separator current s :
  current ≠ [] → fields_from current (#" " :: s) = reverse current :: fields_from [] s.
Proof. intros Hne. simpl. by rewrite bool_decide_false. Qed.

Lemma fields_from_join ws :
  Forall word ws → fields_from [] (join #" " ws) = ws.
Proof.
  intros Hws. induction Hws as [|w ws [Hne Hw] Hws IH]; [done|].
  destruct ws as [|w' ws].
  - simpl. rewrite <- (app_nil_r w) at 1. rewrite fields_from_word by done. simpl.
    rewrite app_nil_r, bool_decide_false, reverse_involutive; [done|by apply reverse_ne].
  - change (join _ (w :: w' :: ws)) with (w ++ 32 :: join 32 (w' :: ws)).
    rewrite fields_from_word, app_nil_r by done.
    rewrite fields_from_separator, reverse_involutive, IH by (by apply reverse_ne). done.
Qed.

Lemma trim_front_id s :
  match s with c :: _ => is_field_separator c = false | [] => True end → trim_front s = s.
Proof. destruct s; simpl; [done|]. by intros ->. Qed.

Lemma trim_id s :
  match s with c :: _ => is_field_separator c = false | [] => True end →
  match reverse s with c :: _ => is_field_separator c = false | [] => True end →
  trim_field_separators s = s.
Proof.
  intros H1 H2. unfold trim_field_separators.
  rewrite (trim_front_id s), (trim_front_id (reverse s)) by done. apply reverse_involutive.
Qed.

Lemma alias_id s : match s with c :: _ => c ≠ 64 | [] => True end → expanded_alias s = s.
Proof.
  intros Hs. unfold expanded_alias, bytes_eqb.
  rewrite !bool_decide_false; [done|..]; intros ->; simpl in Hs; done.
Qed.

(** The shape of five words joined by spaces. *)
Lemma join_words w0 w1 w2 w3 w4 :
  word w0 → word w1 → word w2 → word w3 → word w4 →
  let s := join #" " [w0; w1; w2; w3; w4] in
  trim_field_separators s = s ∧ expanded_alias s = s ∧
  split_fields s = Some [w0; w1; w2; w3; w4] ∧ find 0 s = None.
Proof.
  intros H0 H1 H2 H3 H4 s. split_and!.
  - apply trim_id; unfold s; cbn [join].
    + destruct w0 as [|c w0]; [by destruct H0|]. destruct H0 as [_ [Hc _]%Forall_cons].
      by apply word_char.
    + rewrite !reverse_app, !reverse_cons, !reverse_app, !reverse_cons, !reverse_app,
        !reverse_cons, !reverse_app, !reverse_cons.
      destruct H4 as [Hne Hw]. destruct w4 as [|c w4] using rev_ind; [done|].
      rewrite reverse_app. simpl. apply Forall_app in Hw as [_ [Hc _]%Forall_cons].
      by apply word_char.
  - apply alias_id. unfold s. cbn [join]. destruct w0 as [|c w0]; [by destruct H0|].
    destruct H0 as [_ [Hc _]%Forall_cons]. by apply word_char.
  - unfold split_fields. unfold s. rewrite fields_from_join by (by repeat apply Forall_cons_2).
    by rewrite bool_decide_true.
  - apply find_none. unfold s. cbn [join].
    assert (Hw : ∀ w, word w → 0 ∉ w).
    { intros w [_ Hw] Hin. rewrite Forall_forall in Hw. apply Hw, word_char in Hin. lia. }
    rewrite !not_elem_of_app, !not_elem_of_cons, !not_elem_of_app, !not_elem_of_cons,
      !not_elem_of_app, !not_elem_of_cons, !not_elem_of_app, !not_elem_of_cons.
    split_and!; by (apply Hw || lia).
Qed.

Lemma items_ok_word minimum maximum items :
  0 <= minimum → items_ok minimum maximum items → word (print_field items).
Proof.
  intros H0 [Hne Hok]. apply print_field_word; [done|].
  eapply Forall_impl; [exact Hok|]. intros it. by apply item_ok_printable.
Qed.

(** C34.  Completeness of the parser: a well-formed schedule of numeric items,
    written with single spaces in at most 512 bytes, is accepted and parsed
    to exactly the values it denotes. *)
Theorem parse_cron_expression_complete t :
  text_ok t → Z.of_nat (length (print_text t)) <= 512 →
  ∃ e, parse_cron_expression (print_text t) = success e ∧ denotes (text_schedule t) e.
Proof.
  intros (H0 & H1 & H2 & H3 & H4) Hlen. unfold parse_cron_expression.
  rewrite (proj2 (Z.ltb_ge 512 _)) by done. unfold print_text in *.
  destruct (join_words (print_field (t_minutes t)) (print_field (t_hours t))
    (print_field (t_days t)) (print_field (t_months t)) (print_field (t_weekdays t)))
    as (Ht & Hal & Hsp & Hz).
  1-4: by eapply items_ok_word; [|eassumption].
  { destruct H4 as (? & Hok & _). apply print_field_word; [done|].
    eapply Forall_impl; [exact Hok|]. apply weekday_item_printable. }
  rewrite Hz, Ht, Hal, Hsp, bool_decide_false by (intros [? ?]; done). cbn [orb].
  destruct H0, H1, H2, H3.
  destruct (parse_linear_field_print 0 59 [] (t_minutes t)) as (b0 & -> & ?);
    [done||constructor..|].
  destruct (parse_linear_field_print 0 23 [] (t_hours t)) as (b1 & -> & ?);
    [done||constructor..|].
  destruct (parse_linear_field_print 1 31 [] (t_days t)) as (b2 & -> & ?);
    [done||constructor..|].
  destruct (parse_linear_field_print 1 12 kMonthNames (t_months t)) as (b3 & -> & ?);
    [done|done|done|repeat constructor; by do 2 eexists|done|done|].
  destruct (parse_weekday_field_print (t_weekdays t)) as (b4 & -> & ?); [done|].
  eexists. split; [done|]. done.
Qed.

Definition sample_text : Text :=
  mkText [Every (Some 15)] [Range 8 18 (Some 2)] [Value 1; Value 15] [Every None] [Range 5 1 None].

Lemma parse_cron_expression_complete_witness :
  print_text sample_text = bs!"*/15 8-18/2 1,15 * 5-1" ∧
  ∃ e, parse_cron_expression (print_text sample_text) = success e ∧
       denotes (text_schedule sample_text) e.
Proof.
  split; [vm_compute; reflexivity|].
  apply (parse_cron_expression_complete sample_text); [|vm_compute; discriminate].
  unfold text_ok, items_ok, weekday_items_ok, uint32_max. simpl.
  split_and!; try done; repeat constructor; simpl; unfold uint32_max; lia.
Defined.
