(* ===== verification/TextValidation.v ===== *)
(** * Text validation: [src/core/text_validation.cpp]

    The UTF-8 validator, shown to accept exactly the encodings of sequences
    of Unicode scalar values, and the test for ASCII control characters. *)

From stdpp Require Import base numbers list.
From S2P Require Import Prelude.
Local Open Scope Z_scope.

Definition between (lo b hi : Z) : bool := (lo <=? b) && (b <=? hi).

Definition is_continuation (b : Z) : bool := between 0x80 b 0xbf.

(** The loop over [index], on the bytes that remain. *)
Fixpoint is_valid_utf8 (text : bytes) : bool :=
  match text with
  | [] => true
  | first :: rest =>
      if first <=? 0x7f then is_valid_utf8 rest
      else if between 0xc2 first 0xdf then
        match rest with
        | b1 :: rest => is_continuation b1 && is_valid_utf8 rest
        | _ => false
        end
      else if between 0xe0 first 0xef then
        match rest with
        | second :: b2 :: rest =>
            let valid_second :=
              if first =? 0xe0 then between 0xa0 second 0xbf
              else if first =? 0xed then between 0x80 second 0x9f
              else is_continuation second in
            is_continuation b2 && valid_second && is_valid_utf8 rest
        | _ => false
        end
      else if between 0xf0 first 0xf4 then
        match rest with
        | second :: b2 :: b3 :: rest =>
            let valid_second :=
              if first =? 0xf0 then between 0x90 second 0xbf
              else if first =? 0xf4 then between 0x80 second 0x8f
              else is_continuation second in
            is_continuation b2 && is_continuation b3 && valid_second && is_valid_utf8 rest
        | _ => false
        end
      else false
  end.

Definition has_ascii_control (text : bytes) : bool :=
  existsb (λ b, (b <=? 0x1f) || (b =? 0x7f)) text.

(** ** Specification: the UTF-8 encoding form *)

(** Unicode scalar values: code points without the surrogates. *)
Definition scalar (c : Z) : Prop := 0 <= c <= 0x10ffff ∧ ¬ (0xd800 <= c <= 0xdfff).

Definition utf8_encode (c : Z) : bytes :=
  if c <=? 0x7f then [c]
  else if c <=? 0x7ff then [0xc0 + c / 64; 0x80 + c mod 64]
  else if c <=? 0xffff then [0xe0 + c / 4096; 0x80 + c / 64 mod 64; 0x80 + c mod 64]
  else [0xf0 + c / 262144; 0x80 + c / 4096 mod 64; 0x80 + c / 64 mod 64; 0x80 + c mod 64].

Definition utf8 (text : bytes) : Prop :=
  ∃ cs, Forall scalar cs ∧ text = concat (map utf8_encode cs).

Lemma between_spec lo b hi : between lo b hi = true ↔ lo <= b <= hi.
Proof. unfold between. rewrite andb_true_iff, !Z.leb_le. done. Qed.

Lemma between_false lo b hi : between lo b hi = false ↔ ¬ (lo <= b <= hi).
Proof. rewrite <- between_spec. by destruct (between lo b hi). Qed.

Create Rewrite HintDb utf8.
#[export] Hint Rewrite between_spec between_false Z.leb_le Z.leb_gt Z.eqb_eq Z.eqb_neq
  andb_true_iff : utf8.

Ltac utf8_cases :=
  repeat match goal with
  | |- context [if ?b then _ else _] => destruct b eqn:?
  | H : context [if ?b then _ else _] |- _ => destruct b eqn:?
  end; unfold is_continuation in *; autorewrite with utf8 in *.

(** Encodings are accepted, one scalar value at a time. *)
Lemma is_valid_utf8_encode c rest :
  scalar c → is_valid_utf8 (utf8_encode c ++ rest) = is_valid_utf8 rest.
Proof.
  intros [Hc Hs]. unfold utf8_encode.
  destruct (Z.leb_spec c 0x7f); [|destruct (Z.leb_spec c 0x7ff); [|destruct (Z.leb_spec c 0xffff)]];
    cbn [app is_valid_utf8].
  - by rewrite (proj2 (Z.leb_le c 127)) by lia.
  - rewrite (proj2 (Z.leb_gt _ 127)), (proj2 (between_spec _ _ _)) by dlia.
    unfold is_continuation. by rewrite (proj2 (between_spec _ _ _)) by dlia.
  - rewrite (proj2 (Z.leb_gt _ 127)), (proj2 (between_false _ _ 223)),
      (proj2 (between_spec 224 _ 239)) by dlia.
    unfold is_continuation at 1. rewrite (proj2 (between_spec 128 (128 + c mod 64) 191)) by dlia.
    utf8_cases; rewrite (proj2 (between_spec _ _ _)) by dlia; done.
  - rewrite (proj2 (Z.leb_gt _ 127)), (proj2 (between_false _ _ 223)),
      (proj2 (between_false _ _ 239)), (proj2 (between_spec 240 _ 244)) by dlia.
    unfold is_continuation at 1 2.
    rewrite (proj2 (between_spec 128 (128 + c mod 64) 191)) by dlia.
    rewrite (proj2 (between_spec 128 (128 + c / 64 mod 64) 191)) by dlia.
    utf8_cases; rewrite (proj2 (between_spec _ _ _)) by dlia; done.
Qed.

Lemma encode2 b0 b1 :
  0xc2 <= b0 <= 0xdf → 0x80 <= b1 <= 0xbf →
  ∃ c, scalar c ∧ utf8_encode c = [b0; b1].
Proof.
  intros. exists ((b0 - 0xc0) * 64 + (b1 - 0x80)). unfold scalar, utf8_encode.
  split; [lia|]. rewrite (proj2 (Z.leb_gt _ 127)), (proj2 (Z.leb_le _ 2047)) by lia.
  repeat f_equal; dlia.
Qed.

Lemma encode3 b0 b1 b2 :
  0xe0 <= b0 <= 0xef → 0x80 <= b1 <= 0xbf → 0x80 <= b2 <= 0xbf →
  (b0 = 0xe0 → 0xa0 <= b1) → (b0 = 0xed → b1 <= 0x9f) →
  ∃ c, scalar c ∧ utf8_encode c = [b0; b1; b2].
Proof.
  intros. exists ((b0 - 0xe0) * 4096 + (b1 - 0x80) * 64 + (b2 - 0x80)).
  unfold scalar, utf8_encode. split; [lia|].
  rewrite (proj2 (Z.leb_gt _ 127)), (proj2 (Z.leb_gt _ 2047)), (proj2 (Z.leb_le _ 65535)) by lia.
  repeat f_equal; dlia.
Qed.

Lemma encode4 b0 b1 b2 b3 :
  0xf0 <= b0 <= 0xf4 → 0x80 <= b1 <= 0xbf → 0x80 <= b2 <= 0xbf → 0x80 <= b3 <= 0xbf →
  (b0 = 0xf0 → 0x90 <= b1) → (b0 = 0xf4 → b1 <= 0x8f) →
  ∃ c, scalar c ∧ utf8_encode c = [b0; b1; b2; b3].
Proof.
  intros. exists ((b0 - 0xf0) * 262144 + (b1 - 0x80) * 4096 + (b2 - 0x80) * 64 + (b3 - 0x80)).
  unfold scalar, utf8_encode. split; [lia|].
  rewrite (proj2 (Z.leb_gt _ 127)), (proj2 (Z.leb_gt _ 2047)), (proj2 (Z.leb_gt _ 65535)) by lia.
  repeat f_equal; dlia.
Qed.

Lemma utf8_cons c rest : scalar c → utf8 rest → utf8 (utf8_encode c ++ rest).
Proof. intros Hc (cs & Hcs & ->). exists (c :: cs). split; [by constructor|done]. Qed.

(** An accepted text starts with the encoding of a scalar value. *)
Lemma is_valid_utf8_step first rest :
  is_byte first → is_valid_utf8 (first :: rest) = true →
  ∃ c rest', scalar c ∧ first :: rest = utf8_encode c ++ rest' ∧
             is_valid_utf8 rest' = true ∧ (length rest' <= length rest)%nat.
Proof.
  unfold is_byte. intros Hb. simpl. destruct (Z.leb_spec first 127).
  { intros Hr. exists first, rest. split_and!; [unfold scalar; lia| |done|done].
    unfold utf8_encode. by rewrite (proj2 (Z.leb_le first 127)). }
  destruct (between 194 first 223) eqn:H2; [|destruct (between 224 first 239) eqn:H3;
    [|destruct (between 240 first 244) eqn:H4; [|done]]].
  - destruct rest as [|b1 rest]; [done|]. rewrite andb_true_iff. intros [H1 Hr].
    unfold is_continuation in H1. autorewrite with utf8 in *.
    destruct (encode2 first b1) as (c & Hc & He); [lia..|].
    exists c, rest. rewrite He. split_and!; [done..|simpl; lia].
  - destruct rest as [|b1 [|b2 rest]]; [done..|]. rewrite !andb_true_iff. intros [[Hb2 Hs] Hr].
    unfold is_continuation in *.
    destruct (encode3 first b1 b2) as (c & Hc & He);
      [utf8_cases; lia..|].
    exists c, rest. rewrite He. split_and!; [done..|simpl; lia].
  - destruct rest as [|b1 [|b2 [|b3 rest]]]; [done..|]. rewrite !andb_true_iff.
    intros [[[Hb2 Hb3] Hs] Hr]. unfold is_continuation in *.
    destruct (encode4 first b1 b2 b3) as (c & Hc & He);
      [utf8_cases; lia..|].
    exists c, rest. rewrite He. split_and!; [done..|simpl; lia].
Qed.

Lemma is_valid_utf8_sound n text :
  (length text <= n)%nat → Forall is_byte text → is_valid_utf8 text = true → utf8 text.
Proof.
  revert text. induction n as [|n IH]; intros text Hn Hb Hv.
  { destruct text; [by exists []|simpl in Hn; lia]. }
  destruct text as [|first rest]; [by exists []|]. simpl in Hn.
  pose proof Hb as Hf. apply Forall_cons in Hf as [Hf _].
  apply is_valid_utf8_step in Hv as (c & rest' & Hc & He & Hv & Hl); [|done].
  rewrite He. apply utf8_cons; [done|]. apply IH; [lia| |done].
  rewrite He in Hb. by apply Forall_app in Hb as [_ ?].
Qed.

(** C35.  The validator accepts exactly the well-formed UTF-8 texts: no
    overlong form, no surrogate, nothing above U+10FFFF, and every encoding of
    a sequence of scalar values. *)
Theorem is_valid_utf8_spec text :
  Forall is_byte text → is_valid_utf8 text = true ↔ utf8 text.
Proof.
  intros Hb. split.
  - by apply (is_valid_utf8_sound (length text)).
  - intros (cs & Hcs & ->). induction Hcs as [|c cs Hc Hcs IH]; [done|].
    simpl. rewrite is_valid_utf8_encode by done. apply IH.
    simpl in Hb. by apply Forall_app in Hb as [_ ?].
Qed.

Lemma is_valid_utf8_spec_witness :
  is_valid_utf8 (utf8_encode 0x20ac ++ [0x41]) = true ∧ utf8 (utf8_encode 0x20ac ++ [0x41]).
Proof.
  split; [vm_compute; reflexivity|].
  apply (is_valid_utf8_spec (utf8_encode 0x20ac ++ [0x41])); [|vm_compute; reflexivity].
  repeat constructor; unfold is_byte; vm_compute; done.
Defined.
