(* ===== verification/Tzif.v ===== *)
(** * Timezone files: [src/jobu/cron_timezone_priv.cpp], parsing

    The TZif reader (Module [Tz]) and the POSIX footer reader (Module
    [Posix]).  Both readers are state passing over the bytes that remain; a
    read that returns [false] in the code makes every caller give up, which is
    the failure of the reader monad.  The result of the parser satisfies
    [valid_mapping_data], the check the mapping functions repeat. *)

From stdpp Require Import base numbers strings list sets.
From Stdlib Require Import Ascii.
From S2P Require Import Prelude TextValidation.
Local Open Scope Z_scope.

(** ** Data *)

Inductive PosixDateRuleKind := MonthWeekday | JulianWithoutLeapDay | JulianWithLeapDay.

Record PosixDateRule := mkDateRule {
  rule_kind : PosixDateRuleKind;
  rule_day : Z;
  rule_month : Z;
  rule_week : Z;
  rule_weekday : Z;
  transition_time_seconds : Z }.

Record PosixDaylightRule := mkDaylight {
  daylight_abbreviation : bytes;
  daylight_offset : Z;
  rule_start : PosixDateRule;
  rule_end : PosixDateRule }.

Record PosixFutureRule := mkFuture {
  standard_abbreviation : bytes;
  standard_offset : Z;
  daylight : option PosixDaylightRule }.

Record TimezoneLocalTimeType := mkType { utc_offset_seconds : Z; is_daylight : bool }.
Record TimezoneTransition := mkTransition { unix_seconds : Z; local_time_type : Z }.

Record TimezoneData := mkData {
  transitions : list TimezoneTransition;
  local_time_types : list TimezoneLocalTimeType;
  default_local_time_type : Z;
  future_rule : option PosixFutureRule }.

Definition kMaximumTimezoneFileSize : Z := 16 * 1024 * 1024.
Definition kMaximumTransitionCount : Z := 1000000.
Definition kMaximumTypeCount : Z := 256.
Definition kMaximumAbbreviationSize : Z := 64 * 1024.
Definition kMinimumUtcOffset : Z := -89999.
Definition kMaximumUtcOffset : Z := 93599.
Definition kMaximumPosixHour : Z := 167.

Definition invalid_timezone : Error :=
  mkError InvalidArgument "jobu.schedule.invalid_timezone" "Timezone is invalid" "".
Definition invalid_timezone_data (detail : string) : Error :=
  mkError Internal "jobu.schedule.invalid_timezone_data" "Timezone data is invalid" detail.

(** ** The validity check of the mapping functions *)

Definition offset_in_range (o : Z) : bool :=
  (kMinimumUtcOffset <=? o) && (o <=? kMaximumUtcOffset).

Definition valid_date_rule (rule : PosixDateRule) : bool :=
  let maximum_transition_time := kMaximumPosixHour * 3600 + 59 * 60 + 59 in
  (- maximum_transition_time <=? transition_time_seconds rule) &&
  (transition_time_seconds rule <=? maximum_transition_time) &&
  match rule_kind rule with
  | MonthWeekday =>
      (1 <=? rule_month rule) && (rule_month rule <=? 12) && (1 <=? rule_week rule) &&
      (rule_week rule <=? 5) && (rule_weekday rule <=? 6)
  | JulianWithoutLeapDay => (1 <=? rule_day rule) && (rule_day rule <=? 365)
  | JulianWithLeapDay => rule_day rule <=? 365
  end.

(** The transition loop, with [first]/[last] as an optional previous time. *)
Fixpoint valid_transitions (type_count : Z) (last : option Z) (l : list TimezoneTransition) : bool :=
  match l with
  | [] => true
  | t :: l =>
      (local_time_type t <? type_count) &&
      match last with Some p => p <? unix_seconds t | None => true end &&
      valid_transitions type_count (Some (unix_seconds t)) l
  end.

Definition valid_mapping_data (data : TimezoneData) : bool :=
  let count := Z.of_nat (length (local_time_types data)) in
  (0 <? count) && (count <=? kMaximumTypeCount) && (default_local_time_type data <? count) &&
  forallb (λ t, offset_in_range (utc_offset_seconds t)) (local_time_types data) &&
  valid_transitions count None (transitions data) &&
  match future_rule data with
  | None => true
  | Some future =>
      offset_in_range (standard_offset future) &&
      match daylight future with
      | None => true
      | Some d => offset_in_range (daylight_offset d) && valid_date_rule (rule_start d) &&
                  valid_date_rule (rule_end d)
      end
  end.

(** ** The reader monad *)

Definition Reader (A : Type) : Type := bytes → option (A * bytes).

#[export] Instance reader_ret : MRet Reader := λ A a s, Some (a, s).
#[export] Instance reader_bind : MBind Reader := λ A B k r s,
  match r s with Some (a, s') => k a s' | None => None end.

(** [if (!condition) return false;] *)
Definition require (b : bool) : Reader unit := λ s, if b then Some (tt, s) else None.

Lemma reader_bind_inv {A B} (r : Reader A) (k : A → Reader B) s b s' :
  (r ≫= k) s = Some (b, s') → ∃ a s1, r s = Some (a, s1) ∧ k a s1 = Some (b, s').
Proof. unfold mbind, reader_bind. destruct (r s) as [[a s1]|]; [eauto|done]. Qed.

Lemma require_inv b s u s' : require b s = Some (u, s') → b = true ∧ s' = s.
Proof. unfold require. destruct b; [by intros [= <- <-]|done]. Qed.

(** Split a successful reader into its steps. *)
Ltac reader_inv :=
  repeat match goal with
  | H : (_ ≫= _) _ = Some (_, _) |- _ =>
      let a := fresh "v" in let s1 := fresh "s" in let H1 := fresh "Hr" in
      apply reader_bind_inv in H as (a & s1 & H1 & H)
  | H : require _ _ = Some (_, _) |- _ => apply require_inv in H as [? ->]
  | H : mret _ _ = Some (_, _) |- _ => injection H as <- <-
  end.

Module Tz.

Record TzifCounts := mkCounts {
  utc_local_indicators : Z; standard_wall_indicators : Z; leap_seconds : Z;
  n_transitions : Z; n_local_time_types : Z; abbreviation_bytes : Z }.
Record TzifHeader := mkHeader { version : Z; counts : TzifCounts }.
Record ParsedSection := mkSection {
  section_transitions : list TimezoneTransition;
  section_types : list TimezoneLocalTimeType;
  section_default : Z }.

(** *** [ByteReader] *)

(** [static_cast<unsigned char>]. *)
Definition as_u8 (b : Z) : Z := wrap_unsigned 8 b.

Definition be_value (s : bytes) : Z := foldl (λ v b, Z.lor (Z.shiftl v 8) (as_u8 b)) 0 s.

Definition read_bytes (size : Z) : Reader bytes := λ s,
  if Z.of_nat (length s) <? size then None
  else Some (take (Z.to_nat size) s, drop (Z.to_nat size) s).

Definition read_u8 : Reader Z := λ s,
  match s with [] => None | b :: s => Some (as_u8 b, s) end.

Definition read_u32 : Reader Z := b ← read_bytes 4; mret (be_value b).
Definition read_i32 : Reader Z := v ← read_u32; mret (wrap_signed 32 v).
Definition read_i64 : Reader Z := b ← read_bytes 8; mret (wrap_signed 64 (be_value b)).
Definition remaining : Reader Z := λ s, Some (Z.of_nat (length s), s).

(** *** Headers and section sizes *)

Definition checked_add (total v : Z) : option Z :=
  if size_max - total <? v then None else Some (total + v).

Definition checked_add_product (total count width : Z) : option Z :=
  if negb (count =? 0) && (size_max / count <? width) then None
  else checked_add total (count * width).

Definition valid_counts (c : TzifCounts) : bool :=
  negb ((kMaximumTransitionCount <? n_transitions c) || (n_local_time_types c =? 0) ||
        (kMaximumTypeCount <? n_local_time_types c) || (abbreviation_bytes c =? 0) ||
        (kMaximumAbbreviationSize <? abbreviation_bytes c)) &&
  ((standard_wall_indicators c =? 0) || (standard_wall_indicators c =? n_local_time_types c)) &&
  ((utc_local_indicators c =? 0) || (utc_local_indicators c =? n_local_time_types c)).

Definition read_header : Reader TzifHeader :=
  magic ← read_bytes 4;
  _ ← require (bytes_eqb magic bs!"TZif");
  version ← read_u8;
  reserved ← read_bytes 15;
  _ ← require (forallb (λ b, b =? 0) reserved);
  utc_local ← read_u32;
  standard_wall ← read_u32;
  leap ← read_u32;
  transitions ← read_u32;
  types ← read_u32;
  abbreviation ← read_u32;
  let c := mkCounts utc_local standard_wall leap transitions types abbreviation in
  _ ← require (((version =? 0) || (version =? #"2") || (version =? #"3") || (version =? #"4"))
               && valid_counts c);
  mret (mkHeader version c).

Definition section_size (c : TzifCounts) (time_width : Z) : option Z :=
  s ← checked_add_product 0 (n_transitions c) time_width;
  s ← checked_add_product s (n_transitions c) 1;
  s ← checked_add_product s (n_local_time_types c) 6;
  s ← checked_add s (abbreviation_bytes c);
  s ← checked_add_product s (leap_seconds c) (time_width + 4);
  s ← checked_add s (standard_wall_indicators c);
  checked_add s (utc_local_indicators c).

Definition read_transition_time (time_width : Z) : Reader Z :=
  if time_width =? 8 then read_i64 else read_i32.

Definition abbreviation_is_terminated (abbreviations : bytes) (index : Z) : bool :=
  if Z.of_nat (length abbreviations) <=? index then false
  else bool_decide (is_Some (find_from 0 abbreviations (Z.to_nat index))).

(** *** Sections *)

Fixpoint read_transition_times (time_width : Z) (previous : option Z) (n : nat) : Reader (list Z) :=
  match n with
  | O => mret []
  | S n =>
      t ← read_transition_time time_width;
      _ ← require (match previous with Some p => negb (t <=? p) | None => true end);
      ts ← read_transition_times time_width (Some t) n;
      mret (t :: ts)
  end.

Fixpoint read_transition_types (type_count : Z) (n : nat) : Reader (list Z) :=
  match n with
  | O => mret []
  | S n =>
      t ← read_u8;
      _ ← require (negb (type_count <=? t));
      ts ← read_transition_types type_count n;
      mret (t :: ts)
  end.

Record EncodedType := mkEncoded { encoded_value : TimezoneLocalTimeType; abbreviation_index : Z }.

Fixpoint read_encoded_types (n : nat) : Reader (list EncodedType) :=
  match n with
  | O => mret []
  | S n =>
      offset ← read_i32;
      dst ← read_u8;
      index ← read_u8;
      _ ← require (negb (offset <? kMinimumUtcOffset) && negb (kMaximumUtcOffset <? offset) &&
                   negb (1 <? dst));
      ts ← read_encoded_types n;
      mret (mkEncoded (mkType offset (negb (dst =? 0))) index :: ts)
  end.

(** The leap-second records are validated and dropped; [index] counts up to
    [total], and the previous record is absent for the first one. *)
Fixpoint skip_leap_seconds (time_width version total index : Z) (previous : option (Z * Z))
    (n : nat) : Reader unit :=
  match n with
  | O => mret tt
  | S n =>
      leap_time ← read_transition_time time_width;
      correction ← read_i32;
      _ ← require (negb (leap_time <? 0) &&
                   match previous with Some (p, _) => negb (leap_time <=? p) | None => true end);
      _ ← require
            match previous with
            | None => (version =? #"4") || (correction =? -1) || (correction =? 1)
            | Some (_, previous_correction) =>
                let delta := correction - previous_correction in
                let expiration := (version =? #"4") && (index + 1 =? total) &&
                                  (correction =? previous_correction) in
                expiration || (delta =? -1) || (delta =? 1)
            end;
      skip_leap_seconds time_width version total (index + 1) (Some (leap_time, correction)) n
  end.

Fixpoint read_standard_indicators (n : nat) : Reader (list Z) :=
  match n with
  | O => mret []
  | S n => i ← read_u8; _ ← require (negb (1 <? i));
           rest ← read_standard_indicators n; mret (i :: rest)
  end.

(** [standard] holds the zero-initialised vector of standard indicators. *)
Fixpoint check_utc_indicators (standard : list Z) (n : nat) : Reader unit :=
  match n with
  | O => mret tt
  | S n =>
      i ← read_u8;
      _ ← require (negb (1 <? i) && negb (negb (i =? 0) && (default 0 (head standard) =? 0)));
      check_utc_indicators (tail standard) n
  end.

Definition parse_section (c : TzifCounts) (time_width version : Z) : Reader ParsedSection :=
  left ← remaining;
  _ ← require match section_size c time_width with
              | Some encoded_size => negb (left <? encoded_size)
              | None => false
              end;
  times ← read_transition_times time_width None (Z.to_nat (n_transitions c));
  types ← read_transition_types (n_local_time_types c) (Z.to_nat (n_transitions c));
  encoded ← read_encoded_types (Z.to_nat (n_local_time_types c));
  abbreviations ← read_bytes (abbreviation_bytes c);
  _ ← require (forallb (λ t, abbreviation_is_terminated abbreviations (abbreviation_index t)) encoded);
  _ ← skip_leap_seconds time_width version (leap_seconds c) 0 None (Z.to_nat (leap_seconds c));
  standard ← read_standard_indicators (Z.to_nat (standard_wall_indicators c));
  _ ← check_utc_indicators
        (if standard_wall_indicators c =? 0
         then replicate (Z.to_nat (n_local_time_types c)) 0 else standard)
        (Z.to_nat (utc_local_indicators c));
  mret (mkSection (zip_with mkTransition times types) (map encoded_value encoded) 0).

End Tz.

Module Posix.

Definition ascii_alpha (c : Z) : bool := ascii_lower_alpha c || ascii_upper_alpha c.

Definition valid_quoted_abbreviation_character (c : Z) : bool :=
  ascii_alpha c || ascii_digit c || (c =? #"+") || (c =? #"-").

Definition at_end : Reader bool := λ s, Some (bool_decide (s = []), s).
Definition peek : Reader Z := λ s, Some (match s with [] => 0 | c :: _ => c end, s).

(** [consume] reports whether it advanced; a NUL is never expected. *)
Definition consume (expected : Z) : Reader bool := λ s,
  match s with
  | c :: s' => if c =? expected then Some (true, s') else Some (false, s)
  | [] => Some (false, s)
  end.

Definition take_while (p : Z → bool) : Reader bytes := λ s, Some (span_while p s).

Definition abbreviation : Reader bytes :=
  quoted ← consume #"<";
  if quoted : bool then
    name ← take_while valid_quoted_abbreviation_character;
    closed ← consume #">";
    _ ← require (closed && negb (Z.of_nat (length name) <? 3));
    mret name
  else
    name ← take_while ascii_alpha;
    _ ← require (negb (Z.of_nat (length name) <? 3));
    mret name.

Definition unsigned_number (minimum maximum : Z) : Reader Z :=
  text ← take_while ascii_digit;
  match from_chars_all uint32_max text with
  | Some v => _ ← require (negb (v <? minimum) && negb (maximum <? v)); mret v
  | None => λ _, None
  end.

Definition signed_time : Reader Z :=
  minus ← consume #"-";
  sign ← (if minus : bool then mret (-1) else _ ← consume #"+"; mret 1);
  hours ← unsigned_number 0 kMaximumPosixHour;
  colon ← consume #":";
  '(minutes, seconds) ←
    (if colon : bool then
       minutes ← unsigned_number 0 59;
       colon ← consume #":";
       if colon : bool then seconds ← unsigned_number 0 59; mret (minutes, seconds)
       else mret (minutes, 0)
     else mret (0, 0));
  mret (sign * (hours * 3600 + minutes * 60 + seconds)).

Definition utc_offset : Reader Z :=
  posix_offset ← signed_time;
  let offset := - posix_offset in
  _ ← require (negb (offset <? kMinimumUtcOffset) && negb (kMaximumUtcOffset <? offset));
  mret offset.

(** The calendar part of a rule; the transition time defaults to 02:00. *)
Definition date_rule_day : Reader PosixDateRule :=
  m ← consume #"M";
  if m : bool then
    month ← unsigned_number 1 12;
    dot ← consume #"."; _ ← require dot;
    week ← unsigned_number 1 5;
    dot ← consume #"."; _ ← require dot;
    weekday ← unsigned_number 0 6;
    mret (mkDateRule MonthWeekday 0 month week weekday 7200)
  else
    j ← consume #"J";
    if j : bool then
      day ← unsigned_number 1 365;
      mret (mkDateRule JulianWithoutLeapDay day 0 0 0 7200)
    else
      day ← unsigned_number 0 365;
      mret (mkDateRule JulianWithLeapDay day 0 0 0 7200).

Definition with_time (rule : PosixDateRule) (t : Z) : PosixDateRule :=
  mkDateRule (rule_kind rule) (rule_day rule) (rule_month rule) (rule_week rule)
    (rule_weekday rule) t.

Definition date_rule : Reader PosixDateRule :=
  rule ← date_rule_day;
  slash ← consume #"/";
  if slash : bool then t ← signed_time; mret (with_time rule t) else mret rule.

Definition future_rule_reader : Reader PosixFutureRule :=
  standard ← abbreviation;
  offset ← utc_offset;
  ended ← at_end;
  if ended : bool then mret (mkFuture standard offset None)
  else
    dst ← abbreviation;
    next ← peek;
    ended ← at_end;
    dst_offset ←
      (if (next =? #",") || ended then
         let candidate := offset + 3600 in
         _ ← require (negb (candidate <? kMinimumUtcOffset) && negb (kMaximumUtcOffset <? candidate));
         mret candidate
       else utc_offset);
    comma ← consume #","; _ ← require comma;
    start ← date_rule;
    comma ← consume #","; _ ← require comma;
    finish ← date_rule;
    ended ← at_end; _ ← require ended;
    mret (mkFuture standard offset (Some (mkDaylight dst dst_offset start finish))).

Definition parse_posix_footer (footer : bytes) : option (option PosixFutureRule) :=
  if bool_decide (footer = []) then Some None
  else match future_rule_reader footer with
       | Some (rule, _) => Some (Some rule)
       | None => None
       end.

End Posix.

(** ** The whole file *)

Definition parse_timezone_data (file : bytes) : result Error TimezoneData :=
  if bool_decide (file = []) || (kMaximumTimezoneFileSize <? Z.of_nat (length file))
  then failure (invalid_timezone_data "file size")
  else
    '(first_header, s) ← ok_or (Tz.read_header file) (invalid_timezone_data "first header");
    '(first_section, s) ←
      ok_or (Tz.parse_section (Tz.counts first_header) 4 (Tz.version first_header) s)
            (invalid_timezone_data "32-bit section");
    if Tz.version first_header =? 0 then
      if negb (bool_decide (s = [])) then failure (invalid_timezone_data "trailing v1 data")
      else success (mkData (Tz.section_transitions first_section) (Tz.section_types first_section)
                           (Tz.section_default first_section) None)
    else
      '(second_header, s) ← ok_or (Tz.read_header s) (invalid_timezone_data "64-bit header");
      if negb (Tz.version second_header =? Tz.version first_header) ||
         (Tz.version second_header =? 0)
      then failure (invalid_timezone_data "64-bit header")
      else
        '(second_section, footer) ←
          ok_or (Tz.parse_section (Tz.counts second_header) 8 (Tz.version second_header) s)
                (invalid_timezone_data "64-bit section");
        let inner := substr footer 1 (length footer - 2) in
        if (Z.of_nat (length footer) <? 2) || negb (default 0 (head footer) =? 10) ||
           negb (default 0 (last footer) =? 10) || bool_decide (is_Some (find 10 inner))
        then failure (invalid_timezone_data "POSIX footer framing")
        else
          rule ← ok_or (Posix.parse_posix_footer inner) (invalid_timezone_data "POSIX footer");
          success (mkData (Tz.section_transitions second_section)
                     (Tz.section_types second_section) (Tz.section_default second_section) rule).

(** ** The parser establishes the mapping invariant *)

Section Invariant.
Import Tz.

Lemma as_u8_range b : 0 <= as_u8 b < 256.
Proof. unfold as_u8, wrap_unsigned. apply Z.mod_pos_bound. lia. Qed.

Lemma be_value_nonneg s : 0 <= be_value s.
Proof.
  unfold be_value. induction s as [|b s IH] using rev_ind; [done|].
  rewrite foldl_app. simpl. apply Z.lor_nonneg.
  split; [by apply Z.shiftl_nonneg|apply as_u8_range].
Qed.

Lemma read_u32_nonneg s v s' : read_u32 s = Some (v, s') → 0 <= v.
Proof. unfold read_u32. intros H. reader_inv. apply be_value_nonneg. Qed.

Lemma read_header_counts s h s' :
  read_header s = Some (h, s') →
  0 < n_local_time_types (counts h) <= kMaximumTypeCount ∧ 0 <= n_transitions (counts h).
Proof.
  unfold read_header. intros H. reader_inv. simpl in *.
  repeat match goal with Hr : read_u32 _ = _ |- _ => apply read_u32_nonneg in Hr end.
  match goal with Hv : _ && valid_counts _ = true |- _ =>
    apply andb_true_iff in Hv as [_ Hv]; unfold valid_counts in Hv; simpl in Hv;
    rewrite !andb_true_iff, negb_true_iff, !orb_false_iff, !Z.ltb_ge, !Z.eqb_neq in Hv end.
  lia.
Qed.

Lemma read_encoded_types_ok n s l s' :
  read_encoded_types n s = Some (l, s') →
  length l = n ∧ forallb (λ t, offset_in_range (utc_offset_seconds t)) (map encoded_value l) = true.
Proof.
  revert s l s'. induction n as [|n IH]; intros s l s' H; simpl in H; reader_inv; [done|].
  match goal with Hr : read_encoded_types n _ = _ |- _ => apply IH in Hr as [? Hr'] end.
  simpl. rewrite Hr', andb_true_r. split; [lia|].
  match goal with Hb : _ && _ = true |- _ =>
    rewrite !andb_true_iff, !negb_true_iff, !Z.ltb_ge in Hb end.
  unfold offset_in_range. rewrite andb_true_iff, !Z.leb_le. lia.
Qed.

Lemma read_transition_types_ok c n s l s' :
  read_transition_types c n s = Some (l, s') → length l = n ∧ Forall (λ t, t < c) l.
Proof.
  revert s l s'. induction n as [|n IH]; intros s l s' H; simpl in H; reader_inv; [done|].
  match goal with Hr : read_transition_types c n _ = _ |- _ => apply IH in Hr as [? ?] end.
  match goal with Hb : negb _ = true |- _ => rewrite negb_true_iff, Z.leb_gt in Hb end.
  split; [simpl; lia|by constructor].
Qed.

Lemma read_transition_times_ok w c p n s l s' ts :
  read_transition_times w p n s = Some (l, s') → length ts = n → Forall (λ t, t < c) ts →
  valid_transitions c p (zip_with mkTransition l ts) = true.
Proof.
  revert p s l s' ts. induction n as [|n IH]; intros p s l s' ts H Hl Hts;
    simpl in H; reader_inv; [done|].
  destruct ts as [|t ts]; [done|]. apply Forall_cons in Hts as [Ht Hts]. simpl.
  rewrite (proj2 (Z.ltb_lt t c)) by done. simpl. apply andb_true_iff. split.
  - destruct p as [p|]; [|done].
    match goal with Hb : negb _ = true |- _ => rewrite negb_true_iff, Z.leb_gt in Hb end.
    by apply Z.ltb_lt.
  - eapply IH; [eassumption|simpl in Hl; lia|done].
Qed.

(** What a section guarantees about its contents. *)
Lemma parse_section_ok c w v s sec s' :
  0 < n_local_time_types c <= kMaximumTypeCount →
  parse_section c w v s = Some (sec, s') →
  Z.of_nat (length (section_types sec)) = n_local_time_types c ∧ section_default sec = 0 ∧
  forallb (λ t, offset_in_range (utc_offset_seconds t)) (section_types sec) = true ∧
  valid_transitions (n_local_time_types c) None (section_transitions sec) = true.
Proof.
  unfold parse_section. intros Hc H. reader_inv. simpl.
  match goal with Hr : read_encoded_types _ _ = _ |- _ =>
    apply read_encoded_types_ok in Hr as [Hle Hoff] end.
  match goal with Hr : read_transition_types _ _ _ = _ |- _ =>
    apply read_transition_types_ok in Hr as [Hlt Hty] end.
  rewrite length_map, Hle. split_and!; [lia|done|done|].
  eapply read_transition_times_ok; eassumption.
Qed.

End Invariant.

Section Footer.
Import Posix.

Lemma unsigned_number_range lo hi s v s' :
  unsigned_number lo hi s = Some (v, s') → 0 <= v ∧ lo <= v <= hi.
Proof.
  unfold unsigned_number. intros H. apply reader_bind_inv in H as (t & s1 & _ & H).
  destruct (from_chars_all uint32_max t) as [n|] eqn:Hn; [|done].
  apply from_chars_all_range in Hn. reader_inv.
  match goal with Hb : _ && _ = true |- _ =>
    rewrite !andb_true_iff, !negb_true_iff, !Z.ltb_ge in Hb end. lia.
Qed.

Ltac number_ranges :=
  repeat match goal with
  | Hr : unsigned_number _ _ _ = Some _ |- _ => apply unsigned_number_range in Hr
  end.

Lemma signed_time_range s v s' :
  signed_time s = Some (v, s') →
  - (kMaximumPosixHour * 3600 + 59 * 60 + 59) <= v <= kMaximumPosixHour * 3600 + 59 * 60 + 59.
Proof.
  unfold signed_time, kMaximumPosixHour. intros H. reader_inv.
  repeat match goal with
  | x : Z * Z |- _ => destruct x
  | x : bool |- _ => destruct x
  | H : (if _ then _ else _) _ = _ |- _ => simpl in H
  end; reader_inv; repeat match goal with x : bool |- _ => destruct x end;
    reader_inv; number_ranges; simpl in *; reader_inv; lia.
Qed.

Lemma utc_offset_range s v s' : utc_offset s = Some (v, s') → offset_in_range v = true.
Proof.
  unfold utc_offset. intros H. reader_inv.
  match goal with Hb : _ && _ = true |- _ =>
    rewrite !andb_true_iff, !negb_true_iff, !Z.ltb_ge in Hb end.
  unfold offset_in_range. rewrite andb_true_iff, !Z.leb_le. lia.
Qed.

Lemma date_rule_day_ok s r s' :
  date_rule_day s = Some (r, s') → valid_date_rule r = true.
Proof.
  unfold date_rule_day. intros H. apply reader_bind_inv in H as ([] & s1 & _ & H).
  - reader_inv. number_ranges. unfold valid_date_rule. simpl.
    rewrite ?andb_true_iff, ?Z.leb_le. lia.
  - apply reader_bind_inv in H as ([] & s2 & _ & H); reader_inv; number_ranges;
      unfold valid_date_rule; simpl; rewrite ?andb_true_iff, ?Z.leb_le; lia.
Qed.

Lemma date_rule_ok s r s' : date_rule s = Some (r, s') → valid_date_rule r = true.
Proof.
  unfold date_rule. intros H. apply reader_bind_inv in H as (r0 & s1 & H0 & H).
  apply date_rule_day_ok in H0.
  apply reader_bind_inv in H as ([] & s2 & _ & H); reader_inv; [|done].
  match goal with Ht : signed_time _ = _ |- _ => apply signed_time_range in Ht end.
  unfold valid_date_rule in *. simpl. apply andb_true_iff in H0 as [_ H0].
  rewrite H0, andb_true_r, andb_true_iff, !Z.leb_le. done.
Qed.

Definition valid_future (f : PosixFutureRule) : bool :=
  offset_in_range (standard_offset f) &&
  match daylight f with
  | None => true
  | Some d => offset_in_range (daylight_offset d) && valid_date_rule (rule_start d) &&
              valid_date_rule (rule_end d)
  end.

Lemma future_rule_reader_ok s f s' :
  future_rule_reader s = Some (f, s') → valid_future f = true.
Proof.
  unfold future_rule_reader. intros H.
  apply reader_bind_inv in H as (std & s1 & _ & H).
  apply reader_bind_inv in H as (off & s2 & Hoff & H). apply utc_offset_range in Hoff.
  apply reader_bind_inv in H as ([] & s3 & _ & H).
  { reader_inv. unfold valid_future. simpl. by rewrite Hoff. }
  apply reader_bind_inv in H as (dst & s4 & _ & H).
  apply reader_bind_inv in H as (next & s5 & _ & H).
  apply reader_bind_inv in H as (ended & s6 & _ & H).
  apply reader_bind_inv in H as (doff & s7 & Hd & H).
  assert (offset_in_range doff = true) as Hdoff.
  { destruct ((next =? 44) || ended); [reader_inv|by eapply utc_offset_range, Hd].
    match goal with Hb : _ && _ = true |- _ =>
      rewrite !andb_true_iff, !negb_true_iff, !Z.ltb_ge in Hb end.
    unfold offset_in_range. rewrite andb_true_iff, !Z.leb_le. lia. }
  reader_inv.
  repeat match goal with Hr : date_rule _ = _ |- _ => apply date_rule_ok in Hr end.
  unfold valid_future. simpl. rewrite Hoff, Hdoff. simpl. by rewrite andb_true_iff.
Qed.

End Footer.

Lemma parse_posix_footer_ok text rule :
  Posix.parse_posix_footer text = Some rule →
  match rule with None => True | Some f => valid_future f = true end.
Proof.
  unfold Posix.parse_posix_footer. case_bool_decide; [by intros [= <-]|].
  destruct (Posix.future_rule_reader text) as [[f s]|] eqn:Hf; [|done].
  intros [= <-]. by eapply future_rule_reader_ok, Hf.
Qed.

(** A section and a checked rule make valid mapping data. *)
Lemma section_valid c w v s sec s' rule :
  0 < Tz.n_local_time_types c <= kMaximumTypeCount →
  Tz.parse_section c w v s = Some (sec, s') →
  match rule with None => True | Some f => valid_future f = true end →
  valid_mapping_data (mkData (Tz.section_transitions sec) (Tz.section_types sec)
                             (Tz.section_default sec) rule) = true.
Proof.
  intros Hc Hs Hrule. apply parse_section_ok in Hs as (Hlen & Hdef & Hoff & Htr); [|done].
  unfold valid_mapping_data. simpl. rewrite Hlen, Hdef, Hoff, Htr.
  rewrite (proj2 (Z.ltb_lt 0 _)), (proj2 (Z.leb_le _ kMaximumTypeCount)) by lia. simpl.
  destruct rule; done.
Qed.

(** C33.  Whatever bytes the timezone file holds, data that the parser accepts
    is valid mapping data: the type table is not empty and not too large, its
    offsets are in range, transitions are strictly increasing and refer to
    existing types, and the POSIX rule describes real dates.  The indexing of
    the mapping functions is therefore always in range. *)
Theorem parse_timezone_data_valid file data :
  parse_timezone_data file = success data → valid_mapping_data data = true.
Proof.
  unfold parse_timezone_data. case_match; [done|].
  destruct (Tz.read_header file) as [[h1 s1]|] eqn:H1; [|done]. cbn.
  apply read_header_counts in H1 as [Hc1 _].
  destruct (Tz.parse_section _ _ _ s1) as [[sec1 s2]|] eqn:H2; [|done]. cbn.
  case_match.
  { case_match; [done|]. intros [= <-]. by eapply section_valid, I. }
  destruct (Tz.read_header s2) as [[h2 s3]|] eqn:H3; [|done]. cbn.
  apply read_header_counts in H3 as [Hc2 _]. case_match; [done|].
  destruct (Tz.parse_section _ _ _ s3) as [[sec2 s4]|] eqn:H4; [|done]. cbn.
  case_match; [done|].
  destruct (Posix.parse_posix_footer _) as [rule|] eqn:Hf; [|done]. cbn.
  intros [= <-]. apply parse_posix_footer_ok in Hf. by eapply section_valid.
Qed.

(** ** A concrete file *)

Definition u32_bytes (n : Z) : bytes :=
  [n / 2 ^ 24; n / 2 ^ 16 mod 256; n / 2 ^ 8 mod 256; n mod 256].

(** One transition to daylight time, two types, and the rule of central
    Europe. *)
Definition sample_header (v transitions types chars : Z) : bytes :=
  bs!"TZif" ++ [v] ++ replicate 15 0 ++
  concat (map u32_bytes [0; 0; 0; transitions; types; chars]).

Definition sample_types : bytes :=
  u32_bytes 3600 ++ [0; 0] ++ u32_bytes 7200 ++ [1; 4] ++ bs!"CET" ++ [0] ++ bs!"CEST" ++ [0].

Definition sample_file : bytes :=
  sample_header #"2" 1 2 9 ++ u32_bytes 1711846800 ++ [1] ++ sample_types ++
  sample_header #"2" 1 2 9 ++ [0; 0; 0; 0] ++ u32_bytes 1711846800 ++ [1] ++ sample_types ++
  [10] ++ bs!"CET-1CEST,M3.5.0,M10.5.0/3" ++ [10].

Definition central_europe : TimezoneData :=
  mkData [mkTransition 1711846800 1] [mkType 3600 false; mkType 7200 true] 0
    (Some (mkFuture bs!"CET" 3600
       (Some (mkDaylight bs!"CEST" 7200 (mkDateRule MonthWeekday 0 3 5 0 7200)
                (mkDateRule MonthWeekday 0 10 5 0 10800))))).

Lemma parse_timezone_data_valid_witness :
  parse_timezone_data sample_file = success central_europe ∧
  valid_mapping_data central_europe = true.
Proof.
  assert (H : parse_timezone_data sample_file = success central_europe)
    by (vm_compute; reflexivity).
  split; [exact H|]. exact (parse_timezone_data_valid sample_file central_europe H).
Defined.
