(* ===== verification/TimezoneMap.v ===== *)
(** * Timezone mapping: [src/jobu/cron_timezone_priv.cpp], second half

    UTC offsets, the POSIX rule for future years, and the conversions between
    UTC instants and local times.  Instants and local times are nanosecond
    counts of the 64-bit system clock. *)

From stdpp Require Import base numbers strings list sets.
From Stdlib Require Import Ascii.
From S2P Require Import Prelude Calendar TextValidation CronExpression Tzif.
Local Open Scope Z_scope.

Definition ns_per_second : Z := 10 ^ 9.

Record OffsetTransition := mkOffsetTransition {
  utc_seconds : Z; offset_before : Z; offset_after : Z }.

Definition checked_add_i64 (left right : Z) : option Z :=
  if ((0 <? right) && (int64_max - right <? left)) || ((right <? 0) && (left <? int64_min - right))
  then None else Some (left + right).

Definition shift_time_point (v seconds : Z) : option Z :=
  let delta := seconds * ns_per_second in
  if ((0 <? delta) && (int64_max - delta <? v)) || ((delta <? 0) && (v <? int64_min - delta))
  then None else Some (v + delta).

(** ** POSIX rules *)

Definition transition_local_date (year_value : Z) (rule : PosixDateRule) : option Z :=
  let current_year := wrap_signed 16 year_value in
  if negb (year_ok year_value) then None
  else
    match rule_kind rule with
    | MonthWeekday =>
        let first := days_from_civil current_year (rule_month rule) 1 in
        let first_weekday := weekday_of_days first in
        let day_value :=
          1 + (rule_weekday rule + 7 - first_weekday) mod 7 + 7 * (rule_week rule - 1) in
        let last_day := days_in_month current_year (rule_month rule) in
        let day_value := if last_day <? day_value then day_value - 7 else day_value in
        if negb (valid_date current_year (rule_month rule) day_value) then None
        else Some (days_from_civil current_year (rule_month rule) day_value)
    | JulianWithoutLeapDay =>
        let day_offset := rule_day rule - 1 in
        let day_offset := if is_leap_year current_year && (60 <=? rule_day rule)
                          then day_offset + 1 else day_offset in
        Some (days_from_civil current_year 1 1 + day_offset)
    | JulianWithLeapDay => Some (days_from_civil current_year 1 1 + rule_day rule)
    end.

Definition transition_utc_seconds (year_value : Z) (rule : PosixDateRule) (before : Z) : option Z :=
  date ← transition_local_date year_value rule;
  seconds ← checked_add_i64 (date * 86400) (transition_time_seconds rule);
  checked_add_i64 seconds (- before).

Fixpoint future_transitions_from (standard : Z) (d : PosixDaylightRule) (current_year : Z) (n : nat)
    : option (list OffsetTransition) :=
  match n with
  | O => Some []
  | S n =>
      start ← transition_utc_seconds current_year (rule_start d) standard;
      finish ← transition_utc_seconds current_year (rule_end d) (daylight_offset d);
      rest ← future_transitions_from standard d (current_year + 1) n;
      Some (mkOffsetTransition start standard (daylight_offset d) ::
            mkOffsetTransition finish (daylight_offset d) standard :: rest)
  end.

Definition append_future_transitions (rule : PosixFutureRule) (first_year last_year : Z)
    : option (list OffsetTransition) :=
  match daylight rule with
  | None => Some []
  | Some d =>
      output ← future_transitions_from (standard_offset rule) d first_year
                 (Z.to_nat (last_year - first_year + 1));
      Some (stable_sort utc_seconds output)
  end.

Definition year_containing_seconds (seconds : Z) : option Z :=
  let value := year (civil_from_days (seconds / 86400)) in
  if year_ok value then Some (wrap_signed 16 value) else None.

(** The neighbouring years whose boundaries are generated. *)
Definition candidate_transitions (rule : PosixFutureRule) (seconds : Z)
    : result Error (list OffsetTransition) :=
  match year_containing_seconds seconds with
  | None => failure occurrence_out_of_range
  | Some y =>
      if (y <? year_min + 2) || (year_max - 2 <? y) then failure occurrence_out_of_range
      else ok_or (append_future_transitions rule (y - 2) (y + 2)) occurrence_out_of_range
  end.

(** ** Offsets *)

(** [data.local_time_types[i]]; [valid_mapping_data] keeps the index in range. *)
Definition type_offset (data : TimezoneData) (i : Z) : Z :=
  utc_offset_seconds (default (mkType 0 false) (local_time_types data !! Z.to_nat i)).

Definition after_cutoff (cutoff : option Z) (t : OffsetTransition) : bool :=
  match cutoff with Some c => c <? utc_seconds t | None => true end.

Definition last_cutoff (data : TimezoneData) : option Z :=
  unix_seconds <$> last (transitions data).

Definition future_offset_at (data : TimezoneData) (rule : PosixFutureRule) (seconds : Z)
    : result Error Z :=
  match daylight rule with
  | None => success (standard_offset rule)
  | Some _ =>
      ts ← candidate_transitions rule seconds;
      let offset := match last (transitions data) with
                    | Some t => type_offset data (local_time_type t)
                    | None => standard_offset rule
                    end in
      success (foldl (λ offset t,
        if after_cutoff (last_cutoff data) t && (utc_seconds t <=? seconds)
        then offset_after t else offset) offset ts)
  end.

(** The transitions that [std::ranges::upper_bound] leaves to its left. *)
Fixpoint not_after (seconds : Z) (l : list TimezoneTransition) : list TimezoneTransition :=
  match l with
  | t :: l => if unix_seconds t <=? seconds then t :: not_after seconds l else []
  | [] => []
  end.

Definition offset_at (data : TimezoneData) (utc : Z) : result Error Z :=
  let seconds := utc / ns_per_second in
  let tabulated :=
    let type := match last (not_after seconds (transitions data)) with
                | Some t => local_time_type t
                | None => default_local_time_type data
                end in
    success (type_offset data type) in
  match last (transitions data), future_rule data with
  | None, Some rule => future_offset_at data rule seconds
  | None, None => success (type_offset data (default_local_time_type data))
  | Some t, Some rule =>
      if unix_seconds t <? seconds then future_offset_at data rule seconds else tabulated
  | Some t, None => tabulated
  end.

Definition known_offsets (data : TimezoneData) : list Z :=
  map utc_offset_seconds (local_time_types data) ++
  match future_rule data with
  | None => []
  | Some rule => standard_offset rule ::
                 match daylight rule with Some d => [daylight_offset d] | None => [] end
  end.

Definition candidate_offsets (data : TimezoneData) : list Z := sort_unique (known_offsets data).

(** ** Local time to UTC *)

Record MappingCandidates := mkMappings { values : list Z; range_exhausted : bool }.

Fixpoint collect_mappings (data : TimezoneData) (local : Z) (offsets : list Z) (acc : MappingCandidates)
    : result Error MappingCandidates :=
  match offsets with
  | [] => success acc
  | offset :: offsets =>
      match shift_time_point local (- offset) with
      | None => collect_mappings data local offsets (mkMappings (values acc) true)
      | Some candidate =>
          active ← offset_at data candidate;
          collect_mappings data local offsets
            (if active =? offset then mkMappings (values acc ++ [candidate]) (range_exhausted acc)
             else acc)
      end
  end.

Definition exact_utc_mappings (data : TimezoneData) (local : Z) : result Error MappingCandidates :=
  mappings ← collect_mappings data local (candidate_offsets data) (mkMappings [] false);
  success (mkMappings (sort_unique (values mappings)) (range_exhausted mappings)).

Definition gap_contains (t : OffsetTransition) (local_seconds : Z) : bool :=
  if offset_after t <=? offset_before t then false
  else match checked_add_i64 (utc_seconds t) (offset_before t),
             checked_add_i64 (utc_seconds t) (offset_after t) with
       | Some start, Some finish => (start <=? local_seconds) && (local_seconds <? finish)
       | _, _ => false
       end.

Definition gap_size (t : OffsetTransition) : Z := offset_after t - offset_before t.

(** The scan from [lower_bound(first)] while the time is at most [last];
    [before] is the type in force before the head of the list. *)
Fixpoint scan_gaps (data : TimezoneData) (before first last local_seconds : Z)
    (l : list TimezoneTransition) : option Z :=
  match l with
  | [] => None
  | t :: l =>
      if unix_seconds t <? first then scan_gaps data (local_time_type t) first last local_seconds l
      else if last <? unix_seconds t then None
      else
        let candidate := mkOffsetTransition (unix_seconds t) (type_offset data before)
                           (type_offset data (local_time_type t)) in
        if gap_contains candidate local_seconds then Some (gap_size candidate)
        else scan_gaps data (local_time_type t) first last local_seconds l
  end.

Fixpoint first_gap (cutoff : option Z) (local_seconds : Z) (l : list OffsetTransition) : option Z :=
  match l with
  | [] => None
  | t :: l => if after_cutoff cutoff t && gap_contains t local_seconds then Some (gap_size t)
              else first_gap cutoff local_seconds l
  end.

Definition gap_shift (data : TimezoneData) (local : Z) : result Error (option Z) :=
  let local_seconds := local / ns_per_second in
  match checked_add_i64 local_seconds (- kMaximumUtcOffset),
        checked_add_i64 local_seconds (- kMinimumUtcOffset) with
  | Some first_transition, Some last_transition =>
      match scan_gaps data (default_local_time_type data) first_transition last_transition
              local_seconds (transitions data) with
      | Some shift => success (Some shift)
      | None =>
          match future_rule data with
          | Some rule =>
              match daylight rule with
              | Some _ =>
                  ts ← candidate_transitions rule local_seconds;
                  success (first_gap (last_cutoff data) local_seconds ts)
              | None => success None
              end
          | None => success None
          end
      end
  | _, _ => failure occurrence_out_of_range
  end.

Definition timezone_local_time (data : TimezoneData) (utc : Z) : result Error Z :=
  _ ← check (valid_mapping_data data) (invalid_timezone_data "mapping data");
  offset ← offset_at data utc;
  ok_or (shift_time_point utc offset) occurrence_out_of_range.

Definition mapping_error (m : MappingCandidates) (detail : string) : Error :=
  if range_exhausted m then occurrence_out_of_range else invalid_timezone_data detail.

Definition timezone_utc_time (data : TimezoneData) (local : Z) : result Error Z :=
  _ ← check (valid_mapping_data data) (invalid_timezone_data "mapping data");
  mappings ← exact_utc_mappings data local;
  match values mappings with
  | front :: _ => success front
  | [] =>
      shift ← gap_shift data local;
      shift ← ok_or shift (mapping_error mappings "local mapping");
      shifted_local ← ok_or (shift_time_point local shift) occurrence_out_of_range;
      shifted_mappings ← exact_utc_mappings data shifted_local;
      match values shifted_mappings with
      | front :: _ => success front
      | [] => failure (mapping_error shifted_mappings "gap mapping")
      end
  end.

(** ** Timezone names and files *)

Definition valid_timezone_name (timezone : bytes) : bool :=
  if bool_decide (timezone = []) || (255 <? Z.of_nat (length timezone)) ||
     negb (is_valid_utf8 timezone) || has_ascii_control timezone ||
     bool_decide (is_Some (find 92 timezone)) || (default 0 (head timezone) =? #"/")
  then false
  else forallb (λ component,
    negb (bool_decide (component = []) || bytes_eqb component bs!"." || bytes_eqb component bs!".."))
    (members #"/" timezone).

(** A path as its components; [candidate] lies strictly below [root]. *)
Fixpoint is_below (root candidate : list bytes) : bool :=
  match root, candidate with
  | [], _ => negb (bool_decide (candidate = []))
  | r :: root, c :: candidate => bytes_eqb r c && is_below root candidate
  | _ :: _, [] => false
  end.

Section Load.

(** The file system: symlink resolution, the regular-file test, and opening,
    sizing and reading a file. *)
Context (canonical : list bytes → option (list bytes)).
Context (is_regular_file : list bytes → bool).
Context (open_file : list bytes → bool).
Context (file_size : list bytes → option Z).
Context (read_all : list bytes → option bytes).

(** [path / name]: the name is relative, its components are appended. *)
Definition append_path (root : list bytes) (name : bytes) : list bytes :=
  root ++ members #"/" name.

Fixpoint resolve_timezone (name : bytes) (roots : list (list bytes)) : option (list bytes) :=
  match roots with
  | [] => None
  | root :: roots =>
      match canonical root with
      | None => resolve_timezone name roots
      | Some canonical_root =>
          match canonical (append_path canonical_root name) with
          | None => resolve_timezone name roots
          | Some candidate =>
              if is_below canonical_root candidate && is_regular_file candidate
              then Some candidate else resolve_timezone name roots
          end
      end
  end.

Definition load_timezone_data (name : bytes) (roots : list (list bytes)) : result Error TimezoneData :=
  _ ← check (valid_timezone_name name) invalid_timezone;
  path ← ok_or (resolve_timezone name roots) invalid_timezone;
  _ ← check (open_file path) (invalid_timezone_data "file open");
  size ← ok_or (file_size path) (invalid_timezone_data "file size");
  _ ← check (negb (kMaximumTimezoneFileSize <? size)) (invalid_timezone_data "file size");
  content ← ok_or (read_all path) (invalid_timezone_data "file read");
  _ ← check (Z.of_nat (length content) =? size) (invalid_timezone_data "file read");
  parse_timezone_data content.

Definition default_roots : list (list bytes) :=
  [[bs!"var"; bs!"db"; bs!"timezone"; bs!"zoneinfo"]; [bs!"usr"; bs!"share"; bs!"zoneinfo"];
   [bs!"usr"; bs!"share"; bs!"lib"; bs!"zoneinfo"]].

End Load.

(** ** Shifts and offsets *)

Lemma checked_add_i64_spec l r :
  in_int64 l → in_int64 r →
  (checked_add_i64 l r = Some (l + r) ∧ in_int64 (l + r)) ∨
  (checked_add_i64 l r = None ∧ ¬ in_int64 (l + r)).
Proof.
  unfold in_int64, checked_add_i64. intros Hl Hr.
  destruct (Z.ltb_spec 0 r), (Z.ltb_spec (int64_max - r) l), (Z.ltb_spec r 0),
    (Z.ltb_spec l (int64_min - r)); simpl; (left; split; [done|lia]) || (right; split; [done|lia]).
Qed.

(** A shift succeeds exactly when the sum is representable. *)
Lemma shift_time_point_spec v s :
  in_int64 v →
  (shift_time_point v s = Some (v + s * ns_per_second) ∧ in_int64 (v + s * ns_per_second)) ∨
  (shift_time_point v s = None ∧ ¬ in_int64 (v + s * ns_per_second)).
Proof.
  unfold in_int64, shift_time_point. intros Hv. set (d := s * ns_per_second).
  destruct (Z.ltb_spec 0 d), (Z.ltb_spec (int64_max - d) v), (Z.ltb_spec d 0),
    (Z.ltb_spec v (int64_min - d)); simpl; (left; split; [done|lia]) || (right; split; [done|lia]).
Qed.

Lemma shift_time_point_some v s r :
  in_int64 v → shift_time_point v s = Some r → r = v + s * ns_per_second ∧ in_int64 r.
Proof. intros Hv H. destruct (shift_time_point_spec v s Hv) as [[Hs ?]|[Hs ?]]; simplify_eq; done. Qed.

Lemma valid_types data :
  valid_mapping_data data = true →
  (0 < length (local_time_types data))%nat ∧
  (default_local_time_type data < Z.of_nat (length (local_time_types data))) ∧
  Forall (λ t, local_time_type t < Z.of_nat (length (local_time_types data))) (transitions data).
Proof.
  unfold valid_mapping_data. rewrite !andb_true_iff, !Z.ltb_lt.
  intros [[[[[? _] ?] _] Ht] _]. split_and!; [lia|done|]. clear -Ht.
  revert Ht. generalize (@None Z). induction (transitions data) as [|t l IH]; intros p; simpl; [done|].
  rewrite !andb_true_iff, Z.ltb_lt. intros [[? _] ?]. constructor; [done|by eapply IH].
Qed.

Lemma type_offset_known data i :
  valid_mapping_data data = true → i < Z.of_nat (length (local_time_types data)) →
  type_offset data i ∈ known_offsets data.
Proof.
  intros Hv Hi. destruct (valid_types _ Hv) as [Hpos _]. unfold type_offset, known_offsets.
  destruct (lookup_lt_is_Some_2 (local_time_types data) (Z.to_nat i)) as [t Ht]; [lia|].
  rewrite Ht. apply elem_of_app. left. simpl. apply list_elem_of_fmap. exists t.
  split; [done|]. by eapply list_elem_of_lookup_2.
Qed.

Lemma transition_offset_known data t :
  valid_mapping_data data = true → t ∈ transitions data →
  type_offset data (local_time_type t) ∈ known_offsets data.
Proof.
  intros Hv Ht. apply type_offset_known; [done|]. destruct (valid_types _ Hv) as (_ & _ & Hf).
  rewrite Forall_forall in Hf. by apply Hf.
Qed.

Lemma default_offset_known data :
  valid_mapping_data data = true →
  type_offset data (default_local_time_type data) ∈ known_offsets data.
Proof. intros Hv. apply type_offset_known; [done|]. by apply valid_types. Qed.

Lemma last_elem {A} (l : list A) x : last l = Some x → x ∈ l.
Proof. rewrite last_lookup. by intros ?%list_elem_of_lookup_2. Qed.

Lemma not_after_sub s l t : t ∈ not_after s l → t ∈ l.
Proof.
  induction l as [|u l IH]; simpl; [done|]. case_match; [|by intros ?%elem_of_nil].
  rewrite !elem_of_cons. tauto.
Qed.

Lemma future_transitions_offsets standard d y n ts :
  future_transitions_from standard d y n = Some ts →
  Forall (λ t, offset_after t = standard ∨ offset_after t = daylight_offset d) ts.
Proof.
  revert y ts. induction n as [|n IH]; intros y ts; cbn [future_transitions_from];
    [intros [= <-]; constructor|].
  destruct (transition_utc_seconds y (rule_start d) _); cbn [mbind option_bind]; [|done].
  destruct (transition_utc_seconds y (rule_end d) _); cbn [mbind option_bind]; [|done].
  destruct (future_transitions_from _ _ _ n) eqn:Hn; cbn [mbind option_bind]; [|done].
  intros [= <-]. constructor; [by right|]. constructor; [by left|]. by eapply IH.
Qed.

Lemma candidate_transitions_offsets rule s ts :
  candidate_transitions rule s = success ts →
  ∀ t, t ∈ ts → ∃ d, daylight rule = Some d ∧
    (offset_after t = standard_offset rule ∨ offset_after t = daylight_offset d).
Proof.
  unfold candidate_transitions, append_future_transitions. repeat case_match; try done; simpl.
  - intros Hts t Ht. eexists. split; [done|].
    destruct (future_transitions_from _ _ _ _) eqn:Hf; [|done]. simpl in Hts. simplify_eq.
    apply stable_sort_elem in Ht. apply future_transitions_offsets in Hf.
    rewrite Forall_forall in Hf. by apply Hf.
  - intros [= <-] t Ht. by apply elem_of_nil in Ht.
Qed.

Lemma rule_offsets_known data rule o :
  future_rule data = Some rule →
  (o = standard_offset rule ∨ ∃ d, daylight rule = Some d ∧ o = daylight_offset d) →
  o ∈ known_offsets data.
Proof.
  intros Hr Ho. unfold known_offsets. rewrite Hr. apply elem_of_app. right.
  destruct Ho as [->|(d & -> & ->)]; [by left|]. right. by left.
Qed.

(** Every offset in force at some instant is a candidate of the inverse
    search. *)
Lemma offset_at_known data utc o :
  valid_mapping_data data = true → offset_at data utc = success o → o ∈ known_offsets data.
Proof.
  intros Hv. unfold offset_at. set (s := utc / ns_per_second).
  assert (Htab : ∀ i, i = match last (not_after s (transitions data)) with
                         | Some t => local_time_type t | None => default_local_time_type data end →
                 type_offset data i ∈ known_offsets data).
  { intros i ->. destruct (last _) as [t|] eqn:Hl; [|by apply default_offset_known].
    apply transition_offset_known; [done|]. by eapply not_after_sub, last_elem. }
  assert (Hfut : ∀ rule o, future_rule data = Some rule →
                 future_offset_at data rule s = success o → o ∈ known_offsets data).
  { clear o. intros rule o Hr. unfold future_offset_at.
    destruct (daylight rule) as [d|] eqn:Hd.
    - destruct (candidate_transitions rule s) as [ts|] eqn:Hts; [|done]. simpl. intros [= <-].
      pose proof (candidate_transitions_offsets _ _ _ Hts) as Hall. clear Hts.
      assert (H0 : match last (transitions data) with
                   | Some t => type_offset data (local_time_type t)
                   | None => standard_offset rule end ∈ known_offsets data).
      { destruct (last (transitions data)) as [t|] eqn:Hl.
        - by apply transition_offset_known, last_elem.
        - eapply rule_offsets_known; [done|by left]. }
      revert H0. generalize (match last (transitions data) with
        | Some t => type_offset data (local_time_type t) | None => standard_offset rule end).
      induction ts as [|t ts IH]; intros o Ho; simpl; [done|].
      apply IH; [intros t' Ht'; apply Hall; apply elem_of_cons; by right|]. destruct (after_cutoff _ _ && _); [|done].
      destruct (Hall t) as (d' & Hd' & Ho'); [apply elem_of_cons; by left|]. eapply rule_offsets_known; [done|].
      destruct Ho' as [->| ->]; [by left|right; eauto].
    - intros [= <-]. eapply rule_offsets_known; [done|by left]. }
  destruct (last (transitions data)) as [t|], (future_rule data) as [rule|] eqn:Hr.
  - destruct (unix_seconds t <? s); [by apply Hfut|]. intros [= <-]. by apply Htab.
  - intros [= <-]. by apply Htab.
  - by apply Hfut.
  - intros [= <-]. by apply default_offset_known.
Qed.

(** ** The exact inverse *)

Lemma collect_mappings_spec data local offsets acc m :
  collect_mappings data local offsets acc = success m →
  ∀ u, u ∈ values m ↔ u ∈ values acc ∨
    ∃ o, o ∈ offsets ∧ shift_time_point local (- o) = Some u ∧ offset_at data u = success o.
Proof.
  revert acc. induction offsets as [|o offsets IH]; intros acc; simpl.
  { intros [= <-] u. split; [by left|]. intros [?|(o & Ho & _)]; [done|]. by apply elem_of_nil in Ho. }
  destruct (shift_time_point local (- o)) as [c|] eqn:Hc.
  - destruct (offset_at data c) as [active|] eqn:Ha; [|done]. cbn [mbind result_bind].
    intros Hm u. rewrite (IH _ Hm u). clear IH Hm. setoid_rewrite elem_of_cons.
    destruct (Z.eqb_spec active o) as [->|Hne]; cbn [values].
    + rewrite elem_of_app, list_elem_of_singleton. split.
      * intros [[?| ->]|(o' & ? & ?)]; [by left|right; eauto|right; eauto].
      * intros [?|(o' & [->|?] & Hs & ?)]; [by left; left|left; right; congruence|right; eauto].
    + split; [intros [?|(o' & ? & ?)]; eauto|].
      intros [?|(o' & [->|?] & Hs & ?)]; [by left|congruence|right; eauto].
  - intros Hm u. rewrite (IH _ Hm u). cbn [values]. setoid_rewrite elem_of_cons.
    split; [intros [?|(o' & ? & ?)]; eauto|].
    intros [?|(o' & [->|?] & Hs & ?)]; [by left|congruence|right; eauto].
Qed.

(** [u] is a representable instant whose local time is [local]. *)
Definition maps_to (data : TimezoneData) (u local : Z) : Prop :=
  in_int64 u ∧ timezone_local_time data u = success local.

Lemma timezone_local_time_inv data u local :
  in_int64 u → timezone_local_time data u = success local →
  valid_mapping_data data = true ∧ in_int64 local ∧
  ∃ o, offset_at data u = success o ∧ local = u + o * ns_per_second.
Proof.
  intros Hu. unfold timezone_local_time, check. destruct (valid_mapping_data data); [|done].
  cbn [mbind result_bind]. destruct (offset_at data u) as [o|]; [|done].
  cbn [mbind result_bind]. destruct (shift_time_point u o) as [l|] eqn:Hs; [|done].
  intros [= <-]. apply shift_time_point_some in Hs as [-> ?]; [|done]. eauto 6.
Qed.

Lemma timezone_local_time_intro data u o :
  valid_mapping_data data = true → in_int64 u → offset_at data u = success o →
  in_int64 (u + o * ns_per_second) → maps_to data u (u + o * ns_per_second).
Proof.
  intros Hv Hu Ho Hl. split; [done|]. unfold timezone_local_time, check. rewrite Hv.
  cbn [mbind result_bind]. rewrite Ho. cbn [mbind result_bind].
  destruct (shift_time_point_spec u o Hu) as [[-> _]|[_ ?]]; done.
Qed.

Lemma collect_mappings_exact data local m :
  valid_mapping_data data = true → in_int64 local →
  collect_mappings data local (candidate_offsets data) (mkMappings [] false) = success m →
  ∀ u, u ∈ values m ↔ maps_to data u local.
Proof.
  intros Hv Hl Hm u. rewrite (collect_mappings_spec _ _ _ _ _ Hm u). cbn [values]. split.
  - intros [Hu|(o & _ & Hs & Ho)]; [by apply elem_of_nil in Hu|].
    apply shift_time_point_some in Hs as [-> Hu]; [|done].
    replace local with (local + - o * ns_per_second + o * ns_per_second) at 2 by lia.
    apply timezone_local_time_intro; try done.
    by replace (local + - o * ns_per_second + o * ns_per_second) with local by lia.
  - intros [Hu (_ & _ & o & Ho & ->)%timezone_local_time_inv]; [|done].
    right. exists o. split_and!; [|  |done].
    + unfold candidate_offsets. apply sort_unique_elem. by eapply offset_at_known.
    + destruct (shift_time_point_spec (u + o * ns_per_second) (- o) Hl) as [[-> _]|[_ Hn]];
        replace (u + o * ns_per_second + - o * ns_per_second) with u in * by lia; done.
Qed.

(** The exact mappings are the preimages of the local time, the earliest
    first. *)
Lemma exact_utc_mappings_spec data local m :
  valid_mapping_data data = true → in_int64 local → exact_utc_mappings data local = success m →
  match values m with
  | [] => ∀ u, ¬ maps_to data u local
  | front :: _ => maps_to data front local ∧ ∀ u, maps_to data u local → front <= u
  end.
Proof.
  intros Hv Hl. unfold exact_utc_mappings.
  destruct (collect_mappings _ _ _ _) as [c|] eqn:Hc; [|done]. intros [= <-]. cbn [values].
  pose proof (collect_mappings_exact _ _ _ Hv Hl Hc) as Hex.
  destruct (sort_unique (values c)) as [|front rest] eqn:Hs.
  - intros u Hu. apply (proj1 (sort_unique_nil _)) in Hs. apply Hex in Hu. rewrite Hs in Hu. by apply elem_of_nil in Hu.
  - destruct (sort_unique_head (values c) front) as [Hin Hmin]; [by rewrite Hs|].
    split; [by apply Hex|]. intros u Hu. by apply Hmin, Hex.
Qed.

(** ** Totality of the offset on the clock's range *)

(** The day and the weekday of a date rule have unsigned types. *)
Definition unsigned_rule (r : PosixDateRule) : Prop := 0 <= rule_day r ∧ 0 <= rule_weekday r.

Definition unsigned_rules (data : TimezoneData) : Prop :=
  ∀ rule d, future_rule data = Some rule → daylight rule = Some d →
    unsigned_rule (rule_start d) ∧ unsigned_rule (rule_end d).

Definition plain_year (y : Z) : Prop := year_min <= y <= year_max.

Lemma plain_year_wrap y : plain_year y → wrap_signed 16 y = y ∧ year_ok y = true.
Proof.
  unfold plain_year, year_ok, year_min, year_max. intros Hy.
  rewrite wrap_signed_id by (simpl; lia). split; [done|].
  by rewrite andb_true_iff, !Z.leb_le.
Qed.

(** The day of the month that a [Mm.w.d] rule selects. *)
Definition rule_day_of_month (y : Z) (r : PosixDateRule) : Z :=
  let first := days_from_civil y (rule_month r) 1 in
  let d := 1 + (rule_weekday r + 7 - weekday_of_days first) mod 7 + 7 * (rule_week r - 1) in
  if days_in_month y (rule_month r) <? d then d - 7 else d.

Lemma weekday_distance wd z :
  0 <= wd <= 6 →
  let k := (wd + 7 - (z + 4) mod 7) mod 7 in 0 <= k <= 6 ∧ (z + k + 4) mod 7 = wd.
Proof.
  intros Hwd. cbv zeta. split; [dlia|].
  replace (z + (wd + 7 - (z + 4) mod 7) mod 7 + 4)
    with ((z + 4) + (wd + 7 - (z + 4) mod 7) mod 7) by lia.
  rewrite Zplus_mod_idemp_r. replace (z + 4 + (wd + 7 - (z + 4) mod 7))
    with (wd + (1 + (z + 4) / 7) * 7) by (pose proof (Z.div_mod (z + 4) 7); lia).
  rewrite Z.mod_add by lia. apply Z.mod_small. lia.
Qed.

Lemma rule_day_of_month_spec y r :
  1 <= rule_month r <= 12 → 1 <= rule_week r <= 5 → 0 <= rule_weekday r <= 6 →
  let d := rule_day_of_month y r in
  1 <= d <= days_in_month y (rule_month r) ∧
  weekday_of_days (days_from_civil y (rule_month r) d) = rule_weekday r ∧
  (if rule_week r =? 5 then days_in_month y (rule_month r) - 7 < d
   else (d - 1) / 7 + 1 = rule_week r).
Proof.
  intros Hm Hw Hd. pose proof (days_in_month_bounds y (rule_month r) Hm) as Hlen.
  cbv zeta. rewrite (days_from_civil_day y (rule_month r) (rule_day_of_month y r)).
  unfold rule_day_of_month.
  set (first := days_from_civil y (rule_month r) 1). unfold weekday_of_days.
  generalize dependent (days_in_month y (rule_month r)). intros len Hlen. cbv zeta.
  generalize dependent (rule_week r). intros w Hw.
  generalize dependent (rule_weekday r). intros wd Hd. clear -Hlen Hw Hd.
  destruct (weekday_distance wd first Hd) as [Hk He]. revert Hk He.
  generalize ((wd + 7 - (first + 4) mod 7) mod 7). intros k Hk He.
  assert (Hq : ∀ q, (first + (1 + k + 7 * q - 1) + 4) mod 7 = wd).
  { intros q. replace (first + (1 + k + 7 * q - 1) + 4) with (first + k + 4 + q * 7) by lia.
    by rewrite Z.mod_add by lia. }
  destruct (Z.ltb_spec len (1 + k + 7 * (w - 1))).
  - assert (w = 5) as -> by lia. simpl. split_and!; [lia|lia| |lia].
    rewrite <- (Hq 3). f_equal. lia.
  - split_and!; [lia..|apply Hq|]. destruct (Z.eqb_spec w 5); [lia|].
    replace (1 + k + 7 * (w - 1) - 1) with (k + (w - 1) * 7) by lia.
    rewrite Z.div_add, Z.div_small by lia. lia.
Qed.

Lemma valid_month_weekday r :
  rule_kind r = MonthWeekday → valid_date_rule r = true →
  1 <= rule_month r <= 12 ∧ 1 <= rule_week r <= 5 ∧ rule_weekday r <= 6.
Proof.
  unfold valid_date_rule. intros ->. rewrite !andb_true_iff, !Z.leb_le. lia.
Qed.

Lemma transition_month_weekday y r :
  plain_year y → rule_kind r = MonthWeekday → valid_date_rule r = true → 0 <= rule_weekday r →
  transition_local_date y r =
    Some (days_from_civil y (rule_month r) (rule_day_of_month y r)).
Proof.
  intros Hy Hk Hv Hd. destruct (valid_month_weekday r Hk Hv) as (Hm & Hw & Hwd).
  destruct (rule_day_of_month_spec y r Hm Hw ltac:(lia)) as (Hday & _).
  unfold transition_local_date. destruct (plain_year_wrap y Hy) as [-> ->]. cbn [negb]. rewrite Hk.
  fold (rule_day_of_month y r). cbv zeta.
  assert (Hval : valid_date y (rule_month r) (rule_day_of_month y r) = true).
  { unfold valid_date. rewrite !andb_true_iff, !Z.leb_le. lia. }
  unfold rule_day_of_month in *. by rewrite Hval.
Qed.

Lemma month_day_in_year y m d :
  1 <= m <= 12 → 1 <= d <= days_in_month y m →
  days_from_civil y 1 1 <= days_from_civil y m d <= days_from_civil y 1 1 + 365.
Proof.
  intros Hm Hd. rewrite (days_from_civil_day y m d). pose proof (year_length y) as Hlen.
  change (days_from_civil y 1 1) with (month_first y 1) in *.
  change (days_from_civil (y + 1) 1 1) with (month_first y 13) in Hlen.
  assert (Hf : days_from_civil y m 1 = month_first y m).
  { unfold month_first. by rewrite (proj2 (Z.eqb_neq m 13)) by lia. }
  rewrite Hf. pose proof (month_first_mono y 1 m ltac:(lia) ltac:(lia) ltac:(lia)).
  pose proof (month_first_mono y (m + 1) 13 ltac:(lia) ltac:(lia) ltac:(lia)) as Hm13.
  rewrite month_first_succ in Hm13 by done. destruct (is_leap_year y); lia.
Qed.

Lemma transition_local_date_total y r :
  plain_year y → valid_date_rule r = true → unsigned_rule r →
  ∃ d, transition_local_date y r = Some d ∧
    days_from_civil y 1 1 <= d <= days_from_civil y 1 1 + 365.
Proof.
  intros Hy Hv [Hd Hwd]. destruct (rule_kind r) eqn:Hk.
  - rewrite transition_month_weekday by done. eexists. split; [done|].
    destruct (valid_month_weekday r Hk Hv) as (Hm & Hw & ?).
    apply month_day_in_year; [done|]. by apply (rule_day_of_month_spec y r Hm Hw).
  - unfold transition_local_date. destruct (plain_year_wrap y Hy) as [-> ->]. cbn [negb]. rewrite Hk.
    eexists. split; [done|]. unfold valid_date_rule in Hv. rewrite Hk in Hv.
    rewrite !andb_true_iff, !Z.leb_le in Hv. destruct (is_leap_year y), (60 <=? rule_day r); simpl; lia.
  - unfold transition_local_date. destruct (plain_year_wrap y Hy) as [-> ->]. cbn [negb]. rewrite Hk.
    eexists. split; [done|]. unfold valid_date_rule in Hv. rewrite Hk in Hv.
    rewrite !andb_true_iff, !Z.leb_le in Hv. lia.
Qed.

Lemma plain_year_days y :
  plain_year y → -13000000 <= days_from_civil y 1 1 <= 13000000.
Proof.
  unfold plain_year, year_min, year_max. intros Hy.
  pose proof (january_mono (-32767) y ltac:(lia)) as H1.
  pose proof (january_mono y 32767 ltac:(lia)) as H2.
  change (days_from_civil (-32767) 1 1) with (-12687428) in H1.
  change (days_from_civil 32767 1 1) with 11248373 in H2. lia.
Qed.

Lemma transition_utc_seconds_total y r before :
  plain_year y → valid_date_rule r = true → unsigned_rule r → offset_in_range before = true →
  ∃ s, transition_utc_seconds y r before = Some s.
Proof.
  intros Hy Hv Hu Hb. destruct (transition_local_date_total y r Hy Hv Hu) as (d & Hd & Hr).
  pose proof (plain_year_days y Hy) as Hp. unfold transition_utc_seconds. rewrite Hd.
  cbn [mbind option_bind].
  unfold offset_in_range, kMinimumUtcOffset, kMaximumUtcOffset in Hb.
  rewrite andb_true_iff, !Z.leb_le in Hb.
  unfold valid_date_rule, kMaximumPosixHour in Hv. rewrite !andb_true_iff, !Z.leb_le in Hv.
  destruct Hv as [Ht _].
  destruct (checked_add_i64_spec (d * 86400) (transition_time_seconds r)) as [[-> H1]|[_ Hn]];
    unfold in_int64, int64_min, int64_max in *; [lia..| |lia].
  cbn [mbind option_bind].
  destruct (checked_add_i64_spec (d * 86400 + transition_time_seconds r) (- before)) as [[-> H2]|[_ Hn]];
    unfold in_int64, int64_min, int64_max in *; [lia..|eauto|lia].
Qed.

Lemma future_transitions_total standard d y n :
  year_min <= y → y + Z.of_nat n - 1 <= year_max →
  offset_in_range standard = true → offset_in_range (daylight_offset d) = true →
  valid_date_rule (rule_start d) = true → valid_date_rule (rule_end d) = true →
  unsigned_rule (rule_start d) → unsigned_rule (rule_end d) →
  ∃ ts, future_transitions_from standard d y n = Some ts.
Proof.
  intros Hlo Hhi Hs Hd Hvs Hve Hus Hue. revert y Hlo Hhi.
  induction n as [|n IH]; intros y Hlo Hhi; cbn [future_transitions_from]; [eauto|].
  assert (Hy : plain_year y) by (unfold plain_year; lia).
  destruct (transition_utc_seconds_total y (rule_start d) standard) as [s ->]; [done..|].
  destruct (transition_utc_seconds_total y (rule_end d) (daylight_offset d)) as [e ->]; [done..|].
  cbn [mbind option_bind]. destruct (IH (y + 1)) as [ts ->]; [lia..|]. cbn [mbind option_bind]. eauto.
Qed.

(** The years that a 64-bit nanosecond clock reaches, with a margin for the
    offsets, are 1677 to 2262. *)
Lemma clock_year s :
  int64_min / ns_per_second - 200000 <= s <= int64_max / ns_per_second + 200000 →
  1670 <= year (civil_from_days (s / 86400)) <= 2270.
Proof.
  change (int64_min / ns_per_second) with (-9223372037).
  change (int64_max / ns_per_second) with 9223372036. intros Hs.
  apply near_epoch_year. dlia.
Qed.

Lemma candidate_transitions_total data rule s :
  valid_mapping_data data = true → unsigned_rules data → future_rule data = Some rule →
  int64_min / ns_per_second - 200000 <= s <= int64_max / ns_per_second + 200000 →
  ∃ ts, candidate_transitions rule s = success ts.
Proof.
  intros Hv Hu Hr Hs. unfold candidate_transitions, year_containing_seconds.
  pose proof (clock_year s Hs) as Hy. set (y := year (civil_from_days (s / 86400))) in *.
  destruct (plain_year_wrap y) as [-> ->]; [unfold plain_year, year_min, year_max; lia|].
  rewrite (proj2 (Z.ltb_ge y (year_min + 2))), (proj2 (Z.ltb_ge (year_max - 2) y))
    by (unfold year_min, year_max; lia). cbn [orb].
  unfold append_future_transitions. destruct (daylight rule) as [d|] eqn:Hd; [|eauto].
  unfold valid_mapping_data in Hv. rewrite Hr, Hd in Hv.
  rewrite !andb_true_iff in Hv. destruct Hv as [_ [? [[? ?] ?]]].
  destruct (Hu rule d Hr Hd).
  destruct (future_transitions_total (standard_offset rule) d (y - 2)
              (Z.to_nat (y + 2 - (y - 2) + 1))) as [ts ->]; [unfold year_min, year_max; lia..|done|done|done|done|done|done|].
  cbn. eauto.
Qed.

Lemma clock_seconds u :
  in_int64 u → int64_min / ns_per_second <= u / ns_per_second <= int64_max / ns_per_second.
Proof. intros Hu. split; apply Z.div_le_mono; unfold in_int64, ns_per_second in *; lia. Qed.

(** An offset exists at every instant of the clock. *)
Lemma offset_at_total data u :
  valid_mapping_data data = true → unsigned_rules data → in_int64 u →
  ∃ o, offset_at data u = success o.
Proof.
  intros Hv Hu Hi. pose proof (clock_seconds u Hi) as Hs. unfold offset_at.
  assert (Hfut : ∀ rule, future_rule data = Some rule →
                 ∃ o, future_offset_at data rule (u / ns_per_second) = success o).
  { intros rule Hr. unfold future_offset_at. destruct (daylight rule); [|eauto].
    destruct (candidate_transitions_total data rule (u / ns_per_second)) as [ts ->];
      [done..|lia|]. cbn. eauto. }
  destruct (last (transitions data)) as [t|], (future_rule data) as [rule|] eqn:Hr; [|eauto|by apply Hfut|eauto].
  destruct (unix_seconds t <? u / ns_per_second); [by apply Hfut|eauto].
Qed.

Lemma exact_utc_mappings_total data local :
  valid_mapping_data data = true → unsigned_rules data → in_int64 local →
  ∃ m, exact_utc_mappings data local = success m.
Proof.
  intros Hv Hu Hl. unfold exact_utc_mappings.
  assert (∀ acc, ∃ m, collect_mappings data local (candidate_offsets data) acc = success m) as Hc.
  { induction (candidate_offsets data) as [|o os IH]; intros acc; cbn [collect_mappings]; [eauto|].
    destruct (shift_time_point local (- o)) as [c|] eqn:Hs; [|apply IH].
    apply shift_time_point_some in Hs as [_ Hc]; [|done].
    destruct (offset_at_total data c Hv Hu Hc) as [a ->]. cbn [mbind result_bind]. apply IH. }
  destruct (Hc (mkMappings [] false)) as [m ->]. cbn. eauto.
Qed.

(** ** Gaps *)

(** The offset changes of a timezone: the tabulated ones, and after the last
    of them the yearly ones of the POSIX rule. *)
Inductive offset_change (data : TimezoneData) : OffsetTransition → Prop :=
  | tabulated_change pre t post :
      transitions data = pre ++ t :: post →
      offset_change data (mkOffsetTransition (unix_seconds t)
        (type_offset data (default (default_local_time_type data) (local_time_type <$> last pre)))
        (type_offset data (local_time_type t)))
  | daylight_start rule d y s :
      future_rule data = Some rule → daylight rule = Some d →
      transition_utc_seconds y (rule_start d) (standard_offset rule) = Some s →
      (∀ t, t ∈ transitions data → unix_seconds t < s) →
      offset_change data (mkOffsetTransition s (standard_offset rule) (daylight_offset d))
  | daylight_end rule d y s :
      future_rule data = Some rule → daylight rule = Some d →
      transition_utc_seconds y (rule_end d) (daylight_offset d) = Some s →
      (∀ t, t ∈ transitions data → unix_seconds t < s) →
      offset_change data (mkOffsetTransition s (daylight_offset d) (standard_offset rule)).

(** The local times that the change skips. *)
Definition skipped_by (t : OffsetTransition) (local_seconds : Z) : Prop :=
  utc_seconds t + offset_before t <= local_seconds < utc_seconds t + offset_after t.

Lemma gap_contains_skipped t s : gap_contains t s = true → skipped_by t s ∧ 0 < gap_size t.
Proof.
  unfold gap_contains, skipped_by, gap_size, checked_add_i64.
  destruct (Z.leb_spec (offset_after t) (offset_before t)); [done|].
  repeat case_match; try done. simplify_eq. rewrite andb_true_iff, Z.leb_le, Z.ltb_lt. lia.
Qed.

Lemma scan_gaps_spec data before first lst s pre l shift :
  transitions data = pre ++ l →
  before = default (default_local_time_type data) (local_time_type <$> last pre) →
  scan_gaps data before first lst s l = Some shift →
  ∃ t, offset_change data t ∧ skipped_by t s ∧ shift = gap_size t ∧ 0 < shift.
Proof.
  revert before pre. induction l as [|t l IH]; intros before pre Hl Hb; simpl; [done|].
  assert (Hnext : scan_gaps data (local_time_type t) first lst s l = Some shift →
    ∃ t, offset_change data t ∧ skipped_by t s ∧ shift = gap_size t ∧ 0 < shift).
  { apply (IH _ (pre ++ [t])); [by rewrite <- app_assoc|]. by rewrite last_snoc. }
  case_match; [done|]. case_match; [done|].
  destruct (gap_contains _ s) eqn:Hg; [|done]. intros [= <-].
  apply gap_contains_skipped in Hg as [Hsk Hpos]. eexists. split_and!; [|exact Hsk|done|done].
  subst before. by econstructor.
Qed.

Lemma valid_transitions_lt c p l x y :
  valid_transitions c p l = true → last l = Some y → x ∈ l → unix_seconds x <= unix_seconds y.
Proof.
  assert (Hlb : ∀ c l q z, valid_transitions c (Some q) l = true → z ∈ l → q < unix_seconds z).
  { clear. intros c l. induction l as [|t l IH]; intros q z; simpl; [by intros _ ?%elem_of_nil|].
    rewrite !andb_true_iff, !Z.ltb_lt. intros [[_ Hlt] Hv] [->|Hz]%elem_of_cons; [done|].
    specialize (IH _ z Hv Hz). lia. }
  revert p. induction l as [|t l IH]; intros p; simpl; [done|].
  rewrite !andb_true_iff. intros [_ Hv] Hl [->|Hx]%elem_of_cons.
  - destruct l as [|u l]; [by injection Hl as ->|]. apply Z.lt_le_incl. eapply Hlb; [done|].
    by apply last_elem.
  - destruct l as [|u l]; [by apply elem_of_nil in Hx|]. by eapply IH.
Qed.

Lemma after_cutoff_all data t :
  valid_mapping_data data = true → after_cutoff (last_cutoff data) t = true →
  ∀ x, x ∈ transitions data → unix_seconds x < utc_seconds t.
Proof.
  intros Hv Hc x Hx. unfold last_cutoff, after_cutoff in Hc.
  unfold valid_mapping_data in Hv. rewrite !andb_true_iff in Hv. destruct Hv as [[_ Hv] _].
  destruct (last (transitions data)) as [y|] eqn:Hl; simpl in Hc.
  - pose proof (valid_transitions_lt _ _ _ x y Hv Hl Hx). rewrite Z.ltb_lt in Hc. lia.
  - apply last_None in Hl. rewrite Hl in Hx. by apply elem_of_nil in Hx.
Qed.

(** The yearly transitions that the rule generates. *)
Lemma future_transitions_change data rule d y n ts t :
  valid_mapping_data data = true → future_rule data = Some rule → daylight rule = Some d →
  future_transitions_from (standard_offset rule) d y n = Some ts → t ∈ ts →
  after_cutoff (last_cutoff data) t = true → offset_change data t.
Proof.
  intros Hv Hr Hd. revert y ts. induction n as [|n IH]; intros y ts; cbn [future_transitions_from].
  { intros [= <-] Ht. by apply elem_of_nil in Ht. }
  destruct (transition_utc_seconds y (rule_start d) _) as [s|] eqn:Hs; cbn [mbind option_bind]; [|done].
  destruct (transition_utc_seconds y (rule_end d) _) as [e|] eqn:He; cbn [mbind option_bind]; [|done].
  destruct (future_transitions_from _ _ _ n) as [rest|] eqn:Hn; cbn [mbind option_bind]; [|done].
  intros [= <-] [->|[->|Ht]%elem_of_cons]%elem_of_cons Hc.
  - eapply daylight_start; [done..|]. apply (after_cutoff_all data _ Hv Hc).
  - eapply daylight_end; [done..|]. apply (after_cutoff_all data _ Hv Hc).
  - by eapply IH.
Qed.

Lemma first_gap_spec cutoff s l shift :
  first_gap cutoff s l = Some shift →
  ∃ t, t ∈ l ∧ after_cutoff cutoff t = true ∧ skipped_by t s ∧ shift = gap_size t ∧ 0 < shift.
Proof.
  induction l as [|t l IH]; simpl; [done|].
  destruct (after_cutoff cutoff t) eqn:Hc, (gap_contains t s) eqn:Hg; simpl;
    try (intros (t' & ? & ?)%IH; exists t'; split; [by apply elem_of_cons; right|done]).
  intros [= <-]. apply gap_contains_skipped in Hg as [? ?]. exists t.
  split_and!; [by apply elem_of_cons; left|done..].
Qed.

Lemma gap_shift_spec data local shift :
  valid_mapping_data data = true → gap_shift data local = success (Some shift) →
  ∃ t, offset_change data t ∧ skipped_by t (local / ns_per_second) ∧ shift = gap_size t ∧ 0 < shift.
Proof.
  intros Hv. unfold gap_shift. do 2 (case_match; [|done]).
  destruct (scan_gaps _ _ _ _ _ _) eqn:Hscan.
  { intros [= <-]. by eapply (scan_gaps_spec data _ _ _ _ []). }
  destruct (future_rule data) as [rule|] eqn:Hr; [|done].
  destruct (daylight rule) as [d|] eqn:Hd; [|done].
  unfold candidate_transitions, append_future_transitions. rewrite Hd. case_match; [|done].
  case_match; [done|]. destruct (future_transitions_from _ _ _ _) as [ts|] eqn:Hts; [|done].
  cbn [mbind option_bind result_bind ok_or]. intros [= (t & Ht & ? & ? & ? & ?)%first_gap_spec].
  exists t. split_and!; [|done..]. apply stable_sort_elem in Ht. by eapply future_transitions_change.
Qed.

(** ** Theorems *)

(** A local time that occurs is mapped back: if some instant of the clock
    has the local time [local], [timezone_utc_time] succeeds and returns the
    earliest such instant, so an ambiguous local time is resolved to its first
    occurrence. *)
Theorem timezone_utc_time_earliest data u local :
  valid_mapping_data data = true → unsigned_rules data → maps_to data u local →
  ∃ first, timezone_utc_time data local = success first ∧ maps_to data first local ∧
    ∀ v, maps_to data v local → first <= v.
Proof.
  intros Hv Hu Hm. destruct Hm as [Hi Hl]. pose proof (timezone_local_time_inv _ _ _ Hi Hl) as (_ & Hloc & _).
  destruct (exact_utc_mappings_total data local Hv Hu Hloc) as [m Hex].
  pose proof (exact_utc_mappings_spec _ _ _ Hv Hloc Hex) as Hspec.
  unfold timezone_utc_time. rewrite Hv, Hex. cbn [check mbind result_bind].
  destruct (values m) as [|front rest]; [exfalso; by apply (Hspec u); split|]. eauto.
Qed.

(** A local time that never occurs is moved forward by a real gap: when
    [timezone_utc_time] answers for such a time, some offset change of the
    timezone skips it, and the result is the earliest instant whose local time
    is later by exactly the length of that gap. *)
Theorem timezone_utc_time_gap data local u :
  in_int64 local → timezone_utc_time data local = success u → (∀ v, ¬ maps_to data v local) →
  ∃ t, offset_change data t ∧ skipped_by t (local / ns_per_second) ∧ 0 < gap_size t ∧
    maps_to data u (local + gap_size t * ns_per_second) ∧
    ∀ v, maps_to data v (local + gap_size t * ns_per_second) → u <= v.
Proof.
  intros Hl. unfold timezone_utc_time, check. destruct (valid_mapping_data data) eqn:Hv; [|done].
  cbn [mbind result_bind]. destruct (exact_utc_mappings data local) as [m|] eqn:Hex; [|done].
  cbn [mbind result_bind]. pose proof (exact_utc_mappings_spec _ _ _ Hv Hl Hex) as Hspec.
  intros Hu Hno. destruct (values m) as [|front rest]; [|exfalso; by apply (Hno front), Hspec].
  destruct (gap_shift data local) as [[shift|]|] eqn:Hg; [|done|done].
  cbn [mbind result_bind ok_or] in Hu. apply gap_shift_spec in Hg as (t & Ht & Hsk & -> & Hpos); [|done].
  destruct (shift_time_point local (gap_size t)) as [sl|] eqn:Hs; [|done].
  cbn [mbind result_bind ok_or] in Hu. apply shift_time_point_some in Hs as [-> Hi]; [|done].
  destruct (exact_utc_mappings data (local + _)) as [m'|] eqn:Hex'; [|done]. cbn [mbind result_bind] in Hu.
  pose proof (exact_utc_mappings_spec _ _ _ Hv Hi Hex') as Hspec'.
  destruct (values m'); [done|]. injection Hu as ->. destruct Hspec'. exists t. done.
Qed.

Lemma is_below_app root candidate :
  is_below root candidate = true → ∃ x rest, candidate = root ++ x :: rest.
Proof.
  revert candidate. induction root as [|r root IH]; intros [|c candidate]; simpl; try done; [eauto|].
  rewrite andb_true_iff. intros [->%bool_decide_eq_true (x & rest & ->)%IH]. eauto.
Qed.

Section Confinement.

Context (canonical : list bytes → option (list bytes)) (is_regular_file : list bytes → bool).

(** A path strictly below the canonical form of one of the roots. *)
Definition confined (roots : list (list bytes)) (path : list bytes) : Prop :=
  ∃ root top x rest, root ∈ roots ∧ canonical root = Some top ∧ path = top ++ x :: rest.

Lemma resolve_timezone_confined name roots path :
  resolve_timezone canonical is_regular_file name roots = Some path →
  confined roots path ∧ is_regular_file path = true.
Proof.
  induction roots as [|root roots IH]; simpl; [done|].
  assert (Hnext : resolve_timezone canonical is_regular_file name roots = Some path →
                  confined (root :: roots) path ∧ is_regular_file path = true).
  { intros [(r & top & x & rest & Hr & Hc & Hp) ?]%IH. split; [|done]. exists r, top, x, rest.
    split; [|done]. apply elem_of_cons. by right. }
  destruct (canonical root) as [top|] eqn:Hroot; [|done].
  destruct (canonical (append_path top name)) as [c|]; [|done].
  destruct (is_below top c) eqn:Hb; simpl; [|done]. destruct (is_regular_file c) eqn:Hf; [|done].
  intros [= <-]. split; [|done]. apply is_below_app in Hb as (x & rest & ->).
  exists root, top, x, rest. split_and!; [apply elem_of_cons; by left|done..].
Qed.

End Confinement.

(** Loading a timezone is confined to the timezone directories: however
    symbolic links resolve, two file systems with the same regular files
    strictly below the canonical roots give the same result, whatever the
    rest of them holds and whatever name is asked for. *)
Theorem load_timezone_data_confined canonical is_regular_file name roots
    open1 size1 read1 open2 size2 read2 :
  (∀ path, confined canonical roots path → is_regular_file path = true →
     open1 path = open2 path ∧ size1 path = size2 path ∧ read1 path = read2 path) →
  load_timezone_data canonical is_regular_file open1 size1 read1 name roots =
  load_timezone_data canonical is_regular_file open2 size2 read2 name roots.
Proof.
  intros Hsame. unfold load_timezone_data. destruct (check _ _); [|done]. cbn [mbind result_bind].
  destruct (resolve_timezone _ _ name roots) as [path|] eqn:Hp; [|done]. cbn [mbind result_bind ok_or].
  apply resolve_timezone_confined in Hp as [Hc Hr]. by destruct (Hsame path Hc Hr) as (-> & -> & ->).
Qed.

(** A [Mm.w.d] rule of a POSIX footer selects, in every year of the
    calendar, a day of month [m] that falls on weekday [d]: the [w]-th such
    day for [w] up to 4, and the last one for [w = 5]. *)
Theorem transition_local_date_month_weekday y r :
  plain_year y → rule_kind r = MonthWeekday → valid_date_rule r = true → 0 <= rule_weekday r →
  ∃ day, transition_local_date y r = Some (days_from_civil y (rule_month r) day) ∧
    valid_date y (rule_month r) day = true ∧
    weekday_of_days (days_from_civil y (rule_month r) day) = rule_weekday r ∧
    (if rule_week r =? 5 then days_in_month y (rule_month r) - 7 < day
     else (day - 1) / 7 + 1 = rule_week r).
Proof.
  intros Hy Hk Hv Hd. exists (rule_day_of_month y r). rewrite transition_month_weekday by done.
  destruct (valid_month_weekday r Hk Hv) as (Hm & Hw & ?).
  destruct (rule_day_of_month_spec y r Hm Hw ltac:(lia)) as (? & ? & ?).
  split_and!; [done| |done..]. unfold valid_date. rewrite !andb_true_iff, !Z.leb_le. lia.
Qed.

Lemma central_europe_unsigned : unsigned_rules central_europe.
Proof. intros rule d [= <-] [= <-]. done. Qed.

(** 26 October 2025, 02:30 local time, occurs twice. *)
Lemma timezone_utc_time_earliest_witness :
  maps_to central_europe 1761442200000000000 1761445800000000000 ∧
  ∃ first, timezone_utc_time central_europe 1761445800000000000 = success first ∧
    maps_to central_europe first 1761445800000000000 ∧
    ∀ v, maps_to central_europe v 1761445800000000000 → first <= v.
Proof.
  assert (H : maps_to central_europe 1761442200000000000 1761445800000000000)
    by (split; [done|vm_compute; reflexivity]).
  split; [exact H|].
  exact (timezone_utc_time_earliest central_europe _ _ eq_refl central_europe_unsigned H).
Defined.

(** 30 March 2025, 02:30 local time, is skipped. *)
Lemma timezone_utc_time_gap_witness :
  (∀ v, ¬ maps_to central_europe v 1743301800000000000) ∧
  ∃ t, offset_change central_europe t ∧
    skipped_by t (1743301800000000000 / ns_per_second) ∧ 0 < gap_size t ∧
    maps_to central_europe 1743298200000000000 (1743301800000000000 + gap_size t * ns_per_second) ∧
    ∀ v, maps_to central_europe v (1743301800000000000 + gap_size t * ns_per_second) →
      1743298200000000000 <= v.
Proof.
  assert (H : ∀ v, ¬ maps_to central_europe v 1743301800000000000).
  { apply (exact_utc_mappings_spec central_europe 1743301800000000000 (mkMappings [] false));
      [vm_compute; reflexivity|done|vm_compute; reflexivity]. }
  split; [exact H|].
  apply (timezone_utc_time_gap central_europe); [done|vm_compute; reflexivity|exact H].
Defined.

(** The end of daylight time in 2025. *)
Lemma transition_local_date_month_weekday_witness :
  ∃ day, transition_local_date 2025 (mkDateRule MonthWeekday 0 10 5 0 10800) =
      Some (days_from_civil 2025 10 day) ∧ valid_date 2025 10 day = true ∧
    weekday_of_days (days_from_civil 2025 10 day) = 0 ∧ days_in_month 2025 10 - 7 < day.
Proof.
  apply (transition_local_date_month_weekday 2025 (mkDateRule MonthWeekday 0 10 5 0 10800));
    [done|reflexivity|reflexivity|done].
Defined.

(** A file system with one timezone file and a password file outside. *)
Lemma load_timezone_data_confined_witness :
  let canonical p := Some p in
  let regular p := bool_decide (p = [bs!"usr"; bs!"share"; bs!"zoneinfo"; bs!"CET"]) ||
                   bool_decide (p = [bs!"etc"; bs!"passwd"]) in
  let content secret p := if bool_decide (p = [bs!"etc"; bs!"passwd"]) then secret else sample_file in
  let size secret p := Some (Z.of_nat (length (content secret p))) in
  let load secret name :=
    load_timezone_data canonical regular (λ _, true) (size secret) (λ p, Some (content secret p))
      name default_roots in
  load [] bs!"CET" = success central_europe ∧
  load sample_file bs!"../../etc/passwd" = load [] bs!"../../etc/passwd".
Proof.
  intros canonical regular content size load. split; [vm_compute; reflexivity|].
  apply (load_timezone_data_confined canonical regular). intros path (r & top & x & rest & Hr & Hc & ->) _.
  injection Hc as <-. unfold size, content.
  assert (Hne : r ++ x :: rest ≠ [bs!"etc"; bs!"passwd"]).
  { unfold default_roots in Hr. repeat (apply elem_of_cons in Hr as [->|Hr]; [done|]).
    by apply elem_of_nil in Hr. }
  rewrite bool_decide_false by exact Hne. done.
Defined.

(** ** Bounds on the distance of an instant from its local time *)

Lemma known_offsets_range data o :
  valid_mapping_data data = true → o ∈ known_offsets data →
  kMinimumUtcOffset <= o <= kMaximumUtcOffset.
Proof.
  assert (Hr : ∀ o, offset_in_range o = true → kMinimumUtcOffset <= o <= kMaximumUtcOffset).
  { intros x. unfold offset_in_range. by rewrite andb_true_iff, !Z.leb_le. }
  unfold valid_mapping_data, known_offsets. rewrite !andb_true_iff.
  intros [[[_ Ht] _] Hf] [Ho|Ho]%elem_of_app.
  - apply list_elem_of_fmap in Ho as (t & -> & Hin). rewrite forallb_forall in Ht.
    apply Hr, Ht. by apply list_elem_of_In.
  - destruct (future_rule data) as [rule|]; [|by apply elem_of_nil in Ho].
    rewrite andb_true_iff in Hf. destruct Hf as [? Hd].
    apply elem_of_cons in Ho as [->|Ho]; [by apply Hr|].
    destruct (daylight rule) as [d|]; [|by apply elem_of_nil in Ho].
    rewrite !andb_true_iff in Hd. apply list_elem_of_singleton in Ho as ->. apply Hr, Hd.
Qed.

Lemma maps_to_bounds data u local :
  maps_to data u local →
  u + kMinimumUtcOffset * ns_per_second <= local <= u + kMaximumUtcOffset * ns_per_second ∧
  in_int64 local.
Proof.
  intros [Hu (Hv & Hl & o & Ho & ->)%timezone_local_time_inv]; [|done].
  pose proof (known_offsets_range data o Hv (offset_at_known _ _ _ Hv Ho)).
  unfold ns_per_second in *. split; [lia|done].
Qed.

(** The UTC image of a local time is at most the largest offset earlier. *)
Lemma timezone_utc_time_bounds data local u :
  in_int64 local → timezone_utc_time data local = success u →
  in_int64 u ∧ local <= u + kMaximumUtcOffset * ns_per_second.
Proof.
  intros Hl. unfold timezone_utc_time, check. destruct (valid_mapping_data data) eqn:Hv; [|done].
  cbn [mbind result_bind]. destruct (exact_utc_mappings data local) as [m|] eqn:Hex; [|done].
  cbn [mbind result_bind]. pose proof (exact_utc_mappings_spec _ _ _ Hv Hl Hex) as Hspec.
  destruct (values m) as [|front rest].
  2: { intros [= ->]. destruct Hspec as [Hm _]. pose proof (maps_to_bounds _ _ _ Hm).
       destruct Hm. split; [done|lia]. }
  destruct (gap_shift data local) as [[shift|]|] eqn:Hg; [|done|done].
  cbn [mbind result_bind ok_or]. apply gap_shift_spec in Hg as (t & _ & _ & -> & Hpos); [|done].
  destruct (shift_time_point local (gap_size t)) as [sl|] eqn:Hs; [|done].
  cbn [mbind result_bind ok_or]. apply shift_time_point_some in Hs as [-> Hi]; [|done].
  destruct (exact_utc_mappings data (local + _)) as [m'|] eqn:Hex'; [|done]. cbn [mbind result_bind].
  pose proof (exact_utc_mappings_spec _ _ _ Hv Hi Hex') as Hspec'.
  destruct (values m') as [|front' rest']; [done|]. intros [= ->]. destruct Hspec' as [Hm _].
  pose proof (maps_to_bounds _ _ _ Hm). destruct Hm. split; [done|]. unfold ns_per_second in *. lia.
Qed.
