(* ===== verification/CronEngine.v ===== *)
(** * The cron engine: [src/jobu/cron.cpp]

    [SystemCronEngine] parses the expression, finds the timezone in its cache
    or loads it, and walks the matching local minutes until one maps to an
    instant after the bound.  [CronEngine] is the interface the scheduler
    uses; its law is what [next_cron_occurrences] and the recurrence code
    rely on. *)

From stdpp Require Import base numbers strings list sets gmap.
From Stdlib Require Import Ascii.
From S2P Require Import Prelude Calendar CronExpression Tzif TimezoneMap.
Import CronExpression.Parse CronExpression.Search.
Local Open Scope Z_scope.

Record CronSchedule := mkSchedule { expression : bytes; timezone : bytes }.

Definition invalid_count : Error :=
  mkError InvalidArgument "jobu.schedule.invalid_count"
    "Cron occurrence count must be from 1 through 200" "".

(** ** The interface *)

(** [CronEngine]: the engine may change on every call (it caches). *)
Class CronEngine (E : Type) := {
  validate : E → CronSchedule → result Error unit * E;
  next_after : E → CronSchedule → Z → result Error Z * E }.

(** What [cron.hpp] promises of every returned occurrence. *)
Class CronEngineLaw (E : Type) `{CronEngine E} : Prop :=
  next_after_future engine schedule lower u engine' :
    in_int64 lower → next_after engine schedule lower = (success u, engine') →
    lower < u ∧ in_int64 u.

Section NextCronOccurrences.
Context `{CronEngine E}.

Fixpoint occurrences_from (engine : E) (schedule : CronSchedule) (lower : Z) (n : nat)
    : result Error (list Z) * E :=
  match n with
  | O => (success [], engine)
  | S n =>
      match next_after engine schedule lower with
      | (failure e, engine) => (failure e, engine)
      | (success occurrence, engine) =>
          match occurrences_from engine schedule occurrence n with
          | (failure e, engine) => (failure e, engine)
          | (success rest, engine) => (success (occurrence :: rest), engine)
          end
      end
  end.

Definition next_cron_occurrences (engine : E) (schedule : CronSchedule) (lower count : Z)
    : result Error (list Z) * E :=
  if (count =? 0) || (200 <? count) then (failure invalid_count, engine)
  else occurrences_from engine schedule lower (Z.to_nat count).

End NextCronOccurrences.

(** ** The system engine *)

Definition fixed_utc_data : TimezoneData := mkData [] [mkType 0 false] 0 None.

Definition local_year (v : Z) : option Z :=
  let local_day := v / ns_per_day in
  if (local_day <? minimum_calendar_day) || (maximum_calendar_day <? local_day) then None
  else Some (year (civil_from_days local_day)).

Definition timezone_local_candidate (count : Z) : result Error Z :=
  let minimum := - (- int64_min / ns_per_minute) in
  let maximum := int64_max / ns_per_minute in
  if (count <? minimum) || (maximum <? count) then failure occurrence_out_of_range
  else success (count * ns_per_minute).

(** The [while (true)] loop of [next_after]; [None] means that the fuel is
    spent. *)
Fixpoint next_after_loop (e : CronExpression) (data : TimezoneData) (lower last_year : Z)
    (fuel : nat) (local_cursor : Z) : option (result Error Z) :=
  match fuel with
  | O => None
  | S fuel =>
      match next_local_occurrence e local_cursor with
      | failure err => Some (failure err)
      | success local_candidate =>
          match timezone_local_candidate local_candidate with
          | failure err => Some (failure err)
          | success candidate =>
              match local_year candidate with
              | None => Some (failure occurrence_out_of_range)
              | Some candidate_year =>
                  if last_year <? candidate_year then Some (failure no_future_occurrence)
                  else
                    match timezone_utc_time data candidate with
                    | failure err => Some (failure err)
                    | success utc_candidate =>
                        if lower <? utc_candidate then Some (success utc_candidate)
                        else next_after_loop e data lower last_year fuel candidate
                    end
              end
          end
      end
  end.

(** Rejected candidates lie in a window of 183598 seconds around the bound,
    the span of the UTC offsets: at most 3060 minutes. *)
Definition next_after_fuel : nat := Z.to_nat 3062.

Definition next_after_in (e : CronExpression) (data : TimezoneData) (lower : Z)
    : option (result Error Z) :=
  match timezone_local_time data lower with
  | failure err => Some (failure err)
  | success local_lower =>
      match local_year local_lower with
      | None => Some (failure occurrence_out_of_range)
      | Some first_year =>
          if year_max - 399 <? first_year then Some (failure occurrence_out_of_range)
          else next_after_loop e data lower (first_year + 399) next_after_fuel local_lower
      end
  end.

Section SystemCronEngine.

(** [load_timezone_data] over the default roots: see [TimezoneMap]. *)
Context (load : bytes → result Error TimezoneData).

(** [Private::timezones]; the [utc] member is the constant [fixed_utc_data]. *)
Record SystemCronEngine := mkEngine { timezones : gmap bytes TimezoneData }.

Definition find_timezone (engine : SystemCronEngine) (name : bytes)
    : result Error TimezoneData * SystemCronEngine :=
  if bytes_eqb name bs!"UTC" then (success fixed_utc_data, engine)
  else
    match timezones engine !! name with
    | Some cached => (success cached, engine)
    | None =>
        match load name with
        | failure err => (failure err, engine)
        | success loaded => (success loaded, mkEngine (<[name := loaded]> (timezones engine)))
        end
    end.

Definition system_validate (engine : SystemCronEngine) (schedule : CronSchedule)
    : result Error unit * SystemCronEngine :=
  match parse_cron_expression (expression schedule) with
  | failure err => (failure err, engine)
  | success _ =>
      match find_timezone engine (timezone schedule) with
      | (failure err, engine) => (failure err, engine)
      | (success _, engine) => (success tt, engine)
      end
  end.

Definition system_next_after (engine : SystemCronEngine) (schedule : CronSchedule) (lower : Z)
    : result Error Z * SystemCronEngine :=
  match parse_cron_expression (expression schedule) with
  | failure err => (failure err, engine)
  | success e =>
      match find_timezone engine (timezone schedule) with
      | (failure err, engine) => (failure err, engine)
      | (success data, engine) =>
          (default (failure occurrence_out_of_range) (next_after_in e data lower), engine)
      end
  end.

#[global] Instance SystemCronEngine_engine : CronEngine SystemCronEngine := {
  validate := system_validate; next_after := system_next_after }.

End SystemCronEngine.

(** ** The search loop *)

Lemma timezone_local_candidate_inv m v :
  timezone_local_candidate m = success v → v = m * ns_per_minute ∧ in_int64 v.
Proof.
  unfold timezone_local_candidate, in_int64, int64_min, int64_max, ns_per_minute.
  destruct (Z.ltb_spec m (- (- - 2 ^ 63 / (60 * 10 ^ 9)))); [done|].
  destruct (Z.ltb_spec ((2 ^ 63 - 1) / (60 * 10 ^ 9)) m); [done|]. simpl. intros [= <-].
  split; [done|]. dlia.
Qed.

(** The candidates between two local times are rejected. *)
Definition rejected (e : CronExpression) (data : TimezoneData) (lower from to : Z) : Prop :=
  ∀ m, from < m * ns_per_minute → m * ns_per_minute < to → matches e m = true →
    ∃ u, timezone_utc_time data (m * ns_per_minute) = success u ∧ u <= lower.

Lemma next_after_loop_step e data lower last_year fuel cursor r :
  in_int64 cursor →
  next_after_loop e data lower last_year (S fuel) cursor = r →
  (∃ err, r = Some (failure err)) ∨
  (∃ m u, cursor < m * ns_per_minute ∧ in_int64 (m * ns_per_minute) ∧ matches e m = true ∧
     (∀ x, cursor < x * ns_per_minute → matches e x = true → m <= x) ∧
     timezone_utc_time data (m * ns_per_minute) = success u ∧
     (lower < u ∧ r = Some (success u) ∨
      u <= lower ∧ r = next_after_loop e data lower last_year fuel (m * ns_per_minute))).
Proof.
  intros Hc <-. cbn [next_after_loop]. pose proof (next_local_occurrence_exact e cursor Hc) as Hn.
  destruct (next_local_occurrence e cursor) as [m|]; [|eauto]. destruct Hn as (Hlt & Hm & Hleast).
  destruct (timezone_local_candidate m) as [v|] eqn:Hv; [|eauto].
  apply timezone_local_candidate_inv in Hv as [-> Hi].
  destruct (local_year _); [|eauto]. case_match; [eauto|].
  destruct (timezone_utc_time data _) as [u|] eqn:Hu; [|eauto].
  right. exists m, u. split_and!; try done. destruct (Z.ltb_spec lower u); eauto.
Qed.

Lemma next_after_loop_spec e data lower last_year fuel cursor u :
  in_int64 cursor →
  next_after_loop e data lower last_year fuel cursor = Some (success u) →
  ∃ m, cursor < m * ns_per_minute ∧ matches e m = true ∧ lower < u ∧ in_int64 u ∧
    timezone_utc_time data (m * ns_per_minute) = success u ∧
    rejected e data lower cursor (m * ns_per_minute).
Proof.
  revert cursor. induction fuel as [|fuel IH]; intros cursor Hc; [done|]. intros Hl.
  destruct (next_after_loop_step _ _ _ _ _ _ _ Hc Hl) as [[err ?]|
    (m & v & Hm & Hi & Hma & Hleast & Hv & Hcase)]; [done|].
  pose proof (timezone_utc_time_bounds _ _ _ Hi Hv) as [Hv64 _].
  destruct Hcase as [[Hlt [= ->]]|[Hle Hrec]].
  - exists m. split_and!; try done. intros x Hx Hxm Hmx. specialize (Hleast x Hx Hmx).
    unfold ns_per_minute in *. exfalso. lia.
  - symmetry in Hrec. destruct (IH _ Hi Hrec) as (m' & Hm' & Hma' & Hu & Hu64 & Hutc & Hrej).
    exists m'. split_and!; try done; [lia|]. intros x Hx Hxm Hmx.
    destruct (decide (x = m)) as [->|Hne]; [eauto|].
    apply Hrej; [|done|done]. specialize (Hleast x Hx Hmx). unfold ns_per_minute in *. lia.
Qed.

(** The fuel covers the minutes between the cursor and the last local time
    that can still map to the bound or before it. *)
Lemma next_after_loop_fuel e data lower last_year fuel cursor :
  in_int64 cursor →
  Z.max 0 ((lower + kMaximumUtcOffset * ns_per_second) / ns_per_minute - cursor / ns_per_minute)
    < Z.of_nat fuel →
  is_Some (next_after_loop e data lower last_year fuel cursor).
Proof.
  revert cursor. induction fuel as [|fuel IH]; intros cursor Hc Hf; [lia|].
  destruct (next_after_loop_step e data lower last_year fuel cursor _ Hc eq_refl) as [[err ->]|
    (m & v & Hm & Hi & _ & _ & Hv & [[_ ->]|[Hle ->]])]; [eauto|eauto|].
  pose proof (timezone_utc_time_bounds _ _ _ Hi Hv) as [_ Hb]. apply IH; [done|].
  unfold ns_per_minute in *. rewrite Z.div_mul by lia.
  assert (m <= (lower + kMaximumUtcOffset * ns_per_second) / (60 * 10 ^ 9)).
  { apply Z.div_le_lower_bound; lia. }
  assert (cursor / (60 * 10 ^ 9) < m) by (apply Z.div_lt_upper_bound; lia). lia.
Qed.

Lemma next_after_fuel_enough e data lower local last_year :
  maps_to data lower local →
  is_Some (next_after_loop e data lower last_year next_after_fuel local).
Proof.
  intros [Hb Hi]%maps_to_bounds. apply next_after_loop_fuel; [done|].
  unfold next_after_fuel. rewrite Z2Nat.id by lia.
  unfold kMaximumUtcOffset, kMinimumUtcOffset, ns_per_second, ns_per_minute in *. dlia.
Qed.

Lemma next_after_loop_more e data lower last_year fuel extra cursor r :
  next_after_loop e data lower last_year fuel cursor = Some r →
  next_after_loop e data lower last_year (fuel + extra) cursor = Some r.
Proof.
  revert cursor. induction fuel as [|fuel IH]; intros cursor; [done|]. cbn [Nat.add next_after_loop].
  do 3 (case_match; [|done]). do 3 (case_match; try done). apply IH.
Qed.

(** The fuel of [next_after_in] is enough. *)
Lemma next_after_in_total e data lower :
  in_int64 lower → is_Some (next_after_in e data lower).
Proof.
  intros Hl. unfold next_after_in.
  destruct (timezone_local_time data lower) as [local|] eqn:Hloc; [|eauto].
  destruct (local_year local); [|eauto]. case_match; [eauto|].
  apply next_after_fuel_enough. by split.
Qed.

Lemma next_after_in_spec e data lower u :
  in_int64 lower → next_after_in e data lower = Some (success u) →
  lower < u ∧ in_int64 u ∧
  ∃ local_lower m, maps_to data lower local_lower ∧ local_lower < m * ns_per_minute ∧
    matches e m = true ∧ timezone_utc_time data (m * ns_per_minute) = success u ∧
    rejected e data lower local_lower (m * ns_per_minute).
Proof.
  intros Hl. unfold next_after_in.
  destruct (timezone_local_time data lower) as [local|] eqn:Hloc; [|done].
  assert (Hm : maps_to data lower local) by (split; done).
  destruct (maps_to_bounds _ _ _ Hm) as [_ Hi].
  destruct (local_year local); [|done]. case_match; [done|].
  intros (m & ? & ? & ? & ? & ? & ?)%next_after_loop_spec; [|done]. split_and!; [done..|].
  exists local, m. done.
Qed.

(** ** A fixed zero offset *)

Lemma fixed_utc_offset u : offset_at fixed_utc_data u = success 0.
Proof. done. Qed.

Lemma fixed_utc_maps u : in_int64 u → maps_to fixed_utc_data u u.
Proof.
  intros Hu. pose proof (timezone_local_time_intro fixed_utc_data u 0 eq_refl Hu eq_refl) as H.
  rewrite Z.add_0_r in H. by apply H.
Qed.

Lemma fixed_utc_local u : in_int64 u → timezone_local_time fixed_utc_data u = success u.
Proof. intros Hu. by apply fixed_utc_maps. Qed.

Lemma fixed_utc_utc u : in_int64 u → timezone_utc_time fixed_utc_data u = success u.
Proof.
  intros Hu. unfold timezone_utc_time, exact_utc_mappings.
  change (check (valid_mapping_data fixed_utc_data) _) with (@success Error unit tt).
  cbn [mbind result_bind]. change (candidate_offsets fixed_utc_data) with [0].
  cbn [collect_mappings]. destruct (shift_time_point_spec u (- 0) Hu) as [[-> _]|[_ Hn]].
  - cbn [mbind result_bind]. rewrite fixed_utc_offset. cbn. f_equal. lia.
  - by rewrite Z.add_0_r in Hn.
Qed.

Lemma clock_local_year v : in_int64 v → local_year v = Some (year (civil_from_days (v / ns_per_day))).
Proof.
  intros Hv. unfold local_year, in_int64, int64_min, int64_max in *.
  change minimum_calendar_day with (-12687428). change maximum_calendar_day with 11248737.
  rewrite (proj2 (Z.ltb_ge _ _)), (proj2 (Z.ltb_ge _ _)); [done|unfold ns_per_day; dlia..].
Qed.

Lemma timezone_local_candidate_out m err :
  timezone_local_candidate m = failure err →
  err = occurrence_out_of_range ∧ ¬ in_int64 (m * ns_per_minute).
Proof.
  unfold timezone_local_candidate, in_int64, int64_min, int64_max, ns_per_minute.
  destruct (Z.ltb_spec m (- (- - 2 ^ 63 / (60 * 10 ^ 9))));
    [|destruct (Z.ltb_spec ((2 ^ 63 - 1) / (60 * 10 ^ 9)) m)]; simpl; intros [= <-];
    (split; [done|dlia]).
Qed.

(** The least match is within the 400 years from the bound. *)
Lemma least_match_year e lower m :
  matches e m = true → (∀ x, lower < x * ns_per_minute → matches e x = true → m <= x) →
  lower < m * ns_per_minute →
  year (civil_from_days (m * ns_per_minute / ns_per_day)) <=
    year (civil_from_days (lower / ns_per_day)) + 399.
Proof.
  intros Hm Hleast Hlt. set (ly := year (civil_from_days (lower / ns_per_day))).
  destruct (matches_in_window e m ly Hm) as (x & Hx & Hmx).
  pose proof (civil_year_bounds (lower / ns_per_day)) as Hb. cbv zeta in Hb. fold ly in Hb.
  assert (m <= x). { apply Hleast; [|done]. unfold ns_per_day, ns_per_minute in *. dlia. }
  replace (m * ns_per_minute / ns_per_day) with (m / 1440) by (unfold ns_per_day, ns_per_minute; dlia).
  pose proof (civil_year_bounds (m / 1440)) as Hb'. cbv zeta in Hb'.
  set (ym := year (civil_from_days (m / 1440))) in *.
  destruct (decide (ym <= ly + 399)) as [|Hgt]; [done|].
  pose proof (january_mono (ly + 400) ym ltac:(lia)). exfalso. dlia.
Qed.

Lemma next_after_fuel_succ : ∃ n, next_after_fuel = S n.
Proof. exists (Z.to_nat 3061). unfold next_after_fuel. lia. Qed.

Lemma next_after_in_utc e lower :
  in_int64 lower →
  match next_after_in e fixed_utc_data lower with
  | Some (success u) =>
      ∃ m, u = m * ns_per_minute ∧ lower < u ∧ matches e m = true ∧
        ∀ x, lower < x * ns_per_minute → matches e x = true → m <= x
  | Some (failure err) =>
      (err = no_future_occurrence ∧ ∀ x, matches e x = false) ∨
      (err = occurrence_out_of_range ∧
       ∀ x, lower < x * ns_per_minute → matches e x = true → int64_max < x * ns_per_minute)
  | None => False
  end.
Proof.
  intros Hl. unfold next_after_in. rewrite fixed_utc_local, clock_local_year by done.
  set (ly := year (civil_from_days (lower / ns_per_day))).
  assert (Hly : ly <= 2270).
  { subst ly. replace (lower / ns_per_day) with (lower / ns_per_second / 86400)
      by (unfold ns_per_second, ns_per_day; rewrite Z.div_div by lia; done).
    apply clock_year. pose proof (clock_seconds lower Hl). lia. }
  rewrite (proj2 (Z.ltb_ge _ _)) by (unfold year_max; lia).
  destruct next_after_fuel_succ as [n ->]. cbn [next_after_loop].
  pose proof (next_local_occurrence_exact e lower Hl) as Hn.
  destruct (next_local_occurrence e lower) as [m|err]; [|by left].
  destruct Hn as (Hlt & Hm & Hleast).
  destruct (timezone_local_candidate m) as [v|err] eqn:Hv.
  - apply timezone_local_candidate_inv in Hv as [-> Hi].
    rewrite clock_local_year, fixed_utc_utc by done.
    rewrite (proj2 (Z.ltb_ge _ _)) by (apply (least_match_year e); done).
    rewrite (proj2 (Z.ltb_lt _ _) Hlt). eauto.
  - apply timezone_local_candidate_out in Hv as [-> Hn]. right. split; [done|].
    intros x Hx Hmx. specialize (Hleast x Hx Hmx). unfold in_int64, ns_per_minute in *. lia.
Qed.

(** ** Theorems *)

(** C36.  Whatever the cache holds, an occurrence that the system engine
    returns is strictly after the bound, and it is the UTC image of the first
    matching local minute that qualifies: a minute after the local time of the
    bound that matches the expression, such that every earlier matching minute
    maps to the bound or before it. *)
Theorem system_next_after_first load engine schedule lower u engine' :
  in_int64 lower → system_next_after load engine schedule lower = (success u, engine') →
  ∃ e data, parse_cron_expression (expression schedule) = success e ∧
    find_timezone load engine (timezone schedule) = (success data, engine') ∧
    lower < u ∧ in_int64 u ∧
    ∃ local_lower m, maps_to data lower local_lower ∧ local_lower < m * ns_per_minute ∧
      matches e m = true ∧ timezone_utc_time data (m * ns_per_minute) = success u ∧
      rejected e data lower local_lower (m * ns_per_minute).
Proof.
  intros Hl. unfold system_next_after.
  destruct (parse_cron_expression _) as [e|]; [|done].
  destruct (find_timezone _ _ _) as [[data|] engine1] eqn:Hf; [|done].
  destruct (next_after_in_total e data lower Hl) as [r Hr]. rewrite Hr. simpl.
  intros [= -> ->]. apply next_after_in_spec in Hr as (? & ? & ?); [|done]. eauto 8.
Qed.

(** The unbounded loop of [next_after] ends: for every expression, every
    timezone and every instant the fuel of the model is not spent, and any
    larger amount gives the same result. *)
Theorem next_after_loop_terminates e data lower local last_year extra :
  maps_to data lower local →
  ∃ r, next_after_loop e data lower last_year next_after_fuel local = Some r ∧
    next_after_loop e data lower last_year (next_after_fuel + extra) local = Some r.
Proof.
  intros Hm. destruct (next_after_fuel_enough e data lower local last_year Hm) as [r Hr].
  exists r. split; [done|]. by apply next_after_loop_more.
Qed.

(** In UTC the answer is exact: the least matching minute after the
    bound; a failure means that the expression is rejected by the parser, that
    it never matches, or that its next match is beyond the clock. *)
Theorem system_next_after_utc load engine expr lower :
  in_int64 lower →
  match system_next_after load engine (mkSchedule expr bs!"UTC") lower with
  | (r, engine') => engine' = engine ∧
      match parse_cron_expression expr, r with
      | failure err, _ => r = failure err
      | success e, success u =>
          ∃ m, u = m * ns_per_minute ∧ lower < u ∧ matches e m = true ∧
            ∀ x, lower < x * ns_per_minute → matches e x = true → m <= x
      | success e, failure err =>
          (err = no_future_occurrence ∧ ∀ x, matches e x = false) ∨
          (err = occurrence_out_of_range ∧
           ∀ x, lower < x * ns_per_minute → matches e x = true → int64_max < x * ns_per_minute)
      end
  end.
Proof.
  intros Hl. unfold system_next_after. cbn [expression timezone].
  destruct (parse_cron_expression expr) as [e|err]; [|done].
  change (find_timezone load engine _) with (@success Error _ fixed_utc_data, engine).
  cbv iota beta. split; [done|]. pose proof (next_after_in_utc e lower Hl) as Hu.
  destruct (next_after_in e fixed_utc_data lower) as [[u|err]|]; done.
Qed.

(** ** The interface discharged *)

Lemma system_next_after_future load engine schedule lower u engine' :
  in_int64 lower → system_next_after load engine schedule lower = (success u, engine') →
  lower < u ∧ in_int64 u.
Proof.
  intros Hl. unfold system_next_after. destruct (parse_cron_expression _) as [e|]; [|done].
  destruct (find_timezone _ _ _) as [[data|] engine1]; [|done].
  destruct (next_after_in_total e data lower Hl) as [r Hr]. rewrite Hr. simpl.
  intros [= -> ->]. apply next_after_in_spec in Hr as (? & ? & _); done.
Qed.

#[global] Instance SystemCronEngine_law load :
  @CronEngineLaw SystemCronEngine (SystemCronEngine_engine load).
Proof. intros engine schedule lower u engine'. apply system_next_after_future. Qed.

(** The occurrences are chained: each is the engine's answer for its
    predecessor, asked of the engine that the previous call left. *)
Inductive chained `{CronEngine E} (schedule : CronSchedule) : E → Z → list Z → E → Prop :=
  | chained_nil engine lower : chained schedule engine lower [] engine
  | chained_cons engine lower u engine1 l engine2 :
      next_after engine schedule lower = (success u, engine1) →
      chained schedule engine1 u l engine2 → chained schedule engine lower (u :: l) engine2.

Fixpoint increasing_from (lower : Z) (l : list Z) : Prop :=
  match l with [] => True | u :: l => lower < u ∧ increasing_from u l end.

Lemma occurrences_from_spec `{CronEngineLaw E} (engine : E) schedule lower n l engine' :
  in_int64 lower → occurrences_from engine schedule lower n = (success l, engine') →
  length l = n ∧ increasing_from lower l ∧ chained schedule engine lower l engine'.
Proof.
  revert engine lower l. induction n as [|n IH]; intros engine lower l Hl; simpl.
  { intros [= <- <-]. split_and!; [done..|constructor]. }
  destruct (next_after engine schedule lower) as [[u|] engine1] eqn:Hn; [|done].
  destruct (next_after_future _ _ _ _ _ Hl Hn) as [Hlt Hu].
  destruct (occurrences_from engine1 schedule u n) as [[rest|] engine2] eqn:Hr; [|done].
  intros [= <- <-]. destruct (IH _ _ _ Hu Hr) as (? & ? & ?).
  split_and!; [simpl; congruence|done|by econstructor].
Qed.

(** For every engine that keeps the promise of the interface,
    [next_cron_occurrences] returns exactly [count] strictly increasing
    instants after the bound, each the engine's answer for its predecessor; a
    count outside 1 to 200 is refused without a call. *)
Theorem next_cron_occurrences_increasing `{CronEngineLaw E} (engine : E) schedule lower count l engine' :
  in_int64 lower → next_cron_occurrences engine schedule lower count = (success l, engine') →
  0 <= count → 1 <= count <= 200 ∧ Z.of_nat (length l) = count ∧ increasing_from lower l ∧
    chained schedule engine lower l engine'.
Proof.
  unfold next_cron_occurrences. destruct (Z.eqb_spec count 0), (Z.ltb_spec 200 count); try done.
  simpl. intros Hl (Hlen & ? & ?)%occurrences_from_spec Hpos; [|done]. split_and!; [lia|lia|lia|done|done].
Qed.

(** ** The cache *)

(** The engine holds only what the loader returns. *)
Definition coherent (load : bytes → result Error TimezoneData) (engine : SystemCronEngine) : Prop :=
  ∀ name data, timezones engine !! name = Some data → load name = success data.

Lemma find_timezone_coherent load engine name :
  coherent load engine →
  fst (find_timezone load engine name) =
    (if bytes_eqb name bs!"UTC" then success fixed_utc_data else load name) ∧
  coherent load (snd (find_timezone load engine name)).
Proof.
  intros Hc. unfold find_timezone. destruct (bytes_eqb name _); [done|].
  destruct (timezones engine !! name) as [data|] eqn:Hn.
  { by rewrite (Hc _ _ Hn). }
  destruct (load name) as [data|] eqn:Hl; [|done]. split; [done|]. intros n d. simpl.
  destruct (decide (n = name)) as [->|Hne].
  - rewrite lookup_insert_eq. intros [= <-]. done.
  - rewrite lookup_insert_ne by done. apply Hc.
Qed.

(** The timezone cache is transparent: with an unchanging timezone
    database an engine with any history answers [next_after] and [validate]
    as a new engine does, and stays coherent. *)
Theorem system_engine_cache_transparent load engine schedule lower :
  coherent load engine →
  fst (system_next_after load engine schedule lower) =
    fst (system_next_after load (mkEngine ∅) schedule lower) ∧
  fst (system_validate load engine schedule) =
    fst (system_validate load (mkEngine ∅) schedule) ∧
  coherent load (snd (system_next_after load engine schedule lower)) ∧
  coherent load (snd (system_validate load engine schedule)).
Proof.
  intros Hc. assert (He : coherent load (mkEngine ∅)) by (intros n d; cbn [timezones]; by rewrite lookup_empty).
  destruct (find_timezone_coherent load engine (timezone schedule) Hc) as [H1 H1'].
  destruct (find_timezone_coherent load (mkEngine ∅) (timezone schedule) He) as [H2 _].
  unfold system_next_after, system_validate. destruct (parse_cron_expression _); [|done].
  rewrite <- H2 in H1.
  destruct (find_timezone load engine _) as [r1 e1], (find_timezone load (mkEngine ∅) _) as [r2 e2].
  simpl in *. subst r2. destruct r1; done.
Qed.

(** ** Gaps and the bound *)


(** A timezone with a gap of half an hour, as Lord Howe Island. *)
Definition half_hour_gap : TimezoneData :=
  mkData [] [mkType 37800 false] 0
    (Some (mkFuture bs!"+1030" 37800
       (Some (mkDaylight bs!"+11" 39600 (mkDateRule MonthWeekday 0 10 1 0 7200)
                (mkDateRule MonthWeekday 0 4 1 0 7200))))).

(** Candidates are tried in local order.  In a gap from 02:00 to 02:30 the
    skipped 02:20 is shifted to 02:50, and that is the answer although 02:40
    exists and is earlier: it is the answer for a bound just before it. *)
Lemma next_after_local_order :
  let load := λ _ : bytes, success half_hour_gap in
  let twice := mkSchedule bs!"20,40 2 * * *" bs!"LHI" in
  let local minutes := (days_from_civil 2025 10 5 * 1440 + minutes) * ns_per_minute in
  let utc minutes := local minutes - 39600 * ns_per_second in
  timezone_local_time half_hour_gap (utc 160) = success (local 160) ∧
  fst (system_next_after load (mkEngine ∅) twice (utc 100)) = success (utc 170) ∧
  fst (system_next_after load (mkEngine ∅) twice (utc 155)) = success (utc 160).
Proof. split_and!; vm_compute; reflexivity. Qed.

(** ** Witnesses *)

Definition daily_cet : CronSchedule := mkSchedule bs!"30 2 * * *" bs!"CET".
Definition cet_only (name : bytes) : result Error TimezoneData :=
  if bytes_eqb name bs!"CET" then success central_europe else failure invalid_timezone.

Lemma system_next_after_first_witness :
  system_next_after cet_only (mkEngine ∅) daily_cet 0 =
    (success 5400000000000, mkEngine {[ bs!"CET" := central_europe ]}) ∧
  ∃ e data, parse_cron_expression (expression daily_cet) = success e ∧
    find_timezone cet_only (mkEngine ∅) (timezone daily_cet) =
      (success data, mkEngine {[ bs!"CET" := central_europe ]}) ∧
    0 < 5400000000000 ∧ in_int64 5400000000000 ∧
    ∃ local_lower m, maps_to data 0 local_lower ∧ local_lower < m * ns_per_minute ∧
      matches e m = true ∧ timezone_utc_time data (m * ns_per_minute) = success 5400000000000 ∧
      rejected e data 0 local_lower (m * ns_per_minute).
Proof.
  assert (H : system_next_after cet_only (mkEngine ∅) daily_cet 0 =
    (success 5400000000000, mkEngine {[ bs!"CET" := central_europe ]})) by (vm_compute; reflexivity).
  split; [exact H|].
  exact (system_next_after_first cet_only (mkEngine ∅) daily_cet 0 _ _
           ltac:(unfold in_int64, int64_min, int64_max; lia) H).
Defined.

Lemma next_after_loop_terminates_witness :
  ∃ r, next_after_loop leap_sunday central_europe 0 2369 next_after_fuel 3600000000000 = Some r ∧
    next_after_loop leap_sunday central_europe 0 2369 (next_after_fuel + 7) 3600000000000 = Some r.
Proof.
  apply (next_after_loop_terminates leap_sunday central_europe 0 3600000000000 2369 7).
  split; [unfold in_int64, int64_min, int64_max; lia|vm_compute; reflexivity].
Defined.

Lemma system_next_after_utc_witness :
  ∃ m, 9000000000000 = m * ns_per_minute ∧
    ∀ x, 0 < x * ns_per_minute → matches (mkCron (2 ^ 30) (2 ^ 2) (2 ^ 31 - 1) (2 ^ 12 - 1) 127) x = true →
      m <= x.
Proof.
  pose proof (system_next_after_utc cet_only (mkEngine ∅) bs!"30 2 * * *" 0
    ltac:(unfold in_int64, int64_min, int64_max; lia)) as H.
  replace (system_next_after cet_only (mkEngine ∅) (mkSchedule bs!"30 2 * * *" bs!"UTC") 0)
    with (@success Error Z 9000000000000, mkEngine ∅) in H by (vm_compute; reflexivity).
  replace (parse_cron_expression bs!"30 2 * * *")
    with (@success Error _ (mkCron (2 ^ 30) (2 ^ 2) (2 ^ 31 - 1) (2 ^ 12 - 1) 127)) in H
    by (vm_compute; reflexivity).
  destruct H as (_ & m & ? & _ & _ & ?). exists m. done.
Defined.

Lemma next_cron_occurrences_increasing_witness :
  let engine := @next_cron_occurrences _ (SystemCronEngine_engine cet_only) in
  engine (mkEngine ∅) daily_cet 0 2 =
    (success [5400000000000; 91800000000000], mkEngine {[ bs!"CET" := central_europe ]}) ∧
  increasing_from 0 [5400000000000; 91800000000000].
Proof.
  intros engine.
  assert (H : engine (mkEngine ∅) daily_cet 0 2 =
    (success [5400000000000; 91800000000000], mkEngine {[ bs!"CET" := central_europe ]}))
    by (vm_compute; reflexivity).
  split; [exact H|].
  apply (next_cron_occurrences_increasing (H0 := SystemCronEngine_law cet_only) (mkEngine ∅) daily_cet 0 2 _ _
    ltac:(unfold in_int64, int64_min, int64_max; lia) H ltac:(lia)).
Defined.

Lemma system_engine_cache_transparent_witness :
  let cached := mkEngine {[ bs!"CET" := central_europe ]} in
  coherent cet_only cached ∧
  fst (system_next_after cet_only cached daily_cet 0) =
    fst (system_next_after cet_only (mkEngine ∅) daily_cet 0).
Proof.
  intros cached. assert (H : coherent cet_only cached).
  { intros n d. unfold cached. cbn [timezones]. intros [<- <-]%lookup_singleton_Some. done. }
  split; [exact H|]. apply (system_engine_cache_transparent cet_only cached daily_cet 0 H).
Defined.
