(* ===== verification/UtcTimestamp.v ===== *)
(** * Timestamp text: [src/jobu/utc_timestamp.cpp]

    The canonical RFC 3339 text of a UTC instant and its strict parser.  The
    calendar functions of the same file are in [Calendar]. *)

From stdpp Require Import base numbers strings list.
From Stdlib Require Import Ascii.
From S2P Require Import Prelude Calendar.
Local Open Scope Z_scope.

Definition kMicrosecondsPerSecond : Z := 1000000.
Definition kSecondsPerDay : Z := 86400.
Definition kMicrosecondsPerDay : Z := kSecondsPerDay * kMicrosecondsPerSecond.

Definition invalid_format : Error :=
  mkError InvalidArgument "jobu.time.invalid_format" "UTC timestamp text is invalid" "".
Definition out_of_range : Error :=
  mkError InvalidArgument "jobu.time.out_of_range" "UTC timestamp is outside the supported range" "".

(** [value[i]]; every use is below the checked size. *)
Definition at_index (v : bytes) (i : nat) : Z := default 0 (v !! i).

(** At most six digits are read, so the 32-bit accumulator does not wrap. *)
Definition parse_digit (r c : Z) : option Z :=
  if (c <? #"0") || (#"9" <? c) then None else Some (r * 10 + (c - #"0")).

Definition parse_digits (v : bytes) (offset count : nat) : option Z :=
  fold_opt parse_digit 0 (substr v offset count).

(** [append_fixed]: the low [width] decimal digits, written from the right. *)
Fixpoint fixed_digits (width : nat) (v : Z) : bytes :=
  match width with
  | O => []
  | S width => fixed_digits width (v / 10) ++ [#"0" + v mod 10]
  end.

Definition format_utc_timestamp (v : Z) : result Error bytes :=
  let microseconds := v / 1000 in
  let days := Z.quot microseconds kMicrosecondsPerDay in
  let within_day := Z.rem microseconds kMicrosecondsPerDay in
  let '(days, within_day) :=
    if within_day <? 0 then (days - 1, within_day + kMicrosecondsPerDay) else (days, within_day) in
  let date := civil_from_days days in
  if (year date <? 0) || (9999 <? year date) then failure out_of_range
  else
    let hour := within_day / (3600 * kMicrosecondsPerSecond) in
    let within_day := within_day mod (3600 * kMicrosecondsPerSecond) in
    let minute := within_day / (60 * kMicrosecondsPerSecond) in
    let within_day := within_day mod (60 * kMicrosecondsPerSecond) in
    let second := within_day / kMicrosecondsPerSecond in
    let fraction := within_day mod kMicrosecondsPerSecond in
    success (fixed_digits 4 (year date) ++ [#"-"] ++ fixed_digits 2 (month date) ++ [#"-"] ++
             fixed_digits 2 (day date) ++ [#"T"] ++ fixed_digits 2 hour ++ [#":"] ++
             fixed_digits 2 minute ++ [#":"] ++ fixed_digits 2 second ++ [#"."] ++
             fixed_digits 6 fraction ++ [#"Z"]).

(** The optional fraction in microseconds. *)
Definition parse_fraction (v : bytes) : option Z :=
  if at_index v 19 =? #"Z" then
    if Z.of_nat (length v) =? 20 then Some 0 else None
  else if negb (at_index v 19 =? #".") || negb (default 0 (last v) =? #"Z") then None
  else
    let fraction_digits := Z.of_nat (length v) - 21 in
    if (fraction_digits <? 1) || (6 <? fraction_digits) then None
    else fraction ← parse_digits v 20 (Z.to_nat fraction_digits);
         Some (fraction * 10 ^ (6 - fraction_digits)).

Definition separators_ok (v : bytes) : bool :=
  (at_index v 4 =? #"-") && (at_index v 7 =? #"-") && (at_index v 10 =? #"T") &&
  (at_index v 13 =? #":") && (at_index v 16 =? #":").

Record Fields := mkFields {
  f_year : Z; f_month : Z; f_day : Z; f_hour : Z; f_minute : Z; f_second : Z }.

Definition parse_fields (v : bytes) : option Fields :=
  y ← parse_digits v 0 4;
  m ← parse_digits v 5 2;
  d ← parse_digits v 8 2;
  h ← parse_digits v 11 2;
  mi ← parse_digits v 14 2;
  s ← parse_digits v 17 2;
  if (m <? 1) || (12 <? m) || (d <? 1) || (days_in_month y m <? d) ||
     (23 <? h) || (59 <? mi) || (59 <? s)
  then None else Some (mkFields y m d h mi s).

Definition parse_utc_timestamp (v : bytes) : result Error Z :=
  if (Z.of_nat (length v) <? 20) || negb (separators_ok v) then failure invalid_format
  else
    f ← ok_or (parse_fields v) invalid_format;
    fraction ← ok_or (parse_fraction v) invalid_format;
    let days := days_from_civil (f_year f) (f_month f) (f_day f) in
    let seconds := days * kSecondsPerDay + f_hour f * 3600 + f_minute f * 60 + f_second f in
    let count := seconds * kMicrosecondsPerSecond + fraction in
    let minimum := - (- int64_min / 1000) in
    let maximum := int64_max / 1000 in
    if (count <? minimum) || (maximum <? count) then failure out_of_range
    else success (count * 1000).

(** ** Digits *)

Lemma fixed_digits_length w v : length (fixed_digits w v) = w.
Proof.
  revert v. induction w as [|w IH]; intros v; simpl; [done|]. rewrite length_app, IH. simpl. lia.
Qed.

Lemma parse_digit_spec r c :
  parse_digit r c = if ascii_digit c then Some (r * 10 + (c - 48)) else None.
Proof.
  unfold parse_digit, ascii_digit.
  destruct (Z.ltb_spec c 48), (Z.leb_spec 48 c), (Z.ltb_spec 57 c), (Z.leb_spec c 57);
    simpl; done || (exfalso; lia).
Qed.

Lemma fixed_digits_parse w v :
  0 <= v < 10 ^ Z.of_nat w → fold_opt parse_digit 0 (fixed_digits w v) = Some v.
Proof.
  revert v. induction w as [|w IH]; intros v Hv; simpl.
  { simpl in Hv. f_equal. lia. }
  rewrite Nat2Z.inj_succ, Z.pow_succ_r in Hv by lia.
  rewrite fold_opt_app, IH by dlia. cbn [mbind option_bind fold_opt]. rewrite parse_digit_spec.
  unfold ascii_digit. rewrite (proj2 (Z.leb_le _ _)), (proj2 (Z.leb_le _ _)) by dlia. simpl.
  f_equal. dlia.
Qed.

Lemma fixed_digits_exact l v :
  fold_opt parse_digit 0 l = Some v → fixed_digits (length l) v = l ∧ 0 <= v < 10 ^ Z.of_nat (length l).
Proof.
  revert v. induction l as [|c l IH] using rev_ind; intros v; simpl.
  { intros [= <-]. split; [done|simpl; lia]. }
  rewrite fold_opt_app, length_app. simpl. rewrite Nat.add_1_r.
  destruct (fold_opt parse_digit 0 l) as [r|]; [|done]. cbn [mbind option_bind].
  rewrite parse_digit_spec. unfold ascii_digit.
  destruct (Z.leb_spec 48 c), (Z.leb_spec c 57); simpl; try done. intros [= <-].
  destruct (IH r eq_refl) as [Hr Hb]. rewrite Nat2Z.inj_succ, Z.pow_succ_r by lia. split; [|lia].
  replace ((r * 10 + (c - 48)) / 10) with r by dlia.
  rewrite Hr. f_equal. f_equal. dlia.
Qed.

(** ** The canonical text *)

Definition text (f : Fields) (fraction : Z) : bytes :=
  fixed_digits 4 (f_year f) ++ [#"-"] ++ fixed_digits 2 (f_month f) ++ [#"-"] ++
  fixed_digits 2 (f_day f) ++ [#"T"] ++ fixed_digits 2 (f_hour f) ++ [#":"] ++
  fixed_digits 2 (f_minute f) ++ [#":"] ++ fixed_digits 2 (f_second f) ++ [#"."] ++
  fixed_digits 6 fraction ++ [#"Z"].

Definition fields_ok (f : Fields) : Prop :=
  0 <= f_year f <= 9999 ∧ valid_date (f_year f) (f_month f) (f_day f) = true ∧
  0 <= f_hour f <= 23 ∧ 0 <= f_minute f <= 59 ∧ 0 <= f_second f <= 59.

(** Microseconds since the epoch. *)
Definition instant (f : Fields) (fraction : Z) : Z :=
  (days_from_civil (f_year f) (f_month f) (f_day f) * kSecondsPerDay + f_hour f * 3600 +
   f_minute f * 60 + f_second f) * kMicrosecondsPerSecond + fraction.

Lemma fields_month f :
  fields_ok f → 1 <= f_month f <= 12 ∧ 1 <= f_day f <= days_in_month (f_year f) (f_month f) ∧
    f_day f <= 31.
Proof.
  intros (_ & Hv & _). unfold valid_date in Hv. rewrite !andb_true_iff, !Z.leb_le in Hv.
  pose proof (days_in_month_bounds (f_year f) (f_month f)). lia.
Qed.

(** Break a timestamp text into its characters. *)
Ltac text_cbn := cbn [text fixed_digits app substr take drop length at_index lookup list_lookup
                      default from_option last].

Lemma parse_fields_text f fraction : fields_ok f → parse_fields (text f fraction) = Some f.
Proof.
  intros Hf. pose proof (fields_month f Hf) as (Hm & Hd & Hd31).
  destruct Hf as (Hy & _ & Hh & Hmi & Hs).
  unfold parse_fields, parse_digits.
  change (substr (text f fraction) 0 4) with (fixed_digits 4 (f_year f)).
  change (substr (text f fraction) 5 2) with (fixed_digits 2 (f_month f)).
  change (substr (text f fraction) 8 2) with (fixed_digits 2 (f_day f)).
  change (substr (text f fraction) 11 2) with (fixed_digits 2 (f_hour f)).
  change (substr (text f fraction) 14 2) with (fixed_digits 2 (f_minute f)).
  change (substr (text f fraction) 17 2) with (fixed_digits 2 (f_second f)).
  rewrite !fixed_digits_parse by (simpl; lia). cbn [mbind option_bind].
  rewrite !(proj2 (Z.ltb_ge _ _)) by lia. by destruct f.
Qed.

Lemma parse_fraction_text f fraction :
  0 <= fraction < 1000000 → parse_fraction (text f fraction) = Some fraction.
Proof.
  intros Hf. unfold parse_fraction, parse_digits.
  change (at_index (text f fraction) 19) with 46.
  change (Z.of_nat (length (text f fraction))) with 27.
  change (default 0 (last (text f fraction))) with 90.
  change (substr (text f fraction) 20 (Z.to_nat (27 - 21))) with (fixed_digits 6 fraction).
  simpl (_ =? _). cbn [negb orb]. simpl (_ <? _). cbn [orb].
  rewrite fixed_digits_parse by (simpl; lia). cbn [mbind option_bind].
  f_equal. change (10 ^ (6 - (27 - 21))) with 1. lia.
Qed.

Lemma parse_text f fraction :
  fields_ok f → 0 <= fraction < 1000000 →
  parse_utc_timestamp (text f fraction) =
    let count := instant f fraction in
    if (count <? - (- int64_min / 1000)) || (int64_max / 1000 <? count) then failure out_of_range
    else success (count * 1000).
Proof.
  intros Hf Hfr. unfold parse_utc_timestamp.
  change (Z.of_nat (length (text f fraction))) with 27.
  change (separators_ok (text f fraction)) with true. simpl (_ <? _). cbn [negb orb].
  rewrite parse_fields_text, parse_fraction_text by done. done.
Qed.

(** The fields of an instant. *)
Definition fields_of (microseconds : Z) : Fields :=
  let date := civil_from_days (microseconds / kMicrosecondsPerDay) in
  let seconds := microseconds mod kMicrosecondsPerDay / kMicrosecondsPerSecond in
  mkFields (year date) (month date) (day date) (seconds / 3600) (seconds / 60 mod 60) (seconds mod 60).

Lemma instant_fields_of us :
  instant (fields_of us) (us mod kMicrosecondsPerSecond) = us.
Proof.
  unfold instant, fields_of. cbn [f_year f_month f_day f_hour f_minute f_second].
  destruct (days_from_civil_from_days (us / kMicrosecondsPerDay)) as [_ ->].
  unfold kMicrosecondsPerDay, kSecondsPerDay, kMicrosecondsPerSecond. dlia.
Qed.

Lemma floor_split us :
  (if Z.rem us kMicrosecondsPerDay <? 0
   then (Z.quot us kMicrosecondsPerDay - 1, Z.rem us kMicrosecondsPerDay + kMicrosecondsPerDay)
   else (Z.quot us kMicrosecondsPerDay, Z.rem us kMicrosecondsPerDay)) =
  (us / kMicrosecondsPerDay, us mod kMicrosecondsPerDay).
Proof.
  unfold kMicrosecondsPerDay, kSecondsPerDay, kMicrosecondsPerSecond.
  destruct (Z.ltb_spec (Z.rem us (86400 * 1000000)) 0); f_equal; dlia.
Qed.

Lemma mod_div_swap w k n : 0 < k → 0 < n → (w mod (n * k)) / k = (w / k) mod n.
Proof.
  intros Hk Hn. rewrite (Z.mul_comm n k), Z.rem_mul_r by lia.
  rewrite (Z.mul_comm k), Z.div_add, Z.div_small by (lia || by apply Z.mod_pos_bound). lia.
Qed.

Lemma format_spec v :
  let us := v / 1000 in
  let f := fields_of us in
  format_utc_timestamp v =
    if (f_year f <? 0) || (9999 <? f_year f) then failure out_of_range
    else success (text f (us mod kMicrosecondsPerSecond)).
Proof.
  cbv zeta. unfold format_utc_timestamp. rewrite floor_split.
  set (us := v / 1000). set (w := us mod kMicrosecondsPerDay).
  unfold fields_of. fold w. cbn [f_year f_month f_day f_hour f_minute f_second]. case_match; [done|].
  unfold text. cbn [f_year f_month f_day f_hour f_minute f_second].
  assert (Hw : w / (3600 * kMicrosecondsPerSecond) = w / kMicrosecondsPerSecond / 3600)
    by (rewrite Z.mul_comm, Z.div_div; done).
  assert (Hm : w mod (3600 * kMicrosecondsPerSecond) / (60 * kMicrosecondsPerSecond) =
               w / kMicrosecondsPerSecond / 60 mod 60).
  { change (3600 * kMicrosecondsPerSecond) with (60 * (60 * kMicrosecondsPerSecond)).
    rewrite mod_div_swap by done. by rewrite Z.mul_comm, Z.div_div. }
  assert (D1 : (60 * kMicrosecondsPerSecond | 3600 * kMicrosecondsPerSecond)) by (by exists 60).
  assert (D2 : (kMicrosecondsPerSecond | 60 * kMicrosecondsPerSecond)) by (by exists 60).
  assert (D3 : (kMicrosecondsPerSecond | kMicrosecondsPerDay)) by (by exists kSecondsPerDay).
  rewrite Hw, Hm, (Z.mod_mod_divide _ _ _ D1), (Z.mod_mod_divide _ _ _ D2), mod_div_swap by done.
  subst w. by rewrite (Z.mod_mod_divide _ _ _ D3).
Qed.

Lemma fields_of_ok us : 0 <= f_year (fields_of us) <= 9999 → fields_ok (fields_of us).
Proof.
  intros Hy. unfold fields_ok. split; [done|]. unfold fields_of in *.
  cbn [f_year f_month f_day f_hour f_minute f_second] in *.
  split; [by apply days_from_civil_from_days|].
  unfold kMicrosecondsPerDay, kSecondsPerDay, kMicrosecondsPerSecond. dlia.
Qed.

Lemma clock_fields_year v : in_int64 v → 0 <= f_year (fields_of (v / 1000)) <= 9999.
Proof.
  intros Hv. cbn [fields_of f_year]. unfold in_int64, int64_min, int64_max in Hv.
  pose proof (near_epoch_year (v / 1000 / kMicrosecondsPerDay)) as Hy.
  cut (1670 <= year (civil_from_days (v / 1000 / kMicrosecondsPerDay)) <= 2270); [lia|].
  apply Hy. unfold kMicrosecondsPerDay, kSecondsPerDay, kMicrosecondsPerSecond. dlia.
Qed.

Lemma format_clock v :
  in_int64 v →
  format_utc_timestamp v = success (text (fields_of (v / 1000)) (v / 1000 mod kMicrosecondsPerSecond)).
Proof.
  intros Hv. rewrite format_spec. pose proof (clock_fields_year v Hv).
  rewrite !(proj2 (Z.ltb_ge _ _)) by lia. done.
Qed.

(** The text of a clock value is parsed to the value rounded down. *)
Lemma parse_format v :
  in_int64 v →
  parse_utc_timestamp (text (fields_of (v / 1000)) (v / 1000 mod kMicrosecondsPerSecond)) =
    if int64_min <=? v / 1000 * 1000 then success (v / 1000 * 1000) else failure out_of_range.
Proof.
  intros Hv. pose proof (clock_fields_year v Hv) as Hy.
  rewrite parse_text by (by apply fields_of_ok || by apply Z.mod_pos_bound).
  cbv zeta. rewrite instant_fields_of. unfold in_int64, int64_min, int64_max in *.
  destruct (Z.leb_spec (- 2 ^ 63) (v / 1000 * 1000)).
  - rewrite (proj2 (Z.ltb_ge _ _)), (proj2 (Z.ltb_ge _ _)) by dlia. done.
  - rewrite (proj2 (Z.ltb_lt _ _)) by dlia. done.
Qed.

Lemma parse_digits_exact v o c x :
  parse_digits v o c = Some x → (o + c <= length v)%nat →
  substr v o c = fixed_digits c x ∧ 0 <= x < 10 ^ Z.of_nat c.
Proof.
  unfold parse_digits. intros [Hx Hb]%fixed_digits_exact Hle.
  assert (Hl : length (substr v o c) = c) by (unfold substr; rewrite length_take, length_drop; lia).
  by rewrite Hl in Hx, Hb.
Qed.

(** Everything the parser accepts. *)
Lemma parse_fields_inv v f :
  parse_fields v = Some f → (20 <= length v)%nat →
  fields_ok f ∧ substr v 0 4 = fixed_digits 4 (f_year f) ∧ substr v 5 2 = fixed_digits 2 (f_month f) ∧
  substr v 8 2 = fixed_digits 2 (f_day f) ∧ substr v 11 2 = fixed_digits 2 (f_hour f) ∧
  substr v 14 2 = fixed_digits 2 (f_minute f) ∧ substr v 17 2 = fixed_digits 2 (f_second f).
Proof.
  intros Hp Hlen. unfold parse_fields in Hp.
  destruct (parse_digits v 0 4) as [y|] eqn:Hy; [|done].
  destruct (parse_digits v 5 2) as [m|] eqn:Hm; [|done].
  destruct (parse_digits v 8 2) as [d|] eqn:Hdd; [|done].
  destruct (parse_digits v 11 2) as [h|] eqn:Hh; [|done].
  destruct (parse_digits v 14 2) as [mi|] eqn:Hmi; [|done].
  destruct (parse_digits v 17 2) as [s|] eqn:Hs; [|done].
  cbn [mbind option_bind] in Hp.
  apply parse_digits_exact in Hy as [-> Hy], Hm as [-> Hm], Hdd as [-> Hdd], Hh as [-> Hh], Hmi as [-> Hmi],
    Hs as [-> Hs]; [|lia..].
  destruct (Z.ltb_spec m 1), (Z.ltb_spec 12 m), (Z.ltb_spec d 1), (Z.ltb_spec (days_in_month y m) d),
    (Z.ltb_spec 23 h), (Z.ltb_spec 59 mi), (Z.ltb_spec 59 s); try done.
  injection Hp as <-. cbn [f_year f_month f_day f_hour f_minute f_second].
  split; [|done]. unfold fields_ok, valid_date. cbn [f_year f_month f_day f_hour f_minute f_second].
  rewrite !andb_true_iff, !Z.leb_le. simpl in Hy. lia.
Qed.

Lemma parse_fraction_inv s fr :
  parse_fraction s = Some fr →
  0 <= fr < 1000000 ∧
  (length s = 27%nat →
     at_index s 19 = #"." ∧ default 0 (last s) = #"Z" ∧ substr s 20 6 = fixed_digits 6 fr).
Proof.
  unfold parse_fraction, parse_digits. destruct (Z.eqb_spec (at_index s 19) 90) as [|_].
  { destruct (Z.eqb_spec (Z.of_nat (length s)) 20); [|done]. intros [= <-]. split; [lia|]. intros. lia. }
  destruct (Z.eqb_spec (at_index s 19) 46) as [Hdot|]; [|done].
  destruct (Z.eqb_spec (default 0 (last s)) 90) as [Hlast|]; [|done]. simpl (negb _ || negb _).
  cbv iota. set (n := Z.of_nat (length s) - 21).
  destruct (Z.ltb_spec n 1); [done|]. destruct (Z.ltb_spec 6 n); [done|]. simpl (_ || _). cbv iota.
  destruct (fold_opt _ 0 _) as [x|] eqn:Hx; [|done]. cbn [mbind option_bind]. intros [= <-].
  apply fixed_digits_exact in Hx as [Hx Hb].
  assert (Hl : length (substr s 20 (Z.to_nat n)) = Z.to_nat n)
    by (unfold substr; rewrite length_take, length_drop; lia).
  rewrite Hl in Hx, Hb. rewrite Z2Nat.id in Hb by lia. split.
  - assert (Hp : 10 ^ n * 10 ^ (6 - n) = 10 ^ 6) by (rewrite <- Z.pow_add_r by lia; f_equal; lia).
    pose proof (Z.pow_pos_nonneg 10 (6 - n)). nia.
  - intros H27. assert (n = 6) as Hn by lia. split_and!; [done..|]. rewrite Hn in Hx |- *.
    change (Z.to_nat 6) with 6%nat in Hx. change (10 ^ (6 - 6)) with 1. by rewrite Z.mul_1_r.
Qed.

Lemma separators_inv s :
  separators_ok s = true → at_index s 4 = #"-" ∧ at_index s 7 = #"-" ∧ at_index s 10 = #"T" ∧
    at_index s 13 = #":" ∧ at_index s 16 = #":".
Proof. unfold separators_ok. rewrite !andb_true_iff, !Z.eqb_eq. tauto. Qed.

Lemma rebuild_text s f fr :
  length s = 27%nat → separators_ok s = true → parse_fields s = Some f → parse_fraction s = Some fr →
  s = text f fr.
Proof.
  intros Hlen (H4 & H7 & H10 & H13 & H16)%separators_inv Hf Hfr.
  apply parse_fields_inv in Hf as (_ & Hy & Hm & Hd & Hh & Hmi & Hs); [|lia].
  apply parse_fraction_inv in Hfr as [_ Hfr]. destruct (Hfr Hlen) as (H19 & Hlast & Hfd).
  unfold text. rewrite <- Hy, <- Hm, <- Hd, <- Hh, <- Hmi, <- Hs, <- Hfd.
  clear Hy Hm Hd Hh Hmi Hs Hfd Hfr.
  do 27 (destruct s as [|? s]; [done|]). destruct s; [|done].
  cbv [at_index lookup list_lookup default from_option last id] in *. subst. done.
Qed.

Lemma parse_inv s v :
  parse_utc_timestamp s = success v →
  ∃ f fraction, fields_ok f ∧ 0 <= fraction < 1000000 ∧ v = instant f fraction * 1000 ∧ in_int64 v ∧
    (length s = 27%nat → s = text f fraction).
Proof.
  unfold parse_utc_timestamp.
  destruct (Z.ltb_spec (Z.of_nat (length s)) 20); [done|].
  destruct (separators_ok s) eqn:Hsep; [|done]. simpl (_ || _). cbv iota.
  destruct (parse_fields s) as [f|] eqn:Hf; [|done]. cbn [mbind result_bind ok_or].
  destruct (parse_fraction s) as [fr|] eqn:Hfr; [|done]. cbn [mbind result_bind ok_or].
  fold (instant f fr). unfold int64_min, int64_max.
  destruct (Z.ltb_spec (instant f fr) (- (- - 2 ^ 63 / 1000))); [done|].
  destruct (Z.ltb_spec ((2 ^ 63 - 1) / 1000) (instant f fr)); [done|]. intros [= <-].
  exists f, fr. split; [by apply parse_fields_inv in Hf as [? _]; [|lia]|].
  split; [by apply parse_fraction_inv in Hfr as [? _]|]. split_and!; [done| |].
  - unfold in_int64, int64_min, int64_max. dlia.
  - intros Hl. by apply rebuild_text.
Qed.

(** Fields are determined by their instant. *)
Lemma fields_of_instant f fr :
  fields_ok f → 0 <= fr < 1000000 →
  fields_of (instant f fr) = f ∧ instant f fr mod kMicrosecondsPerSecond = fr.
Proof.
  intros (_ & Hv & Hh & Hm & Hs) Hfr. unfold fields_of.
  set (D := days_from_civil (f_year f) (f_month f) (f_day f)).
  set (t := f_hour f * 3600 + f_minute f * 60 + f_second f).
  assert (Hi : instant f fr = D * kMicrosecondsPerDay + (t * kMicrosecondsPerSecond + fr)).
  { unfold instant, kMicrosecondsPerDay, kSecondsPerDay, kMicrosecondsPerSecond. lia. }
  assert (Ht : 0 <= t < 86400) by lia.
  assert (Hd : instant f fr / kMicrosecondsPerDay = D /\
               instant f fr mod kMicrosecondsPerDay = t * kMicrosecondsPerSecond + fr).
  { rewrite Hi. clearbody D t. clear Hi.
    unfold kMicrosecondsPerDay, kSecondsPerDay, kMicrosecondsPerSecond. dlia. }
  destruct Hd as [-> ->]. subst D. rewrite civil_from_days_from_civil by done.
  cbn [year month day]. split.
  - replace ((t * kMicrosecondsPerSecond + fr) / kMicrosecondsPerSecond) with t
      by (unfold kMicrosecondsPerSecond; dlia).
    subst t. clear Hi. destruct f as [y m d h mi sec]. cbn in *. f_equal; dlia.
  - rewrite Hi. clearbody t. unfold kMicrosecondsPerDay, kSecondsPerDay, kMicrosecondsPerSecond. dlia.
Qed.

(** ** Theorems *)

(** Every instant of the clock has a canonical text of 27 characters,
    and parsing that text gives the instant rounded down to a microsecond;
    the only exception is the last incomplete microsecond of the range, whose
    text is refused as out of range. *)
Theorem format_then_parse v :
  in_int64 v →
  ∃ s, format_utc_timestamp v = success s ∧ length s = 27%nat ∧
    parse_utc_timestamp s =
      if int64_min <=? v / 1000 * 1000 then success (v / 1000 * 1000) else failure out_of_range.
Proof.
  intros Hv. eexists. split_and!; [by apply format_clock|done|by apply parse_format].
Qed.

(** Whatever the parser accepts is a representable instant in whole
    microseconds, whose canonical text parses to the same instant; a text that
    is given with six fractional digits is itself canonical. *)
Theorem parse_then_format s v :
  parse_utc_timestamp s = success v →
  in_int64 v ∧ v mod 1000 = 0 ∧
  ∃ c, format_utc_timestamp v = success c ∧ parse_utc_timestamp c = success v ∧
    (length s = 27%nat → c = s).
Proof.
  intros (f & fr & Hf & Hfr & -> & Hv & Hs)%parse_inv.
  split; [done|]. split; [apply Z.mod_mul; lia|].
  eexists. split; [by apply format_clock|]. rewrite parse_format by done.
  rewrite Z.div_mul by lia. destruct (fields_of_instant f fr Hf Hfr) as [-> ->]. split.
  - rewrite (proj2 (Z.leb_le _ _)); [done|]. apply Hv.
  - intros Hl. symmetry. by apply Hs.
Qed.

Lemma format_then_parse_witness :
  ∃ s, format_utc_timestamp 1743298200123456789 = success s ∧ length s = 27%nat ∧
    parse_utc_timestamp s = success 1743298200123456000.
Proof. apply (format_then_parse 1743298200123456789). done. Defined.

Lemma parse_then_format_witness :
  in_int64 1743298200500000000 ∧ 1743298200500000000 mod 1000 = 0 ∧
  ∃ c, format_utc_timestamp 1743298200500000000 = success c ∧
    parse_utc_timestamp c = success 1743298200500000000 ∧
    (length bs!"2025-03-30T01:30:00.5Z" = 27%nat → c = bs!"2025-03-30T01:30:00.5Z").
Proof. apply (parse_then_format bs!"2025-03-30T01:30:00.5Z"). vm_compute. reflexivity. Defined.
