(* ===== verification/Uuid.v ===== *)
(** * Identifiers: [src/core/uuid.cpp]

    The text form of a UUID and the version 7 generator.  The generator is a
    state machine whose environment supplies, at every call, the reading of the
    clock and the bytes of the operating system's random source. *)

From stdpp Require Import base numbers strings list.
From Stdlib Require Import Ascii Sorted.
From S2P Require Import Prelude.
Local Open Scope Z_scope.

Definition kMaxTimestampMs : Z := 281474976710655.

Definition invalid_uuid_error : Error :=
  mkError InvalidArgument "core.uuid.invalid_format"
    "UUID must use canonical 8-4-4-4-12 hexadecimal format" "".
Definition timestamp_out_of_range : Error :=
  mkError InvalidArgument "core.uuid.timestamp_out_of_range"
    "UTC time cannot be represented by UUIDv7" "".
Definition sequence_exhausted : Error :=
  mkError ResourceExhausted "core.uuid.sequence_exhausted"
    "UUIDv7 sequence space is exhausted for the current timestamp" "".

(** [Uuid::Storage]: sixteen bytes. *)
Definition storage (b : bytes) : Prop := length b = 16%nat ∧ Forall is_byte b.

(** [b[i]] and [b[i] = v] on an array of known size. *)
Definition get (b : bytes) (i : nat) : Z := default 0 (b !! i).

(** ** Text *)

Definition hex_value (c : Z) : Z :=
  if (#"0" <=? c) && (c <=? #"9") then c - #"0"
  else if (#"a" <=? c) && (c <=? #"f") then c - #"a" + 10
  else if (#"A" <=? c) && (c <=? #"F") then c - #"A" + 10
  else -1.

Definition is_hyphen_index (i : nat) : bool :=
  (i =? 8)%nat || (i =? 13)%nat || (i =? 18)%nat || (i =? 23)%nat.

(** The loop over the sixteen bytes; [n] of them remain. *)
Fixpoint parse_bytes (text : bytes) (input_index : nat) (n : nat) : option bytes :=
  match n with
  | O => Some []
  | S n =>
      let input_index := if is_hyphen_index input_index then S input_index else input_index in
      let high := hex_value (get text input_index) in
      let low := hex_value (get text (S input_index)) in
      if (high <? 0) || (low <? 0) then None
      else rest ← parse_bytes text (S (S input_index)) n;
           Some (Z.lor (Z.shiftl high 4) low :: rest)
  end.

Definition parse (text : bytes) : result Error bytes :=
  if negb (Z.of_nat (length text) =? 36) || negb (get text 8 =? #"-") || negb (get text 13 =? #"-") ||
     negb (get text 18 =? #"-") || negb (get text 23 =? #"-")
  then failure invalid_uuid_error
  else ok_or (parse_bytes text 0 16) invalid_uuid_error.

Definition hex_digits : bytes := bs!"0123456789abcdef".

Definition is_group_start (i : nat) : bool :=
  (i =? 4)%nat || (i =? 6)%nat || (i =? 8)%nat || (i =? 10)%nat.

Definition hex_pair (b : Z) : bytes :=
  [get hex_digits (Z.to_nat (Z.shiftr b 4)); get hex_digits (Z.to_nat (Z.land b 15))].

Fixpoint to_string_from (index : nat) (b : bytes) : bytes :=
  match b with
  | [] => []
  | x :: b => (if is_group_start index then [#"-"] else []) ++ hex_pair x ++ to_string_from (S index) b
  end.

Definition to_string (b : bytes) : bytes := to_string_from 0 b.

Definition is_nil (b : bytes) : bool := forallb (λ x, x =? 0) b.

(** [operator<=>] on the storage: lexicographic. *)
Fixpoint uuid_lt (a b : bytes) : bool :=
  match a, b with
  | x :: a, y :: b => if x <? y then true else if y <? x then false else uuid_lt a b
  | [], _ :: _ => true
  | _, [] => false
  end.

(** ** The generator *)

Record UuidV7Generator := mkGenerator {
  last_uuid : bytes; last_timestamp_ms : Z; has_last : bool }.

Definition new_generator : UuidV7Generator := mkGenerator (replicate 16 0) 0 false.

(** The cast to milliseconds truncates towards zero. *)
Definition timestamp_ms (utc : Z) : result Error Z :=
  let milliseconds := Z.quot utc 1000000 in
  if (milliseconds <? 0) || (kMaxTimestampMs <? milliseconds) then failure timestamp_out_of_range
  else success milliseconds.

Definition set_timestamp (b : bytes) (v : Z) : bytes :=
  map (λ i, Z.land (Z.shiftr v ((5 - i) * 8)) 255) [0; 1; 2; 3; 4; 5] ++ drop 6 b.

(** The first loop of [increment_random_tail], over the indices [8 + n] down
    to [9]; [true] when it returns. *)
Fixpoint increment_bytes (b : bytes) (n : nat) : bool * bytes :=
  match n with
  | O => (false, b)
  | S n =>
      let index := (9 + n)%nat in
      let v := get b index in
      if negb (v =? 255) then (true, <[index := v + 1]> b)
      else increment_bytes (<[index := 0]> b) n
  end.

Definition increment_random_tail (b : bytes) : bool * bytes :=
  let '(done, b) := increment_bytes b 7 in
  if done then (true, b)
  else
    let v := Z.land (get b 8) 63 in
    if negb (v =? 63) then (true, <[8%nat := Z.lor 128 (v + 1)]> b)
    else
      let b := <[8%nat := 128]> b in
      let v := get b 7 in
      if negb (v =? 255) then (true, <[7%nat := v + 1]> b)
      else
        let b := <[7%nat := 0]> b in
        let v := Z.land (get b 6) 15 in
        if negb (v =? 15) then (true, <[6%nat := Z.lor 112 (v + 1)]> b)
        else (false, <[6%nat := 112]> b).

Definition version_and_variant (b : bytes) : bytes :=
  let b := <[6%nat := Z.lor (Z.land (get b 6) 15) 112]> b in
  <[8%nat := Z.lor (Z.land (get b 8) 63) 128]> b.

(** [generate()] with the reading [now] of the clock and the answer [random]
    of [fill_random]. *)
Definition generate (now : Z) (random : result Error bytes) (g : UuidV7Generator)
    : result Error bytes * UuidV7Generator :=
  match timestamp_ms now with
  | failure e => (failure e, g)
  | success current =>
      if negb (has_last g) || (last_timestamp_ms g <? current) then
        match random with
        | failure e => (failure e, g)
        | success random =>
            let next := version_and_variant (set_timestamp random current) in
            (success next, mkGenerator next current true)
        end
      else
        match increment_random_tail (last_uuid g) with
        | (false, _) => (failure sequence_exhausted, g)
        | (true, next) => (success next, mkGenerator next (last_timestamp_ms g) (has_last g))
        end
  end.

(** A sequence of calls; the identifiers that were returned, in order. *)
Fixpoint generate_all (calls : list (Z * result Error bytes)) (g : UuidV7Generator) : list bytes :=
  match calls with
  | [] => []
  | (now, random) :: calls =>
      match generate now random g with
      | (success u, g) => u :: generate_all calls g
      | (failure _, g) => generate_all calls g
      end
  end.

(** ** Hexadecimal digits *)

Definition digit_of (n : Z) : Z := get hex_digits (Z.to_nat n).

Definition ascii_lower (c : Z) : Z := if (#"A" <=? c) && (c <=? #"Z") then c + 32 else c.

Lemma hex_value_digit n : 0 <= n < 16 → hex_value (digit_of n) = n.
Proof.
  intros Hn. apply Z.eqb_eq.
  apply (interval_check (λ n, hex_value (digit_of n) =? n) 0 16); [vm_compute; reflexivity|lia].
Qed.

Lemma hex_value_range c : hex_value c < 16.
Proof. unfold hex_value. repeat case_match; rewrite ?andb_true_iff, ?Z.leb_le in *; lia. Qed.

Lemma hex_digit_chars c : 0 <= hex_value c → digit_of (hex_value c) = ascii_lower c.
Proof.
  intros Hc. assert (Hr : 48 <= c < 48 + 55).
  { unfold hex_value in Hc. repeat case_match; rewrite ?andb_true_iff, ?Z.leb_le in *; lia. }
  pose proof (interval_check (λ c, (hex_value c <? 0) || (digit_of (hex_value c) =? ascii_lower c)) 48 55 c) as Hp.
  cbv beta in Hp. rewrite (proj2 (Z.ltb_ge _ _) Hc) in Hp. apply Z.eqb_eq, Hp; [vm_compute; reflexivity|done].
Qed.

Lemma nibbles_join b : is_byte b → Z.lor (Z.shiftl (Z.shiftr b 4) 4) (Z.land b 15) = b.
Proof.
  intros Hb. apply Z.eqb_eq.
  apply (interval_check (λ b, Z.lor (Z.shiftl (Z.shiftr b 4) 4) (Z.land b 15) =? b) 0 256);
    [vm_compute; reflexivity|]. unfold is_byte in Hb. lia.
Qed.

Lemma nibble_ranges b : is_byte b → 0 <= Z.shiftr b 4 < 16 ∧ 0 <= Z.land b 15 < 16.
Proof.
  unfold is_byte. intros Hb. rewrite Z.shiftr_div_pow2 by lia.
  change 15 with (Z.ones 4). rewrite Z.land_ones by lia. change (2 ^ 4) with 16. dlia.
Qed.

Lemma nibbles_split h l :
  0 <= h < 16 → 0 <= l < 16 →
  let b := Z.lor (Z.shiftl h 4) l in is_byte b ∧ Z.shiftr b 4 = h ∧ Z.land b 15 = l.
Proof.
  intros Hh Hl. cbv zeta.
  pose proof (interval_check (λ x, let h := x / 16 in let l := x mod 16 in
    let b := Z.lor (Z.shiftl h 4) l in (0 <=? b) && (b <? 256) && (Z.shiftr b 4 =? h) && (Z.land b 15 =? l))
    0 256 (h * 16 + l) ltac:(vm_compute; reflexivity) ltac:(lia)) as H. cbv beta zeta in H.
  replace ((h * 16 + l) / 16) with h in H by dlia. replace ((h * 16 + l) mod 16) with l in H by dlia.
  rewrite !andb_true_iff, Z.leb_le, Z.ltb_lt, !Z.eqb_eq in H. unfold is_byte. tauto.
Qed.

(** The two digits of a byte are read back as its halves. *)
Lemma hex_pair_values b :
  is_byte b → ∃ h l, hex_pair b = [h; l] ∧ 0 <= hex_value h ∧ 0 <= hex_value l ∧
    Z.lor (Z.shiftl (hex_value h) 4) (hex_value l) = b.
Proof.
  intros Hb. destruct (nibble_ranges b Hb). exists (digit_of (Z.shiftr b 4)), (digit_of (Z.land b 15)).
  rewrite !hex_value_digit by done. split_and!; [done|lia|lia|by apply nibbles_join].
Qed.

Lemma hex_pair_text h l :
  0 <= hex_value h → 0 <= hex_value l →
  let b := Z.lor (Z.shiftl (hex_value h) 4) (hex_value l) in
  is_byte b ∧ hex_pair b = [ascii_lower h; ascii_lower l].
Proof.
  intros Hh Hl. pose proof (hex_value_range h). pose proof (hex_value_range l).
  destruct (nibbles_split (hex_value h) (hex_value l)) as (? & Hs & Ha); [lia..|].
  cbv zeta. split; [done|]. unfold hex_pair. rewrite Hs, Ha.
  fold (digit_of (hex_value h)) (digit_of (hex_value l)). by rewrite !hex_digit_chars.
Qed.

(** ** Text and storage *)

(** The 36 characters: the sixteen pairs and the hyphens between groups. *)
Definition text_of (p : list (Z * Z)) : bytes :=
  concat (imap (λ i '(h, l), (if is_group_start i then [#"-"] else []) ++ [h; l]) p).

Definition pair_ok (p : Z * Z) : Prop := 0 <= hex_value p.1 ∧ 0 <= hex_value p.2.
Definition pair_byte (p : Z * Z) : Z := Z.lor (Z.shiftl (hex_value p.1) 4) (hex_value p.2).

(** Name the elements of a list of known length. *)
Ltac explode l H :=
  repeat (destruct l as [|? l]; [discriminate H|]); destruct l; [clear H|discriminate H].

Lemma parse_text_of p :
  length p = 16%nat →
  parse (text_of p) =
    if forallb (λ p, negb ((hex_value p.1 <? 0) || (hex_value p.2 <? 0))) p
    then success (map pair_byte p) else failure invalid_uuid_error.
Proof.
  intros Hp. explode p Hp. repeat match goal with q : Z * Z |- _ => destruct q end.
  cbv -[hex_value Z.lor Z.shiftl Z.ltb invalid_uuid_error].
  repeat (destruct (hex_value _ <? 0); [done|]). done.
Qed.

Definition nibble_pair (b : Z) : Z * Z := (digit_of (Z.shiftr b 4), digit_of (Z.land b 15)).

Lemma to_string_text b : length b = 16%nat → to_string b = text_of (map nibble_pair b).
Proof. intros Hb. explode b Hb. reflexivity. Qed.

Lemma pair_byte_nibbles b : is_byte b → pair_byte (nibble_pair b) = b ∧
  (hex_value (nibble_pair b).1 <? 0) || (hex_value (nibble_pair b).2 <? 0) = false.
Proof.
  intros Hb. destruct (nibble_ranges b Hb). unfold pair_byte, nibble_pair. cbn [fst snd].
  rewrite !hex_value_digit by done. split; [by apply nibbles_join|].
  by rewrite !(proj2 (Z.ltb_ge _ _)) by lia.
Qed.

(** Every text with hyphens in place is the text of its pairs. *)
Lemma text_pairs t :
  length t = 36%nat → get t 8 = #"-" → get t 13 = #"-" → get t 18 = #"-" → get t 23 = #"-" →
  ∃ p, length p = 16%nat ∧ t = text_of p ∧
    map ascii_lower t = text_of (map (λ p, (ascii_lower p.1, ascii_lower p.2)) p).
Proof.
  intros Ht H1 H2 H3 H4. explode t Ht. unfold get in *.
  cbn [lookup list_lookup default from_option id] in *. subst.
  match goal with |- context [[?a0;?a1;?a2;?a3;?a4;?a5;?a6;?a7;_;?b0;?b1;?b2;?b3;_;?c0;?c1;?c2;?c3;_;
      ?d0;?d1;?d2;?d3;_;?e0;?e1;?e2;?e3;?e4;?e5;?e6;?e7;?e8;?e9;?e10;?e11]] =>
    exists [(a0,a1);(a2,a3);(a4,a5);(a6,a7);(b0,b1);(b2,b3);(c0,c1);(c2,c3);(d0,d1);(d2,d3);
            (e0,e1);(e2,e3);(e4,e5);(e6,e7);(e8,e9);(e10,e11)] end.
  done.
Qed.

Lemma parse_guard t b :
  parse t = success b →
  length t = 36%nat ∧ get t 8 = #"-" ∧ get t 13 = #"-" ∧ get t 18 = #"-" ∧ get t 23 = #"-".
Proof.
  unfold parse. generalize (parse_bytes t 0 16). intros r.
  destruct (Z.eqb_spec (Z.of_nat (length t)) 36), (Z.eqb_spec (get t 8) 45), (Z.eqb_spec (get t 13) 45),
    (Z.eqb_spec (get t 18) 45), (Z.eqb_spec (get t 23) 45); cbn [negb orb]; intros; try discriminate.
  split_and!; [lia|done..].
Qed.

(** The text of an identifier is parsed back to the same sixteen
    bytes. *)
Theorem parse_to_string b : storage b → parse (to_string b) = success b.
Proof.
  intros [Hl Hb]. rewrite to_string_text, parse_text_of by (by rewrite ?length_map).
  assert (Hmap : map pair_byte (map nibble_pair b) = b ∧
    forallb (λ p, negb ((hex_value p.1 <? 0) || (hex_value p.2 <? 0))) (map nibble_pair b) = true).
  { clear Hl. induction Hb as [|x b Hx Hb [IH1 IH2]]; [done|]. cbn [map forallb].
    destruct (pair_byte_nibbles x Hx) as [-> ->]. by rewrite IH1, IH2. }
  by destruct Hmap as [-> ->].
Qed.

(** What the parser accepts is the text of the bytes it returns, up to
    the case of the digits: nothing else is accepted, and no information is
    lost. *)
Theorem parse_sound t b :
  parse t = success b → storage b ∧ to_string b = map ascii_lower t.
Proof.
  intros Hp. destruct (parse_guard t b Hp) as (H36 & H8 & H13 & H18 & H23).
  destruct (text_pairs t H36 H8 H13 H18 H23) as (p & Hl & -> & Hlow). clear H36 H8 H13 H18 H23.
  rewrite parse_text_of in Hp by done. rewrite Hlow.
  destruct (forallb _ p) eqn:Hall; [|done]. injection Hp as <-.
  assert (Hp : Forall (λ p, is_byte (pair_byte p) ∧
            nibble_pair (pair_byte p) = (ascii_lower p.1, ascii_lower p.2)) p).
  { apply Forall_forall. intros [h l] Hin%list_elem_of_In. rewrite forallb_forall in Hall.
    specialize (Hall _ Hin). cbn [fst snd] in *.
    destruct (Z.ltb_spec (hex_value h) 0), (Z.ltb_spec (hex_value l) 0); try done.
    destruct (hex_pair_text h l) as [? He]; [done..|]. split; [done|].
    unfold nibble_pair, digit_of. by injection He as <- <-. }
  split; [split; [by rewrite length_map|by apply Forall_fmap; eapply Forall_impl; [exact Hp|intros ? []]]|].
  rewrite to_string_text by (by rewrite length_map). f_equal. rewrite map_map. clear -Hp.
  induction Hp as [|q p [_ Hq] Hp IH]; [done|]. cbn [map]. by rewrite Hq, IH.
Qed.

(** ** Order *)

Lemma uuid_lt_at p x y r s : x < y → uuid_lt (p ++ x :: r) (p ++ y :: s) = true.
Proof.
  intros Hxy. induction p as [|z p IH]; simpl; [by rewrite (proj2 (Z.ltb_lt x y))|].
  by rewrite Z.ltb_irrefl.
Qed.

Lemma uuid_lt_prefix a b r s :
  length a = length b → uuid_lt a b = true → uuid_lt (a ++ r) (b ++ s) = true.
Proof.
  revert b. induction a as [|x a IH]; intros [|y b] Hl; simpl; try done.
  destruct (x <? y); [done|]. destruct (y <? x); [done|]. apply IH. by injection Hl.
Qed.

Lemma uuid_lt_trans a b c : uuid_lt a b = true → uuid_lt b c = true → uuid_lt a c = true.
Proof.
  revert b c. induction a as [|x a IH]; intros [|y b] [|z c]; simpl; try done.
  destruct (Z.ltb_spec x y), (Z.ltb_spec y x), (Z.ltb_spec y z), (Z.ltb_spec z y),
    (Z.ltb_spec x z), (Z.ltb_spec z x); try done; try (exfalso; lia). apply IH.
Qed.

(** The big-endian encoding of the timestamp. *)
Definition timestamp_bytes (v : Z) : bytes :=
  map (λ i, Z.land (Z.shiftr v ((5 - i) * 8)) 255) [0; 1; 2; 3; 4; 5].

Lemma land_255 v : Z.land v 255 = v mod 256.
Proof. change 255 with (Z.ones 8). by rewrite Z.land_ones by lia. Qed.

Fixpoint big_endian (n : nat) (v : Z) : bytes :=
  match n with O => [] | S n => big_endian n (v / 256) ++ [v mod 256] end.

Lemma big_endian_length n v : length (big_endian n v) = n.
Proof. revert v. induction n as [|n IH]; intros v; simpl; [done|]. rewrite length_app, IH. simpl. lia. Qed.

Lemma big_endian_lt n v w :
  0 <= v → v < w → w < 256 ^ Z.of_nat n → uuid_lt (big_endian n v) (big_endian n w) = true.
Proof.
  revert v w. induction n as [|n IH]; intros v w Hv Hvw Hw; [simpl in Hw; lia|].
  rewrite Nat2Z.inj_succ, Z.pow_succ_r in Hw by lia. cbn [big_endian].
  destruct (Z.lt_total (v / 256) (w / 256)) as [Hlt|[Heq|Hgt]]; [| |dlia].
  - apply uuid_lt_prefix; [by rewrite !big_endian_length|]. apply IH; [dlia|done|dlia].
  - rewrite Heq. apply uuid_lt_at. dlia.
Qed.

Lemma timestamp_bytes_spec v : 0 <= v → timestamp_bytes v = big_endian 6 v.
Proof.
  intros Hv. unfold timestamp_bytes. cbn [map]. rewrite !land_255, !Z.shiftr_div_pow2 by lia.
  cbn [big_endian app]. rewrite !Z.div_div by lia. simpl (_ * _). by rewrite Z.div_1_r.
Qed.

Lemma timestamp_bytes_lt v w :
  0 <= v → v < w → w <= kMaxTimestampMs → uuid_lt (timestamp_bytes v) (timestamp_bytes w) = true.
Proof.
  intros Hv Hvw Hw. rewrite !timestamp_bytes_spec by lia. apply big_endian_lt; [done..|].
  unfold kMaxTimestampMs in Hw. simpl. lia.
Qed.

Lemma timestamp_bytes_ok v : Forall is_byte (timestamp_bytes v).
Proof.
  unfold timestamp_bytes. cbn [map]. rewrite !land_255.
  repeat constructor; apply Z.mod_pos_bound; lia.
Qed.

(** ** The increment *)

(** [b'] equals [b] before index [i] and is greater at [i]. *)
Definition bumped (b b' : bytes) (i : nat) : Prop :=
  length b' = length b ∧ (i < length b)%nat ∧ take i b' = take i b ∧ get b i < get b' i.

Lemma split_at_get (b : bytes) i :
  (i < length b)%nat → b = take i b ++ get b i :: drop (S i) b.
Proof.
  intros Hi. unfold get. destruct (lookup_lt_is_Some_2 b i Hi) as [x Hx]. rewrite Hx. simpl.
  symmetry. by apply take_drop_middle.
Qed.

Lemma bumped_lt b b' i : bumped b b' i → uuid_lt b b' = true.
Proof.
  intros (Hl & Hi & Ht & Hg). rewrite (split_at_get b i), (split_at_get b' i) by lia.
  rewrite Ht. by apply uuid_lt_at.
Qed.

Lemma get_byte b i : Forall is_byte b → is_byte (get b i).
Proof.
  intros Hb. unfold get. destruct (b !! i) as [x|] eqn:Hx; [|done]. simpl. by eapply Forall_lookup_1.
Qed.

Lemma get_insert b i x : (i < length b)%nat → get (<[i := x]> b) i = x.
Proof. intros Hi. unfold get. by rewrite list_lookup_insert_eq. Qed.

Lemma get_insert_ne b i j x : i ≠ j → get (<[i := x]> b) j = get b j.
Proof. intros Hi. unfold get. by rewrite list_lookup_insert_ne. Qed.

Lemma get_take b b' i j : take i b' = take i b → (j < i)%nat → get b' j = get b j.
Proof.
  intros Ht Hj. unfold get. rewrite <- (lookup_take_lt b i j), <- (lookup_take_lt b' i j) by done.
  by rewrite Ht.
Qed.

Lemma increment_bytes_spec b n :
  storage b → (n <= 7)%nat →
  let '(found, b') := increment_bytes b n in
  storage b' ∧ take 9 b' = take 9 b ∧ (found = true → ∃ i, (9 <= i < 9 + n)%nat ∧ bumped b b' i).
Proof.
  revert b. induction n as [|n IH]; intros b Hb Hn; cbn [increment_bytes]; [done|].
  destruct Hb as [Hl Hb]. pose proof (get_byte b (9 + n) Hb) as Hg. unfold is_byte in Hg.
  destruct (Z.eqb_spec (get b (9 + n)) 255) as [He|Hne]; cbn [negb].
  - specialize (IH (<[(9 + n)%nat := 0]> b)).
    destruct (increment_bytes (<[(9 + n)%nat := 0]> b) n) as [found b'].
    destruct IH as (Hs & Ht & Hf); [split; [by rewrite length_insert|]|lia|].
    { apply Forall_insert; [done|]. unfold is_byte. lia. }
    rewrite take_insert_ge in Ht by lia. split_and!; [done..|]. intros [i [Hi Hbump]]%Hf.
    exists i. split; [lia|]. destruct Hbump as (Hl' & Hil & Hti & Hgi). rewrite length_insert in *.
    rewrite take_insert_ge in Hti by lia. rewrite get_insert_ne in Hgi by lia. done.
  - split_and!; [split; [by rewrite length_insert|]|by rewrite take_insert_ge by lia|].
    { apply Forall_insert; [done|]. unfold is_byte. lia. }
    intros _. exists (9 + n)%nat. split; [lia|]. unfold bumped.
    rewrite length_insert, take_insert_ge, get_insert by lia. split_and!; [done|lia|done|lia].
Qed.

(** Version 7 and variant 10. *)
Definition version_7 (b : bytes) : Prop := Z.shiftr (get b 6) 4 = 7 ∧ Z.shiftr (get b 8) 6 = 2.

Lemma shiftr_range x k n : 0 <= k → Z.shiftr x k = n → n * 2 ^ k <= x < (n + 1) * 2 ^ k.
Proof.
  intros Hk. rewrite Z.shiftr_div_pow2 by done. intros <-.
  pose proof (Z.pow_pos_nonneg 2 k ltac:(lia) Hk). pose proof (Z.div_mod x (2 ^ k)).
  pose proof (Z.mod_pos_bound x (2 ^ k)). lia.
Qed.

(** The increment of the six variant bits and of the four version bits. *)
Lemma variant_increment x :
  Z.shiftr x 6 = 2 → Z.land x 63 ≠ 63 →
  let y := Z.lor 128 (Z.land x 63 + 1) in x < y ∧ is_byte y ∧ Z.shiftr y 6 = 2.
Proof.
  intros Hx Hne. pose proof (shiftr_range x 6 2 ltac:(lia) Hx) as Hr. simpl in Hr.
  pose proof (interval_check (λ x, (Z.land x 63 =? 63) || let y := Z.lor 128 (Z.land x 63 + 1) in
    (x <? y) && (0 <=? y) && (y <? 256) && (Z.shiftr y 6 =? 2)) 128 64 x
    ltac:(vm_compute; reflexivity) ltac:(lia)) as H. cbv beta zeta in H.
  rewrite (proj2 (Z.eqb_neq _ _) Hne) in H. cbn [orb] in H.
  rewrite !andb_true_iff, !Z.ltb_lt, Z.leb_le, Z.eqb_eq in H. cbv zeta. unfold is_byte. tauto.
Qed.

Lemma version_increment x :
  Z.shiftr x 4 = 7 → Z.land x 15 ≠ 15 →
  let y := Z.lor 112 (Z.land x 15 + 1) in x < y ∧ is_byte y ∧ Z.shiftr y 4 = 7.
Proof.
  intros Hx Hne. pose proof (shiftr_range x 4 7 ltac:(lia) Hx) as Hr. simpl in Hr.
  pose proof (interval_check (λ x, (Z.land x 15 =? 15) || let y := Z.lor 112 (Z.land x 15 + 1) in
    (x <? y) && (0 <=? y) && (y <? 256) && (Z.shiftr y 4 =? 7)) 112 16 x
    ltac:(vm_compute; reflexivity) ltac:(lia)) as H. cbv beta zeta in H.
  rewrite (proj2 (Z.eqb_neq _ _) Hne) in H. cbn [orb] in H.
  rewrite !andb_true_iff, !Z.ltb_lt, Z.leb_le, Z.eqb_eq in H. cbv zeta. unfold is_byte. tauto.
Qed.

Lemma storage_insert b i x : storage b → is_byte x → storage (<[i := x]> b).
Proof. intros [Hl Hb] Hx. split; [by rewrite length_insert|by apply Forall_insert]. Qed.

(** A write at [i] after the bytes behind it were reset. *)
Lemma bumped_insert b b1 i y :
  storage b → storage b1 → (i < 16)%nat → take (S i) b1 = take (S i) b → get b i < y →
  bumped b (<[i := y]> b1) i.
Proof.
  intros [Hl _] [Hl1 _] Hi Ht Hy. unfold bumped. rewrite length_insert, take_insert_ge, get_insert by lia.
  split_and!; [lia|lia| |done].
  assert (He : take i (take (S i) b1) = take i (take (S i) b)) by congruence.
  rewrite !take_take in He. by replace (i `min` S i)%nat with i in He by lia.
Qed.

Lemma take_insert_keep (b b1 : bytes) i j x :
  take j b1 = take j b → (j <= i)%nat → take j (<[i := x]> b1) = take j b.
Proof. intros Ht Hj. by rewrite take_insert_ge. Qed.

Lemma take_less (b b1 : bytes) i j : take j b1 = take j b → (i <= j)%nat → take i b1 = take i b.
Proof.
  intros Ht Hi. assert (He : take i (take j b1) = take i (take j b)) by congruence.
  rewrite !take_take in He. by replace (i `min` j)%nat with i in He by lia.
Qed.

Lemma increment_random_tail_spec b b' :
  storage b → version_7 b → increment_random_tail b = (true, b') →
  storage b' ∧ version_7 b' ∧ ∃ i, (6 <= i)%nat ∧ bumped b b' i.
Proof.
  intros Hs [H6 H8]. unfold increment_random_tail.
  pose proof (increment_bytes_spec b 7 Hs ltac:(lia)) as Hinc.
  destruct (increment_bytes b 7) as [found b1]. destruct Hinc as (Hs1 & Ht1 & Hf).
  assert (G : ∀ j, (j < 9)%nat → get b1 j = get b j) by (intros j Hj; by eapply get_take).
  destruct found.
  { intros [= <-]. destruct (Hf eq_refl) as (i & Hi & Hbump). split_and!; [done| |exists i; split; [lia|done]].
    unfold version_7. by rewrite !G by lia. }
  clear Hf. rewrite G by lia.
  destruct (Z.eqb_spec (Z.land (get b 8) 63) 63) as [_|Hne8]; cbn [negb].
  2: { intros [= <-]. destruct (variant_increment (get b 8) H8 Hne8) as (Hlt & Hby & Hv).
       split_and!; [by apply storage_insert| |exists 8%nat; split; [lia|by apply bumped_insert; [..|lia| |]]].
       unfold version_7. rewrite get_insert_ne, get_insert, G by (destruct Hs1; lia). done. }
  set (b2 := <[8%nat := 128]> b1).
  assert (Hs2 : storage b2) by (by apply storage_insert).
  assert (Ht2 : take 8 b2 = take 8 b).
  { apply take_insert_keep; [|lia]. apply (take_less _ _ _ 9); [done|lia]. }
  assert (V8 : get b2 8 = 128) by (apply get_insert; destruct Hs1; lia).
  assert (G2 : ∀ j, (j < 8)%nat → get b2 j = get b j) by (intros j Hj; by eapply get_take).
  rewrite G2 by lia. pose proof (get_byte b 7 (proj2 Hs)) as Hb7. unfold is_byte in Hb7.
  destruct (Z.eqb_spec (get b 7) 255) as [_|Hne7]; cbn [negb].
  2: { intros [= <-].
       split_and!; [apply storage_insert; [done|unfold is_byte; lia]| |
         exists 7%nat; split; [lia|apply bumped_insert; [done|done|lia|done|lia]]].
       unfold version_7. rewrite !get_insert_ne, V8, G2 by lia. done. }
  set (b3 := <[7%nat := 0]> b2).
  assert (Hs3 : storage b3) by (by apply storage_insert).
  assert (Ht3 : take 7 b3 = take 7 b).
  { apply take_insert_keep; [|lia]. apply (take_less _ _ _ 8); [done|lia]. }
  assert (G3 : get b3 6 = get b 6) by (eapply get_take; [done|lia]). rewrite G3.
  destruct (Z.eqb_spec (Z.land (get b 6) 15) 15) as [|Hne6]; cbn [negb]; [done|].
  intros [= <-]. destruct (version_increment (get b 6) H6 Hne6) as (Hlt & Hby & Hv).
  split_and!; [by apply storage_insert| |exists 6%nat; split; [lia|by apply bumped_insert; [..|lia| |]]].
  unfold version_7. rewrite get_insert, get_insert_ne by (destruct Hs3; lia).
  unfold b3. rewrite get_insert_ne, V8 by lia. done.
Qed.

(** ** The generator's invariant *)

Definition generator_ok (g : UuidV7Generator) : Prop :=
  has_last g = true →
  storage (last_uuid g) ∧ version_7 (last_uuid g) ∧ 0 <= last_timestamp_ms g <= kMaxTimestampMs ∧
  take 6 (last_uuid g) = timestamp_bytes (last_timestamp_ms g).

Lemma version_bits x :
  is_byte x → let y := Z.lor (Z.land x 15) 112 in is_byte y ∧ Z.shiftr y 4 = 7.
Proof.
  intros Hx. pose proof (interval_check (λ x, let y := Z.lor (Z.land x 15) 112 in
    (0 <=? y) && (y <? 256) && (Z.shiftr y 4 =? 7)) 0 256 x ltac:(vm_compute; reflexivity) Hx) as H.
  cbv beta zeta in H. rewrite !andb_true_iff, Z.ltb_lt, Z.leb_le, Z.eqb_eq in H.
  cbv zeta. unfold is_byte. tauto.
Qed.

Lemma variant_bits x :
  is_byte x → let y := Z.lor (Z.land x 63) 128 in is_byte y ∧ Z.shiftr y 6 = 2.
Proof.
  intros Hx. pose proof (interval_check (λ x, let y := Z.lor (Z.land x 63) 128 in
    (0 <=? y) && (y <? 256) && (Z.shiftr y 6 =? 2)) 0 256 x ltac:(vm_compute; reflexivity) Hx) as H.
  cbv beta zeta in H. rewrite !andb_true_iff, Z.ltb_lt, Z.leb_le, Z.eqb_eq in H.
  cbv zeta. unfold is_byte. tauto.
Qed.

Lemma fresh_uuid_ok random ts :
  storage random →
  let u := version_and_variant (set_timestamp random ts) in
  storage u ∧ version_7 u ∧ take 6 u = timestamp_bytes ts.
Proof.
  intros [Hl Hb]. set (b := set_timestamp random ts).
  assert (Hs : storage b).
  { split; [unfold b, set_timestamp; rewrite length_app, length_drop, Hl; done|].
    apply Forall_app. split; [apply timestamp_bytes_ok|by apply Forall_drop]. }
  assert (Ht : take 6 b = timestamp_bytes ts) by done.
  unfold version_and_variant. destruct (version_bits (get b 6) (get_byte b 6 (proj2 Hs))) as [Hy6 Hv6].
  set (b1 := <[6%nat := Z.lor (Z.land (get b 6) 15) 112]> b).
  assert (Hs1 : storage b1) by (by apply storage_insert).
  destruct (variant_bits (get b1 8) (get_byte b1 8 (proj2 Hs1))) as [Hy8 Hv8]. split_and!.
  - by apply storage_insert.
  - split; [|by rewrite get_insert by (destruct Hs1; lia)].
    rewrite get_insert_ne by lia. unfold b1. by rewrite get_insert by (destruct Hs; lia).
  - rewrite take_insert_ge by lia. unfold b1. by rewrite take_insert_ge by lia.
Qed.

Lemma timestamp_ms_range now ms : timestamp_ms now = success ms → 0 <= ms <= kMaxTimestampMs.
Proof.
  unfold timestamp_ms. destruct (Z.ltb_spec (Z.quot now 1000000) 0); [done|].
  destruct (Z.ltb_spec kMaxTimestampMs (Z.quot now 1000000)); [done|]. intros [= <-]. lia.
Qed.

Lemma generate_step now random g :
  generator_ok g → (∀ r, random = success r → storage r) →
  match generate now random g with
  | (failure _, g') => g' = g
  | (success u, g') =>
      generator_ok g' ∧ has_last g' = true ∧ last_uuid g' = u ∧ version_7 u ∧
      (has_last g = true → uuid_lt (last_uuid g) u = true)
  end.
Proof.
  intros Hok Hr. unfold generate. destruct (timestamp_ms now) as [ts|] eqn:Hts; [|done].
  apply timestamp_ms_range in Hts.
  destruct (negb (has_last g) || (last_timestamp_ms g <? ts)) eqn:Hnew.
  - destruct random as [r|]; [|done]. specialize (Hr r eq_refl).
    destruct (fresh_uuid_ok r ts Hr) as (Hs & Hv & Ht). split_and!; try done.
    intros Hlast. rewrite Hlast in Hnew. cbn [negb orb] in Hnew. rewrite Z.ltb_lt in Hnew.
    destruct (Hok Hlast) as (_ & _ & Hrange & Htake).
    rewrite <- (take_drop 6 (last_uuid g)), <- (take_drop 6 (version_and_variant _)), Htake, Ht.
    apply uuid_lt_prefix; [done|]. apply timestamp_bytes_lt; lia.
  - destruct (has_last g) eqn:Hlast; [|done]. destruct (Hok Hlast) as (Hs & Hv & Hrange & Htake).
    destruct (increment_random_tail (last_uuid g)) as [[] next] eqn:Hinc; [|done].
    destruct (increment_random_tail_spec _ _ Hs Hv Hinc) as (Hs' & Hv' & i & Hi & Hbump).
    split_and!; try done; [|intros _; by eapply bumped_lt].
    intros _. cbn [last_uuid last_timestamp_ms]. split_and!; try done; [lia..|].
    destruct Hbump as (_ & _ & Ht & _). rewrite <- Htake. by apply (take_less _ _ _ i).
Qed.

Lemma generate_all_after calls g :
  generator_ok g → (∀ now r, (now, success r) ∈ calls → storage r) →
  StronglySorted (λ a b, uuid_lt a b = true) (generate_all calls g) ∧
  Forall version_7 (generate_all calls g) ∧
  (has_last g = true → Forall (λ u, uuid_lt (last_uuid g) u = true) (generate_all calls g)).
Proof.
  revert g. induction calls as [|[now random] calls IH]; intros g Hok Hr; cbn [generate_all].
  { split_and!; constructor. }
  pose proof (generate_step now random g Hok) as Hstep.
  assert (Hr1 : ∀ r, random = success r → storage r).
  { intros r ->. apply (Hr now). apply elem_of_cons. by left. }
  assert (Hr2 : ∀ now r, (now, success r) ∈ calls → storage r).
  { intros n r Hin. apply (Hr n). apply elem_of_cons. by right. }
  specialize (Hstep Hr1). destruct (generate now random g) as [[u|] g'].
  - destruct Hstep as (Hok' & Hlast & Hu & Hv & Hlt). destruct (IH g' Hok' Hr2) as (Hs & Hf & Ha).
    specialize (Ha Hlast). rewrite Hu in Ha. split_and!; [by constructor..|].
    intros Hl. constructor; [by apply Hlt|]. eapply Forall_impl; [exact Ha|].
    intros x Hx. eapply uuid_lt_trans; [by apply Hlt|done].
  - subst g'. by apply IH.
Qed.

(** Whatever the clock reads, also when it stands still or runs
    backwards, and whatever the random source returns, the identifiers that a
    generator returns are strictly increasing and carry version 7 and the
    standard variant. *)
Theorem generator_strictly_increasing calls :
  (∀ now r, (now, success r) ∈ calls → storage r) →
  StronglySorted (λ a b, uuid_lt a b = true) (generate_all calls new_generator) ∧
  Forall version_7 (generate_all calls new_generator).
Proof. intros Hr. destruct (generate_all_after calls new_generator) as (? & ? & _); done. Qed.

(** ** Witnesses *)

Definition sample_uuid : bytes := [1; 149; 0; 255; 16; 32; 120; 1; 129; 2; 3; 4; 5; 6; 7; 171].

Lemma sample_uuid_storage : storage sample_uuid.
Proof. split; [done|]. repeat (constructor; [unfold is_byte; lia|]). constructor. Qed.

Lemma parse_to_string_witness : parse (to_string sample_uuid) = success sample_uuid.
Proof. apply (parse_to_string sample_uuid). exact sample_uuid_storage. Defined.

Lemma parse_sound_witness :
  storage sample_uuid ∧
  to_string sample_uuid = map ascii_lower bs!"019500FF-1020-7801-8102-0304050607ab".
Proof.
  apply (parse_sound bs!"019500FF-1020-7801-8102-0304050607ab" sample_uuid). vm_compute. reflexivity.
Defined.

(** Two readings of the same millisecond, an earlier one, and a failed random
    source. *)
Lemma generator_strictly_increasing_witness :
  let calls := [(5000000, success (replicate 16 255)); (5000001, success sample_uuid);
                (1000000, success sample_uuid); (9000000, failure sequence_exhausted);
                (9000000, success sample_uuid)] in
  StronglySorted (λ a b, uuid_lt a b = true) (generate_all calls new_generator) ∧
  Forall version_7 (generate_all calls new_generator).
Proof.
  intros calls. apply (generator_strictly_increasing calls). intros now r Hin.
  unfold calls in Hin. rewrite !elem_of_cons, elem_of_nil in Hin.
  destruct Hin as [[= _ ->]|[[= _ ->]|[[= _ ->]|[[=]|[[= _ ->]|[]]]]]]; try exact sample_uuid_storage.
  split; [reflexivity|]. cbn [replicate]. repeat (constructor; [unfold is_byte; lia|]). constructor.
Defined.
