(* ===== verification/Framing.v ===== *)
(** * Message framing: [src/rpc/framing.cpp]

    The LSP-style framing of the control protocol: the header grammar (Module
    [Header]) and the incremental [StreamFramer] (Module [Stream]). *)

From stdpp Require Import base numbers strings list.
From Stdlib Require Import Ascii.
From S2P Require Import Prelude.
Local Open Scope Z_scope.

Record FramingLimits := mkLimits { max_header_bytes : Z; max_body_bytes : Z }.

Inductive FramingFailure :=
  | HeaderTooLarge | InvalidHeader | MissingContentLength | DuplicateContentLength
  | InvalidContentLength | BodyTooLarge | UnsupportedContentType.

Definition make_framing_error (f : FramingFailure) : Error :=
  match f with
  | HeaderTooLarge => mkError ResourceExhausted "rpc.framing.header_too_large"
      "Framing header exceeds the configured limit" ""
  | InvalidHeader => mkError InvalidArgument "rpc.framing.invalid_header"
      "Framing header is invalid" ""
  | MissingContentLength => mkError InvalidArgument "rpc.framing.missing_content_length"
      "Framing header requires Content-Length" ""
  | DuplicateContentLength => mkError InvalidArgument "rpc.framing.duplicate_content_length"
      "Framing header contains duplicate Content-Length fields" ""
  | InvalidContentLength => mkError InvalidArgument "rpc.framing.invalid_content_length"
      "Framing Content-Length is invalid" ""
  | BodyTooLarge => mkError ResourceExhausted "rpc.framing.body_too_large"
      "Framing body exceeds the configured limit" ""
  | UnsupportedContentType => mkError Unsupported "rpc.framing.unsupported_content_type"
      "Framing Content-Type must specify UTF-8" ""
  end.

Module Header.

Definition CR : Z := 13.
Definition LF : Z := 10.

Definition is_ows (c : Z) : bool := (c =? 32) || (c =? 9).

Fixpoint trim_front (s : bytes) : bytes :=
  match s with c :: s' => if is_ows c then trim_front s' else s | [] => [] end.

Definition trim_ows (s : bytes) : bytes := rev (trim_front (rev (trim_front s))).

Definition token_punctuation : bytes := bs!"!#$%&'*+-.^_`|~".

Definition is_token_character (c : Z) : bool :=
  ascii_digit c || ascii_upper_alpha c || ascii_lower_alpha c || bool_decide (c ∈ token_punctuation).

Definition is_field_value_character (c : Z) : bool :=
  (c =? 9) || ((32 <=? c) && negb (c =? 127)).

Definition ascii_fold (c : Z) : Z := if ascii_upper_alpha c then c + 32 else c.

Fixpoint ascii_equal (lhs rhs : bytes) : bool :=
  match lhs, rhs with
  | [], [] => true
  | l :: lhs, r :: rhs => (ascii_fold l =? ascii_fold r) && ascii_equal lhs rhs
  | _, _ => false
  end.

(** One digit of the length; [None] on a non-digit and on overflow. *)
Definition length_digit (length byte : Z) : option Z :=
  if (byte <? #"0") || (#"9" <? byte) then None
  else
    let digit := byte - #"0" in
    if (size_max - digit) / 10 <? length then None else Some (length * 10 + digit).

Definition parse_content_length (s : bytes) : result Error Z :=
  let s := trim_ows s in
  if bool_decide (s = []) then failure (make_framing_error InvalidContentLength)
  else ok_or (fold_opt length_digit 0 s) (make_framing_error InvalidContentLength).

(** ** [ContentTypeParser]: the position is the suffix that remains *)

Inductive Status := Supported | Invalid | Unsupported_.

Definition skip_ows (s : bytes) : bytes := snd (span_while is_ows s).

Definition consume (expected : Z) (s : bytes) : option bytes :=
  match s with c :: s => if c =? expected then Some s else None | [] => None end.

Definition parse_token (s : bytes) : option (bytes * bytes) :=
  let '(token, rest) := span_while is_token_character s in
  if bool_decide (token = []) then None else Some (token, rest).

(** After the opening quote; [result] holds the characters so far. *)
Fixpoint parse_quoted (result s : bytes) : option (bytes * bytes) :=
  match s with
  | [] => None
  | c :: s =>
      if c =? 34 then Some (result, s)
      else if c =? 92 then
        match s with
        | [] => None
        | escaped :: s =>
            if is_field_value_character escaped then parse_quoted (result ++ [escaped]) s else None
        end
      else if is_field_value_character c then parse_quoted (result ++ [c]) s else None
  end.

Definition parse_parameter_value (s : bytes) : option (bytes * bytes) :=
  match s with
  | [] => None
  | c :: s' => if c =? 34 then parse_quoted [] s' else parse_token s
  end.

Definition parse_parameter (s : bytes) : option (bytes * bytes * bytes) :=
  s ← consume #";" s;
  '(name, s) ← parse_token (skip_ows s);
  s ← consume #"=" (skip_ows s);
  '(v, s) ← parse_parameter_value (skip_ows s);
  Some (name, v, s).

(** The parameter loop; every round consumes at least the semicolon. *)
Fixpoint parse_parameters (fuel : nat) (seen supported : bool) (s : bytes) : Status :=
  match s, fuel with
  | [], _ => if seen && supported then Supported else Unsupported_
  | _, O => Invalid
  | _, S fuel =>
      match parse_parameter s with
      | None => Invalid
      | Some (name, v, s) =>
          if ascii_equal name bs!"charset" then
            if seen then Unsupported_
            else parse_parameters fuel true (ascii_equal v bs!"utf-8" || ascii_equal v bs!"utf8")
                   (skip_ows s)
          else parse_parameters fuel seen supported (skip_ows s)
      end
  end.

Definition parse_content_type (s : bytes) : Status :=
  match ('(_, s) ← parse_token (trim_ows s); s ← consume #"/" s; parse_token s) with
  | None => Invalid
  | Some (_, s) => parse_parameters (length s) false false (skip_ows s)
  end.

(** ** Header fields *)

(** [s.find("\r\n")]. *)
Fixpoint find_crlf (s : bytes) : option nat :=
  match s with
  | c :: (d :: _) as s' => if (c =? CR) && (d =? LF) then Some O else S <$> find_crlf s'
  | _ => None
  end.

Record Fields := mkFields { content_length : option bytes; content_type : option bytes }.

Definition parse_line (line : bytes) (fields : Fields) : result Error Fields :=
  match find #":" line with
  | None | Some O => failure (make_framing_error InvalidHeader)
  | Some colon =>
      let name := take colon line in
      let v := drop (S colon) line in
      if negb (forallb is_token_character name) || negb (forallb is_field_value_character v)
      then failure (make_framing_error InvalidHeader)
      else if ascii_equal name bs!"Content-Length" then
        match content_length fields with
        | Some _ => failure (make_framing_error DuplicateContentLength)
        | None => success (mkFields (Some v) (content_type fields))
        end
      else if ascii_equal name bs!"Content-Type" then
        match content_type fields with
        | Some _ => failure (make_framing_error InvalidHeader)
        | None => success (mkFields (content_length fields) (Some v))
        end
      else success fields
  end.

(** The line loop; every round but the last consumes a line end. *)
Fixpoint parse_lines (fuel : nat) (remaining : bytes) (fields : Fields) : result Error Fields :=
  match remaining, fuel with
  | [], _ => success fields
  | _, O => failure (make_framing_error InvalidHeader)
  | _, S fuel =>
      let '(line, remaining) := match find_crlf remaining with
                                | None => (remaining, [])
                                | Some e => (take e remaining, drop (e + 2) remaining)
                                end in
      fields ← parse_line line fields;
      parse_lines fuel remaining fields
  end.

Definition parse_header (header : bytes) (limits : FramingLimits) : result Error Z :=
  let remaining := take (length header - 4) header in
  fields ← parse_lines (length remaining) remaining (mkFields None None);
  v ← ok_or (content_length fields) (make_framing_error MissingContentLength);
  parsed_length ← parse_content_length v;
  if max_body_bytes limits <? parsed_length then failure (make_framing_error BodyTooLarge)
  else
    match content_type fields with
    | None => success parsed_length
    | Some v =>
        match parse_content_type v with
        | Supported => success parsed_length
        | Invalid => failure (make_framing_error InvalidHeader)
        | Unsupported_ => failure (make_framing_error UnsupportedContentType)
        end
    end.

Definition terminator : bytes := [CR; LF; CR; LF].

Definition has_header_terminator (header : bytes) : bool :=
  (4 <=? length header)%nat && bytes_eqb (drop (length header - 4) header) terminator.

(** ** The fuel of the two loops is enough: any larger amount agrees *)

Lemma parse_lines_fuel n m remaining fields :
  (length remaining <= n)%nat → (n <= m)%nat →
  parse_lines n remaining fields = parse_lines m remaining fields.
Proof.
  revert m remaining fields. induction n as [|n IH]; intros m [|c r] fields Hn Hm; simpl in Hn; try lia.
  { by destruct m. }
  { by destruct m. }
  destruct m as [|m]; [lia|]. cbn [parse_lines].
  destruct (find_crlf (c :: r)) as [e|].
  - destruct (parse_line _ fields); [|done]. apply IH; [rewrite length_drop; simpl; lia|lia].
  - destruct (parse_line _ fields); [|done]. apply IH; simpl; lia.
Qed.

Lemma span_while_length p s : (length (snd (span_while p s)) <= length s)%nat.
Proof.
  destruct (span_while p s) as [w r] eqn:H. apply span_while_app in H as [-> _].
  rewrite length_app. simpl. lia.
Qed.

Lemma consume_length c s s' : consume c s = Some s' → (length s' < length s)%nat.
Proof. destruct s as [|d s]; simpl; [done|]. case_match; [|done]. intros [= ->]. lia. Qed.

Lemma parse_token_length s t r : parse_token s = Some (t, r) → (length r <= length s)%nat.
Proof.
  unfold parse_token. pose proof (span_while_length is_token_character s) as Hl.
  destruct (span_while _ s) as [w r']. case_bool_decide; [done|]. by intros [= <- <-].
Qed.

Lemma parse_quoted_length n s acc v r :
  (length s <= n)%nat → parse_quoted acc s = Some (v, r) → (length r <= length s)%nat.
Proof.
  revert s acc. induction n as [|n IH]; intros [|c s] acc Hn; simpl in *; try done; [lia|].
  destruct (c =? 34); [intros [= <- <-]; lia|]. destruct (c =? 92).
  - destruct s as [|d s]; [done|]. destruct (is_field_value_character d); [|done]. simpl in *.
    intros H%IH; lia.
  - destruct (is_field_value_character c); [|done]. intros H%IH; lia.
Qed.

Lemma parse_parameter_length s name v r :
  parse_parameter s = Some (name, v, r) → (length r < length s)%nat.
Proof.
  unfold parse_parameter. destruct (consume 59 s) as [s1|] eqn:H1; [|done]. cbn [mbind option_bind].
  apply consume_length in H1. pose proof (span_while_length is_ows s1) as Hs1. fold (skip_ows s1) in Hs1.
  destruct (parse_token (skip_ows s1)) as [[t s2]|] eqn:H2; [|done]. cbn [mbind option_bind].
  apply parse_token_length in H2. pose proof (span_while_length is_ows s2) as Hs2. fold (skip_ows s2) in Hs2.
  destruct (consume 61 (skip_ows s2)) as [s3|] eqn:H3; [|done]. cbn [mbind option_bind].
  apply consume_length in H3. pose proof (span_while_length is_ows s3) as Hs3. fold (skip_ows s3) in Hs3.
  destruct (parse_parameter_value (skip_ows s3)) as [[w s4]|] eqn:H4; [|done]. cbn [mbind option_bind].
  intros [= <- <- <-]. assert (Hv : (length s4 <= length (skip_ows s3))%nat); [|lia].
  unfold parse_parameter_value in H4. destruct (skip_ows s3) as [|c s5]; [done|].
  destruct (c =? 34); [|by eapply parse_token_length].
  apply (parse_quoted_length (length s5)) in H4; simpl; lia.
Qed.

Lemma parse_parameters_fuel n m seen supported s :
  (length s <= n)%nat → (n <= m)%nat →
  parse_parameters n seen supported s = parse_parameters m seen supported s.
Proof.
  revert m seen supported s.
  induction n as [|n IH]; intros m seen supported [|c s] Hn Hm; cbn [length] in Hn; try lia.
  { by destruct m. }
  { by destruct m. }
  destruct m as [|m]; [lia|]. cbn [parse_parameters].
  destruct (parse_parameter (c :: s)) as [[[name v] r]|] eqn:Hp; [|done].
  apply parse_parameter_length in Hp. pose proof (span_while_length is_ows r) as Hr. fold (skip_ows r) in Hr.
  cbn [length] in Hp. destruct (ascii_equal name _); [destruct seen; [done|]|]; apply IH; lia.
Qed.

End Header.

Module Stream.
Import Header.

Inductive State := Header_ | Body_.

Record StreamFramer := mkFramer {
  limits : FramingLimits; state : State; header : bytes; body : bytes;
  expected_body_bytes : Z; poisoned : option Error }.

Definition new_framer (limits : FramingLimits) : StreamFramer := mkFramer limits Header_ [] [] 0 None.

Definition poison (f : StreamFramer) (e : Error) : result Error (list bytes) * StreamFramer :=
  (failure e, mkFramer (limits f) Header_ [] [] 0 (Some e)).

Definition reset (f : StreamFramer) : StreamFramer := mkFramer (limits f) Header_ [] [] 0 None.

Definition buffered_bytes (f : StreamFramer) : Z :=
  Z.of_nat (length (header f)) + Z.of_nat (length (body f)).

(** A carriage return must be followed by a line feed, and only there. *)
Definition bad_line_end (header : bytes) (c : Z) : bool :=
  let after_cr := bool_decide (last header = Some CR) in
  (after_cr && negb (c =? LF)) || ((c =? LF) && negb after_cr).

(** The [while (!bytes.empty())] loop; every round consumes a byte. *)
Fixpoint append_loop (fuel : nat) (f : StreamFramer) (messages : list bytes) (bytes : bytes)
    : option (result Error (list (list Z)) * StreamFramer) :=
  match bytes, fuel with
  | [], _ => Some (success messages, f)
  | _, O => None
  | character :: rest, S fuel =>
      match state f with
      | Header_ =>
          if max_header_bytes (limits f) <=? Z.of_nat (length (header f))
          then Some (poison f (make_framing_error HeaderTooLarge))
          else if bad_line_end (header f) character
          then Some (poison f (make_framing_error InvalidHeader))
          else
            let header := header f ++ [character] in
            if negb (has_header_terminator header)
            then append_loop fuel (mkFramer (limits f) Header_ header (body f)
                                     (expected_body_bytes f) None) messages rest
            else
              match parse_header header (limits f) with
              | failure e => Some (poison f e)
              | success length =>
                  if length =? 0
                  then append_loop fuel (mkFramer (limits f) Header_ [] (body f) length None)
                         (messages ++ [[]]) rest
                  else append_loop fuel (mkFramer (limits f) Body_ [] (body f) length None)
                         messages rest
              end
      | Body_ =>
          let remaining := expected_body_bytes f - Z.of_nat (length (body f)) in
          let count := Z.to_nat (Z.min remaining (Z.of_nat (length bytes))) in
          let body := body f ++ take count bytes in
          let bytes := drop count bytes in
          if negb (Z.of_nat (length body) =? expected_body_bytes f)
          then append_loop fuel (mkFramer (limits f) Body_ (header f) body
                                   (expected_body_bytes f) None) messages bytes
          else append_loop fuel (mkFramer (limits f) Header_ (header f) [] 0 None)
                 (messages ++ [body]) bytes
      end
  end.

Definition append (f : StreamFramer) (bytes : bytes) : result Error (list (list Z)) * StreamFramer :=
  match poisoned f with
  | Some e => (failure e, f)
  | None => default (poison f (make_framing_error InvalidHeader)) (append_loop (length bytes) f [] bytes)
  end.

Definition frame_message (body : bytes) (limits : FramingLimits) : result Error bytes :=
  if max_body_bytes limits <? Z.of_nat (length body) then failure (make_framing_error BodyTooLarge)
  else
    let header := bs!"Content-Length: " ++ decimal (Z.of_nat (length body)) ++ terminator in
    if max_header_bytes limits <? Z.of_nat (length header)
    then failure (make_framing_error HeaderTooLarge)
    else success (header ++ body).

(** ** A reference automaton that consumes single bytes *)

Definition step (f : StreamFramer) (c : Z) : result Error (list (list Z)) * StreamFramer :=
  match state f with
  | Header_ =>
      if max_header_bytes (limits f) <=? Z.of_nat (length (header f))
      then poison f (make_framing_error HeaderTooLarge)
      else if bad_line_end (header f) c then poison f (make_framing_error InvalidHeader)
      else
        let h := header f ++ [c] in
        if negb (has_header_terminator h)
        then (success [], mkFramer (limits f) Header_ h (body f) (expected_body_bytes f) None)
        else
          match parse_header h (limits f) with
          | failure e => poison f e
          | success n =>
              if n =? 0 then (success [[]], mkFramer (limits f) Header_ [] (body f) n None)
              else (success [], mkFramer (limits f) Body_ [] (body f) n None)
          end
  | Body_ =>
      let b := body f ++ [c] in
      if Z.of_nat (length b) =? expected_body_bytes f
      then (success [b], mkFramer (limits f) Header_ (header f) [] 0 None)
      else (success [], mkFramer (limits f) Body_ (header f) b (expected_body_bytes f) None)
  end.

Definition and_then (r : result Error (list (list Z)) * StreamFramer)
    (k : StreamFramer → result Error (list (list Z)) * StreamFramer)
    : result Error (list (list Z)) * StreamFramer :=
  match r with
  | (failure e, f) => (failure e, f)
  | (success ms, f) =>
      match k f with
      | (failure e, f) => (failure e, f)
      | (success ms', f) => (success (ms ++ ms'), f)
      end
  end.

Fixpoint feed (f : StreamFramer) (l : bytes) : result Error (list (list Z)) * StreamFramer :=
  match l with
  | [] => (success [], f)
  | c :: l => and_then (step f c) (λ f, feed f l)
  end.

Lemma and_then_assoc r k k' : and_then (and_then r k) k' = and_then r (λ f, and_then (k f) k').
Proof.
  destruct r as [[ms|e] f]; simpl; [|done]. destruct (k f) as [[ms'|e] f']; simpl; [|done].
  destruct (k' f') as [[ms''|e] f'']; [|done]. by rewrite app_assoc.
Qed.

Lemma and_then_nil f k : and_then (success [], f) k = k f.
Proof. simpl. by destruct (k f) as [[]]. Qed.

Lemma feed_app f l r : feed f (l ++ r) = and_then (feed f l) (λ f, feed f r).
Proof.
  revert f. induction l as [|c l IH]; intros f; cbn [app feed]; [by rewrite and_then_nil|].
  rewrite and_then_assoc. destruct (step f c) as [[ms|e] f']; cbn [and_then]; [|done].
  by rewrite IH.
Qed.

(** ** Invariant *)

Definition limits_ok (l : FramingLimits) : Prop := 0 <= max_header_bytes l ∧ 0 <= max_body_bytes l.

(** One of the two buffers is in use, within its limit, and a body that is
    being read is incomplete. *)
Definition framer_ok (f : StreamFramer) : Prop :=
  limits_ok (limits f) ∧
  match poisoned f, state f with
  | Some _, _ => header f = [] ∧ body f = [] ∧ state f = Header_
  | None, Header_ => body f = [] ∧ Z.of_nat (length (header f)) <= max_header_bytes (limits f)
  | None, Body_ =>
      header f = [] ∧ Z.of_nat (length (body f)) < expected_body_bytes f <= max_body_bytes (limits f)
  end.

Lemma length_digit_nonneg n c n' : 0 <= n → length_digit n c = Some n' → 0 <= n' <= size_max.
Proof.
  unfold length_digit, size_max, uint64_max. intros Hn. destruct (Z.ltb_spec c 48); [done|].
  destruct (Z.ltb_spec 57 c); [done|]. cbn [orb].
  destruct (Z.ltb_spec ((2 ^ 64 - 1 - (c - 48)) / 10) n); [done|]. intros [= <-]. dlia.
Qed.

Lemma length_digits_range l a n :
  0 <= a <= size_max → fold_opt length_digit a l = Some n → 0 <= n <= size_max.
Proof.
  revert a. induction l as [|c l IH]; intros a Ha; simpl; [by intros [= <-]|].
  destruct (length_digit a c) as [a'|] eqn:Hd; [|done]. simpl. apply IH.
  eapply length_digit_nonneg; [|exact Hd]. lia.
Qed.

Lemma parse_content_length_range s n : parse_content_length s = success n → 0 <= n <= size_max.
Proof.
  unfold parse_content_length. case_bool_decide; [done|].
  destruct (fold_opt length_digit 0 (trim_ows s)) as [m|] eqn:Hm; [|done]. intros [= <-].
  eapply length_digits_range, Hm. unfold size_max, uint64_max. lia.
Qed.

Lemma parse_header_range h l n : parse_header h l = success n → 0 <= n <= max_body_bytes l.
Proof.
  unfold parse_header. destruct (parse_lines _ _ _) as [fields|]; [|done]. cbn [mbind result_bind].
  destruct (content_length fields) as [v|]; [|done]. cbn [mbind result_bind ok_or].
  destruct (parse_content_length v) as [m|] eqn:Hm; [|done]. cbn [mbind result_bind].
  apply parse_content_length_range in Hm. destruct (Z.ltb_spec (max_body_bytes l) m); [done|].
  repeat case_match; intros; simplify_eq; lia.
Qed.

Lemma poison_ok f e : framer_ok f → framer_ok (snd (poison f e)) ∧ poisoned (snd (poison f e)) = Some e.
Proof. intros [Hl _]. done. Qed.

(** One byte keeps the invariant; a failure poisons with its error. *)
Lemma step_ok f c :
  framer_ok f → poisoned f = None →
  framer_ok (snd (step f c)) ∧
  match fst (step f c) with
  | success _ => poisoned (snd (step f c)) = None
  | failure e => poisoned (snd (step f c)) = Some e
  end ∧ limits (snd (step f c)) = limits f.
Proof.
  intros Hok Hp. pose proof Hok as [Hl Hf]. rewrite Hp in Hf. unfold step.
  destruct (state f) eqn:Hs.
  - destruct Hf as [Hb Hh].
    destruct (Z.leb_spec (max_header_bytes (limits f)) (Z.of_nat (length (header f)))); [done|].
    destruct (bad_line_end _ _); [done|]. destruct (has_header_terminator _) eqn:Ht; cbn [negb].
    + destruct (parse_header _ _) as [n|e] eqn:Hn; [|done]. apply parse_header_range in Hn.
      destruct (Z.eqb_spec n 0); unfold framer_ok; cbn; rewrite Hb; split_and!; try done;
        unfold limits_ok in Hl; simpl; lia.
    + unfold framer_ok; cbn. split_and!; try done. rewrite length_app. simpl. lia.
  - destruct Hf as [Hh Hb]. destruct (Z.eqb_spec (Z.of_nat (length (body f ++ [c]))) (expected_body_bytes f)) as [|Hne].
    + unfold framer_ok; cbn. rewrite Hh. split_and!; try done. unfold limits_ok in Hl. simpl. lia.
    + unfold framer_ok; cbn. rewrite length_app in *. simpl in *. split_and!; try done; lia.
Qed.

Lemma feed_ok f l :
  framer_ok f → poisoned f = None →
  framer_ok (snd (feed f l)) ∧
  match fst (feed f l) with
  | success _ => poisoned (snd (feed f l)) = None
  | failure e => poisoned (snd (feed f l)) = Some e
  end ∧ limits (snd (feed f l)) = limits f.
Proof.
  revert f. induction l as [|c l IH]; intros f Hok Hp; [done|]. cbn [feed].
  destruct (step_ok f c Hok Hp) as (Hok1 & Hp1 & Hl1).
  destruct (step f c) as [[ms|e] f1]; cbn [fst snd and_then] in *; [|done].
  destruct (IH f1 Hok1 Hp1) as (Hok2 & Hp2 & Hl2). rewrite Hl1 in Hl2.
  destruct (feed f1 l) as [[ms'|e] f2]; done.
Qed.

(** ** The loop equals the automaton *)

Lemma feed_body chunk f rest :
  state f = Body_ → chunk ≠ [] →
  Z.of_nat (length (body f)) + Z.of_nat (length chunk) <= expected_body_bytes f →
  feed f (chunk ++ rest) =
    let b := body f ++ chunk in
    if Z.of_nat (length b) =? expected_body_bytes f
    then and_then (success [b], mkFramer (limits f) Header_ (header f) [] 0 None) (λ f, feed f rest)
    else feed (mkFramer (limits f) Body_ (header f) b (expected_body_bytes f) None) rest.
Proof.
  revert f. induction chunk as [|c chunk IH]; intros f Hs Hne Hle; [done|].
  cbn [app feed]. unfold step. rewrite Hs. cbv zeta.
  destruct chunk as [|d chunk].
  - cbn [app]. destruct (Z.of_nat (length (body f ++ [c])) =? expected_body_bytes f); [done|].
    by rewrite and_then_nil.
  - rewrite (proj2 (Z.eqb_neq (Z.of_nat (length (body f ++ [c]))) _))
      by (rewrite length_app; simpl in *; lia).
    rewrite and_then_nil, IH; cbn [state body header limits expected_body_bytes]; try done.
    + cbv zeta. by rewrite <- !app_assoc.
    + rewrite length_app. simpl in *. lia.
Qed.

Lemma append_loop_feed fuel f ms l :
  framer_ok f → poisoned f = None → (length l <= fuel)%nat →
  append_loop fuel f ms l = Some (and_then (success ms, f) (λ f, feed f l)).
Proof.
  revert f ms l. induction fuel as [|fuel IH]; intros f ms [|c l] Hok Hp Hlen; cbn [append_loop].
  - simpl. by rewrite app_nil_r.
  - simpl in Hlen. lia.
  - simpl. by rewrite app_nil_r.
  - pose proof (step_ok f c Hok Hp) as (Hok1 & Hp1 & _). cbn [length] in Hlen.
    destruct (state f) eqn:Hs.
    + cbn [and_then feed]. unfold step in *. rewrite Hs in *.
      destruct (max_header_bytes (limits f) <=? _); [done|]. destruct (bad_line_end _ _); [done|].
      cbv zeta in *. destruct (negb (has_header_terminator _)).
      { rewrite IH by (done || lia). by rewrite and_then_nil. }
      destruct (parse_header _ _) as [n|]; [|done].
      destruct (n =? 0); rewrite IH by (done || lia); [|by rewrite and_then_nil].
      cbn [and_then]. destruct (feed _ l) as [[]]; [|done]. by rewrite <- app_assoc.
    + pose proof Hok as [_ Hb]. rewrite Hp, Hs in Hb. destruct Hb as [Hh Hb].
      set (count := Z.to_nat (Z.min (expected_body_bytes f - Z.of_nat (length (body f)))
                                    (Z.of_nat (length (c :: l))))).
      assert (Hcount : (1 <= count <= length (c :: l))%nat ∧
        Z.of_nat count <= expected_body_bytes f - Z.of_nat (length (body f))).
      { unfold count. simpl length. lia. }
      assert (Hsplit : feed f (c :: l) = feed f (take count (c :: l) ++ drop count (c :: l)))
        by (by rewrite take_drop).
      cbn [and_then]. rewrite Hsplit. clear Hsplit.
      assert (Hne : take count (c :: l) ≠ []).
      { intros He%(f_equal length). rewrite length_take in He. simpl in *. lia. }
      assert (Hlt : length (take count (c :: l)) = count) by (rewrite length_take; lia).
      rewrite feed_body by (done || lia). cbv zeta.
      set (b := body f ++ take count (c :: l)).
      assert (Hlb : Z.of_nat (length b) <= expected_body_bytes f)
        by (unfold b; rewrite length_app; lia).
      assert (Hd : (length (drop count (c :: l)) <= fuel)%nat) by (rewrite length_drop; simpl; lia).
      destruct Hok as [Hlim _].
      destruct (Z.eqb_spec (Z.of_nat (length b)) (expected_body_bytes f)) as [He|Hn]; cbn [negb].
      * rewrite IH; [|unfold framer_ok; cbn; rewrite Hh; unfold limits_ok in *; split_and!; (done || simpl; lia)|done|done].
        cbn [and_then]. destruct (feed _ _) as [[]]; [|done]. by rewrite <- app_assoc.
      * rewrite IH; [|unfold framer_ok; cbn; split_and!; try done; lia|done|done]. done.
Qed.

Lemma append_feed f l : framer_ok f → poisoned f = None → append f l = feed f l.
Proof.
  intros Hok Hp. unfold append. rewrite Hp, append_loop_feed by done. simpl.
  by destruct (feed f l) as [[]].
Qed.

(** ** Reading what [frame_message] writes *)

Definition plain (c : Z) : Prop := c ≠ CR ∧ c ≠ LF.

Lemma terminator_last h : has_header_terminator h = true → ∃ p, h = p ++ terminator.
Proof.
  unfold has_header_terminator, bytes_eqb. rewrite andb_true_iff, bool_decide_eq_true.
  intros [_ He]. exists (take (length h - 4) h). by rewrite <- He, take_drop.
Qed.

Lemma terminator_false h c : c ≠ LF → has_header_terminator (h ++ [c]) = false.
Proof.
  intros Hc. destruct (has_header_terminator _) eqn:H; [|done].
  apply terminator_last in H as [p Hp]. change terminator with ([CR; LF; CR] ++ [LF]) in Hp.
  rewrite app_assoc in Hp. by apply app_inj_tail in Hp as [_ ?].
Qed.

Lemma terminator_true h : has_header_terminator (h ++ terminator) = true.
Proof.
  unfold has_header_terminator, bytes_eqb. rewrite length_app.
  replace (length h + length terminator - 4)%nat with (length h) by (simpl; lia).
  rewrite drop_app_length, andb_true_iff, bool_decide_eq_true. split; [|done].
  apply Nat.leb_le. simpl. lia.
Qed.

(** The framer while it collects the header [h]. *)
Definition collecting (l : FramingLimits) (h : bytes) : StreamFramer := mkFramer l Header_ h [] 0 None.

Lemma step_collect l h c :
  Z.of_nat (length h) < max_header_bytes l → bad_line_end h c = false →
  has_header_terminator (h ++ [c]) = false → step (collecting l h) c = (success [], collecting l (h ++ [c])).
Proof.
  intros Hlen Hb Ht. unfold step, collecting. cbn [state limits header body expected_body_bytes].
  by rewrite (proj2 (Z.leb_gt _ _) Hlen), Hb, Ht.
Qed.

Lemma plain_line_end h c : last h ≠ Some CR → c ≠ LF → bad_line_end h c = false.
Proof.
  intros Hl Hc. unfold bad_line_end. rewrite bool_decide_false by done.
  by rewrite (proj2 (Z.eqb_neq c LF) Hc).
Qed.

Lemma feed_collect l h s rest :
  Forall plain s → last h ≠ Some CR → Z.of_nat (length h + length s) <= max_header_bytes l →
  feed (collecting l h) (s ++ rest) = feed (collecting l (h ++ s)) rest ∧ last (h ++ s) ≠ Some CR.
Proof.
  intros Hs. revert h. induction Hs as [|c s [Hcr Hlf] Hs IH]; intros h Hl Hlen.
  { by rewrite app_nil_r. }
  cbn [app feed]. simpl length in Hlen. rewrite step_collect, and_then_nil;
    [|lia|by apply plain_line_end|by apply terminator_false].
  destruct (IH (h ++ [c])) as [-> Hl'].
  - rewrite last_snoc. congruence.
  - rewrite length_app. simpl. lia.
  - rewrite <- app_assoc in Hl' |- *. split; [done|exact Hl'].
Qed.

(** The whole header, up to the byte that completes it. *)
Lemma feed_header l h rest :
  Forall plain h → h ≠ [] → Z.of_nat (length h + 4) <= max_header_bytes l →
  feed (collecting l []) (h ++ terminator ++ rest) =
    and_then (step (collecting l (h ++ [CR; LF; CR])) LF) (λ f, feed f rest).
Proof.
  intros Hp Hne Hlen. destruct (feed_collect l [] h (terminator ++ rest) Hp) as [-> Hl]; [done|simpl; lia|].
  cbn [app] in *. unfold terminator. cbn [app feed].
  rewrite step_collect, and_then_nil; [|lia|by apply plain_line_end|by apply terminator_false].
  rewrite step_collect, and_then_nil.
  - rewrite <- app_assoc. cbn [app]. rewrite step_collect, and_then_nil.
    + by rewrite <- app_assoc.
    + rewrite length_app. simpl. lia.
    + apply plain_line_end; [|done]. change (h ++ [CR; LF]) with (h ++ [CR] ++ [LF]).
      rewrite app_assoc, last_snoc. done.
    + by apply terminator_false.
  - rewrite length_app. simpl. lia.
  - unfold bad_line_end. rewrite last_snoc. done.
  - destruct (has_header_terminator _) eqn:H; [|done].
    apply terminator_last in H as [p Hp']. rewrite <- app_assoc in Hp'.
    change terminator with ([CR; LF] ++ [CR; LF]) in Hp'. rewrite (app_assoc p) in Hp'.
    apply app_inj_2 in Hp' as [Hh _]; [|done]. subst h.
    apply Forall_app in Hp as [_ Hp]. by inversion Hp as [|? ? [? _]].
Qed.

Lemma length_digits_value s :
  forallb ascii_digit s = true → digits_value s <= size_max → fold_opt length_digit 0 s = Some (digits_value s).
Proof.
  induction s as [|c s IH] using rev_ind; [done|].
  rewrite forallb_app, andb_true_iff, digits_value_app. intros [Hs Hc] Hle. simpl in Hc.
  rewrite andb_true_r in Hc. unfold ascii_digit in Hc. rewrite andb_true_iff, !Z.leb_le in Hc.
  change (digits_value [c]) with (0 * 10 + (c - 48)) in *. simpl length in *.
  change (10 ^ Z.of_nat 1) with 10 in *. pose proof (digits_value_nonneg s Hs).
  rewrite fold_opt_app, IH by (done || lia). cbn [mbind option_bind fold_opt]. unfold length_digit.
  rewrite (proj2 (Z.ltb_ge c 48)), (proj2 (Z.ltb_ge 57 c)) by lia. cbn [orb].
  rewrite (proj2 (Z.ltb_ge _ _)) by (unfold size_max, uint64_max in *; dlia). simpl. f_equal.
Qed.

Lemma trim_ows_front_id s c : head s = Some c → is_ows c = false → trim_front s = s.
Proof. destruct s as [|d s]; [done|]. simpl. by intros [= ->] ->. Qed.

Lemma digit_not_ows c : ascii_digit c = true → is_ows c = false.
Proof.
  unfold ascii_digit, is_ows. rewrite andb_true_iff, !Z.leb_le. intros ?.
  by rewrite !(proj2 (Z.eqb_neq _ _)) by lia.
Qed.

Lemma trim_digits s : forallb ascii_digit s = true → trim_ows (32 :: s) = s.
Proof.
  intros Hs. unfold trim_ows. cbn [trim_front]. simpl (is_ows 32). cbv iota.
  assert (Ht : ∀ l, forallb ascii_digit l = true → trim_front l = l).
  { intros [|c l]; [done|]. simpl. rewrite andb_true_iff. intros [Hc _].
    by rewrite digit_not_ows. }
  rewrite (Ht s Hs), Ht; [by rewrite rev_involutive|].
  rewrite forallb_forall in *. intros x Hx. apply Hs. by apply in_rev.
Qed.

Lemma digit_classes c :
  ascii_digit c = true → plain c ∧ is_field_value_character c = true.
Proof.
  unfold ascii_digit, plain, CR, LF, is_field_value_character. rewrite andb_true_iff, !Z.leb_le. intros ?.
  split; [lia|]. rewrite (proj2 (Z.leb_le 32 c)), (proj2 (Z.eqb_neq c 127)) by lia.
  by rewrite orb_true_r.
Qed.

Lemma find_crlf_plain s : Forall plain s → find_crlf s = None.
Proof.
  induction 1 as [|c s [Hcr _] Hs IH]; [done|]. destruct s as [|d s]; [done|].
  cbn [find_crlf]. rewrite (proj2 (Z.eqb_neq c CR) Hcr). cbn [andb].
  change ((S <$> find_crlf (d :: s)) = None). by rewrite IH.
Qed.

Definition length_header (n : Z) : bytes := bs!"Content-Length: " ++ decimal n.

Lemma length_header_plain n : 0 <= n → Forall plain (length_header n).
Proof.
  intros Hn. destruct (decimal_spec n Hn) as (_ & Hd & _). apply Forall_app. split.
  - repeat (constructor; [split; done|]). constructor.
  - apply Forall_forall. intros c Hc%list_elem_of_In. rewrite forallb_forall in Hd.
    by apply digit_classes, Hd.
Qed.

Lemma parse_line_length n fields :
  0 <= n → content_length fields = None →
  parse_line (length_header n) fields = success (mkFields (Some (32 :: decimal n)) (content_type fields)).
Proof.
  intros Hn Hnone. destruct (decimal_spec n Hn) as (_ & Hd & _). unfold parse_line.
  assert (Hf : find 58 (length_header n) = Some 14%nat) by done. rewrite Hf.
  change (take 14 (length_header n)) with (bs!"Content-Length").
  change (drop 15 (length_header n)) with (32 :: decimal n).
  assert (Hv : forallb is_field_value_character (32 :: decimal n) = true).
  { cbn [forallb]. rewrite andb_true_iff. split; [done|]. rewrite forallb_forall in *.
    intros c Hc. by apply digit_classes, Hd. }
  rewrite Hv. cbn [negb orb].
  change (forallb is_token_character bs!"Content-Length") with true. cbn [negb orb].
  change (ascii_equal bs!"Content-Length" bs!"Content-Length") with true. by rewrite Hnone.
Qed.

Lemma parse_header_length n l :
  0 <= n <= size_max → n <= max_body_bytes l →
  parse_header (length_header n ++ terminator) l = success n.
Proof.
  intros Hn Hmax. unfold parse_header. rewrite length_app.
  replace (length (length_header n) + length terminator - 4)%nat with (length (length_header n)) by (simpl; lia).
  rewrite take_app_length. set (h := length_header n).
  assert (Hlines : parse_lines (length h) h (mkFields None None) =
                   success (mkFields (Some (32 :: decimal n)) None)).
  { change (length h) with (S (length (tail h))). change h with (67 :: tail h) at 2. cbn [parse_lines].
    change (67 :: tail h) with h. rewrite find_crlf_plain by (apply length_header_plain; lia).
    unfold h. rewrite parse_line_length by (done || lia). by destruct (length _). }
  rewrite Hlines. cbn [mbind result_bind ok_or content_length content_type].
  destruct (decimal_spec n) as (Hv & Hd & Hne); [lia|].
  unfold parse_content_length. rewrite trim_digits by done. rewrite bool_decide_false by done.
  rewrite length_digits_value by (done || lia). rewrite Hv. cbn [mbind result_bind ok_or].
  by rewrite (proj2 (Z.ltb_ge _ _) Hmax).
Qed.

Lemma feed_frame l b frame rest :
  max_body_bytes l <= size_max → frame_message b l = success frame →
  feed (new_framer l) (frame ++ rest) = and_then (success [b], new_framer l) (λ f, feed f rest).
Proof.
  intros Hmax. unfold frame_message.
  destruct (Z.ltb_spec (max_body_bytes l) (Z.of_nat (length b))); [done|].
  set (n := Z.of_nat (length b)) in *. cbv zeta. assert (Hn : 0 <= n) by (unfold n; lia).
  replace (bs!"Content-Length: " ++ decimal n ++ terminator) with (length_header n ++ terminator)
    by (unfold length_header; by rewrite <- app_assoc).
  destruct (Z.ltb_spec (max_header_bytes l) (Z.of_nat (length (length_header n ++ terminator)))); [done|].
  intros Hframe. assert (frame = (length_header n ++ terminator) ++ b) as -> by congruence. clear Hframe.
  rewrite length_app in *. simpl (length terminator) in *.
  rewrite <- !app_assoc. change (new_framer l) with (collecting l []).
  rewrite feed_header; [|by apply length_header_plain|done|lia].
  assert (Hstep : step (collecting l (length_header n ++ [CR; LF; CR])) LF =
    if n =? 0 then (success [[]], new_framer l) else (success [], mkFramer l Body_ [] [] n None)).
  { unfold step, collecting. cbn [state limits header body expected_body_bytes].
    rewrite <- app_assoc. change ([CR; LF; CR] ++ [LF]) with terminator.
    rewrite terminator_true, parse_header_length by lia. cbn [negb].
    rewrite (proj2 (Z.leb_gt _ _)) by (rewrite length_app; change (length [CR; LF; CR]) with 3%nat; lia).
    assert (Hb : bad_line_end (length_header n ++ [CR; LF; CR]) LF = false).
    { unfold bad_line_end. change [CR; LF; CR] with ([CR; LF] ++ [CR]). by rewrite app_assoc, last_snoc. }
    rewrite Hb. destruct (Z.eqb_spec n 0) as [->|]; done. }
  rewrite Hstep. destruct (Z.eqb_spec n 0) as [Hn0|Hn0].
  - destruct b; [done|]. simpl in *. lia.
  - rewrite and_then_nil, feed_body; [|done|destruct b; done|cbn; lia].
    cbn [body expected_body_bytes app limits header]. by rewrite Z.eqb_refl.
Qed.

(** ** Theorems *)

(** How the stream is cut into fragments does not matter: for every
    reachable framer, appending [a] and then [b] returns the same messages in
    the same order, the same first error and the same state as appending
    [a ++ b] at once.  The chunk-wise copying of bodies and the loop's early
    returns are therefore equivalent to consuming single bytes. *)
Theorem append_fragments f a b :
  framer_ok f →
  append f (a ++ b) =
    match append f a with
    | (failure e, f1) => (failure e, f1)
    | (success ms, f1) =>
        match append f1 b with
        | (failure e, f2) => (failure e, f2)
        | (success ms', f2) => (success (ms ++ ms'), f2)
        end
    end.
Proof.
  intros Hok. destruct (poisoned f) as [e|] eqn:Hp.
  { unfold append. by rewrite Hp. }
  rewrite !append_feed, feed_app by done. destruct (feed_ok f a Hok Hp) as (Hok1 & Hp1 & _).
  destruct (feed f a) as [[ms|e] f1]; cbn [fst snd and_then] in *; [|done].
  by rewrite append_feed.
Qed.

(** Memory is bounded and failures are sticky: after any fragment the
    invariant holds again, at most one buffer is in use and it is within its
    limit; a failure leaves nothing buffered, and every later fragment returns
    the same error until [reset], which restores a usable framer. *)
Theorem append_bounded f l :
  framer_ok f →
  let '(r, f1) := append f l in
  framer_ok f1 ∧ limits f1 = limits f ∧
  buffered_bytes f1 <= Z.max (max_header_bytes (limits f)) (max_body_bytes (limits f)) ∧
  match r with
  | success _ => poisoned f1 = None
  | failure e => buffered_bytes f1 = 0 ∧ (∀ l', append f1 l' = (failure e, f1)) ∧
                 framer_ok (reset f1) ∧ poisoned (reset f1) = None
  end.
Proof.
  intros Hok.
  assert (Hgoal : ∀ f1, framer_ok f1 → limits f1 = limits f →
    buffered_bytes f1 <= Z.max (max_header_bytes (limits f)) (max_body_bytes (limits f)) ∧
    framer_ok (reset f1) ∧ (∀ e, poisoned f1 = Some e →
      buffered_bytes f1 = 0 ∧ ∀ l', append f1 l' = (failure e, f1))).
  { intros f1 [Hl Hf] Hlim. unfold buffered_bytes, append. rewrite <- Hlim. unfold limits_ok in Hl.
    split_and!.
    - destruct (poisoned f1); [destruct Hf as (-> & -> & _); simpl; lia|].
      destruct (state f1); [destruct Hf as [-> ?]|destruct Hf as [-> ?]]; simpl; lia.
    - split; [done|]. cbn. split; [done|]. simpl. lia.
    - intros e He. rewrite He in Hf. destruct Hf as (-> & -> & _). split; [done|]. intros l'. by rewrite He. }
  destruct (poisoned f) as [e|] eqn:Hp.
  - assert (append f l = (failure e, f)) as -> by (unfold append; by rewrite Hp).
    destruct (Hgoal f Hok eq_refl) as (? & ? & He). destruct (He e Hp). done.
  - rewrite append_feed by done. destruct (feed_ok f l Hok Hp) as (Hok1 & Hp1 & Hl1).
    destruct (feed f l) as [[ms|e] f1]; cbn [fst snd] in *; destruct (Hgoal f1 Hok1 Hl1) as (? & ? & He);
      [done|]. destruct (He e Hp1). done.
Qed.

(** C38.  What [frame_message] writes is read back: a stream of framed
    messages, each within the limits, is cut into exactly those messages, and
    the framer is left as new. *)
Theorem framed_messages_read_back l bodies frames :
  limits_ok l → max_body_bytes l <= size_max →
  Forall2 (λ b frame, frame_message b l = success frame) bodies frames →
  append (new_framer l) (concat frames) = (success bodies, new_framer l).
Proof.
  intros Hl Hmax Hf.
  assert (Hok : framer_ok (new_framer l)) by (split; [done|]; split; [done|apply Hl]).
  rewrite append_feed by done. induction Hf as [|b frame bodies frames Hb Hf IH]; [done|].
  cbn [concat]. rewrite (feed_frame l b frame _ Hmax Hb). cbn [and_then]. by rewrite IH.
Qed.

(** ** Witnesses *)

Definition sample_limits : FramingLimits := mkLimits 64 16.

Lemma append_fragments_witness :
  let f := new_framer sample_limits in
  framer_ok f ∧
  append f (bs!"Content-Le" ++ bs!"ngth: 0" ++ terminator) =
    match append f bs!"Content-Le" with
    | (failure e, f1) => (failure e, f1)
    | (success ms, f1) =>
        match append f1 (bs!"ngth: 0" ++ terminator) with
        | (failure e, f2) => (failure e, f2)
        | (success ms', f2) => (success (ms ++ ms'), f2)
        end
    end.
Proof.
  intros f. assert (H : framer_ok f) by (repeat split; done).
  split; [exact H|]. exact (append_fragments f _ _ H).
Defined.

Lemma append_bounded_witness :
  let f := new_framer sample_limits in
  fst (append f bs!"Content-Length: 17xx") = success [] ∧
  buffered_bytes (snd (append f bs!"Content-Length: 17xx")) <= 64.
Proof.
  intros f. split; [vm_compute; reflexivity|].
  pose proof (append_bounded f bs!"Content-Length: 17xx" ltac:(repeat split; done)) as H.
  destruct (append f bs!"Content-Length: 17xx") as [r f1]. apply H.
Defined.

Lemma framed_messages_read_back_witness :
  frame_message bs!"ping" sample_limits = success (bs!"Content-Length: 4" ++ terminator ++ bs!"ping") ∧
  append (new_framer sample_limits)
    (concat [bs!"Content-Length: 4" ++ terminator ++ bs!"ping"; bs!"Content-Length: 0" ++ terminator]) =
    (success [bs!"ping"; []], new_framer sample_limits).
Proof.
  split; [vm_compute; reflexivity|].
  apply (framed_messages_read_back sample_limits); [done|done|].
  repeat constructor; vm_compute; reflexivity.
Defined.

End Stream.
