(* ===== verification/CommandArgv.v ===== *)
(** * Command lines: [src/core/command_argv.cpp]

    The splitter that turns a command into its argument vector.  The loop over
    the command is a state machine over the bytes that remain. *)

From stdpp Require Import base numbers strings list.
From Stdlib Require Import Ascii.
From S2P Require Import Prelude.
Local Open Scope Z_scope.

Inductive Quote := QuoteNone | QuoteSingle | QuoteDouble.

Definition invalid_command (message : string) : Error :=
  mkError InvalidArgument "core.command.invalid_argv" message "".

Definition whitespace (c : Z) : bool :=
  (c =? 32) || (c =? 9) || (c =? 10) || (c =? 13) || (c =? 12) || (c =? 11).

Definition single_quote : Z := 39.
Definition double_quote : Z := 34.
Definition backslash : Z := 92.

Definition double_quote_escape (c : Z) : bool :=
  (c =? double_quote) || (c =? backslash) || (c =? #"$") || (c =? #"`") || (c =? 10).

(** The local variables of the loop. *)
Record Words := mkWords {
  arguments : list bytes; word : bytes; quote : Quote; word_started : bool }.

Definition with_word (w : Words) (c : Z) (started : bool) : Words :=
  mkWords (arguments w) (word w ++ [c]) (quote w) (word_started w || started).

Definition with_quote (w : Words) (q : Quote) (started : bool) : Words :=
  mkWords (arguments w) (word w) q (word_started w || started).

Definition finish_word (w : Words) : Words :=
  if word_started w then mkWords (arguments w ++ [word w]) [] (quote w) false else w.

(** The body of the loop for a byte that is not a backslash escape. *)
Definition plain_step (w : Words) (c : Z) : Words :=
  match quote w with
  | QuoteSingle => if c =? single_quote then with_quote w QuoteNone false else with_word w c false
  | QuoteDouble => if c =? double_quote then with_quote w QuoteNone false else with_word w c false
  | QuoteNone =>
      if c =? single_quote then with_quote w QuoteSingle true
      else if c =? double_quote then with_quote w QuoteDouble true
      else if whitespace c then finish_word w
      else with_word w c true
  end.

Fixpoint scan (w : Words) (command : bytes) : result Error Words :=
  match command with
  | [] => success w
  | c :: rest =>
      if match quote w with QuoteSingle => false | _ => c =? backslash end then
        match rest with
        | [] => failure (invalid_command "Command ends with an incomplete backslash escape")
        | next :: rest' =>
            if match quote w with QuoteDouble => negb (double_quote_escape next) | _ => false end
            then scan (with_word w c false) rest
            else if next =? 10 then scan w rest' else scan (with_word w next true) rest'
        end
      else scan (plain_step w c) rest
  end.

Definition parse_command_argv (command : bytes) : result Error (list bytes) :=
  if bool_decide (is_Some (find 0 command))
  then failure (invalid_command "Command arguments cannot contain NUL")
  else
    w ← scan (mkWords [] [] QuoteNone false) command;
    match quote w with
    | QuoteNone =>
        let arguments := if word_started w then arguments w ++ [word w] else arguments w in
        match arguments with
        | [] | [] :: _ => failure (invalid_command "Command requires a nonempty executable")
        | _ => success arguments
        end
    | _ => failure (invalid_command "Command has an unterminated quote")
    end.

(** ** Quoting *)

(** The usual quoting of a word: single quotes around it, and every single
    quote inside written outside of them behind a backslash. *)
Definition quote_byte (c : Z) : bytes :=
  if c =? single_quote then [single_quote; backslash; single_quote; single_quote] else [c].
Definition quote_word (w : bytes) : bytes :=
  single_quote :: concat (map quote_byte w) ++ [single_quote].

(** Inside single quotes. *)
Definition inside (args : list bytes) (w : bytes) : Words := mkWords args w QuoteSingle true.
Definition between (args : list bytes) (w : bytes) : Words := mkWords args w QuoteNone true.

Lemma scan_quoted args acc w rest :
  scan (inside args acc) (concat (map quote_byte w) ++ rest) = scan (inside args (acc ++ w)) rest.
Proof.
  revert acc. induction w as [|c w IH]; intros acc; [by rewrite app_nil_r|].
  cbn [map concat]. rewrite <- app_assoc. unfold quote_byte at 1.
  destruct (Z.eqb_spec c single_quote) as [->|Hc].
  - cbn [app scan]. change (scan (inside args (acc ++ [single_quote])) (concat (map quote_byte w) ++ rest) =
      scan (inside args (acc ++ single_quote :: w)) rest). rewrite IH. by rewrite <- app_assoc.
  - cbn [app scan quote inside]. unfold plain_step. cbn [quote inside].
    rewrite (proj2 (Z.eqb_neq _ _) Hc). change (with_word (inside args acc) c false) with
      (inside args (acc ++ [c])). rewrite IH. by rewrite <- app_assoc.
Qed.

Lemma scan_quote_word args w rest :
  scan (mkWords args [] QuoteNone false) (quote_word w ++ rest) = scan (between args w) rest.
Proof.
  unfold quote_word. cbn [app]. rewrite <- app_assoc. cbn [scan quote].
  change (single_quote =? backslash) with false. cbv iota.
  change (plain_step (mkWords args [] QuoteNone false) single_quote) with (inside args []).
  rewrite scan_quoted. cbn [app scan quote inside]. done.
Qed.

Lemma scan_separator args w rest :
  scan (between args w) (32 :: rest) = scan (mkWords (args ++ [w]) [] QuoteNone false) rest.
Proof. done. Qed.

Lemma scan_words args ws :
  ws ≠ [] →
  scan (mkWords args [] QuoteNone false) (join 32 (map quote_word ws)) =
    success (between (args ++ removelast ws) (List.last ws [])).
Proof.
  intros Hne. revert args. induction ws as [|w ws IH]; [done|]. intros args.
  destruct ws as [|v ws].
  - cbn [map join removelast List.last]. rewrite <- (app_nil_r (quote_word w)), scan_quote_word.
    by rewrite app_nil_r.
  - change (join 32 (map quote_word (w :: v :: ws))) with
      (quote_word w ++ 32 :: join 32 (map quote_word (v :: ws))).
    rewrite scan_quote_word, scan_separator, IH by done.
    change (removelast (w :: v :: ws)) with (w :: removelast (v :: ws)).
    change (List.last (w :: v :: ws) []) with (List.last (v :: ws) []).
    by rewrite <- app_assoc.
Qed.

Lemma quote_byte_nul c : c ≠ 0 → 0 ∉ quote_byte c.
Proof.
  intros Hc. unfold quote_byte. destruct (c =? single_quote);
    rewrite ?not_elem_of_cons; split_and?; (done || apply not_elem_of_nil).
Qed.

Lemma quote_word_nul w : 0 ∉ w → 0 ∉ quote_word w.
Proof.
  intros Hw. unfold quote_word. rewrite not_elem_of_cons, not_elem_of_app. split_and!; [done| |].
  - induction w as [|c w IH]; [apply not_elem_of_nil|]. apply not_elem_of_cons in Hw as [Hc Hw].
    cbn [map concat]. rewrite not_elem_of_app. split; [by apply quote_byte_nul|by apply IH].
  - rewrite not_elem_of_cons. split; [done|apply not_elem_of_nil].
Qed.

Lemma join_nul ws : Forall (λ w, 0 ∉ w) ws → 0 ∉ join 32 (map quote_word ws).
Proof.
  induction 1 as [|w ws Hw Hws IH]; [apply not_elem_of_nil|].
  destruct ws as [|v ws]; [by apply quote_word_nul|].
  change (join 32 (map quote_word (w :: v :: ws))) with
    (quote_word w ++ 32 :: join 32 (map quote_word (v :: ws))).
  rewrite not_elem_of_app, not_elem_of_cons. split_and!; [by apply quote_word_nul|done|done].
Qed.

(** Every argument vector can be written and is read back: single-quoted
    words, separated by spaces, are parsed to exactly those words, whatever
    bytes other than NUL they contain, shell operators, newlines, quotes and
    empty arguments included. *)
Theorem quoted_arguments_read_back exe ws :
  exe ≠ [] → Forall (λ w, 0 ∉ w) (exe :: ws) →
  parse_command_argv (join 32 (map quote_word (exe :: ws))) = success (exe :: ws).
Proof.
  intros Hexe Hnul. unfold parse_command_argv. rewrite find_none by (by apply join_nul).
  rewrite bool_decide_false by (by intros [? ?]). rewrite scan_words by done.
  cbn [mbind result_bind quote between word_started arguments word app].
  rewrite <- app_removelast_last by done. by destruct exe.
Qed.

(** ** What is accepted *)

(** The words never lose or invent bytes: every byte of a word occurs in the
    command. *)
Definition within (command : bytes) (w : Words) : Prop :=
  Forall (λ a, ∀ c, c ∈ a → c ∈ command) (arguments w) ∧ ∀ c, c ∈ word w → c ∈ command.

Lemma within_word command w c s : within command w → c ∈ command → within command (with_word w c s).
Proof.
  intros [Ha Hw] Hc. split; [done|]. cbn. intros x [Hx| ->%list_elem_of_singleton]%elem_of_app; auto.
Qed.

Lemma within_finish command w : within command w → within command (finish_word w).
Proof.
  intros [Ha Hw]. unfold finish_word. destruct (word_started w); [|done]. split; cbn.
  - apply Forall_app. split; [done|]. by constructor.
  - intros c Hc. by apply elem_of_nil in Hc.
Qed.

Lemma within_plain command w c : within command w → c ∈ command → within command (plain_step w c).
Proof.
  intros Hw Hc. pose proof Hw as [Ha Hb]. unfold plain_step.
  destruct (quote w); repeat case_match; try (by apply within_word); try (by apply within_finish); done.
Qed.

Lemma scan_within command n w l w' :
  (length l <= n)%nat → (∀ c, c ∈ l → c ∈ command) → within command w → scan w l = success w' →
  within command w'.
Proof.
  revert w l. induction n as [|n IH]; intros w [|c l] Hn Hl Hw; simpl in Hn; try lia;
    [by intros [= <-]|by intros [= <-]|]. cbn [scan].
  assert (Hc : c ∈ command) by (apply Hl; apply elem_of_cons; by left).
  assert (Hl' : ∀ x, x ∈ l → x ∈ command) by (intros x Hx; apply Hl, elem_of_cons; by right).
  destruct (match quote w with QuoteSingle => false | _ => c =? backslash end).
  - destruct l as [|d l]; [done|].
    assert (Hd : d ∈ command) by (apply Hl'; apply elem_of_cons; by left).
    assert (Hl'' : ∀ x, x ∈ l → x ∈ command) by (intros x Hx; apply Hl', elem_of_cons; by right).
    destruct (match quote w with QuoteDouble => _ | _ => false end).
    + apply IH; [lia|done|by apply within_word].
    + simpl in Hn. destruct (d =? 10); apply IH; (lia || done || by apply within_word).
  - apply IH; [lia|done|by apply within_plain].
Qed.

(** An accepted command gives a non-empty executable, no argument
    contains NUL, and every byte of every argument is a byte of the command:
    nothing is expanded or substituted. *)
Theorem parse_command_argv_literal command args :
  parse_command_argv command = success args →
  (0 ∉ command) ∧ (∃ exe rest, args = exe :: rest ∧ exe ≠ []) ∧
  Forall (λ a, ∀ c, c ∈ a → (c ∈ command) ∧ c ≠ 0) args.
Proof.
  unfold parse_command_argv. case_bool_decide as Hf; [done|].
  assert (Hnul : 0 ∉ command).
  { apply find_none_inv. destruct (find 0 command); [|done]. by destruct Hf. }
  destruct (scan _ command) as [w|] eqn:Hs; [|done]. cbn [mbind result_bind].
  assert (Hw : within command w).
  { apply (scan_within command (length command) (mkWords [] [] QuoteNone false) command); [lia|done| |exact Hs].
    split; cbn; [constructor|]. intros c Hc. by apply elem_of_nil in Hc. }
  destruct (quote w); [|done|done]. intros Hargs. split; [done|].
  assert (He : args = if word_started w then arguments w ++ [word w] else arguments w)
    by (repeat case_match; by simplify_eq).
  split.
  - rewrite He. destruct (if word_started w then _ else _) as [|[|x exe] rest]; [done..|]. by exists (x :: exe), rest.
  - assert (Hall : Forall (λ a, ∀ c, c ∈ a → c ∈ command) args).
    { subst args. destruct Hw as [Ha Hb]. destruct (word_started w); [|done].
      apply Forall_app. split; [done|]. by constructor. }
    eapply Forall_impl; [exact Hall|]. intros a Ha c Hc. split; [by apply Ha|]. intros ->. by apply Hnul, Ha.
Qed.

(** ** Witnesses *)

Lemma quoted_arguments_read_back_witness :
  parse_command_argv (join 32 (map quote_word [bs!"/bin/sh"; bs!"it's $HOME; rm"; []])) =
    success [bs!"/bin/sh"; bs!"it's $HOME; rm"; []].
Proof.
  apply (quoted_arguments_read_back bs!"/bin/sh" [bs!"it's $HOME; rm"; []]); [done|].
  repeat (constructor; [rewrite ?not_elem_of_cons; split_and?; (done || apply not_elem_of_nil)|]).
  constructor.
Defined.

Lemma parse_command_argv_literal_witness :
  (0 ∉ bs!"sh -c a\ b") ∧ (∃ exe rest, [bs!"sh"; bs!"-c"; bs!"a b"] = exe :: rest ∧ exe ≠ []) ∧
  Forall (λ a, ∀ c, c ∈ a → (c ∈ bs!"sh -c a\ b") ∧ c ≠ 0) [bs!"sh"; bs!"-c"; bs!"a b"].
Proof. apply (parse_command_argv_literal bs!"sh -c a\ b"). vm_compute. reflexivity. Defined.
