(* ===== verification/Values.v ===== *)
(** * Values shared by several components

    JSON and attribute values, the states of jobs, queues and runs, and the
    outcome of an attempt: [src/core/json.hpp], [src/jobu/attribute.hpp],
    [src/jobu/attempt.hpp], [src/jobu/attempt_executor.hpp],
    [src/jobu/job.hpp], [src/jobu/queue.hpp], [src/jobu/run.hpp]. *)

From stdpp Require Import base numbers strings list gmap sorting.
From S2P Require Import Prelude.
Local Open Scope Z_scope.
Set Warnings "-register-all".

(** A double is represented by its bit pattern; an object is a sorted list of
    members, as [std::map] keeps them. *)
Inductive JsonValue :=
  | JsonNull
  | JsonBool (b : bool)
  | JsonInt (n : Z)
  | JsonUint (n : Z)
  | JsonDouble (bits : Z)
  | JsonString (s : bytes)
  | JsonArray (l : list JsonValue)
  | JsonObject (members : list (bytes * JsonValue)).

Inductive AttributeValue :=
  | AttrBool (b : bool)
  | AttrInt (n : Z)
  | AttrDouble (bits : Z)
  | AttrString (s : bytes)
  | AttrDuration (ns : Z)
  | AttrBytes (b : bytes)
  | AttrList (l : list AttributeValue)
  | AttrMap (m : list (bytes * AttributeValue)).

(** A materialized attribute set, [std::map<std::string, AttributeValue>]. *)
Abbreviation AttributeSet := (gmap bytes AttributeValue).

Inductive AttributeScope := DaemonDefault | QueueDefault | JobScope.
Inductive AttributeDocumentMode := PartialDocument | Materialized.

#[export] Instance AttributeScope_eq_dec : EqDecision AttributeScope.
Proof. solve_decision. Defined.
#[export] Instance AttributeDocumentMode_eq_dec : EqDecision AttributeDocumentMode.
Proof. solve_decision. Defined.

Inductive JobState :=
  | JobActive | JobSuspending | JobSuspended | JobDeleted | JobSucceeded | JobFailed | JobCancelled.
Inductive QueueState := QueueActive | QueueSuspending | QueueSuspended | QueueDeleted.
Inductive RecoveryPolicy := FailInterrupted | RetryInterrupted.
Inductive RetryMode := Blocking | Reschedule.

#[export] Instance JobState_eq_dec : EqDecision JobState.
Proof. solve_decision. Defined.
#[export] Instance QueueState_eq_dec : EqDecision QueueState.
Proof. solve_decision. Defined.

#[export] Instance RecoveryPolicy_eq_dec : EqDecision RecoveryPolicy.
Proof. solve_decision. Defined.

Definition is_terminal_job_state (state : JobState) : bool :=
  match state with JobSucceeded | JobFailed | JobCancelled => true | _ => false end.

Inductive AttemptOutcome := Succeeded | Failed | Interrupted | Cancelled_.
Inductive FailureDisposition := Terminal | Retryable.

#[export] Instance AttemptOutcome_eq_dec : EqDecision AttemptOutcome.
Proof. solve_decision. Defined.
#[export] Instance FailureDisposition_eq_dec : EqDecision FailureDisposition.
Proof. solve_decision. Defined.

Definition json_string (s : bytes) : JsonValue := JsonString s.

(** [std::map::emplace]: sorted, and an existing key stays. *)
Fixpoint bytes_ltb (a b : bytes) : bool :=
  match a, b with
  | [], [] => false
  | [], _ :: _ => true
  | _ :: _, [] => false
  | x :: a, y :: b => if x <? y then true else if y <? x then false else bytes_ltb a b
  end.

Fixpoint emplace {V} (key : bytes) (v : V) (o : list (bytes * V)) : list (bytes * V) :=
  match o with
  | [] => [(key, v)]
  | (k, w) :: o' => if bytes_ltb key k then (key, v) :: o
                    else if bytes_ltb k key then (k, w) :: emplace key v o' else o
  end.

(** The members of a map in the order of its keys, as a range loop over a
    [std::map] visits them. *)
Definition entries {V} (m : gmap bytes V) : list (bytes * V) :=
  foldr (λ e o, emplace e.1 e.2 o) [] (map_to_list m).

(** ** The order of byte strings *)

Class StrictTotal {K} (before : K → K → bool) : Prop := {
  before_irrefl k : before k k = false;
  before_trans a b c : before a b = true → before b c = true → before a c = true;
  before_total a b : before a b = true ∨ a = b ∨ before b a = true }.

#[global] Instance bytes_ltb_total : StrictTotal bytes_ltb.
Proof.
  split.
  - induction k as [|x k IH]; [done|]. simpl. by rewrite Z.ltb_irrefl.
  - induction a as [|x a IH]; intros [|y b] [|z c]; try done. simpl.
    destruct (Z.ltb_spec x y), (Z.ltb_spec y x), (Z.ltb_spec y z), (Z.ltb_spec z y), (Z.ltb_spec x z), (Z.ltb_spec z x);
      try done; try lia. apply IH.
  - induction a as [|x a IH]; intros [|y b]; simpl; [tauto..|].
    destruct (Z.ltb_spec x y); [tauto|]. destruct (Z.ltb_spec y x); [tauto|].
    assert (x = y) as -> by lia. destruct (IH b) as [?|[->|?]]; tauto.
Qed.

(** ** Members sorted by key *)

Section Sorted.
Context {V : Type}.
Implicit Types o l : list (bytes * V).

Definition member_before (a b : bytes * V) : Prop := bytes_ltb a.1 b.1 = true.

(** What a [std::map] holds: its members in strictly ascending order. *)
Definition members_ordered o : Prop := StronglySorted member_before o.

Lemma emplace_Permutation k v o : k ∉ o.*1 → emplace k v o ≡ₚ (k, v) :: o.
Proof.
  induction o as [|[k' w] o IH]; intros Hk; simpl; [done|]. rewrite fmap_cons, not_elem_of_cons in Hk.
  destruct Hk as [Hne Hk]. destruct (bytes_ltb k k') eqn:E1; [done|].
  destruct (bytes_ltb k' k) eqn:E2; [by rewrite (IH Hk), Permutation_swap|].
  destruct (before_total k k') as [?|[->|?]]; [congruence|done|congruence].
Qed.

Lemma emplace_members_ordered k v o : members_ordered o → members_ordered (emplace k v o).
Proof.
  induction 1 as [|[k' w] o Ho IH Hk]; simpl; [by repeat constructor|].
  destruct (bytes_ltb k k') eqn:E1.
  { constructor; [by constructor|]. constructor; [done|]. eapply Forall_impl; [exact Hk|].
    intros b Hb. by eapply before_trans. }
  destruct (bytes_ltb k' k) eqn:E2; [|by constructor]. constructor; [done|].
  clear -Hk E2. revert Hk. induction o as [|[k2 w2] o IH]; intros Hk; simpl; [by repeat constructor|].
  inv Hk. destruct (bytes_ltb k k2); [by repeat constructor|].
  destruct (bytes_ltb k2 k); [constructor; [done|by apply IH]|by constructor].
Qed.

(** Emplacing behind every key appends. *)
Lemma emplace_last k v o : Forall (λ e, bytes_ltb e.1 k = true) o → emplace k v o = o ++ [(k, v)].
Proof.
  induction 1 as [|[k' w] o Hk _ IH]; simpl; [done|]. simpl in Hk. rewrite Hk, IH.
  destruct (bytes_ltb k k') eqn:E; [|done].
  pose proof (before_trans _ _ _ E Hk) as Hc. by rewrite before_irrefl in Hc.
Qed.

(** Building a map from members in order gives these members. *)
Lemma emplace_all_from o l : members_ordered (o ++ l) → foldl (λ o e, emplace e.1 e.2 o) o l = o ++ l.
Proof.
  revert o. induction l as [|[k v] l IH]; intros o Ho; simpl; [by rewrite app_nil_r|].
  rewrite emplace_last.
  - rewrite IH; by rewrite <- app_assoc.
  - apply Forall_forall. intros e He. unfold members_ordered in Ho. rewrite StronglySorted_app in Ho.
    destruct Ho as (Ho & _). apply (Ho e (k, v)); [done|apply list_elem_of_here].
Qed.

Lemma emplace_all l : members_ordered l → foldl (λ o e, emplace e.1 e.2 o) [] l = l.
Proof. apply (emplace_all_from []). Qed.

Lemma members_ordered_NoDup o : members_ordered o → NoDup o.*1.
Proof.
  induction 1 as [|[k w] o Ho IH Hk]; simpl; constructor; [|done].
  intros ([k' w'] & Heq & Hin)%list_elem_of_fmap. simpl in Heq. subst.
  rewrite Forall_forall in Hk. specialize (Hk _ Hin). unfold member_before in Hk. simpl in Hk.
  by rewrite before_irrefl in Hk.
Qed.

Lemma entries_Permutation (m : gmap bytes V) : entries m ≡ₚ map_to_list m.
Proof.
  unfold entries. pose proof (NoDup_fst_map_to_list m) as Hnd. revert Hnd.
  induction (map_to_list m) as [|[k v] l IH]; intros Hnd; simpl; [done|]. inv Hnd.
  rewrite emplace_Permutation; [by rewrite IH|by rewrite IH].
Qed.

Lemma entries_members_ordered (m : gmap bytes V) : members_ordered (entries m).
Proof.
  unfold entries. induction (map_to_list m) as [|[k v] l IH]; simpl; [constructor|by apply emplace_members_ordered].
Qed.

Lemma elem_of_entries (m : gmap bytes V) k v : (k, v) ∈ entries m ↔ m !! k = Some v.
Proof. by rewrite entries_Permutation, elem_of_map_to_list. Qed.

Lemma entries_of_list (m : gmap bytes V) : list_to_map (entries m) = m.
Proof.
  rewrite (list_to_map_proper _ (map_to_list m)); [apply list_to_map_to_list|
    apply members_ordered_NoDup, entries_members_ordered|apply entries_Permutation].
Qed.
End Sorted.
