(* ===== verification/OutputCapture.v ===== *)
(** * Output capture: [src/jobu/cli_capture_priv.cpp], [src/net/http_capture_priv.cpp]

    Bounded retention of a byte stream: the first half of the limit is kept as
    a prefix, the second half is a ring with the latest bytes.  The CLI and the
    HTTP buffer have the same state and the same private code; they differ in
    how an append states its size.  The specification is the stream itself: a
    buffer that saw the stream [s] holds the first and the last bytes of [s]
    and its exact length. *)

From stdpp Require Import base numbers strings list.
From S2P Require Import Prelude.
Local Open Scope Z_scope.

(** Sizes that are bounded by the limit or by a view are natural numbers. *)
Record CaptureBuffer := mkCapture {
  limit : nat; prefix : bytes; suffix : bytes; suffix_start : nat; total_bytes : Z }.

Definition new_capture (limit : nat) : CaptureBuffer := mkCapture limit [] [] 0 0.

Definition capture_error (detail : string) : Error :=
  mkError Internal "jobu.cli.capture_failed" "CLI output capture failed" detail.
Definition http_capture_error (detail : string) : Error :=
  mkError Internal "net.http.internal" "HTTP capture failed" detail.

Definition prefix_limit (b : CaptureBuffer) : nat := (limit b / 2 + limit b mod 2)%nat.
Definition suffix_limit (b : CaptureBuffer) : nat := (limit b / 2)%nat.

(** [std::copy] over the elements from [pos] on. *)
Definition write_at (l : bytes) (pos : nat) (data : bytes) : bytes :=
  take pos l ++ data ++ drop (pos + length data) l.

Definition append_suffix (b : CaptureBuffer) (data : bytes) : CaptureBuffer :=
  let slimit := suffix_limit b in
  if (slimit =? 0)%nat || bool_decide (data = []) then b
  else
    let available := (slimit - length (suffix b))%nat in
    let initial := Nat.min available (length data) in
    let suffix := suffix b ++ take initial data in
    let data := drop initial data in
    if bool_decide (data = [])
    then mkCapture (limit b) (prefix b) suffix (suffix_start b) (total_bytes b)
    else if (slimit <=? length data)%nat
    then mkCapture (limit b) (prefix b) (drop (length data - slimit) data) 0 (total_bytes b)
    else
      let first := Nat.min (length data) (slimit - suffix_start b) in
      let suffix := write_at suffix (suffix_start b) (take first data) in
      let suffix := write_at suffix 0 (drop first data) in
      mkCapture (limit b) (prefix b) suffix ((suffix_start b + length data) mod slimit)
        (total_bytes b).

(** The retention part of both [append] functions. *)
Definition retain (b : CaptureBuffer) (data : bytes) (total : Z) : CaptureBuffer :=
  let prefix_space := (prefix_limit b - length (prefix b))%nat in
  let prefix_count := Nat.min prefix_space (length data) in
  let b' := append_suffix
              (mkCapture (limit b) (prefix b ++ take prefix_count data) (suffix b) (suffix_start b)
                 (total_bytes b)) (drop prefix_count data) in
  mkCapture (limit b') (prefix b') (suffix b') (suffix_start b') total.

Definition checked_cli_capture_total (current_total appended : Z) : result Error Z :=
  if uint64_max - current_total <? appended then failure (capture_error "capture_total_overflow")
  else success (current_total + appended).

Definition cli_append (b : CaptureBuffer) (data : bytes) : result Error unit * CaptureBuffer :=
  match checked_cli_capture_total (total_bytes b) (Z.of_nat (length data)) with
  | failure e => (failure e, b)
  | success total => (success tt, retain b data total)
  end.

Definition checked_capture_append_size (current_total element_size element_count : Z) : result Error Z :=
  if negb (element_size =? 0) && (size_max / element_size <? element_count)
  then failure (http_capture_error "capture_size_overflow")
  else
    let byte_count := element_size * element_count in
    if uint64_max - current_total <? byte_count
    then failure (http_capture_error "capture_total_overflow")
    else success byte_count.

(** [data] is [None] for a null pointer and otherwise the readable bytes. *)
Definition http_append (b : CaptureBuffer) (data : option bytes) (element_size element_count : Z)
    : result Error Z * CaptureBuffer :=
  match checked_capture_append_size (total_bytes b) element_size element_count with
  | failure e => (failure e, b)
  | success byte_count =>
      if byte_count =? 0 then (success byte_count, b)
      else
        match data with
        | None => (failure (http_capture_error "capture_null_data"), b)
        | Some data =>
            (success byte_count,
             retain b (take (Z.to_nat byte_count) data) (total_bytes b + byte_count))
        end
  end.

Record Captured := mkCaptured {
  captured_bytes : bytes; captured_total : Z; captured_truncated : bool }.

(** What a runner hands over: [AttemptOutput] of [attempt_executor.hpp]. *)
Record AttemptOutput := mkOutput {
  primary : option Captured; diagnostic : option Captured; output_capture_lost : bool }.

Definition retained_size (b : CaptureBuffer) : nat := (length (prefix b) + length (suffix b))%nat.

Definition take_capture (b : CaptureBuffer) : Captured * CaptureBuffer :=
  let retained :=
    if (length (suffix b) <? suffix_limit b)%nat || (suffix_start b =? 0)%nat
    then prefix b ++ suffix b
    else prefix b ++ drop (suffix_start b) (suffix b) ++ take (suffix_start b) (suffix b) in
  (mkCaptured retained (total_bytes b) (Z.of_nat (length retained) <? total_bytes b),
   new_capture (limit b)).

(** ** The specification: the stream that was seen *)

Definition last_bytes (n : nat) (s : bytes) : bytes := drop (length s - n) s.

(** What is retained of a stream. *)
Definition retained_view (lim : nat) (s : bytes) : bytes :=
  let p := (lim / 2 + lim mod 2)%nat in
  take p s ++ last_bytes (lim / 2) (drop p s).

(** The ring read from its oldest byte. *)
Definition ring (b : CaptureBuffer) : bytes :=
  drop (suffix_start b) (suffix b) ++ take (suffix_start b) (suffix b).

(** The suffix part holds the end of [t]. *)
Definition suffix_holds (b : CaptureBuffer) (t : bytes) : Prop :=
  ring b = last_bytes (suffix_limit b) t ∧
  length (suffix b) = Nat.min (suffix_limit b) (length t) ∧
  (suffix_start b < suffix_limit b ∨ suffix_start b = 0)%nat ∧
  (length (suffix b) < suffix_limit b → suffix_start b = 0)%nat.

Definition holds (b : CaptureBuffer) (s : bytes) : Prop :=
  prefix b = take (prefix_limit b) s ∧ suffix_holds b (drop (prefix_limit b) s) ∧
  total_bytes b = Z.of_nat (length s).

(** ** Lists *)

Lemma take_drop_min n (s : bytes) :
  take (Nat.min n (length s)) s = take n s ∧ drop (Nat.min n (length s)) s = drop n s.
Proof.
  destruct (decide (n <= length s)%nat); [by rewrite Nat.min_l by lia|].
  rewrite Nat.min_r, firstn_all, drop_all by lia. by rewrite take_ge, drop_ge by lia.
Qed.

Lemma last_bytes_all n s : (length s <= n)%nat → last_bytes n s = s.
Proof. intros Hn. unfold last_bytes. by replace (length s - n)%nat with 0%nat by lia. Qed.

Lemma last_bytes_length n s : length (last_bytes n s) = Nat.min n (length s).
Proof. unfold last_bytes. rewrite length_drop. lia. Qed.

Lemma last_bytes_app n s r : last_bytes n (s ++ r) = last_bytes n (last_bytes n s ++ r).
Proof.
  unfold last_bytes. rewrite !length_app, length_drop.
  destruct (decide (length s <= n)%nat).
  { replace (length s - n)%nat with 0%nat by lia. rewrite drop_0. f_equal. lia. }
  destruct (decide (n <= length r)%nat).
  - rewrite !drop_app_ge by (rewrite ?length_drop; lia). f_equal. rewrite length_drop. lia.
  - rewrite !drop_app_le by (rewrite ?length_drop; lia). rewrite drop_drop. do 2 f_equal. lia.
Qed.

Lemma last_bytes_suffix n s r : (n <= length r)%nat → last_bytes n (s ++ r) = last_bytes n r.
Proof.
  intros Hn. unfold last_bytes. rewrite length_app, drop_app_ge by lia. f_equal. lia.
Qed.

Lemma last_bytes_push n L r :
  length L = n → (length r <= n)%nat → last_bytes n (L ++ r) = drop (length r) L ++ r.
Proof.
  intros HL Hr. unfold last_bytes. rewrite length_app.
  replace (length L + length r - n)%nat with (length r) by lia. by rewrite drop_app_le by lia.
Qed.

(** ** The ring *)

Lemma write_at_length l pos data :
  (pos + length data <= length l)%nat → length (write_at l pos data) = length l.
Proof. intros H. unfold write_at. rewrite !length_app, length_take, length_drop. lia. Qed.

(** Writing [r], shorter than the ring, over the oldest bytes. *)
Lemma ring_write sigma start r :
  (0 < length r < length sigma)%nat → (start < length sigma)%nat →
  let n := length sigma in
  let first := Nat.min (length r) (n - start) in
  let sigma' := write_at (write_at sigma start (take first r)) 0 (drop first r) in
  let start' := ((start + length r) mod n)%nat in
  length sigma' = n ∧ (start' < n)%nat ∧
  drop start' sigma' ++ take start' sigma' =
    drop (length r) (drop start sigma ++ take start sigma) ++ r.
Proof.
  intros Hr Hs. cbv zeta. destruct (decide (length r <= length sigma - start)%nat) as [Hle|Hgt].
  - rewrite Nat.min_l by lia. rewrite firstn_all, drop_all.
    assert (Hw : write_at (write_at sigma start r) 0 [] = write_at sigma start r) by done.
    rewrite Hw. split; [apply write_at_length; lia|]. split; [apply Nat.mod_upper_bound; lia|].
    destruct (decide (start + length r = length sigma)%nat) as [He|Hne].
    + rewrite He, Nat.Div0.mod_same. rewrite drop_0, take_0, app_nil_r. unfold write_at.
      rewrite He, drop_all, app_nil_r. rewrite drop_app_ge by (rewrite length_drop; lia).
      rewrite length_drop. replace (length r - (length sigma - start))%nat with 0%nat by lia. done.
    + rewrite Nat.mod_small by lia. unfold write_at.
      rewrite (drop_app_le (drop start sigma)) by (rewrite length_drop; lia).
      rewrite drop_drop, (app_assoc (take start sigma)).
      assert (Hl : length (take start sigma ++ r) = (start + length r)%nat)
        by (rewrite length_app, length_take; lia).
      rewrite drop_app_length', take_app_length' by done. by rewrite <- app_assoc.
  - rewrite Nat.min_r by lia. set (k := (length sigma - start)%nat).
    assert (Hr2 : length (drop k r) = (length r - k)%nat) by apply length_drop.
    assert (Hk : length (take k r) = k) by (rewrite length_take; lia).
    assert (Hw : write_at sigma start (take k r) = take start sigma ++ take k r).
    { unfold write_at. rewrite Hk, drop_ge by lia. by rewrite app_nil_r. }
    assert (Hlen1 : length (take start sigma ++ take k r) = length sigma)
      by (rewrite length_app, Hk, length_take; lia).
    rewrite Hw. split; [rewrite write_at_length; [done|rewrite Hlen1, Hr2; lia]|].
    split; [apply Nat.mod_upper_bound; lia|].
    assert (Hmod : ((start + length r) mod length sigma = length r - k)%nat).
    { replace (start + length r)%nat with (length r - k + 1 * length sigma)%nat by lia.
      rewrite Nat.Div0.mod_add. apply Nat.mod_small. lia. }
    rewrite Hmod. unfold write_at. rewrite take_0. cbn [app]. rewrite Nat.add_0_l, Hr2.
    rewrite drop_app_length', take_app_length' by done.
    rewrite drop_app_le by (rewrite length_take; lia).
    rewrite (drop_app_ge (drop start sigma)) by (rewrite length_drop; lia).
    rewrite length_drop. fold k. rewrite <- app_assoc, take_drop. done.
Qed.

(** ** Refinement *)

Lemma ring_length b : length (ring b) = length (suffix b).
Proof. unfold ring. rewrite length_app, length_drop, length_take. lia. Qed.

Lemma ring_at_zero b : suffix_start b = 0%nat → ring b = suffix b.
Proof. intros H. unfold ring. rewrite H, drop_0, take_0. by rewrite app_nil_r. Qed.

Lemma append_suffix_same b data :
  limit (append_suffix b data) = limit b ∧ prefix (append_suffix b data) = prefix b ∧
  total_bytes (append_suffix b data) = total_bytes b.
Proof. unfold append_suffix. repeat case_match; done. Qed.

Lemma append_suffix_holds b t data :
  suffix_holds b t → suffix_holds (append_suffix b data) (t ++ data).
Proof.
  intros (Hring & Hlen & Hstart & Hpart). unfold append_suffix.
  destruct (Nat.eqb_spec (suffix_limit b) 0) as [H0|H0]; cbn [orb].
  { unfold suffix_holds. rewrite H0 in *. rewrite Nat.min_0_l in *.
    split_and!; [|done|done|lia]. apply nil_length_inv in Hlen.
    unfold ring, last_bytes. rewrite Hlen, drop_nil, take_nil, Nat.sub_0_r, drop_all. done. }
  case_bool_decide as Hd. { by rewrite Hd, app_nil_r. }
  set (n := suffix_limit b) in *. set (initial := Nat.min (n - length (suffix b)) (length data)).
  case_bool_decide as Hrest.
  - (* everything fits *)
    assert (Hi : (length data <= n - length (suffix b))%nat).
    { apply (f_equal length) in Hrest. rewrite length_drop in Hrest. simpl in Hrest. lia. }
    assert (Hs : (length (suffix b) < n)%nat) by (destruct data; [done|simpl in Hi; lia]).
    assert (Hstart0 := Hpart Hs). rewrite ring_at_zero in Hring by done.
    rewrite last_bytes_all in Hring by lia. unfold suffix_holds. cbn [suffix suffix_start].
    change (suffix_limit (mkCapture _ _ _ _ _)) with n.
    replace initial with (length data) by lia. rewrite firstn_all, Hring, Hstart0.
    rewrite ring_at_zero by done. cbn [suffix]. rewrite last_bytes_all by (rewrite length_app; lia).
    split_and!; [done|rewrite length_app; lia|lia|lia].
  - (* the ring is full from here on *)
    assert (Hi : (n - length (suffix b) < length data)%nat).
    { destruct (decide (n - length (suffix b) < length data)%nat); [done|]. destruct Hrest.
      unfold initial. rewrite Nat.min_r by lia. apply drop_all. }
    assert (Hini : initial = (n - length (suffix b))%nat) by (unfold initial; lia).
    set (sigma := suffix b ++ take initial data). set (r := drop initial data).
    assert (Hsig : length sigma = n) by (unfold sigma; rewrite length_app, length_take; lia).
    assert (Hr : length r = (length data - initial)%nat) by apply length_drop.
    (* the logical content after the first part *)
    assert (Hlog : drop (suffix_start b) sigma ++ take (suffix_start b) sigma =
                   last_bytes n (t ++ take initial data)).
    { rewrite last_bytes_app, <- Hring. unfold sigma.
      destruct (decide (length (suffix b) < n)%nat) as [Hs|Hs].
      - rewrite (Hpart Hs), drop_0, take_0, app_nil_r. rewrite ring_at_zero by auto.
        rewrite last_bytes_all; [done|]. rewrite length_app, length_take. lia.
      - assert (initial = 0%nat) as -> by lia. rewrite take_0, !app_nil_r.
        rewrite last_bytes_all; [done|]. rewrite ring_length. lia. }
    assert (Hall : t ++ data = (t ++ take initial data) ++ r).
    { unfold r. by rewrite <- app_assoc, take_drop. }
    rewrite Hall. destruct (Nat.leb_spec n (length r)) as [Hge|Hlt].
    + unfold suffix_holds. cbn [suffix suffix_start]. change (suffix_limit (mkCapture _ _ _ _ _)) with n.
      rewrite ring_at_zero by done. cbn [suffix]. rewrite last_bytes_suffix by done.
      split_and!; [done|rewrite length_drop, length_app; lia|lia|lia].
    + destruct (ring_write sigma (suffix_start b) r) as (Hl' & Hs' & Hlog'); [lia|lia|].
      cbv zeta in Hl', Hs', Hlog'. rewrite Hsig in Hl', Hs', Hlog'.
      unfold suffix_holds, ring. cbn [suffix suffix_start].
      change (suffix_limit (mkCapture _ _ _ _ _)) with n. rewrite Hlog', Hlog. split_and!.
      * rewrite (last_bytes_app n _ r),
          (last_bytes_push n (last_bytes n (t ++ take initial data)) r); [done| |lia].
        rewrite last_bytes_length, length_app, length_take. lia.
      * rewrite Hl'. rewrite !length_app, length_take. lia.
      * lia.
      * lia.
Qed.

Lemma new_capture_holds lim : holds (new_capture lim) [].
Proof.
  unfold holds, suffix_holds. cbn [prefix suffix suffix_start new_capture total_bytes].
  rewrite take_nil, drop_nil. split_and!; (done || (cbn [length]; lia)).
Qed.

(** Appending to a buffer appends to the stream it holds. *)
Lemma retain_holds b s data :
  holds b s →
  holds (retain b data (Z.of_nat (length (s ++ data)))) (s ++ data) ∧
  limit (retain b data (Z.of_nat (length (s ++ data)))) = limit b.
Proof.
  intros (Hp & Hs & Ht). unfold retain, holds.
  set (c := Nat.min (prefix_limit b - length (prefix b)) (length data)).
  set (b0 := mkCapture (limit b) (prefix b ++ take c data) (suffix b) (suffix_start b) (total_bytes b)).
  destruct (append_suffix_same b0 (drop c data)) as (Hl & Hpre & _).
  pose proof (append_suffix_holds b0 (drop (prefix_limit b) s) (drop c data) Hs) as Hsuf.
  cbn [limit prefix suffix suffix_start total_bytes]. unfold prefix_limit at 1 2. cbn [limit].
  rewrite Hl, Hpre. cbn [limit prefix b0]. fold (prefix_limit b).
  assert (Hlp : length (prefix b) = Nat.min (prefix_limit b) (length s)) by (rewrite Hp, length_take; done).
  assert (Hc : c = Nat.min (prefix_limit b - length s) (length data)) by (unfold c; lia).
  destruct (take_drop_min (prefix_limit b - length s) data) as [Htake Hdrop].
  split_and!; [|  |done|done].
  - rewrite Hp, take_app, Hc. by rewrite Htake.
  - replace (drop (prefix_limit b) (s ++ data)) with (drop (prefix_limit b) s ++ drop c data).
    { unfold suffix_holds, ring, suffix_limit in Hsuf |- *. rewrite Hl in Hsuf. exact Hsuf. }
    rewrite drop_app, Hc. by rewrite Hdrop.
Qed.

Lemma take_capture_holds b s :
  holds b s →
  take_capture b = (mkCaptured (retained_view (limit b) s) (Z.of_nat (length s))
                      (bool_decide (limit b < length s)%nat), new_capture (limit b)).
Proof.
  intros (Hp & (Hring & Hlen & Hstart & Hpart) & Ht). unfold take_capture. rewrite Ht.
  assert (Hret : (if (length (suffix b) <? suffix_limit b)%nat || (suffix_start b =? 0)%nat
    then prefix b ++ suffix b
    else prefix b ++ drop (suffix_start b) (suffix b) ++ take (suffix_start b) (suffix b)) =
    retained_view (limit b) s).
  { unfold retained_view. fold (prefix_limit b) (suffix_limit b). rewrite <- Hring, <- Hp.
    destruct (Nat.ltb_spec (length (suffix b)) (suffix_limit b)) as [Hlt|]; cbn [orb].
    - by rewrite ring_at_zero by auto.
    - destruct (Nat.eqb_spec (suffix_start b) 0); [by rewrite ring_at_zero|done]. }
  rewrite Hret. f_equal. f_equal.
  assert (Hrl : length (retained_view (limit b) s) = Nat.min (limit b) (length s)).
  { unfold retained_view. rewrite length_app, length_take, last_bytes_length, length_drop.
    pose proof (Nat.div_mod_eq (limit b) 2). lia. }
  rewrite Hrl. case_bool_decide; [apply Z.ltb_lt|apply Z.ltb_ge]; lia.
Qed.

(** A sequence of appends, as long as none overflows the counter. *)
Fixpoint cli_append_all (b : CaptureBuffer) (chunks : list bytes) : result Error unit * CaptureBuffer :=
  match chunks with
  | [] => (success tt, b)
  | c :: chunks =>
      match cli_append b c with
      | (failure e, b) => (failure e, b)
      | (success _, b) => cli_append_all b chunks
      end
  end.

Lemma cli_append_holds b s data :
  holds b s → Z.of_nat (length (s ++ data)) <= uint64_max →
  ∃ b', cli_append b data = (success tt, b') ∧ holds b' (s ++ data) ∧ limit b' = limit b.
Proof.
  intros Hb Hmax. unfold cli_append, checked_cli_capture_total.
  pose proof (retain_holds b s data Hb) as [Hr Hl]. destruct Hb as (_ & _ & ->).
  rewrite length_app in *. rewrite (proj2 (Z.ltb_ge _ _)) by lia.
  rewrite <- Nat2Z.inj_add. eauto.
Qed.

(** C39.  Refinement: however a stream of at most 2^64 - 1 bytes is cut into
    appends, the captured bytes are its first bytes up to half of the limit and
    its last bytes for the other half, the total is its exact length, it is
    reported truncated exactly when it is longer than the limit, and the buffer
    can be reused. *)
Theorem cli_capture_refines_stream lim chunks :
  Z.of_nat (length (concat chunks)) <= uint64_max →
  let s := concat chunks in
  ∃ b, cli_append_all (new_capture lim) chunks = (success tt, b) ∧
    take_capture b = (mkCaptured (retained_view lim s) (Z.of_nat (length s))
                        (bool_decide (lim < length s)%nat), new_capture lim).
Proof.
  intros Hmax s.
  assert (Hrun : ∀ chunks b seen, holds b seen → limit b = lim →
    Z.of_nat (length (seen ++ concat chunks)) <= uint64_max →
    ∃ b', cli_append_all b chunks = (success tt, b') ∧ holds b' (seen ++ concat chunks) ∧ limit b' = lim).
  { clear. induction chunks as [|c chunks IH]; intros b seen Hb Hl Hmax; cbn [cli_append_all concat] in *.
    - rewrite app_nil_r. eauto.
    - destruct (cli_append_holds b seen c Hb) as (b1 & -> & Hb1 & Hl1).
      { rewrite !length_app in *. lia. }
      rewrite app_assoc in Hmax |- *. apply IH; [done|congruence|done]. }
  destruct (Hrun chunks (new_capture lim) [] (new_capture_holds lim) eq_refl Hmax) as (b & Hb & Hh & Hl).
  exists b. split; [done|]. rewrite (take_capture_holds b _ Hh), Hl. done.
Qed.

(** The HTTP buffer keeps the same promise for an append of
    [element_count] elements of [element_size] bytes: the product is computed
    without overflow, an overflow and a null pointer are reported without any
    change, and otherwise the readable bytes join the stream. *)
Theorem http_append_refines_stream b s data element_size element_count :
  holds b s → 0 <= element_size <= size_max → 0 <= element_count <= size_max →
  Z.of_nat (length s) <= uint64_max →
  (∀ d, data = Some d → element_size * element_count <= Z.of_nat (length d)) →
  match http_append b data element_size element_count with
  | (success n, b') =>
      n = element_size * element_count ∧ n <= size_max ∧ limit b' = limit b ∧
      holds b' (s ++ take (Z.to_nat n) (default [] data)) ∧ (data = None → n = 0)
  | (failure e, b') =>
      b' = b ∧ (uint64_max - Z.of_nat (length s) < element_size * element_count ∨ data = None)
  end.
Proof.
  intros Hb Hes Hec Hs Hd. unfold http_append, checked_capture_append_size.
  pose proof Hb as (_ & _ & Ht). rewrite Ht.
  assert (Hzero : 0 = 0 ∧ 0 <= size_max ∧ limit b = limit b ∧
    holds b (s ++ take (Z.to_nat 0) (default [] data)) ∧ (data = None → 0 = 0)).
  { rewrite take_0, app_nil_r. unfold size_max, uint64_max. split_and!; (done || lia). }
  destruct (Z.eqb_spec element_size 0) as [->|Hne]; cbn [negb andb].
  { rewrite Z.mul_0_l, (proj2 (Z.ltb_ge _ _)) by lia. exact Hzero. }
  destruct (Z.ltb_spec (size_max / element_size) element_count) as [Hov|Hok].
  { split; [done|]. left. unfold size_max, uint64_max in *.
    pose proof (Z.mul_succ_div_gt (2 ^ 64 - 1) element_size ltac:(lia)). nia. }
  destruct (Z.ltb_spec (uint64_max - Z.of_nat (length s)) (element_size * element_count)); [by eauto|].
  assert (Hmul : element_size * element_count <= size_max).
  { pose proof (Z.mul_div_le size_max element_size ltac:(lia)). nia. }
  destruct (Z.eqb_spec (element_size * element_count) 0) as [H0|Hn0].
  { rewrite H0. exact Hzero. }
  destruct data as [d|]; [|by eauto]. specialize (Hd d eq_refl). cbn [default].
  pose proof (retain_holds b s (take (Z.to_nat (element_size * element_count)) d) Hb) as [Hr Hl].
  rewrite length_app, length_take in Hr, Hl.
  replace (Z.of_nat (length s + Z.to_nat (element_size * element_count) `min` length d))
    with (Z.of_nat (length s) + element_size * element_count) in Hr, Hl by nia.
  split_and!; done.
Qed.

Lemma cli_capture_refines_stream_witness :
  ∃ b, cli_append_all (new_capture 5) [[1; 2]; [3; 4; 5; 6]; [7; 8; 9]] = (success tt, b) ∧
    take_capture b = (mkCaptured [1; 2; 3; 8; 9] 9 true, new_capture 5).
Proof.
  apply (cli_capture_refines_stream 5 [[1; 2]; [3; 4; 5; 6]; [7; 8; 9]]).
  unfold uint64_max. simpl. lia.
Defined.

Lemma http_append_refines_stream_witness :
  let b := new_capture 4 in
  let '(r, b') := http_append b (Some [1; 2; 3; 4; 5; 6]) 2 3 in
  r = success 6 ∧ holds b' [1; 2; 3; 4; 5; 6].
Proof.
  intros b.
  pose proof (http_append_refines_stream b [] (Some [1; 2; 3; 4; 5; 6]) 2 3 (new_capture_holds 4)) as H.
  unfold size_max, uint64_max in H. specialize (H ltac:(lia) ltac:(lia) ltac:(simpl; lia)).
  assert (Hd : ∀ d, Some [1; 2; 3; 4; 5; 6] = Some d → 2 * 3 <= Z.of_nat (length d)).
  { intros d [= <-]. simpl. lia. }
  specialize (H Hd). destruct (http_append b (Some [1; 2; 3; 4; 5; 6]) 2 3) as [[n|e] b'].
  - destruct H as (-> & _ & _ & Hh & _). split; [done|exact Hh].
  - destruct H as [_ [H|H]]; [simpl in H; lia|done].
Defined.
