(* ===== verification/CliExitPolicy.v ===== *)
(** * Exit policy of command-line jobs: [src/jobu/cli_exit_policy_priv.cpp]

    The selectors of retryable exit codes, their normalised set, and the
    mapping of an observed process exit to an attempt completion.  The JSON
    encoder is a third-party codec behind [core/json.hpp]; it is a parameter of
    the mapping. *)

From stdpp Require Import base numbers strings list.
From Stdlib Require Import Ascii.
From S2P Require Import Prelude Values OutputCapture.
Local Open Scope Z_scope.

(** ** Process observations: [core/process.hpp] *)

Inductive ProcessExitKind := Exited | Signaled | TimedOut | CancelledExit | InterruptedExit | StartFailed.

Record ProcessExit := mkExit {
  kind : ProcessExitKind; exit_code : option Z; signal_number : option Z; start_error : option Error;
  stdout_lost : bool; stderr_lost : bool }.

Inductive CliCaptureMode := CaptureNone | CaptureOnError | CaptureAlways.

Record CliCaptureSnapshot := mkSnapshot {
  standard_output : Captured; standard_error : Captured; capture_lost : bool }.

(** ** Selectors *)

Definition kMaximumRetryExitCodeSelectors : Z := 64.
Definition kMaximumExitCode : Z := 255.
Definition kMaximumCompletionResultBytes : Z := 256 * 1024.

Record CliExitCodeRange := mkRange { first : Z; last_ : Z }.

(** One digit; the 16-bit accumulator is at most 255 before it. *)
Definition exit_code_digit (v c : Z) : option Z :=
  if (c <? #"0") || (#"9" <? c) then None
  else
    let v := wrap_unsigned 16 (v * 10 + (c - #"0")) in
    if kMaximumExitCode <? v then None else Some v.

Definition parse_exit_code (text : bytes) : option Z :=
  if bool_decide (text = []) || ((1 <? Z.of_nat (length text)) && bool_decide (head text = Some #"0"))
  then None else fold_opt exit_code_digit 0 text.

Definition parse_selector (selector : bytes) : option CliExitCodeRange :=
  match find #"-" selector with
  | None => code ← parse_exit_code selector; Some (mkRange code code)
  | Some separator =>
      match find_from #"-" selector (S separator) with
      | Some _ => None
      | None =>
          first ← parse_exit_code (take separator selector);
          last ← parse_exit_code (drop (S separator) selector);
          if last <=? first then None else Some (mkRange first last)
      end
  end.

(** The ascending walk over normalised ranges. *)
Fixpoint contains_in (ranges : list CliExitCodeRange) (code : Z) : bool :=
  match ranges with
  | [] => false
  | r :: ranges => if code <? first r then false
                   else if code <=? last_ r then true else contains_in ranges code
  end.

Definition contains (ranges : list CliExitCodeRange) (exit_code : Z) : bool :=
  if (exit_code <? 0) || (kMaximumExitCode <? exit_code) then false else contains_in ranges exit_code.

Definition selector_of (v : AttributeValue) : option CliExitCodeRange :=
  match v with AttrString s => parse_selector s | _ => None end.

(** The merge loop; [previous] is [normalized.back()]. *)
Fixpoint normalize (previous : CliExitCodeRange) (ranges : list CliExitCodeRange)
    : option (list CliExitCodeRange) :=
  match ranges with
  | [] => Some [previous]
  | range :: ranges =>
      if first range <=? last_ previous then None
      else if first range =? last_ previous + 1
      then normalize (mkRange (first previous) (last_ range)) ranges
      else rest ← normalize range ranges; Some (previous :: rest)
  end.

(** [std::ranges::sort] by [first]; ranges with the same [first] overlap and
    are rejected in whatever order they end up. *)
Definition decode_cli_retry_exit_codes (selectors : list AttributeValue)
    : option (list CliExitCodeRange) :=
  if kMaximumRetryExitCodeSelectors <? Z.of_nat (length selectors) then None
  else
    ranges ← mapM selector_of selectors;
    match stable_sort first ranges with
    | [] => Some []
    | r :: ranges => normalize r ranges
    end.

(** ** Completion *)

Definition invalid_result (detail : string) : Error :=
  mkError Internal "jobu.cli.invalid_result" "CLI completion result could not be represented safely" detail.

Definition capture_result (capture : Captured) (discard : bool) : JsonValue :=
  let captured := if discard then 0 else Z.of_nat (length (captured_bytes capture)) in
  JsonObject [(bs!"captured_bytes", JsonUint captured);
              (bs!"total_bytes", JsonUint (captured_total capture));
              (bs!"truncated", JsonBool (captured <? captured_total capture))].

Definition valid_exit_code (v : option Z) : bool :=
  match v with Some c => (0 <=? c) && (c <=? kMaximumExitCode) | None => false end.
Definition valid_signal (v : option Z) : bool :=
  match v with Some s => 0 <? s | None => false end.
Definition valid_start_error (e : option Error) : bool :=
  match e with Some e => String.prefix "core.process." (code e) | None => false end.

Definition has {A} (o : option A) : bool := bool_decide (is_Some o).

Definition validate_process_exit (e : ProcessExit) : result Error unit :=
  let has_exit_code := has (exit_code e) in
  let has_signal := has (signal_number e) in
  let has_error := has (start_error e) in
  match kind e with
  | Exited =>
      if negb (valid_exit_code (exit_code e)) || has_signal || has_error
      then failure (invalid_result "invalid_exit_observation") else success tt
  | Signaled =>
      if has_exit_code || negb (valid_signal (signal_number e)) || has_error
      then failure (invalid_result "invalid_signal_observation") else success tt
  | TimedOut | CancelledExit =>
      if Bool.eqb has_exit_code has_signal || has_error ||
         (has_exit_code && negb (valid_exit_code (exit_code e))) ||
         (has_signal && negb (valid_signal (signal_number e)))
      then failure (invalid_result "invalid_stop_observation") else success tt
  | StartFailed =>
      if has_exit_code || has_signal || negb (valid_start_error (start_error e))
      then failure (invalid_result "invalid_start_failure") else success tt
  | InterruptedExit => failure (invalid_result "interrupted_reserved")
  end.

Definition add_observed_terminal (o : list (bytes * JsonValue)) (e : ProcessExit)
    : list (bytes * JsonValue) :=
  match exit_code e, signal_number e with
  | Some c, _ => emplace bs!"exit_code" (JsonUint (wrap_unsigned 64 c)) o
  | None, Some s => emplace bs!"signal" (JsonUint (wrap_unsigned 64 s)) o
  | None, None => o
  end.

Record CliCompletionPolicy := mkPolicy {
  outcome : AttemptOutcome; failure_disposition : option FailureDisposition;
  policy_result : JsonValue; output : option AttemptOutput }.

Section Completion.

(** [jb::core::serialize_json]. *)
Context (serialize_json : JsonValue → option bytes).

Definition finish_result (o : list (bytes * JsonValue)) : result Error JsonValue :=
  let v := JsonObject o in
  match serialize_json v with
  | None => failure (invalid_result "serialization_failed")
  | Some text =>
      if kMaximumCompletionResultBytes <? Z.of_nat (length text)
      then failure (invalid_result "serialized_size_exceeded") else success v
  end.

(** The [switch] over the kind of exit: outcome, disposition and members. *)
Definition classify (e : ProcessExit) (expected : Z → bool) (retry : list CliExitCodeRange)
    (o : list (bytes * JsonValue))
    : result Error (AttemptOutcome * option FailureDisposition * list (bytes * JsonValue)) :=
  match kind e with
  | Exited =>
      let code := default 0 (exit_code e) in
      let is_expected := expected code in
      let retryable := negb is_expected && contains retry code in
      let o := emplace bs!"exit_code" (JsonUint (wrap_unsigned 64 code)) o in
      let o := emplace bs!"outcome"
                 (json_string (if is_expected then bs!"success" else bs!"unexpected_exit")) o in
      success (if is_expected then (Succeeded, None, o)
               else (Failed, Some (if retryable then Retryable else Terminal), o))
  | Signaled =>
      success (Failed, Some Retryable,
               add_observed_terminal (emplace bs!"outcome" (json_string bs!"signal") o) e)
  | TimedOut =>
      success (Failed, Some Retryable,
               add_observed_terminal (emplace bs!"outcome" (json_string bs!"timeout") o) e)
  | CancelledExit =>
      success (Cancelled_, None,
               add_observed_terminal (emplace bs!"outcome" (json_string bs!"cancelled") o) e)
  | StartFailed =>
      let error_code := match start_error e with Some err => bytes_of (code err) | None => [] end in
      success (Failed, Some Terminal,
               emplace bs!"outcome" (json_string bs!"start_failure")
                 (emplace bs!"error_code" (json_string error_code) o))
  | InterruptedExit => failure (invalid_result "interrupted_reserved")
  end.

Definition map_cli_completion (e : ProcessExit) (expected : Z → bool) (retry : list CliExitCodeRange)
    (mode : CliCaptureMode) (capture : CliCaptureSnapshot) : result Error CliCompletionPolicy :=
  _ ← validate_process_exit e;
  let lost := capture_lost capture || stdout_lost e || stderr_lost e in
  let discard := match mode with CaptureNone => true | _ => false end in
  let o := [(bs!"capture_lost", JsonBool lost);
            (bs!"stderr", capture_result (standard_error capture) discard);
            (bs!"stdout", capture_result (standard_output capture) discard);
            (bs!"type", json_string bs!"cli")] in
  '(outcome, disposition, o) ← classify e expected retry o;
  v ← finish_result o;
  let persist := match mode with
                 | CaptureAlways => true
                 | CaptureOnError => match outcome with Succeeded => false | _ => true end
                 | CaptureNone => false
                 end in
  success (mkPolicy outcome disposition v
    (if persist then Some (mkOutput (Some (standard_output capture)) (Some (standard_error capture)) lost)
     else None)).

End Completion.

(** ** Selectors denote ranges *)

Lemma exit_code_digit_spec v c v' :
  0 <= v <= 255 → exit_code_digit v c = Some v' →
  ascii_digit c = true ∧ v' = v * 10 + (c - 48) ∧ 0 <= v' <= 255.
Proof.
  unfold exit_code_digit, ascii_digit, kMaximumExitCode, wrap_unsigned. intros Hv.
  destruct (Z.ltb_spec c 48); [done|]. destruct (Z.ltb_spec 57 c); [done|]. cbn [orb].
  rewrite Z.mod_small by (simpl; lia). destruct (Z.ltb_spec 255 (v * 10 + (c - 48))); [done|].
  intros [= <-]. rewrite andb_true_iff, !Z.leb_le. lia.
Qed.

Lemma exit_code_digits s v :
  fold_opt exit_code_digit 0 s = Some v ↔
  forallb ascii_digit s = true ∧ v = digits_value s ∧ digits_value s <= 255.
Proof.
  revert v. induction s as [|c s IH] using rev_ind; intros v.
  { simpl. split; [intros [= <-]; change (digits_value []) with 0; split_and!; done|by intros (_ & -> & _)]. }
  rewrite fold_opt_app, forallb_app, andb_true_iff, digits_value_app. cbn [forallb length].
  rewrite andb_true_r. change (digits_value [c]) with (0 * 10 + (c - 48)).
  change (10 ^ Z.of_nat 1) with 10. split.
  - destruct (fold_opt exit_code_digit 0 s) as [w|]; [|done]. cbn [mbind option_bind fold_opt].
    destruct (IH w) as [Hw _]. destruct (Hw eq_refl) as (Hs & -> & Hle).
    pose proof (digits_value_nonneg s Hs).
    destruct (exit_code_digit _ c) as [v'|] eqn:Hc; [|done]. intros [= <-].
    apply exit_code_digit_spec in Hc as (? & -> & ?); [|lia]. split_and!; (done || lia).
  - intros ([Hs Hc] & -> & Hle). pose proof (digits_value_nonneg s Hs).
    pose proof Hc as Hc'. unfold ascii_digit in Hc'. rewrite andb_true_iff, !Z.leb_le in Hc'.
    destruct (IH (digits_value s)) as [_ Hf]. rewrite Hf by (split_and!; (done || lia)).
    cbn [mbind option_bind fold_opt]. unfold exit_code_digit, kMaximumExitCode, wrap_unsigned.
    rewrite (proj2 (Z.ltb_ge c 48)), (proj2 (Z.ltb_ge 57 c)) by lia. cbn [orb].
    rewrite Z.mod_small by (simpl; lia). rewrite (proj2 (Z.ltb_ge _ _)) by lia. cbn. done.
Qed.

Definition padded (s : bytes) : bool :=
  (1 <? Z.of_nat (length s)) && bool_decide (head s = Some #"0").

Lemma decimal_not_padded n : 0 <= n <= 255 → padded (decimal n) = false.
Proof.
  intros Hn. apply negb_true_iff.
  apply (interval_check (λ n, negb (padded (decimal n))) 0 256); [vm_compute; reflexivity|lia].
Qed.

(** An exit code is accepted exactly in its canonical decimal form. *)
Lemma parse_exit_code_spec s n : parse_exit_code s = Some n ↔ 0 <= n <= 255 ∧ s = decimal n.
Proof.
  unfold parse_exit_code. split.
  - case_bool_decide as Hne; [done|]. cbn [orb].
    destruct (Z.ltb_spec 1 (Z.of_nat (length s))) as [Hl|Hl]; cbn [andb];
      [case_bool_decide as Hz; [done|]|]; intros (Hd & -> & Hle)%exit_code_digits;
      (split; [pose proof (digits_value_nonneg s Hd); lia|]); symmetry; apply decimal_canonical;
      (split_and!; [done|done|]); [done|intros; lia].
  - intros [Hn ->]. destruct (decimal_spec n) as (Hv & Hd & Hne); [lia|].
    rewrite bool_decide_false by done. cbn [orb].
    fold (padded (decimal n)). rewrite (decimal_not_padded n Hn). apply exit_code_digits. rewrite Hv. split_and!; (done || lia).
Qed.

(** ** Normalised sets *)

Definition covers (r : CliExitCodeRange) (c : Z) : bool := (first r <=? c) && (c <=? last_ r).

(** How many ranges select the code. *)
Definition cover_count (c : Z) (rs : list CliExitCodeRange) : nat :=
  foldr (λ r n, ((if covers r c then 1 else 0) + n)%nat) 0%nat rs.

Definition range_ok (r : CliExitCodeRange) : Prop := 0 <= first r <= last_ r ∧ last_ r <= 255.

(** Ascending, with at least one unselected code between neighbours. *)
Fixpoint normalized (rs : list CliExitCodeRange) : Prop :=
  match rs with
  | [] => True
  | r :: rs => range_ok r ∧ match rs with [] => True | r' :: _ => last_ r + 1 < first r' end ∧ normalized rs
  end.

Lemma cover_count_perm c rs rs' : rs ≡ₚ rs' → cover_count c rs = cover_count c rs'.
Proof. induction 1; simpl in *; lia. Qed.

Lemma parse_selector_ok s r : parse_selector s = Some r → range_ok r.
Proof.
  unfold parse_selector. destruct (find 45 s).
  - destruct (find_from 45 s _); [done|]. destruct (parse_exit_code (take n s)) as [a|] eqn:Ha; [|done].
    cbn [mbind option_bind]. destruct (parse_exit_code (drop (S n) s)) as [b|] eqn:Hb; [|done].
    cbn [mbind option_bind]. apply parse_exit_code_spec in Ha as [? _], Hb as [? _].
    destruct (Z.leb_spec b a); [done|]. intros [= <-]. unfold range_ok. cbn. lia.
  - destruct (parse_exit_code s) as [a|] eqn:Ha; [|done]. apply parse_exit_code_spec in Ha as [? _].
    cbn. intros [= <-]. unfold range_ok. cbn. lia.
Qed.

Lemma covers_iff r c : covers r c = true ↔ first r <= c <= last_ r.
Proof. unfold covers. by rewrite andb_true_iff, !Z.leb_le. Qed.

(** Merging keeps every count; the only failure is a code selected twice. *)
Lemma normalize_spec p rs :
  range_ok p → Forall range_ok rs → ordered first (p :: rs) →
  match normalize p rs with
  | Some ns => normalized ns ∧ (∃ n ns', ns = n :: ns' ∧ first n = first p) ∧
               ∀ c, cover_count c ns = cover_count c (p :: rs)
  | None => ∃ c, (2 <= cover_count c (p :: rs))%nat
  end.
Proof.
  revert p. induction rs as [|r rs IH]; intros p Hp Hrs Hord; cbn [normalize].
  { split_and!; [done|by exists p, []|done]. }
  inversion_clear Hrs as [|? ? Hr Hrs']. destruct Hord as [Hpr [Hrr Hord]].
  pose proof (Hpr r ltac:(apply elem_of_cons; by left)) as Hle.
  destruct (Z.leb_spec (first r) (last_ p)).
  { exists (first r). cbn [cover_count foldr].
    assert (covers p (first r) = true) as -> by (apply covers_iff; lia).
    assert (covers r (first r) = true) as -> by (apply covers_iff; unfold range_ok in Hr; lia). lia. }
  destruct (Z.eqb_spec (first r) (last_ p + 1)) as [He|Hne].
  - specialize (IH (mkRange (first p) (last_ r))).
    assert (Hcount : ∀ c, cover_count c (mkRange (first p) (last_ r) :: rs) = cover_count c (p :: r :: rs)).
    { intros c. cbn [cover_count foldr]. fold (cover_count c rs). unfold covers, range_ok in *. cbn.
      destruct (Z.leb_spec (first p) c), (Z.leb_spec c (last_ r)), (Z.leb_spec c (last_ p)),
        (Z.leb_spec (first r) c); cbn; lia. }
    assert (Hord' : ordered first (mkRange (first p) (last_ r) :: rs)).
    { split; [|done]. intros y Hy. cbn. apply Hpr, elem_of_cons. by right. }
    destruct (normalize _ rs) as [ns|].
    + destruct IH as (? & ? & Hc); [unfold range_ok in *; cbn; lia|done|done|].
      split_and!; [done|done|]. intros c. by rewrite Hc, Hcount.
    + destruct IH as [c Hc]; [unfold range_ok in *; cbn; lia|done|done|]. exists c. by rewrite <- Hcount.
  - specialize (IH r Hr Hrs' (conj Hrr Hord)). destruct (normalize r rs) as [ns|]; cbn [mbind option_bind].
    + destruct IH as (Hn & (n & ns' & -> & Hfn) & Hc). split_and!.
      * split_and!; [apply Hp..| |done]. cbn. lia.
      * by exists p, (n :: ns').
      * intros c. cbn [cover_count foldr]. f_equal. apply Hc.
    + destruct IH as [c Hc]. exists c. cbn [cover_count foldr] in *. lia.
Qed.

Lemma normalized_count ns c :
  normalized ns → cover_count c ns = if contains_in ns c then 1%nat else 0%nat.
Proof.
  assert (Hbelow : ∀ ns r c, normalized (r :: ns) → c < first r → cover_count c (r :: ns) = 0%nat).
  { clear. induction ns as [|r' ns IH]; intros r c (Hr & Hgap & Hn) Hc; cbn [cover_count foldr] in *.
    - assert (covers r c = false) as -> by (unfold covers; by rewrite (proj2 (Z.leb_gt _ _) Hc)). done.
    - assert (covers r c = false) as -> by (unfold covers; by rewrite (proj2 (Z.leb_gt _ _) Hc)).
      rewrite Nat.add_0_l. apply (IH r' c Hn). unfold range_ok in Hr. lia. }
  induction ns as [|r ns IH]; intros Hn; [done|]. cbn [contains_in].
  destruct (Z.ltb_spec c (first r)) as [Hlt|Hge]; [by apply Hbelow|].
  destruct Hn as (Hr & Hgap & Hn). cbn [cover_count foldr]. fold (cover_count c ns).
  destruct (Z.leb_spec c (last_ r)) as [Hle|Hgt].
  - assert (covers r c = true) as -> by (apply covers_iff; lia).
    destruct ns as [|r' ns]; [done|]. rewrite (Hbelow ns r' c Hn); [done|lia].
  - assert (covers r c = false) as -> by (unfold covers; by rewrite (proj2 (Z.leb_gt c (last_ r)) Hgt), andb_false_r).
    rewrite Nat.add_0_l. by apply IH.
Qed.

Lemma cover_count_exists c rs : (1 <= cover_count c rs)%nat ↔ ∃ r, r ∈ rs ∧ covers r c = true.
Proof.
  induction rs as [|r rs IH]; cbn [cover_count foldr].
  { split; [lia|]. intros (r & Hr & _). by apply elem_of_nil in Hr. }
  fold (cover_count c rs). setoid_rewrite elem_of_cons. destruct (covers r c) eqn:Hc.
  - split; [intros _; exists r; auto|lia].
  - rewrite Nat.add_0_l, IH. split; [intros (x & ? & ?); eauto|].
    intros (x & [->|?] & ?); [congruence|eauto].
Qed.

(** The set of retryable exit codes is exactly what the selectors say:
    decoding succeeds iff there are at most 64 selectors, each is a code or an
    ascending range in canonical decimals, and no code is selected twice; the
    resulting set is normalised and contains precisely the selected codes. *)
Theorem decode_cli_retry_exit_codes_spec selectors :
  match decode_cli_retry_exit_codes selectors with
  | Some ns =>
      ∃ rs, mapM selector_of selectors = Some rs ∧ Z.of_nat (length selectors) <= 64 ∧ normalized ns ∧
        (∀ c, (cover_count c rs <= 1)%nat) ∧
        ∀ c, contains ns c = true ↔ ∃ r, r ∈ rs ∧ first r <= c <= last_ r
  | None =>
      64 < Z.of_nat (length selectors) ∨ mapM selector_of selectors = None ∨
      ∃ rs c, mapM selector_of selectors = Some rs ∧ (2 <= cover_count c rs)%nat
  end.
Proof.
  unfold decode_cli_retry_exit_codes, kMaximumRetryExitCodeSelectors.
  destruct (Z.ltb_spec 64 (Z.of_nat (length selectors))); [by left|].
  destruct (mapM selector_of selectors) as [rs|] eqn:Hrs; cbn [mbind option_bind]; [|by right; left].
  assert (Hok : Forall range_ok rs).
  { apply mapM_Some in Hrs. clear -Hrs. induction Hrs as [|v r vs rs Hv Hrs IH]; constructor; [|done].
    destruct v; try done. by eapply parse_selector_ok. }
  pose proof (stable_sort_perm first rs) as Hperm. pose proof (stable_sort_ordered first rs) as Hord.
  assert (Hfinish : ∀ ns, normalized ns → (∀ c, cover_count c ns = cover_count c rs) →
    normalized ns ∧ (∀ c, (cover_count c rs <= 1)%nat) ∧
    ∀ c, contains ns c = true ↔ ∃ r, r ∈ rs ∧ first r <= c <= last_ r).
  { intros ns Hn Hc. split_and!; [done| |].
    - intros c. rewrite <- Hc, normalized_count by done. case_match; lia.
    - intros c.
      assert (Hin : contains_in ns c = true ↔ ∃ r, r ∈ rs ∧ covers r c = true).
      { rewrite <- cover_count_exists, <- Hc, normalized_count by done.
        destruct (contains_in ns c); split; (done || lia). }
      assert (Hout : ∀ r, r ∈ rs → covers r c = true → 0 <= c <= 255).
      { intros r Hr Hcov%covers_iff. rewrite Forall_forall in Hok. specialize (Hok r Hr).
        unfold range_ok in Hok. lia. }
      setoid_rewrite <- covers_iff. rewrite <- Hin. unfold contains, kMaximumExitCode.
      destruct (Z.ltb_spec c 0), (Z.ltb_spec 255 c); cbn [orb]; try done;
        (split; [done|]; intros (r & Hr & Hcov)%Hin; specialize (Hout r Hr Hcov); lia). }
  rewrite <- Hperm in Hok.
  assert (Hcp : ∀ c, cover_count c (stable_sort first rs) = cover_count c rs)
    by (intros c; by apply cover_count_perm).
  destruct (stable_sort first rs) as [|p ps].
  - exists rs. split; [done|]. split; [lia|]. by apply Hfinish.
  - inversion_clear Hok as [|? ? Hp Hps]. pose proof (normalize_spec p ps Hp Hps Hord) as Hn.
    destruct (normalize p ps) as [ns|].
    + destruct Hn as (Hn & _ & Hc). exists rs. split; [done|]. split; [lia|]. apply Hfinish; [done|].
      intros c. by rewrite Hc.
    + destruct Hn as [c Hc]. right. right. exists rs, c. split; [done|]. by rewrite <- Hcp.
Qed.

(** ** Completions *)

Lemma validate_exited e :
  kind e = Exited → validate_process_exit e = success tt → ∃ c, exit_code e = Some c ∧ 0 <= c <= 255.
Proof.
  unfold validate_process_exit. intros ->. unfold valid_exit_code, kMaximumExitCode.
  destruct (exit_code e) as [c|]; [|done].
  destruct (Z.leb_spec 0 c), (Z.leb_spec c 255); cbn [andb negb orb]; try done. eauto.
Qed.

(** The contract of [attempt_executor.hpp] between outcome and disposition. *)
Definition disposition_ok (o : AttemptOutcome) (d : option FailureDisposition) : Prop :=
  match o with
  | Succeeded | Cancelled_ => d = None
  | Failed => is_Some d
  | Interrupted => False
  end.

Lemma classify_spec e expected retry members o d members' :
  validate_process_exit e = success tt → classify e expected retry members = success (o, d, members') →
  disposition_ok o d ∧
  (o = Succeeded ↔ kind e = Exited ∧ ∃ c, exit_code e = Some c ∧ expected c = true) ∧
  (d = Some Retryable ↔ kind e = Signaled ∨ kind e = TimedOut ∨
    kind e = Exited ∧ ∃ c, exit_code e = Some c ∧ expected c = false ∧ contains retry c = true).
Proof.
  intros Hv Hc. unfold classify in Hc. destruct (kind e) eqn:Hk; try done;
    try (injection Hc as <- <- _; split; [done || by eexists|]; split; intuition (discriminate || auto)).
  destruct (validate_exited e Hk Hv) as (c & Hcode & _). rewrite Hcode in Hc |- *. cbn [default from_option id] in Hc.
  assert (Hex : ∀ P : Z → Prop, (∃ c', Some c = Some c' ∧ P c') ↔ P c).
  { intros P. split; [by intros (c' & [= <-] & ?)|eauto]. }
  rewrite (Hex (λ c, expected c = true)), (Hex (λ c, expected c = false ∧ contains retry c = true)).
  destruct (expected c); cbn [negb andb] in Hc; [|destruct (contains retry c)];
    injection Hc as <- <- _; (split; [done || by eexists|]); split; intuition (discriminate || auto).
Qed.

(** Every completion the CLI runner reports obeys the contract of the
    attempt executor: success and cancellation carry no disposition, a failure
    always does, and [Interrupted] is never reported.  It succeeds exactly for
    an expected exit code, it is retryable exactly for a signal, a timeout or
    an unexpected code of the retry set, and output is kept exactly as the
    capture mode says. *)
Theorem map_cli_completion_contract serialize e expected retry mode capture p :
  map_cli_completion serialize e expected retry mode capture = success p →
  disposition_ok (outcome p) (failure_disposition p) ∧
  (outcome p = Succeeded ↔ kind e = Exited ∧ ∃ c, exit_code e = Some c ∧ expected c = true) ∧
  (failure_disposition p = Some Retryable ↔
     kind e = Signaled ∨ kind e = TimedOut ∨
     kind e = Exited ∧ ∃ c, exit_code e = Some c ∧ expected c = false ∧ contains retry c = true) ∧
  (is_Some (output p) ↔ mode = CaptureAlways ∨ mode = CaptureOnError ∧ outcome p ≠ Succeeded).
Proof.
  unfold map_cli_completion. destruct (validate_process_exit e) as [[]|] eqn:Hv; [|done].
  cbn [mbind result_bind].
  destruct (classify e expected retry _) as [[[o d] members]|] eqn:Hc; [|done]. cbn [mbind result_bind].
  destruct (finish_result serialize members) as [v|]; [|done]. cbn [mbind result_bind].
  intros [= <-]. cbn [outcome failure_disposition output].
  assert (Hclass : disposition_ok o d ∧
    (o = Succeeded ↔ kind e = Exited ∧ ∃ c, exit_code e = Some c ∧ expected c = true) ∧
    (d = Some Retryable ↔ kind e = Signaled ∨ kind e = TimedOut ∨
      kind e = Exited ∧ ∃ c, exit_code e = Some c ∧ expected c = false ∧ contains retry c = true)).
  { by eapply classify_spec. }
  destruct Hclass as (Hd & Hs & Hr). split_and!; [done|done|done|].
  destruct mode; [| |]; cbn.
  - split; [by intros [? ?]|]. intros [?|[? _]]; done.
  - destruct o; (split; [intros [? ?]; (done || by right)|intros [?|[_ ?]]; (done || eauto)]).
  - split; [by left|eauto].
Qed.

Lemma map_cli_completion_contract_witness :
  let e := mkExit Exited (Some 75) None None false false in
  let empty := mkCaptured [] 0 false in
  let run := map_cli_completion (λ _, Some []) e (λ c, c =? 0) [mkRange 70 80] CaptureOnError
               (mkSnapshot empty empty false) in
  ∃ p, run = success p ∧ outcome p = Failed ∧ failure_disposition p = Some Retryable ∧ is_Some (output p).
Proof.
  intros e empty run. destruct run as [p|err] eqn:Hrun; [|discriminate Hrun].
  exists p. split; [reflexivity|].
  destruct (map_cli_completion_contract (λ _, Some []) e (λ c, c =? 0) [mkRange 70 80] CaptureOnError
    (mkSnapshot empty empty false) p Hrun) as (Hd & Hs & Hr & Ho).
  assert (Hf : outcome p = Failed) by (vm_compute in Hrun; injection Hrun as <-; reflexivity).
  split; [exact Hf|]. split.
  - apply Hr. right. right. split; [reflexivity|]. exists 75. repeat split.
  - apply Ho. right. split; [reflexivity|]. by rewrite Hf.
Defined.
