(* ===== verification/Binary64.v ===== *)
(** * Binary floating point

    The [double] of the program, as much of it as the retry policy uses:
    decoding of a bit pattern, the comparisons, and addition, subtraction,
    multiplication and division rounded to nearest, ties to even.  Every
    finite double is a whole multiple of [2 ^ -1074], so its magnitude is kept
    as that integer and rounding is integer division. *)

From stdpp Require Import base numbers list.
From S2P Require Import Prelude.
Local Open Scope Z_scope.

(** ** Values *)

(** A sign (true is negative) and a magnitude in units of [2 ^ -1074]. *)
Inductive double :=
  | Finite (negative : bool) (units : Z)
  | Infinity (negative : bool)
  | NaN.

(** The magnitude of 1.0. *)
Definition one_units : Z := 2 ^ 1074.

(** The least magnitude above the finite range, [2 ^ 1024]. *)
Definition overflow_units : Z := 2 ^ 1024 * one_units.

Definition double_of_bits (bits : Z) : double :=
  let negative := Z.testbit bits 63 in
  let exponent := Z.shiftr bits 52 mod 2 ^ 11 in
  let fraction := bits mod 2 ^ 52 in
  if exponent =? 0 then Finite negative fraction
  else if exponent =? 2047 then (if fraction =? 0 then Infinity negative else NaN)
  else Finite negative ((2 ^ 52 + fraction) * 2 ^ (exponent - 1)).

(** The bit pattern of a value; that of a NaN is one of many. *)
Definition bits_of_double (x : double) : Z :=
  let sign negative : Z := if (negative : bool) then 2 ^ 63 else 0 in
  match x with
  | Finite negative units =>
      sign negative +
      (if units <? 2 ^ 52 then units
       else let e := Z.log2 units - 52 in (e + 1) * 2 ^ 52 + (units / 2 ^ e - 2 ^ 52))
  | Infinity negative => sign negative + 2047 * 2 ^ 52
  | NaN => 2047 * 2 ^ 52 + 2 ^ 51
  end.

Definition isfinite (x : double) : bool := match x with Finite _ _ => true | _ => false end.

(** ** Rounding *)

(** The integer nearest to [n / d], the even one of two. *)
Definition nearest_even (n d : Z) : Z :=
  let q := n / d in
  let r := n mod d in
  if (d <? 2 * r) || ((2 * r =? d) && Z.odd q) then q + 1 else q.

(** The exponent of the last of 53 significant bits of the magnitude [m]. *)
Definition last_place (m : Z) : Z := Z.max 0 (Z.log2 m - 52).

(** The magnitude nearest to [n / d] with 53 significant bits. *)
Definition round_units (n d : Z) : Z :=
  let s := last_place (n / d) in
  nearest_even n (d * 2 ^ s) * 2 ^ s.

Definition finish (negative : bool) (units : Z) : double :=
  if units <? overflow_units then Finite negative units else Infinity negative.

(** ** Arithmetic *)

Definition signed (negative : bool) (units : Z) : Z := if negative then - units else units.

Definition double_opp (x : double) : double :=
  match x with
  | Finite s m => Finite (negb s) m
  | Infinity s => Infinity (negb s)
  | NaN => NaN
  end.

Definition double_add (x y : double) : double :=
  match x, y with
  | NaN, _ | _, NaN => NaN
  | Infinity s, Infinity t => if eqb s t then Infinity s else NaN
  | Infinity s, Finite _ _ | Finite _ _, Infinity s => Infinity s
  | Finite s a, Finite t b =>
      let v := signed s a + signed t b in
      if v =? 0 then Finite (s && t) 0 else finish (v <? 0) (round_units (Z.abs v) 1)
  end.

Definition double_sub (x y : double) : double := double_add x (double_opp y).

Definition double_mul (x y : double) : double :=
  match x, y with
  | NaN, _ | _, NaN => NaN
  | Infinity s, Infinity t => Infinity (xorb s t)
  | Infinity s, Finite t m | Finite t m, Infinity s => if m =? 0 then NaN else Infinity (xorb s t)
  | Finite s a, Finite t b => finish (xorb s t) (round_units (a * b) one_units)
  end.

Definition double_div (x y : double) : double :=
  match x, y with
  | NaN, _ | _, NaN => NaN
  | Infinity _, Infinity _ => NaN
  | Infinity s, Finite t _ => Infinity (xorb s t)
  | Finite s _, Infinity t => Finite (xorb s t) 0
  | Finite s a, Finite t b =>
      if b =? 0 then (if a =? 0 then NaN else Infinity (xorb s t))
      else finish (xorb s t) (round_units (a * one_units) b)
  end.

Definition double_ltb (x y : double) : bool :=
  match x, y with
  | NaN, _ | _, NaN => false
  | Finite s a, Finite t b => signed s a <? signed t b
  | Infinity s, Infinity t => s && negb t
  | Infinity s, Finite _ _ => s
  | Finite _ _, Infinity t => negb t
  end.

Definition double_eqb (x y : double) : bool :=
  match x, y with
  | Finite s a, Finite t b => signed s a =? signed t b
  | Infinity s, Infinity t => eqb s t
  | _, _ => false
  end.

Definition double_leb (x y : double) : bool := double_ltb x y || double_eqb x y.

(** [static_cast<double>] of an integer. *)
Definition double_of_Z (n : Z) : double :=
  if n =? 0 then Finite false 0 else finish (n <? 0) (round_units (Z.abs n * one_units) 1).

(** [static_cast] to an integer type: the fraction is dropped.  The cast of
    a value outside the type has no defined result. *)
Definition double_to_Z (x : double) : option Z :=
  match x with Finite s m => Some (signed s (m / one_units)) | _ => None end.

(** ** Rounding is monotone and exact on doubles *)

Lemma one_units_pos : 0 < one_units.
Proof. unfold one_units. lia. Qed.

Lemma last_place_nonneg m : 0 <= last_place m.
Proof. unfold last_place. lia. Qed.

Lemma pow2_pos s : 0 <= s → 0 < 2 ^ s.
Proof. intros. by apply Z.pow_pos_nonneg. Qed.

Lemma div_mono_rational n1 d1 n2 d2 :
  0 < d1 → 0 < d2 → n1 * d2 <= n2 * d1 → n1 / d1 <= n2 / d2.
Proof.
  intros H1 H2 Hle. apply Z.div_le_lower_bound; [done|].
  apply (Z.mul_le_mono_pos_l _ _ d1); [done|]. pose proof (Z.mul_div_le n1 d1 H1). nia.
Qed.

Lemma nearest_even_mono n1 d1 n2 d2 :
  0 < d1 → 0 < d2 → n1 * d2 <= n2 * d1 → nearest_even n1 d1 <= nearest_even n2 d2.
Proof.
  intros H1 H2 Hle. unfold nearest_even.
  pose proof (Z.div_mod n1 d1 ltac:(lia)) as E1. pose proof (Z.mod_pos_bound n1 d1 H1) as R1.
  pose proof (Z.div_mod n2 d2 ltac:(lia)) as E2. pose proof (Z.mod_pos_bound n2 d2 H2) as R2.
  pose proof (div_mono_rational _ _ _ _ H1 H2 Hle) as Hq.
  set (q1 := n1 / d1) in *. set (q2 := n2 / d2) in *.
  set (r1 := n1 mod d1) in *. set (r2 := n2 mod d2) in *.
  destruct (decide (q1 = q2)) as [<-|]; [|repeat case_match; lia].
  assert (Hr : r1 * d2 <= r2 * d1) by nia.
  destruct (Z.ltb_spec d1 (2 * r1)); cbn [orb].
  { rewrite (proj2 (Z.ltb_lt d2 (2 * r2))) by nia. cbn [orb]. lia. }
  destruct (Z.eqb_spec (2 * r1) d1); cbn [andb]; [|repeat case_match; lia].
  destruct (Z.odd q1); [|repeat case_match; lia]. assert (d2 <= 2 * r2) by nia.
  destruct (Z.ltb_spec d2 (2 * r2)); cbn [orb]; [lia|].
  rewrite (proj2 (Z.eqb_eq (2 * r2) d2)) by lia. cbn [andb]. lia.
Qed.

Lemma nearest_even_exact m d : 0 < d → nearest_even (m * d) d = m.
Proof.
  intros. unfold nearest_even. rewrite Z.div_mul, Z.mod_mul by lia. rewrite Z.mul_0_r.
  rewrite (proj2 (Z.ltb_ge d 0)), (proj2 (Z.eqb_neq 0 d)) by lia. done.
Qed.

Lemma nearest_even_le n d m : 0 < d → n <= m * d → nearest_even n d <= m.
Proof. intros ? H. rewrite <- (nearest_even_exact m d) by done. apply nearest_even_mono; nia. Qed.

Lemma nearest_even_ge n d m : 0 < d → m * d <= n → m <= nearest_even n d.
Proof. intros ? H. rewrite <- (nearest_even_exact m d) by done. apply nearest_even_mono; nia. Qed.

(** The magnitude [m] needs at most 53 significant bits. *)
Definition representable (m : Z) : Prop := ∃ k s, 0 <= k <= 2 ^ 53 ∧ 0 <= s ∧ m = k * 2 ^ s.

Lemma last_place_bound m : 0 <= m → m < 2 ^ (53 + last_place m).
Proof.
  intros Hm. destruct (decide (m = 0)) as [->|]; [done|].
  eapply Z.lt_le_trans; [apply Z.log2_spec; lia|]. apply Z.pow_le_mono_r; unfold last_place; lia.
Qed.

Lemma last_place_lower m : 0 < last_place m → 2 ^ (52 + last_place m) <= m.
Proof.
  unfold last_place. intros. assert (52 < Z.log2 m) by lia.
  assert (0 < m) by (destruct (Z.lt_ge_cases 0 m); [done|]; rewrite Z.log2_nonpos in *; lia).
  replace (52 + Z.max 0 (Z.log2 m - 52)) with (Z.log2 m) by lia. by apply Z.log2_spec.
Qed.

Lemma last_place_mono a b : a <= b → last_place a <= last_place b.
Proof. intros H%Z.log2_le_mono. unfold last_place. lia. Qed.

Lemma round_units_representable n d : 0 <= n → 0 < d → representable (round_units n d).
Proof.
  intros Hn Hd. unfold round_units. set (s := last_place (n / d)).
  pose proof (last_place_nonneg (n / d)) as Hs. fold s in Hs. pose proof (pow2_pos s Hs).
  exists (nearest_even n (d * 2 ^ s)), s. split; [|done].
  pose proof (last_place_bound (n / d) ltac:(by apply Z.div_pos)) as Hb. fold s in Hb.
  rewrite Z.pow_add_r in Hb by lia. split; [apply nearest_even_ge|apply nearest_even_le]; [nia|nia|nia|].
  pose proof (Z.div_mod n d ltac:(lia)). pose proof (Z.mod_pos_bound n d Hd). nia.
Qed.

Lemma round_units_exact m d : 0 <= m → representable m → 0 < d → round_units (m * d) d = m.
Proof.
  intros Hm (k & s & Hk & Hs & ->) Hd. unfold round_units. rewrite Z.div_mul by lia.
  set (t := last_place (k * 2 ^ s)). pose proof (last_place_nonneg (k * 2 ^ s)) as Ht. fold t in Ht.
  pose proof (pow2_pos t Ht).
  assert (Hdiv : ∃ j, k * 2 ^ s = j * 2 ^ t).
  { destruct (Z.le_gt_cases t s) as [Hts|Hts].
    { exists (k * 2 ^ (s - t)). rewrite <- Z.mul_assoc, <- Z.pow_add_r by lia. do 2 f_equal. lia. }
    pose proof (last_place_lower (k * 2 ^ s) ltac:(fold t; lia)) as Hl. fold t in Hl.
    rewrite Z.pow_add_r in Hl by lia.
    assert (2 ^ (s + 1) <= 2 ^ t) by (apply Z.pow_le_mono_r; lia).
    rewrite Z.pow_add_r in * by lia. pose proof (pow2_pos s Hs).
    assert (k = 2 ^ 53) as -> by nia. assert (2 ^ t = 2 * 2 ^ s) as Hts2 by nia.
    exists (2 ^ 52). rewrite Hts2. lia. }
  destruct Hdiv as [j ->]. rewrite <- Z.mul_assoc, (Z.mul_comm (2 ^ t) d).
  by rewrite nearest_even_exact by nia.
Qed.

Lemma round_units_mono n1 d1 n2 d2 :
  0 <= n1 → 0 < d1 → 0 < d2 → n1 * d2 <= n2 * d1 → round_units n1 d1 <= round_units n2 d2.
Proof.
  intros Hn1 H1 H2 Hle.
  pose proof (div_mono_rational _ _ _ _ H1 H2 Hle) as Hq.
  unfold round_units. set (s1 := last_place (n1 / d1)). set (s2 := last_place (n2 / d2)).
  pose proof (last_place_nonneg (n1 / d1)) as P1. fold s1 in P1.
  assert (Hs : s1 <= s2) by (by apply last_place_mono).
  pose proof (pow2_pos s1 P1). pose proof (pow2_pos s2 ltac:(lia)).
  destruct (decide (s1 = s2)) as [<-|].
  { apply Z.mul_le_mono_nonneg_r; [lia|]. apply nearest_even_mono; nia. }
  pose proof (last_place_bound (n1 / d1) ltac:(by apply Z.div_pos)) as B1. fold s1 in B1.
  pose proof (last_place_lower (n2 / d2) ltac:(fold s2; lia)) as B2. fold s2 in B2.
  assert (Hp : 2 ^ (53 + s1) <= 2 ^ (52 + s2)) by (apply Z.pow_le_mono_r; lia).
  rewrite !Z.pow_add_r in * by lia.
  assert (nearest_even n1 (d1 * 2 ^ s1) <= 2 ^ 53).
  { apply nearest_even_le; [nia|]. pose proof (Z.div_mod n1 d1 ltac:(lia)).
    pose proof (Z.mod_pos_bound n1 d1 H1). nia. }
  assert (2 ^ 52 <= nearest_even n2 (d2 * 2 ^ s2)).
  { apply nearest_even_ge; [nia|]. pose proof (Z.mul_div_le n2 d2 H2). nia. }
  nia.
Qed.

Lemma round_units_le n d m :
  0 <= n → 0 < d → 0 <= m → representable m → n <= m * d → round_units n d <= m.
Proof. intros. rewrite <- (round_units_exact m d) by done. apply round_units_mono; nia. Qed.

Lemma round_units_ge n d m :
  0 < d → 0 <= m → representable m → m * d <= n → m <= round_units n d.
Proof. intros. rewrite <- (round_units_exact m d) at 1 by done. apply round_units_mono; nia. Qed.

Lemma representable_small k s : 0 <= k <= 2 ^ 53 → 0 <= s → representable (k * 2 ^ s).
Proof. intros. by exists k, s. Qed.

(** A decoded double has a representable magnitude. *)
Lemma double_of_bits_representable bits s m :
  double_of_bits bits = Finite s m → 0 <= m ∧ representable m.
Proof.
  unfold double_of_bits. pose proof (Z.mod_pos_bound bits (2 ^ 52) ltac:(lia)) as Hf.
  pose proof (Z.mod_pos_bound (Z.shiftr bits 52) (2 ^ 11) ltac:(lia)) as He.
  destruct (Z.eqb_spec (Z.shiftr bits 52 mod 2 ^ 11) 0).
  { intros [= _ <-]. split; [lia|]. rewrite <- (Z.mul_1_r (bits mod _)). apply (representable_small _ 0); lia. }
  destruct (_ =? 2047); [by destruct (_ =? 0)|]. intros [= _ <-].
  pose proof (pow2_pos (Z.shiftr bits 52 mod 2 ^ 11 - 1) ltac:(lia)).
  split; [nia|]. apply representable_small; lia.
Qed.

(** ** Non-negative numbers

    [magnitude x m]: the number [x] is the non-negative real [m * 2 ^ -1074],
    zero of either sign included. *)

Definition magnitude (x : double) (m : Z) : Prop :=
  0 <= m ∧ representable m ∧ ∃ s, x = Finite s m ∧ (s = true → m = 0).

Lemma magnitude_intro s m : (s = true → m = 0) → 0 <= m → representable m → magnitude (Finite s m) m.
Proof. intros. split_and!; [done..|]. by exists s. Qed.

Lemma signed_magnitude (s : bool) m : (s = true → m = 0) → signed s m = m.
Proof. destruct s; simpl; [intros ->|]; done. Qed.

Lemma finish_small s m : m <= 2 ^ 60 * one_units → finish s m = Finite s m.
Proof.
  intros. unfold finish, overflow_units. pose proof one_units_pos.
  by rewrite (proj2 (Z.ltb_lt _ _)) by nia.
Qed.

Lemma representable_0 : representable 0.
Proof. exists 0, 0. lia. Qed.

Lemma round_units_0 d : 0 < d → round_units 0 d = 0.
Proof. intros. by apply (round_units_exact 0 d), H; [|apply representable_0]. Qed.

Lemma round_units_nonneg n d : 0 <= n → 0 < d → 0 <= round_units n d.
Proof. intros. apply round_units_ge; [done|done|apply representable_0|lia]. Qed.

Section Operations.
Context (x y : double) (a b : Z) (Hx : magnitude x a) (Hy : magnitude y b).

Lemma magnitude_ltb : double_ltb x y = (a <? b).
Proof.
  destruct Hx as (? & _ & s & -> & Hs), Hy as (? & _ & t & -> & Ht). simpl.
  by rewrite !signed_magnitude.
Qed.

Lemma magnitude_eqb : double_eqb x y = (a =? b).
Proof.
  destruct Hx as (? & _ & s & -> & Hs), Hy as (? & _ & t & -> & Ht). simpl.
  by rewrite !signed_magnitude.
Qed.

Lemma magnitude_leb : double_leb x y = (a <=? b).
Proof.
  unfold double_leb. rewrite magnitude_ltb, magnitude_eqb.
  destruct (Z.ltb_spec a b), (Z.eqb_spec a b), (Z.leb_spec a b); simpl; lia || done.
Qed.

Lemma magnitude_add : round_units (a + b) 1 <= 2 ^ 60 * one_units →
  magnitude (double_add x y) (round_units (a + b) 1).
Proof.
  intros Hr. destruct Hx as (? & _ & s & -> & Hs), Hy as (? & _ & t & -> & Ht). simpl.
  rewrite !signed_magnitude by done. destruct (Z.eqb_spec (a + b) 0) as [E|E].
  - rewrite E, round_units_0 by lia. by apply magnitude_intro; [|lia|apply representable_0].
  - rewrite Z.abs_eq, (proj2 (Z.ltb_ge _ _)), finish_small by (done || lia).
    apply magnitude_intro; [done|apply round_units_nonneg; lia|apply round_units_representable; lia].
Qed.

Lemma magnitude_sub : b <= a → round_units (a - b) 1 <= 2 ^ 60 * one_units →
  magnitude (double_sub x y) (round_units (a - b) 1).
Proof.
  intros Hle Hr. destruct Hx as (? & _ & s & -> & Hs), Hy as (? & _ & t & -> & Ht).
  unfold double_sub. cbn [double_opp double_add].
  assert (Hn : signed (negb t) b = - b) by (destruct t; simpl; [rewrite Ht|]; done).
  rewrite signed_magnitude, Hn, Z.add_opp_r by done.
  destruct (Z.eqb_spec (a - b) 0) as [E|E].
  - rewrite E, round_units_0 by lia. by apply magnitude_intro; [|lia|apply representable_0].
  - rewrite Z.abs_eq, (proj2 (Z.ltb_ge _ _)), finish_small by (done || lia).
    apply magnitude_intro; [done|apply round_units_nonneg; lia|apply round_units_representable; lia].
Qed.

Lemma magnitude_mul : round_units (a * b) one_units <= 2 ^ 60 * one_units →
  magnitude (double_mul x y) (round_units (a * b) one_units).
Proof.
  intros Hr. pose proof one_units_pos.
  destruct Hx as (? & _ & s & -> & Hs), Hy as (? & _ & t & -> & Ht). simpl.
  rewrite finish_small by done. apply magnitude_intro.
  - intros Hst. assert (a * b = 0) as -> by (destruct s, t; simpl in *; try done; rewrite ?Hs, ?Ht by done; lia).
    by apply round_units_0.
  - apply round_units_nonneg; nia.
  - apply round_units_representable; nia.
Qed.

Lemma magnitude_div : 0 < b → round_units (a * one_units) b <= 2 ^ 60 * one_units →
  magnitude (double_div x y) (round_units (a * one_units) b).
Proof.
  intros Hb Hr. pose proof one_units_pos.
  destruct Hx as (? & _ & s & -> & Hs), Hy as (? & _ & t & -> & Ht). simpl.
  rewrite (proj2 (Z.eqb_neq b 0)), finish_small by (done || lia).
  destruct t; [specialize (Ht eq_refl); lia|]. rewrite xorb_false_r. apply magnitude_intro.
  - intros ->. rewrite Hs by done. by apply round_units_0.
  - apply round_units_nonneg; nia.
  - apply round_units_representable; nia.
Qed.

Lemma magnitude_to_Z : double_to_Z x = Some (a / one_units).
Proof.
  destruct Hx as (? & _ & s & -> & Hs). simpl. f_equal. destruct s; [|done].
  rewrite Hs by done. by rewrite Z.div_0_l by (pose proof one_units_pos; lia).
Qed.

Lemma magnitude_isfinite : isfinite x = true.
Proof. by destruct Hx as (? & _ & s & -> & _). Qed.
End Operations.

Lemma representable_integer n : 0 <= n <= 2 ^ 53 → representable (n * one_units).
Proof. intros. by apply representable_small. Qed.

Lemma magnitude_of_Z n : 0 <= n <= 2 ^ 53 → magnitude (double_of_Z n) (n * one_units).
Proof.
  intros Hn. pose proof one_units_pos. unfold double_of_Z.
  destruct (Z.eqb_spec n 0) as [->|]; [by apply magnitude_intro; [|lia|apply representable_0]|].
  rewrite Z.abs_eq, (proj2 (Z.ltb_ge _ _)) by lia.
  rewrite <- (Z.mul_1_r (n * one_units)) at 1.
  rewrite round_units_exact by (try apply representable_integer; nia).
  rewrite finish_small by nia. by apply magnitude_intro; [|nia|apply representable_integer].
Qed.

(** ** Bit patterns *)

Lemma bits_fields (negative : bool) exponent fraction :
  0 <= exponent < 2 ^ 11 → 0 <= fraction < 2 ^ 52 →
  let bits := (if negative then 2 ^ 63 else 0) + exponent * 2 ^ 52 + fraction in
  Z.testbit bits 63 = negative ∧ Z.shiftr bits 52 mod 2 ^ 11 = exponent ∧ bits mod 2 ^ 52 = fraction.
Proof.
  intros He Hf. cbv zeta.
  assert (Hhi : ((if negative then 2 ^ 63 else 0) + exponent * 2 ^ 52 + fraction) / 2 ^ 52
                = (if negative then 2 ^ 11 else 0) + exponent).
  { replace (_ + _ + fraction) with (fraction + ((if negative then 2 ^ 11 else 0) + exponent) * 2 ^ 52)
      by (destruct negative; lia).
    rewrite Z.div_add by lia. rewrite Z.div_small by lia. lia. }
  split_and!.
  - rewrite Z.testbit_odd, Z.shiftr_div_pow2 by lia.
    change 63 with (52 + 11). rewrite Z.pow_add_r by lia. rewrite <- Z.div_div by lia.
    change (2 ^ 52 * 2 ^ 11) with (2 ^ 63). rewrite Hhi. destruct negative.
    + replace (2 ^ 11 + exponent) with (exponent + 1 * 2 ^ 11) by lia. rewrite Z.div_add, Z.div_small by lia. done.
    + rewrite Z.add_0_l, Z.div_small by lia. done.
  - rewrite Z.shiftr_div_pow2 by lia. rewrite Hhi. destruct negative.
    + replace (2 ^ 11 + exponent) with (exponent + 1 * 2 ^ 11) by lia. rewrite Z.mod_add, Z.mod_small by lia. done.
    + rewrite Z.add_0_l, Z.mod_small by lia. done.
  - replace (_ + _ + fraction) with (fraction + ((if negative then 2 ^ 11 else 0) + exponent) * 2 ^ 52)
      by (destruct negative; lia).
    rewrite Z.mod_add, Z.mod_small by lia. done.
Qed.

Lemma representable_last_place m : 2 ^ 52 <= m → representable m →
  m = m / 2 ^ (Z.log2 m - 52) * 2 ^ (Z.log2 m - 52) ∧ 2 ^ 52 <= m / 2 ^ (Z.log2 m - 52) < 2 ^ 53.
Proof.
  intros Hm (k & s & Hk & Hs & E). pose proof (Z.log2_spec m ltac:(lia)) as [Hlo Hhi].
  set (e := Z.log2 m - 52) in *. assert (He : 0 <= e).
  { pose proof (Z.log2_le_mono _ _ Hm) as H. rewrite Z.log2_pow2 in H by lia. lia. }
  replace (Z.succ (Z.log2 m)) with (53 + e) in Hhi by lia. replace (Z.log2 m) with (52 + e) in Hlo by lia.
  rewrite Z.pow_add_r in Hlo, Hhi by lia. pose proof (pow2_pos e He) as Hp.
  assert (Hdiv : m = m / 2 ^ e * 2 ^ e).
  { destruct (decide (e <= s)) as [Hes|Hes].
    - rewrite E at 1 2. replace s with (s - e + e) by lia. rewrite Z.pow_add_r, Z.mul_assoc, Z.div_mul by lia. done.
    - assert (k = 2 ^ 53 ∧ e = s + 1) as [-> ->].
      { assert (2 ^ e = 2 ^ (e - s) * 2 ^ s) as Hes' by (rewrite <- Z.pow_add_r by lia; f_equal; lia).
        pose proof (pow2_pos s Hs).
        assert (2 ^ 52 * 2 ^ (e - s) <= k) by nia.
        assert (e - s = 1) as Hone.
        { assert (e - s < 2); [|lia]. apply (Z.pow_lt_mono_r_iff 2); [lia|lia|]. change (2 ^ 2) with 4. nia. }
        split; [|lia]. rewrite Hone in *. lia. }
      rewrite E. rewrite Z.pow_add_r by lia. change (2 ^ 53) with (2 ^ 52 * 2). 
      replace (2 ^ 52 * 2 * 2 ^ s) with (2 ^ 52 * (2 ^ s * 2 ^ 1)) by lia. rewrite Z.div_mul by nia. lia. }
  split; [done|]. nia.
Qed.

(** Decoding the bit pattern of a double gives it back. *)
Lemma double_of_bits_of_double negative m :
  0 <= m < overflow_units → representable m →
  double_of_bits (bits_of_double (Finite negative m)) = Finite negative m.
Proof.
  intros Hm Hr. unfold bits_of_double. destruct (Z.ltb_spec m (2 ^ 52)) as [Hs|Hl].
  - pose proof (bits_fields negative 0 m ltac:(lia) ltac:(lia)) as (H1 & H2 & H3).
    rewrite Z.mul_0_l, Z.add_0_r in H1, H2, H3. unfold double_of_bits. by rewrite H1, H2, H3.
  - destruct (representable_last_place m Hl Hr) as [Hq Hb]. set (e := Z.log2 m - 52) in *.
    assert (0 <= e < 2046).
    { unfold e. pose proof (Z.log2_le_mono _ _ Hl) as H. rewrite Z.log2_pow2 in H by lia. split; [lia|].
      assert (Z.log2 m < 2098); [|lia]. apply Z.log2_lt_pow2; [lia|].
      unfold overflow_units, one_units in Hm. rewrite <- Z.pow_add_r in Hm by lia. apply Hm. }
    pose proof (bits_fields negative (e + 1) (m / 2 ^ e - 2 ^ 52) ltac:(lia) ltac:(lia)) as (H1 & H2 & H3).
    rewrite <- Z.add_assoc in H1, H2, H3. unfold double_of_bits. rewrite H1, H2, H3.
    destruct (Z.eqb_spec (e + 1) 0); [lia|]. destruct (Z.eqb_spec (e + 1) 2047); [lia|].
    f_equal. replace (e + 1 - 1) with e by lia. lia.
Qed.

(** In particular for an integer of 64 bits. *)
Lemma double_of_Z_bits n :
  Z.abs n <= 2 ^ 64 → double_of_bits (bits_of_double (double_of_Z n)) = double_of_Z n.
Proof.
  intros Hn. unfold double_of_Z. pose proof one_units_pos. destruct (Z.eqb_spec n 0) as [->|].
  { apply double_of_bits_of_double; [unfold overflow_units; lia|apply representable_0]. }
  assert (Hle : round_units (Z.abs n * one_units) 1 <= 2 ^ 64 * one_units).
  { apply round_units_le; [nia|lia|nia| |nia].
    replace (2 ^ 64 * one_units) with (2 ^ 50 * 2 ^ (14 + 1074)) by (unfold one_units; rewrite Z.pow_add_r by lia; lia).
    apply representable_small; lia. }
  assert (2 ^ 64 * one_units < overflow_units) by (unfold overflow_units; nia).
  unfold finish. rewrite (proj2 (Z.ltb_lt _ _)) by lia.
  apply double_of_bits_of_double; [split; [apply round_units_nonneg; nia|lia]|apply round_units_representable; nia].
Qed.
