(* ===== verification/RetryPolicy.v ===== *)
(** * Retry policies

    The delay before the next attempt and the decision to retry, after a
    failure and after an interruption: [src/jobu/retry_policy_priv.cpp],
    [src/jobu/recovery_retry_priv.cpp].

    Times and durations are 64-bit counts of nanoseconds; the conversions
    between the durations of the monotonic and of the UTC clock are then
    identities.  Checks of an enumeration against its own enumerators are left
    out: the types have no other values. *)

From stdpp Require Import base numbers strings list gmap.
From Stdlib Require Import Ascii.
From S2P Require Import Prelude Values Binary64.
Local Open Scope Z_scope.

Inductive RetryStrategy := Fixed | Exponential.

Record RetryPolicy := mkPolicy {
  max_attempts : Z;
  strategy : RetryStrategy;
  initial_delay : Z;
  max_delay : Z;
  multiplier : double;
  jitter : double;
  mode : RetryMode }.

Record RetryCompletion := mkCompletion {
  completed_run : bytes;
  attempt_number : Z;
  completed_outcome : AttemptOutcome;
  retryable : bool;
  retry_allowed : bool;
  completed_at : Z;
  retry_not_before : option Z }.

Record RetrySchedule := mkRetry { due_at : Z; retry_mode : RetryMode }.

Definition invalid_policy (detail : string) : Error :=
  mkError Internal "jobu.retry.invalid_policy" "Materialized retry attributes are invalid" detail.

Definition retry_time_out_of_range : Error :=
  mkError ResourceExhausted "jobu.retry.out_of_range"
    "Retry due time is outside the representable range" "".

(** ** Reading the attributes *)

(** [policy_attribute<T>], where [get] is [std::get_if<T>]. *)
Definition policy_attribute {T} (get : AttributeValue → option T) (attributes : AttributeSet)
    (name : string) : result Error T :=
  match attributes !! bytes_of name with
  | None => failure (invalid_policy ("Required retry field is missing: " +:+ name))
  | Some value =>
      ok_or (get value) (invalid_policy ("Retry field has an unexpected type: " +:+ name))
  end.

Definition get_integer (v : AttributeValue) : option Z :=
  match v with AttrInt n => Some n | _ => None end.
Definition get_string (v : AttributeValue) : option bytes :=
  match v with AttrString s => Some s | _ => None end.
Definition get_duration (v : AttributeValue) : option Z :=
  match v with AttrDuration ns => Some ns | _ => None end.
Definition get_double (v : AttributeValue) : option double :=
  match v with AttrDouble bits => Some (double_of_bits bits) | _ => None end.

Definition ns_per_hour : Z := 3600 * 1000000000.
Definition maximum_initial_delay : Z := 24 * ns_per_hour.
Definition maximum_delay : Z := 30 * 24 * ns_per_hour.

Definition double_zero : double := Finite false 0.
Definition double_one : double := Finite false one_units.
Definition double_two : double := Finite false (2 * one_units).
Definition double_hundred : double := Finite false (100 * one_units).

Definition validate_policy (policy : RetryPolicy) : result Error unit :=
  _ ← check (negb ((max_attempts policy <? 1) || (100 <? max_attempts policy)))
        (invalid_policy "retry.max_attempts is outside its accepted range");
  _ ← check (negb ((initial_delay policy <? 0) || (maximum_initial_delay <? initial_delay policy)))
        (invalid_policy "retry.initial_delay is outside its accepted range");
  _ ← check (negb ((max_delay policy <? 0) || (maximum_delay <? max_delay policy)))
        (invalid_policy "retry.max_delay is outside its accepted range");
  _ ← check (negb (max_delay policy <? initial_delay policy))
        (invalid_policy "retry.max_delay is below retry.initial_delay");
  _ ← check (negb (negb (isfinite (multiplier policy)) || double_ltb (multiplier policy) double_one
                   || double_ltb double_hundred (multiplier policy)))
        (invalid_policy "retry.multiplier is outside its accepted range");
  check (negb (negb (isfinite (jitter policy)) || double_ltb (jitter policy) double_zero
               || double_ltb double_one (jitter policy)))
        (invalid_policy "retry.jitter is outside its accepted range").

Definition retry_policy_from_attributes (attributes : AttributeSet) : result Error RetryPolicy :=
  max_attempts ← policy_attribute get_integer attributes "retry.max_attempts";
  strategy ← policy_attribute get_string attributes "retry.strategy";
  initial_delay ← policy_attribute get_duration attributes "retry.initial_delay";
  max_delay ← policy_attribute get_duration attributes "retry.max_delay";
  multiplier ← policy_attribute get_double attributes "retry.multiplier";
  jitter ← policy_attribute get_double attributes "retry.jitter";
  mode ← policy_attribute get_string attributes "retry.mode";
  _ ← check (negb ((max_attempts <? 1) || (100 <? max_attempts)))
        (invalid_policy "retry.max_attempts is outside its accepted range");
  strategy ← (if bytes_eqb strategy bs!"fixed" then success Fixed
              else if bytes_eqb strategy bs!"exponential" then success Exponential
              else failure (invalid_policy "retry.strategy is not recognized"));
  mode ← (if bytes_eqb mode bs!"blocking" then success Blocking
          else if bytes_eqb mode bs!"reschedule" then success Reschedule
          else failure (invalid_policy "retry.mode is not recognized"));
  let policy := mkPolicy max_attempts strategy initial_delay max_delay multiplier jitter mode in
  _ ← validate_policy policy;
  success policy.

(** ** The delay *)

Definition capped_product (value factor limit : double) : double :=
  if double_eqb value double_zero || double_leb factor double_zero || double_eqb limit double_zero
  then double_zero
  else if negb (isfinite factor) || double_leb (double_div limit value) factor then limit
  else double_mul value factor.

Definition fnv_prime : Z := 1099511628211.
Definition fnv_offset_basis : Z := 14695981039346656037.

Definition absorb (state byte : Z) : Z := wrap_unsigned 64 (Z.lxor state byte * fnv_prime).

(** The bytes of a 64-bit number, most significant first. *)
Definition attempt_bytes (attempt : Z) : bytes :=
  map (λ index, Z.land (Z.shiftr attempt (56 - index * 8)) 0xff) [0; 1; 2; 3; 4; 5; 6; 7].

Definition stable_state (run_id : bytes) (attempt : Z) : Z :=
  let state := foldl absorb fnv_offset_basis run_id in
  let state := foldl absorb state (attempt_bytes attempt) in
  let state := Z.lxor state (Z.shiftr state 30) in
  let state := wrap_unsigned 64 (state * 0xbf58476d1ce4e5b9) in
  let state := Z.lxor state (Z.shiftr state 27) in
  let state := wrap_unsigned 64 (state * 0x94d049bb133111eb) in
  Z.lxor state (Z.shiftr state 31).

Definition stable_fraction (run_id : bytes) (attempt : Z) : double :=
  double_mul (double_of_Z (Z.shiftr (stable_state run_id attempt) 11)) (Finite false (2 ^ 1021)).

(** [for (attempt = 2; attempt < next_attempt && base < limit; ++attempt)],
    with [n] rounds left. *)
Fixpoint backoff (n : nat) (multiplier limit base : double) : double :=
  match n with
  | O => base
  | S n => if double_ltb base limit
           then backoff n multiplier limit (capped_product base multiplier limit)
           else base
  end.

Definition delay_base (policy : RetryPolicy) (next_attempt : Z) : double :=
  let limit := double_of_Z (max_delay policy) in
  let base := double_of_Z (initial_delay policy) in
  match strategy policy with
  | Fixed => base
  | Exponential => backoff (Z.to_nat (next_attempt - 2)) (multiplier policy) limit base
  end.

Definition delay_factor (policy : RetryPolicy) (run_id : bytes) (next_attempt : Z) : double :=
  double_add (double_sub double_one (jitter policy))
    (double_mul (double_mul double_two (jitter policy)) (stable_fraction run_id next_attempt)).

Definition delay_count (policy : RetryPolicy) (run_id : bytes) (next_attempt : Z) : double :=
  capped_product (delay_base policy next_attempt) (delay_factor policy run_id next_attempt)
    (double_of_Z (max_delay policy)).

(** The final cast is applied to a finite number only, see
    [delay_count_bounds] below. *)
Definition retry_delay (policy : RetryPolicy) (run_id : bytes) (next_attempt : Z) : result Error Z :=
  _ ← validate_policy policy;
  if (next_attempt <? 2) || (max_attempts policy <? next_attempt)
  then failure (invalid_policy "Next retry attempt is outside the policy boundary")
  else if initial_delay policy =? 0 then success 0
  else success (default 0 (double_to_Z (delay_count policy run_id next_attempt))).

(** ** The decision *)

Definition checked_retry_due_time (from delay : Z) : result Error Z :=
  if delay <? 0 then failure retry_time_out_of_range
  else if int64_max - delay <? from then failure retry_time_out_of_range
  else success (from + delay).

Definition outcome_failed (o : AttemptOutcome) : bool := match o with Failed => true | _ => false end.

Definition retry_decision (attributes : AttributeSet) (completion : RetryCompletion)
    : result Error (option RetrySchedule) :=
  policy ← retry_policy_from_attributes attributes;
  _ ← check (negb (attempt_number completion =? 0))
        (invalid_policy "Current attempt number must be positive");
  if negb (outcome_failed (completed_outcome completion)) || negb (retryable completion)
     || negb (retry_allowed completion) || (max_attempts policy <=? attempt_number completion)
  then success None
  else
    delay ← retry_delay policy (completed_run completion) (attempt_number completion + 1);
    due_at ← checked_retry_due_time (completed_at completion) delay;
    let due_at := match retry_not_before completion with
                  | Some t => if due_at <? t then t else due_at
                  | None => due_at
                  end in
    success (Some (mkRetry due_at (mode policy))).

(** ** The decision after an interruption *)

Record RecoveryRetryContext := mkContext {
  context_run : bytes;
  context_attempt : Z;
  context_policy : RecoveryPolicy;
  context_job : JobState;
  context_queue : QueueState;
  recovery_time : Z }.

Definition recovery_invariant : Error :=
  mkError Internal "jobu.recovery.invariant" "Persisted recovery data violates a JobU invariant"
    "reason=retry_context".
Definition attempt_number_exhausted : Error :=
  mkError ResourceExhausted "jobu.recovery.attempt_number_exhausted"
    "Recovery attempt number is outside the representable range" "".

Definition recovery_retry_decision (attributes : AttributeSet) (context : RecoveryRetryContext)
    : result Error (option RetrySchedule) :=
  policy ← retry_policy_from_attributes attributes;
  _ ← check (negb ((context_attempt context =? 0) || is_terminal_job_state (context_job context)))
        recovery_invariant;
  _ ← check (context_attempt context <? int64_max) attempt_number_exhausted;
  if match context_policy context with FailInterrupted => true | RetryInterrupted => false end
     || bool_decide (context_job context = JobDeleted) || bool_decide (context_queue context = QueueDeleted)
     || (max_attempts policy <=? context_attempt context)
  then success None
  else
    delay ← retry_delay policy (context_run context) (context_attempt context + 1);
    due ← checked_retry_due_time (recovery_time context) delay;
    success (Some (mkRetry due (mode policy))).

(** ** The capped product on magnitudes *)

Definition capped (v f l : Z) : Z :=
  if (v =? 0) || (f <=? 0) || (l =? 0) then 0
  else if round_units (l * one_units) v <=? f then l else round_units (v * f) one_units.

(** A limit is a whole number of nanoseconds, below [2 ^ 52]. *)
Definition limit_units (l : Z) : Prop := ∃ n, 0 < n <= 2 ^ 52 ∧ l = n * one_units.

Lemma limit_representable l : limit_units l → one_units <= l <= 2 ^ 52 * one_units ∧ representable l.
Proof.
  intros (n & Hn & ->). pose proof one_units_pos. split; [nia|]. apply representable_integer. lia.
Qed.

(** Multiplication below the cap does not exceed it, in spite of rounding:
    otherwise the quotient, which is rounded monotonically, would not exceed
    the factor. *)
Lemma product_below_limit v f l :
  one_units <= v → 0 <= f → representable f → limit_units l →
  f < round_units (l * one_units) v → round_units (v * f) one_units <= l.
Proof.
  intros Hv Hf Hrf Hl Hlt. pose proof one_units_pos. destruct (limit_representable l Hl) as [? Hrl].
  apply round_units_le; [nia|done|lia|done|].
  destruct (Z.le_gt_cases (v * f) (l * one_units)) as [|Hgt]; [done|].
  assert (round_units (l * one_units) v <= f) by (apply round_units_le; nia || done). lia.
Qed.

Lemma capped_le v f l : one_units <= v → representable f → limit_units l → 0 <= capped v f l <= l.
Proof.
  intros Hv Hrf Hl. pose proof one_units_pos. destruct (limit_representable l Hl) as [? _]. unfold capped.
  destruct (Z.eqb_spec v 0), (Z.leb_spec f 0), (Z.eqb_spec l 0); simpl; try lia.
  destruct (Z.leb_spec (round_units (l * one_units) v) f); [lia|]. split.
  - apply round_units_nonneg; nia.
  - apply product_below_limit; (done || lia).
Qed.

Lemma capped_ge v f l :
  one_units <= v <= l → representable v → one_units <= f → limit_units l → v <= capped v f l.
Proof.
  intros Hv Hrv Hf Hl. pose proof one_units_pos. unfold capped.
  destruct (Z.eqb_spec v 0), (Z.leb_spec f 0), (Z.eqb_spec l 0); simpl; try lia.
  destruct (Z.leb_spec (round_units (l * one_units) v) f); [lia|]. by apply round_units_ge; [|lia| |nia].
Qed.

Lemma quotient_small v l : one_units <= v → limit_units l → round_units (l * one_units) v <= 2 ^ 60 * one_units.
Proof.
  intros Hv Hl. pose proof one_units_pos. destruct (limit_representable l Hl) as [? Hr].
  etrans; [apply (round_units_le _ _ l); nia || done|nia].
Qed.

Lemma capped_product_magnitude value factor limit v f l :
  magnitude value v → magnitude factor f → magnitude limit l → one_units <= v → limit_units l →
  magnitude (capped_product value factor limit) (capped v f l).
Proof.
  intros Hv Hf Hl Hv1 Hlim. pose proof one_units_pos. destruct (limit_representable l Hlim) as [? _].
  assert (Hz : magnitude double_zero 0) by (by apply magnitude_intro; [|lia|apply representable_0]).
  pose proof (quotient_small v l Hv1 Hlim) as Hq.
  pose proof (magnitude_div _ _ _ _ Hl Hv ltac:(lia) Hq) as Hd.
  unfold capped_product, capped.
  rewrite (magnitude_eqb _ _ _ _ Hv Hz), (magnitude_leb _ _ _ _ Hf Hz), (magnitude_eqb _ _ _ _ Hl Hz),
    (magnitude_leb _ _ _ _ Hd Hf), (magnitude_isfinite _ _ Hf). simpl.
  destruct (_ || _); [done|]. destruct (Z.leb_spec (round_units (l * one_units) v) f); [done|].
  apply magnitude_mul; [done|done|]. destruct Hf as (? & ? & _).
  etrans; [by apply (product_below_limit v f l)|nia].
Qed.

(** ** Valid policies *)

(** The fields of a policy that [validate_policy] accepts.  The numbers of a
    policy are doubles, which is what [wf_double] says of their model. *)
Definition wf_double (x : double) : Prop :=
  match x with Finite _ m => 0 <= m ∧ representable m | _ => True end.

Record valid (p : RetryPolicy) (k j : Z) : Prop := {
  valid_attempts : 1 <= max_attempts p <= 100;
  valid_initial : 0 <= initial_delay p <= max_delay p;
  valid_maximum : max_delay p <= maximum_delay;
  valid_multiplier : magnitude (multiplier p) k;
  valid_multiplier_range : one_units <= k <= 100 * one_units;
  valid_jitter : magnitude (jitter p) j;
  valid_jitter_range : j <= one_units }.

Lemma check_true {E} b (e : E) r : check b e = success r → b = true.
Proof. by destruct b. Qed.

Lemma check_bind {E A} b (e : E) (k : unit → result E A) r :
  (x ← check b e; k x) = success r → b = true ∧ k tt = success r.
Proof. by destruct b. Qed.

Lemma in_range_magnitude x lo hi :
  wf_double x → 0 <= lo →
  negb (negb (isfinite x) || double_ltb x (Finite false lo) || double_ltb (Finite false hi) x) = true →
  ∃ m, magnitude x m ∧ lo <= m <= hi.
Proof.
  intros Hw Hlo. destruct x as [s m| |]; [|done|done]. destruct Hw as [Hm Hr]. simpl.
  destruct (Z.ltb_spec (signed s m) lo); [done|]. destruct (Z.ltb_spec hi (signed s m)); [done|].
  intros _. assert (Hs : s = true → m = 0) by (intros ->; simpl in *; lia).
  rewrite signed_magnitude in * by done. exists m. split; [by apply magnitude_intro|lia].
Qed.

Lemma validate_policy_valid p :
  wf_double (multiplier p) → wf_double (jitter p) → validate_policy p = success tt → ∃ k j, valid p k j.
Proof.
  intros Hk Hj. unfold validate_policy. pose proof one_units_pos.
  intros (H1 & (H2 & (H3 & (H4 & (H5 & H6%check_true)%check_bind)%check_bind)%check_bind)%check_bind)%check_bind.
  apply in_range_magnitude in H5 as (k & ? & ?); [|done|lia].
  apply in_range_magnitude in H6 as (j & ? & ?); [|done|lia].
  rewrite !negb_true_iff, !orb_false_iff, !Z.ltb_ge in *.
  exists k, j. split; (done || lia).
Qed.

(** ** The delay of a valid policy *)

Lemma lxor_range a b : 0 <= a < 2 ^ 64 → 0 <= b < 2 ^ 64 → 0 <= Z.lxor a b < 2 ^ 64.
Proof.
  intros Ha Hb. split; [apply Z.lxor_nonneg; lia|].
  destruct (decide (Z.lxor a b = 0)) as [->|Hne]; [lia|].
  apply Z.log2_lt_pow2; [pose proof (proj2 (Z.lxor_nonneg a b)); lia|].
  eapply Z.le_lt_trans; [apply Z.log2_lxor; lia|]. apply Z.max_lub_lt.
  - destruct (decide (a = 0)) as [->|]; [done|]. apply Z.log2_lt_pow2; lia.
  - destruct (decide (b = 0)) as [->|]; [done|]. apply Z.log2_lt_pow2; lia.
Qed.

Lemma xorshift_range a n : 0 <= n → 0 <= a < 2 ^ 64 → 0 <= Z.lxor a (Z.shiftr a n) < 2 ^ 64.
Proof.
  intros Hn Ha. apply lxor_range; [done|]. rewrite Z.shiftr_div_pow2 by done.
  pose proof (pow2_pos n Hn). split; [apply Z.div_pos; lia|].
  apply Z.div_lt_upper_bound; [done|nia].
Qed.

Lemma stable_state_range run_id attempt : 0 <= stable_state run_id attempt < 2 ^ 64.
Proof.
  unfold stable_state. apply xorshift_range; [lia|].
  unfold wrap_unsigned. apply Z.mod_pos_bound. lia.
Qed.

Lemma stable_fraction_magnitude run_id attempt :
  ∃ m, magnitude (stable_fraction run_id attempt) m ∧ m <= one_units.
Proof.
  pose proof (stable_state_range run_id attempt) as Hs. pose proof one_units_pos. unfold stable_fraction.
  set (x := Z.shiftr (stable_state run_id attempt) 11).
  assert (Hx : 0 <= x <= 2 ^ 53) by (unfold x; rewrite Z.shiftr_div_pow2 by lia; dlia).
  pose proof (magnitude_of_Z x Hx) as Hm.
  assert (Hp : magnitude (Finite false (2 ^ 1021)) (2 ^ 1021)).
  { apply magnitude_intro; [done|lia|]. rewrite <- (Z.mul_1_l (2 ^ 1021)). apply representable_small; lia. }
  assert (Hr : round_units (x * one_units * 2 ^ 1021) one_units <= one_units).
  { apply round_units_le; [nia|done|lia|apply (representable_integer 1); lia|].
    change one_units with (2 ^ 53 * 2 ^ 1021) at 2. nia. }
  exists (round_units (x * one_units * 2 ^ 1021) one_units). split; [|done].
  apply magnitude_mul; [done|done|lia].
Qed.

Lemma backoff_magnitude n mult limit base k l b :
  magnitude mult k → magnitude limit l → magnitude base b → one_units <= k → limit_units l →
  one_units <= b <= l → ∃ c, magnitude (backoff n mult limit base) c ∧ one_units <= c <= l.
Proof.
  intros Hk Hl Hb Hk1 Hlim. revert base b Hb.
  induction n as [|n IH]; intros base b Hb Hb1; simpl; [by exists b|].
  destruct (double_ltb base limit); [|by exists b]. eapply IH.
  - eapply capped_product_magnitude; [exact Hb|done|done|lia|done].
  - pose proof (capped_le b k l ltac:(lia) ltac:(apply Hk) Hlim).
    pose proof (capped_ge b k l ltac:(lia) ltac:(apply Hb) Hk1 Hlim). lia.
Qed.

Section Delay.
Context (p : RetryPolicy) (k j : Z) (Hvalid : valid p k j) (Hinit : initial_delay p ≠ 0).

Let limit := max_delay p * one_units.

Lemma delay_limit : limit_units limit.
Proof.
  destruct Hvalid. exists (max_delay p). split; [|done].
  unfold maximum_delay, ns_per_hour in *. lia.
Qed.

Lemma delay_limit_magnitude : magnitude (double_of_Z (max_delay p)) limit.
Proof. destruct Hvalid. apply magnitude_of_Z. unfold maximum_delay, ns_per_hour in *. lia. Qed.

Lemma delay_initial_magnitude :
  magnitude (double_of_Z (initial_delay p)) (initial_delay p * one_units) ∧
  one_units <= initial_delay p * one_units <= limit.
Proof.
  destruct Hvalid. pose proof one_units_pos. unfold limit, maximum_delay, ns_per_hour in *.
  split; [apply magnitude_of_Z; lia|nia].
Qed.

Lemma delay_base_magnitude n : ∃ c, magnitude (delay_base p n) c ∧ one_units <= c <= limit.
Proof.
  pose proof delay_initial_magnitude as [Hm Hr]. pose proof delay_limit. pose proof delay_limit_magnitude.
  destruct Hvalid as [_ _ _ Hk [Hk1 _] _ _].
  unfold delay_base. destruct (strategy p); [by eexists|]. by eapply backoff_magnitude.
Qed.

Lemma delay_factor_magnitude run_id n : ∃ f, magnitude (delay_factor p run_id n) f.
Proof.
  destruct Hvalid as [_ _ _ _ _ Hj Hj1]. pose proof one_units_pos.
  destruct (stable_fraction_magnitude run_id n) as (m & Hm & Hm1).
  assert (H1 : magnitude double_one one_units) by (apply magnitude_intro; [done|lia|by apply (representable_integer 1)]).
  assert (H2 : magnitude double_two (2 * one_units))
    by (apply magnitude_intro; [done|lia|by apply (representable_integer 2)]).
  assert (R : ∀ i, 0 <= i <= 2 ^ 53 → representable (i * one_units)) by apply representable_integer.
  pose proof Hj as (Hj0 & _ & _). pose proof Hm as (Hm0 & _ & _).
  assert (A : round_units (one_units - j) 1 <= 1 * one_units)
    by (apply round_units_le; [lia|lia|lia|by apply R|lia]).
  pose proof (magnitude_sub _ _ _ _ H1 Hj Hj1 ltac:(lia)) as MA.
  assert (B : round_units (2 * one_units * j) one_units <= 2 * one_units)
    by (apply round_units_le; [nia|lia|lia|by apply R|nia]).
  pose proof (magnitude_mul _ _ _ _ H2 Hj ltac:(lia)) as MB.
  set (b := round_units (2 * one_units * j) one_units) in *. pose proof MB as (Hb0 & _ & _).
  assert (C : round_units (b * m) one_units <= 2 * one_units)
    by (apply round_units_le; [nia|lia|lia|by apply R|nia]).
  pose proof (magnitude_mul _ _ _ _ MB Hm ltac:(lia)) as MC.
  set (a := round_units (one_units - j) 1) in *. set (c := round_units (b * m) one_units) in *.
  pose proof MA as (Ha0 & _ & _). pose proof MC as (Hc0 & _ & _).
  assert (D : round_units (a + c) 1 <= 3 * one_units)
    by (apply round_units_le; [lia|lia|lia|by apply R|lia]).
  eexists. apply (magnitude_add _ _ _ _ MA MC). lia.
Qed.

(** The number that is cast to nanoseconds is finite and within the cap. *)
Lemma delay_count_bounds run_id n :
  ∃ c, magnitude (delay_count p run_id n) c ∧ 0 <= c <= limit.
Proof.
  destruct (delay_base_magnitude n) as (b & Hb & Hb1).
  destruct (delay_factor_magnitude run_id n) as [f Hf].
  exists (capped b f limit). split.
  - eapply capped_product_magnitude; [done|done|apply delay_limit_magnitude|lia|apply delay_limit].
  - apply capped_le; [lia|apply Hf|apply delay_limit].
Qed.
End Delay.

Lemma retry_delay_value p k j run_id n :
  valid p k j → validate_policy p = success tt → 2 <= n <= max_attempts p →
  ∃ d, retry_delay p run_id n = success d ∧ 0 <= d <= max_delay p.
Proof.
  intros Hv Hp Hn. unfold retry_delay. rewrite Hp. cbn [mbind result_bind].
  rewrite (proj2 (Z.ltb_ge n 2)), (proj2 (Z.ltb_ge _ n)) by lia. simpl.
  pose proof (valid_initial _ _ _ Hv). destruct (Z.eqb_spec (initial_delay p) 0) as [|Hne]; [exists 0; split; [done|lia]|].
  destruct (delay_count_bounds p k j Hv Hne run_id n) as (c & Hc & Hr).
  rewrite (magnitude_to_Z _ _ Hc). simpl. eexists. split; [done|]. pose proof one_units_pos. split.
  - apply Z.div_pos; lia.
  - apply Z.div_le_upper_bound; lia.
Qed.

(** C40.  For every accepted policy and every attempt number that it allows,
    the delay is defined, and rounding in binary floating point never takes it
    outside 0 to the policy's maximum delay; the number that is cast to
    nanoseconds is finite. *)
Theorem retry_delay_bounded p run_id n :
  wf_double (multiplier p) → wf_double (jitter p) → validate_policy p = success tt →
  2 <= n <= max_attempts p →
  (∃ d, retry_delay p run_id n = success d ∧ 0 <= d <= max_delay p) ∧
  (initial_delay p ≠ 0 → isfinite (delay_count p run_id n) = true).
Proof.
  intros Hk Hj Hp Hn. destruct (validate_policy_valid p Hk Hj Hp) as (k & j & Hv).
  split; [by eapply retry_delay_value|]. intros Hne.
  destruct (delay_count_bounds p k j Hv Hne run_id n) as (c & Hc & _). by eapply magnitude_isfinite.
Qed.

(** ** Whole multipliers *)

(** Between an integer and a larger quotient of nanosecond counts there is
    another double, so the comparison in [capped_product] is exact. *)
Lemma quotient_above b k l :
  1 <= b → 1 <= k <= 100 → b * k < l → l <= 2 ^ 52 →
  k * one_units < round_units (l * one_units * one_units) (b * one_units).
Proof.
  intros Hb Hk Hlt Hl. pose proof one_units_pos. pose proof (Z.log2_spec k ltac:(lia)) as Ht.
  pose proof (Z.log2_nonneg k). set (t := Z.log2 k) in *.
  assert (Ht6 : t <= 6) by (unfold t; etrans; [apply (Z.log2_le_mono k 100); lia|done]).
  assert (E : one_units = 2 ^ (52 - t) * 2 ^ (1022 + t)).
  { rewrite <- Z.pow_add_r by lia. replace (52 - t + (1022 + t)) with 1074 by lia. done. }
  assert (Hp : 2 ^ 53 = 2 ^ Z.succ t * 2 ^ (52 - t)) by (rewrite <- Z.pow_add_r by lia; f_equal; lia).
  assert (Hq : 2 ^ 52 = 2 ^ t * 2 ^ (52 - t)) by (rewrite <- Z.pow_add_r by lia; f_equal; lia).
  pose proof (pow2_pos (52 - t) ltac:(lia)). pose proof (pow2_pos (1022 + t) ltac:(lia)).
  assert (Hr : representable ((k * 2 ^ (52 - t) + 1) * 2 ^ (1022 + t)))
    by (apply representable_small; [nia|lia]).
  set (u := 2 ^ (52 - t)) in *. set (w := 2 ^ (1022 + t)) in *. set (v := 2 ^ t) in *.
  assert (Hbu : b <= u) by nia. clearbody u w v.
  apply (Z.lt_le_trans _ ((k * u + 1) * w)); [nia|]. apply round_units_ge; [nia|nia|done|].
  assert (Hin : (k * u + 1) * b <= l * u) by nia.
  rewrite E at 2. replace ((k * u + 1) * w * (b * one_units)) with ((k * u + 1) * b * (w * one_units)) by ring.
  replace (l * (u * w) * one_units) with (l * u * (w * one_units)) by ring.
  apply Z.mul_le_mono_nonneg_r; nia.
Qed.

Lemma capped_integer b k l :
  1 <= b <= l → 1 <= k <= 100 → l <= 2 ^ 52 →
  capped (b * one_units) (k * one_units) (l * one_units) = Z.min (b * k) l * one_units.
Proof.
  intros Hb Hk Hl. pose proof one_units_pos. unfold capped.
  rewrite (proj2 (Z.eqb_neq (b * _) 0)), (proj2 (Z.leb_gt (k * _) 0)), (proj2 (Z.eqb_neq (l * _) 0)) by nia.
  simpl. destruct (Z.leb_spec l (b * k)).
  - rewrite Z.min_r by done. rewrite (proj2 (Z.leb_le _ _)); [done|].
    apply round_units_le; [nia|nia|nia|apply representable_integer; lia|nia].
  - rewrite Z.min_l by lia. rewrite (proj2 (Z.leb_gt _ _)) by (apply quotient_above; lia).
    replace (b * one_units * (k * one_units)) with (b * k * one_units * one_units) by ring.
    apply round_units_exact; [nia|apply representable_integer; nia|done].
Qed.

Lemma backoff_integer n mult limit base k l b :
  magnitude mult (k * one_units) → magnitude limit (l * one_units) → magnitude base (b * one_units) →
  1 <= k <= 100 → 1 <= b <= l → l <= 2 ^ 52 →
  magnitude (backoff n mult limit base) (Z.min (b * k ^ Z.of_nat n) l * one_units).
Proof.
  intros Hk Hl Hb0 Hk1 Hb1 Hl1. pose proof one_units_pos. revert base b Hb0 Hb1.
  assert (Hlim : limit_units (l * one_units) ∨ l <= 0) by (destruct (Z.le_gt_cases l 0); [by right|left; by exists l]).
  destruct Hlim as [Hlim|]; [|intros; lia].
  induction n as [|n IH]; intros base b Hb0 Hb1.
  { cbn [backoff]. rewrite Z.pow_0_r, Z.mul_1_r, Z.min_l by lia. done. }
  cbn [backoff]. rewrite (magnitude_ltb _ _ _ _ Hb0 Hl), Nat2Z.inj_succ, Z.pow_succ_r by lia.
  pose proof (Z.pow_pos_nonneg k (Z.of_nat n) ltac:(lia) ltac:(lia)).
  destruct (Z.ltb_spec (b * one_units) (l * one_units)).
  - replace (Z.min (b * (k * k ^ Z.of_nat n)) l) with (Z.min (Z.min (b * k) l * k ^ Z.of_nat n) l) by nia.
    apply IH; [|nia]. rewrite <- capped_integer by lia.
    by apply capped_product_magnitude; [| | |nia|].
  - assert (b = l) as -> by nia. assert (1 <= k * k ^ Z.of_nat n) by nia.
    generalize dependent (k * k ^ Z.of_nat n). intros q Hq. by rewrite Z.min_r by nia.
Qed.

Section NoJitter.
Context (p : RetryPolicy) (k j : Z) (Hvalid : valid p k j) (Hinit : initial_delay p ≠ 0).
Context (Hzero : jitter p = double_zero).

Lemma delay_factor_one run_id n : magnitude (delay_factor p run_id n) (1 * one_units).
Proof.
  pose proof one_units_pos. destruct (stable_fraction_magnitude run_id n) as (m & Hm & Hm1).
  assert (H1 : magnitude double_one (1 * one_units)) by (apply magnitude_intro; [done|lia|by apply (representable_integer 1)]).
  assert (H2 : magnitude double_two (2 * one_units))
    by (apply magnitude_intro; [done|lia|by apply (representable_integer 2)]).
  assert (Hj : magnitude (jitter p) 0) by (rewrite Hzero; by apply magnitude_intro; [|lia|apply representable_0]).
  assert (E : round_units (1 * one_units) 1 = 1 * one_units).
  { rewrite <- (Z.mul_1_r (1 * one_units)) at 1. apply round_units_exact; [lia|by apply representable_integer|lia]. }
  pose proof (magnitude_sub _ _ _ _ H1 Hj) as MA. rewrite Z.sub_0_r, E in MA.
  pose proof (magnitude_mul _ _ _ _ H2 Hj) as MB. rewrite Z.mul_0_r, round_units_0 in MB by done.
  pose proof (magnitude_mul _ _ _ _ (MB ltac:(lia)) Hm) as MC. rewrite Z.mul_0_l, round_units_0 in MC by done.
  pose proof (magnitude_add _ _ _ _ (MA ltac:(lia) ltac:(lia)) (MC ltac:(lia))) as MD.
  rewrite Z.add_0_r, E in MD. apply MD. lia.
Qed.

Lemma retry_delay_no_jitter run_id n b :
  magnitude (delay_base p n) (b * one_units) → 1 <= b <= max_delay p →
  double_to_Z (delay_count p run_id n) = Some b.
Proof.
  intros Hb Hr. pose proof one_units_pos. pose proof (valid_maximum _ _ _ Hvalid).
  assert (max_delay p <= 2 ^ 52) by (unfold maximum_delay, ns_per_hour in *; lia).
  pose proof (capped_product_magnitude _ _ _ _ _ _ Hb (delay_factor_one run_id n)
    (delay_limit_magnitude p k j Hvalid Hinit) ltac:(nia) (delay_limit p k j Hvalid Hinit)) as Hc.
  rewrite capped_integer in Hc by lia. unfold delay_count. rewrite (magnitude_to_Z _ _ Hc).
  by rewrite Z.mul_1_r, Z.min_l, Z.div_mul by lia.
Qed.
End NoJitter.

(** Without jitter and with a whole multiplier the delay is the textbook
    one, to the nanosecond: the initial delay for the fixed strategy, and the
    initial delay times a power of the multiplier, capped by the maximum, for
    the exponential one.  Rounding never shows. *)
Theorem retry_delay_exponential_exact p k run_id n :
  validate_policy p = success tt → jitter p = double_zero → multiplier p = double_of_Z k →
  1 <= k <= 100 → 2 <= n <= max_attempts p →
  retry_delay p run_id n =
    success (match strategy p with
             | Fixed => initial_delay p
             | Exponential => Z.min (initial_delay p * k ^ (n - 2)) (max_delay p)
             end).
Proof.
  intros Hp Hj Hm Hk Hn. pose proof (magnitude_of_Z k ltac:(lia)) as Hkm.
  destruct (validate_policy_valid p) as (k' & j & Hv); [|by rewrite Hj; split; [lia|apply representable_0]|done|].
  { rewrite Hm. destruct Hkm as (? & ? & s & -> & _). done. }
  unfold retry_delay. rewrite Hp. cbn [mbind result_bind].
  rewrite (proj2 (Z.ltb_ge n 2)), (proj2 (Z.ltb_ge _ n)) by lia. simpl.
  pose proof (valid_initial _ _ _ Hv). pose proof (valid_maximum _ _ _ Hv).
  pose proof (Z.pow_pos_nonneg k (n - 2) ltac:(lia) ltac:(lia)).
  destruct (Z.eqb_spec (initial_delay p) 0) as [E|Hne].
  { rewrite E, Z.mul_0_l, Z.min_l by lia. by destruct (strategy p). }
  pose proof (delay_initial_magnitude p k' j Hv Hne) as [Hi _].
  pose proof (delay_limit_magnitude p k' j Hv Hne) as Hl.
  assert (max_delay p <= 2 ^ 52) by (unfold maximum_delay, ns_per_hour in *; lia).
  destruct (strategy p) eqn:Hs; erewrite (retry_delay_no_jitter p k' j Hv Hne Hj run_id n); try done.
  - unfold delay_base. by rewrite Hs.
  - lia.
  - unfold delay_base. rewrite Hs. replace (n - 2) with (Z.of_nat (Z.to_nat (n - 2))) at 2 by lia.
    apply backoff_integer; try done; [by rewrite Hm|lia..].
  - nia.
Qed.

(** ** Decisions *)

Lemma policy_attribute_inv {T} (get : AttributeValue → option T) attributes name v :
  policy_attribute get attributes name = success v → ∃ w, get w = Some v.
Proof.
  unfold policy_attribute. destruct (attributes !! _) as [w|]; [|done].
  destruct (get w) eqn:E; [|done]. intros [= <-]. eauto.
Qed.

Lemma get_double_wf v x : get_double v = Some x → wf_double x.
Proof.
  destruct v; [done..| |done|done|done|done|done]. intros [= <-].
  destruct (double_of_bits bits) eqn:E; [by apply double_of_bits_representable in E|done|done].
Qed.

Lemma bind_success {E A B} (m : result E A) (k : A → result E B) r :
  (x ← m; k x) = success r → ∃ x, m = success x ∧ k x = success r.
Proof. destruct m as [x|]; [|done]. by exists x. Qed.

Lemma policy_from_attributes_valid attributes p :
  retry_policy_from_attributes attributes = success p →
  validate_policy p = success tt ∧ wf_double (multiplier p) ∧ wf_double (jitter p).
Proof.
  unfold retry_policy_from_attributes.
  intros (a & _ & (s & _ & (i & _ & (d & _ & (m & Hm & (j & Hj & (o & _ & H)%bind_success)%bind_success)%bind_success)%bind_success)%bind_success)%bind_success)%bind_success.
  apply check_bind in H as [_ H]. apply bind_success in H as (st & _ & H). apply bind_success in H as (mo & _ & H).
  apply bind_success in H as ([] & Hv & H). injection H as <-. cbn [multiplier jitter].
  apply policy_attribute_inv in Hm as [? ?%get_double_wf], Hj as [? ?%get_double_wf]. done.
Qed.

Lemma due_time_spec from delay :
  0 <= delay →
  match checked_retry_due_time from delay with
  | success t => t = from + delay ∧ t <= int64_max
  | failure e => e = retry_time_out_of_range ∧ int64_max < from + delay
  end.
Proof.
  intros. unfold checked_retry_due_time. rewrite (proj2 (Z.ltb_ge delay 0)) by lia.
  destruct (Z.ltb_spec (int64_max - delay) from); split; (done || lia).
Qed.

(** A completion that its policy retries. *)
Definition retries (p : RetryPolicy) (c : RetryCompletion) : Prop :=
  completed_outcome c = Failed ∧ retryable c = true ∧ retry_allowed c = true ∧
  attempt_number c < max_attempts p.

Lemma retry_decision_exact attributes p c :
  retry_policy_from_attributes attributes = success p → 1 <= attempt_number c →
  match retry_decision attributes c with
  | success None => ¬ retries p c
  | success (Some r) =>
      retries p c ∧ retry_mode r = mode p ∧ completed_at c <= due_at r ∧
      (∀ t, retry_not_before c = Some t → t <= due_at r) ∧
      (due_at r <= Z.min (completed_at c + max_delay p) int64_max ∨ retry_not_before c = Some (due_at r))
  | failure e =>
      e = retry_time_out_of_range ∧ retries p c ∧ int64_max < completed_at c + max_delay p
  end.
Proof.
  intros Hp Hn. destruct (policy_from_attributes_valid _ _ Hp) as (Hv & Hm & Hj).
  destruct (validate_policy_valid p Hm Hj Hv) as (k & j & Hok).
  unfold retry_decision. rewrite Hp. cbn [mbind result_bind].
  rewrite (proj2 (Z.eqb_neq (attempt_number c) 0)) by lia. cbn [negb check].
  unfold retries. destruct (completed_outcome c); [simpl; by intros (? & _)| |simpl; by intros (? & _)..].
  destruct (retryable c); [|simpl; by intros (_ & ? & _)].
  destruct (retry_allowed c); [|simpl; by intros (_ & _ & ? & _)].
  destruct (Z.leb_spec (max_attempts p) (attempt_number c)); simpl; [intros (_ & _ & _ & ?); lia|].
  destruct (retry_delay_value p k j (completed_run c) (attempt_number c + 1) Hok Hv ltac:(lia)) as (d & -> & Hd).
  cbn [mbind result_bind]. pose proof (due_time_spec (completed_at c) d ltac:(lia)) as Ht.
  destruct (checked_retry_due_time (completed_at c) d) as [t|e]; cbn [mbind result_bind].
  - destruct Ht as [-> Ht]. cbn [retry_mode due_at]. destruct (retry_not_before c) as [t|].
    + destruct (Z.ltb_spec (completed_at c + d) t).
      * split_and!; [done..|lia|by intros ? [= <-]|by right].
      * split_and!; [done..|lia|intros ? [= <-]; lia|left; lia].
    + split_and!; [done..|lia|done|left; lia].
  - destruct Ht as [-> Ht]. split_and!; try done. lia.
Qed.

(** A retry is scheduled exactly for an observed, retryable and allowed
    failure with attempts left.  It is due at the completion or later, not
    before the time a server asked for, and, unless that time decides, no
    later than the maximum delay; it keeps the policy's mode.  The only
    failure under a valid policy is a due time beyond the clock. *)
Theorem retry_decision_spec attributes p c :
  retry_policy_from_attributes attributes = success p → 1 <= attempt_number c →
  match retry_decision attributes c with
  | success None => ¬ retries p c
  | success (Some r) =>
      retries p c ∧ retry_mode r = mode p ∧ completed_at c <= due_at r ∧
      (∀ t, retry_not_before c = Some t → t <= due_at r) ∧
      (due_at r <= Z.min (completed_at c + max_delay p) int64_max ∨ retry_not_before c = Some (due_at r))
  | failure e =>
      e = retry_time_out_of_range ∧ retries p c ∧ int64_max < completed_at c + max_delay p
  end.
Proof. apply retry_decision_exact. Qed.

(** After a restart, interrupted work of a live job is retried exactly
    as a retryable failure observed at the recovery time would be, with the
    same deterministic delay, if the queue's policy asks for it; under
    [FailInterrupted] or for a deleted owner it is not retried. *)
Theorem recovery_retry_decision_agrees attributes p c :
  retry_policy_from_attributes attributes = success p → 1 <= context_attempt c < int64_max →
  is_terminal_job_state (context_job c) = false →
  recovery_retry_decision attributes c =
    if bool_decide (context_policy c = RetryInterrupted ∧ context_job c ≠ JobDeleted ∧
                    context_queue c ≠ QueueDeleted)
    then retry_decision attributes
           (mkCompletion (context_run c) (context_attempt c) Failed true true (recovery_time c) None)
    else success None.
Proof.
  intros Hp Hn Hs. unfold recovery_retry_decision, retry_decision. rewrite Hp, Hs. cbn [mbind result_bind].
  rewrite (proj2 (Z.eqb_neq (context_attempt c) 0)) by lia. cbn [orb negb check].
  rewrite (proj2 (Z.ltb_lt _ _)) by lia.
  cbn [check mbind result_bind attempt_number completed_outcome outcome_failed retryable retry_allowed negb orb].
  rewrite (proj2 (Z.eqb_neq (context_attempt c) 0)) by lia. cbn [check mbind result_bind negb].
  destruct (bool_decide_reflect (context_policy c = RetryInterrupted ∧ context_job c ≠ JobDeleted ∧
                                 context_queue c ≠ QueueDeleted)) as [(-> & Hj & Hq)|Hall].
  - rewrite !bool_decide_false by done. cbn [orb]. by destruct (max_attempts p <=? context_attempt c).
  - destruct (context_policy c); [done|]. cbn [orb]. case_bool_decide; [done|]. case_bool_decide; [done|].
    by destruct Hall.
Qed.

(** ** Witnesses *)

Definition sample_policy : RetryPolicy :=
  mkPolicy 5 Exponential 1000000000 60000000000 (double_of_Z 2) double_zero Reschedule.

(** 2.0 and 0.0 as attributes. *)
Definition sample_attributes : AttributeSet :=
  list_to_map [(bs!"retry.max_attempts", AttrInt 5); (bs!"retry.strategy", AttrString bs!"exponential");
    (bs!"retry.initial_delay", AttrDuration 1000000000); (bs!"retry.max_delay", AttrDuration 60000000000);
    (bs!"retry.multiplier", AttrDouble 0x4000000000000000); (bs!"retry.jitter", AttrDouble 0);
    (bs!"retry.mode", AttrString bs!"reschedule")].

Lemma sample_policy_ok : validate_policy sample_policy = success tt.
Proof. vm_compute. reflexivity. Qed.

Lemma sample_attributes_policy : retry_policy_from_attributes sample_attributes = success sample_policy.
Proof. vm_compute. reflexivity. Qed.

Lemma retry_delay_bounded_witness :
  (∃ d, retry_delay sample_policy (replicate 16 7) 4 = success d ∧ 0 <= d <= 60000000000) ∧
  isfinite (delay_count sample_policy (replicate 16 7) 4) = true.
Proof.
  assert (Hk : wf_double (multiplier sample_policy)).
  { destruct (magnitude_of_Z 2 ltac:(lia)) as (H0 & Hr & s & Hs & _).
    change (wf_double (double_of_Z 2)). rewrite Hs. exact (conj H0 Hr). }
  assert (Hj : wf_double (jitter sample_policy)) by (split; [lia|apply representable_0]).
  destruct (retry_delay_bounded sample_policy (replicate 16 7) 4 Hk Hj sample_policy_ok) as [H1 H2].
  - simpl. lia.
  - split; [exact H1|]. exact (H2 ltac:(discriminate)).
Defined.

Lemma retry_delay_exponential_exact_witness :
  retry_delay sample_policy (replicate 16 7) 4 = success 4000000000.
Proof.
  exact (retry_delay_exponential_exact sample_policy 2 (replicate 16 7) 4 sample_policy_ok eq_refl eq_refl
           ltac:(lia) ltac:(simpl; lia)).
Defined.

Lemma retry_decision_spec_witness :
  let c := mkCompletion (replicate 16 7) 1 Failed true true 0 (Some 90000000000) in
  match retry_decision sample_attributes c with
  | success None => ¬ retries sample_policy c
  | success (Some r) => 90000000000 <= due_at r
  | failure e => int64_max < 60000000000
  end.
Proof.
  intros c. pose proof (retry_decision_spec sample_attributes sample_policy c sample_attributes_policy
                          ltac:(simpl; lia)) as H.
  destruct (retry_decision sample_attributes c) as [[r|]|e]; [|done|].
  - destruct H as (_ & _ & _ & H & _). by apply H.
  - destruct H as (_ & _ & H). exact H.
Defined.

Lemma recovery_retry_decision_agrees_witness :
  recovery_retry_decision sample_attributes
    (mkContext (replicate 16 7) 1 RetryInterrupted JobSuspended QueueActive 0) =
  retry_decision sample_attributes (mkCompletion (replicate 16 7) 1 Failed true true 0 None).
Proof.
  rewrite (recovery_retry_decision_agrees sample_attributes sample_policy _ sample_attributes_policy).
  - by rewrite bool_decide_true.
  - simpl. unfold int64_max. lia.
  - done.
Defined.
