(* ===== verification/HttpRetry.v ===== *)
(** * Completion policy of HTTP jobs

    Status selectors, the retry attributes of HTTP jobs, the [Retry-After]
    header and the mapping of a finished transfer to an attempt completion:
    [src/jobu/http_retry_priv.cpp], and the selectors of
    [src/jobu/http_job_payload_priv.cpp].  The JSON encoder is a parameter. *)

From stdpp Require Import base numbers strings list gmap.
From Stdlib Require Import Ascii.
From S2P Require Import Prelude Calendar UtcTimestamp Values OutputCapture Binary64 RetryPolicy.
Local Open Scope Z_scope.

(** ** Data: [net/http_client.hpp] *)

Record HttpHeader := mkHeader { header_name : bytes; header_value : bytes; sensitive : bool }.

Inductive HttpErrorKind :=
  | InvalidRequest | Resolve | Connect | TlsVerification | TlsHandshake | HttpTimeout
  | Send | Receive | Redirect | Protocol | HttpCancelled | HttpInternal.

Record HttpResponse := mkResponse {
  status_code : Z; headers : list HttpHeader; body : Captured; raw_headers : Captured;
  redirect_count : Z; elapsed : Z; tls_verified : option bool }.

Record HttpError := mkHttpError {
  error_kind : HttpErrorKind; transfer_error : Error; error_status : option Z;
  error_headers : list HttpHeader; error_body : Captured; error_raw_headers : Captured;
  error_redirects : Z; error_elapsed : Z; error_tls_verified : option bool }.

Definition kMaximumCompletionResultBytes : Z := 256 * 1024.
Definition kMaximumRetryErrors : Z := 16.
Definition kMaximumRetryStatuses : Z := 64.
Definition kMaximumExpectedStatusSelectors : Z := 64.

Definition invalid_policy (detail : string) : Error :=
  mkError Internal "jobu.http.invalid_retry_policy" "Materialized HTTP retry attributes are invalid" detail.

Definition invalid_result (detail : string) : Error :=
  mkError Internal "jobu.http.invalid_result" "HTTP completion result could not be represented safely" detail.

(** ** Status selectors *)

Record HttpStatusRange := mkStatuses { first_status : Z; last_status : Z }.

(** Three digits; the 16-bit accumulator cannot overflow. *)
Definition parse_status (text : bytes) : option Z :=
  if negb (Z.of_nat (length text) =? 3) then None
  else v ← fold_opt parse_digit 0 text;
       if (v <? 100) || (599 <? v) then None else Some v.

Definition parse_http_status_selector (text : bytes) : option HttpStatusRange :=
  if Z.of_nat (length text) =? 3 then
    status ← parse_status text; Some (mkStatuses status status)
  else if negb (Z.of_nat (length text) =? 7) || negb (at_index text 3 =? #"-") then None
  else
    first ← parse_status (substr text 0 3);
    last ← parse_status (drop 4 text);
    if last <? first then None else Some (mkStatuses first last).

Definition contains_status (ranges : list HttpStatusRange) (status : Z) : bool :=
  existsb (λ r, (first_status r <=? status) && (status <=? last_status r)) ranges.

Definition selector_value (v : JsonValue) : option HttpStatusRange :=
  match v with JsonString s => parse_http_status_selector s | _ => None end.

(** The merge loop of [decode_expected_statuses]; [previous] is
    [normalized.back()]. *)
Fixpoint merge_statuses (previous : HttpStatusRange) (ranges : list HttpStatusRange)
    : list HttpStatusRange :=
  match ranges with
  | [] => [previous]
  | range :: ranges =>
      if last_status previous + 1 <? first_status range then previous :: merge_statuses range ranges
      else merge_statuses
             (mkStatuses (first_status previous) (Z.max (last_status previous) (last_status range))) ranges
  end.

Definition decode_expected_statuses (v : option JsonValue) : option (list HttpStatusRange) :=
  match v with
  | None => Some [mkStatuses 200 299]
  | Some (JsonArray l) =>
      if bool_decide (l = []) || (kMaximumExpectedStatusSelectors <? Z.of_nat (length l)) then None
      else
        ranges ← mapM selector_value l;
        match stable_sort first_status ranges with
        | [] => Some []
        | r :: ranges => Some (merge_statuses r ranges)
        end
  | Some _ => None
  end.

(** ** The retry attributes *)

Record HttpRetryPolicy := mkHttpRetry {
  error_categories : list bytes; status_ranges : list HttpStatusRange; http_max_delay : Z }.

Definition configurable_error_category (category : bytes) : bool :=
  existsb (bytes_eqb category)
    [bs!"resolve"; bs!"connect"; bs!"tls_handshake"; bs!"tls_verification"; bs!"timeout"; bs!"send";
     bs!"receive"; bs!"redirect"; bs!"protocol"].

Definition error_category (kind : HttpErrorKind) : bytes :=
  match kind with
  | InvalidRequest => bs!"invalid_request"
  | Resolve => bs!"resolve"
  | Connect => bs!"connect"
  | TlsVerification => bs!"tls_verification"
  | TlsHandshake => bs!"tls_handshake"
  | HttpTimeout => bs!"timeout"
  | Send => bs!"send"
  | Receive => bs!"receive"
  | Redirect => bs!"redirect"
  | Protocol => bs!"protocol"
  | HttpCancelled => bs!"cancelled"
  | HttpInternal => bs!"internal"
  end.

Definition attribute_list (attributes : AttributeSet) (name : string) : result Error (list AttributeValue) :=
  match attributes !! bytes_of name with
  | None => failure (invalid_policy ("Required HTTP retry field is missing: " +:+ name))
  | Some (AttrList l) => success l
  | Some _ => failure (invalid_policy ("HTTP retry field has an unexpected type: " +:+ name))
  end.

Definition contains_category (categories : list bytes) (category : bytes) : bool :=
  existsb (bytes_eqb category) categories.

Definition decode_error_categories (l : list AttributeValue) : result Error (list bytes) :=
  if kMaximumRetryErrors <? Z.of_nat (length l)
  then failure (invalid_policy "http.retry_errors exceeds its accepted size")
  else ok_or
    (fold_opt (λ categories v,
       match v with
       | AttrString category =>
           if negb (configurable_error_category category) || contains_category categories category
           then None else Some (categories ++ [category])
       | _ => None
       end) [] l)
    (invalid_policy "http.retry_errors contains an invalid category").

(** [selectors] are the texts seen so far, [ranges] their ranges. *)
Definition decode_status_ranges (l : list AttributeValue) : result Error (list HttpStatusRange) :=
  if kMaximumRetryStatuses <? Z.of_nat (length l)
  then failure (invalid_policy "http.retry_statuses exceeds its accepted size")
  else snd <$> ok_or
    (fold_opt (λ '(selectors, ranges) v,
       match v with
       | AttrString selector =>
           if contains_category selectors selector then None
           else parsed ← parse_http_status_selector selector;
                Some (selectors ++ [selector], ranges ++ [parsed])
       | _ => None
       end) ([], []) l)
    (invalid_policy "http.retry_statuses contains an invalid selector").

Definition decode_http_retry_policy (attributes : AttributeSet) : result Error HttpRetryPolicy :=
  retry ← retry_policy_from_attributes attributes;
  errors ← attribute_list attributes "http.retry_errors";
  statuses ← attribute_list attributes "http.retry_statuses";
  categories ← decode_error_categories errors;
  ranges ← decode_status_ranges statuses;
  success (mkHttpRetry categories ranges (max_delay retry)).

(** ** Retry-After *)

Definition ascii_lower (c : Z) : Z := if ascii_upper_alpha c then c + 32 else c.

Definition ascii_equal (lhs rhs : bytes) : bool :=
  bytes_eqb (map ascii_lower lhs) (map ascii_lower rhs).

(** One digit; [None] on a non-digit and on overflow of 64 bits. *)
Definition decimal_digit (r c : Z) : option Z :=
  if (c <? #"0") || (#"9" <? c) then None
  else
    let digit := c - #"0" in
    if (uint64_max - digit) / 10 <? r then None else Some (r * 10 + digit).

Definition parse_unsigned_decimal (v : bytes) : option Z :=
  if bool_decide (v = []) then None else fold_opt decimal_digit 0 v.

Definition weekdays : list bytes :=
  [bs!"Sun"; bs!"Mon"; bs!"Tue"; bs!"Wed"; bs!"Thu"; bs!"Fri"; bs!"Sat"].
Definition months : list bytes :=
  [bs!"Jan"; bs!"Feb"; bs!"Mar"; bs!"Apr"; bs!"May"; bs!"Jun";
   bs!"Jul"; bs!"Aug"; bs!"Sep"; bs!"Oct"; bs!"Nov"; bs!"Dec"].

(** [std::ranges::find] in a table, as a distance from its beginning. *)
Fixpoint index_of (name : bytes) (l : list bytes) : option Z :=
  match l with
  | [] => None
  | x :: l => if bytes_eqb x name then Some 0 else Z.succ <$> index_of name l
  end.

Definition imf_separators (v : bytes) : bool :=
  (at_index v 3 =? #",") && (at_index v 4 =? 32) && (at_index v 7 =? 32) && (at_index v 11 =? 32) &&
  (at_index v 16 =? 32) && (at_index v 19 =? #":") && (at_index v 22 =? #":") && (at_index v 25 =? 32) &&
  bytes_eqb (drop 26 v) bs!"GMT".

Definition parse_imf_fixdate (v : bytes) : option Z :=
  if negb (Z.of_nat (length v) =? 29) || negb (imf_separators v) then None
  else
    weekday ← index_of (substr v 0 3) weekdays;
    month0 ← index_of (substr v 8 3) months;
    d ← parse_digits v 5 2;
    y ← parse_digits v 12 4;
    h ← parse_digits v 17 2;
    mi ← parse_digits v 20 2;
    s ← parse_digits v 23 2;
    if (23 <? h) || (59 <? mi) || (60 <? s) then None
    else
      let mo := month0 + 1 in
      if negb (valid_date y mo d) then None
      else
        let days := days_from_civil y mo d in
        if negb (weekday_of_days days =? weekday) then None
        else
          let count := days * 86400 + h * 3600 + mi * 60 + s in
          let minimum := - (- int64_min / 1000000000) in
          let maximum := int64_max / 1000000000 in
          if (count <? minimum) || (maximum <? count) then None else Some (count * 1000000000).

Record AddedTime := mkAdded { added_value : Z; saturated : bool }.

Definition add_time_saturating (completed_at delay : Z) : option AddedTime :=
  if delay <? 0 then None
  else if int64_max - delay <? completed_at then Some (mkAdded int64_max true)
  else Some (mkAdded (completed_at + delay) false).

(** The value of the only [Retry-After] field; a second one voids it. *)
Fixpoint retry_after_header (found : option bytes) (l : list HttpHeader) : option bytes :=
  match l with
  | [] => found
  | h :: l =>
      if negb (ascii_equal (header_name h) bs!"Retry-After") then retry_after_header found l
      else match found with
           | Some _ => None
           | None => retry_after_header (Some (header_value h)) l
           end
  end.

Record RetryAfterPolicy := mkAfter { not_before : option Z; accepted : bool; clamped : bool }.

Definition no_retry_after : RetryAfterPolicy := mkAfter None false false.

Definition retry_after_policy (l : list HttpHeader) (completed_at max_delay : Z) : RetryAfterPolicy :=
  match retry_after_header None l with
  | None => no_retry_after
  | Some header =>
      match add_time_saturating completed_at max_delay with
      | None => no_retry_after
      | Some endpoint =>
          if forallb ascii_digit header then
            match parse_unsigned_decimal header with
            | None => no_retry_after
            | Some seconds_value =>
                let maximum_seconds := Z.quot max_delay 1000000000 in
                let exceeds_maximum := wrap_unsigned 64 maximum_seconds <? seconds_value in
                let effective_delay :=
                  if exceeds_maximum then max_delay else wrap_signed 64 seconds_value * 1000000000 in
                match add_time_saturating completed_at effective_delay with
                | None => no_retry_after
                | Some candidate =>
                    mkAfter (Some (added_value candidate)) true (exceeds_maximum || saturated candidate)
                end
            end
          else
            match parse_imf_fixdate header with
            | None => no_retry_after
            | Some candidate =>
                if candidate <=? completed_at then no_retry_after
                else if added_value endpoint <? candidate then mkAfter (Some (added_value endpoint)) true true
                else mkAfter (Some candidate) true false
            end
      end
  end.

(** ** Completion *)

Record HttpCompletionPolicy := mkHttpCompletion {
  http_outcome : AttemptOutcome; http_disposition : option FailureDisposition;
  http_retry_not_before : option Z; http_result : JsonValue }.

Definition capture_result (capture : Captured) : JsonValue :=
  JsonObject [(bs!"captured_bytes", JsonUint (Z.of_nat (length (captured_bytes capture))));
              (bs!"total_bytes", JsonUint (captured_total capture));
              (bs!"truncated", JsonBool (captured_truncated capture))].

Definition retry_after_result (p : RetryAfterPolicy) : JsonValue :=
  JsonObject [(bs!"accepted", JsonBool (accepted p)); (bs!"clamped", JsonBool (clamped p))].

Definition base_result (outcome : bytes) (body headers : Captured) (redirects elapsed : Z)
    (tls : option bool) : list (bytes * JsonValue) :=
  let o := [(bs!"body", capture_result body);
            (bs!"duration_ms", JsonInt (Z.quot elapsed 1000000));
            (bs!"headers", capture_result headers);
            (bs!"outcome", json_string outcome);
            (bs!"redirects", JsonUint redirects);
            (bs!"type", json_string bs!"http")] in
  match tls with Some b => emplace bs!"tls_verified" (JsonBool b) o | None => o end.

Section Completion.

(** [jb::core::serialize_json]. *)
Context (serialize_json : JsonValue → option bytes).

Definition finish_result (o : list (bytes * JsonValue)) : result Error JsonValue :=
  let v := JsonObject o in
  match serialize_json v with
  | None => failure (invalid_result "serialization_failed")
  | Some text =>
      if kMaximumCompletionResultBytes <? Z.of_nat (length text)
      then failure (invalid_result "serialized_size_exceeded") else success v
  end.

Definition map_response (response : HttpResponse) (expected_statuses : list HttpStatusRange)
    (policy : HttpRetryPolicy) (completed_at : Z) : result Error HttpCompletionPolicy :=
  let expected := contains_status expected_statuses (status_code response) in
  let retryable := negb expected && contains_status (status_ranges policy) (status_code response) in
  let o := base_result (if expected then bs!"expected_status" else bs!"unexpected_status")
             (body response) (raw_headers response) (redirect_count response) (elapsed response)
             (tls_verified response) in
  let o := emplace bs!"status" (JsonUint (status_code response)) o in
  let '(retry_after, o) :=
    if retryable && ((status_code response =? 429) || (status_code response =? 503)) then
      let p := retry_after_policy (headers response) completed_at (http_max_delay policy) in
      (p, emplace bs!"retry_after" (retry_after_result p) o)
    else (no_retry_after, o) in
  v ← finish_result o;
  success (mkHttpCompletion (if expected then Succeeded else Failed)
    (if expected then None else Some (if retryable then Retryable else Terminal))
    (not_before retry_after) v).

Definition map_error (error : HttpError) (policy : HttpRetryPolicy) : result Error HttpCompletionPolicy :=
  let category := error_category (error_kind error) in
  let cancelled := match error_kind error with HttpCancelled => true | _ => false end in
  let retryable := configurable_error_category category &&
                   contains_category (error_categories policy) category in
  let o := base_result (if cancelled then bs!"cancelled" else bs!"transport_error")
             (error_body error) (error_raw_headers error) (error_redirects error) (error_elapsed error)
             (error_tls_verified error) in
  let o := emplace bs!"error_category" (json_string category) o in
  let o := emplace bs!"error_code" (json_string (bytes_of (code (transfer_error error)))) o in
  let o := match error_status error with
           | Some s => emplace bs!"status" (JsonUint s) o
           | None => o
           end in
  v ← finish_result o;
  success (mkHttpCompletion (if cancelled then Cancelled_ else Failed)
    (if cancelled then None else Some (if retryable then Retryable else Terminal)) None v).

Definition map_http_completion (transfer : result HttpError HttpResponse)
    (expected_statuses : list HttpStatusRange) (attributes : AttributeSet) (completed_at : Z)
    : result Error HttpCompletionPolicy :=
  policy ← decode_http_retry_policy attributes;
  match transfer with
  | success response => map_response response expected_statuses policy completed_at
  | failure error => map_error error policy
  end.

End Completion.

(** ** What Retry-After may ask for *)

Lemma add_time_spec c d :
  in_int64 c → 0 <= d <= int64_max →
  add_time_saturating c d = Some (mkAdded (Z.min (c + d) int64_max) (int64_max <? c + d)).
Proof.
  unfold in_int64, add_time_saturating. intros Hc Hd. rewrite (proj2 (Z.ltb_ge d 0)) by lia.
  destruct (Z.ltb_spec (int64_max - d) c), (Z.ltb_spec int64_max (c + d)); try lia; do 2 f_equal; lia.
Qed.

Lemma decimal_digit_nonneg r c v : 0 <= r → decimal_digit r c = Some v → 0 <= v.
Proof.
  intros Hr. unfold decimal_digit. destruct (Z.ltb_spec c 48), (57 <? c); cbn [orb]; [done..|].
  destruct (_ <? r); [done|]. intros [= <-]. lia.
Qed.

Lemma parse_unsigned_decimal_nonneg s v : parse_unsigned_decimal s = Some v → 0 <= v.
Proof.
  unfold parse_unsigned_decimal. case_bool_decide; [done|].
  assert (∀ r, 0 <= r → fold_opt decimal_digit r s = Some v → 0 <= v) as H'; [|by apply H'].
  clear. induction s as [|c s IH]; intros r Hr; [by intros [= <-]|]. cbn [fold_opt].
  destruct (decimal_digit r c) eqn:E; [|done]. cbn [mbind option_bind].
  apply IH. by eapply decimal_digit_nonneg.
Qed.

(** The time a header asks for, relative to the completion. *)
Definition asks_for (header : bytes) (completed_at t : Z) : Prop :=
  (∃ s, parse_unsigned_decimal header = Some s ∧ t = completed_at + s * 1000000000) ∨
  parse_imf_fixdate header = Some t.

Lemma retry_after_spec l c d :
  in_int64 c → 0 <= d <= int64_max →
  let p := retry_after_policy l c d in
  accepted p = bool_decide (is_Some (not_before p)) ∧
  ∀ t, not_before p = Some t →
    c <= t <= Z.min (c + d) int64_max ∧
    ∃ header, retry_after_header None l = Some header ∧
      (if clamped p then t = Z.min (c + d) int64_max else asks_for header c t).
Proof.
  intros Hc Hd. unfold retry_after_policy.
  destruct (retry_after_header None l) as [header|]; [|done]. rewrite add_time_spec by done.
  assert (Hm : int64_max = 9223372036854775807) by done. unfold in_int64 in Hc.
  assert (Hw : wrap_unsigned 64 (Z.quot d 1000000000) = d / 1000000000).
  { unfold wrap_unsigned. change (2 ^ 64) with 18446744073709551616.
    rewrite Z.quot_div_nonneg, Z.mod_small by dlia. done. }
  destruct (forallb ascii_digit header).
  - destruct (parse_unsigned_decimal header) as [s|] eqn:Hs; [|done].
    pose proof (parse_unsigned_decimal_nonneg _ _ Hs). cbn zeta. rewrite Hw.
    destruct (Z.ltb_spec (d / 1000000000) s) as [Hlt|Hge].
    + rewrite add_time_spec by done. cbn. split; [done|]. intros t [= <-]. split; [lia|]. by exists header.
    + rewrite wrap_signed_id by (try change (2 ^ (64 - 1)) with 9223372036854775808; dlia).
      assert (Hsd : 0 <= s * 1000000000 <= d) by dlia. rewrite add_time_spec by (done || lia). cbn.
      split; [done|]. intros t [= <-]. split; [lia|]. exists header. split; [done|].
      destruct (Z.ltb_spec int64_max (c + s * 1000000000)); [lia|]. left. exists s. split; [done|lia].
  - destruct (parse_imf_fixdate header) as [t|] eqn:Ht; [|done].
    destruct (Z.leb_spec t c); [done|]. cbn [added_value].
    destruct (Z.ltb_spec (Z.min (c + d) int64_max) t); cbn; (split; [done|]); intros ? [= <-];
      (split; [lia|]); exists header; [done|]. split; [done|]. by right.
Qed.

(** Whatever headers a server sends, [Retry-After] is honoured only
    within the policy: an accepted time is not before the completion and not
    after the completion plus the maximum delay, nor beyond the clock; if it is
    not reported as clamped it is exactly the time that the only such header
    asks for, in seconds or as a date. *)
Theorem retry_after_policy_spec l c d :
  in_int64 c → 0 <= d <= int64_max →
  let p := retry_after_policy l c d in
  accepted p = bool_decide (is_Some (not_before p)) ∧
  ∀ t, not_before p = Some t →
    c <= t <= Z.min (c + d) int64_max ∧
    ∃ header, retry_after_header None l = Some header ∧
      (if clamped p then t = Z.min (c + d) int64_max else asks_for header c t).
Proof. apply retry_after_spec. Qed.

(** ** The composition with the retry policy *)

Lemma finish_result_inv serialize o v : finish_result serialize o = success v → v = JsonObject o.
Proof. unfold finish_result. repeat case_match; by intros [= <-]. Qed.

Lemma map_response_not_before serialize r e policy c h :
  map_response serialize r e policy c = success h →
  http_retry_not_before h = None ∨
  http_retry_not_before h = not_before (retry_after_policy (headers r) c (http_max_delay policy)).
Proof.
  unfold map_response. destruct (_ && _).
  - destruct (finish_result _ _); [|done]. cbn. intros [= <-]. by right.
  - destruct (finish_result _ _); [|done]. cbn. intros [= <-]. by left.
Qed.

Lemma map_error_not_before serialize e policy h :
  map_error serialize e policy = success h → http_retry_not_before h = None.
Proof. unfold map_error. destruct (finish_result _ _); [|done]. cbn. by intros [= <-]. Qed.

Lemma map_http_completion_not_before serialize transfer e attributes p c h t :
  in_int64 c → retry_policy_from_attributes attributes = success p →
  map_http_completion serialize transfer e attributes c = success h →
  http_retry_not_before h = Some t → c <= t <= Z.min (c + max_delay p) int64_max.
Proof.
  intros Hc Hp. unfold map_http_completion. intros (policy & Hd & Hm)%bind_success Ht.
  assert (Hmax : http_max_delay policy = max_delay p).
  { unfold decode_http_retry_policy in Hd. rewrite Hp in Hd. cbn [mbind result_bind] in Hd.
    apply bind_success in Hd as (? & _ & Hd). apply bind_success in Hd as (? & _ & Hd).
    apply bind_success in Hd as (? & _ & Hd). apply bind_success in Hd as (? & _ & Hd).
    by injection Hd as <-. }
  destruct transfer as [r|err]; [|apply map_error_not_before in Hm; congruence].
  apply map_response_not_before in Hm as [|Hm]; [congruence|]. rewrite Hm, Hmax in Ht.
  destruct (policy_from_attributes_valid _ _ Hp) as (Hv & Hk & Hj).
  destruct (validate_policy_valid p Hk Hj Hv) as (k & j & [_ ? Hle _ _ _ _]).
  apply (retry_after_spec (headers r) c (max_delay p)); [done| |done].
  unfold maximum_delay, ns_per_hour, int64_max in *. lia.
Qed.

(** From the transfer to the schedule: whatever a server answers, the
    retry of an HTTP attempt is due no earlier than its completion and no
    later than the policy's maximum delay after it. *)
Theorem http_retry_due_bounded serialize transfer e attributes p c h run n allowed r :
  in_int64 c → 1 <= n → retry_policy_from_attributes attributes = success p →
  map_http_completion serialize transfer e attributes c = success h →
  retry_decision attributes
    (mkCompletion run n (http_outcome h) (bool_decide (http_disposition h = Some Retryable)) allowed c
       (http_retry_not_before h)) = success (Some r) →
  http_outcome h = Failed ∧ http_disposition h = Some Retryable ∧
  c <= due_at r <= Z.min (c + max_delay p) int64_max.
Proof.
  intros Hc Hn Hp Hm Hr.
  pose proof (retry_decision_exact attributes p
    (mkCompletion run n (http_outcome h) (bool_decide (http_disposition h = Some Retryable)) allowed c
       (http_retry_not_before h)) Hp Hn) as H. rewrite Hr in H.
  destruct H as ((Hf & Hd & _) & _ & Hle & _ & Hdue). cbn in *. rewrite bool_decide_eq_true in Hd.
  split_and!; [done..|]. destruct Hdue as [|Hdue]; [lia|].
  pose proof (map_http_completion_not_before _ _ _ _ _ _ _ _ Hc Hp Hm Hdue). lia.
Qed.

(** ** IMF-fixdate *)

(** The names of a weekday and of a month. *)
Definition weekday_name (w : Z) : bytes := default [] (weekdays !! Z.to_nat w).
Definition month_name (m : Z) : bytes := default [] (months !! Z.to_nat (m - 1)).

(** The wire form of RFC 9110, section 5.6.7. *)
Definition imf_text (y m d h mi s : Z) : bytes :=
  weekday_name (weekday_of_days (days_from_civil y m d)) ++ [44; 32] ++ fixed_digits 2 d ++ [32] ++
  month_name m ++ [32] ++ fixed_digits 4 y ++ [32] ++ fixed_digits 2 h ++ [58] ++
  fixed_digits 2 mi ++ [58] ++ fixed_digits 2 s ++ [32] ++ bs!"GMT".

Definition imf_fields (y m d h mi s : Z) : Prop :=
  0 <= y <= 9999 ∧ valid_date y m d = true ∧ 0 <= h <= 23 ∧ 0 <= mi <= 59 ∧ 0 <= s <= 60.

Definition imf_instant (y m d h mi s : Z) : Z :=
  (days_from_civil y m d * 86400 + h * 3600 + mi * 60 + s) * 1000000000.

Lemma index_of_spec name l i : index_of name l = Some i → 0 <= i ∧ l !! Z.to_nat i = Some name.
Proof.
  revert i. induction l as [|x l IH]; intros i; [done|]. cbn [index_of]. unfold bytes_eqb.
  case_bool_decide as Hx; [intros [= <-]; subst; done|].
  destruct (index_of name l) as [j|]; [|done]. cbn. intros [= <-]. destruct (IH j eq_refl) as [Hj Hl].
  split; [lia|]. by rewrite Z2Nat.inj_succ by done.
Qed.

(** A name of the table has three letters and is found where it stands. *)
Definition named (l : list bytes) (name : bytes) (i : Z) : bool :=
  bool_decide (index_of name l = Some i) && (length name =? 3)%nat.

Lemma weekday_named w : 0 <= w < 7 → named weekdays (weekday_name w) w = true.
Proof. apply (interval_check (λ w, named weekdays (weekday_name w) w) 0 7). vm_compute. reflexivity. Qed.

Lemma month_named m : 1 <= m < 13 → named months (month_name m) (m - 1) = true.
Proof. apply (interval_check (λ m, named months (month_name m) (m - 1)) 1 12). vm_compute. reflexivity. Qed.

Lemma named_spec l name i : named l name i = true → index_of name l = Some i ∧ ∃ a b c, name = [a; b; c].
Proof.
  unfold named. rewrite andb_true_iff, bool_decide_eq_true, Nat.eqb_eq. intros [? Hl]. split; [done|].
  destruct name as [|a [|b [|c [|]]]]; try done. eauto.
Qed.

Lemma valid_date_spec y m d : valid_date y m d = true ↔ 1 <= m <= 12 ∧ 1 <= d <= days_in_month y m.
Proof. unfold valid_date. rewrite !andb_true_iff, !Z.leb_le. lia. Qed.

Lemma clock_range_seconds n :
  (n <? - (- int64_min / 1000000000)) || (int64_max / 1000000000 <? n) = false ↔
  in_int64 (n * 1000000000).
Proof.
  change (- (- int64_min / 1000000000)) with (-9223372036). change (int64_max / 1000000000) with 9223372036.
  unfold in_int64. change int64_min with (-9223372036854775808). change int64_max with 9223372036854775807.
  rewrite orb_false_iff, !Z.ltb_ge. lia.
Qed.

Lemma parse_imf_text y m d h mi s :
  imf_fields y m d h mi s → in_int64 (imf_instant y m d h mi s) →
  parse_imf_fixdate (imf_text y m d h mi s) = Some (imf_instant y m d h mi s).
Proof.
  intros (Hy & Hv & Hh & Hmi & Hs) Hi. pose proof (proj1 (valid_date_spec y m d) Hv) as [Hm Hd].
  pose proof (days_in_month_bounds y m) as Hb.
  pose proof (weekday_named (weekday_of_days (days_from_civil y m d))
    ltac:(unfold weekday_of_days; apply Z.mod_pos_bound; lia)) as (Hw & w1 & w2 & w3 & Ew)%named_spec.
  pose proof (month_named m ltac:(lia)) as (Hmo & m1 & m2 & m3 & Em)%named_spec.
  assert (Et : imf_text y m d h mi s =
    [w1; w2; w3] ++ [44; 32] ++ fixed_digits 2 d ++ [32] ++ [m1; m2; m3] ++ [32] ++ fixed_digits 4 y ++ [32] ++
    fixed_digits 2 h ++ [58] ++ fixed_digits 2 mi ++ [58] ++ fixed_digits 2 s ++ [32] ++ [71; 77; 84])
    by (unfold imf_text; by rewrite Ew, Em).
  rewrite Ew in Hw. rewrite Em in Hmo. rewrite Et. set (v := [w1; w2; w3] ++ _). unfold parse_imf_fixdate, parse_digits.
  change (Z.of_nat (length v) =? 29) with true. change (imf_separators v) with true. cbn [negb orb].
  change (substr v 0 3) with [w1; w2; w3]. change (substr v 8 3) with [m1; m2; m3]. rewrite Hw, Hmo.
  change (substr v 5 2) with (fixed_digits 2 d). change (substr v 12 4) with (fixed_digits 4 y).
  change (substr v 17 2) with (fixed_digits 2 h). change (substr v 20 2) with (fixed_digits 2 mi).
  change (substr v 23 2) with (fixed_digits 2 s).
  cbn [mbind option_bind]. rewrite !fixed_digits_parse by (simpl; lia). cbn [mbind option_bind].
  rewrite !(proj2 (Z.ltb_ge _ _)) by lia. cbn [orb]. rewrite Z.sub_add, Hv, Z.eqb_refl. cbn [negb].
  rewrite (proj2 (clock_range_seconds _)) by exact Hi. done.
Qed.

Lemma imf_separators_inv v :
  imf_separators v = true →
  at_index v 3 = 44 ∧ at_index v 4 = 32 ∧ at_index v 7 = 32 ∧ at_index v 11 = 32 ∧ at_index v 16 = 32 ∧
  at_index v 19 = 58 ∧ at_index v 22 = 58 ∧ at_index v 25 = 32 ∧ drop 26 v = [71; 77; 84].
Proof.
  unfold imf_separators, bytes_eqb. rewrite !andb_true_iff, !Z.eqb_eq, bool_decide_eq_true. tauto.
Qed.

Lemma imf_rebuild v a b d y h mi s :
  length v = 29%nat → imf_separators v = true →
  substr v 0 3 = a → substr v 8 3 = b → substr v 5 2 = d → substr v 12 4 = y → substr v 17 2 = h →
  substr v 20 2 = mi → substr v 23 2 = s →
  v = a ++ [44; 32] ++ d ++ [32] ++ b ++ [32] ++ y ++ [32] ++ h ++ [58] ++ mi ++ [58] ++ s ++ [32] ++
      [71; 77; 84].
Proof.
  intros Hl Hs. apply imf_separators_inv in Hs. do 29 (destruct v as [|? v]; [done|]). destruct v; [|done].
  cbv [at_index lookup list_lookup default from_option id drop] in Hs. destruct Hs as (-> & -> & -> & -> & -> & -> & -> & -> & [= -> -> ->]).
  intros <- <- <- <- <- <- <-. done.
Qed.

(** The date parser accepts exactly the wire form: an existing date with
    its own weekday, in range of the clock, and nothing else; the result is the
    instant it denotes. *)
Theorem parse_imf_fixdate_spec v t :
  parse_imf_fixdate v = Some t ↔
  ∃ y m d h mi s, imf_fields y m d h mi s ∧ v = imf_text y m d h mi s ∧ t = imf_instant y m d h mi s ∧
    in_int64 t.
Proof.
  split; [|intros (y & m & d & h & mi & s & Hf & -> & -> & Hi); by apply parse_imf_text].
  unfold parse_imf_fixdate. destruct (Z.eqb_spec (Z.of_nat (length v)) 29) as [Hl|]; [|done].
  destruct (imf_separators v) eqn:Hsep; [|done]. cbn [negb orb].
  destruct (index_of _ weekdays) as [w|] eqn:Hw; [|done].
  destruct (index_of _ months) as [m|] eqn:Hm; [|done]. cbn [mbind option_bind].
  destruct (parse_digits v 5 2) as [d|] eqn:Hd; [|done]. destruct (parse_digits v 12 4) as [y|] eqn:Hy; [|done].
  destruct (parse_digits v 17 2) as [h|] eqn:Hh; [|done]. destruct (parse_digits v 20 2) as [mi|] eqn:Hmi; [|done].
  destruct (parse_digits v 23 2) as [s|] eqn:Hs; [|done]. cbn [mbind option_bind].
  apply parse_digits_exact in Hd as [Hd _], Hy as [Hy Hy1], Hh as [Hh Hh1], Hmi as [Hmi Hmi1], Hs as [Hs Hs1]; [|lia..].
  destruct (Z.ltb_spec 23 h), (Z.ltb_spec 59 mi), (Z.ltb_spec 60 s); try done. cbn [orb].
  destruct (valid_date y (m + 1) d) eqn:Hv; [|done]. cbn [negb].
  destruct (Z.eqb_spec (weekday_of_days (days_from_civil y (m + 1) d)) w) as [Ew|]; [|done]. cbn [negb].
  destruct (_ || _) eqn:Hr; [done|]. apply clock_range_seconds in Hr. intros [= <-].
  apply index_of_spec in Hw as [_ Hw], Hm as [_ Hm]. exists y, (m + 1), d, h, mi, s.
  split; [|split; [|split; [done|exact Hr]]].
  - simpl in Hy1. unfold imf_fields. rewrite Hv. lia.
  - unfold imf_text, weekday_name, month_name. rewrite Z.add_simpl_r, Ew, Hw, Hm. cbn [default from_option id].
    by apply imf_rebuild; [lia|..].
Qed.

(** ** Witnesses *)

(** A policy with no delay of its own, so that the server's time decides. *)
Definition http_attributes : AttributeSet :=
  <[bs!"http.retry_errors" := AttrList [AttrString bs!"timeout"]]>
  (<[bs!"http.retry_statuses" := AttrList [AttrString bs!"500-599"]]>
  (<[bs!"retry.initial_delay" := AttrDuration 0]> sample_attributes)).

Definition http_policy : RetryPolicy :=
  mkPolicy 5 Exponential 0 60000000000 (double_of_bits 0x4000000000000000) (double_of_bits 0) Reschedule.

Definition sample_response : HttpResponse :=
  mkResponse 503 [mkHeader bs!"retry-after" bs!"3600" false] (mkCaptured [] 0 false) (mkCaptured [] 0 false)
    0 0 None.

Lemma retry_after_policy_spec_witness :
  retry_after_policy (headers sample_response) 0 60000000000 = mkAfter (Some 60000000000) true true ∧
  0 <= 60000000000 <= Z.min (0 + 60000000000) int64_max.
Proof.
  assert (H : retry_after_policy (headers sample_response) 0 60000000000 = mkAfter (Some 60000000000) true true)
    by (vm_compute; reflexivity).
  split; [exact H|].
  destruct (retry_after_policy_spec (headers sample_response) 0 60000000000) as [_ Hb];
    [unfold in_int64, int64_min, int64_max; lia|unfold int64_max; lia|].
  rewrite H in Hb. by apply Hb.
Defined.

Lemma http_retry_due_bounded_witness :
  ∃ h r, map_http_completion (λ _, Some []) (success sample_response) [mkStatuses 200 299] http_attributes 0
           = success h ∧
    retry_decision http_attributes
      (mkCompletion (replicate 16 7) 1 (http_outcome h) (bool_decide (http_disposition h = Some Retryable)) true 0
         (http_retry_not_before h)) = success (Some r) ∧
    0 <= due_at r <= Z.min (0 + 60000000000) int64_max.
Proof.
  assert (Hp : retry_policy_from_attributes http_attributes = success http_policy) by (vm_compute; reflexivity).
  assert (Hm : ∃ v, map_http_completion (λ _, Some []) (success sample_response) [mkStatuses 200 299]
      http_attributes 0 = success (mkHttpCompletion Failed (Some Retryable) (Some 60000000000) v))
    by (eexists; vm_compute; reflexivity).
  destruct Hm as [v Hm]. set (h := mkHttpCompletion _ _ _ v) in Hm.
  assert (Hr : retry_decision http_attributes
      (mkCompletion (replicate 16 7) 1 (http_outcome h) (bool_decide (http_disposition h = Some Retryable)) true 0
         (http_retry_not_before h)) = success (Some (mkRetry 60000000000 Reschedule))) by (vm_compute; reflexivity).
  exists h, (mkRetry 60000000000 Reschedule). split; [exact Hm|]. split; [exact Hr|].
  refine (proj2 (proj2 (http_retry_due_bounded _ _ _ _ _ _ _ _ _ _ _ _ _ Hp Hm Hr))).
  - unfold in_int64, int64_min, int64_max. lia.
  - lia.
Defined.
