(* ===== verification/HttpValidation.v ===== *)
(** * The contract of HTTP requests: [src/net/http_validation_priv.cpp]

    The checks that every request passes before it is handed to the HTTP
    client, and that the payloads of HTTP jobs pass when they are admitted: the
    method, the URL in its final form, the header fields and the bounds.  The
    checks are shown to accept exactly the requests of a declarative
    grammar. *)

From stdpp Require Import base numbers strings list.
From Stdlib Require Import Ascii.
From S2P Require Import Prelude HttpRetry.
Local Open Scope Z_scope.

(** A reason is [None] where the source returns the empty view. *)
Abbreviation reason := (option string).

Definition kMaximumMethodBytes : Z := 32.
Definition kMaximumUrlBytes : Z := 16 * 1024.
Definition kMaximumHeaderCount : Z := 128.
Definition kMaximumHeaderBytes : Z := 64 * 1024.
Definition kMaximumRedirects : Z := 20.

Definition kReservedHeaders : list bytes :=
  [bs!"Host"; bs!"Content-Length"; bs!"Transfer-Encoding"; bs!"Connection"; bs!"Proxy-Connection"; bs!"TE";
   bs!"Trailer"; bs!"Upgrade"].

Definition invalid_request (detail : string) : Error :=
  mkError InvalidArgument "net.http.invalid_request" "HTTP request is invalid" detail.

(** Borrowed header fields; an absent value denotes unresolved bytes. *)
Record HttpHeaderFields := mkFields { field_name : bytes; field_value : option bytes }.

Record HttpRequest := mkRequest {
  request_method : bytes; request_url : bytes; request_headers : list HttpHeader; request_body : option bytes;
  request_timeout : Z; verify_tls : bool; follow_redirects : bool; max_redirects : Z;
  response_body_limit : Z; response_header_limit : Z }.

(** ** Characters *)

Definition ascii_lower (c : Z) : Z := if (#"A" <=? c) && (c <=? #"Z") then c + 32 else c.

Fixpoint ascii_equal (lhs rhs : bytes) : bool :=
  match lhs, rhs with
  | [], [] => true
  | l :: lhs, r :: rhs => (ascii_lower l =? ascii_lower r) && ascii_equal lhs rhs
  | _, _ => false
  end.

Definition is_token_character (c : Z) : bool :=
  ascii_lower_alpha c || ascii_upper_alpha c || ascii_digit c || bool_decide (c ∈ bs!"!#$%&'*+-.^_`|~").

Definition is_token (s : bytes) : bool := negb (bool_decide (s = [])) && forallb is_token_character s.

Definition is_hex_digit (c : Z) : bool :=
  ascii_digit c || ((#"a" <=? c) && (c <=? #"f")) || ((#"A" <=? c) && (c <=? #"F")).

(** ** URLs *)

(** The loop over [index], on the bytes that remain. *)
Fixpoint validate_url_characters (url : bytes) : reason :=
  match url with
  | [] => None
  | c :: rest =>
      if (c <? 0x21) || (0x7e <? c) then Some "url.not_printable_ascii"
      else if c =? #"#" then Some "url.fragment_forbidden"
      else if c =? #"%" then
        match rest with
        | a :: b :: rest =>
            if negb (is_hex_digit a) || negb (is_hex_digit b) then Some "url.invalid_percent_escape"
            else validate_url_characters rest
        | _ => Some "url.invalid_percent_escape"
        end
      else validate_url_characters rest
  end.

Definition valid_port_suffix (suffix : bytes) : bool :=
  (1 <? length suffix)%nat && bool_decide (head suffix = Some #":") && forallb ascii_digit (drop 1 suffix).

Definition contains_any (set s : bytes) : bool := existsb (λ c, bool_decide (c ∈ set)) s.

Definition validate_authority (authority : bytes) : reason :=
  if bool_decide (authority = []) then Some "url.missing_host"
  else if is_some (find #"@" authority) then Some "url.userinfo_forbidden"
  else if bool_decide (head authority = Some #"[") then
    match find #"]" authority with
    | None => Some "url.missing_host"
    | Some closing =>
        if (closing =? 1)%nat then Some "url.missing_host"
        else
          let suffix := drop (closing + 1) authority in
          if (negb (bool_decide (suffix = [])) && negb (valid_port_suffix suffix)) ||
             is_some (find_from #"[" authority 1) || is_some (find_from #"]" authority (closing + 1))
          then Some "url.invalid_authority" else None
    end
  else if contains_any bs!"[]" authority then Some "url.invalid_authority"
  else
    match find #":" authority with
    | None => None
    | Some colon =>
        if (colon =? 0)%nat then Some "url.missing_host"
        else if is_some (find_from #":" authority (colon + 1)) || negb (valid_port_suffix (drop colon authority))
        then Some "url.invalid_authority" else None
    end.

Definition in_authority (c : Z) : bool := negb ((c =? #"/") || (c =? #"?")).

Definition validate_url (url : bytes) : reason :=
  if bool_decide (url = []) then Some "url.empty"
  else if kMaximumUrlBytes <? Z.of_nat (length url) then Some "url.too_long"
  else match validate_url_characters url with
  | Some reason => Some reason
  | None =>
      match find #":" url with
      | None => Some "url.unsupported_scheme"
      | Some scheme_end =>
          if negb (ascii_equal (take scheme_end url) bs!"http") && negb (ascii_equal (take scheme_end url) bs!"https")
          then Some "url.unsupported_scheme"
          else if (length url <=? scheme_end + 2)%nat ||
                  negb (bool_decide (url !! (scheme_end + 1)%nat = Some #"/")) ||
                  negb (bool_decide (url !! (scheme_end + 2)%nat = Some #"/"))
          then Some "url.invalid_absolute_form"
          else validate_authority (span_while in_authority (drop (scheme_end + 3) url)).1
      end
  end.

(** ** Methods and headers *)

Definition validate_method (method : bytes) : reason :=
  if bool_decide (method = []) then Some "method.empty"
  else if kMaximumMethodBytes <? Z.of_nat (length method) then Some "method.too_long"
  else if negb (is_token method) then Some "method.invalid_token"
  else None.

(** Carriage return, line feed and NUL. *)
Definition field_terminators : bytes := [13; 10; 0].

(** The loop over the fields: [previous] are those already passed, [total]
    their known bytes.  [total] never exceeds the limit, so that the unsigned
    difference does not wrap. *)
Fixpoint validate_fields (previous : list HttpHeaderFields) (total : Z) (headers : list HttpHeaderFields) : reason :=
  match headers with
  | [] => None
  | header :: headers =>
      if negb (is_token (field_name header)) then Some "headers.invalid_name"
      else if match field_value header with Some v => contains_any field_terminators v | None => false end
      then Some "headers.invalid_value"
      else if existsb (ascii_equal (field_name header)) kReservedHeaders then Some "headers.reserved_name"
      else if existsb (λ p, ascii_equal (field_name header) (field_name p)) previous then Some "headers.duplicate_name"
      else if kMaximumHeaderBytes - total <? Z.of_nat (length (field_name header)) then Some "headers.too_large"
      else
        let total := total + Z.of_nat (length (field_name header)) in
        match field_value header with
        | Some v =>
            if kMaximumHeaderBytes - total <? Z.of_nat (length v) then Some "headers.too_large"
            else validate_fields (previous ++ [header]) (total + Z.of_nat (length v)) headers
        | None => validate_fields (previous ++ [header]) total headers
        end
  end.

Definition validate_headers (headers : list HttpHeaderFields) : reason :=
  if kMaximumHeaderCount <? Z.of_nat (length headers) then Some "headers.too_many"
  else validate_fields [] 0 headers.

Definition representable_backend_size (v : Z) : bool := v <=? int64_max.

(** ** Requests *)

Definition refuse (r : reason) : result Error unit :=
  match r with Some detail => failure (invalid_request detail) | None => success tt end.

Definition validate_http_url (url : bytes) : result Error unit := refuse (validate_url url).

Definition validate_http_request_fields (method url : bytes) (headers : list HttpHeaderFields) (has_body : bool)
    : result Error unit :=
  _ ← refuse (validate_method method);
  _ ← validate_http_url url;
  _ ← refuse (validate_headers headers);
  check (negb (bytes_eqb method bs!"HEAD" && has_body)) (invalid_request "body.head_forbidden").

Definition fields_of (header : HttpHeader) : HttpHeaderFields := mkFields (header_name header) (Some (header_value header)).

Definition validate_http_request (request : HttpRequest) : result Error unit :=
  _ ← validate_http_request_fields (request_method request) (request_url request) (map fields_of (request_headers request))
        (is_some (request_body request));
  _ ← check (negb ((request_timeout request <? 1000000) || (30 * 86400 * 1000000000 <? request_timeout request)))
        (invalid_request "timeout.out_of_range");
  _ ← check (negb ((kMaximumRedirects <? max_redirects request) ||
                   (follow_redirects request && (max_redirects request =? 0))))
        (invalid_request "redirects.out_of_range");
  check (negb (match request_body request with
               | Some b => negb (representable_backend_size (Z.of_nat (length b)))
               | None => false
               end || negb (representable_backend_size (response_body_limit request)) ||
               negb (representable_backend_size (response_header_limit request))))
    (invalid_request "size.not_representable").

(** ** The grammar that the checks decide *)

(** Printable characters without fragment; escapes are complete. *)
Inductive url_text : bytes → Prop :=
  | url_end : url_text []
  | url_plain c s : 0x21 <= c <= 0x7e → c ≠ #"#" → c ≠ #"%" → url_text s → url_text (c :: s)
  | url_escape a b s :
      is_hex_digit a = true → is_hex_digit b = true → url_text s → url_text (#"%" :: a :: b :: s).

Definition port (p : bytes) : Prop := p = [] ∨ ∃ digits, p = #":" :: digits ∧ digits ≠ [] ∧ forallb ascii_digit digits = true.

Definition free_of (set s : bytes) : Prop := ∀ c, c ∈ s → c ∉ set.

(** A host name or address, or a bracketed address; then a port. *)
Inductive authority : bytes → Prop :=
  | named_host host p : host ≠ [] → free_of bs!"[]:@" host → port p → authority (host ++ p)
  | literal_host host p : host ≠ [] → free_of bs!"[]@" host → port p → authority (#"[" :: host ++ #"]" :: p).

(** [scheme://authority] followed by nothing or by a path or query. *)
Definition absolute_form (url : bytes) : Prop :=
  ∃ scheme host rest,
    url = scheme ++ bs!"://" ++ host ++ rest ∧
    map ascii_lower scheme ∈ [bs!"http"; bs!"https"] ∧ authority host ∧
    forallb in_authority host = true ∧ (rest = [] ∨ ∃ c r, rest = c :: r ∧ in_authority c = false).

Record wire_url (url : bytes) : Prop := {
  url_fits : Z.of_nat (length url) <= kMaximumUrlBytes;
  url_characters : url_text url;
  url_form : absolute_form url }.

Definition wire_method (method : bytes) : Prop :=
  1 <= Z.of_nat (length method) <= kMaximumMethodBytes ∧ forallb is_token_character method = true.

Definition known_bytes (h : HttpHeaderFields) : Z :=
  Z.of_nat (length (field_name h)) + Z.of_nat (length (default [] (field_value h))).

Definition lower_name (h : HttpHeaderFields) : bytes := map ascii_lower (field_name h).

(** A field that can stand on a line of its own and that the client does not
    write itself. *)
Record wire_field (h : HttpHeaderFields) : Prop := {
  name_is_token : field_name h ≠ [] ∧ forallb is_token_character (field_name h) = true;
  value_on_line v : field_value h = Some v → free_of [13; 10; 0] v;
  name_not_reserved : lower_name h ∉ map (map ascii_lower) kReservedHeaders }.

Record wire_headers (headers : list HttpHeaderFields) : Prop := {
  fields_bounded : Z.of_nat (length headers) <= kMaximumHeaderCount;
  fields_valid : Forall wire_field headers;
  names_distinct : NoDup (map lower_name headers);
  fields_fit : foldr (λ h n, known_bytes h + n) 0 headers <= kMaximumHeaderBytes }.

(** ** Lemmas *)

Lemma ascii_equal_spec l r : ascii_equal l r = true ↔ map ascii_lower l = map ascii_lower r.
Proof.
  revert r. induction l as [|x l IH]; intros [|y r]; simpl; [done..|].
  rewrite andb_true_iff, Z.eqb_eq, IH. split; [by intros [-> ->]|by intros [= -> ->]].
Qed.

Lemma existsb_ascii_equal name l :
  existsb (ascii_equal name) l = true ↔ map ascii_lower name ∈ map (map ascii_lower) l.
Proof.
  rewrite existsb_exists, list_elem_of_fmap. split.
  - intros (x & Hx & He%ascii_equal_spec). exists x. by rewrite list_elem_of_In.
  - intros (x & He & Hx). exists x. rewrite <- list_elem_of_In. by rewrite ascii_equal_spec.
Qed.

Lemma contains_any_false set s : contains_any set s = false ↔ free_of set s.
Proof.
  unfold contains_any, free_of. rewrite <- not_true_iff_false, existsb_exists. split.
  - intros Hno c Hc Hset. apply Hno. exists c. rewrite <- list_elem_of_In. by rewrite bool_decide_true.
  - intros Hf (c & Hc%list_elem_of_In & Hset%bool_decide_eq_true). by eapply Hf.
Qed.

Lemma free_of_cons set c s : free_of set (c :: s) ↔ (c ∉ set) ∧ free_of set s.
Proof.
  unfold free_of. split.
  - intros Hf. split; [apply Hf, list_elem_of_here|]. intros x Hx. by apply Hf, elem_of_cons; right.
  - intros [Hc Hf] x [->|Hx]%elem_of_cons; [done|by apply Hf].
Qed.

Lemma free_of_app set s r : free_of set (s ++ r) ↔ free_of set s ∧ free_of set r.
Proof.
  unfold free_of. setoid_rewrite elem_of_app. naive_solver.
Qed.

Lemma is_some_find c s : is_some (find c s) = false ↔ c ∉ s.
Proof.
  destruct (find c s) eqn:E; simpl.
  - apply find_some_inv in E as (-> & _ & _). split; [done|]. intros Hn. exfalso. apply Hn.
    apply elem_of_app. right. apply list_elem_of_here.
  - by apply find_none_inv in E.
Qed.

Lemma is_some_find_from c s n : is_some (find_from c s n) = false ↔ c ∉ drop n s.
Proof. rewrite <- is_some_find. unfold find_from. by destruct (find c (drop n s)). Qed.

Lemma url_text_spec url : validate_url_characters url = None ↔ url_text url.
Proof.
  induction url as [[|c s] IH] using list_length_ind; [split; [constructor|done]|]. cbn [validate_url_characters].
  destruct (_ || _) eqn:Hc; [split; [done|]|].
  { rewrite orb_true_iff, !Z.ltb_lt in Hc. intros Ht. inv Ht; lia. }
  rewrite orb_false_iff, !Z.ltb_ge in Hc.
  destruct (Z.eqb_spec c #"#") as [->|?]; [split; [done|intros Ht; by inv Ht]|].
  destruct (Z.eqb_spec c #"%") as [->|?].
  - destruct s as [|a [|b s]]; [split; [done|intros Ht; by inv Ht]..|].
    destruct (is_hex_digit a) eqn:?; simpl; [|split; [done|intros Ht; inv Ht; congruence]].
    destruct (is_hex_digit b) eqn:?; simpl; [|split; [done|intros Ht; inv Ht; congruence]].
    rewrite IH by (cbn; lia). split; [by constructor|]. intros Ht. by inv Ht.
  - rewrite IH by (cbn; lia). split; [by constructor; try lia|]. intros Ht. by inv Ht.
Qed.

Lemma port_spec suffix : suffix = [] ∨ valid_port_suffix suffix = true ↔ port suffix.
Proof.
  unfold port, valid_port_suffix. destruct suffix as [|c [|d s]]; [naive_solver|..].
  - split; [by intros [?|?]|]. intros [?|(d & [= -> <-] & ? & _)]; done.
  - rewrite !andb_true_iff, bool_decide_eq_true. cbn [head drop]. split.
    + intros [?|[[_ [= ->]] ?]]; [done|]. right. by eexists.
    + intros [?|(ds & [= -> <-] & _ & ?)]; [done|]. by right.
Qed.

Lemma digits_free digits : forallb ascii_digit digits = true → free_of bs!"[]:@" digits.
Proof.
  rewrite forallb_forall. intros Hd c Hc%list_elem_of_In Hset. specialize (Hd c Hc). unfold ascii_digit in Hd.
  rewrite andb_true_iff, !Z.leb_le in Hd. rewrite !elem_of_cons, elem_of_nil in Hset. lia.
Qed.

(** Freedom from the members of a literal set, one by one. *)
Lemma free_of_insert x set s : free_of (x :: set) s ↔ (x ∉ s) ∧ free_of set s.
Proof.
  unfold free_of. setoid_rewrite not_elem_of_cons. split.
  - intros Hf. split; [intros Hx; by destruct (Hf x Hx)|]. intros c Hc. by apply Hf.
  - intros [Hx Hf] c Hc. split; [by intros ->|by apply Hf].
Qed.

Lemma free_of_nil s : free_of [] s ↔ True.
Proof. split; [done|]. intros _ c _ ?%elem_of_nil. done. Qed.

Create Rewrite HintDb free.
#[export] Hint Rewrite free_of_insert free_of_nil : free.
Ltac free_solver :=
  autorewrite with free in *;
  rewrite ?drop_0, ?not_elem_of_cons, ?not_elem_of_app, ?elem_of_nil, ?elem_of_cons, ?elem_of_app in *; try naive_solver lia.

Lemma port_free p : port p → free_of bs!"[]@" p.
Proof.
  intros [->|(digits & -> & _ & Hd%digits_free)]; free_solver.
Qed.

Lemma drop_after (host : bytes) c p : drop (length host + 1) (host ++ c :: p) = p.
Proof. induction host; [by rewrite Nat.add_0_l|done]. Qed.

Lemma literal_authority t :
  #"@" ∉ t →
  validate_authority (#"[" :: t) = None ↔ ∃ host p, t = host ++ #"]" :: p ∧ host ≠ [] ∧ free_of bs!"[]@" host ∧ port p.
Proof.
  intros Hat. unfold validate_authority. rewrite bool_decide_false by done.
  assert (is_some (find #"@" (#"[" :: t)) = false) as -> by (apply is_some_find; free_solver).
  rewrite bool_decide_true by done. cbn [find Z.eqb Pos.eqb]. split.
  - destruct (find #"]" t) as [k|] eqn:Hk; [|done]. cbn [fmap option_fmap option_map]. destruct k as [|k]; [done|]. cbn [Nat.eqb].
    apply find_some_inv in Hk as (Ht & Hno & Hlen). rewrite Nat.add_1_r.
    destruct (_ || _) eqn:Hcond; [done|]. intros _.
    rewrite !orb_false_iff, !is_some_find_from in Hcond. destruct Hcond as [[Hp Hopen] Hclose]. cbn in Hopen. rewrite drop_0 in Hopen.
    exists (take (S k) t), (drop (S (S k)) t). split_and!; [done|intros E; rewrite E in Hlen; cbn in Hlen; lia|..].
    + rewrite Ht in Hat, Hopen. clear Ht. free_solver.
    + apply port_spec. rewrite andb_false_iff, !negb_false_iff, bool_decide_eq_true in Hp. exact Hp.
  - intros (host & p & -> & Hne & Hfree & Hp). rewrite find_app by free_solver. cbn [fmap option_fmap option_map].
    assert ((S (length host) =? 1)%nat = false) as -> by (destruct host; done).
    pose proof (port_free p Hp) as Hpf. apply port_spec in Hp.
    pose proof (drop_after (#"[" :: host) #"]" p) as Hdrop. cbn [length app] in Hdrop. rewrite Hdrop.
    assert (is_some (find_from #"[" (#"[" :: host ++ #"]" :: p) 1) = false) as ->
      by (apply is_some_find_from; cbn; free_solver).
    assert (is_some (find_from #"]" (#"[" :: host ++ #"]" :: p) (S (length host) + 1)) = false) as ->
      by (apply is_some_find_from; rewrite Hdrop; free_solver).
    destruct Hp as [->| ->]; [done|]. cbn. by rewrite andb_false_r.
Qed.

Lemma named_authority a :
  head a ≠ Some #"[" → #"@" ∉ a →
  validate_authority a = None ↔ ∃ host p, a = host ++ p ∧ host ≠ [] ∧ free_of bs!"[]:@" host ∧ port p.
Proof.
  intros Hhead Hat. unfold validate_authority.
  assert (is_some (find #"@" a) = false) as -> by by apply is_some_find.
  rewrite (bool_decide_false (head a = _)) by done. split.
  - case_bool_decide as Hne; [done|]. destruct (contains_any _ _) eqn:Hset; [done|]. apply contains_any_false in Hset.
    destruct (find #":" a) as [colon|] eqn:Hf.
    + destruct (Nat.eqb_spec colon 0) as [|Hc]; [done|]. destruct (_ || _) eqn:Hp; [done|]. intros _.
      apply find_some_inv in Hf as (Ha & Hno & Hlen). rewrite orb_false_iff, negb_false_iff in Hp.
      exists (take colon a), (drop colon a). split_and!.
      * by rewrite take_drop.
      * intros E. rewrite E in Hlen. cbn in Hlen. lia.
      * rewrite Ha in Hat, Hset. clear Ha. apply free_of_app in Hset as [Hset _]. free_solver.
      * apply port_spec. right. by destruct Hp.
    + intros _. apply find_none_inv in Hf. exists a, []. rewrite app_nil_r. split_and!; [done..|free_solver|by left].
  - intros (host & p & -> & Hne & Hfree & Hp). rewrite bool_decide_false by (by destruct host).
    assert (contains_any bs!"[]" (host ++ p) = false) as ->.
    { apply contains_any_false. pose proof (port_free p Hp). apply free_of_app. free_solver. }
    assert (Hc : #":" ∉ host) by free_solver. destruct Hp as [->|(digits & -> & Hd & Hds)].
    { by rewrite app_nil_r, find_none. }
    rewrite find_app by done. destruct (Nat.eqb_spec (length host) 0) as [E|_]; [by destruct host|].
    assert (is_some (find_from #":" (host ++ #":" :: digits) (length host + 1)) = false) as ->.
    { apply is_some_find_from. rewrite drop_after. apply digits_free in Hds. free_solver. }
    rewrite drop_app_length. destruct (proj2 (port_spec (#":" :: digits))) as [E| ->]; [right; by eexists|done|done].
Qed.

Lemma authority_no_at a : authority a → #"@" ∉ a.
Proof.
  destruct 1 as [host p _ Hfree Hp%port_free|host p _ Hfree Hp%port_free].
  - intros [Hin|Hin]%elem_of_app; [by apply (Hfree _ Hin), list_elem_of_lookup; exists 3%nat|].
    apply (Hp _ Hin), list_elem_of_lookup. by exists 2%nat.
  - intros [?|[Hin|[?|Hin]%elem_of_cons]%elem_of_app]%elem_of_cons; [done| |done|].
    + apply (Hfree _ Hin), list_elem_of_lookup. by exists 2%nat.
    + apply (Hp _ Hin), list_elem_of_lookup. by exists 2%nat.
Qed.

Lemma authority_spec a : validate_authority a = None ↔ authority a.
Proof.
  destruct (decide (#"@" ∈ a)) as [Hat|Hat].
  { assert (is_some (find #"@" a) = true) as Hf by (destruct (is_some _) eqn:E; [done|by apply is_some_find in E]).
    unfold validate_authority. case_bool_decide as E; [by subst; apply elem_of_nil in Hat|]. rewrite Hf.
    split; [done|]. by intros Ha%authority_no_at. }
  destruct a as [|c t]; [split; [done|intros Ha; inv Ha]; by destruct host|].
  apply not_elem_of_cons in Hat as [Hc Hat]. destruct (decide (c = #"[")) as [->|Hb].
  - rewrite literal_authority by done. split; [intros (host & p & -> & ? & ? & ?); by constructor|].
    intros Ha. inv Ha; [|by eauto 10]. destruct host as [|h host]; [done|]. exfalso. simplify_list_eq. free_solver.
  - rewrite named_authority; [|by intros [= ->]|free_solver]. split; [intros (host & p & -> & ? & ? & ?); by constructor|].
    intros Ha. inv Ha. by eauto 10.
Qed.

Lemma span_while_spec p s w r :
  span_while p s = (w, r) ↔ s = w ++ r ∧ forallb p w = true ∧ (r = [] ∨ ∃ c r', r = c :: r' ∧ p c = false).
Proof.
  revert w r. induction s as [|c s IH]; intros w r; cbn [span_while].
  - split; [intros [= <- <-]; by eauto|]. intros (E & _ & _). symmetry in E. apply app_eq_nil in E as [-> ->]. done.
  - destruct (p c) eqn:Hc.
    + destruct (span_while p s) as [w' r'] eqn:Hs. destruct (IH w' r') as [IHs _]. split.
      * intros [= <- <-]. destruct (IHs eq_refl) as (-> & ? & ?). cbn. rewrite Hc. eauto.
      * destruct w as [|x w]; cbn; intros (E & Hw & Hr).
        -- destruct Hr as [->|(x & r0 & -> & Hx)]; [done|]. congruence.
        -- injection E as <- ->. rewrite andb_true_iff in Hw. destruct (IH w r) as [_ IHw].
           destruct Hw as [_ Hw]. by injection (IHw (conj eq_refl (conj Hw Hr))) as -> ->.
    + split; [intros [= <- <-]; split_and!; by eauto|]. destruct w as [|x w]; cbn; intros (E & Hw & Hr); [by subst|].
      injection E as <- ->. by rewrite Hc in Hw.
Qed.

Lemma scheme_no_colon scheme l : map ascii_lower scheme ∈ l → Forall (λ s, #":" ∉ s) l → #":" ∉ scheme.
Proof.
  intros Hin Hl Hc. rewrite Forall_forall in Hl. apply (Hl _ Hin). apply list_elem_of_fmap. exists (#":"). by split.
Qed.

(** The characters after the scheme. *)
Lemma after_scheme (scheme t : bytes) :
  (length (scheme ++ #":" :: t) <=? length scheme + 2)%nat ||
  negb (bool_decide ((scheme ++ #":" :: t) !! (length scheme + 1)%nat = Some #"/")) ||
  negb (bool_decide ((scheme ++ #":" :: t) !! (length scheme + 2)%nat = Some #"/")) = false ↔
  ∃ r, t = bs!"//" ++ r.
Proof.
  rewrite !orb_false_iff, !negb_false_iff, !bool_decide_eq_true, Nat.leb_gt, length_app.
  rewrite !lookup_app_r by lia. replace (length scheme + 1 - length scheme)%nat with 1%nat by lia.
  replace (length scheme + 2 - length scheme)%nat with 2%nat by lia. cbn [length]. split.
  - intros [[? H1] H2]. destruct t as [|a [|b r]]; [done..|]. cbn in H1, H2. exists r. by simplify_eq.
  - intros [r ->]. cbn. split; [split; [lia|]|]; done.
Qed.

Lemma drop_scheme (scheme r : bytes) : drop (length scheme + 3) (scheme ++ #":" :: bs!"//" ++ r) = r.
Proof. induction scheme; done. Qed.

Lemma supported_scheme s :
  negb (ascii_equal s bs!"http") && negb (ascii_equal s bs!"https") = false ↔ map ascii_lower s ∈ [bs!"http"; bs!"https"].
Proof.
  rewrite andb_false_iff, !negb_false_iff, !ascii_equal_spec, !elem_of_cons, elem_of_nil. cbn. tauto.
Qed.

Lemma url_spec url : validate_url url = None ↔ wire_url url.
Proof.
  unfold validate_url. case_bool_decide as Hne.
  { subst. split; [done|]. intros [_ _ (scheme & host & rest & E & _)]. by destruct scheme. }
  destruct (Z.ltb_spec kMaximumUrlBytes (Z.of_nat (length url))) as [Hl|Hl]; [split; [done|intros []; lia]|].
  destruct (validate_url_characters url) as [e|] eqn:Hc.
  { split; [done|]. intros [_ Ht _]. apply url_text_spec in Ht. congruence. }
  apply url_text_spec in Hc. transitivity (absolute_form url); [|split; [by split|by intros []]].
  clear Hne Hl Hc. unfold absolute_form. split.
  - destruct (find #":" url) as [k|] eqn:Hf; [|done]. apply find_some_inv in Hf as (Hu & _ & Hk).
    destruct (negb _ && negb _) eqn:Hs; [done|]. apply supported_scheme in Hs. rewrite Hu. revert Hs Hk.
    generalize (take k url) (drop (S k) url). intros scheme t Hs <-.
    destruct (_ || _ || _) eqn:Ha; [done|]. apply after_scheme in Ha as [r ->]. rewrite drop_scheme.
    destruct (span_while in_authority r) as [host rest] eqn:Hspan. intros Hv%authority_spec.
    apply span_while_spec in Hspan as (-> & ? & ?). by exists scheme, host, rest.
  - intros (scheme & host & rest & -> & Hs & Ha & Hh & Hr).
    assert (#":" ∉ scheme) as Hno by (apply (scheme_no_colon _ _ Hs); repeat constructor; by compute_done).
    cbn [app]. rewrite find_app, take_app_length by done. apply supported_scheme in Hs. rewrite Hs.
    rewrite (proj2 (after_scheme scheme _)) by by eexists.
    change (#":" :: #"/" :: #"/" :: host ++ rest) with (#":" :: bs!"//" ++ host ++ rest). rewrite drop_scheme.
    rewrite (proj2 (span_while_spec in_authority _ host rest)) by done. by apply authority_spec.
Qed.

Lemma token_spec s : is_token s = true ↔ s ≠ [] ∧ forallb is_token_character s = true.
Proof. unfold is_token. by rewrite andb_true_iff, negb_true_iff, bool_decide_eq_false. Qed.

Lemma method_spec method : validate_method method = None ↔ wire_method method.
Proof.
  unfold validate_method, wire_method. case_bool_decide as Hne; [subst; split; [done|cbn; lia]|].
  destruct (Z.ltb_spec kMaximumMethodBytes (Z.of_nat (length method))); [split; [done|lia]|].
  assert (1 <= Z.of_nat (length method)) by (destruct method; [done|cbn; lia]).
  destruct (is_token method) eqn:Ht; simpl.
  - apply token_spec in Ht as [_ ?]. done.
  - split; [done|]. intros [_ Hf]. by rewrite (proj2 (token_spec method)) in Ht.
Qed.

Lemma duplicate_spec h previous :
  existsb (λ p, ascii_equal (field_name h) (field_name p)) previous = false ↔ lower_name h ∉ map lower_name previous.
Proof.
  rewrite <- not_true_iff_false, existsb_exists, list_elem_of_fmap. apply not_iff_compat. split.
  - intros (p & Hp%list_elem_of_In & He%ascii_equal_spec). by exists p.
  - intros (p & He & Hp). exists p. rewrite <- list_elem_of_In. by rewrite ascii_equal_spec.
Qed.

Lemma reserved_spec h :
  existsb (ascii_equal (field_name h)) kReservedHeaders = false ↔ lower_name h ∉ map (map ascii_lower) kReservedHeaders.
Proof. by rewrite <- not_true_iff_false, existsb_ascii_equal. Qed.

Lemma value_spec h :
  match field_value h with Some v => contains_any field_terminators v | None => false end = false ↔
  ∀ v, field_value h = Some v → free_of field_terminators v.
Proof.
  destruct (field_value h) as [v|]; [|done]. rewrite contains_any_false. split; [by intros ? ? [= <-]|].
  intros Hv. by apply Hv.
Qed.

Lemma fields_spec previous total headers :
  0 <= total <= kMaximumHeaderBytes →
  validate_fields previous total headers = None ↔
  Forall wire_field headers ∧ NoDup (map lower_name headers) ∧
  (∀ h, h ∈ headers → lower_name h ∉ map lower_name previous) ∧
  total + foldr (λ h n, known_bytes h + n) 0 headers <= kMaximumHeaderBytes.
Proof.
  revert previous total. induction headers as [|h headers IH]; intros previous total Ht; cbn [validate_fields].
  { split; [intros _|done]. split_and!; [constructor..| |cbn; lia]. by intros h ?%elem_of_nil. }
  cbn [map foldr]. rewrite Forall_cons, NoDup_cons.
  destruct (is_token (field_name h)) eqn:Htok; simpl negb; cbv iota.
  2: { split; [done|]. intros ([[Hn _ _] _] & _). by rewrite (proj2 (token_spec _) Hn) in Htok. }
  destruct (match field_value h with Some v => contains_any field_terminators v | None => false end) eqn:Hval.
  { split; [done|]. intros ([[_ Hv _] _] & _). apply (proj2 (value_spec h)) in Hv. congruence. }
  destruct (existsb _ kReservedHeaders) eqn:Hres.
  { split; [done|]. intros ([[_ _ Hr] _] & _). apply (proj2 (reserved_spec h)) in Hr. congruence. }
  destruct (existsb _ previous) eqn:Hdup.
  { split; [done|]. intros (_ & _ & Hd & _). specialize (Hd h (list_elem_of_here _ _)).
    apply (proj2 (duplicate_spec h previous)) in Hd. congruence. }
  apply token_spec in Htok. apply reserved_spec in Hres. apply duplicate_spec in Hdup.
  pose proof (proj1 (value_spec h) Hval) as Hv. assert (Hh : wire_field h) by by split. clear Htok Hres Hv Hval.
  assert (Hsum : 0 <= foldr (λ h n, known_bytes h + n) 0 headers).
  { clear. induction headers as [|h headers IH]; cbn; [done|]. assert (0 <= known_bytes h) by (unfold known_bytes; lia). lia. }
  change (known_bytes h) with (Z.of_nat (length (field_name h)) + Z.of_nat (length (default [] (field_value h)))).
  set (name := Z.of_nat (length (field_name h))).
  destruct (Z.ltb_spec (kMaximumHeaderBytes - total) name); [split; [done|lia]|].
  assert (Hstep : ∀ n, 0 <= n → name + n <= kMaximumHeaderBytes - total →
    validate_fields (previous ++ [h]) (total + name + n) headers = None ↔
    (wire_field h ∧ Forall wire_field headers) ∧ ((lower_name h ∉ map lower_name headers) ∧ NoDup (map lower_name headers)) ∧
    (∀ h0, h0 ∈ h :: headers → lower_name h0 ∉ map lower_name previous) ∧
    total + (name + n + foldr (λ h n, known_bytes h + n) 0 headers) <= kMaximumHeaderBytes).
  { intros n Hn Hfit. rewrite IH by (subst name; lia). rewrite map_app. split.
    - intros (? & ? & Hd & ?). split_and!; [done..| |done| |lia].
      + intros (h' & E & Hin)%list_elem_of_fmap. apply (Hd h' Hin). rewrite <- E. apply elem_of_app. right.
        apply list_elem_of_here.
      + intros h' [->|Hin]%elem_of_cons; [done|]. intros Hp. apply (Hd h' Hin). apply elem_of_app. by left.
    - intros ([_ ?] & [Hnew ?] & Hd & ?). split_and!; [done..| |lia]. intros h' Hin [Hp|Hp]%elem_of_app.
      + apply (Hd h'); [by apply elem_of_cons; right|done].
      + cbn in Hp. apply list_elem_of_singleton in Hp. apply Hnew. rewrite <- Hp. apply list_elem_of_fmap. by exists h'. }
  destruct (field_value h) as [v|]; cbn [default from_option id].
  - destruct (Z.ltb_spec (kMaximumHeaderBytes - (total + name)) (Z.of_nat (length v))); [split; [done|lia]|].
    rewrite Hstep by lia. done.
  - rewrite <- (Z.add_0_r (total + name)), Hstep by lia. done.
Qed.

Lemma headers_spec headers : validate_headers headers = None ↔ wire_headers headers.
Proof.
  unfold validate_headers.
  destruct (Z.ltb_spec kMaximumHeaderCount (Z.of_nat (length headers))); [split; [done|intros []; lia]|].
  rewrite fields_spec by done. split.
  - intros (? & ? & _ & ?). by split.
  - intros [_ ? ? ?]. split_and!; [done..| |done]. by intros h _ ?%elem_of_nil.
Qed.

Lemma refuse_success r : refuse r = success tt ↔ r = None.
Proof. by destruct r. Qed.

(** Every bound and rule of [validate_http_request_fields], and nothing else. *)
Lemma request_fields_spec method url headers has_body :
  validate_http_request_fields method url headers has_body = success tt ↔
  wire_method method ∧ wire_url url ∧ wire_headers headers ∧ (method = bs!"HEAD" → has_body = false).
Proof.
  unfold validate_http_request_fields, validate_http_url.
  rewrite <- method_spec, <- url_spec, <- headers_spec.
  destruct (validate_method method); [cbn; naive_solver|]. destruct (validate_url url); [cbn; naive_solver|].
  destruct (validate_headers headers); [cbn; naive_solver|]. cbn [refuse mbind result_bind].
  unfold bytes_eqb. case_bool_decide; destruct has_body; cbn; naive_solver.
Qed.

(** What the HTTP client is given. *)
Record wire_request (r : HttpRequest) : Prop := {
  wire_request_method : wire_method (request_method r);
  wire_request_url : wire_url (request_url r);
  wire_request_headers : wire_headers (map fields_of (request_headers r));
  head_has_no_body : request_method r = bs!"HEAD" → request_body r = None;
  deadline_bounded : 1000000 <= request_timeout r <= 2592000000000000;
  redirects_bounded : max_redirects r <= 20 ∧ (follow_redirects r = true → max_redirects r ≠ 0);
  body_representable b : request_body r = Some b → Z.of_nat (length b) <= int64_max;
  limits_representable : response_body_limit r <= int64_max ∧ response_header_limit r <= int64_max }.

Lemma checked_bind {E} (b : bool) (e : E) (m : result E unit) :
  (_ ← check b e; m) = success tt ↔ b = true ∧ m = success tt.
Proof. destruct b; cbn; naive_solver. Qed.

Lemma checked {E} (b : bool) (e : E) : check b e = success tt ↔ b = true.
Proof. by destruct b. Qed.

(** C25.  The validation of a request accepts exactly the requests of the
    contract: a method that is a token of at most 32 bytes; an absolute
    [http] or [https] URL of at most 16 KiB in printable ASCII, with complete
    escapes, without fragment and user information, with a host and, if any, a
    numeric port; at most 128 fields of together at most 64 KiB whose names are
    tokens, pairwise different under ASCII case folding and not among those the
    client writes itself, and whose values hold no carriage return, line feed
    or NUL; no body for HEAD; and bounded deadline, redirects and sizes. *)
Theorem http_request_contract request : validate_http_request request = success tt ↔ wire_request request.
Proof.
  unfold validate_http_request, representable_backend_size.
  destruct (validate_http_request_fields _ _ _ _) as [[]|e] eqn:Hf; cbn [mbind result_bind].
  2: { split; [done|]. intros [? ? ? Hh _ _ _ _]. exfalso. destruct (request_body request) eqn:Hb; cbn [is_some] in Hf;
       rewrite (proj2 (request_fields_spec _ _ _ _)) in Hf; try done; split_and!; try done; by intros ?%Hh. }
  apply request_fields_spec in Hf as (? & ? & ? & Hhead). rewrite !checked_bind, checked.
  rewrite !negb_true_iff, !orb_false_iff, !Z.ltb_ge, andb_false_iff, Z.eqb_neq, !negb_false_iff, !Z.leb_le.
  split.
  - intros ([? ?] & [? Hr] & [Hb ?] & ?). split; try done; [| |].
    + intros E%Hhead. by destruct (request_body request).
    + unfold kMaximumRedirects in *. split; [done|]. intros E. destruct Hr; congruence.
    + intros b E. rewrite E in Hb. by apply negb_false_iff, Z.leb_le in Hb.
  - intros [_ _ _ _ ? [? Hr] Hb [? ?]]. split_and!; try done; try lia.
    + destruct (follow_redirects request); [right; by apply Hr|by left].
    + destruct (request_body request); [|done]. apply negb_false_iff, Z.leb_le. by apply Hb.
Qed.
