(* ===== verification/Effects.v ===== *)
(** * Stateful computations that can fail

    The monad of the code that threads state and returns [Result]: the state
    survives a failure.  [wp] is its program logic, with a rule per primitive
    and a tactic that applies them. *)

From stdpp Require Import base tactics.
From S2P Require Import Prelude.

Definition ES (S A : Type) : Type := S → result Error A * S.

#[export] Instance ES_ret S : MRet (ES S) := λ A v s, (success v, s).
#[export] Instance ES_bind S : MBind (ES S) := λ A B k m s,
  match m s with
  | (success v, s) => k v s
  | (failure e, s) => (failure e, s)
  end.
#[export] Instance ES_fmap S : FMap (ES S) := λ A B f m s,
  let '(r, s) := m s in (f <$> r, s).

Section Primitives.
Context {S : Type}.

Definition throw {A} (e : Error) : ES S A := λ s, (failure e, s).
Definition of_result {A} (r : result Error A) : ES S A := λ s, (r, s).
Definition gets {A} (f : S → A) : ES S A := λ s, (success (f s), s).
Definition modify (f : S → S) : ES S unit := λ s, (success tt, f s).

(** Loops take fuel; [None] says that it was used up. *)
Definition and_then {A B} (m : ES S (option A)) (k : A → ES S (option B)) : ES S (option B) :=
  v ← m; match v with None => mret None | Some v => k v end.
Definition finishing {A} (m : ES S A) : ES S (option A) := v ← m; mret (Some v).

(** [Q] of the value and the state if [m] succeeds, [E] of the state if it
    fails. *)
Definition wp {A} (m : ES S A) (Q : A → S → Prop) (E : S → Prop) (s : S) : Prop :=
  match m s with
  | (success v, s') => Q v s'
  | (failure _, s') => E s'
  end.

Lemma wp_ret {A} (v : A) Q E s : Q v s → wp (mret v) Q E s.
Proof. done. Qed.

Lemma wp_bind {A B} (m : ES S A) (k : A → ES S B) Q E s :
  wp m (λ v s, wp (k v) Q E s) E s → wp (m ≫= k) Q E s.
Proof. unfold wp, mbind, ES_bind. by destruct (m s) as [[] ?]. Qed.

Lemma wp_mono {A} (m : ES S A) (Q Q' : A → S → Prop) (E E' : S → Prop) s :
  (∀ v s, Q v s → Q' v s) → (∀ s, E s → E' s) → wp m Q E s → wp m Q' E' s.
Proof. unfold wp. destruct (m s) as [[] ?]; auto. Qed.

Lemma wp_throw {A} e (Q : A → S → Prop) (E : S → Prop) s : E s → wp (throw e) Q E s.
Proof. done. Qed.

Lemma wp_of_result {A} (r : result Error A) (Q : A → S → Prop) (E : S → Prop) s :
  (∀ v, r = success v → Q v s) → (∀ e, r = failure e → E s) → wp (of_result r) Q E s.
Proof. intros HQ HE. unfold wp, of_result. destruct r; eauto. Qed.

Lemma wp_gets {A} (f : S → A) (Q : A → S → Prop) E s : Q (f s) s → wp (gets f) Q E s.
Proof. done. Qed.

Lemma wp_modify f (Q : unit → S → Prop) E s : Q tt (f s) → wp (modify f) Q E s.
Proof. done. Qed.

Lemma wp_sound {A} (m : ES S A) Q E s v s' : wp m Q E s → m s = (success v, s') → Q v s'.
Proof. unfold wp. by intros ? Hm; rewrite Hm in *. Qed.

Lemma wp_complete {A} (m : ES S A) s v s' (Q : A → S → Prop) E :
  m s = (success v, s') → Q v s' → wp m Q E s.
Proof. unfold wp. by intros ->. Qed.

End Primitives.

(** One step of symbolic execution. *)
Ltac es_step :=
  lazymatch goal with
  | |- wp (_ ≫= _) _ _ _ => apply wp_bind
  | |- wp (mret _) _ _ _ => apply wp_ret
  | |- wp (throw _) _ _ _ => apply wp_throw
  | |- wp (of_result _) _ _ _ => apply wp_of_result
  | |- wp (gets _) _ _ _ => apply wp_gets
  | |- wp (modify _) _ _ _ => apply wp_modify
  | |- wp (if ?b then _ else _) _ _ _ => destruct b eqn:?
  | |- wp (match ?o with Some _ => _ | None => _ end) _ _ _ => destruct o eqn:?
  end.
