(* ===== verification/Domain.v ===== *)
(** * Jobs, runs and attempts

    The records that the scheduler's components exchange:
    [src/jobu/job.hpp], [src/jobu/run.hpp], [src/jobu/attempt_executor.hpp],
    [src/jobu/execution_events.hpp], [src/jobu/attempt.hpp],
    [src/jobu/queue.hpp], [src/jobu/scheduler_repository_priv.hpp],
    [src/jobu/scheduler_core_priv.hpp], [src/jobu/scheduler_dispatch_priv.hpp],
    and what is said of their payloads, [src/jobu/job_validation_priv.hpp],
    [src/jobu/payload_template_priv.hpp].
    An identifier is its sixteen bytes; maps and sets keyed by identifiers are
    finite maps and sets. *)

From stdpp Require Import base numbers strings list gmap.
From S2P Require Import Prelude Values OutputCapture CronEngine.
Local Open Scope Z_scope.

Inductive JobType := Cli | Http.
Inductive RunOrigin := OriginScheduled | OriginManual | OriginSubmitted.
Inductive RunState :=
  | RunScheduled | RunRunning | RunRetryWait | RunSucceeded | RunFailed | RunInterrupted | RunCancelled.

#[export] Instance JobType_eq_dec : EqDecision JobType.
Proof. solve_decision. Defined.
#[export] Instance RunOrigin_eq_dec : EqDecision RunOrigin.
Proof. solve_decision. Defined.
#[export] Instance RetryMode_eq_dec : EqDecision RetryMode.
Proof. solve_decision. Defined.
#[export] Instance RunState_eq_dec : EqDecision RunState.
Proof. solve_decision. Defined.

Inductive JobSchedule := Once (planned_at : Z) | Cron (schedule : CronSchedule).

Record JobDefinition := mkJob {
  job_id : bytes;
  job_queue : bytes;
  job_revision : Z;
  job_name : option bytes;
  job_state : JobState;
  job_type : JobType;
  job_schedule : JobSchedule;
  job_priority : Z;
  job_attributes : AttributeSet;
  job_payload : JsonValue;
  created_at : Z;
  updated_at : Z;
  deleted_at : option Z }.

(** A stored result, kept as its JSON document. *)
Abbreviation JsonText := bytes.

Record JobRun := mkRun {
  run_id : bytes;
  run_job : bytes;
  run_revision : Z;
  run_queue : bytes;
  run_origin : RunOrigin;
  schedule_owned : bool;
  planned_at : Z;
  runnable_at : Z;
  run_started_at : option Z;
  run_completed_at : option Z;
  run_type : JobType;
  run_priority : Z;
  run_attributes : AttributeSet;
  run_payload : JsonValue;
  run_state : RunState;
  run_result : option JsonText }.

Record AttemptKey := mkKey { key_run : bytes; key_attempt : Z }.

Record AttemptCompletion := mkAttemptCompletion {
  completion_key : AttemptKey;
  completion_outcome : AttemptOutcome;
  completion_disposition : option FailureDisposition;
  completion_not_before : option Z;
  completion_result : JsonValue;
  completion_output : option AttemptOutput }.

Record ExecutionContext := mkExecution {
  execution_queue : bytes; execution_job : bytes; execution_run : bytes;
  execution_type : JobType; execution_origin : RunOrigin }.

Inductive AttemptStartPhase := Accepted | PreparationFailed | ExecutorRejected.

#[export] Instance AttemptStartPhase_eq_dec : EqDecision AttemptStartPhase.
Proof. solve_decision. Defined.

Record AttemptFinished := mkFinished {
  finished_execution : ExecutionContext;
  finished_attempt : Z;
  finished_outcome : AttemptOutcome;
  finished_phase : AttemptStartPhase;
  finished_at : Z;
  finished_elapsed : option Z;
  exit_code : option Z;
  signal_number : option Z;
  http_status : option Z }.

Record RetryScheduled := mkScheduled {
  retry_execution : ExecutionContext;
  completed_attempt : Z;
  next_attempt : Z;
  retry_runnable_at : Z;
  scheduled_mode : RetryMode }.

Record RunFinished := mkRunFinished {
  run_finished_execution : ExecutionContext;
  run_finished_state : RunState;
  run_finished_at : Z;
  completing_attempt : option Z }.

Inductive Following := FollowRetry (r : RetryScheduled) | FollowFinished (r : RunFinished).

Record CompletionEffect := mkEffect {
  queue_slot_retained : bool;
  effect_attempt : AttemptFinished;
  following : Following }.

Inductive AttemptState := AttemptPending | AttemptRunning | AttemptCompleted.

#[export] Instance AttemptState_eq_dec : EqDecision AttemptState.
Proof. solve_decision. Defined.

Record JobAttempt := mkAttempt {
  attempt_run : bytes;
  attempt_number : Z;
  attempt_due_at : Z;
  attempt_started_at : option Z;
  attempt_completed_at : option Z;
  attempt_state : AttemptState;
  attempt_outcome : option AttemptOutcome;
  attempt_result : option JsonText }.

Record Queue := mkQueueRow {
  row_queue_id : bytes;
  queue_revision : Z;
  queue_name : bytes;
  queue_state : QueueState;
  row_weight : Z;
  row_concurrency_limit : Z;
  recovery_policy : RecoveryPolicy;
  queue_defaults : AttributeSet;
  history_retention : option Z;
  runnable_wait_warning : Z;
  queue_created_at : Z;
  queue_updated_at : Z;
  queue_deleted_at : option Z }.

(** [detail::AttemptOutput] of the attempt repository. *)
Record StoredOutput := mkStoredOutput {
  stdout_bytes : option bytes;
  stderr_bytes : option bytes;
  stdout_truncated : bool;
  stderr_truncated : bool;
  stored_capture_lost : bool }.

(** ** Records of the scheduler *)

Record QueueRuntime := mkQueue { queue_id : bytes; weight : Z; concurrency_limit : Z }.

Record BlockingRetryCandidate := mkBlocking {
  blocking_run : bytes; blocking_queue : bytes; blocking_type : JobType; blocking_priority : Z;
  blocking_runnable_at : Z; blocking_planned_at : Z }.

Record CapacityUsage := mkUsage { usage_cli : Z; usage_http : Z; usage_slots : Z }.

Record CapacityRow := mkRow {
  row_run : bytes; row_queue : bytes; usage : CapacityUsage;
  blocking_retry : option BlockingRetryCandidate }.

#[export] Instance QueueRuntime_eq_dec : EqDecision QueueRuntime.
Proof. solve_decision. Defined.

Record ActiveAttempt := mkActive {
  active_number : Z; active_execution : ExecutionContext; active_phase : AttemptStartPhase;
  accepted_at : option Z }.

Record AttemptStarted := mkStarted { started_execution : ExecutionContext; started_attempt : Z; started_at : Z }.

Record DelayedRun := mkDelayed {
  delayed_run : bytes; delayed_job : bytes; delayed_queue : bytes; delayed_type : JobType;
  runnable_wait : Z; threshold : Z }.

Record DispatchStart := mkDispatch {
  start_key : AttemptKey; start_execution : ExecutionContext; start_phase : AttemptStartPhase;
  start_started_at : Z; start_accepted_at : option Z; immediate_completion : option AttemptCompletion;
  delayed : option DelayedRun }.

Definition invalid_completion (reason : string) : Error :=
  mkError Internal "jobu.executor.invalid_completion" "Attempt executor completion violates its contract"
    ("reason=" +:+ reason).

(** [std::chrono::floor<std::chrono::microseconds>]. *)
Definition floor_us (t : Z) : Z := t / 1000 * 1000.

(** ** Payloads *)

Inductive JobPayloadIssue :=
  | UnknownType | NotObject | MissingCommand | InvalidCommand | InvalidArguments | InvalidWorkingDirectory
  | InvalidEnvironment | InvalidPath | PreparedRequestTooLarge | InvalidExpectedExitCodes | MissingUrl | InvalidUrl
  | InvalidMethod | InvalidHeaders | InvalidBody | InvalidExpectedStatuses | InvalidHttpRequest | InvalidJson | TooLarge
  | InvalidSecretReference | InvalidSecretName | TooManySecretReferences.

Definition job_payload_issue_text (issue : JobPayloadIssue) : string :=
  match issue with
  | UnknownType => "unknown_type" | NotObject => "not_object" | MissingCommand => "missing_command"
  | InvalidCommand => "invalid_command" | InvalidArguments => "invalid_arguments"
  | InvalidWorkingDirectory => "invalid_working_directory" | InvalidEnvironment => "invalid_environment"
  | InvalidPath => "invalid_path" | PreparedRequestTooLarge => "prepared_request_too_large"
  | InvalidExpectedExitCodes => "invalid_expected_exit_codes" | MissingUrl => "missing_url" | InvalidUrl => "invalid_url"
  | InvalidMethod => "invalid_method" | InvalidHeaders => "invalid_headers" | InvalidBody => "invalid_body"
  | InvalidExpectedStatuses => "invalid_expected_statuses" | InvalidHttpRequest => "invalid_http_request"
  | InvalidJson => "invalid_json" | InvalidSecretReference => "invalid_secret_reference"
  | InvalidSecretName => "invalid_secret_name" | TooManySecretReferences => "too_many_secret_references"
  | TooLarge => "too_large"
  end.

#[export] Instance JobPayloadIssue_eq_dec : EqDecision JobPayloadIssue.
Proof. solve_decision. Defined.

(** A secret and where a payload uses it. *)
Record SecretReference := mkReference { secret_name : bytes; field_path : bytes }.

#[export] Instance SecretReference_eq_dec : EqDecision SecretReference.
Proof. solve_decision. Defined.
