(* ===== verification/Base64.v ===== *)
(** * Bodies in base64

    The decoder of stored request bodies ([decode_base64] of
    [src/jobu/http_job_payload_priv.cpp]) and the encoder of bodies that come
    from a secret ([encode_body] of [src/jobu/payload_template_priv.cpp]).  The
    decoder accepts exactly the encoder's texts. *)

From stdpp Require Import base numbers strings list list_numbers.
From Stdlib Require Import Ascii.
From S2P Require Import Prelude Values Domain.
Local Open Scope Z_scope.

Definition base64_value (c : Z) : option Z :=
  if (#"A" <=? c) && (c <=? #"Z") then Some (wrap_unsigned 8 (c - #"A"))
  else if (#"a" <=? c) && (c <=? #"z") then Some (wrap_unsigned 8 (c - #"a" + 26))
  else if (#"0" <=? c) && (c <=? #"9") then Some (wrap_unsigned 8 (c - #"0" + 52))
  else if c =? #"+" then Some 62
  else if c =? #"/" then Some 63
  else None.

(** [static_cast<std::byte>]. *)
Definition to_byte (z : Z) : Z := wrap_unsigned 8 z.

Definition invalid_body {A} : result JobPayloadIssue A := failure InvalidBody.

(** The loop over the quanta of four characters. *)
Fixpoint decode_quanta (decoded encoded : bytes) : result JobPayloadIssue bytes :=
  match encoded with
  | [] => success decoded
  | c1 :: c2 :: c3 :: c4 :: rest =>
      let final := bool_decide (rest = []) in
      match base64_value c1, base64_value c2 with
      | Some first, Some second =>
          let b1 := to_byte (Z.lor (Z.shiftl first 2) (Z.shiftr second 4)) in
          if c3 =? #"=" then
            if negb final || negb (c4 =? #"=") || negb (Z.land second 0x0f =? 0) then invalid_body
            else decode_quanta (decoded ++ [b1]) rest
          else
            match base64_value c3 with
            | None => invalid_body
            | Some third =>
                let b2 := to_byte (Z.lor (Z.shiftl (Z.land second 0x0f) 4) (Z.shiftr third 2)) in
                if c4 =? #"=" then
                  if negb final || negb (Z.land third 0x03 =? 0) then invalid_body
                  else decode_quanta (decoded ++ [b1; b2]) rest
                else
                  match base64_value c4 with
                  | None => invalid_body
                  | Some fourth =>
                      let b3 := to_byte (Z.lor (Z.shiftl (Z.land third 0x03) 6) fourth) in
                      decode_quanta (decoded ++ [b1; b2; b3]) rest
                  end
            end
      | _, _ => invalid_body
      end
  | _ => invalid_body
  end.

Definition decode_base64 (encoded : bytes) : result JobPayloadIssue bytes :=
  let size := Z.of_nat (length encoded) in
  if bool_decide (encoded = []) then success []
  else if negb (size mod 4 =? 0) || (size_max / 3 <? size / 4) then invalid_body
  else decode_quanta [] encoded.

Definition alphabet : bytes := bs!"ABCDEFGHIJKLMNOPQRSTUVWXYZabcdefghijklmnopqrstuvwxyz0123456789+/".
Definition symbol (n : Z) : Z := default 0 (alphabet !! Z.to_nat n).

(** The four characters of one to three bytes. *)
Definition quantum (first : Z) (second third : option Z) : bytes :=
  let s := default 0 second in
  let t := default 0 third in
  [symbol (Z.shiftr first 2);
   symbol (Z.lor (Z.shiftl (Z.land first 3) 4) (Z.shiftr s 4));
   if is_some second then symbol (Z.lor (Z.shiftl (Z.land s 15) 2) (Z.shiftr t 6)) else #"=";
   if is_some third then symbol (Z.land t 63) else #"="].

Fixpoint encode_base64 (b : bytes) : bytes :=
  match b with
  | [] => []
  | [first] => quantum first None None
  | [first; second] => quantum first (Some second) None
  | first :: second :: third :: rest => quantum first (Some second) (Some third) ++ encode_base64 rest
  end.

Definition encode_body (b : bytes) : JsonValue :=
  JsonObject [(bs!"data", JsonString (encode_base64 b)); (bs!"encoding", JsonString bs!"base64")].

(** ** The alphabet *)

Lemma symbol_value n : 0 <= n < 64 → base64_value (symbol n) = Some n ∧ symbol n ≠ #"=".
Proof.
  intros Hn. pose proof (interval_check
    (λ n, bool_decide (base64_value (symbol n) = Some n ∧ symbol n ≠ #"=")) 0 64 n eq_refl Hn) as Hc.
  by apply bool_decide_eq_true in Hc.
Qed.

Lemma value_symbol c n : base64_value c = Some n → 0 <= n < 64 ∧ symbol n = c ∧ c ≠ #"=".
Proof.
  intros Hv. assert (Hc : 0 <= c < 128).
  { unfold base64_value in Hv. repeat (case_match; rewrite ?andb_true_iff, ?Z.leb_le, ?Z.eqb_eq in *; [lia|]). done. }
  pose proof (interval_check (λ c, match base64_value c with
    | Some n => bool_decide (0 <= n < 64 ∧ symbol n = c ∧ c ≠ #"=") | None => true end) 0 128 c eq_refl Hc) as Hq.
  cbv beta in Hq. rewrite Hv in Hq. by apply bool_decide_eq_true in Hq.
Qed.

(** ** One quantum *)

(** The bit operations, arithmetically. *)
Lemma lor_shiftl x y k : 0 <= k → 0 <= y < 2 ^ k → Z.lor (Z.shiftl x k) y = x * 2 ^ k + y.
Proof.
  intros Hk Hy. rewrite <- Z.shiftl_mul_pow2, Z.add_nocarry_lor; [done| |done].
  destruct (decide (y = 0)) as [->|]; [apply Z.land_0_r|].
  apply Z.bits_inj'. intros i Hi. rewrite Z.land_spec, Z.shiftl_spec, Z.bits_0 by done.
  destruct (decide (i < k)); [by rewrite Z.testbit_neg_r by lia|].
  rewrite andb_comm, (Z.bits_above_log2 y i); [done|lia|].
  apply Z.log2_lt_pow2; [lia|].
  eapply Z.lt_le_trans; [apply Hy|]. apply Z.pow_le_mono_r; lia.
Qed.

Lemma land_low x k : 0 <= k → Z.land x (Z.ones k) = x mod 2 ^ k.
Proof. apply Z.land_ones. Qed.

Ltac arithmetic :=
  change 3 with (Z.ones 2) in *; change 15 with (Z.ones 4) in *; change 63 with (Z.ones 6) in *;
  rewrite ?land_low in * by done; change (Z.ones 2) with 3 in *; change (Z.ones 4) with 15 in *;
  change (Z.ones 6) with 63 in *;
  rewrite ?Z.shiftr_div_pow2 in * by done;
  rewrite ?lor_shiftl in * by (first [lia|dlia]);
  unfold to_byte, wrap_unsigned in *;
  change (2 ^ 2) with 4 in *; change (2 ^ 4) with 16 in *; change (2 ^ 6) with 64 in *; change (2 ^ 8) with 256 in *.

(** The six-bit groups of three bytes. *)
Definition groups (a b c : Z) : Z * Z * Z * Z := (a / 4, a mod 4 * 16 + b / 16, b mod 16 * 4 + c / 64, c mod 64).

Lemma groups_range a b c :
  is_byte a → is_byte b → is_byte c →
  let '(p, q, r, s) := groups a b c in 0 <= p < 64 ∧ 0 <= q < 64 ∧ 0 <= r < 64 ∧ 0 <= s < 64.
Proof. unfold is_byte, groups. intros. split_and!; dlia. Qed.

Lemma quantum_groups a b c :
  is_byte a → is_byte (default 0 b) → is_byte (default 0 c) →
  quantum a b c =
  let '(p, q, r, s) := groups a (default 0 b) (default 0 c) in
  [symbol p; symbol q; if is_some b then symbol r else #"="; if is_some c then symbol s else #"="].
Proof.
  unfold is_byte, quantum, groups. intros Ha Hb Hc. arithmetic. done.
Qed.

Lemma first_byte p q : 0 <= p < 64 → 0 <= q < 64 →
  to_byte (Z.lor (Z.shiftl p 2) (Z.shiftr q 4)) = p * 4 + q / 16.
Proof. intros. arithmetic. dlia. Qed.
Lemma second_byte q r : 0 <= q < 64 → 0 <= r < 64 →
  to_byte (Z.lor (Z.shiftl (Z.land q 15) 4) (Z.shiftr r 2)) = q mod 16 * 16 + r / 4.
Proof. intros. arithmetic. dlia. Qed.
Lemma third_byte r s : 0 <= r < 64 → 0 <= s < 64 →
  to_byte (Z.lor (Z.shiftl (Z.land r 3) 6) s) = r mod 4 * 64 + s.
Proof. intros. arithmetic. dlia. Qed.

Lemma encode_three p q r s :
  0 <= p < 64 → 0 <= q < 64 → 0 <= r < 64 → 0 <= s < 64 →
  let a := p * 4 + q / 16 in let b := q mod 16 * 16 + r / 4 in let c := r mod 4 * 64 + s in
  is_byte a ∧ is_byte b ∧ is_byte c ∧ groups a b c = (p, q, r, s).
Proof. unfold is_byte, groups. intros. split_and!; [dlia..|]. repeat f_equal; dlia. Qed.

(** ** The loop *)

(** What is decoded is what the encoder gives. *)
Lemma decode_quanta_sound t acc out :
  decode_quanta acc t = success out → ∃ b, out = acc ++ b ∧ Forall is_byte b ∧ t = encode_base64 b.
Proof.
  revert acc. induction t as [[|c1 [|c2 [|c3 [|c4 rest]]]] IH] using list_length_ind; intros acc; cbn [decode_quanta];
    [|done..|].
  { intros [= <-]. exists []. by rewrite app_nil_r. }
  destruct (base64_value c1) as [p|] eqn:H1; [|done]. destruct (base64_value c2) as [q|] eqn:H2; [|done].
  apply value_symbol in H1 as (Hp & <- & _), H2 as (Hq & <- & _).
  destruct (Z.eqb_spec c3 #"=") as [->|Hc3].
  - case_bool_decide; subst; [|done]. destruct (Z.eqb_spec c4 #"=") as [->|]; [|done]. cbn [negb orb].
    destruct (Z.eqb_spec (Z.land q 0x0f) 0) as [Hz|]; [|done]. intros [= <-]. rewrite first_byte by done.
    destruct (encode_three p q 0 0) as (Ha & _ & _ & Hg); [done..|]. cbn zeta in Hg. arithmetic. rewrite Hz in Hg.
    exists [p * 4 + q / 16]. split_and!; [done|by rewrite !Forall_cons|]. cbn [encode_base64].
    rewrite quantum_groups by done. change (default 0 None) with (0 * 16 + 0 / 4) at 1.
    change (default 0 None) with (0 mod 4 * 64 + 0). by rewrite Hg.
  - destruct (base64_value c3) as [r|] eqn:H3; [|done]. apply value_symbol in H3 as (Hr & <- & _).
    destruct (Z.eqb_spec c4 #"=") as [->|Hc4].
    + case_bool_decide; subst; [|done]. cbn [negb orb].
      destruct (Z.eqb_spec (Z.land r 0x03) 0) as [Hz|]; [|done]. intros [= <-]. rewrite first_byte, second_byte by done.
      destruct (encode_three p q r 0) as (Ha & Hb & _ & Hg); [done..|]. cbn zeta in Hg. arithmetic. rewrite Hz in Hg.
      exists [p * 4 + q / 16; q mod 16 * 16 + r / 4]. split_and!; [done|by rewrite !Forall_cons|]. cbn [encode_base64].
      rewrite quantum_groups by done. change (default 0 None) with (0 * 64 + 0). cbn [default from_option]. unfold id. by rewrite Hg.
    + destruct (base64_value c4) as [s|] eqn:H4; [|done]. apply value_symbol in H4 as (Hs & <- & _).
      rewrite first_byte, second_byte, third_byte by done. intros (b & -> & Hb & ->)%IH; [|cbn; lia].
      destruct (encode_three p q r s) as (? & ? & ? & Hg); [done..|]. eexists (_ :: _ :: _ :: b).
      rewrite <- app_assoc. split_and!; [done|by rewrite !Forall_cons|]. cbn [app encode_base64].
      rewrite quantum_groups by done. cbn [default from_option is_some]. unfold id. by rewrite Hg.
Qed.

(** What is encoded is decoded: one quantum of each size. *)
Lemma decode_full x y z acc rest :
  is_byte x → is_byte y → is_byte z →
  decode_quanta acc (quantum x (Some y) (Some z) ++ rest) = decode_quanta (acc ++ [x; y; z]) rest.
Proof.
  intros Hx Hy Hz. destruct (groups_range x y z) as (Hp & Hq & Hr & Hs); [done..|].
  rewrite quantum_groups by done. cbn [default from_option is_some app]. unfold id. cbn [groups app decode_quanta].
  destruct (symbol_value _ Hp) as [-> _], (symbol_value _ Hq) as [-> _], (symbol_value _ Hr) as [Er Nr],
    (symbol_value _ Hs) as [Es Ns].
  apply Z.eqb_neq in Nr, Ns. rewrite Nr, Er, Ns, Es, first_byte, second_byte, third_byte by done.
  unfold is_byte in *. do 2 f_equal. repeat f_equal; dlia.
Qed.

Lemma decode_two x y acc :
  is_byte x → is_byte y → decode_quanta acc (quantum x (Some y) None) = success (acc ++ [x; y]).
Proof.
  intros Hx Hy. destruct (groups_range x y 0) as (Hp & Hq & Hr & _); [done..|].
  rewrite quantum_groups by done. cbn [default from_option is_some app]. unfold id. cbn [groups app decode_quanta].
  destruct (symbol_value _ Hp) as [-> _], (symbol_value _ Hq) as [-> _], (symbol_value _ Hr) as [Er Nr].
  apply Z.eqb_neq in Nr. rewrite Nr, Er, first_byte, second_byte by done.
  assert (Z.land (y mod 16 * 4 + 0 / 64) 3 = 0) as -> by (arithmetic; dlia). unfold is_byte in *.
  cbn. do 2 f_equal. repeat f_equal; dlia.
Qed.

Lemma decode_one x acc : is_byte x → decode_quanta acc (quantum x None None) = success (acc ++ [x]).
Proof.
  intros Hx. destruct (groups_range x 0 0) as (Hp & Hq & _); [done..|].
  rewrite quantum_groups by done. cbn [default from_option is_some app]. unfold id. cbn [groups app decode_quanta].
  destruct (symbol_value _ Hp) as [-> _], (symbol_value _ Hq) as [-> _]. rewrite first_byte by done.
  assert (Z.land (x mod 4 * 16 + 0 / 16) 15 = 0) as -> by (arithmetic; dlia). unfold is_byte in *.
  cbn. do 2 f_equal. repeat f_equal; dlia.
Qed.

Lemma decode_quanta_complete b acc : Forall is_byte b → decode_quanta acc (encode_base64 b) = success (acc ++ b).
Proof.
  revert acc. induction b as [[|x [|y [|z b]]] IH] using list_length_ind; intros acc Hb; rewrite ?Forall_cons in Hb;
    destruct_and?; cbn [encode_base64].
  - by rewrite app_nil_r.
  - by apply decode_one.
  - by apply decode_two.
  - rewrite decode_full, IH by (done || cbn; lia). by rewrite <- app_assoc.
Qed.

Lemma encode_size b : Z.of_nat (length (encode_base64 b)) = 4 * ((Z.of_nat (length b) + 2) / 3).
Proof.
  induction b as [[|x [|y [|z b]]] IH] using list_length_ind; [done..|]. cbn [encode_base64].
  rewrite length_app, Nat2Z.inj_add, IH by (cbn; lia). cbn [length quantum]. dlia.
Qed.

Lemma decode_encoded b :
  Forall is_byte b → Z.of_nat (length b) <= size_max → decode_base64 (encode_base64 b) = success b.
Proof.
  intros Hb Hl. unfold decode_base64. pose proof (encode_size b) as Hs. case_bool_decide as Hne.
  { rewrite Hne in Hs. destruct b; [done|]. cbn [length] in Hs. dlia. }
  assert (_ || _ = false) as ->; [|by apply decode_quanta_complete].
  rewrite orb_false_iff, negb_false_iff, Z.eqb_eq, Z.ltb_ge, Hs. unfold size_max, uint64_max in *. dlia.
Qed.

(** C26.  Decoding a body accepts exactly the canonical texts: a text decodes to
    some bytes if and only if it is the padded base64 that the preparation of a
    secret body writes for them.  So encoding and decoding a body gives it
    back, two different texts never decode to the same body, and non-zero
    unused bits, misplaced padding and foreign characters are refused. *)
Theorem base64_canonical text body :
  decode_base64 text = success body ↔
  text = encode_base64 body ∧ Forall is_byte body ∧ Z.of_nat (length body) <= size_max.
Proof.
  split.
  - unfold decode_base64. case_bool_decide as Hne; [subst; by intros [= <-]|].
    destruct (_ || _) eqn:Hsize; [done|]. intros (b & -> & Hb & ->)%decode_quanta_sound. cbn [app]. split_and!; [done..|].
    rewrite orb_false_iff, Z.ltb_ge, encode_size in Hsize. unfold size_max, uint64_max in *. dlia.
  - intros (-> & Hb & Hl). by apply decode_encoded.
Qed.
