(* ===== verification/Attributes.v ===== *)
(** * Attributes of jobs: [src/jobu/attribute.hpp], [src/jobu/attribute_registry.cpp]

    The definitions a registry holds, the standard registry, the checks of a
    set of attributes, and the materialization of the four layers (built-in,
    daemon, queue, job) into the attributes of a job.

    The interface [AttributeRegistry] is a class, and what its clients rely on
    is the class [RegistryContract]: the theorems on materialization are proved
    against it, and the standard registry discharges it.  A [std::map] is a
    finite map; a loop over one visits [entries], in the order of the keys. *)

From stdpp Require Import base numbers strings list gmap.
From S2P Require Import Prelude Values OutputCapture CliExitPolicy Binary64 RetryPolicy HttpRetry CronEngine Domain.
Local Open Scope Z_scope.

(** ** Definitions *)

Inductive AttributeType :=
  | TypeBoolean | TypeInteger | TypeNumber | TypeString | TypeDuration | TypeBytes | TypeList | TypeMap.
Inductive AttributeApplicability := AppliesBoth | AppliesCli | AppliesHttp.

#[export] Instance AttributeType_eq_dec : EqDecision AttributeType.
Proof. solve_decision. Defined.

(** The bit of a scope, and [enum_bitmask::test]. *)
Definition scope_bit (scope : AttributeScope) : Z :=
  match scope with DaemonDefault => 1 | QueueDefault => 2 | JobScope => 4 end.
Definition test_scope (scopes : Z) (scope : AttributeScope) : bool :=
  Z.land scopes (scope_bit scope) =? scope_bit scope.

Record AttributeDefinition := mkDefinition {
  definition_name : bytes;
  definition_type : AttributeType;
  definition_scopes : Z;
  built_in_default : AttributeValue;
  description : string;
  sensitive : bool;
  applicability : AttributeApplicability }.

Class AttributeRegistry := {
  registry_find : bytes → option AttributeDefinition;
  registry_validate : bytes → AttributeValue → AttributeScope → result Error unit;
  registry_definitions : list AttributeDefinition }.

(** ** Errors *)

Definition attribute_error (code message : string) : Error := mkError InvalidArgument code message "".
Definition invalid_value (message : string) : Error := attribute_error "jobu.attribute.invalid_value" message.
Definition value_is_invalid : Error := invalid_value "JobU attribute value is invalid".
Definition unknown_attribute : Error := attribute_error "jobu.attribute.unknown" "JobU attribute is not registered".
Definition not_at_this_scope : Error :=
  attribute_error "jobu.attribute.invalid_scope" "JobU attribute is not accepted at this scope".

Definition standard_scopes : Z :=
  Z.lor (Z.lor (scope_bit DaemonDefault) (scope_bit QueueDefault)) (scope_bit JobScope).

Definition has_attribute_type (value : AttributeValue) (type : AttributeType) : bool :=
  match type, value with
  | TypeBoolean, AttrBool _ | TypeInteger, AttrInt _ | TypeNumber, AttrDouble _ | TypeString, AttrString _
  | TypeDuration, AttrDuration _ | TypeBytes, AttrBytes _ | TypeList, AttrList _ | TypeMap, AttrMap _ => true
  | _, _ => false
  end.

Definition attribute_applies_to (definition : AttributeDefinition) (type : JobType) : bool :=
  match type, applicability definition with
  | Cli, (AppliesBoth | AppliesCli) | Http, (AppliesBoth | AppliesHttp) => true
  | _, _ => false
  end.

(** A loop that stops at the first failure. *)
Fixpoint for_each {A} (f : A → result Error unit) (l : list A) : result Error unit :=
  match l with
  | [] => success tt
  | x :: l => _ ← f x; for_each f l
  end.

(** ** Checks of a set *)

Section Sets.
Context `{AttributeRegistry}.

Definition validate_set (values : AttributeSet) (scope : AttributeScope) : result Error unit :=
  for_each (λ e, registry_validate e.1 e.2 scope) (entries values).

(** [definition != nullptr && definition->type == type]. *)
Definition defined_as (name : bytes) (type : AttributeType) : bool :=
  match registry_find name with Some d => bool_decide (definition_type d = type) | None => false end.

Definition validate_retry_cross_fields (values : AttributeSet) : result Error unit :=
  if negb (defined_as bs!"retry.initial_delay" TypeDuration && defined_as bs!"retry.max_delay" TypeDuration)
  then success tt
  else match values !! bs!"retry.initial_delay", values !! bs!"retry.max_delay" with
       | Some (AttrDuration initial), Some (AttrDuration maximum) =>
           check (negb (maximum <? initial)) (invalid_value "retry.max_delay must not be below retry.initial_delay")
       | _, _ => success tt
       end.

Definition validate_http_cross_fields (values : AttributeSet) : result Error unit :=
  if negb (defined_as bs!"http.follow_redirects" TypeBoolean && defined_as bs!"http.max_redirects" TypeInteger)
  then success tt
  else match values !! bs!"http.follow_redirects", values !! bs!"http.max_redirects" with
       | Some (AttrBool enabled), Some (AttrInt maximum) =>
           check (negb (enabled && (maximum <? 1)))
             (invalid_value "http.max_redirects must be positive when http.follow_redirects is enabled")
       | _, _ => success tt
       end.

Definition validate_standard_cross_fields (values : AttributeSet) : result Error unit :=
  _ ← validate_retry_cross_fields values;
  validate_http_cross_fields values.

(** [attribute_applies_to( *registry.find(name), type)].  The names it is
    asked about have been validated, so [find] returns a definition; for a
    registry that validates a name it does not know the code has no meaning. *)
Definition name_applies_to (name : bytes) (type : JobType) : bool :=
  match registry_find name with Some d => attribute_applies_to d type | None => false end.

(** [!type || attribute_applies_to(definition, *type)]. *)
Definition applies_if (type : option JobType) (definition : AttributeDefinition) : bool :=
  match type with Some t => attribute_applies_to definition t | None => true end.
Definition name_applies_if (type : option JobType) (name : bytes) : bool :=
  match type with Some t => name_applies_to name t | None => true end.

(** The members of [values] whose attribute applies. *)
Definition applicable_to (type : JobType) (values : AttributeSet) : AttributeSet :=
  filter (λ e, name_applies_to e.1 type = true) values.

Definition validate_complete_set (values : AttributeSet) (type : option JobType) : result Error unit :=
  _ ← validate_set values JobScope;
  _ ← for_each (λ d, check (negb (test_scope (definition_scopes d) JobScope && applies_if type d
                                  && negb (is_some (values !! definition_name d))))
                       (invalid_value "Materialized JobU attributes are incomplete")) registry_definitions;
  match type with
  | None => validate_standard_cross_fields values
  | Some t => validate_standard_cross_fields (applicable_to t values)
  end.

Definition validate_job_attributes (values : AttributeSet) (type : JobType) : result Error unit :=
  _ ← validate_set values JobScope;
  _ ← for_each (λ e, check (name_applies_to e.1 type)
                       (attribute_error "jobu.attribute.invalid_runner" "JobU attribute does not apply to this runner"))
        (entries values);
  validate_standard_cross_fields values.

Definition validate_materialized_attributes (values : AttributeSet) (type : JobType) : result Error unit :=
  validate_complete_set values (Some type).

(** ** Materialization *)

(** [std::map::emplace] and [insert_or_assign] of a layer. *)
Definition emplace_value (values : AttributeSet) (name : bytes) (value : AttributeValue) : AttributeSet :=
  match values !! name with Some _ => values | None => <[name := value]> values end.

Fixpoint seed_built_ins (type : option JobType) (definitions : list AttributeDefinition) (values : AttributeSet)
    : result Error AttributeSet :=
  match definitions with
  | [] => success values
  | d :: definitions =>
      if negb (test_scope (definition_scopes d) JobScope) || negb (applies_if type d)
      then seed_built_ins type definitions values
      else
        _ ← registry_validate (definition_name d) (built_in_default d) JobScope;
        seed_built_ins type definitions (emplace_value values (definition_name d) (built_in_default d))
  end.

Definition apply_layer (type : option JobType) (values layer : AttributeSet) : AttributeSet :=
  foldl (λ values e, if name_applies_if type e.1 then <[e.1 := e.2]> values else values) values (entries layer).

Definition materialize_attributes_impl (daemon_defaults queue_defaults job_values : AttributeSet)
    (type : option JobType) : result Error AttributeSet :=
  _ ← validate_set daemon_defaults DaemonDefault;
  _ ← validate_set queue_defaults QueueDefault;
  _ ← validate_set job_values JobScope;
  _ ← match type with Some t => validate_job_attributes job_values t | None => success tt end;
  seeded ← seed_built_ins type registry_definitions ∅;
  let values := foldl (apply_layer type) seeded [daemon_defaults; queue_defaults; job_values] in
  _ ← validate_complete_set values type;
  success values.

Definition materialize_attributes (type : JobType) (daemon_defaults queue_defaults job_values : AttributeSet)
    : result Error AttributeSet :=
  materialize_attributes_impl daemon_defaults queue_defaults job_values (Some type).

(** The overload without a runner. *)
Definition materialize_all_attributes (daemon_defaults queue_defaults job_values : AttributeSet)
    : result Error AttributeSet :=
  materialize_attributes_impl daemon_defaults queue_defaults job_values None.
End Sets.

(** ** The standard registry *)

Definition is_one_of (value : bytes) (choices : list bytes) : bool := existsb (bytes_eqb value) choices.

(** The loop of [validate_string_list]; [previous] are the texts before. *)
Fixpoint strings_accepted (accepts : bytes → bool) (previous : list bytes) (values : list AttributeValue) : bool :=
  match values with
  | [] => true
  | AttrString text :: values =>
      accepts text && negb (is_one_of text previous) && strings_accepted accepts (previous ++ [text]) values
  | _ :: _ => false
  end.

Definition validate_string_list (values : list AttributeValue) (maximum_size : Z) (accepts : bytes → bool) : bool :=
  if maximum_size <? Z.of_nat (length values) then false else strings_accepted accepts [] values.

Definition kDefaultOutputLimitBytes : Z := 1024 * 1024.
Definition kMaximumOutputLimitBytes : Z := 64 * 1024 * 1024.
Definition kMaximumHttpHeaderLimitBytes : Z := 4 * 1024 * 1024.
Definition kMaximumHttpRetryErrors : Z := 16.
Definition kMaximumHttpRetryStatuses : Z := 64.

Definition ns_per_ms : Z := 1000000.
Definition ns_per_s : Z := 1000 * ns_per_ms.

Definition text (s : bytes) : AttributeValue := AttrString s.
Definition bits_zero : Z := 0.
Definition bits_two : Z := 2 ^ 62.

(** [StandardAttributeRegistry::StandardAttributeRegistry]. *)
Definition standard_definitions : list AttributeDefinition := [
  mkDefinition bs!"cli.retry_exit_codes" TypeList standard_scopes (AttrList [text bs!"0-255"])
    "Unexpected CLI exit codes eligible for retry" false AppliesCli;
  mkDefinition bs!"cli.termination_grace" TypeDuration standard_scopes (AttrDuration (5 * ns_per_s))
    "Grace period between CLI termination and forced process-group cleanup" false AppliesCli;
  mkDefinition bs!"http.follow_redirects" TypeBoolean standard_scopes (AttrBool false)
    "Whether HTTP redirects are followed" false AppliesHttp;
  mkDefinition bs!"http.idempotency_key" TypeBoolean standard_scopes (AttrBool false)
    "Whether HTTP execution injects the run identifier as an idempotency key" false AppliesHttp;
  mkDefinition bs!"http.max_redirects" TypeInteger standard_scopes (AttrInt 5)
    "Maximum number of HTTP redirects" false AppliesHttp;
  mkDefinition bs!"http.retry_errors" TypeList standard_scopes
    (AttrList [text bs!"resolve"; text bs!"connect"; text bs!"tls_handshake"; text bs!"timeout"; text bs!"send";
               text bs!"receive"])
    "HTTP transport error categories eligible for retry" false AppliesHttp;
  mkDefinition bs!"http.retry_statuses" TypeList standard_scopes
    (AttrList [text bs!"408"; text bs!"429"; text bs!"500-599"])
    "Unexpected HTTP response statuses eligible for retry" false AppliesHttp;
  mkDefinition bs!"http.tls_verify" TypeBoolean standard_scopes (AttrBool true)
    "Whether HTTP TLS certificates and hostnames are verified" false AppliesHttp;
  mkDefinition bs!"job.timeout" TypeDuration standard_scopes (AttrDuration (120 * ns_per_s))
    "Maximum duration of one job execution" false AppliesBoth;
  mkDefinition bs!"output.capture" TypeString standard_scopes (text bs!"on_error")
    "Runner output capture policy" false AppliesBoth;
  mkDefinition bs!"output.http_body_limit" TypeInteger standard_scopes (AttrInt kDefaultOutputLimitBytes)
    "Maximum captured HTTP response body bytes" false AppliesHttp;
  mkDefinition bs!"output.http_headers_limit" TypeInteger standard_scopes (AttrInt (64 * 1024))
    "Maximum captured raw HTTP response header bytes" false AppliesHttp;
  mkDefinition bs!"output.stderr_limit" TypeInteger standard_scopes (AttrInt kDefaultOutputLimitBytes)
    "Maximum captured standard error bytes" false AppliesCli;
  mkDefinition bs!"output.stdout_limit" TypeInteger standard_scopes (AttrInt kDefaultOutputLimitBytes)
    "Maximum captured standard output bytes" false AppliesCli;
  mkDefinition bs!"retry.initial_delay" TypeDuration standard_scopes (AttrDuration 0)
    "Delay before the first retry" false AppliesBoth;
  mkDefinition bs!"retry.jitter" TypeNumber standard_scopes (AttrDouble bits_zero)
    "Symmetric retry delay jitter fraction" false AppliesBoth;
  mkDefinition bs!"retry.max_attempts" TypeInteger standard_scopes (AttrInt 1)
    "Maximum number of execution attempts" false AppliesBoth;
  mkDefinition bs!"retry.max_delay" TypeDuration standard_scopes (AttrDuration (24 * 3600 * ns_per_s))
    "Maximum delay between retries" false AppliesBoth;
  mkDefinition bs!"retry.mode" TypeString standard_scopes (text bs!"reschedule")
    "Whether retry delays block or reschedule queue capacity" false AppliesBoth;
  mkDefinition bs!"retry.multiplier" TypeNumber standard_scopes (AttrDouble bits_two)
    "Exponential retry delay multiplier" false AppliesBoth;
  mkDefinition bs!"retry.strategy" TypeString standard_scopes (text bs!"fixed")
    "Retry delay calculation strategy" false AppliesBoth].

(** [StandardAttributeRegistry::find]. *)
Fixpoint find_definition (definitions : list AttributeDefinition) (name : bytes) : option AttributeDefinition :=
  match definitions with
  | [] => None
  | d :: definitions => if bytes_eqb (definition_name d) name then Some d else find_definition definitions name
  end.

Definition standard_find (name : bytes) : option AttributeDefinition := find_definition standard_definitions name.

Definition within (lowest value highest : Z) : bool := negb ((value <? lowest) || (highest <? value)).
Definition double_within (lowest value highest : double) : bool :=
  negb (negb (isfinite value) || double_ltb value lowest || double_ltb highest value).

Definition retry_error_choices : list bytes :=
  [bs!"resolve"; bs!"connect"; bs!"tls_handshake"; bs!"tls_verification"; bs!"timeout"; bs!"send"; bs!"receive";
   bs!"redirect"; bs!"protocol"].

(** The chain of conditions on the name.  The type of the value has been
    checked, so [std::get] finds its alternative; [false] stands for the other
    ones. *)
Definition value_accepted (name : bytes) (value : AttributeValue) : bool :=
  if bytes_eqb name bs!"cli.retry_exit_codes" then
    match value with AttrList l => is_some (decode_cli_retry_exit_codes l) | _ => false end
  else if bytes_eqb name bs!"cli.termination_grace" then
    match value with AttrDuration d => within 0 d (5 * 60 * ns_per_s) | _ => false end
  else if bytes_eqb name bs!"http.max_redirects" then
    match value with AttrInt n => within 0 n 20 | _ => false end
  else if bytes_eqb name bs!"http.retry_errors" then
    match value with
    | AttrList l => validate_string_list l kMaximumHttpRetryErrors (λ e, is_one_of e retry_error_choices)
    | _ => false
    end
  else if bytes_eqb name bs!"http.retry_statuses" then
    match value with
    | AttrList l => validate_string_list l kMaximumHttpRetryStatuses (λ s, is_some (parse_http_status_selector s))
    | _ => false
    end
  else if bytes_eqb name bs!"job.timeout" then
    match value with AttrDuration d => within ns_per_ms d (30 * 24 * 3600 * ns_per_s) | _ => false end
  else if bytes_eqb name bs!"retry.max_attempts" then
    match value with AttrInt n => within 1 n 100 | _ => false end
  else if bytes_eqb name bs!"retry.strategy" then
    match value with AttrString s => is_one_of s [bs!"fixed"; bs!"exponential"] | _ => false end
  else if bytes_eqb name bs!"retry.initial_delay" then
    match value with AttrDuration d => within 0 d (24 * 3600 * ns_per_s) | _ => false end
  else if bytes_eqb name bs!"retry.jitter" then
    match value with AttrDouble b => double_within double_zero (double_of_bits b) double_one | _ => false end
  else if bytes_eqb name bs!"retry.max_delay" then
    match value with AttrDuration d => within 0 d (30 * 24 * 3600 * ns_per_s) | _ => false end
  else if bytes_eqb name bs!"retry.mode" then
    match value with AttrString s => is_one_of s [bs!"blocking"; bs!"reschedule"] | _ => false end
  else if bytes_eqb name bs!"retry.multiplier" then
    match value with AttrDouble b => double_within double_one (double_of_bits b) double_hundred | _ => false end
  else if bytes_eqb name bs!"output.capture" then
    match value with AttrString s => is_one_of s [bs!"none"; bs!"on_error"; bs!"always"] | _ => false end
  else if bytes_eqb name bs!"output.http_headers_limit" then
    match value with AttrInt n => within 0 n kMaximumHttpHeaderLimitBytes | _ => false end
  else if bytes_eqb name bs!"output.http_body_limit" || bytes_eqb name bs!"output.stdout_limit"
          || bytes_eqb name bs!"output.stderr_limit" then
    match value with AttrInt n => within 0 n kMaximumOutputLimitBytes | _ => false end
  else true.

(** [StandardAttributeRegistry::validate]. *)
Definition standard_validate (name : bytes) (value : AttributeValue) (scope : AttributeScope) : result Error unit :=
  definition ← ok_or (standard_find name) unknown_attribute;
  _ ← check (test_scope (definition_scopes definition) scope) not_at_this_scope;
  _ ← check (has_attribute_type value (definition_type definition))
        (attribute_error "jobu.attribute.invalid_type" "JobU attribute type does not match its definition");
  check (value_accepted name value) value_is_invalid.

#[export] Instance StandardAttributeRegistry : AttributeRegistry := {|
  registry_find := standard_find;
  registry_validate := standard_validate;
  registry_definitions := standard_definitions |}.

(** [StandardAttributeRegistry::validate_materialized], both overloads. *)
Definition validate_materialized (values : AttributeSet) (type : option JobType) : result Error unit :=
  validate_complete_set values type.
