(* ===== verification/AttributeLayers.v ===== *)
(** * The layers of attributes

    Materialization takes, for every attribute that applies to the runner of a
    job, the value of the most specific layer that has one.  The theorems are
    proved for any registry that keeps [RegistryContract]; the standard
    registry keeps it. *)

From stdpp Require Import base numbers strings list gmap.
From S2P Require Import Prelude Values OutputCapture CliExitPolicy Binary64 RetryPolicy HttpRetry CronEngine Domain.
From S2P Require Import Attributes.
Local Open Scope Z_scope.

(** What the clients of a registry rely on. *)
Class RegistryContract `{AttributeRegistry} : Prop := {
  found_defined name d : registry_find name = Some d → definition_name d = name ∧ d ∈ registry_definitions;
  defined_found d : d ∈ registry_definitions → registry_find (definition_name d) = Some d;
  validated_typed name value scope :
    registry_validate name value scope = success tt →
    ∃ d, registry_find name = Some d ∧ test_scope (definition_scopes d) scope = true
         ∧ has_attribute_type value (definition_type d) = true;
  built_in_valid d :
    d ∈ registry_definitions → test_scope (definition_scopes d) JobScope = true →
    registry_validate (definition_name d) (built_in_default d) JobScope = success tt }.

(** ** Loops and checks *)

Lemma result_unit_bind {T} (r : result Error unit) (k : result Error T) v :
  (_ ← r; k) = success v ↔ r = success tt ∧ k = success v.
Proof. destruct r as [[]|e]; simpl; naive_solver. Qed.

Lemma kind_check_success (b : bool) (e : Error) : check b e = success tt ↔ b = true.
Proof. destruct b; naive_solver. Qed.

Lemma for_each_success {A} (f : A → result Error unit) l :
  for_each f l = success tt ↔ Forall (λ x, f x = success tt) l.
Proof. induction l as [|x l IH]; simpl; [naive_solver|]. by rewrite result_unit_bind, Forall_cons, IH. Qed.

Lemma for_each_entries (f : bytes * AttributeValue → result Error unit) (m : AttributeSet) :
  for_each f (entries m) = success tt ↔ ∀ name value, m !! name = Some value → f (name, value) = success tt.
Proof.
  rewrite for_each_success, Forall_forall. split.
  - intros Hall name value Hm. by apply Hall, elem_of_entries.
  - intros Hall [name value] Hin. by apply Hall, elem_of_entries.
Qed.

Section Layers.
Context `{AttributeRegistry}.
Implicit Types (values layer : AttributeSet) (type : option JobType).

Definition valid_at values (scope : AttributeScope) : Prop :=
  ∀ name value, values !! name = Some value → registry_validate name value scope = success tt.

Lemma validate_set_spec values scope : validate_set values scope = success tt ↔ valid_at values scope.
Proof. apply (for_each_entries (λ e, registry_validate e.1 e.2 scope)). Qed.

Definition eligible type (d : AttributeDefinition) : bool :=
  test_scope (definition_scopes d) JobScope && applies_if type d.

Definition built_in type (name : bytes) : option AttributeValue :=
  match registry_find name with
  | Some d => if eligible type d then Some (built_in_default d) else None
  | None => None
  end.

(** The value of an attribute in the most specific layer that has one. *)
Definition layered type (daemon_defaults queue_defaults job_values : AttributeSet) (name : bytes)
    : option AttributeValue :=
  if name_applies_if type name
  then job_values !! name ∪ (queue_defaults !! name ∪ (daemon_defaults !! name ∪ built_in type name))
  else built_in type name.

(** The relations between the attributes of a set. *)
Definition consistent values : Prop :=
  (∀ initial maximum, values !! bs!"retry.initial_delay" = Some (AttrDuration initial) →
     values !! bs!"retry.max_delay" = Some (AttrDuration maximum) → initial <= maximum) ∧
  (∀ redirects, values !! bs!"http.follow_redirects" = Some (AttrBool true) →
     values !! bs!"http.max_redirects" = Some (AttrInt redirects) → 1 <= redirects).

Lemma apply_layer_lookup type values layer name :
  apply_layer type values layer !! name =
  (if name_applies_if type name then layer !! name ∪ values !! name else values !! name).
Proof.
  unfold apply_layer. rewrite <- (entries_of_list layer) at 2.
  pose proof (members_ordered_NoDup _ (entries_members_ordered layer)) as Hnd. revert values Hnd.
  induction (entries layer) as [|[k v] l IH]; intros values Hnd; simpl.
  { rewrite lookup_empty. by destruct (name_applies_if type name), (values !! name). }
  inv Hnd. rewrite IH by done. destruct (decide (k = name)) as [->|Hne].
  - rewrite lookup_insert_eq, not_elem_of_list_to_map_1 by done. destruct (name_applies_if type name); [|done].
    rewrite lookup_insert_eq. by destruct (values !! name).
  - rewrite lookup_insert_ne by done. destruct (name_applies_if type k); [|done].
    by rewrite lookup_insert_ne.
Qed.

Context `{!RegistryContract}.

Lemma seed_built_ins_spec type definitions values :
  definitions ⊆ registry_definitions →
  ∃ seeded, seed_built_ins type definitions values = success seeded
    ∧ ∀ name, seeded !! name =
        values !! name ∪ (if bool_decide (name ∈ map definition_name definitions) then built_in type name else None).
Proof.
  revert values. induction definitions as [|d definitions IH]; intros values Hsub; cbn [seed_built_ins map].
  { exists values. split; [done|]. intros name. simpl. by destruct (values !! name). }
  assert (Hd : d ∈ registry_definitions) by apply Hsub, list_elem_of_here.
  assert (Hrest : definitions ⊆ registry_definitions) by (intros x Hx; by apply Hsub, list_elem_of_further).
  assert (Hb : built_in type (definition_name d) = if eligible type d then Some (built_in_default d) else None)
    by (unfold built_in; by rewrite (defined_found d Hd)).
  assert (Hother : ∀ name, name ≠ definition_name d →
    bool_decide (name ∈ definition_name d :: map definition_name definitions) =
    bool_decide (name ∈ map definition_name definitions))
    by (intros; apply bool_decide_ext; rewrite elem_of_cons; tauto).
  assert (Hhead : bool_decide (definition_name d ∈ definition_name d :: map definition_name definitions) = true)
    by apply bool_decide_eq_true_2, list_elem_of_here.
  rewrite <- negb_andb. change (_ && _) with (eligible type d). destruct (eligible type d) eqn:Helig; simpl.
  - pose proof Helig as [Hj _]%andb_true_iff. rewrite (built_in_valid d Hd Hj). simpl.
    destruct (IH (emplace_value values (definition_name d) (built_in_default d)) Hrest) as (s & -> & Hl).
    exists s. split; [done|]. intros name. rewrite Hl. unfold emplace_value.
    destruct (decide (name = definition_name d)) as [->|Hne].
    + rewrite Hhead, Hb. destruct (values !! definition_name d) eqn:E; simpl; [by rewrite E; simpl; case_match|].
      rewrite lookup_insert_eq. by case_match.
    + rewrite (Hother _ Hne). case_match; [done|]. by rewrite lookup_insert_ne.
  - destruct (IH values Hrest) as (s & -> & Hl). exists s. split; [done|]. intros name. rewrite Hl.
    destruct (decide (name = definition_name d)) as [->|Hne]; [|by rewrite (Hother _ Hne)].
    rewrite Hhead, Hb. by case_match.
Qed.
Lemma has_attribute_type_inj value a b :
  has_attribute_type value a = true → has_attribute_type value b = true → a = b.
Proof. by destruct value, a, b. Qed.

Lemma valid_defined_as values scope name value (t : AttributeType) :
  valid_at values scope → values !! name = Some value → has_attribute_type value t = true →
  defined_as name t = true.
Proof.
  intros Hv Hl Ht. destruct (validated_typed _ _ _ (Hv _ _ Hl)) as (d & Hd & _ & Ht').
  unfold defined_as. rewrite Hd. apply bool_decide_eq_true_2. by eapply has_attribute_type_inj.
Qed.

Lemma cross_fields_spec values scope :
  valid_at values scope → validate_standard_cross_fields values = success tt ↔ consistent values.
Proof.
  intros Hv. unfold validate_standard_cross_fields, consistent. rewrite result_unit_bind.
  apply Morphisms_Prop.and_iff_morphism; unfold validate_retry_cross_fields, validate_http_cross_fields.
  - destruct (values !! bs!"retry.initial_delay") as [v1|] eqn:E1; [|case_match; naive_solver].
    destruct (values !! bs!"retry.max_delay") as [v2|] eqn:E2; [|case_match; naive_solver (by destruct v1)].
    destruct v1; try (case_match; naive_solver). destruct v2; try (case_match; naive_solver).
    rewrite (valid_defined_as _ _ _ _ TypeDuration Hv E1), (valid_defined_as _ _ _ _ TypeDuration Hv E2) by done.
    simpl. rewrite kind_check_success, negb_true_iff, Z.ltb_ge. naive_solver.
  - destruct (values !! bs!"http.follow_redirects") as [v1|] eqn:E1; [|case_match; naive_solver].
    destruct (values !! bs!"http.max_redirects") as [v2|] eqn:E2; [|case_match; naive_solver (by destruct v1)].
    destruct v1 as [b| | | | | | |]; try (case_match; naive_solver). destruct v2; try (case_match; naive_solver).
    rewrite (valid_defined_as _ _ _ _ TypeBoolean Hv E1), (valid_defined_as _ _ _ _ TypeInteger Hv E2) by done.
    simpl. rewrite kind_check_success, negb_true_iff. destruct b; simpl; [rewrite Z.ltb_ge|]; naive_solver.
Qed.

Lemma validate_job_attributes_spec values t :
  validate_job_attributes values t = success tt ↔
  valid_at values JobScope ∧ (∀ name value, values !! name = Some value → name_applies_to name t = true)
  ∧ consistent values.
Proof.
  unfold validate_job_attributes. rewrite !result_unit_bind, validate_set_spec, for_each_entries. split.
  - intros (Hv & Ha & Hc). split; [done|]. split; [|by apply (cross_fields_spec _ JobScope)].
    intros name value Hl. by eapply kind_check_success, Ha.
  - intros (Hv & Ha & Hc). split; [done|]. split; [|by apply (cross_fields_spec _ JobScope)].
    intros name value Hl. simpl. rewrite (Ha _ _ Hl). done.
Qed.

(** Every attribute that a job of the type must have. *)
Definition complete type values : Prop :=
  ∀ d, d ∈ registry_definitions → eligible type d = true → is_Some (values !! definition_name d).

Definition applicable type values : AttributeSet :=
  match type with Some t => applicable_to t values | None => values end.

Lemma valid_applicable type values scope : valid_at values scope → valid_at (applicable type values) scope.
Proof.
  intros Hv name value Hl. apply Hv. destruct type; [|done]. by apply map_lookup_filter_Some in Hl as [? _].
Qed.

Lemma validate_complete_set_spec values type :
  validate_complete_set values type = success tt ↔
  valid_at values JobScope ∧ complete type values ∧ consistent (applicable type values).
Proof.
  unfold validate_complete_set. rewrite !result_unit_bind, validate_set_spec, for_each_success, Forall_forall.
  assert (Hc : (∀ d, d ∈ registry_definitions →
      check (negb (test_scope (definition_scopes d) JobScope && applies_if type d
        && negb (is_some (values !! definition_name d))))
      (invalid_value "Materialized JobU attributes are incomplete") = success tt) ↔ complete type values).
  { unfold complete, eligible. split; intros Hall d Hd; specialize (Hall d Hd); revert Hall;
      rewrite kind_check_success, negb_true_iff, andb_false_iff, negb_false_iff.
    - intros [?|Hs] He; [congruence|]. by destruct (values !! _).
    - intros Hs. destruct (_ && _); [right|by left]. by destruct (Hs eq_refl) as [v ->]. }
  rewrite Hc. split; intros (Hv & Hcomplete & Hcross); (split; [done|]; split; [done|]);
    pose proof (cross_fields_spec (applicable type values) JobScope (valid_applicable type _ _ Hv)) as Hiff;
    destruct type; by apply Hiff.
Qed.

(** What materialization promises of its result. *)
Record materialized (type : option JobType) (daemon_defaults queue_defaults job_values values : AttributeSet) : Prop := {
  daemon_layer_valid : valid_at daemon_defaults DaemonDefault;
  queue_layer_valid : valid_at queue_defaults QueueDefault;
  job_layer_valid : valid_at job_values JobScope;
  job_layer_applies : ∀ t name, type = Some t → is_Some (job_values !! name) → name_applies_to name t = true;
  job_layer_consistent : is_Some type → consistent job_values;
  values_layered : ∀ name, values !! name = layered type daemon_defaults queue_defaults job_values name;
  values_valid : valid_at values JobScope;
  values_consistent : consistent values }.

Lemma built_in_applies type name value : built_in type name = Some value → name_applies_if type name = true.
Proof.
  unfold built_in, name_applies_if, name_applies_to. destruct (registry_find name) as [d|]; [|done].
  destruct (eligible type d) eqn:E; [|done]. intros _. apply andb_true_iff in E as [_ E]. by destruct type.
Qed.

Lemma layered_applies type daemon_defaults queue_defaults job_values name value :
  layered type daemon_defaults queue_defaults job_values name = Some value → name_applies_if type name = true.
Proof. unfold layered. destruct (name_applies_if type name) eqn:E; [done|]. by intros <-%built_in_applies. Qed.

Lemma layered_complete type daemon_defaults queue_defaults job_values values :
  (∀ name, values !! name = layered type daemon_defaults queue_defaults job_values name) → complete type values.
Proof.
  intros Hl d Hd He. rewrite Hl. unfold layered.
  assert (Hb : built_in type (definition_name d) = Some (built_in_default d))
    by (unfold built_in; by rewrite (defined_found d Hd), He).
  rewrite (built_in_applies _ _ _ Hb), Hb.
  by destruct (job_values !! _), (queue_defaults !! _), (daemon_defaults !! _).
Qed.

Lemma layered_applicable type daemon_defaults queue_defaults job_values values :
  (∀ name, values !! name = layered type daemon_defaults queue_defaults job_values name) →
  applicable type values = values.
Proof.
  intros Hl. destruct type as [t|]; [|done]. apply map_filter_id. intros name value Hv.
  rewrite Hl in Hv. by apply layered_applies in Hv.
Qed.

(** The loops of materialization compute the layered values. *)
Lemma layers_lookup type daemon_defaults queue_defaults job_values seeded name :
  seed_built_ins type registry_definitions ∅ = success seeded →
  foldl (apply_layer type) seeded [daemon_defaults; queue_defaults; job_values] !! name =
  layered type daemon_defaults queue_defaults job_values name.
Proof.
  intros Hs. destruct (seed_built_ins_spec type registry_definitions ∅ ltac:(done)) as (s & Hs' & Hl).
  assert (seeded = s) as -> by congruence. simpl. rewrite !apply_layer_lookup. unfold layered.
  assert (Hseed : s !! name = built_in type name).
  { rewrite Hl, lookup_empty. case_bool_decide as Hin; [by destruct (built_in type name)|].
    unfold built_in. destruct (registry_find name) as [d|] eqn:Hf; [|done]. exfalso. apply Hin.
    apply found_defined in Hf as [<- Hd]. by apply list_elem_of_fmap_2. }
  rewrite Hseed. by destruct (name_applies_if type name).
Qed.

Lemma materialized_validated t daemon_defaults queue_defaults job_values values :
  materialize_attributes t daemon_defaults queue_defaults job_values = success values →
  validate_materialized_attributes values t = success tt.
Proof.
  unfold materialize_attributes, materialize_attributes_impl. intros Hm.
  do 4 (apply result_unit_bind in Hm as [_ Hm]).
  destruct (seed_built_ins _ _ _) as [seeded|]; [|done]. cbn [mbind result_bind] in Hm.
  by apply result_unit_bind in Hm as [Hv [= <-]].
Qed.

Lemma materialize_layers type daemon_defaults queue_defaults job_values values :
  materialize_attributes_impl daemon_defaults queue_defaults job_values type = success values ↔
  materialized type daemon_defaults queue_defaults job_values values.
Proof.
  unfold materialize_attributes_impl. rewrite !result_unit_bind, !validate_set_spec.
  destruct (seed_built_ins_spec type registry_definitions ∅ ltac:(done)) as (s & Hs & _). rewrite Hs. simpl.
  rewrite result_unit_bind, validate_complete_set_spec. pose proof (λ name, layers_lookup type daemon_defaults
    queue_defaults job_values s name Hs) as Hl. simpl in Hl.
  set (computed := apply_layer _ _ job_values) in *. rewrite (layered_applicable _ _ _ _ _ Hl). split.
  - intros (Hd & Hq & Hj & Ht & (Hv & _ & Hc) & [= <-]). split; try done.
    + intros t name -> [value Hval]. apply validate_job_attributes_spec in Ht as (_ & Ht & _). by eapply Ht.
    + intros [t ->]. by apply validate_job_attributes_spec in Ht as (_ & _ & Ht).
  - intros [Hd Hq Hj Ha Hjc Hval Hv Hc]. assert (values = computed) as -> by (apply map_eq; intros name; by rewrite Hval, <- Hl).
    split_and!; try done.
    + destruct type as [t|]; [|done]. apply validate_job_attributes_spec. split_and!; [done| |by apply Hjc].
      intros name value Hn. by eapply Ha.
    + by apply (layered_complete _ _ _ _ _ Hl).
Qed.

(** C18.  Materialization succeeds exactly when the three layers are valid at
    their scopes (and, for a runner, the job's own values belong to it) and
    the layered values are valid and consistent; the result then has, for
    every attribute that applies, the value of the job, else of the queue,
    else of the daemon, else the built-in one, and nothing else. *)
Theorem materialize_attributes_spec type daemon_defaults queue_defaults job_values values :
  materialize_attributes_impl daemon_defaults queue_defaults job_values type = success values ↔
  materialized type daemon_defaults queue_defaults job_values values.
Proof. apply materialize_layers. Qed.
End Layers.
