(* ===== verification/AttributePolicy.v ===== *)
(** * The standard attributes drive the executors

    The standard registry keeps the contract of registries, and what it
    materializes is accepted by the code that reads it: the retry policy
    ([retry_policy_priv.cpp]), the HTTP retry policy ([http_retry_priv.cpp])
    and the exit policy of command-line jobs ([cli_exit_policy_priv.cpp]). *)

From stdpp Require Import base numbers strings list gmap.
From S2P Require Import Prelude Values OutputCapture CliExitPolicy Binary64 RetryPolicy HttpRetry CronEngine Domain.
From S2P Require Import Attributes AttributeLayers.
Local Open Scope Z_scope.

(** ** The contract *)

Lemma find_definition_spec definitions name d :
  find_definition definitions name = Some d → definition_name d = name ∧ d ∈ definitions.
Proof.
  induction definitions as [|x definitions IH]; simpl; [done|]. unfold bytes_eqb. case_bool_decide as E.
  - intros [= ->]. split; [done|apply list_elem_of_here].
  - intros [? ?]%IH. split; [done|by apply list_elem_of_further].
Qed.

Lemma standard_definitions_found :
  Forall (λ d, standard_find (definition_name d) = Some d) standard_definitions.
Proof. repeat (apply Forall_cons; split; [vm_compute; reflexivity|]). apply Forall_nil. done. Qed.

Lemma standard_defaults_valid :
  Forall (λ d, standard_validate (definition_name d) (built_in_default d) JobScope = success tt) standard_definitions.
Proof. repeat (apply Forall_cons; split; [vm_compute; reflexivity|]). apply Forall_nil. done. Qed.

Lemma standard_validate_spec name value scope :
  standard_validate name value scope = success tt →
  ∃ d, standard_find name = Some d ∧ test_scope (definition_scopes d) scope = true
       ∧ has_attribute_type value (definition_type d) = true ∧ value_accepted name value = true.
Proof.
  unfold standard_validate. destruct (standard_find name) as [d|]; [|done]. simpl.
  rewrite !result_unit_bind, !kind_check_success. naive_solver.
Qed.

#[export] Instance standard_contract : RegistryContract.
Proof.
  split.
  - apply find_definition_spec.
  - intros d Hd. pose proof standard_definitions_found as Hall. rewrite Forall_forall in Hall. by apply Hall.
  - intros name value scope (d & ? & ? & ? & _)%standard_validate_spec. by exists d.
  - intros d Hd _. pose proof standard_defaults_valid as Hall. rewrite Forall_forall in Hall. by apply Hall.
Qed.

(** ** Lists of texts *)

Lemma decode_error_categories_from l previous :
  strings_accepted (λ e, is_one_of e retry_error_choices) previous l = true →
  is_Some (fold_opt (λ categories v,
     match v with
     | AttrString category =>
         if negb (configurable_error_category category) || contains_category categories category
         then None else Some (categories ++ [category])
     | _ => None
     end) previous l).
Proof.
  revert previous. induction l as [|v l IH]; intros previous; cbn [strings_accepted fold_opt]; [done|].
  destruct v; try done.
  rewrite !andb_true_iff, negb_true_iff. intros [[Hc Hn] Hl].
  change (configurable_error_category s) with (is_one_of s retry_error_choices).
  change (contains_category previous s) with (is_one_of s previous). rewrite Hc, Hn. simpl. by apply IH.
Qed.

Lemma decode_status_ranges_from l selectors ranges :
  strings_accepted (λ s, is_some (parse_http_status_selector s)) selectors l = true →
  is_Some (fold_opt (λ '(selectors, ranges) v,
     match v with
     | AttrString selector =>
         if contains_category selectors selector then None
         else parsed ← parse_http_status_selector selector;
              Some (selectors ++ [selector], ranges ++ [parsed])
     | _ => None
     end) (selectors, ranges) l).
Proof.
  revert selectors ranges. induction l as [|v l IH]; intros selectors ranges; cbn [strings_accepted fold_opt];
    [done|]. destruct v; try done.
  rewrite !andb_true_iff, negb_true_iff. intros [[Hc Hn] Hl].
  change (contains_category selectors s) with (is_one_of s selectors). rewrite Hn.
  destruct (parse_http_status_selector s); [|done]. simpl. by apply IH.
Qed.

(** ** Reading what was materialized *)

Lemma policy_attribute_found {T} (get : AttributeValue → option T) attributes name value x :
  attributes !! bytes_of name = Some value → get value = Some x → policy_attribute get attributes name = success x.
Proof. intros Hl Hg. unfold policy_attribute. by rewrite Hl, Hg. Qed.

Section Reading.
Context (t : JobType) (values : AttributeSet) (Hval : validate_materialized_attributes values t = success tt).

(** An attribute of the runner is there, with the type of its definition and
    an accepted value. *)
Lemma standard_present name d :
  standard_find name = Some d → eligible (Some t) d = true →
  ∃ value, values !! name = Some value ∧ has_attribute_type value (definition_type d) = true
           ∧ value_accepted name value = true.
Proof using Hval.
  intros Hd He. apply validate_complete_set_spec in Hval as (Hv & Hc & _).
  pose proof (find_definition_spec _ _ _ Hd) as [Hname Hin].
  destruct (Hc d Hin He) as [value Hl]. rewrite Hname in Hl. exists value.
  specialize (Hv _ _ Hl). apply standard_validate_spec in Hv as (d' & Hd' & _ & Ht & Ha). simplify_eq. done.
Qed.

(** The relations between attributes hold where both apply. *)
Lemma standard_related name value :
  name_applies_to name t = true → values !! name = Some value → applicable_to t values !! name = Some value.
Proof. intros Ha Hl. by apply map_lookup_filter_Some. Qed.

(** The same, by type: what [std::get_if] finds. *)
Lemma read_integer name d :
  standard_find name = Some d → eligible (Some t) d = true → definition_type d = TypeInteger →
  ∃ n, values !! name = Some (AttrInt n) ∧ value_accepted name (AttrInt n) = true.
Proof using Hval. intros Hd He Ht. destruct (standard_present _ _ Hd He) as ([] & ? & H & ?); rewrite Ht in H; eauto; done. Qed.

Lemma read_duration name d :
  standard_find name = Some d → eligible (Some t) d = true → definition_type d = TypeDuration →
  ∃ n, values !! name = Some (AttrDuration n) ∧ value_accepted name (AttrDuration n) = true.
Proof using Hval. intros Hd He Ht. destruct (standard_present _ _ Hd He) as ([] & ? & H & ?); rewrite Ht in H; eauto; done. Qed.

Lemma read_number name d :
  standard_find name = Some d → eligible (Some t) d = true → definition_type d = TypeNumber →
  ∃ n, values !! name = Some (AttrDouble n) ∧ value_accepted name (AttrDouble n) = true.
Proof using Hval. intros Hd He Ht. destruct (standard_present _ _ Hd He) as ([] & ? & H & ?); rewrite Ht in H; eauto; done. Qed.

Lemma read_string name d :
  standard_find name = Some d → eligible (Some t) d = true → definition_type d = TypeString →
  ∃ s, values !! name = Some (AttrString s) ∧ value_accepted name (AttrString s) = true.
Proof using Hval. intros Hd He Ht. destruct (standard_present _ _ Hd He) as ([] & ? & H & ?); rewrite Ht in H; eauto; done. Qed.

Lemma read_list name d :
  standard_find name = Some d → eligible (Some t) d = true → definition_type d = TypeList →
  ∃ l, values !! name = Some (AttrList l) ∧ value_accepted name (AttrList l) = true.
Proof using Hval. intros Hd He Ht. destruct (standard_present _ _ Hd He) as ([] & ? & H & ?); rewrite Ht in H; eauto; done. Qed.

Lemma standard_retry_policy : ∃ policy, retry_policy_from_attributes values = success policy.
Proof using Hval.
  destruct (read_integer bs!"retry.max_attempts" _ eq_refl ltac:(by destruct t) eq_refl) as (attempts & E1 & H1).
  destruct (read_string bs!"retry.strategy" _ eq_refl ltac:(by destruct t) eq_refl) as (strategy & E2 & H2).
  destruct (read_duration bs!"retry.initial_delay" _ eq_refl ltac:(by destruct t) eq_refl) as (initial & E3 & H3).
  destruct (read_duration bs!"retry.max_delay" _ eq_refl ltac:(by destruct t) eq_refl) as (maximum & E4 & H4).
  destruct (read_number bs!"retry.multiplier" _ eq_refl ltac:(by destruct t) eq_refl) as (multiplier & E5 & H5).
  destruct (read_number bs!"retry.jitter" _ eq_refl ltac:(by destruct t) eq_refl) as (jitter & E6 & H6).
  destruct (read_string bs!"retry.mode" _ eq_refl ltac:(by destruct t) eq_refl) as (mode & E7 & H7).
  change (within 1 attempts 100 = true) in H1.
  change (is_one_of strategy [bs!"fixed"; bs!"exponential"] = true) in H2.
  change (within 0 initial maximum_initial_delay = true) in H3.
  change (within 0 maximum maximum_delay = true) in H4.
  change (double_within double_one (double_of_bits multiplier) double_hundred = true) in H5.
  change (double_within double_zero (double_of_bits jitter) double_one = true) in H6.
  change (is_one_of mode [bs!"blocking"; bs!"reschedule"] = true) in H7.
  assert (Hc : initial <= maximum).
  { apply validate_complete_set_spec in Hval as (_ & _ & Hc & _). cbn [applicable] in Hc.
    apply Hc; (apply standard_related; [by destruct t|done]). }
  unfold retry_policy_from_attributes.
  rewrite (policy_attribute_found get_integer values "retry.max_attempts" _ _ E1 eq_refl),
    (policy_attribute_found get_string values "retry.strategy" _ _ E2 eq_refl),
    (policy_attribute_found get_duration values "retry.initial_delay" _ _ E3 eq_refl),
    (policy_attribute_found get_duration values "retry.max_delay" _ _ E4 eq_refl),
    (policy_attribute_found get_double values "retry.multiplier" _ _ E5 eq_refl),
    (policy_attribute_found get_double values "retry.jitter" _ _ E6 eq_refl),
    (policy_attribute_found get_string values "retry.mode" _ _ E7 eq_refl).
  cbn [mbind result_bind]. unfold within, double_within in *. rewrite H1. cbn [check mbind result_bind].
  assert (Hp : ∀ s m, validate_policy (mkPolicy attempts s initial maximum (double_of_bits multiplier)
                        (double_of_bits jitter) m) = success tt).
  { intros s m. unfold validate_policy.
    cbn [RetryPolicy.max_attempts RetryPolicy.initial_delay RetryPolicy.max_delay RetryPolicy.multiplier
         RetryPolicy.jitter]. rewrite H1, H3, H4, H5, H6, (proj2 (Z.ltb_ge _ _) Hc). done. }
  cbn [is_one_of existsb] in H2, H7. rewrite orb_false_r in H2, H7.
  destruct (bytes_eqb strategy _); [|simpl in H2; rewrite H2];
    (destruct (bytes_eqb mode _); [|simpl in H7; rewrite H7]); cbn [mbind result_bind]; rewrite Hp; eauto.
Qed.

Lemma attribute_list_found name l :
  values !! bytes_of name = Some (AttrList l) → attribute_list values name = success l.
Proof. intros Hl. unfold attribute_list. by rewrite Hl. Qed.

Lemma standard_http_policy : t = Http → ∃ policy, decode_http_retry_policy values = success policy.
Proof using Hval.
  intros Ht. destruct standard_retry_policy as [policy Hp].
  destruct (read_list bs!"http.retry_errors" _ eq_refl ltac:(by rewrite Ht) eq_refl) as (errors & E1 & H1).
  destruct (read_list bs!"http.retry_statuses" _ eq_refl ltac:(by rewrite Ht) eq_refl) as (statuses & E2 & H2).
  change (validate_string_list errors kMaximumHttpRetryErrors (λ e, is_one_of e retry_error_choices) = true) in H1.
  change (validate_string_list statuses kMaximumHttpRetryStatuses
            (λ s, is_some (parse_http_status_selector s)) = true) in H2.
  unfold validate_string_list, kMaximumHttpRetryErrors, kMaximumHttpRetryStatuses in *.
  unfold decode_http_retry_policy. rewrite Hp. cbn [mbind result_bind].
  rewrite (attribute_list_found "http.retry_errors" _ E1), (attribute_list_found "http.retry_statuses" _ E2).
  cbn [mbind result_bind]. unfold decode_error_categories, kMaximumRetryErrors.
  destruct (16 <? _); [done|]. destruct (decode_error_categories_from _ _ H1) as [categories ->].
  cbn [ok_or mbind result_bind]. unfold decode_status_ranges, kMaximumRetryStatuses.
  destruct (64 <? _); [done|]. destruct (decode_status_ranges_from _ _ [] H2) as [ranges ->].
  eexists. reflexivity.
Qed.
End Reading.

(** What the executors of a runner need of the attributes of a run. *)
Record executable (t : JobType) (values : AttributeSet) : Prop := {
  retries_decoded : ∃ policy, retry_policy_from_attributes values = success policy;
  timeout_bounded : ∃ timeout, values !! bs!"job.timeout" = Some (AttrDuration timeout)
    ∧ ns_per_ms <= timeout <= 30 * 24 * 3600 * ns_per_s;
  capture_known : ∃ capture, values !! bs!"output.capture" = Some (AttrString capture)
    ∧ capture ∈ [bs!"none"; bs!"on_error"; bs!"always"];
  runner_decoded :
    match t with
    | Cli => ∃ selectors ranges grace,
        values !! bs!"cli.retry_exit_codes" = Some (AttrList selectors)
        ∧ decode_cli_retry_exit_codes selectors = Some ranges
        ∧ values !! bs!"cli.termination_grace" = Some (AttrDuration grace) ∧ 0 <= grace <= 5 * 60 * ns_per_s
    | Http => (∃ policy, decode_http_retry_policy values = success policy)
        ∧ ∃ follow redirects, values !! bs!"http.follow_redirects" = Some (AttrBool follow)
          ∧ values !! bs!"http.max_redirects" = Some (AttrInt redirects)
          ∧ 0 <= redirects <= 20 ∧ (follow = true → 1 <= redirects)
    end }.

Lemma within_spec lowest value highest : within lowest value highest = true ↔ lowest <= value <= highest.
Proof. unfold within. rewrite negb_true_iff, orb_false_iff, !Z.ltb_ge. lia. Qed.

Lemma is_one_of_spec value choices : is_one_of value choices = true ↔ value ∈ choices.
Proof.
  unfold is_one_of. rewrite existsb_exists. setoid_rewrite <- list_elem_of_In. unfold bytes_eqb.
  split; [intros (x & Hx & E)|intros Hv; exists value]; rewrite bool_decide_eq_true in *; by subst.
Qed.

Lemma validated_executable t values :
  validate_materialized_attributes values t = success tt → executable t values.
Proof.
  intros Hval. split.
  - by eapply standard_retry_policy.
  - destruct (read_duration _ _ Hval bs!"job.timeout" _ eq_refl ltac:(by destruct t) eq_refl) as (v & E & H).
    exists v. split; [done|]. by apply within_spec.
  - destruct (read_string _ _ Hval bs!"output.capture" _ eq_refl ltac:(by destruct t) eq_refl) as (v & E & H).
    exists v. split; [done|]. by apply is_one_of_spec.
  - destruct t.
    + destruct (read_list _ _ Hval bs!"cli.retry_exit_codes" _ eq_refl eq_refl eq_refl) as (l & E1 & H1).
      destruct (read_duration _ _ Hval bs!"cli.termination_grace" _ eq_refl eq_refl eq_refl) as (g & E2 & H2).
      change (is_some (decode_cli_retry_exit_codes l) = true) in H1.
      destruct (decode_cli_retry_exit_codes l) as [ranges|] eqn:E; [|done].
      exists l, ranges, g. split_and!; [done..|by apply within_spec in H2; lia|by apply within_spec in H2; lia].
    + split; [by eapply standard_http_policy|].
      destruct (standard_present _ _ Hval bs!"http.follow_redirects" _ eq_refl eq_refl) as ([] & E1 & H1 & _);
        try done.
      destruct (read_integer _ _ Hval bs!"http.max_redirects" _ eq_refl eq_refl eq_refl) as (n & E2 & H2).
      apply within_spec in H2. exists b, n. split_and!; [done..|lia|lia|].
      intros ->. apply validate_complete_set_spec in Hval as (_ & _ & _ & Hc).
      apply Hc; by apply standard_related.
Qed.

(** Whatever daemon, queue and job supply, if the standard registry
    materializes attributes for a runner then the executors accept them: the
    retry policy, the HTTP retry policy or the exit codes decode, and timeout,
    capture mode, grace period and redirects are in their ranges. *)
Theorem standard_attributes_executable t daemon_defaults queue_defaults job_values values :
  materialize_attributes t daemon_defaults queue_defaults job_values = success values → executable t values.
Proof. intros Hmat. by eapply validated_executable, materialized_validated. Qed.

(** ** A sample *)

Module Sample.
(** The queue turns redirects on, the daemon bounds them, the job retries. *)
Definition daemon_defaults : AttributeSet :=
  {[ bs!"http.max_redirects" := AttrInt 3; bs!"cli.termination_grace" := AttrDuration (2 * ns_per_s) ]}.
Definition queue_defaults : AttributeSet :=
  {[ bs!"http.follow_redirects" := AttrBool true; bs!"retry.max_attempts" := AttrInt 2 ]}.
Definition job_values : AttributeSet :=
  {[ bs!"retry.max_attempts" := AttrInt 4; bs!"retry.strategy" := text bs!"exponential" ]}.
Definition values : AttributeSet :=
  value_or ∅ (materialize_attributes Http daemon_defaults queue_defaults job_values).

Lemma materialize_attributes_spec_witness :
  materialized (Some Http) daemon_defaults queue_defaults job_values values
  ∧ values !! bs!"retry.max_attempts" = Some (AttrInt 4).
Proof.
  split; [|vm_compute; reflexivity].
  apply (materialize_attributes_spec (Some Http)), success_value_or. vm_compute. reflexivity.
Defined.

Lemma standard_attributes_executable_witness :
  materialize_attributes Http daemon_defaults queue_defaults job_values = success values ∧ executable Http values.
Proof.
  split; [apply success_value_or; vm_compute; reflexivity|].
  apply (standard_attributes_executable Http daemon_defaults queue_defaults job_values), success_value_or.
  vm_compute. reflexivity.
Defined.

(** Redirects without a bound for them are refused, whichever layers say so. *)
Example redirects_need_bound :
  is_success (materialize_attributes Http {[ bs!"http.max_redirects" := AttrInt 0 ]} queue_defaults ∅) = false.
Proof. vm_compute. reflexivity. Qed.
End Sample.
