(* ===== verification/AttributeJson.v ===== *)
(** * Attributes as public JSON: [src/jobu/attribute_registry.cpp]

    The conversion of a set of attributes to the JSON object of the management
    protocol and back, directed by the definitions of a registry: durations
    are whole milliseconds, bytes lower-case hexadecimal, lists and maps
    natural JSON.

    The recursion is bounded by [kMaxAttributeDepth]; the argument [remaining]
    of the recursive functions is [kMaxAttributeDepth - depth].  The JSON text
    encoder is a third-party codec behind [core/json.hpp] and a parameter. *)

From stdpp Require Import base numbers strings list gmap sorting.
From Stdlib Require Import Ascii.
From S2P Require Import Prelude Values OutputCapture CliExitPolicy Binary64 RetryPolicy HttpRetry CronEngine Domain.
From S2P Require Import Attributes AttributeLayers AttributePolicy.
Local Open Scope Z_scope.

Definition kMaxAttributeDepth : nat := 64.

(** ** Scalars *)

(** [duration_cast] truncates towards zero. *)
Definition duration_to_milliseconds (value : Z) : result Error Z :=
  let converted := Z.quot value ns_per_ms in
  _ ← check (converted * ns_per_ms =? value)
        (invalid_value "JobU public duration must be exactly representable in milliseconds");
  success converted.

Definition json_signed_integer (value : JsonValue) : result Error Z :=
  match value with
  | JsonInt n => success n
  | JsonUint n => if n <=? int64_max then success n
                  else failure (invalid_value "JobU attribute requires a signed 64-bit integer")
  | _ => failure (invalid_value "JobU attribute requires a signed 64-bit integer")
  end.

(** [ceil] and [floor] of the least and greatest duration; the multiplication
    of [duration_cast] is in 64 bits. *)
Definition milliseconds_to_duration (value : JsonValue) : result Error Z :=
  count ← json_signed_integer value;
  let minimum := - (- int64_min / ns_per_ms) in
  let maximum := int64_max / ns_per_ms in
  _ ← check (negb ((count <? minimum) || (maximum <? count))) (invalid_value "JobU public duration is out of range");
  let converted := wrap_signed 64 (count * ns_per_ms) in
  _ ← check (Z.quot converted ns_per_ms =? count) (invalid_value "JobU public duration is out of range");
  success converted.

Definition hex_digit (v : Z) : Z := nth (Z.to_nat v) bs!"0123456789abcdef" 0.

Definition bytes_to_hex (data : bytes) : bytes :=
  flat_map (λ value, [hex_digit (Z.shiftr value 4); hex_digit (Z.land value 15)]) data.

Definition hex_value (character : Z) : Z :=
  if (#"0" <=? character) && (character <=? #"9") then character - #"0"
  else if (#"a" <=? character) && (character <=? #"f") then character - #"a" + 10
  else -1.

(** The loop over pairs of characters; a text of odd length was refused. *)
Fixpoint hex_pairs (text : bytes) : option bytes :=
  match text with
  | a :: b :: text =>
      let high := hex_value a in
      let low := hex_value b in
      if (high <? 0) || (low <? 0) then None
      else rest ← hex_pairs text; Some (Z.lor (Z.shiftl high 4) low :: rest)
  | _ => Some []
  end.

Definition hex_to_bytes (text : bytes) : result Error bytes :=
  if negb (Z.of_nat (length text) mod 2 =? 0)
  then failure (invalid_value "JobU byte attribute requires even-length hex")
  else ok_or (hex_pairs text) (invalid_value "JobU byte attribute requires lower-case hexadecimal").

(** ** Natural values *)

(** The loops over the members of a list and of a map. *)
Definition encode_members {V W} (f : bytes → V → result Error W) (members : list (bytes * V))
    : result Error (list (bytes * W)) :=
  encoded ← mapM (λ e, value ← f e.1 e.2; success (e.1, value)) members;
  success (foldl (λ o e, emplace e.1 e.2 o) [] encoded).

Definition nesting_too_deep : Error := invalid_value "JobU attribute nesting is too deep".

Fixpoint natural_value_to_json (remaining : nat) (value : AttributeValue) : result Error JsonValue :=
  match value with
  | AttrBool b => success (JsonBool b)
  | AttrInt n => success (JsonInt n)
  | AttrDouble bits =>
      if isfinite (double_of_bits bits) then success (JsonDouble bits)
      else failure (invalid_value "JobU number attribute must be finite")
  | AttrString s => success (JsonString s)
  | AttrDuration _ | AttrBytes _ =>
      failure (invalid_value "Nested JobU durations and bytes have no public JSON element schema")
  | AttrList l =>
      match remaining with
      | O => failure nesting_too_deep
      | S remaining => JsonArray <$> mapM (natural_value_to_json remaining) l
      end
  | AttrMap m =>
      match remaining with
      | O => failure nesting_too_deep
      | S remaining => JsonObject <$> encode_members (λ _, natural_value_to_json remaining) m
      end
  end.

Fixpoint natural_value_from_json (remaining : nat) (value : JsonValue) : result Error AttributeValue :=
  match value with
  | JsonBool b => success (AttrBool b)
  | JsonInt n => success (AttrInt n)
  | JsonUint n =>
      if int64_max <? n then failure (invalid_value "JobU nested integer is out of range") else success (AttrInt n)
  | JsonDouble bits =>
      if isfinite (double_of_bits bits) then success (AttrDouble bits)
      else failure (invalid_value "JobU nested number must be finite")
  | JsonString s => success (AttrString s)
  | JsonNull => failure (invalid_value "JSON null is not a JobU attribute value")
  | JsonArray l =>
      match remaining with
      | O => failure nesting_too_deep
      | S remaining => AttrList <$> mapM (natural_value_from_json remaining) l
      end
  | JsonObject members =>
      match remaining with
      | O => failure nesting_too_deep
      | S remaining => AttrMap <$> encode_members (λ _, natural_value_from_json remaining) members
      end
  end.

(** ** Values of a definition *)

Definition json_type_mismatch : Error :=
  attribute_error "jobu.attribute.invalid_type" "JobU attribute JSON type does not match its definition".

(** The value has the type of its definition: it has been validated.  For
    another one [std::get] throws, which [json_type_mismatch] stands for. *)
Definition definition_value_to_json (definition : AttributeDefinition) (value : AttributeValue) : result Error JsonValue :=
  match definition_type definition with
  | TypeDuration =>
      match value with
      | AttrDuration duration => milliseconds ← duration_to_milliseconds duration; success (JsonInt milliseconds)
      | _ => failure json_type_mismatch
      end
  | TypeBytes =>
      match value with
      | AttrBytes data => success (JsonString (bytes_to_hex data))
      | _ => failure json_type_mismatch
      end
  | _ => natural_value_to_json kMaxAttributeDepth value
  end.

Definition definition_value_from_json (definition : AttributeDefinition) (value : JsonValue) : result Error AttributeValue :=
  match definition_type definition with
  | TypeBoolean => match value with JsonBool b => success (AttrBool b) | _ => failure json_type_mismatch end
  | TypeInteger => AttrInt <$> json_signed_integer value
  | TypeNumber =>
      match value with
      | JsonDouble bits =>
          if isfinite (double_of_bits bits) then success (AttrDouble bits)
          else failure (invalid_value "JobU number attribute must be finite")
      | JsonInt n | JsonUint n => success (AttrDouble (bits_of_double (double_of_Z n)))
      | _ => failure json_type_mismatch
      end
  | TypeString => match value with JsonString s => success (AttrString s) | _ => failure json_type_mismatch end
  | TypeDuration => AttrDuration <$> milliseconds_to_duration value
  | TypeBytes => match value with JsonString s => AttrBytes <$> hex_to_bytes s | _ => failure json_type_mismatch end
  | TypeList =>
      match value with JsonArray _ => natural_value_from_json kMaxAttributeDepth value | _ => failure json_type_mismatch end
  | TypeMap =>
      match value with JsonObject _ => natural_value_from_json kMaxAttributeDepth value | _ => failure json_type_mismatch end
  end.

(** ** Sets *)

Section Sets.
Context `{AttributeRegistry} (serialize_json : JsonValue → result Error bytes).

Definition value_to_json (scope : AttributeScope) (name : bytes) (value : AttributeValue) : result Error JsonValue :=
  definition ← ok_or (registry_find name) unknown_attribute;
  _ ← registry_validate name value scope;
  definition_value_to_json definition value.

Definition value_from_json (scope : AttributeScope) (name : bytes) (value : JsonValue) : result Error AttributeValue :=
  definition ← ok_or (registry_find name) unknown_attribute;
  _ ← check (test_scope (definition_scopes definition) scope) not_at_this_scope;
  decoded ← definition_value_from_json definition value;
  _ ← registry_validate name decoded scope;
  success decoded.

(** The object that the loop over a set builds. *)
Definition encode_set (scope : AttributeScope) (values : AttributeSet) : result Error (list (bytes * JsonValue)) :=
  encode_members (value_to_json scope) (entries values).

Definition attribute_set_to_json_impl (values : AttributeSet) (scope : AttributeScope) (type : option JobType)
    : result Error JsonValue :=
  object ← encode_set scope values;
  _ ← match type with
      | Some t => validate_materialized_attributes values t
      | None => validate_standard_cross_fields values
      end;
  _ ← match serialize_json (JsonObject object) with
      | success _ => success tt
      | failure _ => failure (invalid_value "JobU attribute text is not valid UTF-8")
      end;
  success (JsonObject match type with
                      | Some t => filter (λ e, name_applies_to e.1 t = true) object
                      | None => object
                      end).

Definition attribute_set_from_json_impl (value : JsonValue) (scope : AttributeScope) (type : option JobType)
    : result Error AttributeSet :=
  match value with
  | JsonObject members =>
      decoded ← mapM (λ e, value ← value_from_json scope e.1 e.2; success (e.1, value)) members;
      let values := foldl (λ values e, emplace_value values e.1 e.2) ∅ decoded in
      _ ← attribute_set_to_json_impl values scope type;
      success values
  | _ => failure (invalid_value "JobU attributes must be a JSON object")
  end.

(** The overloads for a layer and for a runner. *)
Definition attribute_set_to_json (values : AttributeSet) (scope : AttributeScope) : result Error JsonValue :=
  attribute_set_to_json_impl values scope None.
Definition attribute_snapshot_to_json (values : AttributeSet) (type : JobType) : result Error JsonValue :=
  attribute_set_to_json_impl values JobScope (Some type).
Definition attribute_set_from_json (value : JsonValue) (scope : AttributeScope) : result Error AttributeSet :=
  attribute_set_from_json_impl value scope None.
Definition attribute_snapshot_from_json (value : JsonValue) (type : JobType) : result Error AttributeSet :=
  attribute_set_from_json_impl value JobScope (Some type).
End Sets.

(** ** Members and lists that convert one by one *)

Lemma mapM_success {A B} (f : A → result Error B) l k :
  mapM f l = success k ↔ Forall2 (λ x y, f x = success y) l k.
Proof.
  split.
  - revert k. induction l as [|x l IH]; intros k; simpl; [intros [= <-]; constructor|].
    destruct (f x) as [y|] eqn:E; [|done]. simpl. destruct (mapM f l) as [k'|]; [|done].
    intros [= <-]. constructor; [done|by apply IH].
  - induction 1 as [|x y l k E _ IH]; simpl; [done|]. rewrite E. simpl. by rewrite IH.
Qed.

Lemma members_ordered_keys {V W} (m : list (bytes * V)) (o : list (bytes * W)) :
  m.*1 = o.*1 → members_ordered m → members_ordered o.
Proof.
  assert (Hfst : ∀ U (l : list (bytes * U)),
    members_ordered l ↔ StronglySorted (λ a b, bytes_ltb a b = true) l.*1).
  { intros U l. unfold members_ordered. induction l as [|e l IH]; simpl; [split; constructor|].
    rewrite !StronglySorted_cons, IH, Forall_fmap. done. }
  rewrite !Hfst. by intros ->.
Qed.

Lemma encode_members_spec {V W} (f : bytes → V → result Error W) m o :
  members_ordered m →
  encode_members f m = success o ↔ Forall2 (λ e e', e'.1 = e.1 ∧ f e.1 e.2 = success e'.2) m o.
Proof.
  intros Hm. assert (Hiff : ∀ o, mapM (λ e, value ← f e.1 e.2; success (e.1, value)) m = success o ↔
    Forall2 (λ e e', e'.1 = e.1 ∧ f e.1 e.2 = success e'.2) m o).
  { intros o'. rewrite mapM_success. split; intros Ho; (eapply Forall2_impl; [exact Ho|]); intros [k v] [k' w]; simpl.
    - destruct (f k v); simpl; naive_solver.
    - intros [-> ->]. done. }
  assert (Hsame : ∀ o, Forall2 (λ e e', e'.1 = e.1 ∧ f e.1 e.2 = success e'.2) m o →
    foldl (λ o e, emplace e.1 e.2 o) [] o = o).
  { intros o' Ho. apply emplace_all, (members_ordered_keys m); [|done].
    clear -Ho. induction Ho as [|? ? ? ? [E _] _ IH]; [done|]. by rewrite !fmap_cons, E, IH. }
  unfold encode_members. split.
  - destruct (mapM _ m) as [o'|] eqn:E; [|done]. simpl.
    pose proof (proj1 (Hiff o') eq_refl) as Ho. rewrite (Hsame _ Ho). by intros [= <-].
  - intros Ho. rewrite (proj2 (Hiff o) Ho). simpl. by rewrite (Hsame _ Ho).
Qed.

(** Members that read back one by one read back together. *)
Lemma encode_members_back {V W} (f : bytes → V → result Error W) (g : bytes → W → result Error V) m o :
  members_ordered m → (∀ e w, e ∈ m → f e.1 e.2 = success w → g e.1 w = success e.2) →
  encode_members f m = success o → encode_members g o = success m.
Proof.
  intros Hm Hback Ho. apply encode_members_spec in Ho; [|done].
  assert (Hkeys : m.*1 = o.*1).
  { clear -Ho. induction Ho as [|? ? ? ? [E _] _ IH]; [done|]. by rewrite !fmap_cons, E, IH. }
  apply encode_members_spec; [by eapply members_ordered_keys|].
  clear Hm Hkeys. induction Ho as [|e e' m o [E1 E2] _ IH]; constructor.
  - split; [done|]. rewrite E1. apply Hback; [apply list_elem_of_here|done].
  - apply IH. intros x w Hx. apply Hback. by apply list_elem_of_further.
Qed.

Lemma mapM_back {A B} (f : A → result Error B) (g : B → result Error A) l k :
  (∀ x y, x ∈ l → f x = success y → g y = success x) → mapM f l = success k → mapM g k = success l.
Proof.
  intros Hback Hl. apply mapM_success in Hl. apply mapM_success.
  induction Hl as [|x y l k E _ IH]; constructor; [apply Hback; [apply list_elem_of_here|done]|].
  apply IH. intros x' y' Hx. apply Hback. by apply list_elem_of_further.
Qed.

(** ** Hexadecimal *)

Lemma json_hex_digit v : 0 <= v < 16 → hex_value (hex_digit v) = v.
Proof.
  intros Hv. assert (Hall : ∀ n, (n < 16)%nat → hex_value (hex_digit (Z.of_nat n)) = Z.of_nat n)
    by (do 16 (destruct n as [|n]; [done|]); lia).
  specialize (Hall (Z.to_nat v) ltac:(lia)). by rewrite Z2Nat.id in Hall by lia.
Qed.

Lemma nibbles v : is_byte v → Z.lor (Z.shiftl (Z.shiftr v 4) 4) (Z.land v 15) = v.
Proof.
  intros _. apply Z.bits_inj'. intros i Hi. rewrite Z.lor_spec, Z.land_spec, Z.shiftl_spec by lia.
  change 15 with (Z.ones 4). destruct (Z.ltb_spec i 4).
  - rewrite (Z.testbit_neg_r _ (i - 4)), Z.ones_spec_low by lia. by rewrite andb_true_r.
  - rewrite Z.shiftr_spec, Z.ones_spec_high by lia. rewrite andb_false_r, orb_false_r. f_equal. lia.
Qed.

Lemma hex_pairs_back data : Forall is_byte data → hex_pairs (bytes_to_hex data) = Some data.
Proof.
  induction 1 as [|v data Hv _ IH]; [done|]. cbn [bytes_to_hex flat_map app hex_pairs]. unfold is_byte in Hv.
  rewrite !json_hex_digit.
  - assert (0 <= Z.shiftr v 4) by (rewrite Z.shiftr_div_pow2 by lia; apply Z.div_pos; lia).
    assert (0 <= Z.land v 15) by (apply Z.land_nonneg; lia).
    rewrite !(proj2 (Z.ltb_ge _ _)) by done. cbn [orb]. rewrite nibbles by done.
    change (flat_map _ data) with (bytes_to_hex data). by rewrite IH.
  - change 15 with (Z.ones 4). rewrite Z.land_ones by lia. apply Z.mod_pos_bound. lia.
  - rewrite Z.shiftr_div_pow2 by lia. split; [apply Z.div_pos; lia|apply Z.div_lt_upper_bound; lia].
Qed.

Lemma length_bytes_to_hex data : Z.of_nat (length (bytes_to_hex data)) mod 2 = 0.
Proof.
  replace (length (bytes_to_hex data)) with (2 * length data)%nat.
  - rewrite Nat2Z.inj_mul, Z.mul_comm. apply Z.mod_mul. lia.
  - induction data as [|v data IH]; [done|]. cbn [bytes_to_hex flat_map app length].
    change (flat_map _ data) with (bytes_to_hex data). lia.
Qed.

Lemma hex_to_bytes_back data : Forall is_byte data → hex_to_bytes (bytes_to_hex data) = success data.
Proof. intros Hd. unfold hex_to_bytes. by rewrite length_bytes_to_hex, hex_pairs_back. Qed.

(** ** Values *)

(** What the types of the program already say of a value: durations are 64-bit
    counts, bytes are bytes, maps are sorted by key. *)
Fixpoint value_ok (value : AttributeValue) : Prop :=
  match value with
  | AttrDuration ns => in_int64 ns
  | AttrBytes data => Forall is_byte data
  | AttrList l => foldr (λ v P, value_ok v ∧ P) True l
  | AttrMap m => members_ordered m ∧ foldr (λ e P, value_ok e.2 ∧ P) True m
  | _ => True
  end.

Lemma foldr_and {A} (P : A → Prop) l : foldr (λ x Q, P x ∧ Q) True l ↔ ∀ x, x ∈ l → P x.
Proof.
  induction l as [|x l IH]; simpl; [by split; [intros _ x Hx%elem_of_nil|]|]. rewrite IH.
  setoid_rewrite elem_of_cons. naive_solver.
Qed.

Lemma natural_value_back remaining value json :
  value_ok value → natural_value_to_json remaining value = success json →
  natural_value_from_json remaining json = success value.
Proof.
  revert value json. induction remaining as [|remaining IH]; intros value json Hok Hj; destruct value;
    cbn [natural_value_to_json] in Hj; try discriminate Hj; try (injection Hj as <-; reflexivity);
    try (destruct (isfinite _) eqn:E; [injection Hj as <-|discriminate Hj]; cbn [natural_value_from_json];
         rewrite E; reflexivity).
  - destruct (mapM _ l) as [k|] eqn:E; [|done]. injection Hj as <-. cbn [natural_value_from_json].
    cbn [value_ok] in Hok. rewrite foldr_and in Hok.
    by rewrite (mapM_back _ (natural_value_from_json remaining) _ _ (λ x y Hx, IH x y (Hok x Hx)) E).
  - destruct (encode_members _ m) as [o|] eqn:E; [|done]. injection Hj as <-. cbn [natural_value_from_json].
    cbn [value_ok] in Hok. destruct Hok as [Hm Hok]. rewrite (foldr_and (λ e, value_ok e.2)) in Hok.
    by rewrite (encode_members_back _ (λ _, natural_value_from_json remaining) _ _ Hm (λ e w He, IH e.2 w (Hok e He)) E).
Qed.

Lemma duration_back duration milliseconds :
  in_int64 duration → duration_to_milliseconds duration = success milliseconds →
  milliseconds_to_duration (JsonInt milliseconds) = success duration.
Proof.
  unfold duration_to_milliseconds, in_int64. intros Hd. rewrite result_unit_bind, kind_check_success, Z.eqb_eq.
  intros [Hq [= <-]]. remember (Z.quot duration ns_per_ms) as ms eqn:Hms.
  assert (Hback : Z.quot duration 1000000 = ms) by done. unfold milliseconds_to_duration.
  cbn [json_signed_integer mbind result_bind]. unfold ns_per_ms, int64_min, int64_max in *.
  clear Hms. assert (Hlo : - ms <= - - 2 ^ 63 / 1000000) by (apply Z.div_le_lower_bound; lia).
  assert (Hhi : ms <= (2 ^ 63 - 1) / 1000000) by (apply Z.div_le_lower_bound; lia).
  assert (Hlo' : - (- - 2 ^ 63 / 1000000) <= ms) by lia.
  rewrite !(proj2 (Z.ltb_ge _ _)) by done. cbn [orb negb check mbind result_bind].
  rewrite wrap_signed_id by lia. rewrite Hq, Hback. by rewrite Z.eqb_refl.
Qed.

Lemma definition_value_back definition value json :
  has_attribute_type value (definition_type definition) = true → value_ok value →
  definition_value_to_json definition value = success json →
  definition_value_from_json definition json = success value.
Proof.
  unfold definition_value_to_json, definition_value_from_json. generalize kMaxAttributeDepth. intros depth Ht Hok Hj.
  pose proof (λ Hn, natural_value_back depth value json Hok Hn) as Hback.
  destruct (definition_type definition), value; try discriminate Ht;
    try (destruct depth; injection Hj as <-; reflexivity).
  - destruct depth; cbn [natural_value_to_json] in Hj; (destruct (isfinite _) eqn:E; [|discriminate Hj]);
      injection Hj as <-; by rewrite E.
  - destruct (duration_to_milliseconds ns) as [ms|] eqn:E; [|done]. injection Hj as <-.
    by rewrite (duration_back _ _ Hok E).
  - injection Hj as <-. by rewrite (hex_to_bytes_back _ Hok).
  - specialize (Hback Hj). destruct depth; [done|]. cbn [natural_value_to_json] in Hj.
    destruct (mapM _ l); [|done]. by injection Hj as <-.
  - specialize (Hback Hj). destruct depth; [done|]. cbn [natural_value_to_json] in Hj.
    destruct (encode_members _ m); [|done]. by injection Hj as <-.
Qed.

Section Back.
Context `{AttributeRegistry} `{!RegistryContract} (serialize_json : JsonValue → result Error bytes).

Lemma value_back scope name value json :
  value_ok value → value_to_json scope name value = success json →
  value_from_json scope name json = success value.
Proof.
  unfold value_to_json, value_from_json. intros Hok Hj.
  destruct (registry_find name) as [d|] eqn:Hd; [|done]. cbn [ok_or mbind result_bind] in *.
  apply result_unit_bind in Hj as [Hv Hj]. destruct (validated_typed _ _ _ Hv) as (d' & Hd' & Hs & Ht).
  assert (d' = d) as -> by congruence. rewrite Hs. cbn [check mbind result_bind].
  rewrite (definition_value_back _ _ _ Ht Hok Hj). cbn [mbind result_bind]. by rewrite Hv.
Qed.

(** Rebuilding a set from its members, whatever order they come in. *)
Lemma emplace_values_from (l : list (bytes * AttributeValue)) (values : AttributeSet) :
  NoDup l.*1 → (∀ e, e ∈ l → values !! e.1 = None) →
  foldl (λ values e, emplace_value values e.1 e.2) values l = list_to_map l ∪ values.
Proof.
  revert values. induction l as [|[k v] l IH]; intros values Hnd Hnew; simpl; [by rewrite (left_id_L ∅ (∪))|].
  apply NoDup_cons in Hnd as [Hfresh Hnd]. unfold emplace_value at 2. pose proof (Hnew (k, v) (list_elem_of_here _ _)) as Hk. simpl in Hk. rewrite Hk.
  rewrite IH; [|done|].
  - apply map_eq. intros n. rewrite !lookup_union. destruct (decide (n = k)) as [->|Hne].
    + rewrite !lookup_insert_eq, not_elem_of_list_to_map_1 by done. by rewrite Hk.
    + by rewrite !lookup_insert_ne by done.
  - intros e He. rewrite lookup_insert_ne; [by apply Hnew, list_elem_of_further|].
    intros Heq. apply Hfresh. simpl. rewrite Heq. by apply (list_elem_of_fmap_2 fst).
Qed.

Lemma emplace_entries (values : AttributeSet) :
  foldl (λ values e, emplace_value values e.1 e.2) ∅ (entries values) = values.
Proof.
  rewrite emplace_values_from; [|apply members_ordered_NoDup, entries_members_ordered|done].
  by rewrite entries_of_list, (right_id_L ∅ (∪)).
Qed.

(** The object of a set has the set's members, in order. *)
Lemma encode_set_spec scope values object :
  encode_set scope values = success object ↔
  Forall2 (λ e e', e'.1 = e.1 ∧ value_to_json scope e.1 e.2 = success e'.2) (entries values) object.
Proof. apply encode_members_spec, entries_members_ordered. Qed.

Lemma decode_set_back scope values object :
  (∀ name value, values !! name = Some value → value_ok value) →
  encode_set scope values = success object →
  mapM (λ e, value ← value_from_json scope e.1 e.2; success (e.1, value)) object = success (entries values).
Proof.
  intros Hok Ho. apply encode_set_spec in Ho. apply mapM_success.
  assert (Hall : Forall (λ e, value_ok e.2) (entries values)).
  { apply Forall_forall. intros [k v] Hin%elem_of_entries. by eapply Hok. }
  induction Ho as [|[k v] [k' w] m o [E1 E2] _ IH]; [constructor|]. inv Hall. simpl in *. subst.
  constructor; [|by apply IH]. simpl. by rewrite (value_back _ _ _ _ ltac:(done) E2).
Qed.

(** What the public JSON of a layer of attributes says is what the layer
    holds: encoding a set and decoding the object gives the set back, for any
    registry that keeps the contract. *)
Theorem attribute_set_json_back values scope json :
  (∀ name value, values !! name = Some value → value_ok value) →
  attribute_set_to_json serialize_json values scope = success json →
  attribute_set_from_json serialize_json json scope = success values.
Proof.
  intros Hok Hj. pose proof Hj as Hagain. unfold attribute_set_to_json, attribute_set_to_json_impl in Hj.
  destruct (encode_set scope values) as [object|] eqn:Ho; [|done]. cbn [mbind result_bind] in Hj.
  apply result_unit_bind in Hj as [_ Hj]. apply result_unit_bind in Hj as [_ [= <-]].
  unfold attribute_set_from_json, attribute_set_from_json_impl. rewrite (decode_set_back _ _ _ Hok Ho).
  cbn [mbind result_bind]. rewrite emplace_entries. unfold attribute_set_to_json in Hagain. by rewrite Hagain.
Qed.
End Back.

(** ** A sample *)

Module PublicSample.
Definition layer : AttributeSet :=
  <[ bs!"job.timeout" := AttrDuration (90 * ns_per_s) ]> (<[ bs!"retry.multiplier" := AttrDouble bits_two ]>
  {[ bs!"cli.retry_exit_codes" := AttrList [text bs!"1"; text bs!"3-7"] ]}).

Definition object : JsonValue := JsonObject
  [(bs!"cli.retry_exit_codes", JsonArray [JsonString bs!"1"; JsonString bs!"3-7"]);
   (bs!"job.timeout", JsonInt 90000); (bs!"retry.multiplier", JsonDouble bits_two)].

Lemma attribute_set_json_back_witness :
  attribute_set_to_json (λ _, success []) layer QueueDefault = success object
  ∧ attribute_set_from_json (λ _, success []) object QueueDefault = success layer.
Proof.
  split; [vm_compute; reflexivity|]. apply attribute_set_json_back; [|vm_compute; reflexivity].
  intros name value Hl. unfold layer in Hl.
  apply lookup_insert_Some in Hl as [[_ <-]|[_ Hl]]; [by vm_compute|].
  apply lookup_insert_Some in Hl as [[_ <-]|[_ Hl]]; [by vm_compute|].
  apply lookup_singleton_Some in Hl as [_ <-]. by vm_compute.
Defined.

(** A duration that is not a whole number of milliseconds has no public form. *)
Example fraction_of_millisecond :
  is_success (attribute_set_to_json (λ _, success []) {[ bs!"job.timeout" := AttrDuration 1500000 ]} JobScope) = false.
Proof. vm_compute. reflexivity. Qed.
End PublicSample.
