(* ===== verification/AttributeCodec.v ===== *)
(** * Attributes as stored documents: [src/jobu/attribute_codec_priv.cpp]

    A stored document tags every value with its type, so that nested durations
    and bytes survive; a materialized document is completed with built-in
    values when it is read.  The hexadecimal functions of the file are those of
    [attribute_registry.cpp], modelled in [AttributeJson].  [remaining] is
    [kMaxAttributeDepth - depth]. *)

From stdpp Require Import base numbers strings list gmap sorting.
From Stdlib Require Import Ascii.
From S2P Require Import Prelude TextValidation Values OutputCapture CliExitPolicy Binary64 RetryPolicy HttpRetry.
From S2P Require Import CronEngine Domain Attributes AttributeLayers AttributePolicy AttributeJson.
Local Open Scope Z_scope.

Definition kAttributeDocumentVersion : Z := 1.

Definition invalid_document (reason : string) : Error :=
  mkError Internal "jobu.attribute.invalid_document" "Persisted JobU attribute document is invalid"
    (if bool_decide (reason = "") then "" else "reason=" +:+ reason).

(** [Object::find]. *)
Fixpoint find_member (object : list (bytes * JsonValue)) (name : bytes) : option JsonValue :=
  match object with
  | [] => None
  | (k, v) :: object => if bytes_eqb k name then Some v else find_member object name
  end.

Definition signed_integer (value : JsonValue) : result Error Z :=
  match value with
  | JsonInt n => success n
  | JsonUint n => if n <=? int64_max then success n else failure (invalid_document "integer_out_of_range")
  | _ => failure (invalid_document "integer_out_of_range")
  end.

(** [jb::core::Duration] counts nanoseconds: the casts are identities. *)
Definition duration_to_nanoseconds (value : Z) : result Error Z := success value.

Definition nanoseconds_to_duration (value : JsonValue) : result Error Z :=
  count ← signed_integer value;
  _ ← check (negb ((count <? int64_min) || (int64_max <? count))) (invalid_document "duration_out_of_range");
  success count.

Definition document_hex (value : JsonValue) : result Error bytes :=
  match value with
  | JsonString text =>
      if negb (Z.of_nat (length text) mod 2 =? 0) then failure (invalid_document "invalid_hex")
      else ok_or (hex_pairs text) (invalid_document "invalid_hex")
  | _ => failure (invalid_document "invalid_hex")
  end.

(** [Object{{"type", tag}, {"value", value}}]. *)
Definition tagged (tag : bytes) (value : JsonValue) : JsonValue :=
  JsonObject [(bs!"type", JsonString tag); (bs!"value", value)].

Definition text_not_utf8 : Error := invalid_value "JobU attribute text is not valid UTF-8".

Fixpoint typed_value_to_json (remaining : nat) (value : AttributeValue) : result Error JsonValue :=
  match value with
  | AttrBool b => success (tagged bs!"boolean" (JsonBool b))
  | AttrInt n => success (tagged bs!"integer" (JsonInt n))
  | AttrDouble bits =>
      _ ← check (isfinite (double_of_bits bits)) (invalid_value "JobU number attribute must be finite");
      success (tagged bs!"number" (JsonDouble bits))
  | AttrString text =>
      _ ← check (is_valid_utf8 text) text_not_utf8;
      success (tagged bs!"string" (JsonString text))
  | AttrDuration duration =>
      nanoseconds ← duration_to_nanoseconds duration;
      success (tagged bs!"duration_ns" (JsonInt nanoseconds))
  | AttrBytes data => success (tagged bs!"bytes_hex" (JsonString (bytes_to_hex data)))
  | AttrList l =>
      match remaining with
      | O => failure nesting_too_deep
      | S remaining =>
          array ← mapM (typed_value_to_json remaining) l;
          success (tagged bs!"list" (JsonArray array))
      end
  | AttrMap m =>
      match remaining with
      | O => failure nesting_too_deep
      | S remaining =>
          object ← encode_members (λ name entry, _ ← check (is_valid_utf8 name) text_not_utf8;
                                                 typed_value_to_json remaining entry) m;
          success (tagged bs!"map" (JsonObject object))
      end
  end.

Fixpoint typed_value_from_json (remaining : nat) (value : JsonValue) : result Error AttributeValue :=
  match value with
  | JsonObject members =>
      if negb (Z.of_nat (length members) =? 2) then failure (invalid_document "typed_value_shape")
      else match find_member members bs!"type", find_member members bs!"value" with
      | Some (JsonString tag), Some payload =>
          if negb (is_valid_utf8 tag) then failure (invalid_document "invalid_utf8")
          else if bytes_eqb tag bs!"boolean" then
            match payload with JsonBool b => success (AttrBool b) | _ => failure (invalid_document "boolean_shape") end
          else if bytes_eqb tag bs!"integer" then AttrInt <$> signed_integer payload
          else if bytes_eqb tag bs!"number" then
            match payload with
            | JsonDouble bits => if isfinite (double_of_bits bits) then success (AttrDouble bits)
                                 else failure (invalid_document "number_shape")
            | _ => failure (invalid_document "number_shape")
            end
          else if bytes_eqb tag bs!"string" then
            match payload with
            | JsonString text => if is_valid_utf8 text then success (AttrString text)
                                 else failure (invalid_document "invalid_utf8")
            | _ => failure (invalid_document "string_shape")
            end
          else if bytes_eqb tag bs!"duration_ns" then AttrDuration <$> nanoseconds_to_duration payload
          else if bytes_eqb tag bs!"bytes_hex" then AttrBytes <$> document_hex payload
          else if negb (bytes_eqb tag bs!"list") && negb (bytes_eqb tag bs!"map")
          then failure (invalid_document "unknown_type_tag")
          else match remaining with
          | O => failure (invalid_document "nesting_too_deep")
          | S remaining =>
              if bytes_eqb tag bs!"list" then
                match payload with
                | JsonArray entries => AttrList <$> mapM (typed_value_from_json remaining) entries
                | _ => failure (invalid_document "list_shape")
                end
              else
                match payload with
                | JsonObject entries =>
                    AttrMap <$> encode_members (λ name entry,
                      _ ← check (is_valid_utf8 name) (invalid_document "invalid_utf8");
                      typed_value_from_json remaining entry) entries
                | _ => failure (invalid_document "map_shape")
                end
          end
      | _, _ => failure (invalid_document "typed_value_shape")
      end
  | _ => failure (invalid_document "typed_value_shape")
  end.

Section Documents.
Context `{AttributeRegistry} (serialize_json : JsonValue → result Error bytes).

Definition validate_encoding (values : AttributeSet) (scope : AttributeScope) (mode : AttributeDocumentMode)
    (type : option JobType) : result Error unit :=
  _ ← check (negb (bool_decide (mode = Materialized) && negb (bool_decide (scope = JobScope))))
        (invalid_value "Materialized JobU attributes require Job scope");
  _ ← validate_set values scope;
  match mode, type with
  | PartialDocument, _ => success tt
  | Materialized, Some t => validate_materialized_attributes values t
  | Materialized, None =>
      _ ← for_each (λ d, check (negb (test_scope (definition_scopes d) JobScope
                                      && negb (is_some (values !! definition_name d))))
                           (invalid_value "Materialized JobU attributes are incomplete")) registry_definitions;
      _ ← materialize_all_attributes ∅ ∅ values;
      success tt
  end.

Definition encode_attribute_document (values : AttributeSet) (scope : AttributeScope) (mode : AttributeDocumentMode)
    (type : option JobType) : result Error JsonValue :=
  _ ← validate_encoding values scope mode type;
  encoded ← encode_members (λ _, typed_value_to_json kMaxAttributeDepth) (entries values);
  success (JsonObject [(bs!"values", JsonObject encoded); (bs!"version", JsonUint kAttributeDocumentVersion)]).

Definition encode_and_serialize_attribute_document (values : AttributeSet) (scope : AttributeScope)
    (mode : AttributeDocumentMode) (type : option JobType) : result Error bytes :=
  encoded ← encode_attribute_document values scope mode type;
  match serialize_json encoded with success text => success text | failure _ => failure text_not_utf8 end.

(** The loop over the members of a document; the error of a refused value
    becomes the reason. *)
Definition decode_document_value (scope : AttributeScope) (name : bytes) (encoded : JsonValue)
    : result Error AttributeValue :=
  _ ← check (is_valid_utf8 name) (invalid_document "invalid_utf8");
  definition ← ok_or (registry_find name) (invalid_document "unknown_attribute");
  _ ← check (test_scope (definition_scopes definition) scope) (invalid_document "invalid_scope");
  decoded ← typed_value_from_json kMaxAttributeDepth encoded;
  match registry_validate name decoded scope with
  | success _ => success decoded
  | failure e => failure (invalid_document (code e))
  end.

Definition version_accepted (version : JsonValue) : bool :=
  match version with
  | JsonUint n | JsonInt n => n =? kAttributeDocumentVersion
  | _ => false
  end.

(** [materialized->merge(result)]: the members of [result] whose names are new. *)
Definition merge (materialized result : AttributeSet) : AttributeSet := materialized ∪ result.

Definition decode_attribute_document (document : JsonValue) (scope : AttributeScope) (mode : AttributeDocumentMode)
    (type : option JobType) : result Error AttributeSet :=
  match document with
  | JsonObject members =>
      if negb (Z.of_nat (length members) =? 2) then failure (invalid_document "document_shape")
      else match find_member members bs!"version", find_member members bs!"values" with
      | Some version, Some (JsonObject stored) =>
          _ ← check (version_accepted version) (invalid_document "document_shape");
          _ ← check (negb (bool_decide (mode = Materialized) && negb (bool_decide (scope = JobScope))))
                (invalid_document "materialized_scope");
          decoded ← mapM (λ e, value ← decode_document_value scope e.1 e.2; success (e.1, value)) stored;
          let result := foldl (λ values e, emplace_value values e.1 e.2) ∅ decoded in
          match mode with
          | PartialDocument => success result
          | Materialized =>
              let complete := match type with
                              | Some t => materialize_attributes t ∅ ∅ (applicable_to t result)
                              | None => materialize_all_attributes ∅ ∅ result
                              end in
              match complete with
              | success materialized => success (merge materialized result)
              | failure e => failure (invalid_document (code e))
              end
          end
      | _, _ => failure (invalid_document "document_shape")
      end
  | _ => failure (invalid_document "document_shape")
  end.
End Documents.

(** ** Values *)

Lemma nanoseconds_back duration : in_int64 duration → nanoseconds_to_duration (JsonInt duration) = success duration.
Proof.
  intros [Hlo Hhi]. unfold nanoseconds_to_duration. cbn [signed_integer mbind result_bind].
  by rewrite !(proj2 (Z.ltb_ge _ _)) by done.
Qed.

Lemma document_hex_back data : Forall is_byte data → document_hex (JsonString (bytes_to_hex data)) = success data.
Proof. intros Hd. unfold document_hex. by rewrite length_bytes_to_hex, hex_pairs_back. Qed.

(** The decoder on the tagged forms that the encoder writes. *)
Lemma decode_number remaining bits :
  typed_value_from_json remaining (tagged bs!"number" (JsonDouble bits)) =
  if isfinite (double_of_bits bits) then success (AttrDouble bits) else failure (invalid_document "number_shape").
Proof. by destruct remaining. Qed.

Lemma decode_string remaining text :
  typed_value_from_json remaining (tagged bs!"string" (JsonString text)) =
  if is_valid_utf8 text then success (AttrString text) else failure (invalid_document "invalid_utf8").
Proof. by destruct remaining. Qed.

Lemma decode_duration remaining payload :
  typed_value_from_json remaining (tagged bs!"duration_ns" payload) = AttrDuration <$> nanoseconds_to_duration payload.
Proof. by destruct remaining. Qed.

Lemma decode_bytes remaining payload :
  typed_value_from_json remaining (tagged bs!"bytes_hex" payload) = AttrBytes <$> document_hex payload.
Proof. by destruct remaining. Qed.

Lemma decode_list remaining l :
  typed_value_from_json (S remaining) (tagged bs!"list" (JsonArray l)) =
  AttrList <$> mapM (typed_value_from_json remaining) l.
Proof. done. Qed.

Lemma decode_map remaining o :
  typed_value_from_json (S remaining) (tagged bs!"map" (JsonObject o)) =
  AttrMap <$> encode_members (λ name entry,
    _ ← check (is_valid_utf8 name) (invalid_document "invalid_utf8");
    typed_value_from_json remaining entry) o.
Proof. done. Qed.

Lemma typed_value_back remaining value json :
  value_ok value → typed_value_to_json remaining value = success json →
  typed_value_from_json remaining json = success value.
Proof.
  revert value json. induction remaining as [|remaining IH]; intros value json Hok Hj; destruct value;
    cbn [typed_value_to_json] in Hj; unfold duration_to_nanoseconds in Hj; cbn [mbind result_bind] in Hj;
    try discriminate Hj; try (injection Hj as <-; reflexivity);
    try (apply result_unit_bind in Hj as [E%kind_check_success Hj]; injection Hj as <-;
         rewrite ?decode_number, ?decode_string, E; reflexivity);
    try (injection Hj as <-; rewrite decode_duration, (nanoseconds_back _ Hok); reflexivity);
    try (injection Hj as <-; rewrite decode_bytes, (document_hex_back _ Hok); reflexivity).
  - destruct (mapM _ l) as [k|] eqn:E; [|done]. injection Hj as <-.
    rewrite decode_list. cbn [value_ok] in Hok. rewrite foldr_and in Hok.
    by rewrite (mapM_back _ (typed_value_from_json remaining) _ _ (λ x y Hx, IH x y (Hok x Hx)) E).
  - destruct (encode_members _ m) as [o|] eqn:E; [|done]. injection Hj as <-.
    rewrite decode_map. cbn [value_ok] in Hok. destruct Hok as [Hm Hok]. rewrite (foldr_and (λ e, value_ok e.2)) in Hok.
    eapply encode_members_back in E; [by rewrite E|done|].
    intros e w He Hw. apply result_unit_bind in Hw as [Hn%kind_check_success Hw]. rewrite Hn. by eapply IH; [apply Hok|].
Qed.

(** ** Documents *)

(** Registered names are lower-case dotted identifiers, so they are valid text. *)
Class TextNames `{AttributeRegistry} : Prop :=
  names_utf8 name d : registry_find name = Some d → is_valid_utf8 name = true.

Section DocumentsBack.
Context `{AttributeRegistry} `{!RegistryContract} `{!TextNames}.

Lemma document_value_back scope name value json :
  value_ok value → registry_validate name value scope = success tt →
  typed_value_to_json kMaxAttributeDepth value = success json →
  decode_document_value scope name json = success value.
Proof.
  unfold decode_document_value. generalize kMaxAttributeDepth. intros depth Hok Hv Hj.
  destruct (validated_typed _ _ _ Hv) as (d & Hd & Hs & _). rewrite (names_utf8 _ _ Hd), Hd. cbn [check ok_or mbind result_bind].
  rewrite Hs. cbn [check mbind result_bind]. rewrite (typed_value_back _ _ _ Hok Hj). cbn [mbind result_bind].
  by rewrite Hv.
Qed.

Lemma document_members_back scope values stored :
  (∀ name value, values !! name = Some value → value_ok value) → valid_at values scope →
  encode_members (λ _, typed_value_to_json kMaxAttributeDepth) (entries values) = success stored →
  mapM (λ e, value ← decode_document_value scope e.1 e.2; success (e.1, value)) stored = success (entries values).
Proof.
  intros Hok Hv Ho. apply encode_members_spec in Ho; [|apply entries_members_ordered]. apply mapM_success.
  assert (Hall : Forall (λ e, value_ok e.2 ∧ registry_validate e.1 e.2 scope = success tt) (entries values)).
  { apply Forall_forall. intros [k v] Hin%elem_of_entries. split; [by eapply Hok|by apply Hv]. }
  induction Ho as [|[k v] [k' w] m o [E1 E2] _ IH]; [constructor|]. apply Forall_cons in Hall as [[Hk1 Hk2] Hall].
  cbn [fst snd] in *. subst. constructor; [|by apply IH]. cbn [fst snd]. by rewrite (document_value_back _ _ _ _ Hk1 Hk2 E2).
Qed.

(** A complete set is its own materialization. *)
Lemma complete_materializes t values :
  valid_at values JobScope → complete (Some t) values → consistent (applicable_to t values) →
  materialize_attributes t ∅ ∅ (applicable_to t values) = success (applicable_to t values).
Proof.
  intros Hv Hc Hx. apply materialize_layers.
  assert (Hva : valid_at (applicable_to t values) JobScope) by apply (valid_applicable (Some t) _ _ Hv).
  split; try done.
  - intros t' name [= <-] [value [_ Ha]%map_lookup_filter_Some]. done.
  - intros name. unfold layered. rewrite !lookup_empty, !(left_id_L None (∪)).
    destruct (built_in (Some t) name) as [default|] eqn:Hb.
    + rewrite (built_in_applies _ _ _ Hb). pose proof (built_in_applies _ _ _ Hb) as Ha. unfold built_in in Hb.
      destruct (registry_find name) as [d|] eqn:Hf; [|done]. destruct (eligible (Some t) d) eqn:He; [|done].
      apply found_defined in Hf as [<- Hd]. destruct (Hc d Hd He) as [value Hl].
      assert (applicable_to t values !! definition_name d = Some value) as -> by by apply map_lookup_filter_Some.
      done.
    + destruct (name_applies_if (Some t) name) eqn:Ha; [by destruct (applicable_to t values !! name)|].
      apply map_lookup_filter_None. right. intros value _ Ha'. simpl in *. congruence.
Qed.

Lemma complete_materializes_all values result :
  complete None values → materialize_all_attributes ∅ ∅ values = success result → result = values.
Proof.
  intros Hc Hm%materialize_layers. destruct Hm as [_ _ _ _ _ Hl _ _]. apply map_eq. intros name. rewrite Hl.
  unfold layered. rewrite !lookup_empty, !(left_id_L None (∪)). simpl.
  destruct (values !! name) eqn:Hv; [by destruct (built_in None name)|].
  unfold built_in. destruct (registry_find name) as [d|] eqn:Hf; [|done]. destruct (eligible None d) eqn:He; [|done].
  apply found_defined in Hf as [<- Hd]. destruct (Hc d Hd He) as [value Hl']. congruence.
Qed.

(** What [validate_encoding] has checked of the set it accepts. *)
Lemma validate_encoding_spec values scope mode type :
  validate_encoding values scope mode type = success tt →
  (mode = Materialized → scope = JobScope) ∧ valid_at values scope ∧
  (mode = Materialized →
     match type with
     | Some t => materialize_attributes t ∅ ∅ (applicable_to t values) = success (applicable_to t values)
     | None => materialize_all_attributes ∅ ∅ values = success values
     end).
Proof.
  unfold validate_encoding. rewrite !result_unit_bind, kind_check_success, validate_set_spec. intros (Hs & Hv & Hm).
  assert (Hscope : mode = Materialized → scope = JobScope).
  { intros ->. rewrite bool_decide_eq_true_2 in Hs by done. simpl in Hs. rewrite negb_involutive in Hs.
    by apply bool_decide_eq_true in Hs. }
  split; [done|]. split; [done|]. intros ->. specialize (Hscope eq_refl). subst. destruct type as [t|].
  - apply validate_complete_set_spec in Hm as (_ & Hc & Hx). by apply complete_materializes.
  - apply result_unit_bind in Hm as [Hc Hm].
    destruct (materialize_all_attributes ∅ ∅ values) as [r|] eqn:Hr; [|done].
    rewrite (complete_materializes_all values r); [done| |done].
    intros d Hd He. rewrite for_each_success, Forall_forall in Hc. specialize (Hc d Hd).
    rewrite kind_check_success, negb_true_iff, andb_false_iff, negb_false_iff in Hc.
    unfold eligible in He. simpl in He. rewrite andb_true_r in He.
    destruct Hc as [?|Hc]; [congruence|]. by destruct (values !! definition_name d).
Qed.

(** C20.  A stored document reads back as the set it was written from: every
    value with its type, partial documents without additions, and materialized
    ones, with the attributes of the other runner kept and nothing refilled. *)
Theorem attribute_document_back values scope mode type document :
  (∀ name value, values !! name = Some value → value_ok value) →
  encode_attribute_document values scope mode type = success document →
  decode_attribute_document document scope mode type = success values.
Proof.
  intros Hok Hd. unfold encode_attribute_document in Hd. apply result_unit_bind in Hd as [He Hd].
  destruct (validate_encoding_spec _ _ _ _ He) as (Hs & Hv & Hm).
  destruct (encode_members _ (entries values)) as [stored|] eqn:Hst; [|done]. injection Hd as <-.
  unfold decode_attribute_document. cbn [length find_member].
  change (Z.of_nat 2 =? 2) with true. cbn [negb].
  change (bytes_eqb bs!"values" bs!"version") with false. change (bytes_eqb bs!"version" bs!"version") with true.
  change (bytes_eqb bs!"values" bs!"values") with true. cbn [version_accepted]. rewrite Z.eqb_refl.
  cbn [check mbind result_bind].
  assert (negb (bool_decide (mode = Materialized) && negb (bool_decide (scope = JobScope))) = true) as ->.
  { destruct mode; [done|]. by rewrite (bool_decide_eq_true_2 (scope = JobScope)) by auto. }
  cbn [check mbind result_bind]. rewrite (document_members_back _ _ _ Hok Hv Hst). cbn [mbind result_bind].
  rewrite emplace_entries. destruct mode; [done|]. specialize (Hm eq_refl).
  destruct type as [t|]; rewrite Hm; f_equal; unfold merge; apply map_eq; intros name; rewrite lookup_union.
  - destruct (applicable_to t values !! name) as [v|] eqn:E; [|by destruct (values !! name)].
    apply map_lookup_filter_Some in E as [-> _]. done.
  - by destruct (values !! name).
Qed.

Lemma emplaced_elem (l : list (bytes * AttributeValue)) (values : AttributeSet) name value :
  foldl (λ values e, emplace_value values e.1 e.2) values l !! name = Some value →
  (name, value) ∈ l ∨ values !! name = Some value.
Proof.
  revert values. induction l as [|[k v] l IH]; intros values; cbn [foldl fst snd]; [by right|].
  intros [Hin|Hl]%IH; [left; by apply list_elem_of_further|]. unfold emplace_value in Hl.
  destruct (values !! k); [by right|]. apply lookup_insert_Some in Hl as [[-> ->]|[_ Hl]]; [|by right].
  left. apply list_elem_of_here.
Qed.

Lemma decoded_members_valid scope stored decoded :
  mapM (λ e, value ← decode_document_value scope e.1 e.2; success (e.1, value)) stored = success decoded →
  valid_at (foldl (λ values e, emplace_value values e.1 e.2) ∅ decoded) scope.
Proof.
  intros Hm%mapM_success name value [Hin|Hl]%emplaced_elem; [|done].
  apply list_elem_of_lookup in Hin as [i Hi]. destruct (Forall2_lookup_r _ _ _ _ _ Hm Hi) as ([k w] & _ & Hd).
  cbn [fst snd] in Hd. destruct (decode_document_value scope k w) as [v|] eqn:E; [|done]. injection Hd as -> ->.
  revert E. unfold decode_document_value. generalize kMaxAttributeDepth. intros depth E.
  apply result_unit_bind in E as [_ E]. destruct (registry_find name); [|done]. cbn [ok_or mbind result_bind] in E.
  apply result_unit_bind in E as [_ E]. destruct (typed_value_from_json depth w); [|done].
  cbn [mbind result_bind] in E. destruct (registry_validate name _ scope) as [[]|] eqn:Hv; [|done].
  by injection E as <-.
Qed.

(** Completing a set and keeping its other members validates. *)
Lemma completed_validated t result completed :
  valid_at result JobScope → materialize_attributes t ∅ ∅ (applicable_to t result) = success completed →
  validate_materialized_attributes (merge completed result) t = success tt.
Proof.
  intros Hr Hm%materialize_layers. destruct Hm as [_ _ _ _ _ Hl Hv Hc]. unfold merge.
  apply validate_complete_set_spec.
  assert (Happ : applicable (Some t) (completed ∪ result) = completed).
  { apply map_eq. intros name. cbn [applicable]. unfold applicable_to. rewrite map_lookup_filter, lookup_union.
    pose proof (Hl name) as Hn. unfold layered in Hn. rewrite !lookup_empty, !(left_id_L None (∪)) in Hn.
    cbn [name_applies_if] in Hn. destruct (name_applies_to name t) eqn:Ha.
    - rewrite Hn. unfold applicable_to. rewrite map_lookup_filter.
      destruct (result !! name) as [v|]; cbn.
      + rewrite !option_guard_True by done. cbn. destruct (built_in (Some t) name); cbn; by rewrite option_guard_True.
      + destruct (built_in (Some t) name); cbn; [by rewrite option_guard_True|done].
    - assert (built_in (Some t) name = None) as Hb.
      { destruct (built_in (Some t) name) eqn:Hb; [|done]. apply built_in_applies in Hb. simpl in Hb. congruence. }
      rewrite Hn, Hb. destruct (result !! name); cbn; [|done]. by rewrite option_guard_False by congruence. }
  rewrite Happ. split_and!; [| |done].
  - intros name value [Hn|[_ Hn]]%lookup_union_Some_raw; [by apply Hv|by apply Hr].
  - intros d Hd He. destruct (layered_complete _ _ _ _ _ Hl d Hd He) as [v Hs].
    exists v. by apply lookup_union_Some_l.
Qed.

(** What a materialized document decodes to is complete for its runner. *)
Lemma decoded_validated document t values :
  decode_attribute_document document JobScope Materialized (Some t) = success values →
  validate_materialized_attributes values t = success tt.
Proof.
  unfold decode_attribute_document. destruct document as [| | | | | | |members]; try done.
  destruct (negb _); [done|]. destruct (find_member members bs!"version") as [version|]; [|done].
  destruct (find_member members bs!"values") as [[| | | | | | |stored]|]; try done.
  rewrite !result_unit_bind. intros (_ & _ & Hd).
  destruct (mapM _ stored) as [decoded|] eqn:Hm; [|done]. cbn [mbind result_bind] in Hd.
  apply decoded_members_valid in Hm. destruct (materialize_attributes t ∅ ∅ _) as [completed|] eqn:Hc; [|done].
  injection Hd as <-. by apply completed_validated.
Qed.
End DocumentsBack.

#[export] Instance standard_text_names : TextNames.
Proof.
  intros name d [<- Hd]%find_definition_spec. revert d Hd. apply Forall_forall.
  repeat (apply Forall_cons; split; [vm_compute; reflexivity|]). by apply Forall_nil.
Qed.

(** Whatever a stored snapshot of a job's attributes says, if the daemon
    accepts it with the standard registry then the executors accept it: a
    document of an older version is completed, not refused, and a malformed
    one never reaches an executor. *)
Theorem stored_attributes_executable document t values :
  decode_attribute_document document JobScope Materialized (Some t) = success values → executable t values.
Proof. intros Hd. by eapply validated_executable, decoded_validated. Qed.

(** ** A sample *)

Module StoredSample.
(** A document written before the termination grace period was introduced. *)
Definition older : JsonValue := JsonObject
  [(bs!"values", JsonObject
     [(bs!"http.max_redirects", tagged bs!"integer" (JsonInt 7));
      (bs!"retry.max_attempts", tagged bs!"integer" (JsonInt 3))]);
   (bs!"version", JsonInt 1)].
Definition values : AttributeSet := value_or ∅ (decode_attribute_document older JobScope Materialized (Some Cli)).

Lemma stored_attributes_executable_witness :
  decode_attribute_document older JobScope Materialized (Some Cli) = success values ∧ executable Cli values
  ∧ values !! bs!"http.max_redirects" = Some (AttrInt 7)
  ∧ values !! bs!"cli.termination_grace" = Some (AttrDuration (5 * ns_per_s)).
Proof.
  split; [apply success_value_or; vm_compute; reflexivity|]. split; [|split; vm_compute; reflexivity].
  apply (stored_attributes_executable older Cli), success_value_or. vm_compute. reflexivity.
Defined.

Definition layer : AttributeSet := PublicSample.layer.
Definition document : JsonValue :=
  match encode_attribute_document layer QueueDefault PartialDocument None with success d => d | failure _ => JsonNull end.

Lemma attribute_document_back_witness :
  encode_attribute_document layer QueueDefault PartialDocument None = success document
  ∧ decode_attribute_document document QueueDefault PartialDocument None = success layer.
Proof.
  split; [vm_compute; reflexivity|]. apply attribute_document_back; [|vm_compute; reflexivity].
  intros name value Hl. unfold layer, PublicSample.layer in Hl.
  apply lookup_insert_Some in Hl as [[_ <-]|[_ Hl]]; [by vm_compute|].
  apply lookup_insert_Some in Hl as [[_ <-]|[_ Hl]]; [by vm_compute|].
  apply lookup_singleton_Some in Hl as [_ <-]. by vm_compute.
Defined.
End StoredSample.
