(* ===== verification/SchedulerDispatch.v ===== *)
(** * Dispatch of runnable work

    The scheduling cycle of [src/jobu/scheduler_core_priv.cpp]: capacity
    accounting, smooth weighted round-robin over the queues, and the rounds
    that alternate between the runner families.

    The scheduler's own state ([SchedulerCore]) and the locals of a cycle are
    explicit.  Everything it calls (repository, telemetry, executor, event
    receivers) is the interface [Outside]: an operation of it may change any
    part of the scheduler's own state, because receivers are called back
    synchronously and may re-enter it, but never the locals of the cycle. *)

From stdpp Require Import base numbers strings list gmap sets.
From Stdlib Require Import Ascii.
From S2P Require Import Prelude Effects Values OutputCapture Uuid Domain.
Local Open Scope Z_scope.

(** ** Data *)

Record CapacityState := mkCapacity {
  cli_running : Z; http_running : Z;
  queue_slots : gmap bytes Z;
  blocking_retries : gmap bytes (list BlockingRetryCandidate);
  blocking_retry_ids : gset bytes }.

Record CandidateBatch := mkBatch {
  candidates : list bytes; next : nat; queried : bool; may_have_more : bool }.

(** The batch of an eligible queue is the entry of the cache under its
    identifier. *)
Record EligibleQueue := mkEligible { runtime : QueueRuntime; blocking_only : bool }.

#[export] Instance EligibleQueue_eq_dec : EqDecision EligibleQueue.
Proof. solve_decision. Defined.

Record SchedulerCoreOptions := mkOptions {
  cli_concurrency : Z; http_concurrency : Z; candidate_batch_size : Z }.

(** ** Errors *)

Definition invalid_options : Error :=
  mkError InvalidArgument "jobu.scheduler.invalid_options"
    "Scheduler concurrency limits and candidate batch size must be positive" "".
Definition capacity_overflow : Error :=
  mkError Internal "jobu.storage.invariant" "Persisted scheduler capacity exceeds its supported range" "".
Definition fairness_overflow : Error :=
  mkError Internal "jobu.storage.invariant" "Scheduler fairness arithmetic exceeds its supported range" "".

(** ** Capacity *)

Definition running_for (c : CapacityState) (type : JobType) : Z :=
  match type with Cli => cli_running c | Http => http_running c end.

Definition set_running (c : CapacityState) (type : JobType) (n : Z) : CapacityState :=
  match type with
  | Cli => mkCapacity n (http_running c) (queue_slots c) (blocking_retries c) (blocking_retry_ids c)
  | Http => mkCapacity (cli_running c) n (queue_slots c) (blocking_retries c) (blocking_retry_ids c)
  end.

Definition global_limit_for (options : SchedulerCoreOptions) (type : JobType) : Z :=
  match type with Cli => cli_concurrency options | Http => http_concurrency options end.

(** A missing entry counts as zero; [operator[]], which stores the zero, is
    not told apart. *)
Definition queue_slots_for (c : CapacityState) (queue : bytes) : Z := default 0 (queue_slots c !! queue).

Definition set_slots (c : CapacityState) (queue : bytes) (n : Z) : CapacityState :=
  mkCapacity (cli_running c) (http_running c) (<[queue := n]> (queue_slots c)) (blocking_retries c)
    (blocking_retry_ids c).

Definition checked_add (v increment : Z) : result Error Z :=
  if uint64_max - increment <? v then failure capacity_overflow else success (v + increment).

Definition record_start (c : CapacityState) (type : JobType) (queue : bytes)
    (queue_slot_already_occupied : bool) : result Error CapacityState :=
  let running := running_for c type in
  let slots := queue_slots_for c queue in
  if (running =? uint64_max) || (negb queue_slot_already_occupied && (slots =? uint64_max))
  then failure capacity_overflow
  else
    let c := set_running c type (running + 1) in
    success (if queue_slot_already_occupied then c else set_slots c queue (slots + 1)).

Definition record_completion (c : CapacityState) (type : JobType) (queue : bytes)
    (effect : CompletionEffect) : result Error CapacityState :=
  let running := running_for c type in
  let slots := queue_slots_for c queue in
  if (running =? 0) || (negb (queue_slot_retained effect) && (slots =? 0))
  then failure capacity_overflow
  else
    let c := set_running c type (running - 1) in
    success (if queue_slot_retained effect then c else set_slots c queue (slots - 1)).

Definition next_blocking_retry (c : CapacityState) (queue : bytes) (type : JobType) (now : Z)
    (attempted : gset bytes) : option BlockingRetryCandidate :=
  List.find (λ r, bool_decide (blocking_type r = type) && (blocking_runnable_at r <=? now) &&
                  bool_decide (blocking_run r ∉ attempted))
    (default [] (blocking_retries c !! queue)).

(** Repository order of retained retries: priority, times, identifier. *)
Definition ordered_before (l r : BlockingRetryCandidate) : bool :=
  if negb (blocking_priority l =? blocking_priority r) then blocking_priority r <? blocking_priority l
  else if negb (blocking_runnable_at l =? blocking_runnable_at r)
  then blocking_runnable_at l <? blocking_runnable_at r
  else if negb (blocking_planned_at l =? blocking_planned_at r)
  then blocking_planned_at l <? blocking_planned_at r
  else uuid_lt (blocking_run l) (blocking_run r).

Fixpoint insert_retry (r : BlockingRetryCandidate) (l : list BlockingRetryCandidate)
    : list BlockingRetryCandidate :=
  match l with
  | [] => [r]
  | x :: l' => if ordered_before r x then r :: l else x :: insert_retry r l'
  end.

Definition sort_retries (l : list BlockingRetryCandidate) : list BlockingRetryCandidate :=
  foldr insert_retry [] l.

(** One row of the reconstruction. *)
Definition add_capacity_row (c : CapacityState) (row : CapacityRow) : result Error CapacityState :=
  cli ← checked_add (cli_running c) (usage_cli (usage row));
  http ← checked_add (http_running c) (usage_http (usage row));
  slots ← checked_add (queue_slots_for c (row_queue row)) (usage_slots (usage row));
  let c := mkCapacity cli http (<[row_queue row := slots]> (queue_slots c)) (blocking_retries c)
             (blocking_retry_ids c) in
  success match blocking_retry row with
          | None => c
          | Some r =>
              mkCapacity (cli_running c) (http_running c) (queue_slots c)
                (<[row_queue row := default [] (blocking_retries c !! row_queue row) ++ [r]]> (blocking_retries c))
                ({[row_run row]} ∪ blocking_retry_ids c)
          end.

Definition empty_capacity : CapacityState := mkCapacity 0 0 ∅ ∅ ∅.

Definition sort_capacity (c : CapacityState) : CapacityState :=
  mkCapacity (cli_running c) (http_running c) (queue_slots c) (sort_retries <$> blocking_retries c)
    (blocking_retry_ids c).

Fixpoint add_capacity_rows (c : CapacityState) (rows : list CapacityRow) : result Error CapacityState :=
  match rows with
  | [] => success c
  | row :: rows => c ← add_capacity_row c row; add_capacity_rows c rows
  end.

(** ** Fairness *)

Definition credit (credits : gmap bytes Z) (queue : bytes) : Z := default 0 (credits !! queue).

Definition reset_credits (queues : list QueueRuntime) (credits : gmap bytes Z) : gmap bytes Z :=
  foldl (λ credits q, if bool_decide (is_Some (credits !! queue_id q)) then <[queue_id q := 0]> credits
                      else credits) credits queues.

(** [std::map::emplace] over the queues: the first entry of a key stays. *)
Definition current_weights (queues : list QueueRuntime) : gmap bytes Z :=
  foldl (λ m q, if bool_decide (is_Some (m !! queue_id q)) then m else <[queue_id q := weight q]> m) ∅ queues.

(** New and reweighted queues start at zero, vanished ones are dropped. *)
Definition reconcile_credits (queues : list QueueRuntime) (queue_weights : gmap bytes Z)
    (credits : gmap bytes Z) : gmap bytes Z :=
  let credits := foldl (λ credits q,
    if bool_decide (queue_weights !! queue_id q = Some (weight q)) then credits
    else <[queue_id q := 0]> credits) credits queues in
  filter (λ kv, is_Some (current_weights queues !! kv.1)) credits.

(** The sum of the weights, with the checks of [add_weight] and of each
    credit. *)
Fixpoint checked_total (credits : gmap bytes Z) (total : Z) (eligible : list EligibleQueue)
    : result Error Z :=
  match eligible with
  | [] => success total
  | q :: eligible =>
      let w := weight (runtime q) in
      if int64_max - w <? total then failure fairness_overflow
      else if int64_max - w <? credit credits (queue_id (runtime q)) then failure fairness_overflow
      else checked_total credits (total + w) eligible
  end.

Definition add_weights (eligible : list EligibleQueue) (credits : gmap bytes Z) : gmap bytes Z :=
  foldl (λ credits q, <[queue_id (runtime q) := credit credits (queue_id (runtime q)) + weight (runtime q)]> credits)
    credits eligible.

(** Whether [q] is selected in preference to [s]. *)
Definition preferred (credits : gmap bytes Z) (q s : EligibleQueue) : bool :=
  let queue_credit := credit credits (queue_id (runtime q)) in
  let selected_credit := credit credits (queue_id (runtime s)) in
  (selected_credit <? queue_credit) ||
  ((queue_credit =? selected_credit) && uuid_lt (queue_id (runtime q)) (queue_id (runtime s))).

(** The loop [index = 1 ..] with the selected queue and its index so far. *)
Fixpoint select_from (credits : gmap bytes Z) (selected : EligibleQueue) (selected_index index : nat)
    (rest : list EligibleQueue) : nat * EligibleQueue :=
  match rest with
  | [] => (selected_index, selected)
  | q :: rest =>
      if preferred credits q selected then select_from credits q index (S index) rest
      else select_from credits selected selected_index (S index) rest
  end.

Definition subtract_total (v total : Z) : result Error Z :=
  if v <? int64_min + total then failure fairness_overflow else success (v - total).

(** ** State *)

(** [SchedulerCore]; [credits] holds [_cli_credits] and [_http_credits].
    [world] stands for the database, the executor, the telemetry service and
    the receivers. *)
Record SchedulerCore (World : Type) := mkCore {
  queue_weights : gmap bytes Z;
  credits : JobType → gmap bytes Z;
  active_attempts : gmap bytes ActiveAttempt;
  cancellation_requests : gset bytes;
  core_failure : option Error;
  terminal : bool;
  cli_first : bool;
  world : World }.
Arguments mkCore {World}.
Arguments queue_weights {World}.
Arguments credits {World}.
Arguments active_attempts {World}.
Arguments cancellation_requests {World}.
Arguments core_failure {World}.
Arguments terminal {World}.
Arguments cli_first {World}.
Arguments world {World}.

(** One map per runner family, updated at one of them. *)
Definition update_type {A} (type : JobType) (v : A) (f : JobType → A) : JobType → A :=
  λ t, if bool_decide (t = type) then v else f t.

Section Core.
Context {World : Type}.

Definition set_credits (type : JobType) (m : gmap bytes Z) (c : SchedulerCore World) : SchedulerCore World :=
  mkCore (queue_weights c) (update_type type m (credits c)) (active_attempts c) (cancellation_requests c)
    (core_failure c) (terminal c) (cli_first c) (world c).
Definition set_active (m : gmap bytes ActiveAttempt) (c : SchedulerCore World) : SchedulerCore World :=
  mkCore (queue_weights c) (credits c) m (cancellation_requests c) (core_failure c) (terminal c)
    (cli_first c) (world c).
Definition set_cancellations (s : gset bytes) (c : SchedulerCore World) : SchedulerCore World :=
  mkCore (queue_weights c) (credits c) (active_attempts c) s (core_failure c) (terminal c)
    (cli_first c) (world c).
Definition set_world (w : World) (c : SchedulerCore World) : SchedulerCore World :=
  mkCore (queue_weights c) (credits c) (active_attempts c) (cancellation_requests c) (core_failure c)
    (terminal c) (cli_first c) w.

Definition shutdown (c : SchedulerCore World) : SchedulerCore World :=
  mkCore (queue_weights c) (credits c) (active_attempts c) (cancellation_requests c) (core_failure c)
    true (cli_first c) (world c).

Definition reset (c : SchedulerCore World) : SchedulerCore World :=
  if terminal c then c
  else mkCore ∅ (λ _, ∅) ∅ ∅ (core_failure c) (terminal c) true (world c).

Definition reconcile_fairness (queues : list QueueRuntime) (c : SchedulerCore World) : SchedulerCore World :=
  mkCore (current_weights queues)
    (λ type, reconcile_credits queues (queue_weights c) (credits c type)) (active_attempts c)
    (cancellation_requests c) (core_failure c) (terminal c) (cli_first c) (world c).
End Core.

(** The cycle: the scheduler and the locals of [process_cycle_impl]. *)
Record Cycle (World : Type) := mkCycle {
  core : SchedulerCore World;
  capacity : CapacityState;
  cache : JobType → gmap bytes CandidateBatch;
  attempted : JobType → gset bytes }.
Arguments mkCycle {World}.
Arguments core {World}.
Arguments capacity {World}.
Arguments cache {World}.
Arguments attempted {World}.

(** What the cycle calls. *)
Class Outside (World : Type) := {
  type_available : JobType → SchedulerCore World → result Error bool * SchedulerCore World;
  (** The identifiers of due runs in repository order. *)
  list_runnable : bytes → JobType → Z → nat → SchedulerCore World → result Error (list bytes) * SchedulerCore World;
  (** The sample of one claim: [mutation_boundary], or the cycle's time. *)
  claim_boundary : Z → SchedulerCore World → result Error Z * SchedulerCore World;
  dispatch_selected : bytes → Z → SchedulerCore World → result Error (option DispatchStart) * SchedulerCore World;
  started_delivery : AttemptStarted → SchedulerCore World → SchedulerCore World;
  delayed_delivery : DelayedRun → SchedulerCore World → bool * SchedulerCore World;
  completion_processor : bytes → AttemptCompletion → SchedulerCore World →
    result Error (option CompletionEffect) * SchedulerCore World;
  completion_delivery : CompletionEffect → SchedulerCore World → SchedulerCore World;
  (** Reads of the rest of the cycle. *)
  utc_now : SchedulerCore World → Z;
  list_runtime_queues : nat → option bytes → SchedulerCore World → result Error (list QueueRuntime) * SchedulerCore World;
  list_capacity_rows : nat → option bytes → SchedulerCore World → result Error (list CapacityRow) * SchedulerCore World;
  list_manual_barriers : nat → option bytes → SchedulerCore World → result Error (list bytes) * SchedulerCore World;
  observe_backlog : SchedulerCore World → result Error (option Z * bool) * SchedulerCore World;
  earliest_future_runnable : JobType → Z → SchedulerCore World → result Error (option Z) * SchedulerCore World }.

(** ** The monad of the cycle *)

Abbreviation M World := (ES (Cycle World)).

Section Dispatch.
Context {World : Type} `{Outside World}.

Definition with_core {A} (f : SchedulerCore World → result Error A * SchedulerCore World) : M World A := λ s,
  let '(r, c) := f (core s) in (r, mkCycle c (capacity s) (cache s) (attempted s)).
Definition call {A} (f : SchedulerCore World → A * SchedulerCore World) : M World A :=
  with_core (λ c, let '(v, c) := f c in (success v, c)).
Definition on_core (f : SchedulerCore World → SchedulerCore World) : M World unit :=
  call (λ c, (tt, f c)).
Definition put_capacity (c : CapacityState) : M World unit := λ s,
  (success tt, mkCycle (core s) c (cache s) (attempted s)).
Definition put_batch (type : JobType) (queue : bytes) (b : CandidateBatch) : M World unit := λ s,
  (success tt, mkCycle (core s) (capacity s) (update_type type (<[queue := b]> (cache s type)) (cache s))
                 (attempted s)).
Definition mark_attempted (type : JobType) (run : bytes) : M World unit := λ s,
  (success tt, mkCycle (core s) (capacity s) (cache s)
                 (update_type type ({[run]} ∪ attempted s type) (attempted s))).

Definition is_terminal : M World bool := gets (λ s, terminal (core s)).
Definition get_credit (type : JobType) (queue : bytes) : M World Z :=
  gets (λ s, credit (credits (core s) type) queue).
Definition put_credit (type : JobType) (queue : bytes) (v : Z) : M World unit :=
  on_core (λ c, set_credits type (<[queue := v]> (credits c type)) c).

(** ** One claim: the lambda [try_dispatch] *)

Definition try_dispatch (type : JobType) (now : Z) (queue run : bytes)
    (queue_slot_already_occupied : bool) : M World bool :=
  t ← is_terminal;
  if (t : bool) then mret false
  else
    sampled ← with_core (claim_boundary now);
    dispatched ← with_core (dispatch_selected run sampled);
    t ← is_terminal;
    if (t : bool) then mret (bool_decide (is_Some dispatched))
    else match dispatched with
    | None => mret false
    | Some start =>
        if negb (bytes_eqb (key_run (start_key start)) run) || (key_attempt (start_key start) =? 0)
        then throw (invalid_completion "dispatch_key_mismatch")
        else
          active ← gets (λ s, active_attempts (core s));
          if bool_decide (is_Some (active !! run))
          then throw (invalid_completion "duplicate_active_attempt")
          else
            _ ← on_core (set_active (<[run := mkActive (key_attempt (start_key start)) (start_execution start)
                                                (start_phase start) (start_accepted_at start)]> active));
            c ← gets capacity;
            c ← of_result (record_start c type queue queue_slot_already_occupied);
            _ ← put_capacity c;
            _ ← (if bool_decide (start_phase start = Accepted)
                 then on_core (started_delivery (mkStarted (start_execution start)
                        (key_attempt (start_key start)) (start_started_at start)))
                 else mret tt);
            t ← is_terminal;
            if (t : bool) then mret true
            else
              kept ← match delayed start with
                     | Some v => call (delayed_delivery v)
                     | None => mret true
                     end;
              if negb kept then mret true
              else match immediate_completion start with
              | None => mret true
              | Some completion =>
                  completed ← with_core (completion_processor run completion);
                  t ← is_terminal;
                  match completed with
                  | Some effect =>
                      if (t : bool) then mret true
                      else
                        c ← gets capacity;
                        c ← of_result (record_completion c type queue effect);
                        _ ← put_capacity c;
                        _ ← on_core (completion_delivery effect);
                        mret true
                  | None => mret true
                  end
              end
    end.

(** ** The candidates of one queue *)

Definition page_size (options : SchedulerCoreOptions) : nat :=
  Z.to_nat (Z.min (candidate_batch_size options) 1000).

Definition empty_batch : CandidateBatch := mkBatch [] 0 false false.

Definition get_batch (type : JobType) (queue : bytes) : M World CandidateBatch :=
  gets (λ s, default empty_batch (cache s type !! queue)).

Definition load_candidate_batch (type : JobType) (now : Z) (limit : nat) (queue : bytes)
    : M World CandidateBatch :=
  batch ← get_batch type queue;
  if (next batch <? length (candidates batch))%nat || (queried batch && negb (may_have_more batch))
  then mret batch
  else
    l ← with_core (list_runnable queue type now limit);
    let batch := mkBatch l 0 true (length l =? limit)%nat in
    _ ← put_batch type queue batch;
    mret batch.

(** The retained retries of a full queue, until one is dispatched.  Every
    round marks a retry that was not marked before, so as many rounds as there
    are retries suffice. *)
Fixpoint blocking_loop (fuel : nat) (type : JobType) (now : Z) (queue : bytes) : M World bool :=
  match fuel with
  | O => mret false
  | S fuel =>
      retry ← gets (λ s, next_blocking_retry (capacity s) queue type now (attempted s type));
      match retry with
      | None => mret false
      | Some r =>
          _ ← mark_attempted type (blocking_run r);
          dispatched ← try_dispatch type now queue (blocking_run r) true;
          if (dispatched : bool) then mret true else blocking_loop fuel type now queue
      end
  end.

(** The candidates of the cached page, from [next] on. *)
Fixpoint batch_loop (remaining : list bytes) (type : JobType) (now : Z) (queue : bytes) : M World bool :=
  match remaining with
  | [] => mret false
  | run :: remaining =>
      batch ← get_batch type queue;
      _ ← put_batch type queue (mkBatch (candidates batch) (S (next batch)) (queried batch) (may_have_more batch));
      ids ← gets (λ s, blocking_retry_ids (capacity s));
      dispatched ← try_dispatch type now queue run (bool_decide (run ∈ ids));
      if (dispatched : bool) then mret true else batch_loop remaining type now queue
  end.

Definition queue_loop (type : JobType) (now : Z) (q : EligibleQueue) : M World bool :=
  let queue := queue_id (runtime q) in
  if blocking_only q then
    retries ← gets (λ s, default [] (blocking_retries (capacity s) !! queue));
    blocking_loop (length retries) type now queue
  else
    batch ← get_batch type queue;
    batch_loop (drop (next batch) (candidates batch)) type now queue.

(** ** One visit *)

Fixpoint collect_eligible (type : JobType) (now : Z) (limit : nat) (queues : list QueueRuntime)
    : M World (list EligibleQueue) :=
  match queues with
  | [] => mret []
  | q :: queues =>
      c ← gets capacity;
      tried ← gets (λ s, attempted s type);
      if concurrency_limit q <=? queue_slots_for c (queue_id q) then
        match next_blocking_retry c (queue_id q) type now tried with
        | None => _ ← put_credit type (queue_id q) 0; collect_eligible type now limit queues
        | Some _ => rest ← collect_eligible type now limit queues; mret (mkEligible q true :: rest)
        end
      else
        batch ← load_candidate_batch type now limit (queue_id q);
        if (next batch =? length (candidates batch))%nat
        then _ ← put_credit type (queue_id q) 0; collect_eligible type now limit queues
        else rest ← collect_eligible type now limit queues; mret (mkEligible q false :: rest)
  end.

(** One round of the selection: the queue with the largest credit pays the
    total and may use the opportunity. *)
Definition offer (type : JobType) (now total : Z) (q0 : EligibleQueue) (others : list EligibleQueue)
    : M World (nat * EligibleQueue * bool) :=
  current ← gets (λ s, credits (core s) type);
  let '(selected_index, selected) := select_from current q0 0 1 others in
  let queue := queue_id (runtime selected) in
  reduced ← of_result (subtract_total (credit current queue) total);
  _ ← put_credit type queue reduced;
  dispatched ← queue_loop type now selected;
  mret (selected_index, selected, dispatched).

(** [while (!eligible.empty())]: every round returns or removes a queue. *)
Fixpoint select_loop (fuel : nat) (type : JobType) (now total : Z) (eligible : list EligibleQueue)
    : M World bool :=
  match fuel, eligible with
  | S fuel, q0 :: others =>
      '(selected_index, selected, dispatched) ← offer type now total q0 others;
      if (dispatched : bool) then mret true
      else
        _ ← put_credit type (queue_id (runtime selected)) 0;
        select_loop fuel type now (total - weight (runtime selected)) (delete selected_index eligible)
  | _, _ => mret false
  end.

(** The part before the selection: the guards, the eligible queues and their
    total weight, which is added to their credits. *)
Definition prepare_visit (options : SchedulerCoreOptions) (queues : list QueueRuntime) (type : JobType)
    (now : Z) : M World (option (Z * list EligibleQueue)) :=
  t ← is_terminal;
  c ← gets capacity;
  if (t : bool) || (global_limit_for options type <=? running_for c type) then mret None
  else
    available ← with_core (type_available type);
    if negb available then
      _ ← on_core (λ c, set_credits type (reset_credits queues (credits c type)) c);
      mret None
    else
      t ← is_terminal;
      if (t : bool) then mret None
      else
        eligible ← collect_eligible type now (page_size options) queues;
        if bool_decide (eligible = []) then mret None
        else
          current ← gets (λ s, credits (core s) type);
          total ← of_result (checked_total current 0 eligible);
          _ ← on_core (set_credits type (add_weights eligible current));
          mret (Some (total, eligible)).

Definition dispatch_visit (options : SchedulerCoreOptions) (queues : list QueueRuntime) (type : JobType)
    (now : Z) : M World bool :=
  prepared ← prepare_visit options queues type now;
  match prepared with
  | None => mret false
  | Some (total, eligible) => select_loop (length eligible) type now total eligible
  end.

(** ** The cycle *)

(** Keyset paging: pages of at most [limit] rows, each after the last key of
    the one before, folded with [step].  [None] if the fuel does not suffice. *)
Fixpoint load_pages {A B} (key : A → bytes)
    (list_page : nat → option bytes → SchedulerCore World → result Error (list A) * SchedulerCore World)
    (step : B → list A → result Error B) (limit fuel : nat) (after : option bytes) (acc : B)
    : M World (option B) :=
  match fuel with
  | O => mret None
  | S fuel =>
      page ← with_core (list_page limit after);
      match last page with
      | None => mret (Some acc)
      | Some row =>
          acc ← of_result (step acc page);
          if (length page <? limit)%nat then mret (Some acc)
          else load_pages key list_page step limit fuel (Some (key row)) acc
      end
  end.

Definition load_runtime_queues (limit fuel : nat) : M World (option (list QueueRuntime)) :=
  load_pages queue_id list_runtime_queues (λ acc page, success (acc ++ page)) limit fuel None [].
Definition validate_manual_barriers (limit fuel : nat) : M World (option unit) :=
  load_pages id list_manual_barriers (λ acc _, success acc) limit fuel None tt.
Definition load_capacity (limit fuel : nat) : M World (option CapacityState) :=
  c ← load_pages row_run list_capacity_rows add_capacity_rows limit fuel None empty_capacity;
  mret (sort_capacity <$> c).

Inductive RoundResult := Productive | Idle | ShutdownRequested.

(** What the code checks after each visit. *)
Definition after_visit (k : M World RoundResult) : M World RoundResult :=
  f ← gets (λ s, core_failure (core s));
  match f with
  | Some e => throw e
  | None => t ← is_terminal; if (t : bool) then mret ShutdownRequested else k
  end.

(** One round of [while (true)]: both runner families, the first one in
    turn; a productive round passes the turn on. *)
Definition dispatch_round (options : SchedulerCoreOptions) (queues : list QueueRuntime) (now : Z)
    : M World RoundResult :=
  cli ← gets (λ s, cli_first (core s));
  let first_type := if (cli : bool) then Cli else Http in
  let second_type := if cli then Http else Cli in
  first ← dispatch_visit options queues first_type now;
  after_visit (
    second ← dispatch_visit options queues second_type now;
    after_visit (
      if negb first && negb second then mret Idle
      else
        _ ← on_core (λ c, mkCore (queue_weights c) (credits c) (active_attempts c) (cancellation_requests c)
                           (core_failure c) (terminal c) (negb (cli_first c)) (world c));
        mret Productive)).

(** The rounds and whether anything was dispatched. *)
Fixpoint dispatch_rounds (fuel : nat) (options : SchedulerCoreOptions) (queues : list QueueRuntime)
    (now : Z) (dispatched_any : bool) : M World (option (RoundResult * bool)) :=
  match fuel with
  | O => mret None
  | S fuel =>
      r ← dispatch_round options queues now;
      match r with
      | Productive => dispatch_rounds fuel options queues now true
      | _ => mret (Some (r, dispatched_any))
      end
  end.

Record SchedulerCycleResult := mkCycleResult {
  sampled_utc_now : Z; next_wake : option Z; next_warning : option Z; rescan : bool;
  shutdown_requested : bool }.

Definition shutdown_result (now : Z) : SchedulerCycleResult := mkCycleResult now None None false true.

Definition earlier (a b : option Z) : option Z :=
  match a, b with
  | Some x, Some y => if x <? y then a else b
  | Some _, None => a
  | None, _ => b
  end.

(** The wake-up of one runner family, or a shutdown. *)
Fixpoint wakes (now : Z) (types : list JobType) (wake : option Z) : M World (option Z + unit) :=
  match types with
  | [] => mret (inl wake)
  | type :: types =>
      available ← with_core (type_available type);
      if negb available then wakes now types wake
      else
        t ← is_terminal;
        if (t : bool) then mret (inr tt)
        else
          earliest ← with_core (earliest_future_runnable type now);
          wakes now types (earlier earliest wake)
  end.

Definition positive_options (o : SchedulerCoreOptions) : bool :=
  negb ((cli_concurrency o =? 0) || (http_concurrency o =? 0) || (candidate_batch_size o =? 0)).

(** The end of the cycle: refreshed warnings and the next wake-up. *)
Definition finish_cycle (now : Z) (dispatched_any rescan : bool) (warning_wake : option Z)
    : M World SchedulerCycleResult :=
  observed ← (if dispatched_any then with_core observe_backlog else mret (warning_wake, false));
  let '(warning_wake, again) := (observed : option Z * bool) in
  t ← is_terminal;
  if dispatched_any && t then mret (shutdown_result now)
  else
    wake ← wakes now [Cli; Http] None;
    match wake with
    | inr _ => mret (shutdown_result now)
    | inl wake => mret (mkCycleResult now wake warning_wake (rescan || again) false)
    end.

(** [process_cycle_impl] with the fuel of its unbounded loops. *)
Definition process_cycle_impl (fuel : nat) (options : SchedulerCoreOptions)
    : M World (option SchedulerCycleResult) :=
  _ ← of_result (check (positive_options options) invalid_options);
  observed ← with_core observe_backlog;
  let '(warning_wake, rescan) := (observed : option Z * bool) in
  t ← is_terminal;
  if (t : bool) then mret (Some (shutdown_result 0))
  else
    now ← gets (λ s, utc_now (core s));
    let limit := page_size options in
    queues ← load_runtime_queues limit fuel;
    match queues with
    | None => mret None
    | Some queues =>
        _ ← on_core (reconcile_fairness queues);
        barriers ← validate_manual_barriers limit fuel;
        match barriers with
        | None => mret None
        | Some _ =>
            c ← load_capacity limit fuel;
            match c with
            | None => mret None
            | Some c =>
                _ ← put_capacity c;
                r ← dispatch_rounds fuel options queues now false;
                match r with
                | None => mret None
                | Some (ShutdownRequested, _) => mret (Some (shutdown_result now))
                | Some (_, dispatched_any) => Some <$> finish_cycle now dispatched_any rescan warning_wake
                end
            end
        end
    end.

End Dispatch.
