(* ===== verification/SchedulerFairness.v ===== *)
(** * Fairness and capacity of the dispatch cycle

    What [SchedulerDispatch] guarantees: queues that stay eligible are served
    in proportion to their weights, and starts never exceed the limits. *)

From stdpp Require Import base numbers strings list gmap sets.
From Stdlib Require Import Ascii.
From S2P Require Import Prelude Values OutputCapture Uuid Domain SchedulerDispatch.
Local Open Scope Z_scope.

(** ** Selection *)

Definition credit_of (credits : gmap bytes Z) (q : EligibleQueue) : Z :=
  credit credits (queue_id (runtime q)).

Lemma preferred_credit credits q s :
  (preferred credits q s = true → credit_of credits s <= credit_of credits q) ∧
  (preferred credits q s = false → credit_of credits q <= credit_of credits s).
Proof.
  unfold preferred, credit_of. set (a := credit credits _). set (b := credit credits (queue_id (runtime s))).
  destruct (Z.ltb_spec b a), (Z.eqb_spec a b); cbn; split; intros; try done; lia.
Qed.

Lemma select_from_spec credits rest selected si index i q :
  select_from credits selected si index rest = (i, q) →
  (q = selected ∧ i = si ∨ ∃ k, rest !! k = Some q ∧ i = (index + k)%nat) ∧
  credit_of credits selected <= credit_of credits q ∧
  ∀ x, x ∈ rest → credit_of credits x <= credit_of credits q.
Proof.
  revert selected si index. induction rest as [|x rest IH]; intros selected si index; cbn [select_from].
  { intros [= <- <-]. split_and!; [by left|lia|]. intros x Hx. by apply elem_of_nil in Hx. }
  destruct (preferred_credit credits x selected) as [Ht Hf].
  destruct (preferred credits x selected).
  - intros (Hq & Hle & Hall)%IH. specialize (Ht eq_refl). split_and!; [|lia|].
    + right. destruct Hq as [[-> ->]|(k & Hk & ->)]; [exists 0%nat|exists (S k)]; cbn; split; (done || lia).
    + intros y [->|Hy]%elem_of_cons; [done|by apply Hall].
  - intros (Hq & Hle & Hall)%IH. specialize (Hf eq_refl). split_and!; [|lia|].
    + destruct Hq as [Hq|(k & Hk & ->)]; [by left|]. right. exists (S k). cbn. split; (done || lia).
    + intros y [->|Hy]%elem_of_cons; [lia|by apply Hall].
Qed.

(** The queue that is chosen is an eligible one with the largest credit. *)
Lemma select_max credits q0 others i q :
  select_from credits q0 0 1 others = (i, q) →
  (q0 :: others) !! i = Some q ∧ ∀ x, x ∈ q0 :: others → credit_of credits x <= credit_of credits q.
Proof.
  intros (Hq & Hle & Hall)%select_from_spec. split.
  - destruct Hq as [[-> ->]|(k & Hk & ->)]; done.
  - intros x [->|Hx]%elem_of_cons; [done|by apply Hall].
Qed.

(** ** Weights *)

Definition ids (eligible : list EligibleQueue) : list bytes := map (λ q, queue_id (runtime q)) eligible.
Definition queue_weight (q : EligibleQueue) : Z := weight (runtime q).
Definition sum (f : EligibleQueue → Z) (l : list EligibleQueue) : Z := foldr (λ q n, f q + n) 0 l.
Definition total_weight (eligible : list EligibleQueue) : Z := sum queue_weight eligible.

Lemma sum_cons f q l : sum f (q :: l) = f q + sum f l.
Proof. done. Qed.

Lemma sum_ext f g l : (∀ q, q ∈ l → f q = g q) → sum f l = sum g l.
Proof.
  induction l as [|q l IH]; intros Hfg; [done|]. rewrite !sum_cons, Hfg by (apply elem_of_cons; by left).
  f_equal. apply IH. intros x Hx. apply Hfg, elem_of_cons. by right.
Qed.

Lemma sum_linear f g a b l : sum (λ q, a * f q + b * g q) l = a * sum f l + b * sum g l.
Proof. unfold sum. induction l as [|q l IH]; cbn [foldr]; [lia|]. rewrite IH. lia. Qed.

Lemma sum_pos f l : 0 < sum f l → ∃ q, q ∈ l ∧ 0 < f q.
Proof.
  induction l as [|q l IH]; [done|]. rewrite sum_cons. intros Hs. destruct (Z.lt_ge_cases 0 (f q)).
  - exists q. split; [apply elem_of_cons; by left|done].
  - destruct IH as (x & Hx & ?); [lia|]. exists x. split; [apply elem_of_cons; by right|done].
Qed.

Lemma sum_all_equal f g l :
  (∀ q, q ∈ l → f q <= g q) → sum f l = sum g l → ∀ q, q ∈ l → f q = g q.
Proof.
  assert (Hle : ∀ l, (∀ q, q ∈ l → f q <= g q) → sum f l <= sum g l).
  { clear. induction l as [|q l IH]; intros H; [done|]. rewrite !sum_cons.
    pose proof (H q ltac:(apply elem_of_cons; by left)).
    pose proof (IH ltac:(intros x Hx; apply H, elem_of_cons; by right)). lia. }
  induction l as [|x l IH]; intros H Hs q Hq; [by apply elem_of_nil in Hq|]. rewrite !sum_cons in Hs.
  pose proof (H x ltac:(apply elem_of_cons; by left)).
  assert (Hl : ∀ q, q ∈ l → f q <= g q) by (intros y Hy; apply H, elem_of_cons; by right).
  pose proof (Hle l Hl). apply elem_of_cons in Hq as [->|Hq]; [lia|]. apply IH; [done|lia|done].
Qed.

Lemma credit_insert_eq m k v : credit (<[k := v]> m) k = v.
Proof. unfold credit. by rewrite lookup_insert_eq. Qed.

Lemma credit_insert_ne m k k' v : k ≠ k' → credit (<[k := v]> m) k' = credit m k'.
Proof. intros. unfold credit. by rewrite lookup_insert_ne. Qed.

Lemma credit_of_insert q x v m :
  credit_of (<[queue_id (runtime q) := v]> m) x =
    if bool_decide (queue_id (runtime q) = queue_id (runtime x)) then v else credit_of m x.
Proof.
  unfold credit_of. case_bool_decide as Hq; [rewrite Hq; apply credit_insert_eq|by apply credit_insert_ne].
Qed.

Lemma add_weights_cons q l m :
  add_weights (q :: l) m = add_weights l (<[queue_id (runtime q) := credit_of m q + queue_weight q]> m).
Proof. done. Qed.

Lemma add_weights_other eligible m k : k ∉ ids eligible → credit (add_weights eligible m) k = credit m k.
Proof.
  revert m. induction eligible as [|q l IH]; intros m Hk; [done|]. rewrite add_weights_cons.
  cbn [ids map] in Hk. rewrite not_elem_of_cons in Hk. destruct Hk as [Hne Hk].
  rewrite IH by done. by apply credit_insert_ne.
Qed.

Lemma add_weights_credit eligible m q :
  NoDup (ids eligible) → q ∈ eligible →
  credit_of (add_weights eligible m) q = credit_of m q + queue_weight q.
Proof.
  unfold credit_of. revert m. induction eligible as [|x l IH]; intros m Hnd Hq; [by apply elem_of_nil in Hq|].
  apply NoDup_cons in Hnd as [Hx Hnd]. rewrite add_weights_cons.
  apply elem_of_cons in Hq as [->|Hq].
  - rewrite add_weights_other by done. by rewrite credit_insert_eq.
  - rewrite IH by done. rewrite credit_insert_ne; [done|].
    intros Heq. apply Hx. rewrite Heq. apply list_elem_of_fmap. by exists q.
Qed.

(** ** Smooth weighted round-robin *)

(** One opportunity that is used by the selected queue. *)
Definition serve (eligible : list EligibleQueue) (credits : gmap bytes Z) : bytes * gmap bytes Z :=
  match eligible with
  | [] => ([], credits)
  | q0 :: others =>
      let credits := add_weights eligible credits in
      let q := snd (select_from credits q0 0 1 others) in
      (queue_id (runtime q),
       <[queue_id (runtime q) := credit_of credits q - total_weight eligible]> credits)
  end.

Definition times (q : EligibleQueue) (served : list bytes) : Z :=
  Z.of_nat (length (filter (λ k, k = queue_id (runtime q)) served)).

Section RoundRobin.
Context (eligible : list EligibleQueue).
Context (Hdistinct : NoDup (ids eligible)) (Hweights : ∀ q, q ∈ eligible → 0 < queue_weight q).

Abbreviation W := (total_weight eligible).

(** The state after the opportunities that served [served]. *)
Record balanced (served : list bytes) (credits : gmap bytes Z) : Prop := {
  balanced_credit q : q ∈ eligible →
    credit_of credits q = Z.of_nat (length served) * queue_weight q - W * times q served;
  balanced_lower q : q ∈ eligible → - W < credit_of credits q;
  balanced_sum : sum (λ q, times q served) eligible = Z.of_nat (length served) }.

Lemma times_cons q k served :
  times q (k :: served) = (if bool_decide (k = queue_id (runtime q)) then 1 else 0) + times q served.
Proof.
  unfold times. rewrite filter_cons. case_bool_decide; case_decide; simplify_eq; cbn [length]; lia.
Qed.

Lemma distinct_queue q x :
  q ∈ eligible → x ∈ eligible → queue_id (runtime q) = queue_id (runtime x) → q = x.
Proof.
  clear Hweights. unfold ids in Hdistinct. induction eligible as [|y l IH]; [intros H; by apply elem_of_nil in H|].
  cbn [map] in Hdistinct. apply NoDup_cons in Hdistinct as [Hy Hl].
  assert (Hin : ∀ z, z ∈ l → queue_id (runtime z) ∈ map (λ q, queue_id (runtime q)) l)
    by (intros z Hz; apply list_elem_of_fmap; by exists z).
  intros [->|Hq]%elem_of_cons [->|Hx]%elem_of_cons Heq; [done| | |by apply IH].
  - exfalso. apply Hy. rewrite Heq. by apply Hin.
  - exfalso. apply Hy. rewrite <- Heq. by apply Hin.
Qed.

Lemma sum_indicator q :
  q ∈ eligible → sum (λ x, if bool_decide (queue_id (runtime q) = queue_id (runtime x)) then 1 else 0) eligible = 1.
Proof.
  clear Hweights. unfold ids in Hdistinct. induction eligible as [|y l IH]; [intros H; by apply elem_of_nil in H|].
  cbn [map] in Hdistinct. apply NoDup_cons in Hdistinct as [Hy Hl]. rewrite sum_cons.
  intros [->|Hq]%elem_of_cons.
  - rewrite bool_decide_true by done.
    rewrite (sum_ext _ (λ q, 0 * 0 + 0 * 0)); [rewrite (sum_linear (λ _, 0) (λ _, 0)); lia|].
    intros x Hx. rewrite bool_decide_false; [done|]. intros Heq. apply Hy. rewrite Heq.
    apply list_elem_of_fmap. by exists x.
  - rewrite bool_decide_false; [rewrite (IH Hl Hq); lia|]. intros Heq. apply Hy. rewrite <- Heq.
    apply list_elem_of_fmap. by exists q.
Qed.

Lemma balanced_total served credits :
  balanced served credits → sum (credit_of credits) eligible = 0.
Proof.
  intros [Hc _ Hs]. rewrite (sum_ext _ (λ q, Z.of_nat (length served) * queue_weight q + (- W) * times q served))
    by (intros q Hq; rewrite Hc by done; lia).
  rewrite sum_linear, Hs. unfold total_weight. lia.
Qed.

Lemma total_weight_pos : eligible ≠ [] → 0 < W.
Proof.
  clear Hdistinct. unfold total_weight. destruct eligible as [|q l]; [done|]. intros _. rewrite sum_cons.
  pose proof (Hweights q ltac:(apply elem_of_cons; by left)).
  assert (0 <= sum queue_weight l); [|lia]. clear - Hweights.
  assert (Hl : ∀ x, x ∈ l → 0 < queue_weight x) by (intros x Hx; apply Hweights, elem_of_cons; by right).
  clear Hweights. induction l as [|x l IH]; [done|]. rewrite sum_cons.
  pose proof (Hl x ltac:(apply elem_of_cons; by left)).
  pose proof (IH ltac:(intros y Hy; apply Hl, elem_of_cons; by right)). lia.
Qed.

Lemma serve_chosen credits :
  eligible ≠ [] → ∃ q, q ∈ eligible ∧
    (∀ x, x ∈ eligible → credit_of (add_weights eligible credits) x <= credit_of (add_weights eligible credits) q) ∧
    serve eligible credits =
      (queue_id (runtime q),
       <[queue_id (runtime q) := credit_of (add_weights eligible credits) q - W]> (add_weights eligible credits)).
Proof.
  unfold serve. destruct eligible as [|q0 others]; [done|]. intros _.
  destruct (select_from (add_weights (q0 :: others) credits) q0 0 1 others) as [i q] eqn:Hs.
  apply select_max in Hs as [Hi Hall]. exists q. split; [by eapply list_elem_of_lookup_2|]. done.
Qed.

(** An opportunity keeps the balance: the selected credit is positive before
    the total is taken off. *)
Lemma serve_balanced served credits k credits' :
  eligible ≠ [] → balanced served credits → serve eligible credits = (k, credits') →
  k ∈ ids eligible ∧ balanced (k :: served) credits'.
Proof.
  intros Hne Hb. destruct (serve_chosen credits Hne) as (q & Hq & Hmax & ->). intros [= <- <-].
  pose proof (total_weight_pos Hne) as HW. pose proof (balanced_total _ _ Hb) as H0.
  destruct Hb as [Hc Hlow Hs].
  assert (Hadd : ∀ x, x ∈ eligible → credit_of (add_weights eligible credits) x = credit_of credits x + queue_weight x)
    by (intros x Hx; by apply add_weights_credit).
  assert (Hpos : 0 < credit_of (add_weights eligible credits) q).
  { destruct (sum_pos (credit_of (add_weights eligible credits)) eligible) as (x & Hx & Hxp).
    - rewrite (sum_ext _ (λ x, 1 * credit_of credits x + 1 * queue_weight x)) by (intros x Hx; rewrite Hadd by done; lia).
      rewrite sum_linear, H0. fold (total_weight eligible). lia.
    - specialize (Hmax x Hx). lia. }
  split; [apply list_elem_of_fmap; by exists q|]. split.
  - intros x Hx. rewrite times_cons, credit_of_insert. cbn [length]. case_bool_decide as Heq.
    + rewrite <- (distinct_queue q x Hq Hx Heq), Hadd, Hc by done. lia.
    + rewrite Hadd, Hc by done. lia.
  - intros x Hx. rewrite credit_of_insert. case_bool_decide; [lia|].
    rewrite Hadd by done. pose proof (Hlow x Hx). pose proof (Hweights x Hx). lia.
  - rewrite (sum_ext _ (λ x, 1 * (if bool_decide (queue_id (runtime q) = queue_id (runtime x)) then 1 else 0) +
      1 * times x served)) by (intros x Hx; rewrite times_cons; lia).
    rewrite sum_linear, sum_indicator, Hs by done. cbn [length]. lia.
Qed.

Lemma balanced_start credits :
  eligible ≠ [] → (∀ q, q ∈ eligible → credit_of credits q = 0) → balanced [] credits.
Proof.
  intros Hne H0. pose proof (total_weight_pos Hne). split.
  - intros q Hq. rewrite H0 by done. unfold times. cbn. lia.
  - intros q Hq. rewrite H0 by done. lia.
  - rewrite (sum_ext _ (λ q, 0 * 0 + 0 * 0)) by done. rewrite (sum_linear (λ _, 0) (λ _, 0)). cbn. lia.
Qed.

(** After as many opportunities as the total weight, each queue has had its
    weight, and all credits are zero again. *)
Lemma balanced_period served credits :
  eligible ≠ [] → balanced served credits → Z.of_nat (length served) = W →
  ∀ q, q ∈ eligible → times q served = queue_weight q ∧ credit_of credits q = 0.
Proof.
  intros Hne [Hc Hlow Hs] Hlen. pose proof (total_weight_pos Hne).
  assert (Heq : ∀ q, q ∈ eligible → times q served = queue_weight q).
  { apply sum_all_equal; [|by rewrite Hs]. intros q Hq. specialize (Hc q Hq). specialize (Hlow q Hq).
    rewrite Hlen in Hc. nia. }
  intros q Hq. split; [by apply Heq|]. rewrite Hc, Heq, Hlen by done. lia.
Qed.

End RoundRobin.
