(* ===== verification/SchedulerSafety.v ===== *)
(** * The dispatch cycle as a program logic

    A rule per primitive of the cycle's monad, and what follows from them:
    nothing the cycle calls can make its starts
    exceed the limits, and queues that stay eligible are served in proportion
    to their weights. *)

From stdpp Require Import base numbers strings list gmap sets.
From Stdlib Require Import Ascii.
From S2P Require Import Prelude Effects Values OutputCapture Uuid Domain SchedulerDispatch SchedulerFairness.
Local Open Scope Z_scope.

(** ** Rules *)

Section Logic.
Context {World : Type}.
Implicit Type s : Cycle World.

(** What the cycle calls leaves its locals alone. *)
Lemma wp_with_core {A} f (Q : A → Cycle World → Prop) (E : Cycle World → Prop) s :
  (∀ v c, f (core s) = (success v, c) → Q v (mkCycle c (capacity s) (cache s) (attempted s))) →
  (∀ e c, f (core s) = (failure e, c) → E (mkCycle c (capacity s) (cache s) (attempted s))) →
  wp (with_core f) Q E s.
Proof. intros HQ HE. unfold wp, with_core. destruct (f (core s)) as [[] c] eqn:Hf; eauto. Qed.

Lemma wp_call {A} f (Q : A → Cycle World → Prop) E s :
  (∀ v c, f (core s) = (v, c) → Q v (mkCycle c (capacity s) (cache s) (attempted s))) →
  wp (call f) Q E s.
Proof. intros HQ. unfold wp, call, with_core. destruct (f (core s)) as [v c] eqn:Hf. eauto. Qed.

Lemma wp_on_core f (Q : unit → Cycle World → Prop) E s :
  Q tt (mkCycle (f (core s)) (capacity s) (cache s) (attempted s)) → wp (on_core f) Q E s.
Proof. done. Qed.

Lemma wp_put_credit type queue v (Q : unit → Cycle World → Prop) E s :
  Q tt (mkCycle (set_credits type (<[queue := v]> (credits (core s) type)) (core s)) (capacity s) (cache s)
          (attempted s)) → wp (put_credit type queue v) Q E s.
Proof. done. Qed.

Lemma wp_put_capacity c (Q : unit → Cycle World → Prop) E s :
  Q tt (mkCycle (core s) c (cache s) (attempted s)) → wp (put_capacity c) Q E s.
Proof. done. Qed.

Lemma wp_put_batch type queue b (Q : unit → Cycle World → Prop) E s :
  (∀ m, Q tt (mkCycle (core s) (capacity s) m (attempted s))) → wp (put_batch type queue b) Q E s.
Proof. intros HQ. apply HQ. Qed.

Lemma wp_mark_attempted type run (Q : unit → Cycle World → Prop) E s :
  (∀ a, Q tt (mkCycle (core s) (capacity s) (cache s) a)) → wp (mark_attempted type run) Q E s.
Proof. intros HQ. apply HQ. Qed.

End Logic.

(** One step of symbolic execution. *)
Ltac wp_step :=
  first
  [ es_step
  | lazymatch goal with
    | |- wp is_terminal _ _ _ => apply wp_gets
    | |- wp (get_batch _ _) _ _ _ => apply wp_gets
    | |- wp (with_core _) _ _ _ => apply wp_with_core
    | |- wp (call _) _ _ _ => apply wp_call
    | |- wp (on_core _) _ _ _ => apply wp_on_core
    | |- wp (put_capacity _) _ _ _ => apply wp_put_capacity
    | |- wp (put_credit _ _ _) _ _ _ => apply wp_put_credit
    | |- wp (put_batch _ _ _) _ _ _ => apply wp_put_batch
    | |- wp (mark_attempted _ _) _ _ _ => apply wp_mark_attempted
    end ].
Ltac wp_steps := repeat (wp_step || (intros; cbn [core capacity cache attempted])).

(** ** Starts *)

(** How one claim may change the capacity. *)
Inductive started (type : JobType) (queue : bytes) (occupied : bool) (c : CapacityState) : CapacityState → Prop :=
  | started_none : started type queue occupied c c
  | started_one c' : record_start c type queue occupied = success c' → started type queue occupied c c'
  | started_done c1 effect c' :
      record_start c type queue occupied = success c1 →
      record_completion c1 type queue effect = success c' → started type queue occupied c c'.
#[local] Hint Constructors started : core.

Section Starts.
Context {World : Type} `{Outside World}.
Implicit Type s : Cycle World.

Lemma try_dispatch_started type now queue run occupied s :
  wp (try_dispatch type now queue run occupied)
    (λ r s', (r = false → capacity s' = capacity s) ∧ started type queue occupied (capacity s) (capacity s'))
    (λ s', started type queue occupied (capacity s) (capacity s')) s.
Proof.
  unfold try_dispatch.
  wp_steps; (split; [done|]) || idtac; eauto.
Qed.

(** A claim of [queue_loop]: with a slot that is already held, or with a new
    one of a queue that is not full. *)
Definition claimed (type : JobType) (q : EligibleQueue) (c c' : CapacityState) : Prop :=
  ∃ occupied, (blocking_only q = true → occupied = true) ∧
    started type (queue_id (runtime q)) occupied c c'.

Lemma batch_loop_started type now q remaining s :
  blocking_only q = false →
  wp (batch_loop remaining type now (queue_id (runtime q)))
    (λ r s', (r = false → capacity s' = capacity s) ∧ claimed type q (capacity s) (capacity s'))
    (λ s', claimed type q (capacity s) (capacity s')) s.
Proof.
  intros Hq. assert (Hclaim : ∀ o c c', started type (queue_id (runtime q)) o c c' → claimed type q c c').
  { intros o c c' Hs. exists o. by rewrite Hq. }
  revert s. induction remaining as [|run remaining IH]; intros s; cbn [batch_loop].
  { apply wp_ret. split; [done|]. apply (Hclaim false). eauto. }
  repeat (wp_step; intros). cbn [capacity]. eapply wp_mono; [| |apply try_dispatch_started].
  - cbn [capacity]. intros [] s1 [Hsame Hst]; [apply wp_ret; by eauto|]. specialize (Hsame eq_refl).
    rewrite <- Hsame. apply IH.
  - intros s1. apply Hclaim.
Qed.

Lemma blocking_loop_started fuel type now q s :
  wp (blocking_loop fuel type now (queue_id (runtime q)))
    (λ r s', (r = false → capacity s' = capacity s) ∧ claimed type q (capacity s) (capacity s'))
    (λ s', claimed type q (capacity s) (capacity s')) s.
Proof.
  assert (Hclaim : ∀ c c', started type (queue_id (runtime q)) true c c' → claimed type q c c').
  { intros c c' Hs. by exists true. }
  revert s. induction fuel as [|fuel IH]; intros s; cbn [blocking_loop].
  { apply wp_ret. eauto. }
  wp_step. wp_step. wp_step; [|apply wp_ret; by eauto].
  wp_step. wp_step. intros a. wp_step. cbn [capacity]. eapply wp_mono; [| |apply try_dispatch_started].
  - cbn [capacity]. intros [] s1 [Hsame Hst]; [apply wp_ret; by eauto|]. specialize (Hsame eq_refl).
    rewrite <- Hsame. apply IH.
  - intros s1. apply Hclaim.
Qed.

Lemma queue_loop_started type now q s :
  wp (queue_loop type now q)
    (λ r s', (r = false → capacity s' = capacity s) ∧ claimed type q (capacity s) (capacity s'))
    (λ s', claimed type q (capacity s) (capacity s')) s.
Proof.
  unfold queue_loop. destruct (blocking_only q) eqn:Hq; wp_step; wp_step.
  - apply blocking_loop_started.
  - by apply batch_loop_started.
Qed.

(** ** One visit *)

Lemma offer_started type now total q0 others s :
  wp (offer type now total q0 others)
    (λ '(i, sel, r) s', (q0 :: others) !! i = Some sel ∧ (r = false → capacity s' = capacity s) ∧
       claimed type sel (capacity s) (capacity s'))
    (λ s', capacity s' = capacity s ∨ ∃ sel, sel ∈ q0 :: others ∧ claimed type sel (capacity s) (capacity s')) s.
Proof.
  unfold offer. wp_step. wp_step.
  destruct (select_from _ _ _ _ _) as [i sel] eqn:Hsel. apply select_max in Hsel as [Hi _].
  wp_step. wp_step; [|by left]. intros v _. wp_step. wp_step. wp_step.
  eapply wp_mono; [| |apply queue_loop_started]; cbn [capacity].
  - intros r s' [??]. by apply wp_ret.
  - intros s' ?. right. exists sel. split; [by eapply list_elem_of_lookup_2|done].
Qed.

(** The claims a visit can make, from the capacity it starts with. *)
Definition visited (type : JobType) (eligible : list EligibleQueue) (c c' : CapacityState) : Prop :=
  c' = c ∨ ∃ q, q ∈ eligible ∧ claimed type q c c'.

Lemma visited_mono type e e' c c' : (∀ q, q ∈ e → q ∈ e') → visited type e c c' → visited type e' c c'.
Proof. intros He [->|(q & Hq & Hc)]; [by left|]. right. exists q. auto. Qed.

Lemma select_loop_started fuel type now total eligible s :
  wp (select_loop fuel type now total eligible)
    (λ _ s', visited type eligible (capacity s) (capacity s'))
    (λ s', visited type eligible (capacity s) (capacity s')) s.
Proof.
  revert total eligible s. induction fuel as [|fuel IH]; intros total eligible s; [apply wp_ret; by left|].
  destruct eligible as [|q0 others]; [apply wp_ret; by left|]. cbn [select_loop]. wp_step.
  eapply wp_mono; [| |apply offer_started]; [|done].
  intros [[i sel] r] s1 (Hi & Hsame & Hc). destruct r.
  { apply wp_ret. right. exists sel. split; [by eapply list_elem_of_lookup_2|done]. }
  rewrite <- (Hsame eq_refl). wp_step. wp_step. eapply wp_mono; [| |apply IH]; cbn [capacity].
  - intros _ s2. apply visited_mono. intros q. apply list_elem_of_delete_inv.
  - intros s2. apply visited_mono. intros q. apply list_elem_of_delete_inv.
Qed.

(** The queues of a visit are offered with the capacity they were found
    eligible for. *)
Definition eligible_for (c : CapacityState) (queues : list QueueRuntime) (q : EligibleQueue) : Prop :=
  runtime q ∈ queues ∧
  (blocking_only q = false → queue_slots_for c (queue_id (runtime q)) < concurrency_limit (runtime q)).

Lemma eligible_for_cons c q l x : eligible_for c l x → eligible_for c (q :: l) x.
Proof. intros [? ?]. split; [by apply elem_of_cons; right|done]. Qed.

Lemma load_candidate_batch_capacity type now limit queue c s :
  capacity s = c →
  wp (load_candidate_batch type now limit queue) (λ _ s', capacity s' = c) (λ s', capacity s' = c) s.
Proof. intros Hc. unfold load_candidate_batch. wp_steps; done. Qed.

Lemma collect_eligible_capacity type now limit queues c s :
  capacity s = c →
  wp (collect_eligible type now limit queues)
    (λ es s', capacity s' = c ∧ ∀ q, q ∈ es → eligible_for c queues q) (λ s', capacity s' = c) s.
Proof.
  revert s. induction queues as [|q queues IH]; intros s Hs; cbn [collect_eligible].
  { apply wp_ret. split; [done|]. intros q Hq. by apply elem_of_nil in Hq. }
  assert (Hskip : ∀ s, capacity s = c →
    wp (collect_eligible type now limit queues)
      (λ es s', capacity s' = c ∧ ∀ x, x ∈ es → eligible_for c (q :: queues) x) (λ s', capacity s' = c) s).
  { intros s0 Hs0. eapply wp_mono; [| |by apply IH]; [|done]. cbn beta. intros es s' [? He].
    split; [done|]. intros x Hx. by apply eligible_for_cons, He. }
  assert (Htake : ∀ b s, capacity s = c →
    (b = false → queue_slots_for c (queue_id q) < concurrency_limit q) →
    wp (rest ← collect_eligible type now limit queues; mret (mkEligible q b :: rest))
      (λ es s', capacity s' = c ∧ ∀ x, x ∈ es → eligible_for c (q :: queues) x) (λ s', capacity s' = c) s).
  { intros b s0 Hs0 Hb. wp_step. eapply wp_mono; [| |by apply IH]; [|done]. cbn beta. intros es s' [? He].
    apply wp_ret. split; [done|].
    intros x [->|Hx]%elem_of_cons; [split; [apply elem_of_cons; by left|done]|by apply eligible_for_cons, He]. }
  wp_step. wp_step. wp_step. wp_step. rewrite Hs. destruct (Z.leb_spec (concurrency_limit q) (queue_slots_for c (queue_id q))).
  - wp_step; [by apply Htake|]. wp_step. wp_step. by apply Hskip.
  - wp_step. eapply wp_mono; [| |by apply load_candidate_batch_capacity]; [|done].
    intros b s1 Hs1. cbn beta. wp_step; [wp_step; wp_step; by apply Hskip|by apply Htake].
Qed.

Lemma prepare_visit_capacity options queues type now c s :
  capacity s = c →
  wp (prepare_visit options queues type now)
    (λ r s', capacity s' = c ∧ ∀ total es, r = Some (total, es) →
       running_for c type < global_limit_for options type ∧ ∀ q, q ∈ es → eligible_for c queues q)
    (λ s', capacity s' = c) s.
Proof.
  intros Hs. unfold prepare_visit. wp_step. wp_step. wp_step. wp_step. rewrite Hs.
  destruct (Z.leb_spec (global_limit_for options type) (running_for c type)); rewrite ?orb_true_r, ?orb_false_r.
  { by apply wp_ret. }
  wp_step; [by apply wp_ret|]. wp_step. wp_step; [|done]. intros av c1 _. cbn beta.
  wp_step; [wp_step; wp_step; by apply wp_ret|]. wp_step. wp_step. wp_step; [by apply wp_ret|].
  wp_step. eapply wp_mono; [| |by apply (collect_eligible_capacity _ _ _ _ c)]; [|done]. cbn beta.
  intros es s2 [Hs2 He]. wp_step; [by apply wp_ret|]. wp_step. wp_step. wp_step. wp_step; [|done]. intros total _.
  wp_step. wp_step. apply wp_ret. split; [done|]. by intros ? ? [= <- <-].
Qed.

(** ** Limits *)

(** The capacity is within the given bounds. *)
Record within (running : JobType → Z) (slots : bytes → Z) (c : CapacityState) : Prop := {
  within_running type : 0 <= running_for c type <= running type;
  within_slots queue : 0 <= queue_slots_for c queue <= slots queue }.

Lemma running_for_set c type n t :
  running_for (set_running c type n) t = if bool_decide (t = type) then n else running_for c t.
Proof. by destruct type, t. Qed.

Lemma slots_set_running c type n k : queue_slots_for (set_running c type n) k = queue_slots_for c k.
Proof. by destruct type. Qed.

Lemma running_for_set_slots c k n t : running_for (set_slots c k n) t = running_for c t.
Proof. by destruct t. Qed.

Lemma slots_set c k n k' :
  queue_slots_for (set_slots c k n) k' = if bool_decide (k' = k) then n else queue_slots_for c k'.
Proof.
  unfold queue_slots_for, set_slots. cbn. case_bool_decide; [subst; by rewrite lookup_insert_eq|].
  by rewrite lookup_insert_ne.
Qed.

Create Rewrite HintDb capacity.
#[local] Hint Rewrite running_for_set slots_set_running running_for_set_slots slots_set : capacity.

Lemma record_start_within running slots c type queue occupied c' :
  within running slots c → running_for c type < running type →
  (occupied = false → queue_slots_for c queue < slots queue) →
  record_start c type queue occupied = success c' → within running slots c'.
Proof.
  intros [Hr Hs] Hlt Hq. unfold record_start. destruct (_ || _); [done|]. intros [= <-].
  split; intros x; pose proof (Hr type); [pose proof (Hr x)|pose proof (Hs x)]; destruct occupied;
    autorewrite with capacity; repeat case_bool_decide; subst; try specialize (Hq eq_refl); try pose proof (Hs queue); lia.
Qed.

Lemma record_completion_within running slots c type queue effect c' :
  within running slots c → record_completion c type queue effect = success c' → within running slots c'.
Proof.
  intros [Hr Hs]. unfold record_completion. destruct (_ || _) eqn:Hg; [done|]. intros [= <-].
  apply orb_false_iff in Hg as [Hg1%Z.eqb_neq Hg2].
  split; intros x; pose proof (Hr type); [pose proof (Hr x)|pose proof (Hs x)]; destruct (queue_slot_retained effect);
    cbn in Hg2; rewrite ?Z.eqb_neq in Hg2;
    autorewrite with capacity; repeat case_bool_decide; subst; lia.
Qed.

Lemma visited_within running slots options queues type es c c' :
  (∀ type, global_limit_for options type <= running type) →
  (∀ q, q ∈ queues → concurrency_limit q <= slots (queue_id q)) →
  running_for c type < global_limit_for options type → (∀ q, q ∈ es → eligible_for c queues q) →
  within running slots c → visited type es c c' → within running slots c'.
Proof.
  intros Hb Hsb Hlt He Hw [->|(q & Hq & o & Ho & Hst)]; [done|]. destruct (He q Hq) as [Hin Hfree].
  specialize (Hb type). specialize (Hsb _ Hin).
  assert (Hstart : ∀ c1, record_start c type (queue_id (runtime q)) o = success c1 → within running slots c1).
  { intros c1. apply record_start_within; [done|lia|]. intros ->.
    destruct (blocking_only q); [by specialize (Ho eq_refl)|]. specialize (Hfree eq_refl). lia. }
  destruct Hst as [|c' Hs|c1 effect c' Hs Hd]; [done|by apply Hstart|].
  eapply record_completion_within; [by apply Hstart|done].
Qed.

Section Limits.
Context (running : JobType → Z) (slots : bytes → Z) (options : SchedulerCoreOptions) (queues : list QueueRuntime).
Context (Hrunning : ∀ type, global_limit_for options type <= running type).
Context (Hslots : ∀ q, q ∈ queues → concurrency_limit q <= slots (queue_id q)).

Abbreviation inside := (λ s, within running slots (capacity s)).

Lemma dispatch_visit_within type now s :
  inside s → wp (dispatch_visit options queues type now) (λ _ s', inside s') (λ s', inside s') s.
Proof.
  intros Hw. unfold dispatch_visit. wp_step.
  eapply wp_mono; [| |by apply prepare_visit_capacity]; cbn beta; [|by intros s' ->].
  intros [[total es]|] s1 [Hs1 He]; [|apply wp_ret; by rewrite Hs1].
  destruct (He total es eq_refl) as [Hlt Hel].
  eapply wp_mono; [| |apply select_loop_started]; cbn beta; rewrite Hs1.
  - intros _ s2. by apply (visited_within _ _ options queues).
  - intros s2. by apply (visited_within _ _ options queues).
Qed.

Lemma after_visit_within k s :
  inside s → (∀ s, inside s → wp k (λ _ s', inside s') (λ s', inside s') s) →
  wp (after_visit k) (λ _ s', inside s') (λ s', inside s') s.
Proof. intros Hw Hk. unfold after_visit. wp_steps; auto. Qed.

Lemma dispatch_round_within now s :
  inside s → wp (dispatch_round options queues now) (λ _ s', inside s') (λ s', inside s') s.
Proof.
  intros Hw. unfold dispatch_round. wp_step. wp_step. wp_step.
  eapply wp_mono; [| |by apply dispatch_visit_within]; [|done]. intros first s0 Hs0. cbn beta.
  apply after_visit_within; [done|]. intros s1 Hs1. wp_step.
  eapply wp_mono; [| |by apply dispatch_visit_within]; [|done]. intros second s2 Hs2. cbn beta.
  apply after_visit_within; [done|]. intros s3 Hs3. wp_steps; done.
Qed.

Lemma dispatch_rounds_within fuel now any s :
  inside s → wp (dispatch_rounds fuel options queues now any) (λ _ s', inside s') (λ s', inside s') s.
Proof.
  revert any s. induction fuel as [|fuel IH]; intros any s Hw; cbn [dispatch_rounds]; [by apply wp_ret|].
  wp_step. eapply wp_mono; [| |by apply dispatch_round_within]; [|done].
  intros [] s1 Hs1; cbn beta; [by apply IH|by apply wp_ret..].
Qed.

End Limits.

Definition largest_limit (queues : list QueueRuntime) : Z :=
  foldr (λ q n, Z.max (concurrency_limit q) n) 0 queues.

Lemma largest_limit_max queues q : q ∈ queues → concurrency_limit q <= largest_limit queues.
Proof.
  unfold largest_limit. induction queues as [|x l IH]; [by intros ?%elem_of_nil|]. cbn.
  intros [->|Hq]%elem_of_cons; [|specialize (IH Hq)]; lia.
Qed.

(** C30.  Whatever the repository, the executor and the receivers do, a
    dispatch phase never raises the running count of a runner family above the
    configured concurrency, nor the occupied slots of a queue above its limit:
    a count that was higher when the phase began (limits may have been
    lowered) does not rise, every other one stays within its limit; and no
    count drops below zero.  This holds of the state left by a failure too. *)
Theorem dispatch_rounds_respects_limits fuel options queues now any s r s' :
  (∀ type, 0 <= running_for (capacity s) type) → (∀ queue, 0 <= queue_slots_for (capacity s) queue) →
  dispatch_rounds fuel options queues now any s = (r, s') →
  (∀ type, 0 <= running_for (capacity s') type <=
     Z.max (running_for (capacity s) type) (global_limit_for options type)) ∧
  (∀ queue limit, (∀ q, q ∈ queues → queue_id q = queue → concurrency_limit q <= limit) →
     0 <= queue_slots_for (capacity s') queue <= Z.max (queue_slots_for (capacity s) queue) limit).
Proof.
  intros Hr Hq Hrun.
  assert (Hin : ∀ running slots, (∀ type, global_limit_for options type <= running type) →
    (∀ q, q ∈ queues → concurrency_limit q <= slots (queue_id q)) →
    within running slots (capacity s) → within running slots (capacity s')).
  { intros running slots H1 H2 H3.
    pose proof (dispatch_rounds_within _ _ _ _ H1 H2 fuel now any s H3) as Hw. unfold wp in Hw.
    rewrite Hrun in Hw. by destruct r. }
  split.
  - intros type. apply (Hin (λ t, Z.max (running_for (capacity s) t) (global_limit_for options t))
      (λ k, Z.max (queue_slots_for (capacity s) k) (largest_limit queues))).
    + lia.
    + intros q Hqin. pose proof (largest_limit_max _ _ Hqin). lia.
    + split; [intros t; specialize (Hr t)|intros k; specialize (Hq k)]; lia.
  - intros queue limit Hl.
    pose proof (Hin (λ t, Z.max (running_for (capacity s) t) (global_limit_for options t))
      (λ k, Z.max (queue_slots_for (capacity s) k)
              (if bool_decide (k = queue) then limit else largest_limit queues))) as [_ Hs].
    + lia.
    + intros q Hqin. pose proof (largest_limit_max _ _ Hqin). specialize (Hl q Hqin).
      case_bool_decide; [specialize (Hl ltac:(done))|]; lia.
    + split; [intros t; specialize (Hr t)|intros k; specialize (Hq k)]; lia.
    + specialize (Hs queue). by rewrite bool_decide_true in Hs.
Qed.

End Starts.

(** ** Fair shares *)

(** What the cycle calls leaves the fairness credits alone: no receiver
    resets the scheduler in the middle of a cycle. *)
Class CreditsKept World `{Outside World} := {
  kept_available type c : credits (snd (type_available type c)) = credits c;
  kept_runnable queue type now limit c : credits (snd (list_runnable queue type now limit c)) = credits c;
  kept_boundary now c : credits (snd (claim_boundary now c)) = credits c;
  kept_dispatch run at_ c : credits (snd (dispatch_selected run at_ c)) = credits c;
  kept_started v c : credits (started_delivery v c) = credits c;
  kept_delayed v c : credits (snd (delayed_delivery v c)) = credits c;
  kept_completion run v c : credits (snd (completion_processor run v c)) = credits c;
  kept_delivery v c : credits (completion_delivery v c) = credits c }.

Section Shares.
Context {World : Type} `{CreditsKept World}.
Implicit Type s : Cycle World.

(** A computation that keeps the credits. *)
Definition keeps {A} (m : M World A) : Prop := ∀ cr s,
  credits (core s) = cr → wp m (λ _ s', credits (core s') = cr) (λ _, True) s.

Lemma keeps_bind {A B} (m : M World A) (k : A → M World B) : keeps m → (∀ v, keeps (k v)) → keeps (m ≫= k).
Proof.
  intros Hm Hk cr s Hs. apply wp_bind. eapply wp_mono; [| |by apply Hm]; [|done]. intros v s' Hs'. by apply Hk.
Qed.
Lemma keeps_ret {A} (v : A) : keeps (mret v).
Proof. by intros cr s Hs. Qed.
Lemma keeps_throw {A} e : keeps (throw (A := A) e).
Proof. by intros cr s Hs. Qed.
Lemma keeps_of_result {A} (r : result Error A) : keeps (of_result r).
Proof. intros cr s Hs. apply wp_of_result; [intros|]; done. Qed.
Lemma keeps_gets {A} (f : Cycle World → A) : keeps (gets f).
Proof. by intros cr s Hs. Qed.
Lemma keeps_put_capacity c : keeps (put_capacity c).
Proof. by intros cr s Hs. Qed.
Lemma keeps_put_batch type queue b : keeps (put_batch type queue b).
Proof. by intros cr s Hs. Qed.
Lemma keeps_mark_attempted type run : keeps (mark_attempted type run).
Proof. by intros cr s Hs. Qed.
Lemma keeps_with_core {A} (f : SchedulerCore World → result Error A * SchedulerCore World) :
  (∀ c, credits (snd (f c)) = credits c) → keeps (with_core f).
Proof.
  intros Hf cr s Hs. specialize (Hf (core s)). apply wp_with_core; [|done].
  intros v c Hc. rewrite Hc in Hf. cbn in *. congruence.
Qed.
Lemma keeps_call {A} (f : SchedulerCore World → A * SchedulerCore World) :
  (∀ c, credits (snd (f c)) = credits c) → keeps (call f).
Proof.
  intros Hf. apply keeps_with_core. intros c. specialize (Hf c). by destruct (f c).
Qed.
Lemma keeps_on_core (f : SchedulerCore World → SchedulerCore World) :
  (∀ c, credits (f c) = credits c) → keeps (on_core f).
Proof. intros Hf. by apply keeps_call. Qed.

Create HintDb keeps.
#[local] Hint Resolve keeps_ret keeps_throw keeps_of_result keeps_gets keeps_put_capacity keeps_put_batch
  keeps_mark_attempted keeps_with_core keeps_call keeps_on_core kept_available kept_runnable kept_boundary
  kept_dispatch kept_started kept_delayed kept_completion kept_delivery : keeps.

Ltac keep :=
  repeat first
    [ apply keeps_bind; [|intros ?]
    | progress eauto with keeps
    | match goal with
      | |- keeps (if ?b then _ else _) => destruct b
      | |- keeps (match ?o with Some _ => _ | None => _ end) => destruct o
      end ].

Lemma try_dispatch_keeps type now queue run occupied : keeps (try_dispatch type now queue run occupied).
Proof. unfold try_dispatch, is_terminal. keep. Qed.
#[local] Hint Resolve try_dispatch_keeps : keeps.

Lemma batch_loop_keeps remaining type now queue : keeps (batch_loop remaining type now queue).
Proof. unfold get_batch. induction remaining; cbn [batch_loop]; unfold get_batch; keep. Qed.
Lemma blocking_loop_keeps fuel type now queue : keeps (blocking_loop fuel type now queue).
Proof. induction fuel; cbn [blocking_loop]; keep. Qed.
#[local] Hint Resolve batch_loop_keeps blocking_loop_keeps : keeps.

Lemma queue_loop_keeps type now q : keeps (queue_loop type now q).
Proof. unfold queue_loop, get_batch. keep. Qed.
Lemma load_candidate_batch_keeps type now limit queue : keeps (load_candidate_batch type now limit queue).
Proof. unfold load_candidate_batch, get_batch. keep. Qed.

(** ** Opportunities *)

Lemma ids_sublist es queues k : map runtime es `sublist_of` queues → k ∈ ids es → k ∈ map queue_id queues.
Proof.
  intros Hsub (x & -> & Hx)%list_elem_of_fmap. apply list_elem_of_fmap. exists (runtime x). split; [done|].
  eapply elem_of_sublist; [|done]. apply list_elem_of_fmap. by exists x.
Qed.

(** A queue that is passed over has its credit zeroed, the others keep it. *)
Lemma collect_eligible_credits type now limit queues cr s :
  NoDup (map queue_id queues) → credits (core s) type = cr →
  wp (collect_eligible type now limit queues)
    (λ es s', map runtime es `sublist_of` queues ∧
       (∀ k, k ∉ map queue_id queues ∨ k ∈ ids es → credit (credits (core s') type) k = credit cr k))
    (λ _, True) s.
Proof.
  revert cr s. induction queues as [|q queues IH]; intros cr s Hnd Hs; cbn [collect_eligible].
  { apply wp_ret. rewrite Hs. split; [constructor|done]. }
  cbn [map] in *. apply NoDup_cons in Hnd as [Hq Hnd].
  set (Q := λ (es : list EligibleQueue) (s' : Cycle World), _ ∧ _).
  assert (Hskip : ∀ s, credits (core s) type = cr →
    wp (_ ← put_credit type (queue_id q) 0; collect_eligible type now limit queues) Q (λ _, True) s).
  { intros s0 Hs0. wp_step. wp_step. eapply wp_mono; [| |apply (IH (<[queue_id q := 0]> cr))]; [|done|done|].
    - cbn beta. intros es s' [Hsub He]. split; [by apply sublist_cons|]. intros k Hk.
      assert (queue_id q ≠ k).
      { intros <-. destruct Hk as [Hk|Hk]; [apply Hk, elem_of_cons; by left|].
        by apply Hq, (ids_sublist es). }
      rewrite He; [by apply credit_insert_ne|]. rewrite not_elem_of_cons in Hk. naive_solver.
    - cbn. unfold update_type. rewrite bool_decide_true by done. by rewrite Hs0. }
  assert (Htake : ∀ b s, credits (core s) type = cr →
    wp (rest ← collect_eligible type now limit queues; mret (mkEligible q b :: rest)) Q (λ _, True) s).
  { intros b s0 Hs0. wp_step. eapply wp_mono; [| |by apply (IH cr)]; [|done]. cbn beta.
    intros es s' [Hsub He]. apply wp_ret. split; [by apply sublist_skip|]. intros k Hk. apply He.
    rewrite not_elem_of_cons in Hk. cbn [ids map runtime] in Hk. rewrite elem_of_cons in Hk. naive_solver. }
  wp_step. wp_step. wp_step. wp_step. wp_step.
  - wp_step; [by apply Htake|by apply Hskip].
  - wp_step. eapply wp_mono; [| |by apply load_candidate_batch_keeps]; [|done].
    intros b s1 Hs1. cbn beta. wp_step; [apply Hskip|apply Htake]; by rewrite Hs1.
Qed.

(** A prepared visit has the total weight, and has added each weight to the
    credit of its queue. *)
Lemma checked_total_sum credits acc es total :
  checked_total credits acc es = success total → total = acc + total_weight es.
Proof.
  unfold total_weight. revert acc. induction es as [|q es IH]; intros acc; cbn [checked_total].
  { intros [= <-]. cbn. lia. }
  rewrite sum_cons. unfold queue_weight at 1. repeat case_match; try done. intros ->%IH. lia.
Qed.

Lemma prepare_visit_credits options queues type now cr s :
  NoDup (map queue_id queues) → credits (core s) type = cr →
  wp (prepare_visit options queues type now)
    (λ r s', ∀ total es, r = Some (total, es) →
       map runtime es `sublist_of` queues ∧ total = total_weight es ∧
       ∃ cr', (∀ k, k ∈ ids es → credit cr' k = credit cr k) ∧ credits (core s') type = add_weights es cr')
    (λ _, True) s.
Proof.
  intros Hnd Hs. unfold prepare_visit. wp_step. wp_step. wp_step. wp_step. wp_step; [by apply wp_ret|].
  wp_step. eapply wp_mono; [| |apply keeps_with_core; [apply kept_available|done]]; [|done]. cbn beta.
  intros av s1 Hs1. wp_step; [wp_step; wp_step; by apply wp_ret|]. wp_step. wp_step. wp_step; [by apply wp_ret|].
  wp_step. eapply wp_mono; [| |apply (collect_eligible_credits _ _ _ _ cr); [done|by rewrite Hs1]]; [|done].
  cbn beta. intros es s2 [Hsub He]. wp_step; [by apply wp_ret|]. wp_step. wp_step. wp_step. wp_step; [|done].
  intros total Htotal%checked_total_sum. wp_step. wp_step. apply wp_ret. intros ? ? [= <- <-].
  split_and!; [done|lia|]. exists (credits (core s2) type). split; [by auto|].
  cbn. unfold update_type. by rewrite bool_decide_true.
Qed.

(** A visit whose selected queue uses its opportunity: the eligible queues,
    the one that is served, and the state after it. *)
Definition opportunity (options : SchedulerCoreOptions) (queues : list QueueRuntime) (type : JobType) (now : Z) s
    : option (list QueueRuntime * bytes * Cycle World) :=
  match prepare_visit options queues type now s with
  | (success (Some (total, q0 :: others)), s1) =>
      match offer type now total q0 others s1 with
      | (success (_, selected, true), s2) =>
          Some (map runtime (q0 :: others), queue_id (runtime selected), s2)
      | _ => None
      end
  | _ => None
  end.

Lemma opportunity_visit options queues type now s E q s' :
  opportunity options queues type now s = Some (E, q, s') →
  dispatch_visit options queues type now s = (success true, s').
Proof.
  unfold opportunity, dispatch_visit, mbind at 1, ES_bind at 1.
  destruct (prepare_visit _ _ _ _ _) as [[[[total [|q0 others]]|]|] s1]; try done.
  cbn [length select_loop]. unfold mbind, ES_bind.
  destruct (offer _ _ _ _ _ _) as [[[[i sel] []]|] s2]; try done. by intros [= <- <- <-].
Qed.

(** The eligible queues as the fairness laws take them. *)
Definition as_eligible (E : list QueueRuntime) : list EligibleQueue := map (λ q, mkEligible q false) E.

Lemma as_eligible_ids E : ids (as_eligible E) = map queue_id E.
Proof. unfold ids, as_eligible. by rewrite map_map. Qed.

(** The selection sees the queues only. *)
Lemma select_from_runtime credits q0 q0' i n others others' :
  runtime q0 = runtime q0' → map runtime others = map runtime others' →
  runtime (snd (select_from credits q0 i n others)) = runtime (snd (select_from credits q0' i n others')).
Proof.
  revert q0 q0' i n others'. induction others as [|q others IH]; intros q0 q0' i n [|q' others']; try done.
  cbn [map select_from]. intros Hq0 [= Hq Ho]. unfold preferred. rewrite Hq0, Hq.
  destruct (_ || _); by apply IH.
Qed.

Lemma add_weights_runtime es es' m : map runtime es = map runtime es' → add_weights es m = add_weights es' m.
Proof.
  revert es' m. induction es as [|q es IH]; intros [|q' es'] m; try done. cbn [map]. intros [= Hq He].
  rewrite !add_weights_cons. unfold credit_of, queue_weight. rewrite Hq. by apply IH.
Qed.

Lemma total_weight_runtime es es' : map runtime es = map runtime es' → total_weight es = total_weight es'.
Proof.
  unfold total_weight. revert es'. induction es as [|q es IH]; intros [|q' es']; try done. cbn [map].
  intros [= Hq He]. rewrite !sum_cons. unfold queue_weight at 1 3. rewrite Hq. f_equal. by apply IH.
Qed.

Lemma serve_runtime es es' m : map runtime es = map runtime es' → serve es m = serve es' m.
Proof.
  intros Hes. pose proof Hes as Hes'. destruct es as [|q es], es' as [|q' es']; try done.
  cbn [map] in Hes'. injection Hes' as Hq He. unfold serve.
  rewrite (add_weights_runtime _ _ m Hes), (total_weight_runtime _ _ Hes). unfold credit_of.
  by rewrite (select_from_runtime (add_weights (q' :: es') m) q q' 0 1 es es').
Qed.

(** The selected queue pays the total. *)
Lemma offer_credits type now total q0 others s :
  wp (offer type now total q0 others)
    (λ '(_, sel, _) s', sel = snd (select_from (credits (core s) type) q0 0 1 others) ∧
       credits (core s') type =
         <[queue_id (runtime sel) := credit_of (credits (core s) type) sel - total]> (credits (core s) type))
    (λ _, True) s.
Proof.
  unfold offer. wp_step. wp_step. destruct (select_from _ _ _ _ _) as [i sel] eqn:Hsel. cbn [snd].
  wp_step. wp_step; [|done]. unfold subtract_total. intros v Hv.
  destruct (_ <? _); [done|]. injection Hv as <-. wp_step. wp_step. wp_step.
  eapply wp_mono; [| |by apply queue_loop_keeps]; [|done]. cbn beta. intros r s' Hs'. apply wp_ret.
  split; [done|]. rewrite Hs'. cbn. unfold update_type. by rewrite bool_decide_true.
Qed.

(** An opportunity acts on the credits of its queues as [serve]. *)
Lemma opportunity_serve options queues type now s E q s' :
  NoDup (map queue_id queues) → opportunity options queues type now s = Some (E, q, s') →
  E ≠ [] ∧ NoDup (map queue_id E) ∧
  ∃ cr, (∀ k, k ∈ map queue_id E → credit cr k = credit (credits (core s) type) k) ∧
        serve (as_eligible E) cr = (q, credits (core s') type).
Proof.
  intros Hnd. unfold opportunity.
  destruct (prepare_visit _ _ _ _ _) as [[[[total [|q0 others]]|]|] s1] eqn:Hp; try done.
  destruct (wp_sound _ _ _ _ _ _ (prepare_visit_credits options queues type now _ s Hnd eq_refl) Hp total (q0 :: others) eq_refl)
    as (Hsub & -> & cr & Hcr & Hadd).
  destruct (offer _ _ _ _ _ _) as [[[[i sel] []]|] s2] eqn:Ho; try done. intros [= <- <- <-].
  split; [done|]. split; [by eapply sublist_NoDup, (fmap_sublist queue_id)|].
  exists cr. split; [intros k Hk; apply Hcr; revert Hk; unfold ids; by rewrite <- (map_map runtime queue_id)|].
  rewrite (serve_runtime _ (q0 :: others)) by (unfold as_eligible; rewrite !map_map; by rewrite map_id).
  unfold serve. rewrite <- Hadd.
  pose proof (offer_credits type now (total_weight (q0 :: others)) q0 others s1) as Hw.
  destruct (wp_sound _ _ _ _ _ _ Hw Ho) as [<- ->]. done.
Qed.

(** A sequence of used opportunities of one runner family, the latest first.
    Between two of them anything may happen that leaves the credits of the
    queues [E] as they are: visits of the other family, other cycles, changes
    of limits and options. *)
Inductive served_run (type : JobType) (E : list QueueRuntime) s : list bytes → Cycle World → Prop :=
  | served_none : served_run type E s [] s
  | served_next served s1 s2 options queues now q s3 :
      served_run type E s served s1 →
      (∀ k, k ∈ map queue_id E → credit (credits (core s2) type) k = credit (credits (core s1) type) k) →
      NoDup (map queue_id queues) →
      opportunity options queues type now s2 = Some (E, q, s3) →
      served_run type E s (q :: served) s3.

Lemma balanced_ext E served cr cr' :
  (∀ k, k ∈ map queue_id E → credit cr' k = credit cr k) →
  balanced (as_eligible E) served cr → balanced (as_eligible E) served cr'.
Proof.
  intros Hk [H1 H2 H3].
  assert (Hq : ∀ q, q ∈ as_eligible E → credit_of cr' q = credit_of cr q).
  { intros q Hq. apply Hk. rewrite <- as_eligible_ids. apply list_elem_of_fmap. by exists q. }
  split; [intros q Hin; rewrite Hq by done; by apply H1|intros q Hin; rewrite Hq by done; by apply H2|done].
Qed.

Lemma served_run_balanced type E s served s' :
  (∀ q, q ∈ E → 0 < weight q) → (∀ q, q ∈ E → credit (credits (core s) type) (queue_id q) = 0) →
  E ≠ [] → served_run type E s served s' → balanced (as_eligible E) served (credits (core s') type).
Proof.
  intros Hw Hzero Hne. assert (Hw' : ∀ q, q ∈ as_eligible E → 0 < queue_weight q).
  { intros q (x & -> & Hx)%list_elem_of_fmap. by apply Hw. }
  assert (Hne' : as_eligible E ≠ []) by (by destruct E).
  induction 1 as [|served s1 s2 options queues now q s3 _ IH Hsame Hnd Hop].
  - apply balanced_start; [done..|]. intros q (x & -> & Hx)%list_elem_of_fmap. by apply Hzero.
  - destruct (opportunity_serve _ _ _ _ _ _ _ _ Hnd Hop) as (_ & HndE & cr & Hcr & Hserve).
    eapply serve_balanced; [by rewrite as_eligible_ids|done|done| |done].
    apply (balanced_ext E served (credits (core s1) type)); [|done]. intros k Hk. by rewrite Hcr, Hsame.
Qed.

Definition times_served (queue : bytes) (served : list bytes) : Z :=
  Z.of_nat (length (filter (λ k, k = queue) served)).

(** C31.  Queues that stay eligible are served exactly in proportion to their
    weights.  Over as many used opportunities as the weights of the eligible
    queues add up to, starting from zero credits, the scheduler's selection
    serves every one of them exactly as often as its weight says, none is
    starved, and all credits are back at zero, so that the next period repeats
    this; at no point in between does a credit reach minus the total weight. *)
Theorem weighted_fair_shares type E s served s' :
  E ≠ [] → (∀ q, q ∈ E → 0 < weight q) →
  (∀ q, q ∈ E → credit (credits (core s) type) (queue_id q) = 0) →
  served_run type E s served s' →
  (∀ q, q ∈ E → - total_weight (as_eligible E) < credit (credits (core s') type) (queue_id q)) ∧
  (Z.of_nat (length served) = total_weight (as_eligible E) →
   ∀ q, q ∈ E → times_served (queue_id q) served = weight q ∧ credit (credits (core s') type) (queue_id q) = 0).
Proof.
  intros Hne Hw Hzero Hrun. pose proof (served_run_balanced _ _ _ _ _ Hw Hzero Hne Hrun) as Hb.
  assert (Hin : ∀ q, q ∈ E → mkEligible q false ∈ as_eligible E)
    by (intros q Hq; apply list_elem_of_fmap; by exists q).
  split; [intros q Hq; apply (balanced_lower _ _ _ Hb _ (Hin q Hq))|].
  intros Hlen q Hq. apply (balanced_period (as_eligible E)) with (q := mkEligible q false); try done; auto.
  - intros x (y & -> & Hy)%list_elem_of_fmap. by apply Hw.
  - by destruct E.
Qed.

End Shares.

(** ** A scheduler to run

    The repository always has another due run, numbered by a counter; the
    executor accepts every start and nothing completes. *)
Module Steady.

Definition bump (c : SchedulerCore nat) : SchedulerCore nat := set_world (S (world c)) c.
Definition context : ExecutionContext := mkExecution [] [] [] Cli OriginScheduled.

#[global] Instance steady : Outside nat := {|
  type_available _ c := (success true, c);
  list_runnable _ _ _ _ c := (success [[Z.of_nat (world c)]], bump c);
  claim_boundary now c := (success now, c);
  dispatch_selected run at_ c := (success (Some (mkDispatch (mkKey run 1) context Accepted at_ (Some at_) None None)), c);
  started_delivery _ c := c;
  delayed_delivery _ c := (true, c);
  completion_processor _ _ c := (success None, c);
  completion_delivery _ c := c;
  utc_now _ := 0;
  list_runtime_queues _ _ c := (success [], c);
  list_capacity_rows _ _ c := (success [], c);
  list_manual_barriers _ _ c := (success [], c);
  observe_backlog c := (success (None, false), c);
  earliest_future_runnable _ _ c := (success None, c) |}.

#[global] Instance steady_kept : CreditsKept nat.
Proof. split; done. Qed.

Definition options : SchedulerCoreOptions := mkOptions 4 4 1.
Definition queue_a : QueueRuntime := mkQueue [1] 2 3.
Definition queue_b : QueueRuntime := mkQueue [2] 1 9.
Definition start : Cycle nat :=
  mkCycle (mkCore ∅ (λ _, ∅) ∅ ∅ None false true 0%nat) empty_capacity (λ _, ∅) (λ _, ∅).

(** The queues that [n] visits in a row serve, both queues being eligible. *)
Fixpoint visits (n : nat) : option (list bytes * Cycle nat) :=
  match n with
  | O => Some ([], start)
  | S n =>
      '(served, s) ← visits n;
      '(E, q, s') ← opportunity options [queue_a; queue_b] Cli 0 s;
      if bool_decide (E = [queue_a; queue_b]) then Some (q :: served, s') else None
  end.

Lemma visits_run n served s :
  visits n = Some (served, s) → served_run Cli [queue_a; queue_b] start served s.
Proof.
  revert served s. induction n as [|n IH]; intros served s; cbn [visits].
  { intros [= <- <-]. constructor. }
  destruct (visits n) as [[served1 s1]|]; [|discriminate]. cbn [mbind option_bind].
  destruct (opportunity _ _ _ _ _) as [[[E q] s2]|] eqn:Ho; [|discriminate]. cbn [mbind option_bind].
  case_bool_decide as HE; [|discriminate]. intros [= <- <-]. rewrite HE in Ho.
  eapply served_next; [by apply IH|reflexivity| |exact Ho].
  apply (bool_decide_unpack _). vm_compute. exact I.
Qed.

End Steady.

Lemma weighted_fair_shares_witness :
  match Steady.visits 3 with
  | None => False
  | Some (served, s') =>
      served = [[1]; [2]; [1]] ∧
      ∀ q, q ∈ [Steady.queue_a; Steady.queue_b] →
        times_served (queue_id q) served = weight q ∧ credit (credits (core s') Cli) (queue_id q) = 0
  end.
Proof.
  assert (Hs : fst <$> Steady.visits 3 = Some [[1]; [2]; [1]]) by (vm_compute; reflexivity).
  pose proof (Steady.visits_run 3) as Hrun. revert Hrun Hs.
  generalize (Steady.visits 3). intros [[served s']|] Hrun Hs; [|discriminate].
  specialize (Hrun _ _ eq_refl). cbn in Hs. injection Hs as ->. split; [reflexivity|].
  refine (proj2 (weighted_fair_shares Cli [Steady.queue_a; Steady.queue_b] Steady.start _ s' _ _ _ Hrun) _).
  - discriminate.
  - intros q [->|[->|?%elem_of_nil]%elem_of_cons]%elem_of_cons; [reflexivity..|contradiction].
  - intros q _. reflexivity.
  - reflexivity.
Defined.

Lemma dispatch_rounds_respects_limits_witness :
  let '(r, s') := dispatch_rounds 10 Steady.options [Steady.queue_a; Steady.queue_b] 0 false Steady.start in
  r = success (Some (Idle, true)) ∧
  cli_running (capacity s') = 4 ∧ http_running (capacity s') = 4 ∧
  0 <= queue_slots_for (capacity s') [1] <= 3.
Proof.
  pose proof (dispatch_rounds_respects_limits 10 Steady.options [Steady.queue_a; Steady.queue_b] 0 false
    Steady.start) as Hlim.
  assert (Hrun : (λ '(r, s'), (r, cli_running (capacity s'), http_running (capacity s')))
    (dispatch_rounds 10 Steady.options [Steady.queue_a; Steady.queue_b] 0 false Steady.start) =
    (success (Some (Idle, true)), 4, 4)) by (vm_compute; reflexivity).
  revert Hlim Hrun. generalize (dispatch_rounds 10 Steady.options [Steady.queue_a; Steady.queue_b] 0 false Steady.start).
  intros [r s'] Hlim [= -> -> ->]. do 3 (split; [reflexivity|]).
  destruct (Hlim _ s' ltac:(intros []; discriminate) ltac:(intros k; discriminate) eq_refl) as [_ Hs].
  apply (Hs [1] 3). intros q [->|[->|?%elem_of_nil]%elem_of_cons]%elem_of_cons; [|discriminate|contradiction].
  intros _. discriminate.
Defined.
