(* ===== verification/EventLoop.v ===== *)
(** * Timers and the event loop

    [src/core/timer_heap.hpp] and [src/core/event_loop.cpp]: the heap of timers
    with lazy cancellation, the queues of tasks, object events and deferred
    deletions, the watches of descriptors and processes, and the passes of the
    loop over them.

    A callback is known by what it stands for ([Callback]); what it does is the
    list of operations of the loop that [react] gives for the state in which it
    is called, which may be any.  Callbacks that process events recursively are
    left out.  The clock, the operating system's readiness interface and the
    operations that other threads perform before a queue is taken are the class
    [Machine], asked in order.  The order in which [std::push_heap] and
    [std::pop_heap] arrange equal deadlines is theirs: [top] is any choice of a
    first entry, and [TopContract] what the standard says of it. *)

From stdpp Require Import base strings list gmap.
From S2P Require Import Prelude.

Definition Task := Z.
Definition Object := Z.

(** ** The timers *)

Record TimerEntry := mkTimer { te_id : Z; te_callback : Task; deadline : Z; interval : Z }.
#[global] Instance timer_entry_eq : EqDecision TimerEntry.
Proof. solve_decision. Defined.

Record TimerHeap := mkHeap { heap : list TimerEntry; timers : gset Z; next_id : Z }.

Definition id_limit : Z := 2 ^ 64.

Definition no_timers : TimerHeap := mkHeap [] ∅ 1.

Definition push_heap (e : TimerEntry) (h : TimerHeap) : TimerHeap := mkHeap (heap h ++ [e]) (timers h) (next_id h).

(** [TimerHeap::start]; the handle is the identifier. *)
Definition start (cb : Task) (due every : Z) (h : TimerHeap) : Z * TimerHeap :=
  let id := next_id h in
  let h := push_heap (mkTimer id cb due every) (mkHeap (heap h) (timers h) ((id + 1) mod id_limit)) in
  (id, mkHeap (heap h) ({[id]} ∪ timers h) (next_id h)).

Definition cancel (id : Z) (h : TimerHeap) : TimerHeap := mkHeap (heap h) (timers h ∖ {[id]}) (next_id h).

(** The place of the entry that is at the front of the heap. *)
Class HeapOrder := top : list TimerEntry → nat.

Section Heap.
Context {order : HeapOrder}.

Definition front (h : TimerHeap) : option TimerEntry := heap h !! top (heap h).

Definition pop_heap (h : TimerHeap) : TimerHeap := mkHeap (delete (top (heap h)) (heap h)) (timers h) (next_id h).

(** [discard_cancelled_top], for a heap of at most [fuel] entries. *)
Fixpoint discard (fuel : nat) (h : TimerHeap) : TimerHeap :=
  match fuel with
  | O => h
  | S fuel =>
      match front h with
      | Some e => if bool_decide (te_id e ∈ timers h) then h else discard fuel (pop_heap h)
      | None => h
      end
  end.

Definition discard_cancelled_top (h : TimerHeap) : TimerHeap := discard (length (heap h)) h.

Definition next_deadline (h : TimerHeap) : option Z * TimerHeap :=
  let h := discard_cancelled_top h in (deadline <$> front h, h).

End Heap.

(** What the standard promises of the front: the entry is there, and none is
    due before it. *)
Class TopContract (order : HeapOrder) : Prop := {
  top_least es : es ≠ [] → ∃ e, es !! top es = Some e ∧ ∀ e', e' ∈ es → deadline e <= deadline e' }.

(** ** The loop *)

Inductive Payload := AnEvent (e : Z) | ADelivery (t : Task).
#[global] Instance payload_eq : EqDecision Payload.
Proof. solve_decision. Defined.

Inductive Callback :=
  | TaskCall (t : Task)
  | TimerCall (t : Task)
  | FdCall (cb : Task) (fd : Z) (ready : Z)
  | ProcessCall (cb : Task)
  | Deliver (receiver : Object) (p : Payload)
  | Destructor (o : Object).

Inductive FdTriggerMode := Edge | Level.
#[global] Instance trigger_mode_eq : EqDecision FdTriggerMode.
Proof. solve_decision. Defined.

Record WatchEntry := mkWatch { watch_callback : Task; watch_events : Z; trigger_mode : FdTriggerMode; refresh_required : bool }.
Record ProcessWatchEntry := mkProcessWatch { process_callback : Task; removal_failed : bool }.

(** What can be asked of the loop; [Quit] is the task that [EventLoop::quit]
    posts. *)
Inductive Op :=
  | Post (t : Task)
  | PostEvent (receiver : Object) (p : Payload)
  | DeferDelete (o : Object)
  | PostDelayed (delay : Z) (t : Task)
  | PostAt (when : Z) (t : Task)
  | PostRepeating (every : Z) (t : Task)
  | CancelTimer (id : Z)
  | WatchFd (fd : Z) (evs : Z) (mode : FdTriggerMode) (cb : Task)
  | UnwatchFd (fd : Z)
  | WatchProcess (pid : Z) (cb : Task)
  | UnwatchProcess (pid : Z)
  | RequestQuit
  | Delete (o : Object).

(** Operations that threads other than the loop's may perform. *)
Definition thread_safe (op : Op) : bool :=
  match op with Post _ | PostEvent _ _ | DeferDelete _ | RequestQuit => true | _ => false end.

Inductive ReadyEventKind := FileDescriptor | ChildProcess.
#[global] Instance ready_kind_eq : EqDecision ReadyEventKind.
Proof. solve_decision. Defined.
Record ReadyEvent := mkReady { kind : ReadyEventKind; ident : Z; ready_events : Z }.
#[global] Instance ready_event_eq : EqDecision ReadyEvent.
Proof. solve_decision. Defined.

Inductive ProcessRegistrationResult := Added | Unsupported | RegistrationFailed.

Inductive Happening :=
  | Started (id : Z)
  | Fired (id : Z) (due : Z)
  | Revoked (id : Z)
  | Ran (t : Task)
  | Delivered (receiver : Object) (p : Payload)
  | Deleted (o : Object)
  | Dispatched (e : ReadyEvent)
  | Discarded (n : nat).
#[global] Instance happening_eq : EqDecision Happening.
Proof. solve_decision. Defined.

Class Machine := {
  has_backend : bool;
  clock : nat → Z;
  wakeup : nat → bool;
  add_fd : nat → bool;
  remove_fd : nat → bool;
  add_process : nat → ProcessRegistrationResult;
  remove_process : nat → bool;
  poll : nat → option (list ReadyEvent);
  arrivals : nat → list Op }.

Record Loop := mkLoop {
  running : bool;
  task_queue : list Task;
  event_queue : list (Object * Payload);
  deferred_delete_queue : list Object;
  timer_heap : TimerHeap;
  watchers : gmap Z WatchEntry;
  process_watchers : gmap Z ProcessWatchEntry;
  alive : gset Object;
  asked : nat;
  log : list Happening }.

Definition with_running (b : bool) (l : Loop) : Loop :=
  mkLoop b (task_queue l) (event_queue l) (deferred_delete_queue l) (timer_heap l) (watchers l) (process_watchers l)
    (alive l) (asked l) (log l).
Definition with_tasks (ts : list Task) (l : Loop) : Loop :=
  mkLoop (running l) ts (event_queue l) (deferred_delete_queue l) (timer_heap l) (watchers l) (process_watchers l)
    (alive l) (asked l) (log l).
Definition with_events (es : list (Object * Payload)) (l : Loop) : Loop :=
  mkLoop (running l) (task_queue l) es (deferred_delete_queue l) (timer_heap l) (watchers l) (process_watchers l)
    (alive l) (asked l) (log l).
Definition with_deletes (os : list Object) (l : Loop) : Loop :=
  mkLoop (running l) (task_queue l) (event_queue l) os (timer_heap l) (watchers l) (process_watchers l)
    (alive l) (asked l) (log l).
Definition with_timers (h : TimerHeap) (l : Loop) : Loop :=
  mkLoop (running l) (task_queue l) (event_queue l) (deferred_delete_queue l) h (watchers l) (process_watchers l)
    (alive l) (asked l) (log l).
Definition with_watchers (w : gmap Z WatchEntry) (l : Loop) : Loop :=
  mkLoop (running l) (task_queue l) (event_queue l) (deferred_delete_queue l) (timer_heap l) w (process_watchers l)
    (alive l) (asked l) (log l).
Definition with_processes (w : gmap Z ProcessWatchEntry) (l : Loop) : Loop :=
  mkLoop (running l) (task_queue l) (event_queue l) (deferred_delete_queue l) (timer_heap l) (watchers l) w
    (alive l) (asked l) (log l).
Definition with_alive (s : gset Object) (l : Loop) : Loop :=
  mkLoop (running l) (task_queue l) (event_queue l) (deferred_delete_queue l) (timer_heap l) (watchers l)
    (process_watchers l) s (asked l) (log l).
Definition ask (l : Loop) : Loop :=
  mkLoop (running l) (task_queue l) (event_queue l) (deferred_delete_queue l) (timer_heap l) (watchers l)
    (process_watchers l) (alive l) (S (asked l)) (log l).
Definition note (hs : list Happening) (l : Loop) : Loop :=
  mkLoop (running l) (task_queue l) (event_queue l) (deferred_delete_queue l) (timer_heap l) (watchers l)
    (process_watchers l) (alive l) (asked l) (log l ++ hs).

Section Loop.
Context {order : HeapOrder} {machine : Machine}.
(** What a callback does. *)
Variable react : Callback → Loop → list Op.

(** [if (!_backend || !_backend->wakeup()) return false], around an insertion. *)
Definition woken (insert : Loop → Loop) (l : Loop) : Loop :=
  if has_backend then if wakeup (asked l) then insert (ask l) else ask l else l.

Definition post (t : Task) : Loop → Loop := woken (λ l, with_tasks (task_queue l ++ [t]) l).
Definition post_event (receiver : Object) (p : Payload) : Loop → Loop :=
  woken (λ l, with_events (event_queue l ++ [(receiver, p)]) l).
Definition defer_delete (o : Object) : Loop → Loop :=
  woken (λ l, with_deletes (deferred_delete_queue l ++ [o]) l).

Definition start_timer (cb : Task) (due every : Z) (l : Loop) : Loop :=
  let '(id, h) := start cb due every (timer_heap l) in note [Started id] (with_timers h l).
Definition post_at (when : Z) (t : Task) (l : Loop) : Loop := if has_backend then start_timer t when 0 l else l.
Definition post_delayed (delay : Z) (t : Task) (l : Loop) : Loop :=
  if has_backend then start_timer t (clock (asked l) + delay) 0 (ask l) else l.
Definition post_repeating (every : Z) (t : Task) (l : Loop) : Loop :=
  if has_backend then start_timer t (clock (asked l) + every) every (ask l) else l.

(** A cancellation is noted when the timer was live. *)
Definition cancel_timer (id : Z) (l : Loop) : Loop :=
  note (if bool_decide (id ∈ timers (timer_heap l)) then [Revoked id] else []) (with_timers (cancel id (timer_heap l)) l).

Definition watch_fd (fd evs : Z) (mode : FdTriggerMode) (cb : Task) (l : Loop) : Loop :=
  if negb has_backend || (fd <? 0) || (evs =? 0) then l
  else
    match watchers l !! fd with
    | Some w =>
        if negb (refresh_required w) && (watch_events w =? evs) && bool_decide (trigger_mode w = mode)
        then with_watchers (<[fd := mkWatch cb (watch_events w) (trigger_mode w) (refresh_required w)]> (watchers l)) l
        else if add_fd (asked l) then with_watchers (<[fd := mkWatch cb evs mode false]> (watchers l)) (ask l) else ask l
    | None => if add_fd (asked l) then with_watchers (<[fd := mkWatch cb evs mode false]> (watchers l)) (ask l) else ask l
    end.

Definition unwatch_fd (fd : Z) (l : Loop) : Loop :=
  if fd <? 0 then l
  else
    match watchers l !! fd with
    | None => l
    | Some w =>
        if has_backend && remove_fd (asked l) then with_watchers (base.delete fd (watchers l)) (ask l)
        else
          with_watchers (<[fd := mkWatch (watch_callback w) (watch_events w) (trigger_mode w) true]> (watchers l))
            (if has_backend then ask l else l)
    end.

Definition unwatch_process (pid : Z) (l : Loop) : bool * Loop :=
  match process_watchers l !! pid with
  | None => (true, l)
  | Some w =>
      if has_backend && remove_process (asked l) then (true, with_processes (base.delete pid (process_watchers l)) (ask l))
      else
        (false, with_processes (<[pid := mkProcessWatch (process_callback w) true]> (process_watchers l))
                  (if has_backend then ask l else l))
  end.

Definition register_process (pid : Z) (cb : Task) (l : Loop) : Loop :=
  match add_process (asked l) with
  | Added => with_processes (<[pid := mkProcessWatch cb false]> (process_watchers l)) (ask l)
  | _ => with_processes (base.delete pid (process_watchers l)) (ask l)
  end.

Definition watch_process (pid : Z) (cb : Task) (l : Loop) : Loop :=
  if negb has_backend || (pid <=? 0) then l
  else
    match process_watchers l !! pid with
    | Some w =>
        if negb (removal_failed w)
        then with_processes (<[pid := mkProcessWatch cb (removal_failed w)]> (process_watchers l)) l
        else let '(removed, l) := unwatch_process pid l in if (removed : bool) then register_process pid cb l else l
    | None => register_process pid cb l
    end.

Definition apply_op (op : Op) (l : Loop) : Loop :=
  match op with
  | Post t => post t l
  | PostEvent o p => post_event o p l
  | DeferDelete o => defer_delete o l
  | PostDelayed delay t => post_delayed delay t l
  | PostAt when t => post_at when t l
  | PostRepeating every t => post_repeating every t l
  | CancelTimer id => cancel_timer id l
  | WatchFd fd evs mode cb => watch_fd fd evs mode cb l
  | UnwatchFd fd => unwatch_fd fd l
  | WatchProcess pid cb => watch_process pid cb l
  | UnwatchProcess pid => (unwatch_process pid l).2
  | RequestQuit => with_running false l
  | Delete o => with_alive (alive l ∖ {[o]}) l
  end.

Definition perform (ops : list Op) (l : Loop) : Loop := fold_left (λ l op, apply_op op l) ops l.
Definition invoke (cb : Callback) (l : Loop) : Loop := perform (react cb l) l.

(** What other threads do before the loop takes its lock. *)
Definition meanwhile (l : Loop) : Loop := perform (filter (λ op, thread_safe op = true) (arrivals (asked l))) (ask l).

(** *** The timers that are due *)

Definition fire (e : TimerEntry) (l : Loop) : Loop :=
  let l := invoke (TimerCall (te_callback e)) (note [Fired (te_id e) (deadline e)] (with_timers (pop_heap (timer_heap l)) l)) in
  let h := timer_heap l in
  if (0 <? interval e) && bool_decide (te_id e ∈ timers h)
  then with_timers (push_heap (mkTimer (te_id e) (te_callback e) (deadline e + interval e) (interval e)) h) l
  else with_timers (cancel (te_id e) h) l.

Fixpoint fire_expired (fuel : nat) (now : Z) (l : Loop) : option Loop :=
  match fuel with
  | O => None
  | S fuel =>
      let h := discard_cancelled_top (timer_heap l) in
      let l := with_timers h l in
      match front h with
      | None => Some l
      | Some e => if now <? deadline e then Some l else fire_expired fuel now (fire e l)
      end
  end.

(** *** The queues *)

Definition run_task (l : Loop) (t : Task) : Loop := invoke (TaskCall t) (note [Ran t] l).
Definition drain_task_queue (l : Loop) : Loop :=
  let l := meanwhile l in fold_left run_task (task_queue l) (with_tasks [] l).

Definition deliver (l : Loop) (entry : Object * Payload) : Loop :=
  let '(receiver, p) := entry in
  if bool_decide (receiver ∈ alive l) then invoke (Deliver receiver p) (note [Delivered receiver p] l) else l.
Definition drain_event_queue (l : Loop) : Loop :=
  let l := meanwhile l in fold_left deliver (event_queue l) (with_events [] l).

Definition discard_event_queue (l : Loop) : Loop :=
  let l := meanwhile l in note [Discarded (length (event_queue l))] (with_events [] l).

Definition destroy (l : Loop) (o : Object) : Loop :=
  if bool_decide (o ∈ alive l) then invoke (Destructor o) (note [Deleted o] (with_alive (alive l ∖ {[o]}) l)) else l.
Definition drain_deferred_delete_queue (l : Loop) : Loop :=
  let l := meanwhile l in fold_left destroy (deferred_delete_queue l) (with_deletes [] l).

(** *** A pass *)

Definition int_max : Z := 2 ^ 31 - 1.

Definition compute_timeout_ms (max_timeout_ms : Z) (l : Loop) : Z * Loop :=
  let '(next, h) := next_deadline (timer_heap l) in
  let l := with_timers h l in
  match next with
  | None => (max_timeout_ms, l)
  | Some due =>
      let limit := if max_timeout_ms <? 0 then int_max else max_timeout_ms in
      let ms := Z.quot (due - clock (asked l)) 1000000 in
      (if int_max <? ms then Z.min int_max limit else if ms <? 0 then 0 else Z.min ms limit, ask l)
  end.

Definition dispatch_fd (e : ReadyEvent) (l : Loop) : Loop :=
  if (ident e <? 0) || (int_max <? ident e) then l
  else
    match watchers l !! ident e with
    | Some w => invoke (FdCall (watch_callback w) (ident e) (ready_events e)) (note [Dispatched e] l)
    | None => l
    end.

Definition dispatch_process (e : ReadyEvent) (l : Loop) : Loop :=
  match process_watchers l !! ident e with
  | Some w => invoke (ProcessCall (process_callback w)) (note [Dispatched e] l)
  | None => l
  end.

Definition dispatch (l : Loop) (e : ReadyEvent) : Loop :=
  match kind e with FileDescriptor => dispatch_fd e l | ChildProcess => dispatch_process e l end.

Record EventFlags := mkFlags { on_tasks : bool; on_events : bool; on_timers : bool; on_watchers : bool }.
Definition all_flags : EventFlags := mkFlags true true true true.

Inductive ProcessEventsResult := Running | Stopped | Failed.

(** The native events; [None] is a backend that fails. *)
Definition poll_and_dispatch (ms : Z) (l : Loop) : option Loop :=
  let '(_, l) := compute_timeout_ms ms l in
  match poll (asked l) with
  | None => None
  | Some ready => Some (fold_left dispatch ready (ask l))
  end.

(** Everything after the native events. *)
Definition process_queues (fuel : nat) (flags : EventFlags) (was_running : bool) (l : Loop)
    : option (ProcessEventsResult * Loop) :=
  l ← (if on_timers flags then fire_expired fuel (clock (asked l)) (ask l) else Some l);
  let l := if on_tasks flags then drain_task_queue l else l in
  let stopped_during_processing := was_running && negb (running l) in
  let l := if on_events flags && negb stopped_during_processing then drain_event_queue l else l in
  let l := if on_tasks flags || on_events flags then drain_deferred_delete_queue l else l in
  Some (if running l then Running else Stopped, l).

Definition process_events (fuel : nat) (flags : EventFlags) (ms : Z) (l : Loop) : option (ProcessEventsResult * Loop) :=
  if negb has_backend then Some (Failed, with_running false l)
  else
    let was_running := running l in
    if on_watchers flags then
      match poll_and_dispatch ms l with
      | None => Some (Failed, with_running false (ask (compute_timeout_ms ms l).2))
      | Some l => process_queues fuel flags was_running l
      end
    else process_queues fuel flags was_running l.

(** [EventLoop::run]: at most [passes] passes, then the final drains. *)
Definition finish_run (l : Loop) : Loop := discard_event_queue (drain_deferred_delete_queue (drain_task_queue l)).

Fixpoint passes_of (passes fuel : nat) (l : Loop) : option (bool * Loop) :=
  match passes with
  | O => None
  | S passes =>
      '(r, l) ← process_events fuel all_flags (-1) l;
      match r with
      | Running => passes_of passes fuel l
      | Stopped => Some (true, l)
      | Failed => Some (false, l)
      end
  end.

Definition run (passes fuel : nat) (l : Loop) : option (bool * Loop) :=
  '(ok, l) ← passes_of passes fuel (with_running true l);
  Some (ok, finish_run l).

(** [EventLoop::run_until]; whether the thread is dispatching or the loop is
    not its own is told by the first two arguments. *)
Definition wait_error (c : ErrorCategory) (code message : string) : Error := mkError c code message "".
Definition wait_timeout : Error := wait_error Timeout "core.event_loop.timeout" "Synchronous wait deadline expired".
Definition wait_failed : Error := wait_error Io "core.event_loop.processing_failed" "Event-loop processing failed".
Definition wait_stopped : Error := wait_error Cancelled "core.event_loop.stopped" "Event loop stopped before completion".

Definition ceil_ms (d : Z) : Z := - ((- d) / 1000000).

Fixpoint wait_loop (passes fuel : nat) (limit : Z) (complete : Loop → bool) (l : Loop) : option (result Error unit * Loop) :=
  match passes with
  | O => None
  | S passes =>
      if complete l then Some (success tt, l)
      else
        let now := clock (asked l) in
        let l := ask l in
        if limit <=? now then Some (failure wait_timeout, l)
        else
          '(r, l) ← process_events fuel all_flags (Z.min (ceil_ms (limit - now)) int_max) l;
          match r with
          | Failed => Some (failure wait_failed, l)
          | Stopped => Some (failure wait_stopped, l)
          | Running => wait_loop passes fuel limit complete l
          end
  end.

Definition run_until (dispatching own : bool) (passes fuel : nat) (limit : Z) (complete : Loop → bool) (l : Loop)
    : option (result Error unit * Loop) :=
  if dispatching then
    Some (failure (wait_error Conflict "core.event_loop.reentrant_wait"
      "Cannot start a synchronous wait during event dispatch or another wait"), l)
  else if negb own || running l then
    Some (failure (wait_error Conflict "core.event_loop.invalid_context"
      "Synchronous wait requires the current idle owner event loop"), l)
  else if negb has_backend then
    Some (failure (wait_error Io "core.event_loop.processing_failed" "Event-loop backend is unavailable"), l)
  else
    '(r, l) ← wait_loop passes fuel limit complete (with_running true l);
    Some (r, with_running false l).

End Loop.
