(* ===== verification/EventLoopSafety.v ===== *)
(** * What the event loop promises

    The timers: their identifiers are never reused while they matter, a timer
    that was cancelled never fires again and the others fire at strictly
    increasing deadlines, whatever the callbacks do; and a pass over the expired
    timers comes to an end, in the order of the deadlines, with nothing left
    that is due.  The queues: tasks run in the order in which they were posted,
    each in one pass, and no object event is delivered after the loop was told
    to quit. *)

From stdpp Require Import base strings list gmap sorting.
From S2P Require Import Prelude.
From S2P Require Import EventLoop.

Definition is_started (h : Happening) : bool := match h with Started _ => true | _ => false end.
Definition starts (t : list Happening) : Z := Z.of_nat (length (filter (λ h, is_started h = true) t)).

(** The happenings that say nothing of timers. *)
Definition timer_free (h : Happening) : bool :=
  match h with Started _ | Fired _ _ | Revoked _ => false | _ => true end.

(** ** Identifiers

    [held] is the entry that is being fired and may come back. *)
Definition ids (h : TimerHeap) : list Z := te_id <$> heap h.

Record sound (held : option TimerEntry) (h : TimerHeap) (t : list Happening) : Prop := {
  sound_next : next_id h = 1 + starts t;
  sound_ids : ∀ e, e ∈ heap h → te_id e < next_id h;
  sound_live : ∀ id, id ∈ timers h → id < next_id h;
  sound_unique : NoDup (ids h);
  sound_held : ∀ e, held = Some e → (te_id e < next_id h) ∧ te_id e ∉ ids h;
  (** What was cancelled is not live. *)
  sound_revoked : ∀ id, Revoked id ∈ t → (id ∉ timers h) ∧ id < next_id h;
  sound_fired : ∀ id due, Fired id due ∈ t → id < next_id h;
  (** What is waiting is due after what was fired. *)
  sound_later : ∀ e due, e ∈ heap h → Fired (te_id e) due ∈ t → due < deadline e;
  sound_held_later : ∀ e due, held = Some e → Fired (te_id e) due ∈ t → due <= deadline e;
  (** The history so far. *)
  sound_final : ∀ t1 t2 id due, t = t1 ++ Revoked id :: t2 → Fired id due ∉ t2;
  sound_increasing : ∀ t1 t2 t3 id d1 d2, t = t1 ++ Fired id d1 :: t2 ++ Fired id d2 :: t3 → d1 < d2 }.

Lemma starts_app t1 t2 : starts (t1 ++ t2) = starts t1 + starts t2.
Proof. unfold starts. rewrite filter_app, length_app. lia. Qed.

Lemma starts_nonneg t : 0 <= starts t.
Proof. unfold starts. lia. Qed.

(** The history with one more happening at its end. *)
Lemma snoc_split {A} (t t1 t2 : list A) x y :
  t ++ [x] = t1 ++ y :: t2 → (t2 = [] ∧ t = t1 ∧ x = y) ∨ ∃ t2', t2 = t2' ++ [x] ∧ t = t1 ++ y :: t2'.
Proof.
  destruct t2 as [|z t2 _] using rev_ind; intros H.
  - left. apply app_inj_tail in H as [-> ->]. done.
  - right. rewrite app_comm_cons, app_assoc in H. apply app_inj_tail in H as [-> ->]. eauto.
Qed.

Lemma sound_note held h t x : timer_free x = true → sound held h t → sound held h (t ++ [x]).
Proof.
  intros Hx H. assert (Hs : starts (t ++ [x]) = starts t) by (rewrite starts_app; destruct x; discriminate || apply Z.add_0_r).
  assert (Hin : ∀ y, timer_free y = false → y ∈ t ++ [x] → y ∈ t)
    by (intros y Hy [?|Hyx%list_elem_of_singleton]%elem_of_app; congruence || done).
  destruct H. split; eauto.
  - by rewrite Hs.
  - intros t1 t2 id due [(-> & _ & _)|(t2' & -> & ->)]%snoc_split; [apply not_elem_of_nil|].
    rewrite not_elem_of_app, list_elem_of_singleton. split; [eauto|]. intros <-. discriminate.
  - intros t1 t2 t3 id d1 d2 Ht. rewrite app_comm_cons, app_assoc in Ht.
    apply snoc_split in Ht as [(_ & _ & ->)|(t3' & -> & ->)]; [done|]. eapply sound_increasing0. by rewrite <- app_assoc.
Qed.

(** A timer is started. *)
Lemma sound_start held h t cb due every :
  starts t + 2 < id_limit → sound held h t →
  sound held (start cb due every h).2 (t ++ [Started (start cb due every h).1]).
Proof.
  intros Hlim H. destruct H. cbn [start fst snd]. rewrite Z.mod_small by (pose proof (starts_nonneg t); lia).
  assert (Hin : ∀ y, is_started y = false → y ∈ t ++ [Started (next_id h)] → y ∈ t)
    by (intros y Hy [?|Hyx%list_elem_of_singleton]%elem_of_app; [done|by subst]).
  assert (Hfresh : next_id h ∉ ids h)
    by (unfold ids; intros (e & Heq & He%sound_ids0)%list_elem_of_fmap; lia).
  split; cbn; unfold ids; cbn; rewrite ?fmap_app; cbn.
  - rewrite starts_app. change (starts [Started (next_id h)]) with 1. lia.
  - intros e [He%sound_ids0|He%list_elem_of_singleton]%elem_of_app; [lia|subst; cbn; lia].
  - intros id [->%elem_of_singleton|Hid%sound_live0]%elem_of_union; lia.
  - apply NoDup_app. split; [done|]. split; [|apply NoDup_singleton]. intros id Hid ->%list_elem_of_singleton. by apply Hfresh.
  - intros e He. destruct (sound_held0 e He) as [Hlt Hni]. split; [lia|]. rewrite not_elem_of_app, list_elem_of_singleton.
    split; [done|]. cbn. lia.
  - intros id Hid%Hin; [|done]. destruct (sound_revoked0 id Hid) as [Hn Hlt]. split; [|lia].
    rewrite not_elem_of_union, elem_of_singleton. split; [lia|done].
  - intros id d Hf%Hin; [|done]. specialize (sound_fired0 _ _ Hf). lia.
  - intros e d [He|He%list_elem_of_singleton]%elem_of_app Hf%Hin; [eauto|done| |done].
    subst e. cbn in Hf. specialize (sound_fired0 _ _ Hf). lia.
  - eauto.
  - intros t1 t2 id d [(-> & _ & _)|(t2' & -> & ->)]%snoc_split; [apply not_elem_of_nil|].
    rewrite not_elem_of_app, list_elem_of_singleton. by split; [eauto|].
  - intros t1 t2 t3 id d1 d2 Ht. rewrite app_comm_cons, app_assoc in Ht.
    apply snoc_split in Ht as [(_ & _ & ?)|(t3' & -> & ->)]; [done|]. eapply sound_increasing0. by rewrite <- app_assoc.
Qed.

Lemma sound_forget held h t id : sound held h t → sound held (cancel id h) t.
Proof.
  intros []. split; cbn; try done.
  - intros i [Hi%sound_live0 _]%elem_of_difference. done.
  - intros i Hi%sound_revoked0. rewrite elem_of_difference. split; [|by apply Hi]. intros [Hx _]. by apply Hi.
Qed.

(** A timer is cancelled; the cancellation is noted when it was live. *)
Lemma sound_cancel held h t id :
  sound held h t →
  sound held (cancel id h) (t ++ (if bool_decide (id ∈ timers h) then [Revoked id] else [])).
Proof.
  intros H. pose proof (sound_forget held h t id H) as Hc.
  case_bool_decide as Hl; [|by rewrite app_nil_r]. pose proof (sound_live _ _ _ H _ Hl) as Hlt. destruct Hc.
  assert (Hin : ∀ y, y ≠ Revoked id → y ∈ t ++ [Revoked id] → y ∈ t)
    by (intros y Hy [?|Hyx%list_elem_of_singleton]%elem_of_app; [done|by subst]).
  split; try done.
  - rewrite starts_app. cbn. by rewrite Z.add_0_r.
  - intros i [Hi|[= ->]%list_elem_of_singleton]%elem_of_app; [auto|]. cbn. split; [|done].
    rewrite elem_of_difference, elem_of_singleton. tauto.
  - intros i d Hf%Hin; [eauto|done].
  - intros e d He Hf%Hin; [eauto|done].
  - intros e d He Hf%Hin; [eauto|done].
  - intros t1 t2 i d [(-> & _ & _)|(t2' & -> & ->)]%snoc_split; [apply not_elem_of_nil|].
    rewrite not_elem_of_app, list_elem_of_singleton. by split; [eauto|].
  - intros t1 t2 t3 i d1 d2 Ht. rewrite app_comm_cons, app_assoc in Ht.
    apply snoc_split in Ht as [(_ & _ & ?)|(t3' & -> & ->)]; [done|]. eapply sound_increasing0. by rewrite <- app_assoc.
Qed.

(** An entry that is taken out of the heap is the one held. *)
Lemma sound_pop h t i e :
  heap h !! i = Some e → sound None h t → sound (Some e) (mkHeap (delete i (heap h)) (timers h) (next_id h)) t.
Proof.
  intros Hi H. destruct H. pose proof (delete_Permutation _ _ _ Hi) as Hp.
  assert (Hsub : ∀ e', e' ∈ delete i (heap h) → e' ∈ heap h) by (intros e' He'; rewrite Hp; by apply elem_of_cons; right).
  assert (Hu : NoDup (te_id e :: (te_id <$> delete i (heap h)))).
  { unfold ids in *. rewrite Hp in sound_unique0. exact sound_unique0. }
  apply NoDup_cons in Hu as [Hni Hu]. assert (He : e ∈ heap h) by (by eapply list_elem_of_lookup_2).
  split; cbn; eauto.
  - intros e' [= <-]. eauto.
  - intros e' d [= <-] Hf. specialize (sound_later0 e d He Hf). lia.
Qed.

Lemma sound_drop e h t : sound (Some e) h t → sound None h t.
Proof. intros []. by split. Qed.

(** The entry comes back, later than before. *)
Lemma sound_push e e' h t :
  sound (Some e) h t → te_id e' = te_id e → deadline e < deadline e' → sound None (push_heap e' h) t.
Proof.
  intros [] Hid Hd. destruct (sound_held0 e eq_refl) as [Hlt Hni]. split; cbn; try done.
  - intros x [Hx|Hx%list_elem_of_singleton]%elem_of_app; [eauto|subst x; lia].
  - unfold ids. cbn. rewrite fmap_app. apply NoDup_app. split; [done|]. split; [|apply NoDup_singleton].
    intros i Hi ->%list_elem_of_singleton. apply Hni. by rewrite <- Hid.
  - intros x d [Hx|Hx%list_elem_of_singleton]%elem_of_app Hf; [eauto|]. subst x. rewrite Hid in Hf.
    specialize (sound_held_later0 e d eq_refl Hf). lia.
Qed.

(** The held entry is fired: it was live, so it was not cancelled, and what was
    fired of it before was due before. *)
Lemma sound_fire e h t :
  sound (Some e) h t → te_id e ∈ timers h → (∀ due, Fired (te_id e) due ∈ t → due < deadline e) →
  sound (Some e) h (t ++ [Fired (te_id e) (deadline e)]).
Proof.
  intros [] Hl Hlate.
  assert (Hin : ∀ i d, i ≠ te_id e → Fired i d ∈ t ++ [Fired (te_id e) (deadline e)] → Fired i d ∈ t)
    by (intros i d Hy [?|Hyx%list_elem_of_singleton]%elem_of_app; [done|congruence]).
  assert (Hrev : ∀ i, Revoked i ∈ t ++ [Fired (te_id e) (deadline e)] → Revoked i ∈ t)
    by (intros i [?|?%list_elem_of_singleton]%elem_of_app; done).
  destruct (sound_held0 e eq_refl) as [Hlt Hni]. split; try done.
  - rewrite starts_app. cbn. by rewrite Z.add_0_r.
  - eauto.
  - intros i d [Hf|[= -> ->]%list_elem_of_singleton]%elem_of_app; eauto.
  - intros x d Hx Hf%Hin; [eauto|]. intros Hid. apply Hni. rewrite <- Hid. by apply list_elem_of_fmap_2.
  - intros x d [= <-] [Hf|[= ->]%list_elem_of_singleton]%elem_of_app; [specialize (Hlate _ Hf)|]; lia.
  - intros t1 t2 i d [(-> & _ & _)|(t2' & -> & Ht)]%snoc_split; [apply not_elem_of_nil|].
    rewrite not_elem_of_app, list_elem_of_singleton. split; [eauto|]. intros [= -> _].
    destruct (sound_revoked0 (te_id e)) as [Hn _]; [|done].
    rewrite Ht. apply elem_of_app. right. by left.
  - intros t1 t2 t3 i d1 d2 Ht. rewrite app_comm_cons, app_assoc in Ht.
    apply snoc_split in Ht as [(_ & Ht & [= <- <-])|(t3' & -> & ->)].
    + apply Hlate. rewrite Ht. apply elem_of_app. right. by left.
    + eapply sound_increasing0. by rewrite <- app_assoc.
Qed.

(** ** Over the loop *)

(** As long as identifiers have not run out. *)
Definition timely (held : option TimerEntry) (l : Loop) : Prop :=
  starts (log l) + 1 < id_limit → sound held (timer_heap l) (log l).

Lemma timely_note held l x : timer_free x = true → timely held l → timely held (note [x] l).
Proof.
  intros Hx H Hlim. cbn in *. apply sound_note; [done|]. apply H. rewrite starts_app in Hlim.
  pose proof (starts_nonneg [x]). lia.
Qed.

(** The timers and the history are as they were. *)
Definition still (l l' : Loop) : Prop := timer_heap l' = timer_heap l ∧ log l' = log l.

Lemma still_trans l1 l2 l3 : still l1 l2 → still l2 l3 → still l1 l3.
Proof. intros [H1 H2] [H3 H4]. by split; rewrite ?H3, ?H4. Qed.

Lemma timely_still held l l' : still l l' → timely held l → timely held l'.
Proof. unfold timely. by intros [-> ->]. Qed.

Section Lifting.
Context {order : HeapOrder} {machine : Machine}.
Variable react : Callback → Loop → list Op.

Lemma woken_still insert l : (∀ l, still l (insert l)) → still l (woken insert l).
Proof. intros Hi. unfold woken. destruct has_backend, (wakeup (asked l)); try done. apply (Hi (ask l)). Qed.

Lemma unwatch_process_still pid l : still l (unwatch_process pid l).2.
Proof.
  unfold unwatch_process. destruct (process_watchers l !! pid); [|done].
  destruct (_ && _); [done|]. by destruct has_backend.
Qed.

Lemma watch_process_still pid cb l : still l (watch_process pid cb l).
Proof.
  assert (Hr : ∀ l, still l (register_process pid cb l)) by (intros l'; unfold register_process; by destruct (add_process _)).
  unfold watch_process. destruct (_ || _); [done|]. destruct (process_watchers l !! pid) as [w|]; [|apply Hr].
  destruct (negb (removal_failed w)); [done|]. pose proof (unwatch_process_still pid l) as Hu.
  destruct (unwatch_process pid l) as [[] l1]; [|exact Hu]. by eapply still_trans.
Qed.

Lemma watch_fd_still fd evs mode cb l : still l (watch_fd fd evs mode cb l).
Proof.
  unfold watch_fd. destruct (_ || _); [done|]. destruct (watchers l !! fd); [destruct (_ && _); [done|]|];
    by destruct (add_fd (asked l)).
Qed.

Lemma unwatch_fd_still fd l : still l (unwatch_fd fd l).
Proof.
  unfold unwatch_fd. destruct (fd <? 0); [done|]. destruct (watchers l !! fd); [|done].
  destruct (_ && _); [done|]. by destruct has_backend.
Qed.

Lemma start_timer_timely held cb due every l : timely held l → timely held (start_timer cb due every l).
Proof.
  intros H Hlim. unfold start_timer in *. destruct (start cb due every (timer_heap l)) as [id h] eqn:E. cbn in *.
  rewrite starts_app in Hlim. change (starts [Started id]) with 1 in Hlim.
  assert (Hs := sound_start held (timer_heap l) (log l) cb due every ltac:(lia) (H ltac:(lia))). by rewrite E in Hs.
Qed.

Lemma cancel_timer_timely held id l : timely held l → timely held (cancel_timer id l).
Proof.
  intros H Hlim. cbn in *. apply sound_cancel, H. rewrite starts_app in Hlim.
  match type of Hlim with context [_ + starts ?x] => pose proof (starts_nonneg x) end. lia.
Qed.

Lemma apply_op_timely held op l : timely held l → timely held (apply_op op l).
Proof.
  intros H. destruct op; cbn [apply_op];
    try (by apply cancel_timer_timely);
    try (unfold post_at, post_delayed, post_repeating; destruct has_backend; [|done];
         apply start_timer_timely; exact H);
    eapply timely_still; try exact H;
    auto using watch_fd_still, unwatch_fd_still, watch_process_still, unwatch_process_still; try done;
    apply woken_still; done.
Qed.

Lemma perform_timely held ops l : timely held l → timely held (perform ops l).
Proof. unfold perform. revert l. induction ops as [|op ops IH]; intros l H; [done|]. by apply IH, apply_op_timely. Qed.

Lemma invoke_timely held cb l : timely held l → timely held (invoke react cb l).
Proof. apply perform_timely. Qed.

Lemma meanwhile_timely held l : timely held l → timely held (meanwhile l).
Proof. intros H. by apply perform_timely. Qed.

(** *** The history only grows *)

Definition grows (l l' : Loop) : Prop := ∃ t, log l' = log l ++ t.

#[global] Instance grows_refl : Reflexive grows.
Proof. intros l. exists []. by rewrite app_nil_r. Qed.
#[global] Instance grows_trans : Transitive grows.
Proof. intros l1 l2 l3 [t1 H1] [t2 H2]. exists (t1 ++ t2). by rewrite H2, H1, app_assoc. Qed.

Lemma still_grows l l' : still l l' → grows l l'.
Proof. intros [_ H]. exists []. by rewrite H, app_nil_r. Qed.

Lemma apply_op_grows op l : grows l (apply_op op l).
Proof.
  destruct op; cbn [apply_op];
    try (unfold post_at, post_delayed, post_repeating; destruct has_backend; [|done]; by eexists);
    try (by eexists);
    apply still_grows; auto using watch_fd_still, unwatch_fd_still, watch_process_still, unwatch_process_still; try done;
    apply woken_still; done.
Qed.

Lemma perform_grows ops l : grows l (perform ops l).
Proof.
  unfold perform. revert l. induction ops as [|op ops IH]; intros l; [done|]. etrans; [apply apply_op_grows|apply IH].
Qed.

(** *** The timers that are due *)

Lemma front_lookup h e : front h = Some e → heap h !! top (heap h) = Some e.
Proof. done. Qed.

Lemma sound_pop_heap h t e : front h = Some e → sound None h t → sound (Some e) (pop_heap h) t.
Proof. intros He. by apply sound_pop. Qed.

Lemma sound_discard fuel h t : sound None h t → sound None (discard fuel h) t.
Proof.
  revert h. induction fuel as [|fuel IH]; intros h H; [done|]. cbn. destruct (front h) as [e|] eqn:E; [|done].
  case_bool_decide; [done|]. apply IH. eapply sound_drop, sound_pop_heap; eauto.
Qed.

Lemma discard_front fuel h e :
  (length (heap h) <= fuel)%nat → front (discard fuel h) = Some e → te_id e ∈ timers (discard fuel h).
Proof.
  revert h. induction fuel as [|fuel IH]; intros h Hlen Hf; cbn in *.
  - apply front_lookup, lookup_lt_Some in Hf. lia.
  - destruct (front h) as [e'|] eqn:E; [|congruence]. case_bool_decide as Hl; [congruence|].
    apply IH; [|done]. cbn. apply front_lookup in E. rewrite length_delete by (by eexists). apply lookup_lt_Some in E. lia.
Qed.

Lemma timely_discard l : timely None l → timely None (with_timers (discard_cancelled_top (timer_heap l)) l).
Proof. intros H Hlim. by apply sound_discard, H. Qed.

Lemma fire_timely e l :
  front (timer_heap l) = Some e → te_id e ∈ timers (timer_heap l) → timely None l → timely None (fire react e l).
Proof.
  intros Hf Hl H. unfold fire.
  assert (H1 : timely (Some e) (note [Fired (te_id e) (deadline e)] (with_timers (pop_heap (timer_heap l)) l))).
  { intros Hlim. cbn in *. rewrite starts_app in Hlim. change (starts [Fired (te_id e) (deadline e)]) with 0 in Hlim.
    specialize (H ltac:(lia)). apply sound_fire; [by apply sound_pop_heap|done|].
    intros due. apply (sound_later _ _ _ H). by eapply list_elem_of_lookup_2. }
  apply (invoke_timely (Some e) (TimerCall (te_callback e))) in H1. cbn zeta. set (l1 := invoke react _ _) in *.
  destruct (_ && _) eqn:E; intros Hlim; specialize (H1 Hlim).
  - apply andb_true_iff in E as [E%Z.ltb_lt _]. eapply sound_push; [exact H1|done|cbn; lia].
  - by eapply sound_drop, sound_forget.
Qed.

Lemma fire_expired_timely fuel now l l' : fire_expired react fuel now l = Some l' → timely None l → timely None l'.
Proof.
  revert l. induction fuel as [|fuel IH]; intros l; [done|]. cbn [fire_expired]. intros Hr H.
  pose proof (timely_discard l H) as Hd. destruct (front _) as [e|] eqn:E; [|by simplify_eq].
  destruct (now <? deadline e); [by simplify_eq|]. apply (IH _ Hr). apply fire_timely; [done| |done].
  apply discard_front; [done|exact E].
Qed.

(** *** The passes *)

Lemma fold_timely {A} (f : Loop → A → Loop) xs l :
  (∀ l x, timely None l → timely None (f l x)) → timely None l → timely None (fold_left f xs l).
Proof. intros Hf. revert l. induction xs as [|x xs IH]; intros l H; [done|]. by apply IH, Hf. Qed.

Lemma run_task_timely l t : timely None l → timely None (run_task react l t).
Proof. intros H. by apply invoke_timely, timely_note. Qed.

Lemma deliver_timely l entry : timely None l → timely None (deliver react l entry).
Proof. intros H. destruct entry as [o p]. unfold deliver. case_bool_decide; [|done]. by apply invoke_timely, timely_note. Qed.

Lemma destroy_timely l o : timely None l → timely None (destroy react l o).
Proof. intros H. unfold destroy. case_bool_decide; [|done]. by apply invoke_timely, timely_note. Qed.

Lemma dispatch_timely l e : timely None l → timely None (dispatch react l e).
Proof.
  intros H. unfold dispatch, dispatch_fd, dispatch_process.
  destruct (kind e); [destruct (_ || _); [done|]|]; destruct (_ !! _); try done; by apply invoke_timely, timely_note.
Qed.

Lemma drain_task_queue_timely l : timely None l → timely None (drain_task_queue react l).
Proof. intros H%meanwhile_timely. unfold drain_task_queue. apply fold_timely; [apply run_task_timely|exact H]. Qed.

Lemma drain_event_queue_timely l : timely None l → timely None (drain_event_queue react l).
Proof. intros H%meanwhile_timely. unfold drain_event_queue. apply fold_timely; [apply deliver_timely|exact H]. Qed.

Lemma drain_deletes_timely l : timely None l → timely None (drain_deferred_delete_queue react l).
Proof. intros H%meanwhile_timely. unfold drain_deferred_delete_queue. apply fold_timely; [apply destroy_timely|exact H]. Qed.

Lemma discard_event_queue_timely l : timely None l → timely None (discard_event_queue l).
Proof. intros H%meanwhile_timely. by apply timely_note. Qed.

Lemma compute_timeout_timely ms l : timely None l → timely None (compute_timeout_ms ms l).2.
Proof.
  intros H%timely_discard. unfold compute_timeout_ms, next_deadline. by destruct (deadline <$> front _).
Qed.

#[local] Hint Resolve drain_task_queue_timely drain_event_queue_timely drain_deletes_timely discard_event_queue_timely : core.

Lemma process_queues_timely fuel flags was l r l' :
  process_queues react fuel flags was l = Some (r, l') → timely None l → timely None l'.
Proof.
  unfold process_queues. intros Hr H.
  destruct (if on_timers flags then _ else _) as [l1|] eqn:E; [|done]. cbn in Hr. simplify_eq.
  assert (H1 : timely None l1).
  { destruct (on_timers flags); [|by simplify_eq]. eapply fire_expired_timely; [exact E|exact H]. }
  destruct (on_tasks flags), (on_events flags); cbn [orb andb]; auto.
  - destruct (negb _); auto.
  - destruct (negb _); auto.
Qed.

Lemma process_events_timely fuel flags ms l r l' :
  process_events react fuel flags ms l = Some (r, l') → timely None l → timely None l'.
Proof.
  unfold process_events. intros Hr H. destruct (negb has_backend); [by simplify_eq|].
  destruct (on_watchers flags); [|by eapply process_queues_timely]. unfold poll_and_dispatch in Hr.
  pose proof (compute_timeout_timely ms l H) as Hc. destruct (compute_timeout_ms ms l) as [n l1].
  destruct (poll (asked l1)) as [ready|]; [|by simplify_eq].
  eapply process_queues_timely; [exact Hr|]. apply fold_timely; [apply dispatch_timely|exact Hc].
Qed.

Lemma passes_timely passes fuel l ok l' : passes_of react passes fuel l = Some (ok, l') → timely None l → timely None l'.
Proof.
  revert l. induction passes as [|passes IH]; intros l; [done|]. cbn [passes_of]. intros Hr H.
  destruct (process_events react fuel all_flags (-1) l) as [[r l1]|] eqn:E; [|done]. cbn in Hr.
  pose proof (process_events_timely _ _ _ _ _ _ E H) as H1. destruct r; [by eapply IH|by simplify_eq..].
Qed.

Lemma run_timely passes fuel l ok l' : run react passes fuel l = Some (ok, l') → timely None l → timely None l'.
Proof.
  unfold run. destruct (passes_of _ _ _ _) as [[o l1]|] eqn:E; [|done]. cbn. intros [= <- <-] H.
  unfold finish_run. apply discard_event_queue_timely, drain_deletes_timely, drain_task_queue_timely.
  eapply passes_timely; [exact E|exact H].
Qed.

End Lifting.

(** ** A pass over the timers *)

Definition is_fired (h : Happening) : bool := match h with Fired _ _ => true | _ => false end.
Definition fired_at (h : Happening) : option Z := match h with Fired _ due => Some due | _ => None end.

(** The operation starts no timer that is due by [now]. *)
Definition later_op (now : Z) (op : Op) : Prop :=
  match op with
  | PostAt when _ => now < when
  | PostDelayed delay _ | PostRepeating delay _ => 0 <= delay
  | _ => True
  end.

(** Callbacks start timers for later, and the clock has moved on. *)
Class Patient `{Machine} (react : Callback → Loop → list Op) (now : Z) (from : nat) : Prop := {
  patient_ops cb l op : op ∈ react cb l → later_op now op;
  patient_clock n : (from <= n)%nat → now < clock n }.

(** How often a timer is fired by [now]. *)
Definition rounds (now : Z) (e : TimerEntry) : nat :=
  if deadline e <=? now then if 0 <? interval e then Z.to_nat ((now - deadline e) / interval e + 1) else 1 else 0.

Definition work (now : Z) (es : list TimerEntry) : nat := sum_list_with (rounds now) es.

(** What a callback may have done to the timers. *)
Definition hosts (now : Z) (l l' : Loop) : Prop :=
  ∃ new t, heap (timer_heap l') = heap (timer_heap l) ++ new ∧ Forall (λ e, now < deadline e) new ∧
    log l' = log l ++ t ∧ Forall (λ h, is_fired h = false) t ∧
    (∀ id, id ∈ timers (timer_heap l) → id ∈ timers (timer_heap l') ∨ Revoked id ∈ t) ∧ (asked l <= asked l')%nat.

Lemma hosts_refl now l : hosts now l l.
Proof. exists [], []. rewrite !app_nil_r. split_and!; auto. Qed.

Lemma hosts_trans now l1 l2 l3 : hosts now l1 l2 → hosts now l2 l3 → hosts now l1 l3.
Proof.
  intros (n1 & t1 & Hh1 & Hn1 & Hl1 & Hf1 & Ht1 & Ha1) (n2 & t2 & Hh2 & Hn2 & Hl2 & Hf2 & Ht2 & Ha2).
  exists (n1 ++ n2), (t1 ++ t2). rewrite Hh2, Hh1, Hl2, Hl1, <- !app_assoc. split_and!; try done.
  - by apply Forall_app.
  - by apply Forall_app.
  - intros id [Hid|Hid]%Ht1; [destruct (Ht2 id Hid)|]; rewrite elem_of_app; auto.
  - lia.
Qed.

Lemma hosts_still now l l' : still l l' → (asked l <= asked l')%nat → hosts now l l'.
Proof. intros [Hh Hl] Ha. exists [], []. rewrite Hh, Hl, !app_nil_r. split_and!; auto. Qed.

Section Pass.
Context {order : HeapOrder} {contract : TopContract order} {machine : Machine}.
Variable react : Callback → Loop → list Op.
Variables (now : Z) (from : nat).
Context {patient : Patient react now from}.

Lemma start_timer_hosts cb due every l : now < due → hosts now l (start_timer cb due every l).
Proof.
  intros Hd. exists [mkTimer (next_id (timer_heap l)) cb due every], [Started (next_id (timer_heap l))].
  split_and!; try done; try (by repeat constructor). intros id Hid. left. cbn. apply elem_of_union. by right.
Qed.

Lemma ask_hosts l : hosts now l (ask l).
Proof. apply hosts_still; [done|cbn; lia]. Qed.

Lemma asked_woken insert l : (∀ l, asked (insert l) = asked l) → (asked l <= asked (woken insert l))%nat.
Proof. intros Hi. unfold woken. destruct has_backend, (wakeup (asked l)); rewrite ?Hi; cbn; lia. Qed.

Lemma unwatch_process_asked pid l : (asked l <= asked (unwatch_process pid l).2)%nat.
Proof.
  unfold unwatch_process. destruct (process_watchers l !! pid); [|done]. destruct (_ && _), has_backend; cbn; lia.
Qed.

Lemma watch_process_asked pid cb l : (asked l <= asked (watch_process pid cb l))%nat.
Proof.
  assert (Hr : ∀ l, (asked l <= asked (register_process pid cb l))%nat)
    by (intros l'; unfold register_process; destruct (add_process _); cbn; lia).
  unfold watch_process. destruct (_ || _); [done|]. destruct (process_watchers l !! pid) as [w|]; [|apply Hr].
  destruct (negb (removal_failed w)); [done|]. pose proof (unwatch_process_asked pid l) as Hu.
  destruct (unwatch_process pid l) as [[] l1]; [|exact Hu]. specialize (Hr l1). cbn in *. lia.
Qed.

Lemma watch_fd_asked fd evs mode cb l : (asked l <= asked (watch_fd fd evs mode cb l))%nat.
Proof.
  unfold watch_fd. destruct (_ || _); [done|]. destruct (watchers l !! fd); [destruct (_ && _); [done|]|];
    destruct (add_fd (asked l)); cbn; lia.
Qed.

Lemma unwatch_fd_asked fd l : (asked l <= asked (unwatch_fd fd l))%nat.
Proof.
  unfold unwatch_fd. destruct (fd <? 0); [done|]. destruct (watchers l !! fd); [|done].
  destruct (_ && _), has_backend; cbn; lia.
Qed.

Lemma cancel_timer_hosts id l : hosts now l (cancel_timer id l).
Proof.
  exists [], (if bool_decide (id ∈ timers (timer_heap l)) then [Revoked id] else []). cbn. rewrite app_nil_r.
  split_and!; try done.
  - case_bool_decide; by repeat constructor.
  - intros i Hi. destruct (decide (i = id)) as [->|Hne].
    + right. rewrite bool_decide_eq_true_2 by done. by constructor.
    + left. apply elem_of_difference. split; [done|]. by rewrite elem_of_singleton.
Qed.

Lemma apply_op_hosts op l : later_op now op → (from <= asked l)%nat → hosts now l (apply_op op l).
Proof.
  intros Hop Hn. destruct op; cbn [apply_op later_op] in *;
    try apply cancel_timer_hosts;
    try (apply hosts_still;
         [ auto using watch_fd_still, unwatch_fd_still, watch_process_still, unwatch_process_still;
             try done; apply woken_still; done
         | auto using watch_fd_asked, unwatch_fd_asked, watch_process_asked, unwatch_process_asked;
             try done; apply asked_woken; done ]).
  - unfold post_delayed. destruct has_backend; [|apply hosts_refl]. pose proof (patient_clock (asked l) Hn).
    eapply hosts_trans; [apply ask_hosts|]. apply start_timer_hosts. lia.
  - unfold post_at. destruct has_backend; [|apply hosts_refl]. by apply start_timer_hosts.
  - unfold post_repeating. destruct has_backend; [|apply hosts_refl]. pose proof (patient_clock (asked l) Hn).
    eapply hosts_trans; [apply ask_hosts|]. apply start_timer_hosts. lia.
Qed.

Lemma perform_hosts ops l : Forall (later_op now) ops → (from <= asked l)%nat → hosts now l (perform ops l).
Proof.
  intros Hops. unfold perform. revert l. induction Hops as [|op ops Hop _ IH]; intros l Hn; [apply hosts_refl|]. cbn.
  pose proof (apply_op_hosts op l Hop Hn) as Ho. eapply hosts_trans; [exact Ho|]. apply IH.
  destruct Ho as (_ & _ & _ & _ & _ & _ & _ & Ha). lia.
Qed.

Lemma invoke_hosts cb l : (from <= asked l)%nat → hosts now l (invoke react cb l).
Proof. apply perform_hosts. apply Forall_forall. intros op. apply patient_ops. Qed.

Lemma work_app es1 es2 : work now (es1 ++ es2) = (work now es1 + work now es2)%nat.
Proof. apply sum_list_with_app. Qed.

Lemma work_delete es i e : es !! i = Some e → work now es = (rounds now e + work now (delete i es))%nat.
Proof.
  revert i. induction es as [|x es IH]; intros [|i] Hi; cbn in *; simplify_eq; [done|]. specialize (IH i Hi).
  change (rounds now x + work now es = rounds now e + (rounds now x + work now (delete i es)))%nat. lia.
Qed.

Lemma work_later es : Forall (λ e, now < deadline e) es → work now es = 0%nat.
Proof.
  induction 1 as [|e es He _ IH]; [done|]. unfold work, rounds in *. cbn. rewrite IH.
  by destruct (Z.leb_spec (deadline e) now); [lia|].
Qed.

Lemma rounds_due e : deadline e <= now → (1 <= rounds now e)%nat.
Proof.
  intros Hd. unfold rounds. destruct (Z.leb_spec (deadline e) now); [|lia]. destruct (Z.ltb_spec 0 (interval e)); [|lia].
  assert (0 <= (now - deadline e) / interval e) by (apply Z.div_pos; lia). lia.
Qed.

Lemma rounds_again e :
  deadline e <= now → 0 < interval e →
  S (rounds now (mkTimer (te_id e) (te_callback e) (deadline e + interval e) (interval e))) = rounds now e.
Proof.
  intros Hd Hi. unfold rounds. cbn. destruct (Z.leb_spec (deadline e) now); [|lia]. destruct (Z.ltb_spec 0 (interval e)); [|lia].
  replace (now - deadline e) with (now - (deadline e + interval e) + 1 * interval e) by lia. rewrite Z.div_add by lia.
  destruct (Z.leb_spec (deadline e + interval e) now).
  - assert (0 <= (now - (deadline e + interval e)) / interval e) by (apply Z.div_pos; lia). lia.
  - assert ((now - (deadline e + interval e)) / interval e = -1) as -> by (symmetry; apply Z.div_unique with (r := now - deadline e); lia).
    done.
Qed.

(** *** Discarding *)

Lemma discard_timers fuel h : timers (discard fuel h) = timers h ∧ next_id (discard fuel h) = next_id h.
Proof.
  revert h. induction fuel as [|fuel IH]; intros h; [done|]. cbn. destruct (front h); [|done].
  case_bool_decide; [done|]. apply (IH (pop_heap h)).
Qed.

Lemma discard_sub fuel h e : e ∈ heap (discard fuel h) → e ∈ heap h.
Proof.
  revert h. induction fuel as [|fuel IH]; intros h; [done|]. cbn. destruct (front h) as [x|] eqn:E; [|done].
  case_bool_decide; [done|]. intros He%IH. cbn in He. rewrite (delete_Permutation _ _ _ E). by right.
Qed.

Lemma discard_live fuel h e : e ∈ heap h → te_id e ∈ timers h → e ∈ heap (discard fuel h).
Proof.
  revert h. induction fuel as [|fuel IH]; intros h He Hl; [done|]. cbn. destruct (front h) as [x|] eqn:E; [|done].
  case_bool_decide as Hx; [done|]. apply IH; [|done]. cbn. rewrite (delete_Permutation _ _ _ E) in He.
  by apply elem_of_cons in He as [->|He].
Qed.

Lemma discard_work fuel h : (work now (heap (discard fuel h)) <= work now (heap h))%nat.
Proof.
  revert h. induction fuel as [|fuel IH]; intros h; [done|]. cbn. destruct (front h) as [x|] eqn:E; [|done].
  case_bool_decide as Hx; [done|]. etrans; [apply IH|]. rewrite (work_delete (heap h) (top (heap h)) x E) at 1.
  cbn [heap pop_heap]. lia.
Qed.

Lemma front_least h e : front h = Some e → ∀ e', e' ∈ heap h → deadline e <= deadline e'.
Proof.
  intros Hf e' He'. destruct (top_least (heap h)) as (x & Hx & Hle); [by intros Hn; rewrite Hn in He'; apply elem_of_nil in He'|].
  unfold front in Hf. rewrite Hx in Hf. simplify_eq. auto.
Qed.

Lemma front_none h : front h = None → heap h = [].
Proof.
  intros Hf. destruct (heap h) eqn:E; [done|]. destruct (top_least (heap h)) as (x & Hx & _); [congruence|].
  unfold front in Hf. congruence.
Qed.

(** *** Firing *)

(** What firing the first entry leaves: the other entries, and entries that are
    due later. *)
Lemma fire_leaves e l :
  front (timer_heap l) = Some e → deadline e <= now → (from <= asked l)%nat →
  ∃ new t, heap (timer_heap (fire react e l)) = delete (top (heap (timer_heap l))) (heap (timer_heap l)) ++ new ∧
    Forall (λ x, deadline e < deadline x) new ∧ (S (work now new) <= rounds now e)%nat ∧
    log (fire react e l) = log l ++ Fired (te_id e) (deadline e) :: t ∧ Forall (λ h, is_fired h = false) t ∧
    (∀ id, id ≠ te_id e → id ∈ timers (timer_heap l) → id ∈ timers (timer_heap (fire react e l)) ∨ Revoked id ∈ t) ∧
    (from <= asked (fire react e l))%nat.
Proof.
  intros Hf Hd Hn. unfold fire. set (l1 := note _ _). cbn zeta. pose proof (rounds_due e Hd) as Hr.
  destruct (invoke_hosts (TimerCall (te_callback e)) l1 Hn) as (new & t & Hh & Hnew & Hl & Ht & Hlive & Ha).
  set (l2 := invoke react _ l1) in *. cbn in Hh, Hl, Hlive, Ha. rewrite <- app_assoc in Hl.
  assert (Hlater : Forall (λ x, deadline e < deadline x) new) by (eapply Forall_impl; [exact Hnew|cbn; lia]).
  destruct (_ && _) eqn:E.
  - apply andb_true_iff in E as [E%Z.ltb_lt _].
    exists (new ++ [mkTimer (te_id e) (te_callback e) (deadline e + interval e) (interval e)]), t. cbn.
    rewrite Hh, Hl, <- app_assoc. split_and!; try done; auto; try lia.
    + apply Forall_app. split; [done|]. repeat constructor. cbn. lia.
    + rewrite work_app, (work_later new Hnew). unfold work. cbn. pose proof (rounds_again e Hd E). lia.
  - exists new, t. cbn. rewrite Hh, Hl, (work_later new Hnew). split_and!; try done; try lia.
    intros id Hne Hid. destruct (Hlive id Hid); [|by right]. left. apply elem_of_difference. split; [done|].
    by rewrite elem_of_singleton.
Qed.

Definition due_times (t : list Happening) : list Z := omap fired_at t.

Lemma due_times_fire id due t rest :
  Forall (λ h, is_fired h = false) t → due_times ((Fired id due :: t) ++ rest) = due :: due_times rest.
Proof.
  intros Ht. unfold due_times. cbn. f_equal. rewrite omap_app.
  replace (omap fired_at t) with (@nil Z); [done|]. induction Ht as [|h t Hh _ IH]; [done|]. cbn. by destruct h.
Qed.

(** Everything that is due and live is fired or cancelled. *)
Definition served (l : Loop) (t : list Happening) : Prop :=
  ∀ e, e ∈ heap (timer_heap l) → te_id e ∈ timers (timer_heap l) → deadline e <= now →
    Fired (te_id e) (deadline e) ∈ t ∨ Revoked (te_id e) ∈ t.

(** One entry is fired, and the rest by what follows. *)
Lemma served_step e l h t t' :
  h = discard_cancelled_top (timer_heap l) → front h = Some e → sound None h (log l) →
  (∀ x, x ∈ heap h → te_id x ≠ te_id e → te_id x ∈ timers h →
     (x ∈ heap (timer_heap (fire react e (with_timers h l))) ∧ te_id x ∈ timers (timer_heap (fire react e (with_timers h l)))) ∨
     Revoked (te_id x) ∈ t) →
  served (fire react e (with_timers h l)) t' → served l ((Fired (te_id e) (deadline e) :: t) ++ t').
Proof.
  intros -> Hf Hs Hstep Hrest x Hx Hl Hd. destruct (discard_timers (length (heap (timer_heap l))) (timer_heap l)) as [Ht _].
  fold (discard_cancelled_top (timer_heap l)) in Ht.
  assert (Hx' : x ∈ heap (discard_cancelled_top (timer_heap l))) by (by apply discard_live).
  rewrite !elem_of_app, !elem_of_cons. destruct (decide (te_id x = te_id e)) as [Heq|Hne].
  - assert (x = e) as ->; [|by left; left; left].
    apply list_elem_of_lookup in Hx' as [i Hi]. pose proof (sound_unique _ _ _ Hs) as Hu. unfold ids in Hu.
    assert (i = top (heap (discard_cancelled_top (timer_heap l)))) as ->.
    { eapply (NoDup_lookup _ i _ (te_id x) Hu); rewrite list_lookup_fmap; [by rewrite Hi|]. by rewrite (front_lookup _ _ Hf), Heq. }
    apply front_lookup in Hf. congruence.
  - destruct (Hstep x Hx' Hne ltac:(by rewrite Ht)) as [[Hin Hlive]|Hrev]; [|by right; left; right].
    destruct (Hrest x Hin Hlive Hd); [left|right]; by right.
Qed.

Lemma fire_expired_spec fuel l lo :
  (work now (heap (timer_heap l)) < fuel)%nat → (from <= asked l)%nat → (∀ e, e ∈ heap (timer_heap l) → lo <= deadline e) →
  ∃ l' t, fire_expired react fuel now l = Some l' ∧ log l' = log l ++ t ∧
    StronglySorted Z.le (due_times t) ∧ Forall (λ d, lo <= d <= now) (due_times t) ∧
    (∀ e, e ∈ heap (timer_heap l') → now < deadline e) ∧
    (starts (log l') + 1 < id_limit → sound None (timer_heap l) (log l) → served l t).
Proof.
  revert l lo. induction fuel as [|fuel IH]; intros l lo Hfuel Hn Hlo; [lia|]. cbn [fire_expired].
  set (h := discard_cancelled_top (timer_heap l)).
  assert (Hsub : ∀ e, e ∈ heap h → e ∈ heap (timer_heap l)) by (intros e; apply discard_sub).
  assert (Hw : (work now (heap h) <= work now (heap (timer_heap l)))%nat) by apply discard_work.
  assert (Hlive : ∀ e, e ∈ heap (timer_heap l) → te_id e ∈ timers (timer_heap l) → e ∈ heap h)
    by (intros e; apply discard_live).
  destruct (front h) as [e|] eqn:E.
  2:{ exists (with_timers h l), []. cbn. rewrite app_nil_r. apply front_none in E. split_and!; try done; try (by constructor).
      - rewrite E. intros x Hx. by apply elem_of_nil in Hx.
      - intros _ _ x Hx Hl _. specialize (Hlive x Hx Hl). rewrite E in Hlive. by apply elem_of_nil in Hlive. }
  destruct (Z.ltb_spec now (deadline e)) as [Hd|Hd].
  { exists (with_timers h l), []. cbn. rewrite app_nil_r. split_and!; try done; try (by constructor).
    - intros x Hx%(front_least _ _ E). lia.
    - intros _ _ x Hx Hl Hdx. specialize (front_least _ _ E x (Hlive x Hx Hl)). lia. }
  destruct (fire_leaves e (with_timers h l) E Hd Hn) as (new & t & Hh & Hnew & Hwork & Hlog & Ht & Hkeep & Ha).
  cbn [timer_heap with_timers log] in Hh, Hlog. set (l1 := fire react e (with_timers h l)) in *.
  assert (Hlo1 : ∀ x, x ∈ heap (timer_heap l1) → deadline e <= deadline x).
  { intros x. rewrite Hh. intros [Hx|Hx]%elem_of_app.
    - apply (front_least _ _ E). rewrite (delete_Permutation _ _ _ E). by right.
    - rewrite Forall_forall in Hnew. specialize (Hnew x Hx). lia. }
  destruct (IH l1 (deadline e)) as (l' & t' & Hr & Hl' & Hsort & Hbound & Hleft & Hserved); try done.
  { rewrite Hh, work_app. rewrite (work_delete (heap h) _ e E) in Hw. lia. }
  assert (He : lo <= deadline e) by (apply Hlo, Hsub; by eapply list_elem_of_lookup_2).
  exists l', ((Fired (te_id e) (deadline e) :: t) ++ t'). rewrite due_times_fire by done. split_and!; try done.
  - rewrite Hl', Hlog. by rewrite <- app_assoc.
  - constructor; [done|]. eapply Forall_impl; [exact Hbound|]. cbn. lia.
  - constructor; [lia|]. eapply Forall_impl; [exact Hbound|]. cbn. lia.
  - intros Hlim Hs. assert (Hsh : sound None h (log l)) by (by apply sound_discard).
    eapply (served_step e l h t t'); try done.
    + intros x Hx Hne Hl. destruct (Hkeep (te_id x) Hne Hl) as [Hk|Hk]; [left|by right]. split; [|done].
      fold l1. rewrite Hh. apply elem_of_app. left. rewrite (delete_Permutation _ _ _ E) in Hx.
      by apply elem_of_cons in Hx as [->|Hx].
    + apply Hserved; [done|]. apply fire_timely; [done| |intros _; exact Hsh|].
      * apply discard_front; [done|exact E].
      * rewrite Hl', starts_app in Hlim. pose proof (starts_nonneg t'). fold l1. lia.
Qed.

End Pass.

(** ** The queues *)

Definition ran (h : Happening) : option Task := match h with Ran t => Some t | _ => None end.
Definition is_delivery (h : Happening) : bool := match h with Delivered _ _ => true | _ => false end.

(** What operations note is about timers only. *)
Definition quiet_growth (l l' : Loop) : Prop := ∃ t, log l' = log l ++ t ∧ Forall (λ h, timer_free h = false) t.

#[global] Instance quiet_refl : Reflexive quiet_growth.
Proof. intros l. exists []. by rewrite app_nil_r. Qed.
#[global] Instance quiet_trans : Transitive quiet_growth.
Proof. intros l1 l2 l3 (t1 & H1 & F1) (t2 & H2 & F2). exists (t1 ++ t2). rewrite H2, H1, app_assoc. split; [done|]. by apply Forall_app. Qed.

Section Queues.
Context {order : HeapOrder} {machine : Machine}.
Variable react : Callback → Loop → list Op.

Lemma apply_op_quiet op l : quiet_growth l (apply_op op l).
Proof.
  assert (Hst : ∀ l l', still l l' → quiet_growth l l') by (intros l1 l2 [_ H]; exists []; by rewrite H, app_nil_r).
  destruct op; cbn [apply_op];
    try (unfold post_at, post_delayed, post_repeating; destruct has_backend; [|done]; eexists; split; [done|by repeat constructor]);
    try (apply Hst; auto using watch_fd_still, unwatch_fd_still, watch_process_still, unwatch_process_still;
         try done; apply woken_still; done).
  eexists. split; [done|]. case_bool_decide; by repeat constructor.
Qed.

Lemma perform_quiet ops l : quiet_growth l (perform ops l).
Proof.
  unfold perform. revert l. induction ops as [|op ops IH]; intros l; [done|]. cbn. etrans; [apply apply_op_quiet|apply IH].
Qed.

Lemma quiet_ran t : Forall (λ h, timer_free h = false) t → omap ran t = [] ∧ filter (λ h, is_delivery h = true) t = [].
Proof. induction 1 as [|h t Hh _ [IH1 IH2]]; [done|]. by destruct h. Qed.

(** A task is called once, and nothing else is called. *)
Lemma run_task_log l task :
  ∃ t, log (run_task react l task) = log l ++ Ran task :: t ∧ omap ran t = [] ∧ filter (λ h, is_delivery h = true) t = [].
Proof.
  destruct (perform_quiet (react (TaskCall task) (note [Ran task] l)) (note [Ran task] l)) as (t & Hl & Ht).
  exists t. split; [|by apply quiet_ran]. cbn in Hl. by rewrite <- app_assoc in Hl.
Qed.

(** The tasks that were in the queue are run in their order, and only they. *)
Lemma drain_tasks_log l :
  ∃ t, log (drain_task_queue react l) = log (meanwhile l) ++ t ∧ omap ran t = task_queue (meanwhile l) ∧
       filter (λ h, is_delivery h = true) t = [].
Proof.
  unfold drain_task_queue. set (l0 := with_tasks [] (meanwhile l)).
  replace (log (meanwhile l)) with (log l0) by done. generalize (task_queue (meanwhile l)) as ts. intros ts. generalize l0. clear.
  intros l. revert l. induction ts as [|task ts IH]; intros l; cbn [fold_left].
  - exists []. by rewrite app_nil_r.
  - destruct (run_task_log l task) as (t1 & H1 & H2 & H3). destruct (IH (run_task react l task)) as (t2 & H4 & H5 & H6).
    exists ((Ran task :: t1) ++ t2). rewrite H4, H1, <- app_assoc. split; [done|].
    rewrite omap_app, filter_app. change (filter (λ h, is_delivery h = true) (Ran task :: t1)) with (filter (λ h, is_delivery h = true) t1).
    rewrite H3, H6. split; [|done]. cbn. by rewrite H2, H5.
Qed.

(** *** Deliveries *)

Definition deliveries (l : Loop) : list Happening := filter (λ h, is_delivery h = true) (log l).

Lemma deliveries_quiet l l' : quiet_growth l l' → deliveries l' = deliveries l.
Proof. intros (t & Hl & Ht). unfold deliveries. rewrite Hl, filter_app. destruct (quiet_ran t Ht) as [_ ->]. apply app_nil_r. Qed.

Lemma deliveries_note h l : is_delivery h = false → deliveries (note [h] l) = deliveries l.
Proof. intros Hh. unfold deliveries. cbn. rewrite filter_app. destruct h; try done; apply app_nil_r. Qed.

Lemma deliveries_called cb h l : is_delivery h = false → deliveries (invoke react cb (note [h] l)) = deliveries l.
Proof. intros Hh. unfold invoke. rewrite (deliveries_quiet _ _ (perform_quiet _ _)). by apply deliveries_note. Qed.

Lemma deliveries_meanwhile l : deliveries (meanwhile l) = deliveries l.
Proof. exact (deliveries_quiet (ask l) _ (perform_quiet _ _)). Qed.

Lemma deliveries_fold {A} (f : Loop → A → Loop) xs l : (∀ l x, deliveries (f l x) = deliveries l) → deliveries (fold_left f xs l) = deliveries l.
Proof. intros Hf. revert l. induction xs as [|x xs IH]; intros l; [done|]. cbn. by rewrite IH. Qed.

Lemma deliveries_tasks l : deliveries (drain_task_queue react l) = deliveries l.
Proof.
  unfold drain_task_queue. rewrite deliveries_fold; [apply deliveries_meanwhile|]. intros l1 x. by apply deliveries_called.
Qed.

Lemma deliveries_deletes l : deliveries (drain_deferred_delete_queue react l) = deliveries l.
Proof.
  unfold drain_deferred_delete_queue. rewrite deliveries_fold; [apply deliveries_meanwhile|].
  intros l1 o. unfold destroy. case_bool_decide; [|done]. by rewrite deliveries_called.
Qed.

Lemma deliveries_fire e l : deliveries (fire react e l) = deliveries l.
Proof.
  unfold fire. cbn zeta. set (l1 := invoke react _ _).
  assert (H1 : deliveries l1 = deliveries l) by (subst l1; by rewrite deliveries_called).
  destruct (_ && _); exact H1.
Qed.

Lemma deliveries_expired fuel now l l' : fire_expired react fuel now l = Some l' → deliveries l' = deliveries l.
Proof.
  revert l. induction fuel as [|fuel IH]; intros l; [done|]. cbn [fire_expired].
  destruct (front _) as [e|]; [|by intros [= <-]]. destruct (now <? deadline e); [by intros [= <-]|].
  intros Hr%IH. rewrite Hr. apply (deliveries_fire e (with_timers _ l)).
Qed.

Lemma deliveries_finish l : deliveries (finish_run react l) = deliveries l ∧ event_queue (finish_run react l) = [].
Proof.
  unfold finish_run, discard_event_queue. split; [|done]. rewrite deliveries_note by done.
  change (deliveries (meanwhile (drain_deferred_delete_queue react (drain_task_queue react l))) = deliveries l).
  by rewrite deliveries_meanwhile, deliveries_deletes, deliveries_tasks.
Qed.

(** A loop that is stopped stays stopped through what callbacks do. *)
Lemma apply_op_stopped op l : running l = false → running (apply_op op l) = false.
Proof.
  intros H. assert (Hw : ∀ f, (∀ l, running (f l) = running l) → running (woken f l) = false)
    by (intros f Hf; unfold woken; destruct has_backend, (wakeup (asked l)); rewrite ?Hf; done).
  destruct op; cbn [apply_op]; try (by apply Hw); try done.
  - unfold post_delayed. by destruct has_backend.
  - unfold post_at. by destruct has_backend.
  - unfold post_repeating. by destruct has_backend.
  - unfold watch_fd. destruct (_ || _); [done|]. destruct (watchers l !! fd); [destruct (_ && _); [done|]|]; by destruct (add_fd _).
  - unfold unwatch_fd. destruct (fd <? 0); [done|]. destruct (watchers l !! fd); [|done]. by destruct (_ && _), has_backend.
  - assert (Hr : ∀ l, running l = false → running (register_process pid cb l) = false)
      by (intros l'; unfold register_process; by destruct (add_process _)).
    unfold watch_process, unwatch_process. destruct (_ || _); [done|]. destruct (process_watchers l !! pid) as [w|]; [|by apply Hr].
    destruct (negb (removal_failed w)); [done|]. destruct (_ && _); [by apply Hr|]. by destruct has_backend.
  - unfold unwatch_process. destruct (process_watchers l !! pid); [|done]. by destruct (_ && _), has_backend.
Qed.

Lemma perform_stopped ops l : running l = false → running (perform ops l) = false.
Proof. unfold perform. revert l. induction ops as [|op ops IH]; intros l H; [done|]. by apply IH, apply_op_stopped. Qed.

Lemma deletes_stopped l : running l = false → running (drain_deferred_delete_queue react l) = false.
Proof.
  intros H. unfold drain_deferred_delete_queue. set (l0 := with_deletes [] (meanwhile l)).
  assert (H0 : running l0 = false) by (by apply (perform_stopped _ (ask l))). revert H0.
  generalize l0, (deferred_delete_queue (meanwhile l)). clear. intros l os. revert l.
  induction os as [|o os IH]; intros l H; [done|]. cbn. apply IH. unfold destroy. case_bool_decide; [|done]. by apply perform_stopped.
Qed.

End Queues.

(** ** The claims *)

(** A loop on which nothing has happened. *)
Definition fresh_loop (live : gset Object) : Loop := mkLoop false [] [] [] no_timers ∅ ∅ live 0 [].

Lemma fresh_timely live : timely None (fresh_loop live).
Proof.
  intros _. split; cbn; try done; try (by intros ? ?%elem_of_nil); try (by intros ? ? ?%elem_of_nil).
  - constructor.
  - by intros [|? ?].
  - by intros [|? ?].
Qed.


(** If the callbacks start timers for later only and the clock has moved
    past [now], the pass over the expired timers ends; it fires in the order of
    the deadlines, nothing is left in the heap that is due, and every live timer
    that was due has fired or was cancelled during the pass. *)
Theorem expired_timers_fire {order : HeapOrder} `{!TopContract order} {machine : Machine} react now l `{!Patient react now (asked l)} :
  ∃ l' t, fire_expired react (S (work now (heap (timer_heap l)))) now l = Some l' ∧ log l' = log l ++ t ∧
    StronglySorted Z.le (due_times t) ∧ Forall (λ d, d <= now) (due_times t) ∧
    (∀ e, e ∈ heap (timer_heap l') → now < deadline e) ∧
    (starts (log l') + 1 < id_limit → sound None (timer_heap l) (log l) → served now l t).
Proof.
  set (lo := foldr Z.min 0 (deadline <$> heap (timer_heap l))).
  destruct (fire_expired_spec react now (asked l) (S (work now (heap (timer_heap l)))) l lo) as (l' & t & ? & ? & ? & Hb & ? & ?);
    [lia|done| |].
  - subst lo. induction (heap (timer_heap l)) as [|x es IH]; intros e He; [by apply elem_of_nil in He|].
    apply elem_of_cons in He as [->|He]; cbn; [lia|]. specialize (IH e He). lia.
  - exists l', t. split_and!; try done. eapply Forall_impl; [exact Hb|]. cbn. lia.
Qed.

(** When the loop was told to quit by the time its tasks had run, the pass
    delivers no object event and reports the stop; and after the last pass [run]
    runs the tasks that are left, in the order in which they were posted,
    delivers nothing and leaves no event queued. *)
Theorem quit_ends_delivery {order : HeapOrder} {machine : Machine} react fuel l l1 r l' :
  fire_expired react fuel (clock (asked l)) (ask l) = Some l1 →
  running (drain_task_queue react l1) = false →
  process_queues react fuel all_flags true l = Some (r, l') →
  r = Stopped ∧ deliveries l' = deliveries l ∧
  deliveries (finish_run react l') = deliveries l ∧ event_queue (finish_run react l') = [] ∧
  ∃ t, log (drain_task_queue react l') = log (meanwhile l') ++ t ∧ omap ran t = task_queue (meanwhile l').
Proof.
  intros Hf Hq. unfold process_queues. cbn [on_timers all_flags on_tasks on_events]. rewrite Hf. cbn. rewrite Hq. cbn.
  rewrite (deletes_stopped _ _ Hq). intros [= <- <-]. split; [done|].
  assert (Hd : deliveries (drain_deferred_delete_queue react (drain_task_queue react l1)) = deliveries l)
    by (rewrite deliveries_deletes, deliveries_tasks; exact (deliveries_expired _ _ _ _ _ Hf)).
  split; [done|]. rewrite <- Hd. destruct (deliveries_finish react (drain_deferred_delete_queue react (drain_task_queue react l1))) as [H1 H2].
  split; [done|]. split; [done|]. destruct (drain_tasks_log react (drain_deferred_delete_queue react (drain_task_queue react l1))) as (t & Ht & Hr & _).
  eauto.
Qed.

Module Sample.

(** A heap whose front is the first of the entries that are due first. *)
Fixpoint least_index (es : list TimerEntry) : nat :=
  match es with
  | [] => O
  | e :: rest =>
      match rest !! least_index rest with
      | Some m => if deadline e <=? deadline m then O else S (least_index rest)
      | None => O
      end
  end.
#[local] Instance least_first : HeapOrder := least_index.

#[local] Instance least_first_contract : TopContract least_first.
Proof.
  split. unfold top, least_first. induction es as [|e es IH]; [done|]. intros _. cbn [least_index].
  destruct es as [|x es].
  - exists e. split; [done|]. by intros e' ->%list_elem_of_singleton.
  - destruct IH as (m & Hm & Hle); [done|]. rewrite Hm. destruct (Z.leb_spec (deadline e) (deadline m)).
    + exists e. split; [done|]. intros e' [->|He']%elem_of_cons; [lia|]. specialize (Hle e' He'). lia.
    + exists m. split; [done|]. intros e' [->|He']%elem_of_cons; [lia|]. auto.
Qed.

(** A machine whose clock advances by four at every reading and on which
    another thread posts one task. *)
#[local] Instance ticking : Machine :=
  {| has_backend := true; clock n := 4 * Z.of_nat n; wakeup _ := true; add_fd _ := true; remove_fd _ := true;
     add_process _ := Added; remove_process _ := true; poll _ := Some [];
     arrivals n := if (n <? 4)%nat then [Post 1] else [] |}.

(** The task starts a repeating timer and two others, of which the first cancels
    the second; the repeating timer ends the loop. *)
Definition answer (cb : Callback) (l : Loop) : list Op :=
  match cb with
  | TaskCall 1 => if next_id (timer_heap l) =? 1 then [PostRepeating 10 2; PostDelayed 5 3; PostDelayed 60 4] else []
  | TaskCall 9 => [RequestQuit]
  | TimerCall 3 => [CancelTimer 3]
  | TimerCall 2 => if 100 <? clock (asked l) then [RequestQuit] else []
  | _ => []
  end.

Definition last_loop : Loop := default (fresh_loop ∅) (snd <$> run answer 40 40 (fresh_loop ∅)).


(** Three timers, of which two are due at 30, and the clock at 400. *)
Definition late (l : Loop) : Loop :=
  mkLoop (running l) (task_queue l) (event_queue l) (deferred_delete_queue l) (timer_heap l) (watchers l)
    (process_watchers l) (alive l) 100 (log l).
Definition due_loop : Loop := late (start_timer 4 28 0 (start_timer 3 25 0 (start_timer 2 50 10 (fresh_loop ∅)))).

#[local] Instance answer_patient : Patient answer 30 100.
Proof.
  split.
  - intros cb l op. destruct cb as [t|t| | | |]; cbn; try (by intros ?%elem_of_nil).
    + destruct t as [|t|t]; try (by intros ?%elem_of_nil). repeat (destruct t as [t|t|]; try (by intros ?%elem_of_nil)).
      * by intros ->%list_elem_of_singleton.
      * destruct (_ =? 1); [|by intros ?%elem_of_nil]. intros Ho. repeat (apply elem_of_cons in Ho as [->|Ho]; [cbn; lia|]). by apply elem_of_nil in Ho.
    + destruct t as [|t|t]; try (by intros ?%elem_of_nil). repeat (destruct t as [t|t|]; try (by intros ?%elem_of_nil)).
      * by intros ->%list_elem_of_singleton.
      * destruct (100 <? _); [|by intros ?%elem_of_nil]. by intros ->%list_elem_of_singleton.
  - intros n Hn. cbn. lia.
Qed.

Lemma late_still l : still l (late l).
Proof. done. Qed.

Lemma due_loop_sound : sound None (timer_heap due_loop) (log due_loop).
Proof.
  assert (H : timely None due_loop).
  { eapply timely_still; [apply late_still|]. apply start_timer_timely, start_timer_timely, start_timer_timely, fresh_timely. }
  apply H. vm_compute. reflexivity.
Qed.

Lemma expired_timers_fire_witness :
  sound None (timer_heap due_loop) (log due_loop) ∧
  ∃ l' t, fire_expired answer (S (work 30 (heap (timer_heap due_loop)))) 30 due_loop = Some l' ∧ log l' = log due_loop ++ t ∧
    StronglySorted Z.le (due_times t) ∧ Forall (λ d, d <= 30) (due_times t) ∧
    (∀ e, e ∈ heap (timer_heap l') → 30 < deadline e) ∧
    (starts (log l') + 1 < id_limit → sound None (timer_heap due_loop) (log due_loop) → served 30 due_loop t).
Proof. split; [exact due_loop_sound|]. exact (expired_timers_fire answer 30 due_loop). Defined.

(** A task that ends the loop, an event that waits for a live object. *)
Definition ending_loop : Loop := mkLoop true [9] [(5, AnEvent 1)] [] no_timers ∅ ∅ {[5]} 10 [].
Definition after_timers : Loop := default ending_loop (fire_expired answer 3 (clock 10) (ask ending_loop)).
Definition after_pass : Loop := default ending_loop (snd <$> process_queues answer 3 all_flags true ending_loop).

Lemma quit_ends_delivery_witness :
  (5 ∈ alive ending_loop ∧ event_queue ending_loop = [(5, AnEvent 1)]) ∧
  Stopped = Stopped ∧ deliveries after_pass = deliveries ending_loop ∧
  deliveries (finish_run answer after_pass) = deliveries ending_loop ∧ event_queue (finish_run answer after_pass) = [] ∧
  ∃ t, log (drain_task_queue answer after_pass) = log (meanwhile after_pass) ++ t ∧ omap ran t = task_queue (meanwhile after_pass).
Proof.
  split; [split; [unfold ending_loop; cbn [alive]; by apply elem_of_singleton|reflexivity]|].
  apply (quit_ends_delivery answer 3 ending_loop after_timers Stopped after_pass); vm_compute; reflexivity.
Defined.

End Sample.
