(* ===== verification/IniFile.v ===== *)
(** * Configuration files

    [src/core/ini_file.cpp] with what it uses of [src/core/utils.cpp]: lines of
    keys and values, quoting, repeated keys and included files.

    The values are a [std::map], modelled as an association list in the order of
    the keys.  The file system is the class [FileSystem]: the normalised and the
    identifying path of a file, its contents, the resolution of a relative
    include and the expansion of a pattern. *)

From stdpp Require Import base strings list sorting.
From Stdlib Require Import Ascii.
From S2P Require Import Prelude.
Local Open Scope Z_scope.

(** ** Lines *)

Definition is_space (c : Z) : bool := (c =? 32) || (c =? 9) || (c =? 13) || (c =? 10).

Fixpoint trim_start (s : bytes) : bytes :=
  match s with
  | c :: s' => if is_space c then trim_start s' else s
  | [] => []
  end.

Definition trim_ascii_whitespace (s : bytes) : bytes := reverse (trim_start (reverse (trim_start s))).

Definition make_error (line_number : Z) (message : bytes) : bytes := bs!"line " ++ decimal line_number ++ bs!": " ++ message.

Record ParsedLine := mkLine { pl_key : bytes; pl_value : bytes }.

Definition is_quote (c : Z) : bool := (c =? 39) || (c =? 34).

(** The value, without its quotes. *)
Definition unquote (raw : bytes) : option bytes :=
  match raw with
  | c :: inner =>
      if is_quote c then
        match reverse inner with
        | c' :: body => if c' =? c then Some (reverse body) else None
        | [] => None
        end
      else Some raw
  | [] => Some []
  end.

Definition parse_line (line : bytes) (line_number : Z) : result bytes ParsedLine :=
  let line := trim_ascii_whitespace line in
  if match line with [] => true | c :: _ => (c =? #"#") || (c =? #";") end then success (mkLine [] [])
  else
    match find #"=" line with
    | None => failure (make_error line_number bs!"expected key=value")
    | Some separator =>
        let key := trim_ascii_whitespace (take separator line) in
        if bool_decide (key = []) then failure (make_error line_number bs!"empty key")
        else
          match unquote (trim_ascii_whitespace (drop (S separator) line)) with
          | None => failure (make_error line_number bs!"unterminated quoted value")
          | Some value => success (mkLine key value)
          end
    end.

(** The first line of a text and what follows it. *)
Definition next_line (text : bytes) : bytes * bytes :=
  match find 10 text with
  | None => (text, [])
  | Some line_end => (take line_end text, drop (S line_end) text)
  end.

(** ** The values *)

(** The order of [std::string]: bytes, compared as unsigned. *)
Fixpoint key_before (a b : bytes) : bool :=
  match a, b with
  | [], _ :: _ => true
  | x :: a, y :: b => (x <? y) || ((x =? y) && key_before a b)
  | _, [] => false
  end.

Abbreviation Values := (list (bytes * list bytes)).

(** [_values[key].emplace_back(value)]. *)
Fixpoint add_value (key value : bytes) (vs : Values) : Values :=
  match vs with
  | [] => [(key, [value])]
  | (k, xs) :: rest =>
      if bool_decide (k = key) then (k, xs ++ [value]) :: rest
      else if key_before key k then (key, [value]) :: vs
      else (k, xs) :: add_value key value rest
  end.

Fixpoint find_values (key : bytes) (vs : Values) : option (list bytes) :=
  match vs with
  | [] => None
  | (k, xs) :: rest => if bool_decide (k = key) then Some xs else find_values key rest
  end.

Record IniFile := mkIni { ini_values : Values; ini_error : bytes }.
Definition no_ini : IniFile := mkIni [] [].
Definition ok (ini : IniFile) : bool := bool_decide (ini_error ini = []).
Definition with_value (key value : bytes) (ini : IniFile) : IniFile :=
  mkIni (add_value key value (ini_values ini)) (ini_error ini).
Definition with_error (e : bytes) (ini : IniFile) : IniFile := mkIni (ini_values ini) e.

(** [values], [value] and [value_or]: the last of the repeated values counts. *)
Definition values (key : bytes) (ini : IniFile) : option (list bytes) := find_values key (ini_values ini).
Definition contains (key : bytes) (ini : IniFile) : bool :=
  match values key ini with Some _ => true | None => false end.
Definition value (key : bytes) (ini : IniFile) : option bytes := xs ← values key ini; last xs.
Definition value_or (key default_value : bytes) (ini : IniFile) : bytes := default default_value (value key ini).

(** ** Text *)

Fixpoint parse_text (fuel : nat) (line_number : Z) (text : bytes) (ini : IniFile) : IniFile :=
  match fuel with
  | O => ini
  | S fuel =>
      match text with
      | [] => ini
      | _ =>
          let line_number := line_number + 1 in
          let '(line, rest) := next_line text in
          match parse_line line line_number with
          | failure e => with_error e ini
          | success parsed =>
              if bool_decide (pl_key parsed = []) then parse_text fuel line_number rest ini
              else if bool_decide (pl_key parsed = bs!"include") then
                with_error (make_error line_number bs!"include directives are not allowed in text input") ini
              else parse_text fuel line_number rest (with_value (pl_key parsed) (pl_value parsed) ini)
          end
      end
  end.

Definition from_text (text : bytes) : IniFile := parse_text (S (length text)) 0 text no_ini.

(** ** Files *)

Class FileSystem := {
  (** The absolute, normalised path, and the canonical one. *)
  file_path : bytes → bytes;
  identity_path : bytes → bytes;
  (** The contents of a file, if it opens, and whether reading it failed. *)
  contents : bytes → option (bytes * bool);
  (** [include] as a path, resolved from the file that contains it. *)
  resolve : bytes → bytes → bytes;
  (** The paths that match a pattern, sorted. *)
  glob : bytes → result bytes (list bytes) }.

Definition has_glob_pattern (path : bytes) : bool :=
  existsb (λ c, (c =? #"*") || (c =? #"?")) path ||
  match find #"[" path with
  | Some bracket => match find_from #"]" path (S bracket) with Some _ => true | None => false end
  | None => false
  end.

Definition include_error (file error : bytes) : bytes := file ++ bs!": " ++ error.

Section Files.
Context {fs : FileSystem}.

Definition include_paths (current_file include_value : bytes) : result bytes (list bytes) :=
  let include_path := resolve current_file include_value in
  if has_glob_pattern include_value then glob include_path else success [include_path].

(** What reading one file does to the result, in terms of reading another. *)
Section OneFile.
Variable parse_other : bytes → IniFile → option (bool * IniFile).
Variable current_file : bytes.

Fixpoint parse_includes (paths : list bytes) (ini : IniFile) : option (bool * IniFile) :=
  match paths with
  | [] => Some (true, ini)
  | path :: paths =>
      '(good, ini) ← parse_other path ini;
      if (good : bool) then parse_includes paths ini
      else Some (false, with_error (include_error current_file (ini_error ini)) ini)
  end.

Fixpoint parse_lines (fuel : nat) (line_number : Z) (text : bytes) (ini : IniFile) : option (bool * IniFile) :=
  match fuel with
  | O => Some (true, ini)
  | S fuel =>
      match text with
      | [] => Some (true, ini)
      | _ =>
          let line_number := line_number + 1 in
          let '(line, rest) := next_line text in
          match parse_line line line_number with
          | failure e => Some (false, with_error (include_error current_file e) ini)
          | success parsed =>
              if bool_decide (pl_key parsed = []) then parse_lines fuel line_number rest ini
              else if bool_decide (pl_key parsed = bs!"include") then
                if bool_decide (pl_value parsed = []) then parse_lines fuel line_number rest ini
                else
                  match include_paths current_file (pl_value parsed) with
                  | failure e => Some (false, with_error (include_error current_file e) ini)
                  | success paths =>
                      '(good, ini) ← parse_includes paths ini;
                      if (good : bool) then parse_lines fuel line_number rest ini else Some (false, ini)
                  end
              else parse_lines fuel line_number rest (with_value (pl_key parsed) (pl_value parsed) ini)
          end
      end
  end.
End OneFile.

(** [IniFile::parse]; [depth] bounds the nesting of includes. *)
Fixpoint parse (depth : nat) (path : bytes) (include_stack : list bytes) (ini : IniFile) : option (bool * IniFile) :=
  match depth with
  | O => None
  | S depth =>
      let current_file := file_path path in
      let current_id := identity_path current_file in
      if bool_decide (current_id ∈ include_stack) then
        Some (false, with_error (bs!"recursive INI include: " ++ current_file) ini)
      else
        match contents current_file with
        | None => Some (false, with_error (bs!"failed to open INI file: " ++ current_file) ini)
        | Some (text, bad) =>
            '(good, ini) ← parse_lines (λ p i, parse depth p (include_stack ++ [current_id]) i) current_file
                             (S (length text)) 0 text ini;
            if (good : bool) then
              if (bad : bool) then Some (false, with_error (bs!"failed to read INI file: " ++ current_file) ini)
              else Some (true, ini)
            else Some (false, ini)
        end
  end.

Definition read_file (depth : nat) (path : bytes) : option IniFile := snd <$> parse depth path [] no_ini.

End Files.

(** ** The order of the keys *)

Definition before (a b : bytes) : Prop := key_before a b = true.

Lemma before_irrefl a : ¬ before a a.
Proof.
  unfold before. induction a as [|x a IH]; cbn; [done|]. rewrite Z.ltb_irrefl, Z.eqb_refl. exact IH.
Qed.

Lemma before_trans a b c : before a b → before b c → before a c.
Proof.
  unfold before. revert b c. induction a as [|x a IH]; intros [|y b] [|z c]; cbn; try done.
  rewrite !orb_true_iff, !andb_true_iff, !Z.ltb_lt, !Z.eqb_eq. intros [H1|[-> H1]] [H2|[-> H2]]; eauto; lia.
Qed.

Lemma before_total a b : before a b ∨ a = b ∨ before b a.
Proof.
  unfold before. revert b. induction a as [|x a IH]; intros [|y b]; cbn; auto.
  rewrite !orb_true_iff, !andb_true_iff, !Z.ltb_lt, !Z.eqb_eq.
  destruct (Z.lt_trichotomy x y) as [?|[->|?]]; auto. destruct (IH b) as [?|[->|?]]; auto.
Qed.

(** The keys are in increasing order. *)
Definition in_order (vs : Values) : Prop := StronglySorted before vs.*1.

Lemma add_value_keys key v vs k : k ∈ (add_value key v vs).*1 → k = key ∨ k ∈ vs.*1.
Proof.
  induction vs as [|[k' xs] vs IH]; cbn; [by intros ->%list_elem_of_singleton; left|].
  case_bool_decide; [by right|]. destruct (key_before key k'); cbn; rewrite !elem_of_cons; tauto.
Qed.

Lemma add_value_order key v vs : in_order vs → in_order (add_value key v vs).
Proof.
  unfold in_order. induction vs as [|[k xs] vs IH]; cbn; intros H; [by repeat constructor|].
  apply StronglySorted_inv in H as [Hs Hf]. case_bool_decide as Hk; [by constructor|].
  destruct (key_before key k) eqn:E; cbn.
  - constructor; [by constructor|]. constructor; [done|]. eapply Forall_impl; [exact Hf|]. intros y. by apply before_trans.
  - constructor; [by apply IH|]. apply Forall_forall. intros y [->|Hy]%add_value_keys.
    + destruct (before_total k key) as [?|[?|?]]; unfold before in *; [done|done|congruence].
    + rewrite Forall_forall in Hf. auto.
Qed.

Lemma find_values_before key vs : Forall (before key) vs.*1 → find_values key vs = None.
Proof.
  induction vs as [|[k xs] vs IH]; cbn; intros H; [done|]. apply Forall_cons in H as [Hk H].
  rewrite bool_decide_eq_false_2; [auto|]. intros ->. by eapply before_irrefl.
Qed.

Lemma find_values_add key v vs k :
  in_order vs →
  find_values k (add_value key v vs) =
  if bool_decide (k = key) then Some (default [] (find_values key vs) ++ [v]) else find_values k vs.
Proof.
  unfold in_order. induction vs as [|[k' xs] vs IH]; cbn; intros H.
  { destruct (bool_decide_reflect (k = key)), (bool_decide_reflect (key = k)); congruence || done. }
  apply StronglySorted_inv in H as [Hs Hf]. destruct (bool_decide_reflect (k' = key)) as [->|Hne].
  - cbn. rewrite ?(bool_decide_eq_true_2 (key = key)) by done. cbn.
    destruct (bool_decide_reflect (key = k)), (bool_decide_reflect (k = key)); congruence || done.
  - destruct (key_before key k') eqn:E; cbn.
    + destruct (decide (k = key)) as [->|Hk].
      * rewrite !bool_decide_eq_true_2 by done. rewrite find_values_before; [done|].
        eapply Forall_impl; [exact Hf|]. intros y. by apply before_trans.
      * by rewrite (bool_decide_eq_false_2 (key = k)), (bool_decide_eq_false_2 (k = key)) by congruence.
    + rewrite IH by done. destruct (bool_decide_reflect (k' = k)) as [->|]; [|done].
      by rewrite bool_decide_eq_false_2.
Qed.

(** ** What is written is read back *)

(** A line with the value between double quotes. *)
Definition write_line (entry : bytes * bytes) : bytes := entry.1 ++ [61; 34] ++ entry.2 ++ [34; 10].
Definition write (entries : list (bytes * bytes)) : bytes := concat (map write_line entries).

Definition plain_start (c : Z) : Prop := is_space c = false ∧ c ≠ 35 ∧ c ≠ 59.

Record writable (entry : bytes * bytes) : Prop := {
  writable_head : ∃ c rest, entry.1 = c :: rest ∧ plain_start c;
  writable_last : ∃ front c, entry.1 = front ++ [c] ∧ is_space c = false;
  writable_key : (61 ∉ entry.1) ∧ (10 ∉ entry.1);
  writable_name : entry.1 ≠ bs!"include";
  writable_value : 10 ∉ entry.2 }.

Lemma trim_start_id s : match s with c :: _ => is_space c = false | [] => True end → trim_start s = s.
Proof. destruct s as [|c s]; [done|]. cbn. by intros ->. Qed.

Lemma trimmed_id c front c' s :
  s = c :: front → (∃ f, s = f ++ [c']) → is_space c = false → is_space c' = false → trim_ascii_whitespace s = s.
Proof.
  intros -> [f Hf] H1 H2. unfold trim_ascii_whitespace. rewrite (trim_start_id (c :: front)) by done.
  rewrite Hf, reverse_snoc. rewrite trim_start_id by done. by rewrite <- reverse_snoc, reverse_involutive.
Qed.

Lemma drop_past (s rest : bytes) c : drop (S (length s)) (s ++ c :: rest) = rest.
Proof. by induction s. Qed.

Lemma unquote_quoted v : unquote ([34] ++ v ++ [34]) = Some v.
Proof. unfold unquote. cbn [app]. cbn. rewrite reverse_snoc. cbn. by rewrite reverse_involutive. Qed.

Lemma parse_written entry n : writable entry → parse_line (entry.1 ++ [61; 34] ++ entry.2 ++ [34]) n = success (mkLine entry.1 entry.2).
Proof.
  destruct entry as [key v]. intros [(c & rest & Hk & Hc & Hn1 & Hn2) (front & c' & Hl & Hc') [Heq Hnl] _ _]. cbn [fst snd] in *.
  unfold parse_line.
  assert (Ht : trim_ascii_whitespace (key ++ [61; 34] ++ v ++ [34]) = key ++ [61; 34] ++ v ++ [34]).
  { eapply (trimmed_id c (rest ++ [61; 34] ++ v ++ [34]) 34); try done; [by rewrite Hk|].
    exists (key ++ [61; 34] ++ v). by rewrite <- !app_assoc. }
  rewrite Ht. assert (Hstart : match key ++ [61; 34] ++ v ++ [34] with [] => true | c :: _ => (c =? 35) || (c =? 59) end = false).
  { rewrite Hk. cbn. by rewrite (proj2 (Z.eqb_neq c 35)), (proj2 (Z.eqb_neq c 59)). }
  rewrite Hstart. cbn [app]. rewrite find_app by done. rewrite take_app_length.
  assert (trim_ascii_whitespace key = key) as -> by (eapply (trimmed_id c rest c'); eauto).
  rewrite bool_decide_eq_false_2 by (by rewrite Hk).
  rewrite drop_past. change (34 :: v ++ [34]) with ([34] ++ v ++ [34]).
  assert (trim_ascii_whitespace ([34] ++ v ++ [34]) = [34] ++ v ++ [34]) as ->.
  { eapply (trimmed_id 34 (v ++ [34]) 34); try done. by exists ([34] ++ v). }
  by rewrite unquote_quoted.
Qed.

Lemma next_line_written entry rest :
  writable entry → next_line (write_line entry ++ rest) = (entry.1 ++ [61; 34] ++ entry.2 ++ [34], rest).
Proof.
  intros [_ _ [_ Hk] _ Hv]. unfold next_line, write_line. set (line := entry.1 ++ [61; 34] ++ entry.2 ++ [34]).
  assert (Hl : (entry.1 ++ [61; 34] ++ entry.2 ++ [34; 10]) ++ rest = line ++ 10 :: rest)
    by (subst line; rewrite <- !app_assoc; cbn; by rewrite <- ?app_assoc).
  assert (Hn : 10 ∉ line) by (subst line; rewrite !not_elem_of_app, !not_elem_of_cons; split_and!; try done; apply not_elem_of_nil).
  rewrite Hl, find_app by done. by rewrite take_app_length, drop_past.
Qed.

Lemma parse_text_written entries fuel n ini :
  Forall writable entries → (length entries < fuel)%nat →
  parse_text fuel n (write entries) ini = fold_left (λ ini e, with_value e.1 e.2 ini) entries ini.
Proof.
  intros Hw. revert fuel n ini. induction Hw as [|entry entries Hentry _ IH]; intros [|fuel] n ini Hf; cbn in Hf; try lia; [done|].
  change (write (entry :: entries)) with (write_line entry ++ write entries). cbn [parse_text].
  destruct (write_line entry ++ write entries) as [|c t] eqn:E.
  { destruct (writable_head _ Hentry) as (c & r & Hk & _). unfold write_line in E. by rewrite Hk in E. }
  rewrite <- E, next_line_written, parse_written by done. cbn [pl_key pl_value].
  destruct (writable_head _ Hentry) as (c' & r & Hk & _).
  rewrite bool_decide_eq_false_2 by (by rewrite Hk). rewrite bool_decide_eq_false_2 by apply Hentry. apply IH. lia.
Qed.

Lemma length_write entries : (length entries <= length (write entries))%nat.
Proof.
  induction entries as [|e entries IH]; [done|]. change (write (e :: entries)) with (write_line e ++ write entries).
  rewrite length_app. unfold write_line. rewrite !length_app. cbn [length]. lia.
Qed.

(** The values of a key, in order. *)
Definition values_of (key : bytes) (entries : list (bytes * bytes)) : list bytes :=
  (filter (λ e, e.1 = key) entries).*2.

Lemma fold_values entries ini key :
  in_order (ini_values ini) →
  let ini' := fold_left (λ ini e, with_value e.1 e.2 ini) entries ini in
  in_order (ini_values ini') ∧ ini_error ini' = ini_error ini ∧
  values key ini' = (if bool_decide (values_of key entries = []) then values key ini
                     else Some (default [] (values key ini) ++ values_of key entries)).
Proof.
  revert ini. induction entries as [|[k v] entries IH]; intros ini Ho; cbn [fold_left]; [done|].
  destruct (IH (with_value k v ini)) as (H1 & H2 & H3); [by apply add_value_order|]. split; [done|]. split; [done|].
  cbn [fst snd] in *. rewrite H3. unfold values at 1 2 3. cbn [ini_values with_value].
  rewrite find_values_add by done. fold (values key ini). unfold values_of in *. rewrite filter_cons. cbn [fst].
  destruct (decide (k = key)) as [->|Hk].
  - rewrite (bool_decide_eq_true_2 (key = key)) by done. rewrite fmap_cons. cbn [snd].
    rewrite (bool_decide_eq_false_2 (_ :: _ = [])) by done. cbn [default].
    case_bool_decide as He; [by rewrite He|]. cbn. by rewrite <- app_assoc.
  - by rewrite (bool_decide_eq_false_2 (key = k)) by congruence.
Qed.

(** Entries that are written one to a line, their values between quotes,
    are read back: no error, the keys in order, and the values of every key as
    they were written, in their order. *)
Theorem written_entries_read_back entries key :
  Forall writable entries →
  let ini := from_text (write entries) in
  ok ini = true ∧ in_order (ini_values ini) ∧
  values key ini = (if bool_decide (values_of key entries = []) then None else Some (values_of key entries)) ∧
  value key ini = last (values_of key entries).
Proof.
  intros Hw. cbn zeta. unfold from_text. rewrite parse_text_written; [|done|].
  2:{ apply le_n_S, length_write. }
  destruct (fold_values entries no_ini key) as (H1 & H2 & H3); [constructor|]. cbn zeta in *. unfold ok. rewrite H2.
  split; [done|]. split; [done|]. unfold value. rewrite H3. change (values key no_ini) with (@None (list bytes)).
  case_bool_decide as He; [by rewrite He|done].
Qed.

Definition sample_entries : list (bytes * bytes) :=
  [(bs!"socket.path", bs!"/run/jobud.sock"); (bs!"note", bs!" a 'quoted' value "); (bs!"note", bs!"")].

Lemma written_entries_read_back_witness :
  Forall writable sample_entries ∧
  (let ini := from_text (write sample_entries) in
   ok ini = true ∧ in_order (ini_values ini) ∧
   values bs!"note" ini = (if bool_decide (values_of bs!"note" sample_entries = []) then None else Some (values_of bs!"note" sample_entries)) ∧
   value bs!"note" ini = last (values_of bs!"note" sample_entries)).
Proof.
  assert (Hw : Forall writable sample_entries).
  { repeat constructor; cbn; try (eexists _, _; split; [reflexivity|by repeat split]); try discriminate;
      try (apply (bool_decide_unpack _); vm_compute; exact I).
    - by exists (bs!"socket.pat"), 104.
    - by exists (bs!"not"), 101.
    - by exists (bs!"not"), 101. }
  split; [exact Hw|]. exact (written_entries_read_back sample_entries (bs!"note") Hw).
Defined.

(** ** Included files *)

Section Includes.
Context {fs : FileSystem}.

Lemma parse_includes_total other current paths ini :
  (∀ p i, ∃ r, other p i = Some r) → ∃ r, parse_includes other current paths ini = Some r.
Proof.
  intros Ho. revert ini. induction paths as [|p paths IH]; intros ini; cbn; [by eexists|].
  destruct (Ho p ini) as [[[] i] ->]; cbn; [apply IH|by eexists].
Qed.

Lemma parse_lines_total other current fuel n text ini :
  (∀ p i, ∃ r, other p i = Some r) → ∃ r, parse_lines other current fuel n text ini = Some r.
Proof.
  intros Ho. revert n text ini. induction fuel as [|fuel IH]; intros n text ini; [by eexists|]. cbn [parse_lines].
  destruct text as [|c text]; [by eexists|]. destruct (next_line (c :: text)) as [line rest].
  destruct (parse_line line (n + 1)) as [parsed|e]; [|by eexists]. case_bool_decide; [apply IH|].
  case_bool_decide; [|apply IH]. case_bool_decide; [apply IH|].
  destruct (include_paths current (pl_value parsed)) as [paths|e]; [|by eexists].
  destruct (parse_includes_total other current paths ini Ho) as [[[] i] ->]; cbn; [apply IH|by eexists].
Qed.

Lemma parse_total ids depth path stack ini :
  (∀ p, identity_path (file_path p) ∈ ids) → NoDup stack → stack ⊆ ids → (length ids < depth + length stack)%nat →
  ∃ r, parse depth path stack ini = Some r.
Proof.
  intros Hids. revert path stack ini. induction depth as [|depth IH]; intros path stack ini Hnd Hsub Hlen.
  { apply NoDup_submseteq in Hsub; [|done]. apply submseteq_length in Hsub. lia. }
  cbn [parse]. case_bool_decide as Hin; [by eexists|]. destruct (contents (file_path path)) as [[text bad]|]; [|by eexists].
  destruct (parse_lines_total (λ p i, parse depth p (stack ++ [identity_path (file_path path)]) i) (file_path path)
              (S (length text)) 0 text ini) as [[[] i] ->]; [|destruct bad; by eexists|by eexists].
  intros p i'. apply IH.
  - apply NoDup_app. split; [done|]. split; [|apply NoDup_singleton]. by intros x Hx ->%list_elem_of_singleton.
  - intros x [Hx|Hx%list_elem_of_singleton]%elem_of_app; [by apply Hsub|]. subst x. apply Hids.
  - rewrite length_app. cbn. lia.
Qed.

End Includes.

(** Reading a file ends although files include one another, when the files
    have finitely many identities: nesting as deep as their number is enough,
    because a file that is being read is not read again. *)
Theorem includes_end {fs : FileSystem} ids path :
  (∀ p, identity_path (file_path p) ∈ ids) → ∃ ini, read_file (S (length ids)) path = Some ini.
Proof.
  intros Hids. destruct (parse_total ids (S (length ids)) path [] no_ini) as [[g i] Hp]; [done|constructor|by intros x ?%elem_of_nil|lia|].
  exists i. unfold read_file. by rewrite Hp.
Qed.

(** Two files that include each other. *)
#[local] Instance circular : FileSystem :=
  {| file_path p := p; identity_path p := if bool_decide (p = bs!"/a") then p else bs!"/b";
     contents p := Some (if bool_decide (p = bs!"/a") then bs!"x=1" ++ [10] ++ bs!"include=/b" else bs!"include=/a", false);
     resolve _ p := p; glob _ := success [] |}.

Lemma includes_end_witness :
  (snd <$> parse 3 bs!"/a" [] no_ini) = Some (mkIni [(bs!"x", [bs!"1"])] bs!"/a: /b: recursive INI include: /a") ∧
  ∃ ini, read_file 3 bs!"/a" = Some ini.
Proof.
  split; [vm_compute; reflexivity|]. apply (includes_end [bs!"/a"; bs!"/b"] (bs!"/a")).
  intros p. cbn. case_bool_decide; subst; rewrite !elem_of_cons; auto.
Defined.
