(* ===== verification/Configuration.v ===== *)
(** * The daemon's configuration

    [src/jobud/configuration_priv.cpp]: the settings of the configuration file,
    their conversion and the checks that relate them.

    [ConfigurationInput] is a struct of optional members; a member is a
    [Field] and the struct a function from the members to their values, with
    the two members that are always there beside it.  What the settings are
    checked against outside of this file (URLs, readable files, time zones, the
    attribute registry and its JSON codec) is the class [Surroundings]. *)

From stdpp Require Import base strings list.
From Stdlib Require Import Ascii.
From S2P Require Import Prelude.
From S2P Require Import TextValidation.
From S2P Require Import IniFile.
Local Open Scope Z_scope.

Definition kMaximumConfigurationBytes : Z := 64 * 1024.
Definition kDefaultHeaderBytes : Z := 16 * 1024.
Definition kDefaultBodyBytes : Z := 1024 * 1024.
Definition kDefaultQueuedOutputBytes : Z := 2 * 1024 * 1024.

(** The members of [ConfigurationInput]. *)
Inductive Field :=
  | database_backend | database_path | socket_path | socket_owner | socket_mode | socket_group | run_as_user
  | run_as_group | allow_root_daemon | allow_root_cli | cli_concurrency | http_concurrency | http_proxy
  | http_ca_bundle | default_timezone | default_retention | history_sweep_interval | history_batch_size
  | telemetry_checkpoint_interval | rpc_header_limit_bytes | rpc_body_limit_bytes | rpc_max_batch_entries
  | rpc_max_connections | rpc_queued_output_bytes | logging_level | logging_format.
#[global] Instance field_eq : EqDecision Field.
Proof. solve_decision. Defined.

Inductive LogLevel := Fatal | LevelError | Warning | Info | Debug1 | Debug2 | Debug3.
Inductive LoggingFormat := Json | Text.

Inductive Setting :=
  | Sqlite
  | PathSetting (p : bytes)
  | TextSetting (s : bytes)
  | Flag (b : bool)
  | Number (n : Z)
  | Level (l : LogLevel)
  | Format (f : LoggingFormat).

Definition kFixedConfigurationKeys : list bytes :=
  [bs!"database.backend";
   bs!"database.path";
   bs!"socket.path";
   bs!"socket.owner";
   bs!"socket.mode";
   bs!"socket.group";
   bs!"daemon.run_as_user";
   bs!"daemon.run_as_group";
   bs!"daemon.allow_root";
   bs!"cli.allow_root";
   bs!"cli.concurrency";
   bs!"http.concurrency";
   bs!"http.proxy";
   bs!"http.ca_bundle";
   bs!"schedule.default_timezone";
   bs!"history.default_retention";
   bs!"history.sweep_interval";
   bs!"history.batch_size";
   bs!"telemetry.checkpoint_interval";
   bs!"rpc.header_limit_bytes";
   bs!"rpc.body_limit_bytes";
   bs!"rpc.max_batch_entries";
   bs!"rpc.max_connections";
   bs!"rpc.queued_output_bytes";
   bs!"logging.level";
   bs!"logging.format"].

Record StartupError := mkStartupError {
  startup_code : string; startup_key : option bytes; startup_line : option Z; startup_message : string }.

Definition invalid (key : option bytes) : StartupError :=
  mkStartupError "jobud.config.invalid" key None "Daemon configuration is invalid".
Definition unknown_key : StartupError :=
  mkStartupError "jobud.config.unknown_key" None None "Daemon configuration key is unknown".
Definition duplicate_key (key : bytes) : StartupError :=
  mkStartupError "jobud.config.duplicate_key" (Some key) None "Daemon configuration key is repeated".
Definition invalid_defaults : StartupError :=
  mkStartupError "jobud.config.invalid" None None "Daemon attribute defaults are invalid".
Definition incompatible_defaults : StartupError :=
  mkStartupError "jobud.config.invalid" None None "Daemon attribute defaults are incompatible".

(** ** Conversions *)

Definition parse_unsigned (value : bytes) : option Z := from_chars_all uint64_max value.

Record UnitMultiplier := mkUnit { suffix : Z; multiplier : Z }.

Definition parse_quantity (value : bytes) (units : list UnitMultiplier) (maximum : Z) : option Z :=
  '(value, factor) ←
    match reverse value with
    | c :: front =>
        if ascii_digit c then Some (value, 1)
        else u ← List.find (λ u, suffix u =? c) units; Some (reverse front, multiplier u)
    | [] => Some (value, 1)
    end;
  parsed ← parse_unsigned value;
  if maximum / factor <? parsed then None else Some (parsed * factor).

Definition second_units : list UnitMultiplier :=
  [mkUnit #"s" 1; mkUnit #"m" 60; mkUnit #"h" 3600; mkUnit #"d" 86400].
Definition byte_units : list UnitMultiplier :=
  [mkUnit #"k" (Z.shiftl 1 10); mkUnit #"m" (Z.shiftl 1 20); mkUnit #"g" (Z.shiftl 1 30)].

(** [assign_integer] for a member of the given width. *)
Definition assign_integer (limit : Z) (value : bytes) (minimum maximum : Z) : option Setting :=
  parsed ← parse_unsigned value;
  if (parsed <? minimum) || (maximum <? parsed) || (limit <? parsed) then None else Some (Number parsed).

Definition assign_seconds (value : bytes) (minimum maximum : Z) : option Setting :=
  parsed ← parse_quantity value second_units maximum;
  if parsed <? minimum then None else Some (Number parsed).

Definition assign_bytes (value : bytes) (minimum maximum : Z) : option Setting :=
  parsed ← parse_quantity value byte_units maximum;
  if (parsed <? minimum) || (size_max <? parsed) then None else Some (Number parsed).

Definition ascii_lower (c : Z) : Z := if ascii_upper_alpha c then c + 32 else c.

Definition ascii_equal_ignoring_case (left right : bytes) : bool :=
  bool_decide (map ascii_lower left = map ascii_lower right).

Definition assign_boolean (value : bytes) : option Setting :=
  if bytes_eqb value bs!"1" || ascii_equal_ignoring_case value bs!"true" || ascii_equal_ignoring_case value bs!"on" ||
     ascii_equal_ignoring_case value bs!"yes" then Some (Flag true)
  else if bytes_eqb value bs!"0" || ascii_equal_ignoring_case value bs!"false" ||
     ascii_equal_ignoring_case value bs!"off" || ascii_equal_ignoring_case value bs!"no" then Some (Flag false)
  else None.

Definition valid_name (value : bytes) : bool := negb (bool_decide (value = [])) && negb (has_ascii_control value).

Definition absolute_path (value : bytes) : option bytes :=
  if bool_decide (value = []) || has_ascii_control value then None
  else if bool_decide (head value = Some #"/") then Some value else None.

(** [sizeof(sockaddr_un::sun_path)] on Linux. *)
Definition sun_path_size : Z := 108.
Definition valid_socket_path (path : bytes) : bool := Z.of_nat (length path) <? sun_path_size.

Definition parse_level (value : bytes) : option LogLevel :=
  if bytes_eqb value bs!"fatal" then Some Fatal
  else if bytes_eqb value bs!"error" then Some LevelError
  else if bytes_eqb value bs!"warning" then Some Warning
  else if bytes_eqb value bs!"info" then Some Info
  else if bytes_eqb value bs!"debug1" then Some Debug1
  else if bytes_eqb value bs!"debug2" then Some Debug2
  else if bytes_eqb value bs!"debug3" then Some Debug3
  else None.

Class Surroundings := {
  JsonValue : Type;
  AttributeSet : Type;
  validate_url : bytes → bool;
  readable_regular_file : bytes → bool;
  valid_timezone : bytes → bool;
  (** A registered attribute, and whether the daemon may give its default. *)
  find_attribute : bytes → option bool;
  parse_json : bytes → option JsonValue;
  attribute_set_from_json : list (bytes * JsonValue) → option AttributeSet;
  materializes : AttributeSet → bool }.

Section Configuration.
Context {env : Surroundings}.

Record ConfigurationInput := mkConfig {
  member : Field → option Setting;
  daemon_defaults : option AttributeSet;
  rpc_read_buffer_capacity : Z }.

Definition no_configuration : ConfigurationInput := mkConfig (λ _, None) None 0.

Definition assign (f : Field) (v : option Setting) (c : ConfigurationInput) : ConfigurationInput :=
  mkConfig (λ g, if bool_decide (g = f) then v else member c g) (daemon_defaults c) (rpc_read_buffer_capacity c).

Inductive SettingStatus := Accepted | Invalid | Unknown.

(** [return assign(...) ? Accepted : Invalid]. *)
Definition assigned (f : Field) (v : option Setting) (c : ConfigurationInput) : SettingStatus * ConfigurationInput :=
  match v with Some v => (Accepted, assign f (Some v) c) | None => (Invalid, c) end.
Definition when (b : bool) (v : Setting) : option Setting := if b then Some v else None.

(** A name that may be empty, which leaves the member without value. *)
Definition optional_name (f : Field) (value : bytes) (c : ConfigurationInput) : SettingStatus * ConfigurationInput :=
  if negb (bool_decide (value = [])) && negb (valid_name value) then (Invalid, c)
  else (Accepted, assign f (if bool_decide (value = []) then None else Some (TextSetting value)) c).

Definition convert (key value : bytes) (c : ConfigurationInput) : SettingStatus * ConfigurationInput :=
  if bytes_eqb key bs!"database.backend" then assigned database_backend (when (bytes_eqb value bs!"sqlite") Sqlite) c
  else if bytes_eqb key bs!"database.path" then assigned database_path (PathSetting <$> absolute_path value) c
  else if bytes_eqb key bs!"socket.path" then
    assigned socket_path (p ← absolute_path value; when (valid_socket_path p) (PathSetting p)) c
  else if bytes_eqb key bs!"socket.owner" then optional_name socket_owner value c
  else if bytes_eqb key bs!"socket.group" then optional_name socket_group value c
  else if bytes_eqb key bs!"daemon.run_as_group" then optional_name run_as_group value c
  else if bytes_eqb key bs!"daemon.run_as_user" then assigned run_as_user (when (valid_name value) (TextSetting value)) c
  else if bytes_eqb key bs!"socket.mode" then
    assigned socket_mode
      (when (bytes_eqb value bs!"0600" || bytes_eqb value bs!"0660") (Number (if bytes_eqb value bs!"0600" then 384 else 432))) c
  else if bytes_eqb key bs!"daemon.allow_root" then assigned allow_root_daemon (assign_boolean value) c
  else if bytes_eqb key bs!"cli.allow_root" then assigned allow_root_cli (assign_boolean value) c
  else if bytes_eqb key bs!"cli.concurrency" then assigned cli_concurrency (assign_integer uint32_max value 1 uint32_max) c
  else if bytes_eqb key bs!"http.concurrency" then assigned http_concurrency (assign_integer uint32_max value 1 uint32_max) c
  else if bytes_eqb key bs!"http.proxy" then
    if bool_decide (value = []) then (Accepted, assign http_proxy None c)
    else assigned http_proxy (when (validate_url value) (TextSetting value)) c
  else if bytes_eqb key bs!"http.ca_bundle" then
    if bool_decide (value = []) then (Accepted, assign http_ca_bundle None c)
    else assigned http_ca_bundle (p ← absolute_path value; when (readable_regular_file p) (PathSetting p)) c
  else if bytes_eqb key bs!"schedule.default_timezone" then
    assigned default_timezone (when (negb (bool_decide (value = [])) && valid_timezone value) (TextSetting value)) c
  else if bytes_eqb key bs!"history.default_retention" then
    assigned default_retention (assign_seconds value 0 (int64_max / 1000000)) c
  else if bytes_eqb key bs!"history.sweep_interval" then assigned history_sweep_interval (assign_seconds value 1 86400) c
  else if bytes_eqb key bs!"history.batch_size" then assigned history_batch_size (assign_integer uint32_max value 1 1000) c
  else if bytes_eqb key bs!"telemetry.checkpoint_interval" then
    assigned telemetry_checkpoint_interval (assign_seconds value 1 86400) c
  else if bytes_eqb key bs!"rpc.header_limit_bytes" then assigned rpc_header_limit_bytes (assign_bytes value 1024 65536) c
  else if bytes_eqb key bs!"rpc.body_limit_bytes" then assigned rpc_body_limit_bytes (assign_bytes value 1048576 16777216) c
  else if bytes_eqb key bs!"rpc.max_batch_entries" then assigned rpc_max_batch_entries (assign_integer size_max value 1 64) c
  else if bytes_eqb key bs!"rpc.max_connections" then assigned rpc_max_connections (assign_integer size_max value 1 4096) c
  else if bytes_eqb key bs!"rpc.queued_output_bytes" then
    assigned rpc_queued_output_bytes (assign_bytes value 1 (64 * 1024 * 1024)) c
  else if bytes_eqb key bs!"logging.level" then assigned logging_level (Level <$> parse_level value) c
  else if bytes_eqb key bs!"logging.format" then
    assigned logging_format
      (when (bytes_eqb value bs!"json" || bytes_eqb value bs!"text") (Format (if bytes_eqb value bs!"json" then Json else Text))) c
  else (Unknown, c).

Definition parse_setting (key value : bytes) (c : ConfigurationInput) : SettingStatus * ConfigurationInput :=
  if bool_decide (key ∈ kFixedConfigurationKeys) then convert key value c else (Unknown, c).

(** ** The file *)

(** The number that a diagnostic of [IniFile] starts with. *)
Definition lexical_error (diagnostic : bytes) : StartupError :=
  let error := invalid None in
  if bool_decide (take 5 diagnostic = bs!"line ") then
    let '(digits, rest) := span_while ascii_digit (drop 5 diagnostic) in
    if negb (bool_decide (digits = [])) && (digits_value digits <=? size_max) && bool_decide (head rest = Some #":")
    then mkStartupError (startup_code error) (startup_key error) (Some (digits_value digits)) (startup_message error)
    else error
  else error.

Definition size_member (f : Field) (fallback : Z) (c : ConfigurationInput) : Z :=
  match member c f with Some (Number n) => n | _ => fallback end.

Definition validate_rpc_budgets (c : ConfigurationInput) : result StartupError ConfigurationInput :=
  let header := size_member rpc_header_limit_bytes kDefaultHeaderBytes c in
  let body := size_member rpc_body_limit_bytes kDefaultBodyBytes c in
  let queued := size_member rpc_queued_output_bytes kDefaultQueuedOutputBytes c in
  if size_max - body <? header then failure (invalid (Some bs!"rpc.body_limit_bytes"))
  else
    let c := mkConfig (member c) (daemon_defaults c) (header + body) in
    if queued <? rpc_read_buffer_capacity c then failure (invalid (Some bs!"rpc.queued_output_bytes")) else success c.

Definition defaults_prefix : bytes := bs!"defaults.".

(** One key of the file with its values. *)
Definition read_entry (key : bytes) (vs : list bytes) (state : ConfigurationInput * list (bytes * JsonValue))
    : result StartupError (ConfigurationInput * list (bytes * JsonValue)) :=
  let '(c, defaults) := state in
  if bool_decide (take 9 key = defaults_prefix) then
    let attribute_name := drop 9 key in
    match find_attribute attribute_name with
    | None => failure unknown_key
    | Some false => failure (invalid (Some key))
    | Some true =>
        match vs with
        | [v] =>
            match parse_json v with
            | None => failure (invalid (Some key))
            | Some parsed => success (c, defaults ++ [(attribute_name, parsed)])
            end
        | _ => failure (duplicate_key key)
        end
    end
  else
    match parse_setting key (default [] (head vs)) c with
    | (Invalid, _) => failure (invalid (Some key))
    | (Unknown, _) => failure unknown_key
    | (Accepted, c) => if bool_decide (length vs = 1%nat) then success (c, defaults) else failure (duplicate_key key)
    end.

Fixpoint read_entries (vs : Values) (state : ConfigurationInput * list (bytes * JsonValue))
    : result StartupError (ConfigurationInput * list (bytes * JsonValue)) :=
  match vs with
  | [] => success state
  | (key, xs) :: rest => state ← read_entry key xs state; read_entries rest state
  end.

Definition parse_configuration_text (text : bytes) : result StartupError ConfigurationInput :=
  if (kMaximumConfigurationBytes <? Z.of_nat (length text)) || bool_decide (is_Some (find 0 text)) || negb (is_valid_utf8 text)
  then failure (invalid None)
  else
    let ini := from_text text in
    if negb (ok ini) then failure (lexical_error (ini_error ini))
    else
      '(c, defaults) ← read_entries (ini_values ini) (no_configuration, []);
      match attribute_set_from_json defaults with
      | None => failure invalid_defaults
      | Some decoded =>
          let c := mkConfig (member c) (Some decoded) (rpc_read_buffer_capacity c) in
          if negb (materializes decoded) then failure incompatible_defaults else validate_rpc_budgets c
      end.

End Configuration.

(** ** What is accepted *)

Definition number_within (lo hi : Z) (v : Setting) : Prop := ∃ n, v = Number n ∧ lo <= n <= hi.
Definition clean_path (v : Setting) : Prop :=
  ∃ p, v = PathSetting p ∧ head p = Some #"/" ∧ has_ascii_control p = false.
Definition clean_name (v : Setting) : Prop := ∃ s, v = TextSetting s ∧ s ≠ [] ∧ has_ascii_control s = false.
Definition a_flag (v : Setting) : Prop := ∃ b, v = Flag b.

(** The documented type and range of every member. *)
Definition admissible `{Surroundings} (f : Field) (v : Setting) : Prop :=
  match f with
  | database_backend => v = Sqlite
  | database_path => clean_path v
  | socket_path => clean_path v ∧ ∃ p, v = PathSetting p ∧ Z.of_nat (length p) < sun_path_size
  | socket_owner | socket_group | run_as_group | run_as_user => clean_name v
  | socket_mode => v = Number 384 ∨ v = Number 432
  | allow_root_daemon | allow_root_cli => a_flag v
  | cli_concurrency | http_concurrency => number_within 1 uint32_max v
  | http_proxy => ∃ s, v = TextSetting s ∧ validate_url s = true
  | http_ca_bundle => clean_path v ∧ ∃ p, v = PathSetting p ∧ readable_regular_file p = true
  | default_timezone => ∃ s, v = TextSetting s ∧ s ≠ [] ∧ valid_timezone s = true
  | default_retention => number_within 0 (int64_max / 1000000) v
  | history_sweep_interval | telemetry_checkpoint_interval => number_within 1 86400 v
  | history_batch_size => number_within 1 1000 v
  | rpc_header_limit_bytes => number_within 1024 65536 v
  | rpc_body_limit_bytes => number_within 1048576 16777216 v
  | rpc_max_batch_entries => number_within 1 64 v
  | rpc_max_connections => number_within 1 4096 v
  | rpc_queued_output_bytes => number_within 1 67108864 v
  | logging_level => ∃ l, v = Level l
  | logging_format => ∃ x, v = Format x
  end.

Lemma parse_unsigned_range s n : parse_unsigned s = Some n → 0 <= n <= uint64_max.
Proof. apply from_chars_all_range. Qed.

(** The product is computed only when it fits. *)
Lemma parse_quantity_range s units maximum n :
  Forall (λ u, 0 < multiplier u) units → parse_quantity s units maximum = Some n → 0 <= n <= maximum.
Proof.
  intros Hu. unfold parse_quantity.
  set (scaled := match reverse s with c :: front => _ | [] => _ end).
  assert (Hs : ∀ v factor, scaled = Some (v, factor) → 0 < factor).
  { subst scaled. intros v factor. destruct (reverse s) as [|c front]; [by intros [= _ <-]|].
    destruct (ascii_digit c); [by intros [= _ <-]|].
    destruct (List.find (λ u, suffix u =? c) units) as [u|] eqn:E; [|done]. cbn. intros [= _ <-].
    apply find_some in E as [Hin _]. rewrite Forall_forall in Hu. apply Hu. by apply list_elem_of_In. }
  destruct scaled as [[v factor]|]; [|done]. specialize (Hs v factor eq_refl). cbn.
  destruct (parse_unsigned v) as [parsed|] eqn:E; [|done]. cbn. apply parse_unsigned_range in E.
  destruct (Z.ltb_spec (maximum / factor) parsed); [done|]. intros [= <-].
  pose proof (Z.mul_div_le maximum factor Hs). nia.
Qed.

Lemma assign_integer_range limit s lo hi v : assign_integer limit s lo hi = Some v → number_within lo hi v.
Proof.
  unfold assign_integer. destruct (parse_unsigned s) as [n|]; [|done]. cbn.
  destruct (Z.ltb_spec n lo), (Z.ltb_spec hi n), (limit <? n); cbn; try done. intros [= <-]. exists n. split; [done|lia].
Qed.

Lemma assign_seconds_range s lo hi v : assign_seconds s lo hi = Some v → number_within lo hi v.
Proof.
  unfold assign_seconds. destruct (parse_quantity s second_units hi) as [n|] eqn:E; [|done]. cbn.
  apply parse_quantity_range in E; [|by repeat constructor]. destruct (Z.ltb_spec n lo); [done|]. intros [= <-].
  exists n. split; [done|lia].
Qed.

Lemma assign_bytes_range s lo hi v : assign_bytes s lo hi = Some v → number_within lo hi v.
Proof.
  unfold assign_bytes. destruct (parse_quantity s byte_units hi) as [n|] eqn:E; [|done]. cbn.
  apply parse_quantity_range in E; [|by repeat constructor]. destruct (Z.ltb_spec n lo), (size_max <? n); try done. intros [= <-].
  exists n. split; [done|lia].
Qed.

Lemma assign_boolean_flag s v : assign_boolean s = Some v → a_flag v.
Proof. unfold assign_boolean. destruct (_ || _); [by intros [= <-]; eexists|]. destruct (_ || _); by intros [= <-]; eexists. Qed.

Lemma absolute_path_clean s p : absolute_path s = Some p → clean_path (PathSetting p).
Proof.
  unfold absolute_path. destruct (_ || _) eqn:E; [done|]. apply orb_false_iff in E as [_ E].
  case_bool_decide; [|done]. intros [= <-]. by exists s.
Qed.

Lemma valid_name_clean s : valid_name s = true → clean_name (TextSetting s).
Proof.
  unfold valid_name. intros [H1%negb_true_iff H2%negb_true_iff]%andb_true_iff. exists s.
  split; [done|]. split; [by apply bool_decide_eq_false_1 in H1|done].
Qed.

Lemma when_true b v x : when b v = Some x → b = true ∧ x = v.
Proof. unfold when. destruct b; [|done]. by intros [= <-]. Qed.

(** Membership of a literal in a literal list. *)
Ltac known_message := apply (bool_decide_unpack _); vm_compute; exact I.

Section Accepted.
Context {env : Surroundings}.

Definition all_admissible (c : ConfigurationInput) : Prop := ∀ f v, member c f = Some v → admissible f v.

(** An accepted setting is in the range of its member, and only that member
    changes. *)
Definition sets (f : Field) (r : SettingStatus * ConfigurationInput) (c : ConfigurationInput) : Prop :=
  r.1 ≠ Unknown ∧ (r.1 = Accepted → (∀ v, member r.2 f = Some v → admissible f v) ∧ ∀ g, g ≠ f → member r.2 g = member c g).

Lemma assigned_sets f v c : (∀ x, v = Some x → admissible f x) → sets f (assigned f v c) c.
Proof.
  intros Hv. unfold assigned. destruct v as [x|]; [|by split]. split; [done|]. intros _. cbn. split.
  - rewrite bool_decide_eq_true_2 by done. intros y [= <-]. by apply Hv.
  - intros g Hg. by rewrite bool_decide_eq_false_2.
Qed.

Lemma assign_none_sets f c : sets f (Accepted, assign f None c) c.
Proof.
  split; [done|]. intros _. cbn. split; [by rewrite bool_decide_eq_true_2|]. intros g Hg. by rewrite bool_decide_eq_false_2.
Qed.

Lemma optional_name_sets f s c : (∀ v, clean_name v → admissible f v) → sets f (optional_name f s c) c.
Proof.
  intros Hf. unfold optional_name. destruct (bool_decide_reflect (s = [])) as [->|Hs]; cbn [negb andb]; [apply assign_none_sets|].
  destruct (negb (valid_name s)) eqn:E; [by split|].
  apply (assigned_sets f (Some (TextSetting s))). intros x [= <-]. apply Hf, valid_name_clean. by apply negb_false_iff in E.
Qed.

(** The member that a key sets. *)
Definition field_of (key : bytes) : Field :=
  match List.find (λ p, bytes_eqb key p.1)
    (zip kFixedConfigurationKeys
      [database_backend; database_path; socket_path; socket_owner; socket_mode; socket_group; run_as_user; run_as_group;
       allow_root_daemon; allow_root_cli; cli_concurrency; http_concurrency; http_proxy; http_ca_bundle; default_timezone;
       default_retention; history_sweep_interval; history_batch_size; telemetry_checkpoint_interval; rpc_header_limit_bytes;
       rpc_body_limit_bytes; rpc_max_batch_entries; rpc_max_connections; rpc_queued_output_bytes; logging_level; logging_format])
  with Some p => p.2 | None => database_backend end.

(** Decide which conversion a literal key selects. *)
Ltac select_key :=
  unfold convert;
  repeat match goal with
  | |- context [if bytes_eqb ?a ?b then _ else _] =>
      let r := eval vm_compute in (bytes_eqb a b) in
      lazymatch r with true => idtac | false => idtac end;
      change (bytes_eqb a b) with r; cbv iota
  end;
  match goal with |- sets ?f _ _ => let r := eval vm_compute in f in change f with r end.

Ltac settle_setting :=
  repeat match goal with
  | H : when _ _ = Some _ |- _ => apply when_true in H as [? ->]
  | H : _ <$> ?x = Some _ |- _ => destruct x eqn:?; [|done]; cbn in H; injection H as <-
  | H : (_ ← ?x; _) = Some _ |- _ => destruct x eqn:?; [|done]; cbn in H
  | H : absolute_path _ = Some _ |- _ => apply absolute_path_clean in H
  | H : _ && _ = true |- _ => apply andb_true_iff in H as [? ?]
  | H : negb (bool_decide _) = true |- _ => apply negb_true_iff, bool_decide_eq_false_1 in H
  end;
  cbn [admissible];
  eauto using assign_integer_range, assign_seconds_range, assign_bytes_range, assign_boolean_flag, valid_name_clean.

Lemma convert_sets key value c : key ∈ kFixedConfigurationKeys → sets (field_of key) (convert key value c) c.
Proof.
  intros Hk. unfold kFixedConfigurationKeys in Hk.
  repeat (apply elem_of_cons in Hk as [->|Hk]; [select_key|]); [..|by apply elem_of_nil in Hk].
  all: try (apply assigned_sets; intros x Hx; settle_setting).
  all: try (apply optional_name_sets; by intros v).
  - split; [done|]. eexists. split; [done|]. by apply Z.ltb_lt.
  - destruct (bytes_eqb value _); auto.
  - case_bool_decide; [apply assign_none_sets|]. apply assigned_sets. intros x Hx. settle_setting.
  - case_bool_decide; [apply assign_none_sets|]. apply assigned_sets. intros x Hx. settle_setting.
Qed.

Lemma parse_setting_unknown key value c : (parse_setting key value c).1 = Unknown ↔ key ∉ kFixedConfigurationKeys.
Proof.
  unfold parse_setting. case_bool_decide as Hk; [|by split]. split; [|done]. intros Hu. by destruct (convert_sets key value c Hk).
Qed.

Lemma parse_setting_sets key value c c' :
  parse_setting key value c = (Accepted, c') →
  key ∈ kFixedConfigurationKeys ∧ (∀ v, member c' (field_of key) = Some v → admissible (field_of key) v) ∧
  ∀ g, g ≠ field_of key → member c' g = member c g.
Proof.
  unfold parse_setting. case_bool_decide as Hk; [|done]. intros Hc. destruct (convert_sets key value c Hk) as [_ Hs].
  rewrite Hc in Hs. cbn in Hs. destruct (Hs eq_refl). done.
Qed.

Lemma parse_setting_admissible key value c c' :
  parse_setting key value c = (Accepted, c') → all_admissible c → all_admissible c'.
Proof.
  intros (_ & Hf & Hg)%parse_setting_sets Hc f v Hv. destruct (decide (f = field_of key)) as [->|Hne]; [auto|].
  rewrite Hg in Hv by done. eauto.
Qed.

Lemma read_entry_admissible key vs st st' :
  read_entry key vs st = success st' → all_admissible st.1 → all_admissible st'.1.
Proof.
  destruct st as [c defaults]. unfold read_entry. case_bool_decide.
  - destruct (find_attribute _) as [[]|]; try done. destruct vs as [|v [|]]; try done. destruct (parse_json v); [|done].
    by intros [= <-].
  - destruct (parse_setting key _ c) as [[] c'] eqn:E; try done. case_bool_decide; [|done]. intros [= <-].
    by eapply parse_setting_admissible.
Qed.

Lemma read_entries_admissible vs st st' :
  read_entries vs st = success st' → all_admissible st.1 → all_admissible st'.1.
Proof.
  revert st. induction vs as [|[key xs] vs IH]; intros st; cbn; [by intros [= <-]|].
  destruct (read_entry key xs st) as [st1|e] eqn:E; [|done]. cbn. intros Hr Hs. eapply IH; [exact Hr|].
  by eapply read_entry_admissible.
Qed.

(** *** Errors *)

(** A recognised key: a fixed one, or the default of a registered attribute. *)
Definition recognised (key : bytes) : Prop :=
  key ∈ kFixedConfigurationKeys ∨ (take 9 key = defaults_prefix ∧ find_attribute (drop 9 key) ≠ None).

Definition startup_messages : list string :=
  ["Daemon configuration is invalid"; "Daemon configuration key is unknown"; "Daemon configuration key is repeated";
   "Daemon attribute defaults are invalid"; "Daemon attribute defaults are incompatible"]%string.

Definition discreet (e : StartupError) : Prop :=
  (∀ key, startup_key e = Some key → recognised key) ∧ startup_message e ∈ startup_messages.

Lemma discreet_free e : startup_key e = None → startup_message e ∈ startup_messages → discreet e.
Proof. intros Hk Hm. split; [by rewrite Hk|done]. Qed.

Lemma discreet_key e key :
  startup_key e = Some key → recognised key → startup_message e ∈ startup_messages → discreet e.
Proof. intros Hk Hr Hm. split; [|done]. rewrite Hk. by intros k [= <-]. Qed.

Lemma read_entry_discreet key vs st e : read_entry key vs st = failure e → discreet e.
Proof.
  destruct st as [c defaults]. unfold read_entry. case_bool_decide as Hp.
  - destruct (find_attribute (drop 9 key)) as [[]|] eqn:Ef.
    + assert (Hr : recognised key) by (right; split; [done|congruence]).
      destruct vs as [|v [|]]; [|destruct (parse_json v); [done|]|]; intros [= <-];
        (eapply discreet_key; [reflexivity|exact Hr|known_message]).
    + intros [= <-]. eapply discreet_key; [reflexivity| |known_message]. right. split; [done|congruence].
    + intros [= <-]. apply discreet_free; [done|known_message].
  - pose proof (parse_setting_unknown key (default [] (head vs)) c) as Hu.
    destruct (parse_setting key (default [] (head vs)) c) as [[] c']; cbn in Hu.
    + assert (Hk : key ∈ kFixedConfigurationKeys) by (destruct (decide (key ∈ kFixedConfigurationKeys)) as [?|Hn]; [done|]; by apply Hu in Hn).
      case_bool_decide; [done|]. intros [= <-]. eapply discreet_key; [reflexivity|by left|known_message].
    + assert (Hk : key ∈ kFixedConfigurationKeys) by (destruct (decide (key ∈ kFixedConfigurationKeys)) as [?|Hn]; [done|]; by apply Hu in Hn).
      intros [= <-]. eapply discreet_key; [reflexivity|by left|known_message].
    + intros [= <-]. apply discreet_free; [done|known_message].
Qed.

Lemma read_entries_discreet vs st e : read_entries vs st = failure e → discreet e.
Proof.
  revert st. induction vs as [|[key xs] vs IH]; intros st; cbn; [done|].
  destruct (read_entry key xs st) as [st1|e1] eqn:E; cbn; [apply IH|]. intros [= <-]. by eapply read_entry_discreet.
Qed.

Lemma lexical_error_discreet d : discreet (lexical_error d).
Proof.
  unfold lexical_error. case_bool_decide; [|apply discreet_free; [done|known_message]].
  destruct (span_while _ _) as [digits rest]. destruct (_ && _); (apply discreet_free; [done|known_message]).
Qed.

(** *** The line of an error *)

Lemma span_digits d rest :
  forallb ascii_digit d = true → match rest with c :: _ => ascii_digit c = false | [] => True end →
  span_while ascii_digit (d ++ rest) = (d, rest).
Proof.
  induction d as [|c d IH]; cbn; intros Hd Hr.
  - destruct rest as [|c rest]; [done|]. cbn. by rewrite Hr.
  - apply andb_true_iff in Hd as [-> Hd]. by rewrite IH.
Qed.

Lemma lexical_error_line n m : 0 <= n <= size_max → startup_line (lexical_error (make_error n m)) = Some n.
Proof.
  intros Hn. destruct (decimal_spec n) as (Hv & Hd & Hne); [lia|]. unfold lexical_error, make_error.
  change (take 5 ([108; 105; 110; 101; 32] ++ decimal n ++ [58; 32] ++ m)) with [108; 105; 110; 101; 32].
  rewrite bool_decide_eq_true_2 by done.
  change (drop 5 ([108; 105; 110; 101; 32] ++ decimal n ++ [58; 32] ++ m)) with (decimal n ++ [58; 32] ++ m).
  rewrite span_digits by done. rewrite bool_decide_eq_false_2 by done. rewrite Hv, (proj2 (Z.leb_le n size_max)) by lia. done.
Qed.

(** An error of the text names one of its lines. *)
Lemma parse_text_error fuel n text ini :
  ini_error ini = [] →
  ini_error (parse_text fuel n text ini) = [] ∨
  ∃ k m, ini_error (parse_text fuel n text ini) = make_error k m ∧ n < k <= n + Z.of_nat fuel.
Proof.
  revert n text ini. induction fuel as [|fuel IH]; intros n text ini Hi; [by left|]. cbn [parse_text].
  destruct text as [|c text]; [by left|]. destruct (next_line (c :: text)) as [line rest].
  destruct (parse_line line (n + 1)) as [parsed|e] eqn:E.
  - case_bool_decide; [|case_bool_decide].
    + destruct (IH (n + 1) rest ini Hi) as [?|(k & m & ? & ?)]; [by left|]. right. exists k, m. split; [done|lia].
    + right. eexists _, _. split; [done|lia].
    + destruct (IH (n + 1) rest (with_value (pl_key parsed) (pl_value parsed) ini) Hi) as [?|(k & m & ? & ?)]; [by left|].
      right. exists k, m. split; [done|lia].
  - right. cbn. revert E. unfold parse_line. destruct (match _ with [] => _ | _ => _ end); [done|].
    destruct (find _ _); [|intros [= <-]; eexists _, _; split; [done|lia]]. case_bool_decide; [intros [= <-]; eexists _, _; split; [done|lia]|].
    destruct (unquote _); [done|]. intros [= <-]. eexists _, _. split; [done|lia].
Qed.

End Accepted.

(** C29.  A configuration that is accepted comes from at most 64 KiB of text;
    every member that it sets has the type and lies in the range documented for
    it; and a full input frame fits both the read buffer and the output queue. *)
Theorem configuration_admissible {env : Surroundings} text c :
  parse_configuration_text text = success c →
  Z.of_nat (length text) <= kMaximumConfigurationBytes ∧ all_admissible c ∧
  rpc_read_buffer_capacity c =
    size_member rpc_header_limit_bytes kDefaultHeaderBytes c + size_member rpc_body_limit_bytes kDefaultBodyBytes c ∧
  rpc_read_buffer_capacity c <= size_member rpc_queued_output_bytes kDefaultQueuedOutputBytes c ∧
  rpc_read_buffer_capacity c <= size_max.
Proof.
  unfold parse_configuration_text. destruct (_ || _) eqn:E; [done|].
  apply orb_false_iff in E as [[E%Z.ltb_ge _]%orb_false_iff _]. destruct (negb _); [done|].
  destruct (read_entries _ _) as [[c0 defaults]|e] eqn:Er; [|done]. cbn.
  destruct (attribute_set_from_json defaults) as [a|]; [|done]. destruct (negb (materializes a)); [done|].
  unfold validate_rpc_budgets. cbn [member daemon_defaults].
  destruct (Z.ltb_spec (size_max - size_member rpc_body_limit_bytes kDefaultBodyBytes (mkConfig (member c0) (Some a) (rpc_read_buffer_capacity c0)))
    (size_member rpc_header_limit_bytes kDefaultHeaderBytes (mkConfig (member c0) (Some a) (rpc_read_buffer_capacity c0)))); [done|].
  cbn [rpc_read_buffer_capacity]. destruct (Z.ltb_spec
    (size_member rpc_queued_output_bytes kDefaultQueuedOutputBytes (mkConfig (member c0) (Some a) (rpc_read_buffer_capacity c0)))
    (size_member rpc_header_limit_bytes kDefaultHeaderBytes (mkConfig (member c0) (Some a) (rpc_read_buffer_capacity c0)) +
     size_member rpc_body_limit_bytes kDefaultBodyBytes (mkConfig (member c0) (Some a) (rpc_read_buffer_capacity c0)))); [done|].
  intros [= <-]. split; [done|]. split.
  - intros f v Hv. cbn in Hv. eapply (read_entries_admissible _ _ _ Er); [|exact Hv]. by intros ? ?.
  - cbn [rpc_read_buffer_capacity]. unfold size_member in *. cbn [member] in *. split; [done|]. lia.
Qed.

(** A configuration that is refused is refused with a fixed message and
    at most a recognised key, so that nothing of the text gets into the error;
    and when a line cannot be read, the error names a line of the text. *)
Theorem configuration_errors_discreet {env : Surroundings} text e :
  parse_configuration_text text = failure e →
  discreet e ∧
  (Z.of_nat (length text) <= kMaximumConfigurationBytes → find 0 text = None → is_valid_utf8 text = true →
   ok (from_text text) = false → ∃ n, startup_line e = Some n ∧ 1 <= n <= Z.of_nat (length text) + 1).
Proof.
  unfold parse_configuration_text. destruct (_ || _) eqn:E.
  { intros [= <-]. split; [apply discreet_free; [done|known_message]|].
    intros H1 H2 H3. exfalso. rewrite H2, H3 in E. apply orb_true_iff in E as [[E%Z.ltb_lt|E]%orb_true_iff|E]; [lia| |done].
    by apply bool_decide_eq_true_1 in E as [? ?]. }
  apply orb_false_iff in E as [[E%Z.ltb_ge _]%orb_false_iff _].
  destruct (ok (from_text text)) eqn:Eok; cbn [negb].
  - intros He. split; [|done]. destruct (read_entries _ _) as [[c0 defaults]|e1] eqn:Er; cbn in He.
    2:{ simplify_eq. by eapply read_entries_discreet. }
    destruct (attribute_set_from_json defaults) as [a|]; [|simplify_eq; apply discreet_free; [done|known_message]].
    destruct (negb (materializes a)); [simplify_eq; apply discreet_free; [done|known_message]|].
    unfold validate_rpc_budgets in He. destruct (_ <? _); [simplify_eq; eapply discreet_key; [reflexivity|left|]; known_message|].
    destruct (_ <? _); [simplify_eq; eapply discreet_key; [reflexivity|left|]; known_message|done].
  - intros [= <-]. split; [apply lexical_error_discreet|]. intros _ _ _ _.
    destruct (parse_text_error (S (length text)) 0 text no_ini eq_refl) as [Hn|(k & m & Hk & Hr)].
    + unfold ok, from_text in Eok. rewrite Hn in Eok. done.
    + exists k. unfold from_text. rewrite Hk. split; [|lia]. apply lexical_error_line.
      unfold kMaximumConfigurationBytes, size_max, uint64_max in *. lia.
Qed.

Module Sample.

(** No attribute defaults, one time zone, any URL. *)
#[local] Instance plain : Surroundings :=
  {| JsonValue := bytes; AttributeSet := list (bytes * bytes); validate_url _ := true; readable_regular_file _ := false;
     valid_timezone z := bool_decide (z = bs!"UTC"); find_attribute _ := None; parse_json v := Some v;
     attribute_set_from_json o := Some o; materializes _ := true |}.

Definition good_text : bytes :=
  write [(bs!"socket.path", bs!"/run/jobud.sock"); (bs!"history.sweep_interval", bs!"2h"); (bs!"rpc.body_limit_bytes", bs!"1m");
         (bs!"schedule.default_timezone", bs!"UTC")].
Definition good_configuration : ConfigurationInput :=
  match parse_configuration_text good_text with success c => c | failure _ => no_configuration end.
Definition bad_text : bytes := bs!"logging.level=info" ++ [10] ++ bs!"secret".
Definition bad_error : StartupError :=
  match parse_configuration_text bad_text with success _ => unknown_key | failure e => e end.

Definition is_failure {A B} (r : result A B) : bool := match r with failure _ => true | success _ => false end.

Lemma configuration_admissible_witness :
  member good_configuration history_sweep_interval = Some (Number 7200) ∧
  Z.of_nat (length good_text) <= kMaximumConfigurationBytes ∧ all_admissible good_configuration ∧
  rpc_read_buffer_capacity good_configuration =
    size_member rpc_header_limit_bytes kDefaultHeaderBytes good_configuration +
    size_member rpc_body_limit_bytes kDefaultBodyBytes good_configuration ∧
  rpc_read_buffer_capacity good_configuration <= size_member rpc_queued_output_bytes kDefaultQueuedOutputBytes good_configuration ∧
  rpc_read_buffer_capacity good_configuration <= size_max.
Proof.
  split; [vm_compute; reflexivity|]. apply (configuration_admissible good_text good_configuration).
  assert (Hs : is_success (parse_configuration_text good_text) = true) by (vm_compute; reflexivity).
  unfold good_configuration. destruct (parse_configuration_text good_text) as [c|e]; [reflexivity|discriminate Hs].
Defined.

Lemma configuration_errors_discreet_witness :
  startup_line bad_error = Some 2 ∧ discreet bad_error ∧
  (Z.of_nat (length bad_text) <= kMaximumConfigurationBytes → find 0 bad_text = None → is_valid_utf8 bad_text = true →
   ok (from_text bad_text) = false → ∃ n, startup_line bad_error = Some n ∧ 1 <= n <= Z.of_nat (length bad_text) + 1).
Proof.
  split; [vm_compute; reflexivity|]. apply (configuration_errors_discreet bad_text bad_error).
  assert (Hs : is_failure (parse_configuration_text bad_text) = true) by (vm_compute; reflexivity).
  unfold bad_error. destruct (parse_configuration_text bad_text) as [c|e]; [discriminate Hs|reflexivity].
Defined.

End Sample.
