(* ===== verification/DaemonRuntime.v ===== *)
(** * The daemon runtime

    [src/jobud/runtime_priv.cpp]: the start of the daemon (recovery, inventory,
    runners, services, telemetry, scheduler, listener, retention), its event
    loop and its orderly stop, with the failure that decides its exit code.

    What the runtime calls is the class [Host], asked in order; a call may
    report incidents (a requested stop, the failure of a service) while it is
    under way.  The trace records what was called, stopped, closed, destroyed
    and logged.  [listen] reports no incidents: the listener emits its signals
    from the event loop only. *)

From stdpp Require Import base strings list.
From S2P Require Import Prelude.

Inductive RuntimeState := Starting | Recovering | Serving | Stopping | Stopped.
#[global] Instance runtime_state_eq : EqDecision RuntimeState.
Proof. solve_decision. Defined.

Inductive Call :=
  | Recover | Inventory | MakeRunners | Register | TelemetryStart | SchedulerStart | Listen | RetentionStart | Execute
  | ShutdownExecutors | TelemetryFinish.
#[global] Instance call_eq : EqDecision Call.
Proof. solve_decision. Defined.

Inductive Part :=
  | Retention | Telemetry | Management | Secrets | Statistics | History | TheScheduler | EventLoop | Listener | Rpc
  | HttpClient | Executors.
#[global] Instance part_eq : EqDecision Part.
Proof. solve_decision. Defined.

Inductive Event :=
  | Called (c : Call)
  | Returned (c : Call) (ok : bool)
  | Constructed
  | Ready
  | Halted (p : Part)
  | Closed (p : Part)
  | Destroyed (p : Part)
  | FailureLogged (subsystem : string) (code : string).
#[global] Instance event_eq : EqDecision Event.
Proof. solve_decision. Defined.

Inductive Incident := StopRequested | Failed (subsystem : string) (e : Error).

Class Host := {
  (** The stop signal, the failure of the HTTP client, the check of the
      endpoint, and whether the connection is poisoned, when asked. *)
  should_stop : nat → bool;
  http_failure : nat → option Error;
  endpoint_failure : nat → option string;
  is_poisoned : nat → bool;
  (** What a call answers, and what happens while it is under way. *)
  answer : Call → nat → result Error unit;
  incidents : Call → nat → list Incident;
  (** Whether the runners that were made have an HTTP client and executors. *)
  made_http : nat → bool;
  made_executors : nat → bool }.

Record Runtime := mkDaemon {
  state : RuntimeState;
  failed : bool;
  has_http : bool;
  has_executors : bool;
  has_services : bool;
  asked : nat;
  trace : list Event }.

Definition initial : Runtime := mkDaemon Starting false false false false 0 [].

Definition with_state (s : RuntimeState) (d : Runtime) : Runtime :=
  mkDaemon s (failed d) (has_http d) (has_executors d) (has_services d) (asked d) (trace d).
Definition with_failed (d : Runtime) : Runtime :=
  mkDaemon (state d) true (has_http d) (has_executors d) (has_services d) (asked d) (trace d).
Definition with_parts (http executors services : bool) (d : Runtime) : Runtime :=
  mkDaemon (state d) (failed d) http executors services (asked d) (trace d).
Definition tick (d : Runtime) : Runtime :=
  mkDaemon (state d) (failed d) (has_http d) (has_executors d) (has_services d) (S (asked d)) (trace d).
Definition record (events : list Event) (d : Runtime) : Runtime :=
  mkDaemon (state d) (failed d) (has_http d) (has_executors d) (has_services d) (asked d) (trace d ++ events).

Definition stopping (d : Runtime) : bool := bool_decide (state d = Stopping) || bool_decide (state d = Stopped).

(** The services that are told to stop, in order. *)
Definition halted_services : list Event :=
  [Halted Retention; Halted Telemetry; Halted Management; Halted Secrets; Halted Statistics; Halted History;
   Halted TheScheduler].

Definition request_stop (d : Runtime) : Runtime :=
  if stopping d then d
  else record ((if has_services d then halted_services else []) ++ [Halted EventLoop]) (with_state Stopping d).

Definition fail (subsystem code : string) (d : Runtime) : Runtime :=
  let d' := request_stop (with_failed d) in
  if failed d then d' else record [FailureLogged subsystem code] d'.

Definition runtime_error (code : string) : Error := mkError Unavailable code "The daemon runtime could not continue" "".

Section Runtime.
Context {host : Host}.

Definition poll_stop (d : Runtime) : bool * Runtime :=
  let d' := if should_stop (asked d) then request_stop (tick d) else tick d in (stopping d', d').

Definition check_http_failure (d : Runtime) : bool * Runtime :=
  if has_http d then
    match http_failure (asked d) with
    | Some e => (true, fail "http" (code e) (tick d))
    | None => (false, tick d)
    end
  else (false, d).

(** Whether the endpoint is still the daemon's. *)
Definition check_endpoint (d : Runtime) : bool * Runtime :=
  match endpoint_failure (asked d) with
  | Some e => (false, fail "endpoint" e (tick d))
  | None => (true, tick d)
  end.

Definition incident (i : Incident) (d : Runtime) : Runtime :=
  match i with StopRequested => request_stop d | Failed subsystem e => fail subsystem (code e) d end.

(** One call of a collaborator, with what it reports on the way. *)
Definition call (c : Call) (d : Runtime) : result Error unit * Runtime :=
  let r := answer c (asked d) in
  (r, record [Returned c (is_success r)]
        (fold_left (λ d i, incident i d) (if bool_decide (c = Listen) then [] else incidents c (asked d))
           (record [Called c] (tick d)))).

(** [poll_stop() || check_http_failure() || !check_endpoint()], negated. *)
Definition clear_to_go (d : Runtime) : bool * Runtime :=
  let '(stop, d) := poll_stop d in
  if (stop : bool) then (false, d)
  else
    let '(http, d) := check_http_failure d in
    if (http : bool) then (false, d) else check_endpoint d.

Definition recover (d : Runtime) : bool * Runtime :=
  let '(stop, d) := poll_stop d in
  if (stop : bool) then (false, d)
  else
    match call Recover (with_state Recovering d) with
    | (failure e, d) =>
        (false, if negb (bool_decide (code e = "jobu.recovery.cancelled"%string)) || negb (stopping d)
                then fail "recovery" (code e) d else d)
    | (success _, d) => let '(stop, d) := poll_stop d in (negb stop, d)
    end.

Definition load_inventory (d : Runtime) : bool * Runtime :=
  let '(stop, d) := poll_stop d in
  if (stop : bool) then (false, d)
  else
    match call Inventory d with
    | (failure e, d) => (false, fail "inventory" (code e) d)
    | (success _, d) =>
        let '(stop, d) := poll_stop d in
        if (stop : bool) then (false, d) else let '(stop, d) := poll_stop d in (negb stop, d)
    end.

Definition start_retention (d : Runtime) : bool * Runtime :=
  match call RetentionStart d with
  | (failure e, d) => (false, fail "retention_start" (code e) d)
  | (success _, d) =>
      let '(stop, d) := poll_stop d in
      if (stop : bool) then (false, d)
      else
        let '(http, d) := check_http_failure d in
        if (http : bool) then (false, d) else (true, record [Ready] d)
  end.

Definition start_listening (d : Runtime) : bool * Runtime :=
  match call Listen d with
  | (failure _, d) => (false, fail "listener" "jobud.listen.failed" d)
  | (success _, d) =>
      let '(stop, d) := poll_stop (with_state Serving d) in
      if (stop : bool) then (false, d) else start_retention d
  end.

Definition start_scheduler (d : Runtime) : bool * Runtime :=
  match call SchedulerStart d with
  | (failure e, d) =>
      (false, if negb (stopping d) || negb (bool_decide (code e = "jobu.scheduler.stopping"%string))
              then fail "scheduler_start" (code e) d else d)
  | (success _, d) =>
      let '(go, d) := clear_to_go d in
      if (go : bool) then start_listening d else (false, d)
  end.

Definition start_services (d : Runtime) : bool * Runtime :=
  match call Register (record [Constructed] (with_parts (has_http d) (has_executors d) true d)) with
  | (failure _, d) => (false, fail "rpc_registration" "jobud.rpc.registration_failed" d)
  | (success _, d) =>
      let '(go, d) := clear_to_go d in
      if negb go then (false, d)
      else
        match call TelemetryStart d with
        | (failure e, d) => (false, fail "telemetry_start" (code e) d)
        | (success _, d) =>
            let '(go, d) := clear_to_go d in
            if (go : bool) then start_scheduler d else (false, d)
        end
  end.

(** The parts in the order of their destruction. *)
Definition destroyed_parts (d : Runtime) : list Event :=
  (if has_http d then [Destroyed HttpClient] else []) ++
  (if has_services d
   then [Destroyed Rpc; Destroyed Listener; Destroyed Retention; Destroyed Statistics; Destroyed History;
         Destroyed Secrets; Destroyed Management; Destroyed TheScheduler; Destroyed Telemetry]
   else []) ++
  (if has_executors d then [Destroyed Executors] else []).

Definition finish (d : Runtime) : Runtime :=
  if bool_decide (state d = Stopped) then d
  else
    let d := request_stop d in
    let d := if has_services d then record [Closed Listener; Closed Rpc] d else d in
    let d := if has_executors d then (call ShutdownExecutors d).2 else d in
    let d := (check_http_failure d).2 in
    let d :=
      if has_services d && negb (failed d) && negb (is_poisoned (asked d)) then
        match call TelemetryFinish (tick d) with
        | (failure e, d) => fail "telemetry_stop" (code e) d
        | (success _, d) => d
        end
      else d in
    with_parts false false false (with_state Stopped (record (destroyed_parts d) d)).

(** The runners, the services and the event loop. *)
Definition serve (d : Runtime) : Runtime :=
  match call MakeRunners d with
  | (failure e, d) => fail "runners" (code e) d
  | (success _, d) =>
      let d := with_parts (made_http (asked d)) (made_executors (asked d)) (has_services d) (tick d) in
      if negb (has_http d) || negb (has_executors d) then fail "runners" "jobud.runners.invalid" d
      else
        let '(stop, d) := poll_stop d in
        if (stop : bool) then d
        else
          let '(started, d) := start_services d in
          if negb started then d
          else
            match call Execute d with
            | (failure _, d) => fail "event_loop" "jobud.event_loop.failed" d
            | (success _, d) => d
            end
  end.

(** [DaemonRuntime::run]; the exit code is the failure. *)
Definition run (d : Runtime) : Runtime :=
  let d :=
    if bool_decide (state d = Starting) then
      let '(ok, d) := recover d in
      if negb ok then d
      else
        let '(ok, d) := load_inventory d in
        if negb ok then d else serve d
    else d in
  finish d.

End Runtime.
