(* ===== verification/DaemonSafety.v ===== *)
(** * The life of the daemon

    The specification of [DaemonRuntime]: a labelled transition system over the
    events of its trace, in which the steps of the start are taken in order and
    only while nothing has asked the daemon to stop, one failure is logged, the
    measured time is settled only on the healthy path, and the parts are taken
    down in the order that no part outlives what it borrows.  Every run of the
    runtime is a run of the specification, and ends stopped. *)

From stdpp Require Import base strings list.
From S2P Require Import Prelude.
From S2P Require Import DaemonRuntime.

(** ** The specification *)

Record Life := mkLife {
  agenda : list Event;
  busy : option Call;
  built : bool;
  stopped : bool;
  logged : bool;
  drained : bool;
  settled : bool;
  gone : list Part }.

(** What the start does, in order. *)
Definition startup : list Event :=
  [Called Recover; Called Inventory; Called MakeRunners; Constructed; Called Register; Called TelemetryStart;
   Called SchedulerStart; Called Listen; Called RetentionStart; Ready; Called Execute].

(** The order of destruction: what borrows goes before what it borrows. *)
Definition teardown : list Part :=
  [HttpClient; Rpc; Listener; Retention; Statistics; History; Secrets; Management; TheScheduler; Telemetry; Executors].

Definition starts (e : Event) : Prop := e ∈ startup.

Definition fresh : Life := mkLife startup None false false false false false [].

Definition opened (e : Event) : option Call := match e with Called c => Some c | _ => None end.
Definition is_constructed (e : Event) : bool := match e with Constructed => true | _ => false end.

Inductive lifecycle : Life → Event → Life → Prop :=
  | life_start e rest b lg dr se :
      starts e →
      lifecycle (mkLife (e :: rest) None b false lg dr se []) e
        (mkLife rest (opened e) (b || is_constructed e) false lg dr se [])
  | life_return ag c ok b st lg dr se :
      lifecycle (mkLife ag (Some c) b st lg dr se []) (Returned c ok)
        (mkLife (if ok then ag else []) None b st lg dr se [])
  | life_halt ag bu p lg dr se :
      p ≠ EventLoop →
      lifecycle (mkLife ag bu true false lg dr se []) (Halted p) (mkLife ag bu true false lg dr se [])
  | life_stop ag bu b lg dr se :
      lifecycle (mkLife ag bu b false lg dr se []) (Halted EventLoop) (mkLife ag bu b true lg dr se [])
  | life_failure ag bu b dr se subsystem reason :
      lifecycle (mkLife ag bu b true false dr se []) (FailureLogged subsystem reason) (mkLife ag bu b true true dr se [])
  | life_close ag p lg se :
      lifecycle (mkLife ag None true true lg false se []) (Closed p) (mkLife ag None true true lg false se [])
  | life_drain ag b lg se :
      lifecycle (mkLife ag None b true lg false se []) (Called ShutdownExecutors)
        (mkLife ag (Some ShutdownExecutors) b true lg true se [])
  | life_settle ag :
      lifecycle (mkLife ag None true true false true false []) (Called TelemetryFinish)
        (mkLife ag (Some TelemetryFinish) true true false true true [])
  | life_destroy ag b lg dr se g p :
      sublist (g ++ [p]) teardown →
      lifecycle (mkLife ag None b true lg dr se g) (Destroyed p) (mkLife ag None b true lg dr se (g ++ [p])).

Inductive behaves : Life → list Event → Life → Prop :=
  | behaves_nil l : behaves l [] l
  | behaves_snoc l t l1 e l2 : behaves l t l1 → lifecycle l1 e l2 → behaves l (t ++ [e]) l2.

Create HintDb daemon.
#[export] Hint Constructors lifecycle behaves : daemon.

Definition is_failure (e : Event) : bool := match e with FailureLogged _ _ => true | _ => false end.
Definition failures (t : list Event) : nat := length (filter (λ e, is_failure e = true) t).

(** ** What the specification promises *)

Lemma behaves_app l t1 l1 t2 l2 : behaves l t1 l1 → behaves l1 t2 l2 → behaves l (t1 ++ t2) l2.
Proof.
  intros H1. induction 1 as [|? t ? e ? ? IH]; [by rewrite app_nil_r|].
  rewrite app_assoc. eauto with daemon.
Qed.

Lemma behaves_cons l e l1 t l2 : lifecycle l e l1 → behaves l1 t l2 → behaves l (e :: t) l2.
Proof. intros He. apply (behaves_app _ [e]). apply (behaves_snoc _ [] l); eauto with daemon. Qed.

Lemma behaves_split l t1 t2 l2 : behaves l (t1 ++ t2) l2 → ∃ l1, behaves l t1 l1 ∧ behaves l1 t2 l2.
Proof.
  revert l2. induction t2 as [|e t2 IH] using rev_ind; intros l2 H.
  - rewrite app_nil_r in H. eauto with daemon.
  - rewrite app_assoc in H. inversion H as [|? ? ? ? ? H1 H2 E]; [by destruct t1, t2|].
    simplify_list_eq. destruct (IH _ H1) as (l3 & ? & ?). eauto with daemon.
Qed.

Lemma behaves_one l e l' : behaves l [e] l' → lifecycle l e l'.
Proof.
  inversion 1 as [|? t ? ? ? H1 H2 E]. destruct t; [|by destruct t]. simplify_list_eq.
  inversion H1; [congruence|]. by destruct t.
Qed.

(** A stop is final. *)
Lemma stopped_kept l t l' : behaves l t l' → stopped l = true → stopped l' = true.
Proof. induction 1 as [|? ? ? ? ? ? IH Hs]; [done|]. intros Hl. specialize (IH Hl). by destruct Hs. Qed.

(** What is on the agenda comes from [startup]. *)
Lemma agenda_suffix l t l' : behaves l t l' → l = fresh → suffix (agenda l') startup.
Proof.
  induction 1 as [|? ? ? ? ? ? IH Hs]; intros ->; [done|]. specialize (IH eq_refl).
  destruct Hs as [e rest| ? ? [] | | | | | | |]; cbn in *; try done.
  - etrans; [|exact IH]. by exists [e].
  - apply suffix_nil.
Qed.

(** Nothing is started once the daemon is stopping. *)
Lemma stopped_starts_nothing l e l' : lifecycle l e l' → stopped l = true → ¬ starts e.
Proof.
  unfold starts, startup. destruct 1; cbn; intros; try discriminate; rewrite !not_elem_of_cons; repeat split;
    try discriminate; apply not_elem_of_nil.
Qed.

(** The events that belong to the stop. *)
Definition ends (e : Event) : bool :=
  match e with
  | Halted _ | Closed _ | Destroyed _ | FailureLogged _ _ | Returned _ _ | Called (ShutdownExecutors | TelemetryFinish) => true
  | _ => false
  end.

Lemma starts_no_end e : starts e → ends e = false.
Proof. intros He. by repeat (apply elem_of_cons in He as [->|He]; [done|]); apply elem_of_nil in He. Qed.
Lemma starts_no_failure e : starts e → is_failure e = false.
Proof. intros He%starts_no_end. by destruct e. Qed.

(** As many failures are logged as the flag says. *)
Lemma failures_counted l t l' :
  behaves l t l' → (failures t + (if logged l then 1 else 0) = if logged l' then 1 else 0)%nat.
Proof.
  unfold failures. induction 1 as [|? t ? e ? ? IH Hs]; [done|]. rewrite filter_app, length_app.
  destruct Hs as [e ? ? ? ? ? He%starts_no_failure| | | | | | | |]; cbn in *; case_decide; cbn; congruence || lia.
Qed.

(** Nothing is started after the event loop was told to quit. *)
Lemma nothing_after_stop l t1 t2 e l' :
  behaves l (t1 ++ Halted EventLoop :: t2) l' → e ∈ t2 → ¬ starts e.
Proof.
  intros (l1 & _ & H)%behaves_split (t3 & t4 & ->)%list_elem_of_split.
  apply (behaves_split _ [_]) in H as (l2 & H2%behaves_one & (l3 & H3 & H4)%behaves_split).
  apply (behaves_split _ [_]) in H4 as (l4 & H4%behaves_one & _).
  eapply stopped_starts_nothing; [exact H4|]. eapply stopped_kept; [exact H3|].
  inversion H2; [by apply starts_no_end in H|done|done].
Qed.

Lemma drained_before l t l' : behaves l t l' → drained l = false → drained l' = true → Called ShutdownExecutors ∈ t.
Proof.
  induction 1 as [|? t ? e ? ? IH Hs]; intros Hl; [congruence|]. specialize (IH Hl). rewrite elem_of_app, list_elem_of_singleton.
  destruct Hs; cbn in *; naive_solver.
Qed.

Lemma gone_before l t l' p : behaves l t l' → gone l' = [] → Destroyed p ∉ t.
Proof.
  induction 1 as [|? t ? e ? ? IH Hs]; intros Hg; [apply not_elem_of_nil|].
  rewrite not_elem_of_app, list_elem_of_singleton.
  destruct Hs as [e ? ? ? ? ? He| | | | | | | |]; cbn in *; split; auto; try discriminate; try (by destruct g).
  by intros <-; apply starts_no_end in He.
Qed.

(** The measured time is settled while nothing has failed, after the executors
    were shut down and before any part is destroyed. *)
Lemma settled_in_time t1 t2 l' :
  behaves fresh (t1 ++ Called TelemetryFinish :: t2) l' →
  failures t1 = 0%nat ∧ Called ShutdownExecutors ∈ t1 ∧ ∀ p, Destroyed p ∉ t1.
Proof.
  intros (l1 & H1 & H2)%behaves_split. apply (behaves_split _ [_]) in H2 as (l2 & H2%behaves_one & _).
  pose proof (failures_counted _ _ _ H1) as Hf. inversion H2; subst.
  { by apply starts_no_end in H. }
  cbn in Hf. split; [lia|]. split; [by eapply drained_before|]. intros p. by eapply gone_before.
Qed.

(** ** The runtime follows it *)

Definition stop (l : Life) : Life :=
  mkLife (agenda l) (busy l) (built l) true (logged l) (drained l) (settled l) (gone l).
Definition fault (l : Life) : Life :=
  mkLife (agenda l) (busy l) (built l) true true (drained l) (settled l) (gone l).

(** The runtime is where the specification is. *)
Definition follows (l : Life) (d : Runtime) : Prop :=
  behaves fresh (trace d) l ∧ stopped l = stopping d ∧ logged l = failed d ∧ built l = has_services d ∧
  (built l = true → has_executors d = true) ∧ gone l = [] ∧ state d ≠ Stopped.

(** It is between two calls, its parts in place. *)
Definition quiet (l : Life) : Prop := busy l = None ∧ drained l = false ∧ settled l = false.

Lemma follows_record l d e l' :
  follows l d → lifecycle l e l' →
  stopped l' = stopped l → logged l' = logged l → built l' = built l → gone l' = [] →
  follows l' (record [e] d).
Proof.
  intros (Hb & Hs & Hl & Hv & Hx & Hg & Hn) He H1 H2 H3 H4. unfold follows, stopping in *.
  rewrite H1, H2, H3, H4. split; [cbn; eauto with daemon|done].
Qed.

Lemma follows_tick l d : follows l d → follows l (tick d).
Proof. done. Qed.

Lemma request_stop_follows l d : follows l d → follows (stop l) (request_stop d).
Proof.
  intros H. destruct H as (Hb & Hs & Hl & Hv & Hx & Hg & Hn) eqn:EH. clear EH. unfold request_stop. destruct (stopping d) eqn:E.
  - replace (stop l) with l; [exact H|]. destruct l; unfold stop; cbn in *; congruence.
  - repeat split; cbn; try done. eapply behaves_app; [exact Hb|]. rewrite <- Hv.
    destruct l as [ag bu b st lg dr se g]; cbn in *; subst st g.
    destruct b; repeat (eapply behaves_cons; [(apply life_halt; discriminate) || apply life_stop|]);
      apply behaves_nil.
Qed.

Lemma fail_follows subsystem reason l d : follows l d → follows (fault l) (fail subsystem reason d).
Proof.
  intros H. unfold fail. assert (E : logged l = failed d) by apply H.
  assert (Hr : request_stop (with_failed d) = with_failed (request_stop d))
    by (unfold request_stop, stopping; cbn; by destruct (_ || _)).
  rewrite Hr. apply request_stop_follows in H as (Hb & Hs & Hl & Hv & Hx & Hg & Hn). destruct (failed d) eqn:Ef.
  - split; [|by repeat split]. replace (fault l) with (stop l); [done|]. unfold stop, fault. by rewrite E.
  - split; [|by repeat split]. cbn. eapply behaves_snoc; [exact Hb|]. cbn in Hg. unfold stop, fault.
    rewrite E, Hg. constructor.
Qed.

(** An incident leaves the daemon as it was, or stopping. *)
Inductive shaken (l : Life) : Life → Prop :=
  | shaken_not : shaken l l
  | shaken_stop : shaken l (stop l)
  | shaken_fault : shaken l (fault l).
#[export] Hint Constructors shaken : daemon.

Lemma shaken_trans l l1 l2 : shaken l l1 → shaken l1 l2 → shaken l l2.
Proof. destruct 1, 1; constructor || apply (shaken_stop l) || apply (shaken_fault l). Qed.

Lemma incidents_follow l l0 d reported :
  shaken l l0 → follows l0 d → ∃ l', shaken l l' ∧ follows l' (fold_left (λ d i, incident i d) reported d).
Proof.
  revert l0 d. induction reported as [|[|sub e] reported IH]; intros l0 d Hs H; cbn [fold_left incident]; [eauto| |].
  - apply (IH (stop l0)); [|by apply request_stop_follows]. eapply shaken_trans; eauto with daemon.
  - apply (IH (fault l0)); [|by apply fail_follows]. eapply shaken_trans; eauto with daemon.
Qed.

Lemma shaken_stage l l' :
  shaken l l' → agenda l' = agenda l ∧ busy l' = busy l ∧ drained l' = drained l ∧ settled l' = settled l ∧ gone l' = gone l.
Proof. by destruct 1. Qed.

(** Where the start stands: nothing has failed and nobody has asked to stop. *)
Definition stage (rest : list Event) (services : bool) : Life := mkLife rest None services false false false false [].
Definition standing rest services d := follows (stage rest services) d.
Definition shaky rest services d := ∃ l, shaken (stage rest services) l ∧ follows l d.
Definition ending d := ∃ l, quiet l ∧ follows l d.

Lemma standing_shaky rest services d : standing rest services d → shaky rest services d.
Proof. intros H. by exists (stage rest services); split; [constructor|]. Qed.

Lemma shaky_ending rest services d : shaky rest services d → ending d.
Proof. intros (l & Hs & H). exists l. split; [|done]. by destruct Hs. Qed.

Lemma standing_ending rest services d : standing rest services d → ending d.
Proof. intros H. by eapply shaky_ending, standing_shaky. Qed.

Lemma fail_ending subsystem reason d : ending d → ending (fail subsystem reason d).
Proof. intros (l & Hq & H). exists (fault l). eauto using fail_follows. Qed.

Lemma standing_state s rest services d :
  s ≠ Stopping → s ≠ Stopped → standing rest services d → standing rest services (with_state s d).
Proof.
  intros H1 H2 (Hb & Hs & H). split; [exact Hb|]. split; [|destruct H as (? & ? & ? & ? & _); by split_and!].
  unfold stopping. cbn. by rewrite !bool_decide_eq_false_2.
Qed.

#[export] Hint Resolve standing_shaky shaky_ending standing_ending fail_ending standing_state : daemon.

Section Simulation.
Context {host : Host}.

(** What a step of the start leaves. *)
Definition leaves (good bad : Runtime → Prop) (r : bool * Runtime) : Prop := if r.1 then good r.2 else bad r.2.

(** A call of the start. *)
Definition answers (good bad : Runtime → Prop) (r : result Error unit * Runtime) : Prop :=
  match r.1 with success _ => good r.2 | failure _ => bad r.2 end.

Ltac visit L :=
  let H := fresh "Hd" in
  pose proof L as H;
  lazymatch type of H with
  | leaves _ _ ?r => destruct r as [[] ?d]
  | answers _ _ ?r => destruct r as [[?u|?e] ?d]
  end; unfold leaves, answers in H; cbn [fst snd] in H.

Lemma poll_stop_leaves rest services d :
  shaky rest services d → leaves ending (standing rest services) (poll_stop d).
Proof.
  intros (l & Hs & H). unfold poll_stop, leaves. destruct (should_stop (asked d)); cbn [fst snd].
  - assert (Hf : follows (stop l) (request_stop (tick d))) by (by apply request_stop_follows).
    assert (stopping (request_stop (tick d)) = true) as -> by (symmetry; apply Hf).
    apply (shaky_ending rest services). exists (stop l). split; [|done]. eapply shaken_trans; eauto with daemon.
  - assert (Ht : stopped l = stopping (tick d)) by apply H. destruct (stopping (tick d)) eqn:E.
    + apply (shaky_ending rest services). exists l. eauto using follows_tick.
    + unfold standing. destruct Hs; [exact H|discriminate..].
Qed.

Lemma check_http_failure_leaves rest services d :
  standing rest services d → leaves ending (standing rest services) (check_http_failure d).
Proof.
  intros Hd. unfold check_http_failure, leaves. destruct (has_http d); [|done].
  destruct (http_failure (asked d)); [|exact Hd]. cbn. apply fail_ending. eauto using standing_ending, follows_tick.
Qed.

Lemma check_endpoint_leaves rest services d :
  standing rest services d → leaves (standing rest services) ending (check_endpoint d).
Proof.
  intros Hd. unfold check_endpoint, leaves. destruct (endpoint_failure (asked d)); [|exact Hd].
  cbn. apply fail_ending. eauto using standing_ending, follows_tick.
Qed.

Lemma clear_to_go_leaves rest services d :
  shaky rest services d → leaves (standing rest services) ending (clear_to_go d).
Proof.
  intros Hd. unfold clear_to_go. visit (poll_stop_leaves _ _ _ Hd); [done|].
  visit (check_http_failure_leaves _ _ _ Hd0); [done|]. by apply check_endpoint_leaves.
Qed.

Definition landed (ok : bool) (l : Life) : Life :=
  mkLife (if ok then agenda l else []) None (built l) (stopped l) (logged l) (drained l) (settled l) [].

Lemma call_follows c l l1 d :
  follows l d → lifecycle l (Called c) l1 → busy l1 = Some c →
  stopped l1 = stopped l → logged l1 = logged l → built l1 = built l → gone l1 = [] →
  ∃ l2, (if bool_decide (c = Listen) then l2 = l1 else shaken l1 l2) ∧
        follows (landed (is_success (answer c (asked d))) l2) (call c d).2.
Proof.
  intros Hf Hc Hb H1 H2 H3 H4.
  assert (Hr : follows l1 (record [Called c] (tick d))) by (eapply follows_record; eauto using follows_tick).
  assert (∃ l2, (if bool_decide (c = Listen) then l2 = l1 else shaken l1 l2) ∧ busy l2 = Some c ∧ gone l2 = [] ∧
    follows l2 (fold_left (λ d i, incident i d) (if bool_decide (c = Listen) then [] else incidents c (asked d))
      (record [Called c] (tick d)))) as (l2 & Hs & Hb2 & Hg2 & Hf2).
  { destruct (bool_decide (c = Listen)); [by exists l1|].
    destruct (incidents_follow l1 l1 _ (incidents c (asked d)) (shaken_not l1) Hr) as (l2 & Hs & Hf2).
    exists l2. destruct (shaken_stage _ _ Hs) as (_ & -> & _ & _ & ->). done. }
  exists l2. split; [done|]. cbn [call snd]. eapply follows_record; [exact Hf2| |done..].
  destruct l2; cbn in *; subst. constructor.
Qed.

Lemma starting e : bool_decide (e ∈ startup) = true → starts e.
Proof. apply bool_decide_eq_true_1. Qed.

Lemma start_call c rest services d :
  bool_decide (Called c ∈ startup) = true → standing (Called c :: rest) services d →
  answers (if bool_decide (c = Listen) then standing rest services else shaky rest services) ending (call c d).
Proof.
  intros Hst%starting Hd.
  destruct (call_follows c _ (mkLife rest (Some c) services false false false false []) d Hd) as (l2 & Hs & Hf); try done.
  { replace services with (services || is_constructed (Called c)) at 2 by apply orb_false_r. by constructor. }
  unfold answers. change (call c d).1 with (answer c (asked d)). destruct (answer c (asked d)) as [u|e]; cbn [is_success] in *.
  - destruct (bool_decide (c = Listen)); [by subst|]. exists (landed true l2). split; [|exact Hf].
    destruct Hs; constructor || apply (shaken_stop (stage rest services)) || apply (shaken_fault (stage rest services)).
  - exists (landed false l2). split; [|exact Hf]. destruct (bool_decide (c = Listen)); [by subst|by destruct Hs].
Qed.

(** The part of the start that is left, after each of its steps. *)
Definition left_after (n : nat) : list Event := drop n startup.

Lemma recover_leaves d : standing startup false d → leaves (standing (left_after 1) false) ending (recover d).
Proof.
  intros Hd. unfold recover. visit (poll_stop_leaves _ _ _ (standing_shaky _ _ _ Hd)); [done|].
  visit (start_call Recover (left_after 1) false (with_state Recovering d0) eq_refl ltac:(eauto with daemon)).
  - visit (poll_stop_leaves _ _ _ Hd1); done.
  - unfold leaves. cbn. destruct (_ || _); eauto with daemon.
Qed.

Lemma load_inventory_leaves d :
  standing (left_after 1) false d → leaves (standing (left_after 2) false) ending (load_inventory d).
Proof.
  intros Hd. unfold load_inventory. visit (poll_stop_leaves _ _ _ (standing_shaky _ _ _ Hd)); [done|].
  visit (start_call Inventory (left_after 2) false _ eq_refl Hd0).
  - visit (poll_stop_leaves _ _ _ Hd1); [done|].
    visit (poll_stop_leaves _ _ _ (standing_shaky _ _ _ Hd2)); done.
  - unfold leaves. cbn. eauto with daemon.
Qed.

Lemma start_retention_leaves d :
  standing (left_after 8) true d → leaves (standing (left_after 10) true) ending (start_retention d).
Proof.
  intros Hd. unfold start_retention. visit (start_call RetentionStart (left_after 9) true _ eq_refl Hd).
  - visit (poll_stop_leaves _ _ _ Hd0); [done|]. visit (check_http_failure_leaves _ _ _ Hd1); [done|].
    unfold leaves. cbn. eapply follows_record; [exact Hd2|by apply (life_start Ready), starting|done..].
  - unfold leaves. cbn. eauto with daemon.
Qed.

Lemma start_listening_leaves d :
  standing (left_after 7) true d → leaves (standing (left_after 10) true) ending (start_listening d).
Proof.
  intros Hd. unfold start_listening. visit (start_call Listen (left_after 8) true _ eq_refl Hd).
  - assert (Hs : standing (left_after 8) true (with_state Serving d0)) by (by apply standing_state).
    visit (poll_stop_leaves _ _ _ (standing_shaky _ _ _ Hs)); [done|]. by apply start_retention_leaves.
  - unfold leaves. cbn. eauto with daemon.
Qed.

Lemma start_scheduler_leaves d :
  standing (left_after 6) true d → leaves (standing (left_after 10) true) ending (start_scheduler d).
Proof.
  intros Hd. unfold start_scheduler. visit (start_call SchedulerStart (left_after 7) true _ eq_refl Hd).
  - visit (clear_to_go_leaves _ _ _ Hd0); [|done]. by apply start_listening_leaves.
  - unfold leaves. cbn. destruct (_ || _); eauto with daemon.
Qed.

Lemma start_services_leaves d :
  standing (left_after 3) false d → has_executors d = true →
  leaves (standing (left_after 10) true) ending (start_services d).
Proof.
  intros Hd He. unfold start_services.
  assert (Hc : standing (left_after 4) true (record [Constructed] (with_parts (has_http d) (has_executors d) true d))).
  { destruct Hd as (Hb & Hs & Hl & Hv & Hx & Hg & Hn). split; [|by repeat split].
    cbn. eapply behaves_snoc; [exact Hb|]. by apply (life_start Constructed), starting. }
  visit (start_call Register (left_after 5) true _ eq_refl Hc); [|unfold leaves; cbn; eauto with daemon].
  visit (clear_to_go_leaves _ _ _ Hd0); [|done].
  visit (start_call TelemetryStart (left_after 6) true _ eq_refl Hd1); [|unfold leaves; cbn; eauto with daemon].
  visit (clear_to_go_leaves _ _ _ Hd2); [|done]. by apply start_scheduler_leaves.
Qed.

Lemma shaky_parts http executors rest d :
  shaky rest false d → shaky rest false (with_parts http executors (has_services d) (tick d)).
Proof.
  intros (l & Hs & Hf). exists l. split; [done|]. destruct Hf as (Hb & Hst & Hl & Hv & Hx & Hg & Hn).
  split_and!; try done. intros Hl'. by destruct Hs.
Qed.

Lemma serve_ends d : standing (left_after 2) false d → ending (serve d).
Proof.
  intros Hd. unfold serve. visit (start_call MakeRunners (left_after 3) false _ eq_refl Hd); [|eauto with daemon].
  pose proof (shaky_parts (made_http (asked d0)) (made_executors (asked d0)) _ _ Hd0) as Hs. revert Hs.
  set (d1 := with_parts _ _ _ _). intros Hs. destruct (_ || _) eqn:E; [eauto with daemon|].
  assert (Hx : ∀ d2, poll_stop d1 = (false, d2) → has_executors d2 = true).
  { unfold poll_stop. intros d2 [= Hst <-]. apply orb_false_iff in E as [_ E%negb_false_iff].
    clear Hst. destruct (should_stop _); [|exact E]. unfold request_stop. destruct (stopping (tick d1)); exact E. }
  destruct (poll_stop d1) as [b d2] eqn:Ep. pose proof (poll_stop_leaves _ _ _ Hs) as Hp. rewrite Ep in Hp.
  unfold leaves in Hp. destruct b; cbn [fst snd] in Hp; [exact Hp|]. visit (start_services_leaves _ Hp (Hx _ eq_refl)); cbn [negb]; [|exact Hd1].
  visit (start_call Execute [] true _ eq_refl Hd1); [exact (shaky_ending [] true _ Hd2)|eauto with daemon].
Qed.

(** *** The stop *)

Definition closing (dr se : bool) (d : Runtime) : Prop :=
  ∃ l, follows l d ∧ stopped l = true ∧ busy l = None ∧ drained l = dr ∧ settled l = se.

Lemma request_stop_closing d : ending d → closing false false (request_stop d).
Proof. intros (l & (? & ? & ?) & Hf). exists (stop l). split; [by apply request_stop_follows|by split_and!]. Qed.

Lemma closed_closing d : closing false false d → has_services d = true → closing false false (record [Closed Listener; Closed Rpc] d).
Proof.
  intros (l & Hf & Hs & Hb & Hd & He) Hh. exists l. split; [|done].
  assert (Hc : ∀ p, lifecycle l (Closed p) l).
  { intros p. destruct Hf as (_ & _ & _ & Hv & _ & Hg & _). rewrite Hh in Hv. destruct l; cbn in *; subst. constructor. }
  assert (Hg : gone l = []) by apply Hf.
  change [Closed Listener; Closed Rpc] with ([Closed Listener] ++ [Closed Rpc]).
  assert (record ([Closed Listener] ++ [Closed Rpc]) d = record [Closed Rpc] (record [Closed Listener] d)) as ->
    by (unfold record; cbn; by rewrite <- app_assoc).
  eauto using follows_record.
Qed.

Lemma landed_closing c l1 l2 ok d :
  bool_decide (c = Listen) = false → (if bool_decide (c = Listen) then l2 = l1 else shaken l1 l2) →
  stopped l1 = true → follows (landed ok l2) d → closing (drained l1) (settled l1) d.
Proof.
  intros -> Hs Hst Hf. exists (landed ok l2). split; [done|]. by destruct Hs.
Qed.

Lemma shutdown_closing d : closing false false d → closing true false (call ShutdownExecutors d).2.
Proof.
  intros (l & Hf & Hs & Hb & Hd & He).
  destruct (call_follows ShutdownExecutors l (mkLife (agenda l) (Some ShutdownExecutors) (built l) true (logged l) true false []) d)
    as (l2 & Hsh & Hf2); try done.
  { assert (Hg : gone l = []) by apply Hf. destruct l; cbn in *; subst. constructor. }
  exact (landed_closing ShutdownExecutors _ _ _ _ eq_refl Hsh eq_refl Hf2).
Qed.

Lemma finish_closing d :
  closing true false d → has_services d = true → failed d = false → closing true true (call TelemetryFinish d).2.
Proof.
  intros (l & Hf & Hs & Hb & Hd & He) Hh Hfl.
  destruct (call_follows TelemetryFinish l (mkLife (agenda l) (Some TelemetryFinish) (built l) true false true true []) d)
    as (l2 & Hsh & Hf2); try done.
  { destruct Hf as (_ & _ & Hl & Hv & _ & Hg & _). rewrite Hh in Hv. rewrite Hfl in Hl. destruct l; cbn in *; subst. constructor. }
  { destruct Hf as (_ & _ & Hl & _). by rewrite Hl. }
  exact (landed_closing TelemetryFinish _ _ _ _ eq_refl Hsh eq_refl Hf2).
Qed.

Lemma fail_closing dr se subsystem reason d : closing dr se d → closing dr se (fail subsystem reason d).
Proof. intros (l & Hf & Hs & Hb & Hd & He). exists (fault l). split; [by apply fail_follows|by split_and!]. Qed.

Lemma check_http_closing dr se d : closing dr se d → closing dr se (check_http_failure d).2.
Proof.
  intros Hc. unfold check_http_failure. destruct (has_http d); [|done].
  destruct (http_failure (asked d)); [|exact Hc]. apply fail_closing, Hc.
Qed.

(** What is left when the runtime is done. *)
Definition finished (d : Runtime) : Prop :=
  ∃ l, behaves fresh (trace d) l ∧ state d = Stopped ∧ failed d = logged l ∧ stopped l = true ∧ busy l = None ∧
       (built l = true → drained l = true ∧ ∀ p, p ∈ teardown → p ≠ HttpClient → p ∈ gone l) ∧
       has_http d = false ∧ has_executors d = false ∧ has_services d = false.

Lemma destroy_behaves ag b lg dr se g ps :
  sublist (g ++ ps) teardown →
  behaves (mkLife ag None b true lg dr se g) (map Destroyed ps) (mkLife ag None b true lg dr se (g ++ ps)).
Proof.
  revert g. induction ps as [|p ps IH]; intros g Hs; [rewrite app_nil_r; constructor|].
  cbn [map]. eapply behaves_cons.
  - apply life_destroy. etrans; [|exact Hs]. apply sublist_app; [done|]. apply sublist_skip, sublist_nil_l.
  - replace (g ++ p :: ps) with ((g ++ [p]) ++ ps) in * by (by rewrite <- app_assoc). by apply IH.
Qed.

Definition parts_left (d : Runtime) : list Part :=
  (if has_http d then [HttpClient] else []) ++
  (if has_services d then [Rpc; Listener; Retention; Statistics; History; Secrets; Management; TheScheduler; Telemetry] else []) ++
  (if has_executors d then [Executors] else []).

Lemma destroyed_parts_left d : destroyed_parts d = map Destroyed (parts_left d).
Proof. unfold destroyed_parts, parts_left. by destruct (has_http d), (has_services d), (has_executors d). Qed.

Lemma destroy_finished dr se d :
  closing dr se d → (has_services d = true → dr = true) →
  finished (with_parts false false false (with_state Stopped (record (destroyed_parts d) d))).
Proof.
  intros (l & (Hb & Hs & Hl & Hv & Hx & Hg & Hn) & Hst & Hbu & Hd & He) Hdr.
  destruct l as [ag bu b st lg dr' se' g]; cbn in *; subst bu st lg dr' se' g b.
  exists (mkLife ag None (has_services d) true (failed d) dr se (parts_left d)). split_and!; try done; cbn.
  - eapply behaves_app; [exact Hb|]. rewrite destroyed_parts_left, Hst. apply (destroy_behaves ag _ _ _ _ []). cbn [app].
    unfold parts_left, teardown. destruct (has_http d), (has_services d), (has_executors d); cbn [app];
      repeat (apply sublist_skip || apply sublist_cons); apply sublist_nil_l.
  - intros Hh. split; [auto|]. intros p Hp Hne. unfold parts_left. rewrite Hh, (Hx Hh). apply elem_of_app. right.
    apply elem_of_cons in Hp as [->|Hp]; [done|exact Hp].
Qed.

(** No incident changes the parts the daemon has. *)
Definition parts (d : Runtime) := (has_executors d, has_services d).

Lemma request_stop_parts d : parts (request_stop d) = parts d.
Proof. unfold request_stop. by destruct (stopping d). Qed.

Lemma fail_parts subsystem reason d : parts (fail subsystem reason d) = parts d.
Proof. unfold fail. destruct (failed d); exact (request_stop_parts (with_failed d)). Qed.

Lemma incidents_parts reported d : parts (fold_left (λ d i, incident i d) reported d) = parts d.
Proof.
  revert d. induction reported as [|[|sub e] reported IH]; intros d; [done|..]; cbn [fold_left incident]; rewrite IH;
    auto using request_stop_parts, fail_parts.
Qed.

Lemma call_parts c d : parts (call c d).2 = parts d.
Proof. exact (incidents_parts _ (record [Called c] (tick d))). Qed.

Lemma check_http_parts d : parts (check_http_failure d).2 = parts d.
Proof.
  unfold check_http_failure. destruct (has_http d); [|done]. destruct (http_failure (asked d)); [|done].
  exact (fail_parts _ _ (tick d)).
Qed.

(** The first half of [finish]: up to the executors' shutdown. *)
Lemma drained_closing d :
  ending d →
  ∃ dr, let d1 := request_stop d in
        let d2 := if has_services d1 then record [Closed Listener; Closed Rpc] d1 else d1 in
        let d3 := if has_executors d2 then (call ShutdownExecutors d2).2 else d2 in
        closing dr false (check_http_failure d3).2 ∧ (has_services (check_http_failure d3).2 = true → dr = true).
Proof.
  intros Hd. pose proof (request_stop_closing _ Hd) as Hc. set (d1 := request_stop d) in *. cbn zeta.
  set (d2 := if has_services d1 then _ else _).
  assert (Hc2 : closing false false d2) by (subst d2; destruct (has_services d1) eqn:E; auto using closed_closing).
  destruct (has_executors d2) eqn:Ex.
  - exists true. split; [by apply check_http_closing, shutdown_closing|done].
  - exists false. split; [by apply check_http_closing|]. pose proof (check_http_parts d2) as [= _ ->].
    destruct Hc2 as (l & (_ & _ & _ & Hv & Hx & _) & _). rewrite <- Hv. intros Hb. specialize (Hx Hb). congruence.
Qed.

Lemma finish_finished d : ending d → finished (finish d).
Proof.
  intros Hd. assert (Hn : state d ≠ Stopped) by (destruct Hd as (l & _ & Hf); apply Hf).
  unfold finish. rewrite bool_decide_eq_false_2 by done. destruct (drained_closing d Hd) as (dr & Hc & Hdr).
  cbn zeta in *. set (d4 := (check_http_failure _).2) in *.
  destruct (_ && _) eqn:E; [|by eapply destroy_finished].
  apply andb_true_iff in E as [[Eh Ef%negb_true_iff]%andb_true_iff _]. rewrite (Hdr Eh) in Hc.
  assert (Hf : closing true true (call TelemetryFinish (tick d4)).2) by (by apply finish_closing).
  destruct (call TelemetryFinish (tick d4)) as [[u|e] d5]; eapply destroy_finished; eauto using fail_closing.
Qed.

Lemma initial_standing : standing startup false initial.
Proof. split_and!; try done. constructor. Qed.

Lemma run_finished : finished (run initial).
Proof.
  unfold run. cbn [state initial]. rewrite bool_decide_eq_true_2 by done. apply finish_finished.
  visit (recover_leaves _ initial_standing); [|done]. cbn [negb].
  visit (load_inventory_leaves _ Hd); [|done]. by apply serve_ends.
Qed.

End Simulation.

(** C21.  For every host, a run of the daemon ends stopped, with nothing left
    alive, its exit code the failure that was logged, and its trace is a
    behaviour of the lifecycle: the steps of the start in their order, each
    begun only after the one before it succeeded, and the teardown in the order
    in which no part outlives what it borrows. *)
Theorem daemon_refines {host : Host} : finished (run initial).
Proof. apply run_finished. Qed.

(** Once the event loop is told to quit, no further step of the start
    begins; at most one failure is logged, exactly when the exit code is a
    failure; and the measured time is settled only when nothing has failed, the
    executors are shut down and no part is destroyed yet. *)
Theorem daemon_order {host : Host} :
  let t := trace (run initial) in
  (∀ t1 t2 e, t = t1 ++ Halted EventLoop :: t2 → e ∈ t2 → ¬ starts e) ∧
  failures t = (if failed (run initial) then 1%nat else 0%nat) ∧
  (∀ t1 t2, t = t1 ++ Called TelemetryFinish :: t2 →
     failures t1 = 0%nat ∧ Called ShutdownExecutors ∈ t1 ∧ ∀ p, Destroyed p ∉ t1).
Proof.
  destruct run_finished as (l & Hb & _ & -> & _). cbn zeta. split; [|split].
  - intros t1 t2 e Ht Hin. rewrite Ht in Hb. by eapply nothing_after_stop.
  - pose proof (failures_counted _ _ _ Hb) as Hc. cbn in Hc. lia.
  - intros t1 t2 Ht. rewrite Ht in Hb. by eapply settled_in_time.
Qed.

(** What a host must do for the daemon to serve. *)
Class Healthy (host : Host) : Prop := {
  healthy_signal n : should_stop n = false;
  healthy_http n : http_failure n = None;
  healthy_endpoint n : endpoint_failure n = None;
  healthy_database n : is_poisoned n = false;
  healthy_answers c n : answer c n = success tt;
  healthy_runners n : made_http n = true ∧ made_executors n = true;
  healthy_incidents c n : c ≠ Execute → incidents c n = [];
  healthy_loop n : Forall (λ i, i = StopRequested) (incidents Execute n) }.

Lemma request_stop_stops d : stopping (request_stop d) = true.
Proof. unfold request_stop. by destruct (stopping d) eqn:E. Qed.

Section HealthyRun.
Context {host : Host} {healthy : Healthy host}.

Lemma healthy_call c d : c ≠ Execute → call c d = (success tt, record [Returned c true] (record [Called c] (tick d))).
Proof. intros Hc. unfold call. rewrite healthy_answers, healthy_incidents by done. by destruct (bool_decide (c = Listen)). Qed.

Lemma healthy_poll d : poll_stop d = (stopping d, tick d).
Proof. unfold poll_stop. by rewrite healthy_signal. Qed.

Lemma healthy_check_http d : check_http_failure d = (false, if has_http d then tick d else d).
Proof. unfold check_http_failure. rewrite healthy_http. by destruct (has_http d). Qed.

Lemma healthy_check_endpoint d : check_endpoint d = (true, tick d).
Proof. unfold check_endpoint. by rewrite healthy_endpoint. Qed.

Lemma stop_requests reported d :
  Forall (λ i, i = StopRequested) reported →
  fold_left (λ d i, incident i d) reported d = d ∨ fold_left (λ d i, incident i d) reported d = request_stop d.
Proof.
  intros Hr. revert d. induction Hr as [|i reported -> _ IH]; intros d; [by left|]. right. cbn [fold_left incident].
  destruct (IH (request_stop d)) as [->| ->]; [done|]. unfold request_stop at 1. by rewrite (request_stop_stops d).
Qed.

(** The daemon while it starts. *)
Definition up (s : RuntimeState) (runners services : bool) (n : nat) (t : list Event) : Runtime :=
  mkDaemon s false runners runners services n t.
Definition done_call (c : Call) : list Event := [Called c; Returned c true].

Lemma healthy_call_up c s runners services n t :
  c ≠ Execute → call c (up s runners services n t) = (success tt, up s runners services (S n) (t ++ done_call c)).
Proof. intros Hc. rewrite healthy_call by done. unfold record, tick, up. cbn. by rewrite <- app_assoc. Qed.

Lemma healthy_poll_up s runners services n t :
  bool_decide (s = Stopping) || bool_decide (s = Stopped) = false →
  poll_stop (up s runners services n t) = (false, up s runners services (S n) t).
Proof. intros Hs. rewrite healthy_poll. unfold stopping. cbn [state up]. by rewrite Hs. Qed.

Lemma healthy_http_up s services n t : check_http_failure (up s true services n t) = (false, up s true services (S n) t).
Proof. by rewrite healthy_check_http. Qed.

Lemma healthy_clear services n t :
  clear_to_go (up Recovering true services n t) = (true, up Recovering true services (S (S (S n))) t).
Proof. unfold clear_to_go. rewrite healthy_poll_up, healthy_http_up by done. by rewrite healthy_check_endpoint. Qed.

Lemma healthy_recover : recover initial = (true, up Recovering false false 3 (done_call Recover)).
Proof.
  unfold recover. change initial with (up Starting false false 0 []). rewrite healthy_poll_up by done.
  change (with_state Recovering (up Starting false false 1 [])) with (up Recovering false false 1 []).
  by rewrite healthy_call_up, healthy_poll_up by done.
Qed.

Lemma healthy_inventory n t :
  load_inventory (up Recovering false false n t) = (true, up Recovering false false (4 + n) (t ++ done_call Inventory)).
Proof.
  unfold load_inventory. rewrite healthy_poll_up, healthy_call_up, healthy_poll_up by done.
  by rewrite healthy_poll_up by done.
Qed.

Lemma healthy_listening n t :
  ∃ n', start_listening (up Recovering true true n t) =
        (true, up Serving true true n' (t ++ done_call Listen ++ done_call RetentionStart ++ [Ready])).
Proof.
  unfold start_listening, start_retention. rewrite healthy_call_up by done.
  change (with_state Serving (up Recovering true true (S n) (t ++ done_call Listen)))
    with (up Serving true true (S n) (t ++ done_call Listen)).
  rewrite healthy_poll_up, healthy_call_up, healthy_poll_up, healthy_http_up by done. eexists.
  unfold record, up. cbn. by rewrite <- !app_assoc.
Qed.

Lemma healthy_services n t :
  ∃ n', start_services (up Recovering true false n t) =
        (true, up Serving true true n' (t ++ [Constructed] ++ done_call Register ++ done_call TelemetryStart ++
                 done_call SchedulerStart ++ done_call Listen ++ done_call RetentionStart ++ [Ready])).
Proof.
  unfold start_services, start_scheduler.
  match goal with |- context [call Register ?d] => change d with (up Recovering true true n (t ++ [Constructed])) end.
  rewrite healthy_call_up, healthy_clear by done. cbn [negb]. rewrite healthy_call_up, healthy_clear by done. cbn [negb].
  rewrite healthy_call_up, healthy_clear by done.
  destruct (healthy_listening (S (S (S (S (S (S (S (S (S (S (S (S n))))))))))))
    ((((t ++ [Constructed]) ++ done_call Register) ++ done_call TelemetryStart) ++ done_call SchedulerStart)) as (n' & ->).
  exists n'. by rewrite <- !app_assoc.
Qed.

Definition stop_events (s : RuntimeState) : list Event :=
  if bool_decide (s = Stopping) then [] else halted_services ++ [Halted EventLoop].

Lemma request_stop_up s n t :
  s ≠ Stopped → request_stop (up s true true n t) = up Stopping true true n (t ++ stop_events s).
Proof. intros Hs. unfold up. by destruct s; try done; cbn; rewrite ?app_nil_r. Qed.

Lemma healthy_execute n t :
  ∃ s t', s ≠ Stopped ∧ filter starts t' = [] ∧
    call Execute (up Serving true true n t) = (success tt, up s true true (S n) ((t ++ [Called Execute]) ++ t')).
Proof.
  unfold call. rewrite healthy_answers. cbn [is_success].
  change (if bool_decide (Execute = Listen) then [] else ?x) with x.
  change (record [Called Execute] (tick (up Serving true true n t))) with (up Serving true true (S n) (t ++ [Called Execute])).
  destruct (stop_requests _ (up Serving true true (S n) (t ++ [Called Execute])) (healthy_loop n)) as [Hr|Hr]; cbn [asked up];
    rewrite Hr; [|rewrite request_stop_up by done].
  - by exists Serving, [Returned Execute true].
  - exists Stopping, (stop_events Serving ++ [Returned Execute true]). split; [done|]. split; [done|].
    unfold record, up. cbn. by rewrite <- !app_assoc.
Qed.

Lemma healthy_finish s n t :
  s ≠ Stopped →
  ∃ t', trace (finish (up s true true n t)) = t ++ t' ∧ failed (finish (up s true true n t)) = false ∧
        filter starts t' = [] ∧ Called TelemetryFinish ∈ t'.
Proof.
  intros Hs. unfold finish. cbn [state up]. rewrite bool_decide_eq_false_2 by done. cbn zeta.
  rewrite request_stop_up by done. cbn [has_services up].
  change (record [Closed Listener; Closed Rpc] (up ?s ?r ?v ?n ?t)) with (up s r v n (t ++ [Closed Listener; Closed Rpc])).
  cbn [has_executors up]. rewrite healthy_call_up by done. cbn [snd]. rewrite healthy_http_up. cbn [snd has_services failed up].
  rewrite healthy_database. cbn [negb andb]. change (tick (up ?s ?r ?v ?n ?t)) with (up s r v (S n) t).
  rewrite healthy_call_up by done. eexists. split; [cbn; rewrite <- !app_assoc; reflexivity|].
  split; [done|]. split; [by destruct s|]. rewrite !elem_of_app. right. right. right. left. by constructor.
Qed.

(** The daemon that starts: every step of the start, then the event loop. *)
Lemma healthy_run :
  ∃ n t, run initial = finish (call Execute (up Serving true true n t)).2 ∧ filter starts (t ++ [Called Execute]) = startup.
Proof.
  unfold run. cbn [state initial]. rewrite bool_decide_eq_true_2 by done. rewrite healthy_recover. cbn [negb].
  rewrite healthy_inventory. cbn [negb]. unfold serve. rewrite healthy_call_up by done.
  match goal with |- context [made_http ?n] => destruct (healthy_runners n) as [-> ->] end.
  cbn [has_http has_executors with_parts negb orb].
  match goal with |- context [poll_stop ?d] => change d with (up Recovering true false (asked d) (trace d)) end.
  cbn [asked trace with_parts tick up]. rewrite healthy_poll_up by done.
  match goal with |- context [start_services (up _ _ _ ?n ?t)] => destruct (healthy_services n t) as (n' & ->) end.
  cbn [negb]. match goal with |- context [call Execute (up _ _ _ ?n ?t)] =>
    exists n, t; destruct (healthy_execute n t) as (s & t' & _ & _ & ->) end.
  by split.
Qed.

End HealthyRun.

(** With a host on which nothing fails and whose event loop ends because a
    stop was requested, the daemon goes through the whole start in order,
    serves, settles the measured time and exits with success. *)
Theorem daemon_serves {host : Host} `{!Healthy host} :
  failed (run initial) = false ∧ filter starts (trace (run initial)) = startup ∧
  Ready ∈ trace (run initial) ∧ Called TelemetryFinish ∈ trace (run initial).
Proof.
  destruct healthy_run as (n & t & -> & Hst). destruct (healthy_execute n t) as (s & t1 & Hs & Hf1 & ->). cbn [snd].
  destruct (healthy_finish s (S n) ((t ++ [Called Execute]) ++ t1) Hs) as (t2 & Ht & -> & Hf2 & Hin).
  assert (Hall : filter starts (trace (finish (up s true true (S n) ((t ++ [Called Execute]) ++ t1)))) = startup)
    by (by rewrite Ht, !filter_app, <- filter_app, Hst, Hf1, Hf2, !app_nil_r).
  split; [done|]. split; [done|]. split.
  - assert (Hr : Ready ∈ startup) by (by apply (bool_decide_unpack _)). rewrite <- Hall in Hr. by apply list_elem_of_filter in Hr as [_ ?].
  - rewrite Ht. apply elem_of_app. by right.
Qed.

Module Sample.

(** A host on which nothing fails, stopped from its event loop. *)
#[local] Instance calm : Host :=
  {| should_stop _ := false; http_failure _ := None; endpoint_failure _ := None; is_poisoned _ := false;
     answer _ _ := success tt; incidents c _ := if bool_decide (c = Execute) then [StopRequested] else [];
     made_http _ := true; made_executors _ := true |}.

#[local] Instance calm_healthy : Healthy calm.
Proof. split; try done. - intros c n Hc. cbn. by rewrite bool_decide_eq_false_2. - intros n. by repeat constructor. Qed.

Lemma daemon_serves_witness :
  failed (run initial) = false ∧ filter starts (trace (run initial)) = startup ∧
  Ready ∈ trace (run initial) ∧ Called TelemetryFinish ∈ trace (run initial).
Proof. exact (daemon_serves (host := calm)). Defined.

End Sample.
