(* ===== verification/Database.v ===== *)
(** * The database connection

    [src/db/database.cpp], [src/db/transaction.cpp], [src/db/query.cpp] and
    [src/db/record.cpp]: the connection with its owner thread, its transaction
    owner and its poisoning, the transaction guard, and queries with their
    bindings and cursors.  The backend is the class [Driver] ([driver.hpp],
    [driver_query.hpp]); what the connection relies on of it is the class
    [DriverContract].  The calling thread is an argument.  Calls of
    queries that were moved from are not modelled. *)

From stdpp Require Import base numbers strings list relations.
From S2P Require Import Prelude Effects.
Local Open Scope Z_scope.

(** ** Values and records *)

Inductive Value := VNull | VInteger (i : Z) | VDouble (bits : Z) | VText (text : bytes) | VBlob (data : bytes).

Record Field := mkField { field_name : bytes; field_value : Value }.
Definition Fields := list Field.

Definition ascii_lower (c : Z) : Z := if (65 <=? c) && (c <=? 90) then c + 32 else c.

Fixpoint ascii_case_equal (a b : bytes) : bool :=
  match a, b with
  | [], [] => true
  | x :: a, y :: b => (ascii_lower x =? ascii_lower y) && ascii_case_equal a b
  | _, _ => false
  end.

Fixpoint index_from (fields : Fields) (name : bytes) (index : nat) : option nat :=
  match fields with
  | [] => None
  | f :: fields => if ascii_case_equal (field_name f) name then Some index else index_from fields name (S index)
  end.

Definition index_of (fields : Fields) (name : bytes) : option nat := index_from fields name 0.

Definition record_value (fields : Fields) (name : bytes) : option Value :=
  i ← index_of fields name; field_value <$> fields !! i.

(** ** The backend *)

Inductive TransactionMode := Deferred | Immediate | Exclusive.
Inductive TransactionOwner := NoOwner | Direct | Guarded.
#[global] Instance transaction_owner_eq : EqDecision TransactionOwner.
Proof. solve_decision. Defined.

Record ExecutionInfo := mkExecution { produces_records : bool; info_rows : Z; info_metadata : Fields }.

Class Driver := {
  Native : Type;
  driver_open : ES Native unit;
  driver_close : ES Native unit;
  driver_is_open : Native → bool;
  driver_begin : TransactionMode → ES Native unit;
  driver_commit : ES Native unit;
  driver_rollback : ES Native unit;
  (** Statements, by the handle of their query. *)
  create_query : ES Native nat;
  query_prepare : nat → bytes → ES Native unit;
  query_parameters : nat → Native → list bytes;
  query_bind : nat → nat → Value → ES Native unit;
  query_exec : nat → ES Native ExecutionInfo;
  query_next : nat → ES Native (option Fields);
  query_finish : nat → ES Native unit;
  query_clear : nat → Native → Native }.

(** ** The connection *)

Record Connection `{Driver} := mkConnection {
  driver : option Native;
  last_error : option Error;
  owner_thread : option nat;
  query_count : nat;
  transaction_owner : TransactionOwner;
  transaction_token : Z;
  next_transaction_token : Z;
  is_opened : bool;
  poisoned : bool }.
Arguments mkConnection {_}.
Arguments driver {_}.
Arguments last_error {_}.
Arguments owner_thread {_}.
Arguments query_count {_}.
Arguments transaction_owner {_}.
Arguments transaction_token {_}.
Arguments next_transaction_token {_}.
Arguments is_opened {_}.
Arguments poisoned {_}.

Definition db_error (category : ErrorCategory) (code message : string) : Error := mkError category code message "".
Definition invalid_database : Error := db_error InvalidArgument "db.invalid_database" "The database has no driver".
Definition database_closed : Error := db_error Unavailable "db.database_closed" "The database is closed".
Definition wrong_thread : Error :=
  db_error Internal "db.wrong_thread" "The database operation was requested from a different thread".
Definition connection_unusable : Error :=
  db_error Internal "db.connection_failed" "The database connection is unusable after an unrecoverable failure".
Definition queries_alive : Error := db_error Conflict "db.query_active" "The database has live queries".
Definition guard_alive : Error :=
  db_error Conflict "db.transaction_guard_active" "A transaction guard owns the active transaction".
Definition transaction_alive : Error :=
  db_error Conflict "db.transaction_active" "The database already has an active transaction".
Definition no_transaction : Error := db_error Conflict "db.no_transaction" "The database has no active transaction".
Definition owner_mismatch : Error :=
  db_error Internal "db.transaction_owner_mismatch" "The transaction guard does not own the active transaction".
Definition guard_inactive : Error := db_error Conflict "db.no_transaction" "The transaction guard is inactive".

Definition token_limit : Z := 2 ^ 64.

Section Connection.
Context `{Driver}.

Abbreviation Db := (ES Connection).

Definition with_driver (d : option Native) (c : Connection) : Connection :=
  mkConnection d (last_error c) (owner_thread c) (query_count c) (transaction_owner c) (transaction_token c)
    (next_transaction_token c) (is_opened c) (poisoned c).
Definition with_error (e : option Error) (c : Connection) : Connection :=
  mkConnection (driver c) e (owner_thread c) (query_count c) (transaction_owner c) (transaction_token c)
    (next_transaction_token c) (is_opened c) (poisoned c).
Definition with_owner (owner : TransactionOwner) (token : Z) (c : Connection) : Connection :=
  mkConnection (driver c) (last_error c) (owner_thread c) (query_count c) owner token (next_transaction_token c)
    (is_opened c) (poisoned c).
Definition with_next_token (next : Z) (c : Connection) : Connection :=
  mkConnection (driver c) (last_error c) (owner_thread c) (query_count c) (transaction_owner c) (transaction_token c) next
    (is_opened c) (poisoned c).
Definition with_state (opened poison : bool) (thread : option nat) (c : Connection) : Connection :=
  mkConnection (driver c) (last_error c) thread (query_count c) (transaction_owner c) (transaction_token c)
    (next_transaction_token c) opened poison.
Definition with_queries (n : nat) (c : Connection) : Connection :=
  mkConnection (driver c) (last_error c) (owner_thread c) n (transaction_owner c) (transaction_token c)
    (next_transaction_token c) (is_opened c) (poisoned c).

Definition poison (c : Connection) : Connection := with_state (is_opened c) true (owner_thread c) c.
Definition release (c : Connection) : Connection := with_owner NoOwner 0 c.
Definition disown (c : Connection) : Connection := with_owner NoOwner (transaction_token c) c.

(** [Private::failure], and an operation that went well. *)
Definition fail {A} (e : Error) : Db A := λ c, (failure e, with_error (Some e) c).
Definition done_well {A} (v : A) : Db A := λ c, (success v, with_error None c).

(** A call of the driver; its failure is recorded. *)
Definition call {A} (m : ES Native A) : Db A := λ c,
  match driver c with
  | None => fail invalid_database c
  | Some d =>
      match m d with
      | (success v, d) => (success v, with_driver (Some d) c)
      | (failure e, d) => fail e (with_driver (Some d) c)
      end
  end.

Definition operation_error (self : nat) (c : Connection) : option Error :=
  if negb (is_some (driver c)) then Some invalid_database
  else if negb (is_opened c) then Some database_closed
  else if negb (bool_decide (owner_thread c = Some self)) then Some wrong_thread
  else if poisoned c then Some connection_unusable
  else None.

Definition admitted (self : nat) : Db unit := λ c,
  match operation_error self c with Some e => fail e c | None => (success tt, c) end.

Definition require (b : bool) (e : Error) : Db unit := if b then mret tt else fail e.

Definition is_open (c : Connection) : bool :=
  match driver c with Some d => is_opened c && driver_is_open d | None => false end.

(** [Database::open]. *)
Definition open (self : nat) : Db unit := λ c,
  if negb (is_some (driver c)) then fail invalid_database c
  else if is_opened c then
    if negb (bool_decide (owner_thread c = Some self)) then fail wrong_thread c
    else if poisoned c then fail connection_unusable c
    else done_well tt c
  else
    (_ ← call driver_open;
     _ ← modify (with_state true false (Some self));
     done_well tt) c.

(** A rollback drops the owner of the transaction either way. *)
Definition roll_back (drop : Connection → Connection) : Db unit := λ c,
  match call driver_rollback c with
  | (success _, c) => (success tt, drop c)
  | (failure e, c) => (failure e, poison (drop c))
  end.

(** [Database::close]. *)
Definition close (self : nat) : Db unit := λ c,
  if negb (is_some (driver c)) then fail invalid_database c
  else if is_opened c && negb (bool_decide (owner_thread c = Some self)) then fail wrong_thread c
  else if negb (query_count c =? 0)%nat then fail queries_alive c
  else if bool_decide (transaction_owner c = Guarded) then fail guard_alive c
  else if negb (is_opened c) then done_well tt (with_state false false (owner_thread c) c)
  else
    (_ ← (if bool_decide (transaction_owner c = Direct) then roll_back disown else mret tt);
     _ ← call driver_close;
     _ ← modify (λ c, release (with_state false false None c));
     done_well tt) c.

(** [Database::transaction], [Database::commit] and [Database::rollback]. *)
Definition transaction (self : nat) (mode : TransactionMode) : Db unit :=
  _ ← admitted self;
  owner ← gets transaction_owner;
  _ ← require (bool_decide (owner = NoOwner)) transaction_alive;
  _ ← call (driver_begin mode);
  _ ← modify (λ c, with_owner Direct (transaction_token c) c);
  done_well tt.

(** The transaction belongs to the caller, not to a guard. *)
Definition owned_directly : Db unit :=
  owner ← gets transaction_owner;
  _ ← require (negb (bool_decide (owner = NoOwner))) no_transaction;
  require (negb (bool_decide (owner = Guarded))) guard_alive.

Definition commit (self : nat) : Db unit :=
  _ ← admitted self;
  _ ← owned_directly;
  _ ← call driver_commit;
  _ ← modify disown;
  done_well tt.

Definition rollback (self : nat) : Db unit :=
  _ ← admitted self;
  _ ← owned_directly;
  _ ← roll_back disown;
  done_well tt.

(** [Database::~Database]: the backend it leaves, or the process is terminated. *)
Definition destroy_connection (c : Connection) : option (option Native) :=
  if negb (query_count c =? 0)%nat || bool_decide (transaction_owner c = Guarded) then None
  else Some
    match driver c with
    | Some d =>
        if is_opened c then
          let d := if bool_decide (transaction_owner c = Direct) then (driver_rollback d).2 else d in
          Some (driver_close d).2
        else Some d
    | None => None
    end.

Definition cannot_move (e : Error) (c : Connection) : option Connection * option Connection := (None, Some (with_error (Some e) c)).

(** [Database::Database(Database&&)]: the new handle and the old one. *)
Definition move_connection (self : nat) (other : Connection) : option Connection * option Connection :=
  if negb (query_count other =? 0)%nat then cannot_move queries_alive other
  else if bool_decide (transaction_owner other = Guarded)
  then cannot_move (db_error Conflict "db.transaction_guard_active" "The database has a live transaction guard") other
  else if is_opened other && negb (bool_decide (owner_thread other = Some self))
  then cannot_move (db_error Internal "db.wrong_thread" "The database cannot be moved from a different thread") other
  else (Some other, None).

(** *** Guarded transactions *)

Definition next_token (token : Z) : Z := let next := (token + 1) mod token_limit in if next =? 0 then 1 else next.

Definition begin_guarded_transaction (self : nat) (mode : TransactionMode) : Db Z :=
  _ ← admitted self;
  owner ← gets transaction_owner;
  _ ← require (bool_decide (owner = NoOwner)) transaction_alive;
  _ ← call (driver_begin mode);
  token ← gets next_transaction_token;
  _ ← modify (λ c, with_owner Guarded token (with_next_token (next_token token) c));
  done_well token.

Definition owns_guarded_transaction (token : Z) (c : Connection) : bool :=
  negb (token =? 0) && bool_decide (transaction_owner c = Guarded) && (transaction_token c =? token).

(** A guard that does not own the transaction leaves the connection unusable. *)
Definition owned_by (token : Z) : Db unit := λ c,
  if owns_guarded_transaction token c then (success tt, c) else fail owner_mismatch (poison (release c)).

Definition commit_guarded_transaction (self : nat) (token : Z) : Db unit :=
  _ ← admitted self;
  _ ← owned_by token;
  _ ← call driver_commit;
  _ ← modify release;
  done_well tt.

Definition rollback_guarded_transaction (self : nat) (token : Z) : Db unit :=
  _ ← admitted self;
  _ ← owned_by token;
  _ ← roll_back release;
  done_well tt.

(** [Transaction]: its token, or nothing once it is inactive. *)
Definition Guard := option Z.

Definition guard_begin (self : nat) (mode : TransactionMode) : Db Guard :=
  token ← begin_guarded_transaction self mode; mret (Some token).

(** The guard is dropped with the ownership of the transaction. *)
Definition settle_guard (token : Z) (m : Db unit) (c : Connection) : result Error unit * Guard * Connection :=
  let '(r, c) := m c in (r, if owns_guarded_transaction token c then Some token else None, c).

Definition guard_commit (self : nat) (g : Guard) (c : Connection) : result Error unit * Guard * Connection :=
  match g with
  | None => (failure guard_inactive, None, c)
  | Some token => settle_guard token (commit_guarded_transaction self token) c
  end.

Definition guard_rollback (self : nat) (g : Guard) (c : Connection) : result Error unit * Guard * Connection :=
  match g with
  | None => (failure guard_inactive, None, c)
  | Some token => settle_guard token (rollback_guarded_transaction self token) c
  end.

(** [Transaction::~Transaction]. *)
Definition guard_destroy (self : nat) (g : Guard) (c : Connection) : Connection :=
  match g with None => c | Some _ => (guard_rollback self g c).2 end.

(** The life of a guard in an operation: begin, work, commit, destruction. *)
Definition guarded {A} (self : nat) (mode : TransactionMode) (body : Db A) : Db A := λ c,
  match guard_begin self mode c with
  | (failure e, c) => (failure e, c)
  | (success g, c1) =>
      match body c1 with
      | (failure e, c2) => (failure e, guard_destroy self g c2)
      | (success v, c2) =>
          let '(r, g, c3) := guard_commit self g c2 in
          (match r with success _ => success v | failure e => failure e end, guard_destroy self g c3)
      end
  end.

End Connection.

(** ** Queries *)

Inductive BindingMode := BindNone | Positional | Named.
#[global] Instance binding_mode_eq : EqDecision BindingMode.
Proof. solve_decision. Defined.

Record Query := mkQuery {
  driver_query : option nat;
  sql : bytes;
  parameter_names : list bytes;
  bindings : list (option Value);
  binding_mode : BindingMode;
  next_bind_position : nat;
  active : bool;
  valid : bool;
  select : bool;
  at_end : bool;
  rows_affected : Z;
  record_metadata : Fields;
  current_record : Fields;
  query_error : option Error }.

Definition new_query : Query := mkQuery None [] [] [] BindNone 0 false false false false (-1) [] [] None.

(** [Private::reset_execution]. *)
Definition reset_execution (q : Query) : Query :=
  mkQuery (driver_query q) (sql q) (parameter_names q) (bindings q) (binding_mode q) (next_bind_position q) false false false
    false (-1) [] [] (query_error q).
Definition with_query_error (e : option Error) (q : Query) : Query :=
  mkQuery (driver_query q) (sql q) (parameter_names q) (bindings q) (binding_mode q) (next_bind_position q) (active q)
    (valid q) (select q) (at_end q) (rows_affected q) (record_metadata q) (current_record q) e.
Definition with_statement (handle : option nat) (text : bytes) (names : list bytes) (values : list (option Value)) (q : Query)
    : Query :=
  mkQuery handle text names values (binding_mode q) (next_bind_position q) (active q) (valid q) (select q) (at_end q)
    (rows_affected q) (record_metadata q) (current_record q) (query_error q).
Definition with_bindings (mode : BindingMode) (values : list (option Value)) (q : Query) : Query :=
  mkQuery (driver_query q) (sql q) (parameter_names q) values mode (next_bind_position q) (active q) (valid q) (select q)
    (at_end q) (rows_affected q) (record_metadata q) (current_record q) (query_error q).
Definition with_position (position : nat) (q : Query) : Query :=
  mkQuery (driver_query q) (sql q) (parameter_names q) (bindings q) (binding_mode q) position (active q) (valid q) (select q)
    (at_end q) (rows_affected q) (record_metadata q) (current_record q) (query_error q).
Definition with_cursor (is_valid is_end : bool) (record : Fields) (q : Query) : Query :=
  mkQuery (driver_query q) (sql q) (parameter_names q) (bindings q) (binding_mode q) (next_bind_position q) (active q)
    is_valid (select q) is_end (rows_affected q) (record_metadata q) record (query_error q).
Definition executed (info : ExecutionInfo) (q : Query) : Query :=
  mkQuery (driver_query q) (sql q) (parameter_names q) (bindings q) (binding_mode q) (next_bind_position q) true false
    (produces_records info) false (info_rows info) (info_metadata info)
    (if produces_records info then info_metadata info else []) (query_error q).

Definition invalid_query (message : string) : Error := db_error InvalidArgument "db.invalid_query" message.
Definition invalid_parameter (message : string) : Error := db_error InvalidArgument "db.invalid_parameter" message.
Definition mixed_binding : Error :=
  db_error InvalidArgument "db.mixed_binding" "Named and positional binding cannot be mixed".
Definition parameter_unbound : Error :=
  db_error InvalidArgument "db.parameter_unbound" "Every query parameter must be explicitly bound".

Fixpoint find_name (name : bytes) (names : list bytes) (index : nat) : option nat :=
  match names with
  | [] => None
  | n :: names => if bytes_eqb n name then Some index else find_name name names (S index)
  end.

(** The first unbound position from a position on. *)
Fixpoint unbound_from (values : list (option Value)) (position : nat) (fuel : nat) : option nat :=
  match fuel with
  | O => None
  | S fuel =>
      match values !! position with
      | None => None
      | Some None => Some position
      | Some (Some _) => unbound_from values (S position) fuel
      end
  end.

Section Queries.
Context `{Driver}.

Abbreviation Qy := (ES (Query * Connection)).

Definition on_query (f : Query → Query) : Qy unit := modify (λ s, (f s.1, s.2)).
Definition refuse {A} (e : Error) : Qy A := λ s, (failure e, (with_query_error (Some e) s.1, s.2)).
Definition finished_well {A} (v : A) : Qy A := λ s, (success v, (with_query_error None s.1, s.2)).
Definition require_query (b : bool) (e : Error) : Qy unit := if b then mret tt else refuse e.

Definition query_admitted (self : nat) : Qy unit := λ s,
  match operation_error self s.2 with Some e => refuse e s | None => (success tt, s) end.

(** A call of the backend; [recover] is what becomes of the query when it
    fails. *)
Definition statement {A} (recover : Query → Query) (m : ES Native A) : Qy A := λ s,
  match driver s.2 with
  | None => refuse invalid_database s
  | Some d =>
      match m d with
      | (success v, d) => (success v, (s.1, with_driver (Some d) s.2))
      | (failure e, d) => refuse e (recover s.1, with_driver (Some d) s.2)
      end
  end.

Definition discard (handle : option nat) (c : Connection) : Connection :=
  match handle, driver c with
  | Some h, Some d => with_driver (Some (query_clear h d)) c
  | _, _ => c
  end.

(** [Query::Query], [Query::clear], [Query::~Query]. *)
Definition create (c : Connection) : Query * Connection := (new_query, with_queries (S (query_count c)) c).
Definition clear (s : Query * Connection) : Query * Connection := (new_query, discard (driver_query s.1) s.2).
Definition destroy (s : Query * Connection) : Connection :=
  let c := (clear s).2 in with_queries (pred (query_count c)) c.

Definition the_statement (q : Query) : option nat :=
  if bool_decide (sql q = []) then None else driver_query q.

Definition prepared : Qy nat := λ s,
  match the_statement s.1 with
  | Some h => (success h, s)
  | None => refuse (invalid_query "The query has no prepared statement") s
  end.

Definition finish (self : nat) : Qy unit := λ s,
  if negb (active s.1) then finished_well tt s
  else
    (_ ← query_admitted self;
     _ ← match driver_query s.1 with
         | Some h => statement id (query_finish h)
         | None => mret tt
         end;
     _ ← on_query reset_execution;
     finished_well tt) s.

Definition finish_active (self : nat) : Qy unit := λ s, if active s.1 then finish self s else (success tt, s).

Definition prepare (self : nat) (text : bytes) : Qy unit :=
  _ ← query_admitted self;
  _ ← require_query (negb (bool_decide (text = []))) (invalid_query "The SQL statement is empty");
  _ ← finish_active self;
  _ ← modify (λ s, (with_query_error (query_error s.1) new_query, discard (driver_query s.1) s.2));
  h ← statement id create_query;
  _ ← (λ s, match statement id (query_prepare h text) s with
            | (success _, s) => (success tt, s)
            | (failure e, s) => (failure e, (s.1, discard (Some h) s.2))
            end);
  names ← gets (λ s, match driver s.2 with Some d => query_parameters h d | None => [] end);
  _ ← on_query (with_statement (Some h) text names (replicate (length names) None));
  finished_well tt.

Definition exec (self : nat) : Qy unit :=
  _ ← query_admitted self;
  h ← prepared;
  _ ← finish_active self;
  values ← gets (λ s, bindings s.1);
  _ ← require_query (forallb is_some values) parameter_unbound;
  info ← statement reset_execution (query_exec h);
  _ ← on_query (executed info);
  finished_well tt.

Definition exec_sql (self : nat) (text : bytes) : Qy unit := _ ← prepare self text; exec self.

(** A value in its slot; a value that the backend refuses leaves it unbound. *)
Definition bind_slot (self : nat) (mode : BindingMode) (h position : nat) (v : Value) : Qy unit :=
  _ ← finish_active self;
  _ ← on_query (λ q, with_bindings mode (<[position := Some v]> (bindings q)) q);
  _ ← statement (λ q, with_bindings mode (<[position := None]> (bindings q)) q) (query_bind h position v);
  finished_well tt.

Definition bind_value (self : nat) (position : nat) (v : Value) : Qy unit :=
  _ ← query_admitted self;
  h ← prepared;
  q ← gets fst;
  _ ← require_query (negb (bool_decide (binding_mode q = Named))) mixed_binding;
  _ ← require_query (position <? length (bindings q))%nat (invalid_parameter "The parameter position is out of range");
  bind_slot self Positional h position v.

Definition bind_named (self : nat) (placeholder : bytes) (v : Value) : Qy unit :=
  _ ← query_admitted self;
  h ← prepared;
  q ← gets fst;
  _ ← require_query (negb (bool_decide (binding_mode q = Positional))) mixed_binding;
  _ ← require_query (negb (bool_decide (placeholder = [])))
        (invalid_parameter "A named parameter must include its placeholder prefix");
  match find_name placeholder (parameter_names q) 0 with
  | None => refuse (invalid_parameter "The named parameter does not exist")
  | Some position => bind_slot self Named h position v
  end.

Definition add_bind_value (self : nat) (v : Value) : Qy unit :=
  _ ← query_admitted self;
  _ ← prepared;
  q ← gets fst;
  _ ← require_query (negb (bool_decide (binding_mode q = Named))) mixed_binding;
  match unbound_from (bindings q) (next_bind_position q) (length (bindings q)) with
  | None => refuse (invalid_parameter "The query has no unbound parameter")
  | Some position =>
      _ ← bind_value self position v;
      on_query (with_position (S position))
  end.

Definition next (self : nat) : Qy bool :=
  _ ← query_admitted self;
  q ← gets fst;
  match driver_query q with
  | Some h =>
      _ ← require_query (active q && select q) (invalid_query "The query has no active record cursor");
      if at_end q then finished_well false
      else
        record ← statement (λ q, with_cursor false (at_end q) (record_metadata q) q) (query_next h);
        match record with
        | None => _ ← on_query (with_cursor false true (record_metadata q)); finished_well false
        | Some record => _ ← on_query (with_cursor true false record); finished_well true
        end
  | None => refuse (invalid_query "The query has no active record cursor")
  end.

Definition is_select (q : Query) : bool := active q && select q.
Definition num_rows_affected (q : Query) : Z := if active q then rows_affected q else -1.
Definition query_value (q : Query) (name : bytes) : option Value := if valid q then record_value (current_record q) name else None.

(** A query over its life inside an operation. *)
Definition with_query {A} (m : Qy A) : ES Connection A := λ c,
  let '(r, s) := m (create c) in (r, destroy s).

End Queries.
