(* ===== verification/DatabaseSafety.v ===== *)
(** * What the database connection guarantees

    Against the contract of a backend: a guarded transaction is atomic or the
    connection is unusable, no transaction is left open without an owner, a
    guard never ends a transaction that is not its own, and a statement runs
    only with every parameter bound. *)

From stdpp Require Import base numbers strings list relations.
From S2P Require Import Prelude Effects Database.
Local Open Scope Z_scope.

(** What a backend promises of its native transactions. *)
Class DriverContract `{Driver} := {
  Store : Type;
  durable : Native → Store;
  working : Native → Store;
  in_transaction : Native → bool;
  begin_law mode d r d' :
    driver_begin mode d = (r, d') → in_transaction d = false →
    durable d' = durable d ∧ in_transaction d' = is_success r;
  commit_law d r d' :
    driver_commit d = (r, d') →
    match r with
    | success _ => in_transaction d' = false ∧ (in_transaction d = true → durable d' = working d)
    | failure _ => durable d' = durable d
    end;
  rollback_law d r d' :
    driver_rollback d = (r, d') → durable d' = durable d ∧ (is_success r = true → in_transaction d' = false);
  open_law d r d' : driver_open d = (r, d') → in_transaction d = false → in_transaction d' = false ∧ durable d' = durable d;
  close_law d r d' :
    driver_close d = (r, d') →
    durable d' = durable d ∧
    match r with success _ => in_transaction d' = false | failure _ => in_transaction d' = true → in_transaction d = true end;
  (** Inside a transaction a statement works on the working copy. *)
  create_law d r d' : create_query d = (r, d') → in_transaction d = true →
    durable d' = durable d ∧ (is_success r = true → in_transaction d' = true);
  prepare_law h text d r d' : query_prepare h text d = (r, d') → in_transaction d = true →
    durable d' = durable d ∧ (is_success r = true → in_transaction d' = true);
  bind_law h i v d r d' : query_bind h i v d = (r, d') → in_transaction d = true →
    durable d' = durable d ∧ (is_success r = true → in_transaction d' = true);
  exec_law h d r d' : query_exec h d = (r, d') → in_transaction d = true →
    durable d' = durable d ∧ (is_success r = true → in_transaction d' = true);
  next_law h d r d' : query_next h d = (r, d') → in_transaction d = true →
    durable d' = durable d ∧ (is_success r = true → in_transaction d' = true);
  finish_law h d r d' : query_finish h d = (r, d') → in_transaction d = true →
    durable d' = durable d ∧ (is_success r = true → in_transaction d' = true);
  clear_law h d : durable (query_clear h d) = durable d ∧ in_transaction (query_clear h d) = in_transaction d }.

Section Safety.
Context `{DriverContract}.
Implicit Type c : Connection.

Abbreviation Db := (ES Connection).

(** ** Ownership *)

(** Whether the backend has a transaction open, and what it would keep. *)
Definition native_open c : bool := match driver c with Some d => in_transaction d | None => false end.
Definition kept c : option Store := durable <$> driver c.
Definition pending c : option Store := working <$> driver c.

Record owned c : Prop := {
  owned_native : native_open c = true → transaction_owner c ≠ NoOwner ∨ poisoned c = true;
  owned_token : transaction_owner c = Guarded ↔ transaction_token c ≠ 0;
  owned_next : 0 < next_transaction_token c < token_limit;
  owned_opened : transaction_owner c ≠ NoOwner ∨ native_open c = true → is_opened c = true }.

Lemma next_token_range token : 0 < token < token_limit → 0 < next_token token < token_limit.
Proof.
  unfold next_token, token_limit. intros Ht. pose proof (Z.mod_pos_bound (token + 1) (2 ^ 64) ltac:(lia)).
  destruct (_ =? 0) eqn:E; lia.
Qed.

Definition usable (self : nat) c : Prop :=
  is_some (driver c) = true ∧ is_opened c = true ∧ owner_thread c = Some self ∧ poisoned c = false.

Lemma operation_usable self c : operation_error self c = None ↔ usable self c.
Proof.
  unfold operation_error, usable. destruct (is_some (driver c)), (is_opened c), (poisoned c); cbn;
    try case_bool_decide; naive_solver.
Qed.

(** The operations that anyone may ask of the connection, on any thread and
    with any token. *)
Inductive request :=
  | ROpen | RClose | RTransaction (mode : TransactionMode) | RCommit | RRollback
  | RBegin (mode : TransactionMode) | RCommitGuarded (token : Z) | RRollbackGuarded (token : Z).

Definition perform (self : nat) (r : request) : Db unit :=
  match r with
  | ROpen => open self
  | RClose => close self
  | RTransaction mode => transaction self mode
  | RCommit => commit self
  | RRollback => rollback self
  | RBegin mode => _ ← begin_guarded_transaction self mode; mret tt
  | RCommitGuarded token => commit_guarded_transaction self token
  | RRollbackGuarded token => rollback_guarded_transaction self token
  end.

(** *** Rules for the primitives *)

Lemma wp_fail {A} e (Q : A → Connection → Prop) (E : Connection → Prop) c : E (with_error (Some e) c) → wp (fail e) Q E c.
Proof. done. Qed.

Lemma wp_well {A} (v : A) (Q : A → Connection → Prop) (E : Connection → Prop) c :
  Q v (with_error None c) → wp (done_well v) Q E c.
Proof. done. Qed.

Lemma wp_require b e (Q : unit → Connection → Prop) (E : Connection → Prop) c :
  (b = true → Q tt c) → (b = false → E (with_error (Some e) c)) → wp (require b e) Q E c.
Proof. destruct b; intros HQ HE; [by apply HQ|by apply HE]. Qed.

Lemma wp_admitted self (Q : unit → Connection → Prop) (E : Connection → Prop) c :
  (usable self c → Q tt c) → (∀ e, E (with_error (Some e) c)) → wp (admitted self) Q E c.
Proof.
  intros HQ HE. unfold wp, admitted. destruct (operation_error self c) eqn:Ho; [apply HE|].
  by apply HQ, operation_usable.
Qed.

Lemma db_wp_call {A} (m : ES Native A) (Q : A → Connection → Prop) (E : Connection → Prop) c :
  (driver c = None → E (with_error (Some invalid_database) c)) →
  (∀ d v d', driver c = Some d → m d = (success v, d') → Q v (with_driver (Some d') c)) →
  (∀ d e d', driver c = Some d → m d = (failure e, d') → E (with_error (Some e) (with_driver (Some d') c))) →
  wp (call m) Q E c.
Proof.
  intros HN HQ HE. unfold wp, call. destruct (driver c) as [d|]; [|by apply HN].
  destruct (m d) as [[v|e] d'] eqn:Hm; [by eapply HQ|by eapply HE].
Qed.

Lemma wp_roll_back drop (Q : unit → Connection → Prop) (E : Connection → Prop) c :
  (driver c = None → E (poison (drop (with_error (Some invalid_database) c)))) →
  (∀ d d', driver c = Some d → driver_rollback d = (success tt, d') → Q tt (drop (with_driver (Some d') c))) →
  (∀ d e d', driver c = Some d → driver_rollback d = (failure e, d') →
     E (poison (drop (with_error (Some e) (with_driver (Some d') c))))) →
  wp (roll_back drop) Q E c.
Proof.
  intros HN HQ HE. unfold wp, roll_back, call. destruct (driver c) as [d|]; [|by apply HN].
  destruct (driver_rollback d) as [[[]|e] d'] eqn:Hm; [by eapply HQ|by eapply HE].
Qed.

Lemma wp_owned_by token (Q : unit → Connection → Prop) (E : Connection → Prop) c :
  (owns_guarded_transaction token c = true → Q tt c) →
  (owns_guarded_transaction token c = false → E (with_error (Some owner_mismatch) (poison (release c)))) →
  wp (owned_by token) Q E c.
Proof. intros HQ HE. unfold wp, owned_by. destruct (owns_guarded_transaction token c); [by apply HQ|by apply HE]. Qed.

Lemma wp_owned_directly (Q : unit → Connection → Prop) (E : Connection → Prop) c :
  (transaction_owner c = Direct → Q tt c) → (∀ e, E (with_error (Some e) c)) → wp owned_directly Q E c.
Proof.
  intros HQ HE. unfold owned_directly. es_step. es_step. es_step. apply wp_require; [|intros; apply HE]. intros H1.
  apply wp_require; [|intros; apply HE]. intros H2. apply HQ.
  apply negb_true_iff, bool_decide_eq_false in H1, H2. by destruct (transaction_owner c).
Qed.

(** *** Every operation keeps ownership *)

Lemma owned_error e c : owned c → owned (with_error e c).
Proof. by intros []; split. Qed.

(** A connection without an owner and without a transaction of the backend. *)
Lemma owned_idle c token :
  owned c → native_open c = false → token = 0 → owned (with_owner NoOwner token c).
Proof. intros [H1 H2 H3 H4] Hn ->. split; cbn; [|naive_solver|done|]; unfold native_open in *; cbn; [congruence|]. rewrite Hn. naive_solver. Qed.

Lemma owned_released c : owned c → owned (poison (release c)).
Proof. intros [H1 H2 H3 H4]. split; cbn; [by right|naive_solver|done|]. intros [?|?]; [done|]. apply H4. by right. Qed.

Lemma token_idle c : owned c → transaction_owner c ≠ Guarded → transaction_token c = 0.
Proof. intros Ho Hn. destruct (decide (transaction_token c = 0)) as [|Ht]; [done|]. by apply (owned_token _ Ho) in Ht. Qed.

(** The backend changed and ownership is as before. *)
Lemma owned_driver c d' :
  owned c → is_opened c = true → (in_transaction d' = true → transaction_owner c ≠ NoOwner ∨ poisoned c = true) →
  owned (with_driver (Some d') c).
Proof. intros [H1 H2 H3 H4] Hopen Hd. by split. Qed.

Lemma native_idle c d :
  owned c → driver c = Some d → transaction_owner c = NoOwner → poisoned c = false → in_transaction d = false.
Proof.
  intros Ho Hd Hn Hp. destruct (in_transaction d) eqn:E; [|done].
  destruct (owned_native _ Ho) as [?|?]; [by unfold native_open; rewrite Hd|congruence|congruence].
Qed.

Lemma begun_owned c d mode r d' :
  owned c → driver c = Some d → transaction_owner c = NoOwner → poisoned c = false → is_opened c = true →
  driver_begin mode d = (r, d') → (∀ e, r = failure e → owned (with_error (Some e) (with_driver (Some d') c))).
Proof.
  intros Ho Hd Hn Hp Hopen Hb e ->. apply owned_error, owned_driver; [done..|].
  destruct (begin_law _ _ _ _ Hb) as [_ Hi]; [by eapply native_idle|]. cbn in Hi. congruence.
Qed.

Lemma transaction_owned self mode c : owned c → wp (transaction self mode) (λ _, owned) owned c.
Proof.
  intros Ho. unfold transaction. es_step. apply wp_admitted; [|intros; by apply owned_error].
  intros (_ & Hopen & _ & Hp). es_step. es_step. es_step. apply wp_require; [|intros; by apply owned_error].
  intros Hn%bool_decide_eq_true. es_step. apply db_wp_call; [intros; by apply owned_error| |].
  - intros d [] d' Hd Hb. es_step. es_step. apply wp_well, owned_error.
    destruct Ho as [H1 H2 H3 H4]. split; cbn; [by left| |done|done]. rewrite <- H2, Hn. naive_solver.
  - intros d e d' Hd Hb. by eapply begun_owned.
Qed.

Lemma begin_owned self mode c : owned c → wp (begin_guarded_transaction self mode) (λ _, owned) owned c.
Proof.
  intros Ho. unfold begin_guarded_transaction. es_step. apply wp_admitted; [|intros; by apply owned_error].
  intros (_ & Hopen & _ & Hp). es_step. es_step. es_step. apply wp_require; [|intros; by apply owned_error].
  intros Hn%bool_decide_eq_true. es_step. apply db_wp_call; [intros; by apply owned_error| |].
  - intros d [] d' Hd Hb. es_step. es_step. es_step. es_step. apply wp_well, owned_error.
    destruct Ho as [H1 H2 H3 H4]. split; cbn; [by left|split; [lia|done]|by apply next_token_range|done].
  - intros d e d' Hd Hb. by eapply begun_owned.
Qed.

(** The end of a transaction that has an owner. *)
Lemma wp_commit_owned (drop : Connection → Connection) c :
  owned c → transaction_owner c ≠ NoOwner →
  (∀ c', transaction_owner c' = transaction_owner c → owned c' → native_open c' = false → owned (drop c')) →
  wp (_ ← call driver_commit; _ ← modify drop; done_well tt) (λ _, owned) owned c.
Proof.
  intros Ho Hn Hdrop. pose proof (owned_opened _ Ho (or_introl Hn)) as Hopen. es_step. apply db_wp_call; [intros; by apply owned_error| |].
  - intros d [] d' Hd Hc. es_step. es_step. apply wp_well, owned_error, Hdrop; [done|apply owned_driver; auto|].
    by apply commit_law in Hc as [Hi _].
  - intros d e d' Hd Hc. apply owned_error, owned_driver; auto.
Qed.

Lemma wp_rollback_owned (drop : Connection → Connection) c (Q : unit → Connection → Prop) :
  owned c → transaction_owner c ≠ NoOwner →
  (∀ c', transaction_owner c' = transaction_owner c → poisoned c' = poisoned c → owned c' → native_open c' = false →
     Q tt (drop c')) →
  (∀ c', transaction_owner c' = transaction_owner c → owned c' → owned (poison (drop c'))) →
  wp (roll_back drop) Q owned c.
Proof.
  intros Ho Hn Hdrop Hpoison. pose proof (owned_opened _ Ho (or_introl Hn)) as Hopen. apply wp_roll_back.
  - intros _. by apply Hpoison; [|apply owned_error].
  - intros d d' Hd Hr. apply Hdrop; [done|done|apply owned_driver; auto|]. apply rollback_law in Hr as [_ Hi]. by apply Hi.
  - intros d e d' Hd Hr. apply Hpoison; [done|]. apply owned_error, owned_driver; auto.
Qed.

Lemma disown_owned c : owned c → transaction_owner c ≠ Guarded → native_open c = false → owned (disown c).
Proof. intros Ho Hg Hn. apply owned_idle; [done..|by apply token_idle]. Qed.

Lemma disown_poisoned c : owned c → transaction_owner c ≠ Guarded → owned (poison (disown c)).
Proof.
  intros Ho Hg. pose proof (token_idle c Ho Hg) as Ht. destruct Ho as [H1 H2 H3 H4].
  split; cbn; [by right| |done|].
  - rewrite Ht. naive_solver.
  - intros [?|?]; [done|]. apply H4. by right.
Qed.

Lemma commit_owned self c : owned c → wp (commit self) (λ _, owned) owned c.
Proof.
  intros Ho. unfold commit. es_step. apply wp_admitted; [|intros; by apply owned_error]. intros _. es_step.
  apply wp_owned_directly; [|intros; by apply owned_error]. intros Hd. apply wp_commit_owned; [done|by rewrite Hd|].
  intros c' Hc' Ho' Hn. apply disown_owned; [done|congruence|done].
Qed.

Lemma rollback_owned self c : owned c → wp (rollback self) (λ _, owned) owned c.
Proof.
  intros Ho. unfold rollback. es_step. apply wp_admitted; [|intros; by apply owned_error]. intros _. es_step.
  apply wp_owned_directly; [|intros; by apply owned_error]. intros Hd. es_step. apply wp_rollback_owned; [done|by rewrite Hd|..].
  - intros c' Hc' _ Ho' Hn. apply wp_well, owned_error, disown_owned; [done|congruence|done].
  - intros c' Hc' Ho'. apply disown_poisoned; [done|congruence].
Qed.

Lemma owns_guarded token c : owns_guarded_transaction token c = true → transaction_owner c = Guarded ∧ transaction_token c = token.
Proof. unfold owns_guarded_transaction. rewrite !andb_true_iff, bool_decide_eq_true, Z.eqb_eq. naive_solver. Qed.

Lemma commit_guarded_owned self token c : owned c → wp (commit_guarded_transaction self token) (λ _, owned) owned c.
Proof.
  intros Ho. unfold commit_guarded_transaction. es_step. apply wp_admitted; [|intros; by apply owned_error]. intros _. es_step.
  apply wp_owned_by; [|intros; by apply owned_error, owned_released]. intros [Hg _]%owns_guarded.
  apply wp_commit_owned; [done|by rewrite Hg|]. intros c' _ Ho' Hn. by apply owned_idle.
Qed.

Lemma rollback_guarded_owned self token c : owned c → wp (rollback_guarded_transaction self token) (λ _, owned) owned c.
Proof.
  intros Ho. unfold rollback_guarded_transaction. es_step. apply wp_admitted; [|intros; by apply owned_error]. intros _. es_step.
  apply wp_owned_by; [|intros; by apply owned_error, owned_released]. intros [Hg _]%owns_guarded. es_step.
  apply wp_rollback_owned; [done|by rewrite Hg|..].
  - intros c' _ _ Ho' Hn. by apply wp_well, owned_error, owned_idle.
  - intros c' _ Ho'. by apply owned_released.
Qed.

Lemma wp_same {A} (m m' : Db A) Q E c : m c = m' c → wp m' Q E c → wp m Q E c.
Proof. unfold wp. by intros ->. Qed.

(** A connection that is closed has no owner and no transaction. *)
Lemma owned_closed c thread :
  owned c → native_open c = false → owned (release (with_state false false thread c)).
Proof.
  intros [H1 H2 H3 H4] Hn. split; cbn; [|naive_solver|done|]; unfold native_open in *; cbn; [congruence|]. rewrite Hn. naive_solver.
Qed.

Lemma open_owned self c : owned c → wp (open self) (λ _, owned) owned c.
Proof.
  intros Ho. destruct (negb (is_some (driver c))) eqn:Hd.
  { eapply wp_same; [unfold open; rewrite Hd; reflexivity|]. by apply owned_error. }
  destruct (is_opened c) eqn:Hopen.
  { unfold wp, open. rewrite Hd, Hopen.
    destruct (bool_decide (owner_thread c = Some self)); cbn [negb]; [|by apply owned_error].
    destruct (poisoned c); by apply owned_error. }
  assert (Hn : native_open c = false) by (destruct (native_open c) eqn:E; [by rewrite (owned_opened _ Ho (or_intror E)) in Hopen|done]).
  assert (Hown : transaction_owner c = NoOwner).
  { destruct (decide (transaction_owner c = NoOwner)) as [|Hne]; [done|]. by rewrite (owned_opened _ Ho (or_introl Hne)) in Hopen. }
  eapply wp_same; [unfold open; rewrite Hd, Hopen; reflexivity|]. es_step.
  assert (Hdrv : ∀ d d' r, driver c = Some d → driver_open d = (r, d') → in_transaction d' = false).
  { intros d d' r Hdr Hop. apply open_law in Hop as [? _]; [done|]. unfold native_open in Hn. by rewrite Hdr in Hn. }
  destruct Ho as [H1 H2 H3 H4]. apply db_wp_call.
  - intros _. by split.
  - intros d [] d' Hdr Hop. es_step. es_step. apply wp_well. specialize (Hdrv _ _ _ Hdr Hop).
    split; cbn; [|done|done|done]. unfold native_open. cbn. by rewrite Hdrv.
  - intros d e d' Hdr Hop. specialize (Hdrv _ _ _ Hdr Hop). split; cbn; [|done|done|]; unfold native_open; cbn; rewrite Hdrv; naive_solver.
Qed.

(** The native connection is closed, with nothing of the transaction left. *)
Lemma driver_closed_owned c :
  owned c → transaction_owner c ≠ Guarded → (native_open c = true → poisoned c = true) → is_opened c = true →
  wp (_ ← call driver_close; _ ← modify (λ c, release (with_state false false None c)); done_well tt) (λ _, owned) owned c.
Proof.
  intros Ho Hg Hn Hopen. es_step. apply db_wp_call; [intros; by apply owned_error| |].
  - intros d [] d' Hd Hc. es_step. es_step. apply wp_well, owned_error. destruct (close_law _ _ _ Hc) as [_ Hi].
    apply owned_closed; [apply owned_driver; [done..|by rewrite Hi]|done].
  - intros d e d' Hd Hc. apply owned_error, owned_driver; [done..|]. destruct (close_law _ _ _ Hc) as [_ Hi].
    intros Hi'. right. apply Hn. unfold native_open. rewrite Hd. by apply Hi.
Qed.

Lemma close_owned self c : owned c → wp (close self) (λ _, owned) owned c.
Proof.
  intros Ho. unfold wp, close. destruct (negb (is_some (driver c))); [by apply owned_error|].
  destruct (is_opened c && _); [by apply owned_error|]. destruct (negb (query_count c =? 0)%nat); [by apply owned_error|].
  case_bool_decide as Hg; [by apply owned_error|]. destruct (is_opened c) eqn:Hopen; cbn [negb].
  2: { destruct Ho as [H1 H2 H3 H4]. split; cbn; [|done|done|].
    - intros Hn. rewrite H4 in Hopen; [done|by right].
    - intros Hn. rewrite H4 in Hopen; [done|exact Hn]. }
  change (wp (_ ← (if bool_decide (transaction_owner c = Direct) then roll_back disown else mret tt);
     _ ← call driver_close; _ ← modify (λ c, release (with_state false false None c)); done_well tt) (λ _, owned) owned c).
  es_step. case_bool_decide as Hd.
  - apply wp_rollback_owned; [done|by rewrite Hd|..].
    + intros c' Hc' _ Ho' Hn. assert (Hn' : native_open (disown c') = false) by done.
      apply driver_closed_owned; [apply disown_owned; [done|congruence|done]|done|by rewrite Hn'|].
      apply (owned_opened _ Ho'). left. by rewrite Hc', Hd.
    + intros c' Hc' Ho'. apply disown_poisoned; [done|congruence].
  - apply wp_ret, driver_closed_owned; [done..| |done]. intros Hn. destruct (owned_native _ Ho Hn) as [Hne|]; [|done].
    by destruct (transaction_owner c).
Qed.

Lemma perform_owned self r c : owned c → wp (perform self r) (λ _, owned) owned c.
Proof.
  intros Ho. destruct r; cbn [perform]; auto using open_owned, close_owned, transaction_owned, commit_owned, rollback_owned,
    commit_guarded_owned, rollback_guarded_owned.
  es_step. eapply wp_mono; [| |by apply begin_owned]; [|done]. intros token c' Hc'. by es_step.
Qed.

(** ** A guarded transaction is atomic *)

(** Everything but the working copy is as it was. *)
Record same_hold c c' : Prop := {
  hold_kept : kept c' = kept c;
  hold_owner : transaction_owner c' = transaction_owner c;
  hold_token : transaction_token c' = transaction_token c;
  hold_opened : is_opened c' = is_opened c;
  hold_thread : owner_thread c' = owner_thread c;
  hold_poisoned : poisoned c' = poisoned c }.

#[local] Instance same_hold_preorder : PreOrder same_hold.
Proof. split; [done|]. intros c1 c2 c3 [] []. split; congruence. Qed.

(** Work that stays inside the transaction it is given. *)
Definition confined {A} (body : Db A) : Prop :=
  ∀ c, native_open c = true → wp body (λ _ c', same_hold c c' ∧ native_open c' = true) (same_hold c) c.

Lemma confined_ret {A} (v : A) : confined (mret v).
Proof. intros c Hn. by apply wp_ret. Qed.
Lemma confined_throw {A} e : confined (throw e : Db A).
Proof. intros c Hn. by apply wp_throw. Qed.
Lemma confined_bind {A B} (m : Db A) (k : A → Db B) : confined m → (∀ v, confined (k v)) → confined (m ≫= k).
Proof.
  intros Hm Hk c Hn. es_step. eapply wp_mono; [| |by apply Hm]; [|done]. intros v c1 [H1 Hn1].
  eapply wp_mono; [| |by apply Hk].
  - intros u c2 [H2 ?]. split; [by etransitivity|done].
  - intros c2 H2. by etransitivity.
Qed.

Definition idle c : Prop := transaction_owner c = NoOwner ∧ native_open c = false.

Lemma guarded_owns token c :
  transaction_owner c = Guarded → transaction_token c = token → token ≠ 0 → owns_guarded_transaction token c = true.
Proof.
  intros Hg Ht Hz. unfold owns_guarded_transaction. rewrite Hg, Ht, Z.eqb_refl, bool_decide_true by done.
  by rewrite (proj2 (Z.eqb_neq _ _) Hz).
Qed.

Lemma same_usable self c c' : same_hold c c' → usable self c → usable self c'.
Proof.
  intros [Hk _ _ Ho Ht Hp] (Hd & ? & ? & ?). split_and!; [|congruence..]. unfold kept in Hk.
  destruct (driver c), (driver c'); done.
Qed.

(** What the commit of a guard leaves. *)
Lemma guard_committed self token c r g c' :
  usable self c → transaction_owner c = Guarded → transaction_token c = token → token ≠ 0 → native_open c = true →
  guard_commit self (Some token) c = (r, g, c') →
  match r with
  | success _ => g = None ∧ kept c' = pending c ∧ idle c'
  | failure _ => g = Some token ∧ same_hold c c'
  end.
Proof.
  intros Hu Hg Ht Hz Hn. pose proof (guarded_owns _ _ Hg Ht Hz) as Hown. unfold guard_commit, settle_guard.
  cut (wp (commit_guarded_transaction self token) (λ _ c', kept c' = pending c ∧ idle c') (same_hold c) c).
  { unfold wp. destruct (commit_guarded_transaction self token c) as [[[]|e] c1]; intros Hw [= <- <- <-].
    - split; [|done]. destruct Hw as [_ [Hno _]]. unfold owns_guarded_transaction. rewrite Hno, bool_decide_false by done.
      by rewrite andb_false_r.
    - split; [|done]. destruct Hw as [_ Hg' Ht' _ _ _]. rewrite (guarded_owns token); [done|congruence..]. }
  unfold commit_guarded_transaction. es_step.
  unfold wp at 1, admitted. rewrite (proj2 (operation_usable self c) Hu). es_step.
  apply wp_owned_by; [|congruence]. intros _. es_step. apply db_wp_call.
  - intros Hd. destruct Hu as [Hd' _]. by rewrite Hd in Hd'.
  - intros d [] d' Hd Hc. es_step. es_step. apply wp_well. apply commit_law in Hc as [Hi Hk]. unfold native_open in Hn.
    rewrite Hd in Hn. unfold kept, pending, idle, native_open. cbn. by rewrite Hd, Hi, Hk.
  - intros d e d' Hd Hc. apply commit_law in Hc. split; try done. unfold kept. cbn. by rewrite Hd, Hc.
Qed.

(** What the destruction of a guard leaves. *)
Lemma guard_destroyed self token c :
  usable self c → transaction_owner c = Guarded → transaction_token c = token → token ≠ 0 →
  let c' := guard_destroy self (Some token) c in
  kept c' = kept c ∧ transaction_owner c' = NoOwner ∧ (poisoned c' = true ∨ native_open c' = false).
Proof.
  intros Hu Hg Ht Hz. cbv zeta. unfold guard_destroy, guard_rollback, settle_guard.
  pose proof (guarded_owns _ _ Hg Ht Hz) as Hown.
  cut (wp (rollback_guarded_transaction self token)
    (λ _ c', kept c' = kept c ∧ transaction_owner c' = NoOwner ∧ (poisoned c' = true ∨ native_open c' = false))
    (λ c', kept c' = kept c ∧ transaction_owner c' = NoOwner ∧ (poisoned c' = true ∨ native_open c' = false)) c).
  { unfold wp. destruct (rollback_guarded_transaction self token c) as [[] c']; done. }
  unfold rollback_guarded_transaction. es_step.
  unfold wp at 1, admitted. rewrite (proj2 (operation_usable self c) Hu). es_step.
  apply wp_owned_by; [|congruence]. intros _. es_step. apply wp_roll_back.
  - intros Hd. cbn. auto.
  - intros d d' Hd Hr. apply wp_well. destruct (rollback_law _ _ _ Hr) as [Hk Hi]. cbn. unfold kept, native_open. cbn.
    rewrite Hd, Hk, Hi by done. auto.
  - intros d e d' Hd Hr. destruct (rollback_law _ _ _ Hr) as [Hk _]. cbn. unfold kept. cbn. rewrite Hd, Hk. auto.
Qed.

(** A transaction begins. *)
Lemma guard_begun self mode c r c1 :
  owned c → usable self c → idle c → guard_begin self mode c = (r, c1) →
  match r with
  | success g => ∃ token, g = Some token ∧ token ≠ 0 ∧ owned c1 ∧ usable self c1 ∧ kept c1 = kept c ∧ native_open c1 = true ∧
      transaction_owner c1 = Guarded ∧ transaction_token c1 = token
  | failure _ => kept c1 = kept c ∧ idle c1
  end.
Proof.
  intros Ho Hu [Hn Hi]. pose proof Hu as (Hdr & Hopen & Hth & Hp).
  assert (Hwp : wp (guard_begin self mode)
    (λ g c1, ∃ token, g = Some token ∧ token ≠ 0 ∧ usable self c1 ∧ kept c1 = kept c ∧ native_open c1 = true ∧
      transaction_owner c1 = Guarded ∧ transaction_token c1 = token) (λ c1, kept c1 = kept c ∧ idle c1) c).
  { unfold guard_begin, begin_guarded_transaction. es_step. es_step.
    unfold wp at 1, admitted. rewrite (proj2 (operation_usable self c) Hu). es_step. es_step. es_step.
    apply wp_require; [|intros Hb%bool_decide_eq_false; congruence]. intros _. es_step. apply db_wp_call.
    - intros Hd. by rewrite Hd in Hdr.
    - intros d [] d' Hd Hb. destruct (begin_law _ _ _ _ Hb) as [Hk Hi']; [unfold native_open in Hi; by rewrite Hd in Hi|].
      es_step. es_step. es_step. es_step. apply wp_well. es_step. eexists. split; [done|]. pose proof (owned_next _ Ho).
      split_and!; cbn; [lia|by split_and!| |done|done|done]. unfold kept. cbn. by rewrite Hd, Hk.
    - intros d e d' Hd Hb. destruct (begin_law _ _ _ _ Hb) as [Hk Hi']; [unfold native_open in Hi; by rewrite Hd in Hi|].
      unfold kept, idle, native_open. cbn. rewrite Hd, Hk. done. }
  intros Hb. assert (Hown : owned c1).
  { pose proof (begin_owned self mode c Ho) as Hw. unfold guard_begin, mbind, ES_bind in Hb. unfold wp in Hw.
    destruct (begin_guarded_transaction self mode c) as [[token|e] c2]; injection Hb as <- <-; done. }
  unfold wp in Hwp. rewrite Hb in Hwp. destruct r; [|done]. destruct Hwp as (token & ? & ? & ?). exists token. naive_solver.
Qed.


(** Over any requests to the connection, from any threads, in any order
    and with any tokens: a transaction that the backend has open always has an
    owner, unless the connection is unusable; and a guard that asks to end a
    transaction that is not its own is refused, ends nothing, and leaves the
    connection unusable. *)
Theorem ownership_kept c c' :
  owned c → rtc (λ c1 c2, ∃ self r x, perform self r c1 = (x, c2)) c c' →
  (native_open c' = true → transaction_owner c' ≠ NoOwner ∨ poisoned c' = true) ∧
  ∀ self token, usable self c' → owns_guarded_transaction token c' = false →
    ∃ c'', commit_guarded_transaction self token c' = (failure owner_mismatch, c'') ∧
      rollback_guarded_transaction self token c' = (failure owner_mismatch, c'') ∧
      driver c'' = driver c' ∧ poisoned c'' = true.
Proof.
  intros Ho Hs. assert (Ho' : owned c').
  { induction Hs as [|c c1 c' (self & r & x & Hp) _ IH]; [done|]. apply IH. pose proof (perform_owned self r c Ho) as Hw.
    unfold wp in Hw. rewrite Hp in Hw. by destruct x. }
  split; [apply Ho'|]. intros self token Hu Hno. apply operation_usable in Hu.
  exists (with_error (Some owner_mismatch) (poison (release c'))).
  unfold commit_guarded_transaction, rollback_guarded_transaction, mbind, ES_bind, admitted. rewrite Hu.
  unfold owned_by. rewrite Hno. done.
Qed.

(** ** Queries *)

(** Work of a query inside the transaction. *)
Definition query_confined {A} (m : ES (Query * Connection) A) : Prop :=
  ∀ s, native_open s.2 = true →
    wp m (λ _ s', same_hold s.2 s'.2 ∧ native_open s'.2 = true) (λ s', same_hold s.2 s'.2) s.

Lemma qc_ret {A} (v : A) : query_confined (mret v).
Proof. intros s Hn. by apply wp_ret. Qed.
Lemma qc_bind {A B} (m : ES (Query * Connection) A) (k : A → ES (Query * Connection) B) :
  query_confined m → (∀ v, query_confined (k v)) → query_confined (m ≫= k).
Proof.
  intros Hm Hk s Hn. es_step. eapply wp_mono; [| |by apply Hm]; [|done]. intros v s1 [H1 Hn1].
  eapply wp_mono; [| |by apply Hk].
  - intros u s2 [H2 ?]. split; [by etransitivity|done].
  - intros s2 H2. by etransitivity.
Qed.
Lemma qc_gets {A} (f : Query * Connection → A) : query_confined (gets f).
Proof. intros s Hn. by apply wp_gets. Qed.
Lemma qc_on_query f : query_confined (on_query f).
Proof. intros s Hn. by apply wp_modify. Qed.
Lemma qc_refuse {A} e : query_confined (refuse e : ES (Query * Connection) A).
Proof. intros s Hn. done. Qed.
Lemma qc_well {A} (v : A) : query_confined (finished_well v).
Proof. intros s Hn. done. Qed.
Lemma qc_require b e : query_confined (require_query b e).
Proof. destruct b; [apply qc_ret|apply qc_refuse]. Qed.
Lemma qc_admitted self : query_confined (query_admitted self).
Proof. intros s Hn. unfold wp, query_admitted. by destruct (operation_error _ _). Qed.
Lemma qc_prepared : query_confined prepared.
Proof. intros s Hn. unfold wp, prepared. by destruct (the_statement _). Qed.

(** A call of the backend that keeps to the transaction. *)
Definition native_confined {A} (m : ES Native A) : Prop :=
  ∀ d r d', m d = (r, d') → in_transaction d = true →
    durable d' = durable d ∧ (is_success r = true → in_transaction d' = true).

Lemma qc_statement {A} recover (m : ES Native A) : native_confined m → query_confined (statement recover m).
Proof.
  intros Hm s Hn. unfold wp, statement. unfold native_open in Hn. destruct (driver s.2) as [d|] eqn:Hd; [|done].
  destruct (m d) as [[v|e] d'] eqn:Hmd; destruct (Hm _ _ _ Hmd Hn) as [Hk Hi]; cbn in *.
  - split; [|by apply Hi]. split; try done. unfold kept. cbn. by rewrite Hd, Hk.
  - split; try done. unfold kept. cbn. by rewrite Hd, Hk.
Qed.

Lemma discard_hold handle c : same_hold c (discard handle c) ∧ native_open (discard handle c) = native_open c.
Proof.
  unfold discard. destruct handle as [h|]; [|done]. destruct (driver c) as [d|] eqn:Hd; [|done].
  destruct (clear_law h d) as [Hk Hi]. split; [split; try done|]; unfold kept, native_open; cbn; by rewrite Hd, ?Hk, ?Hi.
Qed.

Lemma qc_discard (f : Query → Query) (g : Query → option nat) :
  query_confined (modify (λ s, (f s.1, discard (g s.1) s.2))).
Proof.
  intros s Hn. apply wp_modify. cbn. destruct (discard_hold (g s.1) s.2) as [Hs Hi]. by rewrite Hi.
Qed.

(** The work depends on the query it is given. *)
Lemma qc_case {A} (b : Query → bool) (m1 m2 : Query → ES (Query * Connection) A) :
  (∀ q, query_confined (m1 q)) → (∀ q, query_confined (m2 q)) →
  query_confined (λ s, if b s.1 then m1 s.1 s else m2 s.1 s).
Proof. intros H1 H2 s Hn. unfold wp. destruct (b s.1); [by apply H1|by apply H2]. Qed.

Lemma qc_prepare h text :
  query_confined (λ s, match statement id (query_prepare h text) s with
                       | (success _, s) => (success tt, s)
                       | (failure e, s) => (failure e, (s.1, discard (Some h) s.2))
                       end).
Proof.
  intros s Hn. pose proof (qc_statement id (query_prepare h text) (prepare_law h text) s Hn) as Hw. unfold wp in *.
  destruct (statement id (query_prepare h text) s) as [[v|e] s1]; [done|]. cbn.
  etransitivity; [exact Hw|exact (proj1 (discard_hold (Some h) s1.2))].
Qed.

Create HintDb confined.
#[local] Hint Resolve qc_ret qc_gets qc_on_query qc_refuse qc_well qc_require qc_admitted qc_prepared qc_prepare : confined.
#[local] Hint Extern 1 (query_confined (modify _)) => apply (qc_discard (λ q, with_query_error (query_error q) new_query) driver_query) : confined.
#[local] Hint Extern 1 (query_confined (statement _ _)) =>
  apply qc_statement; first [exact create_law|exact (finish_law _)|exact (exec_law _)|exact (next_law _)|exact (bind_law _ _ _)] : confined.
#[local] Hint Extern 2 (query_confined (_ ≫= _)) => apply qc_bind; [|intros] : confined.
#[local] Hint Extern 2 (query_confined (if ?b then _ else _)) => destruct b : confined.
#[local] Hint Extern 2 (query_confined (match ?x with _ => _ end)) => destruct x : confined.

Lemma qc_finish self : query_confined (finish self).
Proof.
  apply (qc_case (λ q, negb (active q)) (λ _, finished_well tt) (λ q,
    _ ← query_admitted self;
    _ ← match driver_query q with Some h => statement id (query_finish h) | None => mret tt end;
    _ ← on_query reset_execution;
    finished_well tt)); intros q; auto 12 with confined.
Qed.
#[local] Hint Resolve qc_finish : confined.

Lemma qc_finish_active self : query_confined (finish_active self).
Proof. intros s Hn. unfold wp, finish_active. destruct (active s.1); [by apply qc_finish|done]. Qed.
#[local] Hint Resolve qc_finish_active : confined.

Lemma qc_prepare_query self text : query_confined (prepare self text).
Proof. unfold prepare. auto 20 with confined. Qed.
Lemma qc_exec self : query_confined (exec self).
Proof. unfold exec. auto 20 with confined. Qed.
Lemma qc_bind_slot self mode h position v : query_confined (bind_slot self mode h position v).
Proof. unfold bind_slot. auto 20 with confined. Qed.
#[local] Hint Resolve qc_prepare_query qc_exec qc_bind_slot : confined.
Lemma qc_bind_value self position v : query_confined (bind_value self position v).
Proof. unfold bind_value. auto 20 with confined. Qed.
Lemma qc_bind_named self placeholder v : query_confined (bind_named self placeholder v).
Proof. unfold bind_named. auto 20 with confined. Qed.
#[local] Hint Resolve qc_bind_value : confined.
Lemma qc_add_bind_value self v : query_confined (add_bind_value self v).
Proof. unfold add_bind_value. auto 20 with confined. Qed.
Lemma qc_next self : query_confined (next self).
Proof. unfold next. auto 20 with confined. Qed.
Lemma qc_exec_sql self text : query_confined (exec_sql self text).
Proof. unfold exec_sql. auto 20 with confined. Qed.

(** A query inside the work of a guard keeps to its transaction. *)
Lemma with_query_confined {A} (m : ES (Query * Connection) A) : query_confined m → confined (with_query m).
Proof.
  intros Hm c Hn. specialize (Hm (create c) Hn). unfold wp, with_query in *.
  assert (Hd : ∀ s, same_hold s.2 (destroy s) ∧ native_open (destroy s) = native_open s.2).
  { intros s. destruct (discard_hold (driver_query s.1) s.2) as [[] Hi]. by split. }
  destruct (m (create c)) as [[v|e] s]; destruct (Hd s) as [Hs Hi].
  - destruct Hm as [Hm Hn']. split; [|by rewrite Hi]. etransitivity; [|exact Hs]. by destruct Hm; split.
  - etransitivity; [|exact Hs]. by destruct Hm; split.
Qed.

(** *** What a query is *)

Record query_ok (q : Query) : Prop := {
  ok_bindings : length (bindings q) = length (parameter_names q);
  ok_active : active q = true → is_some (the_statement q) = true ∧ forallb is_some (bindings q) = true;
  ok_cursor : valid q = true → active q = true ∧ select q = true ∧ at_end q = false }.

(** The operations of a query, in any order. *)
Inductive query_call :=
  | QPrepare (text : bytes) | QExec | QExecSql (text : bytes) | QBind (position : nat) (v : Value)
  | QBindNamed (placeholder : bytes) (v : Value) | QAddBind (v : Value) | QNext | QFinish.

Definition perform_query (self : nat) (q : query_call) : ES (Query * Connection) unit :=
  match q with
  | QPrepare text => prepare self text
  | QExec => exec self
  | QExecSql text => exec_sql self text
  | QBind position v => bind_value self position v
  | QBindNamed placeholder v => bind_named self placeholder v
  | QAddBind v => add_bind_value self v
  | QNext => _ ← next self; mret tt
  | QFinish => finish self
  end.

(** [P] of the query is kept, and [Q] holds of it after a success. *)
Definition keeps {A} (P : Query → Prop) (m : ES (Query * Connection) A) (Q : A → Query → Prop) : Prop :=
  ∀ s, P s.1 → wp m (λ v s', Q v s'.1) (λ s', query_ok s'.1) s.

Lemma db_keeps_bind {A B} P (m : ES (Query * Connection) A) (k : A → ES (Query * Connection) B) R Q :
  keeps P m R → (∀ v, keeps (R v) (k v) Q) → keeps P (m ≫= k) Q.
Proof.
  intros Hm Hk s Hs. es_step. eapply wp_mono; [| |by apply Hm]; [|done]. intros v s1 H1. by apply Hk.
Qed.

Lemma query_ok_error e q : query_ok q → query_ok (with_query_error e q).
Proof. by intros []; split. Qed.
Lemma query_ok_reset q : query_ok q → query_ok (reset_execution q).
Proof. by intros []; split. Qed.
Lemma query_ok_new e : query_ok (with_query_error e new_query).
Proof. by split. Qed.

Lemma keeps_refuse {A} P e (Q : A → Query → Prop) : (∀ q, P q → query_ok q) → keeps P (refuse e) Q.
Proof. intros HP s Hs. by apply query_ok_error, HP. Qed.
Lemma keeps_well {A} (v : A) : keeps query_ok (finished_well v) (λ _, query_ok).
Proof. intros s Hs. by apply query_ok_error. Qed.
Lemma keeps_admitted P self : (∀ q, P q → query_ok q) → keeps P (query_admitted self) (λ _, P).
Proof.
  intros HP s Hs. unfold wp, query_admitted. destruct (operation_error _ _); [by apply query_ok_error, HP|done].
Qed.
Lemma keeps_require P b e : (∀ q, P q → query_ok q) → keeps P (require_query b e) (λ _ q, P q ∧ b = true).
Proof. intros HP. destruct b; [by intros s Hs|]. by apply keeps_refuse. Qed.
Lemma keeps_prepared P : (∀ q, P q → query_ok q) → keeps P prepared (λ h q, P q ∧ the_statement q = Some h).
Proof.
  intros HP s Hs. unfold wp, prepared. destruct (the_statement s.1) eqn:E; [done|by apply query_ok_error, HP].
Qed.
Lemma keeps_on_query P f (Q : Query → Prop) : (∀ q, P q → Q (f q)) → keeps P (on_query f) (λ _, Q).
Proof. intros HQ s Hs. by apply HQ. Qed.
Lemma keeps_statement {A} P recover (m : ES Native A) (Q : A → Query → Prop) :
  (∀ q, P q → query_ok q) → (∀ q, P q → query_ok (recover q)) → (∀ v q, P q → Q v q) → keeps P (statement recover m) Q.
Proof.
  intros HP Hr HQ s Hs. unfold wp, statement. destruct (driver s.2) as [d|]; [|by apply query_ok_error, HP].
  destruct (m d) as [[v|e] d']; [by apply HQ|by apply query_ok_error, Hr].
Qed.
Lemma db_keeps_gets {A} P (f : Query → A) : keeps P (gets (λ s, f s.1)) (λ v q, P q ∧ v = f q).
Proof. by intros s Hs. Qed.

Lemma keeps_finish_active self (P : Query → Prop) :
  (∀ q, P q → query_ok q) → (∀ q, P q → active q = true → P (with_query_error None (reset_execution q))) →
  keeps P (finish_active self) (λ _ q, P q ∧ active q = false).
Proof.
  intros HP Hr s Hs. unfold wp, finish_active. destruct (active s.1) eqn:Ha; [|done]. unfold finish. rewrite Ha. cbn [negb].
  assert (Hk : keeps (λ q, q = s.1) (_ ← query_admitted self;
     _ ← match driver_query s.1 with Some h => statement id (query_finish h) | None => mret tt end;
     _ ← on_query reset_execution; finished_well tt) (λ _ q, P q ∧ active q = false)).
  { assert (HP' : ∀ q, q = s.1 → query_ok q) by (intros q ->; by apply HP).
    eapply db_keeps_bind; [by apply keeps_admitted|]. intros [].
    eapply (db_keeps_bind _ _ _ (λ _ q, q = s.1)).
    { destruct (driver_query s.1); [by apply keeps_statement|by intros s' Hs']. }
    intros []. eapply (db_keeps_bind _ _ _ (λ _ q, q = reset_execution s.1)); [apply keeps_on_query; by intros q ->|].
    intros [] s' Hs'. cbn. rewrite Hs'. split; [|done]. by apply Hr. }
  by apply Hk.
Qed.

Lemma keeps_weaken {A} (P P' : Query → Prop) (m : ES (Query * Connection) A) (Q : A → Query → Prop) :
  (∀ q, P q → P' q) → keeps P' m Q → keeps P m Q.
Proof. intros HP Hm s Hs. by apply Hm, HP. Qed.

Lemma keeps_finish self : keeps query_ok (finish self) (λ _, query_ok).
Proof.
  intros s Hs. destruct (active s.1) eqn:Ha.
  - pose proof (keeps_finish_active self query_ok) as Hk. unfold keeps, wp, finish_active in Hk. specialize (Hk ltac:(done)).
    specialize (Hk ltac:(intros q Hq _; by apply query_ok_error, query_ok_reset) s Hs). rewrite Ha in Hk. unfold wp.
    destruct (finish self s) as [[] s']; [by destruct Hk|done].
  - unfold wp, finish. rewrite Ha. by apply query_ok_error.
Qed.

Lemma keeps_prepare self text : keeps query_ok (prepare self text) (λ _, query_ok).
Proof.
  unfold prepare. eapply db_keeps_bind; [by apply keeps_admitted|]. intros [].
  eapply db_keeps_bind; [by apply keeps_require|]. intros [].
  eapply db_keeps_bind.
  { eapply (keeps_weaken _ (λ q, query_ok q ∧ text ≠ [])), keeps_finish_active; [|naive_solver|].
    - intros q [Hq Ht%negb_true_iff%bool_decide_eq_false]. done.
    - intros q [Hq Ht] _. split; [|done]. by apply query_ok_error, query_ok_reset. }
  intros []. eapply (db_keeps_bind _ _ _ (λ _ q, text ≠ [] ∧ ∃ e, q = with_query_error e new_query)).
  { intros s [[_ Ht] _]. split; [done|]. by eexists. }
  assert (Hnew : ∀ q, text ≠ [] ∧ (∃ e, q = with_query_error e new_query) → query_ok q)
    by (intros q (_ & e & ->); apply query_ok_new).
  intros []. eapply (db_keeps_bind _ _ _ (λ _ q, text ≠ [] ∧ ∃ e, q = with_query_error e new_query)); [by apply keeps_statement|].
  intros h. eapply (db_keeps_bind _ _ _ (λ _ q, text ≠ [] ∧ ∃ e, q = with_query_error e new_query)).
  { intros s Hs. pose proof (keeps_statement _ id (query_prepare h text) (λ _ q, text ≠ [] ∧ ∃ e, q = with_query_error e new_query)
      Hnew Hnew ltac:(done) s Hs) as Hw. unfold wp in *. destruct (statement id (query_prepare h text) s) as [[] s']; done. }
  intros []. eapply (db_keeps_bind _ _ _ (λ _ q, text ≠ [] ∧ ∃ e, q = with_query_error e new_query)); [by intros s Hs|].
  intros names. eapply (db_keeps_bind _ _ _ (λ _, query_ok)); [apply keeps_on_query|intros []; apply keeps_well].
  intros q (Ht & e & ->). split; cbn; [by rewrite length_replicate|done|done].
Qed.

(** The query without its cursor still has its statement. *)
Lemma statement_reset h q e :
  query_ok q ∧ the_statement q = Some h →
  query_ok (with_query_error e (reset_execution q)) ∧ the_statement (with_query_error e (reset_execution q)) = Some h.
Proof. intros [Hq Ht]. split; [by apply query_ok_error, query_ok_reset|done]. Qed.

Lemma keeps_exec self : keeps query_ok (exec self) (λ _, query_ok).
Proof.
  unfold exec. eapply db_keeps_bind; [by apply keeps_admitted|]. intros []. eapply db_keeps_bind; [by apply keeps_prepared|]. intros h.
  eapply db_keeps_bind; [apply keeps_finish_active; [naive_solver|intros q Hq _; by apply statement_reset]|]. intros [].
  eapply db_keeps_bind; [apply (db_keeps_gets _ bindings)|]. intros values. eapply db_keeps_bind; [apply keeps_require; naive_solver|].
  intros []. eapply (db_keeps_bind _ _ _ (λ _ q, query_ok q ∧ the_statement q = Some h ∧ forallb is_some (bindings q) = true)).
  { apply keeps_statement; [naive_solver|..].
    - intros q [[[[Hq _] _] _] _]. by apply query_ok_reset.
    - intros info q [[[[Hq Ht] _] ->] Hb]. done. }
  intros info. eapply (db_keeps_bind _ _ _ (λ _, query_ok)); [apply keeps_on_query|intros []; apply keeps_well].
  intros q (Hq & Ht & Hb). split; cbn; [apply Hq| |done]. intros _. split; [|done]. unfold the_statement in *. cbn. by rewrite Ht.
Qed.

Lemma keeps_bind_slot self mode h position v :
  keeps (λ q, query_ok q ∧ the_statement q = Some h) (bind_slot self mode h position v) (λ _, query_ok).
Proof.
  unfold bind_slot. eapply db_keeps_bind; [apply keeps_finish_active; [naive_solver|intros q Hq _; by apply statement_reset]|].
  assert (Hset : ∀ q o, query_ok q → active q = false → query_ok (with_bindings mode (<[position := o]> (bindings q)) q)).
  { intros q o [H1 H2 H3] Ha. split; cbn; [by rewrite length_insert|congruence|done]. }
  intros []. eapply (db_keeps_bind _ _ _ (λ _ q, query_ok q ∧ active q = false)).
  { apply keeps_on_query. intros q [[Hq _] Ha]. split; [by apply Hset|done]. }
  intros []. eapply (db_keeps_bind _ _ _ (λ _, query_ok)); [|intros []; apply keeps_well].
  apply keeps_statement; [naive_solver| |naive_solver]. intros q [Hq Ha]. by apply Hset.
Qed.

Lemma keeps_bind_value self position v : keeps query_ok (bind_value self position v) (λ _, query_ok).
Proof.
  unfold bind_value. eapply db_keeps_bind; [by apply keeps_admitted|]. intros []. eapply db_keeps_bind; [by apply keeps_prepared|].
  intros h. eapply db_keeps_bind; [apply (db_keeps_gets _ id)|]. intros q0. eapply db_keeps_bind; [apply keeps_require; naive_solver|].
  intros []. eapply db_keeps_bind; [apply keeps_require; naive_solver|]. intros [].
  eapply keeps_weaken, keeps_bind_slot. naive_solver.
Qed.

Lemma keeps_bind_named self placeholder v : keeps query_ok (bind_named self placeholder v) (λ _, query_ok).
Proof.
  unfold bind_named. eapply db_keeps_bind; [by apply keeps_admitted|]. intros []. eapply db_keeps_bind; [by apply keeps_prepared|].
  intros h. eapply db_keeps_bind; [apply (db_keeps_gets _ id)|]. intros q0. eapply db_keeps_bind; [apply keeps_require; naive_solver|].
  intros []. eapply db_keeps_bind; [apply keeps_require; naive_solver|]. intros [].
  destruct (find_name _ _ _) as [position|]; [|apply keeps_refuse; naive_solver].
  eapply keeps_weaken, keeps_bind_slot. naive_solver.
Qed.

Lemma keeps_add_bind_value self v : keeps query_ok (add_bind_value self v) (λ _, query_ok).
Proof.
  unfold add_bind_value. eapply db_keeps_bind; [by apply keeps_admitted|]. intros []. eapply db_keeps_bind; [by apply keeps_prepared|].
  intros h. eapply db_keeps_bind; [apply (db_keeps_gets _ id)|]. intros q0. eapply db_keeps_bind; [apply keeps_require; naive_solver|].
  intros []. destruct (unbound_from _ _ _) as [position|]; [|apply keeps_refuse; naive_solver].
  eapply db_keeps_bind; [eapply keeps_weaken, keeps_bind_value; naive_solver|]. intros []. apply keeps_on_query.
  intros q []. by split.
Qed.

Lemma keeps_next self : keeps query_ok (_ ← next self; mret tt) (λ _, query_ok).
Proof.
  eapply (db_keeps_bind _ _ _ (λ _, query_ok)); [|by intros _ s Hs].
  unfold next. eapply db_keeps_bind; [by apply keeps_admitted|]. intros []. eapply db_keeps_bind; [apply (db_keeps_gets _ id)|]. intros q0.
  destruct (driver_query q0) as [h|]; [|apply keeps_refuse; naive_solver].
  eapply db_keeps_bind; [apply keeps_require; naive_solver|]. intros []. destruct (at_end q0); [eapply keeps_weaken, keeps_well; naive_solver|].
  eapply (db_keeps_bind _ _ _ (λ _ q, query_ok q ∧ active q = true ∧ select q = true)).
  { apply keeps_statement; [naive_solver|..].
    - intros q [[[] _] _]. by split.
    - intros v q [[Hq ->] [Ha Hs]%andb_true_iff]. done. }
  intros [record|]; (eapply (db_keeps_bind _ _ _ (λ _, query_ok)); [apply keeps_on_query|intros []; apply keeps_well]);
    intros q ([] & Ha & Hs); by split.
Qed.

(** Queries are well formed, whatever is asked of them and whatever the
    backend answers: a query that is active has a prepared statement and a
    value for each of its parameters, and a record can be read only when the
    cursor of an active selection stands on one. *)
Theorem queries_well_formed s s' :
  query_ok s.1 → rtc (λ s1 s2, ∃ self q r, perform_query self q s1 = (r, s2)) s s' → query_ok s'.1.
Proof.
  intros Hs Hr. induction Hr as [|s s1 s' (self & q & r & Hp) _ IH]; [done|]. apply IH.
  assert (Hk : keeps query_ok (perform_query self q) (λ _, query_ok)).
  { destruct q; cbn [perform_query]; auto using keeps_prepare, keeps_exec, keeps_bind_value, keeps_bind_named,
      keeps_add_bind_value, keeps_next, keeps_finish. eapply db_keeps_bind; [apply keeps_prepare|]. intros []. apply keeps_exec. }
  specialize (Hk s Hs). unfold wp in Hk. rewrite Hp in Hk. by destruct r.
Qed.

End Safety.

(** ** A backend in memory *)

Module Memory.

(** A number, its copy in the transaction, and whether there is one.  The
    statement adds its parameter; the statement "!" fails. *)
Record memory := mkMemory { stored : Z; copy : Z; running : bool; statement_text : bytes; argument : Z }.

#[global] Instance driver_memory : Driver := {|
  Native := memory;
  driver_open d := (success tt, d);
  driver_close d := (success tt, mkMemory (stored d) (stored d) false [] 0);
  driver_is_open _ := true;
  driver_begin _ d := (success tt, mkMemory (stored d) (stored d) true [] 0);
  driver_commit d := (success tt, mkMemory (if running d then copy d else stored d) (copy d) false [] 0);
  driver_rollback d := (success tt, mkMemory (stored d) (stored d) false [] 0);
  create_query d := (success 0%nat, d);
  query_prepare _ text d := (success tt, mkMemory (stored d) (copy d) (running d) text 0);
  query_parameters _ d := if bytes_eqb (statement_text d) bs!"!" then [] else [bs!":n"];
  query_bind _ _ v d :=
    (success tt, mkMemory (stored d) (copy d) (running d) (statement_text d) match v with VInteger i => i | _ => 0 end);
  query_exec _ d :=
    if bytes_eqb (statement_text d) bs!"!" then (failure (invalid_query "!"), d)
    else (success (mkExecution false 1 []), mkMemory (stored d) (copy d + argument d) (running d) (statement_text d) (argument d));
  query_next _ d := (success None, d);
  query_finish _ d := (success tt, d);
  query_clear _ d := d |}.

#[global] Instance contract_memory : DriverContract.
Proof.
  apply (@Build_DriverContract driver_memory Z stored copy running); cbn; intros; simplify_eq; auto.
  - split; [done|]. cbn. by intros ->.
  - destruct (bytes_eqb _ _); by simplify_eq.
Defined.

Definition connected : Connection := mkConnection (Some (mkMemory 5 0 false [] 0)) None (Some 1%nat) 0 NoOwner 0 1 true false.

(** Adds to the number in a transaction, and fails afterwards if asked to. *)
Definition add (n : Z) : ES Connection unit := with_query (_ ← prepare 1 bs!"+"; _ ← add_bind_value 1 (VInteger n); exec 1).
Definition work (broken : bool) : ES Connection unit :=
  _ ← add 7; if broken then with_query (exec_sql 1 bs!"!") else mret tt.

Lemma work_confined broken : confined (work broken).
Proof.
  apply confined_bind.
  - apply with_query_confined, qc_bind; [apply qc_prepare_query|]. intros _. apply qc_bind; [apply qc_add_bind_value|].
    intros _. apply qc_exec.
  - intros _. destruct broken; [apply with_query_confined, qc_exec_sql|apply confined_ret].
Qed.

Lemma connected_owned : owned connected.
Proof. split; cbn; [done|done|done|by intros [?|?]]. Qed.

Definition attempt (broken : bool) : result Error unit * Connection := guarded 1 Immediate (work broken) connected.


(** A transaction is begun; a stale guard asks to commit it. *)
Definition begun : Connection := (perform 1 (RBegin Immediate) connected).2.

Lemma ownership_kept_witness :
  transaction_owner begun = Guarded ∧
  ∃ c, commit_guarded_transaction 1 9 begun = (failure owner_mismatch, c) ∧ poisoned c = true.
Proof.
  split; [reflexivity|].
  destruct (ownership_kept connected begun) as [_ Hno].
  - apply connected_owned.
  - apply rtc_once. exists 1%nat, (RBegin Immediate), (perform 1 (RBegin Immediate) connected).1.
    exact (surjective_pairing (perform 1 (RBegin Immediate) connected)).
  - destruct (Hno 1%nat 9) as (c & Hc & _ & _ & Hp); [split_and!; reflexivity|reflexivity|]. exists c. split; [exact Hc|exact Hp].
Defined.

Definition asked : Query * Connection := (perform_query 1 (QPrepare bs!"+") (create connected)).2.

Lemma queries_well_formed_witness : length (bindings asked.1) = 1%nat ∧ query_ok asked.1.
Proof.
  split; [reflexivity|]. apply (queries_well_formed (create connected) asked).
  - split; done.
  - apply rtc_once. exists 1%nat, (QPrepare bs!"+"), (perform_query 1 (QPrepare bs!"+") (create connected)).1.
    exact (surjective_pairing (perform_query 1 (QPrepare bs!"+") (create connected))).
Defined.

End Memory.
