(* ===== verification/ResourceNames.v ===== *)
(** * Names of queues, jobs and secrets

    [src/jobu/queue_validation_priv.cpp], [is_valid_job_name] of
    [src/jobu/job_validation_priv.cpp], [src/jobu/attribute.cpp] and
    [is_valid_secret_name] of [src/jobu/payload_template_priv.cpp].  The name
    that a deleted queue keeps in the table is reserved: no valid name equals
    it, so a deleted queue never blocks a name. *)

From stdpp Require Import base numbers strings list.
From Stdlib Require Import Ascii.
From S2P Require Import Prelude TextValidation Uuid.
Local Open Scope Z_scope.

(** ** Queue names *)

Definition is_hexadecimal (c : Z) : bool :=
  between #"0" c #"9" || between #"a" c #"f" || between #"A" c #"F".

Fixpoint uuid_text_from (index : nat) (text : bytes) : bool :=
  match text with
  | [] => true
  | c :: text =>
      (if (index =? 8)%nat || (index =? 13)%nat || (index =? 18)%nat || (index =? 23)%nat then c =? #"-"
       else is_hexadecimal c) && uuid_text_from (S index) text
  end.

Definition is_uuid_text (text : bytes) : bool := (length text =? 36)%nat && uuid_text_from 0 text.

(** [std::string_view::rfind]: where the last occurrence begins. *)
Fixpoint rfind (marker s : bytes) : option nat :=
  match s with
  | [] => if bool_decide (marker = []) then Some O else None
  | c :: s' =>
      match rfind marker s' with
      | Some i => Some (S i)
      | None => if bool_decide (marker `prefix_of` s) then Some O else None
      end
  end.

Definition deletion_marker : bytes := bs!"-deleted#".

Definition has_reserved_deletion_suffix (name : bytes) : bool :=
  match rfind deletion_marker name with
  | None => false
  | Some position => is_uuid_text (drop (position + length deletion_marker) name)
  end.

Definition is_valid_queue_name (name : bytes) : bool :=
  negb (bool_decide (name = [])) && (length name <=? 128)%nat && is_valid_utf8 name &&
  negb (has_ascii_control name) && negb (has_reserved_deletion_suffix name).

(** The name of a deleted queue's row ([delete_queue_impl]). *)
Definition internal_name (name id : bytes) : bytes := name ++ deletion_marker ++ to_string id.

(** ** Other names *)

Definition is_valid_idempotency_key (key : bytes) : bool :=
  negb (bool_decide (key = [])) && (length key <=? 128)%nat && is_valid_utf8 key.

Definition is_valid_job_name (name : bytes) : bool :=
  (length name <=? 256)%nat && is_valid_utf8 name && negb (has_ascii_control name).

Definition is_segment_start (c : Z) : bool := ascii_lower_alpha c.
Definition is_segment_character (c : Z) : bool := ascii_lower_alpha c || ascii_digit c || (c =? #"_").

Fixpoint attribute_name_from (segment_start : bool) (name : bytes) : bool :=
  match name with
  | [] => negb segment_start
  | c :: name =>
      if c =? #"." then negb segment_start && attribute_name_from true name
      else (if segment_start then is_segment_start c else is_segment_character c) && attribute_name_from false name
  end.

Definition is_valid_attribute_name (name : bytes) : bool :=
  negb (bool_decide (name = [])) && attribute_name_from true name.

Definition is_valid_secret_name (name : bytes) : bool := (length name <=? 128)%nat && is_valid_attribute_name name.

(** A position inside a payload ([secret_repository_priv.cpp]). *)
Definition valid_field_path (path : bytes) : bool :=
  negb (bool_decide (path = [])) && is_valid_utf8 path && negb (has_ascii_control path).

(** ** Tombstones *)

Lemma rfind_occurs marker s i : rfind marker s = Some i → marker `prefix_of` drop i s.
Proof.
  revert i. induction s as [|c s IH]; intros i; cbn [rfind].
  - case_bool_decide as E; [|done]. subst. intros [= <-]. apply prefix_nil.
  - destruct (rfind marker s) as [j|]; [intros [= <-]; by apply IH|]. case_bool_decide; [|done]. by intros [= <-].
Qed.

Lemma rfind_prefix marker s : marker `prefix_of` s → is_Some (rfind marker s).
Proof.
  destruct s as [|c s]; cbn [rfind].
  - intros [k Hk]. symmetry in Hk. apply app_eq_nil in Hk as [-> _]. by eexists.
  - intros Hp. destruct (rfind marker s); [by eexists|]. rewrite bool_decide_true by done. by eexists.
Qed.

Lemma rfind_app marker a s i : rfind marker s = Some i → rfind marker (a ++ s) = Some (length a + i)%nat.
Proof. intros Hs. induction a as [|c a IH]; [done|]. cbn [app rfind]. by rewrite IH. Qed.

Lemma hexadecimal_digit n : 0 <= n < 16 → is_hexadecimal (digit_of n) = true.
Proof. intros Hn. by apply (interval_check (λ n, is_hexadecimal (digit_of n)) 0 16 n). Qed.

Lemma to_string_is_uuid_text id : storage id → is_uuid_text (to_string id) = true.
Proof.
  intros [Hl Hb]. rewrite to_string_text by done.
  assert (Hd : ∀ b, is_byte b → is_hexadecimal (nibble_pair b).1 = true ∧ is_hexadecimal (nibble_pair b).2 = true).
  { intros b Hb'. destruct (nibble_ranges b Hb'). split; by apply hexadecimal_digit. }
  revert Hd Hb. generalize nibble_pair. intros f Hd Hb. explode id Hl. rewrite !Forall_cons in Hb.
  destruct_and!. cbn [map].
  repeat match goal with H : is_byte ?b |- _ => apply Hd in H as [? ?]; destruct (f b) end. cbn [fst snd] in *.
  unfold is_uuid_text. cbn -[is_hexadecimal]. repeat match goal with H : is_hexadecimal _ = true |- _ => rewrite H; clear H end. done.
Qed.

(** The marker ends in a character that no identifier has. *)
Lemma uuid_text_no_hash index text : uuid_text_from index text = true → #"#" ∉ text.
Proof.
  revert index. induction text as [|c text IH]; intros index; cbn [uuid_text_from]; [by intros _ ?%elem_of_nil|].
  intros [Hc Ht]%andb_true_iff [<-|Hin]%elem_of_cons; [|by apply IH in Ht]. by destruct (_ || _).
Qed.

Lemma rfind_marker text : #"#" ∉ text → rfind deletion_marker (deletion_marker ++ text) = Some O.
Proof.
  intros Hno. destruct (rfind_prefix deletion_marker (deletion_marker ++ text)) as [i Hi]; [by exists text|].
  rewrite Hi. f_equal. apply rfind_occurs in Hi as [k Hk].
  assert (Hat : drop i (deletion_marker ++ text) !! 8%nat = Some #"#") by (by rewrite Hk). rewrite lookup_drop in Hat.
  destruct (decide (i = O)) as [->|Hne]; [done|]. exfalso. apply Hno.
  rewrite lookup_app_r in Hat by (cbn; lia). by apply list_elem_of_lookup_2 in Hat.
Qed.

Lemma internal_name_reserved name id : storage id → has_reserved_deletion_suffix (internal_name name id) = true.
Proof.
  intros Hid. pose proof (to_string_is_uuid_text id Hid) as Hu. unfold has_reserved_deletion_suffix, internal_name.
  rewrite (rfind_app _ _ _ O); [|apply rfind_marker; apply andb_true_iff in Hu as [_ Hu]; by eapply uuid_text_no_hash].
  rewrite Nat.add_0_r, <- drop_drop, drop_app_length, drop_app_length. exact Hu.
Qed.

(** No valid name is the stored name of a deleted queue. *)
Lemma internal_name_invalid name id : storage id → is_valid_queue_name (internal_name name id) = false.
Proof. intros Hid. unfold is_valid_queue_name. rewrite internal_name_reserved by done. by rewrite andb_false_r. Qed.
