(* ===== verification/JobPayload.v ===== *)
(** * The payloads of jobs

    The decoders of command-line and HTTP payloads
    ([src/jobu/cli_job_payload_priv.cpp], [src/jobu/http_job_payload_priv.cpp],
    [src/jobu/http_job_method_priv.cpp]) and the collector of the secrets that
    a payload refers to ([src/jobu/payload_template_priv.cpp]).  One parser
    serves two purposes: with a collector it checks a template, in which a text
    may be a reference whose bytes are unknown; without one it decodes a
    concrete payload.  A null collector is [None].

    An object is the list of its members in the order of their names, a
    [std::bitset] the set of its members. *)

From stdpp Require Import base numbers strings list gmap.
From Stdlib Require Import Ascii.
From S2P Require Import Prelude TextValidation Values HttpRetry HttpValidation Domain Base64 ResourceNames.
Local Open Scope Z_scope.

(** [object.find(name)], and the null pointer at the end. *)
Fixpoint member (object : list (bytes * JsonValue)) (name : bytes) : option JsonValue :=
  match object with
  | [] => None
  | (k, v) :: object => if bytes_eqb k name then Some v else member object name
  end.

(** ** The collector *)

Definition maximum_payload_secret_references : nat := 256.

Record References := mkCollector { occurrences : nat; collected : list SecretReference }.

Definition no_references : References := mkCollector 0 [].

(** [PayloadTemplateReferences::add]. *)
Definition add_reference (reference : JsonValue) (path : bytes) (c : References) : result JobPayloadIssue References :=
  match reference with
  | JsonObject object =>
      match member object bs!"secret" with
      | Some (JsonString name) =>
          if negb (length object =? 1)%nat then failure InvalidSecretReference
          else if negb (is_valid_secret_name name) then failure InvalidSecretName
          else if (occurrences c =? maximum_payload_secret_references)%nat then failure TooManySecretReferences
          else
            let entry := mkReference name path in
            success (mkCollector (S (occurrences c))
              (if bool_decide (entry ∈ collected c) then collected c else collected c ++ [entry]))
      | _ => failure InvalidSecretReference
      end
  | _ => failure InvalidSecretReference
  end.

(** Parsing with a collector that may be absent.  Results are used only after
    the whole payload has passed, so a failure keeps no collector. *)
Definition Parse (A : Type) : Type := option References → result JobPayloadIssue (A * option References).

#[export] Instance Parse_ret : MRet Parse := λ A v refs, success (v, refs).
#[export] Instance Parse_bind : MBind Parse := λ A B k m refs,
  match m refs with success (v, refs) => k v refs | failure e => failure e end.

Definition lift {A} (r : result JobPayloadIssue A) : Parse A := λ refs,
  match r with success v => success (v, refs) | failure e => failure e end.

(** A call with the null pointer for the collector. *)
Definition without_references {A} (m : Parse A) : Parse A := λ refs,
  match m None with success (v, _) => success (v, refs) | failure e => failure e end.

(** A literal, or a value whose bytes are unknown. *)
Abbreviation PayloadText := (option bytes).

Definition parse_payload_text (v : JsonValue) (literal_issue : JobPayloadIssue) (path : bytes) : Parse PayloadText :=
  λ refs,
  match v, refs with
  | JsonString s, _ => success (Some s, refs)
  | JsonObject _, Some c =>
      match add_reference v path c with
      | success c => success (None, Some c)
      | failure issue => failure issue
      end
  | _, _ => failure literal_issue
  end.

Definition escape_character (c : Z) : bytes :=
  if c =? #"~" then bs!"~0" else if c =? #"/" then bs!"~1" else [c].

Definition escape_payload_pointer_component (component : bytes) : bytes := concat (map escape_character component).

(** ** Command-line payloads *)

Definition maximum_cli_path_bytes : Z := 4096.
Definition maximum_cli_arguments : Z := 1024.
Definition maximum_cli_environment_entries : Z := 256.
Definition maximum_cli_path_entries : Z := 256.
Definition maximum_cli_path_candidate_bytes : Z := 256 * 1024.
Definition maximum_cli_prepared_request_bytes : Z := 256 * 1024.
Definition kCanonicalUuidBytes : Z := 36.
Definition kMaximumAttemptDigits : Z := 20.
Definition kReservedEnvironmentNames : list bytes := [bs!"JOBU_JOB_ID"; bs!"JOBU_RUN_ID"; bs!"JOBU_ATTEMPT"].

(** [CliExpectedExitCodes]: 256 bits. *)
Definition exit_code_bits : Z := 256.

(** The outer optional of an entry denotes removal of the variable, the inner
    one an unresolved text. *)
Abbreviation ParsedEnvironment := (list (bytes * option PayloadText)).

Record ParsedCliPayload := mkParsedCli {
  parsed_command : bytes; parsed_arguments : list PayloadText; parsed_directory : bytes;
  parsed_environment : ParsedEnvironment; parsed_exit_codes : gset Z }.

Record CliJobPayload := mkCliPayload {
  command : bytes; arguments : list bytes; working_directory : bytes;
  environment : list (bytes * option bytes); expected_exit_codes : gset Z }.

Definition contains_nul (text : bytes) : bool := is_some (find 0 text).

Definition text_contains_nul (t : PayloadText) : bool := match t with Some s => contains_nul s | None => false end.

Definition environment_letter (c : Z) : bool := ascii_upper_alpha c || ascii_lower_alpha c || (c =? #"_").

Definition valid_environment_name (name : bytes) : bool :=
  match name with
  | [] => false
  | c :: _ => environment_letter c && forallb (λ c, environment_letter c || ascii_digit c) name
  end.

Definition reserved_environment_name (name : bytes) : bool := bool_decide (name ∈ kReservedEnvironmentNames).

(** [add_bytes]: the new total, unless it exceeds the limit. *)
Definition add_bytes (limit total amount : Z) : option Z :=
  if (limit <? total) || (limit - total <? amount) then None else Some (total + amount).

Definition decode_command (object : list (bytes * JsonValue)) : result JobPayloadIssue bytes :=
  match member object bs!"command" with
  | Some (JsonString text) =>
      if bool_decide (text = []) then failure MissingCommand
      else if (maximum_cli_path_bytes <? Z.of_nat (length text)) || contains_nul text ||
              (negb (bool_decide (head text = Some #"/")) && is_some (find #"/" text))
      then failure InvalidCommand
      else success text
  | _ => failure MissingCommand
  end.

(** The loop over the array; [done] are the arguments so far. *)
Fixpoint arguments_from (done : list PayloadText) (l : list JsonValue) : Parse (list PayloadText) :=
  match l with
  | [] => mret done
  | argument :: l =>
      text ← parse_payload_text argument InvalidArguments (bs!"/arguments/" ++ decimal (Z.of_nat (length done)));
      _ ← lift (check (negb (text_contains_nul text)) InvalidArguments);
      arguments_from (done ++ [text]) l
  end.

Definition decode_arguments (v : option JsonValue) : Parse (list PayloadText) :=
  match v with
  | None => mret []
  | Some (JsonArray l) =>
      _ ← lift (check (Z.of_nat (length l) <=? maximum_cli_arguments) InvalidArguments);
      arguments_from [] l
  | Some _ => lift (failure InvalidArguments)
  end.

Definition decode_working_directory (v : option JsonValue) : result JobPayloadIssue bytes :=
  match v with
  | None => success bs!"/"
  | Some (JsonString directory) =>
      if bool_decide (directory = []) || negb (bool_decide (head directory = Some #"/")) ||
         (maximum_cli_path_bytes <? Z.of_nat (length directory)) || contains_nul directory
      then failure InvalidWorkingDirectory else success directory
  | Some _ => failure InvalidWorkingDirectory
  end.

(** Names whose values may not come from a secret. *)
Definition routing_name (name : bytes) : bool := bytes_eqb name bs!"PATH" || bytes_eqb (take 5 name) bs!"JOBU_".

Definition environment_text (name : bytes) (data : JsonValue) : Parse PayloadText :=
  let parse := parse_payload_text data InvalidEnvironment (bs!"/environment/" ++ escape_payload_pointer_component name) in
  if routing_name name then without_references parse else parse.

Fixpoint environment_from (done : ParsedEnvironment) (l : list (bytes * JsonValue)) : Parse ParsedEnvironment :=
  match l with
  | [] => mret done
  | (name, data) :: l =>
      _ ← lift (check (valid_environment_name name && negb (reserved_environment_name name)) InvalidEnvironment);
      match data with
      | JsonNull => environment_from (emplace name None done) l
      | _ =>
          text ← environment_text name data;
          _ ← lift (check (negb (text_contains_nul text)) InvalidEnvironment);
          environment_from (emplace name (Some text) done) l
      end
  end.

Definition decode_environment (v : option JsonValue) : Parse ParsedEnvironment :=
  match v with
  | None => mret []
  | Some (JsonObject l) =>
      _ ← lift (check (Z.of_nat (length l) <=? maximum_cli_environment_entries) InvalidEnvironment);
      environment_from [] l
  | Some _ => lift (failure InvalidEnvironment)
  end.

Fixpoint find_variable (environment : ParsedEnvironment) (name : bytes) : option (option PayloadText) :=
  match environment with
  | [] => None
  | (k, v) :: environment => if bytes_eqb k name then Some v else find_variable environment name
  end.

(** One directory of the search path: the bytes of its candidate. *)
Definition path_candidate (command : bytes) (state : Z * Z) (directory : bytes) : option (Z * Z) :=
  let '(entries, total) := state in
  if bool_decide (directory = []) || negb (bool_decide (head directory = Some #"/")) || (entries =? maximum_cli_path_entries)
  then None
  else
    let separator_bytes := if bool_decide (last directory = Some #"/") then 0 else 1 in
    total ← add_bytes maximum_cli_path_candidate_bytes total (Z.of_nat (length directory));
    total ← add_bytes maximum_cli_path_candidate_bytes total separator_bytes;
    total ← add_bytes maximum_cli_path_candidate_bytes total (Z.of_nat (length command));
    total ← add_bytes maximum_cli_path_candidate_bytes total 1;
    Some (entries + 1, total).

(** The text of [PATH] is never unresolved: it is parsed without a collector. *)
Definition validate_bare_command_path (command : bytes) (environment : ParsedEnvironment)
    : result JobPayloadIssue unit :=
  if bool_decide (head command = Some #"/") then success tt
  else match find_variable environment bs!"PATH" with
  | Some (Some (Some path)) =>
      match fold_opt (path_candidate command) (0, 0) (members #":" path) with
      | Some _ => success tt
      | None => failure InvalidPath
      end
  | _ => failure InvalidPath
  end.

Definition expected_code (expected : gset Z) (v : JsonValue) : option (gset Z) :=
  match v with
  | JsonUint n => if (exit_code_bits <=? n) || bool_decide (n ∈ expected) then None else Some ({[ n ]} ∪ expected)
  | _ => None
  end.

Definition decode_expected_exit_codes (v : option JsonValue) : result JobPayloadIssue (gset Z) :=
  match v with
  | None => success {[ 0 ]}
  | Some (JsonArray l) =>
      if exit_code_bits <? Z.of_nat (length l) then failure InvalidExpectedExitCodes
      else ok_or (fold_opt expected_code ∅ l) InvalidExpectedExitCodes
  | Some _ => failure InvalidExpectedExitCodes
  end.

(** A pointer takes eight bytes. *)
Definition fits : Z → Z → option Z := add_bytes maximum_cli_prepared_request_bytes.

Definition add_string (total size : Z) : option Z := total ← fits total size; fits total (1 + 8).

Definition add_environment (total : Z) (name : bytes) (value_size : Z) : option Z :=
  total ← fits total (Z.of_nat (length name));
  total ← fits total 1;
  add_string total value_size.

Definition text_size (t : PayloadText) : Z := match t with Some s => Z.of_nat (length s) | None => 0 end.

Definition prepared_request_fits (payload : ParsedCliPayload) : bool :=
  is_some (
    total ← add_string 16 (Z.of_nat (length (parsed_command payload)));
    total ← fold_opt (λ total argument, add_string total (text_size argument)) total (parsed_arguments payload);
    total ← fold_opt (λ total (entry : bytes * option PayloadText),
              match entry.2 with
              | Some value => add_environment total entry.1 (text_size value)
              | None => Some total
              end) total (parsed_environment payload);
    total ← add_environment total bs!"JOBU_JOB_ID" kCanonicalUuidBytes;
    total ← add_environment total bs!"JOBU_RUN_ID" kCanonicalUuidBytes;
    add_environment total bs!"JOBU_ATTEMPT" kMaximumAttemptDigits).

Definition parse_cli_payload (payload : JsonValue) : Parse ParsedCliPayload :=
  match payload with
  | JsonObject object =>
      command ← lift (decode_command object);
      arguments ← decode_arguments (member object bs!"arguments");
      directory ← lift (decode_working_directory (member object bs!"working_directory"));
      environment ← decode_environment (member object bs!"environment");
      _ ← lift (validate_bare_command_path command environment);
      codes ← lift (decode_expected_exit_codes (member object bs!"expected_exit_codes"));
      let decoded := mkParsedCli command arguments directory environment codes in
      _ ← lift (check (prepared_request_fits decoded) PreparedRequestTooLarge);
      mret decoded
  | _ => lift (failure NotObject)
  end.

(** Every retained text is a literal: the collector is absent. *)
Definition decode_cli_job_payload (payload : JsonValue) : result JobPayloadIssue CliJobPayload :=
  match parse_cli_payload payload None with
  | failure issue => failure issue
  | success (parsed, _) =>
      success (mkCliPayload (parsed_command parsed) (map (default []) (parsed_arguments parsed)) (parsed_directory parsed)
        (map (λ e : bytes * option PayloadText, (e.1, default [] <$> e.2)) (parsed_environment parsed))
        (parsed_exit_codes parsed))
  end.

Definition validate_cli_payload_template (payload : JsonValue) (refs : References) : result JobPayloadIssue References :=
  match parse_cli_payload payload (Some refs) with
  | success (_, refs) => success (default no_references refs)
  | failure issue => failure issue
  end.
