(* ===== verification/HttpPayload.v ===== *)
(** * The payloads of HTTP jobs

    The methods of HTTP jobs ([src/jobu/http_job_method_priv.cpp]), the decoder
    of their payloads ([src/jobu/http_job_payload_priv.cpp]), the validation of
    templates of both types ([validate_payload_template] of
    [src/jobu/payload_template_priv.cpp]) and the admission of submitted
    payloads ([src/jobu/job_payload_admission_priv.cpp]). *)

From stdpp Require Import base numbers strings list gmap.
From Stdlib Require Import Ascii.
From S2P Require Import Prelude TextValidation Values HttpRetry HttpValidation Domain Base64 JobPayload.
Local Open Scope Z_scope.

(** ** Methods *)

Inductive HttpJobMethod := Get | Post | Put | Patch | Delete | Head.

#[export] Instance HttpJobMethod_eq_dec : EqDecision HttpJobMethod.
Proof. solve_decision. Defined.

(** A method of the table, or the spelling of an older payload. *)
Inductive DecodedHttpMethod := CanonicalMethod (m : HttpJobMethod) | LegacyHttpMethod (wire_value : bytes).

Definition supported_http_job_methods : string := "GET, POST, PUT, PATCH, DELETE, HEAD".

Definition kMethods : list (HttpJobMethod * bytes) :=
  [(Get, bs!"GET"); (Post, bs!"POST"); (Put, bs!"PUT"); (Patch, bs!"PATCH"); (Delete, bs!"DELETE"); (Head, bs!"HEAD")].

Definition ascii_upper (c : Z) : Z := if (#"a" <=? c) && (c <=? #"z") then c - 32 else c.

Definition matches_submitted_method (v canonical : bytes) : bool := bytes_eqb (map ascii_upper v) canonical.

Definition hex_digit (n : Z) : Z := default 0 (bs!"0123456789abcdef" !! Z.to_nat n).

Definition quoted_character (c : Z) : bytes :=
  if (c <? 0x20) || (0x7f <=? c) then bs!"\x" ++ [hex_digit (Z.shiftr c 4); hex_digit (Z.land c 0x0f)]
  else if (c =? 34) || (c =? #"\") then [92; c] else [c].

Definition quoted_method (v : bytes) : bytes :=
  [34] ++ concat (map quoted_character (take 64 v)) ++ (if (64 <? length v)%nat then bs!"..." else []) ++ [34].

(** The characters of a message. *)
Definition text_of (b : bytes) : string := String.string_of_list_ascii (map (λ c, ascii_of_N (Z.to_N c)) b).

Definition unsupported_method (v : bytes) : Error :=
  mkError InvalidArgument "jobu.job.invalid_payload"
    ("Unsupported HTTP method " +:+ text_of (quoted_method v) +:+ ". Supported methods: " +:+ supported_http_job_methods +:+ ".")
    "reason=invalid_method".

Fixpoint find_submitted (v : bytes) (l : list (HttpJobMethod * bytes)) : option HttpJobMethod :=
  match l with
  | [] => None
  | (m, text) :: l => if matches_submitted_method v text then Some m else find_submitted v l
  end.

Definition parse_submitted_http_method (v : bytes) : result Error HttpJobMethod :=
  ok_or (find_submitted v kMethods) (unsupported_method v).

Fixpoint method_text (m : HttpJobMethod) (l : list (HttpJobMethod * bytes)) : bytes :=
  match l with
  | [] => []
  | (m', text) :: l => if bool_decide (m' = m) then text else method_text m l
  end.

Definition http_method_text (m : HttpJobMethod) : bytes := method_text m kMethods.

Fixpoint find_stored (v : bytes) (l : list (HttpJobMethod * bytes)) : option HttpJobMethod :=
  match l with
  | [] => None
  | (m, text) :: l => if bytes_eqb v text then Some m else find_stored v l
  end.

Definition decode_stored_http_method (v : bytes) : DecodedHttpMethod :=
  match find_stored v kMethods with Some m => CanonicalMethod m | None => LegacyHttpMethod v end.

Definition http_method_wire_text (m : DecodedHttpMethod) : bytes :=
  match m with CanonicalMethod m => http_method_text m | LegacyHttpMethod v => v end.

(** ** Headers *)

Record ParsedHeader := mkParsedHeader { parsed_fields : HttpHeaderFields; parsed_sensitive : bool }.

Record ParsedHttpPayload := mkParsedHttp {
  parsed_url : bytes; parsed_method : bytes; parsed_headers : list ParsedHeader; parsed_body : option bytes;
  body_is_reference : bool; parsed_statuses : list HttpStatusRange }.

Record HttpJobPayload := mkHttpPayload {
  payload_url : bytes; payload_method : DecodedHttpMethod; payload_headers : list HttpHeader;
  payload_body : option bytes; payload_statuses : list HttpStatusRange }.

Definition ascii_starts_with (v prefix : bytes) : bool :=
  (length prefix <=? length v)%nat && ascii_equal (take (length prefix) v) prefix.

Definition jobu_reserved_header (name : bytes) : bool :=
  ascii_starts_with name bs!"X-JobU-" || ascii_equal name bs!"Idempotency-Key".

Definition forced_sensitive_header (name : bytes) : bool :=
  ascii_equal name bs!"Authorization" || ascii_equal name bs!"Cookie" || ascii_equal name bs!"Proxy-Authorization".

Definition uuid_text : bytes := bs!"00000000-0000-0000-0000-000000000000".

(** The fields that the executor adds, with their longest values. *)
Definition maximum_metadata_headers : list HttpHeaderFields :=
  [mkFields bs!"X-JobU-Job-ID" (Some uuid_text); mkFields bs!"X-JobU-Run-ID" (Some uuid_text);
   mkFields bs!"X-JobU-Attempt" (Some (decimal uint64_max)); mkFields bs!"Idempotency-Key" (Some uuid_text)].

Definition is_bool (v : JsonValue) : bool := match v with JsonBool _ => true | _ => false end.

(** The members of one entry: name, value and whether it is marked. *)
Definition header_entry (entry : JsonValue) : result JobPayloadIssue (bytes * JsonValue * bool) :=
  match entry with
  | JsonObject object =>
      let sensitive := member object bs!"sensitive" in
      let expected_members := (2 + if is_some sensitive then 1 else 0)%nat in
      match member object bs!"name", member object bs!"value" with
      | Some (JsonString name), Some data =>
          if negb (length object =? expected_members)%nat || negb (default true (is_bool <$> sensitive)) ||
             jobu_reserved_header name
          then failure InvalidHeaders
          else success (name, data, match sensitive with Some (JsonBool b) => b | _ => false end)
      | _, _ => failure InvalidHeaders
      end
  | _ => failure InvalidHeaders
  end.

Fixpoint headers_from (done : list ParsedHeader) (l : list JsonValue) : Parse (list ParsedHeader) :=
  match l with
  | [] => mret done
  | entry :: l =>
      '(name, data, marked) ← lift (header_entry entry);
      text ← parse_payload_text data InvalidHeaders
               (bs!"/headers/" ++ decimal (Z.of_nat (length done)) ++ bs!"/value");
      headers_from (done ++ [mkParsedHeader (mkFields name text) (forced_sensitive_header name || marked)]) l
  end.

Definition decode_headers (v : option JsonValue) : Parse (list ParsedHeader) :=
  match v with
  | None => mret []
  | Some (JsonArray l) => headers_from [] l
  | Some _ => lift (failure InvalidHeaders)
  end.

(** ** Bodies *)

Definition decode_body (v : option JsonValue) : result JobPayloadIssue (option bytes) :=
  match v with
  | None => success None
  | Some (JsonObject object) =>
      match member object bs!"encoding", member object bs!"data" with
      | Some (JsonString encoding), Some (JsonString data) =>
          if negb (length object =? 2)%nat then failure InvalidBody
          else if bytes_eqb encoding bs!"utf8" then
            if negb (is_valid_utf8 data) then failure InvalidBody else success (Some data)
          else if bytes_eqb encoding bs!"base64" then Some <$> decode_base64 data
          else failure InvalidBody
      | _, _ => failure InvalidBody
      end
  | Some _ => failure InvalidBody
  end.

Definition is_secret_object (v : JsonValue) : bool :=
  match v with JsonObject object => is_some (member object bs!"secret") | _ => false end.

(** With a collector, any member [secret] selects the grammar of references:
    the body is then unknown. *)
Definition parse_body (v : option JsonValue) : Parse (option bytes * bool) := λ refs,
  match v, refs with
  | Some value, Some c =>
      if is_secret_object value then
        match add_reference value bs!"/body" c with
        | success c => success (None, true, Some c)
        | failure issue => failure issue
        end
      else lift ((., false) <$> decode_body v) refs
  | _, _ => lift ((., false) <$> decode_body v) refs
  end.

(** ** The payload *)

Definition generic_request_issue (e : Error) : JobPayloadIssue :=
  if String.prefix "method." (detail e) then InvalidMethod
  else if String.prefix "url." (detail e) then InvalidUrl
  else if String.prefix "headers." (detail e) then InvalidHeaders
  else if String.prefix "body." (detail e) then InvalidBody
  else InvalidHttpRequest.

Definition request_issue (distinguish_size_failure : bool) (e : Error) : JobPayloadIssue :=
  if distinguish_size_failure && bool_decide (detail e = "headers.too_large") then PreparedRequestTooLarge
  else generic_request_issue e.

Definition decode_url (object : list (bytes * JsonValue)) : result JobPayloadIssue bytes :=
  match member object bs!"url" with
  | Some (JsonString url) => if bool_decide (url = []) then failure MissingUrl else success url
  | _ => failure MissingUrl
  end.

Definition decode_method (object : list (bytes * JsonValue)) : result JobPayloadIssue bytes :=
  match member object bs!"method" with
  | None => success bs!"GET"
  | Some (JsonString method) => success method
  | Some _ => failure InvalidMethod
  end.

Definition validate_parsed (distinguish : bool) (method url : bytes) (headers : list ParsedHeader) (has_body : bool)
    : result JobPayloadIssue unit :=
  match validate_http_request_fields method url (map parsed_fields headers ++ maximum_metadata_headers) has_body with
  | success _ => success tt
  | failure e => failure (request_issue distinguish e)
  end.

Definition parse_http_payload (payload : JsonValue) (distinguish_size_failure : bool) : Parse ParsedHttpPayload :=
  match payload with
  | JsonObject object =>
      url ← lift (decode_url object);
      method ← lift (decode_method object);
      headers ← decode_headers (member object bs!"headers");
      '(body, referenced) ← parse_body (member object bs!"body");
      statuses ← lift (ok_or (decode_expected_statuses (member object bs!"expected_statuses")) InvalidExpectedStatuses);
      _ ← lift (validate_parsed distinguish_size_failure method url headers (is_some body || referenced));
      mret (mkParsedHttp url method headers body referenced statuses)
  | _ => lift (failure NotObject)
  end.

(** [JobPayloadIssue::None] is [None]. *)
Definition prepared_http_payload_issue (payload : JsonValue) : option JobPayloadIssue :=
  match parse_http_payload payload true None with success _ => None | failure issue => Some issue end.

Definition concrete_header (h : ParsedHeader) : HttpHeader :=
  mkHeader (field_name (parsed_fields h)) (default [] (field_value (parsed_fields h))) (parsed_sensitive h).

Definition decode_http_job_payload (payload : JsonValue) : result JobPayloadIssue HttpJobPayload :=
  match parse_http_payload payload false None with
  | failure issue => failure issue
  | success (parsed, _) =>
      success (mkHttpPayload (parsed_url parsed) (decode_stored_http_method (parsed_method parsed))
        (map concrete_header (parsed_headers parsed)) (parsed_body parsed) (parsed_statuses parsed))
  end.

Definition validate_http_payload_template (payload : JsonValue) (refs : References) : result JobPayloadIssue References :=
  match parse_http_payload payload false (Some refs) with
  | success (_, refs) => success (default no_references refs)
  | failure issue => failure issue
  end.

(** ** Templates *)

Definition is_object (v : JsonValue) : bool := match v with JsonObject _ => true | _ => false end.

Definition validate_payload_template (type : JobType) (payload : JsonValue)
    : result JobPayloadIssue (list SecretReference) :=
  if negb (is_object payload) then failure NotObject
  else
    collected <$> match type with
                  | Cli => validate_cli_payload_template payload no_references
                  | Http => validate_http_payload_template payload no_references
                  end.

Definition job_payload_structure_issue (type : JobType) (payload : JsonValue) : option JobPayloadIssue :=
  match validate_payload_template type payload with success _ => None | failure issue => Some issue end.

Definition maximum_job_document_bytes : Z := 256 * 1024.

(** ** Admission *)

Section Admission.

(** [jb::core::serialize_json]. *)
Context (serialize_json : JsonValue → result Error bytes).

Definition validate_and_serialize_job_payload (type : JobType) (payload : JsonValue) : result JobPayloadIssue bytes :=
  match serialize_json payload with
  | failure _ => failure InvalidJson
  | success text =>
      if maximum_job_document_bytes <? Z.of_nat (length text) then failure TooLarge
      else match job_payload_structure_issue type payload with
           | Some issue => failure issue
           | None => success text
           end
  end.

Definition payload_error (issue : JobPayloadIssue) : Error :=
  match issue with
  | TooLarge => mkError ResourceExhausted "jobu.protocol.value_too_large" "Job payload exceeds its size limit"
                  "reason=too_large"
  | _ => mkError InvalidArgument "jobu.job.invalid_payload" "Job runner type or payload is structurally invalid"
           ("reason=" +:+ job_payload_issue_text issue)
  end.

Definition method_not_string : Error :=
  mkError InvalidArgument "jobu.job.invalid_payload"
    ("HTTP method must be a string. Supported methods: " +:+ supported_http_job_methods +:+ ".") "reason=invalid_method".

Definition submitted_method (object : list (bytes * JsonValue)) : result Error HttpJobMethod :=
  match member object bs!"method" with
  | None => success Get
  | Some (JsonString text) => parse_submitted_http_method text
  | Some _ => failure method_not_string
  end.

(** [std::map::insert_or_assign]. *)
Fixpoint insert_or_assign (key : bytes) (v : JsonValue) (o : list (bytes * JsonValue)) : list (bytes * JsonValue) :=
  match o with
  | [] => [(key, v)]
  | (k, w) :: o' => if bytes_ltb key k then (key, v) :: o
                    else if bytes_ltb k key then (k, w) :: insert_or_assign key v o' else (key, v) :: o'
  end.

Definition canonicalize_method (type : JobType) (payload : JsonValue) : result Error JsonValue :=
  match type, payload with
  | Http, JsonObject object =>
      method ← submitted_method object;
      success (JsonObject (insert_or_assign bs!"method" (JsonString (http_method_text method)) object))
  | _, _ => success payload
  end.

Definition normalize_submitted_job_payload (type : JobType) (payload : JsonValue) : result Error JsonValue :=
  payload ← canonicalize_method type payload;
  match validate_and_serialize_job_payload type payload with
  | failure issue => failure (payload_error issue)
  | success _ => success payload
  end.

End Admission.
