(* ===== verification/StorageFailure.v ===== *)
(** * The policy for storage failures

    [src/jobu/storage_failure_priv.cpp]: which failures stop the daemon, and
    the error that leaves the storage layer, without backend details. *)

From stdpp Require Import base strings.
From S2P Require Import Prelude.

Inductive StorageOperation :=
  | OpValidation | OpRead | OpMutation | OpDispatch | OpCompletion | OpRecovery.
Inductive StorageFailureOrigin := OriginOperation | OriginPersistedData.
Inductive StorageFailureDisposition := OperationError | Fatal | RecoveryCancelled.

#[export] Instance StorageOperation_eq_dec : EqDecision StorageOperation.
Proof. solve_decision. Defined.
#[export] Instance StorageFailureOrigin_eq_dec : EqDecision StorageFailureOrigin.
Proof. solve_decision. Defined.

Record FailurePolicy := mkFailurePolicy { disposition : StorageFailureDisposition; policy_reason : string }.

Definition durable_invariant (code : string) : bool :=
  String.prefix "jobu.storage." code && negb (bool_decide (code = "jobu.storage.invalid_limit")) ||
  bool_decide (code = "jobu.idempotency.invalid_record") || bool_decide (code = "jobu.recovery.invariant").

Definition failure_policy (error : Error) (operation : StorageOperation) (origin : StorageFailureOrigin) : FailurePolicy :=
  let code := code error in
  if bool_decide (code = "db.corrupt") then mkFailurePolicy Fatal "corrupt"
  else if bool_decide (code = "db.constraint") || String.prefix "db.constraint." code
  then mkFailurePolicy Fatal "unexpected_constraint"
  else if bool_decide (origin = OriginPersistedData) || durable_invariant code
  then mkFailurePolicy Fatal "durable_invariant"
  else if bool_decide (operation = OpRecovery) then
    if bool_decide (code = "jobu.recovery.cancelled") then mkFailurePolicy RecoveryCancelled "recovery_cancelled"
    else mkFailurePolicy Fatal "recovery_failed"
  else if String.prefix "db." code then
    if bool_decide (operation = OpValidation) || bool_decide (operation = OpRead)
    then mkFailurePolicy OperationError "read_failed"
    else mkFailurePolicy Fatal "state_operation_failed"
  else mkFailurePolicy OperationError "operation_failed".

Definition operation_name (operation : StorageOperation) : string :=
  match operation with
  | OpValidation => "validation" | OpRead => "read" | OpMutation => "mutation"
  | OpDispatch => "dispatch" | OpCompletion => "completion" | OpRecovery => "recovery"
  end.

Definition failure_message (d : StorageFailureDisposition) : string :=
  match d with
  | OperationError => "JobU operation failed"
  | Fatal => "JobU storage operation cannot safely continue"
  | RecoveryCancelled => "JobU startup recovery was cancelled"
  end.

Definition classify_storage_failure (error : Error) (operation : StorageOperation) (origin : StorageFailureOrigin)
    : StorageFailureDisposition := disposition (failure_policy error operation origin).

Definition sanitized_storage_error (error : Error) (operation : StorageOperation) (origin : StorageFailureOrigin)
    : Error :=
  let policy := failure_policy error operation origin in
  mkError (category error) (code error) (failure_message (disposition policy))
    ("operation=" +:+ operation_name operation +:+ " reason=" +:+ policy_reason policy).
