(* ===== verification/PayloadTemplate.v ===== *)
(** * Preparing a payload for its execution

    [prepare_payload_template] of [src/jobu/payload_template_priv.cpp]: the
    stored template is checked again, each secret that it refers to is asked
    for once, the references are replaced by the values, and the concrete
    payload passes the checks of the executors.  The provider
    ([src/jobu/secret_provider.hpp]) is the class [SecretProvider]; the JSON
    encoder is a parameter.

    The replacement walks through the payload with [std::get] and [at], which
    throw on an unexpected shape: an exception is the outcome [Thrown], and
    [None] for the whole preparation. *)

From stdpp Require Import base numbers strings list gmap.
From Stdlib Require Import Ascii.
From S2P Require Import Prelude TextValidation Values HttpRetry HttpValidation Domain Base64 JobPayload HttpPayload.
From S2P Require Import StorageFailure.
Local Open Scope Z_scope.

(** ** Failures *)

Inductive PayloadPreparationFailureKind := FailureOrdinary | FailureStorage | FailurePersistedData | FailureProvider.

Record PayloadPreparationFailure := mkPreparationFailure {
  failure_kind : PayloadPreparationFailureKind; preparation_error : Error }.

Definition invalid_secret_value : PayloadPreparationFailure :=
  mkPreparationFailure FailureOrdinary
    (mkError InvalidArgument "jobu.secret.invalid_value" "Secret value is invalid for its destination" "").

Definition resolved_payload_too_large : PayloadPreparationFailure :=
  mkPreparationFailure FailureOrdinary
    (mkError ResourceExhausted "jobu.secret.resolved_payload_too_large" "Resolved payload exceeds execution limits" "").

Definition invalid_persisted_template : PayloadPreparationFailure :=
  mkPreparationFailure FailurePersistedData
    (mkError Internal "jobu.storage.invalid_json" "Persisted payload template is invalid" "").

Definition unexpected_provider_failure : PayloadPreparationFailure :=
  mkPreparationFailure FailureProvider
    (mkError Internal "jobu.secret.provider_failed" "Secret provider cannot safely prepare execution" "").

Definition secret_missing : PayloadPreparationFailure :=
  mkPreparationFailure FailureOrdinary (mkError NotFound "jobu.secret.not_found" "Secret was not found" "").

Definition provider_failure (e : Error) : PayloadPreparationFailure :=
  if bool_decide (code e = "jobu.secret.not_found") then secret_missing
  else if String.prefix "db." (code e)
  then mkPreparationFailure FailureStorage (sanitized_storage_error e OpDispatch OriginOperation)
  else if String.prefix "jobu.storage." (code e) && negb (bool_decide (code e = "jobu.storage.invalid_limit"))
  then mkPreparationFailure FailurePersistedData (sanitized_storage_error e OpDispatch OriginPersistedData)
  else unexpected_provider_failure.

(** ** Replacing the references *)

Abbreviation SecretValues := (gmap bytes bytes).

(** An exception, [false], or the new value. *)
Inductive substitution (A : Type) := Thrown | Refused | Substituted (v : A).
Arguments Thrown {A}.
Arguments Refused {A}.
Arguments Substituted {A} v.

#[export] Instance substitution_ret : MRet substitution := λ A v, Substituted v.
#[export] Instance substitution_bind : MBind substitution := λ A B k m,
  match m with Thrown => Thrown | Refused => Refused | Substituted v => k v end.
#[export] Instance substitution_fmap : FMap substitution := λ A B f m,
  match m with Thrown => Thrown | Refused => Refused | Substituted v => Substituted (f v) end.

(** [values.at(value.as_object().at("secret").as_string())]. *)
Definition reference_bytes (v : JsonValue) (values : SecretValues) : substitution bytes :=
  match v with
  | JsonObject object =>
      match member object bs!"secret" with
      | Some (JsonString name) => match values !! name with Some b => Substituted b | None => Thrown end
      | _ => Thrown
      end
  | _ => Thrown
  end.

Definition substitute_text (values : SecretValues) (v : JsonValue) : substitution JsonValue :=
  if negb (is_object v) then Substituted v
  else
    text ← reference_bytes v values;
    if negb (is_valid_utf8 text) || contains_nul text then Refused else Substituted (JsonString text).

(** A loop over a container that changes its elements. *)
Fixpoint substitute_all {A} (f : A → substitution A) (l : list A) : substitution (list A) :=
  match l with
  | [] => Substituted []
  | x :: l => x ← f x; l ← substitute_all f l; Substituted (x :: l)
  end.

Definition on_value (f : JsonValue → substitution JsonValue) (e : bytes * JsonValue) : substitution (bytes * JsonValue) :=
  (e.1,.) <$> f e.2.

(** [if (auto i = object.find(name); i != object.end()) f(i->second)]. *)
Fixpoint update_member (name : bytes) (f : JsonValue → substitution JsonValue) (object : list (bytes * JsonValue))
    : substitution (list (bytes * JsonValue)) :=
  match object with
  | [] => Substituted []
  | (k, v) :: object =>
      if bytes_eqb k name then v ← f v; Substituted ((k, v) :: object)
      else object ← update_member name f object; Substituted ((k, v) :: object)
  end.

Definition on_array (f : JsonValue → substitution JsonValue) (v : JsonValue) : substitution JsonValue :=
  match v with JsonArray l => JsonArray <$> substitute_all f l | _ => Thrown end.

Definition on_object (f : JsonValue → substitution JsonValue) (v : JsonValue) : substitution JsonValue :=
  match v with JsonObject l => JsonObject <$> substitute_all (on_value f) l | _ => Thrown end.

Definition substitute_header (values : SecretValues) (header : JsonValue) : substitution JsonValue :=
  match header with
  | JsonObject fields =>
      match member fields bs!"value" with
      | None => Thrown
      | Some value =>
          if negb (is_object value) then Substituted header
          else
            fields ← update_member bs!"value" (substitute_text values) fields;
            Substituted (JsonObject (insert_or_assign bs!"sensitive" (JsonBool true) fields))
      end
  | _ => Thrown
  end.

Definition substitute_body (values : SecretValues) (body : JsonValue) : substitution JsonValue :=
  if negb (is_object body) then Thrown
  else if is_secret_object body then encode_body <$> reference_bytes body values
  else Substituted body.

Definition substitute_references (type : JobType) (values : SecretValues) (payload : JsonValue) : substitution JsonValue :=
  match payload with
  | JsonObject object =>
      match type with
      | Cli =>
          object ← update_member bs!"arguments" (on_array (substitute_text values)) object;
          object ← update_member bs!"environment" (on_object (substitute_text values)) object;
          Substituted (JsonObject object)
      | Http =>
          object ← update_member bs!"headers" (on_array (substitute_header values)) object;
          object ← update_member bs!"body" (substitute_body values) object;
          Substituted (JsonObject object)
      end
  | _ => Thrown
  end.

(** ** Preparation *)

Definition kMaximumSecretValueBytes : Z := 64 * 1024.

Class SecretProvider (S : Type) := resolve : bytes → S → result Error bytes * S.

Section Preparation.
Context {S : Type} `{SecretProvider S} (serialize_json : JsonValue → result Error bytes).

(** Each distinct name is asked for once; [values] caches the answers. *)
Fixpoint resolve_references (references : list SecretReference) (values : SecretValues) (s : S)
    : result PayloadPreparationFailure SecretValues * S :=
  match references with
  | [] => (success values, s)
  | r :: references =>
      match values !! secret_name r with
      | Some _ => resolve_references references values s
      | None =>
          match resolve (secret_name r) s with
          | (failure e, s) => (failure (provider_failure e), s)
          | (success value, s) =>
              if kMaximumSecretValueBytes <? Z.of_nat (length value) then (failure unexpected_provider_failure, s)
              else resolve_references references (<[secret_name r := value]> values) s
          end
      end
  end.

(** The issue of the concrete payload. *)
Definition execution_issue (type : JobType) (concrete : JsonValue) : option JobPayloadIssue :=
  match type with
  | Cli => match decode_cli_job_payload concrete with success _ => None | failure issue => Some issue end
  | Http => prepared_http_payload_issue concrete
  end.

Definition check_concrete (type : JobType) (concrete : JsonValue) : result PayloadPreparationFailure JsonValue :=
  match serialize_json concrete with
  | failure _ => failure invalid_secret_value
  | success text =>
      if maximum_job_document_bytes <? Z.of_nat (length text) then failure resolved_payload_too_large
      else match execution_issue type concrete with
           | None => success concrete
           | Some PreparedRequestTooLarge => failure resolved_payload_too_large
           | Some _ => failure invalid_secret_value
           end
  end.

Definition persisted_template (type : JobType) (payload : JsonValue) : option (list SecretReference) :=
  match serialize_json payload with
  | failure _ => None
  | success original =>
      if maximum_job_document_bytes <? Z.of_nat (length original) then None
      else match validate_payload_template type payload with
           | success references => Some references
           | failure _ => None
           end
  end.

Definition prepare_payload_template (type : JobType) (payload : JsonValue) (s : S)
    : option (result PayloadPreparationFailure JsonValue) * S :=
  match persisted_template type payload with
  | None => (Some (failure invalid_persisted_template), s)
  | Some references =>
      match resolve_references references ∅ s with
      | (failure e, s) => (Some (failure e), s)
      | (success values, s) =>
          (match substitute_references type values payload with
           | Thrown => None
           | Refused => Some (failure invalid_secret_value)
           | Substituted concrete => Some (check_concrete type concrete)
           end, s)
      end
  end.

End Preparation.
