(* ===== verification/PayloadParsing.v ===== *)
(** * What the parsers of payloads accept

    Every parser of [JobPayload] and [HttpPayload], with the texts that it
    keeps, the shape of what it accepted and the references that it collected.
    The rules below are those of a program logic for [Parse]: a parser parses a
    property of its value and of the collector. *)

From stdpp Require Import base numbers strings list gmap.
From Stdlib Require Import Ascii.
From S2P Require Import Prelude TextValidation Values HttpRetry HttpValidation Domain Base64 ResourceNames JobPayload.
From S2P Require Import HttpPayload.
Local Open Scope Z_scope.

(** ** References and the collector *)

Definition reference (name : bytes) : JsonValue := JsonObject [(bs!"secret", JsonString name)].

Definition storable (r : SecretReference) : Prop :=
  is_valid_secret_name (secret_name r) = true ∧ valid_field_path (field_path r) = true.

(** What a collector holds at any time. *)
Record collector_ok (c : References) : Prop := {
  collected_distinct : NoDup (collected c);
  collected_counted : (length (collected c) <= occurrences c <= maximum_payload_secret_references)%nat;
  collected_storable : Forall storable (collected c) }.

Definition ok (refs : option References) : Prop := match refs with Some c => collector_ok c | None => True end.

Definition names (refs : option References) : list bytes :=
  match refs with Some c => map secret_name (collected c) | None => [] end.

Definition grows (refs refs' : option References) : Prop := is_some refs = is_some refs' ∧ names refs ⊆ names refs'.

#[export] Instance grows_preorder : PreOrder grows.
Proof. split; [by intros refs; split|]. intros a b c [? ?] [? ?]. split; by etrans. Qed.

Lemma no_references_ok : collector_ok no_references.
Proof. split; [constructor|cbn; unfold maximum_payload_secret_references; lia|constructor]. Qed.

Lemma add_reference_inv v path c c' :
  add_reference v path c = success c' →
  ∃ name, v = reference name ∧ is_valid_secret_name name = true ∧
    (occurrences c ≠ maximum_payload_secret_references) ∧
    c' = mkCollector (S (occurrences c))
           (if bool_decide (mkReference name path ∈ collected c) then collected c else collected c ++ [mkReference name path]).
Proof.
  destruct v as [| | | | | | |object]; try done. cbn [add_reference].
  destruct (member object bs!"secret") as [[| | | | |name| |]|] eqn:Hm; try done.
  destruct (Nat.eqb_spec (length object) 1) as [Hl|]; [|done]. cbn [negb].
  destruct (is_valid_secret_name name) eqn:Hn; [|done]. cbn [negb].
  destruct (Nat.eqb_spec (occurrences c) maximum_payload_secret_references); [done|]. intros [= <-].
  exists name. split_and!; [|done..]. destruct object as [|[k v] [|]]; [done| |done]. cbn in Hm.
  unfold bytes_eqb in Hm. case_bool_decide as Hk; [|done]. subst. injection Hm as ->. done.
Qed.

Lemma add_reference_ok v path c c' :
  add_reference v path c = success c' → valid_field_path path = true → collector_ok c →
  collector_ok c' ∧ grows (Some c) (Some c') ∧ ∃ name, v = reference name ∧ name ∈ names (Some c').
Proof.
  intros (name & -> & Hn & Ho & ->)%add_reference_inv Hp [Hd Hc Hs]. cbn. split_and!.
  - split; cbn; [|case_bool_decide; rewrite ?length_app; cbn; lia|].
    + case_bool_decide; [done|]. apply NoDup_app. split_and!; [done| |apply NoDup_singleton].
      by intros r Hr ->%list_elem_of_singleton.
    + case_bool_decide; [done|]. apply Forall_app. split; [done|]. by apply Forall_singleton.
  - split; [done|]. cbn. case_bool_decide; [done|]. rewrite map_app. set_solver.
  - exists name. split; [done|]. case_bool_decide as Hin.
    + apply list_elem_of_fmap. by exists (mkReference name path).
    + rewrite map_app. apply elem_of_app. right. apply list_elem_of_here.
Qed.

(** ** Rules *)

Definition parses {A} (refs : option References) (m : Parse A) (Q : A → option References → Prop) : Prop :=
  ∀ v refs', ok refs → m refs = success (v, refs') → ok refs' ∧ grows refs refs' ∧ Q v refs'.

Lemma parses_ret {A} refs (v : A) (Q : A → option References → Prop) : Q v refs → parses refs (mret v) Q.
Proof. intros HQ v' refs' Hok [= <- <-]. by split_and!. Qed.

Lemma parses_lift {A} refs (r : result JobPayloadIssue A) (Q : A → option References → Prop) :
  (∀ v, r = success v → Q v refs) → parses refs (lift r) Q.
Proof.
  intros HQ v refs' Hok. unfold lift. destruct r; [|done]. intros [= <- <-]. split_and!; [done..|by apply HQ].
Qed.

Lemma parses_bind {A B} refs (m : Parse A) (k : A → Parse B) Q R :
  parses refs m Q →
  (∀ v refs', grows refs refs' → Q v refs' → parses refs' (k v) R) → parses refs (m ≫= k) R.
Proof.
  intros Hm Hk v refs' Hok. unfold mbind, Parse_bind. destruct (m refs) as [[x mid]|] eqn:E; [|done]. intros Ev.
  destruct (Hm x mid Hok E) as (Hok' & Hg & HQ). destruct (Hk x mid Hg HQ v refs' Hok' Ev) as (? & ? & ?).
  split_and!; [done|by etrans|done].
Qed.

(** A guard, then the rest. *)
Lemma parses_check {A} refs b e (k : Parse A) (R : A → option References → Prop) :
  (b = true → parses refs k R) → parses refs (_ ← lift (check b e); k) R.
Proof.
  intros Hk. apply (parses_bind _ _ _ (λ _ refs', b = true ∧ refs' = refs)).
  - apply parses_lift. destruct b; done.
  - intros [] refs' _ [Hb ->]. by apply Hk.
Qed.

Lemma parses_lifted {A B} refs (r : result JobPayloadIssue A) (k : A → Parse B) (R : B → option References → Prop) :
  (∀ v, r = success v → parses refs (k v) R) → parses refs (v ← lift r; k v) R.
Proof.
  intros Hk. apply (parses_bind _ _ _ (λ v refs', r = success v ∧ refs' = refs)); [by apply parses_lift|].
  intros v refs' _ [Hr ->]. by apply Hk.
Qed.

Lemma parses_weaken {A} refs (m : Parse A) (Q R : A → option References → Prop) :
  parses refs m Q → (∀ v refs', Q v refs' → R v refs') → parses refs m R.
Proof. intros Hm HQR v refs' Hok Hv. destruct (Hm v refs' Hok Hv) as (? & ? & ?). split_and!; [done..|by apply HQR]. Qed.

(** ** Texts *)

Definition literal (v : JsonValue) : PayloadText := match v with JsonString s => Some s | _ => None end.

(** A literal, or a reference that was collected. *)
Definition text_value (refs : option References) (v : JsonValue) : Prop :=
  (∃ s, v = JsonString s) ∨ ∃ name, v = reference name ∧ name ∈ names refs.

Lemma text_value_mono refs refs' v : grows refs refs' → text_value refs v → text_value refs' v.
Proof. intros [_ Hg] [?|(name & -> & Hn)]; [by left|]. right. exists name. split; [done|by apply Hg]. Qed.

Lemma text_value_concrete v : text_value None v → ∃ s, v = JsonString s.
Proof. intros [?|(name & _ & ?%elem_of_nil)]; done. Qed.

Lemma parses_text refs v issue path :
  valid_field_path path = true →
  parses refs (parse_payload_text v issue path) (λ t refs', t = literal v ∧ text_value refs' v).
Proof.
  intros Hp t refs' Hok. unfold parse_payload_text. destruct v; try (by destruct refs).
  - intros [= <- <-]. split_and!; [done..|left; by eexists].
  - destruct refs as [c|]; [|done]. destruct (add_reference _ path c) as [c'|] eqn:E; [|done]. intros [= <- <-].
    destruct (add_reference_ok _ _ _ _ E Hp Hok) as (? & ? & ?). split_and!; [done..|by right].
Qed.

Lemma parses_text_without refs v issue path :
  parses refs (without_references (parse_payload_text v issue path)) (λ t refs', t = literal v ∧ text_value None v).
Proof.
  intros t refs' Hok. unfold without_references, parse_payload_text. destruct v; try done.
  intros [= <- <-]. split_and!; [done..|left; by eexists].
Qed.

(** ** Paths *)

(** A path of printable characters can be stored. *)
Definition printable (s : bytes) : bool := forallb (λ c, (0x20 <=? c) && (c <? 0x7f)) s.

Lemma printable_path s : s ≠ [] → printable s = true → valid_field_path s = true.
Proof.
  intros Hne Hs. unfold valid_field_path. rewrite bool_decide_false by done. cbn [negb andb]. clear Hne.
  induction s as [|c s IH]; [done|]. cbn in Hs. rewrite !andb_true_iff, Z.leb_le, Z.ltb_lt in Hs. destruct Hs as [Hc Hs].
  apply IH in Hs. rewrite andb_true_iff, negb_true_iff in Hs |- *. destruct Hs as [Hu Hn].
  change (has_ascii_control (c :: s)) with ((c <=? 0x1f) || (c =? 0x7f) || has_ascii_control s). cbn [is_valid_utf8].
  rewrite (proj2 (Z.leb_le c 127)), Hu by lia. split; [done|]. rewrite Hn, (proj2 (Z.leb_gt c 31)), (proj2 (Z.eqb_neq c 127)) by lia.
  done.
Qed.

Lemma printable_app a b : printable (a ++ b) = printable a && printable b.
Proof. apply forallb_app. Qed.

Lemma decimal_printable n : 0 <= n → printable (decimal n) = true.
Proof.
  intros Hn. destruct (decimal_spec n Hn) as (_ & Hd & _). unfold printable. rewrite forallb_forall in Hd |- *.
  intros c Hc. specialize (Hd c Hc). unfold ascii_digit in Hd. rewrite andb_true_iff, !Z.leb_le in Hd.
  rewrite andb_true_iff, Z.leb_le, Z.ltb_lt. lia.
Qed.

Lemma name_characters name c :
  valid_environment_name name = true → c ∈ name → environment_letter c || ascii_digit c = true.
Proof.
  destruct name as [|x name]; [done|]. cbn [valid_environment_name]. rewrite andb_true_iff, forallb_forall. intros [_ Hf].
  intros Hc%list_elem_of_In. by apply Hf.
Qed.

Lemma name_character_printable c :
  environment_letter c || ascii_digit c = true → 0x20 <= c < 0x7f ∧ c ≠ #"~" ∧ c ≠ #"/".
Proof.
  unfold environment_letter, ascii_digit, ascii_upper_alpha, ascii_lower_alpha.
  rewrite !orb_true_iff, !andb_true_iff, !Z.leb_le, Z.eqb_eq. lia.
Qed.

Lemma escape_name name : valid_environment_name name = true → escape_payload_pointer_component name = name.
Proof.
  intros Hn. assert (Hc : ∀ c, c ∈ name → c ≠ #"~" ∧ c ≠ #"/").
  { intros c Hc. by apply name_character_printable, (name_characters name). }
  clear Hn. unfold escape_payload_pointer_component. induction name as [|c name IH]; [done|]. cbn.
  destruct (Hc c) as [H1 H2]; [apply list_elem_of_here|]. unfold escape_character at 1.
  rewrite (proj2 (Z.eqb_neq _ _) H1), (proj2 (Z.eqb_neq _ _) H2), IH; [done|]. intros x Hx. by apply Hc, elem_of_cons; right.
Qed.

Lemma name_printable name : valid_environment_name name = true → printable name = true.
Proof.
  intros Hn. unfold printable. apply forallb_forall. intros c Hc%list_elem_of_In.
  destruct (name_character_printable c) as [? _]; [by apply (name_characters name)|].
  rewrite andb_true_iff, Z.leb_le, Z.ltb_lt. lia.
Qed.

(** ** Arguments *)

Definition literal_clean (v : JsonValue) : Prop := text_contains_nul (literal v) = false.

Lemma parses_arguments_from refs done l :
  parses refs (arguments_from done l) (λ ts refs',
    ts = done ++ map literal l ∧ Forall (text_value refs') l ∧ Forall literal_clean l).
Proof.
  revert refs done. induction l as [|v l IH]; intros refs done; cbn [arguments_from].
  { apply parses_ret. by rewrite app_nil_r. }
  eapply parses_bind; [apply parses_text, printable_path; [done|by rewrite printable_app, decimal_printable by lia]|].
  intros t mid Hg [-> Hv]. apply parses_check. intros Hclean%negb_true_iff.
  intros ts refs' Hok Hts. destruct (IH mid _ ts refs' Hok Hts) as (? & Hg' & -> & Ht & Hc).
  split_and!; [done|done|by rewrite <- app_assoc|constructor; [by eapply text_value_mono|done]|by constructor].
Qed.

Definition json_list (v : option JsonValue) : list JsonValue := match v with Some (JsonArray l) => l | _ => [] end.
Definition json_members (v : option JsonValue) : list (bytes * JsonValue) :=
  match v with Some (JsonObject l) => l | _ => [] end.

Lemma parses_arguments refs v :
  parses refs (decode_arguments v) (λ ts refs',
    (v = None ∨ ∃ l, v = Some (JsonArray l)) ∧ Z.of_nat (length (json_list v)) <= maximum_cli_arguments ∧
    ts = map literal (json_list v) ∧ Forall (text_value refs') (json_list v) ∧ Forall literal_clean (json_list v)).
Proof.
  destruct v as [[| | | | | |l|]|]; cbn [decode_arguments]; try by apply parses_lift.
  - apply parses_check. intros Hl%Z.leb_le. eapply parses_weaken; [apply parses_arguments_from|].
    intros ts refs' (-> & ? & ?). cbn. split_and!; [right; by eexists|done..].
  - apply parses_ret. cbn. unfold maximum_cli_arguments. split_and!; [by left|lia|done|constructor..].
Qed.

(** ** The environment *)

Definition entry_text (v : JsonValue) : option PayloadText := match v with JsonNull => None | _ => Some (literal v) end.

(** A [std::map] filled from members with [emplace]. *)
Definition filled {V W} (f : V → W) (done : list (bytes * W)) (l : list (bytes * V)) : list (bytes * W) :=
  foldl (λ o e, emplace e.1 (f e.2) o) done l.

Record variable_ok (refs : option References) (e : bytes * JsonValue) : Prop := {
  variable_name : valid_environment_name e.1 = true ∧ reserved_environment_name e.1 = false;
  variable_text : e.2 = JsonNull ∨ text_value (if routing_name e.1 then None else refs) e.2;
  variable_clean : literal_clean e.2 }.

Lemma variable_ok_mono refs refs' e : grows refs refs' → variable_ok refs e → variable_ok refs' e.
Proof.
  intros Hg [? Ht ?]. split; [done| |done]. destruct Ht as [?|Ht]; [by left|]. right.
  destruct (routing_name e.1); [done|by eapply text_value_mono].
Qed.

Lemma parses_variable refs name data :
  valid_environment_name name = true →
  parses refs (environment_text name data) (λ t refs',
    t = literal data ∧ text_value (if routing_name name then None else refs') data).
Proof.
  intros Hn. unfold environment_text. destruct (routing_name name); [apply parses_text_without|].
  apply parses_text, printable_path; [done|]. by rewrite printable_app, escape_name, (name_printable name).
Qed.

Lemma parses_environment_from refs done l :
  parses refs (environment_from done l) (λ e refs', e = filled entry_text done l ∧ Forall (variable_ok refs') l).
Proof.
  revert refs done. induction l as [|[name data] l IH]; intros refs done; cbn [environment_from]; [by apply parses_ret|].
  apply parses_check. intros [Hn Hr%negb_true_iff]%andb_true_iff.
  assert (Hrest : ∀ mid v, v = entry_text data → variable_ok mid (name, data) →
    parses mid (environment_from (emplace name v done) l)
      (λ e refs', e = filled entry_text done ((name, data) :: l) ∧ Forall (variable_ok refs') ((name, data) :: l))).
  { intros mid v -> Hv e refs' Hok He. destruct (IH mid _ e refs' Hok He) as (? & Hg & -> & Hl).
    split_and!; [done..|]. constructor; [by eapply variable_ok_mono|done]. }
  destruct data; [apply Hrest; [done|]; split; [done|by left|done]|..];
    (eapply parses_bind; [by apply parses_variable|]; intros t mid Hg [-> Ht]; apply parses_check;
     intros Hc%negb_true_iff; apply Hrest; [done|]; split; [done|by right|done]).
Qed.

Lemma parses_environment refs v :
  parses refs (decode_environment v) (λ e refs',
    (v = None ∨ ∃ l, v = Some (JsonObject l)) ∧ Z.of_nat (length (json_members v)) <= maximum_cli_environment_entries ∧
    e = filled entry_text [] (json_members v) ∧ Forall (variable_ok refs') (json_members v)).
Proof.
  destruct v as [[| | | | | | |l]|]; cbn [decode_environment]; try by apply parses_lift.
  - apply parses_check. intros Hl%Z.leb_le. eapply parses_weaken; [apply parses_environment_from|].
    intros e refs' (-> & ?). cbn. split_and!; [right; by eexists|done..].
  - apply parses_ret. cbn. unfold maximum_cli_environment_entries. split_and!; [by left|lia|done|constructor].
Qed.

(** ** Command-line payloads *)

(** The member [name] holds a list, an object, or is absent. *)
Definition absent_or_list (object : list (bytes * JsonValue)) (name : bytes) : Prop :=
  member object name = None ∨ ∃ l, member object name = Some (JsonArray l).
Definition absent_or_object (object : list (bytes * JsonValue)) (name : bytes) : Prop :=
  member object name = None ∨ ∃ l, member object name = Some (JsonObject l).

Abbreviation arguments_of object := (json_list (member object bs!"arguments")) (only parsing).
Abbreviation variables_of object := (json_members (member object bs!"environment")) (only parsing).

Record cli_accepted (refs : option References) (object : list (bytes * JsonValue)) (p : ParsedCliPayload) : Prop := {
  cli_command : decode_command object = success (parsed_command p);
  cli_directory : decode_working_directory (member object bs!"working_directory") = success (parsed_directory p);
  cli_codes : decode_expected_exit_codes (member object bs!"expected_exit_codes") = success (parsed_exit_codes p);
  cli_arguments : parsed_arguments p = map literal (arguments_of object);
  cli_environment : parsed_environment p = filled entry_text [] (variables_of object);
  cli_argument_values : Forall (text_value refs) (arguments_of object) ∧ Forall literal_clean (arguments_of object);
  cli_variables : Forall (variable_ok refs) (variables_of object);
  cli_shapes : absent_or_list object bs!"arguments" ∧ absent_or_object object bs!"environment";
  cli_counts : Z.of_nat (length (arguments_of object)) <= maximum_cli_arguments ∧
               Z.of_nat (length (variables_of object)) <= maximum_cli_environment_entries;
  cli_path : validate_bare_command_path (parsed_command p) (parsed_environment p) = success tt;
  cli_fits : prepared_request_fits p = true }.

Lemma parses_cli refs payload :
  parses refs (parse_cli_payload payload) (λ p refs', ∃ object, payload = JsonObject object ∧ cli_accepted refs' object p).
Proof.
  destruct payload as [| | | | | | |object]; cbn [parse_cli_payload]; try by apply parses_lift.
  apply parses_lifted. intros cmd Hcmd. eapply parses_bind; [apply parses_arguments|].
  intros ts mid1 _ (Has & Hal & -> & Hat & Hac). apply parses_lifted. intros dir Hdir.
  eapply parses_bind; [apply parses_environment|]. intros env mid2 Hg2 (Hes & Hel & -> & Hev).
  apply parses_lifted. intros [] Hpath. apply parses_lifted. intros codes Hcodes. apply parses_check. intros Hfit.
  apply parses_ret. exists object. split; [done|]. split; cbn; try done.
  split; [|done]. eapply Forall_impl; [exact Hat|]. intros v. by apply text_value_mono.
Qed.

(** ** Headers and bodies *)

Definition header_view (entry : JsonValue) : ParsedHeader :=
  match header_entry entry with
  | success (name, data, marked) => mkParsedHeader (mkFields name (literal data)) (forced_sensitive_header name || marked)
  | failure _ => mkParsedHeader (mkFields [] None) false
  end.

Definition header_ok (refs : option References) (entry : JsonValue) : Prop :=
  ∃ name data marked, header_entry entry = success (name, data, marked) ∧ text_value refs data.

Lemma header_ok_mono refs refs' entry : grows refs refs' → header_ok refs entry → header_ok refs' entry.
Proof. intros Hg (name & data & marked & ? & ?). exists name, data, marked. split; [done|by eapply text_value_mono]. Qed.

Lemma parses_headers_from refs done l :
  parses refs (headers_from done l) (λ hs refs', hs = done ++ map header_view l ∧ Forall (header_ok refs') l).
Proof.
  revert refs done. induction l as [|entry l IH]; intros refs done; cbn [headers_from].
  { apply parses_ret. by rewrite app_nil_r. }
  apply parses_lifted. intros [[name data] marked] He.
  eapply parses_bind; [apply parses_text, printable_path; [done|]|].
  { by rewrite !printable_app, decimal_printable by lia. }
  intros t mid Hg [-> Ht] hs refs' Hok Hhs. destruct (IH mid _ hs refs' Hok Hhs) as (? & Hg' & -> & Hl).
  split_and!; [done..| |].
  - rewrite <- app_assoc. cbn. unfold header_view. by rewrite He.
  - constructor; [|done]. exists name, data, marked. split; [done|by eapply text_value_mono].
Qed.

Lemma parses_headers refs v :
  parses refs (decode_headers v) (λ hs refs',
    (v = None ∨ ∃ l, v = Some (JsonArray l)) ∧ hs = map header_view (json_list v) ∧ Forall (header_ok refs') (json_list v)).
Proof.
  destruct v as [[| | | | | |l|]|]; cbn [decode_headers]; try by apply parses_lift.
  - eapply parses_weaken; [apply parses_headers_from|]. intros hs refs' [-> ?]. cbn. split_and!; [right; by eexists|done..].
  - apply parses_ret. cbn. split_and!; [by left|done|constructor].
Qed.

(** A known body, or a reference that was collected. *)
Definition body_accepted (refs : option References) (v : option JsonValue) (body : option bytes) (referenced : bool) : Prop :=
  if referenced then body = None ∧ ∃ name, v = Some (reference name) ∧ name ∈ names refs
  else decode_body v = success body ∧ (is_some refs = true → default false (is_secret_object <$> v) = false).

Lemma parses_body refs v : parses refs (parse_body v) (λ b refs', body_accepted refs' v b.1 b.2).
Proof.
  intros [body referenced] refs' Hok. unfold parse_body.
  assert (Hknown : (is_some refs = true → default false (is_secret_object <$> v) = false) →
    lift ((., false) <$> decode_body v) refs = success ((body, referenced), refs') →
    ok refs' ∧ grows refs refs' ∧ body_accepted refs' v body referenced).
  { intros Hs. unfold lift. destruct (decode_body v) as [b|] eqn:E; [|done]. cbn. intros [= <- <- <-]. by split_and!. }
  destruct v as [v|]; [|apply Hknown; done]. destruct refs as [c|]; [|apply Hknown; done].
  destruct (is_secret_object v) eqn:Hs; [|apply Hknown; done].
  destruct (add_reference v bs!"/body" c) as [c'|] eqn:E; [|done]. intros [= <- <- <-].
  destruct (add_reference_ok _ _ _ _ E) as (? & ? & name & -> & ?); [by apply printable_path|done|].
  split_and!; [done..|]. cbn. split; [done|]. by exists name.
Qed.

(** ** HTTP payloads *)

Abbreviation headers_of object := (json_list (member object bs!"headers")) (only parsing).

Record http_accepted (refs : option References) (object : list (bytes * JsonValue)) (p : ParsedHttpPayload) : Prop := {
  http_url : decode_url object = success (parsed_url p);
  http_method : decode_method object = success (parsed_method p);
  http_headers : parsed_headers p = map header_view (headers_of object);
  http_header_values : Forall (header_ok refs) (headers_of object);
  http_shape : absent_or_list object bs!"headers";
  http_body : body_accepted refs (member object bs!"body") (parsed_body p) (body_is_reference p);
  http_statuses : decode_expected_statuses (member object bs!"expected_statuses") = Some (parsed_statuses p);
  http_wire : validate_http_request_fields (parsed_method p) (parsed_url p)
                (map parsed_fields (parsed_headers p) ++ maximum_metadata_headers)
                (is_some (parsed_body p) || body_is_reference p) = success tt }.

Lemma parses_http refs payload distinguish :
  parses refs (parse_http_payload payload distinguish) (λ p refs',
    ∃ object, payload = JsonObject object ∧ http_accepted refs' object p).
Proof.
  destruct payload as [| | | | | | |object]; cbn [parse_http_payload]; try by apply parses_lift.
  apply parses_lifted. intros url Hurl. apply parses_lifted. intros method Hmethod.
  eapply parses_bind; [apply parses_headers|]. intros hs mid1 _ (Hshape & -> & Hh).
  eapply parses_bind; [apply parses_body|]. intros [body referenced] mid2 Hg2 Hb.
  apply parses_lifted. intros statuses Hst. apply parses_lifted. intros [] Hv. apply parses_ret.
  exists object. split; [done|]. split; cbn; try done.
  - eapply Forall_impl; [exact Hh|]. intros e. by apply header_ok_mono.
  - by destruct (decode_expected_statuses _); simplify_eq/=.
  - unfold validate_parsed in Hv. destruct (validate_http_request_fields _ _ _ _) as [[]|]; done.
Qed.
