(* ===== verification/PreparedPayload.v ===== *)
(** * What preparation gives to the executors

    Theorems on [PayloadTemplate]: a checked template is never walked into an
    exception, each secret is asked for once, a prepared payload is the
    template with the values of its secrets and nothing else changed, and the
    failures reveal no value. *)

From stdpp Require Import base numbers strings list gmap.
From Stdlib Require Import Ascii.
From S2P Require Import Prelude TextValidation Values HttpRetry HttpValidation Domain Base64 ResourceNames JobPayload.
From S2P Require Import HttpPayload StorageFailure PayloadTemplate PayloadParsing.
Local Open Scope Z_scope.

(** ** The concrete values *)

(** The bytes of a text of the template. *)
Definition text_bytes (values : SecretValues) (v : JsonValue) : bytes :=
  match v with
  | JsonString s => s
  | JsonObject object => match member object bs!"secret" with
                         | Some (JsonString name) => default [] (values !! name)
                         | _ => []
                         end
  | _ => []
  end.

Definition concrete_text (values : SecretValues) (v : JsonValue) : JsonValue :=
  if is_object v then JsonString (text_bytes values v) else v.

Definition covered (values : SecretValues) (refs : option References) : Prop := ∀ name, name ∈ names refs → is_Some (values !! name).

(** A step that gives [w] unless it refuses a value. *)
Definition settles {A} (m : substitution A) (w : A) : Prop := m = Refused ∨ m = Substituted w.

Lemma settles_bind {A B} (m : substitution A) (k : A → substitution B) v w :
  settles m v → settles (k v) w → settles (m ≫= k) w.
Proof. intros [->| ->] Hk; [by left|done]. Qed.

Lemma settles_fmap {A B} (m : substitution A) (f : A → B) v : settles m v → settles (f <$> m) (f v).
Proof. intros [->| ->]; [by left|by right]. Qed.

Lemma settles_done {A} (m : substitution A) v w : settles m v → m = Substituted w → w = v.
Proof. by intros [->| ->] [= <-]. Qed.

Lemma settles_all {A} (f : A → substitution A) (g : A → A) l :
  Forall (λ x, settles (f x) (g x)) l → settles (substitute_all f l) (map g l).
Proof.
  induction 1 as [|x l Hx _ IH]; cbn [substitute_all map]; [by right|].
  eapply settles_bind; [done|]. eapply settles_bind; [done|]. by right.
Qed.

Lemma reference_bytes_covered values refs name :
  covered values refs → name ∈ names refs →
  reference_bytes (reference name) values = Substituted (text_bytes values (reference name)).
Proof.
  intros Hc Hn. destruct (Hc name Hn) as [b Hb]. change (text_bytes values (reference name)) with (default [] (values !! name)).
  change (reference_bytes (reference name) values) with
    (match values !! name with Some b => Substituted b | None => Thrown end). by rewrite Hb.
Qed.

Lemma settles_text values refs v :
  covered values refs → v = JsonNull ∨ text_value refs v → settles (substitute_text values v) (concrete_text values v).
Proof.
  intros Hc [->|[[s ->]|(name & -> & Hn)]]; [by right..|]. unfold substitute_text.
  change (is_object (reference name)) with true. cbn [negb].
  rewrite (reference_bytes_covered values refs) by done. cbn [mbind substitution_bind].
  destruct (_ || _); [by left|by right].
Qed.

(** ** Members *)

(** The object with another value for a member that it has. *)
Fixpoint assign (name : bytes) (w : JsonValue) (object : list (bytes * JsonValue)) : list (bytes * JsonValue) :=
  match object with
  | [] => []
  | (k, v) :: object => if bytes_eqb k name then (k, w) :: object else (k, v) :: assign name w object
  end.

Definition updated (name : bytes) (g : JsonValue → JsonValue) (object : list (bytes * JsonValue)) : list (bytes * JsonValue) :=
  match member object name with Some v => assign name (g v) object | None => object end.

Lemma settles_update name f g object :
  (∀ v, member object name = Some v → settles (f v) (g v)) → settles (update_member name f object) (updated name g object).
Proof.
  unfold updated. induction object as [|[k v] object IH]; cbn [update_member member assign]; [by right|].
  intros Hf. destruct (bytes_eqb k name) eqn:E.
  - eapply settles_bind; [by apply Hf|by right].
  - eapply settles_bind; [by apply IH|]. destruct (member object name); by right.
Qed.

Lemma member_assign name w object name' :
  member (assign name w object) name' =
  if bytes_eqb name name' then (λ _, w) <$> member object name else member object name'.
Proof.
  induction object as [|[k v] object IH]; cbn [assign member]; [by destruct (bytes_eqb _ _)|].
  unfold bytes_eqb in *. repeat (case_bool_decide; cbn [member]); subst; try done; unfold bytes_eqb in *;
    repeat (case_bool_decide; cbn [member]); subst; done.
Qed.

Lemma member_updated name g object name' :
  member (updated name g object) name' =
  if bytes_eqb name name' then g <$> member object name else member object name'.
Proof.
  unfold updated. destruct (member object name) as [v|] eqn:E.
  - rewrite member_assign, E. done.
  - unfold bytes_eqb. case_bool_decide; subst; [by rewrite E|done].
Qed.

Lemma member_updated_ne name g object name' :
  bytes_eqb name name' = false → member (updated name g object) name' = member object name'.
Proof. intros E. by rewrite member_updated, E. Qed.

Lemma member_updated_eq name g object : member (updated name g object) name = g <$> member object name.
Proof. rewrite member_updated. unfold bytes_eqb. by rewrite bool_decide_true. Qed.

Lemma length_assign name w object : length (assign name w object) = length object.
Proof. induction object as [|[k v] object IH]; [done|]. cbn. destruct (bytes_eqb k name); cbn; by rewrite ?IH. Qed.

Lemma member_insert key v object name :
  member (insert_or_assign key v object) name = if bytes_eqb key name then Some v else member object name.
Proof.
  induction object as [|[k w] object IH]; cbn [insert_or_assign]; [cbn; unfold bytes_eqb; by case_bool_decide|].
  destruct (bytes_ltb key k) eqn:E1; [cbn; unfold bytes_eqb; by case_bool_decide|].
  destruct (bytes_ltb k key) eqn:E2.
  - cbn [member]. rewrite IH. unfold bytes_eqb. repeat case_bool_decide; subst; try done.
    by rewrite before_irrefl in E2.
  - destruct (before_total key k) as [?|[->|?]]; [congruence| |congruence]. cbn [member]. unfold bytes_eqb.
    by case_bool_decide.
Qed.

(** ** The walk through a checked template *)

Definition concrete_list (f : JsonValue → JsonValue) (v : JsonValue) : JsonValue :=
  match v with JsonArray l => JsonArray (map f l) | _ => v end.
Definition concrete_object (f : JsonValue → JsonValue) (v : JsonValue) : JsonValue :=
  match v with JsonObject l => JsonObject (map (λ e, (e.1, f e.2)) l) | _ => v end.

Definition concrete_cli (values : SecretValues) (object : list (bytes * JsonValue)) : list (bytes * JsonValue) :=
  updated bs!"environment" (concrete_object (concrete_text values))
    (updated bs!"arguments" (concrete_list (concrete_text values)) object).

Definition concrete_entry (values : SecretValues) (header : JsonValue) : JsonValue :=
  match header with
  | JsonObject fields =>
      match member fields bs!"value" with
      | Some value =>
          if is_object value
          then JsonObject (insert_or_assign bs!"sensitive" (JsonBool true)
                 (updated bs!"value" (concrete_text values) fields))
          else header
      | None => header
      end
  | _ => header
  end.

Definition concrete_body (values : SecretValues) (body : JsonValue) : JsonValue :=
  if is_secret_object body then encode_body (text_bytes values body) else body.

Definition concrete_http (values : SecretValues) (object : list (bytes * JsonValue)) : list (bytes * JsonValue) :=
  updated bs!"body" (concrete_body values) (updated bs!"headers" (concrete_list (concrete_entry values)) object).

Lemma settles_array f g l :
  Forall (λ x, settles (f x) (g x)) l → settles (on_array f (JsonArray l)) (concrete_list g (JsonArray l)).
Proof. intros Hl. by apply (settles_fmap _ JsonArray), settles_all. Qed.

Lemma settles_object f g l :
  Forall (λ e : bytes * JsonValue, settles (f e.2) (g e.2)) l →
  settles (on_object f (JsonObject l)) (concrete_object g (JsonObject l)).
Proof.
  intros Hl. apply (settles_fmap _ JsonObject), settles_all. eapply Forall_impl; [exact Hl|].
  intros e He. by apply (settles_fmap _ (e.1,.)).
Qed.

Lemma settles_cli values refs object p :
  covered values refs → cli_accepted refs object p →
  settles (substitute_references Cli values (JsonObject object)) (JsonObject (concrete_cli values object)).
Proof.
  intros Hc Ha. destruct Ha as [_ _ _ _ _ [Hargs _] Hvars [Has Hes] _ _ _]. unfold substitute_references, concrete_cli.
  eapply settles_bind; [apply (settles_update _ _ (concrete_list (concrete_text values))); intros v Hv|].
  { destruct Has as [E|[l E]]; rewrite E in Hv; simplify_eq. rewrite E in Hargs. apply settles_array.
    eapply Forall_impl; [exact Hargs|]. intros v Hv. eapply settles_text; [done|by right]. }
  eapply settles_bind; [|by right]. apply settles_update. intros v Hv. rewrite member_updated_ne in Hv by done.
  destruct Hes as [E|[l E]]; rewrite E in Hv; simplify_eq. rewrite E in Hvars. apply settles_object.
  eapply Forall_impl; [exact Hvars|]. intros [name v] [_ Ht _]. cbn in Ht |- *.
  eapply settles_text; [done|]. destruct Ht as [?|Ht]; [by left|]. right.
  destruct (routing_name name); [|done]. apply text_value_concrete in Ht. by left.
Qed.

Lemma header_entry_inv entry name data marked :
  header_entry entry = success (name, data, marked) →
  ∃ fields, entry = JsonObject fields ∧ member fields bs!"name" = Some (JsonString name) ∧
    member fields bs!"value" = Some data ∧
    marked = match member fields bs!"sensitive" with Some (JsonBool b) => b | _ => false end.
Proof.
  destruct entry as [| | | | | | |fields]; try done. unfold header_entry. intros He. exists fields. revert He.
  destruct (member fields bs!"name") as [[| | | | |n| |]|]; try done.
  destruct (member fields bs!"value") as [d|]; [|done]. destruct (_ || _); [done|]. by intros [= <- <- <-].
Qed.

Lemma settles_header values refs entry :
  covered values refs → header_ok refs entry → settles (substitute_header values entry) (concrete_entry values entry).
Proof.
  intros Hc (name & data & marked & (fields & -> & _ & Hv & _)%header_entry_inv & Ht). cbn [substitute_header concrete_entry].
  rewrite Hv. destruct (is_object data); [|by right]. cbn [negb]. 
  eapply settles_bind; [apply (settles_update _ _ (concrete_text values))|by right]. intros v Hv'. simplify_eq. eapply settles_text; [done|by right].
Qed.

Lemma settles_body values refs v body referenced :
  covered values refs → is_some refs = true → body_accepted refs (Some v) body referenced →
  settles (substitute_body values v) (concrete_body values v).
Proof.
  intros Hc Hr. unfold body_accepted, substitute_body, concrete_body. destruct referenced.
  - intros (_ & name & [= ->] & Hn). change (is_object (reference name)) with true.
    change (is_secret_object (reference name)) with true. cbn [negb].
    rewrite (reference_bytes_covered values refs) by done. by right.
  - intros [Hd Hs]. cbn in Hs. rewrite (Hs Hr). destruct v; try done. by right.
Qed.

Lemma settles_http values refs object p :
  covered values refs → is_some refs = true → http_accepted refs object p →
  settles (substitute_references Http values (JsonObject object)) (JsonObject (concrete_http values object)).
Proof.
  intros Hc Hr Ha. destruct Ha as [_ _ _ Hh Hs Hb _ _]. unfold substitute_references, concrete_http.
  eapply settles_bind; [apply (settles_update _ _ (concrete_list (concrete_entry values))); intros v Hv|].
  { destruct Hs as [E|[l E]]; rewrite E in Hv; simplify_eq. rewrite E in Hh. apply settles_array.
    eapply Forall_impl; [exact Hh|]. intros v Hv. by eapply settles_header. }
  eapply settles_bind; [|by right]. apply settles_update. intros v Hv. rewrite member_updated_ne in Hv by done.
  rewrite Hv in Hb. by eapply settles_body.
Qed.

(** ** Resolving *)

Section Resolving.
Context {S : Type} `{SecretProvider S}.

(** The names in the order of their first occurrence. *)
Fixpoint distinct (seen : gset bytes) (l : list bytes) : list bytes :=
  match l with
  | [] => []
  | n :: l => if bool_decide (n ∈ seen) then distinct seen l else n :: distinct ({[ n ]} ∪ seen) l
  end.

(** Asking for each name of a list, without a cache. *)
Fixpoint ask_all (asked : list bytes) (s : S) : result PayloadPreparationFailure (list (bytes * bytes)) * S :=
  match asked with
  | [] => (success [], s)
  | n :: asked =>
      match resolve n s with
      | (failure e, s) => (failure (provider_failure e), s)
      | (success b, s) =>
          if kMaximumSecretValueBytes <? Z.of_nat (length b) then (failure unexpected_provider_failure, s)
          else let '(r, s) := ask_all asked s in (cons (n, b) <$> r, s)
      end
  end.

Lemma ask_all_keys asked s l s' : ask_all asked s = (success l, s') → l.*1 = asked.
Proof.
  revert s l. induction asked as [|n asked IH]; intros s l; cbn [ask_all]; [by intros [= <- <-]|].
  destruct (resolve n s) as [[b|e] s1]; [|done]. destruct (_ <? _); [done|].
  destruct (ask_all asked s1) as [[r|e] s2] eqn:E; [|done]. intros [= <- <-]. cbn. f_equal. by eapply IH.
Qed.

Lemma distinct_seen seen l n : n ∈ seen → n ∉ distinct seen l.
Proof.
  revert seen. induction l as [|x l IH]; intros seen Hn; cbn [distinct]; [apply not_elem_of_nil|].
  case_bool_decide; [by apply IH|]. apply not_elem_of_cons. split; [by intros ->|apply IH; set_solver].
Qed.

Lemma distinct_elem seen l n : n ∈ l → n ∈ seen ∨ n ∈ distinct seen l.
Proof.
  revert seen. induction l as [|x l IH]; intros seen; [by intros ?%elem_of_nil|]. cbn [distinct].
  intros [->|Hn]%elem_of_cons; case_bool_decide; [by left|right; apply list_elem_of_here|by apply IH|].
  destruct (IH ({[ x ]} ∪ seen) Hn) as [[->%elem_of_singleton|?]%elem_of_union|?];
    [right; apply list_elem_of_here|by left|right; by apply elem_of_cons; right].
Qed.

Lemma distinct_subset seen l n : n ∈ distinct seen l → n ∈ l.
Proof.
  revert seen. induction l as [|x l IH]; intros seen; cbn [distinct]; [done|]. rewrite elem_of_cons.
  case_bool_decide; [intros ?%IH; by right|]. intros [->|?%IH]%elem_of_cons; [by left|by right].
Qed.

Lemma distinct_nodup seen l : NoDup (distinct seen l).
Proof.
  revert seen. induction l as [|x l IH]; intros seen; cbn [distinct]; [constructor|]. case_bool_decide; [done|].
  constructor; [apply distinct_seen; set_solver|done].
Qed.

(** The cache does not change what is asked: each distinct name once. *)
Lemma resolve_from references values s :
  resolve_references references values s =
  let '(r, s) := ask_all (distinct (dom values) (map secret_name references)) s in
  ((λ l, list_to_map l ∪ values) <$> r, s).
Proof.
  revert values s. induction references as [|r references IH]; intros values s; cbn [resolve_references map distinct ask_all].
  { cbn. by rewrite (left_id_L ∅ (∪)). }
  destruct (values !! secret_name r) as [b|] eqn:Hv.
  { rewrite bool_decide_true by (by apply elem_of_dom_2 in Hv). apply IH. }
  apply not_elem_of_dom in Hv as Hn. rewrite bool_decide_false by done. cbn [ask_all].
  destruct (resolve (secret_name r) s) as [[b|e] s1]; [|done]. destruct (_ <? _); [done|].
  rewrite IH, dom_insert_L. destruct (ask_all _ s1) as [[l|e] s2] eqn:E; [|done]. cbn. do 2 f_equal.
  apply ask_all_keys in E. assert (Hl : list_to_map (M := SecretValues) l !! secret_name r = None).
  { apply not_elem_of_list_to_map_1. rewrite E. apply distinct_seen. set_solver. }
  rewrite <- insert_union_l, insert_union_r; done.
Qed.

Lemma ask_all_values asked s l s' :
  ask_all asked s = (success l, s') →
  Forall (λ e, Z.of_nat (length e.2) <= kMaximumSecretValueBytes ∧ ∃ s0 s1, resolve e.1 s0 = (success e.2, s1)) l.
Proof.
  revert s l. induction asked as [|n asked IH]; intros s l; cbn [ask_all]; [by intros [= <- <-]|].
  destruct (resolve n s) as [[b|e] s1] eqn:Hr; [|done]. destruct (Z.ltb_spec kMaximumSecretValueBytes (Z.of_nat (length b))); [done|].
  destruct (ask_all asked s1) as [[r|e] s2] eqn:E; [|done]. intros [= <- <-]. constructor; [cbn; eauto|by eapply IH].
Qed.

(** What is known of the values after all names were resolved. *)
Lemma resolved_values references s values s' :
  resolve_references references ∅ s = (success values, s') →
  (∀ r, r ∈ references → is_Some (values !! secret_name r)) ∧
  (∀ n b, values !! n = Some b →
     Z.of_nat (length b) <= kMaximumSecretValueBytes ∧ ∃ s0 s1, resolve n s0 = (success b, s1)).
Proof.
  rewrite resolve_from. destruct (ask_all _ s) as [[l|e] s1] eqn:E; [|done]. cbn. rewrite (right_id_L ∅ (∪)).
  intros [= <- <-]. split.
  - intros r Hr. apply elem_of_dom. rewrite dom_list_to_map_L. apply elem_of_list_to_set. rewrite (ask_all_keys _ _ _ _ E).
    destruct (distinct_elem ∅ (map secret_name references) (secret_name r)) as [?|?];
      [apply list_elem_of_fmap; by exists r|set_solver|by rewrite dom_empty_L].
  - intros n b Hb%elem_of_list_to_map_2. apply ask_all_values in E. rewrite Forall_forall in E. by apply (E _ Hb).
Qed.
End Resolving.

(** ** A template that was accepted *)

Lemma validated_template type payload references :
  validate_payload_template type payload = success references →
  ∃ c object, references = collected c ∧ collector_ok c ∧ payload = JsonObject object ∧
    match type with
    | Cli => ∃ p, parse_cli_payload payload (Some no_references) = success (p, Some c) ∧ cli_accepted (Some c) object p
    | Http => ∃ p, parse_http_payload payload false (Some no_references) = success (p, Some c) ∧
                   http_accepted (Some c) object p
    end.
Proof.
  unfold validate_payload_template. destruct (is_object payload); [|done]. cbn [negb].
  unfold validate_cli_payload_template, validate_http_payload_template. destruct type.
  - destruct (parse_cli_payload payload _) as [[p refs]|] eqn:E; [|done]. intros [= <-].
    destruct (parses_cli (Some no_references) _ _ _ no_references_ok E) as (Hok & [Hs _] & object & -> & Ha).
    destruct refs as [c|]; [|done]. exists c, object. eauto 10.
  - destruct (parse_http_payload payload _ _) as [[p refs]|] eqn:E; [|done]. intros [= <-].
    destruct (parses_http (Some no_references) _ _ _ _ no_references_ok E) as (Hok & [Hs _] & object & -> & Ha).
    destruct refs as [c|]; [|done]. exists c, object. eauto 10.
Qed.

Definition concrete_payload (type : JobType) (values : SecretValues) (object : list (bytes * JsonValue)) : JsonValue :=
  JsonObject match type with Cli => concrete_cli values object | Http => concrete_http values object end.

Lemma settles_template type payload references values :
  validate_payload_template type payload = success references →
  (∀ r, r ∈ references → is_Some (values !! secret_name r)) →
  ∃ object, payload = JsonObject object ∧
    settles (substitute_references type values payload) (concrete_payload type values object).
Proof.
  intros (c & object & -> & _ & -> & Ha)%validated_template Hv. exists object. split; [done|].
  assert (Hc : covered values (Some c)) by (intros n (r & -> & Hr)%list_elem_of_fmap; by apply Hv).
  destruct type, Ha as (p & _ & Ha); [by eapply settles_cli|by eapply settles_http].
Qed.

(** What a concrete payload decodes to. *)
Lemma decoded_cli payload decoded :
  decode_cli_job_payload payload = success decoded →
  ∃ object p, payload = JsonObject object ∧ cli_accepted None object p ∧
    decoded = mkCliPayload (parsed_command p) (map (default []) (parsed_arguments p)) (parsed_directory p)
      (map (λ e : bytes * option PayloadText, (e.1, default [] <$> e.2)) (parsed_environment p)) (parsed_exit_codes p).
Proof.
  unfold decode_cli_job_payload. destruct (parse_cli_payload payload None) as [[p refs]|] eqn:E; [|done]. intros [= <-].
  destruct (parses_cli None _ _ _ I E) as (_ & [Hs _] & object & -> & Ha). destruct refs; [done|]. by exists object, p.
Qed.

(** The distinction of size failures changes no success. *)
Lemma parse_http_distinguish payload d d' refs x :
  parse_http_payload payload d refs = success x → parse_http_payload payload d' refs = success x.
Proof.
  destruct payload as [| | | | | | |object]; try done. cbn [parse_http_payload]. unfold mbind, Parse_bind, lift.
  destruct (decode_url object); [|done]. destruct (decode_method object); [|done].
  destruct (decode_headers _ _) as [[hs mid]|]; [|done]. destruct (parse_body _ mid) as [[[b r] mid2]|]; [|done].
  destruct (ok_or _ _); [|done]. unfold validate_parsed. by destruct (validate_http_request_fields _ _ _ _).
Qed.

Lemma parsed_http payload distinguish p refs :
  parse_http_payload payload distinguish None = success (p, refs) →
  ∃ object, payload = JsonObject object ∧ http_accepted None object p ∧
    decode_http_job_payload payload =
    success (mkHttpPayload (parsed_url p) (decode_stored_http_method (parsed_method p))
      (map concrete_header (parsed_headers p)) (parsed_body p) (parsed_statuses p)).
Proof.
  intros E. destruct (parses_http None _ _ _ _ I E) as (_ & [Hs _] & object & -> & Ha). destruct refs; [done|].
  exists object. split_and!; [done..|]. unfold decode_http_job_payload. by rewrite (parse_http_distinguish _ _ false _ _ E).
Qed.

(** ** The values in the decoded payload *)

Definition concrete_variable (values : SecretValues) (v : JsonValue) : option bytes :=
  match v with JsonNull => None | _ => Some (text_bytes values v) end.

(** A header with its value; a value from a secret is always sensitive. *)
Definition prepared_header (values : SecretValues) (entry : JsonValue) : HttpHeader :=
  match header_entry entry with
  | success (name, data, marked) =>
      mkHeader name (text_bytes values data) (forced_sensitive_header name || (marked || is_object data))
  | failure _ => mkHeader [] [] false
  end.

Lemma literal_concrete values refs v : text_value refs v → literal (concrete_text values v) = Some (text_bytes values v).
Proof. intros [[s ->]|(name & -> & _)]; done. Qed.

Lemma emplace_map {V W} (f : V → W) k v o :
  map (λ e : bytes * V, (e.1, f e.2)) (emplace k v o) = emplace k (f v) (map (λ e : bytes * V, (e.1, f e.2)) o).
Proof.
  induction o as [|[k' w] o IH]; [done|]. cbn. destruct (bytes_ltb k k'); [done|]. destruct (bytes_ltb k' k); [|done].
  cbn. by rewrite IH.
Qed.

Lemma filled_cons {V W} (f : V → W) done e l : filled f done (e :: l) = filled f (emplace e.1 (f e.2) done) l.
Proof. done. Qed.

Lemma filled_map {U V W} (f : V → W) (g : U → V) done l :
  map (λ e : bytes * V, (e.1, f e.2)) (filled g done l) = filled (f ∘ g) (map (λ e : bytes * V, (e.1, f e.2)) done) l.
Proof. revert done. induction l as [|e l IH]; intros o; [done|]. rewrite !filled_cons, IH, emplace_map. done. Qed.

Lemma filled_over_map {U V W} (g : V → W) (h : U → V) done l :
  filled g done (map (λ e : bytes * U, (e.1, h e.2)) l) = filled (g ∘ h) done l.
Proof. revert done. induction l as [|e l IH]; intros o; [done|]. cbn [map]. by rewrite !filled_cons, IH. Qed.

Lemma filled_ext {V W} (f g : V → W) done l :
  Forall (λ e : bytes * V, f e.2 = g e.2) l → filled f done l = filled g done l.
Proof. intros Hl. revert done. induction Hl as [|e l He _ IH]; intros o; [done|]. by rewrite !filled_cons, He, IH. Qed.

Lemma concrete_arguments values refs object :
  Forall (text_value refs) (arguments_of object) →
  map (default []) (map literal (arguments_of (concrete_cli values object))) =
  map (text_bytes values) (arguments_of object).
Proof.
  unfold concrete_cli. rewrite member_updated_ne, member_updated_eq by done.
  destruct (member object bs!"arguments") as [[| | | | | |l|]|]; try done. cbn. rewrite !map_map. intros Hl.
  apply map_ext_Forall. eapply Forall_impl; [exact Hl|]. intros v Hv. by rewrite (literal_concrete values refs).
Qed.

Lemma concrete_environment values refs object :
  Forall (variable_ok refs) (variables_of object) →
  map (λ e : bytes * option PayloadText, (e.1, default [] <$> e.2))
    (filled entry_text [] (variables_of (concrete_cli values object))) =
  filled (concrete_variable values) [] (variables_of object).
Proof.
  unfold concrete_cli. rewrite member_updated_eq, member_updated_ne by done.
  destruct (member object bs!"environment") as [[| | | | | | |l]|]; try done. intros Hl.
  cbn [fmap option_fmap option_map concrete_object json_members] in *. rewrite filled_over_map, (filled_map (fmap (default []))). apply filled_ext. eapply Forall_impl; [exact Hl|].
  intros [name v] [_ [Hn|Ht] _]; cbn in *; [by subst|]. destruct Ht as [[s ->]|(n & -> & _)]; done.
Qed.

Lemma concrete_header_view values refs entry :
  header_ok refs entry → header_ok None (concrete_entry values entry) →
  concrete_header (header_view (concrete_entry values entry)) = prepared_header values entry.
Proof.
  intros (name & data & marked & He & Ht) (name' & data' & marked' & He' & Ht').
  unfold header_view, prepared_header. rewrite He, He'. unfold concrete_header. cbn.
  apply header_entry_inv in He as (fields & -> & Hn & Hv & ->). apply text_value_concrete in Ht' as [s ->].
  apply header_entry_inv in He' as (fields' & Hf & Hn' & Hv' & ->). cbn [concrete_entry] in Hf. rewrite Hv in Hf.
  destruct Ht as [[t ->]|(n & -> & _)].
  - cbn in Hf. injection Hf as <-. rewrite Hn in Hn'. rewrite Hv in Hv'. simplify_eq. cbn. by rewrite orb_false_r.
  - change (is_object (reference n)) with true in *. injection Hf as <-.
    rewrite member_insert in Hn', Hv' |- *. change (bytes_eqb bs!"sensitive" bs!"name") with false in *.
    change (bytes_eqb bs!"sensitive" bs!"value") with false in *. change (bytes_eqb bs!"sensitive" bs!"sensitive") with true.
    rewrite member_updated_ne, Hn in Hn' by done. rewrite member_updated_eq, Hv in Hv'.
    change (concrete_text values <$> Some (reference n)) with (Some (JsonString (text_bytes values (reference n)))) in Hv'.
    injection Hv' as <-. injection Hn' as <-. by rewrite !orb_true_r.
Qed.

Lemma concrete_headers values refs object :
  Forall (header_ok refs) (headers_of object) →
  Forall (header_ok None) (headers_of (concrete_http values object)) →
  map concrete_header (map header_view (headers_of (concrete_http values object))) =
  map (prepared_header values) (headers_of object).
Proof.
  unfold concrete_http. rewrite member_updated_ne, member_updated_eq by done.
  destruct (member object bs!"headers") as [[| | | | | |l|]|]; try done. cbn. rewrite Forall_map, !map_map. intros Hl Hc.
  apply map_ext_Forall. eapply Forall_impl; [apply Forall_and; split; [exact Hl|exact Hc]|]. intros e [? ?].
  by eapply concrete_header_view.
Qed.

(** ** Preparation *)

Section Prepared.
Context {S : Type} `{SecretProvider S} (serialize_json : JsonValue → result Error bytes).

(** A preparation that succeeds has resolved the references of an accepted
    template and replaced them. *)
Lemma prepared_inv type payload concrete s s' :
  prepare_payload_template serialize_json type payload s = (Some (success concrete), s') →
  ∃ references values object,
    validate_payload_template type payload = success references ∧
    resolve_references references ∅ s = (success values, s') ∧
    payload = JsonObject object ∧ concrete = concrete_payload type values object ∧
    execution_issue type concrete = None.
Proof.
  unfold prepare_payload_template, persisted_template. destruct (serialize_json payload) as [text|]; [|done].
  destruct (_ <? _); [done|]. destruct (validate_payload_template type payload) as [references|] eqn:Hv; [|done].
  destruct (resolve_references references ∅ s) as [[values|e] s1] eqn:Hr; [|done].
  destruct (resolved_values _ _ _ _ Hr) as [Hcov _].
  destruct (settles_template _ _ _ _ Hv Hcov) as (object & -> & Hs).
  destruct (substitute_references type values _) as [| |c] eqn:Hsub; [done..|]. intros [= Hc ->].
  pose proof (settles_done _ _ _ Hs eq_refl) as ->. unfold check_concrete in Hc.
  destruct (serialize_json (concrete_payload _ _ _)) as [t|]; [|done]. destruct (_ <? _); [done|].
  destruct (execution_issue _ _) as [issue|] eqn:Hi; [by destruct issue|]. injection Hc as <-.
  exists references, values, object. by split_and!.
Qed.

(** C13.  A prepared command-line payload decodes, and what it decodes to is the
    template with its secrets: the command, the working directory and the
    expected exit codes are the literals of the template, whatever the
    provider answers; each argument and each variable is the literal of the
    template or the value that the provider gave for the secret it refers to;
    and the search path and the variables of the daemon are literals. *)
Theorem prepared_cli_payload payload concrete s s' :
  prepare_payload_template serialize_json Cli payload s = (Some (success concrete), s') →
  ∃ object template c values decoded,
    payload = JsonObject object ∧
    parse_cli_payload payload (Some no_references) = success (template, Some c) ∧
    resolve_references (collected c) ∅ s = (success values, s') ∧
    decode_cli_job_payload concrete = success decoded ∧
    command decoded = parsed_command template ∧
    working_directory decoded = parsed_directory template ∧
    expected_exit_codes decoded = parsed_exit_codes template ∧
    arguments decoded = map (text_bytes values) (arguments_of object) ∧
    environment decoded = filled (concrete_variable values) [] (variables_of object) ∧
    ∀ name v, (name, v) ∈ variables_of object → routing_name name = true → is_object v = false.
Proof.
  intros (references & values & object & Hv & Hr & -> & -> & Hi)%prepared_inv.
  destruct (validated_template _ _ _ Hv) as (c & o & -> & _ & [= <-] & template & Hp & Ht).
  unfold execution_issue in Hi. destruct (decode_cli_job_payload _) as [decoded|] eqn:Hd; [|done].
  exists object, template, c, values, decoded. split_and!; [done..| | | | | |].
  all: apply decoded_cli in Hd as (object' & p & [= <-] & Hc & ->); cbn.
  all: destruct Ht as [Hcmd Hdir Hcodes _ _ [Hargs _] Hvars _ _ _ _], Hc as [Hcmd' Hdir' Hcodes' Ha' He' _ _ _ _ _ _].
  - unfold decode_command, concrete_cli in *. rewrite !member_updated_ne in Hcmd' by done. congruence.
  - unfold concrete_cli in Hdir'. rewrite !member_updated_ne in Hdir' by done. congruence.
  - unfold concrete_cli in Hcodes'. rewrite !member_updated_ne in Hcodes' by done. congruence.
  - rewrite Ha'. by eapply concrete_arguments.
  - rewrite He'. by eapply concrete_environment.
  - intros name v Hin Hn. rewrite Forall_forall in Hvars. destruct (Hvars _ Hin) as [_ Hx _]. cbn in Hx. rewrite Hn in Hx.
    destruct Hx as [->|[s0 ->]%text_value_concrete]; done.
Qed.

(** The failures that preparation may report. *)
Definition reported (f : PayloadPreparationFailure) : Prop :=
  f ∈ [invalid_persisted_template; invalid_secret_value; resolved_payload_too_large; unexpected_provider_failure] ∨
  ∃ name s e s', resolve name s = (failure e, s') ∧ f = provider_failure e.

Lemma ask_all_failure asked s f s' : ask_all asked s = (failure f, s') → reported f.
Proof.
  revert s. induction asked as [|n asked IH]; intros s; cbn [ask_all]; [done|].
  destruct (resolve n s) as [[b|e] s1] eqn:Hr; [|intros [= <- <-]; right; eauto 10].
  destruct (_ <? _); [intros [= <- <-]; left; do 3 apply list_elem_of_further; apply list_elem_of_here|].
  destruct (ask_all asked s1) as [[r|e] s2] eqn:E; [done|]. intros [= <- <-]. by eapply IH.
Qed.

Lemma check_concrete_failure type concrete f : check_concrete serialize_json type concrete = failure f → reported f.
Proof.
  assert (Hv : reported invalid_secret_value) by (left; apply list_elem_of_further, list_elem_of_here).
  assert (Hl : reported resolved_payload_too_large) by (left; do 2 apply list_elem_of_further; apply list_elem_of_here).
  unfold check_concrete. destruct (serialize_json concrete); [|by intros [= <-]]. destruct (_ <? _); [by intros [= <-]|].
  destruct (execution_issue type concrete) as [[]|]; by intros [= <-].
Qed.

(** C24.  Preparation always returns, with a payload or with a failure: the walk
    through a checked template meets no shape that throws.  A failure is one
    of four fixed ones or stands for an answer of the provider, and then it
    depends on the category and code of that answer alone: no message, no
    detail and no value of a secret reaches it. *)
Theorem preparation_discreet type payload s :
  match (prepare_payload_template serialize_json type payload s).1 with
  | None => False
  | Some (success _) => True
  | Some (failure f) => reported f
  end ∧
  ∀ e e', category e = category e' → code e = code e' → provider_failure e = provider_failure e'.
Proof.
  split.
  - unfold prepare_payload_template. destruct (persisted_template _ type payload) as [references|] eqn:Hp.
    2: { cbn. left. apply list_elem_of_here. }
    destruct (resolve_references references ∅ s) as [[values|f] s1] eqn:Hr; cbn [fst].
    + unfold persisted_template in Hp. destruct (serialize_json payload) as [text|]; [|done]. destruct (_ <? _); [done|].
      destruct (validate_payload_template type payload) as [refs|] eqn:Hv; [|done]. injection Hp as <-.
      destruct (settles_template _ _ _ _ Hv (proj1 (resolved_values _ _ _ _ Hr))) as (object & -> & [->| ->]).
      * left. apply list_elem_of_further, list_elem_of_here.
      * destruct (check_concrete _ _ _) eqn:Hc; [done|by eapply check_concrete_failure].
    + rewrite resolve_from in Hr. destruct (ask_all _ s) as [[l|e] s2] eqn:E; [done|]. injection Hr as -> _.
      by eapply ask_all_failure.
  - intros [c k m d] [c' k' m' d'] Hc Hk. cbn in Hc, Hk. subst. reflexivity.
Qed.

(** The cache makes no difference but in the number of questions: resolving
    the references of a template asks the provider for each distinct name
    exactly once, in the order of first use, and stops at the first answer
    that is a failure or longer than 64 KiB. *)
Theorem secrets_asked_once references s :
  let asked := distinct ∅ (map secret_name references) in
  resolve_references references ∅ s = (let '(r, s') := ask_all asked s in (list_to_map <$> r, s')) ∧
  NoDup asked ∧ ∀ name, name ∈ asked ↔ ∃ r, r ∈ references ∧ secret_name r = name.
Proof.
  cbn zeta. split_and!.
  - rewrite resolve_from, dom_empty_L. destruct (ask_all _ s) as [[l|e] s1]; [|done]. cbn.
    by rewrite (right_id_L ∅ (∪)).
  - apply distinct_nodup.
  - intros name. split.
    + intros (r & -> & Hr)%distinct_subset%list_elem_of_fmap. by exists r.
    + intros (r & Hr & <-). destruct (distinct_elem ∅ (map secret_name references) (secret_name r)) as [?|?];
        [apply list_elem_of_fmap; by exists r|set_solver|done].
Qed.

(** The provider answers with bytes. *)
Hypothesis provider_bytes : ∀ name s b s', resolve name s = (success b, s') → Forall is_byte b.

Lemma concrete_body_decodes values refs v body referenced body' :
  is_some refs = true → body_accepted refs v body referenced →
  (∀ n b, values !! n = Some b → Forall is_byte b ∧ Z.of_nat (length b) <= size_max) →
  decode_body (concrete_body values <$> v) = success body' →
  body' = if referenced then text_bytes values <$> v else body.
Proof.
  intros Hr Hb Hval. unfold body_accepted, concrete_body in *. destruct referenced.
  - destruct Hb as (_ & name & -> & _). cbn [fmap option_fmap option_map].
    change (is_secret_object (reference name)) with true. cbv iota.
    change (text_bytes values (reference name)) with (default [] (values !! name)).
    assert (Hx : Forall is_byte (default [] (values !! name)) ∧ Z.of_nat (length (default [] (values !! name))) <= size_max).
    { destruct (values !! name) as [b|] eqn:E; [by apply (Hval name)|]. split; [constructor|done]. }
    revert Hx. generalize (default [] (values !! name)). intros b [Hby Hl] Hd.
    change (decode_body (Some (encode_body b))) with (Some <$> decode_base64 (encode_base64 b)) in Hd.
    rewrite decode_encoded in Hd by done. by injection Hd.
  - destruct Hb as [Hd Hs]. specialize (Hs Hr). destruct v as [v|]; cbn [fmap option_fmap option_map] in *;
      [|congruence]. change (is_secret_object v = false) in Hs. rewrite Hs. congruence.
Qed.

(** C12.  A prepared HTTP payload decodes, and what it decodes to is the template
    with its secrets: the URL, the method, the header names and the expected
    statuses are the literals of the template; each header value and the body
    is the literal or exactly the bytes of the secret; a header whose value
    came from a secret is marked as sensitive, whatever the template says; and
    the request can be written on the wire: no value of a secret adds a line to
    the request or exceeds a bound, also with the headers that the daemon adds
    itself. *)
Theorem prepared_http_payload payload concrete s s' :
  prepare_payload_template serialize_json Http payload s = (Some (success concrete), s') →
  ∃ object template c values decoded,
    payload = JsonObject object ∧
    parse_http_payload payload false (Some no_references) = success (template, Some c) ∧
    resolve_references (collected c) ∅ s = (success values, s') ∧
    decode_http_job_payload concrete = success decoded ∧
    payload_url decoded = parsed_url template ∧
    payload_method decoded = decode_stored_http_method (parsed_method template) ∧
    payload_statuses decoded = parsed_statuses template ∧
    payload_headers decoded = map (prepared_header values) (headers_of object) ∧
    payload_body decoded = (if body_is_reference template then text_bytes values <$> member object bs!"body"
                            else parsed_body template) ∧
    wire_url (payload_url decoded) ∧
    wire_headers (map fields_of (payload_headers decoded) ++ maximum_metadata_headers).
Proof.
  intros (references & values & object & Hv & Hr & -> & -> & Hi)%prepared_inv.
  destruct (validated_template _ _ _ Hv) as (c & o & -> & _ & [= <-] & template & Hp & Ht).
  unfold execution_issue, prepared_http_payload_issue in Hi.
  destruct (parse_http_payload (concrete_payload _ _ _) true None) as [[p refs]|] eqn:Hd; [|done].
  apply parsed_http in Hd as (object' & [= <-] & Hc & Hd). eexists object, template, c, values, _.
  destruct Ht as [Hu Hm _ Hh _ Hb Hst _], Hc as [Hu' Hm' Hh' Hhv' _ Hb' Hst' Hw].
  apply request_fields_spec in Hw as (_ & Hwu & Hwh & _). pose proof (concrete_headers _ _ _ Hh Hhv') as Hhs. rewrite <- Hh' in Hhs.
  unfold decode_url, decode_method, concrete_http in Hu, Hu', Hm, Hm', Hst'.
  rewrite !member_updated_ne in Hu', Hm', Hst' by done.
  split_and!; [done|exact Hp|exact Hr|exact Hd|cbn; congruence..|exact Hhs| |exact Hwu|].
  - destruct (body_is_reference p) eqn:Hpb; [by destruct Hb' as (_ & n & _ & ?%elem_of_nil)|]. destruct Hb' as [Hb' _].
    unfold concrete_http in Hb'. rewrite member_updated_eq, member_updated_ne in Hb' by done.
    eapply concrete_body_decodes; [|exact Hb| |exact Hb']; [done|]. intros n b Hn.
    destruct (resolved_values _ _ _ _ Hr) as [_ Hval]. destruct (Hval n b Hn) as (Hl & s0 & s1 & Hs).
    split; [by eapply provider_bytes|]. unfold kMaximumSecretValueBytes, size_max, uint64_max in *. lia.
  - cbn. rewrite Hh', !map_map. rewrite Hh', map_map in Hwh. erewrite map_ext_Forall; [exact Hwh|].
    eapply Forall_impl; [exact Hhv'|]. intros e (name & data & marked & He & [t ->]%text_value_concrete).
    unfold header_view. by rewrite He.
Qed.
End Prepared.

(** ** A sample *)

Module PreparedSample.

Definition serialize (v : JsonValue) : result Error bytes := success bs!"{}".

(** A provider that knows one value and counts the questions. *)
#[local] Instance provider : SecretProvider nat := λ name asked,
  (if bytes_eqb name bs!"api.key" then success bs!"s3cret" else failure (preparation_error secret_missing), S asked).

Definition key : JsonValue := reference bs!"api.key".

Definition report : JsonValue :=
  JsonObject [(bs!"arguments", JsonArray [JsonString bs!"--token"; key]); (bs!"command", JsonString bs!"report");
              (bs!"environment", JsonObject [(bs!"PATH", JsonString bs!"/usr/bin:/bin"); (bs!"TOKEN", key)])].

Definition call : JsonValue :=
  JsonObject [(bs!"body", key);
              (bs!"headers", JsonArray [JsonObject [(bs!"name", JsonString bs!"X-Key"); (bs!"sensitive", JsonBool false);
                                                    (bs!"value", key)]]);
              (bs!"method", JsonString bs!"POST"); (bs!"url", JsonString bs!"https://example.org:8443/run?id=1")].

Definition prepared (type : JobType) (payload : JsonValue) : JsonValue :=
  match (prepare_payload_template serialize type payload 0%nat).1 with Some (success v) => v | _ => JsonNull end.

Lemma prepared_cli_payload_witness :
  prepare_payload_template serialize Cli report 0%nat = (Some (success (prepared Cli report)), 1%nat) ∧
  ∃ decoded, decode_cli_job_payload (prepared Cli report) = success decoded ∧
    command decoded = bs!"report" ∧ arguments decoded = [bs!"--token"; bs!"s3cret"].
Proof.
  assert (Hp : prepare_payload_template serialize Cli report 0%nat = (Some (success (prepared Cli report)), 1%nat))
    by (vm_compute; reflexivity).
  split; [exact Hp|].
  destruct (prepared_cli_payload serialize report (prepared Cli report) 0%nat 1%nat Hp)
    as (object & template & c & values & decoded & Ho & Ht & Hr & Hd & Hc & _ & _ & Ha & _ & _).
  exists decoded. split; [exact Hd|]. vm_compute in Ho, Ht. injection Ho as <-. injection Ht as <- <-.
  split; [rewrite Hc; reflexivity|]. vm_compute in Hr. injection Hr as <-. rewrite Ha. vm_compute. reflexivity.
Defined.

Lemma provider_gives_bytes name (s : nat) b (s' : nat) : resolve name s = (success b, s') → Forall is_byte b.
Proof.
  unfold resolve, provider. destruct (bytes_eqb name _); [|done]. intros [= <- <-].
  repeat (constructor; [unfold is_byte; lia|]). constructor.
Qed.

Lemma prepared_http_payload_witness :
  prepare_payload_template serialize Http call 0%nat = (Some (success (prepared Http call)), 1%nat) ∧
  ∃ decoded, decode_http_job_payload (prepared Http call) = success decoded ∧
    payload_headers decoded = [mkHeader bs!"X-Key" bs!"s3cret" true] ∧ payload_body decoded = Some bs!"s3cret".
Proof.
  assert (Hp : prepare_payload_template serialize Http call 0%nat = (Some (success (prepared Http call)), 1%nat))
    by (vm_compute; reflexivity).
  split; [exact Hp|].
  destruct (prepared_http_payload serialize provider_gives_bytes call (prepared Http call) 0%nat 1%nat Hp)
    as (object & template & c & values & decoded & Ho & Ht & Hr & Hd & _ & _ & _ & Hh & Hb & _ & _).
  exists decoded. split; [exact Hd|]. vm_compute in Ho, Ht. injection Ho as <-. injection Ht as <- <-.
  vm_compute in Hr. injection Hr as <-. rewrite Hh, Hb. split; vm_compute; reflexivity.
Defined.
End PreparedSample.
