(* ===== verification/PayloadLimits.v ===== *)
(** * The limits of command-line payloads, and admission

    What [decode_cli_job_payload] of [src/jobu/cli_job_payload_priv.cpp]
    guarantees to the executor: strings that can be passed to [execve], a
    command that is absolute or searched in an absolute path, and a request
    whose vectors, with the variables that the daemon adds, fit in 256 KiB.
    And what admission ([src/jobu/job_payload_admission_priv.cpp],
    [src/jobu/http_job_method_priv.cpp]) lets through. *)

From stdpp Require Import base numbers strings list gmap.
From Stdlib Require Import Ascii.
From S2P Require Import Prelude Values HttpRetry HttpValidation Domain Base64 ResourceNames JobPayload HttpPayload.
From S2P Require Import StorageFailure PayloadTemplate PayloadParsing PreparedPayload.
Local Open Scope Z_scope.

(** ** Sizes *)

Definition sum_of {A} (f : A → Z) (l : list A) : Z := foldr (λ x n, f x + n) 0 l.

(** A string with its terminator and its pointer. *)
Definition string_cost (n : Z) : Z := n + 9.

Definition variable_cost (e : bytes * option bytes) : Z :=
  match e.2 with Some v => Z.of_nat (length e.1) + 1 + string_cost (Z.of_nat (length v)) | None => 0 end.

(** [argv] and [envp] of the process, with the longest values of the variables
    that the daemon sets. *)
Definition request_bytes (d : CliJobPayload) : Z :=
  16 + string_cost (Z.of_nat (length (command d))) + sum_of (λ a, string_cost (Z.of_nat (length a))) (arguments d) +
  sum_of variable_cost (environment d) +
  (11 + 1 + string_cost 36) + (11 + 1 + string_cost 36) + (12 + 1 + string_cost 20).

Lemma add_bytes_spec limit total amount t :
  add_bytes limit total amount = Some t ↔ total <= limit ∧ t = total + amount ∧ t <= limit.
Proof.
  unfold add_bytes. destruct (_ || _) eqn:E.
  - rewrite orb_true_iff, !Z.ltb_lt in E. split; [done|lia].
  - rewrite orb_false_iff, !Z.ltb_ge in E. split; [intros [= <-]; lia|]. intros (_ & -> & _). done.
Qed.

Lemma add_string_spec total size t :
  add_string total size = Some t → t = total + string_cost size ∧ t <= maximum_cli_prepared_request_bytes.
Proof.
  unfold add_string, fits, string_cost. intros (x & (_ & -> & _)%add_bytes_spec & (_ & -> & ?)%add_bytes_spec)%bind_Some. lia.
Qed.

Lemma add_environment_spec total name size t :
  add_environment total name size = Some t →
  t = total + (Z.of_nat (length name) + 1 + string_cost size) ∧ t <= maximum_cli_prepared_request_bytes.
Proof.
  unfold add_environment, fits.
  intros (x & (_ & -> & _)%add_bytes_spec & (y & (_ & -> & _)%add_bytes_spec & [-> ?]%add_string_spec)%bind_Some)%bind_Some.
  unfold string_cost in *. lia.
Qed.

Lemma fold_opt_sum {A} (step : Z → A → option Z) (cost : A → Z) l total t :
  (∀ total x t, step total x = Some t → t = total + cost x) → fold_opt step total l = Some t → t = total + sum_of cost l.
Proof.
  intros Hstep. revert total. induction l as [|x l IH]; intros total; cbn [fold_opt sum_of foldr]; [intros [= <-]; lia|].
  intros (y & ->%Hstep & ->%IH)%bind_Some. unfold sum_of. lia.
Qed.

Lemma text_size_length t : text_size t = Z.of_nat (length (default [] t)).
Proof. by destruct t. Qed.

Lemma sum_of_map {A B} (f : B → Z) (g : A → B) l : sum_of f (map g l) = sum_of (f ∘ g) l.
Proof. induction l as [|x l IH]; [done|]. cbn. unfold sum_of in IH. by rewrite IH. Qed.

Lemma sum_of_ext {A} (f g : A → Z) l : (∀ x, f x = g x) → sum_of f l = sum_of g l.
Proof. intros Hfg. induction l as [|x l IH]; [done|]. cbn. unfold sum_of in IH. by rewrite IH, Hfg. Qed.

Lemma request_fits p :
  prepared_request_fits p = true →
  request_bytes (mkCliPayload (parsed_command p) (map (default []) (parsed_arguments p)) (parsed_directory p)
      (map (λ e : bytes * option PayloadText, (e.1, default [] <$> e.2)) (parsed_environment p)) (parsed_exit_codes p))
    <= maximum_cli_prepared_request_bytes.
Proof.
  unfold prepared_request_fits. destruct (_ ≫= _) as [t|] eqn:E; [intros _|done].
  apply bind_Some in E as (t1 & [-> _]%add_string_spec & (t2 & Ha & (t3 & He & (t4 & [-> _]%add_environment_spec &
    (t5 & [-> _]%add_environment_spec & [Ht Hle]%add_environment_spec)%bind_Some)%bind_Some)%bind_Some)%bind_Some).
  apply (fold_opt_sum _ (λ a, string_cost (text_size a))) in Ha; [|by intros ??? [-> _]%add_string_spec].
  apply (fold_opt_sum _ (λ e : bytes * option PayloadText, variable_cost (e.1, default [] <$> e.2))) in He.
  2: { intros total [name [v|]] t'; cbn [fst snd]; [|intros [= <-]; unfold variable_cost; cbn; lia].
       intros [-> _]%add_environment_spec. unfold variable_cost. cbn. by rewrite text_size_length. }
  unfold request_bytes. cbn [command arguments environment]. rewrite !sum_of_map.
  rewrite (sum_of_ext _ (λ a, string_cost (text_size a))) by (intros a; cbn; by rewrite text_size_length).
  unfold kCanonicalUuidBytes, kMaximumAttemptDigits in *. cbn [length] in Ht, Hle. change (sum_of (_ ∘ _)) with
    (sum_of (λ e : bytes * option PayloadText, variable_cost (e.1, default [] <$> e.2))). lia.
Qed.

(** ** The search path *)

Definition absolute_path (s : bytes) : Prop := head s = Some #"/".

Definition candidate_cost (cmd directory : bytes) : Z :=
  Z.of_nat (length directory) + (if bool_decide (last directory = Some #"/") then 0 else 1) + Z.of_nat (length cmd) + 1.

(** At most 256 absolute directories whose candidates take at most 256 KiB. *)
Record search_path (cmd path : bytes) : Prop := {
  directories_absolute : Forall absolute_path (members #":" path);
  directories_counted : Z.of_nat (length (members #":" path)) <= maximum_cli_path_entries;
  candidates_bounded : sum_of (candidate_cost cmd) (members #":" path) <= maximum_cli_path_candidate_bytes }.

Lemma path_candidate_spec cmd state directory state' :
  path_candidate cmd state directory = Some state' →
  absolute_path directory ∧ state.1 ≠ maximum_cli_path_entries ∧ state'.1 = state.1 + 1 ∧
  state'.2 = state.2 + candidate_cost cmd directory ∧ state'.2 <= maximum_cli_path_candidate_bytes.
Proof.
  destruct state as [entries total]. unfold path_candidate, absolute_path, candidate_cost. destruct (_ || _) eqn:E; [done|].
  rewrite !orb_false_iff, negb_false_iff, bool_decide_eq_true, Z.eqb_neq in E. destruct E as [[_ Hd] He].
  intros (t1 & (_ & -> & _)%add_bytes_spec & (t2 & (_ & -> & _)%add_bytes_spec & (t3 & (_ & -> & _)%add_bytes_spec &
    (t4 & (_ & -> & ?)%add_bytes_spec & [= <-])%bind_Some)%bind_Some)%bind_Some)%bind_Some.
  cbn. split_and!; [done..|lia|lia].
Qed.

Lemma path_candidates_spec cmd l entries total state' :
  entries <= maximum_cli_path_entries → total <= maximum_cli_path_candidate_bytes →
  fold_opt (path_candidate cmd) (entries, total) l = Some state' →
  Forall absolute_path l ∧ entries + Z.of_nat (length l) <= maximum_cli_path_entries ∧
  total + sum_of (candidate_cost cmd) l <= maximum_cli_path_candidate_bytes.
Proof.
  revert entries total. induction l as [|d l IH]; intros entries total He Ht; cbn [fold_opt].
  { intros _. cbn. split_and!; [constructor|lia|lia]. }
  intros ([e t] & Hd & Hr)%bind_Some. apply path_candidate_spec in Hd as (Ha & Hn & He' & Ht' & Hle). cbn in *. subst.
  apply IH in Hr as (? & ? & ?); [|lia|lia]. unfold sum_of in *. split_and!; [by constructor|lia|lia].
Qed.

(** ** Elements of a filled map *)

Lemma emplace_elem {V} k (v : V) o e : e ∈ emplace k v o → e = (k, v) ∨ e ∈ o.
Proof.
  induction o as [|[k' w] o IH]; cbn; [intros ->%list_elem_of_singleton; by left|].
  destruct (bytes_ltb k k'); [by intros [->|?]%elem_of_cons; [left|right]|]. destruct (bytes_ltb k' k); [|by right].
  intros [->|[?|?]%IH]%elem_of_cons; [right; apply list_elem_of_here|by left|right; by apply elem_of_cons; right].
Qed.

Lemma emplace_length {V} k (v : V) o : (length (emplace k v o) <= S (length o))%nat.
Proof. induction o as [|[k' w] o IH]; cbn; [lia|]. destruct (bytes_ltb k k'), (bytes_ltb k' k); cbn; lia. Qed.

Lemma filled_elem {V W} (f : V → W) done l e : e ∈ filled f done l → e ∈ done ∨ ∃ x, x ∈ l ∧ e = (x.1, f x.2).
Proof.
  revert done. induction l as [|x l IH]; intros o; [by left|]. rewrite filled_cons.
  intros [[->|?]%emplace_elem|(y & Hy & ->)]%IH; [right; exists x; split; [apply list_elem_of_here|done]|by left|].
  right. exists y. split; [by apply elem_of_cons; right|done].
Qed.

Lemma filled_length {V W} (f : V → W) done l : (length (filled f done l) <= length done + length l)%nat.
Proof.
  revert done. induction l as [|x l IH]; intros o; [cbn; lia|]. rewrite filled_cons. etrans; [apply IH|].
  pose proof (emplace_length x.1 (f x.2) o). cbn. lia.
Qed.

Lemma find_variable_elem env name v : find_variable env name = Some v → (name, v) ∈ env.
Proof.
  induction env as [|[k w] env IH]; cbn; [done|]. unfold bytes_eqb. case_bool_decide; subst.
  - intros [= ->]. apply list_elem_of_here.
  - intros ?%IH. by apply elem_of_cons; right.
Qed.

(** ** The guarantee *)

Definition c_string (s : bytes) : Prop := 0 ∉ s.

Lemma not_contains_nul s : contains_nul s = false → c_string s.
Proof. apply is_some_find. Qed.

Definition safe_variable (e : bytes * option bytes) : Prop :=
  valid_environment_name e.1 = true ∧ (e.1 ∉ kReservedEnvironmentNames) ∧ ∀ v, e.2 = Some v → c_string v.

Record executable_request (d : CliJobPayload) : Prop := {
  request_command : command d ≠ [] ∧ Z.of_nat (length (command d)) <= maximum_cli_path_bytes ∧ c_string (command d);
  request_directory : absolute_path (working_directory d) ∧
    Z.of_nat (length (working_directory d)) <= maximum_cli_path_bytes ∧ c_string (working_directory d);
  request_search : absolute_path (command d) ∨
    (#"/" ∉ command d) ∧ ∃ path, (bs!"PATH", Some path) ∈ environment d ∧ search_path (command d) path;
  request_arguments : Z.of_nat (length (arguments d)) <= maximum_cli_arguments ∧ Forall c_string (arguments d);
  request_environment :
    Z.of_nat (length (environment d)) <= maximum_cli_environment_entries ∧ Forall safe_variable (environment d);
  request_fits_limit : request_bytes d <= maximum_cli_prepared_request_bytes }.

Lemma decoded_variable v :
  v = JsonNull ∨ text_value None v → literal_clean v → ∀ s, default [] <$> entry_text v = Some s → c_string s.
Proof.
  intros [->|[t ->]%text_value_concrete] Hc s; [done|]. cbn. intros [= <-]. by apply not_contains_nul.
Qed.

Lemma accepted_environment object p :
  cli_accepted None object p →
  Forall safe_variable (map (λ e : bytes * option PayloadText, (e.1, default [] <$> e.2)) (parsed_environment p)).
Proof.
  intros [_ _ _ _ -> _ Hv _ _ _ _]. apply Forall_forall. intros e (x & -> & Hx)%list_elem_of_fmap.
  apply filled_elem in Hx as [?%elem_of_nil|([name v] & Hin & ->)]; [done|]. rewrite Forall_forall in Hv.
  destruct (Hv _ Hin) as [[Hn Hr] Ht Hc]. cbn in *. split_and!; [done| |].
  - unfold reserved_environment_name in Hr. by apply bool_decide_eq_false in Hr.
  - cbn. apply decoded_variable; [|done]. by destruct (routing_name name).
Qed.

Lemma accepted_search object p :
  cli_accepted None object p → #"/" ∉ parsed_command p ∨ absolute_path (parsed_command p) →
  absolute_path (parsed_command p) ∨
  (#"/" ∉ parsed_command p) ∧ ∃ path,
    (bs!"PATH", Some path) ∈ map (λ e : bytes * option PayloadText, (e.1, default [] <$> e.2)) (parsed_environment p) ∧
    search_path (parsed_command p) path.
Proof.
  intros [_ _ _ _ _ _ _ _ _ Hp _] Hc. unfold validate_bare_command_path in Hp. case_bool_decide as Ha; [by left|].
  right. split; [by destruct Hc|].
  destruct (find_variable _ _) as [[[path|]|]|] eqn:Hf; try done. exists path. split.
  - apply find_variable_elem in Hf. apply list_elem_of_fmap. by exists (bs!"PATH", Some (Some path)).
  - destruct (fold_opt _ _ _) as [state|] eqn:Hs; [|done].
    apply path_candidates_spec in Hs as (? & ? & ?); [|by vm_compute..]. by split; try lia.
Qed.

(** C27.  A decoded command-line payload can be executed as it stands: the
    command, the arguments, the working directory and the variables are C
    strings; the command is absolute or is searched, without a slash of its
    own, in at most 256 absolute directories whose candidates take at most
    256 KiB; the names of the variables are valid and none is one that the
    daemon sets; and the vectors of the process, with the longest values of the
    daemon's own variables, take at most 256 KiB. *)
Theorem decoded_cli_executable payload decoded :
  decode_cli_job_payload payload = success decoded → executable_request decoded.
Proof.
  intros (object & p & -> & Ha & ->)%decoded_cli. pose proof Ha as [Hcmd Hdir _ Hargs Henv [Htv Htc] _ _ [Hl Hv] _ Hfit].
  assert (Hc : parsed_command p ≠ [] ∧ Z.of_nat (length (parsed_command p)) <= maximum_cli_path_bytes ∧
               c_string (parsed_command p) ∧ (#"/" ∉ parsed_command p ∨ absolute_path (parsed_command p))).
  { unfold decode_command in Hcmd. destruct (member object _) as [[| | | | |t| |]|]; try done.
    case_bool_decide; [done|]. destruct (_ || _) eqn:E; [done|]. injection Hcmd as <-.
    rewrite !orb_false_iff, Z.ltb_ge, andb_false_iff, negb_false_iff, bool_decide_eq_true in E.
    destruct E as [[? ?%not_contains_nul] Hs]. split_and!; [done..|]. destruct Hs as [?|?%is_some_find]; [by right|by left]. }
  destruct Hc as (? & ? & ? & Hs). split; cbn; [done| |by eapply accepted_search| | |by apply request_fits].
  - unfold decode_working_directory in Hdir. destruct (member object _) as [[| | | | |t| |]|]; try done.
    + destruct (_ || _) eqn:E; [done|]. injection Hdir as <-.
      rewrite !orb_false_iff, Z.ltb_ge, negb_false_iff, bool_decide_eq_true in E.
      destruct E as [[[_ ?] ?] ?%not_contains_nul]. done.
    + injection Hdir as <-. split_and!; [done|by vm_compute|]. by intros ?%list_elem_of_singleton.
  - rewrite Hargs, !length_map. split; [done|]. rewrite map_map. apply Forall_map.
    eapply Forall_impl; [apply Forall_and; split; [exact Htv|exact Htc]|]. intros v [[t ->]%text_value_concrete Hn].
    by apply not_contains_nul.
  - rewrite length_map, Henv. split; [pose proof (filled_length entry_text [] (variables_of object)); cbn in *; lia|].
    rewrite <- Henv. by eapply accepted_environment.
Qed.

Definition listing : JsonValue :=
  JsonObject [(bs!"arguments", JsonArray [JsonString bs!"-l"]); (bs!"command", JsonString bs!"ls");
              (bs!"environment", JsonObject [(bs!"PATH", JsonString bs!"/usr/bin:/bin/")])].
Definition decoded_listing : CliJobPayload :=
  mkCliPayload bs!"ls" [bs!"-l"] bs!"/" [(bs!"PATH", Some bs!"/usr/bin:/bin/")] {[ 0 ]}.

Lemma decoded_cli_executable_witness :
  decode_cli_job_payload listing = success decoded_listing ∧ executable_request decoded_listing ∧
  request_bytes decoded_listing = 222.
Proof.
  split; [vm_compute; reflexivity|]. split; [|vm_compute; reflexivity].
  apply (decoded_cli_executable listing). vm_compute. reflexivity.
Defined.

(** ** Admission *)

Lemma submitted_canonical m : parse_submitted_http_method (http_method_text m) = success m.
Proof. by destruct m. Qed.

Lemma stored_canonical m : decode_stored_http_method (http_method_text m) = CanonicalMethod m.
Proof. by destruct m. Qed.

(** A submitted method is accepted in any case of its letters. *)
Lemma submitted_method_folds v m : parse_submitted_http_method v = success m ↔ map ascii_upper v = http_method_text m.
Proof.
  unfold parse_submitted_http_method, matches_submitted_method. split.
  - unfold kMethods. cbn [find_submitted]. unfold matches_submitted_method, bytes_eqb.
    do 6 (case_bool_decide; [by intros [= <-]|]). done.
  - intros E. assert (Hf : find_submitted v kMethods = Some m).
    { unfold kMethods. cbn [find_submitted]. unfold matches_submitted_method. rewrite E. by destruct m. }
    by rewrite Hf.
Qed.

Lemma insert_or_assign_twice k v o : insert_or_assign k v (insert_or_assign k v o) = insert_or_assign k v o.
Proof.
  induction o as [|[k' w] o IH]; cbn [insert_or_assign]; [by rewrite before_irrefl|].
  destruct (bytes_ltb k k') eqn:E1; [cbn; by rewrite before_irrefl|].
  destruct (bytes_ltb k' k) eqn:E2; cbn [insert_or_assign]; [by rewrite E1, E2, IH|by rewrite before_irrefl].
Qed.

Lemma canonicalize_twice type payload p :
  canonicalize_method type payload = success p →
  canonicalize_method type p = success p ∧
  (type = Http → is_object p = true → ∃ object m, p = JsonObject object ∧
     member object bs!"method" = Some (JsonString (http_method_text m))).
Proof.
  destruct type; [by intros [= <-]|]. destruct payload as [| | | | | | |object]; try (by intros [= <-]).
  cbn [canonicalize_method]. destruct (submitted_method object) as [m|]; [|done]. intros [= <-].
  assert (Hm : member (insert_or_assign bs!"method" (JsonString (http_method_text m)) object) bs!"method" =
               Some (JsonString (http_method_text m))) by by rewrite member_insert.
  split; [|intros _ _; by eauto]. cbn [canonicalize_method]. unfold submitted_method.
  rewrite Hm, submitted_canonical. cbn [mbind result_bind]. by rewrite insert_or_assign_twice.
Qed.

(** What admission lets through. *)
Record admitted (serialize_json : JsonValue → result Error bytes) (type : JobType) (p : JsonValue) : Prop := {
  admitted_size : ∃ text, serialize_json p = success text ∧ Z.of_nat (length text) <= maximum_job_document_bytes;
  admitted_template : ∃ references, validate_payload_template type p = success references;
  admitted_method : type = Http → ∃ object m, p = JsonObject object ∧
    member object bs!"method" = Some (JsonString (http_method_text m)) ∧
    decode_stored_http_method (http_method_text m) = CanonicalMethod m }.

(** A payload that is admitted is an accepted template within the size
    limit, and, for HTTP, its method is one of the six supported in its
    canonical spelling, which the executor decodes as such and not as a legacy
    method; submitting it again changes nothing. *)
Theorem admission_idempotent serialize_json type payload p :
  normalize_submitted_job_payload serialize_json type payload = success p →
  normalize_submitted_job_payload serialize_json type p = success p ∧ admitted serialize_json type p.
Proof.
  unfold normalize_submitted_job_payload. destruct (canonicalize_method type payload) as [q|] eqn:Hc; [|done].
  cbn [mbind result_bind]. destruct (validate_and_serialize_job_payload _ type q) as [text|] eqn:Hv; [|done].
  intros [= ->]. apply canonicalize_twice in Hc as [Hc Hm]. rewrite Hc. cbn [mbind result_bind]. rewrite Hv.
  split; [done|]. unfold validate_and_serialize_job_payload, job_payload_structure_issue in Hv.
  destruct (serialize_json p) as [t|] eqn:Hs; [|done].
  destruct (Z.ltb_spec maximum_job_document_bytes (Z.of_nat (length t))); [done|].
  destruct (validate_payload_template type p) as [references|] eqn:Ht; [|done]. split; [by eauto..|]. intros ->.
  destruct (Hm eq_refl) as (object & m & -> & Hmember).
  - unfold validate_payload_template in Ht. by destruct (is_object p).
  - exists object, m. split_and!; [done..|apply stored_canonical].
Qed.

Lemma admission_idempotent_witness :
  let serialize (_ : JsonValue) : result Error bytes := success bs!"{}" in
  let submitted := JsonObject [(bs!"method", JsonString bs!"post"); (bs!"url", JsonString bs!"http://localhost/")] in
  let stored := JsonObject [(bs!"method", JsonString bs!"POST"); (bs!"url", JsonString bs!"http://localhost/")] in
  normalize_submitted_job_payload serialize Http submitted = success stored ∧
  normalize_submitted_job_payload serialize Http stored = success stored ∧ admitted serialize Http stored.
Proof.
  cbv zeta. split; [vm_compute; reflexivity|].
  apply (admission_idempotent _ Http
    (JsonObject [(bs!"method", JsonString bs!"post"); (bs!"url", JsonString bs!"http://localhost/")])).
  vm_compute. reflexivity.
Defined.
