(* ===== verification/Storage.v ===== *)
(** * The durable store

    The tables of [src/jobu/sqlite/sqlite_schema.cpp] and the repositories
    over them: [queue_repository_priv.cpp], [job_repository_priv.cpp],
    [run_repository_priv.cpp], [attempt_repository_priv.cpp] and the row
    checks of [domain_storage_priv.cpp].

    A table is a finite map from its primary key to its rows; a statement is
    the function on the tables that its SQL text describes.  Any statement may
    fail ([fault]), a stored document may fail to decode ([unreadable_run] and
    its like), and a failed transaction leaves no trace in the tables.
    Documents are kept decoded (attributes, payload) or as text (results). *)

From stdpp Require Import base numbers strings list gmap.
From S2P Require Import Prelude Effects Values OutputCapture CronEngine Domain ResourceNames.
Local Open Scope Z_scope.

Record Tables := mkTables {
  queues : gmap bytes Queue;
  jobs : gmap bytes JobDefinition;
  runs : gmap bytes JobRun;
  attempts : gmap (bytes * Z) JobAttempt;
  outputs : gmap (bytes * Z) StoredOutput }.

Definition set_queues (q : gmap bytes Queue) (t : Tables) : Tables :=
  mkTables q (jobs t) (runs t) (attempts t) (outputs t).
Definition set_jobs (j : gmap bytes JobDefinition) (t : Tables) : Tables :=
  mkTables (queues t) j (runs t) (attempts t) (outputs t).
Definition set_runs (r : gmap bytes JobRun) (t : Tables) : Tables :=
  mkTables (queues t) (jobs t) r (attempts t) (outputs t).
Definition set_attempts (a : gmap (bytes * Z) JobAttempt) (t : Tables) : Tables :=
  mkTables (queues t) (jobs t) (runs t) a (outputs t).
Definition set_outputs (o : gmap (bytes * Z) StoredOutput) (t : Tables) : Tables :=
  mkTables (queues t) (jobs t) (runs t) (attempts t) o.

(** The table [jobu_run_timing], which the accounting of waiting time owns:
    [src/jobu/wait_repository_priv.hpp], [src/jobu/run_repository_priv.hpp]. *)
Inductive WaitQuality := Unmeasured | Complete | Partial.
Inductive InitialRunMeasurement := InitialUnmeasured | InitialComplete.

Record TimingRow := mkTiming {
  runnable_wait_us : Z;
  quality : WaitQuality;
  open_epoch : option bytes;
  open_tick_us : option Z;
  delay_warned : bool }.

Abbreviation Timing := (gmap bytes TimingRow).

(** [src/jobu/run_eligibility_priv.hpp]: whose runs are accounted. *)
Inductive EligibilityScope := ScopeJob (id : bytes) | ScopeQueue (id : bytes) | ScopeAll.

(** The tables that only management reads and writes: [jobu_secrets] (the
    names), [jobu_secret_refs] (name, job and field) and [jobu_idempotency]
    (by method, scope and key); [src/jobu/idempotency_repository_priv.hpp]. *)
Record IdempotencyRecord := mkRecord {
  record_method : bytes;
  record_scope : bytes;
  record_key : bytes;
  request_json : bytes;
  result_json : bytes;
  resource_id : bytes;
  record_created_at : Z;
  record_expires_at : option Z }.

Record SideTables := mkSide {
  secrets : gset bytes;
  secret_refs : gset (bytes * bytes * bytes);
  idempotency : gmap (bytes * bytes * bytes) IdempotencyRecord }.

(** What the repositories rely on and the sources do not define: the database
    engine, the JSON codec, the identifier generator and the cron engine; and
    the telemetry service, which accounts the waiting time of a job's runs. *)
Class Environment := {
  Engine : Type;
  cron_engine :: CronEngine Engine;
  (** The failure of the n-th statement, if it fails. *)
  fault : nat → option Error;
  (** The message of the engine for a violated constraint. *)
  constraint_message : string;
  (** The n-th identifier that is generated. *)
  generate : nat → result Error bytes;
  serialize_json : JsonValue → result Error bytes;
  unreadable_queue : Queue → option Error;
  unreadable_job : JobDefinition → option Error;
  unreadable_run : JobRun → option Error;
  unreadable_attempt : JobAttempt → option Error;
  (** The attributes or the payload of a new run cannot be encoded. *)
  unwritable_run : JobRun → option Error;
  (** The measurement of runs created at a time. *)
  measurement_at : Z → InitialRunMeasurement;
  (** The accounting of a scope at a point of the execution. *)
  settle_scope : EligibilityScope → nat → Tables → Timing → result Error Timing;
  reconcile_scope : EligibilityScope → nat → Tables → Timing → result Error Timing }.

Record Session `{Environment} := mkSession {
  tables : Tables;
  timing : Timing;
  side : SideTables;
  engine : Engine;
  statements : nat;
  generated : nat }.
Arguments mkSession {_}.
Arguments tables {_}.
Arguments timing {_}.
Arguments side {_}.
Arguments engine {_}.
Arguments statements {_}.
Arguments generated {_}.

(** ** Errors *)

Definition invariant_error (message reason : string) : Error :=
  mkError Internal "jobu.storage.invariant" message ("reason=" +:+ reason).
Definition invalid_run (reason : string) : Error :=
  invariant_error "Persisted run data violates a JobU invariant" reason.
Definition invalid_job (reason : string) : Error :=
  invariant_error "Persisted job data violates a JobU invariant" reason.
Definition invalid_attempt (reason : string) : Error :=
  invariant_error "Persisted attempt data violates a JobU invariant" reason.
Definition invalid_queue_row (reason : string) : Error :=
  mkError Internal "jobu.storage.invalid_queue" "Persisted queue data is invalid" ("reason=" +:+ reason).
Definition schedule_conflict (detail : string) : Error :=
  mkError Conflict "jobu.run.schedule_conflict" "The job already has a schedule-owned non-terminal run" detail.
(** The detail of a translated failure. *)
Definition caused_by (cause : Error) : string :=
  "cause=" +:+ code cause +:+ (if bool_decide (detail cause = "") then "" else " " +:+ detail cause).
Definition unstorable_integer : Error :=
  mkError Internal "jobu.storage.invalid_integer" "JobU integer cannot be persisted" "reason=out_of_range".

Section Repositories.
Context `{Environment}.

Abbreviation Tx := (ES Session).

Definition unique_violation : Error := mkError Conflict "db.constraint.unique" constraint_message "".
Definition foreign_key_violation : Error := mkError Conflict "db.constraint.foreign_key" constraint_message "".

(** ** Statements and transactions *)

Definition set_tables (t : Tables) (s : Session) : Session :=
  mkSession t (timing s) (side s) (engine s) (statements s) (generated s).
Definition set_timing (x : Timing) (s : Session) : Session :=
  mkSession (tables s) x (side s) (engine s) (statements s) (generated s).
Definition set_side (x : SideTables) (s : Session) : Session :=
  mkSession (tables s) (timing s) x (engine s) (statements s) (generated s).
Definition set_engine (e : Engine) (s : Session) : Session :=
  mkSession (tables s) (timing s) (side s) e (statements s) (generated s).

Definition statement : Tx unit := λ s,
  let s' := mkSession (tables s) (timing s) (side s) (engine s) (S (statements s)) (generated s) in
  match fault (statements s) with
  | Some e => (failure e, s')
  | None => (success tt, s')
  end.

Definition query {A} (f : Tables → A) : Tx A := _ ← statement; gets (λ s, f (tables s)).
Definition update (f : Tables → Tables) : Tx unit := _ ← statement; modify (λ s, set_tables (f (tables s)) s).

(** The failure as a value. *)
Definition attempted {A} (m : Tx A) : Tx (result Error A) := λ s, let '(r, s) := m s in (success r, s).

(** An identifier of [UuidGenerator::generate]. *)
Definition generate_uuid : Tx bytes := λ s,
  (generate (generated s), mkSession (tables s) (timing s) (side s) (engine s) (statements s) (S (generated s))).

(** A step of the accounting. *)
Definition account (f : nat → Tables → Timing → result Error Timing) : Tx unit := λ s,
  match f (statements s) (tables s) (timing s) with
  | success x => (success tt, set_timing x s)
  | failure e => (failure e, s)
  end.

(** What the guard's destructor or [rollback] leaves of [s'] when the
    transaction began in [s]. *)
Definition rolled_back (s s' : Session) : Session := set_side (side s) (set_timing (timing s) (set_tables (tables s) s')).

(** [Transaction::begin] ... [commit]; a value that is not to be kept is an
    explicit [rollback]. *)
Definition transaction {A} (keep : A → bool) (m : Tx A) : Tx A := λ s,
  match statement s with
  | (failure e, s1) => (failure e, s1)
  | (success _, s1) =>
      match m s1 with
      | (failure e, s2) => (failure e, rolled_back s s2)
      | (success v, s2) =>
          match statement s2 with
          | (failure e, s3) => (failure e, rolled_back s s3)
          | (success _, s3) => (success v, if keep v then s3 else rolled_back s s3)
          end
      end
  end.

Definition require {A} (o : option A) (e : Error) : Tx A := of_result (ok_or o e).
Definition ensure (b : bool) (e : Error) : Tx unit := of_result (check b e).
Definition readable {A} (unreadable : A → option Error) (v : A) : result Error unit :=
  match unreadable v with Some e => failure e | None => success tt end.

(** ** Values *)

(** [revision_to_storage], [attempt_number_to_storage]. *)
Definition positive_unsigned_to_storage (v : Z) : result Error Z :=
  if (v =? 0) || (int64_max <? v) then failure unstorable_integer else success v.

Definition is_terminal_run (state : RunState) : bool :=
  match state with RunSucceeded | RunFailed | RunInterrupted | RunCancelled => true | _ => false end.

Definition is_live_run (state : RunState) : bool :=
  match state with RunScheduled | RunRunning | RunRetryWait => true | _ => false end.

Definition valid_started_at (state : RunState) (has_started_at : bool) : bool :=
  match state with
  | RunScheduled => negb has_started_at
  | RunRunning | RunRetryWait | RunSucceeded | RunFailed | RunInterrupted => has_started_at
  | RunCancelled => true
  end.


(** [ORDER BY]: insertion sort by a strict order. *)
Section Sorting.
Context {A : Type} (before : A → A → bool).

Fixpoint insert_by (v : A) (l : list A) : list A :=
  match l with
  | [] => [v]
  | x :: l' => if before v x then v :: l else x :: insert_by v l'
  end.
Definition sort_by (l : list A) : list A := foldr insert_by [] l.
End Sorting.

(** ** Runs *)

Definition read_job_run (r : JobRun) : result Error JobRun :=
  _ ← readable unreadable_run r;
  _ ← check (negb (schedule_owned r) || bool_decide (run_origin r = OriginScheduled))
        (invalid_run "schedule_owned_origin");
  _ ← check (eqb (is_terminal_run (run_state r)) (is_some (run_completed_at r)))
        (invalid_run "completion_state_mismatch");
  _ ← check (is_terminal_run (run_state r) || negb (is_some (run_result r))) (invalid_run "non_terminal_result");
  _ ← check (valid_started_at (run_state r) (is_some (run_started_at r))) (invalid_run "started_state_mismatch");
  success r.

(** The rows that a condition selects, in some order. *)
Definition runs_where (p : JobRun → bool) (t : Tables) : list JobRun :=
  map snd (map_to_list (filter (λ kr, p kr.2 = true) (runs t))).

Definition find_run_by_id (id : bytes) : Tx (option JobRun) :=
  found ← query (λ t, runs t !! id);
  match found with
  | None => mret None
  | Some r => r ← of_result (read_job_run r); mret (Some r)
  end.

Definition live_schedule_owned (job : bytes) (r : JobRun) : bool :=
  bytes_eqb (run_job r) job && schedule_owned r && is_live_run (run_state r).

Definition find_schedule_owned (job : bytes) : Tx (option JobRun) :=
  rows ← query (runs_where (live_schedule_owned job));
  match rows with
  | [] => mret None
  | r :: rest =>
      r ← of_result (read_job_run r);
      _ ← ensure (bool_decide (rest = [])) (invalid_run "multiple_schedule_owned_runs");
      mret (Some r)
  end.

(** [INSERT INTO jobu_runs], with the constraints of the table; the caller
    looks at the failure. *)
Definition insert_run_row (r : JobRun) : Tx (result Error unit) :=
  executed ← attempted statement;
  t ← gets tables;
  if negb (is_success executed) then mret executed
  else if is_some (runs t !! run_id r) ||
     (schedule_owned r && is_live_run (run_state r) && negb (bool_decide (runs_where (live_schedule_owned (run_job r)) t = [])))
  then mret (failure unique_violation)
  else if negb (is_some (jobs t !! run_job r) && is_some (queues t !! run_queue r))
  then mret (failure foreign_key_violation)
  else _ ← modify (λ s, set_tables (set_runs (<[run_id r := r]> (runs t)) t) s); mret (success tt).

(** The row of a new occurrence as it is stored. *)
Definition scheduled_row (r : JobRun) : JobRun :=
  mkRun (run_id r) (run_job r) (run_revision r) (run_queue r) OriginScheduled true (floor_us (planned_at r))
    (floor_us (runnable_at r)) None None (run_type r) (run_priority r) (run_attributes r) (run_payload r)
    RunScheduled None.

Definition insert_initial_timing (run : bytes) (measurement : InitialRunMeasurement) : Tx unit :=
  t ← query (λ t, t);
  rows ← gets timing;
  if is_some (rows !! run) then throw unique_violation
  else if negb (is_some (runs t !! run)) then throw foreign_key_violation
  else modify (λ s, set_timing
    (<[run := mkTiming 0 (match measurement with InitialComplete => Complete | InitialUnmeasured => Unmeasured end)
                None None false]> rows) s).

(** [insert_schedule_owned] of a run in state [Scheduled]; the other states
    are used by fixtures only. *)
Definition insert_schedule_owned (r : JobRun) (measurement : InitialRunMeasurement) : Tx unit :=
  _ ← ensure (schedule_owned r && bool_decide (run_origin r = OriginScheduled)) (invalid_run "insert_not_schedule_owned");
  _ ← ensure (bool_decide (run_state r = RunScheduled) && negb (is_some (run_completed_at r)) &&
              negb (is_some (run_result r)) && negb (is_some (run_started_at r)))
        (invalid_run "insert_state_mismatch");
  _ ← of_result (readable unwritable_run r);
  _ ← of_result (positive_unsigned_to_storage (run_revision r));
  existing ← find_schedule_owned (run_job r);
  _ ← ensure (negb (is_some existing)) (schedule_conflict "");
  inserted ← insert_run_row (scheduled_row r);
  _ ← match inserted with
      | success _ => mret tt
      | failure e =>
          if bool_decide (code e = "db.constraint.unique") then
            existing ← find_schedule_owned (run_job r);
            _ ← ensure (negb (is_some existing)) (schedule_conflict (caused_by e));
            throw e
          else throw e
      end;
  insert_initial_timing (run_id r) measurement.

(** [count_running_for_job], [count_running_for_queue]. *)
Definition count_running (selector : JobRun → bytes) (id : bytes) : Tx Z :=
  query (λ t, Z.of_nat (length (runs_where
    (λ r, bytes_eqb (selector r) id && bool_decide (run_state r = RunRunning)) t))).

(** ** Jobs *)

Definition is_once (j : JobDefinition) : bool := match job_schedule j with Once _ => true | Cron _ => false end.

Definition decode_job (j : JobDefinition) : result Error JobDefinition :=
  _ ← readable unreadable_job j;
  _ ← check (match job_name j with Some name => is_valid_job_name name | None => true end) (invalid_job "invalid_name");
  _ ← check (eqb (bool_decide (job_state j = JobDeleted)) (is_some (deleted_at j))) (invalid_job "deleted_state_mismatch");
  _ ← check (negb (is_terminal_job_state (job_state j)) || is_once j) (invalid_job "terminal_state_mismatch");
  success j.

Definition find_job_by_id (id : bytes) : Tx (option JobDefinition) :=
  found ← query (λ t, jobs t !! id);
  match found with
  | None => mret None
  | Some j => j ← of_result (decode_job j); mret (Some j)
  end.

(** The row after a transition. *)
Definition job_with_state (state : JobState) (revision updated : Z) (j : JobDefinition) : JobDefinition :=
  mkJob (job_id j) (job_queue j) revision (job_name j) state (job_type j) (job_schedule j) (job_priority j)
    (job_attributes j) (job_payload j) (created_at j) updated (deleted_at j).

Definition set_job_state (id : bytes) (expected next : JobState) (expected_revision next_revision updated : Z) : Tx bool :=
  _ ← ensure (negb (bool_decide (expected = JobDeleted) || bool_decide (next = JobDeleted) ||
                    bool_decide (expected = next) || (next_revision <=? expected_revision) ||
                    negb (next_revision - expected_revision =? 1)))
        (invalid_job "invalid_state_transition");
  _ ← of_result (positive_unsigned_to_storage expected_revision);
  _ ← of_result (positive_unsigned_to_storage next_revision);
  found ← query (λ t, jobs t !! id);
  match found with
  | Some j =>
      if bool_decide (job_state j = expected) && (job_revision j =? expected_revision) && negb (is_some (deleted_at j))
      then _ ← modify (λ s, set_tables (set_jobs
                 (<[id := job_with_state next next_revision (floor_us updated) j]> (jobs (tables s))) (tables s)) s);
           mret true
      else mret false
  | None => mret false
  end.

(** ** Queues *)

Definition decode_queue (q : Queue) : result Error Queue :=
  _ ← readable unreadable_queue q;
  _ ← check (is_valid_queue_name (queue_name q)) (invalid_queue_row "invalid_name");
  _ ← check (eqb (bool_decide (queue_state q = QueueDeleted)) (is_some (queue_deleted_at q)))
        (invalid_queue_row "deleted_state_mismatch");
  success q.

Definition find_queue_by_id (id : bytes) : Tx (option Queue) :=
  found ← query (λ t, queues t !! id);
  match found with
  | None => mret None
  | Some q => q ← of_result (decode_queue q); mret (Some q)
  end.

Definition queue_with_state (state : QueueState) (revision updated : Z) (q : Queue) : Queue :=
  mkQueueRow (row_queue_id q) revision (queue_name q) state (row_weight q) (row_concurrency_limit q)
    (recovery_policy q) (queue_defaults q) (history_retention q) (runnable_wait_warning q) (queue_created_at q)
    updated (queue_deleted_at q).

Definition set_queue_state (id : bytes) (expected next : QueueState) (expected_revision next_revision updated : Z)
    : Tx bool :=
  _ ← ensure (negb (bool_decide (expected = QueueDeleted) || bool_decide (next = QueueDeleted) ||
                    bool_decide (expected = next)))
        (invalid_queue_row "invalid_state_transition");
  _ ← of_result (positive_unsigned_to_storage expected_revision);
  _ ← of_result (positive_unsigned_to_storage next_revision);
  _ ← ensure (next_revision - 1 =? expected_revision) (invalid_queue_row "invalid_revision_increment");
  found ← query (λ t, queues t !! id);
  match found with
  | Some q =>
      if bool_decide (queue_state q = expected) && (queue_revision q =? expected_revision) &&
         negb (is_some (queue_deleted_at q))
      then _ ← modify (λ s, set_tables (set_queues
                 (<[id := queue_with_state next next_revision (floor_us updated) q]> (queues (tables s))) (tables s)) s);
           mret true
      else mret false
  | None => mret false
  end.

(** ** Attempts *)

Definition valid_attempt_state (a : JobAttempt) : bool :=
  match attempt_state a with
  | AttemptPending =>
      negb (is_some (attempt_started_at a)) && negb (is_some (attempt_completed_at a)) &&
      negb (is_some (attempt_outcome a)) && negb (is_some (attempt_result a))
  | AttemptRunning =>
      is_some (attempt_started_at a) && negb (is_some (attempt_completed_at a)) &&
      negb (is_some (attempt_outcome a)) && negb (is_some (attempt_result a))
  | AttemptCompleted =>
      is_some (attempt_completed_at a) && is_some (attempt_outcome a) &&
      (is_some (attempt_started_at a) || bool_decide (attempt_outcome a = Some Cancelled_))
  end.

Definition attempt_row (a : JobAttempt) : JobAttempt :=
  mkAttempt (attempt_run a) (attempt_number a) (floor_us (attempt_due_at a)) (floor_us <$> attempt_started_at a)
    (floor_us <$> attempt_completed_at a) (attempt_state a) (attempt_outcome a) (attempt_result a).

Definition insert_attempt (a : JobAttempt) : Tx unit :=
  _ ← ensure (valid_attempt_state a) (invalid_attempt "insert_state_fields_mismatch");
  _ ← of_result (positive_unsigned_to_storage (attempt_number a));
  t ← query (λ t, t);
  if is_some (attempts t !! (attempt_run a, attempt_number a)) then throw unique_violation
  else if negb (is_some (runs t !! attempt_run a)) then throw foreign_key_violation
  else modify (λ s, set_tables
         (set_attempts (<[(attempt_run a, attempt_number a) := attempt_row a]> (attempts t)) t) s).

Definition find_attempt (run : bytes) (number : Z) : Tx (option JobAttempt) :=
  _ ← of_result (positive_unsigned_to_storage number);
  found ← query (λ t, attempts t !! (run, number));
  match found with
  | None => mret None
  | Some a =>
      _ ← of_result (readable unreadable_attempt a);
      _ ← ensure (valid_attempt_state a) (invalid_attempt "state_fields_mismatch");
      mret (Some a)
  end.

Definition insert_or_replace_output (run : bytes) (number : Z) (o : StoredOutput) : Tx unit :=
  _ ← of_result (positive_unsigned_to_storage number);
  existing ← query (λ t, outputs t !! (run, number));
  t ← query (λ t, t);
  if negb (is_some existing) && negb (is_some (attempts t !! (run, number))) then throw foreign_key_violation
  else modify (λ s, set_tables (set_outputs (<[(run, number) := o]> (outputs t)) t) s).

End Repositories.
