(* ===== verification/WaitRepository.v ===== *)
(** * Accounting of waiting time

    [src/jobu/wait_repository_priv.cpp]: the rows of [jobu_run_timing].  A row
    accumulates the time its run was runnable; while the run waits, the row is
    open at a tick of the current epoch.  Failures keep their [Error]; the
    origin that telemetry attaches to it is not modelled. *)

From stdpp Require Import base numbers strings list gmap.
From S2P Require Import Prelude Effects Values OutputCapture CronEngine Domain Storage.
Local Open Scope Z_scope.

Record WaitSample := mkSample { sample_utc_now : Z; sample_epoch : bytes; sample_tick_us : Z }.
Record WaitWarning := mkWarning { warning_known_wait : Z; until_warning : option Z; claimed : bool }.

Definition invalid_wait_state (reason : string) : Error :=
  mkError Internal "jobu.telemetry.invalid_state" "Runnable-wait accounting state is invalid" ("reason=" +:+ reason).
Definition clock_regression : Error :=
  mkError Internal "jobu.telemetry.clock_regression" "Runnable-wait monotonic time regressed" "".
Definition counter_overflow : Error :=
  mkError Internal "jobu.telemetry.counter_overflow" "Runnable-wait duration cannot be represented" "".

Definition is_pending (state : RunState) : bool :=
  match state with RunScheduled | RunRetryWait => true | _ => false end.

(** [Uuid::is_nil]. *)
Definition is_nil_id (id : bytes) : bool := forallb (Z.eqb 0) id.

Definition is_unmeasured (q : WaitQuality) : bool := match q with Unmeasured => true | _ => false end.

(** [decode_timing]; columns that hold a value of another type do not occur. *)
Definition decode_timing (state : RunState) (row : TimingRow) : result Error TimingRow :=
  _ ← check (0 <=? runnable_wait_us row) (invalid_wait_state "malformed_row");
  _ ← match open_epoch row, open_tick_us row with
      | Some epoch, Some tick =>
          check (negb (is_nil_id epoch) && (0 <=? tick) && is_pending state) (invalid_wait_state "invalid_open_interval")
      | Some _, None => failure (invalid_wait_state "invalid_open_interval")
      | None, Some _ => failure (invalid_wait_state "unpaired_open_interval")
      | None, None => success tt
      end;
  _ ← check (negb (is_unmeasured (quality row) &&
                   (negb (runnable_wait_us row =? 0) || is_some (open_epoch row) || delay_warned row)))
        (invalid_wait_state "invalid_unmeasured_row");
  success row.

Definition validate_sample (row : TimingRow) (sample : WaitSample) : result Error unit :=
  _ ← check (negb (is_nil_id (sample_epoch sample))) (invalid_wait_state "nil_sample_epoch");
  _ ← check (0 <=? sample_tick_us sample) clock_regression;
  match open_epoch row, open_tick_us row with
  | Some epoch, Some tick =>
      _ ← check (bytes_eqb epoch (sample_epoch sample)) (invalid_wait_state "foreign_open_epoch");
      check (tick <=? sample_tick_us sample) clock_regression
  | _, _ => success tt
  end.

(** The open part of the wait; both ticks are non-negative. *)
Definition open_delta (row : TimingRow) (sample : WaitSample) : Z :=
  match open_tick_us row with Some tick => sample_tick_us sample - tick | None => 0 end.

Definition known_wait (row : TimingRow) (sample : WaitSample) : result Error Z :=
  _ ← validate_sample row sample;
  let delta := open_delta row sample in
  _ ← check (runnable_wait_us row <=? int64_max - delta) counter_overflow;
  success (runnable_wait_us row + delta).

Section Waits.
Context `{Environment}.

Abbreviation Tx := (ES Session).

(** The rows with an open interval, in the order of their identifiers. *)
Definition open_rows (x : Timing) : list bytes :=
  sort_by bytes_ltb (map fst (map_to_list (filter (λ kr : bytes * TimingRow,
    is_some (open_epoch kr.2) || is_some (open_tick_us kr.2) = true) x))).

Definition list_open (limit : nat) (after : option bytes) : Tx (list bytes) :=
  _ ← ensure ((1 <=? limit)%nat && (limit <=? 4096)%nat) (invalid_wait_state "invalid_page_limit");
  _ ← statement;
  ids ← gets (λ s, take limit (List.filter
    (λ id, match after with Some k => bytes_ltb k id | None => true end) (open_rows (timing s))));
  _ ← ensure (forallb (λ id, negb (is_nil_id id)) ids) (invalid_wait_state "invalid_page_key");
  mret ids.

(** The inner join of a timing row with its run. *)
Definition read_timing (run : bytes) : Tx (RunState * TimingRow) :=
  t ← query (λ t, t);
  rows ← gets timing;
  match runs t !! run, rows !! run with
  | Some r, Some row => row ← of_result (decode_timing (run_state r) row); mret (run_state r, row)
  | _, _ => throw (invalid_wait_state "missing_timing_row")
  end.

(** [write]: every column but the warning. *)
Definition write_timing (run : bytes) (row : TimingRow) : Tx unit :=
  _ ← statement;
  rows ← gets timing;
  stored ← require (rows !! run) (invalid_wait_state "timing_update_count");
  modify (λ s, set_timing
    (<[run := mkTiming (runnable_wait_us row) (quality row) (open_epoch row) (open_tick_us row)
                (delay_warned stored)]> rows) s).

Definition repair_abandoned (run : bytes) : Tx bool :=
  found ← read_timing run;
  let row := found.2 in
  if negb (is_some (open_epoch row)) then mret false
  else
    _ ← write_timing run (mkTiming (runnable_wait_us row) Partial None None (delay_warned row));
    mret true.

Definition open_interval (run : bytes) (sample : WaitSample) : Tx TimingRow :=
  found ← read_timing run;
  let '(state, row) := found : RunState * TimingRow in
  _ ← of_result (validate_sample row sample);
  _ ← ensure (is_pending state) (invalid_wait_state "opening_nonpending_run");
  if is_some (open_epoch row) then mret row
  else
    let row := mkTiming (runnable_wait_us row) (if is_unmeasured (quality row) then Partial else quality row)
                 (Some (sample_epoch sample)) (Some (sample_tick_us sample)) (delay_warned row) in
    _ ← write_timing run row;
    mret row.

Definition accumulate (run : bytes) (sample : WaitSample) (close : bool) : Tx TimingRow :=
  found ← read_timing run;
  let row := found.2 in
  _ ← of_result (validate_sample row sample);
  if negb (is_some (open_epoch row)) then mret row
  else
    let delta := open_delta row sample in
    _ ← ensure (runnable_wait_us row <=? int64_max - delta) counter_overflow;
    let row := mkTiming (runnable_wait_us row + delta) (quality row)
                 (if close then None else open_epoch row)
                 (if close then None else Some (sample_tick_us sample)) (delay_warned row) in
    _ ← write_timing run row;
    mret row.

Definition settle (run : bytes) (sample : WaitSample) : Tx TimingRow := accumulate run sample true.
Definition rebase (run : bytes) (sample : WaitSample) : Tx TimingRow := accumulate run sample false.

(** [threshold] in milliseconds. *)
Definition claim_warning (run : bytes) (sample : WaitSample) (threshold : Z) : Tx WaitWarning :=
  found ← read_timing run;
  let '(state, row) := found : RunState * TimingRow in
  total ← of_result (known_wait row sample);
  _ ← ensure (is_pending state && negb (is_unmeasured (quality row)) && (0 <=? threshold))
        (invalid_wait_state "invalid_warning_context");
  if delay_warned row || (threshold =? 0) || (int64_max / 1000 <? threshold) then mret (mkWarning total None false)
  else if total <=? threshold * 1000 then mret (mkWarning total (Some (threshold * 1000 - total + 1)) false)
  else
    _ ← statement;
    rows ← gets timing;
    match rows !! run with
    | Some stored =>
        if delay_warned stored then mret (mkWarning total None false)
        else
          _ ← modify (λ s, set_timing
                (<[run := mkTiming (runnable_wait_us stored) (quality stored) (open_epoch stored)
                            (open_tick_us stored) true]> rows) s);
          mret (mkWarning total None true)
    | None => mret (mkWarning total None false)
    end.

(** [MutationTiming::validate_closed_run] of [execution_telemetry.cpp]. *)
Definition validate_closed_run (run : bytes) : Tx unit :=
  found ← read_timing run;
  ensure (negb (is_some (open_epoch found.2)))
    (mkError Internal "jobu.telemetry.invalid_state" "Telemetry activation or sample is invalid"
       "reason=open_interval_without_owner").

End Waits.
