(* ===== verification/SchedulerRepository.v ===== *)
(** * The scheduler's view of the store

    [src/jobu/scheduler_repository_priv.cpp] and the owner policy of
    [run_eligibility_priv.cpp]: joined rows with their attempt counts, the
    checks on them, the queries that select work and the guarded updates that
    claim, complete and cancel it. *)

From stdpp Require Import base numbers strings list gmap.
From S2P Require Import Prelude Effects Values OutputCapture RetryPolicy Domain Storage.
Local Open Scope Z_scope.

(** ** Owners *)

Record NonterminalRunCounts := mkCounts { scheduled_count : Z; manual_count : Z }.

Definition valid_nonterminal_run_relationship (state : JobState) (one_time : bool) (counts : NonterminalRunCounts)
    : bool :=
  if (1 <? scheduled_count counts) || (1 <? manual_count counts) then false
  else if is_terminal_job_state state then one_time && (scheduled_count counts =? 0) && (manual_count counts =? 0)
  else if bool_decide (state = JobDeleted) then true
  else if (manual_count counts =? 1) && (scheduled_count counts =? 0) then one_time
  else true.

Definition eligible_owners (origin : RunOrigin) (schedule_owned : bool) (job : JobState) (queue : QueueState)
    (manual_barrier : bool) : bool :=
  if negb (bool_decide (queue = QueueActive)) then false
  else if bool_decide (origin = OriginManual)
  then negb schedule_owned &&
       (bool_decide (job = JobActive) || bool_decide (job = JobSuspending) || bool_decide (job = JobSuspended))
  else bool_decide (origin = OriginScheduled) && schedule_owned && bool_decide (job = JobActive) && negb manual_barrier.

(** ** Errors *)

Definition scheduler_invariant (reason : string) : Error :=
  invariant_error "Persisted scheduler data violates a JobU invariant" reason.
Definition caused_invariant (reason : string) (cause : Error) : Error :=
  mkError Internal "jobu.storage.invariant" "Persisted scheduler data violates a JobU invariant"
    ("reason=" +:+ reason +:+ " cause=" +:+ code cause +:+
     (if bool_decide (detail cause = "") then "" else " " +:+ detail cause)).
Definition invalid_limit : Error :=
  mkError InvalidArgument "jobu.storage.invalid_limit" "Repository limit is outside its supported range" "".
Definition attempts_exhausted : Error :=
  mkError ResourceExhausted "jobu.attempt.number_exhausted" "The run cannot allocate another attempt number" "".
Definition job_revision_exhausted : Error :=
  mkError ResourceExhausted "jobu.job.revision_exhausted" "Job revision cannot be incremented" "".
Definition queue_revision_exhausted : Error :=
  mkError ResourceExhausted "jobu.queue.revision_exhausted" "Queue revision cannot be incremented" "".

Definition kMaximumSchedulerPageRows : nat := 1000.
Definition valid_limit (limit : nat) : bool := negb (limit =? 0)%nat && (limit <=? kMaximumSchedulerPageRows)%nat.

(** ** Joined rows *)

Record SchedulerRun := mkSchedulerRun {
  sr_run : JobRun;
  sr_job_queue : bytes;
  sr_job_state : JobState;
  sr_job_is_once : bool;
  sr_queue_state : QueueState;
  active_attempt_count : Z;
  running_attempt_count : Z;
  completed_attempt_count : Z;
  retry_history_count : Z;
  total_attempt_count : Z }.

(** The attempts of a run that a condition selects. *)
Definition count_attempts (run : bytes) (p : JobAttempt → bool) (t : Tables) : Z :=
  Z.of_nat (size (filter (λ ka, ka.1.1 = run ∧ p ka.2 = true) (attempts t))).

Definition is_active_attempt (a : JobAttempt) : bool := negb (bool_decide (attempt_state a = AttemptCompleted)).
Definition is_running_attempt (a : JobAttempt) : bool := bool_decide (attempt_state a = AttemptRunning).
Definition is_completed_attempt (a : JobAttempt) : bool := bool_decide (attempt_state a = AttemptCompleted).
Definition is_retry_history (a : JobAttempt) : bool :=
  is_completed_attempt a &&
  (bool_decide (attempt_outcome a = Some Failed) || bool_decide (attempt_outcome a = Some Interrupted)).

(** The inner joins with the job and the queue of a run. *)
Definition scheduler_row (t : Tables) (r : JobRun) : option SchedulerRun :=
  job ← jobs t !! run_job r;
  queue ← queues t !! run_queue r;
  Some (mkSchedulerRun r (job_queue job) (job_state job) (is_once job) (queue_state queue)
    (count_attempts (run_id r) is_active_attempt t) (count_attempts (run_id r) is_running_attempt t)
    (count_attempts (run_id r) is_completed_attempt t) (count_attempts (run_id r) is_retry_history t)
    (count_attempts (run_id r) (λ _, true) t)).

Definition live_of_job (job : bytes) (r : JobRun) : bool := bytes_eqb (run_job r) job && is_live_run (run_state r).
Definition live_manual (job : bytes) (r : JobRun) : bool :=
  live_of_job job r && bool_decide (run_origin r = OriginManual) && negb (schedule_owned r).
Definition live_scheduled (job : bytes) (r : JobRun) : bool :=
  live_of_job job r && bool_decide (run_origin r = OriginScheduled) && schedule_owned r.

Definition count_runs (p : JobRun → bool) (t : Tables) : Z := Z.of_nat (length (runs_where p t)).

(** [manual_barrier_columns]: the live siblings of a run. *)
Record ManualBarrierSummary := mkSummary { summary_counts : NonterminalRunCounts; summary_live : Z }.

Definition manual_barrier_summary (t : Tables) (job : bytes) : ManualBarrierSummary :=
  mkSummary (mkCounts (count_runs (live_scheduled job) t) (count_runs (live_manual job) t))
    (count_runs (live_of_job job) t).

Section Scheduler.
Context `{Environment}.

Abbreviation Tx := (ES Session).

Definition decode_scheduler_run (allow_deleted_owners : bool) (row : SchedulerRun) : result Error SchedulerRun :=
  _ ← match read_job_run (sr_run row) with
      | failure e => failure (caused_invariant "invalid_run" e)
      | success _ => success tt
      end;
  _ ← check (bytes_eqb (run_queue (sr_run row)) (sr_job_queue row)) (scheduler_invariant "run_job_queue_mismatch");
  _ ← check (allow_deleted_owners ||
             negb (bool_decide (sr_job_state row = JobDeleted) || bool_decide (sr_queue_state row = QueueDeleted)))
        (scheduler_invariant "non_terminal_owner_deleted");
  _ ← check ((active_attempt_count row + completed_attempt_count row =? total_attempt_count row) &&
             (running_attempt_count row <=? active_attempt_count row))
        (scheduler_invariant "attempt_count_mismatch");
  success row.

Definition validate_candidate (row : SchedulerRun) (type : JobType) (now : Z) (future : bool)
    (queue : option bytes) : result Error unit :=
  let r := sr_run row in
  _ ← check (match queue with Some q => bytes_eqb (run_queue r) q | None => true end)
        (scheduler_invariant "candidate_queue_mismatch");
  _ ← check (bool_decide (run_type r = type) && bool_decide (sr_queue_state row = QueueActive))
        (scheduler_invariant "candidate_filter_mismatch");
  _ ← check (eqb (now <? runnable_at r) future) (scheduler_invariant "candidate_time_mismatch");
  _ ← match run_origin r with
      | OriginScheduled =>
          check (schedule_owned r && bool_decide (sr_job_state row = JobActive))
            (scheduler_invariant "scheduled_candidate_relationship")
      | OriginManual =>
          check (negb (schedule_owned r) &&
                 (bool_decide (sr_job_state row = JobActive) || bool_decide (sr_job_state row = JobSuspending) ||
                  bool_decide (sr_job_state row = JobSuspended)))
            (scheduler_invariant "manual_candidate_relationship")
      | OriginSubmitted => failure (scheduler_invariant "unsupported_candidate_origin")
      end;
  _ ← check ((active_attempt_count row =? 0) && (running_attempt_count row =? 0))
        (scheduler_invariant "candidate_active_attempt");
  _ ← check (bool_decide (run_state r = RunScheduled) || bool_decide (run_state r = RunRetryWait))
        (scheduler_invariant "candidate_state");
  _ ← check (negb (bool_decide (run_state r = RunScheduled) && negb (total_attempt_count row =? 0)))
        (scheduler_invariant "scheduled_candidate_has_attempt");
  check (negb (bool_decide (run_state r = RunRetryWait) &&
               ((completed_attempt_count row =? 0) ||
                negb (completed_attempt_count row =? total_attempt_count row) ||
                negb (retry_history_count row =? completed_attempt_count row))))
    (scheduler_invariant "retry_candidate_attempt_history").

Definition capacity_usage (row : SchedulerRun) : result Error CapacityUsage :=
  let r := sr_run row in
  if bool_decide (run_state r = RunRunning) then
    _ ← check ((active_attempt_count row =? 1) && (running_attempt_count row =? 1) &&
               (completed_attempt_count row + 1 =? total_attempt_count row))
          (scheduler_invariant "running_attempt_relationship");
    success (match run_type r with Cli => mkUsage 1 0 1 | Http => mkUsage 0 1 1 end)
  else
    _ ← check (bool_decide (run_state r = RunRetryWait) && (active_attempt_count row =? 0) &&
               negb (completed_attempt_count row =? 0) &&
               (completed_attempt_count row =? total_attempt_count row) &&
               (retry_history_count row =? completed_attempt_count row))
          (scheduler_invariant "retry_attempt_relationship");
    match retry_policy_from_attributes (run_attributes r) with
    | failure e => failure (caused_invariant "invalid_retry_policy" e)
    | success policy =>
        let job_permits_execution :=
          bool_decide (sr_job_state row = JobActive) || bool_decide (run_origin r = OriginManual) in
        success (mkUsage 0 0
          (if bool_decide (mode policy = Blocking) && job_permits_execution &&
              bool_decide (sr_queue_state row = QueueActive) then 1 else 0))
    end.

(** ** Selection *)

(** The rows of the joined query, in the order of [before]. *)
Definition scheduler_rows (p : Tables → JobRun → bool) (before : JobRun → JobRun → bool) (t : Tables)
    : list SchedulerRun :=
  omap (scheduler_row t) (sort_by before (runs_where (p t) t)).

Definition after_clause (after : option bytes) (id : bytes) : bool :=
  match after with None => true | Some k => bytes_ltb k id end.
Definition by_id (a b : JobRun) : bool := bytes_ltb (run_id a) (run_id b).

Fixpoint decode_rows {R A} (decode : R → result Error A) (rows : list R) : result Error (list A) :=
  match rows with
  | [] => success []
  | row :: rows => v ← decode row; rest ← decode_rows decode rows; success (v :: rest)
  end.

Definition list_runtime_queues (limit : nat) (after : option bytes) : Tx (list QueueRuntime) :=
  _ ← ensure (valid_limit limit) invalid_limit;
  query (λ t, take limit (map (λ q, mkQueue (row_queue_id q) (row_weight q) (row_concurrency_limit q))
    (sort_by (λ a b, bytes_ltb (row_queue_id a) (row_queue_id b))
      (map snd (map_to_list (filter (λ kq, queue_state kq.2 = QueueActive ∧ after_clause after kq.1 = true)
        (queues t))))))).

Definition occupies (r : JobRun) : bool :=
  bool_decide (run_state r = RunRunning) || bool_decide (run_state r = RunRetryWait).

Definition capacity_row (row : SchedulerRun) : result Error CapacityRow :=
  decoded ← decode_scheduler_run false row;
  usage ← capacity_usage decoded;
  let r := sr_run decoded in
  success (mkRow (run_id r) (run_queue r) usage
    (if bool_decide (run_state r = RunRetryWait) && (usage_slots usage =? 1)
     then Some (mkBlocking (run_id r) (run_queue r) (run_type r) (run_priority r) (runnable_at r) (planned_at r))
     else None)).

Definition list_capacity_rows (limit : nat) (after : option bytes) : Tx (list CapacityRow) :=
  _ ← ensure (valid_limit limit) invalid_limit;
  rows ← query (λ t, take limit (scheduler_rows (λ _ r, occupies r && after_clause after (run_id r)) by_id t));
  of_result (decode_rows capacity_row rows).

Definition manual_barrier (t : Tables) (row : SchedulerRun) : result Error bytes :=
  decoded ← decode_scheduler_run false row;
  let r := sr_run decoded in
  let s := manual_barrier_summary t (run_job r) in
  _ ← check (negb (schedule_owned r) && (manual_count (summary_counts s) =? 1) &&
             (summary_live s =? manual_count (summary_counts s) + scheduled_count (summary_counts s)) &&
             valid_nonterminal_run_relationship (sr_job_state decoded) (sr_job_is_once decoded) (summary_counts s))
        (scheduler_invariant "manual_barrier_relationship");
  success (run_id r).

Definition list_manual_barriers (limit : nat) (after : option bytes) : Tx (list bytes) :=
  _ ← ensure (valid_limit limit) invalid_limit;
  t ← query (λ t, t);
  of_result (decode_rows (manual_barrier t) (take limit (scheduler_rows
    (λ _ r, bool_decide (run_origin r = OriginManual) && is_live_run (run_state r) && after_clause after (run_id r))
    by_id t))).

(** [candidate_where] and [runnable_owner_predicate]. *)
Definition is_candidate (type : JobType) (due : JobRun → bool) (t : Tables) (r : JobRun) : bool :=
  (bool_decide (run_state r = RunScheduled) || bool_decide (run_state r = RunRetryWait)) &&
  bool_decide (run_type r = type) && due r &&
  match scheduler_row t r with
  | None => false
  | Some row =>
      bool_decide (sr_queue_state row = QueueActive) &&
      ((bool_decide (run_origin r = OriginScheduled) && bool_decide (sr_job_state row = JobActive)) ||
       (bool_decide (run_origin r = OriginManual) &&
        (bool_decide (sr_job_state row = JobActive) || bool_decide (sr_job_state row = JobSuspending) ||
         bool_decide (sr_job_state row = JobSuspended)))) &&
      (negb (schedule_owned r) || bool_decide (runs_where (live_manual (run_job r)) t = []))
  end.

(** Priority first, then the times and the identifier. *)
Definition by_priority (a b : JobRun) : bool :=
  if negb (run_priority a =? run_priority b) then run_priority b <? run_priority a
  else if negb (runnable_at a =? runnable_at b) then runnable_at a <? runnable_at b
  else if negb (planned_at a =? planned_at b) then planned_at a <? planned_at b
  else by_id a b.
Definition by_time (a b : JobRun) : bool :=
  if negb (runnable_at a =? runnable_at b) then runnable_at a <? runnable_at b else by_priority a b.

Definition candidate (type : JobType) (now : Z) (future : bool) (queue : option bytes) (row : SchedulerRun)
    : result Error JobRun :=
  decoded ← decode_scheduler_run false row;
  _ ← validate_candidate decoded type now future queue;
  success (sr_run decoded).

Definition list_runnable (queue : bytes) (type : JobType) (now : Z) (limit : nat) : Tx (list JobRun) :=
  _ ← ensure (valid_limit limit) invalid_limit;
  rows ← query (λ t, take limit (scheduler_rows
    (λ t r, is_candidate type (λ r, runnable_at r <=? floor_us now) t r && bytes_eqb (run_queue r) queue) by_priority t));
  of_result (decode_rows (candidate type now false (Some queue)) rows).

Definition earliest_future_runnable (type : JobType) (now : Z) : Tx (option Z) :=
  rows ← query (λ t, take 1 (scheduler_rows (is_candidate type (λ r, floor_us now <? runnable_at r)) by_time t));
  found ← of_result (decode_rows (candidate type now true None) rows);
  mret (runnable_at <$> head found).

Definition has_any_running_state : Tx bool :=
  query (λ t, existsb (λ kr, bool_decide (run_state kr.2 = RunRunning)) (map_to_list (runs t)) ||
              existsb (λ ka, is_running_attempt ka.2) (map_to_list (attempts t))).

(** ** Claiming *)

(** [SELECT MAX(attempt_number)]. *)
Definition maximum_attempt (run : bytes) (t : Tables) : option Z :=
  foldr (λ (ka : bytes * Z * JobAttempt) (m : option Z),
           if bytes_eqb ka.1.1 run then Some (match m with None => ka.1.2 | Some n => Z.max ka.1.2 n end) else m)
    None (map_to_list (attempts t)).

Definition next_attempt_number (run : bytes) : Tx Z :=
  maximum ← query (maximum_attempt run);
  match maximum with
  | None => mret 1
  | Some n =>
      _ ← ensure (0 <? n) (scheduler_invariant "invalid_attempt_maximum");
      _ ← ensure (negb (n =? int64_max)) attempts_exhausted;
      mret (n + 1)
  end.

(** The rows of the pages, [left] of the current one; every page is a query. *)
Fixpoint occupancy (queue : Queue) (already : bool) (rows : list SchedulerRun) (left : nat) (occupied : Z) : Tx bool :=
  _ ← (if (left =? 0)%nat then statement else mret tt);
  let left := if (left =? 0)%nat then kMaximumSchedulerPageRows else left in
  match rows with
  | [] => mret true
  | row :: rows =>
      decoded ← of_result (decode_scheduler_run false row);
      _ ← ensure (bytes_eqb (run_queue (sr_run decoded)) (row_queue_id queue))
            (scheduler_invariant "capacity_queue_mismatch");
      usage ← of_result (capacity_usage decoded);
      let occupied := occupied + usage_slots usage in
      if negb already && (row_concurrency_limit queue <=? occupied) then mret false
      else occupancy queue already rows (pred left) occupied
  end.

Definition queue_has_dispatch_capacity (row : SchedulerRun) (queue : Queue) : Tx bool :=
  already ← (if bool_decide (run_state (sr_run row) = RunRetryWait)
             then usage ← of_result (capacity_usage row); mret (usage_slots usage =? 1)
             else mret false);
  rows ← query (scheduler_rows (λ _ r, occupies r && bytes_eqb (run_queue r) (row_queue_id queue)) by_id);
  occupancy queue already rows kMaximumSchedulerPageRows 0.

Record DispatchContext := mkDispatchContext {
  dispatch_run : JobRun; dispatch_job_state : JobState; dispatch_queue : Queue; dispatch_attempt : Z }.

(** The relationship of a run with its live siblings; [false] if the run waits
    behind a manual one. *)
Definition sibling_gate (row : SchedulerRun) (s : ManualBarrierSummary) : result Error bool :=
  let r := sr_run row in
  let counts := summary_counts s in
  _ ← check ((summary_live s =? manual_count counts + scheduled_count counts) &&
             valid_nonterminal_run_relationship (sr_job_state row) (sr_job_is_once row) counts)
        (scheduler_invariant "manual_barrier_relationship");
  match run_origin r with
  | OriginManual =>
      _ ← check (negb (schedule_owned r) && (manual_count counts =? 1)) (scheduler_invariant "manual_barrier_relationship");
      success true
  | OriginScheduled =>
      _ ← check (schedule_owned r && (scheduled_count counts =? 1) && (manual_count counts <=? 1))
            (scheduler_invariant "scheduled_candidate_relationship");
      success (negb (manual_count counts =? 1))
  | OriginSubmitted => failure (scheduler_invariant "unsupported_candidate_origin")
  end.

Definition find_dispatch_context (run : bytes) (now : Z) : Tx (option DispatchContext) :=
  t ← query (λ t, t);
  match r ← runs t !! run; if bool_decide (run_state r = RunScheduled) || bool_decide (run_state r = RunRetryWait)
                           then scheduler_row t r else None with
  | None => mret None
  | Some row =>
      decoded ← of_result (decode_scheduler_run false row);
      let r := sr_run decoded in
      let summary := manual_barrier_summary t (run_job r) in
      open ← of_result (sibling_gate decoded summary);
      if negb open then mret None
      else if (now <? runnable_at r) ||
              negb (eligible_owners (run_origin r) (schedule_owned r) (sr_job_state decoded) (sr_queue_state decoded)
                      (negb (manual_count (summary_counts summary) =? 0)))
      then mret None
      else
        _ ← of_result (validate_candidate decoded (run_type r) now false (Some (run_queue r)));
        queue ← (λ s, match find_queue_by_id (run_queue r) s with
                      | (failure e, s) => (failure (caused_invariant "invalid_dispatch_queue" e), s)
                      | (success q, s) => (success q, s)
                      end);
        queue ← require queue (scheduler_invariant "missing_dispatch_queue");
        _ ← ensure (bool_decide (queue_state queue = sr_queue_state decoded))
              (scheduler_invariant "dispatch_queue_state_mismatch");
        has_capacity ← queue_has_dispatch_capacity decoded queue;
        if negb has_capacity then mret None
        else
          attempt ← next_attempt_number run;
          mret (Some (mkDispatchContext r (sr_job_state decoded) queue attempt))
  end.

(** ** Guarded updates of a run *)

Definition run_with (state : RunState) (runnable : Z) (started completed : option Z) (result : option JsonText)
    (r : JobRun) : JobRun :=
  mkRun (run_id r) (run_job r) (run_revision r) (run_queue r) (run_origin r) (schedule_owned r) (planned_at r) runnable
    started completed (run_type r) (run_priority r) (run_attributes r) (run_payload r) state result.

(** The update of the run if the guard holds; whether a row was affected. *)
Definition update_run (id : bytes) (guard : JobRun → bool) (f : JobRun → JobRun) : Tx bool :=
  found ← query (λ t, runs t !! id);
  match found with
  | Some r =>
      if guard r
      then _ ← modify (λ s, set_tables (set_runs (<[id := f r]> (runs (tables s))) (tables s)) s); mret true
      else mret false
  | None => mret false
  end.

Definition mark_dispatch_running (run : bytes) (expected : RunState) (started : Z) : Tx bool :=
  _ ← ensure (bool_decide (expected = RunScheduled) || bool_decide (expected = RunRetryWait))
        (scheduler_invariant "invalid_dispatch_expected_state");
  update_run run
    (λ r, bool_decide (run_state r = expected) && negb (is_some (run_completed_at r)) && negb (is_some (run_result r)))
    (λ r, run_with RunRunning (runnable_at r)
            (Some (default (floor_us started) (run_started_at r))) (run_completed_at r) (run_result r) r).

Definition cancel_pending_run (run : bytes) (expected : RunState) (completed : Z) (result : JsonText) : Tx bool :=
  _ ← ensure (bool_decide (expected = RunScheduled) || bool_decide (expected = RunRetryWait))
        (scheduler_invariant "invalid_cancellation_expected_state");
  update_run run
    (λ r, bool_decide (run_state r = expected) && negb (is_some (run_completed_at r)) &&
          negb (is_some (run_result r)) &&
          (bool_decide (expected = RunScheduled) && negb (is_some (run_started_at r)) ||
           bool_decide (expected = RunRetryWait) && is_some (run_started_at r)))
    (λ r, run_with RunCancelled (runnable_at r) (run_started_at r) (Some (floor_us completed)) (Some result) r).

(** The guard of a completion: the run is still running and untouched. *)
Definition untouched_running (r : JobRun) : bool :=
  bool_decide (run_state r = RunRunning) && is_some (run_started_at r) && negb (is_some (run_completed_at r)) &&
  negb (is_some (run_result r)).

Definition set_run_retry_wait (run : bytes) (runnable : Z) : Tx unit :=
  updated ← update_run run untouched_running
    (λ r, run_with RunRetryWait (floor_us runnable) (run_started_at r) (run_completed_at r) (run_result r) r);
  ensure updated (scheduler_invariant "retry_wait_run_affected_rows").

Definition set_run_terminal (run : bytes) (state : RunState) (completed : Z) (result : JsonText) : Tx unit :=
  _ ← ensure (bool_decide (state = RunSucceeded) || bool_decide (state = RunFailed) ||
              bool_decide (state = RunCancelled))
        (scheduler_invariant "invalid_completion_terminal_state");
  updated ← update_run run untouched_running
    (λ r, run_with state (runnable_at r) (run_started_at r) (Some (floor_us completed)) (Some result) r);
  ensure updated (scheduler_invariant "terminal_run_affected_rows").

(** ** Completing an attempt *)

Record CompletionContext := mkCompletionContext {
  context_run : JobRun; context_job_state : JobState; context_queue_state : QueueState }.

Definition find_completion_context (run : bytes) (number : Z) : Tx CompletionContext :=
  t ← query (λ t, t);
  row ← require (r ← runs t !! run; scheduler_row t r) (scheduler_invariant "missing_completion_run");
  decoded ← of_result (decode_scheduler_run true row);
  _ ← of_result (capacity_usage decoded);
  _ ← ensure (bool_decide (run_state (sr_run decoded) = RunRunning)) (scheduler_invariant "completion_run_not_running");
  attempt ← find_attempt run number;
  _ ← ensure (match attempt with Some a => is_running_attempt a | None => false end)
        (scheduler_invariant "completion_attempt_not_running");
  mret (mkCompletionContext (sr_run decoded) (sr_job_state decoded) (sr_queue_state decoded)).

Definition completed_attempt_row (completed : Z) (outcome : AttemptOutcome) (result : JsonText) (a : JobAttempt)
    : JobAttempt :=
  mkAttempt (attempt_run a) (attempt_number a) (attempt_due_at a) (attempt_started_at a) (Some (floor_us completed))
    AttemptCompleted (Some outcome) (Some result).

Definition complete_attempt (run : bytes) (number completed : Z) (outcome : AttemptOutcome) (result : JsonText)
    : Tx unit :=
  _ ← of_result (positive_unsigned_to_storage number);
  found ← query (λ t, attempts t !! (run, number));
  match found with
  | Some a =>
      if is_running_attempt a && is_some (attempt_started_at a) && negb (is_some (attempt_completed_at a)) &&
         negb (is_some (attempt_outcome a)) && negb (is_some (attempt_result a))
      then modify (λ s, set_tables (set_attempts
             (<[(run, number) := completed_attempt_row completed outcome result a]> (attempts (tables s))) (tables s)) s)
      else throw (scheduler_invariant "completion_attempt_affected_rows")
  | None => throw (scheduler_invariant "completion_attempt_affected_rows")
  end.

(** ** Drained suspensions *)

Definition complete_drained_queue_suspension (queue : bytes) (updated : Z) : Tx bool :=
  found ← find_queue_by_id queue;
  q ← require found (scheduler_invariant "missing_drain_queue");
  if bool_decide (queue_state q = QueueSuspending) then
    running ← count_running run_queue queue;
    if running =? 0 then
      _ ← ensure (queue_revision q <? int64_max) queue_revision_exhausted;
      transitioned ← set_queue_state queue QueueSuspending QueueSuspended (queue_revision q) (queue_revision q + 1) updated;
      _ ← ensure transitioned (scheduler_invariant "drained_queue_state_changed");
      mret true
    else mret false
  else mret false.

Definition complete_drained_job_suspension (queue job : bytes) (updated : Z) : Tx bool :=
  found ← find_job_by_id job;
  j ← require found (scheduler_invariant "missing_drain_job");
  _ ← ensure (bytes_eqb (job_queue j) queue) (scheduler_invariant "drain_job_queue_mismatch");
  if bool_decide (job_state j = JobSuspending) then
    running ← count_running run_job job;
    if running =? 0 then
      _ ← ensure (job_revision j <? int64_max) job_revision_exhausted;
      transitioned ← set_job_state job JobSuspending JobSuspended (job_revision j) (job_revision j + 1) updated;
      _ ← ensure transitioned (scheduler_invariant "drained_job_state_changed");
      mret true
    else mret false
  else mret false.

Definition complete_drained_suspensions (queue job : bytes) (updated : Z) : Tx unit :=
  _ ← complete_drained_queue_suspension queue updated;
  _ ← complete_drained_job_suspension queue job updated;
  mret tt.

(** ** Cancellation *)

Definition find_run_for_cancel (run : bytes) : Tx (option JobRun) :=
  existing ← find_run_by_id run;
  match existing with
  | None => mret None
  | Some _ =>
      t ← query (λ t, t);
      row ← require (r ← runs t !! run; scheduler_row t r) (scheduler_invariant "missing_cancellation_owners");
      decoded ← of_result (decode_scheduler_run true row);
      let r := sr_run decoded in
      let s := manual_barrier_summary t (run_job r) in
      _ ← ensure (negb (is_live_run (run_state r)) ||
                  (summary_live s =? manual_count (summary_counts s) + scheduled_count (summary_counts s)) &&
                  valid_nonterminal_run_relationship (sr_job_state decoded) (sr_job_is_once decoded) (summary_counts s))
            (scheduler_invariant "manual_barrier_relationship");
      _ ← (match run_state r with
           | RunScheduled =>
               ensure ((active_attempt_count decoded =? 0) && (completed_attempt_count decoded =? 0) &&
                       (total_attempt_count decoded =? 0))
                 (scheduler_invariant "scheduled_cancellation_attempt_relationship")
           | RunRunning | RunRetryWait => _ ← of_result (capacity_usage decoded); mret tt
           | _ =>
               ensure ((active_attempt_count decoded =? 0) && (running_attempt_count decoded =? 0))
                 (scheduler_invariant "terminal_cancellation_attempt_relationship")
           end);
      mret (Some r)
  end.

(** The number of the running attempt, [LIMIT 2]. *)
Definition find_active_attempt (run : bytes) : Tx (option Z) :=
  rows ← query (λ t, map (λ ka : bytes * Z * JobAttempt, ka.1.2)
    (map_to_list (filter (λ ka, ka.1.1 = run ∧ attempt_state ka.2 = AttemptRunning) (attempts t))));
  match rows with
  | [] => mret None
  | [n] => mret (Some n)
  | _ => throw (scheduler_invariant "multiple_active_attempts")
  end.

End Scheduler.
