(* ===== verification/ManagementRepository.v ===== *)
(** * The statements of management

    What [src/jobu/management.cpp] reads and writes through the repositories
    of queues, jobs, runs, attempts, secrets and idempotency records, and that
    [Storage] does not hold already: [src/jobu/queue_repository_priv.cpp],
    [job_repository_priv.cpp], [run_repository_priv.cpp],
    [attempt_repository_priv.cpp], [secret_repository_priv.cpp],
    [idempotency_repository_priv.cpp].

    An [UPDATE] that its [WHERE] clause can apply to many rows is a function
    on every row; its result is the number of the rows it changed.  The row of
    a deleted queue keeps the original name in [queue_name]; [stored_name] is
    the text of its [name] column. *)

From stdpp Require Import base numbers strings list gmap sets.
From S2P Require Import Prelude Effects Values OutputCapture CronEngine Domain ResourceNames Storage SchedulerRepository.
Local Open Scope Z_scope.

(** ** Errors *)

Definition ambiguous_deleted_name : Error :=
  mkError Conflict "jobu.queue.ambiguous_deleted_name" "The deleted queue name is ambiguous; select the queue by ID" "".
Definition name_conflict (cause : Error) : Error :=
  mkError Conflict "jobu.queue.name_conflict" "A queue with that name already exists" (caused_by cause).
Definition manual_conflict : Error :=
  mkError Conflict "jobu.run.manual_conflict" "The job already has a non-terminal manual run" "".
Definition unstorable_duration : Error :=
  mkError Internal "jobu.storage.invalid_integer" "JobU duration cannot be persisted" "reason=out_of_range".
Definition invalid_json (reason : string) : Error :=
  mkError Internal "jobu.storage.invalid_json" "Persisted JSON document is invalid" ("reason=" +:+ reason).
Definition invalid_secret_name : Error :=
  mkError InvalidArgument "jobu.secret.invalid_name" "Secret name must be a canonical identifier of at most 128 bytes" "".
Definition secret_not_found : Error := mkError NotFound "jobu.secret.not_found" "Secret was not found" "".
Definition invalid_secret (reason : string) : Error :=
  invariant_error "Persisted secret data violates a JobU invariant" reason.
Definition invalid_record (reason : string) : Error :=
  mkError Internal "jobu.idempotency.invalid_record" "Stored idempotency data is invalid" ("reason=" +:+ reason).
Definition idempotency_race (cause : Error) : Error :=
  mkError Conflict "jobu.idempotency.conflict" "The idempotency key was already used for a different request"
    ("cause=" +:+ code cause).

Definition kMaximumJsonDocumentBytes : Z := 262144.
Definition within_document_limit (text : bytes) : bool := Z.of_nat (length text) <=? kMaximumJsonDocumentBytes.
Definition kMaximumListRows : nat := 201.
Definition kMaximumReferences : nat := 256.

Definition is_deleted_queue (q : Queue) : bool := bool_decide (queue_state q = QueueDeleted).
Definition is_deleted_job (j : JobDefinition) : bool := bool_decide (job_state j = JobDeleted).

(** The [name] column. *)
Definition stored_name (q : Queue) : bytes :=
  if is_deleted_queue q then internal_name (queue_name q) (row_queue_id q) else queue_name q.

Section ManagementRepository.
Context `{Environment}.

Abbreviation Tx := (ES Session).

Definition side_query {A} (f : SideTables → A) : Tx A := _ ← statement; gets (λ s, f (side s)).
Definition side_update (f : SideTables → SideTables) : Tx unit := _ ← statement; modify (λ s, set_side (f (side s)) s).

(** The failure of a statement, translated. *)
Definition translated {A} (g : Error → Error) (m : Tx A) : Tx A := λ s,
  match m s with
  | (failure e, s) => (failure (if bool_decide (code e = "db.constraint.unique") then g e else e), s)
  | (success v, s) => (success v, s)
  end.

Definition nonnegative_duration_to_storage (v : Z) : result Error Z :=
  check ((0 <=? v) && (v <=? int64_max)) unstorable_duration ≫= λ _, success v.

(** ** Queues *)

Definition queues_where (p : Queue → bool) (t : Tables) : list Queue :=
  map snd (map_to_list (filter (λ kq, p kq.2 = true) (queues t))).

Definition name_taken (name id : bytes) (t : Tables) : bool :=
  negb (bool_decide (queues_where (λ q, bytes_eqb (stored_name q) name && negb (bytes_eqb (row_queue_id q) id)) t = [])).

Definition checked_queue (q : Queue) : result Error unit :=
  _ ← positive_unsigned_to_storage (row_weight q);
  _ ← positive_unsigned_to_storage (row_concurrency_limit q);
  _ ← match history_retention q with None => success 0 | Some v => nonnegative_duration_to_storage v end;
  _ ← nonnegative_duration_to_storage (runnable_wait_warning q);
  success tt.

(** The row of a new queue as it is stored. *)
Definition queue_row (q : Queue) : Queue :=
  mkQueueRow (row_queue_id q) (queue_revision q) (queue_name q) (queue_state q) (row_weight q)
    (row_concurrency_limit q) (recovery_policy q) (queue_defaults q) (history_retention q)
    (runnable_wait_warning q) (floor_us (queue_created_at q)) (floor_us (queue_updated_at q)) None.

Definition insert_queue (q : Queue) : Tx unit :=
  _ ← of_result (positive_unsigned_to_storage (queue_revision q));
  _ ← of_result (checked_queue q);
  translated name_conflict (
    t ← query id;
    if is_some (queues t !! row_queue_id q) || name_taken (queue_name q) (row_queue_id q) t then throw unique_violation
    else modify (λ s, set_tables (set_queues (<[row_queue_id q := queue_row q]> (queues t)) t) s)).

(** The overload of [find_by_id] that may leave out deleted queues. *)
Definition find_queue_with_id (id : bytes) (include_deleted : bool) : Tx (option Queue) :=
  found ← query (λ t, q ← queues t !! id; if include_deleted || negb (is_deleted_queue q) then Some q else None);
  match found with
  | None => mret None
  | Some q => q ← of_result (decode_queue q); mret (Some q)
  end.

(** Live rows first, then by identifier. *)
Definition live_first (a b : Queue) : bool :=
  negb (is_deleted_queue a) && is_deleted_queue b ||
  eqb (is_deleted_queue a) (is_deleted_queue b) && bytes_ltb (row_queue_id a) (row_queue_id b).

Definition queues_named (name : bytes) (include_deleted : bool) (t : Tables) : list Queue :=
  if include_deleted then take 2 (sort_by live_first (queues_where (λ q, bytes_eqb (queue_name q) name) t))
  else queues_where (λ q, negb (is_deleted_queue q) && bytes_eqb (queue_name q) name) t.

Definition find_queue_by_name (name : bytes) (include_deleted : bool) : Tx (option Queue) :=
  rows ← query (queues_named name include_deleted);
  match rows with
  | [] => mret None
  | q :: rest =>
      q ← of_result (decode_queue q);
      _ ← ensure (negb (include_deleted && is_deleted_queue q) || bool_decide (rest = [])) ambiguous_deleted_name;
      mret (Some q)
  end.

Definition queue_by_id (a b : Queue) : bool := bytes_ltb (row_queue_id a) (row_queue_id b).

(** [QueueRepository::list]. *)
Definition list_queue_rows (include_deleted : bool) (state : option QueueState) (limit : nat) (after : option bytes)
    : Tx (list Queue) :=
  rows ← query (λ t, take limit (sort_by queue_by_id (queues_where (λ q,
    (include_deleted || negb (is_deleted_queue q)) &&
    match state with Some st => bool_decide (queue_state q = st) | None => true end &&
    after_clause after (row_queue_id q)) t)));
  of_result (decode_rows decode_queue rows).

(** [UPDATE jobu_queues ... WHERE id = :id AND ...]. *)
Definition update_queue_row (id : bytes) (guard : Queue → bool) (f : Queue → Queue) : Tx bool :=
  t ← query (λ t, t);
  match queues t !! id with
  | Some q =>
      if guard q then
        if name_taken (stored_name (f q)) id t then throw unique_violation
        else _ ← modify (λ s, set_tables (set_queues (<[id := f q]> (queues t)) t) s); mret true
      else mret false
  | None => mret false
  end.

Definition with_configuration (new : Queue) (defaults : option AttributeSet) (q : Queue) : Queue :=
  mkQueueRow (row_queue_id q) (queue_revision new) (queue_name new) (queue_state q) (row_weight new)
    (row_concurrency_limit new) (recovery_policy new) (default (queue_defaults q) defaults) (history_retention new)
    (runnable_wait_warning new) (queue_created_at q) (floor_us (queue_updated_at new)) (queue_deleted_at q).

Definition replace_mutable_fields (q : Queue) (expected_revision : Z) (defaults : option AttributeSet) : Tx bool :=
  _ ← of_result (positive_unsigned_to_storage expected_revision);
  _ ← of_result (positive_unsigned_to_storage (queue_revision q));
  _ ← ensure (queue_revision q - 1 =? expected_revision) (invalid_queue_row "invalid_revision_increment");
  _ ← of_result (checked_queue q);
  translated name_conflict (
    update_queue_row (row_queue_id q)
      (λ old, (queue_revision old =? expected_revision) && negb (is_deleted_queue old))
      (with_configuration q defaults)).

Definition jobs_where (p : JobDefinition → bool) (t : Tables) : list JobDefinition :=
  map snd (map_to_list (filter (λ kj, p kj.2 = true) (jobs t))).

Definition in_queue (queue : bytes) (j : JobDefinition) : bool := bytes_eqb (job_queue j) queue && negb (is_deleted_job j).

Definition count_non_deleted_jobs (queue : bytes) : Tx nat := query (λ t, length (jobs_where (in_queue queue) t)).

(** [QueueRepository::mark_deleted]; the name of the row is the internal name
    of the original one. *)
Definition tombstone (original : bytes) (revision deleted : Z) (q : Queue) : Queue :=
  mkQueueRow (row_queue_id q) revision original QueueDeleted (row_weight q) (row_concurrency_limit q)
    (recovery_policy q) (queue_defaults q) (history_retention q) (runnable_wait_warning q) (queue_created_at q) deleted
    (Some deleted).

Definition mark_queue_deleted (id original : bytes) (expected_revision next_revision deleted_at : Z) : Tx bool :=
  _ ← of_result (positive_unsigned_to_storage expected_revision);
  _ ← of_result (positive_unsigned_to_storage next_revision);
  _ ← ensure (next_revision - 1 =? expected_revision) (invalid_queue_row "invalid_revision_increment");
  update_queue_row id
    (λ q, bool_decide (queue_state q = QueueSuspended) && (queue_revision q =? expected_revision) &&
          negb (is_some (queue_deleted_at q)))
    (tombstone original next_revision (floor_us deleted_at)).

(** ** Jobs *)

(** [schedule_to_storage]. *)
Definition stored_schedule (s : JobSchedule) : JobSchedule :=
  match s with Once at_ => Once (floor_us at_) | Cron s => Cron s end.

Definition valid_optional_name (name : option bytes) : bool :=
  match name with Some n => is_valid_job_name n | None => true end.

(** The row of a new job as it is stored. *)
Definition job_row (j : JobDefinition) : JobDefinition :=
  mkJob (job_id j) (job_queue j) (job_revision j) (job_name j) (job_state j) (job_type j)
    (stored_schedule (job_schedule j)) (job_priority j) (job_attributes j) (job_payload j)
    (floor_us (created_at j)) (floor_us (updated_at j)) (floor_us <$> deleted_at j).

Definition insert_job (j : JobDefinition) : Tx unit :=
  _ ← ensure (valid_optional_name (job_name j)) (invalid_job "invalid_name");
  _ ← ensure (eqb (is_deleted_job j) (is_some (deleted_at j))) (invalid_job "deleted_state_mismatch");
  _ ← ensure (negb (is_terminal_job_state (job_state j)) || is_once j) (invalid_job "terminal_state_mismatch");
  _ ← of_result (positive_unsigned_to_storage (job_revision j));
  t ← query (λ t, t);
  if is_some (jobs t !! job_id j) then throw unique_violation
  else if negb (is_some (queues t !! job_queue j)) then throw foreign_key_violation
  else modify (λ s, set_tables (set_jobs (<[job_id j := job_row j]> (jobs t)) t) s).

(** [UPDATE jobu_jobs ... WHERE id = :id AND ...]. *)
Definition update_job_row (id : bytes) (guard : Tables → JobDefinition → bool) (f : JobDefinition → JobDefinition)
    : Tx bool :=
  t ← query (λ t, t);
  match jobs t !! id with
  | Some j =>
      if guard t j then
        if negb (is_some (queues t !! job_queue (f j))) then throw foreign_key_violation
        else _ ← modify (λ s, set_tables (set_jobs (<[id := f j]> (jobs t)) t) s); mret true
      else mret false
  | None => mret false
  end.

Definition is_mutable_state (s : JobState) : bool := bool_decide (s = JobActive) || bool_decide (s = JobSuspended).

Definition with_definition (new : JobDefinition) (j : JobDefinition) : JobDefinition :=
  mkJob (job_id j) (job_queue j) (job_revision new) (job_name new) (job_state j) (job_type j)
    (stored_schedule (job_schedule new)) (job_priority new) (job_attributes new) (job_payload new) (created_at j)
    (floor_us (updated_at new)) (deleted_at j).

Definition update_definition (replacement : JobDefinition) (expected_revision : Z) : Tx bool :=
  _ ← ensure (valid_optional_name (job_name replacement) && is_mutable_state (job_state replacement) &&
              negb (is_some (deleted_at replacement))) (invalid_job "invalid_update");
  _ ← of_result (positive_unsigned_to_storage expected_revision);
  _ ← of_result (positive_unsigned_to_storage (job_revision replacement));
  update_job_row (job_id replacement)
    (λ _ j, (job_revision j =? expected_revision) && bool_decide (job_type j = job_type replacement) &&
            is_mutable_state (job_state j))
    (with_definition replacement).

Definition is_next_revision (expected next : Z) : bool := negb ((next <=? expected) || negb (next - expected =? 1)).

Definition with_queue (queue : bytes) (revision updated : Z) (j : JobDefinition) : JobDefinition :=
  mkJob (job_id j) queue revision (job_name j) (job_state j) (job_type j) (job_schedule j) (job_priority j)
    (job_attributes j) (job_payload j) (created_at j) updated (deleted_at j).

(** [JobRepository::move]. *)
Definition move_job_row (id : bytes) (expected_revision : Z) (target : bytes) (next_revision updated : Z) : Tx bool :=
  _ ← ensure (is_next_revision expected_revision next_revision) (invalid_job "invalid_move_revision");
  _ ← of_result (positive_unsigned_to_storage expected_revision);
  _ ← of_result (positive_unsigned_to_storage next_revision);
  update_job_row id
    (λ _ j, negb (bytes_eqb (job_queue j) target) && bool_decide (job_state j = JobSuspended) &&
            (job_revision j =? expected_revision) && negb (is_some (deleted_at j)))
    (with_queue target next_revision (floor_us updated)).

Definition deleted_job (revision deleted : Z) (j : JobDefinition) : JobDefinition :=
  mkJob (job_id j) (job_queue j) revision (job_name j) JobDeleted (job_type j) (job_schedule j) (job_priority j)
    (job_attributes j) (job_payload j) (created_at j) deleted (Some deleted).

(** [JobRepository::mark_deleted]. *)
Definition mark_job_deleted (id : bytes) (expected_revision next_revision deleted_at_ : Z) : Tx bool :=
  _ ← ensure (is_next_revision expected_revision next_revision) (invalid_job "invalid_delete_revision");
  _ ← of_result (positive_unsigned_to_storage expected_revision);
  _ ← of_result (positive_unsigned_to_storage next_revision);
  update_job_row id
    (λ t j, (job_revision j =? expected_revision) && negb (is_some (deleted_at j)) &&
            (bool_decide (job_state j = JobSuspended) ||
             is_terminal_job_state (job_state j) && bool_decide (runs_where (live_of_job id) t = [])))
    (deleted_job next_revision (floor_us deleted_at_)).

Definition has_exhausted_revision_in_queue (queue : bytes) (maximum : Z) : Tx bool :=
  _ ← of_result (positive_unsigned_to_storage maximum);
  query (λ t, negb (bool_decide (jobs_where (λ j, in_queue queue j && (maximum <=? job_revision j)) t = []))).

Definition mark_all_in_queue_deleted (queue : bytes) (deleted : Z) : Tx nat :=
  let chosen j := in_queue queue j && negb (is_some (deleted_at j)) in
  t ← query (λ t, t);
  _ ← modify (λ s, set_tables (set_jobs
        ((λ j, if chosen j then deleted_job (job_revision j + 1) (floor_us deleted) j else j) <$> jobs t) t) s);
  mret (length (jobs_where chosen t)).

(** The overload of [find_by_id] that may leave out deleted jobs. *)
Definition find_job_with_id (id : bytes) (include_deleted : bool) : Tx (option JobDefinition) :=
  found ← query (λ t, j ← jobs t !! id; if include_deleted || negb (is_deleted_job j) then Some j else None);
  match found with
  | None => mret None
  | Some j => j ← of_result (decode_job j); mret (Some j)
  end.

Definition job_by_id (a b : JobDefinition) : bool := bytes_ltb (job_id a) (job_id b).

(** [JobRepository::list]. *)
Definition list_job_rows (queue : option bytes) (include_deleted : bool) (state : option JobState) (type : option JobType)
    (limit : nat) (after : option bytes) : Tx (list JobDefinition) :=
  _ ← ensure (negb (limit =? 0)%nat && (limit <=? kMaximumListRows)%nat) invalid_limit;
  rows ← query (λ t, take limit (sort_by job_by_id (jobs_where (λ j,
    match queue with Some q => bytes_eqb (job_queue j) q | None => true end &&
    (include_deleted || negb (is_deleted_job j)) &&
    match state with Some st => bool_decide (job_state j = st) | None => true end &&
    match type with Some ty => bool_decide (job_type j = ty) | None => true end &&
    after_clause after (job_id j)) t)));
  of_result (decode_rows decode_job rows).

(** ** Runs *)

(** The overload of [insert_schedule_owned] that takes serialized documents;
    [attributes_json] and [payload_json] are those of the run. *)
Definition insert_initial_run (r : JobRun) (attributes_json payload_json : bytes) (measurement : InitialRunMeasurement)
    : Tx unit :=
  _ ← ensure (within_document_limit attributes_json && within_document_limit payload_json) (invalid_json "too_large");
  _ ← of_result (positive_unsigned_to_storage (run_revision r));
  existing ← find_schedule_owned (run_job r);
  _ ← ensure (negb (is_some existing)) (schedule_conflict "");
  inserted ← insert_run_row (scheduled_row r);
  _ ← match inserted with
      | success _ => mret tt
      | failure e =>
          if bool_decide (code e = "db.constraint.unique") then
            existing ← find_schedule_owned (run_job r);
            _ ← ensure (negb (is_some existing)) (schedule_conflict (caused_by e));
            throw e
          else throw e
      end;
  insert_initial_timing (run_id r) measurement.

Definition live_manual_of (job : bytes) (r : JobRun) : bool :=
  bytes_eqb (run_job r) job && bool_decide (run_origin r = OriginManual) && is_live_run (run_state r).

Definition has_non_terminal_manual_run (job : bytes) : Tx bool :=
  rows ← query (runs_where (live_manual_of job));
  _ ← ensure ((length rows <=? 1)%nat && negb (existsb schedule_owned rows)) (invalid_run "manual_run_relationship");
  mret (length rows =? 1)%nat.

Definition has_running_or_retrying_run (job : bytes) : Tx bool :=
  query (λ t, negb (bool_decide (runs_where (λ r, bytes_eqb (run_job r) job &&
    (bool_decide (run_state r = RunRunning) || bool_decide (run_state r = RunRetryWait))) t = []))).

(** The row of a manual run as it is stored. *)
Definition manual_row (r : JobRun) : JobRun :=
  mkRun (run_id r) (run_job r) (run_revision r) (run_queue r) OriginManual false (floor_us (planned_at r))
    (floor_us (planned_at r)) None None (run_type r) (run_priority r) (run_attributes r) (run_payload r) RunScheduled None.

Definition insert_manual (r : JobRun) (measurement : InitialRunMeasurement) : Tx unit :=
  _ ← ensure (bool_decide (run_origin r = OriginManual) && negb (schedule_owned r)) (invalid_run "insert_not_manual");
  _ ← ensure (bool_decide (run_state r = RunScheduled) && (planned_at r =? runnable_at r) &&
              negb (is_some (run_started_at r)) && negb (is_some (run_completed_at r)) && negb (is_some (run_result r)))
        (invalid_run "insert_state_mismatch");
  _ ← of_result (readable unwritable_run r);
  existing ← has_non_terminal_manual_run (run_job r);
  _ ← ensure (negb existing) manual_conflict;
  _ ← of_result (positive_unsigned_to_storage (run_revision r));
  inserted ← insert_run_row (manual_row r);
  _ ← of_result inserted;
  insert_initial_timing (run_id r) measurement.

(** An [UPDATE] of every run that a condition selects. *)
Definition update_runs (chosen : Tables → JobRun → bool) (f : JobRun → JobRun) : Tx nat :=
  t ← query (λ t, t);
  _ ← modify (λ s, set_tables (set_runs ((λ r, if chosen t r then f r else r) <$> runs t) t) s);
  mret (length (runs_where (chosen t) t)).

Definition attempts_where (p : JobAttempt → bool) (t : Tables) : list JobAttempt :=
  map snd (map_to_list (filter (λ ka, p ka.2 = true) (attempts t))).

Definition has_attempts (run : bytes) (t : Tables) : bool :=
  negb (bool_decide (attempts_where (λ a, bytes_eqb (attempt_run a) run) t = [])).

(** [ScheduleOwnedRunUpdate]: revision, queue, time, type, priority and the
    documents of a definition. *)
Definition with_snapshot (j : JobDefinition) (planned : Z) (r : JobRun) : JobRun :=
  mkRun (run_id r) (run_job r) (job_revision j) (job_queue j) (run_origin r) (schedule_owned r) (floor_us planned)
    (floor_us planned) (run_started_at r) (run_completed_at r) (job_type j) (job_priority j) (job_attributes j)
    (job_payload j) (run_state r) (run_result r).

Definition refresh_unstarted_schedule_owned (j : JobDefinition) (planned : Z) (attributes_json payload_json : bytes)
    : Tx bool :=
  _ ← ensure (within_document_limit attributes_json && within_document_limit payload_json) (invalid_run "invalid_snapshot");
  _ ← of_result (positive_unsigned_to_storage (job_revision j));
  affected ← update_runs
    (λ t r, bytes_eqb (run_job r) (job_id j) && schedule_owned r && bool_decide (run_state r = RunScheduled) &&
            negb (has_attempts (run_id r) t))
    (with_snapshot j planned);
  mret (affected =? 1)%nat.

Definition with_run_queue (queue : bytes) (revision : Z) (r : JobRun) : JobRun :=
  mkRun (run_id r) (run_job r) revision queue (run_origin r) (schedule_owned r) (planned_at r) (runnable_at r)
    (run_started_at r) (run_completed_at r) (run_type r) (run_priority r) (run_attributes r) (run_payload r) (run_state r)
    (run_result r).

(** The target exists: the caller found it in the same transaction. *)
Definition move_non_terminal (job target : bytes) (next_revision : Z) : Tx nat :=
  _ ← of_result (positive_unsigned_to_storage next_revision);
  update_runs (λ _ r, bytes_eqb (run_job r) job && is_live_run (run_state r)) (with_run_queue target next_revision).

Definition pending_result (reason : bytes) : JsonValue := JsonObject [(bs!"reason", JsonString reason)].

(** [json_to_storage] of an object. *)
Definition object_to_storage (v : JsonValue) : result Error bytes :=
  match serialize_json v with
  | failure e => failure (invalid_json (code e))
  | success text => if within_document_limit text then success text else failure (invalid_json "too_large")
  end.

Definition cancel_pending (selector : JobRun → bytes) (id : bytes) (completed : Z) (reason : bytes) : Tx nat :=
  text ← of_result (object_to_storage (pending_result reason));
  update_runs
    (λ _ r, bytes_eqb (selector r) id &&
            (bool_decide (run_state r = RunScheduled) || bool_decide (run_state r = RunRetryWait)))
    (λ r, run_with RunCancelled (runnable_at r) (run_started_at r) (Some (floor_us completed)) (Some text) r).

(** ** Attempts *)

Definition has_any_for_run (run : bytes) : Tx bool := query (has_attempts run).

Definition has_started_for_job (job : bytes) : Tx bool :=
  query (λ t, negb (bool_decide (attempts_where (λ a, is_some (attempt_started_at a) &&
    match runs t !! attempt_run a with Some r => bytes_eqb (run_job r) job | None => false end) t = []))).

(** ** Idempotency records *)

Definition decode_record (r : IdempotencyRecord) : result Error IdempotencyRecord :=
  _ ← check (negb (bool_decide (record_method r = [])) && is_valid_idempotency_key (record_key r) &&
             negb (bool_decide (request_json r = [])) && negb (bool_decide (result_json r = [])))
        (invalid_record "invalid_text_field");
  success r.

Definition find_idempotency (method scope key : bytes) : Tx (option IdempotencyRecord) :=
  found ← side_query (λ x, idempotency x !! (method, scope, key));
  match found with
  | None => mret None
  | Some r => r ← of_result (decode_record r); mret (Some r)
  end.

Definition insert_idempotency (r : IdempotencyRecord) : Tx unit :=
  let k := (record_method r, record_scope r, record_key r) in
  translated idempotency_race (
    x ← side_query (λ x, x);
    if is_some (idempotency x !! k) then throw unique_violation
    else modify (λ s, set_side (mkSide (secrets x) (secret_refs x)
           (<[k := mkRecord (record_method r) (record_scope r) (record_key r) (request_json r) (result_json r)
                     (resource_id r) (floor_us (record_created_at r)) (floor_us <$> record_expires_at r)]>
              (idempotency x))) s)).

(** ** Secrets *)

(** The loop over the references with the names [checked] so far. *)
Fixpoint require_references (references : list SecretReference) (checked : gset bytes) : Tx unit :=
  match references with
  | [] => mret tt
  | r :: references =>
      _ ← ensure (is_valid_secret_name (secret_name r)) invalid_secret_name;
      if bool_decide (secret_name r ∈ checked) then require_references references checked
      else
        found ← side_query (λ x, bool_decide (secret_name r ∈ secrets x));
        _ ← ensure found secret_not_found;
        require_references references ({[ secret_name r ]} ∪ checked)
  end.

Definition require_existing_references (references : list SecretReference) : Tx unit :=
  _ ← ensure (length references <=? kMaximumReferences)%nat invalid_limit;
  require_references references ∅.

Fixpoint unique_references (references : list SecretReference) (seen : gset (bytes * bytes)) : bool :=
  match references with
  | [] => true
  | r :: references =>
      is_valid_secret_name (secret_name r) && valid_field_path (field_path r) &&
      negb (bool_decide ((secret_name r, field_path r) ∈ seen)) &&
      unique_references references ({[ (secret_name r, field_path r) ]} ∪ seen)
  end.

Fixpoint insert_references (job : bytes) (references : list SecretReference) : Tx unit :=
  match references with
  | [] => mret tt
  | r :: references =>
      x ← side_query (λ x, x);
      t ← gets tables;
      let row := (secret_name r, job, field_path r) in
      if bool_decide (row ∈ secret_refs x) then throw unique_violation
      else if negb (bool_decide (secret_name r ∈ secrets x) && is_some (jobs t !! job)) then throw foreign_key_violation
      else
        _ ← modify (λ s, set_side (mkSide (secrets x) ({[ row ]} ∪ secret_refs x) (idempotency x)) s);
        insert_references job references
  end.

Definition replace_references_for_job (job : bytes) (references : list SecretReference) : Tx nat :=
  _ ← ensure (length references <=? kMaximumReferences)%nat invalid_limit;
  _ ← ensure (unique_references references ∅) (invalid_secret "invalid_secret_reference");
  _ ← side_update (λ x, mkSide (secrets x) (filter (λ row : bytes * bytes * bytes, row.1.2 ≠ job) (secret_refs x))
                          (idempotency x));
  _ ← insert_references job references;
  mret (length references).

Definition erase_references_for_queue (queue : bytes) : Tx nat :=
  t ← gets tables;
  let erased (row : bytes * bytes * bytes) :=
    match jobs t !! row.1.2 with Some j => in_queue queue j | None => false end in
  x ← side_query (λ x, x);
  _ ← modify (λ s, set_side (mkSide (secrets x) (filter (λ row, erased row = false) (secret_refs x)) (idempotency x)) s);
  mret (size (filter (λ row, erased row = true) (secret_refs x))).

End ManagementRepository.
