(* ===== verification/Lifecycle.v ===== *)
(** * One-time definitions and recurring runs

    [src/jobu/job_lifecycle_priv.cpp]: a one-time definition takes the
    outcome of its last run.  [src/jobu/recurrence_priv.cpp]: a recurring
    definition gets its next run when the current one ends. *)

From stdpp Require Import base numbers strings list gmap.
From S2P Require Import Prelude Effects Values OutputCapture CronEngine Domain Storage SchedulerRepository.
Local Open Scope Z_scope.

Definition lifecycle_invariant (reason : string) : Error :=
  invariant_error "Persisted job lifecycle violates a JobU invariant" reason.

Definition recurrence_invariant (reason : string) : Error :=
  invariant_error "Persisted recurring scheduler state is inconsistent" reason.
Definition recurrence_caused (reason : string) (cause : Error) : Error :=
  mkError Internal "jobu.storage.invariant" "Persisted recurring scheduler state is inconsistent"
    ("reason=" +:+ reason +:+ ";cause=" +:+ code cause).

Definition terminal_job_state (state : RunState) : option JobState :=
  match state with
  | RunSucceeded => Some JobSucceeded
  | RunFailed | RunInterrupted => Some JobFailed
  | RunCancelled => Some JobCancelled
  | _ => None
  end.

(** The prefix test [code.starts_with("db.")]. *)
Definition is_database_error (e : Error) : bool := String.prefix "db." (code e).

Section Lifecycle.
Context `{Environment}.

Abbreviation Tx := (ES Session).

(** ** One-time definitions *)

(** The loop over at most three live rows of the job. *)
Fixpoint count_nonterminal (j : JobDefinition) (rows : list JobRun) (counts : NonterminalRunCounts)
    : result Error NonterminalRunCounts :=
  match rows with
  | [] => success counts
  | r :: rows =>
      _ ← check (bytes_eqb (run_queue r) (job_queue j) && (run_revision r <=? job_revision j))
            (lifecycle_invariant "nonterminal_run_ownership");
      counts ← match run_origin r, schedule_owned r with
               | OriginScheduled, true => success (mkCounts (scheduled_count counts + 1) (manual_count counts))
               | OriginManual, false => success (mkCounts (scheduled_count counts) (manual_count counts + 1))
               | _, _ => failure (lifecycle_invariant "nonterminal_run_origin")
               end;
      _ ← check (scheduled_count counts + manual_count counts <=? 2) (lifecycle_invariant "nonterminal_run_count");
      count_nonterminal j rows counts
  end.

Definition read_nonterminal_runs (j : JobDefinition) : Tx NonterminalRunCounts :=
  rows ← query (λ t, take 3 (runs_where (live_of_job (job_id j)) t));
  of_result (count_nonterminal j rows (mkCounts 0 0)).

(** Whether the definition changed its state. *)
Definition finish_after_terminal_run (run : bytes) (transition_time : Z) : Tx bool :=
  found ← find_run_by_id run;
  r ← require found (lifecycle_invariant "missing_terminal_run");
  next ← require (terminal_job_state (run_state r)) (lifecycle_invariant "invalid_terminal_run");
  _ ← ensure (is_some (run_completed_at r) && is_some (run_result r) &&
              negb (bool_decide (run_origin r = OriginSubmitted)) &&
              eqb (schedule_owned r) (bool_decide (run_origin r = OriginScheduled)))
        (lifecycle_invariant "invalid_terminal_run");
  owner ← find_job_by_id (run_job r);
  j ← require owner (lifecycle_invariant "invalid_terminal_owner");
  _ ← ensure (run_revision r <=? job_revision j) (lifecycle_invariant "invalid_terminal_owner");
  if bool_decide (job_state j = JobDeleted) || negb (is_once j) then mret false
  else
    counts ← read_nonterminal_runs j;
    _ ← ensure (valid_nonterminal_run_relationship (job_state j) true counts)
          (lifecycle_invariant "nonterminal_run_relationship");
    if is_terminal_job_state (job_state j) then mret false
    else if negb (scheduled_count counts =? 0) || negb (manual_count counts =? 0) then mret false
    else
      _ ← ensure (job_revision j <? int64_max) job_revision_exhausted;
      transitioned ← set_job_state (job_id j) (job_state j) next (job_revision j) (job_revision j + 1) transition_time;
      _ ← ensure transitioned (lifecycle_invariant "terminal_job_state_changed");
      mret true.

Definition validate_job_lifecycle (j : JobDefinition) : Tx unit :=
  counts ← read_nonterminal_runs j;
  _ ← ensure (valid_nonterminal_run_relationship (job_state j) (is_once j) counts)
        (lifecycle_invariant "nonterminal_run_relationship");
  ensure (negb (negb (bool_decide (job_state j = JobDeleted)) && is_once j &&
                negb (is_terminal_job_state (job_state j)) && (scheduled_count counts =? 0) &&
                (manual_count counts =? 0)))
    (lifecycle_invariant "unfinished_once_without_work").

(** ** Recurring definitions *)

(** A call of the cron engine, which keeps its cache. *)
Definition cron_call {A} (f : Engine → result Error A * Engine) : Tx A := λ s,
  let '(r, e) := f (engine s) in (r, set_engine e s).

(** The occurrence of a definition at a time. *)
Definition occurrence (id : bytes) (j : JobDefinition) (at_ : Z) : JobRun :=
  mkRun id (job_id j) (job_revision j) (job_queue j) OriginScheduled true at_ at_ None None (job_type j)
    (job_priority j) (job_attributes j) (job_payload j) RunScheduled None.

(** Whether a run was inserted. *)
Definition insert_recurring_run (j : JobDefinition) (lower_bound : Z) (measurement : InitialRunMeasurement) : Tx bool :=
  if bool_decide (job_state j = JobDeleted) then mret false
  else match job_schedule j with
  | Once _ => mret false
  | Cron schedule =>
      _ ← cron_call (λ e, validate e schedule);
      next ← cron_call (λ e, next_after e schedule lower_bound);
      _ ← ensure (lower_bound <? next) (recurrence_invariant "non_future_successor");
      id ← generate_uuid;
      _ ← insert_schedule_owned (occurrence id j next) measurement;
      mret true
  end.

Definition insert_recurring_successor (completed : JobRun) (lower_bound : Z) (measurement : InitialRunMeasurement)
    : Tx bool :=
  if negb (schedule_owned completed) then mret false
  else
    _ ← ensure (bool_decide (run_origin completed = OriginScheduled)) (recurrence_invariant "schedule_owned_origin");
    found ← (λ s, match find_job_by_id (run_job completed) s with
                  | (failure e, s) =>
                      (failure (if is_database_error e then e else recurrence_caused "invalid_live_definition" e), s)
                  | (success j, s) => (success j, s)
                  end);
    j ← require found (recurrence_invariant "missing_live_definition");
    insert_recurring_run j lower_bound measurement.

End Lifecycle.
