(* ===== verification/Management.v ===== *)
(** * The management service

    [src/jobu/management.cpp]: the operations that create, change, suspend,
    move and delete queues and jobs and that start a job at once.  Each
    operation validates its request, works in one transaction, and returns
    through [invoke], which classifies its failure, stops mutations after a
    fatal one, and reports the outcome.

    Validation of attribute documents and payloads and the codecs of
    idempotency records are the class [Admission].  The clock of an operation
    is an argument: the time for [create_queue], the boundary of the telemetry
    service for the others.  Enumerations have no unknown values here, so their
    range checks have nothing to refuse. *)

From stdpp Require Import base numbers strings list gmap sets.
From S2P Require Import Prelude Effects Values OutputCapture CronEngine Domain ResourceNames StorageFailure Storage.
From S2P Require Import SchedulerRepository ManagementRepository Lifecycle.
Local Open Scope Z_scope.

(** ** Requests *)

Inductive QueueSelector := ById (id : bytes) | ByName (name : bytes).

Record PageOptions := mkPageOptions { page_limit : nat; after_id : option bytes }.
Record Page (A : Type) := mkPage { items : list A; next_after_id : option bytes }.
Arguments mkPage {A}.
Arguments items {A}.
Arguments next_after_id {A}.

Record CreateQueueRequest := mkCreateQueue {
  cq_name : bytes;
  cq_weight : Z;
  cq_concurrency_limit : Z;
  cq_recovery_policy : RecoveryPolicy;
  cq_defaults : AttributeSet;
  cq_history_retention : option Z;
  cq_runnable_wait_warning : Z;
  cq_idempotency_key : option bytes }.

Record UpdateQueueRequest := mkUpdateQueue {
  uq_queue : QueueSelector;
  uq_expected_revision : Z;
  uq_name : option bytes;
  uq_weight : option Z;
  uq_concurrency_limit : option Z;
  uq_recovery_policy : option RecoveryPolicy;
  uq_defaults : option AttributeSet;
  uq_history_retention : option (option Z);
  uq_runnable_wait_warning : option Z }.

Record QueueListRequest := mkQueueList {
  ql_include_deleted : bool; ql_state : option QueueState; ql_page : PageOptions }.

Record CronScheduleInput := mkCronInput { input_expression : bytes; input_timezone : option bytes }.
Inductive JobScheduleInput := InputOnce (planned : Z) | InputCron (input : CronScheduleInput).
Inductive JobCreationSchedule := Immediate | At (schedule : JobScheduleInput).

Record CreateJobRequest := mkCreateJob {
  cj_queue : QueueSelector;
  cj_name : option bytes;
  cj_type : JobType;
  cj_schedule : JobCreationSchedule;
  cj_priority : Z;
  cj_attributes : AttributeSet;
  cj_payload : JsonValue;
  cj_idempotency_key : option bytes }.

Record UpdateJobRequest := mkUpdateJob {
  uj_job : bytes;
  uj_expected_revision : Z;
  uj_name : option (option bytes);
  uj_schedule : option JobScheduleInput;
  uj_priority : option Z;
  uj_attribute_changes : AttributeSet;
  uj_payload : option JsonValue }.

Record JobListRequest := mkJobList {
  jl_queue : option QueueSelector;
  jl_include_deleted : bool;
  jl_state : option JobState;
  jl_type : option JobType;
  jl_page : PageOptions }.

Record MoveJobRequest := mkMoveJob { mj_job : bytes; mj_expected_revision : Z; mj_target_queue : QueueSelector }.
Record DeleteJobRequest := mkDeleteJob { dj_job : bytes; dj_expected_revision : Z }.
Record RunNowRequest := mkRunNow { rn_job : bytes; rn_idempotency_key : option bytes }.

Record ManagementServiceOptions := mkServiceOptions { daemon_defaults : AttributeSet; default_timezone : bytes }.

(** ** Errors *)

Definition response_too_large : Error :=
  mkError ResourceExhausted "jobu.response.too_large" "A resource cannot fit within the response limit" "".
Definition invalid_stored_response : Error :=
  mkError Internal "jobu.storage.invariant" "Persisted resource cannot be encoded" "".
Definition invalid_name : Error :=
  mkError InvalidArgument "jobu.queue.invalid_name"
    "Queue name must contain 1 through 128 bytes of valid UTF-8, no ASCII control characters, and no reserved deletion suffix" "".
Definition invalid_configuration (reason : string) : Error :=
  mkError InvalidArgument "jobu.queue.invalid_configuration" "Queue configuration is invalid" ("reason=" +:+ reason).
Definition queue_not_found : Error := mkError NotFound "jobu.queue.not_found" "Queue was not found" "".
Definition queue_name_conflict : Error :=
  mkError Conflict "jobu.queue.name_conflict" "A queue with that name already exists" "".
Definition queue_state_conflict : Error :=
  mkError Conflict "jobu.queue.state_conflict" "Queue state changed incompatibly during the operation" "".
Definition queue_revision_conflict : Error :=
  mkError Conflict "jobu.queue.revision_conflict" "Queue revision does not match the expected revision" "".
Definition queue_not_suspended : Error :=
  mkError Conflict "jobu.queue.not_suspended" "Queue must be fully suspended for this operation" "".
Definition queue_has_running_attempt : Error :=
  mkError Conflict "jobu.queue.has_running_attempt" "Queue cannot be deleted while work is running" "".
Definition invalid_job_name : Error :=
  mkError InvalidArgument "jobu.job.invalid_name"
    "Job name must contain at most 256 valid UTF-8 bytes and no ASCII control characters" "".
Definition invalid_job_configuration (reason : string) : Error :=
  mkError InvalidArgument "jobu.job.invalid_configuration" "Job configuration is invalid" ("reason=" +:+ reason).
Definition job_not_found : Error := mkError NotFound "jobu.job.not_found" "Job was not found" "".
Definition job_deleted : Error := mkError Conflict "jobu.job.deleted" "Job is deleted" "".
Definition job_revision_conflict : Error :=
  mkError Conflict "jobu.job.revision_conflict" "Job revision does not match the expected revision" "".
Definition job_state_conflict : Error :=
  mkError Conflict "jobu.job.state_conflict" "Job state changed incompatibly during the operation" "".
Definition job_not_suspended : Error :=
  mkError Conflict "jobu.job.not_suspended" "Job must be fully suspended for this operation" "".
Definition job_has_running_attempt : Error :=
  mkError Conflict "jobu.job.has_running_attempt" "Job cannot be deleted while work is running" "".
Definition storage_invariant (reason : string) : Error :=
  invariant_error "Persisted JobU data violates a cross-table invariant" reason.
Definition job_immutable : Error :=
  mkError Conflict "jobu.job.immutable" "A one-time job cannot be changed after an attempt starts" "".
Definition schedule_refresh_conflict : Error :=
  mkError Conflict "jobu.run.schedule_conflict" "The pending schedule-owned run could not be refreshed" "".
Definition manual_run_conflict : Error :=
  mkError Conflict "jobu.run.manual_conflict" "Run Now preconditions are not satisfied" "".
Definition invalid_idempotency_key : Error :=
  mkError InvalidArgument "jobu.idempotency.invalid_key" "Idempotency key must contain 1 through 128 valid UTF-8 bytes" "".
Definition idempotency_conflict : Error :=
  mkError Conflict "jobu.idempotency.conflict" "The idempotency key was already used for a different request" "".
Definition invalid_timezone (message : string) : Error :=
  mkError InvalidArgument "jobu.schedule.invalid_timezone" message "".
Definition mutations_are_stopped : Error :=
  mkError Unavailable "jobu.service.stopping" "Management mutations are stopped" "".
Definition connection_failed : Error :=
  mkError Internal "db.connection_failed" "The database connection is unusable after an unrecoverable failure" "".

(** ** What admission decides *)

Definition invalid_job_payload (issue : JobPayloadIssue) : Error :=
  match issue with
  | TooLarge => mkError ResourceExhausted "jobu.protocol.value_too_large" "Job payload exceeds its size limit"
                  ("reason=" +:+ job_payload_issue_text issue)
  | _ => mkError InvalidArgument "jobu.job.invalid_payload" "Job runner type or payload is structurally invalid"
           ("reason=" +:+ job_payload_issue_text issue)
  end.

Class Admission `{Environment} := {
  (** [encode_and_serialize_attribute_document]. *)
  attribute_document : AttributeSet → AttributeScope → AttributeDocumentMode → option JobType → result Error bytes;
  (** [validate_job_attributes], [attribute_applies_to], [materialize_attributes]. *)
  validate_job_attributes : AttributeSet → JobType → result Error unit;
  attribute_applies_to : bytes → JobType → bool;
  materialize_attributes : JobType → AttributeSet → AttributeSet → AttributeSet → result Error AttributeSet;
  (** [normalize_submitted_job_payload], [validate_payload_template]. *)
  normalize_submitted_job_payload : JobType → JsonValue → result Error JsonValue;
  validate_payload_template : JobType → JsonValue → result JobPayloadIssue (list SecretReference);
  (** [idempotency_codec_priv.hpp]. *)
  encode_queue_request : CreateQueueRequest → result Error bytes;
  validate_queue_request : bytes → result Error unit;
  encode_queue_result : Queue → result Error bytes;
  decode_queue_result : bytes → result Error Queue;
  encode_job_request : CreateJobRequest → bytes → result Error bytes;
  validate_job_request : bytes → result Error unit;
  encode_job_result : JobDefinition → result Error bytes;
  decode_job_result : bytes → result Error JobDefinition;
  encode_run_request : RunNowRequest → result Error bytes;
  validate_run_request : bytes → result Error unit;
  encode_run_result : JobRun → result Error bytes;
  decode_run_result : bytes → result Error JobRun;
  (** [management_json.hpp]. *)
  queue_to_json : Queue → result Error JsonValue;
  job_to_json : JobDefinition → result Error JsonValue;
  (** Whether the connection is unusable after so many statements, and its
      last error. *)
  poisoned : nat → option (option Error);
  (** Where the telemetry service places its failure. *)
  timing_origin : nat → StorageFailureOrigin }.

Section Validation.
Context `{Admission}.

Definition validate_name (name : bytes) : result Error unit := check (is_valid_queue_name name) invalid_name.

Definition validate_idempotency_key (key : option bytes) : result Error unit :=
  check (match key with Some k => is_valid_idempotency_key k | None => true end) invalid_idempotency_key.

Definition validate_job_name (name : option bytes) : result Error unit :=
  check (match name with Some n => is_valid_job_name n | None => true end) invalid_job_name.

(** [validate_and_serialize_job_payload]. *)
Definition validate_job_payload (type : JobType) (payload : JsonValue) : result Error bytes :=
  match serialize_json payload with
  | failure _ => failure (invalid_job_payload InvalidJson)
  | success text =>
      if negb (within_document_limit text) then failure (invalid_job_payload TooLarge)
      else match validate_payload_template type payload with
           | failure issue => failure (invalid_job_payload issue)
           | success _ => success text
           end
  end.

Definition attribute_document_size_message (scope : AttributeScope) : string :=
  match scope with
  | DaemonDefault => "Daemon default attribute document exceeds its size limit"
  | QueueDefault => "Queue attribute document exceeds its size limit"
  | JobScope => "Job attribute document exceeds its size limit"
  end.

Definition serialize_attributes (values : AttributeSet) (scope : AttributeScope) (mode : AttributeDocumentMode)
    (type : option JobType) : result Error bytes :=
  text ← attribute_document values scope mode type;
  _ ← check (within_document_limit text)
        (mkError ResourceExhausted "jobu.protocol.value_too_large" (attribute_document_size_message scope) "");
  success text.

Definition validate_attributes (values : AttributeSet) (scope : AttributeScope) : result Error bytes :=
  serialize_attributes values scope PartialDocument None.

Definition validate_configuration (weight concurrency_limit : Z) (history_retention : option Z) (runnable_wait_warning : Z)
    : result Error unit :=
  _ ← check (negb (weight =? 0)) (invalid_configuration "weight_not_positive");
  _ ← check (negb (concurrency_limit =? 0)) (invalid_configuration "concurrency_limit_not_positive");
  _ ← check (match history_retention with Some v => 0 <=? v | None => true end)
        (invalid_configuration "negative_history_retention");
  check (0 <=? runnable_wait_warning) (invalid_configuration "negative_runnable_wait_warning").

Definition validate_selector (selector : QueueSelector) : result Error unit :=
  match selector with ById _ => success tt | ByName name => validate_name name end.

Definition find_queue_selected (selector : QueueSelector) (include_deleted : bool) : ES Session (option Queue) :=
  match selector with
  | ById id => find_queue_with_id id include_deleted
  | ByName name => find_queue_by_name name include_deleted
  end.

Definition is_empty_queue_update (r : UpdateQueueRequest) : bool :=
  negb (is_some (uq_name r)) && negb (is_some (uq_weight r)) && negb (is_some (uq_concurrency_limit r)) &&
  negb (is_some (uq_recovery_policy r)) && negb (is_some (uq_defaults r)) && negb (is_some (uq_history_retention r)) &&
  negb (is_some (uq_runnable_wait_warning r)).

Definition is_empty_job_update (r : UpdateJobRequest) : bool :=
  negb (is_some (uj_name r)) && negb (is_some (uj_schedule r)) && negb (is_some (uj_priority r)) &&
  bool_decide (uj_attribute_changes r = ∅) && negb (is_some (uj_payload r)).

(** [src/jobu/schedule_input_priv.cpp]. *)
Definition resolve_cron_schedule (input : CronScheduleInput) (zone : bytes) : result Error CronSchedule :=
  let timezone := default zone (input_timezone input) in
  _ ← check (negb (bool_decide (timezone = []))) (invalid_timezone "Cron timezone must be nonempty");
  success (mkSchedule (input_expression input) timezone).

(** *** Pages *)

Definition kMaximumPageSize : nat := 200.
Definition kListResultBudgetBytes : Z := 524288.
Definition kListWrapperReserveBytes : Z := 128.

Section Pages.
Context {A : Type} (encode : A → result Error JsonValue) (limit : nat).

Fixpoint fitting_from (items : list A) (used : Z) (count : nat) : result Error nat :=
  match items with
  | [] => success count
  | item :: items =>
      if (count =? limit)%nat then success count
      else match encode item ≫= serialize_json with
           | failure _ => failure invalid_stored_response
           | success text =>
               let size := Z.of_nat (length text) + 1 in
               if kListResultBudgetBytes - used <? size then success count else fitting_from items (used + size) (S count)
           end
  end.

Definition fitting_page_items (items : list A) : result Error nat :=
  count ← fitting_from items kListWrapperReserveBytes 0;
  _ ← check (negb ((count =? 0)%nat && negb (bool_decide (length items = O)))) response_too_large;
  success count.

Definition fitting_page (id : A → bytes) (items : list A) : result Error (Page A) :=
  count ← fitting_page_items items;
  success (if (count <? length items)%nat then mkPage (take count items) (id <$> last (take count items))
           else mkPage items None).
End Pages.

End Validation.

(** ** The service *)

Inductive Notification := MutationCommitted | ServiceFailed (e : Error) | TelemetryFailed (e : Error).

Record Service `{Environment} := mkService {
  connection : Session;
  failure_origin : StorageFailureOrigin;
  telemetry_failure : option Error;
  telemetry_attached : bool;
  mutations_stopped : bool;
  first_failure : option Error;
  emitted : list Notification }.
Arguments mkService {_}.
Arguments connection {_}.
Arguments failure_origin {_}.
Arguments telemetry_failure {_}.
Arguments telemetry_attached {_}.
Arguments mutations_stopped {_}.
Arguments first_failure {_}.
Arguments emitted {_}.

Section Boundary.
Context `{Admission}.

Abbreviation Op := (ES Service).

Definition with_connection (s : Session) (w : Service) : Service :=
  mkService s (failure_origin w) (telemetry_failure w) (telemetry_attached w) (mutations_stopped w) (first_failure w)
    (emitted w).
Definition with_failure (origin : StorageFailureOrigin) (timing : option Error) (w : Service) : Service :=
  mkService (connection w) origin timing (telemetry_attached w) (mutations_stopped w) (first_failure w) (emitted w).
Definition emit (n : Notification) (w : Service) : Service :=
  mkService (connection w) (failure_origin w) (telemetry_failure w) (telemetry_attached w) (mutations_stopped w)
    (first_failure w) (emitted w ++ [n]).

(** The first fatal failure is latched and announced. *)
Definition latch (e : Error) (w : Service) : Service :=
  match first_failure w with
  | Some _ => mkService (connection w) (failure_origin w) (telemetry_failure w) (telemetry_attached w) true
                (first_failure w) (emitted w)
  | None => emit (ServiceFailed e) (mkService (connection w) (failure_origin w) (telemetry_failure w)
              (telemetry_attached w) true (Some e) (emitted w))
  end.

(** The telemetry service is detached after its failure. *)
Definition detach (w : Service) : Service :=
  mkService (connection w) (failure_origin w) (telemetry_failure w) false true (first_failure w) (emitted w).

Definition stop_mutations (w : Service) : Service :=
  mkService (connection w) (failure_origin w) (telemetry_failure w) (telemetry_attached w) true (first_failure w)
    (emitted w).

Definition is_fatal (context : StorageOperation) (origin : StorageFailureOrigin) (e : Error) : bool :=
  String.prefix "jobu.telemetry." (code e) ||
  match classify_storage_failure e context origin with Fatal => true | _ => false end.

Definition is_sanitized (fatal : bool) (e : Error) : bool :=
  fatal || String.prefix "db." (code e) || bool_decide (code e = "jobu.queue.name_conflict") ||
  bool_decide (code e = "jobu.run.schedule_conflict").

(** The service after a failure, and the error that leaves it. *)
Definition report (context : StorageOperation) (fatal : bool) (e : Error) (w : Service) : Error * Service :=
  let e := if is_sanitized fatal e then sanitized_storage_error e context (failure_origin w) else e in
  let w1 := if is_some (telemetry_failure w) then detach w else w in
  let w2 := if fatal then latch e w1 else w1 in
  (e, match telemetry_failure w with
      | Some timing => if telemetry_attached w then emit (TelemetryFailed timing) w2 else w2
      | None => w2
      end).

(** The operation's value comes with whether it changed durable state. *)
Definition invoke {A} (context : StorageOperation) (operation : Op (A * bool)) : Op A := λ w,
  if bool_decide (context = OpMutation) && mutations_stopped w then (failure mutations_are_stopped, w)
  else
    let '(r, w) := operation (with_failure OriginOperation None w) in
    let fatal := match r with failure e => is_fatal context (failure_origin w) e | success _ => false end in
    let '(r, fatal) :=
      match poisoned (statements (connection w)) with
      | Some last => (if (fatal : bool) then r else failure (default connection_failed last), true)
      | None => (r, fatal)
      end in
    match r with
    | success (v, committed) =>
        (success v, if bool_decide (context = OpMutation) && (committed : bool) then emit MutationCommitted w else w)
    | failure e => let '(e, w) := report context fatal e w in (failure e, w)
    end.

(** *** Steps of an operation *)

Definition on_store {A} (m : ES Session A) : Op A := λ w,
  let '(r, s) := m (connection w) in (r, with_connection s w).

(** [persisted_error]. *)
Definition persisted {A} (e : Error) : Op A := λ w, (failure e, with_failure OriginPersistedData (telemetry_failure w) w).

(** [repository_read_error]. *)
Definition on_read {A} (m : ES Session A) : Op A := λ w,
  match on_store m w with
  | (success v, w) => (success v, w)
  | (failure e, w) =>
      if negb (is_database_error e) && negb (bool_decide (code e = "jobu.queue.ambiguous_deleted_name"))
      then persisted e w else (failure e, w)
  end.

(** A stored document that does not decode. *)
Definition on_persisted {A} (r : result Error A) : Op A :=
  match r with success v => mret v | failure e => persisted e end.

(** [timing_error]. *)
Definition on_timing {A} (m : ES Session A) : Op A := λ w,
  match on_store m w with
  | (success v, w) => (success v, w)
  | (failure e, w) => (failure e, with_failure (timing_origin (statements (connection w))) (Some e) w)
  end.

Definition begin_timing (boundary : result Error Z) : Op Z := on_timing (of_result boundary).
Definition settle_timing (scope : EligibilityScope) : Op unit := on_timing (account (settle_scope scope)).
Definition reconcile_timing (scope : EligibilityScope) : Op unit := on_timing (account (reconcile_scope scope)).

(** A transaction of the service. *)
Definition atomically {A} (m : Op A) : Op A := λ w,
  match statement (connection w) with
  | (failure e, s1) => (failure e, with_connection s1 w)
  | (success _, s1) =>
      match m (with_connection s1 w) with
      | (failure e, w2) => (failure e, with_connection (rolled_back (connection w) (connection w2)) w2)
      | (success v, w2) =>
          match statement (connection w2) with
          | (failure e, s3) => (failure e, with_connection (rolled_back (connection w) s3) w2)
          | (success _, s3) => (success v, with_connection s3 w2)
          end
      end
  end.

Definition need {A} (o : option A) (e : Error) : Op A := of_result (ok_or o e).
Definition demand (b : bool) (e : Error) : Op unit := of_result (check b e).

(** A revision has a successor. *)
Definition queue_capacity (q : Queue) : Op unit := demand (queue_revision q <? int64_max) queue_revision_exhausted.
Definition job_capacity (j : JobDefinition) : Op unit := demand (job_revision j <? int64_max) job_revision_exhausted.

End Boundary.
