(* ===== verification/ManagementOperations.v ===== *)
(** * The operations of the management service

    The bodies of the operations of [src/jobu/management.cpp] and their public
    entries.  A commit before an early return is the end of the transaction;
    a return with an error is its rollback. *)

From stdpp Require Import base numbers strings list gmap sets.
From S2P Require Import Prelude Effects Values OutputCapture CronEngine Domain ResourceNames StorageFailure Storage.
From S2P Require Import SchedulerRepository ManagementRepository Lifecycle Management.
Local Open Scope Z_scope.

Section Operations.
Context `{Admission} (options : ManagementServiceOptions).

Abbreviation Op := (ES Service).

(** Set by the constructor. *)
Definition initialization_error : option Error :=
  match validate_attributes (daemon_defaults options) DaemonDefault with
  | failure e => Some e
  | success _ =>
      if bool_decide (default_timezone options = [])
      then Some (invalid_timezone "Default cron timezone must be nonempty") else None
  end.

Definition initialized : Op unit :=
  match initialization_error with Some e => throw e | None => mret tt end.

(** ** Queues *)

Definition queue_method : bytes := bs!"queue.create".
Definition job_method : bytes := bs!"job.create".
Definition run_method : bytes := bs!"job.run_now".
Definition nil_id : bytes := repeat 0 16.

(** The rows of a new queue and of its idempotent request. *)
Definition insert_new_queue (request : CreateQueueRequest) (canonical : option (bytes * bytes)) (now : Z) (id : bytes)
    : Op Queue :=
  let queue :=
    mkQueueRow id 1 (cq_name request) QueueActive (cq_weight request) (cq_concurrency_limit request)
      (cq_recovery_policy request) (cq_defaults request) (cq_history_retention request)
      (cq_runnable_wait_warning request) now now None in
  existing ← on_read (find_queue_by_name (queue_name queue) false);
  _ ← demand (negb (is_some existing)) queue_name_conflict;
  _ ← on_store (insert_queue queue);
  _ ← match canonical with
      | None => mret tt
      | Some (key, text) =>
          saved ← of_result (encode_queue_result queue);
          on_store (insert_idempotency (mkRecord queue_method nil_id key text saved id now None))
      end;
  mret queue.

(** The saved result of an earlier request with the same key. *)
Definition replay_queue (record : IdempotencyRecord) (text : bytes) : Op Queue :=
  _ ← on_persisted (validate_queue_request (request_json record));
  _ ← demand (bytes_eqb (request_json record) text) idempotency_conflict;
  replay ← on_persisted (decode_queue_result (result_json record));
  _ ← demand (bytes_eqb (row_queue_id replay) (resource_id record)) (invalid_record "queue_resource_id_mismatch");
  mret replay.

Definition create_queue_impl (request : CreateQueueRequest) (now : Z) : Op Queue :=
  _ ← initialized;
  _ ← of_result (validate_name (cq_name request));
  _ ← of_result (validate_configuration (cq_weight request) (cq_concurrency_limit request)
                   (cq_history_retention request) (cq_runnable_wait_warning request));
  _ ← of_result (validate_attributes (cq_defaults request) QueueDefault);
  _ ← of_result (validate_idempotency_key (cq_idempotency_key request));
  match cq_idempotency_key request with
  | Some key =>
      text ← of_result (encode_queue_request request);
      atomically (
        record ← on_read (find_idempotency queue_method nil_id key);
        match record with
        | Some record => replay_queue record text
        | None =>
            id ← on_store generate_uuid;
            insert_new_queue request (Some (key, text)) now id
        end)
  | None =>
      id ← on_store generate_uuid;
      atomically (insert_new_queue request None now id)
  end.

Definition get_queue_impl (selector : QueueSelector) (include_deleted : bool) : Op Queue :=
  _ ← initialized;
  _ ← of_result (validate_selector selector);
  found ← on_read (find_queue_selected selector include_deleted);
  need found queue_not_found.

(** A resource that cannot be encoded is a fault of the stored data. *)
Definition page_of {A} (r : result Error (Page A)) : Op (Page A) :=
  match r with
  | success p => mret p
  | failure e => if bool_decide (code e = "jobu.storage.invariant") then persisted e else throw e
  end.

Definition valid_page (p : PageOptions) : bool :=
  negb (page_limit p =? 0)%nat && (page_limit p <=? kMaximumPageSize)%nat.

Definition list_queues_impl (request : QueueListRequest) : Op (Page Queue) :=
  _ ← initialized;
  _ ← demand (valid_page (ql_page request)) (invalid_configuration "page_limit_out_of_range");
  listed ← on_read (list_queue_rows (ql_include_deleted request) (ql_state request) (S (page_limit (ql_page request)))
                      (after_id (ql_page request)));
  page_of (fitting_page queue_to_json (page_limit (ql_page request)) row_queue_id listed).

(** The configuration that an update asks for. *)
Definition reconfigured (request : UpdateQueueRequest) (now : Z) (q : Queue) : Queue :=
  mkQueueRow (row_queue_id q) (queue_revision q + 1) (default (queue_name q) (uq_name request)) (queue_state q)
    (default (row_weight q) (uq_weight request)) (default (row_concurrency_limit q) (uq_concurrency_limit request))
    (default (recovery_policy q) (uq_recovery_policy request)) (default (queue_defaults q) (uq_defaults request))
    (default (history_retention q) (uq_history_retention request))
    (default (runnable_wait_warning q) (uq_runnable_wait_warning request)) (queue_created_at q) now (queue_deleted_at q).

Definition validate_queue_update (request : UpdateQueueRequest) : result Error unit :=
  _ ← check (negb ((uq_expected_revision request =? 0) || (int64_max <? uq_expected_revision request)))
        (invalid_configuration "invalid_revision");
  _ ← validate_selector (uq_queue request);
  _ ← check (negb (is_empty_queue_update request)) (invalid_configuration "empty_update");
  _ ← match uq_name request with Some name => validate_name name | None => success tt end;
  _ ← check (match uq_weight request with Some v => negb (v =? 0) | None => true end)
        (invalid_configuration "weight_not_positive");
  _ ← check (match uq_concurrency_limit request with Some v => negb (v =? 0) | None => true end)
        (invalid_configuration "concurrency_limit_not_positive");
  _ ← match uq_defaults request with Some v => validate_attributes v QueueDefault | None => success [] end;
  _ ← check (match uq_history_retention request with Some (Some v) => 0 <=? v | _ => true end)
        (invalid_configuration "negative_history_retention");
  check (match uq_runnable_wait_warning request with Some v => 0 <=? v | None => true end)
    (invalid_configuration "negative_runnable_wait_warning").

Definition update_queue_impl (request : UpdateQueueRequest) (boundary : result Error Z) : Op Queue :=
  _ ← initialized;
  _ ← of_result (validate_queue_update request);
  now ← begin_timing boundary;
  atomically (
    found ← on_read (find_queue_selected (uq_queue request) false);
    q ← need found queue_not_found;
    _ ← demand (queue_revision q =? uq_expected_revision request) queue_revision_conflict;
    _ ← demand (negb (queue_revision q =? int64_max)) queue_revision_exhausted;
    _ ← match uq_name request with
        | Some name =>
            if bytes_eqb name (queue_name q) then mret tt
            else
              conflict ← on_read (find_queue_by_name name false);
              demand (match conflict with Some c => bytes_eqb (row_queue_id c) (row_queue_id q) | None => true end)
                queue_name_conflict
        | None => mret tt
        end;
    let replacement := reconfigured request now q in
    _ ← settle_timing (ScopeQueue (row_queue_id replacement));
    replaced ← on_store (replace_mutable_fields replacement (uq_expected_revision request) (uq_defaults request));
    if negb replaced then
      diagnosed ← on_read (find_queue_with_id (row_queue_id replacement) true);
      match diagnosed with
      | None => throw queue_not_found
      | Some d =>
          if is_deleted_queue d then throw queue_not_found
          else if negb (queue_revision d =? uq_expected_revision request) then throw queue_revision_conflict
          else persisted queue_state_conflict
      end
    else
      _ ← reconcile_timing (ScopeQueue (row_queue_id replacement));
      mret replacement).

(** A step of the state of a queue; the row is as it was read. *)
Definition transition_queue (q : Queue) (next : QueueState) (now : Z) : Op Queue :=
  _ ← queue_capacity q;
  transitioned ← on_store (set_queue_state (row_queue_id q) (queue_state q) next (queue_revision q) (queue_revision q + 1) now);
  if negb transitioned then persisted queue_state_conflict
  else mret (queue_with_state next (queue_revision q + 1) now q).

Definition suspend_queue_impl (selector : QueueSelector) (boundary : result Error Z) : Op Queue :=
  _ ← initialized;
  _ ← of_result (validate_selector selector);
  now ← begin_timing boundary;
  atomically (
    found ← on_read (find_queue_selected selector true);
    q ← need found queue_not_found;
    _ ← demand (negb (is_deleted_queue q)) queue_state_conflict;
    if bool_decide (queue_state q = QueueSuspended) then mret q
    else
      _ ← settle_timing (ScopeQueue (row_queue_id q));
      q ← (if bool_decide (queue_state q = QueueActive) then transition_queue q QueueSuspending now else mret q);
      running ← on_store (count_running run_queue (row_queue_id q));
      q ← (if running =? 0 then transition_queue q QueueSuspended now else mret q);
      _ ← reconcile_timing (ScopeQueue (row_queue_id q));
      mret q).

Definition resume_queue_impl (selector : QueueSelector) (boundary : result Error Z) : Op Queue :=
  _ ← initialized;
  _ ← of_result (validate_selector selector);
  now ← begin_timing boundary;
  atomically (
    found ← on_read (find_queue_selected selector true);
    q ← need found queue_not_found;
    _ ← demand (negb (is_deleted_queue q)) queue_state_conflict;
    if bool_decide (queue_state q = QueueActive) then mret q
    else
      _ ← settle_timing (ScopeQueue (row_queue_id q));
      q ← transition_queue q QueueActive now;
      _ ← reconcile_timing (ScopeQueue (row_queue_id q));
      mret q).

Definition queue_deleted_reason : bytes := bs!"queue_deleted".
Definition job_deleted_reason : bytes := bs!"job_deleted".

Definition delete_queue_impl (selector : QueueSelector) (boundary : result Error Z) : Op unit :=
  _ ← initialized;
  _ ← of_result (validate_selector selector);
  now ← begin_timing boundary;
  atomically (
    found ← on_read (find_queue_selected selector true);
    q ← need found queue_not_found;
    _ ← demand (negb (is_deleted_queue q)) queue_state_conflict;
    _ ← demand (bool_decide (queue_state q = QueueSuspended)) queue_not_suspended;
    let id := row_queue_id q in
    running ← on_store (count_running run_queue id);
    _ ← demand (running =? 0) queue_has_running_attempt;
    job_count ← on_store (count_non_deleted_jobs id);
    exhausted ← on_store (has_exhausted_revision_in_queue id int64_max);
    _ ← demand (negb exhausted) job_revision_exhausted;
    _ ← queue_capacity q;
    _ ← settle_timing (ScopeQueue id);
    _ ← on_store (erase_references_for_queue id);
    deleted_jobs ← on_store (mark_all_in_queue_deleted id now);
    _ ← demand (deleted_jobs =? job_count)%nat (storage_invariant "queue_delete_job_count");
    _ ← on_store (cancel_pending run_queue id now queue_deleted_reason);
    deleted ← on_store (mark_queue_deleted id (queue_name q) (queue_revision q) (queue_revision q + 1) now);
    if negb deleted then persisted queue_state_conflict
    else reconcile_timing (ScopeQueue id)).

(** ** Jobs *)

(** The instant and the schedule of a new job. *)
Definition resolve_creation (schedule : JobCreationSchedule) (now : Z) : ES Session (Z * JobSchedule) :=
  match schedule with
  | Immediate => mret (floor_us now, Once (floor_us now))
  | At (InputOnce planned) => mret (planned, Once planned)
  | At (InputCron input) =>
      schedule ← of_result (resolve_cron_schedule input (default_timezone options));
      _ ← cron_call (λ e, validate e schedule);
      next ← cron_call (λ e, next_after e schedule now);
      mret (next, Cron schedule)
  end.

Definition replay_job (record : IdempotencyRecord) (text queue : bytes) : Op JobDefinition :=
  _ ← on_persisted (validate_job_request (request_json record));
  _ ← demand (bytes_eqb (request_json record) text) idempotency_conflict;
  replay ← on_persisted (decode_job_result (result_json record));
  _ ← demand (bytes_eqb (job_id replay) (resource_id record) && bytes_eqb (job_queue replay) queue)
        (invalid_record "job_resource_id_mismatch");
  mret replay.

Definition generate_identity : Op (bytes * bytes) :=
  job ← on_store generate_uuid;
  run ← on_store generate_uuid;
  mret (job, run).

(** The definition, its references, its first run and its idempotent result. *)
Definition insert_new_job (request : CreateJobRequest) (payload_text : bytes) (canonical : option (bytes * bytes))
    (boundary : result Error Z) (queue : Queue) (ids : bytes * bytes) : Op JobDefinition :=
  references ← match validate_payload_template (cj_type request) (cj_payload request) with
               | failure issue => throw (invalid_job_payload issue)
               | success references => mret references
               end;
  _ ← on_store (require_existing_references references);
  now ← begin_timing boundary;
  resolved ← on_store (resolve_creation (cj_schedule request) now);
  attributes ← of_result (materialize_attributes (cj_type request) (daemon_defaults options) (queue_defaults queue)
                            (cj_attributes request));
  attributes_text ← of_result (serialize_attributes attributes JobScope Materialized (Some (cj_type request)));
  let job := mkJob ids.1 (row_queue_id queue) 1 (cj_name request) JobActive (cj_type request) resolved.2
               (cj_priority request) attributes (cj_payload request) now now None in
  _ ← on_store (insert_job job);
  _ ← on_store (replace_references_for_job (job_id job) references);
  _ ← on_store (insert_initial_run (occurrence ids.2 job resolved.1) attributes_text payload_text (measurement_at now));
  _ ← match canonical with
      | None => mret tt
      | Some (key, text) =>
          saved ← of_result (encode_job_result job);
          on_store (insert_idempotency
            (mkRecord job_method (row_queue_id queue) key text saved (job_id job) now None))
      end;
  _ ← reconcile_timing (ScopeJob (job_id job));
  mret job.

Definition with_payload (payload : JsonValue) (request : CreateJobRequest) : CreateJobRequest :=
  mkCreateJob (cj_queue request) (cj_name request) (cj_type request) (cj_schedule request) (cj_priority request)
    (cj_attributes request) payload (cj_idempotency_key request).

Definition explicit_empty_zone (schedule : JobCreationSchedule) : bool :=
  match schedule with At (InputCron input) => bool_decide (input_timezone input = Some []) | _ => false end.

Definition create_job_impl (request : CreateJobRequest) (boundary : result Error Z) : Op JobDefinition :=
  _ ← initialized;
  _ ← of_result (validate_selector (cj_queue request));
  _ ← of_result (validate_job_name (cj_name request));
  normalized ← of_result (normalize_submitted_job_payload (cj_type request) (cj_payload request));
  let request := with_payload normalized request in
  payload_text ← of_result (validate_job_payload (cj_type request) (cj_payload request));
  _ ← of_result (validate_attributes (cj_attributes request) JobScope);
  _ ← of_result (validate_job_attributes (cj_attributes request) (cj_type request));
  _ ← of_result (validate_idempotency_key (cj_idempotency_key request));
  _ ← demand (negb (explicit_empty_zone (cj_schedule request))) (invalid_timezone "Cron timezone must be nonempty");
  let in_queue (create : Queue → Op JobDefinition) : Op JobDefinition :=
    atomically (
      found ← on_read (find_queue_selected (cj_queue request) false);
      queue ← need found queue_not_found;
      _ ← demand (bool_decide (queue_state queue = QueueActive) || bool_decide (queue_state queue = QueueSuspended))
            queue_state_conflict;
      create queue) in
  match cj_idempotency_key request with
  | None =>
      ids ← generate_identity;
      in_queue (λ queue, insert_new_job request payload_text None boundary queue ids)
  | Some key =>
      in_queue (λ queue,
        text ← of_result (encode_job_request request (row_queue_id queue));
        record ← on_read (find_idempotency job_method (row_queue_id queue) key);
        match record with
        | Some record => replay_job record text (row_queue_id queue)
        | None =>
            ids ← generate_identity;
            insert_new_job request payload_text (Some (key, text)) boundary queue ids
        end)
  end.

Definition replay_run (record : IdempotencyRecord) (request : RunNowRequest) (key text : bytes) : Op JobRun :=
  _ ← demand (bytes_eqb (record_method record) run_method && bytes_eqb (record_scope record) (rn_job request) &&
              bytes_eqb (record_key record) key) (invalid_record "run_now_record_identity");
  _ ← on_persisted (validate_run_request (request_json record));
  _ ← demand (bytes_eqb (request_json record) text) (invalid_record "run_now_request_scope_mismatch");
  replay ← on_persisted (decode_run_result (result_json record));
  _ ← demand (bytes_eqb (run_id replay) (resource_id record) && bytes_eqb (run_job replay) (rn_job request))
        (invalid_record "run_now_resource_id_mismatch");
  mret replay.

Definition manual_occurrence (id : bytes) (j : JobDefinition) (now : Z) : JobRun :=
  mkRun id (job_id j) (job_revision j) (job_queue j) OriginManual false now now None None (job_type j) (job_priority j)
    (job_attributes j) (job_payload j) RunScheduled None.

Definition insert_new_run (request : RunNowRequest) (canonical : option (bytes * bytes)) (boundary : result Error Z)
    : Op JobRun :=
  found ← on_read (find_job_with_id (rn_job request) true);
  j ← need found job_not_found;
  _ ← demand (negb (is_deleted_job j)) job_deleted;
  _ ← demand (negb (is_terminal_job_state (job_state j))) manual_run_conflict;
  queue ← on_read (find_queue_with_id (job_queue j) true);
  q ← need queue (storage_invariant "run_now_missing_queue");
  _ ← demand (negb (is_deleted_queue q)) manual_run_conflict;
  owned ← on_read (find_schedule_owned (job_id j));
  scheduled ← need owned manual_run_conflict;
  _ ← demand (bytes_eqb (run_job scheduled) (job_id j) && bytes_eqb (run_queue scheduled) (job_queue j) &&
              bool_decide (run_origin scheduled = OriginScheduled) && schedule_owned scheduled)
        (storage_invariant "run_now_schedule_relationship");
  now ← begin_timing boundary;
  _ ← demand (bool_decide (run_state scheduled = RunScheduled) && (now <? planned_at scheduled)) manual_run_conflict;
  busy ← on_store (has_running_or_retrying_run (job_id j));
  _ ← demand (negb busy) manual_run_conflict;
  manual ← on_store (has_non_terminal_manual_run (job_id j));
  _ ← demand (negb manual) manual_run_conflict;
  _ ← settle_timing (ScopeJob (job_id j));
  id ← on_store generate_uuid;
  let run := manual_occurrence id j now in
  _ ← on_store (insert_manual run (measurement_at now));
  _ ← match canonical with
      | None => mret tt
      | Some (key, text) =>
          saved ← of_result (encode_run_result run);
          on_store (insert_idempotency (mkRecord run_method (job_id j) key text saved id now None))
      end;
  _ ← reconcile_timing (ScopeJob (job_id j));
  mret run.

(** The run, and whether it is new. *)
Definition run_now_impl (request : RunNowRequest) (boundary : result Error Z) : Op (JobRun * bool) :=
  _ ← initialized;
  _ ← of_result (validate_idempotency_key (rn_idempotency_key request));
  canonical ← match rn_idempotency_key request with
              | None => mret None
              | Some key => text ← of_result (encode_run_request request); mret (Some (key, text))
              end;
  atomically (
    record ← match canonical with
             | None => mret None
             | Some (key, text) => on_read (find_idempotency run_method (rn_job request) key)
             end;
    match record, canonical with
    | Some record, Some (key, text) => run ← replay_run record request key text; mret (run, false)
    | _, _ => run ← insert_new_run request canonical boundary; mret (run, true)
    end).

(** The replacement of a schedule, resolved and validated. *)
Definition resolve_update (schedule : option JobScheduleInput) : ES Session (option JobSchedule) :=
  match schedule with
  | None => mret None
  | Some (InputOnce planned) => mret (Some (Once planned))
  | Some (InputCron input) =>
      schedule ← of_result (resolve_cron_schedule input (default_timezone options));
      _ ← cron_call (λ e, validate e schedule);
      mret (Some (Cron schedule))
  end.

(** Whether the schedule-owned run takes the new definition. *)
Definition refreshes (j : JobDefinition) (request : UpdateJobRequest) (owned : JobRun) : Op bool :=
  if bool_decide (run_state owned = RunScheduled) then
    has_attempt ← on_store (has_any_for_run (run_id owned));
    _ ← demand (negb has_attempt) schedule_refresh_conflict;
    mret true
  else
    _ ← demand (negb (is_once j || match uj_schedule request with Some (InputOnce _) => true | _ => false end))
          schedule_refresh_conflict;
    mret false.

(** The definition that an update asks for. *)
Definition redefined (request : UpdateJobRequest) (schedule : option JobSchedule) (payload : JsonValue) (now : Z)
    (j : JobDefinition) : JobDefinition :=
  mkJob (job_id j) (job_queue j) (job_revision j + 1) (default (job_name j) (uj_name request)) (job_state j) (job_type j)
    (default (job_schedule j) schedule) (default (job_priority j) (uj_priority request))
    (uj_attribute_changes request ∪
     filter (λ entry : bytes * AttributeValue, attribute_applies_to entry.1 (job_type j) = true) (job_attributes j))
    payload (created_at j) now (deleted_at j).

(** What became of a definition that did not take the change. *)
Definition diagnose_job {A} (job : bytes) (expected_revision : Z) (rest : JobDefinition → Op A) : Op A :=
  diagnosed ← on_read (find_job_with_id job true);
  match diagnosed with
  | None => throw job_not_found
  | Some d =>
      if is_deleted_job d then throw job_deleted
      else if negb (job_revision d =? expected_revision) then throw job_revision_conflict
      else rest d
  end.

Definition refresh_snapshot (j : JobDefinition) (attributes_text payload_text : bytes) (now : Z) : Op unit :=
  planned ← match job_schedule j with
            | Once planned => mret planned
            | Cron schedule => on_store (cron_call (λ e, next_after e schedule now))
            end;
  refreshed ← on_store (refresh_unstarted_schedule_owned j planned attributes_text payload_text);
  if negb refreshed then persisted schedule_refresh_conflict else mret tt.

Definition update_job_impl (request : UpdateJobRequest) (boundary : result Error Z) : Op JobDefinition :=
  _ ← initialized;
  _ ← demand (negb (uj_expected_revision request =? 0)) (invalid_job_configuration "expected_revision_not_positive");
  _ ← demand (negb (is_empty_job_update request)) (invalid_job_configuration "empty_update");
  _ ← of_result (match uj_name request with Some name => validate_job_name name | None => success tt end);
  schedule ← on_store (resolve_update (uj_schedule request));
  _ ← of_result (validate_attributes (uj_attribute_changes request) JobScope);
  atomically (
    now ← begin_timing boundary;
    found ← on_read (find_job_with_id (uj_job request) true);
    j ← need found job_not_found;
    _ ← demand (negb (is_deleted_job j)) job_deleted;
    _ ← demand (job_revision j =? uj_expected_revision request) job_revision_conflict;
    _ ← demand (is_mutable_state (job_state j)) job_state_conflict;
    _ ← (if is_once j then
           started ← on_store (has_started_for_job (job_id j));
           demand (negb started) job_immutable
         else mret tt);
    found ← on_read (find_schedule_owned (job_id j));
    owned ← need found schedule_refresh_conflict;
    refresh ← refreshes j request owned;
    _ ← of_result (validate_job_attributes (uj_attribute_changes request) (job_type j));
    payload ← match uj_payload request with
              | None => mret (job_payload j)
              | Some payload => of_result (normalize_submitted_job_payload (job_type j) payload)
              end;
    let replacement := redefined request schedule payload now j in
    payload_text ← of_result (validate_job_payload (job_type replacement) (job_payload replacement));
    references ← match validate_payload_template (job_type replacement) (job_payload replacement) with
                 | failure issue => throw (invalid_job_payload issue)
                 | success references => mret references
                 end;
    _ ← on_store (require_existing_references references);
    attributes_text ← of_result (serialize_attributes (job_attributes replacement) JobScope Materialized
                                   (Some (job_type replacement)));
    _ ← job_capacity j;
    _ ← settle_timing (ScopeJob (job_id replacement));
    replaced ← on_store (update_definition replacement (uj_expected_revision request));
    if negb replaced
    then diagnose_job (job_id replacement) (uj_expected_revision request) (λ _, persisted job_state_conflict)
    else
      _ ← on_store (replace_references_for_job (job_id replacement) references);
      _ ← (if (refresh : bool) then refresh_snapshot replacement attributes_text payload_text now else mret tt);
      _ ← reconcile_timing (ScopeJob (job_id replacement));
      mret replacement).

Definition transition_job (j : JobDefinition) (next : JobState) (now : Z) : Op JobDefinition :=
  _ ← job_capacity j;
  transitioned ← on_store (set_job_state (job_id j) (job_state j) next (job_revision j) (job_revision j + 1) now);
  if negb transitioned then persisted job_state_conflict
  else mret (job_with_state next (job_revision j + 1) now j).

Definition suspend_job_impl (id : bytes) (boundary : result Error Z) : Op JobDefinition :=
  _ ← initialized;
  now ← begin_timing boundary;
  atomically (
    found ← on_read (find_job_with_id id true);
    j ← need found job_not_found;
    _ ← demand (negb (is_deleted_job j)) job_deleted;
    _ ← demand (negb (is_terminal_job_state (job_state j))) job_state_conflict;
    if bool_decide (job_state j = JobSuspended) then mret j
    else
      _ ← settle_timing (ScopeJob (job_id j));
      j ← (if bool_decide (job_state j = JobActive) then transition_job j JobSuspending now else mret j);
      running ← on_store (count_running run_job (job_id j));
      j ← (if running =? 0 then transition_job j JobSuspended now else mret j);
      _ ← reconcile_timing (ScopeJob (job_id j));
      mret j).

Definition resume_job_impl (id : bytes) (boundary : result Error Z) : Op JobDefinition :=
  _ ← initialized;
  now ← begin_timing boundary;
  atomically (
    found ← on_read (find_job_with_id id true);
    j ← need found job_not_found;
    _ ← demand (negb (is_deleted_job j)) job_deleted;
    _ ← demand (negb (is_terminal_job_state (job_state j))) job_state_conflict;
    if bool_decide (job_state j = JobActive) then mret j
    else
      _ ← settle_timing (ScopeJob (job_id j));
      j ← transition_job j JobActive now;
      _ ← reconcile_timing (ScopeJob (job_id j));
      mret j).

Definition move_job_impl (request : MoveJobRequest) (boundary : result Error Z) : Op JobDefinition :=
  _ ← initialized;
  _ ← demand (negb (mj_expected_revision request =? 0)) (invalid_job_configuration "expected_revision_not_positive");
  _ ← of_result (validate_selector (mj_target_queue request));
  now ← begin_timing boundary;
  atomically (
    found ← on_read (find_job_with_id (mj_job request) true);
    j ← need found job_not_found;
    _ ← demand (negb (is_deleted_job j)) job_deleted;
    _ ← demand (job_revision j =? mj_expected_revision request) job_revision_conflict;
    _ ← demand (bool_decide (job_state j = JobSuspended)) job_not_suspended;
    found ← on_read (find_queue_selected (mj_target_queue request) false);
    target ← need found queue_not_found;
    _ ← demand (negb (bytes_eqb (row_queue_id target) (job_queue j)) &&
                (bool_decide (queue_state target = QueueActive) || bool_decide (queue_state target = QueueSuspended)))
          queue_state_conflict;
    _ ← job_capacity j;
    _ ← settle_timing (ScopeJob (job_id j));
    let next := job_revision j + 1 in
    moved ← on_store (move_job_row (job_id j) (job_revision j) (row_queue_id target) next now);
    if negb moved then
      diagnose_job (job_id j) (mj_expected_revision request) (λ d,
        if negb (bool_decide (job_state d = JobSuspended)) then throw job_not_suspended else persisted job_state_conflict)
    else
      _ ← on_store (move_non_terminal (job_id j) (row_queue_id target) next);
      _ ← reconcile_timing (ScopeJob (job_id j));
      mret (with_queue (row_queue_id target) next now j)).

Definition is_deletable (j : JobDefinition) : bool :=
  bool_decide (job_state j = JobSuspended) || is_terminal_job_state (job_state j).

Definition delete_job_impl (request : DeleteJobRequest) (boundary : result Error Z) : Op unit :=
  _ ← initialized;
  _ ← demand (negb (dj_expected_revision request =? 0)) (invalid_job_configuration "expected_revision_not_positive");
  now ← begin_timing boundary;
  atomically (
    found ← on_read (find_job_with_id (dj_job request) true);
    j ← need found job_not_found;
    _ ← demand (negb (is_deleted_job j)) job_deleted;
    _ ← demand (job_revision j =? dj_expected_revision request) job_revision_conflict;
    _ ← demand (is_deletable j) job_not_suspended;
    _ ← (if is_terminal_job_state (job_state j) then on_store (validate_job_lifecycle j) else mret tt);
    running ← on_store (count_running run_job (job_id j));
    _ ← demand (running =? 0) job_has_running_attempt;
    _ ← job_capacity j;
    _ ← settle_timing (ScopeJob (job_id j));
    deleted ← on_store (mark_job_deleted (job_id j) (job_revision j) (job_revision j + 1) now);
    if negb deleted then
      diagnose_job (job_id j) (dj_expected_revision request) (λ d,
        if negb (is_deletable d) then throw job_not_suspended else persisted job_state_conflict)
    else
      _ ← on_store (cancel_pending run_job (job_id j) now job_deleted_reason);
      _ ← on_store (replace_references_for_job (job_id j) []);
      reconcile_timing (ScopeJob (job_id j))).

Definition get_job_impl (id : bytes) (include_deleted : bool) : Op JobDefinition :=
  _ ← initialized;
  found ← on_read (find_job_with_id id include_deleted);
  need found job_not_found.

Definition list_jobs_impl (request : JobListRequest) : Op (Page JobDefinition) :=
  _ ← initialized;
  _ ← demand (valid_page (jl_page request)) (invalid_job_configuration "page_limit_out_of_range");
  queue ← match jl_queue request with
          | None => mret None
          | Some selector =>
              _ ← of_result (validate_selector selector);
              found ← on_read (find_queue_selected selector (jl_include_deleted request));
              q ← need found queue_not_found;
              mret (Some (row_queue_id q))
          end;
  listed ← on_read (list_job_rows queue (jl_include_deleted request) (jl_state request) (jl_type request)
                      (S (page_limit (jl_page request))) (after_id (jl_page request)));
  page_of (fitting_page job_to_json (page_limit (jl_page request)) job_id listed).

(** ** Public entries *)

(** One call of the service. *)
Inductive Request :=
  | CreateQueue (request : CreateQueueRequest) (now : Z)
  | UpdateQueue (request : UpdateQueueRequest) (boundary : result Error Z)
  | SuspendQueue (selector : QueueSelector) (boundary : result Error Z)
  | ResumeQueue (selector : QueueSelector) (boundary : result Error Z)
  | DeleteQueue (selector : QueueSelector) (boundary : result Error Z)
  | CreateJob (request : CreateJobRequest) (boundary : result Error Z)
  | RunNow (request : RunNowRequest) (boundary : result Error Z)
  | UpdateJob (request : UpdateJobRequest) (boundary : result Error Z)
  | SuspendJob (id : bytes) (boundary : result Error Z)
  | ResumeJob (id : bytes) (boundary : result Error Z)
  | MoveJob (request : MoveJobRequest) (boundary : result Error Z)
  | DeleteJob (request : DeleteJobRequest) (boundary : result Error Z)
  | GetQueue (selector : QueueSelector) (include_deleted : bool)
  | ListQueues (request : QueueListRequest)
  | GetJob (id : bytes) (include_deleted : bool)
  | ListJobs (request : JobListRequest).

Inductive Response :=
  | QueueResponse (q : Queue) | JobResponse (j : JobDefinition) | RunResponse (r : JobRun) | Done
  | QueuesResponse (p : Page Queue) | JobsResponse (p : Page JobDefinition).

Definition is_query (request : Request) : bool :=
  match request with GetQueue _ _ | ListQueues _ | GetJob _ _ | ListJobs _ => true | _ => false end.

(** The body of a request, and whether it may have changed durable state. *)
Definition changing {A} (wrap : A → Response) (m : Op A) : Op (Response * bool) := (λ v, (wrap v, true)) <$> m.

Definition operation (request : Request) : Op (Response * bool) :=
  match request with
  | CreateQueue request now => changing QueueResponse (create_queue_impl request now)
  | UpdateQueue request boundary => changing QueueResponse (update_queue_impl request boundary)
  | SuspendQueue selector boundary => changing QueueResponse (suspend_queue_impl selector boundary)
  | ResumeQueue selector boundary => changing QueueResponse (resume_queue_impl selector boundary)
  | DeleteQueue selector boundary => changing (λ _, Done) (delete_queue_impl selector boundary)
  | CreateJob request boundary => changing JobResponse (create_job_impl request boundary)
  | RunNow request boundary => (λ v, (RunResponse v.1, v.2)) <$> run_now_impl request boundary
  | UpdateJob request boundary => changing JobResponse (update_job_impl request boundary)
  | SuspendJob id boundary => changing JobResponse (suspend_job_impl id boundary)
  | ResumeJob id boundary => changing JobResponse (resume_job_impl id boundary)
  | MoveJob request boundary => changing JobResponse (move_job_impl request boundary)
  | DeleteJob request boundary => changing (λ _, Done) (delete_job_impl request boundary)
  | GetQueue selector include_deleted => changing QueueResponse (get_queue_impl selector include_deleted)
  | ListQueues request => changing QueuesResponse (list_queues_impl request)
  | GetJob id include_deleted => changing JobResponse (get_job_impl id include_deleted)
  | ListJobs request => changing JobsResponse (list_jobs_impl request)
  end.

Definition serve (request : Request) : Op Response :=
  invoke (if is_query request then OpRead else OpMutation) (operation request).

End Operations.
