(* ===== verification/Completion.v ===== *)
(** * Starting, completing and cancelling attempts

    The durable transitions of the scheduler: [dispatch_selected_impl] of
    [src/jobu/scheduler_dispatch_priv.cpp], [process_completion] and
    [cancel_run_impl] of [scheduler_core_priv.cpp], and the diagnostics of
    [execution_diagnostics_priv.cpp].  Each is one transaction over the store;
    the scheduler's memory of the active attempts follows the commit. *)

From stdpp Require Import base numbers strings list gmap sets.
From Stdlib Require Import Ascii.
From S2P Require Import Prelude Effects Values OutputCapture RetryPolicy CronEngine Domain Storage SchedulerRepository.
From S2P Require Import WaitRepository Lifecycle.
Local Open Scope Z_scope.

(** ** The executor's callback *)

Definition kMaximumCompletionResultBytes : Z := 256 * 1024.
Definition kMaximumPrimaryOutputBytes : Z := 64 * 1024 * 1024.
Definition kMaximumDiagnosticOutputBytes : Z := 64 * 1024 * 1024.
(** The document [{reason: cancelled}], both words quoted. *)
Definition kCancellationResultJson : JsonText :=
  [123; 34] ++ bs!"reason" ++ [34; 58; 34] ++ bs!"cancelled" ++ [34; 125].

Definition validate_output_channel (channel : Captured) (maximum : Z) (name : string) : result Error unit :=
  let retained := Z.of_nat (length (captured_bytes channel)) in
  _ ← check (retained <=? maximum) (invalid_completion (name +:+ "_too_large"));
  _ ← check (retained <=? captured_total channel) (invalid_completion (name +:+ "_total_below_retained"));
  check (Bool.eqb (captured_truncated channel) (retained <? captured_total channel))
    (invalid_completion (name +:+ "_truncation_mismatch")).

Definition validate_output (completion : AttemptCompletion) : result Error unit :=
  match completion_output completion with
  | None => success tt
  | Some output =>
      _ ← match primary output with
          | Some c => validate_output_channel c kMaximumPrimaryOutputBytes "primary"
          | None => success tt
          end;
      match diagnostic output with
      | Some c => validate_output_channel c kMaximumDiagnosticOutputBytes "diagnostic"
      | None => success tt
      end
  end.

Definition validate_output_capture (completion : AttemptCompletion) (attributes : AttributeSet)
    (outcome : AttemptOutcome) : result Error unit :=
  match completion_output completion with
  | None => success tt
  | Some _ =>
      match attributes !! bs!"output.capture" with
      | None => failure (invalid_completion "missing_output_capture")
      | Some (AttrString mode) =>
          _ ← check (negb (bytes_eqb mode bs!"none")) (invalid_completion "output_capture_disabled");
          _ ← check (bytes_eqb mode bs!"on_error" || bytes_eqb mode bs!"always")
                (invalid_completion "unknown_output_capture");
          check (negb (bytes_eqb mode bs!"on_error" && bool_decide (outcome = Succeeded)))
            (invalid_completion "output_capture_on_success")
      | Some _ => failure (invalid_completion "invalid_output_capture")
      end
  end.

Definition to_storage_output (o : AttemptOutput) : StoredOutput :=
  mkStoredOutput (captured_bytes <$> primary o) (captured_bytes <$> diagnostic o)
    (match primary o with Some c => captured_truncated c | None => false end)
    (match diagnostic o with Some c => captured_truncated c | None => false end)
    (output_capture_lost o).

Definition is_object (v : JsonValue) : bool := match v with JsonObject _ => true | _ => false end.

Definition terminal_run_state (outcome : AttemptOutcome) : result Error RunState :=
  match outcome with
  | Succeeded => success RunSucceeded
  | Failed => success RunFailed
  | Cancelled_ => success RunCancelled
  | Interrupted => failure (invalid_completion "invalid_terminal_outcome")
  end.

(** ** Diagnostics *)

Record ExecutionDiagnostics := mkDiagnostics {
  diagnostic_exit_code : option Z; diagnostic_signal : option Z; diagnostic_status : option Z }.
Definition no_diagnostics : ExecutionDiagnostics := mkDiagnostics None None None.

(** The platform's exclusive signal bound (Linux). *)
Definition NSIG : Z := 65.

Fixpoint find_member (key : bytes) (members : list (bytes * JsonValue)) : option JsonValue :=
  match members with
  | [] => None
  | (k, v) :: members => if bytes_eqb k key then Some v else find_member key members
  end.

Definition bounded_integer (members : list (bytes * JsonValue)) (field : bytes) (minimum maximum : Z) : option Z :=
  v ← find_member field members;
  n ← match v with
      | JsonInt n => if n <? 0 then None else Some n
      | JsonUint n => Some n
      | _ => None
      end;
  if (n <? minimum) || (maximum <? n) then None else Some n.

Definition project_execution_diagnostics (type : JobType) (effective_result : JsonValue) : ExecutionDiagnostics :=
  match effective_result with
  | JsonObject members =>
      match type with
      | Cli => mkDiagnostics (bounded_integer members bs!"exit_code" 0 255)
                 (bounded_integer members bs!"signal" 1 (NSIG - 1)) None
      | Http => mkDiagnostics None None (bounded_integer members bs!"status" 100 599)
      end
  | _ => no_diagnostics
  end.

(** Milliseconds from acceptance to completion; times are in nanoseconds. *)
Definition attempt_elapsed (accepted_at : option Z) (completed_at : Z) : option Z :=
  accepted ← accepted_at;
  if completed_at <? accepted then None
  else if (accepted <? 0) && (int64_max + accepted <? completed_at) then None
  else Some ((completed_at - accepted) / 1000000).

Section Transitions.
Context `{Environment}.

Abbreviation Tx := (ES Session).

Definition validate_completion (completion : AttemptCompletion) : result Error JsonText :=
  _ ← match completion_outcome completion with
      | Succeeded | Cancelled_ =>
          check (negb (is_some (completion_disposition completion) || is_some (completion_not_before completion)))
            (invalid_completion "terminal_fields")
      | Failed =>
          _ ← check (is_some (completion_disposition completion)) (invalid_completion "missing_failure_disposition");
          check (negb (is_some (completion_not_before completion)) ||
                 bool_decide (completion_disposition completion = Some Retryable))
            (invalid_completion "terminal_retry_deadline")
      | Interrupted => failure (invalid_completion "interrupted_reserved")
      end;
  _ ← check (is_object (completion_result completion)) (invalid_completion "result_not_object");
  text ← match serialize_json (completion_result completion) with
         | success text => success text
         | failure _ => failure (invalid_completion "result_not_serializable")
         end;
  _ ← check (Z.of_nat (length text) <=? kMaximumCompletionResultBytes) (invalid_completion "result_too_large");
  _ ← validate_output completion;
  success text.

(** ** The scheduler's memory *)

Record Runtime := mkRuntime {
  session : Session;
  active : gmap bytes ActiveAttempt;
  cancellations : gset bytes }.

Abbreviation Rt := (ES Runtime).

Definition in_session {A} (m : Tx A) : Rt A := λ w,
  let '(r, s) := m (session w) in (r, mkRuntime s (active w) (cancellations w)).

(** What follows the attempt: a retry, or the end of the run with its
    consequences for the definition. *)
Definition finish_attempt (context : CompletionContext) (retry : option RetrySchedule) (outcome : AttemptOutcome)
    (run : bytes) (completed_at : Z) (result : JsonText) (attempt : AttemptFinished) : Tx CompletionEffect :=
  match retry with
  | Some r =>
      _ ← set_run_retry_wait run (due_at r);
      let job_permits_execution :=
        bool_decide (context_job_state context = JobActive) ||
        bool_decide (run_origin (context_run context) = OriginManual) in
      mret (mkEffect
        (bool_decide (retry_mode r = Blocking) && job_permits_execution &&
         bool_decide (context_queue_state context = QueueActive))
        attempt
        (FollowRetry (mkScheduled (finished_execution attempt) (finished_attempt attempt) (finished_attempt attempt + 1)
           (floor_us (due_at r)) (retry_mode r))))
  | None =>
      state ← of_result (terminal_run_state outcome);
      _ ← set_run_terminal run state completed_at result;
      _ ← insert_recurring_successor (context_run context)
            (Z.max completed_at (planned_at (context_run context))) (measurement_at completed_at);
      _ ← finish_after_terminal_run run completed_at;
      mret (mkEffect false attempt
        (FollowFinished (mkRunFinished (finished_execution attempt) state (finished_at attempt)
           (Some (finished_attempt attempt)))))
  end.

(** The end of a completion: the consequences, the drained suspensions and the
    accounting. *)
Definition conclude_transition (active : ActiveAttempt) (cancelled : bool) (completion : AttemptCompletion)
    (context : CompletionContext) (retry : option RetrySchedule) (text : JsonText) (completed_at entered_at : Z)
    : Tx CompletionEffect :=
  let outcome := if cancelled then Cancelled_ else completion_outcome completion in
  let diagnostics := if cancelled then no_diagnostics
                     else project_execution_diagnostics (execution_type (active_execution active))
                            (completion_result completion) in
  effect ← finish_attempt context retry outcome (key_run (completion_key completion)) completed_at text
    (mkFinished (active_execution active) (active_number active) outcome (active_phase active)
       (floor_us completed_at) (attempt_elapsed (accepted_at active) entered_at)
       (diagnostic_exit_code diagnostics) (diagnostic_signal diagnostics) (diagnostic_status diagnostics));
  _ ← complete_drained_suspensions (run_queue (context_run context)) (run_job (context_run context)) completed_at;
  _ ← account (reconcile_scope (ScopeJob (run_job (context_run context))));
  mret effect.

(** The durable part of a completion, with the effective outcome. *)
Definition complete_transition (active : ActiveAttempt) (cancelled : bool) (completion : AttemptCompletion)
    (text : JsonText) (completed_at entered_at : Z) : Tx CompletionEffect :=
  let run := key_run (completion_key completion) in
  let number := key_attempt (completion_key completion) in
  let outcome := if cancelled then Cancelled_ else completion_outcome completion in
  let disposition := if cancelled then None else completion_disposition completion in
  let not_before := if cancelled then None else completion_not_before completion in
  let text := if cancelled then kCancellationResultJson else text in
  context ← find_completion_context run number;
  _ ← of_result (validate_output_capture completion (run_attributes (context_run context)) outcome);
  decision ← of_result (retry_decision (run_attributes (context_run context))
    (mkCompletion run number outcome (bool_decide (disposition = Some Retryable))
       (negb (bool_decide (context_job_state context = JobDeleted)) &&
        negb (bool_decide (context_queue_state context = QueueDeleted)))
       completed_at not_before));
  _ ← validate_closed_run (run_id (context_run context));
  _ ← account (settle_scope (ScopeJob (run_job (context_run context))));
  _ ← complete_attempt run number completed_at outcome text;
  _ ← match completion_output completion with
      | Some o => insert_or_replace_output run number (to_storage_output o)
      | None => mret tt
      end;
  conclude_transition active cancelled completion context decision text completed_at entered_at.

(** [process_completion]; [boundary] is what [mutation_boundary] returned. *)
Definition process_completion (expected_run : bytes) (completion : AttemptCompletion) (boundary : result Error Z)
    (entered_at : Z) : Rt CompletionEffect :=
  found ← gets (λ w, active w !! expected_run);
  attempt ← of_result (ok_or found (invalid_completion "unexpected_callback"));
  _ ← of_result (check (bytes_eqb (key_run (completion_key completion)) expected_run &&
                        (key_attempt (completion_key completion) =? active_number attempt))
                   (invalid_completion "key_mismatch"));
  text ← of_result (validate_completion completion);
  cancelled ← gets (λ w, bool_decide (expected_run ∈ cancellations w));
  completed_at ← of_result boundary;
  effect ← in_session (transaction (λ _, true)
    (complete_transition attempt cancelled completion text completed_at entered_at));
  _ ← modify (λ w, mkRuntime (session w) (delete expected_run (active w)) (cancellations w ∖ {[expected_run]}));
  mret effect.

(** ** Starting an attempt *)

(** The payload of a run with its secrets: [prepare_payload_template]. *)
Inductive Preparation := Prepared (payload : JsonValue) | Unprepared (e : Error) | PreparationAborted (e : Error).

(** What a start asks of the executor, the secrets and the accounting. *)
Class Runner := {
  is_available : JobType → bool;
  prepare_payload : JobRun → Preparation;
  claim_run : JobRun → Z → Timing → result Error (option DelayedRun * Timing);
  executor_start : AttemptKey → JobRun → JsonValue → result Error unit;
  acceptance_clock : option Z;
  executor_cancel : AttemptKey → result Error unit }.

Context `{Runner}.

Definition terminal_start_failure (key : AttemptKey) (e : Error) : AttemptCompletion :=
  mkAttemptCompletion key Failed (Some Terminal) None
    (JsonObject [(bs!"error_code", JsonString (bytes_of (code e))); (bs!"message", JsonString (bytes_of (message e)))])
    None.

(** The claim: the attempt and the run in one transaction; [None] if the run
    is no longer eligible. *)
Definition claim_transition (run : bytes) (started_at : Z)
    : Tx (option (DispatchContext * Preparation * option DelayedRun)) :=
  context ← find_dispatch_context run started_at;
  match context with
  | None => mret None
  | Some selected =>
      let r := dispatch_run selected in
      if negb (is_available (run_type r)) then mret None
      else
        let prepared := prepare_payload r in
        _ ← match prepared with PreparationAborted e => throw e | _ => mret tt end;
        claimed ← (λ s, match claim_run r (runnable_wait_warning (dispatch_queue selected)) (timing s) with
                        | failure e => (failure e, s)
                        | success (d, x) => (success d, set_timing x s)
                        end);
        _ ← insert_attempt (mkAttempt (run_id r) (dispatch_attempt selected) (runnable_at r) (Some started_at) None
              AttemptRunning None None);
        transitioned ← mark_dispatch_running (run_id r) (run_state r) started_at;
        if negb transitioned then mret None else mret (Some (selected, prepared, claimed))
  end.

Definition dispatch_selected (run : bytes) (started_at : Z) : Tx (option DispatchStart) :=
  claimed ← transaction is_some (claim_transition run started_at);
  match claimed with
  | None => mret None
  | Some (selected, prepared, delayed) =>
      let r := dispatch_run selected in
      let key := mkKey (run_id r) (dispatch_attempt selected) in
      let execution := mkExecution (run_queue r) (run_job r) (run_id r) (run_type r) (run_origin r) in
      let start phase accepted immediate :=
        mkDispatch key execution phase (floor_us started_at) accepted immediate delayed in
      mret (Some match prepared with
        | Prepared payload =>
            match executor_start key r payload with
            | failure e => start ExecutorRejected None (Some (terminal_start_failure key e))
            | success _ => start Accepted acceptance_clock None
            end
        | Unprepared e | PreparationAborted e =>
            start PreparationFailed None (Some (terminal_start_failure key e))
        end)
  end.

(** ** Cancelling a run *)

Definition run_not_found : Error := mkError NotFound "jobu.run.not_found" "The requested run does not exist" "".
Definition run_state_conflict : Error :=
  mkError Conflict "jobu.run.state_conflict" "The run state does not permit cancellation" "".
Definition recovery_required : Error :=
  mkError Conflict "jobu.scheduler.recovery_required" "The running attempt is not owned by this scheduler instance" "".
Definition cancellation_invariant (reason : string) : Error :=
  invariant_error "Persisted scheduler cancellation state is inconsistent" reason.

Definition cancellation_result : JsonValue := JsonObject [(bs!"reason", JsonString bs!"cancelled")].

Inductive CancelDisposition := CancelRequested | CancelCompleted.

Definition cancel_transition (run : bytes) (expected : RunState) (text : JsonText) (completed_at : Z) : Tx JobRun :=
  current ← find_run_for_cancel run;
  r ← require current run_state_conflict;
  _ ← ensure (bool_decide (run_state r = expected)) run_state_conflict;
  _ ← account (settle_scope (ScopeJob (run_job r)));
  cancelled ← cancel_pending_run run (run_state r) completed_at text;
  _ ← ensure cancelled run_state_conflict;
  _ ← insert_recurring_successor r (Z.max completed_at (planned_at r)) (measurement_at completed_at);
  _ ← finish_after_terminal_run run completed_at;
  _ ← complete_drained_suspensions (run_queue r) (run_job r) completed_at;
  _ ← account (reconcile_scope (ScopeJob (run_job r)));
  mret r.

(** [cancel_run_impl]. *)
Definition cancel_run (run : bytes) (boundary : result Error Z) : Rt (JobRun * CancelDisposition) :=
  found ← in_session (find_run_for_cancel run);
  r ← of_result (ok_or found run_not_found);
  if bool_decide (run_state r = RunRunning) then
    known ← gets (λ w, active w !! run);
    attempt ← of_result (ok_or known recovery_required);
    durable ← in_session (find_active_attempt run);
    _ ← of_result (check (bool_decide (durable = Some (active_number attempt)))
          (cancellation_invariant "active_attempt_mismatch"));
    requested ← gets (λ w, bool_decide (run ∈ cancellations w));
    _ ← (if (requested : bool) then mret tt
         else
           _ ← of_result (executor_cancel (mkKey run (active_number attempt)));
           modify (λ w, mkRuntime (session w) (active w) ({[run]} ∪ cancellations w)));
    mret (r, CancelRequested)
  else if negb (bool_decide (run_state r = RunScheduled) || bool_decide (run_state r = RunRetryWait))
  then throw run_state_conflict
  else
    completed_at ← of_result boundary;
    text ← of_result (serialize_json cancellation_result);
    r ← in_session (transaction (λ _, true) (cancel_transition run (run_state r) text completed_at));
    mret (run_with RunCancelled (runnable_at r) (run_started_at r) (Some (floor_us completed_at)) (Some text) r,
          CancelCompleted).

End Transitions.
