(* ===== verification/RecoveryRepository.v ===== *)
(** * What recovery reads and writes

    [src/jobu/recovery_repository_priv.cpp]: the validation of one run with
    everything that belongs to it, the page scans over the tables, and the
    guarded updates that repair interrupted work.  Operations of the other
    repositories keep their own errors; recovery translates them. *)

From stdpp Require Import base numbers strings list gmap.
From Stdlib Require Import Ascii.
From S2P Require Import Prelude Effects Values OutputCapture RetryPolicy CronEngine Domain StorageFailure Storage.
From S2P Require Import WaitRepository SchedulerRepository Lifecycle.
Local Open Scope Z_scope.

Definition recovery_error (reason : string) : Error :=
  mkError Internal "jobu.recovery.invariant" "Persisted recovery data violates a JobU invariant" ("reason=" +:+ reason).
Definition storage_error (e : Error) : Error := sanitized_storage_error e OpRecovery OriginOperation.
Definition lookup_error (e : Error) : Error :=
  if is_database_error e then storage_error e else recovery_error "durable_decode".
Definition repair_error (e : Error) : Error :=
  if bool_decide (code e = "jobu.run.schedule_conflict") then recovery_error "unexpected_successor_conflict"
  else if bool_decide (code e = "jobu.storage.invariant") then recovery_error "repair_state"
  else storage_error e.
Definition invalid_scan_limit : Error :=
  mkError InvalidArgument "jobu.storage.invalid_limit" "Recovery scan limit must be in 1..4096" "".
Definition valid_scan_limit (limit : nat) : bool := (1 <=? limit)%nat && (limit <=? 4096)%nat.

(** Whether the stored microseconds of a time can be decoded again. *)
Definition validate_recovery_timestamp (time : Z) : result Error unit :=
  let stored := time / 1000 in
  check (negb ((stored <? - (- int64_min / 1000)) || (int64_max / 1000 <? stored)))
    (recovery_error "timestamp_out_of_range").

(** A [RecoveryAttemptKey] is a pair.  Aggregates of the attempts of a run. *)
Record History := mkHistory {
  history_count : Z; history_latest : Z; history_running : Z; history_unfinished : Z; invalid_prior : Z }.

Definition attempt_history (run : bytes) (t : Tables) : History :=
  let latest := default 0 (maximum_attempt run t) in
  mkHistory (count_attempts run (λ _, true) t) latest (count_attempts run is_running_attempt t)
    (count_attempts run (λ a, negb (is_completed_attempt a)) t)
    (Z.of_nat (size (filter (λ ka, ka.1.1 = run ∧ ka.1.2 < latest ∧ is_retry_history ka.2 = false) (attempts t)))).

(** [ORDER BY run_id, attempt_number]. *)
Definition key_ltb (a b : bytes * Z) : bool :=
  bytes_ltb a.1 b.1 || bytes_eqb a.1 b.1 && (a.2 <? b.2).

(** A page: the first keys after the cursor. *)
Definition page {K} (before : K → K → bool) (limit : nat) (after : option K) (keys : list K) : list K :=
  take limit (List.filter (λ k, match after with Some c => before c k | None => true end) (sort_by before keys)).

Section Recovery.
Context `{Environment}.

Abbreviation Tx := (ES Session).

Definition on_error {A} (g : Error → Error) (m : Tx A) : Tx A := λ s,
  match m s with (failure e, s) => (failure (g e), s) | (success v, s) => (success v, s) end.

Definition looked_up {A} (r : result Error A) : result Error A :=
  match r with success v => success v | failure e => failure (lookup_error e) end.

(** [serialize_json] of [interruption_result]. *)
Definition interruption_result : result Error JsonText :=
  serialize_json (JsonObject [(bs!"outcome_unknown", JsonBool true); (bs!"reason", JsonString bs!"daemon_interrupted")]).

(** ** Validation *)

Definition validate_run_timing (r : JobRun) : Tx unit :=
  _ ← on_error storage_error statement;
  found ← gets (λ s, timing s !! run_id r);
  row ← require found (recovery_error "missing_run_timing");
  _ ← ensure (0 <=? runnable_wait_us row) (recovery_error "invalid_run_timing");
  _ ← ensure (match open_epoch row, open_tick_us row with
              | Some epoch, Some tick => negb (is_nil_id epoch) && (0 <=? tick)
              | None, None => true
              | _, _ => false
              end) (recovery_error "invalid_open_timing");
  _ ← ensure (negb (is_unmeasured (quality row) &&
                    (negb (runnable_wait_us row =? 0) || is_some (open_epoch row) || delay_warned row)))
        (recovery_error "invalid_unmeasured_timing");
  ensure (negb (is_some (open_epoch row)) || is_pending (run_state r)) (recovery_error "open_timing_on_nonpending_run").

Definition find_queue (id : bytes) : Tx Queue :=
  found ← on_error lookup_error (find_queue_by_id id);
  require found (recovery_error "missing_queue").

Definition find_owned_job (id : bytes) : Tx JobDefinition :=
  found ← on_error lookup_error (find_job_by_id id);
  j ← require found (recovery_error "missing_job");
  q ← find_queue (job_queue j);
  _ ← ensure (negb (bool_decide (queue_state q = QueueDeleted)) || bool_decide (job_state j = JobDeleted))
        (recovery_error "job_ownership");
  mret j.

Definition validate_barriers (j : JobDefinition) : Tx unit :=
  s ← on_error storage_error (query (λ t, manual_barrier_summary t (job_id j)));
  _ ← ensure (summary_live s =? scheduled_count (summary_counts s) + manual_count (summary_counts s))
        (recovery_error "manual_barrier_relationship");
  ensure (valid_nonterminal_run_relationship (job_state j) (is_once j) (summary_counts s))
    (recovery_error "manual_barrier_relationship").

(** The flags of a stored output are booleans; its bytes are not read. *)
Definition validate_attempt_output (key : bytes * Z) : Tx unit :=
  found ← on_error storage_error (query (λ t, outputs t !! key));
  match found with
  | None => mret tt
  | Some _ =>
      attempt ← on_error lookup_error (find_attempt key.1 key.2);
      ensure (match attempt with Some a => is_completed_attempt a | None => false end)
        (recovery_error "output_without_completed_attempt")
  end.

(** The job and the queue of a run: both are read before either is judged. *)
Definition find_owners (r : JobRun) : Tx (option JobDefinition * option Queue) :=
  job ← attempted (find_job_by_id (run_job r));
  queue ← attempted (find_queue_by_id (run_queue r));
  job ← of_result (looked_up job);
  queue ← of_result (looked_up queue);
  mret (job, queue).

(** The owners of work that is not done. *)
Definition live_owner_ok (r : JobRun) (j : JobDefinition) (q : Queue) : bool :=
  bytes_eqb (run_queue r) (job_queue j) && negb (bool_decide (job_state j = JobDeleted)) &&
  negb (bool_decide (queue_state q = QueueDeleted)) &&
  negb (bool_decide (run_state r = RunRunning) &&
        (bool_decide (queue_state q = QueueSuspended) ||
         schedule_owned r && bool_decide (job_state j = JobSuspended))).

Definition history_ok (r : JobRun) (h : History) : bool :=
  let expected := if bool_decide (run_state r = RunRunning) then 1 else 0 in
  (history_count h =? history_latest h) && (history_running h =? expected) && (history_unfinished h =? expected) &&
  (invalid_prior h =? 0) && negb (bool_decide (run_state r = RunScheduled) && negb (history_count h =? 0)).

Definition is_retry_outcome (o : option AttemptOutcome) : bool :=
  match o with Some Failed | Some Interrupted => true | _ => false end.

Definition expected_outcome (state : RunState) : AttemptOutcome :=
  match state with
  | RunSucceeded => Succeeded
  | RunFailed => Failed
  | RunInterrupted => Interrupted
  | _ => Cancelled_
  end.

(** The last attempt against the state of its run. *)
Definition validate_latest (r : JobRun) (last : JobAttempt) : result Error unit :=
  if bool_decide (run_state r = RunRunning) then
    check (is_running_attempt last && (attempt_due_at last =? runnable_at r)) (recovery_error "running_attempt")
  else
    let retry_outcome := is_retry_outcome (attempt_outcome last) in
    let expected := expected_outcome (run_state r) in
    let as_expected := bool_decide (attempt_outcome last = Some expected) in
    _ ← check (is_completed_attempt last && negb (bool_decide (run_state r = RunRetryWait) && negb retry_outcome) &&
               negb (negb (is_live_run (run_state r)) && negb as_expected &&
                     (negb (bool_decide (run_state r = RunCancelled)) || negb retry_outcome)))
          (recovery_error "latest_attempt_outcome");
    check (negb (negb (is_live_run (run_state r)) && as_expected &&
                 (negb (bool_decide (attempt_completed_at last = run_completed_at r)) ||
                  negb (attempt_due_at last =? runnable_at r))))
      (recovery_error "terminal_attempt_timestamps").

Definition validate_history (r : JobRun) : Tx unit :=
  h ← on_error storage_error (query (attempt_history (run_id r)));
  _ ← ensure (history_ok r h) (recovery_error "attempt_history");
  if history_count h =? 0 then
    ensure (bool_decide (run_state r = RunScheduled) ||
            bool_decide (run_state r = RunCancelled) && negb (is_some (run_started_at r)))
      (recovery_error "missing_attempt_history")
  else
    first ← attempted (find_attempt (run_id r) 1);
    latest ← attempted (find_attempt (run_id r) (history_latest h));
    first ← of_result (looked_up first);
    latest ← of_result (looked_up latest);
    match first, latest with
    | Some first, Some last =>
        _ ← ensure (is_some (attempt_started_at first) && bool_decide (run_started_at r = attempt_started_at first))
              (recovery_error "first_attempt_start");
        _ ← of_result (validate_latest r last);
        validate_attempt_output (run_id r, history_latest h)
    | _, _ => throw (recovery_error "first_attempt_start")
    end.

(** [find_run]: a run and everything that belongs to it. *)
Definition find_run (id : bytes) : Tx JobRun :=
  found ← on_error lookup_error (find_run_by_id id);
  r ← require found (recovery_error "missing_run");
  _ ← validate_run_timing r;
  owners ← find_owners r;
  match owners with
  | (Some j, Some q) =>
      _ ← ensure (negb (bool_decide (run_origin r = OriginSubmitted)) &&
                  Bool.eqb (schedule_owned r) (bool_decide (run_origin r = OriginScheduled)))
            (recovery_error "run_ownership");
      _ ← (if is_live_run (run_state r) then
             _ ← ensure (live_owner_ok r j q) (recovery_error "nonterminal_ownership");
             validate_barriers j
           else mret tt);
      _ ← validate_history r;
      mret r
  | _ => throw (recovery_error "run_ownership")
  end.

(** ** Scans *)

Definition scan_ids (keys : Tables → list bytes) (limit : nat) (after : option bytes) : Tx (list bytes) :=
  _ ← ensure (valid_scan_limit limit) invalid_scan_limit;
  on_error storage_error (query (λ t, page bytes_ltb limit after (keys t))).

Definition scan_keys (keys : Tables → list (bytes * Z)) (limit : nat) (after : option (bytes * Z))
    : Tx (list (bytes * Z)) :=
  _ ← ensure (valid_scan_limit limit) invalid_scan_limit;
  ks ← on_error storage_error (query (λ t, page key_ltb limit after (keys t)));
  _ ← ensure (forallb (λ k, 0 <? k.2) ks) (recovery_error "attempt_key");
  mret ks.

(** A page of values: one lookup per key. *)
Fixpoint lookups {K A} (lookup : K → Tx A) (keys : list K) : Tx (list A) :=
  match keys with
  | [] => mret []
  | k :: keys => v ← lookup k; rest ← lookups lookup keys; mret (v :: rest)
  end.

Definition run_keys (state : option RunState) (t : Tables) : list bytes :=
  map fst (map_to_list (filter (λ kr : bytes * JobRun,
    match state with Some st => bool_decide (run_state kr.2 = st) | None => true end = true) (runs t))).

Definition list_runs (limit : nat) (after : option bytes) (state : option RunState) : Tx (list JobRun) :=
  ids ← scan_ids (run_keys state) limit after;
  lookups find_run ids.

Definition find_scanned_attempt (key : bytes * Z) : Tx JobAttempt :=
  attempt ← attempted (find_attempt key.1 key.2);
  run ← attempted (find_run_by_id key.1);
  attempt ← of_result (looked_up attempt);
  run ← of_result (looked_up run);
  match attempt, run with
  | Some a, Some r =>
      _ ← ensure (negb (bool_decide (attempt_state a = AttemptPending)) && is_some (attempt_started_at a) &&
                  negb (is_running_attempt a && negb (bool_decide (run_state r = RunRunning))))
            (recovery_error "attempt_relationship");
      _ ← validate_attempt_output key;
      mret a
  | _, _ => throw (recovery_error "attempt_relationship")
  end.

Definition list_attempts (limit : nat) (after : option (bytes * Z)) : Tx (list JobAttempt) :=
  keys ← scan_keys (λ t, map fst (map_to_list (attempts t))) limit after;
  lookups find_scanned_attempt keys.

Definition list_outputs (limit : nat) (after : option (bytes * Z)) : Tx (list (bytes * Z)) :=
  keys ← scan_keys (λ t, map fst (map_to_list (outputs t))) limit after;
  lookups (λ k, _ ← validate_attempt_output k; mret k) keys.

Definition find_scanned_job (id : bytes) : Tx JobDefinition :=
  found ← on_error lookup_error (find_job_by_id id);
  j ← require found (recovery_error "missing_job");
  queue ← on_error lookup_error (find_queue_by_id (job_queue j));
  _ ← ensure (match queue with
              | Some q => negb (bool_decide (queue_state q = QueueDeleted)) || bool_decide (job_state j = JobDeleted)
              | None => false
              end) (recovery_error "job_ownership");
  _ ← validate_barriers j;
  mret j.

Definition list_jobs (limit : nat) (after : option bytes) : Tx (list JobDefinition) :=
  ids ← scan_ids (λ t, map fst (map_to_list (jobs t))) limit after;
  lookups find_scanned_job ids.

Definition list_queues (limit : nat) (after : option bytes) : Tx (list Queue) :=
  ids ← scan_ids (λ t, map fst (map_to_list (queues t))) limit after;
  lookups find_queue ids.

(** ** Repairs *)

Definition find_retry_decision (key : bytes * Z) (time : Z) : Tx (option RetrySchedule) :=
  r ← find_run key.1;
  _ ← ensure (bool_decide (run_state r = RunRunning)) (recovery_error "interruption_run_not_running");
  attempt ← on_error lookup_error (find_attempt key.1 key.2);
  _ ← ensure (match attempt with Some a => is_running_attempt a | None => false end)
        (recovery_error "interruption_attempt_not_current");
  owners ← find_owners r;
  match owners with
  | (Some j, Some q) =>
      decision ← on_error storage_error (of_result (recovery_retry_decision (run_attributes r)
        (mkContext (run_id r) key.2 (recovery_policy q) (job_state j) (queue_state q) time)));
      _ ← of_result (validate_recovery_timestamp time);
      _ ← match decision with
          | Some d => of_result (validate_recovery_timestamp (due_at d))
          | None => mret tt
          end;
      mret decision
  | _ => throw (recovery_error "run_ownership")
  end.

(** The capture of an interrupted attempt. *)
Definition lost_output : StoredOutput := mkStoredOutput (Some []) (Some []) false false true.

Definition interrupt_attempt (key : bytes * Z) (time : Z) : Tx unit :=
  r ← find_run key.1;
  _ ← ensure (bool_decide (run_state r = RunRunning)) (recovery_error "interruption_run_not_running");
  attempt ← on_error lookup_error (find_attempt key.1 key.2);
  _ ← ensure (match attempt with Some a => is_running_attempt a | None => false end)
        (recovery_error "interruption_attempt_not_current");
  text ← on_error storage_error (of_result interruption_result);
  _ ← on_error storage_error (complete_attempt key.1 key.2 time Interrupted text);
  _ ← on_error storage_error (of_result (positive_unsigned_to_storage key.2));
  t ← on_error storage_error (query (λ t, t));
  if is_some (outputs t !! key) then throw (storage_error unique_violation)
  else if negb (is_some (attempts t !! key)) then throw (storage_error foreign_key_violation)
  else modify (λ s, set_tables (set_outputs (<[key := lost_output]> (outputs t)) t) s).

(** [interrupted_run_where]: the attempt and its output were just completed. *)
Definition interrupted_where (t : Tables) (key : bytes * Z) (time : Z) (text : JsonText) (r : JobRun) : bool :=
  untouched_running r &&
  bool_decide (maximum_attempt key.1 t = Some key.2) &&
  (history_unfinished (attempt_history key.1 t) =? 0) &&
  match attempts t !! key with
  | Some a =>
      is_completed_attempt a && bool_decide (attempt_outcome a = Some Interrupted) &&
      bool_decide (attempt_completed_at a = Some (floor_us time)) && bool_decide (attempt_result a = Some text) &&
      (attempt_due_at a =? runnable_at r)
  | None => false
  end &&
  match outputs t !! key with
  | Some o =>
      bool_decide (stdout_bytes o = Some []) && bool_decide (stderr_bytes o = Some []) &&
      negb (stdout_truncated o) && negb (stderr_truncated o) && stored_capture_lost o
  | None => false
  end.

(** The guarded update of the run; whether a row was affected. *)
Definition update_interrupted (key : bytes * Z) (guard : Tables → JobRun → bool) (f : JobRun → JobRun) : Tx bool :=
  t ← on_error storage_error (query (λ t, t));
  match runs t !! key.1 with
  | Some r =>
      if guard t r then _ ← modify (λ s, set_tables (set_runs (<[key.1 := f r]> (runs t)) t) s); mret true
      else mret false
  | None => mret false
  end.

Definition set_run_interrupted (key : bytes * Z) (time : Z) : Tx unit :=
  _ ← on_error storage_error (of_result (positive_unsigned_to_storage key.2));
  text ← on_error storage_error (of_result interruption_result);
  updated ← update_interrupted key (λ t r, interrupted_where t key time text r)
    (λ r, run_with RunInterrupted (runnable_at r) (run_started_at r) (Some (floor_us time)) (Some text) r);
  ensure updated (recovery_error "interruption_run_affected_rows").

Definition retry_owners (t : Tables) (r : JobRun) : bool :=
  match jobs t !! run_job r, queues t !! run_queue r with
  | Some j, Some q =>
      bytes_eqb (job_queue j) (run_queue r) && negb (bool_decide (job_state j = JobDeleted)) &&
      negb (bool_decide (queue_state q = QueueDeleted)) && bool_decide (recovery_policy q = RetryInterrupted)
  | _, _ => false
  end.

Definition set_recovered_retry_wait (key : bytes * Z) (time due : Z) : Tx unit :=
  _ ← on_error storage_error (of_result (positive_unsigned_to_storage key.2));
  text ← on_error storage_error (of_result interruption_result);
  _ ← ensure (time <=? due) (recovery_error "retry_before_recovery");
  updated ← update_interrupted key (λ t r, interrupted_where t key time text r && retry_owners t r)
    (λ r, run_with RunRetryWait (floor_us due) (run_started_at r) (run_completed_at r) (run_result r) r);
  ensure updated (recovery_error "recovery_retry_run_affected_rows").

Definition insert_interrupted_successor (run : bytes) (lower_bound : Z) (measurement : InitialRunMeasurement) : Tx bool :=
  _ ← of_result (validate_recovery_timestamp lower_bound);
  r ← find_run run;
  _ ← ensure (bool_decide (run_state r = RunInterrupted)) (recovery_error "successor_requires_interrupted_run");
  if negb (schedule_owned r) then mret false
  else
    j ← find_owned_job (run_job r);
    on_error repair_error (insert_recurring_run j lower_bound measurement).

Definition repair_missing_successor (job : bytes) (lower_bound : Z) (measurement : InitialRunMeasurement) : Tx bool :=
  _ ← of_result (validate_recovery_timestamp lower_bound);
  j ← find_owned_job job;
  if bool_decide (job_state j = JobDeleted) || is_once j then mret false
  else
    existing ← on_error lookup_error (find_schedule_owned job);
    match existing with
    | Some r => _ ← find_run (run_id r); mret false
    | None =>
        _ ← validate_barriers j;
        on_error repair_error (insert_recurring_run j lower_bound measurement)
    end.

Definition recover_job_suspension (job : bytes) (time : Z) : Tx bool :=
  _ ← of_result (validate_recovery_timestamp time);
  j ← find_owned_job job;
  on_error repair_error (complete_drained_job_suspension (job_queue j) job time).

Definition recover_queue_suspension (queue : bytes) (time : Z) : Tx bool :=
  _ ← of_result (validate_recovery_timestamp time);
  _ ← find_queue queue;
  on_error repair_error (complete_drained_queue_suspension queue time).

End Recovery.
