(* ===== verification/Recovery.v ===== *)
(** * Startup recovery

    [src/jobu/recovery.cpp]: before the daemon serves, it validates every
    table, closes abandoned timing rows, interrupts the attempts that were
    running when the last daemon stopped, inserts missing recurring work,
    completes drained suspensions, and validates everything again.  Each repair
    is one transaction; a stop request is polled between them. *)

From stdpp Require Import base numbers strings list gmap.
From S2P Require Import Prelude Effects Values OutputCapture RetryPolicy CronEngine Domain StorageFailure Storage.
From S2P Require Import WaitRepository SchedulerRepository Lifecycle RecoveryRepository.
Local Open Scope Z_scope.

Definition startup_error (reason : string) : Error :=
  mkError Internal "jobu.recovery.invariant" "Startup recovery could not establish valid durable state"
    ("reason=" +:+ reason).
Definition recovery_cancelled : Error :=
  mkError Cancelled "jobu.recovery.cancelled" "Startup recovery was cancelled" "".
Definition invalid_recovery_options : Error :=
  mkError InvalidArgument "jobu.recovery.invalid_options" "Recovery scan batch size must be in 1..4096" "".

Record RecoveryOptions := mkOptions { scan_batch_size : nat; telemetry_covers_creation : bool }.

Record RecoveryReport := mkReport {
  interrupted_attempts : Z; retrying_runs : Z; terminal_runs : Z; finished_jobs : Z; inserted_successors : Z;
  suspended_jobs : Z; suspended_queues : Z; repaired_timing_rows : Z }.
Definition empty_report : RecoveryReport := mkReport 0 0 0 0 0 0 0 0.

(** A counter that would pass [2 ^ 64] is an error. *)
Definition add_counter (total delta : Z) : result Error Z :=
  if uint64_max - total <? delta then failure (startup_error "report_counter_overflow") else success (total + delta).

Definition accumulate_report (r d : RecoveryReport) : result Error RecoveryReport :=
  a ← add_counter (interrupted_attempts r) (interrupted_attempts d);
  b ← add_counter (retrying_runs r) (retrying_runs d);
  c ← add_counter (terminal_runs r) (terminal_runs d);
  f ← add_counter (finished_jobs r) (finished_jobs d);
  g ← add_counter (inserted_successors r) (inserted_successors d);
  h ← add_counter (suspended_jobs r) (suspended_jobs d);
  i ← add_counter (suspended_queues r) (suspended_queues d);
  j ← add_counter (repaired_timing_rows r) (repaired_timing_rows d);
  success (mkReport a b c f g h i j).

Definition counted (b : bool) : Z := if b then 1 else 0.

(** The stop predicate and the clock, by the number of calls before. *)
Class Startup := { should_stop : nat → bool; utc_reading : nat → Z }.

Section Run.
Context `{Environment} `{Startup}.

Record RecoveryState := mkRecovery {
  store : Session;
  report : RecoveryReport;
  polls : nat;
  readings : nat }.

Abbreviation Tx := (ES Session).
Abbreviation Rec := (ES RecoveryState).

Definition in_store {A} (m : Tx A) : Rec A := λ w,
  let '(r, s) := m (store w) in (r, mkRecovery s (report w) (polls w) (readings w)).

Definition check_stop : Rec unit := λ w,
  let w' := mkRecovery (store w) (report w) (S (polls w)) (readings w) in
  if should_stop (polls w) then (failure recovery_cancelled, w') else (success tt, w').

Definition utc_now : Rec Z := λ w,
  (success (utc_reading (readings w)), mkRecovery (store w) (report w) (polls w) (S (readings w))).

Abbreviation Loop A := (Rec (option A)).

(** ** Pages and units *)

Fixpoint visit_all {A} (visit : A → Rec unit) (rows : list A) : Rec unit :=
  match rows with
  | [] => mret tt
  | row :: rows => _ ← visit row; visit_all visit rows
  end.

Fixpoint visit_pages {K A} (fuel : nat) (read : option K → Tx (list A)) (key_of : A → K) (visit : A → Rec unit)
    (after : option K) : Loop unit :=
  match fuel with
  | O => mret None
  | S fuel =>
      _ ← check_stop;
      rows ← in_store (read after);
      match last rows with
      | None => finishing check_stop
      | Some back => _ ← visit_all visit rows; visit_pages fuel read key_of visit (Some (key_of back))
      end
  end.

(** The end of a unit that cannot be committed: roll back; the rollback's own
    failure replaces a cancellation. *)
Definition unwind (before : RecoveryState) (e : Error) (s : Session) (polls readings : nat)
    : result Error unit * RecoveryState :=
  let '(rolled, s) := statement s in
  let e := match rolled with
           | failure r => if bool_decide (code e = "jobu.recovery.cancelled") then r else e
           | success _ => e
           end in
  (failure e, mkRecovery (rolled_back (store before) s) (report before) polls readings).

Definition transact (repair : Tx RecoveryReport) : Rec unit := λ w,
  match statement (store w) with
  | (failure e, s) => (failure e, mkRecovery s (report w) (polls w) (readings w))
  | (success _, s) =>
      let '(delta, s) := repair s in
      match d ← delta; accumulate_report (report w) d with
      | failure e => unwind w e s (polls w) (readings w)
      | success next =>
          if should_stop (polls w) then unwind w recovery_cancelled s (S (polls w)) (readings w)
          else match statement s with
               | (failure e, s) => unwind w e s (S (polls w)) (readings w)
               | (success _, s) => (success tt, mkRecovery s next (S (polls w)) (readings w))
               end
      end
  end.

Definition commit_unit (repair : Tx RecoveryReport) : Rec unit := _ ← check_stop; transact repair.

(** ** Repairs *)

Section Repairs.
Variable options : RecoveryOptions.
Variable recovery_time : Z.

Definition initial_measurement : InitialRunMeasurement :=
  if telemetry_covers_creation options then InitialComplete else InitialUnmeasured.

(** The transaction of [recover_run]. *)
Definition interrupt_unit (r : JobRun) (lower_bound : Z) : Tx RecoveryReport :=
  active ← find_active_attempt (run_id r);
  number ← require active (startup_error "missing_running_attempt");
  let key := (run_id r, number) in
  decision ← find_retry_decision key recovery_time;
  _ ← interrupt_attempt key recovery_time;
  _ ← (match decision with
       | Some d => set_recovered_retry_wait key recovery_time (due_at d)
       | None => set_run_interrupted key recovery_time
       end);
  ended ← (match decision with
           | Some _ => mret (false, false)
           | None =>
               finished ← finish_after_terminal_run (run_id r) recovery_time;
               successor ← insert_interrupted_successor (run_id r) lower_bound initial_measurement;
               mret (finished, successor)
           end);
  queue ← recover_queue_suspension (run_queue r) recovery_time;
  job ← recover_job_suspension (run_job r) recovery_time;
  mret (mkReport 1 (counted (is_some decision)) (counted (negb (is_some decision))) (counted ended.1)
          (counted ended.2) (counted job) (counted queue) 0).

Definition recover_run (r : JobRun) : Rec unit :=
  now ← utc_now;
  commit_unit (interrupt_unit r (Z.max recovery_time now)).

Definition job_unit (j : JobDefinition) (lower_bound : Z) : Tx RecoveryReport :=
  successor ← repair_missing_successor (job_id j) lower_bound initial_measurement;
  drained ← recover_job_suspension (job_id j) recovery_time;
  mret (mkReport 0 0 0 0 (counted successor) (counted drained) 0 0).

Definition recover_job (j : JobDefinition) : Rec unit :=
  if bool_decide (job_state j = JobDeleted) || is_once j && negb (bool_decide (job_state j = JobSuspending))
  then mret tt
  else
    now ← utc_now;
    commit_unit (job_unit j (Z.max recovery_time now)).

Definition recover_queue (q : Queue) : Rec unit :=
  if negb (bool_decide (queue_state q = QueueSuspending)) then mret tt
  else commit_unit (drained ← recover_queue_suspension (row_queue_id q) recovery_time;
                    mret (mkReport 0 0 0 0 0 0 (counted drained) 0)).

Definition repair_timing_row (id : bytes) : Rec unit :=
  commit_unit (repaired ← repair_abandoned id; mret (mkReport 0 0 0 0 0 0 0 (counted repaired))).

(** ** Validation *)

Definition refuse (b : bool) (reason : string) : Rec unit :=
  if b then throw (startup_error reason) else mret tt.

Definition validate_job (final : bool) (j : JobDefinition) : Rec unit :=
  _ ← in_store (validate_job_lifecycle j);
  if negb final then mret tt
  else
    _ ← refuse (bool_decide (job_state j = JobSuspending)) "job_still_suspending";
    if negb (bool_decide (job_state j = JobDeleted)) && negb (is_once j) then
      work ← in_store (find_schedule_owned (job_id j));
      refuse (negb (is_some work)) "missing_recurring_work"
    else mret tt.

Variable fuel : nat.

Definition visit_runs (state : option RunState) (visit : JobRun → Rec unit) : Loop unit :=
  visit_pages fuel (λ after, list_runs (scan_batch_size options) after state) run_id visit None.
Definition visit_jobs (visit : JobDefinition → Rec unit) : Loop unit :=
  visit_pages fuel (list_jobs (scan_batch_size options)) job_id visit None.
Definition visit_queues (visit : Queue → Rec unit) : Loop unit :=
  visit_pages fuel (list_queues (scan_batch_size options)) row_queue_id visit None.

Definition validate_store (final : bool) : Loop unit :=
  _ ← (if (final : bool) then
         open ← in_store (list_open 1 None);
         refuse (negb (bool_decide (open = []))) "open_timing_after_recovery"
       else mret tt);
  and_then (visit_runs None
    (λ r, refuse (final && bool_decide (run_state r = RunRunning)) "running_run_after_recovery")) (λ _,
  and_then (visit_pages fuel (list_attempts (scan_batch_size options)) (λ a, (attempt_run a, attempt_number a))
    (λ a, refuse (final && is_running_attempt a) "running_attempt_after_recovery") None) (λ _,
  and_then (visit_pages fuel (list_outputs (scan_batch_size options)) id (λ _, mret tt) None) (λ _,
  and_then (visit_jobs (validate_job final)) (λ _,
  visit_queues (λ q, refuse (final && bool_decide (queue_state q = QueueSuspending)) "queue_still_suspending"))))).

(** [Recovery::run]. *)
Definition run_recovery : Loop RecoveryReport :=
  and_then (validate_store false) (λ _,
  and_then (visit_pages fuel (list_open (scan_batch_size options)) id repair_timing_row None) (λ _,
  and_then (visit_runs (Some RunRunning) recover_run) (λ _,
  and_then (visit_jobs recover_job) (λ _,
  and_then (visit_queues recover_queue) (λ _,
  and_then (validate_store true) (λ _,
  finishing (gets report))))))).

End Repairs.

Definition recover_startup (options : RecoveryOptions) (fuel : nat) : Loop RecoveryReport := λ w,
  if (scan_batch_size options =? 0)%nat || (4096 <? scan_batch_size options)%nat
  then (failure invalid_recovery_options, w)
  else
    let '(time, w) := (utc_reading (readings w), mkRecovery (store w) empty_report (polls w) (S (readings w))) in
    match run_recovery options time fuel w with
    | (failure e, w) => (failure (sanitized_storage_error e OpRecovery OriginOperation), w)
    | (success r, w) => (success r, w)
    end.

End Run.
