(* ===== verification/Keyset.v ===== *)
(** * Keyset pagination

    Scans read a table page by page: each page is the first keys after a
    cursor, in the order of the keys.  A scan of pages sees every key.  The
    orders are those of identifiers (as bytes) and of pairs of an identifier
    and a number. *)

From stdpp Require Import base numbers list gmap sets.
From S2P Require Import Prelude Effects Values OutputCapture CronEngine Domain Storage RetryPolicy.
From S2P Require Import StorageFailure WaitRepository SchedulerRepository Lifecycle RecoveryRepository.
Local Open Scope Z_scope.

#[global] Instance key_ltb_total : StrictTotal key_ltb.
Proof.
  unfold key_ltb, bytes_eqb. split.
  - intros [a n]. simpl. by rewrite before_irrefl, Z.ltb_irrefl, andb_false_r.
  - intros [a n] [b m] [c o]. simpl. rewrite !orb_true_iff, !andb_true_iff, !bool_decide_eq_true, !Z.ltb_lt.
    intros [Hab|[-> Hnm]] [Hbc|[-> Hmo]]; [left; by eapply before_trans|by left|by left|right; split; [done|lia]].
  - intros [a n] [b m]. simpl. rewrite !orb_true_iff, !andb_true_iff, !bool_decide_eq_true, !Z.ltb_lt.
    destruct (before_total a b) as [?|[->|?]]; [tauto| |tauto].
    destruct (Z.lt_trichotomy n m) as [?|[->|?]]; tauto.
Qed.

Section Pages.
Context {K : Type} (before : K → K → bool) `{!StrictTotal before}.

Definition beyond (after : option K) (k : K) : Prop :=
  match after with Some c => before c k = true | None => True end.

Lemma sort_by_elem k l : k ∈ sort_by before l ↔ k ∈ l.
Proof.
  assert (Hins : ∀ x l, k ∈ insert_by before x l ↔ k = x ∨ k ∈ l).
  { intros x l'. induction l' as [|y l' IH]; simpl; [by rewrite list_elem_of_singleton, elem_of_nil; tauto|].
    case_match; rewrite !elem_of_cons, ?IH; tauto. }
  unfold sort_by. induction l as [|x l IH]; simpl; [done|]. rewrite Hins, IH, elem_of_cons. tauto.
Qed.

(** No element comes after a later one. *)
Fixpoint ascending (l : list K) : Prop :=
  match l with
  | [] => True
  | x :: l => (∀ y, y ∈ l → before y x = false) ∧ ascending l
  end.

Lemma sort_by_ascending l : ascending (sort_by before l).
Proof.
  assert (Helem : ∀ k x l, k ∈ insert_by before x l → k = x ∨ k ∈ l).
  { intros k x l'. induction l' as [|y l' IH]; simpl; [by rewrite list_elem_of_singleton; tauto|].
    case_match; rewrite !elem_of_cons; tauto. }
  assert (Hins : ∀ x l, ascending l → ascending (insert_by before x l)).
  { intros x l'. induction l' as [|y l' IH]; simpl; [by intros _; split; [intros ? ?%elem_of_nil|]|].
    intros [Hy Hl]. destruct (before x y) eqn:Hxy; simpl.
    - split; [|done]. intros z [->|Hz]%elem_of_cons; destruct (before _ x) eqn:E; try done.
      + pose proof (before_irrefl y) as Hi. by rewrite (before_trans _ _ _ E Hxy) in Hi.
      + specialize (Hy z Hz). by rewrite (before_trans _ _ _ E Hxy) in Hy.
    - split; [|by apply IH]. intros z [->|Hz]%Helem; [done|auto]. }
  unfold sort_by. induction l as [|x l IH]; simpl; [done|]. auto.
Qed.

Lemma ascending_filter p l : ascending l → ascending (List.filter p l).
Proof.
  induction l as [|x l IH]; simpl; [done|]. intros [Hx Hl]. destruct (p x); simpl; [|auto].
  split; [|auto]. intros y Hy. apply Hx. rewrite list_elem_of_In in *. by apply List.filter_In in Hy as [? _].
Qed.

(** The keys beyond the last one of a prefix are those after the prefix. *)
Lemma ascending_take n l k :
  ascending l → k ∈ l → (0 < n)%nat →
  k ∈ take n l ∨ ∃ b, last (take n l) = Some b ∧ (before b k = true ∨ b = k).
Proof.
  revert n. induction l as [|x l IH]; intros n; [by intros _ ?%elem_of_nil|].
  destruct n as [|n]; [lia|]. simpl. intros [Hx Hl] [->|Hk]%elem_of_cons Hn; [left; by left|].
  destruct n as [|n].
  - right. exists x. rewrite take_0. split; [done|]. specialize (Hx k Hk).
    destruct (before_total x k) as [?|[->|?]]; [tauto|tauto|congruence].
  - destruct (IH (S n) Hl Hk) as [?|(b & Hb & ?)]; [lia|left; by right|right]. exists b. split; [|done].
    destruct l as [|y l]; [by apply elem_of_nil in Hk|]. simpl in *. by rewrite Hb.
Qed.

Lemma page_elem limit after keys k : k ∈ page before limit after keys → k ∈ keys ∧ beyond after k.
Proof.
  unfold page. intros (i & Hk%list_elem_of_lookup_2 & _)%elem_of_take. apply list_elem_of_In, List.filter_In in Hk as [Hk Ha].
  rewrite <- list_elem_of_In in Hk. rewrite sort_by_elem in Hk. split; [done|]. by destruct after.
Qed.

Lemma sort_by_perm l : sort_by before l ≡ₚ l.
Proof.
  assert (Hins : ∀ x l, insert_by before x l ≡ₚ x :: l).
  { intros x l'. induction l' as [|y l' IH]; simpl; [done|]. case_match; [done|]. rewrite IH. constructor. }
  unfold sort_by. induction l as [|x l IH]; simpl; [done|]. by rewrite Hins, IH.
Qed.

Lemma page_nodup limit after keys : NoDup keys → NoDup (page before limit after keys).
Proof.
  intros Hk. unfold page. eapply sublist_NoDup; [|apply sublist_take]. apply NoDup_ListNoDup, List.NoDup_filter, NoDup_ListNoDup.
  by rewrite sort_by_perm.
Qed.

(** Every key beyond the cursor is on the page or beyond the page's last. *)
Lemma page_complete limit after keys k :
  (0 < limit)%nat → k ∈ keys → beyond after k →
  k ∈ page before limit after keys ∨
  ∃ b, last (page before limit after keys) = Some b ∧ (before b k = true ∨ b = k).
Proof.
  intros Hl Hk Ha. apply ascending_take; [apply ascending_filter, sort_by_ascending| |done].
  apply list_elem_of_In, List.filter_In. split; [by apply list_elem_of_In, sort_by_elem|]. by destruct after.
Qed.

End Pages.

(** ** The keys ahead of a cursor *)

Lemma filter_shorter {K} (p q : K → bool) l k :
  (∀ x, p x = true → q x = true) → k ∈ l → q k = true → p k = false →
  (length (List.filter p l) < length (List.filter q l))%nat.
Proof.
  intros Hpq. assert (Hle : ∀ l, (length (List.filter p l) ≤ length (List.filter q l))%nat).
  { intros l'. induction l' as [|x l' IH]; simpl; [lia|]. destruct (p x) eqn:Hx; [rewrite (Hpq x Hx); simpl; lia|].
    destruct (q x); simpl; lia. }
  intros Hk Hq Hp. induction l as [|x l IH]; [by apply elem_of_nil in Hk|]. specialize (Hle l). simpl.
  apply elem_of_cons in Hk as [<-|Hk]; [rewrite Hq, Hp; simpl; lia|]. specialize (IH Hk).
  destruct (p x) eqn:Hx; [rewrite (Hpq x Hx); simpl; lia|]. destruct (q x); simpl; lia.
Qed.

Section Ahead.
Context {K : Type} (before : K → K → bool) `{!StrictTotal before}.

Definition ahead (after : option K) (k : K) : bool := match after with Some c => before c k | None => true end.

Lemma ahead_shorter l after k :
  k ∈ l → beyond before after k →
  (length (List.filter (ahead (Some k)) l) < length (List.filter (ahead after) l))%nat.
Proof.
  intros Hk Ha. apply (filter_shorter _ _ _ k); [|done|by destruct after|apply (before_irrefl k)].
  intros x Hx. destruct after as [c|]; [|done]. exact (before_trans _ _ _ Ha Hx).
Qed.

End Ahead.
