(* ===== verification/StoreLogic.v ===== *)
(** * Reasoning about the store

    [tx m t Q]: if [m] succeeds on a session with the tables [t], then [Q] of
    its value and the tables it leaves.  Failures need no postcondition: the
    transaction around them restores the tables. *)

From stdpp Require Import base numbers strings list gmap.
From S2P Require Import Prelude Effects Values OutputCapture RetryPolicy CronEngine Domain Storage SchedulerRepository.
From S2P Require Import WaitRepository Lifecycle.
Local Open Scope Z_scope.

Section Logic.
Context `{Environment}.

Abbreviation Tx := (ES Session).

Definition tx {A} (m : Tx A) (t : Tables) (Q : A → Tables → Prop) : Prop :=
  ∀ s v s', tables s = t → m s = (success v, s') → Q v (tables s').

Lemma tx_ret {A} (v : A) t (Q : A → Tables → Prop) : Q v t → tx (mret v) t Q.
Proof. by intros HQ s v' s' <- [= <- <-]. Qed.

Lemma tx_bind {A B} (m : Tx A) (k : A → Tx B) t Q : tx m t (λ v t', tx (k v) t' Q) → tx (m ≫= k) t Q.
Proof.
  intros Hm s v s' Hs. unfold mbind, ES_bind. destruct (m s) as [[x|] s1] eqn:Hx; [|done].
  by apply (Hm s x s1 Hs Hx).
Qed.

Lemma tx_mono {A} (m : Tx A) t (Q Q' : A → Tables → Prop) :
  (∀ v t', Q v t' → Q' v t') → tx m t Q → tx m t Q'.
Proof. intros HQ Hm s v s' Hs Hv. eauto. Qed.

Lemma tx_and {A} (m : Tx A) t (Q Q' : A → Tables → Prop) : tx m t Q → tx m t Q' → tx m t (λ v t', Q v t' ∧ Q' v t').
Proof. intros H1 H2 s v s' Hs Hv. eauto. Qed.

Lemma tx_throw {A} e t (Q : A → Tables → Prop) : tx (throw e) t Q.
Proof. by intros s v s' Hs. Qed.

Lemma tx_of_result {A} (r : result Error A) t (Q : A → Tables → Prop) :
  (∀ v, r = success v → Q v t) → tx (of_result r) t Q.
Proof. intros HQ s v s' <- [= -> <-]. by apply HQ. Qed.

Lemma tx_ensure b e t (Q : unit → Tables → Prop) : (b = true → Q tt t) → tx (ensure b e) t Q.
Proof. intros HQ. apply tx_of_result. intros []. destruct b; [auto|done]. Qed.

Lemma tx_require {A} (o : option A) e t (Q : A → Tables → Prop) : (∀ v, o = Some v → Q v t) → tx (require o e) t Q.
Proof. intros HQ. apply tx_of_result. intros v. destruct o; [|done]. intros [= ->]. auto. Qed.

Lemma tx_statement t (Q : unit → Tables → Prop) : Q tt t → tx statement t Q.
Proof. intros HQ s v s' <-. unfold statement. destruct (fault _); [done|]. by intros [= <- <-]. Qed.

Lemma tx_query {A} (f : Tables → A) t (Q : A → Tables → Prop) : Q (f t) t → tx (query f) t Q.
Proof. intros HQ. apply tx_bind, tx_statement. by intros s v s' <- [= <- <-]. Qed.

Lemma tx_attempted_statement t (Q : result Error unit → Tables → Prop) : (∀ r, Q r t) → tx (attempted statement) t Q.
Proof.
  intros HQ s v s' <-. unfold attempted, statement. destruct (fault _); intros [= <- <-]; apply HQ.
Qed.

Lemma tx_gets {A} (f : Session → A) t (Q : A → Tables → Prop) :
  (∀ s, tables s = t → Q (f s) t) → tx (gets f) t Q.
Proof. intros HQ s v s' Hs [= <- <-]. rewrite Hs. by apply HQ. Qed.

Lemma tx_modify f t t' (Q : unit → Tables → Prop) :
  (∀ s, tables s = t → tables (f s) = t') → Q tt t' → tx (modify f) t Q.
Proof. intros Hf HQ s v s' Hs [= <- <-]. by rewrite Hf. Qed.

Lemma tx_account f t (Q : unit → Tables → Prop) : Q tt t → tx (account f) t Q.
Proof. intros HQ s v s' <-. unfold account. destruct (f _ _); [|done]. by intros [= <- <-]. Qed.

Lemma tx_generate t (Q : bytes → Tables → Prop) : (∀ id, Q id t) → tx generate_uuid t Q.
Proof. intros HQ s v s' <- [= _ <-]. apply HQ. Qed.

Lemma tx_cron {A} (f : Engine → result Error A * Engine) t (Q : A → Tables → Prop) :
  (∀ v e e', f e = (success v, e') → Q v t) → tx (cron_call f) t Q.
Proof.
  intros HQ s v s' <-. unfold cron_call. destruct (f (engine s)) as [r e] eqn:Hf. intros [= -> <-]. by eapply HQ.
Qed.

Lemma tx_initial_timing run measurement t (Q : unit → Tables → Prop) :
  Q tt t → tx (insert_initial_timing run measurement) t Q.
Proof.
  intros HQ. apply tx_bind, tx_query, tx_bind, tx_gets. intros s _. destruct (is_some _); [apply tx_throw|].
  destruct (negb _); [apply tx_throw|]. by apply (tx_modify _ t t).
Qed.

Lemma tx_read_timing run t (Q : RunState * TimingRow → Tables → Prop) :
  (∀ v, Q v t) → tx (read_timing run) t Q.
Proof.
  intros HQ. apply tx_bind, tx_query, tx_bind, tx_gets. intros s _.
  destruct (runs t !! run); [|apply tx_throw]. destruct (timing s !! run); [|apply tx_throw].
  apply tx_bind, tx_of_result. intros row _. apply tx_ret, HQ.
Qed.

Lemma tx_closed_run run t (Q : unit → Tables → Prop) : Q tt t → tx (validate_closed_run run) t Q.
Proof. intros HQ. apply tx_bind, tx_read_timing. intros v. by apply tx_ensure. Qed.

(** The error of a call replaced by another. *)
Lemma tx_rethrow {A} (m : Tx A) (g : Error → Error) t Q :
  tx m t Q →
  tx (λ s, match m s with (failure e, s) => (failure (g e), s) | (success v, s) => (success v, s) end) t Q.
Proof.
  intros Hm s v s' Hs. destruct (m s) as [[x|e] s1] eqn:Hx; intros [= <- <-]. by apply (Hm s x s1).
Qed.

End Logic.

Ltac tx_step :=
  lazymatch goal with
  | |- tx (_ ≫= _) _ _ => apply tx_bind
  | |- tx (mret _) _ _ => apply tx_ret
  | |- tx (throw _) _ _ => apply tx_throw
  | |- tx (of_result _) _ _ => apply tx_of_result; intros
  | |- tx (ensure _ _) _ _ => apply tx_ensure; intros
  | |- tx (require _ _) _ _ => apply tx_require; intros
  | |- tx statement _ _ => apply tx_statement
  | |- tx (query _) _ _ => apply tx_query
  | |- tx (account _) _ _ => apply tx_account
  | |- tx generate_uuid _ _ => apply tx_generate; intros
  | |- tx (insert_initial_timing _ _) _ _ => apply tx_initial_timing
  | |- tx (validate_closed_run _) _ _ => apply tx_closed_run
  | |- tx (cron_call _) _ _ => apply tx_cron; intros
  | |- tx (if ?b then _ else _) _ _ => destruct b eqn:?
  | |- tx (match ?o with Some _ => _ | None => _ end) _ _ => destruct o eqn:?
  end.

(** ** Transactions *)

Section Transactions.
Context `{Environment}.

Lemma statement_tables s r s' : statement s = (r, s') → tables s' = tables s ∧ timing s' = timing s.
Proof. unfold statement. destruct (fault _); by intros [= <- <-]. Qed.

(** Either nothing changed, or the transaction succeeded with a value to keep. *)
Lemma transaction_tables {A} (keep : A → bool) (m : ES Session A) t (Q : A → Tables → Prop) s r s' :
  tables s = t → tx m t Q → transaction keep m s = (r, s') →
  (tables s' = t ∧ ∀ v, r = success v → keep v = false) ∨ ∃ v, r = success v ∧ keep v = true ∧ Q v (tables s').
Proof.
  intros Hs Hm. unfold transaction.
  destruct (statement s) as [[[]|e] s1] eqn:H1; apply statement_tables in H1 as [H1 _];
    [|intros [= <- <-]; left; by rewrite H1].
  destruct (m s1) as [[v|e] s2] eqn:H2; [|intros [= <- <-]; by left].
  destruct (statement s2) as [[[]|e] s3] eqn:H3; apply statement_tables in H3 as [H3 _];
    [|intros [= <- <-]; by left].
  intros [= <- <-]. destruct (keep v) eqn:Hk.
  - right. exists v. split_and!; [done..|]. rewrite H3. apply (Hm s1); [congruence|done].
  - left. split; [done|]. by intros ? [= <-].
Qed.

End Transactions.

(** ** Computations that only read *)

Section Reads.
Context `{Environment}.

(** The tables stay, whatever the result. *)
Definition reads {A} (m : ES Session A) : Prop := ∀ s r s', m s = (r, s') → tables s' = tables s.

Lemma reads_ret {A} (v : A) : reads (mret v).
Proof. by intros s r s' [= <- <-]. Qed.
Lemma reads_throw {A} e : reads (throw e : ES Session A).
Proof. by intros s r s' [= <- <-]. Qed.
Lemma reads_of_result {A} (x : result Error A) : reads (of_result x).
Proof. by intros s r s' [= <- <-]. Qed.
Lemma reads_gets {A} (f : Session → A) : reads (gets f).
Proof. by intros s r s' [= <- <-]. Qed.
Lemma reads_bind {A B} (m : ES Session A) (k : A → ES Session B) : reads m → (∀ v, reads (k v)) → reads (m ≫= k).
Proof.
  intros Hm Hk s r s'. unfold mbind, ES_bind. destruct (m s) as [[v|e] s1] eqn:Hs; apply Hm in Hs as Hs1.
  - intros Hr. apply Hk in Hr. congruence.
  - by intros [= <- <-].
Qed.
Lemma reads_statement : reads statement.
Proof. intros s r s' Hs. by apply statement_tables in Hs as [? _]. Qed.
Lemma reads_attempted {A} (m : ES Session A) : reads m → reads (attempted m).
Proof.
  intros Hm s r s'. unfold attempted. destruct (m s) as [x s1] eqn:Hs. apply Hm in Hs. by intros [= <- <-].
Qed.
Lemma reads_query {A} (f : Tables → A) : reads (query f).
Proof. apply reads_bind; [apply reads_statement|]. intros _. apply reads_gets. Qed.

End Reads.

Create HintDb reads.
#[export] Hint Resolve reads_ret reads_throw reads_of_result reads_gets reads_statement reads_attempted reads_query : reads.

Ltac reads_step :=
  lazymatch goal with
  | |- reads (_ ≫= _) => apply reads_bind; [|intros]
  | |- reads (if ?b then _ else _) => destruct b
  | |- reads (match ?x with _ => _ end) => destruct x
  | |- reads (require _ _) => apply reads_of_result
  | |- reads (ensure _ _) => apply reads_of_result
  end.
Ltac reads_solve := repeat reads_step; eauto with reads.

Section ReadOperations.
Context `{Environment}.

Lemma find_run_by_id_reads run : reads (find_run_by_id run).
Proof. unfold find_run_by_id. reads_solve. Qed.
Lemma find_job_by_id_reads id : reads (find_job_by_id id).
Proof. unfold find_job_by_id. reads_solve. Qed.
Lemma find_queue_by_id_reads id : reads (find_queue_by_id id).
Proof. unfold find_queue_by_id. reads_solve. Qed.
Lemma find_attempt_reads run n : reads (find_attempt run n).
Proof. unfold find_attempt. reads_solve. Qed.
Lemma find_schedule_owned_reads job : reads (find_schedule_owned job).
Proof. unfold find_schedule_owned. reads_solve. Qed.
Lemma find_active_attempt_reads run : reads (find_active_attempt run).
Proof. unfold find_active_attempt. reads_solve. Qed.
Lemma list_open_reads limit after : reads (list_open limit after).
Proof. unfold list_open. reads_solve. Qed.

End ReadOperations.
#[export] Hint Resolve find_run_by_id_reads find_job_by_id_reads find_queue_by_id_reads find_attempt_reads
  find_schedule_owned_reads find_active_attempt_reads list_open_reads : reads.
