(* ===== verification/ManagementLogic.v ===== *)
(** * Reasoning about the management service

    [op m t Q] is [tx] for computations of the service.  [quiet]: nothing is
    written.  [restores]: a failure leaves the store as it was. *)

From stdpp Require Import base numbers strings list gmap sets.
From S2P Require Import Prelude Effects Values OutputCapture RetryPolicy CronEngine Domain ResourceNames StorageFailure Storage.
From S2P Require Import SchedulerRepository ManagementRepository Lifecycle Management StoreLogic.
Local Open Scope Z_scope.

Section Success.
Context `{Admission}.

Abbreviation Op := (ES Service).

Definition op {A} (m : Op A) (t : Tables) (Q : A → Tables → Prop) : Prop :=
  ∀ w v w', tables (connection w) = t → m w = (success v, w') → Q v (tables (connection w')).

Lemma op_ret {A} (v : A) t (Q : A → Tables → Prop) : Q v t → op (mret v) t Q.
Proof. by intros HQ w v' w' <- [= <- <-]. Qed.

Lemma op_bind {A B} (m : Op A) (k : A → Op B) t Q : op m t (λ v t', op (k v) t' Q) → op (m ≫= k) t Q.
Proof.
  intros Hm w v w' Hw. unfold mbind, ES_bind. destruct (m w) as [[x|] w1] eqn:Hx; [|done].
  by apply (Hm w x w1 Hw Hx).
Qed.

Lemma op_fmap {A B} (f : A → B) (m : Op A) t (Q : B → Tables → Prop) : op m t (λ v t', Q (f v) t') → op (f <$> m) t Q.
Proof.
  intros Hm w v w' Hw. unfold fmap, ES_fmap. destruct (m w) as [[x|] w1] eqn:Hx; [|done].
  intros [= <- <-]. by apply (Hm w x w1 Hw Hx).
Qed.

Lemma op_mono {A} (m : Op A) t (Q Q' : A → Tables → Prop) : (∀ v t', Q v t' → Q' v t') → op m t Q → op m t Q'.
Proof. intros HQ Hm w v w' Hw Hv. eauto. Qed.

Lemma op_throw {A} e t (Q : A → Tables → Prop) : op (throw e) t Q.
Proof. by intros w v w' Hw. Qed.

Lemma op_persisted {A} e t (Q : A → Tables → Prop) : op (persisted e) t Q.
Proof. by intros w v w' Hw. Qed.

Lemma op_of_result {A} (r : result Error A) t (Q : A → Tables → Prop) : (∀ v, r = success v → Q v t) → op (of_result r) t Q.
Proof. intros HQ w v w' <- [= -> <-]. by apply HQ. Qed.

Lemma op_demand b e t (Q : unit → Tables → Prop) : (b = true → Q tt t) → op (demand b e) t Q.
Proof. intros HQ. apply op_of_result. intros []. destruct b; [auto|done]. Qed.

Lemma op_need {A} (o : option A) e t (Q : A → Tables → Prop) : (∀ v, o = Some v → Q v t) → op (need o e) t Q.
Proof. intros HQ. apply op_of_result. intros v. destruct o; [|done]. intros [= ->]. auto. Qed.

Lemma op_on_persisted {A} (r : result Error A) t (Q : A → Tables → Prop) :
  (∀ v, r = success v → Q v t) → op (on_persisted r) t Q.
Proof. intros HQ. destruct r as [v|e]; [|apply op_persisted]. apply op_ret. by apply HQ. Qed.

Lemma op_store {A} (m : ES Session A) t (Q : A → Tables → Prop) : tx m t Q → op (on_store m) t Q.
Proof.
  intros Hm w v w' Hw. unfold on_store. destruct (m (connection w)) as [r s] eqn:Hs. intros [= -> <-].
  by apply (Hm (connection w)).
Qed.

Lemma op_read {A} (m : ES Session A) t (Q : A → Tables → Prop) : tx m t Q → op (on_read m) t Q.
Proof.
  intros Hm w v w' Hw. unfold on_read. destruct (on_store m w) as [[x|e] w1] eqn:Hx.
  - intros [= <- <-]. by apply (op_store m t Q Hm w).
  - by destruct (_ && _).
Qed.

Lemma op_timing {A} (m : ES Session A) t (Q : A → Tables → Prop) : tx m t Q → op (on_timing m) t Q.
Proof.
  intros Hm w v w' Hw. unfold on_timing. destruct (on_store m w) as [[x|e] w1] eqn:Hx; [|done].
  intros [= <- <-]. by apply (op_store m t Q Hm w).
Qed.

Lemma op_begin boundary t (Q : Z → Tables → Prop) : (∀ now, boundary = success now → Q now t) → op (begin_timing boundary) t Q.
Proof. intros HQ. by apply op_timing, tx_of_result. Qed.

Lemma op_settle scope t (Q : unit → Tables → Prop) : Q tt t → op (settle_timing scope) t Q.
Proof. intros HQ. by apply op_timing, tx_account. Qed.

Lemma op_reconcile scope t (Q : unit → Tables → Prop) : Q tt t → op (reconcile_timing scope) t Q.
Proof. intros HQ. by apply op_timing, tx_account. Qed.

Lemma op_atomically {A} (m : Op A) t (Q : A → Tables → Prop) : op m t Q → op (atomically m) t Q.
Proof.
  intros Hm w v w' Hw. unfold atomically.
  destruct (statement (connection w)) as [[[]|e] s1] eqn:H1; apply statement_tables in H1 as [H1 _]; [|done].
  destruct (m _) as [[x|e] w2] eqn:H2; [|done].
  destruct (statement (connection w2)) as [[[]|e] s3] eqn:H3; apply statement_tables in H3 as [H3 _]; [|done].
  intros [= <- <-]. cbn [connection with_connection]. rewrite H3. eapply (Hm _ _ _ _ H2).
  Unshelve. cbn. congruence.
Qed.

End Success.

Ltac op_step :=
  lazymatch goal with
  | |- op (_ ≫= _) _ _ => apply op_bind
  | |- op (_ <$> _) _ _ => apply op_fmap
  | |- op (mret _) _ _ => apply op_ret
  | |- op (throw _) _ _ => apply op_throw
  | |- op (persisted _) _ _ => apply op_persisted
  | |- op (of_result _) _ _ => apply op_of_result; intros
  | |- op (demand _ _) _ _ => apply op_demand; intros
  | |- op (queue_capacity _) _ _ => apply op_demand; intros
  | |- op (job_capacity _) _ _ => apply op_demand; intros
  | |- op (need _ _) _ _ => apply op_need; intros
  | |- op (on_persisted _) _ _ => apply op_on_persisted; intros
  | |- op (on_store _) _ _ => apply op_store
  | |- op (on_read _) _ _ => apply op_read
  | |- op (begin_timing _) _ _ => apply op_begin; intros
  | |- op (settle_timing _) _ _ => apply op_settle
  | |- op (reconcile_timing _) _ _ => apply op_reconcile
  | |- op (atomically _) _ _ => apply op_atomically
  | |- op (if ?b then _ else _) _ _ => destruct b eqn:?
  | |- op (match ?o with Some _ => _ | None => _ end) _ _ => destruct o eqn:?
  end.

(** ** What a failure leaves *)

Section Failure.
Context `{Admission}.

Abbreviation Op := (ES Service).

(** The durable part of two sessions is the same. *)
Record same_store (s s' : Session) : Prop := {
  same_tables : tables s' = tables s;
  same_timing : timing s' = timing s;
  same_side : side s' = side s }.

#[global] Instance same_store_preorder : PreOrder same_store.
Proof. split; [done|]. intros s1 s2 s3 [] []. split; congruence. Qed.

Definition untouched {A} (m : ES Session A) : Prop := ∀ s r s', m s = (r, s') → same_store s s'.
Definition quiet {A} (m : Op A) : Prop := ∀ w r w', m w = (r, w') → same_store (connection w) (connection w').
Definition restores {A} (m : Op A) : Prop :=
  ∀ w e w', m w = (failure e, w') → same_store (connection w) (connection w').

Lemma untouched_ret {A} (v : A) : untouched (mret v).
Proof. by intros s r s' [= <- <-]. Qed.
Lemma untouched_throw {A} e : untouched (throw e : ES Session A).
Proof. by intros s r s' [= <- <-]. Qed.
Lemma untouched_of_result {A} (x : result Error A) : untouched (of_result x).
Proof. by intros s r s' [= <- <-]. Qed.
Lemma untouched_gets {A} (f : Session → A) : untouched (gets f).
Proof. by intros s r s' [= <- <-]. Qed.
Lemma untouched_bind {A B} (m : ES Session A) (k : A → ES Session B) :
  untouched m → (∀ v, untouched (k v)) → untouched (m ≫= k).
Proof.
  intros Hm Hk s r s'. unfold mbind, ES_bind. destruct (m s) as [[v|e] s1] eqn:Hs; apply Hm in Hs.
  - intros Hr%Hk. by etransitivity.
  - by intros [= <- <-].
Qed.
Lemma untouched_statement : untouched statement.
Proof. intros s r s'. unfold statement. destruct (fault _); by intros [= <- <-]. Qed.
Lemma untouched_generate : untouched generate_uuid.
Proof. by intros s r s' [= <- <-]. Qed.
Lemma untouched_cron {A} (f : Engine → result Error A * Engine) : untouched (cron_call f).
Proof. intros s r s'. unfold cron_call. destruct (f _). by intros [= <- <-]. Qed.
Lemma untouched_query {A} (f : Tables → A) : untouched (query f).
Proof. apply untouched_bind; [apply untouched_statement|]. intros _. apply untouched_gets. Qed.
Lemma untouched_side_query {A} (f : SideTables → A) : untouched (side_query f).
Proof. apply untouched_bind; [apply untouched_statement|]. intros _. apply untouched_gets. Qed.

Lemma quiet_ret {A} (v : A) : quiet (mret v).
Proof. by intros w r w' [= <- <-]. Qed.
Lemma quiet_throw {A} e : quiet (throw e : Op A).
Proof. by intros w r w' [= <- <-]. Qed.
Lemma quiet_of_result {A} (x : result Error A) : quiet (of_result x).
Proof. by intros w r w' [= <- <-]. Qed.
Lemma quiet_persisted {A} e : quiet (persisted e : Op A).
Proof. by intros w r w' [= <- <-]. Qed.
Lemma quiet_bind {A B} (m : Op A) (k : A → Op B) : quiet m → (∀ v, quiet (k v)) → quiet (m ≫= k).
Proof.
  intros Hm Hk w r w'. unfold mbind, ES_bind. destruct (m w) as [[v|e] w1] eqn:Hw; apply Hm in Hw.
  - intros Hr%Hk. by etransitivity.
  - by intros [= <- <-].
Qed.
Lemma quiet_store {A} (m : ES Session A) : untouched m → quiet (on_store m).
Proof. intros Hm w r w'. unfold on_store. destruct (m _) as [x s] eqn:Hs. apply Hm in Hs. by intros [= <- <-]. Qed.
Lemma quiet_read {A} (m : ES Session A) : untouched m → quiet (on_read m).
Proof.
  intros Hm w r w'. unfold on_read. destruct (on_store m w) as [[v|e] w1] eqn:Hw; apply quiet_store in Hw; [|done| |done].
  - by intros [= <- <-].
  - destruct (_ && _); by intros [= <- <-].
Qed.
Lemma quiet_timing {A} (m : ES Session A) : untouched m → quiet (on_timing m).
Proof.
  intros Hm w r w'. unfold on_timing. destruct (on_store m w) as [[v|e] w1] eqn:Hw; apply quiet_store in Hw; [|done| |done];
    by intros [= <- <-].
Qed.
Lemma quiet_begin boundary : quiet (begin_timing boundary).
Proof. apply quiet_timing, untouched_of_result. Qed.

Lemma restores_quiet {A} (m : Op A) : quiet m → restores m.
Proof. intros Hm w e w'. apply Hm. Qed.
Lemma restores_bind {A B} (m : Op A) (k : A → Op B) : quiet m → (∀ v, restores (k v)) → restores (m ≫= k).
Proof.
  intros Hm Hk w e w'. unfold mbind, ES_bind. destruct (m w) as [[v|e'] w1] eqn:Hw; apply Hm in Hw.
  - intros Hr%Hk. by etransitivity.
  - by intros [= <- <-].
Qed.
Lemma restores_fmap {A B} (f : A → B) (m : Op A) : restores m → restores (f <$> m).
Proof.
  intros Hm w e w'. unfold fmap, ES_fmap. destruct (m w) as [[v|e'] w1] eqn:Hw; [done|]. cbn. intros [= <- <-]. by eapply Hm.
Qed.
Lemma restores_atomically {A} (m : Op A) : restores (atomically m).
Proof.
  intros w e w'. unfold atomically.
  destruct (statement (connection w)) as [[[]|e1] s1] eqn:H1; apply untouched_statement in H1;
    [|intros [= <- <-]; exact H1].
  destruct (m _) as [[v|e2] w2]; [|by intros [= <- <-]].
  destruct (statement (connection w2)) as [[[]|e3] s3]; [done|by intros [= <- <-]].
Qed.

(** Nothing that only reads writes. *)
Lemma quiet_fmap {A B} (f : A → B) (m : Op A) : quiet m → quiet (f <$> m).
Proof. intros Hm w r w'. unfold fmap, ES_fmap. destruct (m w) as [x w1] eqn:Hw. apply Hm in Hw. by intros [= <- <-]. Qed.

End Failure.

Create HintDb untouched.
#[export] Hint Resolve untouched_ret untouched_throw untouched_of_result untouched_gets untouched_statement
  untouched_generate untouched_cron untouched_query untouched_side_query : untouched.

Ltac untouched_step :=
  lazymatch goal with
  | |- untouched (_ ≫= _) => apply untouched_bind; [|intros]
  | |- untouched (if ?b then _ else _) => destruct b
  | |- untouched (match ?x with _ => _ end) => destruct x
  | |- untouched (require _ _) => apply untouched_of_result
  | |- untouched (ensure _ _) => apply untouched_of_result
  end.
Ltac untouched_solve := repeat untouched_step; eauto with untouched.

Section UntouchedOperations.
Context `{Admission}.

Lemma find_queue_with_id_untouched id include : untouched (find_queue_with_id id include).
Proof. unfold find_queue_with_id. untouched_solve. Qed.
Lemma find_queue_by_name_untouched name include : untouched (find_queue_by_name name include).
Proof. unfold find_queue_by_name. untouched_solve. Qed.
Lemma find_queue_selected_untouched selector include : untouched (find_queue_selected selector include).
Proof. destruct selector; [apply find_queue_with_id_untouched|apply find_queue_by_name_untouched]. Qed.
Lemma find_job_with_id_untouched id include : untouched (find_job_with_id id include).
Proof. unfold find_job_with_id. untouched_solve. Qed.
Lemma list_queue_rows_untouched include state limit after : untouched (list_queue_rows include state limit after).
Proof. unfold list_queue_rows. untouched_solve. Qed.
Lemma list_job_rows_untouched queue include state type limit after :
  untouched (list_job_rows queue include state type limit after).
Proof. unfold list_job_rows. untouched_solve. Qed.
Lemma find_idempotency_untouched method scope key : untouched (find_idempotency method scope key).
Proof. unfold find_idempotency. untouched_solve. Qed.

End UntouchedOperations.
#[export] Hint Resolve find_queue_with_id_untouched find_queue_by_name_untouched find_queue_selected_untouched
  find_job_with_id_untouched list_queue_rows_untouched list_job_rows_untouched find_idempotency_untouched : untouched.

Create HintDb quiet.
#[export] Hint Resolve quiet_ret quiet_throw quiet_of_result quiet_persisted quiet_store quiet_read quiet_begin : quiet.

Ltac quiet_step :=
  lazymatch goal with
  | |- quiet (_ ≫= _) => apply quiet_bind; [|intros]
  | |- quiet (_ <$> _) => apply quiet_fmap
  | |- quiet (if ?b then _ else _) => destruct b
  | |- quiet (match ?x with _ => _ end) => destruct x
  | |- quiet (demand _ _) => apply quiet_of_result
  | |- quiet (need _ _) => apply quiet_of_result
  | |- quiet (on_persisted ?r) => destruct r; cbn [on_persisted]
  end.
Ltac quiet_solve := repeat quiet_step; eauto with quiet untouched.
