(* ===== verification/ManagementAtomicity.v ===== *)
(** * Requests are all or nothing

    A request that fails leaves no trace in the store, a query never leaves
    one, and after a fatal failure no mutation is admitted. *)

From stdpp Require Import base numbers strings list gmap sets relations.
From S2P Require Import Prelude Effects Values OutputCapture CronEngine Domain ResourceNames StorageFailure Storage.
From S2P Require Import SchedulerRepository ManagementRepository Lifecycle Management ManagementOperations StoreLogic.
From S2P Require Import ManagementLogic.
Local Open Scope Z_scope.

Section Atomicity.
Context `{Admission} (options : ManagementServiceOptions).

Abbreviation Op := (ES Service).

Lemma initialized_quiet : quiet (initialized options).
Proof. unfold initialized. quiet_solve. Qed.
Lemma resolve_creation_untouched schedule now : untouched (resolve_creation options schedule now).
Proof. unfold resolve_creation. untouched_solve. Qed.
Lemma resolve_update_untouched schedule : untouched (resolve_update options schedule).
Proof. unfold resolve_update. untouched_solve. Qed.
Lemma generate_identity_quiet : quiet generate_identity.
Proof. unfold generate_identity. quiet_solve. Qed.
Lemma page_of_quiet {A} (r : result Error (Page A)) : quiet (page_of r).
Proof. unfold page_of. quiet_solve. Qed.

#[local] Hint Resolve initialized_quiet resolve_creation_untouched resolve_update_untouched generate_identity_quiet
  page_of_quiet : quiet.

(** Everything before the transaction only reads. *)
Ltac restores_solve :=
  repeat lazymatch goal with
  | |- restores (atomically _) => apply restores_atomically
  | |- restores (_ ≫= _) => apply restores_bind; [solve [quiet_solve]|intros]
  | |- restores (match ?x with _ => _ end) => destruct x
  end.

Lemma operation_restores request : restores (operation options request).
Proof.
  destruct request; apply restores_fmap;
    unfold create_queue_impl, update_queue_impl, suspend_queue_impl, resume_queue_impl, delete_queue_impl, create_job_impl,
      run_now_impl, update_job_impl, suspend_job_impl, resume_job_impl, move_job_impl, delete_job_impl, get_queue_impl,
      list_queues_impl, get_job_impl, list_jobs_impl; cbv zeta; restores_solve; apply restores_quiet; quiet_solve.
Qed.

Lemma query_quiet request : is_query request = true → quiet (operation options request).
Proof.
  destruct request; try discriminate; intros _; apply quiet_fmap;
    unfold get_queue_impl, list_queues_impl, get_job_impl, list_jobs_impl; quiet_solve.
Qed.

(** ** The boundary *)

Lemma connection_if (b : bool) n w : connection (if b then emit n w else w) = connection w.
Proof. by destruct b. Qed.

Lemma report_connection context fatal e w e' w' : report context fatal e w = (e', w') → connection w' = connection w.
Proof.
  unfold report, latch, detach. destruct (telemetry_failure w), (telemetry_attached w), fatal, (first_failure w) eqn:E;
    cbn; rewrite ?E; by intros [= <- <-].
Qed.

(** [invoke] runs the operation on the store and leaves what it left. *)
Lemma invoke_store {A} context (m : Op (A * bool)) w r w' :
  invoke context m w = (r, w') →
  (w' = w ∧ r = failure mutations_are_stopped ∧ context = OpMutation ∧ mutations_stopped w = true) ∨
  ∃ x w1, m (with_failure OriginOperation None w) = (x, w1) ∧ connection w' = connection w1 ∧
    match r with
    | success v => ∃ b, x = success (v, b)
    | failure _ => is_success x = false ∨ is_some (poisoned (statements (connection w'))) = true
    end.
Proof.
  unfold invoke. destruct (bool_decide (context = OpMutation) && mutations_stopped w) eqn:Hstop.
  { apply andb_true_iff in Hstop as [?%bool_decide_eq_true ?]. intros [= <- <-]. by left. }
  destruct (m _) as [x w1] eqn:Hm. intros Hr. right. exists x, w1. split; [done|].
  revert Hr. generalize (match x with failure e => is_fatal context (failure_origin w1) e | success _ => false end). intros fatal.
  destruct (poisoned (statements (connection w1))) as [last|] eqn:Hp; [destruct fatal|].
  - destruct x as [[v b]|e]; [intros [= <- <-]; rewrite connection_if; split; [done|by exists b]|].
    destruct (report _ _ _ w1) as [e' w2] eqn:Hr. apply report_connection in Hr. intros [= <- <-]. rewrite Hr, Hp. split; [done|by right].
  - destruct (report _ _ _ w1) as [e' w2] eqn:Hr. apply report_connection in Hr. intros [= <- <-]. rewrite Hr, Hp. split; [done|by right].
  - destruct x as [[v b]|e]; [intros [= <- <-]; rewrite connection_if; split; [done|by exists b]|].
    destruct (report _ _ _ w1) as [e' w2] eqn:Hr. apply report_connection in Hr. intros [= <- <-]. rewrite Hr. split; [done|by left].
Qed.

Lemma serve_restores request w e w' :
  serve options request w = (failure e, w') → poisoned (statements (connection w')) = None →
  same_store (connection w) (connection w').
Proof.
  intros Hw Hp. apply invoke_store in Hw as [(-> & _)|(x & w1 & Hx & Hc & [Hf|Hf])]; [done| |by rewrite Hp in Hf].
  destruct x as [|e1]; [done|]. rewrite Hc. by apply operation_restores in Hx.
Qed.

Lemma serve_quiet request : is_query request = true → quiet (serve options request).
Proof.
  intros Hq w r w' Hw. apply invoke_store in Hw as [(-> & _)|(x & w1 & Hx & Hc & _)]; [done|]. rewrite Hc.
  by apply query_quiet in Hx.
Qed.

(** ** The latch *)

(** What only the boundary changes. *)
Record same_latch (w w' : Service) : Prop := {
  latch_stopped : mutations_stopped w' = mutations_stopped w;
  latch_first : first_failure w' = first_failure w;
  latch_emitted : emitted w' = emitted w }.

#[global] Instance same_latch_preorder : PreOrder same_latch.
Proof. split; [done|]. intros w1 w2 w3 [] []. split; congruence. Qed.

Definition steady {A} (m : Op A) : Prop := ∀ w r w', m w = (r, w') → same_latch w w'.

Lemma steady_ret {A} (v : A) : steady (mret v).
Proof. by intros w r w' [= <- <-]. Qed.
Lemma steady_throw {A} e : steady (throw e : Op A).
Proof. by intros w r w' [= <- <-]. Qed.
Lemma steady_of_result {A} (x : result Error A) : steady (of_result x).
Proof. by intros w r w' [= <- <-]. Qed.
Lemma steady_persisted {A} e : steady (persisted e : Op A).
Proof. by intros w r w' [= <- <-]. Qed.
Lemma steady_bind {A B} (m : Op A) (k : A → Op B) : steady m → (∀ v, steady (k v)) → steady (m ≫= k).
Proof.
  intros Hm Hk w r w'. unfold mbind, ES_bind. destruct (m w) as [[v|e] w1] eqn:Hw; apply Hm in Hw.
  - intros Hr%Hk. by etransitivity.
  - by intros [= <- <-].
Qed.
Lemma steady_fmap {A B} (f : A → B) (m : Op A) : steady m → steady (f <$> m).
Proof. intros Hm w r w'. unfold fmap, ES_fmap. destruct (m w) as [x w1] eqn:Hw. apply Hm in Hw. by intros [= <- <-]. Qed.
Lemma steady_store {A} (m : ES Session A) : steady (on_store m).
Proof. intros w r w'. unfold on_store. destruct (m _). by intros [= <- <-]. Qed.
Lemma steady_read {A} (m : ES Session A) : steady (on_read m).
Proof.
  intros w r w'. unfold on_read. destruct (on_store m w) as [[v|e] w1] eqn:Hw; apply steady_store in Hw;
    [by intros [= <- <-]|]. destruct (_ && _); intros [= <- <-]; destruct Hw; by split.
Qed.
Lemma steady_timing {A} (m : ES Session A) : steady (on_timing m).
Proof.
  intros w r w'. unfold on_timing. destruct (on_store m w) as [[v|e] w1] eqn:Hw; apply steady_store in Hw;
    intros [= <- <-]; [done|]; destruct Hw; by split.
Qed.
Lemma steady_atomically {A} (m : Op A) : steady m → steady (atomically m).
Proof.
  intros Hm w r w'. unfold atomically. destruct (statement (connection w)) as [[[]|e1] s1]; [|by intros [= <- <-]].
  destruct (m _) as [[v|e2] w2] eqn:Hw; apply Hm in Hw as [H1 H2 H3]; [|intros [= <- <-]; by split].
  destruct (statement (connection w2)) as [[[]|e3] s3]; intros [= <- <-]; by split.
Qed.

Ltac steady_solve :=
  repeat lazymatch goal with
  | |- steady (_ ≫= _) => apply steady_bind; [|intros]
  | |- steady (_ <$> _) => apply steady_fmap
  | |- steady (atomically _) => apply steady_atomically
  | |- steady (if ?b then _ else _) => destruct b
  | |- steady (match ?x with _ => _ end) => destruct x
  | |- steady (demand _ _) => apply steady_of_result
  | |- steady (need _ _) => apply steady_of_result
  | |- steady (of_result _) => apply steady_of_result
  | |- steady (on_persisted ?r) => destruct r; cbn [on_persisted]
  | |- steady (on_store _) => apply steady_store
  | |- steady (on_read _) => apply steady_read
  | |- steady (begin_timing _) => apply steady_timing
  | |- steady (settle_timing _) => apply steady_timing
  | |- steady (reconcile_timing _) => apply steady_timing
  | |- steady (mret _) => apply steady_ret
  | |- steady (throw _) => apply steady_throw
  | |- steady (persisted _) => apply steady_persisted
  end.

Lemma operation_steady request : steady (operation options request).
Proof.
  destruct request; apply steady_fmap;
    unfold create_queue_impl, update_queue_impl, suspend_queue_impl, resume_queue_impl, delete_queue_impl, create_job_impl,
      run_now_impl, update_job_impl, suspend_job_impl, resume_job_impl, move_job_impl, delete_job_impl, get_queue_impl,
      list_queues_impl, get_job_impl, list_jobs_impl, initialized, insert_new_queue, replay_queue, transition_queue,
      generate_identity, insert_new_job, replay_job, insert_new_run, replay_run, refreshes, refresh_snapshot, diagnose_job,
      transition_job, queue_capacity, job_capacity, page_of; cbv zeta; steady_solve.
Qed.

(** The first fatal failure, and only it, was announced; mutations stopped
    with it. *)
Definition is_announcement (n : Notification) : bool := match n with ServiceFailed _ => true | _ => false end.

Record latched (w : Service) : Prop := {
  latched_once : length (List.filter is_announcement (emitted w)) = (if is_some (first_failure w) then 1 else 0)%nat;
  latched_stopped : is_some (first_failure w) = true → mutations_stopped w = true }.

Lemma emit_latched n w : is_announcement n = false → latched w → latched (emit n w).
Proof.
  intros Hn [H1 H2]. split; [|done]. cbn. rewrite List.filter_app, length_app, H1. cbn. rewrite Hn. cbn. lia.
Qed.

Lemma report_latched context fatal e w e' w' :
  report context fatal e w = (e', w') → latched w → latched w' ∧ (mutations_stopped w = true → mutations_stopped w' = true).
Proof.
  unfold report. intros [= <- <-] Hw.
  assert (Hd : latched (if is_some (telemetry_failure w) then detach w else w) ∧
    (mutations_stopped w = true → mutations_stopped (if is_some (telemetry_failure w) then detach w else w) = true)).
  { destruct (is_some _); [|done]. destruct Hw as [H1 H2]. split; [by split|done]. }
  revert Hd. generalize (if is_some (telemetry_failure w) then detach w else w). intros w1 [Hw1 Hs1].
  assert (Hl : ∀ e, latched (latch e w1) ∧ mutations_stopped (latch e w1) = true).
  { intros e1. destruct Hw1 as [H1 H2]. unfold latch. destruct (first_failure w1) as [f|] eqn:Hf.
    - split; [|done]. split; cbn; [by rewrite H1, ?Hf|done].
    - split; [|done]. split; cbn; [|done]. by rewrite List.filter_app, length_app, H1. }
  generalize (if is_sanitized fatal e then sanitized_storage_error e context (failure_origin w) else e). intros e1.
  assert (Hf : latched (if fatal then latch e1 w1 else w1) ∧
    (mutations_stopped w = true → mutations_stopped (if fatal then latch e1 w1 else w1) = true)).
  { destruct fatal; [|done]. by destruct (Hl e1). }
  destruct (telemetry_failure w) as [timing|]; [|exact Hf]. destruct (telemetry_attached w); [|exact Hf].
  destruct Hf as [Hf1 Hf2]. split; [by apply emit_latched|exact Hf2].
Qed.

Lemma serve_latched request w r w' :
  serve options request w = (r, w') → latched w → latched w' ∧ (mutations_stopped w = true → mutations_stopped w' = true).
Proof.
  unfold serve, invoke. intros Hr Hw. revert Hr. destruct (_ && mutations_stopped w); [by intros [= <- <-]|]. intros Hr.
  destruct (operation options request _) as [x w1] eqn:Hx. apply operation_steady in Hx as [Hs Hf He]. cbn in Hs, Hf, He.
  assert (Hw1 : latched w1) by (destruct Hw as [H1 H2]; split; by rewrite ?He, ?Hf, ?Hs).
  rewrite <- Hs. revert Hr. generalize (if is_query request then OpRead else OpMutation). intros context.
  generalize (match x with failure e => is_fatal context (failure_origin w1) e | success _ => false end). intros fatal.
  assert (Hok : ∀ b : bool, latched (if b then emit MutationCommitted w1 else w1) ∧
    (mutations_stopped w1 = true → mutations_stopped (if b then emit MutationCommitted w1 else w1) = true)).
  { intros []; [|done]. split; [by apply emit_latched|done]. }
  assert (Hbad : ∀ (fatal : bool) context e, let '(e', w2) := report context fatal e w1 in
    (failure e', w2) = (r, w') → latched w' ∧ (mutations_stopped w1 = true → mutations_stopped w' = true)).
  { intros f ? e. destruct (report _ _ _ _) as [e' w2] eqn:Hrep. intros [= <- <-]. by eapply report_latched. }
  destruct (poisoned _); [destruct fatal; [destruct x as [[v b]|e]|]|destruct x as [[v b]|e]].
  all: try (intros [= <- <-]; apply Hok); apply Hbad.
Qed.

Definition served (w w' : Service) : Prop := ∃ request r, serve options request w = (r, w').

Lemma serve_stopped request w r w' :
  serve options request w = (r, w') → mutations_stopped w = true → same_store (connection w) (connection w').
Proof.
  intros Hw Hs. destruct (is_query request) eqn:Hq; [by apply serve_quiet in Hw|]. revert Hw. unfold serve, invoke.
  rewrite Hq, Hs. by intros [= <- <-].
Qed.

Lemma served_latched w w' :
  rtc served w w' → latched w →
  latched w' ∧ (mutations_stopped w = true → same_store (connection w) (connection w')).
Proof.
  induction 1 as [w|w w1 w' (request & r & Hw) _ IH]; [done|]. intros Hl. destruct (serve_latched _ _ _ _ Hw Hl) as [Hl1 Hs1].
  destruct (IH Hl1) as [Hl' Hs']. split; [done|]. intros Hs. etransitivity; [by eapply serve_stopped|]. by apply Hs', Hs1.
Qed.

End Atomicity.
