(* ===== verification/StoreInvariant.v ===== *)
(** * What the store always says

    The invariant of runs, attempts and definitions, and that the durable
    transitions of the scheduler keep it under every failure: claims,
    completions and cancellations ([Completion]).  With it, the scheduler's
    memory and the store agree on the attempts that are under way. *)

From stdpp Require Import base numbers strings list gmap sets.
From S2P Require Import Prelude Effects Values OutputCapture RetryPolicy CronEngine Domain Storage SchedulerRepository.
From S2P Require Import Lifecycle Completion StoreLogic.
Local Open Scope Z_scope.

(** ** The invariant *)

(** A completed attempt that a retry may follow. *)
Definition history (a : JobAttempt) : Prop :=
  attempt_state a = AttemptCompleted ∧ (attempt_outcome a = Some Failed ∨ attempt_outcome a = Some Interrupted).

(** The attempts [A] of a run in a state. *)
Definition attempts_of_state (state : RunState) (A : Z → option JobAttempt) : Prop :=
  match state with
  | RunScheduled => ∀ n, A n = None
  | RunRunning =>
      ∃ n a, A n = Some a ∧ attempt_state a = AttemptRunning ∧ A (n + 1) = None ∧
             ∀ m b, A m = Some b → m ≠ n → history b
  | RunRetryWait => is_Some (A 1) ∧ ∀ m b, A m = Some b → history b
  | _ => ∀ m b, A m = Some b → attempt_state b = AttemptCompleted
  end.

(** Numbered from one without gaps. *)
Definition numbered (A : Z → option JobAttempt) : Prop :=
  (∀ n, is_Some (A n) → 0 < n) ∧ ∀ n, 0 < n → is_Some (A (n + 1)) → is_Some (A n).

Definition row_ok (r : JobRun) : Prop :=
  is_terminal_run (run_state r) = is_some (run_completed_at r) ∧
  (is_terminal_run (run_state r) = false → run_result r = None) ∧
  valid_started_at (run_state r) (is_some (run_started_at r)) = true ∧
  (schedule_owned r = true → run_origin r = OriginScheduled).

Record wf (t : Tables) : Prop := {
  wf_run_key k r : runs t !! k = Some r → run_id r = k;
  wf_job_key k j : jobs t !! k = Some j → job_id j = k;
  wf_queue_key k q : queues t !! k = Some q → row_queue_id q = k;
  wf_attempt_key k a : attempts t !! k = Some a → (attempt_run a, attempt_number a) = k;
  wf_row k r : runs t !! k = Some r → row_ok r;
  wf_origin k r : runs t !! k = Some r → run_origin r = (if schedule_owned r then OriginScheduled else OriginManual);
  wf_owners k r : runs t !! k = Some r → is_Some (jobs t !! run_job r) ∧ is_Some (queues t !! run_queue r);
  wf_attempt_run k n : is_Some (attempts t !! (k, n)) → is_Some (runs t !! k);
  wf_numbered k : numbered (λ n, attempts t !! (k, n));
  wf_attempts k r : runs t !! k = Some r → attempts_of_state (run_state r) (λ n, attempts t !! (k, n));
  (** One live run per definition and kind. *)
  wf_single k1 k2 r1 r2 :
    runs t !! k1 = Some r1 → runs t !! k2 = Some r2 → run_job r1 = run_job r2 →
    schedule_owned r1 = schedule_owned r2 → is_live_run (run_state r1) = true → is_live_run (run_state r2) = true →
    k1 = k2;
  (** A finished definition is a one-time one without work left. *)
  wf_finished k j :
    jobs t !! k = Some j → is_terminal_job_state (job_state j) = true →
    is_once j = true ∧ ∀ k' r, runs t !! k' = Some r → run_job r = k → is_live_run (run_state r) = false;
  (** Work that is not done belongs to a definition that is not deleted, and
      is where the definition is. *)
  wf_home k r j :
    runs t !! k = Some r → is_live_run (run_state r) = true → jobs t !! run_job r = Some j →
    run_queue r = job_queue j ∧ job_state j ≠ JobDeleted;
  (** The definitions of a deleted queue are deleted. *)
  wf_job_home k j :
    jobs t !! k = Some j →
    ∃ q, queues t !! job_queue j = Some q ∧ (queue_state q = QueueDeleted → job_state j = JobDeleted) }.

(** ** Attempts *)

Definition put (n : Z) (a : JobAttempt) (A : Z → option JobAttempt) : Z → option JobAttempt :=
  λ m, if bool_decide (m = n) then Some a else A m.

Lemma put_eq n a A : put n a A n = Some a.
Proof. unfold put. by rewrite bool_decide_true. Qed.
Lemma put_ne n a A m : m ≠ n → put n a A m = A m.
Proof. intros. unfold put. by rewrite bool_decide_false. Qed.

Lemma put_some n a A m b : put n a A m = Some b → m = n ∧ b = a ∨ m ≠ n ∧ A m = Some b.
Proof. unfold put. case_bool_decide; [intros [= <-]; by left|by right]. Qed.

Lemma numbered_next A n a :
  numbered A → (n = 1 ∨ is_Some (A (n - 1))) → A n = None → numbered (put n a A).
Proof.
  intros [Hpos Hgap] Hn Hnone. split.
  - intros m [b [[-> _]|[_ Hb]]%put_some]; [|by apply Hpos; eexists].
    destruct Hn as [->|Hn]; [done|]. specialize (Hpos _ Hn). lia.
  - intros m Hm [b Hb]. destruct (decide (m = n)) as [->|Hne]; [rewrite put_eq; by eexists|].
    rewrite put_ne by done. apply put_some in Hb as [[Heq _]|[_ Hb]].
    + destruct Hn as [->|Hn]; [lia|]. by replace m with (n - 1) by lia.
    + apply Hgap; [done|by eexists].
Qed.

Lemma numbered_update A n a b : numbered A → A n = Some b → numbered (put n a A).
Proof.
  intros [Hpos Hgap] Hn.
  assert (Hiff : ∀ m, is_Some (put n a A m) ↔ is_Some (A m)).
  { intros m. destruct (decide (m = n)) as [->|Hne].
    - rewrite put_eq, Hn. split; by eexists.
    - by rewrite put_ne. }
  split; intros m; rewrite !Hiff; [apply Hpos|apply Hgap].
Qed.

Lemma numbered_first A n : numbered A → is_Some (A n) → is_Some (A 1).
Proof.
  intros [Hpos Hgap] Hn. pose proof (Hpos _ Hn) as H0. revert Hn.
  replace n with (1 + Z.of_nat (Z.to_nat (n - 1))) by lia. generalize (Z.to_nat (n - 1)) as k. clear n H0.
  induction k as [|k IH]; [done|]. intros Hk. apply IH, Hgap; [lia|].
  by replace (1 + Z.of_nat k + 1) with (1 + Z.of_nat (S k)) by lia.
Qed.

(** The next attempt of a pending run. *)
Lemma attempts_claimed state A n a :
  numbered A → attempts_of_state state A → state = RunScheduled ∨ state = RunRetryWait →
  attempt_state a = AttemptRunning → (∀ m, is_Some (A m) → m < n) →
  attempts_of_state RunRunning (put n a A).
Proof.
  intros HA Hst Hs Ha Hmax. exists n, a. rewrite put_eq, put_ne by lia. split_and!; [done..| |].
  - destruct (A (n + 1)) eqn:E; [|done]. specialize (Hmax (n + 1) ltac:(by eexists)). lia.
  - intros m b [[? _]|[_ Hb]]%put_some Hne; [done|].
    destruct Hs as [-> | ->]; cbn in Hst; [by rewrite Hst in Hb|by apply (proj2 Hst m)].
Qed.

(** The end of the running attempt. *)
Lemma attempts_completed A n a b :
  numbered A → attempts_of_state RunRunning A → A n = Some a → attempt_state a = AttemptRunning →
  attempt_state b = AttemptCompleted →
  (∀ m c, put n b A m = Some c → attempt_state c = AttemptCompleted) ∧
  (history b → attempts_of_state RunRetryWait (put n b A)).
Proof.
  intros HA (n' & a' & Hn' & Ha' & _ & Hrest) Hn Ha Hb.
  assert (n = n') as ->.
  { destruct (decide (n = n')) as [|Hne]; [done|]. destruct (Hrest _ _ Hn Hne) as [Hc _]. congruence. }
  assert (Hhist : ∀ m c, put n' b A m = Some c → m = n' ∧ c = b ∨ history c).
  { intros m c [?|[Hne Hc]]%put_some; [by left|right; by eapply Hrest]. }
  split.
  - intros m c [[_ ->]|[? _]]%Hhist; done.
  - intros Hf. split.
    + eapply numbered_first; [by eapply numbered_update|]. rewrite put_eq. by eexists.
    + by intros m c [[_ ->]|?]%Hhist.
Qed.

(** A pending run has no attempt under way. *)
Lemma attempts_pending state A m b :
  attempts_of_state state A → state = RunScheduled ∨ state = RunRetryWait → A m = Some b →
  attempt_state b = AttemptCompleted.
Proof.
  intros Hst Hs Hb. destruct Hs as [-> | ->]; cbn in Hst; [by rewrite Hst in Hb|].
  by apply (proj2 Hst m).
Qed.

(** ** Updates of the tables *)

Lemma attempts_ext state A B : (∀ n, A n = B n) → attempts_of_state state A → attempts_of_state state B.
Proof.
  intros HAB. destruct state; cbn; repeat setoid_rewrite HAB; try done.
Qed.

Lemma numbered_ext A B : (∀ n, A n = B n) → numbered A → numbered B.
Proof. intros HAB [H1 H2]. split; intros n; rewrite <- ?HAB; auto. Qed.

Lemma insert_cases `{Countable K} {A} (m : gmap K A) k v k' x :
  <[k := v]> m !! k' = Some x → k' = k ∧ x = v ∨ k' ≠ k ∧ m !! k' = Some x.
Proof. intros [[-> ->]|[? ?]]%lookup_insert_Some; [by left|by right]. Qed.

(** A run and its attempts change together; its identity and its definition
    stay. *)
Lemma wf_update_run t k r r' A' O' :
  wf t → runs t !! k = Some r →
  run_id r' = k → run_job r' = run_job r → schedule_owned r' = schedule_owned r → run_origin r' = run_origin r →
  run_queue r' = run_queue r → row_ok r' → (is_live_run (run_state r') = true → is_live_run (run_state r) = true) →
  (∀ k' n, k' ≠ k → A' !! (k', n) = attempts t !! (k', n)) →
  (∀ n a, A' !! (k, n) = Some a → (attempt_run a, attempt_number a) = (k, n)) →
  numbered (λ n, A' !! (k, n)) → attempts_of_state (run_state r') (λ n, A' !! (k, n)) →
  wf (mkTables (queues t) (jobs t) (<[k := r']> (runs t)) A' O').
Proof.
  intros Hwf Hr Hid Hjob Hown Horigin Hqueue Hrow Hlive Hother Hkey Hnum Hatt.
  pose proof (insert_cases (runs t) k r') as Hlook.
  assert (Hold : ∀ k' x, <[k := r']> (runs t) !! k' = Some x → is_live_run (run_state x) = true →
    ∃ y, runs t !! k' = Some y ∧ run_job y = run_job x ∧ schedule_owned y = schedule_owned x ∧
         is_live_run (run_state y) = true ∧ run_queue y = run_queue x).
  { intros k' x [[-> ->]|[_ Hx]]%Hlook Hl; [exists r; split_and!; auto|exists x; done]. }
  split; cbn [runs jobs queues attempts].
  - intros k' x [[-> ->]|[_ Hx]]%Hlook; [done|by eapply wf_run_key].
  - intros k' j. apply wf_job_key, Hwf.
  - intros k' q. apply wf_queue_key, Hwf.
  - intros [k' n] a Ha. destruct (decide (k' = k)) as [->|Hne]; [by apply Hkey|].
    rewrite Hother in Ha by done. by apply (wf_attempt_key t Hwf).
  - intros k' x [[-> ->]|[_ Hx]]%Hlook; [done|by eapply wf_row].
  - intros k' x [[-> ->]|[_ Hx]]%Hlook; [rewrite Horigin, Hown|]; by eapply wf_origin.
  - intros k' x [[-> ->]|[_ Hx]]%Hlook; [rewrite Hjob, Hqueue|]; by eapply wf_owners.
  - intros k' n Hn. destruct (decide (k' = k)) as [->|Hne]; [rewrite lookup_insert_eq; by eexists|].
    rewrite lookup_insert_ne by done. rewrite Hother in Hn by done. by eapply wf_attempt_run.
  - intros k'. destruct (decide (k' = k)) as [->|Hne]; [done|].
    eapply numbered_ext, (wf_numbered t Hwf k'). intros n. by rewrite Hother.
  - intros k' x [[-> ->]|[Hne Hx]]%Hlook; [done|].
    eapply attempts_ext, (wf_attempts t Hwf k' x Hx). intros n. by rewrite Hother.
  - intros k1 k2 r1 r2 H1 H2 Hj Ho Hl1 Hl2.
    destruct (Hold _ _ H1 Hl1) as (y1 & ? & Hj1 & Ho1 & ? & _), (Hold _ _ H2 Hl2) as (y2 & ? & Hj2 & Ho2 & ? & _).
    eapply (wf_single t Hwf); [done|done|congruence|congruence|done|done].
  - intros k' j Hj Ht. destruct (wf_finished t Hwf k' j Hj Ht) as [Honce Hnone]. split; [done|].
    intros k'' x Hx Hjx. destruct (is_live_run (run_state x)) eqn:Hl; [|done].
    destruct (Hold _ _ Hx Hl) as (y & Hy & Hjy & _ & Hly & _). rewrite (Hnone k'' y) in Hly; [done|done|congruence].
  - intros k' x j Hx Hl Hj. destruct (Hold _ _ Hx Hl) as (y & Hy & Hjy & _ & Hly & <-). rewrite <- Hjy in Hj.
    by eapply (wf_home t Hwf).
  - apply (wf_job_home t Hwf).
Qed.

(** A new occurrence of a definition that has none. *)
Lemma wf_insert_run t k r j :
  wf t → runs t !! k = None → run_id r = k → row_ok r → run_state r = RunScheduled →
  run_origin r = (if schedule_owned r then OriginScheduled else OriginManual) →
  jobs t !! run_job r = Some j → run_queue r = job_queue j → job_state j ≠ JobDeleted →
  is_terminal_job_state (job_state j) = false →
  (∀ k' x, runs t !! k' = Some x → run_job x = run_job r → schedule_owned x = schedule_owned r →
     is_live_run (run_state x) = false) →
  wf (set_runs (<[k := r]> (runs t)) t).
Proof.
  intros Hwf Hk Hid Hrow Hst Horigin Hj Hq Hdel Hterm Hsingle.
  pose proof (insert_cases (runs t) k r) as Hlook.
  assert (Hnone : ∀ n, attempts t !! (k, n) = None).
  { intros n. destruct (attempts t !! (k, n)) eqn:E; [|done].
    destruct (wf_attempt_run t Hwf k n) as [? ?]; [by eexists|congruence]. }
  split; cbn [runs jobs queues attempts set_runs].
  - intros k' x [[-> ->]|[_ Hx]]%Hlook; [done|by eapply wf_run_key].
  - intros k' j'. apply wf_job_key, Hwf.
  - intros k' q. apply wf_queue_key, Hwf.
  - intros k' a. apply wf_attempt_key, Hwf.
  - intros k' x [[-> ->]|[_ Hx]]%Hlook; [done|by eapply wf_row].
  - intros k' x [[-> ->]|[_ Hx]]%Hlook; [done|by eapply wf_origin].
  - intros k' x [[-> ->]|[_ Hx]]%Hlook; [|by eapply wf_owners]. rewrite Hj, Hq.
    destruct (wf_job_home t Hwf _ _ Hj) as (q & Hq' & _). split; by eexists.
  - intros k' n Hn. pose proof (wf_attempt_run t Hwf k' n Hn) as [x Hx].
    destruct (decide (k' = k)) as [->|Hne]; [congruence|]. rewrite lookup_insert_ne by done. by eexists.
  - intros k'. apply wf_numbered, Hwf.
  - intros k' x [[-> ->]|[_ Hx]]%Hlook; [|by eapply wf_attempts]. rewrite Hst. done.
  - intros k1 k2 r1 r2 [[-> ->]|[N1 H1]]%Hlook [[-> ->]|[N2 H2]]%Hlook Hjj Ho Hl1 Hl2; [done| | |].
    + rewrite (Hsingle k2 r2) in Hl2; [done|done|congruence|congruence].
    + rewrite (Hsingle k1 r1) in Hl1; [done|done|congruence|congruence].
    + by eapply (wf_single t Hwf).
  - intros k' j' Hj' Ht. destruct (wf_finished t Hwf k' j' Hj' Ht) as [Honce Hfin]. split; [done|].
    intros k'' x [[-> ->]|[_ Hx]]%Hlook Hjx; [|by eapply Hfin]. subst k'. congruence.
  - intros k' x j' [[-> ->]|[_ Hx]]%Hlook Hl Hj'; [|by eapply (wf_home t Hwf)]. by simplify_eq.
  - apply (wf_job_home t Hwf).
Qed.

(** A definition changes, but not its identity. *)
Lemma wf_set_job t k j j' :
  wf t → jobs t !! k = Some j → job_id j' = job_id j → job_queue j' = job_queue j →
  job_state j ≠ JobDeleted → job_state j' ≠ JobDeleted →
  (is_terminal_job_state (job_state j') = true → is_once j' = true ∧
     ∀ k' r, runs t !! k' = Some r → run_job r = k → is_live_run (run_state r) = false) →
  wf (set_jobs (<[k := j']> (jobs t)) t).
Proof.
  intros Hwf Hj Hid Hq Hd Hd' Hfin. pose proof (insert_cases (jobs t) k j') as Hlook.
  destruct Hwf as [W1 W2 W3 W4 W5 W6 W7 W8 W9 W10 W11 W12 W13 W14]. split; cbn [runs jobs queues attempts set_jobs]; try done.
  - intros k' x [[-> ->]|[_ Hx]]%Hlook; [rewrite Hid|]; by eapply W2.
  - intros k' r Hr. destruct (W7 k' r Hr) as [[y Hy] ?]. split; [|done].
    destruct (decide (run_job r = k)) as [<-|Hne]; [rewrite lookup_insert_eq|rewrite lookup_insert_ne by done];
      by eexists.
  - intros k' x [[-> ->]|[_ Hx]]%Hlook Ht; [by apply Hfin|by eapply W12].
  - intros k' r x Hr Hl [[Hk ->]|[_ Hx]]%Hlook; [|by eapply W13]. rewrite Hq. split; [|done].
    apply (W13 k' r j Hr Hl). by rewrite Hk.
  - intros k' x [[-> ->]|[_ Hx]]%Hlook; [|by eapply W14]. rewrite Hq. destruct (W14 _ _ Hj) as (q & Hq' & Hn).
    exists q. split; [done|]. intros Hs. by apply Hn in Hs.
Qed.

Lemma wf_job_update t k j state revision updated :
  wf t → jobs t !! k = Some j → job_state j ≠ JobDeleted → state ≠ JobDeleted →
  (is_terminal_job_state state = true → is_once j = true ∧
     ∀ k' r, runs t !! k' = Some r → run_job r = k → is_live_run (run_state r) = false) →
  wf (set_jobs (<[k := job_with_state state revision updated j]> (jobs t)) t).
Proof. intros Hwf Hj Hd Hs Hfin. by apply (wf_set_job t k j). Qed.

Lemma wf_queue_update t k q q' :
  wf t → queues t !! k = Some q → row_queue_id q' = row_queue_id q →
  (queue_state q' = QueueDeleted → queue_state q = QueueDeleted) → wf (set_queues (<[k := q']> (queues t)) t).
Proof.
  intros [W1 W2 W3 W4 W5 W6 W7 W8 W9 W10 W11 W12 W13 W14] Hq Hid Hdel. split; cbn [runs jobs queues attempts set_queues]; try done.
  - intros k' x [[-> ->]|[_ Hx]]%insert_cases; [rewrite Hid|]; by eapply W3.
  - intros k' r Hr. destruct (W7 k' r Hr) as [? [y Hy]]. split; [done|].
    destruct (decide (run_queue r = k)) as [<-|Hne]; [rewrite lookup_insert_eq|rewrite lookup_insert_ne by done];
      by eexists.
  - intros k' j Hj. destruct (W14 k' j Hj) as (x & Hx & Hn). destruct (decide (job_queue j = k)) as [Heq|Hne].
    + rewrite Heq in *. rewrite lookup_insert_eq. exists q'. split; [done|]. simplify_eq. auto.
    + rewrite lookup_insert_ne by done. by exists x.
Qed.

(** ** Rows *)

Lemma elem_runs_where p t r : r ∈ runs_where p t ↔ ∃ k, runs t !! k = Some r ∧ p r = true.
Proof.
  unfold runs_where. split.
  - intros ([k x] & -> & Hx%elem_of_map_to_list)%list_elem_of_fmap. apply map_lookup_filter_Some in Hx as [Hx Hp].
    by exists k.
  - intros (k & Hk & Hp). apply list_elem_of_fmap. exists (k, r). split; [done|].
    apply elem_of_map_to_list, map_lookup_filter_Some. done.
Qed.

Lemma runs_where_nil p t : runs_where p t = [] → ∀ k r, runs t !! k = Some r → p r = false.
Proof.
  intros Hnil k r Hr. destruct (p r) eqn:Hp; [|done].
  assert (Hin : r ∈ runs_where p t) by (apply elem_runs_where; by exists k). rewrite Hnil in Hin.
  by apply elem_of_nil in Hin.
Qed.

(** Passes the checks of a sequence that succeeded. *)
Ltac skip_checks := repeat (let Hcheck := fresh in intros [_ Hcheck]%check_bind; revert Hcheck).

Section Operations.
Context `{Environment}.

Abbreviation Tx := (ES Session).
Implicit Type t : Tables.

Lemma read_job_run_row r v : read_job_run r = success v → v = r.
Proof.
  unfold read_job_run, readable. destruct (unreadable_run r); [done|]. cbn [mbind result_bind].
  skip_checks. by intros [= <-].
Qed.

Lemma decode_job_row j v : decode_job j = success v → v = j ∧ (is_terminal_job_state (job_state j) = true → is_once j = true).
Proof.
  unfold decode_job, readable. destruct (unreadable_job j); [done|]. cbn [mbind result_bind].
  intros [_ [_ [Ht ?]%check_bind]%check_bind]%check_bind. simplify_eq. split; [done|]. intros Hs. by rewrite Hs in Ht.
Qed.

Lemma decode_queue_row q v : decode_queue q = success v → v = q.
Proof.
  unfold decode_queue, readable. destruct (unreadable_queue q); [done|]. cbn [mbind result_bind].
  intros [_ [_ ?]%check_bind]%check_bind. by simplify_eq.
Qed.

Lemma decode_scheduler_run_row allow row v : decode_scheduler_run allow row = success v → v = row.
Proof.
  unfold decode_scheduler_run. destruct (read_job_run _); [|done]. cbn [mbind result_bind].
  skip_checks. by intros [= <-].
Qed.

Lemma scheduler_row_run t r row : scheduler_row t r = Some row → sr_run row = r.
Proof.
  unfold scheduler_row. destruct (jobs t !! run_job r); [|done]. cbn [mbind option_bind].
  destruct (queues t !! run_queue r); [|done]. cbn [mbind option_bind]. by intros [= <-].
Qed.

(** ** Queries leave the tables *)

Lemma tx_find_run id t (Q : option JobRun → Tables → Prop) : Q (runs t !! id) t → tx (find_run_by_id id) t Q.
Proof.
  intros HQ. unfold find_run_by_id. tx_step. tx_step. destruct (runs t !! id) as [r|]; [|by tx_step].
  tx_step. tx_step. apply read_job_run_row in H0 as ->. by tx_step.
Qed.

Lemma tx_find_job id t (Q : option JobDefinition → Tables → Prop) :
  ((∀ j, jobs t !! id = Some j → is_terminal_job_state (job_state j) = true → is_once j = true) → Q (jobs t !! id) t) →
  tx (find_job_by_id id) t Q.
Proof.
  intros HQ. unfold find_job_by_id. tx_step. tx_step.
  destruct (jobs t !! id) as [j|] eqn:E; [|tx_step; apply HQ; by intros].
  tx_step. tx_step. apply decode_job_row in H0 as [-> Ht]. tx_step. apply HQ. by intros ? [= <-].
Qed.

Lemma tx_find_queue id t (Q : option Queue → Tables → Prop) : Q (queues t !! id) t → tx (find_queue_by_id id) t Q.
Proof.
  intros HQ. unfold find_queue_by_id. tx_step. tx_step. destruct (queues t !! id) as [q|]; [|by tx_step].
  tx_step. tx_step. apply decode_queue_row in H0 as ->. by tx_step.
Qed.

Lemma tx_find_attempt run n t (Q : option JobAttempt → Tables → Prop) :
  Q (attempts t !! (run, n)) t → tx (find_attempt run n) t Q.
Proof.
  intros HQ. unfold find_attempt. tx_step. tx_step. tx_step. tx_step.
  destruct (attempts t !! (run, n)) as [a|]; [|by tx_step]. tx_step. tx_step. tx_step. tx_step. by tx_step.
Qed.

Lemma tx_find_schedule_owned job t (Q : option JobRun → Tables → Prop) :
  (∀ v, (v = None → runs_where (live_schedule_owned job) t = []) → Q v t) → tx (find_schedule_owned job) t Q.
Proof.
  intros HQ. unfold find_schedule_owned. tx_step. tx_step.
  destruct (runs_where _ t) as [|r rest]; [tx_step; by apply HQ|].
  tx_step. tx_step. tx_step. tx_step. tx_step. by apply HQ.
Qed.

Lemma tx_count_running selector id t (Q : Z → Tables → Prop) : (∀ n, Q n t) → tx (count_running selector id) t Q.
Proof. intros HQ. unfold count_running. tx_step. apply HQ. Qed.

Lemma tx_read_nonterminal j t (Q : NonterminalRunCounts → Tables → Prop) :
  (∀ c, (scheduled_count c = 0 → manual_count c = 0 → runs_where (live_of_job (job_id j)) t = []) → Q c t) →
  tx (read_nonterminal_runs j) t Q.
Proof.
  intros HQ. unfold read_nonterminal_runs. tx_step. tx_step. tx_step. apply HQ. intros Hs Hm.
  destruct (runs_where _ t) as [|r rows]; [done|]. exfalso. revert H0. cbn [take count_nonterminal].
  assert (Hmono : ∀ rows c c', count_nonterminal j rows c = success c' →
    scheduled_count c + manual_count c <= scheduled_count c' + manual_count c').
  { clear. induction rows as [|x rows IH]; intros c c'; cbn [count_nonterminal]; [intros [= ->]; lia|].
    intros [_ Hx]%check_bind. revert Hx. destruct (run_origin x), (schedule_owned x); try done;
      cbn [mbind result_bind]; intros [_ ?%IH]%check_bind; cbn in *; lia. }
  intros [_ Hx]%check_bind. revert Hx. destruct (run_origin r), (schedule_owned r); try done;
    cbn [mbind result_bind]; intros [_ Hx%Hmono]%check_bind; cbn in Hx; lia.
Qed.

(** ** Writes *)

Lemma tx_update_run id guard f t (Q : bool → Tables → Prop) :
  Q false t →
  (∀ r, runs t !! id = Some r → guard r = true → Q true (set_runs (<[id := f r]> (runs t)) t)) →
  tx (update_run id guard f) t Q.
Proof.
  intros HF HT. unfold update_run. tx_step. tx_step. destruct (runs t !! id) as [r|]; [|by tx_step].
  destruct (guard r) eqn:Hg; [|by tx_step]. tx_step. eapply tx_modify; [|tx_step; by apply HT].
  by intros s ->.
Qed.

Lemma tx_set_job_state id expected next er nr updated t (Q : bool → Tables → Prop) :
  Q false t →
  (∀ j, jobs t !! id = Some j → job_state j = expected → expected ≠ JobDeleted → next ≠ JobDeleted →
     job_revision j = er → nr = er + 1 →
     Q true (set_jobs (<[id := job_with_state next nr (floor_us updated) j]> (jobs t)) t)) →
  tx (set_job_state id expected next er nr updated) t Q.
Proof.
  intros HF HT. unfold set_job_state. tx_step. apply tx_ensure. intros Hv%negb_true_iff. do 6 tx_step.
  destruct (jobs t !! id) as [j|]; [|by tx_step]. rewrite !orb_false_iff, !bool_decide_eq_false in Hv.
  destruct Hv as [[[[He Hn] _] _] Hr%negb_false_iff].
  destruct (_ && _ && _) eqn:Hg; [|by tx_step]. rewrite !andb_true_iff, bool_decide_eq_true in Hg.
  tx_step. eapply tx_modify; [|tx_step; apply HT; [done|naive_solver..|lia|lia]]. by intros s ->.
Qed.

Lemma tx_set_queue_state id expected next er nr updated t (Q : bool → Tables → Prop) :
  Q false t →
  (∀ q, queues t !! id = Some q → queue_state q = expected → expected ≠ QueueDeleted → next ≠ QueueDeleted →
     queue_revision q = er → nr = er + 1 →
     Q true (set_queues (<[id := queue_with_state next nr (floor_us updated) q]> (queues t)) t)) →
  tx (set_queue_state id expected next er nr updated) t Q.
Proof.
  intros HF HT. unfold set_queue_state. tx_step. apply tx_ensure. intros Hv%negb_true_iff. do 4 tx_step. tx_step.
  apply tx_ensure. intros Hr. do 2 tx_step. destruct (queues t !! id) as [q|]; [|by tx_step].
  rewrite !orb_false_iff, !bool_decide_eq_false in Hv.
  destruct (_ && _ && _) eqn:Hg; [|by tx_step]. rewrite !andb_true_iff, bool_decide_eq_true in Hg.
  tx_step. eapply tx_modify; [|tx_step; apply HT; [done|naive_solver..|lia|lia]]. by intros s ->.
Qed.

Lemma tx_insert_attempt a t (Q : unit → Tables → Prop) :
  (attempts t !! (attempt_run a, attempt_number a) = None →
   Q tt (set_attempts (<[(attempt_run a, attempt_number a) := attempt_row a]> (attempts t)) t)) →
  tx (insert_attempt a) t Q.
Proof.
  intros HQ. unfold insert_attempt. do 6 tx_step.
  destruct (attempts t !! _) eqn:E; cbn [is_some]; [tx_step|].
  destruct (negb _); [tx_step|]. eapply tx_modify; [intros s _; cbn [tables set_tables]; reflexivity|]. by apply HQ.
Qed.

Lemma tx_complete_attempt run n completed outcome result t (Q : unit → Tables → Prop) :
  (∀ a, attempts t !! (run, n) = Some a → attempt_state a = AttemptRunning →
     Q tt (set_attempts (<[(run, n) := completed_attempt_row completed outcome result a]> (attempts t)) t)) →
  tx (complete_attempt run n completed outcome result) t Q.
Proof.
  intros HQ. unfold complete_attempt. do 4 tx_step.
  destruct (attempts t !! (run, n)) as [a|]; [|tx_step]. destruct (_ && _ && _ && _ && _) eqn:Hg; [|tx_step].
  repeat apply andb_true_iff in Hg as [Hg _]. eapply tx_modify; [|apply HQ; [done|by apply bool_decide_eq_true in Hg]].
  by intros s ->.
Qed.

Lemma tx_output run n o t (Q : unit → Tables → Prop) :
  (∀ O, Q tt (set_outputs O t)) → tx (insert_or_replace_output run n o) t Q.
Proof.
  intros HQ. unfold insert_or_replace_output. do 6 tx_step. destruct (_ && _); [tx_step|].
  eapply tx_modify; [intros s _; cbn [tables set_tables]; reflexivity|apply HQ].
Qed.

Lemma tx_insert_run_row r t (Q : result Error unit → Tables → Prop) :
  (∀ e, Q (failure e) t) →
  (∀ j, runs t !! run_id r = None →
     (schedule_owned r && is_live_run (run_state r) = true → runs_where (live_schedule_owned (run_job r)) t = []) →
     jobs t !! run_job r = Some j → is_some (queues t !! run_queue r) = true →
     Q (success tt) (set_runs (<[run_id r := r]> (runs t)) t)) →
  tx (insert_run_row r) t Q.
Proof.
  intros HF HT. unfold insert_run_row. tx_step. apply tx_attempted_statement. intros [[]|e]; tx_step; apply tx_gets; intros s ->; cbn [is_success negb];
    [|tx_step; apply HF]. destruct (_ || _) eqn:Hu; [tx_step; apply HF|].
  apply orb_false_iff in Hu as [Hid Hsingle]. destruct (negb (_ && _)) eqn:Hfk; [tx_step; apply HF|].
  apply negb_false_iff, andb_true_iff in Hfk as [Hj Hq]. tx_step. eapply tx_modify; [intros s0 _; cbn [tables set_tables]; reflexivity|]. tx_step.
  destruct (jobs t !! run_job r) as [j|] eqn:E; [|done]. apply (HT j); [|intros Hl|done..].
  - by destruct (runs t !! run_id r).
  - rewrite Hl in Hsingle. by apply negb_false_iff, bool_decide_eq_true in Hsingle.
Qed.

Lemma tx_insert_schedule_owned r measurement t (Q : unit → Tables → Prop) :
  (∀ j, runs t !! run_id r = None → runs_where (live_schedule_owned (run_job r)) t = [] →
     jobs t !! run_job r = Some j → is_some (queues t !! run_queue r) = true →
     Q tt (set_runs (<[run_id r := scheduled_row r]> (runs t)) t)) →
  tx (insert_schedule_owned r measurement) t Q.
Proof.
  intros HQ. unfold insert_schedule_owned. do 9 tx_step. apply tx_find_schedule_owned. intros existing _.
  do 3 tx_step. apply tx_insert_run_row.
  - intros e. tx_step. cbn beta iota. tx_step; [|tx_step]. tx_step. apply tx_find_schedule_owned. intros ? _.
    tx_step. tx_step. tx_step.
  - intros j Hid Hs Hj Hq. tx_step. tx_step. tx_step. by apply (HQ j); auto.
Qed.

End Operations.

(** ** Consequences of a terminal run *)

Section Consequences.
Context `{Environment}.
Implicit Type t : Tables.

(** The invariant, with the runs and the attempts as they were. *)
Definition same_work t (_ : bool) t' : Prop := wf t' ∧ runs t' = runs t ∧ attempts t' = attempts t.

Lemma drained_queue_wf queue updated t : wf t → tx (complete_drained_queue_suspension queue updated) t (same_work t).
Proof.
  intros Hwf. unfold complete_drained_queue_suspension. tx_step. apply tx_find_queue. tx_step. tx_step.
  tx_step; [|by tx_step]. tx_step. apply tx_count_running. intros n. tx_step; [|by tx_step].
  tx_step. tx_step. tx_step. apply tx_set_queue_state.
  - tx_step. tx_step. by tx_step.
  - intros q Hq Hst _ _ _ _. tx_step. tx_step. tx_step. split; [by apply (wf_queue_update _ _ q)|done].
Qed.

Lemma drained_job_wf queue job updated t : wf t → tx (complete_drained_job_suspension queue job updated) t (same_work t).
Proof.
  intros Hwf. unfold complete_drained_job_suspension. tx_step. apply tx_find_job. intros _. tx_step. tx_step.
  tx_step. tx_step. tx_step; [|by tx_step]. tx_step. apply tx_count_running. intros n. tx_step; [|by tx_step].
  tx_step. tx_step. tx_step. apply tx_set_job_state.
  - tx_step. tx_step. by tx_step.
  - intros j Hj Hst _ _ _ _. tx_step. tx_step. tx_step. split; [eapply wf_job_update; [done..|by rewrite Hst|done|done]|done].
Qed.

Lemma drained_wf queue job updated t :
  wf t → tx (complete_drained_suspensions queue job updated) t (λ _ t', same_work t true t').
Proof.
  intros Hwf. unfold complete_drained_suspensions. tx_step.
  eapply tx_mono; [|by apply drained_queue_wf]. intros _ t1 (Hwf1 & Hr1 & Ha1). tx_step.
  eapply tx_mono; [|by apply drained_job_wf]. intros _ t2 (Hwf2 & Hr2 & Ha2). tx_step.
  split_and!; [done|congruence|congruence].
Qed.

Lemma finished_wf run at_ t : wf t → tx (finish_after_terminal_run run at_) t (same_work t).
Proof.
  intros Hwf. unfold finish_after_terminal_run. tx_step. apply tx_find_run. tx_step. tx_step. tx_step. tx_step.
  tx_step. tx_step. tx_step. apply tx_find_job. intros _. tx_step. apply tx_require. intros j Hj. tx_step. tx_step.
  destruct (bool_decide (job_state j = JobDeleted)); cbn [orb]; [by tx_step|].
  destruct (is_once j) eqn:Honce; cbn [negb]; [|by tx_step].
  tx_step. apply tx_read_nonterminal. intros counts Hnone. tx_step. tx_step. tx_step; [by tx_step|].
  destruct (negb _ || negb _) eqn:Hz; [by tx_step|]. apply orb_false_iff in Hz as [Hz1%negb_false_iff Hz2%negb_false_iff].
  tx_step. tx_step. tx_step. apply tx_set_job_state.
  - tx_step. tx_step. by tx_step.
  - intros j' Hj' Hst Hd Hd' _ _. tx_step. tx_step. tx_step. split; [|done].
    eapply wf_job_update; [done..|by rewrite Hst|done|].
    intros _. rewrite (wf_job_key _ Hwf _ _ Hj) in *. assert (j' = j) as -> by congruence. split; [done|].
    intros k' r Hr Hjob. specialize (Hnone ltac:(lia) ltac:(lia)). pose proof (runs_where_nil _ _ Hnone k' r Hr) as Hl.
    unfold live_of_job, bytes_eqb in Hl. by rewrite bool_decide_true in Hl.
Qed.

(** ** The next run of a definition *)

(** Either there is none to insert, or the next occurrence was inserted. *)
Definition occurs_next t (j : JobDefinition) (lower : Z) (inserted : bool) t' : Prop :=
  if inserted then
    ∃ schedule id next e e',
      job_state j ≠ JobDeleted ∧ job_schedule j = Cron schedule ∧
      next_after e schedule lower = (success next, e') ∧ lower < next ∧
      runs t !! id = None ∧ runs_where (live_schedule_owned (job_id j)) t = [] ∧
      is_some (queues t !! job_queue j) = true ∧
      t' = set_runs (<[id := scheduled_row (occurrence id j next)]> (runs t)) t
  else t' = t ∧ (job_state j = JobDeleted ∨ is_once j = true).

Lemma recurring_spec j lower measurement t : tx (insert_recurring_run j lower measurement) t (occurs_next t j lower).
Proof.
  unfold insert_recurring_run. tx_step.
  { tx_step. split; [done|]. left. by apply bool_decide_eq_true in Heqb. }
  apply bool_decide_eq_false in Heqb. destruct (job_schedule j) as [at_|schedule] eqn:Hsched.
  { tx_step. split; [done|]. right. unfold is_once. by rewrite Hsched. }
  tx_step. apply tx_cron. intros _ e0 e1 _. tx_step. apply tx_cron. intros next e e' Hnext. tx_step. apply tx_ensure. intros Hlt%Z.ltb_lt.
  tx_step. apply tx_generate. intros id. tx_step. apply tx_insert_schedule_owned. cbn [occurrence run_id run_job run_queue].
  intros j' Hid Hnone Hj' Hq. tx_step. exists schedule, id, next, e, e'. split_and!; done.
Qed.

Lemma occurs_wf t j lower b t' :
  wf t → jobs t !! job_id j = Some j → (is_terminal_job_state (job_state j) = true → is_once j = true) →
  occurs_next t j lower b t' → wf t'.
Proof.
  intros Hwf Hj Hterm Hs. destruct b; [|by destruct Hs as [-> _]].
  destruct Hs as (schedule & id & next & e & e' & Hdel & Hsched & Hnext & Hlt & Hid & Hnone & Hq & ->).
  eapply wf_insert_run; [done|done|done| |done|done|done|done|done| |].
  - split_and!; [done..|]. intros _. done.
  - destruct (is_terminal_job_state (job_state j)) eqn:Ht; [|done]. specialize (Hterm eq_refl).
    unfold is_once in Hterm. by rewrite Hsched in Hterm.
  - intros k' x Hx Hjob Ho. cbn in Hjob, Ho. pose proof (runs_where_nil _ _ Hnone k' x Hx) as Hl.
    unfold live_schedule_owned, bytes_eqb in Hl. by rewrite Ho, bool_decide_true in Hl.
Qed.

Definition succeeded_by t (r : JobRun) (lower : Z) (inserted : bool) t' : Prop :=
  (schedule_owned r = false ∧ t' = t ∧ inserted = false) ∨
  ∃ j, schedule_owned r = true ∧ jobs t !! run_job r = Some j ∧ occurs_next t j lower inserted t'.

Lemma successor_spec r lower measurement t :
  wf t → tx (insert_recurring_successor r lower measurement) t (λ b t', succeeded_by t r lower b t' ∧ wf t').
Proof.
  intros Hwf. unfold insert_recurring_successor. destruct (schedule_owned r) eqn:Hown; cbn [negb].
  2: { tx_step. split; [by left|done]. }
  tx_step. tx_step. tx_step. apply tx_rethrow, tx_find_job. intros Hterm. tx_step. apply tx_require. intros j Hj.
  eapply tx_mono; [|apply recurring_spec]. intros b t' Hs. split; [right; by exists j|].
  eapply (occurs_wf t j); [done| |by apply Hterm|done]. by rewrite (wf_job_key _ Hwf _ _ Hj).
Qed.

End Consequences.

(** ** Claims *)

Section Claims.
Context `{Environment}.
Implicit Type t : Tables.

Definition attempts_of t (run : bytes) : Z → option JobAttempt := λ n, attempts t !! (run, n).

Definition pending (r : JobRun) : Prop := run_state r = RunScheduled ∨ run_state r = RunRetryWait.

Lemma maximum_attempt_spec run t :
  match maximum_attempt run t with
  | None => ∀ m, attempts_of t run m = None
  | Some n => is_Some (attempts_of t run n) ∧ ∀ m, is_Some (attempts_of t run m) → m <= n
  end.
Proof.
  unfold attempts_of.
  assert (Hin : ∀ m, is_Some (attempts t !! (run, m)) ↔ ∃ a, ((run, m), a) ∈ map_to_list (attempts t)).
  { intros m. split; intros [a Ha]; exists a; by apply elem_of_map_to_list. }
  cut (match maximum_attempt run t with
       | None => ∀ m, ¬ ∃ a, ((run, m), a) ∈ map_to_list (attempts t)
       | Some n => (∃ a, ((run, n), a) ∈ map_to_list (attempts t)) ∧
                   ∀ m, (∃ a, ((run, m), a) ∈ map_to_list (attempts t)) → m <= n
       end).
  { destruct (maximum_attempt run t) as [n|].
    - intros [H1 H2]. split; [by apply Hin|]. intros m. rewrite Hin. apply H2.
    - intros Hno m. apply eq_None_not_Some. rewrite Hin. apply Hno. }
  clear Hin. unfold maximum_attempt. induction (map_to_list (attempts t)) as [|[[k n] a] l IH]; cbn [foldr].
  { intros m [a Ha]. by apply elem_of_nil in Ha. }
  cbn [fst snd]. unfold bytes_eqb at 1. case_bool_decide as Hk.
  - subst k. destruct (foldr _ None l) as [p|].
    + destruct IH as [[b Hb] Hle]. split.
      * destruct (Z.max_spec n p) as [[_ ->]|[_ ->]]; [exists b|exists a]; apply elem_of_cons; [by right|by left].
      * intros m [c [[= -> ->]|Hc]%elem_of_cons]; [lia|]. specialize (Hle m ltac:(by exists c)). lia.
    + split; [exists a; apply elem_of_cons; by left|]. intros m [c [[= -> ->]|Hc]%elem_of_cons]; [lia|].
      exfalso. eapply IH. by exists c.
  - destruct (foldr _ None l) as [p|].
    + destruct IH as [[b Hb] Hle]. split; [exists b; apply elem_of_cons; by right|].
      intros m [c [[= ? ? ?]|Hc]%elem_of_cons]; [done|]. apply Hle. by exists c.
    + intros m [c [[= ? ? ?]|Hc]%elem_of_cons]; [done|]. eapply IH. by exists c.
Qed.

(** A new number: one more than all there are. *)
Definition next_number t run n : Prop :=
  (n = 1 ∨ is_Some (attempts_of t run (n - 1))) ∧ ∀ m, is_Some (attempts_of t run m) → m < n.

Lemma next_attempt_spec run t : tx (next_attempt_number run) t (λ n t', t' = t ∧ next_number t run n).
Proof.
  unfold next_attempt_number. tx_step. tx_step. pose proof (maximum_attempt_spec run t) as Hmax.
  destruct (maximum_attempt run t) as [n|].
  - destruct Hmax as [Hn Hle]. tx_step. tx_step. tx_step. tx_step. tx_step. split; [done|]. split.
    + right. by replace (n + 1 - 1) with n by lia.
    + intros m Hm. specialize (Hle m Hm). lia.
  - tx_step. split; [done|]. split; [by left|]. intros m. rewrite Hmax. by intros [].
Qed.

Lemma occupancy_tables queue already rows left occupied t :
  tx (occupancy queue already rows left occupied) t (λ _ t', t' = t).
Proof.
  revert left occupied. induction rows as [|row rows IH]; intros left occupied; cbn [occupancy]; tx_step;
    (tx_step; [tx_step|tx_step]).
  all: try by tx_step.
  all: tx_step; tx_step; tx_step; tx_step; tx_step; tx_step; tx_step; [by tx_step|apply IH].
Qed.

Lemma dispatch_capacity_tables row queue t : tx (queue_has_dispatch_capacity row queue) t (λ _ t', t' = t).
Proof.
  unfold queue_has_dispatch_capacity. tx_step. tx_step; [tx_step; tx_step; tx_step|tx_step];
    (tx_step; tx_step; apply occupancy_tables).
Qed.

Lemma dispatch_context_spec run now t :
  tx (find_dispatch_context run now) t (λ v t', t' = t ∧ ∀ c, v = Some c →
    runs t !! run = Some (dispatch_run c) ∧ pending (dispatch_run c) ∧ next_number t run (dispatch_attempt c)).
Proof.
  unfold find_dispatch_context. tx_step. tx_step.
  destruct (runs t !! run) as [r|] eqn:Hr; cbn [mbind option_bind]; [|by tx_step].
  destruct (_ || _) eqn:Hp; [|by tx_step].
  assert (Hpend : pending r) by (apply orb_true_iff in Hp as [Hp|Hp]; apply bool_decide_eq_true in Hp; [by left|by right]).
  destruct (scheduler_row t r) as [row|] eqn:Hrow; [|by tx_step]. apply scheduler_row_run in Hrow.
  tx_step. apply tx_of_result. intros decoded ->%decode_scheduler_run_row. rewrite Hrow.
  tx_step. tx_step. tx_step; [by tx_step|]. tx_step; [by tx_step|]. tx_step. tx_step. tx_step.
  apply (tx_rethrow (find_queue_by_id (run_queue r))), tx_find_queue. tx_step. tx_step. tx_step. tx_step. tx_step.
  eapply tx_mono; [|apply dispatch_capacity_tables]. intros has ? ->. tx_step; [by tx_step|].
  tx_step. eapply tx_mono; [|apply next_attempt_spec]. intros n ? [-> Hn]. tx_step.
  split; [done|]. intros c [= <-]. done.
Qed.

(** A claim adds a running attempt with the next number. *)
Definition claimed_by t run (c : DispatchContext) t' : Prop :=
  runs t !! run = Some (dispatch_run c) ∧ pending (dispatch_run c) ∧ next_number t run (dispatch_attempt c) ∧ wf t' ∧
  ∃ a, attempt_state a = AttemptRunning ∧ attempts t' = <[(run, dispatch_attempt c) := a]> (attempts t).

Lemma attempts_put t run n a k m :
  <[(run, n) := a]> (attempts t) !! (k, m) =
    if bool_decide (k = run) then put n a (attempts_of t run) m else attempts t !! (k, m).
Proof.
  unfold put, attempts_of. case_bool_decide as Hk; [subst; case_bool_decide; subst|].
  - by rewrite lookup_insert_eq.
  - rewrite lookup_insert_ne; [done|congruence].
  - rewrite lookup_insert_ne; [done|congruence].
Qed.

Lemma wf_claim t run r n a O' started :
  wf t → runs t !! run = Some r → pending r → next_number t run n → attempt_state a = AttemptRunning →
  (attempt_run a, attempt_number a) = (run, n) →
  wf (mkTables (queues t) (jobs t)
        (<[run := run_with RunRunning (runnable_at r) (Some started) (run_completed_at r) (run_result r) r]> (runs t))
        (<[(run, n) := a]> (attempts t)) O').
Proof.
  intros Hwf Hr Hp [Hprev Hmax] Ha Hkey. pose proof (wf_row _ Hwf _ _ Hr) as (Hc & Hres & _ & Hown).
  assert (Hterm : is_terminal_run (run_state r) = false) by (by destruct Hp as [-> | ->]).
  assert (Hput : ∀ m, <[(run, n) := a]> (attempts t) !! (run, m) = put n a (attempts_of t run) m).
  { intros m. by rewrite attempts_put, bool_decide_true. }
  eapply wf_update_run; [done|done|exact (wf_run_key _ Hwf _ _ Hr)|done..| | | | | |].
  - rewrite Hterm in Hc. split_and!; cbn; [done|by auto|done|done].
  - intros _. by destruct Hp as [-> | ->].
  - intros k' m Hne. by rewrite attempts_put, bool_decide_false.
  - intros m b. rewrite Hput. intros [[-> ->]|[_ Hb]]%put_some; [done|]. exact (wf_attempt_key _ Hwf _ _ Hb).
  - eapply numbered_ext; [intros m; symmetry; apply Hput|].
    eapply numbered_next; [apply (wf_numbered _ Hwf run)|done|].
    destruct (attempts_of t run n) eqn:E; [|done]. specialize (Hmax n ltac:(by eexists)). lia.
  - eapply attempts_ext; [intros m; symmetry; apply Hput|].
    eapply attempts_claimed; [apply (wf_numbered _ Hwf run)|by eapply wf_attempts|done|done|done].
Qed.

Lemma claim_spec `{!Runner} run at_ t :
  wf t → tx (claim_transition run at_) t (λ v t', ∀ c p d, v = Some (c, p, d) → claimed_by t run c t').
Proof.
  intros Hwf. unfold claim_transition. tx_step. eapply tx_mono; [|apply dispatch_context_spec].
  intros context ? [-> Hc]. destruct context as [c|]; [|by tx_step]. destruct (Hc c eq_refl) as (Hr & Hp & Hn).
  tx_step; [by tx_step|]. tx_step.
  assert (Hcont : tx (claimed ← (λ s, match claim_run (dispatch_run c) (runnable_wait_warning (dispatch_queue c)) (timing s) with
                        | failure e => (failure e, s)
                        | success (d, x) => (success d, set_timing x s)
                        end);
        _ ← insert_attempt (mkAttempt (run_id (dispatch_run c)) (dispatch_attempt c) (runnable_at (dispatch_run c))
              (Some at_) None AttemptRunning None None);
        transitioned ← mark_dispatch_running (run_id (dispatch_run c)) (run_state (dispatch_run c)) at_;
        if negb transitioned then mret None else mret (Some (c, prepare_payload (dispatch_run c), claimed))) t
        (λ v t', ∀ c p d, v = Some (c, p, d) → claimed_by t run c t')).
  { tx_step. intros s v s' Hs. destruct (claim_run _ _ _) as [[d x]|]; [|done]. intros [= <- <-]. cbn [tables set_timing].
    rewrite Hs. tx_step. apply tx_insert_attempt. cbn [attempt_run attempt_number]. rewrite (wf_run_key _ Hwf _ _ Hr).
    intros Hnone. tx_step. unfold mark_dispatch_running. tx_step. tx_step. apply tx_update_run; cbn [negb]; [by tx_step|].
    cbn [runs set_attempts]. intros r Hr' _. tx_step. intros ? ? ? [= <- <- <-]. simplify_eq.
    split_and!; [done..| |].
    - refine (wf_claim (tables s) run _ _ _ _ _ Hwf Hr Hp Hn _ _); done.
    - eexists. by split; [|cbn; reflexivity]. }
  destruct (prepare_payload (dispatch_run c)); [apply tx_ret; exact Hcont|apply tx_ret; exact Hcont|tx_step].
Qed.

End Claims.

(** ** Completions *)

Section Completions.
Context `{Environment}.
Implicit Type t : Tables.

Definition running_in t (run : bytes) (n : Z) : Prop :=
  ∃ a, attempts t !! (run, n) = Some a ∧ attempt_state a = AttemptRunning.

Lemma completion_context_spec run n t :
  tx (find_completion_context run n) t (λ c t', t' = t ∧ runs t !! run = Some (context_run c) ∧
    run_state (context_run c) = RunRunning ∧ running_in t run n).
Proof.
  unfold find_completion_context. tx_step. tx_step. tx_step. tx_step. tx_step. apply tx_of_result.
  intros decoded ->%decode_scheduler_run_row. tx_step. tx_step. tx_step. apply tx_ensure. intros Hst%bool_decide_eq_true.
  tx_step. apply tx_find_attempt. tx_step. apply tx_ensure. intros Ha.
  destruct (runs t !! run) as [r|] eqn:Hr; [|done]. cbn [mbind option_bind] in H0. apply scheduler_row_run in H0.
  tx_step. cbn [context_run]. subst r. split_and!; [done|congruence|done|].
  destruct (attempts t !! (run, n)) as [a|] eqn:E; [|done]. exists a. split; [done|].
  by apply bool_decide_eq_true in Ha.
Qed.

(** The next occurrence of the definition behind a run that ended at a time:
    the first after that time and after the occurrence that ended, and the
    only live one. *)
Definition has_successor t (r : JobRun) (ended : Z) t' : Prop :=
  schedule_owned r = true → ∀ j schedule,
  jobs t !! run_job r = Some j → job_state j ≠ JobDeleted → job_schedule j = Cron schedule →
  ∃ id next e e',
    next_after e schedule (Z.max ended (planned_at r)) = (success next, e') ∧ Z.max ended (planned_at r) < next ∧
    runs t !! id = None ∧ runs t' !! id = Some (scheduled_row (occurrence id j next)) ∧
    ∀ k x, runs t' !! k = Some x → run_job x = run_job r → schedule_owned x = true →
      is_live_run (run_state x) = true → k = id.

(** A run that becomes terminal. *)
Lemma ended_spec {A} t r run ended measurement result_row (rest : ES Session A) O' A' Q :
  wf t → runs t !! run = Some r → is_live_run (run_state r) = true →
  run_job result_row = run_job r → is_live_run (run_state result_row) = false →
  wf (mkTables (queues t) (jobs t) (<[run := result_row]> (runs t)) A' O') →
  (∀ t', wf t' → attempts t' = A' → has_successor t r ended t' → tx rest t' Q) →
  tx (_ ← insert_recurring_successor r (Z.max ended (planned_at r)) measurement;
      _ ← finish_after_terminal_run run ended; rest)
    (mkTables (queues t) (jobs t) (<[run := result_row]> (runs t)) A' O') Q.
Proof.
  intros Hwf Hr Hlive Hjob Hdead Hwf1 Hk. tx_step. eapply tx_mono; [|by apply successor_spec].
  intros inserted t2 [Hs Hwf2]. tx_step. eapply tx_mono; [|by apply finished_wf].
  intros _ t3 (Hwf3 & Hr3 & Ha3). cut (attempts t3 = A' ∧ has_successor t r ended t3).
  { intros [? ?]. by apply Hk. }
  destruct Hs as [(Hown & -> & _)|(j & Hown & Hj & Hs)].
  { cbn [attempts] in *. split; [done|]. intros Ho. congruence. }
  destruct inserted.
  - destruct Hs as (schedule & id & next & e & e' & Hdel & Hsched & Hnext & Hlt & Hid & Hnone & Hq & ->).
    cbn [runs jobs attempts set_runs] in *. split; [done|]. intros _ j' schedule' Hj' _ Hsched'.
    assert (j' = j) as -> by congruence. assert (schedule' = schedule) as -> by congruence.
    assert (Hne : id ≠ run) by (intros ->; by rewrite lookup_insert_eq in Hid).
    exists id, next, e, e'. rewrite lookup_insert_ne in Hid by done. rewrite Hr3.
    split_and!; [done..|by rewrite lookup_insert_eq|].
    assert (Hkey : job_id j = run_job r) by (by eapply (wf_job_key _ Hwf)).
    intros k x Hx Hjx Hox Hlx. eapply (wf_single _ Hwf3 _ _ x); [by rewrite Hr3|by rewrite Hr3, lookup_insert_eq| |done..].
    cbn. by rewrite Hkey.
  - destruct Hs as [-> Hno]. cbn [attempts jobs] in *. split; [done|].
    intros _ j' schedule Hj' Hdel Hsched. assert (j' = j) as -> by congruence. destruct Hno as [|Honce]; [done|].
    unfold is_once in Honce. by rewrite Hsched in Honce.
Qed.

(** The running attempt ends, and with it the run, or the run waits for a retry. *)
Lemma wf_completed t run r n a b O' state runnable completed result :
  wf t → runs t !! run = Some r → run_state r = RunRunning →
  attempts t !! (run, n) = Some a → attempt_state a = AttemptRunning → attempt_state b = AttemptCompleted →
  (attempt_run b, attempt_number b) = (attempt_run a, attempt_number a) →
  (if is_terminal_run state then is_some completed = true
   else state = RunRetryWait ∧ history b ∧ completed = run_completed_at r ∧ result = run_result r) →
  wf (mkTables (queues t) (jobs t)
        (<[run := run_with state runnable (run_started_at r) completed result r]> (runs t))
        (<[(run, n) := b]> (attempts t)) O').
Proof.
  intros Hwf Hr Hst Ha Hrun Hb Hkey Hstate. pose proof (wf_row _ Hwf _ _ Hr) as (Hc & Hres & Hstart & Hown).
  rewrite Hst in Hc, Hres, Hstart. cbn in Hc, Hstart. specialize (Hres eq_refl).
  assert (Hput : ∀ m, <[(run, n) := b]> (attempts t) !! (run, m) = put n b (attempts_of t run) m).
  { intros m. by rewrite attempts_put, bool_decide_true. }
  pose proof (wf_attempts _ Hwf _ _ Hr) as Hatt. rewrite Hst in Hatt.
  destruct (attempts_completed _ n a b (wf_numbered _ Hwf run) Hatt Ha Hrun Hb) as [Hall Hretry].
  eapply wf_update_run; [done|done|exact (wf_run_key _ Hwf _ _ Hr)|done..| | | | | |].
  - cbn [run_with run_state run_completed_at run_result run_started_at schedule_owned run_origin].
    destruct (is_terminal_run state) eqn:Ht.
    + split_and!; cbn; [congruence|congruence| |done]. by destruct state.
    + destruct Hstate as (-> & _ & -> & ->). split_and!; cbn; done.
  - intros _. by rewrite Hst.
  - intros k' m Hne. by rewrite attempts_put, bool_decide_false.
  - intros m c. rewrite Hput. intros [[-> ->]|[_ Hc']]%put_some; [rewrite Hkey|]; by eapply (wf_attempt_key _ Hwf).
  - eapply numbered_ext; [intros m; symmetry; apply Hput|]. eapply numbered_update; [apply (wf_numbered _ Hwf run)|done].
  - eapply attempts_ext; [intros m; symmetry; apply Hput|]. cbn [run_with run_state].
    destruct (is_terminal_run state) eqn:Ht; [by destruct state|]. destruct Hstate as (-> & Hf & _). by apply Hretry.
Qed.

Lemma retry_only_failed attributes c r : retry_decision attributes c = success (Some r) → completed_outcome c = Failed.
Proof.
  unfold retry_decision. destruct (retry_policy_from_attributes attributes); [|done]. cbn [mbind result_bind].
  intros [_ Hd]%check_bind. revert Hd. destruct (completed_outcome c); done.
Qed.

(** The attempt and nothing else has stopped running. *)
Definition stopped t run n t' : Prop :=
  wf t' ∧ ∀ k m, running_in t' k m ↔ running_in t k m ∧ (k, m) ≠ (run, n).

Lemma stopped_intro t run n b t' :
  wf t' → attempt_state b = AttemptCompleted → attempts t' = <[(run, n) := b]> (attempts t) → stopped t run n t'.
Proof.
  intros Hwf Hb Ha. split; [done|]. intros k m. unfold running_in. rewrite Ha.
  destruct (decide ((k, m) = (run, n))) as [[= -> ->]|Hne].
  - rewrite lookup_insert_eq. split; [intros (a & [= <-] & ?); congruence|by intros [_ ?]].
  - rewrite lookup_insert_ne by congruence. naive_solver.
Qed.

Lemma finish_attempt_spec t r a c retry outcome run n ended result finished O' :
  wf t → runs t !! run = Some r → run_state r = RunRunning → context_run c = r →
  attempts t !! (run, n) = Some a → attempt_state a = AttemptRunning → (is_Some retry → outcome = Failed) →
  tx (finish_attempt c retry outcome run ended result finished)
    (mkTables (queues t) (jobs t) (runs t) (<[(run, n) := completed_attempt_row ended outcome result a]> (attempts t)) O')
    (λ e t', stopped t run n t' ∧ (∀ f, following e = FollowFinished f → has_successor t r ended t')).
Proof.
  intros Hwf Hr Hst Hc Ha Hrun Hretry. set (b := completed_attempt_row _ _ _ _).
  assert (Hfirst : ∀ k, runs (mkTables (queues t) (jobs t) (runs t) (<[(run, n) := b]> (attempts t)) O') !! k = runs t !! k)
    by done.
  unfold finish_attempt. destruct retry as [d|].
  - tx_step. unfold set_run_retry_wait. tx_step. apply tx_update_run; [tx_step; done|].
    intros r' Hr' _. rewrite Hfirst in Hr'. simplify_eq. tx_step. tx_step. split; [|done].
    eapply (stopped_intro _ _ _ b); [|done|done].
    eapply (wf_completed t run); [done..|]. split_and!; [done|cbn|done..]. split; [done|]. left. cbn. by rewrite Hretry.
  - tx_step. apply tx_of_result. intros state Hstate. tx_step. unfold set_run_terminal. tx_step. tx_step. tx_step.
    apply tx_update_run; [tx_step; done|].
    intros r' Hr' _. rewrite Hfirst in Hr'. rewrite Hc. assert (r' = r) as -> by congruence. tx_step.
    apply (ended_spec t r run ended _ _ _ O' (<[(run, n) := b]> (attempts t))); [done|done|by rewrite Hst|done| | |].
    + cbn [run_with run_state]. destruct outcome; cbn in Hstate; by simplify_eq.
    + eapply (wf_completed t run); [done..|]. destruct outcome; cbn in Hstate; by simplify_eq.
    + intros t' Hwf' Ha' Hs. tx_step. split; [by apply (stopped_intro _ _ _ b)|done].
Qed.

Lemma has_successor_runs t r ended t1 t2 : runs t2 = runs t1 → has_successor t r ended t1 → has_successor t r ended t2.
Proof. unfold has_successor. by intros ->. Qed.

Lemma stopped_attempts t run n t1 t2 : attempts t2 = attempts t1 → wf t2 → stopped t run n t1 → stopped t run n t2.
Proof. intros Ha Hwf [_ Hs]. split; [done|]. intros k m. rewrite <- Hs. unfold running_in. by rewrite Ha. Qed.

Lemma conclude_spec t active cancelled completion c retry text ended entered O' a :
  let run := key_run (completion_key completion) in
  let n := key_attempt (completion_key completion) in
  let outcome := if (cancelled : bool) then Cancelled_ else completion_outcome completion in
  wf t → runs t !! run = Some (context_run c) → run_state (context_run c) = RunRunning →
  attempts t !! (run, n) = Some a → attempt_state a = AttemptRunning → (is_Some retry → outcome = Failed) →
  tx (conclude_transition active cancelled completion c retry text ended entered)
    (mkTables (queues t) (jobs t) (runs t) (<[(run, n) := completed_attempt_row ended outcome text a]> (attempts t)) O')
    (λ e t', stopped t run n t' ∧ running_in t run n ∧
       ∀ f, following e = FollowFinished f → ∃ r, runs t !! run = Some r ∧ has_successor t r ended t').
Proof.
  intros run n outcome Hwf Hr Hst Ha Hrun Hretry. unfold conclude_transition. fold run outcome. tx_step.
  eapply tx_mono; [|by eapply (finish_attempt_spec t)]. intros e t1 [Hstop Hsucc]. tx_step.
  eapply tx_mono; [|apply drained_wf, Hstop]. intros _ t2 (Hwf2 & Hr2 & Ha2).
  tx_step. tx_step. tx_step. split_and!; [by eapply stopped_attempts|by exists a|].
  intros f Hf. exists (context_run c). split; [done|]. eapply has_successor_runs; [done|by eapply Hsucc].
Qed.

Lemma complete_transition_spec active cancelled completion text ended entered t :
  let run := key_run (completion_key completion) in
  let n := key_attempt (completion_key completion) in
  wf t →
  tx (complete_transition active cancelled completion text ended entered) t
    (λ e t', stopped t run n t' ∧ running_in t run n ∧
       ∀ f, following e = FollowFinished f → ∃ r, runs t !! run = Some r ∧ has_successor t r ended t').
Proof.
  intros run n Hwf. unfold complete_transition. fold run n. tx_step.
  eapply tx_mono; [|apply completion_context_spec]. intros c ? (-> & Hr & Hst & a & Ha & Hrun).
  tx_step. tx_step. tx_step. apply tx_of_result. intros retry Hretry. tx_step. tx_step. tx_step. tx_step.
  tx_step. apply tx_complete_attempt. intros a' Ha' _. assert (a' = a) as -> by congruence. tx_step.
  assert (Hfail : is_Some retry → (if cancelled then Cancelled_ else completion_outcome completion) = Failed).
  { intros [d ->]. by apply retry_only_failed in Hretry. }
  destruct (completion_output completion) as [o|].
  - apply tx_output. intros O. exact (conclude_spec t active cancelled completion c retry _ ended entered O a Hwf Hr Hst Ha Hrun Hfail).
  - tx_step. exact (conclude_spec t active cancelled completion c retry _ ended entered (outputs t) a Hwf Hr Hst Ha Hrun Hfail).
Qed.

(** ** Cancellations *)

Lemma cancel_find_spec run t :
  tx (find_run_for_cancel run) t (λ v t', t' = t ∧ ∀ r, v = Some r → runs t !! run = Some r).
Proof.
  unfold find_run_for_cancel. tx_step. apply tx_find_run. destruct (runs t !! run) as [r|] eqn:Hr; [|by tx_step].
  tx_step. tx_step. tx_step. apply tx_require. intros row Hrow. rewrite Hr in Hrow. cbn [mbind option_bind] in Hrow.
  apply scheduler_row_run in Hrow. tx_step. apply tx_of_result. intros decoded ->%decode_scheduler_run_row.
  rewrite Hrow. tx_step. tx_step. tx_step.
  assert (Hend : tx (mret (Some r)) t (λ v t', t' = t ∧ ∀ r', v = Some r' → Some r = Some r')).
  { tx_step. split; [done|]. by intros ? [= <-]. }
  destruct (run_state r); try (apply tx_ensure; intros _; exact Hend); tx_step; tx_step; tx_step; exact Hend.
Qed.

Lemma wf_cancelled t run r completed text :
  wf t → runs t !! run = Some r → pending r →
  wf (mkTables (queues t) (jobs t)
        (<[run := run_with RunCancelled (runnable_at r) (run_started_at r) (Some completed) (Some text) r]> (runs t))
        (attempts t) (outputs t)).
Proof.
  intros Hwf Hr Hp. pose proof (wf_row _ Hwf _ _ Hr) as (_ & _ & _ & Hown).
  eapply wf_update_run; [done|done|exact (wf_run_key _ Hwf _ _ Hr)|done..| | | | | |].
  - by split_and!.
  - done.
  - done.
  - intros m b. apply (wf_attempt_key _ Hwf).
  - apply (wf_numbered _ Hwf run).
  - intros m b Hb. exact (attempts_pending _ _ m b (wf_attempts _ Hwf _ _ Hr) Hp Hb).
Qed.

Lemma cancel_transition_spec run expected text ended t :
  wf t → (expected = RunScheduled ∨ expected = RunRetryWait) →
  tx (cancel_transition run expected text ended) t
    (λ r t', wf t' ∧ attempts t' = attempts t ∧ runs t !! run = Some r ∧ has_successor t r ended t').
Proof.
  intros Hwf Hexp. unfold cancel_transition. tx_step. eapply tx_mono; [|apply cancel_find_spec].
  intros found ? [-> Hfound]. tx_step. apply tx_require. intros r ->. specialize (Hfound r eq_refl).
  tx_step. apply tx_ensure. intros Hst%bool_decide_eq_true. tx_step. tx_step. tx_step. unfold cancel_pending_run.
  tx_step. tx_step. apply tx_update_run; [tx_step; by tx_step|]. intros r' Hr' _. assert (r' = r) as -> by congruence.
  tx_step. tx_step.
  assert (Hp : pending r) by (unfold pending; by rewrite Hst).
  apply (ended_spec t r run ended _ _ _ (outputs t) (attempts t)); [done|done|by destruct Hp as [-> | ->]|done|done| |].
  - by apply wf_cancelled.
  - intros t1 Hwf1 Ha1 Hs1. tx_step. eapply tx_mono; [|by apply drained_wf]. intros _ t2 (Hwf2 & Hr2 & Ha2).
    tx_step. tx_step. tx_step. split_and!; [done|congruence|done|by eapply has_successor_runs].
Qed.

End Completions.
