(* ===== verification/SchedulerStore.v ===== *)
(** * The scheduler over its store

    Starts, completions and cancellations in any order and under any failures:
    the store stays consistent, and the scheduler's memory is exactly the set
    of attempts that the store says are running. *)

From stdpp Require Import base numbers strings list gmap sets relations.
From S2P Require Import Prelude Effects Values OutputCapture RetryPolicy CronEngine Domain Storage SchedulerRepository.
From S2P Require Import Lifecycle Completion StoreLogic StoreInvariant.
Local Open Scope Z_scope.

Section Steps.
Context `{Environment} `{Runner}.
Implicit Type w : Runtime.

(** The memory and the store agree on the attempts under way. *)
Definition agree w : Prop :=
  ∀ run n, running_in (tables (session w)) run n ↔ ∃ a, active w !! run = Some a ∧ active_number a = n.

Record consistent w : Prop := { consistent_store : wf (tables (session w)); consistent_memory : agree w }.

(** What the core keeps of a start ([try_dispatch] of the cycle). *)
Definition remember (run : bytes) (r : result Error (option DispatchStart)) (m : gmap bytes ActiveAttempt)
    : gmap bytes ActiveAttempt :=
  match r with
  | success (Some start) =>
      <[run := mkActive (key_attempt (start_key start)) (start_execution start) (start_phase start)
                 (start_accepted_at start)]> m
  | _ => m
  end.

(** One step of the scheduler; the results of the operations may be failures. *)
Inductive step w : Runtime → Prop :=
  | step_start run at_ r s' :
      dispatch_selected run at_ (session w) = (r, s') →
      step w (mkRuntime s' (remember run r (active w)) (cancellations w))
  | step_complete run completion boundary entered r w' :
      process_completion run completion boundary entered w = (r, w') → step w w'
  | step_cancel run boundary r w' :
      cancel_run run boundary w = (r, w') → step w w'.

(** ** Starts *)

Lemma dispatch_selected_spec run at_ s r s' :
  wf (tables s) → dispatch_selected run at_ s = (r, s') →
  (tables s' = tables s ∧ ∀ start, r ≠ success (Some start)) ∨
  ∃ start c, r = success (Some start) ∧ claimed_by (tables s) run c (tables s') ∧
    start_key start = mkKey run (dispatch_attempt c).
Proof.
  intros Hwf. unfold dispatch_selected, mbind, ES_bind.
  destruct (transaction is_some (claim_transition run at_) s) as [r1 s1] eqn:Ht.
  apply (transaction_tables _ _ _ _ _ _ _ eq_refl (claim_spec run at_ _ Hwf)) in Ht.
  destruct Ht as [[Hsame Hno]|(v & -> & Hkeep & HQ)].
  - destruct r1 as [[[[c p] d]|]|e]; [by specialize (Hno _ eq_refl)| |]; intros [= <- <-]; by left.
  - destruct v as [[[c p] d]|]; [|done]. specialize (HQ c p d eq_refl). intros [= <- <-]. right.
    eexists _, c. split_and!; [done..|]. destruct HQ as (Hr & _).
    rewrite (wf_run_key _ Hwf _ _ Hr). destruct p; try done. by destruct (executor_start _ _ _).
Qed.

Lemma running_claimed t run c t' k m :
  wf t → claimed_by t run c t' →
  (running_in t' k m ↔ running_in t k m ∨ (k = run ∧ m = dispatch_attempt c)) ∧ ∀ m, ¬ running_in t run m.
Proof.
  intros Hwf (Hr & Hp & [_ Hmax] & _ & a & Ha & Hatt). split.
  - unfold running_in. rewrite Hatt. destruct (decide ((k, m) = (run, dispatch_attempt c))) as [[= -> ->]|Hne].
    + rewrite lookup_insert_eq. split; [by right|]. intros _. by exists a.
    + rewrite lookup_insert_ne by congruence. naive_solver.
  - intros m' (b & Hb & Hrun). pose proof (attempts_pending _ _ _ _ (wf_attempts _ Hwf _ _ Hr) Hp Hb). congruence.
Qed.

(** ** Completions *)

Lemma process_completion_spec run completion boundary entered w r w' :
  wf (tables (session w)) → process_completion run completion boundary entered w = (r, w') →
  (tables (session w') = tables (session w) ∧ active w' = active w ∧ ∀ e, r ≠ success e) ∨
  ∃ e a ended, r = success e ∧ boundary = success ended ∧ active w !! run = Some a ∧
    active w' = delete run (active w) ∧
    stopped (tables (session w)) run (active_number a) (tables (session w')) ∧
    ∀ f, following e = FollowFinished f →
      ∃ x, runs (tables (session w)) !! run = Some x ∧ has_successor (tables (session w)) x ended (tables (session w')).
Proof.
  intros Hwf. unfold process_completion, mbind, ES_bind, gets, of_result.
  destruct (active w !! run) as [a|] eqn:Ha; cbn [ok_or]; [|intros [= <- <-]; by left].
  destruct (bytes_eqb _ _ && _) eqn:Hkey; cbn [check]; [|intros [= <- <-]; by left].
  apply andb_true_iff in Hkey as [Hrun%bool_decide_eq_true Hn%Z.eqb_eq].
  destruct (validate_completion completion) as [text|]; [|intros [= <- <-]; by left].
  destruct boundary as [ended|]; [|intros [= <- <-]; by left].
  unfold in_session. destruct (transaction _ _ _) as [r1 s1] eqn:Ht.
  pose proof (complete_transition_spec a (bool_decide (run ∈ cancellations w)) completion text ended entered _ Hwf) as Hspec.
  cbn beta zeta in Hspec. apply (transaction_tables _ _ _ _ _ _ _ eq_refl Hspec) in Ht. rewrite Hrun, Hn in Ht.
  destruct Ht as [[Hsame Hno]|(v & -> & _ & Hstop & _ & Hsucc)].
  - destruct r1 as [e|]; [by specialize (Hno _ eq_refl)|]. intros [= <- <-]. by left.
  - intros [= <- <-]. right. by exists v, a, ended.
Qed.

(** ** Cancellations *)

Lemma find_run_for_cancel_reads run : reads (find_run_for_cancel run).
Proof. unfold find_run_for_cancel. reads_solve. Qed.

Lemma in_session_reads {A} (m : ES Session A) w r w' :
  reads m → in_session m w = (r, w') → tables (session w') = tables (session w) ∧ active w' = active w.
Proof.
  intros Hm. unfold in_session. destruct (m (session w)) as [x s] eqn:Hs. apply Hm in Hs. by intros [= <- <-].
Qed.

(** A request to the executor changes nothing; a pending run ends at once. *)
Lemma cancel_run_spec run boundary w r w' :
  wf (tables (session w)) → cancel_run run boundary w = (r, w') →
  active w' = active w ∧
  (tables (session w') = tables (session w) ∧ (∀ v, r = success v → v.2 = CancelRequested) ∨
   ∃ v x ended, r = success (v, CancelCompleted) ∧ boundary = success ended ∧
     wf (tables (session w')) ∧ attempts (tables (session w')) = attempts (tables (session w)) ∧
     runs (tables (session w)) !! run = Some x ∧ has_successor (tables (session w)) x ended (tables (session w'))).
Proof.
  intros Hwf.
  assert (Hno : ∀ (e : Error) (v : JobRun * CancelDisposition), failure e = success v → v.2 = CancelRequested) by done.
  unfold cancel_run. unfold mbind at 1, ES_bind at 1.
  destruct (in_session (find_run_for_cancel run) w) as [found w1] eqn:H1.
  apply in_session_reads in H1 as [Ht1 Ha1]; [|apply find_run_for_cancel_reads].
  destruct found as [found|e]; [|intros [= <- <-]; by eauto]. rewrite <- Ht1 in Hwf.
  rewrite <- Ht1, <- Ha1. clear w Ht1 Ha1. rename w1 into w.
  destruct found as [x|]; unfold mbind at 1, ES_bind at 1, of_result at 1; cbn [ok_or];
    [|intros [= <- <-]; by eauto].
  destruct (bool_decide (run_state x = RunRunning)).
  - unfold mbind, ES_bind, gets, of_result. destruct (active w !! run) as [a|]; cbn [ok_or]; [|intros [= <- <-]; by eauto].
    destruct (in_session (find_active_attempt run) w) as [d w1] eqn:H1.
    apply in_session_reads in H1 as [Ht1 Ha1]; [|apply find_active_attempt_reads]. rewrite <- Ht1, <- Ha1.
    destruct d as [d|e]; [|intros [= <- <-]; by eauto].
    destruct (bool_decide (d = _)); cbn [check]; [|intros [= <- <-]; by eauto].
    assert (∀ v, @success Error _ (x, CancelRequested) = success v → v.2 = CancelRequested) by (by intros ? [= <-]).
    destruct (bool_decide (run ∈ _)); [intros [= <- <-]; by eauto|].
    destruct (executor_cancel _); intros [= <- <-]; by eauto.
  - destruct (bool_decide (run_state x = RunScheduled) || bool_decide (run_state x = RunRetryWait)) eqn:Hp; cbn [negb];
      [|intros [= <- <-]; by eauto].
    unfold mbind, ES_bind, of_result. destruct boundary as [ended|]; [|intros [= <- <-]; by eauto].
    destruct (serialize_json cancellation_result) as [text|]; [|intros [= <- <-]; by eauto].
    unfold in_session. destruct (transaction _ _ _) as [r1 s1] eqn:Ht.
    assert (Hexp : run_state x = RunScheduled ∨ run_state x = RunRetryWait).
    { apply orb_true_iff in Hp as [Hp|Hp]; apply bool_decide_eq_true in Hp; auto. }
    apply (transaction_tables _ _ _ _ _ _ _ eq_refl (cancel_transition_spec run (run_state x) text ended _ Hwf Hexp)) in Ht.
    destruct Ht as [[Hsame Hkeep]|(v & -> & _ & Hwf' & Hatt & Hx & Hsucc)].
    + destruct r1 as [v|e]; [by specialize (Hkeep _ eq_refl)|]. intros [= <- <-]. eauto.
    + intros [= <- <-]. split; [done|]. right. by eexists _, v, ended.
Qed.

(** ** Any order, any failures *)

Lemma step_consistent w w' : step w w' → consistent w → consistent w'.
Proof.
  intros Hstep [Hwf Hagree]. destruct Hstep as [run at_ r s' Hd|run c b e r w' Hc|run b r w' Hc].
  - apply dispatch_selected_spec in Hd; [|done].
    destruct Hd as [[Hsame Hno]|(start & c & -> & Hclaim & Hkey)].
    + split; cbn [session]; [by rewrite Hsame|]. unfold agree. cbn [session active]. rewrite Hsame.
      destruct r as [[start|]|]; [by edestruct Hno|done..].
    + split; cbn [session]; [by apply Hclaim|]. intros k m. cbn [session active remember].
      destruct (running_claimed _ _ _ _ k m Hwf Hclaim) as [-> Hnone]. rewrite Hkey. cbn [key_attempt].
      destruct (decide (k = run)) as [->|Hne].
      * rewrite lookup_insert_eq. split; [intros [?|[_ ->]]; [by edestruct Hnone|by eexists]|].
        intros (a & [= <-] & <-). by right.
      * rewrite lookup_insert_ne by done. rewrite (Hagree k m). naive_solver.
  - apply process_completion_spec in Hc; [|done].
    destruct Hc as [(Hsame & Hact & _)|(ef & a & ended & _ & _ & Ha & Hact & [Hwf' Hrun] & _)].
    + split; [by rewrite Hsame|]. unfold agree. by rewrite Hsame, Hact.
    + split; [done|]. intros k m. rewrite Hrun, Hact, (Hagree k m). destruct (decide (k = run)) as [->|Hne].
      * rewrite lookup_delete_eq. split; [|by intros (? & ? & _)].
        intros [(a' & Ha' & <-) Hdiff]. simplify_eq.
      * rewrite lookup_delete_ne by done. naive_solver.
  - apply cancel_run_spec in Hc as [Hact [[Hsame _]|(v & x & ended & _ & _ & Hwf' & Hatt & _)]]; [| |done].
    + split; [by rewrite Hsame|]. unfold agree. by rewrite Hsame, Hact.
    + split; [done|]. unfold agree, running_in. rewrite Hatt, Hact. exact Hagree.
Qed.

Lemma steps_consistent w w' : rtc step w w' → consistent w → consistent w'.
Proof. induction 1 as [|w w1 w' Hstep _ IH]; [done|]. intros Hw. by eapply IH, step_consistent. Qed.

End Steps.

Section Claims.
Context `{Environment} `{Runner}.

(** From a consistent start, and through any sequence of starts,
    completions and cancellations with any database, clock, generator, codec
    or executor failures among them, the store keeps its invariant (attempts
    numbered from one without gaps and fitting their run's state, at most one
    live run of a kind per definition, finished definitions without work) and
    the scheduler's memory holds exactly the attempts the store says are
    running, with their numbers. *)
Theorem scheduler_consistent (w w' : Runtime) : consistent w → rtc step w w' → consistent w'.
Proof. intros Hw Hsteps. by eapply steps_consistent. Qed.

(** The end of a run at a time: its last completion, or its cancellation
    while it was pending. *)
Inductive ends (w : Runtime) (run : bytes) (ended : Z) (w' : Runtime) : Prop :=
  | ends_completed completion entered effect finished :
      process_completion run completion (success ended) entered w = (success effect, w') →
      following effect = FollowFinished finished → ends w run ended w'
  | ends_cancelled x :
      cancel_run run (success ended) w = (success (x, CancelCompleted), w') → ends w run ended w'.

(** C6.  When the scheduled run of a recurring definition ends, by completion
    or by cancellation, the same transaction leaves the definition with
    exactly one live scheduled run: a new one, with the definition's current
    revision, type, priority, attributes and payload, at the occurrence that
    the cron engine names as the first after both the end and the ended run's
    planned time, and strictly after both. *)
Theorem recurring_run_succeeded (w w' : Runtime) run ended x j schedule :
  consistent w → ends w run ended w' →
  runs (tables (session w)) !! run = Some x → schedule_owned x = true →
  jobs (tables (session w)) !! run_job x = Some j → job_state j ≠ JobDeleted → job_schedule j = Cron schedule →
  ∃ id next e e',
    next_after e schedule (Z.max ended (planned_at x)) = (success next, e') ∧
    ended < next ∧ planned_at x < next ∧
    runs (tables (session w)) !! id = None ∧
    runs (tables (session w')) !! id = Some (scheduled_row (occurrence id j next)) ∧
    ∀ k y, runs (tables (session w')) !! k = Some y → run_job y = run_job x → schedule_owned y = true →
      is_live_run (run_state y) = true → k = id.
Proof.
  intros [Hwf _] Hends Hx Hown Hj Hdel Hcron.
  cut (has_successor (tables (session w)) x ended (tables (session w'))).
  { intros Hs. destruct (Hs Hown j schedule Hj Hdel Hcron) as (id & next & e & e' & Hnext & Hlt & Hid & Hin & Hone).
    exists id, next, e, e'. split_and!; try done; lia. }
  destruct Hends as [completion entered effect finished Hc Hf|v Hc].
  - apply process_completion_spec in Hc; [|done].
    destruct Hc as [(_ & _ & Hno)|(? & a & ? & [= <-] & [= <-] & _ & _ & _ & Hs)]; [by edestruct Hno|].
    destruct (Hs _ Hf) as (x' & Hx' & ?). by simplify_eq.
  - apply cancel_run_spec in Hc as [_ [[_ Hno]|(? & x' & ? & _ & [= <-] & _ & _ & Hx' & ?)]]; [|by simplify_eq|done].
    by specialize (Hno _ eq_refl).
Qed.

End Claims.

(** ** A small world *)

Module Sample.

Definition minute : Z := 60000000000.

(** An engine whose schedules all recur every minute. *)
#[global] Instance engine_sample : CronEngine unit := {|
  validate e _ := (success tt, e);
  next_after e _ lower := (success ((lower / minute + 1) * minute), e) |}.

#[global] Instance environment_sample : Environment := {|
  Engine := unit;
  fault _ := None; constraint_message := "constraint failed";
  generate n := success [100; Z.of_nat n];
  serialize_json _ := success [123; 125];
  unreadable_queue _ := None; unreadable_job _ := None; unreadable_run _ := None; unreadable_attempt _ := None;
  unwritable_run _ := None;
  measurement_at _ := InitialUnmeasured;
  settle_scope _ _ _ x := success x; reconcile_scope _ _ _ x := success x |}.

#[global] Instance runner_sample : Runner := {|
  is_available _ := true;
  prepare_payload r := Prepared (run_payload r);
  claim_run _ _ x := success (None, x);
  executor_start _ _ _ := success tt;
  acceptance_clock := Some 5;
  executor_cancel _ := success tt |}.

Definition schedule : CronSchedule := mkSchedule [42] [85; 84; 67].
Definition queue : Queue :=
  mkQueueRow [1] 1 [113] QueueActive 1 1 RetryInterrupted ∅ None 0 0 0 None.
Definition job : JobDefinition :=
  mkJob [2] [1] 1 None JobActive Cli (Cron schedule) 0 sample_attributes JsonNull 0 0 None.
Definition run : JobRun := occurrence [3] job minute.

Definition world : Runtime :=
  mkRuntime (mkSession (mkTables {[ [1] := queue ]} {[ [2] := job ]} {[ [3] := run ]} ∅ ∅) {[ [3] := mkTiming 0 Unmeasured None None false ]}
    (mkSide ∅ ∅ ∅) tt 0 0) ∅ ∅.

Definition start : result Error (option DispatchStart) * Session := dispatch_selected [3] (2 * minute) (session world).
Definition started : Runtime := mkRuntime start.2 (remember [3] start.1 ∅) ∅.

Definition completion : AttemptCompletion :=
  mkAttemptCompletion (mkKey [3] 1) Succeeded None None (JsonObject []) None.

Definition finish : result Error CompletionEffect * Runtime :=
  process_completion [3] completion (success (3 * minute)) 0 started.
Definition completed : Runtime := finish.2.

Definition is_final (r : result Error CompletionEffect) : bool :=
  match r with
  | success e => match following e with FollowFinished _ => true | FollowRetry _ => false end
  | failure _ => false
  end.

Lemma world_consistent : consistent world.
Proof.
  assert (Hno : ∀ kn, attempts (tables (session world)) !! kn = None) by (intros; apply lookup_empty).
  assert (Hruns : ∀ k r, runs (tables (session world)) !! k = Some r → k = [3] ∧ r = run).
  { unfold world. cbn [session tables runs]. by intros k r [<- <-]%lookup_singleton_Some. }
  assert (Hjobs : ∀ k j, jobs (tables (session world)) !! k = Some j → k = [2] ∧ j = job).
  { unfold world. cbn [session tables jobs]. by intros k j [<- <-]%lookup_singleton_Some. }
  split; [split|].
  - by intros k r [-> ->]%Hruns.
  - by intros k j [-> ->]%Hjobs.
  - unfold world. cbn [session tables queues]. by intros k q [<- <-]%lookup_singleton_Some.
  - intros k a Ha. by rewrite Hno in Ha.
  - intros k r [-> ->]%Hruns. split_and!; done.
  - by intros k r [-> ->]%Hruns.
  - intros k r [-> ->]%Hruns. split; eexists; apply lookup_singleton_eq.
  - intros k n [a Ha]. by rewrite Hno in Ha.
  - intros k. split; [intros n [a Ha]|intros n _ [a Ha]]; by rewrite Hno in Ha.
  - intros k r [-> ->]%Hruns n. apply Hno.
  - by intros k1 k2 r1 r2 [-> ->]%Hruns [-> ->]%Hruns.
  - by intros k j [-> ->]%Hjobs.
  - intros k r j [-> ->]%Hruns _ Hj. apply Hjobs in Hj as [_ ->]. done.
  - intros k j [-> ->]%Hjobs. exists queue. split; [apply lookup_singleton_eq|done].
  - intros k n. split; [|by intros (a & ? & _)]. intros (a & Ha & _). by rewrite Hno in Ha.
Qed.

Lemma world_starts : step world started.
Proof. apply (step_start world [3] (2 * minute) start.1 start.2), surjective_pairing. Qed.

Lemma started_completes : step started completed.
Proof. eapply (step_complete started [3] completion (success (3 * minute)) 0), surjective_pairing. Qed.

(** A start and its completion. *)
Lemma scheduler_consistent_witness :
  active_number <$> active started !! [3] = Some 1 ∧ active completed !! [3] = None ∧ consistent completed.
Proof.
  split_and!; [vm_compute; reflexivity..|]. apply (scheduler_consistent world completed).
  - apply world_consistent.
  - eapply rtc_l; [apply world_starts|]. eapply rtc_l; [apply started_completes|]. apply rtc_refl.
Defined.

Lemma started_ends : ends started [3] (3 * minute) completed.
Proof.
  assert (Hf : is_final finish.1 = true) by (vm_compute; reflexivity). revert Hf. unfold completed.
  assert (Hr : process_completion [3] completion (success (3 * minute)) 0 started = finish) by reflexivity. revert Hr.
  generalize finish. intros [r w] Hr. cbn [fst snd]. destruct r as [e|]; [|discriminate]. cbn [is_final].
  destruct (following e) as [|f] eqn:Hf; [discriminate|]. intros _. exact (ends_completed _ _ _ _ _ _ _ _ Hr Hf).
Qed.

Lemma started_consistent : consistent started.
Proof. apply (step_consistent world), world_consistent. apply world_starts. Qed.

(** The run of minute one ends in minute three; the next one is due in
    minute four. *)
Lemma recurring_run_succeeded_witness :
  ∃ x id next, runs (tables (session started)) !! [3] = Some x ∧ Z.max (3 * minute) (planned_at x) < next ∧
    runs (tables (session completed)) !! id = Some (scheduled_row (occurrence id job next)) ∧
    next = 4 * minute.
Proof.
  destruct (recurring_run_succeeded started completed [3] (3 * minute)
              (run_with RunRunning (runnable_at run) (Some (2 * minute)) None None run) job schedule)
    as (id & next & e & e' & Hnext & H1 & H2 & _ & Hin & _).
  - apply started_consistent.
  - apply started_ends.
  - vm_compute; reflexivity.
  - reflexivity.
  - vm_compute; reflexivity.
  - discriminate.
  - reflexivity.
  - exists (run_with RunRunning (runnable_at run) (Some (2 * minute)) None None run), id, next.
    split_and!; [vm_compute; reflexivity| |exact Hin|].
    + apply Z.max_lub_lt; [exact H1|exact H2].
    + injection Hnext as <- _. reflexivity.
Defined.

End Sample.
