(* ===== verification/RecoveryLogic.v ===== *)
(** * Reasoning about recovery

    Which operations of [RecoveryRepository] only read; [maintains I m]: the
    property [I] of the tables survives [m] whatever its result; and
    [yields m t Q]: [Q] of the value and the tables when [m] succeeds.  A scan
    that succeeds has visited every key of its table. *)

From stdpp Require Import base numbers strings list gmap sets.
From S2P Require Import Prelude Effects Values OutputCapture RetryPolicy CronEngine Domain StorageFailure Storage.
From S2P Require Import WaitRepository SchedulerRepository Lifecycle Completion RecoveryRepository Recovery Keyset.
From S2P Require Import StoreLogic StoreInvariant.
Local Open Scope Z_scope.

Section Repository.
Context `{Environment}.

Lemma on_error_reads {A} g (m : ES Session A) : reads m → reads (on_error g m).
Proof.
  intros Hm s r s'. unfold on_error. destruct (m s) as [[v|e] s1] eqn:Hs; apply Hm in Hs; by intros [= <- <-].
Qed.

Lemma tx_on_error {A} g (m : ES Session A) t Q : tx m t Q → tx (on_error g m) t Q.
Proof. apply tx_rethrow. Qed.

(** Two lookups whose failures are judged after both. *)
Lemma tx_both {A B C} (m1 : ES Session A) (m2 : ES Session B) (k : A → B → ES Session C) t Q :
  reads m1 → reads m2 → tx m1 t (λ x _, tx m2 t (λ y _, tx (k x y) t Q)) →
  tx (a ← attempted m1; b ← attempted m2; x ← of_result (looked_up a); y ← of_result (looked_up b); k x y) t Q.
Proof.
  intros H1 H2 Hm s v s' Hs. unfold mbind, ES_bind, attempted, of_result.
  destruct (m1 s) as [r1 s1] eqn:E1. destruct (m2 s1) as [r2 s2] eqn:E2.
  destruct r1 as [x|e]; [|done]. destruct r2 as [y|e]; [|done]. cbn [looked_up]. intros Hk.
  pose proof (H1 _ _ _ E1) as T1. pose proof (H2 _ _ _ E2) as T2.
  apply (Hm s x s1 Hs E1 s1 y s2 ltac:(congruence) E2 s2 v s' ltac:(congruence) Hk).
Qed.

#[local] Hint Resolve on_error_reads : reads.

Lemma validate_run_timing_reads r : reads (validate_run_timing r).
Proof. unfold validate_run_timing. reads_solve. Qed.
Lemma find_queue_reads id : reads (find_queue id).
Proof. unfold find_queue. reads_solve. Qed.
Lemma validate_barriers_reads j : reads (validate_barriers j).
Proof. unfold validate_barriers. reads_solve. Qed.
Lemma validate_attempt_output_reads key : reads (validate_attempt_output key).
Proof. unfold validate_attempt_output. reads_solve. Qed.
Lemma find_owners_reads r : reads (find_owners r).
Proof. unfold find_owners. reads_solve. Qed.
#[local] Hint Resolve validate_run_timing_reads find_queue_reads validate_barriers_reads validate_attempt_output_reads
  find_owners_reads : reads.
Lemma validate_history_reads r : reads (validate_history r).
Proof. unfold validate_history. reads_solve. Qed.
#[local] Hint Resolve validate_history_reads : reads.
Lemma find_run_reads id : reads (find_run id).
Proof. unfold find_run. reads_solve. Qed.
Lemma find_scanned_attempt_reads key : reads (find_scanned_attempt key).
Proof. unfold find_scanned_attempt. reads_solve. Qed.
Lemma find_scanned_job_reads id : reads (find_scanned_job id).
Proof. unfold find_scanned_job. reads_solve. Qed.
Lemma lookups_reads {K A} (f : K → ES Session A) keys : (∀ k, reads (f k)) → reads (lookups f keys).
Proof. intros Hf. induction keys as [|k keys IH]; simpl; reads_solve. Qed.
Lemma scan_ids_reads keys limit after : reads (scan_ids keys limit after).
Proof. unfold scan_ids. reads_solve. Qed.
Lemma scan_keys_reads keys limit after : reads (scan_keys keys limit after).
Proof. unfold scan_keys. reads_solve. Qed.
Lemma read_nonterminal_reads j : reads (read_nonterminal_runs j).
Proof. unfold read_nonterminal_runs. reads_solve. Qed.

End Repository.

#[export] Hint Resolve on_error_reads validate_run_timing_reads find_queue_reads validate_barriers_reads
  validate_attempt_output_reads find_owners_reads find_run_reads find_scanned_attempt_reads find_scanned_job_reads
  lookups_reads scan_ids_reads scan_keys_reads read_nonterminal_reads : reads.

(** ** Recovery *)

Section Recoveries.
Context `{Environment} `{Startup}.
Abbreviation Rec := (ES RecoveryState).

Lemma in_store_tables {A} (m : ES Session A) w r w' :
  in_store m w = (r, w') → ∃ s, m (store w) = (r, s) ∧ store w' = s.
Proof. unfold in_store. destruct (m (store w)) as [x s]. intros [= <- <-]. by eexists. Qed.

Lemma check_stop_store w r w' : check_stop w = (r, w') → store w' = store w.
Proof. unfold check_stop. destruct (should_stop _); by intros [= <- <-]. Qed.

(** A transaction leaves the tables it found, or has succeeded. *)
Lemma transact_tables repair t (Q : RecoveryReport → Tables → Prop) w r w' :
  tables (store w) = t → tx repair t Q → transact repair w = (r, w') →
  tables (store w') = t ∧ (∃ e, r = failure e) ∨ r = success tt ∧ ∃ d, Q d (tables (store w')).
Proof.
  intros Ht Hq. unfold transact.
  destruct (statement (store w)) as [[[]|e] s] eqn:H1; apply statement_tables in H1 as [H1 _];
    [|intros [= <- <-]; left; split; [cbn; congruence|by eexists]].
  assert (Hun : ∀ e s p q, unwind w e s p q = (r, w') → tables (store w') = t ∧ ∃ e, r = failure e).
  { intros e s' p q. unfold unwind. destruct (statement s') as [x s2]. intros [= <- <-]. split; [done|by eexists]. }
  destruct (repair s) as [[d|e] s2] eqn:H2; cbn [mbind result_bind]; [|intros ?%Hun; by left].
  destruct (accumulate_report (report w) d) as [next|e]; [|intros ?%Hun; by left].
  destruct (should_stop _); [intros ?%Hun; by left|].
  destruct (statement s2) as [[[]|e] s3] eqn:H3; apply statement_tables in H3 as [H3 _]; [|intros ?%Hun; by left].
  intros [= <- <-]. right. split; [done|]. exists d. cbn. rewrite H3. apply (Hq s d s2); [congruence|done].
Qed.

(** *** Invariants *)

Definition maintains (I : Tables → Prop) {A} (m : Rec A) : Prop :=
  ∀ w r w', I (tables (store w)) → m w = (r, w') → I (tables (store w')).

Section Maintains.
Variable I : Tables → Prop.

Lemma maintains_ret {A} (v : A) : maintains I (mret v).
Proof. by intros w r w' HI [= <- <-]. Qed.
Lemma maintains_throw {A} e : maintains I (throw e : Rec A).
Proof. by intros w r w' HI [= <- <-]. Qed.
Lemma maintains_gets {A} (f : RecoveryState → A) : maintains I (gets f).
Proof. by intros w r w' HI [= <- <-]. Qed.
Lemma maintains_bind {A B} (m : Rec A) (k : A → Rec B) :
  maintains I m → (∀ v, maintains I (k v)) → maintains I (m ≫= k).
Proof.
  intros Hm Hk w r w' HI. unfold mbind, ES_bind. destruct (m w) as [[v|e] w1] eqn:Hw; pose proof (Hm _ _ _ HI Hw).
  - intros Hr. by eapply Hk.
  - by intros [= <- <-].
Qed.
Lemma maintains_in_store {A} (m : ES Session A) : reads m → maintains I (in_store m).
Proof. intros Hm w r w' HI (s & Hs & <-)%in_store_tables. apply Hm in Hs. by rewrite Hs. Qed.
Lemma maintains_check_stop : maintains I check_stop.
Proof. intros w r w' HI Hw%check_stop_store. by rewrite Hw. Qed.
Lemma maintains_utc_now : maintains I utc_now.
Proof. by intros w r w' HI [= <- <-]. Qed.
Lemma maintains_refuse b reason : maintains I (refuse b reason).
Proof. unfold refuse. destruct b; [apply maintains_throw|apply maintains_ret]. Qed.

Lemma maintains_and_then {A B} (m : Rec (option A)) (k : A → Rec (option B)) :
  maintains I m → (∀ v, maintains I (k v)) → maintains I (and_then m k).
Proof. intros Hm Hk. apply maintains_bind; [done|]. intros [v|]; [apply Hk|apply maintains_ret]. Qed.

Lemma maintains_finishing {A} (m : Rec A) : maintains I m → maintains I (finishing m).
Proof. intros Hm. apply maintains_bind; [done|]. intros v. apply maintains_ret. Qed.

Lemma maintains_commit_unit repair :
  (∀ t, I t → tx repair t (λ _, I)) → maintains I (commit_unit repair).
Proof.
  intros Hrep. apply maintains_bind; [apply maintains_check_stop|]. intros _ w r w' HI Hw.
  apply (transact_tables _ _ _ _ _ _ eq_refl (Hrep _ HI)) in Hw as [[-> _]|(_ & d & ?)]; done.
Qed.

Lemma maintains_visit_all {A} (visit : A → Rec unit) rows :
  (∀ v, maintains I (visit v)) → maintains I (visit_all visit rows).
Proof.
  intros Hv. induction rows as [|v rows IH]; [apply maintains_ret|]. apply maintains_bind; [apply Hv|by intros _].
Qed.

Lemma maintains_visit_pages {K A} fuel (read : option K → ES Session (list A)) key_of visit after :
  (∀ after, reads (read after)) → (∀ v, maintains I (visit v)) →
  maintains I (visit_pages fuel read key_of visit after).
Proof.
  intros Hr Hv. revert after. induction fuel as [|fuel IH]; intros after; [apply maintains_ret|].
  apply maintains_bind; [apply maintains_check_stop|]. intros _.
  apply maintains_bind; [by apply maintains_in_store|]. intros rows.
  destruct (last rows); [|apply maintains_finishing, maintains_check_stop].
  apply maintains_bind; [by apply maintains_visit_all|]. by intros _.
Qed.

End Maintains.

(** *** Results *)

Definition yields {A} (m : Rec A) (t : Tables) (Q : A → Tables → Prop) : Prop :=
  ∀ w v w', tables (store w) = t → m w = (success v, w') → Q v (tables (store w')).

Lemma yields_ret {A} (v : A) t (Q : A → Tables → Prop) : Q v t → yields (mret v) t Q.
Proof. by intros HQ w v' w' <- [= <- <-]. Qed.
Lemma yields_bind {A B} (m : Rec A) (k : A → Rec B) t Q :
  yields m t (λ v t', yields (k v) t' Q) → yields (m ≫= k) t Q.
Proof.
  intros Hm w v w' Hw. unfold mbind, ES_bind. destruct (m w) as [[x|] w1] eqn:Hx; [|done].
  by apply (Hm w x w1 Hw Hx).
Qed.
Lemma yields_mono {A} (m : Rec A) t (Q Q' : A → Tables → Prop) :
  (∀ v t', Q v t' → Q' v t') → yields m t Q → yields m t Q'.
Proof. intros HQ Hm w v w' Hw Hv. eauto. Qed.
Lemma yields_in_store {A} (m : ES Session A) t Q : tx m t Q → yields (in_store m) t Q.
Proof. intros Hm w v w' Hw (s & Hs & <-)%in_store_tables. by eapply Hm. Qed.
Lemma yields_check_stop t (Q : unit → Tables → Prop) : Q tt t → yields check_stop t Q.
Proof. intros HQ w [] w' <- Hw%check_stop_store. by rewrite Hw. Qed.
Lemma yields_refuse b reason t (Q : unit → Tables → Prop) : (b = false → Q tt t) → yields (refuse b reason) t Q.
Proof. intros HQ. unfold refuse. destruct b; [by intros w v w' _|apply yields_ret; auto]. Qed.
Lemma yields_finishing {A} (m : Rec A) t (Q : option A → Tables → Prop) :
  yields m t (λ v, Q (Some v)) → yields (finishing m) t Q.
Proof. intros Hm. apply yields_bind. eapply yields_mono; [|done]. intros v t' HQ. by apply yields_ret. Qed.
Lemma yields_and_then {A B} (m : Rec (option A)) (k : A → Rec (option B)) t Q :
  yields m t (λ v t', match v with None => Q None t' | Some v => yields (k v) t' Q end) → yields (and_then m k) t Q.
Proof. intros Hm. apply yields_bind. eapply yields_mono; [|done]. intros [v|] t' HQ; [done|by apply yields_ret]. Qed.

(** The tables as they were, and [P]. *)
Definition observes {A} (m : Rec A) (t : Tables) (P : A → Prop) : Prop := yields m t (λ v t', t' = t ∧ P v).

Lemma observes_bind {A B} (m : Rec A) (k : A → Rec B) t (P : A → Prop) (Q : B → Prop) :
  observes m t P → (∀ v, P v → observes (k v) t Q) → observes (m ≫= k) t Q.
Proof. intros Hm Hk. apply yields_bind. eapply yields_mono; [|done]. intros v t' [-> HP]. by apply Hk. Qed.
Lemma observes_and_then {A B} (m : Rec (option A)) (k : A → Rec (option B)) t (P : option A → Prop) (Q : option B → Prop) :
  observes m t P → Q None → (∀ v, P (Some v) → observes (k v) t Q) → observes (and_then m k) t Q.
Proof.
  intros Hm HN Hk. apply yields_and_then. eapply yields_mono; [|done]. intros [v|] t' [-> HP]; [by apply Hk|done].
Qed.
Lemma observes_visit_all {A} (visit : A → Rec unit) rows t (V : A → Prop) :
  (∀ v, observes (visit v) t (λ _, V v)) → observes (visit_all visit rows) t (λ _, Forall V rows).
Proof.
  intros Hv. induction rows as [|v rows IH]; [by apply yields_ret|]. eapply observes_bind; [apply Hv|].
  intros u HV. eapply yields_mono; [|apply IH]. intros _ t' [-> ?]. split; [done|by constructor].
Qed.

Section Scans.
Context {K A : Type} (before : K → K → bool) `{!StrictTotal before}.

(** The rows of a page are the values of its keys. *)
Definition page_rows (keys : list K) (key_of : A → K) (P : K → A → Prop) limit after rows : Prop :=
  Forall2 (λ k v, P k v ∧ key_of v = k) (page before limit after keys) rows.

Lemma observes_visit_pages fuel read (key_of : A → K) visit t keys limit (P : K → A → Prop) (V : A → Prop) after :
  (0 < limit)%nat →
  (∀ after, tx (read after) t (λ rows t', t' = t ∧ page_rows keys key_of P limit after rows)) →
  (∀ v, observes (visit v) t (λ _, V v)) →
  observes (visit_pages fuel read key_of visit after) t
    (λ r, r = Some tt → ∀ k, k ∈ keys → beyond before after k → ∃ v, P k v ∧ V v).
Proof.
  intros Hl Hread Hvisit. revert after. induction fuel as [|fuel IH]; intros after; [by apply yields_ret|].
  eapply (observes_bind _ _ _ (λ _, True)); [by apply yields_check_stop|]. intros _ _.
  eapply observes_bind; [apply yields_in_store, Hread|]. intros rows Hrows. unfold page_rows in Hrows.
  assert (Hnext : ∀ k, k ∈ keys → beyond before after k → k ∈ page before limit after keys ∨
            ∃ b, last (page before limit after keys) = Some b ∧ before b k = true).
  { intros k Hk Hb. destruct (page_complete before limit after keys k Hl Hk Hb) as [?|(b & Hlast & [?| ->])]; eauto.
    left. by apply last_Some_elem_of. }
  destruct (last rows) as [back|] eqn:Hback.
  - eapply observes_bind; [apply observes_visit_all, Hvisit|]. cbn beta. intros u HV.
    eapply yields_mono; [|apply IH]. intros r t' [-> Hrest]. split; [done|]. intros Hr k Hk Hb.
    destruct (Hnext k Hk Hb) as [Hin|(b & Hlast & Hafter)].
    + apply list_elem_of_lookup in Hin as [i Hi]. destruct (Forall2_lookup_l _ _ _ _ _ Hrows Hi) as (v & Hv & HP & _).
      exists v. split; [done|]. by eapply Forall_lookup_1.
    + apply Hrest; [done|done|]. cbn. rewrite last_lookup in Hlast. rewrite last_lookup in Hback.
      rewrite (Forall2_length _ _ _ Hrows) in Hlast.
      destruct (Forall2_lookup_l _ _ _ _ _ Hrows Hlast) as (v & Hv & _ & Hkey). congruence.
  - apply yields_finishing, yields_check_stop. split; [done|]. intros _ k Hk Hb.
    apply last_None in Hback as ->. inversion Hrows as [Hp|]. rewrite <- Hp in Hnext.
    destruct (Hnext k Hk Hb) as [?%elem_of_nil|(b & ? & _)]; done.
Qed.

End Scans.

End Recoveries.
