(* ===== verification/RecoverySound.v ===== *)
(** * What a successful validation proves

    A store that the final validation of recovery accepts satisfies the whole
    invariant of [StoreInvariant], whatever it was before: the scans visit
    every row and the aggregates over attempts determine their numbering. *)

From stdpp Require Import base numbers strings list gmap sets.
From S2P Require Import Prelude Effects Values OutputCapture RetryPolicy CronEngine Domain StorageFailure Storage.
From S2P Require Import WaitRepository SchedulerRepository Lifecycle Completion RecoveryRepository Recovery Keyset.
From S2P Require Import StoreLogic StoreInvariant RecoveryLogic.
Local Open Scope Z_scope.

(** Rows carry their primary key. *)
Record keyed (t : Tables) : Prop := {
  keyed_run k r : runs t !! k = Some r → run_id r = k;
  keyed_job k j : jobs t !! k = Some j → job_id j = k;
  keyed_queue k q : queues t !! k = Some q → row_queue_id q = k;
  keyed_attempt k a : attempts t !! k = Some a → (attempt_run a, attempt_number a) = k }.

(** ** Counting *)

Lemma count_attempts_zero run p t :
  count_attempts run p t = 0 → ∀ n a, attempts t !! (run, n) = Some a → p a = false.
Proof.
  unfold count_attempts. intros Hc n a Ha. destruct (p a) eqn:Hp; [|done]. exfalso.
  assert (Hs : size (filter (λ ka : bytes * Z * JobAttempt, ka.1.1 = run ∧ p ka.2 = true) (attempts t)) = 0%nat) by lia.
  apply map_size_empty_inv in Hs. rewrite map_empty in Hs. specialize (Hs (run, n)).
  rewrite map_lookup_filter_None in Hs. destruct Hs as [Hs|Hs]; [congruence|]. by apply (Hs a Ha).
Qed.

Lemma invalid_prior_zero run t n a :
  invalid_prior (attempt_history run t) = 0 → attempts t !! (run, n) = Some a →
  n < history_latest (attempt_history run t) → is_retry_history a = true.
Proof.
  unfold attempt_history. cbn [invalid_prior history_latest]. set (latest := default 0 _). intros Hc Ha Hn.
  destruct (is_retry_history a) eqn:Hp; [done|]. exfalso.
  assert (Hs : size (filter (λ ka : bytes * Z * JobAttempt,
    ka.1.1 = run ∧ ka.1.2 < latest ∧ is_retry_history ka.2 = false) (attempts t)) = 0%nat) by lia.
  apply map_size_empty_inv in Hs. rewrite map_empty in Hs. specialize (Hs (run, n)).
  rewrite map_lookup_filter_None in Hs. destruct Hs as [Hs|Hs]; [congruence|]. by apply (Hs a Ha).
Qed.

(** Positive and distinct numbers, as many as the largest, have no gaps. *)
Lemma counted_numbers (l : list Z) m :
  NoDup l → (∀ n, n ∈ l → 0 < n <= m) → Z.of_nat (length l) = m → ∀ n, 0 < n <= m → n ∈ l.
Proof.
  intros Hnd Hin Hlen n Hn.
  assert (Hsub : (list_to_set l : gset Z) = list_to_set (seqZ 1 m)).
  { apply set_subseteq_size_eq.
    - intros x. rewrite !elem_of_list_to_set, elem_of_seqZ. intros Hx%Hin. lia.
    - rewrite !size_list_to_set by (done || apply NoDup_seqZ). rewrite length_seqZ. lia. }
  assert (Hx : n ∈ (list_to_set (seqZ 1 m) : gset Z)) by (rewrite elem_of_list_to_set, elem_of_seqZ; lia).
  rewrite <- Hsub in Hx. by rewrite elem_of_list_to_set in Hx.
Qed.

Definition numbers_of (t : Tables) (run : bytes) : list Z :=
  map (λ ka : bytes * Z * JobAttempt, ka.1.2)
    (map_to_list (filter (λ ka : bytes * Z * JobAttempt, ka.1.1 = run ∧ true = true) (attempts t))).

Lemma numbers_of_elem t run n : n ∈ numbers_of t run ↔ is_Some (attempts t !! (run, n)).
Proof.
  unfold numbers_of. rewrite list_elem_of_fmap. split.
  - intros ([[k m] a] & -> & Hin). apply elem_of_map_to_list, map_lookup_filter_Some in Hin as [Ha [Hk _]].
    cbn in *. subst. by eexists.
  - intros [a Ha]. exists (run, n, a). split; [done|]. by apply elem_of_map_to_list, map_lookup_filter_Some.
Qed.

Lemma numbers_of_nodup t run : NoDup (numbers_of t run).
Proof.
  unfold numbers_of. apply NoDup_fmap_2_strong; [|apply NoDup_map_to_list].
  intros [[k n] a] [[k' n'] a'] Hx Hy Heq. cbn in Heq. subst n'.
  apply elem_of_map_to_list, map_lookup_filter_Some in Hx as [Ha [Hk _]].
  apply elem_of_map_to_list, map_lookup_filter_Some in Hy as [Ha' [Hk' _]]. cbn in *. subst. congruence.
Qed.

Lemma history_numbered t run :
  (∀ n, is_Some (attempts t !! (run, n)) → 0 < n) →
  history_count (attempt_history run t) = history_latest (attempt_history run t) →
  numbered (λ n, attempts t !! (run, n)).
Proof.
  intros Hpos Hc. split; [done|]. intros n Hn Hs. apply numbers_of_elem.
  unfold attempt_history in Hc. cbn [history_count history_latest] in Hc.
  pose proof (maximum_attempt_spec run t) as Hmax. unfold attempts_of in Hmax.
  destruct (maximum_attempt run t) as [m|]; [|destruct Hs as [a Ha]; by rewrite Hmax in Ha].
  destruct Hmax as [_ Hmax]. cbn in Hc. apply (counted_numbers _ m); [apply numbers_of_nodup| | |].
  - intros x Hx%numbers_of_elem. split; [by apply Hpos|by apply Hmax].
  - unfold numbers_of. rewrite length_map, length_map_to_list. exact Hc.
  - split; [done|]. specialize (Hmax _ Hs). lia.
Qed.

(** ** One run *)

(** The attempts of a run as [validate_history] checks them. *)
Definition history_valid t (r : JobRun) : Prop :=
  history_count (attempt_history (run_id r) t) = history_latest (attempt_history (run_id r) t) ∧
  attempts_of_state (run_state r) (λ n, attempts t !! (run_id r, n)).

Lemma is_retry_history_history a : is_retry_history a = true → history a.
Proof.
  unfold is_retry_history, is_completed_attempt, history. rewrite andb_true_iff, orb_true_iff, !bool_decide_eq_true. tauto.
Qed.

Lemma no_attempts t run :
  history_count (attempt_history run t) = 0 → ∀ n, attempts t !! (run, n) = None.
Proof.
  intros Hc n. destruct (attempts t !! (run, n)) as [a|] eqn:Ha; [|done].
  by apply (count_attempts_zero _ _ _ Hc) in Ha.
Qed.

Lemma latest_attempt t run :
  history_count (attempt_history run t) ≠ 0 →
  is_Some (attempts t !! (run, history_latest (attempt_history run t))) ∧
  ∀ n a, attempts t !! (run, n) = Some a → n <= history_latest (attempt_history run t).
Proof.
  unfold attempt_history. cbn [history_count history_latest]. intros Hc.
  pose proof (maximum_attempt_spec run t) as Hmax. unfold attempts_of in Hmax.
  destruct (maximum_attempt run t) as [m|]; cbn [default].
  - destruct Hmax as [H1 H2]. split; [done|]. intros n a Ha. apply H2. by eexists.
  - exfalso. apply Hc. unfold count_attempts. apply (inj_iff Z.of_nat _ 0%nat), map_size_empty_iff.
    apply map_empty. intros [k n]. apply map_lookup_filter_None. right. intros a Ha [Hk _]. cbn in Hk. subst.
    by rewrite Hmax in Ha.
Qed.

Lemma history_states t r last :
  history_ok r (attempt_history (run_id r) t) = true → history_count (attempt_history (run_id r) t) ≠ 0 →
  attempts t !! (run_id r, history_latest (attempt_history (run_id r) t)) = Some last →
  is_Some (attempts t !! (run_id r, 1)) → validate_latest r last = success tt →
  attempts_of_state (run_state r) (λ n, attempts t !! (run_id r, n)).
Proof.
  set (h := attempt_history (run_id r) t). intros Hok Hc Hlast Hfirst Hlatest.
  unfold history_ok in Hok. rewrite !andb_true_iff, !Z.eqb_eq in Hok.
  destruct Hok as ((((Hcount & Hrunning) & Hunfinished) & Hprior) & Hsched).
  destruct (latest_attempt t (run_id r) Hc) as [_ Hmax]. fold h in Hmax, Hlast.
  assert (Hhist : ∀ n a, attempts t !! (run_id r, n) = Some a → n ≠ history_latest h → history a).
  { intros n a Ha Hne. apply is_retry_history_history, (invalid_prior_zero (run_id r) t n a); [done..|].
    specialize (Hmax n a Ha). fold h. lia. }
  assert (Hdone : bool_decide (run_state r = RunRunning) = false →
            ∀ n a, attempts t !! (run_id r, n) = Some a → attempt_state a = AttemptCompleted).
  { intros Hst n a Ha. rewrite Hst in Hunfinished. apply (count_attempts_zero _ _ _ Hunfinished) in Ha.
    unfold is_completed_attempt in Ha. by apply negb_false_iff, bool_decide_eq_true in Ha. }
  unfold validate_latest in Hlatest. destruct (run_state r) eqn:Hst; cbn in Hlatest, Hsched, Hdone |- *; try (by apply Hdone).
  - exfalso. apply Hc. by apply negb_true_iff, negb_false_iff, Z.eqb_eq in Hsched.
  - apply check_true, andb_true_iff in Hlatest as [Hrun%bool_decide_eq_true _].
    exists (history_latest h), last. split_and!; [done..| |done].
    destruct (attempts t !! _) as [a|] eqn:E in |- *; [|done]. specialize (Hmax _ _ E). lia.
  - split; [done|]. intros n a Ha. destruct (decide (n = history_latest h)) as [->|Hne]; [|by eapply Hhist].
    assert (a = last) as -> by congruence. split; [by eapply Hdone|].
    destruct (is_completed_attempt last); [|done]. destruct (attempt_outcome last) as [[]|]; try done; tauto.
Qed.

Section Runs.
Context `{Environment}.
Implicit Type t : Tables.

Lemma validate_history_spec r t : tx (validate_history r) t (λ _ t', t' = t ∧ history_valid t r).
Proof.
  unfold validate_history. tx_step. apply tx_on_error, tx_query. set (h := attempt_history (run_id r) t).
  tx_step. apply tx_ensure. intros Hok.
  assert (Hcount : history_count h = history_latest h).
  { unfold history_ok in Hok. rewrite !andb_true_iff, !Z.eqb_eq in Hok. tauto. }
  destruct (history_count h =? 0) eqn:Hzero.
  - apply Z.eqb_eq in Hzero. apply tx_ensure. intros Hst. split; [done|]. split; [done|].
    pose proof (no_attempts _ _ Hzero) as Hnone. destruct (run_state r); cbn in Hst |- *; try done;
      intros m b Hb; by rewrite Hnone in Hb.
  - apply Z.eqb_neq in Hzero.
    apply tx_both; [eauto with reads..|]. apply tx_find_attempt, tx_find_attempt. cbn beta.
    destruct (attempts t !! (run_id r, 1)) as [first|] eqn:Hfirst; [|tx_step].
    destruct (attempts t !! (run_id r, history_latest h)) as [last|] eqn:Hlast; [|tx_step].
    tx_step. tx_step. tx_step. apply tx_of_result. intros [] Hlatest.
    assert (Hvalid : history_valid t r).
    { split; [done|]. eapply history_states; [done..|by rewrite Hfirst|done]. }
    intros s v s' Hs Hv. apply validate_attempt_output_reads in Hv. split; [congruence|done].
Qed.

Record run_valid t (r : JobRun) : Prop := {
  run_row : row_ok r;
  run_known_origin : run_origin r ≠ OriginSubmitted;
  run_owned_origin : schedule_owned r = bool_decide (run_origin r = OriginScheduled);
  run_owners : is_Some (jobs t !! run_job r) ∧ is_Some (queues t !! run_queue r);
  run_home j : is_live_run (run_state r) = true → jobs t !! run_job r = Some j →
    run_queue r = job_queue j ∧ job_state j ≠ JobDeleted;
  run_history : history_valid t r }.

Lemma read_job_run_ok r v : read_job_run r = success v → v = r ∧ row_ok r.
Proof.
  unfold read_job_run. intros (x & _ & (H1 & (H2 & (H3 & (H4 & [= <-])%check_bind)%check_bind)%check_bind)%check_bind)%bind_success.
  split; [done|]. apply eqb_prop in H2. split_and!; [done| |done|].
  - intros Ht. rewrite Ht in H3. by destruct (run_result r).
  - intros Hown. rewrite Hown in H1. by apply bool_decide_eq_true in H1.
Qed.

Lemma tx_find_valid_run id t (Q : option JobRun → Tables → Prop) :
  ((∀ r, runs t !! id = Some r → row_ok r) → Q (runs t !! id) t) → tx (find_run_by_id id) t Q.
Proof.
  intros HQ. unfold find_run_by_id. tx_step. tx_step. destruct (runs t !! id) as [r|] eqn:E; [|tx_step; by apply HQ].
  tx_step. apply tx_of_result. intros v [-> Hok]%read_job_run_ok. tx_step. apply HQ. by intros ? [= <-].
Qed.

Lemma tx_reads {A} (m : ES Session A) t (Q : A → Tables → Prop) : reads m → (∀ v, Q v t) → tx m t Q.
Proof. intros Hm HQ s v s' Hs Hv. apply Hm in Hv. rewrite Hv, Hs. apply HQ. Qed.

Lemma find_run_spec id t : tx (find_run id) t (λ r t', t' = t ∧ runs t !! id = Some r ∧ run_valid t r).
Proof.
  unfold find_run. tx_step. apply tx_on_error, tx_find_valid_run. intros Hrow. tx_step. apply tx_require. intros r Hr.
  tx_step. apply tx_reads; [eauto with reads|]. intros _. tx_step. unfold find_owners. apply tx_both; [eauto with reads..|].
  apply tx_find_job. intros _. apply tx_find_queue. tx_step.
  destruct (jobs t !! run_job r) as [j|] eqn:Hj; [|tx_step]. destruct (queues t !! run_queue r) as [q|] eqn:Hq; [|tx_step].
  tx_step. apply tx_ensure. intros [Ho Hown]%andb_true_iff. tx_step.
  assert (Hrest : (is_live_run (run_state r) = true → run_queue r = job_queue j ∧ job_state j ≠ JobDeleted) →
    tx (_ ← validate_history r; mret r) t (λ r t', t' = t ∧ runs t !! id = Some r ∧ run_valid t r)).
  { intros Hhome. tx_step. eapply tx_mono; [|apply validate_history_spec]. intros _ ? [-> Hh]. tx_step. split_and!; [done..|].
    split; [by apply Hrow|by apply negb_true_iff, bool_decide_eq_false in Ho|by apply eqb_prop in Hown| | |done].
    - rewrite Hj, Hq. split; by eexists.
    - intros j' Hl. rewrite Hj. intros [= <-]. by apply Hhome. }
  tx_step; [|tx_step; by apply Hrest]. tx_step. apply tx_ensure. intros Howner. apply tx_reads; [eauto with reads|].
  intros _. apply Hrest. intros _. unfold live_owner_ok, bytes_eqb in Howner.
  rewrite !andb_true_iff, !negb_true_iff, bool_decide_eq_true, bool_decide_eq_false in Howner. naive_solver.
Qed.

Lemma find_queue_spec id t : tx (find_queue id) t (λ q t', t' = t ∧ queues t !! id = Some q).
Proof.
  unfold find_queue. tx_step. apply tx_on_error, tx_find_queue. apply tx_require. by intros q Hq.
Qed.

Lemma find_scanned_attempt_spec key t :
  tx (find_scanned_attempt key) t (λ a t', t' = t ∧ attempts t !! key = Some a ∧ is_Some (runs t !! key.1)).
Proof.
  unfold find_scanned_attempt. apply tx_both; [eauto with reads..|]. apply tx_find_attempt, tx_find_run. cbn beta.
  rewrite <- surjective_pairing. destruct (attempts t !! key) as [a|] eqn:Ha; [|tx_step].
  destruct (runs t !! key.1) as [r|] eqn:Hr; [|tx_step]. tx_step. tx_step. tx_step.
  apply tx_reads; [eauto with reads|]. intros _. tx_step. split_and!; [done..|by eexists].
Qed.

(** The live runs of a definition, as [validate_barriers] counts them. *)
Record barriers_valid t (j : JobDefinition) : Prop := {
  barriers_live : summary_live (manual_barrier_summary t (job_id j)) =
    scheduled_count (summary_counts (manual_barrier_summary t (job_id j))) +
    manual_count (summary_counts (manual_barrier_summary t (job_id j)));
  barriers_related : valid_nonterminal_run_relationship (job_state j) (is_once j)
    (summary_counts (manual_barrier_summary t (job_id j))) = true }.

Lemma validate_barriers_spec j t : tx (validate_barriers j) t (λ _ t', t' = t ∧ barriers_valid t j).
Proof.
  unfold validate_barriers. tx_step. apply tx_on_error, tx_query. tx_step. apply tx_ensure. intros Hl%Z.eqb_eq.
  apply tx_ensure. intros Hv. done.
Qed.

Record job_valid t (j : JobDefinition) : Prop := {
  job_barriers : barriers_valid t j;
  job_home : ∃ q, queues t !! job_queue j = Some q ∧ (queue_state q = QueueDeleted → job_state j = JobDeleted) }.

Lemma find_scanned_job_spec id t :
  tx (find_scanned_job id) t (λ j t', t' = t ∧ jobs t !! id = Some j ∧ job_valid t j).
Proof.
  unfold find_scanned_job. tx_step. apply tx_on_error, tx_find_job. intros _. tx_step. apply tx_require. intros j Hj.
  tx_step. apply tx_on_error, tx_find_queue. tx_step. apply tx_ensure. intros Hq. tx_step.
  eapply tx_mono; [|apply validate_barriers_spec]. intros _ ? [-> Hb]. tx_step. split_and!; [done..|]. split; [done|].
  destruct (queues t !! job_queue j) as [q|]; [|done]. exists q. split; [done|]. intros Hd.
  rewrite bool_decide_true in Hq by done. by apply bool_decide_eq_true in Hq.
Qed.

(** ** Pages *)

Lemma lookups_spec {K A} (f : K → ES Session A) keys t (P : K → A → Prop) :
  (∀ k, k ∈ keys → tx (f k) t (λ v t', t' = t ∧ P k v)) →
  tx (lookups f keys) t (λ vs t', t' = t ∧ Forall2 P keys vs).
Proof.
  induction keys as [|k keys IH]; intros Hf; cbn [lookups]; [by tx_step|].
  tx_step. eapply tx_mono; [|apply Hf; by left]. intros v ? [-> Hv].
  tx_step. eapply tx_mono; [|apply IH; intros k' Hk'; apply Hf; by right]. intros vs ? [-> Hvs]. tx_step.
  split; [done|by constructor].
Qed.

Lemma scanned_ids {A} keys limit after (f : bytes → ES Session A) (key_of : A → bytes) t (P : bytes → A → Prop) :
  (∀ k, tx (f k) t (λ v t', t' = t ∧ P k v)) → (∀ k v, P k v → key_of v = k) →
  tx (ids ← scan_ids keys limit after; lookups f ids) t
    (λ rows t', t' = t ∧ page_rows bytes_ltb (keys t) key_of P limit after rows).
Proof.
  intros Hf Hkey. tx_step. unfold scan_ids. tx_step. tx_step. apply tx_on_error, tx_query.
  eapply tx_mono; [|apply lookups_spec; intros k _; apply Hf]. intros rows ? [-> Hrows]. split; [done|].
  eapply Forall2_impl; [done|]. eauto.
Qed.

Lemma scanned_keys {A} keys limit after (f : bytes * Z → ES Session A) (key_of : A → bytes * Z) t
    (P : bytes * Z → A → Prop) :
  (∀ k, tx (f k) t (λ v t', t' = t ∧ P k v)) → (∀ k v, P k v → key_of v = k) →
  tx (ids ← scan_keys keys limit after; lookups f ids) t
    (λ rows t', t' = t ∧ page_rows key_ltb (keys t) key_of (λ k v, P k v ∧ 0 < k.2) limit after rows).
Proof.
  intros Hf Hkey. tx_step. unfold scan_keys. tx_step. tx_step. tx_step. apply tx_on_error, tx_query.
  tx_step. apply tx_ensure. intros Hpos. rewrite forallb_forall in Hpos. tx_step.
  eapply tx_mono; [|apply (lookups_spec _ _ _ (λ k v, P k v ∧ 0 < k.2))].
  - intros rows ? [-> Hrows]. split; [done|]. eapply Forall2_impl; [done|]. intros k v [HP Hk]. split; [done|]. eauto.
  - intros k Hk%list_elem_of_In. apply Hpos, Z.ltb_lt in Hk. eapply tx_mono; [|apply Hf]. intros v t' [-> ?]. done.
Qed.

(** The five listings of recovery. *)
Definition scans {K A} (before : K → K → bool) (keys : Tables → list K) (key_of : A → K) (P : Tables → K → A → Prop)
    (limit : nat) (read : option K → ES Session (list A)) : Prop :=
  ∀ t, keyed t → ∀ after, tx (read after) t (λ rows t', t' = t ∧ page_rows before (keys t) key_of (P t) limit after rows).

Lemma list_runs_scans limit state :
  scans bytes_ltb (run_keys state) run_id (λ t k r, runs t !! k = Some r ∧ run_valid t r) limit
    (λ after, list_runs limit after state).
Proof.
  intros t Hk after. apply (scanned_ids (run_keys state)); [intros k; apply find_run_spec|].
  by intros k r [? _]; eapply (keyed_run _ Hk).
Qed.

Lemma list_attempts_scans limit :
  scans key_ltb (λ t, map fst (map_to_list (attempts t))) (λ a, (attempt_run a, attempt_number a))
    (λ t k a, (attempts t !! k = Some a ∧ is_Some (runs t !! k.1)) ∧ 0 < k.2) limit (list_attempts limit).
Proof.
  intros t Hk after. apply (scanned_keys (λ t, map fst (map_to_list (attempts t)))).
  - intros k. apply find_scanned_attempt_spec.
  - by intros k a [? _]; eapply (keyed_attempt _ Hk).
Qed.

Lemma list_outputs_scans limit :
  scans key_ltb (λ t, map fst (map_to_list (outputs t))) id (λ _ k o, o = k ∧ 0 < k.2) limit (list_outputs limit).
Proof.
  intros t Hk after. apply (scanned_keys (λ t, map fst (map_to_list (outputs t))) _ _ _ _ _ (λ k o, o = k)); [|by intros k ? ->].
  intros k. tx_step. apply tx_reads; [eauto with reads|]. intros _. by tx_step.
Qed.

Lemma list_jobs_scans limit :
  scans bytes_ltb (λ t, map fst (map_to_list (jobs t))) job_id (λ t k j, jobs t !! k = Some j ∧ job_valid t j) limit
    (list_jobs limit).
Proof.
  intros t Hk after. apply (scanned_ids (λ t, map fst (map_to_list (jobs t)))); [intros k; apply find_scanned_job_spec|].
  by intros k j [? _]; eapply (keyed_job _ Hk).
Qed.

Lemma list_queues_scans limit :
  scans bytes_ltb (λ t, map fst (map_to_list (queues t))) row_queue_id (λ t k q, queues t !! k = Some q) limit
    (list_queues limit).
Proof.
  intros t Hk after. apply (scanned_ids (λ t, map fst (map_to_list (queues t)))); [intros k; apply find_queue_spec|].
  by intros k q ?; eapply (keyed_queue _ Hk).
Qed.

End Runs.

(** ** The whole store *)

Lemma elem_keys {K V} `{Countable K} (m : gmap K V) k v : m !! k = Some v → k ∈ map fst (map_to_list m).
Proof. intros Hk. apply list_elem_of_fmap. exists (k, v). split; [done|]. by apply elem_of_map_to_list. Qed.

Lemma elem_run_keys t k r : runs t !! k = Some r → k ∈ run_keys None t.
Proof. intros Hk. apply (elem_keys _ k r). by apply map_lookup_filter_Some. Qed.

Record store_valid (t : Tables) : Prop := {
  valid_runs k r : runs t !! k = Some r → run_valid t r;
  valid_attempts k a : attempts t !! k = Some a → is_Some (runs t !! k.1) ∧ 0 < k.2;
  valid_jobs k j : jobs t !! k = Some j → job_valid t j }.

(** Nothing runs, nothing is being suspended, and every live recurring
    definition has its next run. *)
Record settled (t : Tables) : Prop := {
  settled_runs k r : runs t !! k = Some r → run_state r ≠ RunRunning;
  settled_attempts k a : attempts t !! k = Some a → attempt_state a ≠ AttemptRunning;
  settled_jobs k j : jobs t !! k = Some j → job_state j ≠ JobSuspending;
  settled_queues k q : queues t !! k = Some q → queue_state q ≠ QueueSuspending;
  settled_recurring k j : jobs t !! k = Some j → job_state j ≠ JobDeleted → is_once j = false →
    ∃ id r, runs t !! id = Some r ∧ live_schedule_owned k r = true }.

Section Validation.
Context `{Environment} `{Startup}.
Implicit Type t : Tables.
Variable options : RecoveryOptions.
Variable fuel : nat.
Hypothesis Hlimit : (0 < scan_batch_size options)%nat.

Lemma find_schedule_owned_spec job t :
  tx (find_schedule_owned job) t
    (λ v t', t' = t ∧ (is_some v = true → ∃ id r, runs t !! id = Some r ∧ live_schedule_owned job r = true)).
Proof.
  unfold find_schedule_owned. tx_step. tx_step. destruct (runs_where (live_schedule_owned job) t) as [|r rest] eqn:E; [by tx_step|].
  do 5 tx_step. split; [done|]. intros _.
  assert (Hin : r ∈ runs_where (live_schedule_owned job) t) by (rewrite E; by left).
  apply elem_runs_where in Hin as (k & Hk & Hr). by exists k, r.
Qed.

Lemma observes_refuse b reason t : observes (refuse b reason) t (λ _, b = false).
Proof. by apply yields_refuse. Qed.

Lemma validate_job_spec final j t :
  observes (validate_job final j) t (λ _, final = true →
    job_state j ≠ JobSuspending ∧
    (job_state j ≠ JobDeleted → is_once j = false →
     ∃ id r, runs t !! id = Some r ∧ live_schedule_owned (job_id j) r = true)).
Proof.
  unfold validate_job. apply (observes_bind _ _ _ (λ _, True)).
  { apply yields_in_store, tx_reads; [|done]. unfold validate_job_lifecycle. reads_solve. }
  intros _ _. destruct final; cbn [negb]; [|by apply yields_ret].
  apply (observes_bind _ _ _ _ _ (observes_refuse _ _ t)). intros _ Hs%bool_decide_eq_false.
  destruct (negb (bool_decide (job_state j = JobDeleted)) && negb (is_once j)) eqn:Hrec.
  - eapply observes_bind; [apply yields_in_store, find_schedule_owned_spec|]. cbn beta. intros v Hv.
    eapply yields_mono; [|apply observes_refuse]. intros _ t' [-> Hn%negb_false_iff]. split; [done|]. intros _. split; [done|].
    intros _ _. by apply Hv.
  - apply yields_ret. split; [done|]. intros _. split; [done|]. intros Hd Ho. rewrite Ho, bool_decide_false in Hrec; done.
Qed.

Lemma validate_store_spec final t :
  keyed t → observes (validate_store options fuel final) t (λ r, r = Some tt →
    store_valid t ∧ (final = true → settled t)).
Proof.
  intros Hk. unfold validate_store, visit_runs, visit_jobs, visit_queues.
  apply (observes_bind _ _ _ (λ _, True)).
  { destruct final; [|by apply yields_ret]. eapply (observes_bind _ _ _ (λ _, True)).
    - apply yields_in_store, tx_reads; [eauto with reads|done].
    - intros open _. eapply yields_mono; [|apply observes_refuse]. by intros _ ? [-> _]. }
  intros _ _.
  eapply observes_and_then; [eapply observes_visit_pages; [tc_solve|done|by apply list_runs_scans|intros r; apply observes_refuse]|done|].
  intros [] Hruns. specialize (Hruns eq_refl).
  eapply observes_and_then; [eapply observes_visit_pages; [tc_solve|done|by apply list_attempts_scans|intros a; apply observes_refuse]|done|].
  intros [] Hattempts. specialize (Hattempts eq_refl).
  eapply observes_and_then; [eapply (observes_visit_pages _ _ _ _ _ _ _ _ _ (λ _, True)); [done|by apply list_outputs_scans|
    intros o; by apply yields_ret]|done|].
  intros [] _.
  eapply observes_and_then; [eapply observes_visit_pages; [tc_solve|done|by apply list_jobs_scans|intros j; apply validate_job_spec]|done|].
  intros [] Hjobs. specialize (Hjobs eq_refl).
  eapply yields_mono; [|eapply observes_visit_pages; [tc_solve|done|by apply list_queues_scans|intros q; apply observes_refuse]].
  intros r t' [-> Hqueues]. split; [done|]. intros ->. specialize (Hqueues eq_refl). cbn beta in *.
  split; [split|intros ->; split]; cbn [andb] in *.
  - intros k r Hr. destruct (Hruns k (elem_run_keys _ _ _ Hr) I) as (v & [Hv ?] & _). by simplify_eq.
  - intros k a Ha. destruct (Hattempts k (elem_keys _ _ _ Ha) I) as (v & [[_ ?] ?] & _). done.
  - intros k j Hj. destruct (Hjobs k (elem_keys _ _ _ Hj) I) as (v & [Hv ?] & _). by simplify_eq.
  - intros k r Hr. destruct (Hruns k (elem_run_keys _ _ _ Hr) I) as (v & [Hv ?] & Hn%bool_decide_eq_false). by simplify_eq.
  - intros k a Ha. destruct (Hattempts k (elem_keys _ _ _ Ha) I) as (v & [[Hv _] _] & Hn%bool_decide_eq_false). by simplify_eq.
  - intros k j Hj. destruct (Hjobs k (elem_keys _ _ _ Hj) I) as (v & [Hv _] & Hn). simplify_eq. by apply Hn.
  - intros k q Hq. destruct (Hqueues k (elem_keys _ _ _ Hq) I) as (v & Hv & Hn%bool_decide_eq_false). by simplify_eq.
  - intros k j Hj Hd Ho. destruct (Hjobs k (elem_keys _ _ _ Hj) I) as (v & [Hv _] & Hn). simplify_eq.
    rewrite (keyed_job _ Hk _ _ Hj) in Hn. by apply Hn.
Qed.

End Validation.

(** ** The invariant *)

Lemma count_runs_two p t k1 k2 r1 r2 :
  runs t !! k1 = Some r1 → runs t !! k2 = Some r2 → p r1 = true → p r2 = true → k1 ≠ k2 → 2 <= count_runs p t.
Proof.
  intros H1 H2 P1 P2 Hne. unfold count_runs, runs_where. rewrite length_map, length_map_to_list.
  assert (Hsub : <[k1 := r1]> {[k2 := r2]} ⊆ filter (λ kr : bytes * JobRun, p kr.2 = true) (runs t)).
  { apply insert_subseteq_l; [by apply map_lookup_filter_Some|].
    apply insert_subseteq_l; [by apply map_lookup_filter_Some|apply map_empty_subseteq]. }
  apply map_subseteq_size in Hsub. rewrite map_size_insert_None, map_size_singleton in Hsub; [lia|].
  by rewrite lookup_singleton_ne.
Qed.

Lemma related_counts state once c :
  valid_nonterminal_run_relationship state once c = true → scheduled_count c <= 1 ∧ manual_count c <= 1.
Proof.
  unfold valid_nonterminal_run_relationship. destruct (_ || _) eqn:E; [done|]. apply orb_false_iff in E as [H1 H2].
  apply Z.ltb_ge in H1, H2. done.
Qed.

Lemma live_kinds r :
  run_origin r ≠ OriginSubmitted → schedule_owned r = bool_decide (run_origin r = OriginScheduled) →
  is_live_run (run_state r) = true →
  (if schedule_owned r then live_scheduled (run_job r) r else live_manual (run_job r) r) = true.
Proof.
  intros Ho Hown Hl. unfold live_scheduled, live_manual, live_of_job, bytes_eqb. rewrite Hl, bool_decide_true by done.
  rewrite Hown. by destruct (run_origin r).
Qed.

Lemma valid_wf t : keyed t → store_valid t → wf t.
Proof.
  intros Hk Hv.
  assert (Hbar : ∀ k r, runs t !! k = Some r → ∃ j, jobs t !! run_job r = Some j ∧ job_id j = run_job r ∧ barriers_valid t j).
  { intros k r Hr. destruct (run_owners _ _ (valid_runs _ Hv _ _ Hr)) as [[j Hj] _]. exists j.
    split_and!; [done|by eapply keyed_job|by eapply job_barriers, valid_jobs]. }
  split; [apply Hk|apply Hk|apply Hk|apply Hk|intros k r Hr; by eapply valid_runs|..].
  - intros k r Hr. destruct (valid_runs _ Hv _ _ Hr) as [_ Hs Ho _ _ _]. rewrite Ho.
    destruct (run_origin r); [|by rewrite bool_decide_false|done]. by rewrite bool_decide_true.
  - intros k r Hr. by eapply valid_runs.
  - intros k n [a Ha]. by apply (valid_attempts _ Hv _ _ Ha).
  - intros k. destruct (runs t !! k) as [r|] eqn:Hr.
    + apply history_numbered.
      * intros n [a Ha]. by apply (valid_attempts _ Hv _ _ Ha).
      * pose proof (run_history _ _ (valid_runs _ Hv _ _ Hr)) as [Hc _]. by rewrite (keyed_run _ Hk _ _ Hr) in Hc.
    + assert (Hnone : ∀ n, attempts t !! (k, n) = None).
      { intros n. destruct (attempts t !! (k, n)) as [a|] eqn:Ha; [|done].
        destruct (valid_attempts _ Hv _ _ Ha) as [[r ?] _]. cbn in *. congruence. }
      split; intros n; rewrite Hnone; [by intros [? ?]|intros _; rewrite Hnone; by intros [? ?]].
  - intros k r Hr. pose proof (run_history _ _ (valid_runs _ Hv _ _ Hr)) as [_ Hs].
    by rewrite (keyed_run _ Hk _ _ Hr) in Hs.
  - intros k1 k2 r1 r2 H1 H2 Hjob Hown L1 L2. destruct (decide (k1 = k2)) as [|Hne]; [done|exfalso].
    destruct (Hbar _ _ H1) as (j & _ & Hid & Hb). pose proof (related_counts _ _ _ (barriers_related _ _ Hb)) as Hc.
    rewrite Hid in Hc. cbn [summary_counts manual_barrier_summary scheduled_count manual_count] in Hc.
    pose proof (valid_runs _ Hv _ _ H1) as V1. pose proof (valid_runs _ Hv _ _ H2) as V2.
    pose proof (live_kinds _ (run_known_origin _ _ V1) (run_owned_origin _ _ V1) L1) as P1.
    pose proof (live_kinds _ (run_known_origin _ _ V2) (run_owned_origin _ _ V2) L2) as P2.
    rewrite <- Hjob, <- Hown in P2. destruct (schedule_owned r1);
      pose proof (count_runs_two _ _ _ _ _ _ H1 H2 P1 P2 Hne); lia.
  - intros k j Hj Hterm. destruct (valid_jobs _ Hv _ _ Hj) as [[Hlive Hrel] _].
    unfold valid_nonterminal_run_relationship in Hrel. rewrite Hterm in Hrel.
    destruct (_ || _) in Hrel; [done|]. apply andb_true_iff in Hrel as [[Ho Hs%Z.eqb_eq]%andb_true_iff Hm%Z.eqb_eq].
    split; [done|]. intros k' r Hr Hjob. rewrite Hs, Hm in Hlive.
    cbn [summary_live manual_barrier_summary] in Hlive. rewrite (keyed_job _ Hk _ _ Hj) in Hlive.
    assert (Hnil : runs_where (live_of_job k) t = []).
    { unfold count_runs in Hlive. destruct (runs_where _ t); [done|]. cbn in Hlive. lia. }
    pose proof (runs_where_nil _ _ Hnil _ _ Hr) as Hl. unfold live_of_job, bytes_eqb in Hl.
    by rewrite bool_decide_true in Hl.
  - intros k r j Hr Hl Hj. by apply (run_home _ _ (valid_runs _ Hv _ _ Hr)).
  - intros k j Hj. apply (job_home _ _ (valid_jobs _ Hv _ _ Hj)).
Qed.
