(* ===== verification/RecoverySafety.v ===== *)
(** * Startup recovery, as a whole

    Recovery never damages the store: whatever fails in it, the tables keep
    their keys and, if they satisfied the invariant, keep it, and no attempt
    starts running.  When it succeeds, the store satisfies the invariant even
    if it did not before, and nothing in it is running, so that the scheduler
    can start with an empty memory.  It always comes to an end. *)

From stdpp Require Import base numbers strings list gmap sets relations.
From S2P Require Import Prelude Effects Values OutputCapture RetryPolicy CronEngine Domain StorageFailure Storage.
From S2P Require Import WaitRepository SchedulerRepository Lifecycle Completion RecoveryRepository Recovery Keyset.
From S2P Require Import StoreLogic StoreInvariant SchedulerStore RecoveryLogic RecoverySound.
Local Open Scope Z_scope.

(** ** Tables that evolve *)

(** An attempt stays as it is, or is running and becomes interrupted. *)
Definition attempt_evolves (a a' : option JobAttempt) : Prop :=
  a' = a ∨ ∃ x time text, a = Some x ∧ attempt_state x = AttemptRunning ∧
    a' = Some (completed_attempt_row time Interrupted text x).

#[global] Instance attempt_evolves_preorder : PreOrder attempt_evolves.
Proof.
  split; [by left|]. intros a b c [->|(x & time & text & -> & Hx & ->)] [->|(y & time' & text' & Hy & Hrun & ->)].
  - by left.
  - right. by exists y, time', text'.
  - right. by exists x, time, text.
  - injection Hy as <-. done.
Qed.

(** Rows keep their keys, no definition, queue or attempt appears, no run
    starts running, and attempts change only by being interrupted. *)
Record evolves (t t' : Tables) : Prop := {
  evolves_keyed : keyed t → keyed t';
  evolves_job k : is_Some (jobs t' !! k) → is_Some (jobs t !! k);
  evolves_queue k : is_Some (queues t' !! k) → is_Some (queues t !! k);
  evolves_running k r' : runs t' !! k = Some r' → run_state r' = RunRunning →
    ∃ r, runs t !! k = Some r ∧ run_state r = RunRunning;
  evolves_attempt k : attempt_evolves (attempts t !! k) (attempts t' !! k) }.

#[global] Instance evolves_preorder : PreOrder evolves.
Proof.
  split; [intros t; by split; eauto|]. intros t1 t2 t3 [H1 H2 H3 H4 H5] [H1' H2' H3' H4' H5']. split; [auto..| |].
  - intros k r' Hr Hrun. destruct (H4' _ _ Hr Hrun) as (r & ? & ?). by eapply H4.
  - intros k. by transitivity (attempts t2 !! k).
Qed.

Lemma evolves_set_run t k r :
  (keyed t → run_id r = k) → run_state r ≠ RunRunning → evolves t (set_runs (<[k := r]> (runs t)) t).
Proof.
  intros Hr Hn. split; cbn; [|done..| |done].
  - intros Hk. specialize (Hr Hk). destruct Hk as [H1 H2 H3 H4]. split; cbn; [|done..].
    intros k' x [[<- <-]|[_ Hx]]%lookup_insert_Some; [done|by apply H1].
  - intros k' x [[<- <-]|[_ Hx]]%lookup_insert_Some; [done|]. by exists x.
Qed.
Lemma evolves_set_job t k j j' :
  jobs t !! k = Some j → job_id j' = job_id j → evolves t (set_jobs (<[k := j']> (jobs t)) t).
Proof.
  intros Hj Hid. split; cbn; [| |done|by eauto|done].
  - intros [H1 H2 H3 H4]. split; cbn; [done| |done..].
    intros k' x [[<- <-]|[_ Hx]]%lookup_insert_Some; [|by apply H2]. rewrite Hid. by apply H2.
  - intros k' [x [[<- _]|[_ Hx]]%lookup_insert_Some]; by eexists.
Qed.
Lemma evolves_set_queue t k q q' :
  queues t !! k = Some q → row_queue_id q' = row_queue_id q → evolves t (set_queues (<[k := q']> (queues t)) t).
Proof.
  intros Hq Hid. split; cbn; [|done| |by eauto|done].
  - intros [H1 H2 H3 H4]. split; cbn; [done..| |done].
    intros k' x [[<- <-]|[_ Hx]]%lookup_insert_Some; [|by apply H3]. rewrite Hid. by apply H3.
  - intros k' [x [[<- _]|[_ Hx]]%lookup_insert_Some]; by eexists.
Qed.
Lemma evolves_interrupt t k a time text O :
  attempts t !! k = Some a → attempt_state a = AttemptRunning →
  evolves t (mkTables (queues t) (jobs t) (runs t) (<[k := completed_attempt_row time Interrupted text a]> (attempts t)) O).
Proof.
  intros Ha Hrun. split; cbn; [|done..|by eauto|].
  - intros [H1 H2 H3 H4]. split; cbn; [done..|].
    intros k' x [[<- <-]|[_ Hx]]%lookup_insert_Some; [|by apply H4]. by apply (H4 _ a).
  - intros k'. destruct (decide (k' = k)) as [->|Hne]; [|rewrite lookup_insert_ne by done; reflexivity].
    rewrite lookup_insert_eq, Ha. right. by exists a, time, text.
Qed.

Section Units.
Context `{Environment}.
Implicit Type t : Tables.

Lemma drained_queue_evolves queue updated t :
  tx (complete_drained_queue_suspension queue updated) t (λ _ t', evolves t t').
Proof.
  unfold complete_drained_queue_suspension. tx_step. apply tx_find_queue. tx_step. tx_step.
  tx_step; [|by tx_step]. tx_step. apply tx_count_running. intros n. tx_step; [|by tx_step].
  tx_step. tx_step. tx_step. apply tx_set_queue_state.
  - tx_step. tx_step. by tx_step.
  - intros q Hq _ _ _ _ _. tx_step. tx_step. tx_step. by apply (evolves_set_queue _ _ _ _ Hq).
Qed.

Lemma drained_job_evolves queue job updated t :
  tx (complete_drained_job_suspension queue job updated) t (λ _ t', evolves t t').
Proof.
  unfold complete_drained_job_suspension. tx_step. apply tx_find_job. intros _. tx_step. tx_step.
  tx_step. tx_step. tx_step; [|by tx_step]. tx_step. apply tx_count_running. intros n. tx_step; [|by tx_step].
  tx_step. tx_step. tx_step. apply tx_set_job_state.
  - tx_step. tx_step. by tx_step.
  - intros j Hj _ _ _ _ _. tx_step. tx_step. tx_step. by apply (evolves_set_job _ _ _ _ Hj).
Qed.

Lemma finished_evolves run at_ t : tx (finish_after_terminal_run run at_) t (λ _ t', evolves t t').
Proof.
  unfold finish_after_terminal_run. tx_step. apply tx_find_run. tx_step. tx_step. tx_step. tx_step.
  tx_step. tx_step. tx_step. apply tx_find_job. intros _. tx_step. apply tx_require. intros j Hj. tx_step. tx_step.
  destruct (_ || _); [by tx_step|]. tx_step. apply tx_read_nonterminal. intros counts _. tx_step. tx_step.
  tx_step; [by tx_step|]. tx_step; [by tx_step|]. tx_step. tx_step. tx_step. apply tx_set_job_state.
  - tx_step. tx_step. by tx_step.
  - intros j' Hj' _ _ _ _ _. tx_step. tx_step. tx_step. by apply (evolves_set_job _ _ _ _ Hj').
Qed.

Lemma recurring_evolves j lower measurement t :
  tx (insert_recurring_run j lower measurement) t (λ _ t', evolves t t').
Proof.
  eapply tx_mono; [|apply recurring_spec]. intros [] t' Hs; cbn in Hs.
  - destruct Hs as (? & ? & ? & ? & ? & _ & _ & _ & _ & _ & _ & _ & ->). by apply evolves_set_run.
  - by destruct Hs as [-> _].
Qed.

(** ** Interruption *)

Lemma find_owned_job_spec id t :
  tx (find_owned_job id) t (λ j t', t' = t ∧ jobs t !! id = Some j ∧
    (is_terminal_job_state (job_state j) = true → is_once j = true)).
Proof.
  unfold find_owned_job. tx_step. apply tx_on_error, tx_find_job. intros Hterm. tx_step. apply tx_require. intros j Hj.
  tx_step. eapply tx_mono; [|apply find_queue_spec]. intros q ? [-> _]. tx_step. tx_step. tx_step.
  split_and!; [done..|by apply Hterm].
Qed.

Lemma find_retry_decision_reads key time : reads (find_retry_decision key time).
Proof. unfold find_retry_decision. reads_solve. Qed.

(** The running attempt [a] of the running run [r] has been completed. *)
Definition interrupted t (key : bytes * Z) (time : Z) t' : Prop :=
  ∃ r a text O, runs t !! key.1 = Some r ∧ run_state r = RunRunning ∧
    attempts t !! key = Some a ∧ attempt_state a = AttemptRunning ∧
    t' = mkTables (queues t) (jobs t) (runs t) (<[key := completed_attempt_row time Interrupted text a]> (attempts t)) O.

Lemma interrupt_attempt_spec key time t : tx (interrupt_attempt key time) t (λ _ t', interrupted t key time t').
Proof.
  unfold interrupt_attempt. tx_step. eapply tx_mono; [|apply find_run_spec]. intros r ? (-> & Hr & _).
  tx_step. apply tx_ensure. intros Hst%bool_decide_eq_true. tx_step. apply tx_on_error, tx_find_attempt. tx_step. tx_step.
  tx_step. apply tx_on_error, tx_of_result. intros text _. tx_step. apply tx_on_error, tx_complete_attempt.
  rewrite <- surjective_pairing. intros a Ha Hrun. tx_step. apply tx_on_error, tx_of_result. intros _ _.
  tx_step. apply tx_on_error, tx_query. tx_step; [tx_step|]. tx_step; [tx_step|].
  eapply tx_modify; [intros s _; cbn [tables set_tables]; reflexivity|]. by eexists r, a, text, _.
Qed.

Lemma tx_update_interrupted key guard f t (Q : bool → Tables → Prop) :
  Q false t →
  (∀ r, runs t !! key.1 = Some r → guard t r = true → Q true (set_runs (<[key.1 := f r]> (runs t)) t)) →
  tx (update_interrupted key guard f) t Q.
Proof.
  intros HF HT. unfold update_interrupted. tx_step. apply tx_on_error, tx_query.
  destruct (runs t !! key.1) as [r|] eqn:Hr; [|by tx_step]. destruct (guard t r) eqn:Hg; [|by tx_step].
  tx_step. eapply tx_modify; [intros s _; cbn [tables set_tables]; reflexivity|]. tx_step. by apply HT.
Qed.

(** The run after its attempt: waiting for a retry, or interrupted. *)
Definition transitioned (decision : option RetrySchedule) (time : Z) (r : JobRun) : JobRun → Prop := λ r',
  match decision with
  | Some d => r' = run_with RunRetryWait (floor_us (due_at d)) (run_started_at r) (run_completed_at r) (run_result r) r
  | None => ∃ text, r' = run_with RunInterrupted (runnable_at r) (run_started_at r) (Some (floor_us time)) (Some text) r
  end.

Lemma transition_spec decision key time t :
  tx (match decision with
      | Some d => set_recovered_retry_wait key time (due_at d)
      | None => set_run_interrupted key time
      end) t (λ _ t', ∃ r r', runs t !! key.1 = Some r ∧ transitioned decision time r r' ∧
                        t' = set_runs (<[key.1 := r']> (runs t)) t).
Proof.
  destruct decision as [d|].
  - unfold set_recovered_retry_wait. tx_step. apply tx_on_error, tx_of_result. intros _ _.
    tx_step. apply tx_on_error, tx_of_result. intros text _. tx_step. tx_step. tx_step.
    apply tx_update_interrupted; [by tx_step|]. intros r Hr _. tx_step. by eexists r, _.
  - unfold set_run_interrupted. tx_step. apply tx_on_error, tx_of_result. intros _ _.
    tx_step. apply tx_on_error, tx_of_result. intros text _. tx_step.
    apply tx_update_interrupted; [by tx_step|]. intros r Hr _. tx_step. exists r. eexists. split_and!; [done|by exists text|done].
Qed.

(** ** Steps of a unit that keep both kinds of invariant *)

(** The tables evolve, and those that satisfy the invariant keep it. *)
Definition harmless {A} (m : ES Session A) : Prop :=
  (∀ t, tx m t (λ _ t', evolves t t')) ∧
  (∀ t, wf t → tx m t (λ _ t', wf t')).

Lemma harmless_reads {A} (m : ES Session A) : reads m → harmless m.
Proof. intros Hm. split; intros t; [|intros Ht]; (apply tx_reads; [done|]); intros v; [reflexivity|done]. Qed.

Lemma harmless_bind {A B} (m : ES Session A) (k : A → ES Session B) :
  harmless m → (∀ v, harmless (k v)) → harmless (m ≫= k).
Proof.
  intros [H1 H2] Hk. split; intros t; [|intros Ht]; apply tx_bind.
  - eapply tx_mono; [|by apply H1]. intros v t' Ht'. destruct (Hk v) as [Hv _]. eapply tx_mono; [|apply Hv]. intros v2 t2 Ht2. by transitivity t'.
  - eapply tx_mono; [|by apply H2]. intros v t' Ht'. by apply Hk.
Qed.

Lemma harmless_on_error {A} g (m : ES Session A) : harmless m → harmless (on_error g m).
Proof. intros [H1 H2]. split; intros t; [|intros Ht]; apply tx_on_error; auto. Qed.

Lemma harmless_drained_queue queue time : harmless (recover_queue_suspension queue time).
Proof.
  unfold recover_queue_suspension. apply harmless_bind; [apply harmless_reads; eauto with reads|]. intros _.
  apply harmless_bind; [apply harmless_reads; eauto with reads|]. intros _. apply harmless_on_error. split; intros t; [|intros Ht].
  - apply drained_queue_evolves.
  - eapply tx_mono; [|by apply drained_queue_wf]. by intros v t' (? & _).
Qed.

Lemma find_owned_job_reads id : reads (find_owned_job id).
Proof. unfold find_owned_job. reads_solve. Qed.

Lemma harmless_drained_job job time : harmless (recover_job_suspension job time).
Proof.
  unfold recover_job_suspension. apply harmless_bind; [apply harmless_reads; eauto with reads|]. intros _.
  apply harmless_bind; [apply harmless_reads, find_owned_job_reads|]. intros j. apply harmless_on_error. split; intros t; [|intros Ht].
  - apply drained_job_evolves.
  - eapply tx_mono; [|by apply drained_job_wf]. by intros v t' (? & _).
Qed.

Lemma harmless_finished run time : harmless (finish_after_terminal_run run time).
Proof.
  split; intros t; [apply finished_evolves|]. intros Ht. eapply tx_mono; [|by apply finished_wf]. by intros v t' (? & _).
Qed.

(** The insertion of the next run of a definition that was just read. *)
Lemma harmless_owned {A} id (k : JobDefinition → ES Session A) :
  (∀ j t, tx (k j) t (λ _ t', evolves t t')) →
  (∀ j t, wf t → jobs t !! job_id j = Some j → (is_terminal_job_state (job_state j) = true → is_once j = true) →
     tx (k j) t (λ _ t', wf t')) →
  harmless (j ← find_owned_job id; k j).
Proof.
  intros H1 H2. split; intros t; [|intros Ht]; tx_step; (eapply tx_mono; [|apply find_owned_job_spec]);
    intros j ? (-> & Hj & Hterm); [by apply H1|]. apply H2; [done| |done]. by rewrite (wf_job_key _ Ht _ _ Hj).
Qed.

Lemma recurring_wf j lower measurement t :
  wf t → jobs t !! job_id j = Some j → (is_terminal_job_state (job_state j) = true → is_once j = true) →
  tx (insert_recurring_run j lower measurement) t (λ _ t', wf t').
Proof.
  intros Hwf Hj Hterm. eapply tx_mono; [|apply recurring_spec]. intros b t' Hs.
  by eapply occurs_wf.
Qed.

Lemma harmless_successor run lower measurement : harmless (insert_interrupted_successor run lower measurement).
Proof.
  unfold insert_interrupted_successor. apply harmless_bind; [apply harmless_reads; eauto with reads|]. intros _.
  apply harmless_bind; [apply harmless_reads; eauto with reads|]. intros r.
  apply harmless_bind; [apply harmless_reads, reads_of_result|]. intros _.
  destruct (negb _); [apply harmless_reads; eauto with reads|].
  apply harmless_owned; intros j t; [|intros Ht Hj Hterm]; apply tx_on_error; [by apply recurring_evolves|by apply recurring_wf].
Qed.

Lemma harmless_missing job lower measurement : harmless (repair_missing_successor job lower measurement).
Proof.
  unfold repair_missing_successor. apply harmless_bind; [apply harmless_reads; eauto with reads|]. intros _.
  apply harmless_owned.
  - intros j t. destruct (_ || _); [by tx_step|]. tx_step. apply tx_reads; [eauto with reads|]. intros [r|].
    + apply tx_reads; [reads_solve|done].
    + tx_step. apply tx_reads; [eauto with reads|]. intros _. by apply tx_on_error, recurring_evolves.
  - intros j t Ht Hj Hterm. destruct (_ || _); [by tx_step|]. tx_step. apply tx_reads; [eauto with reads|]. intros [r|].
    + apply tx_reads; [reads_solve|done].
    + tx_step. apply tx_reads; [eauto with reads|]. intros _. by apply tx_on_error, recurring_wf.
Qed.

(** ** The transaction of an interruption *)

(** What follows the interruption of an attempt. *)
Definition after_interruption (r : JobRun) (decision : option RetrySchedule) (time lower : Z)
    (measurement : InitialRunMeasurement) : ES Session RecoveryReport :=
  ended ← (match decision with
           | Some _ => mret (false, false)
           | None =>
               finished ← finish_after_terminal_run (run_id r) time;
               successor ← insert_interrupted_successor (run_id r) lower measurement;
               mret (finished, successor)
           end);
  queue ← recover_queue_suspension (run_queue r) time;
  job ← recover_job_suspension (run_job r) time;
  mret (mkReport 1 (counted (is_some decision)) (counted (negb (is_some decision))) (counted ended.1)
          (counted ended.2) (counted job) (counted queue) 0).

Lemma harmless_after r decision time lower measurement : harmless (after_interruption r decision time lower measurement).
Proof.
  assert (Hret : ∀ A (v : A), harmless (mret v)) by (intros; apply harmless_reads, reads_ret).
  unfold after_interruption. apply harmless_bind.
  - destruct decision; [apply Hret|]. apply harmless_bind; [apply harmless_finished|]. intros finished.
    apply harmless_bind; [apply harmless_successor|]. intros successor. apply Hret.
  - intros ended. apply harmless_bind; [apply harmless_drained_queue|]. intros queue.
    apply harmless_bind; [apply harmless_drained_job|]. intros job. apply Hret.
Qed.

Lemma interrupt_unit_shape options time r lower t (Q : RecoveryReport → Tables → Prop) :
  (∀ key decision t1 x x' t2, interrupted t key time t1 → runs t1 !! key.1 = Some x → transitioned decision time x x' →
     t2 = set_runs (<[key.1 := x']> (runs t1)) t1 →
     tx (after_interruption r decision time lower (initial_measurement options)) t2 Q) →
  tx (interrupt_unit options time r lower) t Q.
Proof.
  intros HQ. unfold interrupt_unit. tx_step. apply tx_reads; [eauto with reads|]. intros active. tx_step.
  apply tx_require. intros number _. tx_step. apply tx_reads; [apply find_retry_decision_reads|]. intros decision.
  tx_step. eapply tx_mono; [|apply interrupt_attempt_spec]. intros u t1 Hi.
  tx_step. eapply tx_mono; [|apply transition_spec]. intros u' t2 (x & x' & Hx & Htr & Ht2).
  exact (HQ (run_id r, number) decision t1 x x' t2 Hi Hx Htr Ht2).
Qed.

Lemma interrupted_wf t key time t1 x decision x' :
  wf t → interrupted t key time t1 → runs t1 !! key.1 = Some x → transitioned decision time x x' →
  let t2 := set_runs (<[key.1 := x']> (runs t1)) t1 in wf t2.
Proof.
  intros Hwf (r & a & text & O & Hr & Hst & Ha & Hrun & ->) Hx Htr. cbn [runs] in *.
  assert (x = r) as -> by congruence. set (b := completed_attempt_row _ _ _ _). destruct key as [run n]. cbn [fst] in *.
  assert (Hwf2 : wf (mkTables (queues t) (jobs t) (<[run := x']> (runs t)) (<[(run, n) := b]> (attempts t)) O)).
  { destruct decision as [d|]; [|destruct Htr as [text' ->]].
    - rewrite Htr. eapply wf_completed; [done..|]. cbn. split_and!; [done| |done..]. split; [done|by right].
    - by eapply wf_completed. }
  done.
Qed.

Lemma interrupted_evolves t key time t1 x decision x' :
  interrupted t key time t1 → runs t1 !! key.1 = Some x → transitioned decision time x x' →
  evolves t (set_runs (<[key.1 := x']> (runs t1)) t1).
Proof.
  intros (r & a & text & O & Hr & Hst & Ha & Hrun & ->) Hx Htr.
  etransitivity; [exact (evolves_interrupt _ _ _ time text O Ha Hrun)|].
  apply (evolves_set_run (mkTables _ _ _ _ _)).
  - intros Hk. destruct decision; [rewrite Htr|destruct Htr as [text' ->]]; exact (keyed_run _ Hk _ _ Hx).
  - destruct decision; [by rewrite Htr|by destruct Htr as [text' ->]].
Qed.

Lemma interrupt_unit_safe options time r lower :
  (∀ t, tx (interrupt_unit options time r lower) t (λ _ t', evolves t t')) ∧
  (∀ t, wf t → tx (interrupt_unit options time r lower) t (λ _ t', wf t')).
Proof.
  split; intros t; [|intros Hwf]; apply interrupt_unit_shape; intros key decision t1 x x' t2 Hi Hx Htr ->;
    destruct (harmless_after r decision time lower (initial_measurement options)) as [Hev Hkeep].
  - eapply tx_mono; [|apply Hev]. intros v' t' Ht'. etransitivity; [by eapply interrupted_evolves|done].
  - apply Hkeep. by eapply interrupted_wf.
Qed.

End Units.

(** ** The whole recovery *)

Section Whole.
Context `{Environment} `{Startup}.

Lemma reads_set_timing f : reads (modify (λ s, set_timing (f s) s)).
Proof. by intros s r s' [= <- <-]. Qed.

Lemma repair_abandoned_reads id : reads (repair_abandoned id).
Proof.
  assert (Hw : ∀ row, reads (write_timing id row)).
  { intros row. unfold write_timing. reads_solve. apply (reads_set_timing (λ _, _)). }
  unfold repair_abandoned, read_timing. reads_solve.
Qed.

Lemma lists_read limit :
  (∀ after state, reads (list_runs limit after state)) ∧ (∀ after, reads (list_attempts limit after)) ∧
  (∀ after, reads (list_outputs limit after)) ∧ (∀ after, reads (list_jobs limit after)) ∧
  (∀ after, reads (list_queues limit after)).
Proof.
  unfold list_runs, list_attempts, list_outputs, list_jobs, list_queues.
  split_and!; intros; (apply reads_bind; [eauto with reads|]); intros keys; apply lookups_reads; intros k; reads_solve.
Qed.

(** What holds of the tables and survives the units survives recovery. *)
Section Invariant.
Variable I : Tables → Prop.
Variable options : RecoveryOptions.
Variable fuel : nat.
Hypothesis Hinterrupt : ∀ time r lower t, I t → tx (interrupt_unit options time r lower) t (λ _, I).
Hypothesis Hharmless : ∀ A (m : ES Session A) t, harmless m → I t → tx m t (λ _, I).

Lemma validate_job_maintains final j : maintains I (validate_job final j).
Proof.
  unfold validate_job. apply maintains_bind.
  { apply maintains_in_store. unfold validate_job_lifecycle. reads_solve. }
  intros _. destruct (negb final); [apply maintains_ret|]. apply maintains_bind; [apply maintains_refuse|]. intros _.
  destruct (_ && _); [|apply maintains_ret].
  apply maintains_bind; [apply maintains_in_store; eauto with reads|intros; apply maintains_refuse].
Qed.

Lemma validate_maintains final : maintains I (validate_store options fuel final).
Proof.
  destruct (lists_read (scan_batch_size options)) as (Hruns & Hatt & Hout & Hjobs & Hqueues).
  unfold validate_store, visit_runs, visit_jobs, visit_queues. apply maintains_bind.
  { destruct final; [|apply maintains_ret].
    apply maintains_bind; [apply maintains_in_store; eauto with reads|intros; apply maintains_refuse]. }
  intros _. repeat (apply maintains_and_then; [|intros ?]); apply maintains_visit_pages; try done;
    try (intros; apply maintains_refuse); [intros; apply maintains_ret|].
  intros j. apply validate_job_maintains.
Qed.

Lemma unit_maintains {A} (m : ES Session A) (f : A → RecoveryReport) :
  harmless m → maintains I (commit_unit (v ← m; mret (f v))).
Proof.
  intros Hm. apply maintains_commit_unit. intros t Ht. apply Hharmless; [|done].
  apply harmless_bind; [done|]. intros v. apply harmless_reads, reads_ret.
Qed.

Lemma repairs_maintain time :
  (∀ id, maintains I (repair_timing_row id)) ∧ (∀ r, maintains I (recover_run options time r)) ∧
  (∀ j, maintains I (recover_job options time j)) ∧ (∀ q, maintains I (recover_queue time q)).
Proof.
  split_and!.
  - intros id. apply unit_maintains, harmless_reads, repair_abandoned_reads.
  - intros r. apply maintains_bind; [apply maintains_utc_now|]. intros now. apply maintains_commit_unit. auto.
  - intros j. unfold recover_job. destruct (_ || _); [apply maintains_ret|].
    apply maintains_bind; [apply maintains_utc_now|]. intros now. apply maintains_commit_unit. intros t Ht.
    apply Hharmless; [|done]. apply harmless_bind; [apply harmless_missing|]. intros b.
    apply harmless_bind; [apply harmless_drained_job|]. intros d. apply harmless_reads, reads_ret.
  - intros q. unfold recover_queue. destruct (negb _); [apply maintains_ret|]. apply unit_maintains, harmless_drained_queue.
Qed.

(** Everything before the final validation. *)
Lemma run_recovery_maintains time {A} (last : ES RecoveryState (option A)) :
  maintains I last →
  maintains I (and_then (validate_store options fuel false) (λ _,
    and_then (visit_pages fuel (list_open (scan_batch_size options)) id repair_timing_row None) (λ _,
    and_then (visit_runs options fuel (Some RunRunning) (recover_run options time)) (λ _,
    and_then (visit_jobs options fuel (recover_job options time)) (λ _,
    and_then (visit_queues options fuel (recover_queue time)) (λ _, last)))))).
Proof.
  intros Hlast. destruct (lists_read (scan_batch_size options)) as (Hruns & _ & _ & Hjobs & Hqueues).
  destruct (repairs_maintain time) as (H1 & H2 & H3 & H4).
  apply maintains_and_then; [apply validate_maintains|intros _]. unfold visit_runs, visit_jobs, visit_queues.
  repeat (apply maintains_and_then; [apply maintains_visit_pages; eauto with reads|intros _]). done.
Qed.

Lemma recovery_maintains : maintains I (recover_startup options fuel).
Proof.
  intros w r w' HI. unfold recover_startup. destruct (_ || _); [by intros [= <- <-]|].
  assert (Hm : ∀ time, maintains I (run_recovery options time fuel)).
  { intros time. unfold run_recovery. apply run_recovery_maintains.
    apply maintains_and_then; [apply validate_maintains|intros _]. apply maintains_finishing, maintains_gets. }
  destruct (run_recovery options _ fuel _) as [x w1] eqn:Hw.
  assert (HI1 : I (tables (store w1))) by (refine (Hm _ _ _ _ _ Hw); exact HI). destruct x; by intros [= <- <-].
Qed.

End Invariant.

Lemma yields_maintains {A} (I : Tables → Prop) (m : ES RecoveryState A) t :
  maintains I m → I t → yields m t (λ _ t', I t').
Proof. intros Hm Ht w v w' <- Hw. by eapply Hm. Qed.

(** What evolution keeps, the units keep. *)
Lemma evolution_kept options (I : Tables → Prop) :
  (∀ t t', evolves t t' → I t → I t') →
  (∀ time r lower t, I t → tx (interrupt_unit options time r lower) t (λ _, I)) ∧
  (∀ A (m : ES Session A) t, harmless m → I t → tx m t (λ _, I)).
Proof.
  intros HI. split.
  - intros time r lower t Ht. destruct (interrupt_unit_safe options time r lower) as [Hu _].
    eapply tx_mono; [|apply Hu]. intros v t' Hev. exact (HI _ _ Hev Ht).
  - intros A m t [Hm _] Ht. eapply tx_mono; [|apply Hm]. intros v t' Hev. exact (HI _ _ Hev Ht).
Qed.

Lemma recovery_evolves options fuel w r w' :
  recover_startup options fuel w = (r, w') → evolves (tables (store w)) (tables (store w')).
Proof.
  destruct (evolution_kept options (evolves (tables (store w)))) as [Hi Hh].
  - intros t t' H12 H01. by transitivity t.
  - intros Hw. refine (recovery_maintains _ options fuel Hi Hh _ _ _ _ Hw). reflexivity.
Qed.

(** The final validation sees tables that have their keys. *)
Lemma run_recovery_validated options time fuel t :
  (0 < scan_batch_size options)%nat → keyed t →
  yields (run_recovery options time fuel) t (λ r t', is_Some r → keyed t' ∧ store_valid t' ∧ settled t').
Proof.
  intros Hpos Hk.
  destruct (evolution_kept options keyed (λ t t' Hev, evolves_keyed t t' Hev)) as [Hi Hh].
  destruct (lists_read (scan_batch_size options)) as (Hruns & _ & _ & Hjobs & Hqueues).
  destruct (repairs_maintain keyed options Hi Hh time) as (H1 & H2 & H3 & H4).
  assert (Hstep : ∀ A B (m : ES RecoveryState (option A)) (k : A → ES RecoveryState (option B)) t Q,
    maintains keyed m → keyed t → (∀ v t', keyed t' → yields (k v) t' (λ r t', is_Some r → Q t')) →
    yields (and_then m k) t (λ r t', is_Some r → Q t')).
  { intros A B m k t' Q Hm Ht' Hk'. apply yields_and_then. eapply yields_mono; [|by apply (yields_maintains keyed)].
    intros [v|] t2 Ht2; [by apply Hk'|by intros [? ?]]. }
  unfold run_recovery, visit_runs, visit_jobs, visit_queues.
  apply Hstep; [by apply validate_maintains|done|intros _ t1 Hk1].
  apply Hstep; [apply maintains_visit_pages; eauto with reads|done|intros _ t2 Hk2].
  apply Hstep; [apply maintains_visit_pages; eauto with reads|done|intros _ t3 Hk3].
  apply Hstep; [apply maintains_visit_pages; eauto with reads|done|intros _ t4 Hk4].
  apply Hstep; [apply maintains_visit_pages; eauto with reads|done|intros _ t5 Hk5].
  apply yields_and_then. eapply yields_mono; [|by apply validate_store_spec].
  intros [[]|] t6 [-> Hvalid]; [|by intros [? ?]]. destruct (Hvalid eq_refl) as [Hv Hs]. specialize (Hs eq_refl).
  apply yields_finishing. by intros w v w' <- [= <- <-].
Qed.

Lemma recovery_validated options fuel w report w' :
  keyed (tables (store w)) → recover_startup options fuel w = (success (Some report), w') →
  keyed (tables (store w')) ∧ store_valid (tables (store w')) ∧ settled (tables (store w')).
Proof.
  intros Hk. unfold recover_startup. destruct (_ || _) eqn:Hopt; [done|].
  apply orb_false_iff in Hopt as [Hpos%Nat.eqb_neq _].
  destruct (run_recovery options _ fuel _) as [[x|e] w1] eqn:Hw; [|done]. intros [= -> <-].
  refine (run_recovery_validated options _ fuel (tables (store w)) _ Hk _ _ _ _ Hw _); [lia|done|by eexists].
Qed.

End Whole.
