(* ===== verification/RecoveryTermination.v ===== *)
(** * Termination of startup recovery

    Recovery walks its tables page by page while it changes them.  Every page
    moves the cursor past a key of the table as it was when the walk began,
    and no repair adds a key that the walk would visit: running runs, open
    timing rows, definitions and queues are never created by recovery.  So
    every walk ends, and with enough fuel the loops of [Recovery] end in the
    code's own result, which more fuel does not change. *)

From stdpp Require Import base numbers strings list gmap sets relations.
From S2P Require Import Prelude Effects Values OutputCapture RetryPolicy CronEngine Domain StorageFailure Storage.
From S2P Require Import WaitRepository SchedulerRepository Lifecycle Completion RecoveryRepository Recovery Keyset.
From S2P Require Import StoreLogic StoreInvariant RecoveryLogic RecoverySound RecoverySafety.
Local Open Scope Z_scope.

(** ** Loops that end *)

Section Halts.
Context `{Environment} `{Startup}.
Abbreviation Rec := (ES RecoveryState).

(** Enough fuel gives an end that more fuel does not change. *)
Definition halts {A} (m : nat → Rec (option A)) (w : RecoveryState) : Prop :=
  ∃ n r w', r ≠ success None ∧ ∀ fuel, (n ≤ fuel)%nat → m fuel w = (r, w').

Lemma halts_finishing {A} (m : Rec A) w : halts (λ _, finishing m) w.
Proof.
  unfold halts, finishing, mbind, ES_bind. exists 0%nat. destruct (m w) as [[v|e] w'].
  - by exists (success (Some v)), w'.
  - by exists (failure e), w'.
Qed.

Lemma halts_more {A} (m : nat → Rec (option A)) w : halts (λ fuel, m (S fuel)) w → halts m w.
Proof.
  intros (n & r & w' & Hr & Hm). exists (S n), r, w'. split; [done|]. intros [|fuel] Hf; [lia|]. apply Hm. lia.
Qed.

Lemma halts_bind {A B} (m : Rec A) (k : nat → A → Rec (option B)) w :
  (∀ v w', m w = (success v, w') → halts (λ fuel, k fuel v) w') → halts (λ fuel, m ≫= k fuel) w.
Proof.
  intros Hk. unfold halts, mbind, ES_bind. destruct (m w) as [[v|e] w1] eqn:Hw; [by apply Hk|].
  exists 0%nat, (failure e), w1. done.
Qed.

Lemma halts_and_then {A B} (m : nat → Rec (option A)) (k : nat → A → Rec (option B)) w :
  halts m w → (∀ fuel v w', m fuel w = (success (Some v), w') → halts (λ fuel, k fuel v) w') →
  halts (λ fuel, and_then (m fuel) (k fuel)) w.
Proof.
  intros (n & r & w1 & Hr & Hm) Hk. unfold halts, and_then, mbind, ES_bind. destruct r as [[v|]|e]; [|done|].
  - destruct (Hk n v w1 (Hm n (le_n n))) as (n2 & r2 & w2 & Hr2 & Hm2). exists (n `max` n2)%nat, r2, w2. split; [done|].
    intros fuel Hf. rewrite Hm by lia. apply Hm2. lia.
  - exists n, (failure e), w1. split; [done|]. intros fuel Hf. by rewrite Hm.
Qed.

Section Walk.
Context {K A : Type} (before : K → K → bool) `{!StrictTotal before}.
Variables (keys : list K) (J : Session → Prop) (read : option K → ES Session (list A)) (key_of : A → K)
  (visit : A → Rec unit).
Hypothesis Hread : ∀ after s rows s', J s → read after s = (success rows, s') →
  J s' ∧ ∀ v, v ∈ rows → key_of v ∈ keys ∧ beyond before after (key_of v).
Hypothesis Hvisit : ∀ v w u w', J (store w) → visit v w = (success u, w') → J (store w').

Lemma visit_all_walks rows w u w' : J (store w) → visit_all visit rows w = (success u, w') → J (store w').
Proof.
  revert w. induction rows as [|v rows IH]; intros w HJ; [by intros [= _ <-]|].
  cbn [visit_all]. unfold mbind, ES_bind. destruct (visit v w) as [[x|] w1] eqn:Hv; [|done]. by eapply IH, Hvisit.
Qed.

Lemma halts_visit_pages after w :
  J (store w) → halts (λ fuel, visit_pages fuel read key_of visit after) w.
Proof.
  remember (length (List.filter (ahead before after) keys)) as n eqn:Hn. revert after w Hn.
  induction (lt_wf n) as [n _ IH]. intros after w -> HJ. apply halts_more. cbn [visit_pages].
  apply halts_bind. intros u w1 Hw1%check_stop_store. apply halts_bind. intros rows w2 (s & Hs & Hw2)%in_store_tables.
  rewrite Hw1 in Hs. destruct (Hread _ _ _ _ HJ Hs) as [HJ2 Hrows]. rewrite <- Hw2 in HJ2.
  destruct (last rows) as [back|] eqn:Hback; [|apply halts_finishing].
  destruct (Hrows back) as [Hin Hbeyond]; [by apply last_Some_elem_of|].
  apply halts_bind. intros u' w3 Hw3. apply (IH _ (ahead_shorter before _ _ _ Hin Hbeyond)); [done|].
  by eapply visit_all_walks.
Qed.

End Walk.

(** A walk over tables that keep [I] and whose keys stay among [keys]. *)
Lemma halts_scan {K A} (before : K → K → bool) `{!StrictTotal before} (keys_of : Tables → list K) (key_of : A → K)
    P limit read visit (I : Tables → Prop) (keys : list K) w :
  scans before keys_of key_of P limit read → (∀ after, reads (read after)) → (∀ t, I t → keyed t) →
  (∀ t k, I t → k ∈ keys_of t → k ∈ keys) → (∀ v, maintains I (visit v)) → I (tables (store w)) →
  halts (λ fuel, visit_pages fuel read key_of visit None) w.
Proof.
  intros Hscan Hreads Hkeyed Hkeys Hvisit HI. apply (halts_visit_pages before keys (λ s, I (tables s))); [| |done].
  - intros after s rows s' Hs Hr. pose proof (Hreads _ _ _ _ Hr) as Heq. split; [by rewrite Heq|]. intros v Hv.
    destruct (Hscan _ (Hkeyed _ Hs) after s rows s' eq_refl Hr) as [_ Hrows].
    apply list_elem_of_lookup in Hv as [i Hi]. destruct (Forall2_lookup_r _ _ _ _ _ Hrows Hi) as (k & Hk & _ & ->).
    apply list_elem_of_lookup_2, page_elem in Hk as [Hin ?]. split; [by eapply Hkeys|done].
  - intros v w1 u w2 H1 H2. by eapply Hvisit.
Qed.

(** ** Timing rows *)

(** No timing row appears. *)
Definition no_new_rows {A} (m : ES Session A) : Prop :=
  ∀ s r s' k, m s = (r, s') → is_Some (timing s' !! k) → is_Some (timing s !! k).

Lemma rows_bind {A B} (m : ES Session A) (k : A → ES Session B) :
  no_new_rows m → (∀ v, no_new_rows (k v)) → no_new_rows (m ≫= k).
Proof.
  intros Hm Hk s r s' x. unfold mbind, ES_bind. destruct (m s) as [[v|e] s1] eqn:Hs.
  - intros Hr Hx. eapply Hm, Hk; eauto.
  - intros [= <- <-]. by eapply Hm.
Qed.

Lemma rows_of_result {A} (x : result Error A) : no_new_rows (of_result x).
Proof. by intros s r s' k [= <- <-]. Qed.
Lemma rows_ret {A} (v : A) : no_new_rows (mret v).
Proof. by intros s r s' k [= <- <-]. Qed.
Lemma rows_throw {A} e : no_new_rows (throw e : ES Session A).
Proof. by intros s r s' k [= <- <-]. Qed.
Lemma rows_gets {A} (f : Session → A) : no_new_rows (gets f).
Proof. by intros s r s' k [= <- <-]. Qed.
Lemma rows_statement : no_new_rows statement.
Proof. intros s r s' k [_ Hs]%statement_tables. by rewrite Hs. Qed.
Lemma rows_query {A} (f : Tables → A) : no_new_rows (query f).
Proof. apply rows_bind; [apply rows_statement|]. intros _. apply rows_gets. Qed.

Lemma rows_read_timing id : no_new_rows (read_timing id).
Proof.
  apply rows_bind; [apply rows_query|]. intros t. apply rows_bind; [apply rows_gets|]. intros rows.
  destruct (runs t !! id), (rows !! id); [|apply rows_throw..].
  apply rows_bind; [apply rows_of_result|]. intros row. apply rows_ret.
Qed.

Lemma rows_write_timing id row : no_new_rows (write_timing id row).
Proof.
  apply rows_bind; [apply rows_statement|]. intros _ s r s' k. unfold mbind, ES_bind, gets, require, of_result.
  destruct (timing s !! id) eqn:Hid; [|by intros [= <- <-]]. intros [= <- <-]. cbn [timing set_timing].
  intros [x [[<- _]|[_ Hx]]%lookup_insert_Some]; by eexists.
Qed.

Lemma rows_repair_abandoned id : no_new_rows (repair_abandoned id).
Proof.
  apply rows_bind; [apply rows_read_timing|]. intros found. cbv zeta. destruct (negb (is_some (open_epoch found.2))); [apply rows_ret|].
  apply rows_bind; [apply rows_write_timing|]. intros _. apply rows_ret.
Qed.

(** A committed unit has run its repair. *)
Lemma commit_unit_ran repair (J : Session → Prop) w u w' :
  (∀ s r s', J s → repair s = (r, s') → J s') → (∀ s r s', J s → statement s = (r, s') → J s') → J (store w) →
  commit_unit repair w = (success u, w') → J (store w').
Proof.
  intros Hrep Hst HJ. unfold commit_unit, mbind, ES_bind. destruct (check_stop w) as [[[]|] w1] eqn:Hc; [|done].
  apply check_stop_store in Hc. rewrite <- Hc in HJ. clear w Hc. unfold transact.
  destruct (statement (store w1)) as [[[]|] s1] eqn:H1; [|done]. destruct (repair s1) as [d s2] eqn:H2.
  assert (HJ2 : J s2) by eauto.
  assert (Hun : ∀ w e s p q, unwind w e s p q ≠ (success u, w')).
  { intros w e s p q. unfold unwind. by destruct (statement s). }
  destruct (d ← d; _) as [next|e]; [|by intros ?%Hun]. destruct (should_stop _); [by intros ?%Hun|].
  destruct (statement s2) as [[[]|] s3] eqn:H3; [|by intros ?%Hun]. intros [= _ <-]. cbn [store]. eauto.
Qed.

Lemma open_row_elem x k : k ∈ open_rows x → is_Some (x !! k).
Proof.
  unfold open_rows. rewrite sort_by_elem. intros ([k' row] & -> & Hin)%list_elem_of_fmap.
  apply elem_of_map_to_list, map_lookup_filter_Some in Hin as [? _]. by eexists.
Qed.

Lemma list_open_rows limit after s rows s' :
  list_open limit after s = (success rows, s') →
  timing s' = timing s ∧ ∀ k, k ∈ rows → k ∈ open_rows (timing s) ∧ beyond bytes_ltb after k.
Proof.
  unfold list_open, mbind, ES_bind, gets, ensure, of_result. destruct (_ && _); [|done].
  destruct (statement s) as [[[]|] s1] eqn:Hs; [|done]. apply statement_tables in Hs as [_ Hs].
  destruct (forallb _ _); [|done]. intros [= <- <-]. split; [done|]. rewrite Hs. intros k.
  intros (i & Hk%list_elem_of_lookup_2 & _)%elem_of_take. apply list_elem_of_In, List.filter_In in Hk as [Hk Ha].
  split; [by apply list_elem_of_In|]. by destruct after.
Qed.

Lemma halts_timing limit w : halts (λ fuel, visit_pages fuel (list_open limit) id repair_timing_row None) w.
Proof.
  set (keys := map fst (map_to_list (timing (store w)))).
  set (J := λ s, ∀ k, is_Some (timing s !! k) → k ∈ keys).
  apply (halts_visit_pages bytes_ltb keys J).
  - intros after s rows s' HJ [Ht Hrows]%list_open_rows. split; [unfold J; by rewrite Ht|]. intros v Hv.
    destruct (Hrows v Hv) as [Hopen ?]. split; [|done]. by apply HJ, open_row_elem.
  - intros id w1 u w2 HJ. apply (commit_unit_ran _ J); [| |done]; intros s r s' Hs Hr k Hk; apply Hs; revert Hr Hk.
    + apply rows_bind; [apply rows_repair_abandoned|]. intros b. apply rows_ret.
    + apply rows_statement.
  - intros k [row Hrow]. by eapply elem_keys.
Qed.

(** ** The whole recovery *)

Section Total.
Variable options : RecoveryOptions.

(** From any tables that have their keys. *)
Definition total {A} (m : nat → Rec (option A)) : Prop := ∀ w, keyed (tables (store w)) → halts m w.

Lemma total_and_then {A B} (m : nat → Rec (option A)) (k : nat → A → Rec (option B)) :
  total m → (∀ fuel, maintains keyed (m fuel)) → (∀ v, total (λ fuel, k fuel v)) →
  total (λ fuel, and_then (m fuel) (k fuel)).
Proof.
  intros Hm Hkeep Hk w Hw. apply halts_and_then; [by apply Hm|]. intros fuel v w' Hv. apply Hk. by eapply Hkeep.
Qed.

(** A walk whose visits let the tables evolve. *)
Lemma total_scan {K A} (before : K → K → bool) `{!StrictTotal before} (keys_of : Tables → list K) (key_of : A → K)
    P limit read visit :
  scans before keys_of key_of P limit read → (∀ after, reads (read after)) →
  (∀ t t' k, evolves t t' → k ∈ keys_of t' → k ∈ keys_of t) →
  (∀ v t, maintains (evolves t) (visit v)) →
  total (λ fuel, visit_pages fuel read key_of visit None).
Proof.
  intros Hscan Hreads Hkeys Hvisit w Hw.
  apply (halts_scan before keys_of key_of P limit read visit (evolves (tables (store w))) (keys_of (tables (store w))));
    [done|done| | |done|reflexivity].
  - intros t Ht. by eapply evolves_keyed.
  - intros t k Ht. by apply Hkeys.
Qed.

(** A walk whose visits only look. *)
Lemma total_look {K A} (before : K → K → bool) `{!StrictTotal before} (keys_of : Tables → list K) (key_of : A → K)
    P limit read visit :
  scans before keys_of key_of P limit read → (∀ after, reads (read after)) →
  (∀ v t, maintains (eq t) (visit v)) → total (λ fuel, visit_pages fuel read key_of visit None).
Proof.
  intros Hscan Hreads Hvisit w Hw.
  apply (halts_scan before keys_of key_of P limit read visit (eq (tables (store w))) (keys_of (tables (store w)))); try done.
  - by intros t <-.
  - by intros t k <-.
Qed.

Lemma total_validate final : total (λ fuel, validate_store options fuel final).
Proof.
  destruct (lists_read (scan_batch_size options)) as (Hruns & Hatt & Hout & Hjobs & Hqueues).
  intros w Hw. apply halts_bind. intros u w1 Hw1.
  assert (Hkey1 : keyed (tables (store w1))).
  { revert Hw1. destruct final; [|by intros [= _ <-]]. apply (maintains_bind keyed); [| |done].
    - apply maintains_in_store; eauto with reads.
    - intros open. apply maintains_refuse. }
  clear Hw1 Hw w. revert w1 Hkey1.
  change (total (λ fuel, and_then (visit_runs options fuel None (λ r, refuse (final && bool_decide (run_state r = RunRunning))
    "running_run_after_recovery")) (λ _, and_then (visit_pages fuel (list_attempts (scan_batch_size options))
    (λ a, (attempt_run a, attempt_number a)) (λ a, refuse (final && is_running_attempt a) "running_attempt_after_recovery") None)
    (λ _, and_then (visit_pages fuel (list_outputs (scan_batch_size options)) id (λ _, mret tt) None)
    (λ _, and_then (visit_jobs options fuel (validate_job final)) (λ _, visit_queues options fuel
    (λ q, refuse (final && bool_decide (queue_state q = QueueSuspending)) "queue_still_suspending"))))))).
  apply total_and_then; [eapply total_look; [tc_solve|apply list_runs_scans|done|intros; apply maintains_refuse]| |intros _].
  { intros fuel. apply maintains_visit_pages; [done|intros; apply maintains_refuse]. }
  apply total_and_then; [eapply total_look; [tc_solve|apply list_attempts_scans|done|intros; apply maintains_refuse]| |intros _].
  { intros fuel. apply maintains_visit_pages; [done|intros; apply maintains_refuse]. }
  apply total_and_then; [eapply total_look; [tc_solve|apply list_outputs_scans|done|intros; apply maintains_ret]| |intros _].
  { intros fuel. apply maintains_visit_pages; [done|intros; apply maintains_ret]. }
  apply total_and_then; [eapply total_look; [tc_solve|apply list_jobs_scans|done|intros; apply validate_job_maintains]| |intros _].
  { intros fuel. apply maintains_visit_pages; [done|intros; apply validate_job_maintains]. }
  eapply total_look; [tc_solve|apply list_queues_scans|done|intros; apply maintains_refuse].
Qed.

Lemma evolves_keys t t' :
  evolves t t' →
  (∀ k, k ∈ run_keys (Some RunRunning) t' → k ∈ run_keys (Some RunRunning) t) ∧
  (∀ k, k ∈ map fst (map_to_list (jobs t')) → k ∈ map fst (map_to_list (jobs t))) ∧
  (∀ k, k ∈ map fst (map_to_list (queues t')) → k ∈ map fst (map_to_list (queues t))).
Proof.
  intros Hev.
  assert (Hkeys : ∀ V (m m' : gmap bytes V) k, (is_Some (m' !! k) → is_Some (m !! k)) →
    k ∈ map fst (map_to_list m') → k ∈ map fst (map_to_list m)).
  { intros V m m' k Hm ([k' v] & -> & Hin)%list_elem_of_fmap. apply elem_of_map_to_list in Hin. cbn in *.
    destruct Hm as [v' Hv]; [by eexists|]. by eapply elem_keys. }
  split_and!; intros k; apply Hkeys; [|apply (evolves_job _ _ Hev)|apply (evolves_queue _ _ Hev)].
  intros [r [Hr Hrun%bool_decide_eq_true]%map_lookup_filter_Some]. cbn in Hrun.
  destruct (evolves_running _ _ Hev _ _ Hr Hrun) as (r0 & Hr0 & Hrun0). exists r0.
  apply map_lookup_filter_Some. split; [done|]. by apply bool_decide_eq_true.
Qed.

Lemma total_run_recovery time : total (λ fuel, run_recovery options time fuel).
Proof.
  destruct (lists_read (scan_batch_size options)) as (Hruns & _ & _ & Hjobs & Hqueues).
  assert (Hunits : ∀ I, (∀ t t', evolves t t' → I t → I t') →
    (∀ id, maintains I (repair_timing_row id)) ∧ (∀ r, maintains I (recover_run options time r)) ∧
    (∀ j, maintains I (recover_job options time j)) ∧ (∀ q, maintains I (recover_queue time q))).
  { intros I HI. by apply repairs_maintain; apply (evolution_kept options). }
  destruct (Hunits keyed) as (K1 & K2 & K3 & K4); [intros t t' Hev; by apply evolves_keyed|].
  assert (Hev : ∀ t, (∀ r, maintains (evolves t) (recover_run options time r)) ∧
    (∀ j, maintains (evolves t) (recover_job options time j)) ∧ (∀ q, maintains (evolves t) (recover_queue time q))).
  { intros t. apply Hunits. intros t1 t2 H12 H01. by transitivity t1. }
  apply total_and_then; [apply total_validate|intros fuel; by apply validate_maintains|intros _].
  apply total_and_then; [intros w _; apply halts_timing|intros fuel; apply maintains_visit_pages; eauto with reads|intros _].
  apply total_and_then; [|intros fuel; by apply maintains_visit_pages|intros _].
  { eapply total_scan; [tc_solve|apply list_runs_scans|done| |intros r t; apply Hev].
    intros t t' k Ht. by apply (evolves_keys t t' Ht). }
  apply total_and_then; [|intros fuel; by apply maintains_visit_pages|intros _].
  { eapply total_scan; [tc_solve|apply list_jobs_scans|done| |intros j t; apply Hev].
    intros t t' k Ht. by apply (evolves_keys t t' Ht). }
  apply total_and_then; [|intros fuel; by apply maintains_visit_pages|intros _].
  { eapply total_scan; [tc_solve|apply list_queues_scans|done| |intros q t; apply Hev].
    intros t t' k Ht. by apply (evolves_keys t t' Ht). }
  apply total_and_then; [apply total_validate|intros fuel; by apply validate_maintains|intros _].
  intros w _. apply halts_finishing.
Qed.

Lemma total_recovery : total (λ fuel, recover_startup options fuel).
Proof.
  intros w Hw. unfold halts, recover_startup. destruct (_ || _).
  { by exists 0%nat, (failure invalid_recovery_options), w. }
  set (w1 := mkRecovery _ _ _ _).
  destruct (total_run_recovery (utc_reading (readings w)) w1 Hw) as (n & r & w2 & Hr & Hrun). exists n.
  destruct r as [v|e]; [exists (success v)|exists (failure (sanitized_storage_error e OpRecovery OriginOperation))];
    exists w2; (split; [done|]); intros fuel Hf; by rewrite (Hrun fuel Hf).
Qed.

End Total.

End Halts.
