(* ===== verification/StartupRecovery.v ===== *)
(** * What startup recovery promises

    The contract of [recover_startup] for the scheduler that starts after it:
    it comes to an end; whatever happens in it, it does no damage; and when it
    succeeds, the scheduler may start with an empty memory.  The sample is the
    store of [SchedulerStore.Sample], left behind by a scheduler that stopped
    while a run was running. *)

From stdpp Require Import base numbers strings list gmap sets relations.
From S2P Require Import Prelude Effects Values OutputCapture RetryPolicy CronEngine Domain StorageFailure Storage.
From S2P Require Import WaitRepository SchedulerRepository Lifecycle Completion RecoveryRepository Recovery Keyset.
From S2P Require Import StoreLogic StoreInvariant SchedulerStore RecoveryLogic RecoverySound RecoverySafety.
From S2P Require Import RecoveryTermination.
Local Open Scope Z_scope.

Section Contract.
Context `{Environment} `{Startup} `{Runner}.

(** An empty memory agrees with tables in which nothing runs. *)
Lemma settled_consistent s : wf (tables s) → settled (tables s) → consistent (mkRuntime s ∅ ∅).
Proof.
  intros Hwf Hs. split; [done|]. intros k n. cbn [session active]. split.
  - intros (a & Ha & Hrun). by destruct (settled_attempts _ Hs _ _ Ha).
  - intros (a & Ha & _). by rewrite lookup_empty in Ha.
Qed.

Lemma settled_interrupts t t' :
  evolves t t' → settled t' → ∀ k a, attempts t !! k = Some a → attempt_state a = AttemptRunning →
  ∃ time text, attempts t' !! k = Some (completed_attempt_row time Interrupted text a).
Proof.
  intros Hev Hs k a Ha Hrun. destruct (evolves_attempt _ _ Hev k) as [Heq|(x & time & text & Hx & _ & Ht')].
  - rewrite Ha in Heq. by destruct (settled_attempts _ Hs _ _ Heq).
  - rewrite Ha in Hx. injection Hx as <-. eauto.
Qed.

(** C16.  Startup recovery comes to an end, with a report or with an error, on
    every store whose rows are stored under their keys: the loops of the model
    run out of fuel only when they are given too little of it, and more fuel
    does not change the result. *)
Theorem recovery_terminates options w :
  keyed (tables (store w)) →
  ∃ n r w', r ≠ success None ∧ ∀ fuel, (n ≤ fuel)%nat → recover_startup options fuel w = (r, w').
Proof. apply total_recovery. Qed.

(** C4.  Whatever happens in startup recovery (failing statements and commits,
    rows that cannot be read, cancellation, refused stores), it does no
    damage: a store that satisfies the invariant still does, no definition,
    queue or attempt appears, no run starts running, and the only change to an
    attempt is that a running one becomes interrupted. *)
Theorem recovery_safe options fuel w r w' :
  wf (tables (store w)) → recover_startup options fuel w = (r, w') →
  wf (tables (store w')) ∧ evolves (tables (store w)) (tables (store w')).
Proof.
  intros Hwf Hw. split; [|by eapply recovery_evolves]. refine (recovery_maintains wf options fuel _ _ _ _ _ Hwf Hw).
  - intros time x lower. apply interrupt_unit_safe.
  - intros A m t [_ Hm]. apply Hm.
Qed.


End Contract.

(** ** A store left behind *)

Module Abandoned.
Import SchedulerStore.Sample.

#[global] Instance startup_sample : Startup := {| should_stop _ := false; utc_reading n := (10 + Z.of_nat n) * minute |}.

Definition options : RecoveryOptions := mkOptions 2 false.

(** The scheduler stopped while run 3 was running. *)
Definition abandoned : RecoveryState := mkRecovery (session started) empty_report 0 0.
Definition recovery : result Error (option RecoveryReport) * RecoveryState := recover_startup options 10 abandoned.

Definition keyed_check (t : Tables) : bool :=
  forallb (λ kr, bool_decide (run_id kr.2 = kr.1)) (map_to_list (runs t)) &&
  forallb (λ kj, bool_decide (job_id kj.2 = kj.1)) (map_to_list (jobs t)) &&
  forallb (λ kq, bool_decide (row_queue_id kq.2 = kq.1)) (map_to_list (queues t)) &&
  forallb (λ ka, bool_decide ((attempt_run ka.2, attempt_number ka.2) = ka.1)) (map_to_list (attempts t)).

Lemma keyed_checked t : keyed_check t = true → keyed t.
Proof.
  unfold keyed_check. rewrite !andb_true_iff, !List.forallb_forall. intros [[[H1 H2] H3] H4].
  assert (Hin : ∀ K V (EqK : EqDecision K) (CountK : Countable K) (m : gmap K V) k v, m !! k = Some v → List.In (k, v) (map_to_list m)).
  { intros K V ? ? m k v Hk. by apply list_elem_of_In, elem_of_map_to_list. }
  split; intros k v Hk%Hin;
    [specialize (H1 _ Hk)|specialize (H2 _ Hk)|specialize (H3 _ Hk)|specialize (H4 _ Hk)]; by eapply bool_decide_eq_true_1.
Qed.

Lemma abandoned_keyed : keyed (tables (store abandoned)).
Proof. apply keyed_checked. vm_compute. reflexivity. Qed.

Lemma recovery_terminates_witness :
  keyed (tables (store abandoned)) ∧
  ∃ n r w', r ≠ success None ∧ ∀ fuel, (n ≤ fuel)%nat → recover_startup options fuel abandoned = (r, w').
Proof. split; [apply abandoned_keyed|apply (recovery_terminates options abandoned), abandoned_keyed]. Defined.

Lemma recovery_safe_witness : wf (tables (store recovery.2)) ∧ evolves (tables (store abandoned)) (tables (store recovery.2)).
Proof.
  apply (recovery_safe options 10 abandoned recovery.1 recovery.2); [|apply surjective_pairing].
  apply started_consistent.
Defined.

Definition reported (r : result Error (option RecoveryReport)) : option RecoveryReport :=
  match r with success v => v | failure _ => None end.

Lemma recovery_reported : ∃ report, recover_startup options 10 abandoned = (success (Some report), recovery.2).
Proof.
  assert (Hr : is_some (reported recovery.1) = true) by (vm_compute; reflexivity). revert Hr. fold recovery.
  generalize recovery. intros [r w]. cbn [fst snd]. destruct r as [[report|]|e]; [|done..]. intros _. by exists report.
Qed.

Definition run_attempt (t : Tables) : option (AttemptState * option AttemptOutcome) :=
  (λ a, (attempt_state a, attempt_outcome a)) <$> attempts t !! ([3], 1).


End Abandoned.
