(* ===== verification/ManagementStatements.v ===== *)
(** * What the statements of management do

    The effect of every statement of [ManagementRepository] on the tables, when
    it succeeds. *)

From stdpp Require Import base numbers strings list gmap sets.
From S2P Require Import Prelude Effects Values OutputCapture RetryPolicy CronEngine Domain ResourceNames StorageFailure Storage.
From S2P Require Import SchedulerRepository ManagementRepository Lifecycle Management ManagementOperations StoreLogic.
From S2P Require Import Keyset ManagementLogic ManagementAtomicity StoreInvariant RecoverySound.
Local Open Scope Z_scope.

(** ** Statements *)

(** The queue that a selector names, in the row of its identifier. *)
Definition selected (selector : QueueSelector) (t : Tables) (q : Queue) : Prop :=
  queues t !! row_queue_id q = Some q ∧
  match selector with ById id => row_queue_id q = id | ByName name => queue_name q = name end.

(** No live queue other than [id] has the name. *)
Definition name_free (name id : bytes) (t : Tables) : Prop :=
  ∀ k q, queues t !! k = Some q → row_queue_id q ≠ id → queue_state q ≠ QueueDeleted → queue_name q ≠ name.

(** None of the chosen runs is running. *)
Definition none_running (chosen : JobRun → bool) (t : Tables) : Prop :=
  ∀ k r, runs t !! k = Some r → chosen r = true → run_state r ≠ RunRunning.

Section Statements.
Context `{Environment}.
Implicit Type t : Tables.

Lemma elem_queues_where p t q : q ∈ queues_where p t ↔ ∃ k, queues t !! k = Some q ∧ p q = true.
Proof.
  unfold queues_where. split.
  - intros ([k x] & -> & Hx%elem_of_map_to_list)%list_elem_of_fmap. apply map_lookup_filter_Some in Hx as [Hx Hp].
    by exists k.
  - intros (k & Hk & Hp). apply list_elem_of_fmap. exists (k, q). split; [done|].
    apply elem_of_map_to_list, map_lookup_filter_Some. done.
Qed.

Lemma tx_find_queue_with_id id include t (Q : option Queue → Tables → Prop) :
  (∀ o, (∀ q, o = Some q → queues t !! id = Some q ∧ (include = false → is_deleted_queue q = false)) → Q o t) →
  tx (find_queue_with_id id include) t Q.
Proof.
  intros HQ. unfold find_queue_with_id. tx_step. tx_step. destruct (queues t !! id) as [q|] eqn:Hq; cbn [mbind option_bind].
  2: { tx_step. by apply HQ. }
  destruct (include || negb (is_deleted_queue q)) eqn:Hi; [|tx_step; by apply HQ].
  tx_step. apply tx_of_result. intros v Hv. apply decode_queue_row in Hv as ->. tx_step. apply HQ. intros ? [= <-].
  split; [done|]. intros ->. by apply negb_true_iff.
Qed.

Lemma tx_find_queue_by_name name include t (Q : option Queue → Tables → Prop) :
  (∀ o, match o with
        | Some q => ∃ k, queues t !! k = Some q ∧ queue_name q = name ∧ (include = false → is_deleted_queue q = false)
        | None => include = false → ∀ k q, queues t !! k = Some q → is_deleted_queue q = false → queue_name q ≠ name
        end → Q o t) →
  tx (find_queue_by_name name include) t Q.
Proof.
  intros HQ. unfold find_queue_by_name. tx_step. tx_step.
  assert (Hin : ∀ q rest, queues_named name include t = q :: rest →
    ∃ k, queues t !! k = Some q ∧ queue_name q = name ∧ (include = false → is_deleted_queue q = false)).
  { intros q rest Hq. assert (Hq' : q ∈ queues_named name include t) by (rewrite Hq; by left).
    unfold queues_named in Hq'. destruct include.
    - apply elem_of_take in Hq' as (i & Hq'%list_elem_of_lookup_2 & _). rewrite sort_by_elem in Hq'. apply elem_queues_where in Hq' as (k & Hk & Hn%bool_decide_eq_true). by exists k.
    - apply elem_queues_where in Hq' as (k & Hk & [Hd Hn%bool_decide_eq_true]%andb_true_iff). exists k.
      split_and!; [done..|]. intros _. by apply negb_true_iff. }
  destruct (queues_named name include t) as [|q rest] eqn:Hrows.
  - tx_step. apply HQ. intros -> k q Hk Hd <-. unfold queues_named in Hrows.
    assert (Hq : q ∈ queues_where (λ q', negb (is_deleted_queue q') && bytes_eqb (queue_name q') (queue_name q)) t).
    { apply elem_queues_where. exists k. split; [done|]. unfold bytes_eqb. by rewrite Hd, bool_decide_true. }
    rewrite Hrows in Hq. by apply elem_of_nil in Hq.
  - tx_step. apply tx_of_result. intros v Hv. apply decode_queue_row in Hv as ->. tx_step. apply tx_ensure. intros _.
    tx_step. apply HQ. by eapply Hin.
Qed.

(** The queue that a selector names, under its own identifier. *)
Lemma tx_find_queue_selected selector include t (Q : option Queue → Tables → Prop) :
  wf t →
  (∀ o, (∀ q, o = Some q → selected selector t q ∧ (include = false → is_deleted_queue q = false)) → Q o t) →
  tx (find_queue_selected selector include) t Q.
Proof.
  intros Hwf HQ. destruct selector as [id|name]; cbn [find_queue_selected].
  - apply tx_find_queue_with_id. intros o Ho. apply HQ. intros q Hq. destruct (Ho q Hq) as [Hk ?].
    pose proof (wf_queue_key _ Hwf _ _ Hk) as Hid. by rewrite <- Hid in Hk.
  - apply tx_find_queue_by_name. intros o Ho. apply HQ. intros q ->. destruct Ho as (k & Hk & Hn & ?).
    pose proof (wf_queue_key _ Hwf _ _ Hk) as Hid. by rewrite <- Hid in Hk.
Qed.

Lemma name_taken_free name id t : name_taken name id t = false → name_free name id t.
Proof.
  intros Ht%negb_false_iff%bool_decide_eq_true k q Hq Hid Hd <-.
  assert (Hin : q ∈ queues_where (λ x, bytes_eqb (stored_name x) (queue_name q) && negb (bytes_eqb (row_queue_id x) id)) t).
  { apply elem_queues_where. exists k. split; [done|]. unfold stored_name, is_deleted_queue, bytes_eqb.
    rewrite (bool_decide_false (queue_state q = _)) by done. by rewrite bool_decide_true, bool_decide_false. }
  rewrite Ht in Hin. by apply elem_of_nil in Hin.
Qed.

Lemma tx_find_job_with_id id include t (Q : option JobDefinition → Tables → Prop) :
  (∀ o, (∀ j, o = Some j → jobs t !! id = Some j) → Q o t) → tx (find_job_with_id id include) t Q.
Proof.
  intros HQ. unfold find_job_with_id. tx_step. tx_step. destruct (jobs t !! id) as [j|] eqn:Hj; cbn [mbind option_bind].
  2: { tx_step. by apply HQ. }
  destruct (include || negb (is_deleted_job j)); [|tx_step; by apply HQ].
  tx_step. apply tx_of_result. intros v Hv. apply decode_job_row in Hv as [-> _]. tx_step. apply HQ. by intros ? [= <-].
Qed.

Lemma tx_translated {A} g (m : ES Session A) t (Q : A → Tables → Prop) : tx m t Q → tx (translated g m) t Q.
Proof. intros Hm. by apply tx_rethrow. Qed.

Lemma tx_insert_queue q t (Q : unit → Tables → Prop) :
  (queues t !! row_queue_id q = None → name_free (queue_name q) (row_queue_id q) t → Q tt (set_queues (<[row_queue_id q := queue_row q]> (queues t)) t)) →
  tx (insert_queue q) t Q.
Proof.
  intros HQ. unfold insert_queue. do 4 tx_step. apply tx_translated. tx_step. tx_step. cbn [id].
  destruct (queues t !! row_queue_id q) as [x|] eqn:E; cbn [is_some orb]; [tx_step|].
  destruct (name_taken _ _ _) eqn:Ht; [tx_step|]. apply name_taken_free in Ht.
  eapply tx_modify; [intros s _; cbn [tables set_tables]; reflexivity|]. by apply HQ.
Qed.

Lemma tx_update_queue_row id guard f t (Q : bool → Tables → Prop) :
  Q false t →
  (∀ q, queues t !! id = Some q → guard q = true → name_free (stored_name (f q)) id t →
     Q true (set_queues (<[id := f q]> (queues t)) t)) →
  tx (update_queue_row id guard f) t Q.
Proof.
  intros HF HT. unfold update_queue_row. tx_step. tx_step. destruct (queues t !! id) as [q|]; [|by tx_step].
  destruct (guard q) eqn:Hg; [|by tx_step].
  destruct (name_taken _ _ _) eqn:Ht; [tx_step|]. apply name_taken_free in Ht. tx_step.
  eapply tx_modify; [intros s _; cbn [tables set_tables]; reflexivity|]. tx_step. by apply HT.
Qed.

Lemma storable_bound v r : positive_unsigned_to_storage v = success r → v ≤ int64_max.
Proof. unfold positive_unsigned_to_storage. destruct (_ || _) eqn:Hv; [done|]. apply orb_false_iff in Hv. lia. Qed.

Lemma tx_replace_fields q er defaults t (Q : bool → Tables → Prop) :
  Q false t →
  (∀ old, queues t !! row_queue_id q = Some old → queue_revision old = er → is_deleted_queue old = false →
     name_free (queue_name q) (row_queue_id q) t → queue_revision q ≤ int64_max →
     Q true (set_queues (<[row_queue_id q := with_configuration q defaults old]> (queues t)) t)) →
  tx (replace_mutable_fields q er defaults) t Q.
Proof.
  intros HF HT. unfold replace_mutable_fields. do 2 tx_step. tx_step. apply tx_of_result. intros r Hrev.
  apply storable_bound in Hrev. do 4 tx_step. apply tx_translated, tx_update_queue_row; [done|].
  intros old Hold [Hr Hd%negb_true_iff]%andb_true_iff Hfree. apply HT; [done|lia|done| |done].
  unfold stored_name in Hfree. unfold is_deleted_queue in Hd, Hfree. cbn [with_configuration queue_state queue_name] in Hfree.
  by rewrite Hd in Hfree.
Qed.

Lemma tx_mark_queue_deleted id original er nr at_ t (Q : bool → Tables → Prop) :
  Q false t →
  (∀ q, queues t !! id = Some q → queue_state q = QueueSuspended → queue_revision q = er → nr = er + 1 →
     Q true (set_queues (<[id := tombstone original nr (floor_us at_) q]> (queues t)) t)) →
  tx (mark_queue_deleted id original er nr at_) t Q.
Proof.
  intros HF HT. unfold mark_queue_deleted. do 4 tx_step. tx_step. apply tx_ensure. intros Hr. apply tx_update_queue_row; [done|].
  intros q Hq [[Hs%bool_decide_eq_true He]%andb_true_iff _]%andb_true_iff _. apply HT; [done|done|lia|lia].
Qed.

Lemma tx_insert_job j t (Q : unit → Tables → Prop) :
  (jobs t !! job_id j = None → valid_optional_name (job_name j) = true → Q tt (set_jobs (<[job_id j := job_row j]> (jobs t)) t)) → tx (insert_job j) t Q.
Proof.
  intros HQ. unfold insert_job. tx_step. apply tx_ensure. intros Hn. do 8 tx_step. destruct (jobs t !! job_id j) as [x|] eqn:E; cbn [is_some]; [tx_step|].
  tx_step; [tx_step|].
  eapply tx_modify; [intros s _; cbn [tables set_tables]; reflexivity|]. by apply HQ.
Qed.

Lemma tx_update_job_row id guard f t (Q : bool → Tables → Prop) :
  Q false t →
  (∀ j, jobs t !! id = Some j → guard t j = true → Q true (set_jobs (<[id := f j]> (jobs t)) t)) →
  tx (update_job_row id guard f) t Q.
Proof.
  intros HF HT. unfold update_job_row. tx_step. tx_step. destruct (jobs t !! id) as [j|]; [|by tx_step].
  destruct (guard t j) eqn:Hg; [|by tx_step]. destruct (negb _); [tx_step|]. tx_step.
  eapply tx_modify; [intros s _; cbn [tables set_tables]; reflexivity|]. tx_step. by apply HT.
Qed.

Lemma tx_update_definition new er t (Q : bool → Tables → Prop) :
  Q false t →
  (∀ j, jobs t !! job_id new = Some j → job_revision j = er → is_mutable_state (job_state j) = true →
     valid_optional_name (job_name new) = true →
     Q true (set_jobs (<[job_id new := with_definition new j]> (jobs t)) t)) →
  tx (update_definition new er) t Q.
Proof.
  intros HF HT. unfold update_definition. tx_step. apply tx_ensure. intros [[Hn _]%andb_true_iff _]%andb_true_iff.
  do 4 tx_step. apply tx_update_job_row; [done|].
  intros j Hj [[He _]%andb_true_iff Hm]%andb_true_iff. apply HT; [done|lia|done|done].
Qed.

Lemma tx_move_row id er target nr at_ t (Q : bool → Tables → Prop) :
  Q false t →
  (∀ j, jobs t !! id = Some j → job_state j = JobSuspended → job_revision j = er → nr = er + 1 →
     Q true (set_jobs (<[id := with_queue target nr (floor_us at_) j]> (jobs t)) t)) →
  tx (move_job_row id er target nr at_) t Q.
Proof.
  intros HF HT. unfold move_job_row. tx_step. apply tx_ensure. intros Hn%negb_true_iff. do 4 tx_step.
  apply tx_update_job_row; [done|]. apply orb_false_iff in Hn as [_ Hn%negb_false_iff].
  intros j Hj Hg. rewrite !andb_true_iff, bool_decide_eq_true in Hg. apply HT; [done|naive_solver|lia|lia].
Qed.

Lemma tx_mark_job_deleted id er nr at_ t (Q : bool → Tables → Prop) :
  Q false t →
  (∀ j, jobs t !! id = Some j → job_state j ≠ JobDeleted → job_revision j = er → nr = er + 1 →
     Q true (set_jobs (<[id := deleted_job nr (floor_us at_) j]> (jobs t)) t)) →
  tx (mark_job_deleted id er nr at_) t Q.
Proof.
  intros HF HT. unfold mark_job_deleted. tx_step. apply tx_ensure. intros Hn%negb_true_iff. do 4 tx_step.
  apply tx_update_job_row; [done|]. apply orb_false_iff in Hn as [_ Hn%negb_false_iff].
  intros j Hj Hg. rewrite !andb_true_iff in Hg. destruct Hg as [[He _] Hs]. apply HT; [done| |lia|lia].
  intros Hd. by rewrite Hd in Hs.
Qed.

Lemma tx_mark_all queue at_ t (Q : nat → Tables → Prop) :
  Q (length (jobs_where (λ j, in_queue queue j && negb (is_some (deleted_at j))) t))
    (set_jobs ((λ j, if in_queue queue j && negb (is_some (deleted_at j))
                     then deleted_job (job_revision j + 1) (floor_us at_) j else j) <$> jobs t) t) →
  tx (mark_all_in_queue_deleted queue at_) t Q.
Proof.
  intros HQ. unfold mark_all_in_queue_deleted. cbv zeta. tx_step. tx_step. tx_step.
  eapply tx_modify; [intros s _; cbn [tables set_tables]; reflexivity|]. by tx_step.
Qed.

Lemma tx_update_runs chosen f t (Q : nat → Tables → Prop) :
  Q (length (runs_where (chosen t) t)) (set_runs ((λ r, if chosen t r then f r else r) <$> runs t) t) →
  tx (update_runs chosen f) t Q.
Proof.
  intros HQ. unfold update_runs. tx_step. tx_step. tx_step.
  eapply tx_modify; [intros s _; cbn [tables set_tables]; reflexivity|]. by tx_step.
Qed.

Lemma tx_insert_initial_run r a p measurement t (Q : unit → Tables → Prop) :
  (∀ j, runs t !! run_id r = None → runs_where (live_schedule_owned (run_job r)) t = [] →
     jobs t !! run_job r = Some j → Q tt (set_runs (<[run_id r := scheduled_row r]> (runs t)) t)) →
  tx (insert_initial_run r a p measurement) t Q.
Proof.
  intros HQ. unfold insert_initial_run. do 4 tx_step. tx_step. apply tx_find_schedule_owned. intros existing Hv. tx_step. tx_step.
  tx_step. apply tx_insert_run_row.
  - intros e. tx_step. destruct (bool_decide _); [|tx_step]. tx_step. apply tx_find_schedule_owned. intros v' _. tx_step. tx_step. tx_step.
  - intros j Hid Hl Hj _. tx_step. tx_step. tx_step. apply (HQ j); [done|by apply Hl|done].
Qed.

Lemma tx_manual_pending job t (Q : bool → Tables → Prop) :
  (∀ b, (b = false → runs_where (live_manual_of job) t = []) → Q b t) → tx (has_non_terminal_manual_run job) t Q.
Proof.
  intros HQ. unfold has_non_terminal_manual_run. tx_step. tx_step. tx_step. apply tx_ensure. intros [Hl _]%andb_true_iff. tx_step.
  apply HQ. intros Hn. apply Nat.leb_le in Hl. apply Nat.eqb_neq in Hn. destruct (runs_where _ t); [done|]. cbn in *. lia.
Qed.

Lemma tx_insert_manual r measurement t (Q : unit → Tables → Prop) :
  (∀ j, runs t !! run_id r = None → runs_where (live_manual_of (run_job r)) t = [] →
     jobs t !! run_job r = Some j → Q tt (set_runs (<[run_id r := manual_row r]> (runs t)) t)) →
  tx (insert_manual r measurement) t Q.
Proof.
  intros HQ. unfold insert_manual. do 6 tx_step. tx_step. apply tx_manual_pending. intros b Hb. tx_step.
  apply tx_ensure. intros Hn%negb_true_iff. do 2 tx_step. tx_step.
  apply tx_insert_run_row; [intros e; tx_step; by apply tx_of_result|]. intros j Hid _ Hj _. tx_step. tx_step. tx_step.
  apply (HQ j); [done|by apply Hb|done].
Qed.

Lemma tx_count_selected selector id t (Q : Z → Tables → Prop) :
  (∀ n, (n = 0 ↔ none_running (λ r, bytes_eqb (selector r) id) t) → Q n t) → tx (count_running selector id) t Q.
Proof.
  intros HQ. apply tx_query. apply HQ.
  assert (Hnil : Z.of_nat (length (runs_where (λ r, bytes_eqb (selector r) id && bool_decide (run_state r = RunRunning)) t)) = 0 ↔
    runs_where (λ r, bytes_eqb (selector r) id && bool_decide (run_state r = RunRunning)) t = []).
  { destruct (runs_where _ t); [done|]. cbn. split; [lia|done]. }
  rewrite Hnil. split.
  - intros Hn k r Hr Hc Hs. pose proof (runs_where_nil _ _ Hn k r Hr) as Hno. cbn beta in Hno. by rewrite Hc, Hs in Hno.
  - intros Hn. destruct (runs_where _ t) as [|r rest] eqn:Hrest; [done|].
    assert (Hin : r ∈ runs_where (λ r, bytes_eqb (selector r) id && bool_decide (run_state r = RunRunning)) t)
      by (rewrite Hrest; by left).
    apply elem_runs_where in Hin as (k & Hk & [Hc Hs%bool_decide_eq_true]%andb_true_iff). by destruct (Hn k r Hk Hc).
Qed.

(** *** The side tables *)

Lemma reads_side_query {A} (f : SideTables → A) : reads (side_query f).
Proof. apply reads_bind; [apply reads_statement|]. intros _. apply reads_gets. Qed.
Lemma reads_set_side f : reads (modify (λ s, set_side (f s) s)).
Proof. by intros s r s' [= <- <-]. Qed.
Lemma reads_side_update f : reads (side_update f).
Proof. apply reads_bind; [apply reads_statement|]. intros _. apply reads_set_side. Qed.
Lemma reads_translated {A} g (m : ES Session A) : reads m → reads (translated g m).
Proof.
  intros Hm s r s'. unfold translated. destruct (m s) as [[v|e] s1] eqn:Hs; apply Hm in Hs; by intros [= <- <-].
Qed.
#[local] Hint Resolve reads_side_query reads_set_side reads_side_update reads_translated : reads.

Lemma find_idempotency_reads method scope key : reads (find_idempotency method scope key).
Proof. unfold find_idempotency. reads_solve. Qed.
Lemma insert_idempotency_reads r : reads (insert_idempotency r).
Proof.
  unfold insert_idempotency. cbv zeta. apply reads_translated, reads_bind; [apply reads_side_query|]. intros x.
  destruct (is_some _); [apply reads_throw|]. by intros s v s' [= <- <-].
Qed.
Lemma require_references_reads references checked : reads (require_references references checked).
Proof. revert checked. induction references; intros checked; cbn [require_references]; reads_solve. Qed.
Lemma require_existing_reads references : reads (require_existing_references references).
Proof. unfold require_existing_references. apply reads_bind; [apply reads_of_result|]. intros _. apply require_references_reads. Qed.
Lemma insert_references_reads job references : reads (insert_references job references).
Proof.
  induction references as [|r references IH]; cbn [insert_references]; [reads_solve|].
  apply reads_bind; [apply reads_side_query|]. intros x. apply reads_bind; [apply reads_gets|]. intros t. cbv zeta.
  destruct (bool_decide _); [apply reads_throw|]. destruct (negb _); [apply reads_throw|].
  apply reads_bind; [by intros s v s' [= <- <-]|]. intros _. exact IH.
Qed.
Lemma replace_references_reads job references : reads (replace_references_for_job job references).
Proof.
  unfold replace_references_for_job. do 2 (apply reads_bind; [apply reads_of_result|]; intros _).
  apply reads_bind; [apply reads_side_update|]. intros _. apply reads_bind; [apply insert_references_reads|]. intros _. apply reads_ret.
Qed.
Lemma erase_references_reads queue : reads (erase_references_for_queue queue).
Proof.
  unfold erase_references_for_queue. apply reads_bind; [apply reads_gets|]. intros t. cbv zeta.
  apply reads_bind; [apply reads_side_query|]. intros x. apply reads_bind; [by intros s v s' [= <- <-]|]. intros _. apply reads_ret.
Qed.
Lemma count_running_reads selector id : reads (count_running selector id).
Proof. unfold count_running. reads_solve. Qed.
Lemma validate_job_lifecycle_reads j : reads (validate_job_lifecycle j).
Proof. unfold validate_job_lifecycle, read_nonterminal_runs. reads_solve. Qed.

End Statements.
