(* ===== verification/ManagementSpec.v ===== *)
(** * What management promises

    The specification of the management service: for each request, what the
    store holds afterwards and what the caller is told, as a transition of the
    tables.  Every transition keeps the invariant of the store, every attempt
    and the uniqueness of the names of live queues. *)

From stdpp Require Import base numbers strings list gmap sets.
From S2P Require Import Prelude Effects Values OutputCapture RetryPolicy CronEngine Domain ResourceNames StorageFailure Storage.
From S2P Require Import SchedulerRepository ManagementRepository Lifecycle Management ManagementOperations StoreLogic.
From S2P Require Import Keyset ManagementLogic ManagementAtomicity StoreInvariant RecoverySound ManagementStatements.
Local Open Scope Z_scope.

(** ** What a request does *)

(** A run of a definition that is still to be claimed, under a new revision. *)
Definition refreshed (id : bytes) (j : JobDefinition) (planned : Z) (t : Tables) (r : JobRun) : JobRun :=
  if bytes_eqb (run_job r) id && schedule_owned r && bool_decide (run_state r = RunScheduled) &&
     negb (has_attempts (run_id r) t)
  then with_snapshot j planned r else r.

(** A run that waits is cancelled if it is selected. *)
Definition cancelled (chosen : JobRun → bool) (at_ : Z) (text : JsonText) (r : JobRun) : JobRun :=
  if chosen r && (bool_decide (run_state r = RunScheduled) || bool_decide (run_state r = RunRetryWait))
  then run_with RunCancelled (runnable_at r) (run_started_at r) (Some (floor_us at_)) (Some text) r else r.

Definition relocated (id target : bytes) (revision : Z) (r : JobRun) : JobRun :=
  if bytes_eqb (run_job r) id && is_live_run (run_state r) then with_run_queue target revision r else r.

Definition withdrawn (queue : bytes) (at_ : Z) (j : JobDefinition) : JobDefinition :=
  if in_queue queue j && negb (is_some (deleted_at j)) then deleted_job (job_revision j + 1) (floor_us at_) j else j.

(** The definition after an update, and the run that waits, if it follows. *)
Definition redefine (id : bytes) (j j' : JobDefinition) (planned : option Z) (t : Tables) : Tables :=
  mkTables (queues t) (<[id := with_definition j' j]> (jobs t))
    match planned with Some planned => refreshed id j' planned t <$> runs t | None => runs t end (attempts t) (outputs t).

Section Specification.
Context `{Admission} (options : ManagementServiceOptions).

(** The schedule that a request asks for, and the instant of the first run
    under it. *)
Definition asks_for (input : JobScheduleInput) (schedule : JobSchedule) : Prop :=
  match input with
  | InputOnce planned => schedule = Once planned
  | InputCron input => ∃ cron, resolve_cron_schedule input (default_timezone options) = success cron ∧ schedule = Cron cron
  end.

Definition creates (input : JobCreationSchedule) (now : Z) (schedule : JobSchedule) : Prop :=
  match input with Immediate => schedule = Once (floor_us now) | At input => asks_for input schedule end.

Definition due_at (schedule : JobSchedule) (now planned : Z) : Prop :=
  match schedule with
  | Once at_ => planned = at_
  | Cron schedule => ∃ e e', next_after e schedule now = (success planned, e')
  end.

(** The attributes of the definition make a stored document. *)
Definition stores_attributes (j : JobDefinition) : Prop :=
  is_success (serialize_attributes (job_attributes j) JobScope Materialized (Some (job_type j))) = true.

(** Its payload is an accepted template. *)
Definition stores_payload (j : JobDefinition) : Prop :=
  is_success (validate_job_payload (job_type j) (job_payload j)) = true.

Inductive transition (t : Tables) : Request → Response → Tables → Prop :=
  | TRead request v : is_query request = true → transition t request v t
  | TQueueReplayed request now q :
      is_some (cq_idempotency_key request) = true → transition t (CreateQueue request now) (QueueResponse q) t
  | TQueueCreated request now id q :
      queues t !! id = None → is_valid_queue_name (cq_name request) = true → name_free (cq_name request) id t →
      q = mkQueueRow id 1 (cq_name request) QueueActive (cq_weight request) (cq_concurrency_limit request)
            (cq_recovery_policy request) (cq_defaults request) (cq_history_retention request)
            (cq_runnable_wait_warning request) now now None →
      transition t (CreateQueue request now) (QueueResponse q) (set_queues (<[id := queue_row q]> (queues t)) t)
  | TQueueUpdated request boundary now q :
      boundary = success now → selected (uq_queue request) t q → queue_state q ≠ QueueDeleted →
      queue_revision q = uq_expected_revision request → queue_revision q < int64_max →
      match uq_name request with Some name => is_valid_queue_name name = true | None => True end →
      name_free (default (queue_name q) (uq_name request)) (row_queue_id q) t →
      transition t (UpdateQueue request boundary) (QueueResponse (reconfigured request now q))
        (set_queues (<[row_queue_id q := with_configuration (reconfigured request now q) (uq_defaults request) q]> (queues t)) t)
  | TQueueStillSuspended selector boundary q :
      selected selector t q →
      queue_state q = QueueSuspended ∨
        queue_state q = QueueSuspending ∧ ¬ none_running (λ r, bytes_eqb (run_queue r) (row_queue_id q)) t →
      transition t (SuspendQueue selector boundary) (QueueResponse q) t
  | TQueueSuspended selector boundary now q state revision :
      boundary = success now → selected selector t q → queue_state q ≠ QueueDeleted →
      queue_revision q < revision ≤ int64_max →
      state = QueueSuspended ∧ none_running (λ r, bytes_eqb (run_queue r) (row_queue_id q)) t ∨
        state = QueueSuspending ∧ queue_state q = QueueActive ∧
        ¬ none_running (λ r, bytes_eqb (run_queue r) (row_queue_id q)) t →
      transition t (SuspendQueue selector boundary) (QueueResponse (queue_with_state state revision now q))
        (set_queues (<[row_queue_id q := queue_with_state state revision (floor_us now) q]> (queues t)) t)
  | TQueueStillActive selector boundary q :
      selected selector t q → queue_state q = QueueActive → transition t (ResumeQueue selector boundary) (QueueResponse q) t
  | TQueueResumed selector boundary now q :
      boundary = success now → selected selector t q → queue_state q ≠ QueueDeleted → queue_revision q < int64_max →
      transition t (ResumeQueue selector boundary) (QueueResponse (queue_with_state QueueActive (queue_revision q + 1) now q))
        (set_queues (<[row_queue_id q := queue_with_state QueueActive (queue_revision q + 1) (floor_us now) q]> (queues t)) t)
  | TQueueDeleted selector boundary now q text :
      boundary = success now → selected selector t q → queue_state q = QueueSuspended → queue_revision q < int64_max →
      (∀ k j, jobs t !! k = Some j → in_queue (row_queue_id q) j = true → job_revision j < int64_max) →
      none_running (λ r, bytes_eqb (run_queue r) (row_queue_id q)) t →
      length (jobs_where (in_queue (row_queue_id q)) t) =
        length (jobs_where (λ j, in_queue (row_queue_id q) j && negb (is_some (deleted_at j))) t) →
      transition t (DeleteQueue selector boundary) Done
        (mkTables (<[row_queue_id q := tombstone (queue_name q) (queue_revision q + 1) (floor_us now) q]> (queues t))
          (withdrawn (row_queue_id q) now <$> jobs t)
          (cancelled (λ r, bytes_eqb (run_queue r) (row_queue_id q)) now text <$> runs t) (attempts t) (outputs t))
  | TJobReplayed request boundary j :
      is_some (cj_idempotency_key request) = true → transition t (CreateJob request boundary) (JobResponse j) t
  | TJobCreated request boundary now id j q run planned :
      boundary = success now → jobs t !! id = None → runs t !! run = None →
      selected (cj_queue request) t q → queue_state q ≠ QueueDeleted →
      job_id j = id → job_queue j = row_queue_id q → job_revision j = 1 → job_state j = JobActive → deleted_at j = None →
      job_type j = cj_type request → job_name j = cj_name request →
      valid_optional_name (cj_name request) = true → job_priority j = cj_priority request →
      creates (cj_schedule request) now (job_schedule j) → due_at (job_schedule j) now planned →
      materialize_attributes (cj_type request) (daemon_defaults options) (queue_defaults q) (cj_attributes request)
        = success (job_attributes j) → stores_attributes j → stores_payload j →
      transition t (CreateJob request boundary) (JobResponse j)
        (mkTables (queues t) (<[id := job_row j]> (jobs t))
          (<[run := scheduled_row (occurrence run j planned)]> (runs t)) (attempts t) (outputs t))
  | TRunReplayed request boundary r :
      is_some (rn_idempotency_key request) = true → transition t (RunNow request boundary) (RunResponse r) t
  | TRunRequested request boundary now j run :
      boundary = success now → jobs t !! rn_job request = Some j → job_state j ≠ JobDeleted →
      is_terminal_job_state (job_state j) = false → runs t !! run = None →
      runs_where (live_manual_of (rn_job request)) t = [] →
      transition t (RunNow request boundary) (RunResponse (manual_occurrence run j now))
        (set_runs (<[run := manual_row (manual_occurrence run j now)]> (runs t)) t)
  | TJobUpdated request boundary now j schedule payload planned :
      boundary = success now → jobs t !! uj_job request = Some j → job_revision j = uj_expected_revision request →
      job_revision j < int64_max → valid_optional_name (default (job_name j) (uj_name request)) = true →
      is_mutable_state (job_state j) = true →
      match uj_schedule request with None => schedule = None | Some input => ∃ s, schedule = Some s ∧ asks_for input s end →
      match planned with Some at_ => due_at (default (job_schedule j) schedule) now at_ | None => True end →
      stores_attributes (redefined request schedule payload now j) →
      stores_payload (redefined request schedule payload now j) →
      transition t (UpdateJob request boundary) (JobResponse (redefined request schedule payload now j))
        (redefine (uj_job request) j (redefined request schedule payload now j) planned t)
  | TJobStillSuspended id boundary j :
      jobs t !! id = Some j →
      job_state j = JobSuspended ∨ job_state j = JobSuspending ∧ ¬ none_running (λ r, bytes_eqb (run_job r) id) t →
      transition t (SuspendJob id boundary) (JobResponse j) t
  | TJobSuspended id boundary now j state revision :
      boundary = success now → jobs t !! id = Some j → job_state j ≠ JobDeleted →
      is_terminal_job_state (job_state j) = false → job_revision j < revision ≤ int64_max →
      state = JobSuspended ∧ none_running (λ r, bytes_eqb (run_job r) id) t ∨
        state = JobSuspending ∧ job_state j = JobActive ∧ ¬ none_running (λ r, bytes_eqb (run_job r) id) t →
      transition t (SuspendJob id boundary) (JobResponse (job_with_state state revision now j))
        (set_jobs (<[id := job_with_state state revision (floor_us now) j]> (jobs t)) t)
  | TJobStillActive id boundary j :
      jobs t !! id = Some j → job_state j = JobActive → transition t (ResumeJob id boundary) (JobResponse j) t
  | TJobResumed id boundary now j :
      boundary = success now → jobs t !! id = Some j → job_state j ≠ JobDeleted →
      is_terminal_job_state (job_state j) = false → job_revision j < int64_max →
      transition t (ResumeJob id boundary) (JobResponse (job_with_state JobActive (job_revision j + 1) now j))
        (set_jobs (<[id := job_with_state JobActive (job_revision j + 1) (floor_us now) j]> (jobs t)) t)
  | TJobMoved request boundary now j q :
      boundary = success now → jobs t !! mj_job request = Some j → job_revision j = mj_expected_revision request →
      job_state j = JobSuspended → selected (mj_target_queue request) t q → queue_state q ≠ QueueDeleted →
      row_queue_id q ≠ job_queue j → job_revision j < int64_max →
      transition t (MoveJob request boundary) (JobResponse (with_queue (row_queue_id q) (job_revision j + 1) now j))
        (mkTables (queues t)
          (<[mj_job request := with_queue (row_queue_id q) (job_revision j + 1) (floor_us now) j]> (jobs t))
          (relocated (mj_job request) (row_queue_id q) (job_revision j + 1) <$> runs t) (attempts t) (outputs t))
  | TJobDeleted request boundary now j text :
      boundary = success now → jobs t !! dj_job request = Some j → job_revision j = dj_expected_revision request →
      is_deletable j = true → job_state j ≠ JobDeleted → job_revision j < int64_max →
      none_running (λ r, bytes_eqb (run_job r) (dj_job request)) t →
      transition t (DeleteJob request boundary) Done
        (mkTables (queues t) (<[dj_job request := deleted_job (job_revision j + 1) (floor_us now) j]> (jobs t))
          (cancelled (λ r, bytes_eqb (run_job r) (dj_job request)) now text <$> runs t) (attempts t) (outputs t)).

End Specification.

(** ** Rows that are carried over *)

(** Every run, job and queue of [t'] comes from the one of [t] under its key;
    the work changes at most from waiting to cancelled. *)
Record carried (t t' : Tables) : Prop := {
  carried_attempts : attempts t' = attempts t;
  carried_run k r' : runs t' !! k = Some r' → ∃ r, runs t !! k = Some r ∧
    run_id r' = run_id r ∧ run_job r' = run_job r ∧ schedule_owned r' = schedule_owned r ∧ run_origin r' = run_origin r ∧
    is_Some (queues t' !! run_queue r') ∧ (row_ok r → row_ok r') ∧
    (run_state r' = run_state r ∨ pending r ∧ run_state r' = RunCancelled);
  carried_runs k : is_Some (runs t !! k) → is_Some (runs t' !! k);
  carried_job k j' : jobs t' !! k = Some j' → ∃ j, jobs t !! k = Some j ∧ job_id j' = job_id j ∧
    (is_terminal_job_state (job_state j') = true → is_terminal_job_state (job_state j) = true ∧ is_once j' = is_once j);
  carried_jobs k : is_Some (jobs t !! k) → is_Some (jobs t' !! k);
  carried_queue k q' : queues t' !! k = Some q' → ∃ q, queues t !! k = Some q ∧ row_queue_id q' = row_queue_id q }.

Lemma pending_live r : pending r → is_live_run (run_state r) = true.
Proof. by intros [-> | ->]. Qed.

Lemma wf_carried t t' :
  wf t → carried t t' →
  (∀ k r j, runs t' !! k = Some r → is_live_run (run_state r) = true → jobs t' !! run_job r = Some j →
     run_queue r = job_queue j ∧ job_state j ≠ JobDeleted) →
  (∀ k j, jobs t' !! k = Some j →
     ∃ q, queues t' !! job_queue j = Some q ∧ (queue_state q = QueueDeleted → job_state j = JobDeleted)) →
  wf t'.
Proof.
  intros Hwf Hc Hhome Hjob_home.
  assert (Hlive : ∀ k r', runs t' !! k = Some r' → is_live_run (run_state r') = true →
    ∃ r, runs t !! k = Some r ∧ run_job r' = run_job r ∧ schedule_owned r' = schedule_owned r ∧
         is_live_run (run_state r) = true).
  { intros k r' Hr' Hl. destruct (carried_run _ _ Hc _ _ Hr') as (r & Hr & _ & Hj & Ho & _ & _ & _ & Hs).
    exists r. split_and!; [done..|]. destruct Hs as [Hs|[_ Hs]]; rewrite Hs in Hl; [done|discriminate]. }
  split.
  - intros k r' Hr'. destruct (carried_run _ _ Hc _ _ Hr') as (r & Hr & -> & _). by eapply wf_run_key.
  - intros k j' Hj'. destruct (carried_job _ _ Hc _ _ Hj') as (j & Hj & -> & _). by eapply wf_job_key.
  - intros k q' Hq'. destruct (carried_queue _ _ Hc _ _ Hq') as (q & Hq & ->). by eapply wf_queue_key.
  - intros k a. rewrite (carried_attempts _ _ Hc). apply (wf_attempt_key t Hwf).
  - intros k r' Hr'. destruct (carried_run _ _ Hc _ _ Hr') as (r & Hr & _ & _ & _ & _ & _ & Hok & _). by eapply Hok, wf_row.
  - intros k r' Hr'. destruct (carried_run _ _ Hc _ _ Hr') as (r & Hr & _ & _ & -> & -> & _). by eapply wf_origin.
  - intros k r' Hr'. destruct (carried_run _ _ Hc _ _ Hr') as (r & Hr & _ & -> & _ & _ & Hq & _). split; [|done].
    apply (carried_jobs _ _ Hc). by eapply wf_owners.
  - intros k n. rewrite (carried_attempts _ _ Hc). intros Hn. by apply (carried_runs _ _ Hc), (wf_attempt_run t Hwf k n).
  - intros k. rewrite (carried_attempts _ _ Hc). apply (wf_numbered t Hwf).
  - intros k r' Hr'. destruct (carried_run _ _ Hc _ _ Hr') as (r & Hr & _ & _ & _ & _ & _ & _ & Hs).
    rewrite (carried_attempts _ _ Hc). pose proof (wf_attempts t Hwf _ _ Hr) as Ha. destruct Hs as [->|[Hp ->]]; [done|].
    intros m b Hb. exact (attempts_pending _ _ m b Ha Hp Hb).
  - intros k1 k2 r1 r2 H1 H2 Hj Ho Hl1 Hl2.
    destruct (Hlive _ _ H1 Hl1) as (y1 & ? & Hj1 & Ho1 & ?), (Hlive _ _ H2 Hl2) as (y2 & ? & Hj2 & Ho2 & ?).
    eapply (wf_single t Hwf); [done|done|congruence|congruence|done|done].
  - intros k j' Hj' Ht. destruct (carried_job _ _ Hc _ _ Hj') as (j & Hj & _ & Hterm). destruct (Hterm Ht) as [Htj Honce].
    destruct (wf_finished t Hwf _ _ Hj Htj) as [Ho Hnone]. split; [congruence|].
    intros k' r' Hr' Hjr. destruct (is_live_run (run_state r')) eqn:Hl; [|done].
    destruct (Hlive _ _ Hr' Hl) as (r & Hr & Hrj & _ & Hlr). rewrite (Hnone k' r) in Hlr; [done|done|congruence].
  - done.
  - done.
Qed.

(** ** Every transition keeps the invariant *)

Lemma wf_new_queue t id q :
  wf t → queues t !! id = None → row_queue_id q = id → wf (set_queues (<[id := q]> (queues t)) t).
Proof.
  intros [W1 W2 W3 W4 W5 W6 W7 W8 W9 W10 W11 W12 W13 W14] Hid Hq. split; cbn [runs jobs queues attempts set_queues]; try done.
  - intros k x [[-> ->]|[_ Hx]]%insert_cases; [done|by eapply W3].
  - intros k r Hr. destruct (W7 k r Hr) as [? [x Hx]]. split; [done|]. rewrite lookup_insert_ne by congruence. by eexists.
  - intros k j Hj. destruct (W14 k j Hj) as (x & Hx & Hn). exists x. by rewrite lookup_insert_ne by congruence.
Qed.

Lemma wf_new_job t id j q :
  wf t → jobs t !! id = None → job_id j = id → job_state j = JobActive → queues t !! job_queue j = Some q →
  queue_state q ≠ QueueDeleted → wf (set_jobs (<[id := j]> (jobs t)) t).
Proof.
  intros [W1 W2 W3 W4 W5 W6 W7 W8 W9 W10 W11 W12 W13 W14] Hid Hj Hst Hq Hd.
  split; cbn [runs jobs queues attempts set_jobs]; try done.
  - intros k x [[-> ->]|[_ Hx]]%insert_cases; [done|by eapply W2].
  - intros k r Hr. destruct (W7 k r Hr) as [[x Hx] ?]. split; [|done]. rewrite lookup_insert_ne by congruence. by eexists.
  - intros k x [[-> ->]|[_ Hx]]%insert_cases Ht; [by rewrite Hst in Ht|by eapply W12].
  - intros k r x Hr Hl Hx. destruct (W7 k r Hr) as [[y Hy] _]. rewrite lookup_insert_ne in Hx by congruence.
    by eapply W13.
  - intros k x [[-> ->]|[_ Hx]]%insert_cases; [|by eapply W14]. by exists q.
Qed.

(** The rows of a map after a change of every row. *)
Lemma fmap_row `{Countable K} {A} (f : A → A) (m : gmap K A) k v : (f <$> m) !! k = Some v → ∃ x, m !! k = Some x ∧ v = f x.
Proof. rewrite lookup_fmap. intros (x & Hx & Hv)%fmap_Some. eauto. Qed.

Lemma fmap_kept `{Countable K} {A} (f : A → A) (m : gmap K A) k : is_Some (m !! k) → is_Some ((f <$> m) !! k).
Proof. rewrite lookup_fmap. by rewrite fmap_is_Some. Qed.

Lemma insert_is_Some `{Countable K} {A} (m : gmap K A) k v k' : is_Some (m !! k') → is_Some (<[k := v]> m !! k').
Proof. intros Hk. destruct (decide (k' = k)) as [->|?]; [rewrite lookup_insert_eq|rewrite lookup_insert_ne by done]; by eauto. Qed.

(** One definition changes, and with it runs; its queue may change. *)
Lemma carried_job_runs t id j j' (f : JobRun → JobRun) :
  wf t → jobs t !! id = Some j → job_id j' = job_id j →
  (is_terminal_job_state (job_state j') = true → is_terminal_job_state (job_state j) = true ∧ is_once j' = is_once j) →
  (∀ k r, runs t !! k = Some r →
     run_id (f r) = run_id r ∧ run_job (f r) = run_job r ∧ schedule_owned (f r) = schedule_owned r ∧
     run_origin (f r) = run_origin r ∧ is_Some (queues t !! run_queue (f r)) ∧ (row_ok r → row_ok (f r)) ∧
     (run_state (f r) = run_state r ∨ pending r ∧ run_state (f r) = RunCancelled)) →
  carried t (mkTables (queues t) (<[id := j']> (jobs t)) (f <$> runs t) (attempts t) (outputs t)).
Proof.
  intros Hwf Hj Hid Hterm Hf. split; cbn [runs jobs queues attempts].
  - done.
  - intros k r' (r & Hr & ->)%fmap_row. exists r. split; [done|by eapply Hf].
  - intros k. apply fmap_kept.
  - intros k x [[-> ->]|[_ Hx]]%insert_cases; [by exists j|by exists x].
  - intros k. apply insert_is_Some.
  - intros k q' Hq'. by exists q'.
Qed.

Lemma live_states state : is_live_run state = true → state ≠ RunRunning → state = RunScheduled ∨ state = RunRetryWait.
Proof. destruct state; auto; done. Qed.

(** What is left of the selected work when none of it runs. *)
Lemma cancelled_spec chosen at_ text r :
  let r' := cancelled chosen at_ text r in
  run_id r' = run_id r ∧ run_job r' = run_job r ∧ schedule_owned r' = schedule_owned r ∧ run_origin r' = run_origin r ∧
  run_queue r' = run_queue r ∧ (row_ok r → row_ok r') ∧
  (run_state r' = run_state r ∨ pending r ∧ run_state r' = RunCancelled) ∧
  (chosen r = true → run_state r ≠ RunRunning → is_live_run (run_state r') = false).
Proof.
  cbv zeta. unfold cancelled. destruct (chosen r) eqn:Hc; cbn [andb]; [|by split_and!; auto].
  destruct (_ || _) eqn:Hp; split_and!; auto.
  - intros (_ & _ & _ & Ho). by split_and!.
  - right. split; [|done]. rewrite orb_true_iff, !bool_decide_eq_true in Hp. exact Hp.
  - intros _ Hn. rewrite orb_false_iff, !bool_decide_eq_false in Hp. destruct (run_state r); naive_solver.
Qed.

Lemma transition_job_deleted t id j at_ text :
  wf t → jobs t !! id = Some j → none_running (λ r, bytes_eqb (run_job r) id) t →
  wf (mkTables (queues t) (<[id := deleted_job (job_revision j + 1) (floor_us at_) j]> (jobs t))
        (cancelled (λ r, bytes_eqb (run_job r) id) at_ text <$> runs t) (attempts t) (outputs t)).
Proof.
  intros Hwf Hj Hnone. eapply wf_carried; [done|apply (carried_job_runs _ _ j); [done..|]| |]; cbn [runs jobs queues].
  - intros k r Hr. destruct (cancelled_spec (λ r, bytes_eqb (run_job r) id) at_ text r) as (? & ? & ? & ? & Hq & ? & ? & _).
    split_and!; [done..| |done|done]. rewrite Hq. by eapply wf_owners.
  - intros k r' x (r & Hr & ->)%fmap_row Hl Hx.
    destruct (cancelled_spec (λ r, bytes_eqb (run_job r) id) at_ text r) as (_ & Hjob & _ & _ & Hq & _ & Hs & Hdead).
    rewrite Hjob in Hx. rewrite Hq. apply insert_cases in Hx as [[Heq ->]|[_ Hx]].
    + rewrite Hdead in Hl; [done|by apply bool_decide_eq_true|].
      apply (Hnone k r Hr). by apply bool_decide_eq_true.
    + destruct Hs as [Hs|[_ Hs]]; rewrite Hs in Hl; [|done]. by eapply (wf_home t Hwf).
  - intros k x [[-> ->]|[_ Hx]]%insert_cases; [|by eapply (wf_job_home t Hwf)].
    destruct (wf_job_home t Hwf _ _ Hj) as (q & Hq & _). by exists q.
Qed.

Lemma transition_job_moved t id j target q at_ :
  wf t → jobs t !! id = Some j → job_state j = JobSuspended → queues t !! target = Some q → queue_state q ≠ QueueDeleted →
  wf (mkTables (queues t) (<[id := with_queue target (job_revision j + 1) at_ j]> (jobs t))
        (relocated id target (job_revision j + 1) <$> runs t) (attempts t) (outputs t)).
Proof.
  intros Hwf Hj Hst Hq Hd. eapply wf_carried; [done|apply (carried_job_runs _ _ j); [done..|]| |]; cbn [runs jobs queues].
  - intros k r Hr. unfold relocated. destruct (_ && _); cbn; split_and!; auto. by eapply wf_owners.
  - intros k r' x (r & Hr & ->)%fmap_row. unfold relocated, bytes_eqb. destruct (decide (run_job r = id)) as [<-|Hne].
    + rewrite bool_decide_true by done. cbn [andb]. destruct (is_live_run (run_state r)) eqn:Hl; [|congruence].
      intros _. cbn. rewrite lookup_insert_eq. intros [= <-]. cbn. rewrite Hst. done.
    + rewrite bool_decide_false by done. cbn [andb]. rewrite lookup_insert_ne by done. intros Hl Hx. by eapply (wf_home t Hwf).
  - intros k x [[-> ->]|[_ Hx]]%insert_cases; [|by eapply (wf_job_home t Hwf)]. by exists q.
Qed.

Lemma mutable_not_deleted s : is_mutable_state s = true → s ≠ JobDeleted ∧ is_terminal_job_state s = false.
Proof. by destruct s. Qed.

Lemma transition_job_redefined t id j j' planned :
  wf t → jobs t !! id = Some j → is_mutable_state (job_state j) = true → job_queue j' = job_queue j →
  wf (mkTables (queues t) (<[id := with_definition j' j]> (jobs t)) (refreshed id j' planned t <$> runs t) (attempts t) (outputs t)).
Proof.
  intros Hwf Hj Hm Hq. destruct (mutable_not_deleted _ Hm) as [Hd Ht].
  eapply wf_carried; [done|apply (carried_job_runs _ _ j); [done..|cbn; congruence|]| |]; cbn [runs jobs queues].
  - intros k r Hr. unfold refreshed. destruct (_ && _ && _ && _) eqn:Hg; cbn; split_and!; auto.
    + rewrite Hq. destruct (wf_job_home t Hwf _ _ Hj) as (q & -> & _). by eexists.
    + by eapply wf_owners.
  - intros k r' x (r & Hr & ->)%fmap_row Hl. assert (Hkeep : run_job (refreshed id j' planned t r) = run_job r ∧
      run_state (refreshed id j' planned t r) = run_state r) by (unfold refreshed; by destruct (_ && _ && _ && _)).
    destruct Hkeep as [-> Hs]. rewrite Hs in Hl. intros [[Heq ->]|[Hne Hx]]%insert_cases.
    + rewrite <- Heq in Hj. split; [|done]. destruct (wf_home t Hwf _ _ _ Hr Hl Hj) as [Hh _]. cbn.
      unfold refreshed. destruct (_ && _ && _ && _); [exact Hq|exact Hh].
    + unfold refreshed, bytes_eqb. rewrite bool_decide_false by done. cbn [andb]. by eapply (wf_home t Hwf).
  - intros k x [[-> ->]|[_ Hx]]%insert_cases; [|by eapply (wf_job_home t Hwf)]. by eapply (wf_job_home t Hwf) in Hj.
Qed.

Lemma jobs_where_same (p q : JobDefinition → bool) t :
  (∀ j, q j = true → p j = true) → length (jobs_where p t) = length (jobs_where q t) →
  ∀ k j, jobs t !! k = Some j → p j = true → q j = true.
Proof.
  intros Hqp. unfold jobs_where. rewrite !length_map, !length_map_to_list. intros Hlen k j Hj Hp.
  assert (Heq : filter (λ kj : bytes * JobDefinition, q kj.2 = true) (jobs t) =
                filter (λ kj : bytes * JobDefinition, p kj.2 = true) (jobs t)).
  { apply map_subseteq_size_eq; [|lia]. apply map_subseteq_spec. intros k' x [Hx Hq]%map_lookup_filter_Some.
    apply map_lookup_filter_Some. split; [done|by apply Hqp]. }
  assert (Hin : filter (λ kj : bytes * JobDefinition, p kj.2 = true) (jobs t) !! k = Some j)
    by (by apply map_lookup_filter_Some).
  rewrite <- Heq in Hin. by apply map_lookup_filter_Some in Hin as [_ ?].
Qed.

(** Every definition of the queue ends up deleted. *)
Lemma withdrawn_spec id at_ t :
  length (jobs_where (in_queue id) t) = length (jobs_where (λ j, in_queue id j && negb (is_some (deleted_at j))) t) →
  ∀ k j, jobs t !! k = Some j →
    job_id (withdrawn id at_ j) = job_id j ∧ job_queue (withdrawn id at_ j) = job_queue j ∧
    (job_queue j = id → job_state (withdrawn id at_ j) = JobDeleted) ∧ (job_queue j ≠ id → withdrawn id at_ j = j).
Proof.
  intros Hlen k j Hj. unfold withdrawn. split_and!; [by destruct (_ && _)..| |].
  - intros Hq. destruct (in_queue id j) eqn:Hin.
    + apply (jobs_where_same _ _ _ ltac:(by intros ? [? _]%andb_true_iff) Hlen k j Hj) in Hin as Hall.
      rewrite Hin in Hall. cbn [andb] in *. by rewrite Hall.
    + cbn [andb]. unfold in_queue, bytes_eqb in Hin. rewrite bool_decide_true in Hin by done. cbn [andb] in Hin.
      by apply negb_false_iff, bool_decide_eq_true in Hin.
  - intros Hq. unfold in_queue, bytes_eqb. by rewrite bool_decide_false.
Qed.

Lemma transition_queue_deleted t id q at_ text :
  wf t → queues t !! id = Some q → queue_state q = QueueSuspended → none_running (λ r, bytes_eqb (run_queue r) id) t →
  length (jobs_where (in_queue id) t) = length (jobs_where (λ j, in_queue id j && negb (is_some (deleted_at j))) t) →
  wf (mkTables (<[id := tombstone (queue_name q) (queue_revision q + 1) (floor_us at_) q]> (queues t))
        (withdrawn id at_ <$> jobs t) (cancelled (λ r, bytes_eqb (run_queue r) id) at_ text <$> runs t)
        (attempts t) (outputs t)).
Proof.
  intros Hwf Hq Hst Hnone Hlen. pose proof (withdrawn_spec id at_ t Hlen) as Hw.
  eapply wf_carried; [done|split| |]; cbn [runs jobs queues attempts].
  - done.
  - intros k r' (r & Hr & ->)%fmap_row. exists r. split; [done|].
    destruct (cancelled_spec (λ r, bytes_eqb (run_queue r) id) at_ text r) as (? & ? & ? & ? & Hqr & ? & ? & _).
    split_and!; [done..| |done|done]. rewrite Hqr. apply insert_is_Some. by eapply wf_owners.
  - intros k. apply fmap_kept.
  - intros k j' (j & Hj & ->)%fmap_row. exists j. destruct (Hw k j Hj) as (Hid & Hjq & Hdel & Hkeep). split_and!; [done..|].
    destruct (decide (job_queue j = id)) as [Heq|Hne]; [by rewrite Hdel|by rewrite Hkeep].
  - intros k. apply fmap_kept.
  - intros k x [[-> ->]|[_ Hx]]%insert_cases; [by exists q|by exists x].
  - intros k r' j' (r & Hr & ->)%fmap_row Hl.
    destruct (cancelled_spec (λ r, bytes_eqb (run_queue r) id) at_ text r) as (_ & -> & _ & _ & -> & _ & Hs & Hdead).
    assert (Hlr : is_live_run (run_state r) = true) by (destruct Hs as [Hs|[_ Hs]]; rewrite Hs in Hl; done).
    intros (j & Hj & ->)%fmap_row. destruct (wf_home t Hwf _ _ _ Hr Hlr Hj) as [Hh Hd].
    destruct (Hw _ j Hj) as (_ & _ & _ & Hkeep). rewrite Hkeep; [done|]. intros Heq.
    assert (Hc : bytes_eqb (run_queue r) id = true) by (apply bool_decide_eq_true; congruence).
    rewrite Hdead in Hl; [done|done|]. exact (Hnone k r Hr Hc).
  - intros k j' (j & Hj & ->)%fmap_row. destruct (Hw k j Hj) as (_ & -> & Hdel & Hkeep).
    destruct (wf_job_home t Hwf _ _ Hj) as (x & Hx & Hn). destruct (decide (job_queue j = id)) as [Heq|Hne].
    + rewrite Heq, lookup_insert_eq. eexists. split; [done|]. intros _. by apply Hdel.
    + rewrite lookup_insert_ne by done. exists x. by rewrite Hkeep.
Qed.

Section Preservation.
Context `{Admission} (options : ManagementServiceOptions).
Implicit Type t : Tables.

(** A row of a live queue changes and stays live. *)
Lemma wf_queue_row t q q' :
  wf t → queues t !! row_queue_id q = Some q → row_queue_id q' = row_queue_id q → queue_state q ≠ QueueDeleted →
  queue_state q' ≠ QueueDeleted → wf (set_queues (<[row_queue_id q := q']> (queues t)) t).
Proof. intros Hwf Hq Hid Hd Hd'. by apply (wf_queue_update _ _ q). Qed.

(** A state of a definition changes and is not an end. *)
Lemma wf_job_row t id j state revision updated :
  wf t → jobs t !! id = Some j → job_state j ≠ JobDeleted → state ≠ JobDeleted → is_terminal_job_state state = false →
  wf (set_jobs (<[id := job_with_state state revision updated j]> (jobs t)) t).
Proof. intros Hwf Hj Hd Hd' Ht. eapply wf_set_job; [done..|]. cbn. congruence. Qed.

Lemma wf_created_job t id j q run planned :
  wf t → jobs t !! id = None → runs t !! run = None → queues t !! row_queue_id q = Some q → queue_state q ≠ QueueDeleted →
  job_id j = id → job_queue j = row_queue_id q → job_state j = JobActive →
  wf (mkTables (queues t) (<[id := job_row j]> (jobs t)) (<[run := scheduled_row (occurrence run j planned)]> (runs t))
        (attempts t) (outputs t)).
Proof.
  intros Hwf Hid Hr Hq Hd Hj Hjq Hst. rewrite <- Hjq in Hq.
  assert (Hwf1 : wf (set_jobs (<[id := job_row j]> (jobs t)) t)) by (by apply (wf_new_job _ _ _ q)).
  apply (wf_insert_run _ run (scheduled_row (occurrence run j planned)) (job_row j)) in Hwf1; [exact Hwf1|..];
    cbn [runs jobs set_jobs scheduled_row occurrence run_job run_id run_queue run_state]; try done.
  - rewrite Hj. apply lookup_insert_eq.
  - cbn. by rewrite Hst.
  - cbn. by rewrite Hst.
  - intros k x Hx Hjob _. destruct (wf_owners t Hwf k x Hx) as [[y Hy] _]. congruence.
Qed.

Lemma wf_requested_run t id j run now :
  wf t → jobs t !! id = Some j → job_state j ≠ JobDeleted → is_terminal_job_state (job_state j) = false →
  runs t !! run = None → runs_where (live_manual_of id) t = [] →
  wf (set_runs (<[run := manual_row (manual_occurrence run j now)]> (runs t)) t).
Proof.
  intros Hwf Hj Hd Ht Hr Hm. pose proof (wf_job_key t Hwf _ _ Hj) as Hid.
  eapply wf_insert_run; [done|done|done| |done|done| |done|done|done|].
  - split_and!; done.
  - cbn. by rewrite Hid.
  - cbn. intros k x Hx Hjob Ho. destruct (is_live_run (run_state x)) eqn:Hl; [|done].
    pose proof (runs_where_nil _ _ Hm k x Hx) as Hno. unfold live_manual_of, bytes_eqb in Hno.
    rewrite (wf_origin t Hwf _ _ Hx), Ho, Hl, Hjob, Hid, bool_decide_true in Hno by done. cbn in Hno.
    by rewrite bool_decide_true in Hno.
Qed.

Lemma wf_redefined t id j j' planned :
  wf t → jobs t !! id = Some j → is_mutable_state (job_state j) = true → job_queue j' = job_queue j →
  wf (redefine id j j' planned t).
Proof.
  intros Hwf Hj Hm Hq. destruct planned as [planned|]; [by apply transition_job_redefined|].
  destruct (mutable_not_deleted _ Hm) as [Hd Ht]. eapply wf_set_job; [done|done|done|done|done|done|]. cbn. congruence.
Qed.

Lemma transition_wf t request v t' : wf t → transition options t request v t' → wf t'.
Proof.
  intros Hwf Ht. destruct Ht; try done; repeat match goal with H : selected _ _ _ |- _ => destruct H as [? _] end.
  - subst q. by apply wf_new_queue.
  - by apply wf_queue_row.
  - apply wf_queue_row; [done..|]. cbn. naive_solver.
  - by apply wf_queue_row.
  - by apply transition_queue_deleted.
  - by apply (wf_created_job _ _ _ q).
  - by eapply wf_requested_run.
  - by apply wf_redefined.
  - apply wf_job_row; [done..| |]; naive_solver.
  - by apply wf_job_row.
  - by apply (transition_job_moved _ _ _ _ q).
  - by apply transition_job_deleted.
Qed.

Lemma transition_attempts t request v t' : transition options t request v t' → attempts t' = attempts t.
Proof. by intros []; subst. Qed.

(** ** Names *)

Definition names_unique t : Prop :=
  ∀ k1 k2 q1 q2, queues t !! k1 = Some q1 → queues t !! k2 = Some q2 → queue_state q1 ≠ QueueDeleted →
    queue_state q2 ≠ QueueDeleted → queue_name q1 = queue_name q2 → k1 = k2.

(** A row may take a name that no other live queue has, or keep its own. *)
Lemma names_insert t id q :
  wf t → names_unique t → name_free (queue_name q) id t →
  names_unique (set_queues (<[id := q]> (queues t)) t).
Proof.
  intros Hwf Hu Hfree k1 k2 q1 q2. cbn [queues set_queues].
  assert (Hother : ∀ k x, k ≠ id → queues t !! k = Some x → queue_state x ≠ QueueDeleted → queue_name x ≠ queue_name q).
  { intros k x Hk Hx Hd. apply (Hfree k x Hx); [|done]. by rewrite (wf_queue_key t Hwf _ _ Hx). }
  intros [[-> ->]|[H1 Hq1]]%insert_cases [[-> ->]|[H2 Hq2]]%insert_cases Hd1 Hd2 Hn; [done|..].
  - by destruct (Hother k2 q2).
  - by destruct (Hother k1 q1).
  - by eapply Hu.
Qed.

Lemma name_kept t q : wf t → names_unique t → queues t !! row_queue_id q = Some q → queue_state q ≠ QueueDeleted →
  name_free (queue_name q) (row_queue_id q) t.
Proof.
  intros Hwf Hu Hq Hd k x Hx Hk Hdx Hn. apply Hk. rewrite (wf_queue_key t Hwf _ _ Hx). by eapply Hu.
Qed.

Lemma names_deleted t id q jobs' runs' :
  names_unique t → queue_state q = QueueDeleted →
  names_unique (mkTables (<[id := q]> (queues t)) jobs' runs' (attempts t) (outputs t)).
Proof.
  intros Hu Hd k1 k2 q1 q2. cbn [queues].
  intros [[-> ->]|[H1 Hq1]]%insert_cases [[-> ->]|[H2 Hq2]]%insert_cases Hd1 Hd2 Hn; [done..|]. by eapply Hu.
Qed.

Lemma transition_names t request v t' : wf t → names_unique t → transition options t request v t' → names_unique t'.
Proof.
  intros Hwf Hu Ht. destruct Ht; try done; repeat match goal with H : selected _ _ _ |- _ => destruct H as [? _] end.
  - subst q. by apply names_insert.
  - by apply names_insert.
  - apply names_insert; [done..|]. by apply (name_kept t q).
  - apply names_insert; [done..|]. by apply (name_kept t q).
  - by apply names_deleted.
Qed.

(** ** Rows that can be read back *)

(** What [decode_queue] and [decode_job] require of a row, and that its
    revision fits the column. *)
Record queue_typed (q : Queue) : Prop := {
  typed_queue_name : is_valid_queue_name (queue_name q) = true;
  typed_queue_deleted : bool_decide (queue_state q = QueueDeleted) = is_some (queue_deleted_at q);
  typed_queue_revision : 1 ≤ queue_revision q ≤ int64_max }.

Record job_typed (j : JobDefinition) : Prop := {
  typed_job_name : valid_optional_name (job_name j) = true;
  typed_job_deleted : bool_decide (job_state j = JobDeleted) = is_some (deleted_at j);
  typed_job_schedule : is_terminal_job_state (job_state j) = true → is_once j = true;
  typed_job_revision : 1 ≤ job_revision j ≤ int64_max }.

Record typed t : Prop := {
  typed_queues k q : queues t !! k = Some q → queue_typed q;
  typed_jobs k j : jobs t !! k = Some j → job_typed j }.

Lemma queue_typed_decodes q : unreadable_queue q = None → queue_typed q → decode_queue q = success q.
Proof.
  intros Hr [Hn Hd _]. unfold decode_queue, readable. rewrite Hr. cbn. rewrite Hn. cbn. rewrite Hd. by destruct (is_some _).
Qed.

Lemma job_typed_decodes j : unreadable_job j = None → job_typed j → decode_job j = success j.
Proof.
  intros Hr [Hn Hd Hs _]. unfold decode_job, readable. rewrite Hr. cbn. unfold valid_optional_name in Hn. rewrite Hn. cbn.
  rewrite Hd, eqb_reflx. cbn. destruct (is_terminal_job_state _) eqn:Ht; [|done]. by rewrite Hs.
Qed.

Lemma typed_insert_queue t id q : typed t → queue_typed q → typed (set_queues (<[id := q]> (queues t)) t).
Proof.
  intros [Hq Hj] Hnew. split; [|done]. intros k x [[-> ->]|[_ Hx]]%insert_cases; [done|by eapply Hq].
Qed.

Lemma typed_insert_job t id j runs' : typed t → job_typed j →
  typed (mkTables (queues t) (<[id := j]> (jobs t)) runs' (attempts t) (outputs t)).
Proof.
  intros [Hq Hj] Hnew. split; [done|]. intros k x [[-> ->]|[_ Hx]]%insert_cases; [done|by eapply Hj].
Qed.

(** The row with another state, or another revision. *)
Lemma queue_typed_state q state revision updated :
  queue_typed q → queue_state q ≠ QueueDeleted → state ≠ QueueDeleted → queue_revision q < revision ≤ int64_max →
  queue_typed (queue_with_state state revision updated q).
Proof.
  intros [Hn Hd Hr] Hs Hs' Hrev. split; cbn; [done| |lia]. by rewrite <- Hd, !bool_decide_false.
Qed.

Lemma job_typed_state j state revision updated :
  job_typed j → job_state j ≠ JobDeleted → state ≠ JobDeleted → is_terminal_job_state state = false →
  job_revision j < revision ≤ int64_max → job_typed (job_with_state state revision updated j).
Proof.
  intros [Hn Hd Hs Hr] Hst Hst' Ht Hrev. split; cbn; [done| |congruence|lia]. by rewrite <- Hd, !bool_decide_false.
Qed.

Lemma job_typed_deleted j at_ : job_typed j → job_revision j < int64_max → job_typed (deleted_job (job_revision j + 1) at_ j).
Proof. intros [Hn Hd Hs Hr] Hrev. split; cbn; [done|done|done|lia]. Qed.

Lemma typed_withdrawn t id q at_ runs' :
  typed t → queue_typed q → (∀ k j, jobs t !! k = Some j → in_queue (row_queue_id q) j = true → job_revision j < int64_max) →
  typed (mkTables (<[id := q]> (queues t)) (withdrawn (row_queue_id q) at_ <$> jobs t) runs' (attempts t) (outputs t)).
Proof.
  intros [Hq Hj] Hnew Hrev. split; cbn [queues jobs].
  - intros k x [[-> ->]|[_ Hx]]%insert_cases; [done|by eapply Hq].
  - intros k x (j & Hx & ->)%fmap_row. unfold withdrawn. destruct (in_queue _ j) eqn:Hin; [|by eapply Hj].
    destruct (negb _); [|by eapply Hj]. apply job_typed_deleted; [by eapply Hj|by eapply Hrev].
Qed.

Lemma transition_typed t request v t' : typed t → transition options t request v t' → typed t'.
Proof.
  intros Hty Ht. destruct Ht; try done; repeat match goal with H : selected _ _ _ |- _ => destruct H as [? _] end;
    repeat match goal with
    | H : queues t !! _ = Some ?q |- _ => pose proof (typed_queues t Hty _ q H); generalize dependent H
    | H : jobs t !! _ = Some ?j |- _ => pose proof (typed_jobs t Hty _ j H); generalize dependent H
    end; intros.
  all: try match goal with H : queue_typed ?q |- _ => pose proof H as [] end.
  all: try match goal with H : job_typed ?j |- _ => pose proof H as [] end.
  - subst q. apply typed_insert_queue; [done|]. by split.
  - apply typed_insert_queue; [done|]. split; cbn; [|done|lia]. by destruct (uq_name request).
  - apply typed_insert_queue; [done|]. apply queue_typed_state; [done..| |lia]. naive_solver.
  - apply typed_insert_queue; [done|]. apply queue_typed_state; [done..|lia].
  - apply (typed_withdrawn t _ (tombstone (queue_name q) (queue_revision q + 1) (floor_us now) q)); [done| |done].
    split; cbn; [done|done|lia].
  - apply typed_insert_job; [done|]. split; cbn; [congruence| | |]; repeat match goal with H : _ = _ |- _ => rewrite H end; done.
  - by destruct Hty; split.
  - apply typed_insert_job; [done|]. split; cbn; [done|done| |lia].
    destruct (mutable_not_deleted (job_state j)); [done|congruence].
  - apply typed_insert_job; [done|]. apply job_typed_state; [done..| | |lia]; naive_solver.
  - apply typed_insert_job; [done|]. apply job_typed_state; [done..|lia].
  - apply typed_insert_job; [done|]. split; cbn; [done|done|done|lia].
  - apply typed_insert_job; [done|]. by apply job_typed_deleted.
Qed.

(** ** Revisions only grow *)

Lemma transition_revisions t request v t' k j :
  transition options t request v t' → jobs t !! k = Some j →
  ∃ j', jobs t' !! k = Some j' ∧ job_revision j ≤ job_revision j'.
Proof.
  intros Ht Hj. assert (Hins : ∀ id x (m : gmap bytes JobDefinition), m = <[id := x]> (jobs t) →
    (∀ y, jobs t !! id = Some y → job_revision y ≤ job_revision x) →
    ∃ j', m !! k = Some j' ∧ job_revision j ≤ job_revision j').
  { intros id x m -> Hx. destruct (decide (k = id)) as [->|Hne].
    - rewrite lookup_insert_eq. eexists. split; [done|]. by apply Hx.
    - rewrite lookup_insert_ne by done. by exists j. }
  destruct Ht; try (by exists j); cbn [jobs].
  - rewrite lookup_fmap, Hj. eexists. split; [done|]. unfold withdrawn. destruct (_ && _); cbn; lia.
  - eapply Hins; [done|]. congruence.
  - eapply Hins; [done|]. intros y Hy. simplify_eq. cbn. lia.
  - eapply Hins; [done|]. intros y Hy. simplify_eq. cbn. lia.
  - eapply Hins; [done|]. intros y Hy. simplify_eq. cbn. lia.
  - eapply Hins; [done|]. intros y Hy. simplify_eq. cbn. lia.
  - eapply Hins; [done|]. intros y Hy. simplify_eq. cbn. lia.
Qed.

End Preservation.
