(* ===== verification/ManagementRefinement.v ===== *)
(** * Management refines its specification

    Every request that succeeds makes the transition that [ManagementSpec]
    promises for it, and a request that fails makes none, unless the failure is
    that of the connection after the commit. *)

From stdpp Require Import base numbers strings list gmap sets.
From S2P Require Import Prelude Effects Values OutputCapture RetryPolicy CronEngine Domain ResourceNames StorageFailure Storage.
From S2P Require Import SchedulerRepository ManagementRepository Lifecycle Management ManagementOperations StoreLogic.
From S2P Require Import Keyset ManagementLogic ManagementAtomicity StoreInvariant RecoverySound ManagementStatements.
From S2P Require Import ManagementSpec.
Local Open Scope Z_scope.

(** ** Every request makes one transition *)

Section Requests.
Context `{Admission} (options : ManagementServiceOptions).
Implicit Type t : Tables.

Abbreviation Op := (ES Service).

Lemma op_reads {A} (m : ES Session A) t (Q : A → Tables → Prop) : reads m → (∀ v, Q v t) → op (on_store m) t Q.
Proof. intros Hm HQ. apply op_store. by apply tx_reads. Qed.

Lemma untouched_reads {A} (m : ES Session A) : untouched m → reads m.
Proof. intros Hm s r s' Hs. by apply Hm in Hs as []. Qed.

Lemma op_initialized t (Q : unit → Tables → Prop) : Q tt t → op (initialized options) t Q.
Proof. intros HQ. unfold initialized. op_step; by op_step. Qed.

(** Only the side table of requests changes. *)
Lemma op_recorded {A} (f : A → result Error bytes) (v : A) (canonical : option (bytes * bytes)) record t (Q : unit → Tables → Prop) :
  Q tt t →
  op match canonical with
     | None => mret tt
     | Some (key, text) => saved ← of_result (f v); on_store (insert_idempotency (record key text saved))
     end t Q.
Proof.
  intros HQ. destruct canonical as [[key text]|]; [|by op_step]. op_step. op_step.
  apply op_reads; [apply insert_idempotency_reads|]. by intros [].
Qed.

Lemma check_success b (e : Error) v : check b e = success v → b = true.
Proof. by destruct b. Qed.

Lemma validated_update request :
  validate_queue_update request = success tt →
  match uq_name request with Some name => is_valid_queue_name name = true | None => True end.
Proof.
  unfold validate_queue_update. intros (? & _ & Hr)%bind_success. apply bind_success in Hr as (? & _ & Hr).
  apply bind_success in Hr as (? & _ & Hr). apply bind_success in Hr as (? & Hn & _).
  destruct (uq_name request) as [name|]; [|done]. by eapply check_success.
Qed.

Lemma new_queue_transition request canonical now id t :
  is_valid_queue_name (cq_name request) = true →
  op (insert_new_queue request canonical now id) t (λ v t', transition options t (CreateQueue request now) (QueueResponse v) t').
Proof.
  intros Hn. unfold insert_new_queue. cbv zeta. op_step. op_step. apply tx_find_queue_by_name. intros o _. op_step. op_step.
  op_step. op_step. apply tx_insert_queue. cbn [row_queue_id queue_row]. intros Hid Hfree. op_step.
  apply op_recorded. op_step. by apply TQueueCreated.
Qed.

Lemma create_queue_transition request now t : op (create_queue_impl options request now) t
    (λ v t', transition options t (CreateQueue request now) (QueueResponse v) t').
Proof.
  unfold create_queue_impl. op_step. apply op_initialized. op_step. apply op_of_result. intros [] Hn%check_success.
  do 6 op_step. op_step.
  - op_step. op_step. op_step. op_step. op_step. apply tx_reads; [apply find_idempotency_reads|]. intros record.
    destruct record as [record|].
    + unfold replay_queue. op_step. op_step. op_step. op_step. op_step. op_step. op_step. op_step. op_step. apply TQueueReplayed.
      by rewrite Heqo.
    + op_step. op_step. apply tx_generate. intros id. by apply new_queue_transition.
  - op_step. op_step. apply tx_generate. intros id. op_step. by apply new_queue_transition.
Qed.

Lemma update_queue_transition request boundary t :
  wf t → op (update_queue_impl options request boundary) t
    (λ v t', transition options t (UpdateQueue request boundary) (QueueResponse v) t').
Proof.
  intros Hwf. unfold update_queue_impl. op_step. apply op_initialized. op_step. apply op_of_result. intros [] Hv.
  apply validated_update in Hv. do 2 op_step. op_step. op_step. op_step.
  apply tx_find_queue_selected; [done|]. intros o Ho. op_step. apply op_need. intros q ->. destruct (Ho q eq_refl) as [Hsel Hd].
  specialize (Hd eq_refl). pose proof (proj1 Hsel) as Hq. op_step. apply op_demand. intros Hrev%Z.eqb_eq.
  op_step. op_step. op_step.
  assert (Hname : ∀ Q : unit → Tables → Prop, Q tt t → op match uq_name request with
    | Some name => if bytes_eqb name (queue_name q) then mret tt
        else conflict ← on_read (find_queue_by_name name false);
             demand (match conflict with Some c => bytes_eqb (row_queue_id c) (row_queue_id q) | None => true end) queue_name_conflict
    | None => mret tt end t Q).
  { intros Q HQ. op_step; [|by op_step]. op_step; [by op_step|]. op_step. op_step. apply tx_find_queue_by_name. intros c _. by op_step. }
  apply Hname. cbv zeta. op_step. op_step. op_step. op_step. apply tx_replace_fields.
  - cbn [negb]. op_step. op_step. apply tx_find_queue_with_id. intros d _. op_step; [|op_step].
    op_step; [op_step|]. op_step; op_step.
  - intros old Hold _ _ Hfree Hmax. cbn [negb]. op_step. op_step. op_step. cbn [reconfigured row_queue_id] in Hold |- *.
    rewrite Hq in Hold. injection Hold as <-. apply bool_decide_eq_false in Hd. apply TQueueUpdated; try done.
    cbn in Hmax. lia.
Qed.

Lemma transition_queue_spec q next now t (Q : Queue → Tables → Prop) :
  (∀ q', queues t !! row_queue_id q = Some q' → queue_state q' = queue_state q → queue_state q ≠ QueueDeleted →
     next ≠ QueueDeleted → queue_revision q' = queue_revision q → queue_revision q < int64_max →
     Q (queue_with_state next (queue_revision q + 1) now q)
       (set_queues (<[row_queue_id q := queue_with_state next (queue_revision q + 1) (floor_us now) q']> (queues t)) t)) →
  op (transition_queue q next now) t Q.
Proof.
  intros HQ. unfold transition_queue, queue_capacity. op_step. op_step. op_step. op_step. apply tx_set_queue_state.
  - cbn [negb]. op_step.
  - intros q' Hq' Hs Hd Hd' Hr _. cbn [negb]. op_step. apply HQ; [done..|lia].
Qed.

Lemma suspend_queue_transition selector boundary t :
  wf t → op (suspend_queue_impl options selector boundary) t
    (λ v t', transition options t (SuspendQueue selector boundary) (QueueResponse v) t').
Proof.
  intros Hwf. unfold suspend_queue_impl. op_step. apply op_initialized. do 4 op_step. op_step. op_step. op_step.
  apply tx_find_queue_selected; [done|]. intros o Ho. op_step. apply op_need. intros q ->. destruct (Ho q eq_refl) as [Hsel _].
  pose proof (proj1 Hsel) as Hq.
  op_step. apply op_demand. intros Hd%negb_true_iff%bool_decide_eq_false.
  op_step; [op_step; apply TQueueStillSuspended; [done|left; by eapply bool_decide_eq_true_1]|].
  op_step. op_step. op_step. op_step.
  - apply bool_decide_eq_true in Heqb0. apply transition_queue_spec. intros q' Hq' Hs _ _ Hr Hmax. rewrite Hq in Hq'. injection Hq' as <-.
    op_step. op_step. apply tx_count_selected. intros running Hn. cbn [row_queue_id queue_with_state] in Hn. op_step.
    op_step; [|op_step; op_step; op_step; op_step; apply TQueueSuspended; [done..|lia|right; split_and!; [done..|]];
      intros Hno%Hn; lia].
    apply transition_queue_spec. cbn [row_queue_id queue_with_state]. intros q' Hq' _ _ _ _ Hmax'. op_step. op_step. op_step.
    cbn [queues set_queues queue_with_state queue_revision] in Hq', Hmax' |- *. rewrite lookup_insert_eq in Hq'. injection Hq' as <-. rewrite insert_insert_eq.
    refine (TQueueSuspended options t selector boundary now q QueueSuspended (queue_revision q + 1 + 1) _ Hsel Hd _ _);
      [done|lia|left; split; [done|]]. apply Hn. lia.
  - op_step. op_step. op_step. apply tx_count_selected. intros running Hn. op_step.
    op_step; [|op_step; op_step; op_step; op_step; apply TQueueStillSuspended; [done|right; split]].
    + apply transition_queue_spec. intros q' Hq' _ _ _ _ Hmax'. op_step. op_step. op_step. rewrite Hq in Hq'. injection Hq' as <-.
      apply TQueueSuspended; [done..|lia|left; split; [done|]]. apply Hn. lia.
    + apply bool_decide_eq_false in Heqb, Heqb0. by destruct (queue_state q).
    + intros Hno%Hn. lia.
Qed.

Lemma resume_queue_transition selector boundary t :
  wf t → op (resume_queue_impl options selector boundary) t
    (λ v t', transition options t (ResumeQueue selector boundary) (QueueResponse v) t').
Proof.
  intros Hwf. unfold resume_queue_impl. op_step. apply op_initialized. do 4 op_step. op_step. op_step. op_step.
  apply tx_find_queue_selected; [done|]. intros o Ho. op_step. apply op_need. intros q ->. destruct (Ho q eq_refl) as [Hsel _].
  pose proof (proj1 Hsel) as Hq.
  op_step. apply op_demand. intros Hd%negb_true_iff%bool_decide_eq_false.
  op_step; [op_step; apply TQueueStillActive; [done|by eapply bool_decide_eq_true_1]|].
  op_step. op_step. op_step. apply transition_queue_spec. intros q' Hq' _ _ _ _ Hmax'. op_step. op_step. op_step.
  rewrite Hq in Hq'. injection Hq' as <-. apply TQueueResumed; [done..|lia].
Qed.

Lemma no_exhausted id maximum t k j :
  jobs_where (λ j, in_queue id j && (maximum <=? job_revision j)) t = [] → jobs t !! k = Some j → in_queue id j = true →
  job_revision j < maximum.
Proof.
  intros Hn Hj Hin. destruct (maximum <=? job_revision j) eqn:Hm; [|lia].
  assert (Hx : j ∈ jobs_where (λ j, in_queue id j && (maximum <=? job_revision j)) t).
  { unfold jobs_where. apply list_elem_of_fmap. exists (k, j). split; [done|].
    apply elem_of_map_to_list, map_lookup_filter_Some. split; [done|]. cbn. by rewrite Hin, Hm. }
  rewrite Hn in Hx. by apply elem_of_nil in Hx.
Qed.

Lemma delete_queue_transition selector boundary t :
  wf t → op (delete_queue_impl options selector boundary) t
    (λ _ t', transition options t (DeleteQueue selector boundary) Done t').
Proof.
  intros Hwf. unfold delete_queue_impl. op_step. apply op_initialized. do 4 op_step. op_step. op_step. op_step.
  apply tx_find_queue_selected; [done|]. intros o Ho. op_step. apply op_need. intros q ->. destruct (Ho q eq_refl) as [Hsel _].
  pose proof (proj1 Hsel) as Hq. op_step. op_step. op_step. apply op_demand. intros Hs%bool_decide_eq_true. cbv zeta. op_step. op_step.
  apply tx_count_selected. intros running Hnone. op_step. apply op_demand. intros Hz%Z.eqb_eq%Hnone.
  op_step. op_step. apply tx_query. op_step. op_step. unfold has_exhausted_revision_in_queue. tx_step. tx_step. apply tx_query.
  op_step. apply op_demand. intros Hex%negb_true_iff%negb_false_iff%bool_decide_eq_true. op_step. apply op_demand.
  intros Hcap. op_step. op_step. op_step. apply op_reads; [apply erase_references_reads|]. intros _.
  op_step. op_step. apply tx_mark_all. op_step. apply op_demand. intros Hlen%Nat.eqb_eq. op_step. op_step.
  unfold cancel_pending. tx_step. apply tx_of_result. intros text _. apply tx_update_runs. op_step. op_step.
  apply tx_mark_queue_deleted; [cbn [negb]; op_step|]. cbn [queues set_queues set_jobs set_runs runs jobs].
  intros q' Hq' _ _ _. rewrite Hq in Hq'. injection Hq' as <-. cbn [negb]. op_step.
  refine (TQueueDeleted options t selector boundary now q text _ Hsel Hs _ _ Hz (eq_sym Hlen)); [done|lia|].
  intros k j Hj Hin. by eapply no_exhausted.
Qed.

(** ** Jobs *)

Lemma op_asks_for input t (Q : CronSchedule → Tables → Prop) :
  (∀ cron, asks_for options (InputCron input) (Cron cron) → Q cron t) →
  tx (of_result (resolve_cron_schedule input (default_timezone options))) t Q.
Proof. intros HQ. apply tx_of_result. intros cron Hc. apply HQ. by exists cron. Qed.

Lemma tx_resolve_creation input now t (Q : Z * JobSchedule → Tables → Prop) :
  (∀ planned schedule, creates options input now schedule → due_at schedule now planned → Q (planned, schedule) t) →
  tx (resolve_creation options input now) t Q.
Proof.
  intros HQ. destruct input as [|[planned|input]]; cbn [resolve_creation]; [by apply tx_ret, HQ..|].
  tx_step. apply op_asks_for. intros cron Hc. tx_step. apply tx_cron. intros _ _ _ _. tx_step. apply tx_cron.
  intros next e e' Hn. tx_step. apply HQ; [done|]. by exists e, e'.
Qed.

Lemma tx_resolve_update input t (Q : option JobSchedule → Tables → Prop) :
  (∀ schedule, match input with None => schedule = None | Some input => ∃ s, schedule = Some s ∧ asks_for options input s end →
     Q schedule t) →
  tx (resolve_update options input) t Q.
Proof.
  intros HQ. destruct input as [[planned|input]|]; cbn [resolve_update]; [tx_step; apply HQ; by eexists| |by tx_step; apply HQ].
  tx_step. apply op_asks_for. intros cron Hc. tx_step. apply tx_cron. intros _ _ _ _. tx_step. apply HQ. by eexists.
Qed.

Lemma serialized_stores j text :
  serialize_attributes (job_attributes j) JobScope Materialized (Some (job_type j)) = success text → stores_attributes j.
Proof. intros Hs. unfold stores_attributes. by rewrite Hs. Qed.

Lemma validated_stores j text : validate_job_payload (job_type j) (job_payload j) = success text → stores_payload j.
Proof. intros Hs. unfold stores_payload. by rewrite Hs. Qed.

Lemma new_job_transition request payload payload_text canonical boundary queue ids t :
  validate_job_payload (cj_type request) payload = success payload_text →
  selected (cj_queue request) t queue → is_deleted_queue queue = false →
  op (insert_new_job options (with_payload payload request) payload_text canonical boundary queue ids) t
    (λ v t', transition options t (CreateJob request boundary) (JobResponse v) t').
Proof.
  intros Hpay Hq Hd. apply bool_decide_eq_false in Hd. unfold insert_new_job. op_step.
  destruct (validate_payload_template _ _) as [references|]; [|op_step]. op_step. op_step.
  apply op_reads; [apply require_existing_reads|]. intros _. op_step. op_step. op_step. op_step. apply tx_resolve_creation.
  intros planned schedule Hs Hp. op_step. op_step. op_step. op_step. cbv zeta. op_step. op_step. apply tx_insert_job.
  cbn [job_id]. intros Hid Hn. op_step. apply op_reads; [apply replace_references_reads|]. intros _. op_step. op_step.
  apply tx_insert_initial_run. cbn [occurrence run_id run_job runs set_jobs job_id]. intros _ Hrun _ _. op_step.
  apply op_recorded. op_step. op_step. op_step.
  eapply (TJobCreated options t request boundary now _ _ queue ids.2 planned); try done.
  - by eapply serialized_stores.
  - by eapply validated_stores.
Qed.

(** The transaction of [create_job] in the queue of the request. *)
Lemma in_queue_transition request boundary t (create : Queue → Op JobDefinition) :
  wf t →
  (∀ queue, selected (cj_queue request) t queue → is_deleted_queue queue = false →
     op (create queue) t (λ v t', transition options t (CreateJob request boundary) (JobResponse v) t')) →
  op (atomically (
    found ← on_read (find_queue_selected (cj_queue request) false);
    queue ← need found queue_not_found;
    _ ← demand (bool_decide (queue_state queue = QueueActive) || bool_decide (queue_state queue = QueueSuspended))
          queue_state_conflict;
    create queue)) t (λ v t', transition options t (CreateJob request boundary) (JobResponse v) t').
Proof.
  intros Hwf Hcreate. op_step. op_step. op_step. apply tx_find_queue_selected; [done|]. intros o Ho. op_step.
  apply op_need. intros queue ->. destruct (Ho queue eq_refl) as [Hq Hd]. op_step. op_step. by apply Hcreate; [|apply Hd].
Qed.

Lemma create_job_transition request boundary t :
  wf t → op (create_job_impl options request boundary) t
    (λ v t', transition options t (CreateJob request boundary) (JobResponse v) t').
Proof.
  intros Hwf. unfold create_job_impl. op_step. apply op_initialized. do 6 op_step. cbv zeta. do 10 op_step.
  cbn [with_payload cj_queue cj_idempotency_key]. op_step.
  - apply in_queue_transition; [done|]. intros queue Hq Hd. op_step. op_step. op_step. op_step.
    apply tx_reads; [apply find_idempotency_reads|]. intros [record|].
    + unfold replay_job. do 9 op_step. apply TJobReplayed. by rewrite Heqo.
    + op_step. unfold generate_identity. op_step. op_step. apply tx_generate. intros job. op_step. op_step. apply tx_generate.
      intros run. op_step. by apply new_job_transition.
  - op_step. unfold generate_identity. op_step. op_step. apply tx_generate. intros job. op_step. op_step. apply tx_generate.
    intros run. op_step. apply in_queue_transition; [done|]. intros queue Hq Hd. by apply new_job_transition.
Qed.

Lemma new_run_transition request canonical boundary t :
  wf t → op (insert_new_run request canonical boundary) t
    (λ v t', transition options t (RunNow request boundary) (RunResponse v) t').
Proof.
  intros Hwf. unfold insert_new_run. op_step. op_step. apply tx_find_job_with_id. intros o Ho. op_step. apply op_need.
  intros j ->. specialize (Ho j eq_refl). pose proof (wf_job_key t Hwf _ _ Ho) as Hid. op_step. apply op_demand.
  intros Hd%negb_true_iff%bool_decide_eq_false. op_step. apply op_demand. intros Ht%negb_true_iff.
  op_step. op_step. apply tx_find_queue_with_id. intros oq _. op_step. op_step. op_step. op_step. op_step. op_step.
  apply tx_find_schedule_owned. intros owned _. op_step. op_step. op_step. op_step. op_step. op_step. op_step. op_step.
  op_step. op_step. apply tx_query. op_step. op_step. op_step. op_step. apply tx_manual_pending. intros manual Hm.
  op_step. op_step. op_step. op_step. op_step. op_step. apply tx_generate. intros id. cbv zeta. op_step. op_step.
  apply tx_insert_manual. cbn [manual_occurrence run_id run_job]. intros x Hr Hnone _. op_step. apply op_recorded.
  op_step. op_step. op_step. rewrite Hid in Hnone. by eapply (TRunRequested options t _ _ now j).
Qed.

Lemma run_now_transition request boundary t :
  wf t → op (run_now_impl options request boundary) t
    (λ v t', transition options t (RunNow request boundary) (RunResponse v.1) t').
Proof.
  intros Hwf. unfold run_now_impl. op_step. apply op_initialized. do 2 op_step. op_step.
  assert (Hnew : ∀ canonical, op (run ← insert_new_run request canonical boundary; mret (run, true)) t
    (λ v t', transition options t (RunNow request boundary) (RunResponse v.1) t')).
  { intros canonical. op_step. eapply op_mono; [|by apply new_run_transition]. intros run t' Ht. by op_step. }
  op_step.
  - op_step. op_step. op_step. op_step. op_step. op_step. apply tx_reads; [apply find_idempotency_reads|].
    intros [record|]; [|apply Hnew]. op_step. unfold replay_run. op_step. op_step. op_step. op_step. op_step. op_step. op_step.
    op_step. op_step. op_step. op_step. op_step. apply TRunReplayed. by rewrite Heqo.
  - op_step. op_step. op_step. op_step. apply Hnew.
Qed.

(** The diagnosis never succeeds. *)
Lemma op_diagnose {A} job revision (rest : JobDefinition → Op A) t (Q : A → Tables → Prop) :
  (∀ d, op (rest d) t Q) → op (diagnose_job job revision rest) t Q.
Proof.
  intros Hrest. unfold diagnose_job. op_step. op_step. apply tx_find_job_with_id. intros d _. op_step; [|op_step].
  op_step; [op_step|]. op_step; [op_step|]. apply Hrest.
Qed.

Lemma op_refreshes j request owned t (Q : bool → Tables → Prop) : (∀ b, Q b t) → op (refreshes j request owned) t Q.
Proof.
  intros HQ. unfold refreshes. op_step.
  - op_step. op_step. apply tx_query. op_step. op_step. op_step. apply HQ.
  - op_step. op_step. op_step. apply HQ.
Qed.

(** The definition with its references, and the run that waits if it is to
    follow the definition. *)
Lemma redefined_transition job j new (refresh : bool) attributes_text payload_text now t
    (references : list SecretReference) (Q : JobDefinition → Tables → Prop) :
  job_id new = job →
  (∀ planned, match planned with Some at_ => due_at (job_schedule new) now at_ | None => True end →
     Q new (redefine job j new planned t)) →
  op (_ ← on_store (replace_references_for_job job references);
      _ ← (if refresh then refresh_snapshot new attributes_text payload_text now else mret tt);
      _ ← reconcile_timing (ScopeJob job);
      mret new) (set_jobs (<[job := with_definition new j]> (jobs t)) t) Q.
Proof.
  intros Hid HQ. op_step. apply op_reads; [apply replace_references_reads|]. intros _. op_step. op_step.
  2: { op_step. op_step. op_step. op_step. by apply (HQ None). }
  unfold refresh_snapshot. op_step.
  assert (Hplan : ∀ t0 (R : Z → Tables → Prop), (∀ planned, due_at (job_schedule new) now planned → R planned t0) →
    op match job_schedule new with
       | Once planned => mret planned
       | Cron schedule => on_store (cron_call (λ e, next_after e schedule now))
       end t0 R).
  { intros t0 R HR. destruct (job_schedule new); [op_step; by apply HR|]. op_step. apply tx_cron. intros v e e' Hv.
    apply HR. by exists e, e'. }
  apply Hplan. intros planned Hp. op_step. op_step. unfold refresh_unstarted_schedule_owned. do 4 tx_step. tx_step.
  apply tx_update_runs. tx_step. op_step; [op_step|]. op_step. op_step. op_step. op_step.
  subst job. by apply (HQ (Some planned)).
Qed.

Lemma update_job_transition request boundary t :
  wf t → op (update_job_impl options request boundary) t
    (λ v t', transition options t (UpdateJob request boundary) (JobResponse v) t').
Proof.
  intros Hwf. unfold update_job_impl. op_step. apply op_initialized. do 6 op_step.
  op_step. op_step. apply tx_resolve_update. intros schedule Hschedule. op_step. op_step. op_step.
  op_step. op_step. op_step. op_step. apply tx_find_job_with_id. intros o Ho. op_step. apply op_need. intros j ->.
  specialize (Ho j eq_refl). pose proof (wf_job_key t Hwf _ _ Ho) as Hid. op_step. op_step. op_step. apply op_demand.
  intros Hrev%Z.eqb_eq. op_step. apply op_demand. intros Hm. op_step.
  assert (Honce : ∀ Q : unit → Tables → Prop, Q tt t →
    op (if is_once j then started ← on_store (has_started_for_job (job_id j)); demand (negb started) job_immutable
        else mret tt) t Q).
  { intros Q HQ. op_step; [|by op_step]. op_step. op_step. apply tx_query. by op_step. }
  apply Honce. op_step. op_step. apply tx_find_schedule_owned. intros owned _. op_step. op_step. op_step. apply op_refreshes.
  intros refresh. op_step. op_step. op_step.
  assert (Hpay : ∀ Q : JsonValue → Tables → Prop, (∀ payload, Q payload t) →
    op match uj_payload request with
       | Some payload => of_result (normalize_submitted_job_payload (job_type j) payload)
       | None => mret (job_payload j)
       end t Q).
  { intros Q HQ. op_step; op_step; apply HQ. }
  apply Hpay. intros payload. cbv zeta. op_step. op_step. op_step.
  destruct (validate_payload_template _ _) as [references|]; [|op_step]. op_step. op_step.
  apply op_reads; [apply require_existing_reads|]. intros _. op_step. op_step. op_step. op_step. op_step. op_step. op_step.
  op_step. apply tx_update_definition.
  - cbn [negb]. apply op_diagnose. intros d. op_step.
  - intros j' Hj' _ _ Hn. cbn [redefined job_id] in Hj'. rewrite Hid, Ho in Hj'. injection Hj' as <-. cbn [negb].
    apply redefined_transition; [done|]. intros planned Hp. cbn [redefined job_id]. rewrite Hid.
    apply TJobUpdated; try done; [lia|by eapply serialized_stores|by eapply validated_stores].
Qed.

Lemma transition_job_spec j next now t (Q : JobDefinition → Tables → Prop) :
  (∀ j', jobs t !! job_id j = Some j' → job_state j' = job_state j → job_state j ≠ JobDeleted →
     next ≠ JobDeleted → job_revision j' = job_revision j → job_revision j < int64_max →
     Q (job_with_state next (job_revision j + 1) now j)
       (set_jobs (<[job_id j := job_with_state next (job_revision j + 1) (floor_us now) j']> (jobs t)) t)) →
  op (transition_job j next now) t Q.
Proof.
  intros HQ. unfold transition_job. op_step. op_step. op_step. op_step. apply tx_set_job_state.
  - cbn [negb]. op_step.
  - intros j' Hj' Hs Hd Hd' Hr _. cbn [negb]. op_step. apply HQ; [done..|lia].
Qed.

Lemma suspend_job_transition id boundary t :
  wf t → op (suspend_job_impl options id boundary) t
    (λ v t', transition options t (SuspendJob id boundary) (JobResponse v) t').
Proof.
  intros Hwf. unfold suspend_job_impl. op_step. apply op_initialized. op_step. op_step. op_step. op_step. op_step.
  apply tx_find_job_with_id. intros o Ho. op_step. apply op_need. intros j ->. specialize (Ho j eq_refl).
  pose proof (wf_job_key t Hwf _ _ Ho) as Hid. op_step. apply op_demand. intros Hd%negb_true_iff%bool_decide_eq_false.
  op_step. apply op_demand. intros Ht%negb_true_iff.
  op_step; [op_step; apply TJobStillSuspended; [done|left; by eapply bool_decide_eq_true_1]|]. op_step. op_step. op_step. op_step.
  - apply bool_decide_eq_true in Heqb0. apply transition_job_spec. intros j' Hj' Hs _ _ Hr Hmax. rewrite Hid, Ho in Hj'. injection Hj' as <-.
    op_step. op_step. apply tx_count_selected. intros running Hn. cbn [job_id job_with_state] in Hn. rewrite Hid in *. op_step.
    op_step; [|op_step; op_step; op_step; op_step; apply TJobSuspended; [done..|lia|right; split_and!; [done..|]];
      intros Hno%Hn; lia].
    apply transition_job_spec. cbn [job_id job_with_state]. intros j' Hj' _ _ _ _ Hmax'. op_step. op_step. op_step.
    rewrite Hid in *. cbn [jobs set_jobs job_with_state job_revision] in Hj', Hmax' |- *. rewrite lookup_insert_eq in Hj'. injection Hj' as <-. rewrite insert_insert_eq.
    refine (TJobSuspended options t id boundary now j JobSuspended (job_revision j + 1 + 1) _ Ho Hd Ht _ _);
      [done|lia|left; split; [done|]]. apply Hn. lia.
  - op_step. op_step. op_step. apply tx_count_selected. intros running Hn. rewrite Hid in Hn. op_step.
    op_step; [|op_step; op_step; op_step; op_step; apply TJobStillSuspended; [done|right; split]].
    + apply transition_job_spec. intros j' Hj' _ _ _ _ Hmax'. op_step. op_step. op_step. rewrite Hid in *. rewrite Ho in Hj'.
      injection Hj' as <-. apply TJobSuspended; [done..|lia|left; split; [done|]]. apply Hn. lia.
    + apply bool_decide_eq_false in Heqb, Heqb0. by destruct (job_state j).
    + intros Hno%Hn. lia.
Qed.

Lemma resume_job_transition id boundary t :
  wf t → op (resume_job_impl options id boundary) t
    (λ v t', transition options t (ResumeJob id boundary) (JobResponse v) t').
Proof.
  intros Hwf. unfold resume_job_impl. op_step. apply op_initialized. op_step. op_step. op_step. op_step. op_step.
  apply tx_find_job_with_id. intros o Ho. op_step. apply op_need. intros j ->. specialize (Ho j eq_refl).
  pose proof (wf_job_key t Hwf _ _ Ho) as Hid. op_step. apply op_demand. intros Hd%negb_true_iff%bool_decide_eq_false.
  op_step. apply op_demand. intros Ht%negb_true_iff.
  op_step; [op_step; apply TJobStillActive; [done|by eapply bool_decide_eq_true_1]|]. op_step. op_step. op_step.
  apply transition_job_spec. rewrite Hid. intros j' Hj' _ _ _ _ Hmax'. op_step. op_step. op_step. rewrite Ho in Hj'. injection Hj' as <-.
  apply TJobResumed; [done..|lia].
Qed.

Lemma move_job_transition request boundary t :
  wf t → op (move_job_impl options request boundary) t
    (λ v t', transition options t (MoveJob request boundary) (JobResponse v) t').
Proof.
  intros Hwf. unfold move_job_impl. op_step. apply op_initialized. do 6 op_step. op_step. op_step. op_step.
  apply tx_find_job_with_id. intros o Ho. op_step. apply op_need. intros j ->. specialize (Ho j eq_refl).
  pose proof (wf_job_key t Hwf _ _ Ho) as Hid. rewrite Hid. op_step. op_step. op_step. apply op_demand. intros Hrev%Z.eqb_eq.
  op_step. apply op_demand.
  intros Hs%bool_decide_eq_true. op_step. op_step. apply tx_find_queue_selected; [done|]. intros oq Hoq. op_step. apply op_need.
  intros target ->. destruct (Hoq target eq_refl) as [Hq Hd]. specialize (Hd eq_refl). apply bool_decide_eq_false in Hd.
  op_step. apply op_demand. intros [Hne%negb_true_iff%bool_decide_eq_false _]%andb_true_iff.
  op_step. op_step. op_step. op_step. cbv zeta. op_step. op_step. apply tx_move_row.
  - cbn [negb]. apply op_diagnose. intros d. op_step; op_step.
  - intros j' Hj' _ _ _. rewrite Ho in Hj'. injection Hj' as <-. cbn [negb]. op_step. op_step. unfold move_non_terminal.
    tx_step. tx_step. apply tx_update_runs. op_step. op_step. op_step. refine (TJobMoved options t request boundary now j target _ Ho Hrev Hs Hq Hd Hne _); [done|lia].
Qed.

Lemma delete_job_transition request boundary t :
  wf t → op (delete_job_impl options request boundary) t
    (λ _ t', transition options t (DeleteJob request boundary) Done t').
Proof.
  intros Hwf. unfold delete_job_impl. op_step. apply op_initialized. do 4 op_step. op_step. op_step. op_step.
  apply tx_find_job_with_id. intros o Ho. op_step. apply op_need. intros j ->. specialize (Ho j eq_refl).
  pose proof (wf_job_key t Hwf _ _ Ho) as Hid. rewrite Hid. op_step. apply op_demand. intros Hd%negb_true_iff%bool_decide_eq_false.
  op_step. apply op_demand. intros Hrev%Z.eqb_eq. op_step. apply op_demand. intros Hdel. op_step.
  assert (Hlife : ∀ Q : unit → Tables → Prop, Q tt t →
    op (if is_terminal_job_state (job_state j) then on_store (validate_job_lifecycle j) else mret tt) t Q).
  { intros Q HQ. op_step; [|by op_step]. apply op_reads; [apply validate_job_lifecycle_reads|]. by intros []. }
  apply Hlife. op_step. op_step. apply tx_count_selected. intros running Hnone. op_step. apply op_demand.
  intros Hz%Z.eqb_eq%Hnone. op_step. op_step. op_step. op_step. op_step. op_step. apply tx_mark_job_deleted.
  - cbn [negb]. apply op_diagnose. intros d. op_step; op_step.
  - intros j' Hj' _ _ _. rewrite Ho in Hj'. injection Hj' as <-. cbn [negb]. op_step. op_step. unfold cancel_pending.
    tx_step. apply tx_of_result. intros text _. apply tx_update_runs. op_step.
    apply op_reads; [apply replace_references_reads|]. intros _. op_step. refine (TJobDeleted options t request boundary now j text _ Ho Hrev Hdel Hd _ Hz); [done|lia].
Qed.

Lemma operation_transition request t :
  wf t → op (operation options request) t (λ v t', transition options t request v.1 t').
Proof.
  intros Hwf. destruct (is_query request) eqn:Hq.
  { intros w v w' <- Hw. apply (query_quiet options) in Hw as [Ht _ _]; [|done]. rewrite Ht. by apply TRead. }
  destruct request; try discriminate; apply op_fmap.
  - apply create_queue_transition.
  - by apply update_queue_transition.
  - by apply suspend_queue_transition.
  - by apply resume_queue_transition.
  - by apply delete_queue_transition.
  - by apply create_job_transition.
  - by apply run_now_transition.
  - by apply update_job_transition.
  - by apply suspend_job_transition.
  - by apply resume_job_transition.
  - by apply move_job_transition.
  - by apply delete_job_transition.
Qed.

(** A request that succeeds makes its transition; whatever the outcome, a
    request makes one transition or none. *)
Lemma serve_transition request w v w' :
  wf (tables (connection w)) → serve options request w = (success v, w') →
  transition options (tables (connection w)) request v (tables (connection w')).
Proof.
  intros Hwf Hw. apply invoke_store in Hw as [(_ & [=] & _)|(x & w1 & Hx & -> & b & ->)].
  exact (operation_transition request _ Hwf (with_failure OriginOperation None w) (v, b) w1 eq_refl Hx).
Qed.

Lemma serve_either request w r w' :
  wf (tables (connection w)) → serve options request w = (r, w') →
  tables (connection w') = tables (connection w) ∨
  ∃ v, transition options (tables (connection w)) request v (tables (connection w')).
Proof.
  intros Hwf Hw. apply invoke_store in Hw as [(-> & _)|(x & w1 & Hx & -> & _)]; [by left|].
  destruct x as [v|e].
  - right. exists v.1. by apply (operation_transition request _ Hwf (with_failure OriginOperation None w) v w1 eq_refl).
  - left. by apply operation_restores in Hx as [Ht _ _].
Qed.

(** What every request keeps, whatever its outcome. *)
Lemma serve_keeps request w r w' :
  wf (tables (connection w)) → serve options request w = (r, w') →
  wf (tables (connection w')) ∧ attempts (tables (connection w')) = attempts (tables (connection w)) ∧
  (names_unique (tables (connection w)) → names_unique (tables (connection w'))).
Proof.
  intros Hwf Hw. destruct (serve_either _ _ _ _ Hwf Hw) as [->|[v Ht]]; [done|]. split_and!.
  - by eapply transition_wf.
  - by eapply transition_attempts.
  - intros Hu. by eapply transition_names.
Qed.

End Requests.
