(* ===== verification/ManagementContract.v ===== *)
(** * What the management service promises

    The contract of [serve] for the callers of the service: what a request
    does, that it does it whole or not at all, what it keeps over any sequence
    of requests, and what a fatal failure means.  The sample is the store of
    [SchedulerStore.Sample]. *)

From stdpp Require Import base numbers strings list gmap sets relations.
From S2P Require Import Prelude Effects Values OutputCapture RetryPolicy CronEngine Domain ResourceNames StorageFailure Storage.
From S2P Require Import SchedulerRepository ManagementRepository Lifecycle Management ManagementOperations StoreLogic.
From S2P Require Import Keyset ManagementLogic ManagementAtomicity StoreInvariant SchedulerStore RecoverySound.
From S2P Require Import Completion ManagementStatements ManagementSpec ManagementRefinement.
Local Open Scope Z_scope.

Section Contract.
Context `{Admission} (options : ManagementServiceOptions).

Abbreviation store_of w := (tables (connection w)).


(** C5.  A request is all or nothing: if it fails while the connection is
    usable, or is a query, or arrives after mutations were stopped, then the
    tables, the accounting of waiting time and the side tables are as they
    were. *)
Theorem requests_all_or_nothing request w r w' :
  serve options request w = (r, w') →
  is_query request = true ∨ mutations_stopped w = true ∨
    is_success r = false ∧ poisoned (statements (connection w')) = None →
  same_store (connection w) (connection w').
Proof.
  intros Hw [Hq|[Hs|[Hf Hp]]].
  - by eapply serve_quiet.
  - by eapply serve_stopped.
  - destruct r as [|e]; [done|]. by eapply serve_restores.
Qed.

(** ** Sequences of requests *)

Lemma served_keeps w w' :
  rtc (served options) w w' → wf (store_of w) →
  wf (store_of w') ∧ (names_unique (store_of w) → names_unique (store_of w')) ∧
  (typed (store_of w) → typed (store_of w')) ∧
  ∀ k j, jobs (store_of w) !! k = Some j → ∃ j', jobs (store_of w') !! k = Some j' ∧ job_revision j ≤ job_revision j'.
Proof.
  induction 1 as [w|w w1 w' (request & r & Hw) _ IH]; intros Hwf; [split_and!; [done..|]; intros k j Hj; by exists j|].
  destruct (serve_either _ _ _ _ _ Hwf Hw) as [Heq|[v Ht]]; [rewrite Heq in IH; by apply IH|].
  destruct (IH (transition_wf _ _ _ _ _ Hwf Ht)) as (Hwf' & Hnames & Htyped & Hrev). split_and!; [done|..].
  - intros Hu. apply Hnames. exact (transition_names _ _ _ _ _ Hwf Hu Ht).
  - intros Hty. apply Htyped. exact (transition_typed _ _ _ _ _ Hty Ht).
  - intros k j Hj. destruct (transition_revisions _ _ _ _ _ _ _ Ht Hj) as (j1 & Hj1 & Hle).
    destruct (Hrev k j1 Hj1) as (j2 & Hj2 & Hle2). exists j2. split; [done|lia].
Qed.

(** C9.  Rows stay readable: over any sequence of requests, each with any
    outcome, every queue and every definition has a valid name, a deletion
    time exactly when it is deleted, a one-time schedule if it has ended, and
    a revision that fits its column; so the repositories accept every row
    whose documents they can parse. *)
Theorem rows_stay_typed w w' :
  wf (store_of w) → typed (store_of w) → rtc (served options) w w' →
  typed (store_of w') ∧
  (∀ k q, queues (store_of w') !! k = Some q → unreadable_queue q = None → decode_queue q = success q) ∧
  (∀ k j, jobs (store_of w') !! k = Some j → unreadable_job j = None → decode_job j = success j).
Proof.
  intros Hwf Hty Hs. destruct (served_keeps _ _ Hs Hwf) as (_ & _ & Ht & _). specialize (Ht Hty). split_and!; [done|..].
  - intros k q Hq Hr. apply queue_typed_decodes; [done|]. by eapply typed_queues.
  - intros k j Hj Hr. apply job_typed_decodes; [done|]. by eapply typed_jobs.
Qed.

(** Live queues never share a name, over any sequence of requests. *)
Theorem names_stay_unique w w' :
  wf (store_of w) → names_unique (store_of w) → rtc (served options) w w' → names_unique (store_of w').
Proof. intros Hwf Hu Hs. destruct (served_keeps _ _ Hs Hwf) as (_ & Hn & _). by apply Hn. Qed.

(** The definition and the revision that a request insists on. *)
Definition fence (request : Request) : option (bytes * Z) :=
  match request with
  | UpdateJob r _ => Some (uj_job r, uj_expected_revision r)
  | MoveJob r _ => Some (mj_job r, mj_expected_revision r)
  | DeleteJob r _ => Some (dj_job r, dj_expected_revision r)
  | _ => None
  end.

Lemma fence_passed t request v t' id revision :
  transition options t request v t' → fence request = Some (id, revision) →
  ∃ j j', jobs t !! id = Some j ∧ jobs t' !! id = Some j' ∧ job_revision j = revision ∧ job_revision j' = revision + 1.
Proof.
  intros Ht Hf. destruct Ht; try discriminate; cbn in *; simplify_eq.
  - by destruct request.
  - exists j. eexists. split_and!; [done|apply lookup_insert_eq|first [done|lia]|cbn; lia].
  - exists j. eexists. split_and!; [done|apply lookup_insert_eq|first [done|lia]|cbn; lia].
  - exists j. eexists. split_and!; [done|apply lookup_insert_eq|first [done|lia]|cbn; lia].
Qed.

(** C7.  No update is lost: once an update, a move or a deletion of a
    definition at a revision has succeeded, every other one at the same
    revision fails, whatever requests come between. *)
Theorem no_lost_update first second id revision w v w1 w2 r w3 :
  wf (store_of w) → fence first = Some (id, revision) → fence second = Some (id, revision) →
  serve options first w = (success v, w1) → rtc (served options) w1 w2 → serve options second w2 = (r, w3) →
  is_success r = false.
Proof.
  intros Hwf Hf1 Hf2 H1 Hs H2. pose proof (serve_transition _ _ _ _ _ Hwf H1) as T1.
  destruct (fence_passed _ _ _ _ _ _ T1 Hf1) as (j & j1 & _ & Hj1 & _ & Hr1).
  destruct (served_keeps _ _ Hs (transition_wf _ _ _ _ _ Hwf T1)) as (Hwf2 & _ & _ & Hrev).
  destruct (Hrev id j1 Hj1) as (j2 & Hj2 & Hle). destruct r as [v2|]; [|done].
  destruct (fence_passed _ _ _ _ _ _ (serve_transition _ _ _ _ _ Hwf2 H2) Hf2) as (x & _ & Hx & _ & Hr2 & _).
  simplify_eq. lia.
Qed.

(** ** Deletion and requested runs *)

(** C8.  A queue that is deleted is empty: it was suspended and nothing of it
    was running; it is now a tombstone at the next revision, every definition
    in it is deleted, no run of it is live, and the definitions and runs of
    other queues are untouched. *)
Theorem deletion_drains_queue selector boundary w v w' :
  wf (store_of w) → serve options (DeleteQueue selector boundary) w = (success v, w') →
  ∃ q q', selected selector (store_of w) q ∧ queue_state q = QueueSuspended ∧
    queues (store_of w') !! row_queue_id q = Some q' ∧ queue_state q' = QueueDeleted ∧
    queue_revision q' = queue_revision q + 1 ∧
    (∀ k j', jobs (store_of w') !! k = Some j' →
       if bytes_eqb (job_queue j') (row_queue_id q) then job_state j' = JobDeleted else jobs (store_of w) !! k = Some j') ∧
    (∀ k r', runs (store_of w') !! k = Some r' →
       if bytes_eqb (run_queue r') (row_queue_id q) then is_live_run (run_state r') = false
       else runs (store_of w) !! k = Some r').
Proof.
  intros Hwf Hw. apply (serve_transition _ _ _ _ _ Hwf) in Hw. revert Hw.
  generalize (store_of w) (store_of w'). intros t t' Ht.
  inversion Ht as [| | | | | | | |? ? now q text Hb Hsel Hs _ _ Hnone Hlen| | | | | | | | | | |]; subst; [done|].
  eexists q, _. split_and!; [done|done|apply lookup_insert_eq|done|done|..]; cbn [jobs runs].
  - intros k j' (j & Hj & ->)%fmap_row.
    destruct (withdrawn_spec (row_queue_id q) now t Hlen k j Hj) as (_ & -> & Hdel & Hkeep).
    unfold bytes_eqb. case_bool_decide as Hq; [by apply Hdel|]. by rewrite Hkeep.
  - intros k r' (r & Hr & ->)%fmap_row. pose proof (cancelled_spec
      (λ r, bytes_eqb (run_queue r) (row_queue_id q)) now text r) as (_ & _ & _ & _ & -> & _ & _ & Hdead).
    destruct (bytes_eqb (run_queue r) (row_queue_id q)) eqn:Hq; [apply Hdead; [done|by eapply Hnone]|].
    unfold cancelled. by rewrite Hq.
Qed.

(** A run that is requested without an idempotency key is new, manual and
    due at once; it is the only live manual run of its definition, and nothing
    else changes. *)
Theorem requested_run_is_single request boundary w v w' :
  wf (store_of w) → rn_idempotency_key request = None → serve options (RunNow request boundary) w = (success v, w') →
  ∃ now j r, boundary = success now ∧ v = RunResponse r ∧ jobs (store_of w) !! rn_job request = Some j ∧
    r = manual_occurrence (run_id r) j now ∧ runs (store_of w) !! run_id r = None ∧
    store_of w' = set_runs (<[run_id r := manual_row r]> (runs (store_of w))) (store_of w) ∧
    ∀ k x, runs (store_of w') !! k = Some x → live_manual_of (rn_job request) x = true → k = run_id r.
Proof.
  intros Hwf Hkey Hw. apply (serve_transition _ _ _ _ _ Hwf) in Hw. revert Hw.
  generalize (store_of w) (store_of w'). intros t t' Ht.
  inversion Ht as [| | | | | | | | | | |? ? ? Hk|? ? now j run Hb Hj _ _ Hnew Hnone| | | | | | |]; subst; [done| |].
  { by rewrite Hkey in Hk. }
  exists now, j, (manual_occurrence run j now). split_and!; try done. cbn [runs set_runs run_id manual_occurrence].
  intros k x [[-> _]|[_ Hx]]%insert_cases Hl; [done|]. by rewrite (runs_where_nil _ _ Hnone k x Hx) in Hl.
Qed.

(** ** After a fatal failure *)

Lemma report_first context fatal e w e' w' f :
  report context fatal e w = (e', w') → first_failure w = Some f → first_failure w' = Some f.
Proof.
  unfold report. intros [= <- <-] Hf. unfold latch.
  assert (Hd : first_failure (if is_some (telemetry_failure w) then detach w else w) = Some f) by (by destruct (is_some _)).
  destruct (telemetry_failure w), (telemetry_attached w), fatal; cbn [is_some] in *; rewrite ?Hd; cbn; done.
Qed.

Lemma serve_first request w r w' f :
  serve options request w = (r, w') → first_failure w = Some f → first_failure w' = Some f.
Proof.
  unfold serve, invoke. intros Hr Hw. revert Hr. destruct (_ && mutations_stopped w); [by intros [= <- <-]|].
  destruct (operation options request _) as [x w1] eqn:Hx. apply operation_steady in Hx as [_ Hf _]. cbn in Hf.
  rewrite Hw in Hf. generalize (if is_query request then OpRead else OpMutation). intros context.
  generalize (match x with failure e => is_fatal context (failure_origin w1) e | success _ => false end). intros fatal.
  assert (Hok : ∀ b : bool, first_failure (if b then emit MutationCommitted w1 else w1) = Some f) by (by intros []).
  assert (Hbad : ∀ (fatal : bool) context e, let '(e', w2) := report context fatal e w1 in
    (failure e', w2) = (r, w') → first_failure w' = Some f).
  { intros b ? e. destruct (report _ _ _ _) as [e' w2] eqn:Hrep. intros [= <- <-]. by eapply report_first. }
  destruct (poisoned _); [destruct fatal; [destruct x as [[v b]|e]|]|destruct x as [[v b]|e]].
  all: try (intros [= <- <-]; apply Hok); apply Hbad.
Qed.

(** C19.  A fatal failure is final.  Over any sequence of requests the service
    announces at most one failure, and only with mutations stopped; once it
    has one, it keeps that failure and the store never changes again. *)
Theorem fatal_failure_is_final w w' :
  latched w → rtc (served options) w w' →
  (length (List.filter is_announcement (emitted w')) ≤ 1)%nat ∧
  (is_some (first_failure w') = true → mutations_stopped w' = true) ∧
  ∀ f, first_failure w = Some f → first_failure w' = Some f ∧ same_store (connection w) (connection w').
Proof.
  intros Hl Hs. destruct (served_latched _ _ _ Hs Hl) as [[H1 H2] Hstop]. split_and!; [|done|].
  - rewrite H1. destruct (is_some _); lia.
  - intros f Hf. split.
    + clear H1 H2 Hstop Hl. induction Hs as [|w w1 w' (request & r & Hw) _ IH]; [done|]. apply IH. by eapply serve_first.
    + apply Hstop, Hl. by rewrite Hf.
Qed.

End Contract.

(** ** A small service *)

Module Sample.
Import SchedulerStore.Sample.

#[global] Instance admission_sample : Admission := {|
  attribute_document _ _ _ _ := success [123; 125];
  validate_job_attributes _ _ := success tt;
  attribute_applies_to _ _ := true;
  materialize_attributes _ _ _ own := success own;
  normalize_submitted_job_payload _ payload := success payload;
  validate_payload_template _ _ := success [];
  encode_queue_request r := success (cq_name r); validate_queue_request _ := success tt;
  encode_queue_result q := success (row_queue_id q); decode_queue_result _ := failure queue_not_found;
  encode_job_request r _ := success (default [] (cj_name r)); validate_job_request _ := success tt;
  encode_job_result j := success (job_id j); decode_job_result _ := failure job_not_found;
  encode_run_request r := success (rn_job r); validate_run_request _ := success tt;
  encode_run_result r := success (run_id r); decode_run_result _ := failure job_not_found;
  queue_to_json _ := success JsonNull; job_to_json _ := success JsonNull;
  poisoned _ := None; timing_origin _ := OriginOperation |}.

Definition options : ManagementServiceOptions := mkServiceOptions ∅ [85; 84; 67].
Definition service : Service := mkService (session world) OriginOperation None true false None [].

Definition suspend : Request := SuspendQueue (ById [1]) (success 5000).
Definition remove : Request := DeleteQueue (ByName [113]) (success 6000).
Definition run_now : Request := RunNow (mkRunNow [2] None) (success 7000).
Definition rename (name : bytes) : Request :=
  UpdateJob (mkUpdateJob [2] 1 (Some (Some name)) None None ∅ None) (success 8000).

Definition after (request : Request) (w : Service) : Service := (serve options request w).2.
Definition suspended : Service := after suspend service.

Lemma service_wf : wf (tables (connection service)).
Proof. apply world_consistent. Qed.

Lemma served_after request w : served options w (after request w).
Proof. exists request, (serve options request w).1. apply surjective_pairing. Qed.

Definition granted (request : Request) (w : Service) : bool := is_success (serve options request w).1.

Lemma granted_serves request w :
  granted request w = true → ∃ v, serve options request w = (success v, after request w).
Proof.
  unfold granted, after. destruct (serve options request w) as [[v|e] w']; [|done]. intros _. by exists v.
Qed.

Lemma suspended_wf : wf (tables (connection suspended)).
Proof. eapply (serve_keeps options suspend service); [apply service_wf|apply surjective_pairing]. Qed.


(** An active queue cannot be deleted. *)
Lemma requests_all_or_nothing_witness :
  granted remove service = false ∧ same_store (connection service) (connection (after remove service)).
Proof.
  split; [vm_compute; reflexivity|].
  apply (requests_all_or_nothing options remove service (serve options remove service).1).
  - apply surjective_pairing.
  - right. right. split; vm_compute; reflexivity.
Defined.

Lemma service_typed : typed (tables (connection service)).
Proof.
  split; unfold service; cbn [connection session world tables queues jobs]; intros k x [<- <-]%lookup_singleton_Some.
  - split; vm_compute; split_and?; done.
  - split; vm_compute; split_and?; done.
Qed.

Lemma names_service : names_unique (tables (connection service)).
Proof.
  intros k1 k2 q1 q2. unfold service. cbn [connection session world tables queues].
  by intros [<- _]%lookup_singleton_Some [<- _]%lookup_singleton_Some.
Qed.

Definition removed : Service := after remove suspended.

Lemma service_removed : rtc (served options) service removed.
Proof. eapply rtc_l; [apply (served_after suspend)|]. eapply rtc_l; [apply (served_after remove)|]. apply rtc_refl. Qed.

Lemma rows_stay_typed_witness : queue_state <$> queues (tables (connection removed)) !! [1] = Some QueueDeleted ∧
  typed (tables (connection removed)).
Proof.
  split; [vm_compute; reflexivity|].
  apply (rows_stay_typed options service removed); [apply service_wf|apply service_typed|apply service_removed].
Defined.

Lemma names_stay_unique_witness : names_unique (tables (connection removed)).
Proof. apply (names_stay_unique options service removed); [apply service_wf|apply names_service|apply service_removed]. Defined.

(** Two callers rename the job at revision 1. *)
Lemma no_lost_update_witness :
  granted (rename [97]) service = true ∧ granted (rename [98]) (after suspend (after (rename [97]) service)) = false.
Proof.
  split; [vm_compute; reflexivity|].
  destruct (granted_serves (rename [97]) service) as [v Hv]; [vm_compute; reflexivity|].
  eapply (no_lost_update options (rename [97]) (rename [98]) [2] 1 service v (after (rename [97]) service)
            (after suspend (after (rename [97]) service))); [apply service_wf|reflexivity|reflexivity|exact Hv| |].
  - eapply rtc_l; [apply (served_after suspend)|]. apply rtc_refl.
  - apply surjective_pairing.
Defined.

Lemma deletion_drains_queue_witness :
  ∃ q q', selected (ByName [113]) (tables (connection suspended)) q ∧
    queues (tables (connection removed)) !! row_queue_id q = Some q' ∧ queue_state q' = QueueDeleted.
Proof.
  destruct (granted_serves remove suspended) as [v Hv]; [vm_compute; reflexivity|].
  destruct (deletion_drains_queue options (ByName [113]) (success 6000) suspended v removed suspended_wf Hv)
    as (q & q' & Hs & _ & Hq & Hd & _). exists q, q'. split_and!; [exact Hs|exact Hq|exact Hd].
Defined.

Lemma requested_run_is_single_witness :
  ∃ r, runs (tables (connection service)) !! run_id r = None ∧
    tables (connection (after run_now service)) =
      set_runs (<[run_id r := manual_row r]> (runs (tables (connection service)))) (tables (connection service)).
Proof.
  destruct (granted_serves run_now service) as [v Hv]; [vm_compute; reflexivity|].
  destruct (requested_run_is_single options (mkRunNow [2] None) (success 7000) service v (after run_now service)
              service_wf eq_refl Hv) as (now & j & r & _ & _ & _ & _ & Hnew & Hstore & _).
  exists r. split; [exact Hnew|exact Hstore].
Defined.

Definition failed : Service := latch queue_not_found service.

Lemma fatal_failure_is_final_witness :
  first_failure failed = Some queue_not_found ∧ granted suspend failed = false ∧
  first_failure (after suspend failed) = Some queue_not_found ∧
  same_store (connection failed) (connection (after suspend failed)).
Proof.
  split_and!; [reflexivity|vm_compute; reflexivity|..].
  all: destruct (fatal_failure_is_final options failed (after suspend failed)) as (_ & _ & Hf);
    [by split|by apply rtc_once, served_after|]; by apply (Hf queue_not_found).
Defined.

End Sample.
