(* ===== verification/ManagedAttributes.v ===== *)
(** * Jobs are admitted with attributes that can be executed

    The management service with the attribute registry that the daemon gives
    it ([src/jobud/main.cpp]): the operations on attributes that [Admission]
    leaves open are those of [Attributes] and [AttributeCodec].  Every
    definition and every run in the store then keeps attributes that the
    executors and the retry policy accept. *)

From stdpp Require Import base numbers strings list gmap sets relations.
From S2P Require Import Prelude Effects Values OutputCapture CliExitPolicy Binary64 RetryPolicy HttpRetry CronEngine Domain.
From S2P Require Import Attributes AttributeLayers AttributePolicy AttributeJson AttributeCodec.
From S2P Require Import ResourceNames StorageFailure Storage SchedulerRepository ManagementRepository Lifecycle Management.
From S2P Require Import ManagementOperations StoreLogic ManagementLogic ManagementAtomicity StoreInvariant.
From S2P Require Import SchedulerStore ManagementSpec ManagementRefinement ManagementContract.
Local Open Scope Z_scope.

(** The service of the daemon: payloads and codecs as [base] has them,
    attributes as the standard registry says. *)
Definition standard_admission `{E : Environment} (base : @Admission E) : @Admission E := {|
  attribute_document := encode_and_serialize_attribute_document serialize_json;
  Management.validate_job_attributes := Attributes.validate_job_attributes;
  Management.attribute_applies_to := name_applies_to;
  Management.materialize_attributes := Attributes.materialize_attributes;
  normalize_submitted_job_payload := @normalize_submitted_job_payload E base;
  validate_payload_template := @validate_payload_template E base;
  encode_queue_request := @encode_queue_request E base;
  validate_queue_request := @validate_queue_request E base;
  encode_queue_result := @encode_queue_result E base;
  decode_queue_result := @decode_queue_result E base;
  encode_job_request := @encode_job_request E base;
  validate_job_request := @validate_job_request E base;
  encode_job_result := @encode_job_result E base;
  decode_job_result := @decode_job_result E base;
  encode_run_request := @encode_run_request E base;
  validate_run_request := @validate_run_request E base;
  encode_run_result := @encode_run_result E base;
  decode_run_result := @decode_run_result E base;
  queue_to_json := @queue_to_json E base;
  job_to_json := @job_to_json E base;
  poisoned := @poisoned E base;
  timing_origin := @timing_origin E base |}.

(** Every definition and every run can be executed. *)
Record ready (t : Tables) : Prop := {
  jobs_ready k j : jobs t !! k = Some j → executable (job_type j) (job_attributes j);
  runs_ready k r : runs t !! k = Some r → executable (run_type r) (run_attributes r) }.

Section Ready.
Context `{E : Environment} (base : @Admission E) (options : ManagementServiceOptions).
Local Instance admission : @Admission E := standard_admission base.

Lemma stored_executable j : stores_attributes j → executable (job_type j) (job_attributes j).
Proof.
  unfold stores_attributes, serialize_attributes. cbn [attribute_document admission standard_admission].
  unfold encode_and_serialize_attribute_document, encode_attribute_document.
  destruct (validate_encoding _ _ _ _) as [[]|] eqn:Hv; [|done]. intros _. apply validated_executable.
  unfold validate_encoding in Hv. apply result_unit_bind in Hv as [_ Hv]. by apply result_unit_bind in Hv as [_ Hv].
Qed.

(** Rows that change keep their attributes. *)
Lemma withdrawn_attributes queue at_ j :
  job_type (withdrawn queue at_ j) = job_type j ∧ job_attributes (withdrawn queue at_ j) = job_attributes j.
Proof. unfold withdrawn. by destruct (_ && _). Qed.

Lemma cancelled_attributes chosen at_ text r :
  run_type (cancelled chosen at_ text r) = run_type r ∧ run_attributes (cancelled chosen at_ text r) = run_attributes r.
Proof. unfold cancelled. by destruct (_ && _). Qed.

Lemma relocated_attributes id target revision r :
  run_type (relocated id target revision r) = run_type r ∧ run_attributes (relocated id target revision r) = run_attributes r.
Proof. unfold relocated. by destruct (_ && _). Qed.

Lemma refreshed_executable id j planned t r :
  executable (job_type j) (job_attributes j) → executable (run_type r) (run_attributes r) →
  executable (run_type (refreshed id j planned t r)) (run_attributes (refreshed id j planned t r)).
Proof. intros Hj Hr. unfold refreshed. by destruct (_ && _ && _ && _). Qed.

Lemma transition_ready (t : Tables) request v t' : ready t → transition options t request v t' → ready t'.
Proof.
  intros [Hj Hr] Ht.
  destruct Ht; (split; cbn [jobs runs set_queues set_jobs set_runs redefine]; [intros k j'|intros k r']); try (by eauto).
  all: try (intros [[_ ->]|[_ Hx]]%insert_cases; [cbn|by eauto]); try (by eauto).
  all: try (intros (x & Hx & ->)%fmap_row).
  all: try (destruct (cancelled_attributes (λ r, bytes_eqb (run_queue r) (row_queue_id q)) now text x) as [-> ->]; by eauto).
  all: try (destruct (cancelled_attributes (λ r, bytes_eqb (run_job r) (dj_job request)) now text x) as [-> ->]; by eauto).
  - destruct (withdrawn_attributes (row_queue_id q) now x) as [-> ->]. by eauto.
  - by apply stored_executable.
  - by apply stored_executable.
  - exact (stored_executable _ ltac:(eassumption)).
  - destruct planned as [planned|]; [|by eauto]. intros (x & Hx & ->)%fmap_row.
    apply refreshed_executable; [|by eauto]. by apply stored_executable.
  - destruct (relocated_attributes (mj_job request) (row_queue_id q) (job_revision j + 1) x) as [-> ->]. by eauto.
Qed.

(** C10.  With the standard registry, over any sequence of requests, each with
    any outcome, every job definition and every run in the store has
    attributes that can be executed: its retry policy decodes, its timeout and
    capture mode are known, and so are the exit codes or the HTTP policy of its
    runner. *)
Theorem managed_attributes_executable w w' :
  wf (tables (connection w)) → ready (tables (connection w)) → rtc (served options) w w' →
  ready (tables (connection w')).
Proof.
  intros Hwf Hr Hs. induction Hs as [w|w w1 w' (request & r & Hw) _ IH]; [done|].
  destruct (serve_either _ _ _ _ _ Hwf Hw) as [Heq|[v Ht]]; [rewrite Heq in IH; by apply IH|].
  apply IH; [by eapply transition_wf|by eapply transition_ready].
Qed.
End Ready.

(** ** A sample *)

Module ManagedSample.
Import SchedulerStore.Sample ManagementContract.Sample.

Abbreviation with_standard := (standard_admission admission_sample).

(** A store with a queue that caps the attempts, and no job yet. *)
Definition store : Tables :=
  mkTables {[ [1] := mkQueueRow [1] 1 [113] QueueActive 1 1 RetryInterrupted {[ bs!"retry.max_attempts" := AttrInt 2 ]}
                       None 0 0 0 None ]} ∅ ∅ ∅ ∅.
Definition opened : @Service environment_sample :=
  mkService (mkSession store ∅ (mkSide ∅ ∅ ∅) tt 0 0) OriginOperation None true false None [].

Definition create : Request :=
  CreateJob (mkCreateJob (ById [1]) None Cli Immediate 0 {[ bs!"retry.strategy" := text bs!"exponential" ]} JsonNull None)
    (success 5000).
Definition change : Request :=
  UpdateJob (mkUpdateJob [100; 0] 1 None None None {[ bs!"job.timeout" := AttrDuration ns_per_s ]} None) (success 6000).

Definition answer request w := @serve environment_sample with_standard options request w.
Definition created : Service := (answer create opened).2.
Definition changed : Service := (answer change created).2.

Lemma store_wf : wf store.
Proof.
  split; unfold store; cbn [runs jobs queues attempts]; intros *; rewrite ?lookup_empty; try done.
  - by intros [<- <-]%lookup_singleton_Some.
  - split; [intros n [a Ha]|intros n _ [a Ha]]; done.
Qed.

Lemma store_ready : ready store.
Proof. by split. Qed.

Lemma managed_attributes_executable_witness :
  is_success (answer create opened).1 = true ∧ is_success (answer change created).1 = true ∧
  (j ← jobs (tables (connection changed)) !! [100; 0]; job_attributes j !! bs!"job.timeout") =
    Some (AttrDuration ns_per_s) ∧
  ready (tables (connection changed)).
Proof.
  split_and!; [vm_compute; reflexivity..|].
  apply (managed_attributes_executable admission_sample options opened); [apply store_wf|apply store_ready|].
  eapply rtc_l; [exists create, (answer create opened).1; apply surjective_pairing|].
  eapply rtc_l; [exists change, (answer change created).1; apply surjective_pairing|]. apply rtc_refl.
Defined.
End ManagedSample.
