(* ===== verification/ManagedPayloads.v ===== *)
(** * Jobs are admitted with payloads that can be prepared

    The management service with the admission of payloads that the daemon uses:
    the operations on payloads that [Admission] leaves open are those of
    [HttpPayload].  Every definition and every run in the store then keeps a
    payload that preparation accepts as a template, and the references that
    admission collects are ones that the repository stores. *)

From stdpp Require Import base numbers strings list gmap sets relations.
From S2P Require Import Prelude Effects Values OutputCapture CronEngine Domain.
From S2P Require Import HttpRetry HttpValidation JobPayload HttpPayload PayloadTemplate PayloadParsing PreparedPayload.
From S2P Require Import ResourceNames StorageFailure Storage SchedulerRepository ManagementRepository Lifecycle Management.
From S2P Require Import ManagementOperations StoreLogic ManagementLogic ManagementAtomicity StoreInvariant.
From S2P Require Import SchedulerStore ManagementSpec ManagementRefinement ManagementContract.
Local Open Scope Z_scope.

(** The service of the daemon: payloads as the program checks them, the rest as
    [base] has it. *)
Definition payload_admission `{E : Environment} (base : @Admission E) : @Admission E := {|
  attribute_document := @attribute_document E base;
  validate_job_attributes := @validate_job_attributes E base;
  attribute_applies_to := @attribute_applies_to E base;
  materialize_attributes := @materialize_attributes E base;
  normalize_submitted_job_payload := HttpPayload.normalize_submitted_job_payload serialize_json;
  validate_payload_template := HttpPayload.validate_payload_template;
  encode_queue_request := @encode_queue_request E base;
  validate_queue_request := @validate_queue_request E base;
  encode_queue_result := @encode_queue_result E base;
  decode_queue_result := @decode_queue_result E base;
  encode_job_request := @encode_job_request E base;
  validate_job_request := @validate_job_request E base;
  encode_job_result := @encode_job_result E base;
  decode_job_result := @decode_job_result E base;
  encode_run_request := @encode_run_request E base;
  validate_run_request := @validate_run_request E base;
  encode_run_result := @encode_run_result E base;
  decode_run_result := @decode_run_result E base;
  queue_to_json := @queue_to_json E base;
  job_to_json := @job_to_json E base;
  poisoned := @poisoned E base;
  timing_origin := @timing_origin E base |}.

(** ** References *)

Lemma unique_references_spec references seen :
  Forall storable references → NoDup references → (∀ r, r ∈ references → (secret_name r, field_path r) ∉ seen) →
  unique_references references seen = true.
Proof.
  intros Hs. revert seen. induction Hs as [|r references [Hn Hp] _ IH]; intros seen Hd Hseen; cbn [unique_references]; [done|].
  apply NoDup_cons in Hd as [Hr Hd]. rewrite Hn, Hp, bool_decide_false by (apply Hseen, list_elem_of_here). cbn.
  apply IH; [done|]. intros r' Hr'. apply not_elem_of_union. split.
  - rewrite elem_of_singleton. intros E. destruct r, r'. cbn in E. by simplify_eq.
  - by apply Hseen, elem_of_cons; right.
Qed.

(** The references of a template can be stored as they are. *)
Definition storable_references (references : list SecretReference) : Prop :=
  (length references <= kMaximumReferences)%nat ∧ unique_references references ∅ = true.

Lemma collected_references c : collector_ok c → storable_references (collected c).
Proof.
  intros [Hd Hc Hs]. split; [unfold kMaximumReferences, maximum_payload_secret_references in *; lia|].
  by apply unique_references_spec; [..|set_solver].
Qed.

(** A payload that preparation accepts. *)
Definition preparable (serialize_json : JsonValue → result Error bytes) (type : JobType) (payload : JsonValue) : Prop :=
  ∃ references, PayloadTemplate.persisted_template serialize_json type payload = Some references ∧
    storable_references references.

Section Ready.
Context `{E : Environment} (base : @Admission E) (options : ManagementServiceOptions).
Local Instance admission : @Admission E := payload_admission base.

(** Every definition and every run can be prepared. *)
Record prepared_rows (t : Tables) : Prop := {
  jobs_prepared k j : jobs t !! k = Some j → preparable serialize_json (job_type j) (job_payload j);
  runs_prepared k r : runs t !! k = Some r → preparable serialize_json (run_type r) (run_payload r) }.

Lemma stored_preparable j : stores_payload j → preparable serialize_json (job_type j) (job_payload j).
Proof.
  unfold stores_payload, validate_job_payload, preparable, PayloadTemplate.persisted_template, within_document_limit.
  destruct (serialize_json (job_payload j)) as [text|]; [|done].
  change HttpPayload.maximum_job_document_bytes with kMaximumJsonDocumentBytes. rewrite Z.ltb_antisym.
  destruct (_ <=? _); [|done]. cbn [negb validate_payload_template admission payload_admission].
  destruct (HttpPayload.validate_payload_template _ _) as [references|] eqn:Hv; [|done]. intros _. exists references.
  split; [done|]. apply validated_template in Hv as (c & _ & -> & Hok & _). by apply collected_references.
Qed.

(** Rows that change keep their payloads. *)
Lemma withdrawn_payload queue at_ j :
  job_type (withdrawn queue at_ j) = job_type j ∧ job_payload (withdrawn queue at_ j) = job_payload j.
Proof. unfold withdrawn. by destruct (_ && _). Qed.

Lemma cancelled_payload chosen at_ text r :
  run_type (cancelled chosen at_ text r) = run_type r ∧ run_payload (cancelled chosen at_ text r) = run_payload r.
Proof. unfold cancelled. by destruct (_ && _). Qed.

Lemma relocated_payload id target revision r :
  run_type (relocated id target revision r) = run_type r ∧ run_payload (relocated id target revision r) = run_payload r.
Proof. unfold relocated. by destruct (_ && _). Qed.

Lemma refreshed_preparable id j planned t r :
  preparable serialize_json (job_type j) (job_payload j) → preparable serialize_json (run_type r) (run_payload r) →
  preparable serialize_json (run_type (refreshed id j planned t r)) (run_payload (refreshed id j planned t r)).
Proof. intros Hj Hr. unfold refreshed. by destruct (_ && _ && _ && _). Qed.

Lemma transition_prepared (t : Tables) request v t' :
  prepared_rows t → transition options t request v t' → prepared_rows t'.
Proof.
  intros [Hj Hr] Ht.
  destruct Ht; (split; cbn [jobs runs set_queues set_jobs set_runs redefine]; [intros k j'|intros k r']); try (by eauto).
  all: try (intros [[_ ->]|[_ Hx]]%insert_cases; [cbn|by eauto]); try (by eauto).
  all: try (intros (x & Hx & ->)%fmap_row).
  all: try (destruct (cancelled_payload (λ r, bytes_eqb (run_queue r) (row_queue_id q)) now text x) as [-> ->]; by eauto).
  all: try (destruct (cancelled_payload (λ r, bytes_eqb (run_job r) (dj_job request)) now text x) as [-> ->]; by eauto).
  - destruct (withdrawn_payload (row_queue_id q) now x) as [-> ->]. by eauto.
  - by apply stored_preparable.
  - by apply stored_preparable.
  - exact (stored_preparable _ ltac:(eassumption)).
  - destruct planned as [planned|]; [|by eauto]. intros (x & Hx & ->)%fmap_row.
    apply refreshed_preparable; [|by eauto]. by apply stored_preparable.
  - destruct (relocated_payload (mj_job request) (row_queue_id q) (job_revision j + 1) x) as [-> ->]. by eauto.
Qed.

(** C11.  Over any sequence of requests, each with any outcome, every job
    definition and every run in the store has a payload that preparation
    accepts as a template: it is within the size limit, its fields and
    references are valid, and the references are at most 256, pairwise
    different and of the form that the repository stores.  So a dispatch never
    stops because the stored template is damaged. *)
Theorem managed_payloads_preparable w w' :
  wf (tables (connection w)) → prepared_rows (tables (connection w)) → rtc (served options) w w' →
  prepared_rows (tables (connection w')).
Proof.
  intros Hwf Hr Hs. induction Hs as [w|w w1 w' (request & r & Hw) _ IH]; [done|].
  destruct (serve_either _ _ _ _ _ Hwf Hw) as [Heq|[v Ht]]; [rewrite Heq in IH; by apply IH|].
  apply IH; [by eapply transition_wf|by eapply transition_prepared].
Qed.
End Ready.

(** ** A sample *)

Module PayloadSample.
Import SchedulerStore.Sample ManagementContract.Sample.

Abbreviation with_payloads := (payload_admission admission_sample).

(** A store with a queue and a secret, and no job yet. *)
Definition store : Tables :=
  mkTables {[ [1] := mkQueueRow [1] 1 [113] QueueActive 1 1 RetryInterrupted ∅ None 0 0 0 None ]} ∅ ∅ ∅ ∅.
Definition opened : @Service environment_sample :=
  mkService (mkSession store ∅ (mkSide {[ bs!"api.key" ]} ∅ ∅) tt 0 0) OriginOperation None true false None [].

Definition payload : JsonValue :=
  JsonObject [(bs!"arguments", JsonArray [reference bs!"api.key"]); (bs!"command", JsonString bs!"/bin/report")].

Definition create : Request :=
  CreateJob (mkCreateJob (ById [1]) None Cli Immediate 0 ∅ payload None) (success 5000).

Definition answer request w := @serve environment_sample with_payloads options request w.
Definition created : Service := (answer create opened).2.

Lemma payload_store_wf : wf store.
Proof.
  split; unfold store; cbn [runs jobs queues attempts]; intros *; rewrite ?lookup_empty; try done.
  - by intros [<- <-]%lookup_singleton_Some.
  - split; [intros n [a Ha]|intros n _ [a Ha]]; done.
Qed.

Lemma managed_payloads_preparable_witness :
  is_success (answer create opened).1 = true ∧
  (job_payload <$> jobs (tables (connection created)) !! [100; 0]) = Some payload ∧
  prepared_rows (tables (connection created)).
Proof.
  split_and!; [vm_compute; reflexivity..|].
  apply (managed_payloads_preparable admission_sample options opened); [apply payload_store_wf|by split|].
  eapply rtc_l; [exists create, (answer create opened).1; apply surjective_pairing|]. apply rtc_refl.
Defined.
End PayloadSample.
