(* ===== verification/RetentionRepository.v ===== *)
(** * The statements of retention

    What [src/jobu/retention_repository_priv.cpp] reads and deletes through the
    repositories: [list_terminal_before] and [delete_selected_terminal] of
    [src/jobu/run_repository_priv.cpp], [next_retention_policy] of
    [src/jobu/queue_repository_priv.cpp], [list_referencing] and
    [erase_matching] of [src/jobu/idempotency_repository_priv.cpp], and
    [src/jobu/retention_owner_repository_priv.cpp].

    A [DELETE] removes what the schema's foreign keys cascade to: with a run its
    timing row, its attempts and their output.  The references of jobs, queues
    and secrets restrict; the statements below delete nothing that is still
    referenced, so no row is left for them to refuse. *)

From stdpp Require Import base numbers strings list gmap sets.
From S2P Require Import Prelude Effects Values OutputCapture CronEngine Domain ResourceNames Storage SchedulerRepository.
From S2P Require Import ManagementRepository WaitRepository RecoveryRepository.
Local Open Scope Z_scope.

Definition kMaximumRetentionBatch : nat := 1000.
Definition kMaximumRunIdsPerDelete : nat := 500.

Definition invalid_retention_seconds : Error :=
  mkError Internal "jobu.storage.invalid_integer" "Persisted JobU duration is invalid"
    "field=retention_seconds reason=out_of_range".
Definition owner_relationship : Error :=
  mkError Internal "jobu.retention.invalid_relationship" "Persisted retention data violates a JobU invariant" "".

Definition valid_retention_limit (limit : nat) : bool := negb (limit =? 0)%nat && (limit <=? kMaximumRetentionBatch)%nat.

(** [std::chrono::ceil] to the microseconds of the store. *)
Definition ceil_us (t : Z) : Z := - (- t / 1000) * 1000.

(** A [TerminalRunKey] is the time of completion and the run; the key of an
    idempotency record is its method, scope and key. *)
Definition terminal_key_ltb (a b : Z * bytes) : bool := (a.1 <? b.1) || (a.1 =? b.1) && bytes_ltb a.2 b.2.

Definition record_key_ltb (a b : bytes * bytes * bytes) : bool :=
  bytes_ltb a.1.1 b.1.1 ||
  bytes_eqb a.1.1 b.1.1 && (bytes_ltb a.1.2 b.1.2 || bytes_eqb a.1.2 b.1.2 && bytes_ltb a.2 b.2).

Definition record_id (r : IdempotencyRecord) : bytes * bytes * bytes := (record_method r, record_scope r, record_key r).

(** The row under a key: the key's columns are the key. *)
Definition record_at (k : bytes * bytes * bytes) (r : IdempotencyRecord) : IdempotencyRecord :=
  mkRecord k.1.1 k.1.2 k.2 (request_json r) (result_json r) (resource_id r) (record_created_at r) (record_expires_at r).

(** ** Runs *)

(** A finished run of a queue that completed before the cutoff. *)
Definition terminal_before (queue : bytes) (cutoff : Z) (r : JobRun) : bool :=
  bytes_eqb (run_queue r) queue && is_terminal_run (run_state r) &&
  match run_completed_at r with Some c => c <? ceil_us cutoff | None => false end.

Definition terminal_key (kr : bytes * JobRun) : Z * bytes := (default 0 (run_completed_at kr.2), kr.1).

Definition terminal_keys (queue : bytes) (cutoff : Z) (t : Tables) : list (Z * bytes) :=
  terminal_key <$> map_to_list (filter (λ kr, terminal_before queue cutoff kr.2 = true) (runs t)).

(** The rows of some runs, with the rows that go with them; an output is that
    of an attempt. *)
Definition without_runs (gone : gset bytes) (t : Tables) : Tables :=
  mkTables (queues t) (jobs t) (filter (λ kr, kr.1 ∉ gone) (runs t)) (filter (λ ka, ka.1.1 ∉ gone) (attempts t))
    (filter (λ ko, ko.1.1 ∉ gone) (outputs t)).
Definition without_timing (gone : gset bytes) (x : Timing) : Timing := filter (λ kx, kx.1 ∉ gone) x.

(** ** Owners *)

Inductive RetentionOwnerKind := FinishedOnce | DeletedJob | DeletedQueue.

#[export] Instance RetentionOwnerKind_eq_dec : EqDecision RetentionOwnerKind.
Proof. solve_decision. Defined.

Record QueueRetentionPolicy := mkPolicy { policy_id : bytes; policy_retention : option Z }.
Record RetentionRunOwner := mkRunOwner { owner_job : bytes; owner_manual : bool }.

(** [kNoJobRuns], [kNoQueueOwners]. *)
Definition no_job_runs (id : bytes) (t : Tables) : bool :=
  bool_decide (runs_where (λ r, bytes_eqb (run_job r) id) t = []).
Definition no_queue_owners (id : bytes) (t : Tables) : bool :=
  bool_decide (jobs_where (λ j, bytes_eqb (job_queue j) id) t = []) &&
  bool_decide (runs_where (λ r, bytes_eqb (run_queue r) id) t = []).

(** A record names an identifier as its resource or as its scope. *)
Definition refers (owner : bytes) (kr : bytes * bytes * bytes * IdempotencyRecord) : bool :=
  bytes_eqb (resource_id kr.2) owner || bytes_eqb kr.1.1.2 owner.
Definition references_of (owner : bytes) (x : SideTables) : gmap (bytes * bytes * bytes) IdempotencyRecord :=
  filter (λ kr, refers owner kr = true) (idempotency x).
Definition has_references (owner : bytes) (x : SideTables) : bool := negb (bool_decide (references_of owner x = ∅)).
Definition secret_rows_of (job : bytes) (x : SideTables) : gset (bytes * bytes * bytes) :=
  filter (λ row : bytes * bytes * bytes, row.1.2 = job) (secret_refs x).

(** Whether the [WHERE] clause of a kind selects a row. *)
Definition candidate_job (kind : RetentionOwnerKind) (t : Tables) (x : SideTables) (kj : bytes * JobDefinition) : bool :=
  no_job_runs kj.1 t &&
  match kind with
  | FinishedOnce => is_once kj.2 && is_terminal_job_state (job_state kj.2) && has_references kj.1 x
  | _ => is_deleted_job kj.2
  end.
Definition candidate_queue (t : Tables) (kq : bytes * Queue) : bool :=
  is_deleted_queue kq.2 && no_queue_owners kq.1 t.

Definition candidates (kind : RetentionOwnerKind) (t : Tables) (x : SideTables) : list bytes :=
  match kind with
  | DeletedQueue => map fst (map_to_list (filter (λ kq, candidate_queue t kq = true) (queues t)))
  | _ => map fst (map_to_list (filter (λ kj, candidate_job kind t x kj = true) (jobs t)))
  end.

Section RetentionRepository.
Context `{Environment}.

Abbreviation Tx := (ES Session).

Definition list_terminal_before (queue : bytes) (cutoff : Z) (limit : nat) (after : option (Z * bytes))
    : Tx (list (Z * bytes)) :=
  _ ← ensure (valid_retention_limit limit) invalid_limit;
  query (λ t, page terminal_key_ltb limit after (terminal_keys queue cutoff t)).

Definition delete_terminal_chunk (queue : bytes) (cutoff : Z) (ids : list bytes) : Tx nat :=
  t ← query id;
  let gone : gset bytes :=
    dom (filter (λ kr, terminal_before queue cutoff kr.2 = true ∧ kr.1 ∈ ids) (runs t)) in
  _ ← modify (λ s, set_timing (without_timing gone (timing s)) (set_tables (without_runs gone t) s));
  mret (size gone).

(** The loop over the chunks; [chunks] is at least their number. *)
Fixpoint delete_chunks (chunks : nat) (queue : bytes) (cutoff : Z) (ids : list bytes) (deleted : nat) : Tx nat :=
  match chunks, ids with
  | O, _ | _, [] => mret deleted
  | S chunks, _ =>
      count ← delete_terminal_chunk queue cutoff (take kMaximumRunIdsPerDelete ids);
      delete_chunks chunks queue cutoff (drop kMaximumRunIdsPerDelete ids) (deleted + count)
  end.

Definition delete_selected_terminal (queue : bytes) (cutoff : Z) (ids : list bytes) : Tx nat :=
  if bool_decide (ids = []) then mret O
  else
    _ ← ensure (length ids <=? kMaximumRetentionBatch)%nat invalid_limit;
    delete_chunks (length ids) queue cutoff ids 0.

(** ** Queues *)

Definition next_retention_policy (after : option bytes) : Tx (option QueueRetentionPolicy) :=
  t ← query id;
  match page bytes_ltb 1 after (map fst (map_to_list (queues t))) with
  | [] => mret None
  | queue :: _ =>
      let retention := queues t !! queue ≫= history_retention in
      _ ← ensure (match retention with Some v => 0 <=? v | None => true end) invalid_retention_seconds;
      mret (Some (mkPolicy queue retention))
  end.

(** ** Idempotency records *)

Definition list_referencing (owner : bytes) (limit : nat) (after : option (bytes * bytes * bytes))
    : Tx (list IdempotencyRecord) :=
  _ ← ensure (valid_retention_limit limit) invalid_limit;
  rows ← side_query (λ x,
    omap (λ k, record_at k <$> idempotency x !! k) (page record_key_ltb limit after (map fst (map_to_list (references_of owner x)))));
  of_result (decode_rows decode_record rows).

Definition erase_matching (record : IdempotencyRecord) : Tx nat :=
  x ← side_query id;
  match idempotency x !! record_id record with
  | Some stored =>
      if bytes_eqb (resource_id stored) (resource_id record) then
        _ ← modify (λ s, set_side (mkSide (secrets x) (secret_refs x) (delete (record_id record) (idempotency x))) s);
        mret 1%nat
      else mret O
  | None => mret O
  end.

(** ** Owners *)

(** The first page has the lower bound [>= nil], below which no identifier is. *)
Definition list_candidates (kind : RetentionOwnerKind) (limit : nat) (after : option bytes) : Tx (list bytes) :=
  _ ← ensure (valid_retention_limit limit) invalid_limit;
  _ ← statement;
  gets (λ s, page bytes_ltb limit after (candidates kind (tables s) (side s))).

Definition has_job (id : bytes) : Tx bool := query (λ t, is_some (jobs t !! id)).
Definition has_queue (id : bytes) : Tx bool := query (λ t, is_some (queues t !! id)).

(** [find_run] of the owners. *)
Definition find_run_owner (id : bytes) : Tx (option RetentionRunOwner) :=
  found ← query (λ t, runs t !! id);
  mret ((λ r, mkRunOwner (run_job r) (bool_decide (run_origin r = OriginManual) && negb (schedule_owned r))) <$> found).

Definition has_secret_references (job : bytes) : Tx bool :=
  side_query (λ x, negb (bool_decide (secret_rows_of job x = ∅))).

(** A deleted job has no secret references left to cascade to. *)
Definition delete_owner (kind : RetentionOwnerKind) (id : bytes) : Tx nat :=
  match kind with
  | FinishedOnce => throw owner_relationship
  | DeletedJob =>
      _ ← statement;
      t ← gets tables;
      x ← gets side;
      if match jobs t !! id with Some j => is_deleted_job j | None => false end && no_job_runs id t &&
         bool_decide (secret_rows_of id x = ∅) && negb (has_references id x)
      then _ ← modify (set_tables (set_jobs (delete id (jobs t)) t)); mret 1%nat
      else mret O
  | DeletedQueue =>
      _ ← statement;
      t ← gets tables;
      x ← gets side;
      if match queues t !! id with Some q => is_deleted_queue q | None => false end && no_queue_owners id t &&
         negb (has_references id x)
      then _ ← modify (set_tables (set_queues (delete id (queues t)) t)); mret 1%nat
      else mret O
  end.

End RetentionRepository.
