(* ===== verification/Retention.v ===== *)
(** * Retention

    [src/jobu/retention_repository_priv.cpp]: old history is removed in
    batches.  A sweep visits every queue and removes finished runs that are
    older than the queue's policy; then it retires the idempotency records of
    finished one-time jobs, and removes deleted jobs and deleted queues that
    nothing depends on.  A record of an idempotent request lives as long as the
    resource that it created: it is checked and removed with it.

    Loops over pages of records take [fuel], and [None] says that it was used
    up; [RetentionTermination] gives an amount that is enough. *)

From stdpp Require Import base numbers strings list gmap sets.
From S2P Require Import Prelude Effects Values OutputCapture CronEngine Domain ResourceNames StorageFailure Storage.
From S2P Require Import SchedulerRepository ManagementRepository RecoveryRepository Lifecycle Management ManagementOperations.
From S2P Require Import RetentionRepository.
Local Open Scope Z_scope.

Definition kRunPageSize : nat := 500.
Definition kReferencePageSize : nat := 16.

(** ** The cutoff *)

(** The subtraction in steps that fit a signed integer; three cover the range. *)
Fixpoint subtract_steps (steps : nat) (remaining tick : Z) : Z :=
  match steps with
  | O => tick
  | S steps =>
      if remaining =? 0 then tick
      else
        let step := Z.min remaining int64_max in
        subtract_steps steps (remaining - step) (wrap_signed 64 (tick - step))
  end.

(** [ceil<microseconds>] of a time. *)
Definition ceil_ticks (t : Z) : Z := - (- t / 1000).

Definition retention_cutoff (now retention : Z) : Z :=
  let minimum := ceil_ticks int64_min in
  let tick := ceil_ticks now in
  let available := (tick mod 2 ^ 64 - minimum mod 2 ^ 64) mod 2 ^ 64 in
  let seconds := retention mod 2 ^ 64 in
  let tick :=
    if available / 1000000 <? seconds then minimum
    else subtract_steps 3 ((seconds * 1000000) mod 2 ^ 64) tick in
  wrap_signed 64 (tick * 1000).

(** ** Errors *)

Definition invalid_retention_options (reason : string) : Error :=
  mkError InvalidArgument "jobu.retention.invalid_options" "Retention options are outside their supported range"
    ("reason=" +:+ reason).
Definition invalid_relationship (reason : string) : Error :=
  mkError Internal "jobu.retention.invalid_relationship" "Persisted retention data violates a JobU invariant"
    ("reason=" +:+ reason).

(** ** Data *)

Record RetentionPurgeCounts := mkCounts {
  purged_runs : nat; purged_records : nat; purged_jobs : nat; purged_queues : nat }.
Definition no_counts : RetentionPurgeCounts := mkCounts 0 0 0 0.

Definition add_runs (n : nat) (c : RetentionPurgeCounts) : RetentionPurgeCounts :=
  mkCounts (purged_runs c + n) (purged_records c) (purged_jobs c) (purged_queues c).
Definition add_records (n : nat) (c : RetentionPurgeCounts) : RetentionPurgeCounts :=
  mkCounts (purged_runs c) (purged_records c + n) (purged_jobs c) (purged_queues c).
Definition add_owner (kind : RetentionOwnerKind) (c : RetentionPurgeCounts) : RetentionPurgeCounts :=
  match kind with
  | DeletedJob => mkCounts (purged_runs c) (purged_records c) (S (purged_jobs c)) (purged_queues c)
  | _ => mkCounts (purged_runs c) (purged_records c) (purged_jobs c) (S (purged_queues c))
  end.

Inductive RetentionSweepPhase := HistoryPhase | OnceKeysPhase | DeletedJobsPhase | DeletedQueuesPhase.

Record RetentionSweepCursor := mkCursor {
  after_queue : option bytes; phase : RetentionSweepPhase; after_owner : option bytes }.
Definition first_cursor : RetentionSweepCursor := mkCursor None HistoryPhase None.

Record RetentionBatchResult := mkBatch {
  purged : RetentionPurgeCounts; next_cursor : RetentionSweepCursor; sweep_complete : bool }.

Record ReferenceSummary := mkSummary { retiring : nat; pinned : bool }.

(** The scopes in the requests of idempotency records:
    [decode_job_create_idempotency_scope], [decode_run_now_idempotency_scope]
    of [idempotency_codec_priv.hpp]. *)
Class ReplayScopes := {
  decode_job_scope : bytes → result Error bytes;
  decode_run_scope : bytes → result Error bytes }.

Section Retention.
Context `{Admission} `{!ReplayScopes} (fuel : nat).

Abbreviation Tx := (ES Session).
Abbreviation Loop A := (Tx (option A)).

(** ** Replay records *)

Definition reference_error (e : Error) : Error :=
  if bool_decide (code e = "jobu.idempotency.invalid_record") || String.prefix "jobu.storage.invalid_" (code e)
  then invalid_relationship "replay_record" else e.

Definition as_option {E A} (r : result E A) : option A := match r with success v => Some v | failure _ => None end.

Definition queue_creation_scope (record : IdempotencyRecord) : bool :=
  match as_option (validate_queue_request (request_json record)), as_option (decode_queue_result (result_json record)) with
  | Some _, Some replay => bytes_eqb (record_scope record) nil_id && bytes_eqb (row_queue_id replay) (resource_id record)
  | _, _ => false
  end.

Definition job_creation_scope (record : IdempotencyRecord) : bool :=
  match as_option (decode_job_scope (request_json record)), as_option (decode_job_result (result_json record)) with
  | Some scope, Some replay =>
      bytes_eqb scope (record_scope record) && bytes_eqb (job_queue replay) (record_scope record) &&
      bytes_eqb (job_id replay) (resource_id record)
  | _, _ => false
  end.

Definition manual_replay_scope (record : IdempotencyRecord) : bool :=
  match as_option (decode_run_scope (request_json record)), as_option (decode_run_result (result_json record)) with
  | Some scope, Some replay =>
      bytes_eqb scope (record_scope record) && bytes_eqb (run_job replay) (record_scope record) &&
      bytes_eqb (run_id replay) (resource_id record)
  | _, _ => false
  end.

(** Both owners are read before either is judged. *)
Definition validate_record (record : IdempotencyRecord) : Tx unit :=
  if bytes_eqb (record_method record) queue_method then
    _ ← ensure (queue_creation_scope record) (invalid_relationship "queue_creation_scope");
    owner ← has_queue (resource_id record);
    ensure owner (invalid_relationship "queue_creation_owner")
  else if bytes_eqb (record_method record) job_method then
    _ ← ensure (job_creation_scope record) (invalid_relationship "job_creation_scope");
    job ← attempted (has_job (resource_id record));
    queue ← attempted (has_queue (record_scope record));
    job ← of_result job;
    queue ← of_result queue;
    ensure (job && queue) (invalid_relationship "job_creation_owner")
  else if bytes_eqb (record_method record) run_method then
    _ ← ensure (manual_replay_scope record) (invalid_relationship "manual_replay_scope");
    run ← attempted (find_run_owner (resource_id record));
    job ← attempted (has_job (record_scope record));
    run ← of_result run;
    job ← of_result job;
    ensure (match run with
            | Some run => job && owner_manual run && bytes_eqb (owner_job run) (record_scope record)
            | None => false
            end) (invalid_relationship "manual_replay_owner")
  else throw (invalid_relationship "unknown_replay_method").

Definition is_retiring (owner method : bytes) (record : IdempotencyRecord) : bool :=
  bytes_eqb (record_method record) method && bytes_eqb (resource_id record) owner.

Definition note_reference (owner method : bytes) (summary : ReferenceSummary) (record : IdempotencyRecord)
    : ReferenceSummary :=
  if is_retiring owner method record then mkSummary (S (retiring summary)) (pinned summary)
  else mkSummary (retiring summary) true.

Fixpoint inspect_records (owner method : bytes) (records : list IdempotencyRecord) (summary : ReferenceSummary)
    : Tx ReferenceSummary :=
  match records with
  | [] => mret summary
  | record :: records =>
      _ ← validate_record record;
      inspect_records owner method records (note_reference owner method summary record)
  end.

(** The error of [list_referencing] replaced. *)
Definition reference_page (owner : bytes) (after : option (bytes * bytes * bytes)) : Tx (list IdempotencyRecord) :=
  on_error reference_error (list_referencing owner kReferencePageSize after).

Fixpoint inspect_pages (n : nat) (owner method : bytes) (after : option (bytes * bytes * bytes))
    (summary : ReferenceSummary) : Loop ReferenceSummary :=
  match n with
  | O => mret None
  | S n =>
      records ← reference_page owner after;
      match last records with
      | None => mret (Some summary)
      | Some back =>
          summary ← inspect_records owner method records summary;
          inspect_pages n owner method (Some (record_id back)) summary
      end
  end.

Definition inspect (owner method : bytes) : Loop ReferenceSummary := inspect_pages fuel owner method None (mkSummary 0 false).

Fixpoint erase_records (owner method : bytes) (records : list IdempotencyRecord) (count : nat) : Tx nat :=
  match records with
  | [] => mret count
  | record :: records =>
      if negb (is_retiring owner method record) then erase_records owner method records count
      else
        erased ← erase_matching record;
        _ ← ensure (erased =? 1)%nat (invalid_relationship "replay_delete_count");
        erase_records owner method records (S count)
  end.

Fixpoint erase_pages (n : nat) (owner method : bytes) (after : option (bytes * bytes * bytes)) (count : nat) : Loop nat :=
  match n with
  | O => mret None
  | S n =>
      records ← reference_page owner after;
      match last records with
      | None => mret (Some count)
      | Some back =>
          count ← erase_records owner method records count;
          erase_pages n owner method (Some (record_id back)) count
      end
  end.

Definition erase (owner method : bytes) (expected : nat) : Loop nat :=
  and_then (erase_pages fuel owner method None 0) (λ count,
    _ ← ensure (count =? expected)%nat (invalid_relationship "replay_set_changed");
    mret (Some count)).

(** The records of an owner, if there are any; the number of those erased. *)
Definition retire (owner method : bytes) (references : ReferenceSummary) : Loop nat :=
  if (retiring references =? 0)%nat then mret (Some O) else erase owner method (retiring references).

(** ** History *)

Fixpoint retire_runs (keys : list (Z * bytes)) (result : RetentionPurgeCounts) : Loop RetentionPurgeCounts :=
  match keys with
  | [] => mret (Some result)
  | key :: keys =>
      and_then (inspect key.2 run_method) (λ references,
        _ ← ensure (negb (pinned references)) (invalid_relationship "run_replay_pin");
        and_then (retire key.2 run_method references) (λ retired, retire_runs keys (add_records retired result)))
  end.

(** A round that does not end the loop purges a run at least. *)
Fixpoint purge_rounds (rounds : nat) (queue : bytes) (cutoff : Z) (limit : nat) (after : option (Z * bytes))
    (result : RetentionPurgeCounts) : Loop RetentionPurgeCounts :=
  match rounds with
  | O => mret None
  | S rounds =>
      if negb (purged_runs result <? limit)%nat then mret (Some result)
      else
        let page_limit := Nat.min kRunPageSize (limit - purged_runs result) in
        keys ← list_terminal_before queue cutoff page_limit after;
        match last keys with
        | None => mret (Some result)
        | Some back =>
            and_then (retire_runs keys result) (λ result,
              count ← delete_selected_terminal queue cutoff (map snd keys);
              _ ← ensure (count =? length keys)%nat (invalid_relationship "terminal_run_delete_count");
              let result := add_runs count result in
              if (length keys <? page_limit)%nat then mret (Some result)
              else purge_rounds rounds queue cutoff limit (Some back) result)
        end
  end.

Definition purge_queue_history (policy : QueueRetentionPolicy) (sweep_now daemon_retention : Z) (limit : nat)
    : Loop RetentionPurgeCounts :=
  let retention := default daemon_retention (policy_retention policy) in
  if retention =? 0 then mret (Some no_counts)
  else purge_rounds (S limit) (policy_id policy) (retention_cutoff sweep_now retention) limit None no_counts.

(** ** Owners *)

Definition owner_method (kind : RetentionOwnerKind) : bytes :=
  match kind with DeletedQueue => queue_method | _ => job_method end.

Definition check_secret_references (kind : RetentionOwnerKind) (id : bytes) : Tx unit :=
  match kind with
  | DeletedJob =>
      references ← has_secret_references id;
      ensure (negb references) (invalid_relationship "deleted_job_secret_refs")
  | _ => mret tt
  end.

Definition purge_owner (kind : RetentionOwnerKind) (id : bytes) (counts : RetentionPurgeCounts)
    : Loop RetentionPurgeCounts :=
  _ ← check_secret_references kind id;
  and_then (inspect id (owner_method kind)) (λ references,
    if negb (bool_decide (kind = FinishedOnce)) && pinned references then mret (Some counts)
    else
      and_then (retire id (owner_method kind) references) (λ retired,
        let counts := add_records retired counts in
        if bool_decide (kind = FinishedOnce) then mret (Some counts)
        else
          deleted ← delete_owner kind id;
          _ ← ensure (deleted =? 1)%nat (invalid_relationship "owner_delete_count");
          mret (Some (add_owner kind counts)))).

Fixpoint purge_owners (kind : RetentionOwnerKind) (ids : list bytes) (counts : RetentionPurgeCounts)
    : Loop RetentionPurgeCounts :=
  match ids with
  | [] => mret (Some counts)
  | id :: ids => and_then (purge_owner kind id counts) (purge_owners kind ids)
  end.

(** What follows a page that is not full. *)
Definition after_owners (phase : RetentionSweepPhase) (cursor : RetentionSweepCursor) (counts : RetentionPurgeCounts)
    : result Error RetentionBatchResult :=
  match phase with
  | OnceKeysPhase => success (mkBatch counts (mkCursor (after_queue cursor) DeletedJobsPhase None) false)
  | DeletedJobsPhase => success (mkBatch counts (mkCursor (after_queue cursor) DeletedQueuesPhase None) false)
  | DeletedQueuesPhase => success (mkBatch counts first_cursor true)
  | HistoryPhase => failure (invalid_retention_options "owner_phase")
  end.

Definition purge_owner_page (kind : RetentionOwnerKind) (limit : nat) (cursor : RetentionSweepCursor)
    : Loop RetentionBatchResult :=
  ids ← list_candidates kind limit (after_owner cursor);
  and_then (purge_owners kind ids no_counts) (λ counts,
    if (length ids =? limit)%nat
    then mret (Some (mkBatch counts (mkCursor (after_queue cursor) (phase cursor) (last ids)) false))
    else finishing (of_result (after_owners (phase cursor) cursor counts))).

(** ** Batches *)

Definition visit_phase (sweep_now daemon_retention : Z) (limit : nat) (cursor : RetentionSweepCursor)
    : Loop RetentionBatchResult :=
  match phase cursor with
  | HistoryPhase =>
      found ← next_retention_policy (after_queue cursor);
      match found with
      | Some policy =>
          and_then (purge_queue_history policy sweep_now daemon_retention limit) (λ counts,
            mret (Some (mkBatch counts (mkCursor (Some (policy_id policy)) HistoryPhase (after_owner cursor)) false)))
      | None => mret (Some (mkBatch no_counts (mkCursor None OnceKeysPhase None) false))
      end
  | OnceKeysPhase => purge_owner_page FinishedOnce limit cursor
  | DeletedJobsPhase => purge_owner_page DeletedJob limit cursor
  | DeletedQueuesPhase => purge_owner_page DeletedQueue limit cursor
  end.

Definition purge_visit (sweep_now daemon_retention : Z) (limit : nat) (cursor : RetentionSweepCursor)
    : Loop RetentionBatchResult :=
  transaction is_some (visit_phase sweep_now daemon_retention limit cursor).

Definition is_history (p : RetentionSweepPhase) : bool := match p with HistoryPhase => true | _ => false end.

Definition batch_origin (e : Error) : StorageFailureOrigin :=
  if bool_decide (code e = "jobu.retention.invalid_relationship") then OriginPersistedData else OriginOperation.

Definition purge_next_batch (sweep_now daemon_retention : Z) (limit : nat) (cursor : RetentionSweepCursor)
    : Loop RetentionBatchResult :=
  _ ← ensure (valid_retention_limit limit) (invalid_retention_options "batch_size");
  _ ← ensure (0 <=? daemon_retention) (invalid_retention_options "negative_retention");
  _ ← ensure (negb (is_history (phase cursor) && is_some (after_owner cursor) ||
                    negb (is_history (phase cursor)) && is_some (after_queue cursor)))
        (invalid_retention_options "cursor");
  on_error (λ e, sanitized_storage_error e OpMutation (batch_origin e))
    (purge_visit sweep_now daemon_retention limit cursor).

End Retention.
