(* ===== verification/RetentionSpec.v ===== *)
(** * What retention may remove

    The specification of retention: steps over the durable tables, each of which
    removes rows together with the rows that belong to them, and a program
    logic for the code that makes such steps.  [RetentionRefinement] shows that
    a batch is a sequence of them. *)

From stdpp Require Import base numbers strings list gmap sets.
From S2P Require Import Prelude Effects Values OutputCapture RetryPolicy CronEngine Domain ResourceNames StorageFailure Storage.
From S2P Require Import SchedulerRepository ManagementRepository RecoveryRepository Lifecycle Management ManagementOperations.
From S2P Require Import StoreLogic Completion Keyset ManagementLogic StoreInvariant RetentionRepository Retention.
Local Open Scope Z_scope.

(** ** Orders of keys *)

#[global] Instance terminal_key_total : StrictTotal terminal_key_ltb.
Proof.
  unfold terminal_key_ltb. split.
  - intros [n a]. simpl. by rewrite Z.ltb_irrefl, (before_irrefl (before:=bytes_ltb)), andb_false_r.
  - intros [n a] [m b] [o c]. simpl. rewrite !orb_true_iff, !andb_true_iff, !Z.eqb_eq, !Z.ltb_lt.
    intros [Hab|[-> Hab]] [Hbc|[-> Hbc]]; [left; lia|by left|by left|right; split; [done|by eapply before_trans]].
  - intros [n a] [m b]. simpl. rewrite !orb_true_iff, !andb_true_iff, !Z.eqb_eq, !Z.ltb_lt.
    destruct (Z.lt_trichotomy n m) as [?|[->|?]]; [tauto| |tauto].
    destruct (before_total a b) as [?|[->|?]]; tauto.
Qed.

#[global] Instance record_key_total : StrictTotal record_key_ltb.
Proof.
  unfold record_key_ltb, bytes_eqb. split.
  - intros [[a b] c]. simpl. by rewrite !before_irrefl, !andb_false_r.
  - intros [[a1 a2] a3] [[b1 b2] b3] [[c1 c2] c3]. simpl.
    rewrite !orb_true_iff, !andb_true_iff, !orb_true_iff, !andb_true_iff, !bool_decide_eq_true.
    intros [Hab|[-> [Hab|[-> Hab]]]] [Hbc|[-> [Hbc|[-> Hbc]]]]; pose proof (before_trans (before:=bytes_ltb)) as Htr; intuition eauto.
  - intros [[a1 a2] a3] [[b1 b2] b3]. simpl.
    rewrite !orb_true_iff, !andb_true_iff, !orb_true_iff, !andb_true_iff, !bool_decide_eq_true.
    destruct (before_total a1 b1) as [?|[->|?]]; [tauto| |tauto].
    destruct (before_total a2 b2) as [?|[->|?]]; [tauto| |tauto].
    destruct (before_total a3 b3) as [?|[->|?]]; tauto.
Qed.

(** ** The durable tables *)

Record Durable := mkDurable { d_tables : Tables; d_timing : Timing; d_side : SideTables }.

Definition durable `{Environment} (s : Session) : Durable := mkDurable (tables s) (timing s) (side s).

(** No record names the identifier. *)
Definition unreferenced (id : bytes) (x : SideTables) : Prop :=
  ∀ k r, idempotency x !! k = Some r → resource_id r ≠ id ∧ k.1.2 ≠ id.

(** No run of the job; no job and no run of the queue. *)
Definition childless_job (id : bytes) (t : Tables) : Prop := ∀ k r, runs t !! k = Some r → run_job r ≠ id.
Definition childless_queue (id : bytes) (t : Tables) : Prop :=
  (∀ k r, runs t !! k = Some r → run_queue r ≠ id) ∧ ∀ k j, jobs t !! k = Some j → job_queue j ≠ id.

(** A finished run that is older than the policy of its queue allows; a
    retention of zero keeps runs for ever. *)
Definition expired (now daemon_retention : Z) (t : Tables) (r : JobRun) : Prop :=
  is_terminal_run (run_state r) = true ∧
  ∃ q c, queues t !! run_queue r = Some q ∧ run_completed_at r = Some c ∧
    let retention := default daemon_retention (history_retention q) in
    retention ≠ 0 ∧ c < ceil_us (retention_cutoff now retention).

(** The resource that a record may be retired with; its method is the first
    part of its key. *)
Definition retirable (now daemon_retention : Z) (t : Tables) (k : bytes * bytes * bytes) (r : IdempotencyRecord) : Prop :=
  let id := resource_id r in
  (k.1.1 = run_method ∧ ∃ run, runs t !! id = Some run ∧ expired now daemon_retention t run) ∨
  (k.1.1 = job_method ∧ childless_job id t ∧ ∃ j, jobs t !! id = Some j ∧
     (job_state j = JobDeleted ∨ is_once j = true ∧ is_terminal_job_state (job_state j) = true)) ∨
  (k.1.1 = queue_method ∧ childless_queue id t ∧ ∃ q, queues t !! id = Some q ∧ queue_state q = QueueDeleted).

Inductive Removed :=
  | RemovedRuns (ids : gset bytes) | RemovedRecord (key : bytes * bytes * bytes) | RemovedJob (id : bytes)
  | RemovedQueue (id : bytes).

Definition forget_record (k : bytes * bytes * bytes) (x : SideTables) : SideTables :=
  mkSide (secrets x) (secret_refs x) (delete k (idempotency x)).

Inductive removal (now daemon_retention : Z) : Removed → Durable → Durable → Prop :=
  | removal_runs ids t x y :
      (∀ id, id ∈ ids → unreferenced id y ∧ ∃ r, runs t !! id = Some r ∧ expired now daemon_retention t r) →
      removal now daemon_retention (RemovedRuns ids) (mkDurable t x y)
        (mkDurable (without_runs ids t) (without_timing ids x) y)
  | removal_record k r t x y :
      idempotency y !! k = Some r → retirable now daemon_retention t k r →
      removal now daemon_retention (RemovedRecord k) (mkDurable t x y) (mkDurable t x (forget_record k y))
  | removal_job id j t x y :
      jobs t !! id = Some j → job_state j = JobDeleted → childless_job id t → unreferenced id y →
      (∀ row, row ∈ secret_refs y → row.1.2 ≠ id) →
      removal now daemon_retention (RemovedJob id) (mkDurable t x y) (mkDurable (set_jobs (delete id (jobs t)) t) x y)
  | removal_queue id q t x y :
      queues t !! id = Some q → queue_state q = QueueDeleted → childless_queue id t → unreferenced id y →
      removal now daemon_retention (RemovedQueue id) (mkDurable t x y)
        (mkDurable (set_queues (delete id (queues t)) t) x y).

Inductive removals (now daemon_retention : Z) : list Removed → Durable → Durable → Prop :=
  | removals_nil d : removals now daemon_retention [] d d
  | removals_cons e l d d1 d' :
      removal now daemon_retention e d d1 → removals now daemon_retention l d1 d' →
      removals now daemon_retention (e :: l) d d'.

(** What a step counts as. *)
Definition add_counts (a b : RetentionPurgeCounts) : RetentionPurgeCounts :=
  mkCounts (purged_runs a + purged_runs b) (purged_records a + purged_records b) (purged_jobs a + purged_jobs b)
    (purged_queues a + purged_queues b).
Definition count_of (e : Removed) : RetentionPurgeCounts :=
  match e with
  | RemovedRuns ids => mkCounts (size ids) 0 0 0
  | RemovedRecord _ => mkCounts 0 1 0 0
  | RemovedJob _ => mkCounts 0 0 1 0
  | RemovedQueue _ => mkCounts 0 0 0 1
  end.
Definition counts_of (l : list Removed) : RetentionPurgeCounts := foldr (λ e, add_counts (count_of e)) no_counts l.

Lemma add_counts_assoc a b c : add_counts a (add_counts b c) = add_counts (add_counts a b) c.
Proof. unfold add_counts. simpl. f_equal; lia. Qed.
Lemma add_counts_none a : add_counts a no_counts = a.
Proof. destruct a. unfold add_counts, no_counts. simpl. f_equal; lia. Qed.
Lemma counts_of_app l1 l2 : counts_of (l1 ++ l2) = add_counts (counts_of l1) (counts_of l2).
Proof.
  induction l1 as [|e l1 IH]; simpl; [by destruct (counts_of l2)|]. unfold counts_of in *. simpl. by rewrite IH, add_counts_assoc.
Qed.

Section Sequences.
Variables now daemon_retention : Z.
Abbreviation removals := (removals now daemon_retention).
Abbreviation removal := (removal now daemon_retention).

Lemma removals_app l1 l2 d d1 d' : removals l1 d d1 → removals l2 d1 d' → removals (l1 ++ l2) d d'.
Proof. induction 1; [done|]. intros ?. simpl. econstructor; eauto. Qed.

Lemma removals_one e d d' : removal e d d' → removals [e] d d'.
Proof. intros He. by eapply removals_cons, removals_nil. Qed.

Lemma removals_keep (P : Durable → Prop) l d d' :
  (∀ e d d', P d → removal e d d' → P d') → P d → removals l d d' → P d'.
Proof. intros HP Hd Hl. induction Hl; eauto. Qed.

(** A sequence with the counts [c]. *)
Definition purges (c : RetentionPurgeCounts) (d d' : Durable) : Prop := ∃ l, removals l d d' ∧ counts_of l = c.

Lemma purges_none d : purges no_counts d d.
Proof. exists []. split; [constructor|done]. Qed.
Lemma purges_step e d d' : removal e d d' → purges (count_of e) d d'.
Proof. exists [e]. split; [by apply removals_one|]. apply add_counts_none. Qed.
Lemma purges_trans c1 c2 d d1 d' : purges c1 d d1 → purges c2 d1 d' → purges (add_counts c1 c2) d d'.
Proof.
  intros (l1 & H1 & <-) (l2 & H2 & <-). exists (l1 ++ l2). split; [by eapply removals_app|apply counts_of_app].
Qed.

(** Records only go, and nothing else of their tables changes. *)
Record shrinks (d d' : Durable) : Prop := {
  shrinks_records : idempotency (d_side d') ⊆ idempotency (d_side d);
  shrinks_secrets : secret_refs (d_side d') = secret_refs (d_side d);
  shrinks_runs : runs (d_tables d') ⊆ runs (d_tables d);
  shrinks_jobs : jobs (d_tables d') ⊆ jobs (d_tables d);
  shrinks_queues : queues (d_tables d') ⊆ queues (d_tables d) }.

#[global] Instance shrinks_preorder : PreOrder shrinks.
Proof. split; [done|]. intros d1 d2 d3 [] []. split; (by etransitivity) || congruence. Qed.

Lemma removal_shrinks e d d' : removal e d d' → shrinks d d'.
Proof.
  intros []; split; cbn; try done; solve [apply map_filter_subseteq|apply delete_subseteq].
Qed.

Lemma purges_shrinks c d d' : purges c d d' → shrinks d d'.
Proof. intros (l & Hl & _). induction Hl; [done|]. etransitivity; [by eapply removal_shrinks|done]. Qed.

End Sequences.

Lemma shrinks_unreferenced d d' id : shrinks d d' → unreferenced id (d_side d) → unreferenced id (d_side d').
Proof. intros Hs Hu k r Hr. by eapply Hu, lookup_weaken, shrinks_records. Qed.

(** ** The logic *)

Section Logic.
Context `{Environment}.
Abbreviation Tx := (ES Session).
Abbreviation Loop A := (Tx (option A)).

(** If [m] succeeds on the tables [d], then [Q] of its value and the tables. *)
Definition does {A} (m : Tx A) (d : Durable) (Q : A → Durable → Prop) : Prop :=
  ∀ s v s', durable s = d → m s = (success v, s') → Q v (durable s').

(** The same for a loop, which falls short only if [short]. *)
Definition yields {A} (short : Prop) (m : Loop A) (d : Durable) (Q : A → Durable → Prop) : Prop :=
  does m d (λ o d', match o with Some v => Q v d' | None => short end).

Lemma does_ret {A} (v : A) d (Q : A → Durable → Prop) : Q v d → does (mret v) d Q.
Proof. by intros HQ s v' s' <- [= <- <-]. Qed.
Lemma does_bind {A B} (m : Tx A) (k : A → Tx B) d Q : does m d (λ v d', does (k v) d' Q) → does (m ≫= k) d Q.
Proof.
  intros Hm s v s' Hs. unfold mbind, ES_bind. destruct (m s) as [[x|] s1] eqn:Hx; [|done]. by apply (Hm s x s1 Hs Hx).
Qed.
Lemma does_mono {A} (m : Tx A) d (Q Q' : A → Durable → Prop) : (∀ v d', Q v d' → Q' v d') → does m d Q → does m d Q'.
Proof. intros HQ Hm s v s' Hs Hv. eauto. Qed.
Lemma does_throw {A} e d (Q : A → Durable → Prop) : does (throw e) d Q.
Proof. by intros s v s' Hs. Qed.
Lemma does_of_result {A} (r : result Error A) d (Q : A → Durable → Prop) :
  (∀ v, r = success v → Q v d) → does (of_result r) d Q.
Proof. intros HQ s v s' <- [= -> <-]. by apply HQ. Qed.
Lemma does_ensure b e d (Q : unit → Durable → Prop) : (b = true → Q tt d) → does (ensure b e) d Q.
Proof. intros HQ. apply does_of_result. intros []. destruct b; [auto|done]. Qed.
Lemma does_statement d (Q : unit → Durable → Prop) : Q tt d → does statement d Q.
Proof. intros HQ s v s' <-. unfold statement. destruct (fault _); [done|]. by intros [= <- <-]. Qed.
Lemma does_gets {A} (f : Session → A) (g : Durable → A) d (Q : A → Durable → Prop) :
  (∀ s, f s = g (durable s)) → Q (g d) d → does (gets f) d Q.
Proof. intros Hf HQ s v s' <- [= <- <-]. by rewrite Hf. Qed.
Lemma does_modify f d d' (Q : unit → Durable → Prop) :
  (∀ s, durable s = d → durable (f s) = d') → Q tt d' → does (modify f) d Q.
Proof. intros Hf HQ s v s' Hs [= <- <-]. by rewrite (Hf s Hs). Qed.
Lemma does_query {A} (f : Tables → A) d (Q : A → Durable → Prop) : Q (f (d_tables d)) d → does (query f) d Q.
Proof. intros HQ. by apply does_bind, does_statement, (does_gets _ (λ d, f (d_tables d))). Qed.
Lemma does_side_query {A} (f : SideTables → A) d (Q : A → Durable → Prop) : Q (f (d_side d)) d → does (side_query f) d Q.
Proof. intros HQ. by apply does_bind, does_statement, (does_gets _ (λ d, f (d_side d))). Qed.
Lemma does_on_error {A} g (m : Tx A) d Q : does m d Q → does (on_error g m) d Q.
Proof.
  intros Hm s v s' Hs. unfold on_error. destruct (m s) as [[x|e] s1] eqn:Hx; intros [= <- <-]. by apply (Hm s x s1).
Qed.
Lemma does_untouched {A} (m : Tx A) d (Q : A → Durable → Prop) : untouched m → (∀ v, Q v d) → does m d Q.
Proof.
  intros Hm HQ s v s' <- Hs. apply Hm in Hs as [Ht Hx Hy]. unfold durable. rewrite Ht, Hx, Hy. apply HQ.
Qed.

Lemma loop_ret {A} short (v : A) d (Q : A → Durable → Prop) : Q v d → yields short (mret (Some v)) d Q.
Proof. intros HQ. by apply does_ret. Qed.
Lemma loop_bind {A B} short (m : Tx A) (k : A → Loop B) d Q :
  does m d (λ v d', yields short (k v) d' Q) → yields short (m ≫= k) d Q.
Proof. apply does_bind. Qed.
Lemma loop_and_then {A B} short (m : Loop A) (k : A → Loop B) d Q :
  yields short m d (λ v d', yields short (k v) d' Q) → yields short (and_then m k) d Q.
Proof.
  intros Hm. apply does_bind. eapply does_mono, Hm. intros [v|] d'; [done|]. intros Hs. by apply does_ret.
Qed.
Lemma loop_mono {A} short (m : Loop A) d (Q Q' : A → Durable → Prop) :
  (∀ v d', Q v d' → Q' v d') → yields short m d Q → yields short m d Q'.
Proof. intros HQ. apply does_mono. intros [v|] d'; auto. Qed.
Lemma loop_weaken {A} (short short' : Prop) (m : Loop A) d (Q : A → Durable → Prop) :
  (short → short') → yields short m d Q → yields short' m d Q.
Proof. intros Hs. apply does_mono. intros [v|] d'; auto. Qed.
Lemma loop_short {A} short (d : Durable) (Q : A → Durable → Prop) : short → yields short (mret None) d Q.
Proof. intros Hs. by apply does_ret. Qed.

End Logic.
