(* ===== verification/RetentionRefinement.v ===== *)
(** * Batches of retention refine its specification

    What each part of [Retention] does to the durable tables, up to the batch:
    a batch that succeeds is a sequence of removals of [RetentionSpec] with the
    counts that it reports; one that fails changes nothing. *)

From stdpp Require Import base numbers strings list gmap sets.
From S2P Require Import Prelude Effects Values OutputCapture RetryPolicy CronEngine Domain ResourceNames StorageFailure Storage.
From S2P Require Import SchedulerRepository ManagementRepository RecoveryRepository Lifecycle Management ManagementOperations.
From S2P Require Import StoreLogic Completion Keyset ManagementLogic StoreInvariant RetentionRepository Retention RetentionSpec.
Local Open Scope Z_scope.

(** ** Conditions of the statements *)

Lemma filter_empty_lookup {K A} `{Countable K} (P : K * A → Prop) `{!∀ x, Decision (P x)} (m : gmap K A) k v :
  filter P m = ∅ → m !! k = Some v → ¬ P (k, v).
Proof.
  intros He Hv HP. assert (Hk : filter P m !! k = Some v) by by apply map_lookup_filter_Some. by rewrite He, lookup_empty in Hk.
Qed.

Lemma no_job_runs_spec id t : no_job_runs id t = true ↔ childless_job id t.
Proof.
  unfold no_job_runs, childless_job. rewrite bool_decide_eq_true. split.
  - intros Hn k r Hr Heq. pose proof (runs_where_nil _ _ Hn k r Hr) as Hf. unfold bytes_eqb in Hf.
    by rewrite bool_decide_true in Hf.
  - intros Hc. destruct (runs_where _ t) as [|r l] eqn:Hl; [done|]. exfalso.
    assert (Hin : r ∈ runs_where (λ r, bytes_eqb (run_job r) id) t) by (rewrite Hl; apply elem_of_cons; by left).
    apply elem_runs_where in Hin as (k & Hr & Hj%bool_decide_eq_true). by eapply Hc.
Qed.

Lemma no_queue_owners_spec id t : no_queue_owners id t = true → childless_queue id t.
Proof.
  unfold no_queue_owners, childless_queue. rewrite andb_true_iff, !bool_decide_eq_true. intros [Hj Hr]. split.
  - intros k r Hk Heq. pose proof (runs_where_nil _ _ Hr k r Hk) as Hf. unfold bytes_eqb in Hf. by rewrite bool_decide_true in Hf.
  - intros k j Hk Heq. unfold jobs_where in Hj. apply map_eq_nil, map_to_list_empty_iff in Hj.
    apply (filter_empty_lookup _ _ _ _ Hj Hk). simpl. unfold bytes_eqb. by apply bool_decide_eq_true.
Qed.

Lemma has_references_spec id x : has_references id x = false → unreferenced id x.
Proof.
  unfold has_references. rewrite negb_false_iff, bool_decide_eq_true. intros Hx k r Hr.
  unfold references_of in Hx.
  assert (Hf : refers id (k, r) = false).
  { destruct (refers id (k, r)) eqn:E; [|done]. exfalso. by apply (filter_empty_lookup _ _ _ _ Hx Hr). }
  unfold refers, bytes_eqb in Hf. simpl in Hf. rewrite orb_false_iff, !bool_decide_eq_false in Hf. done.
Qed.

Lemma secret_rows_spec job x : secret_rows_of job x = ∅ → ∀ row, row ∈ secret_refs x → row.1.2 ≠ job.
Proof. unfold secret_rows_of. intros Hx row Hrow Heq. set_solver. Qed.

(** ** References *)

Section References.
Context `{Admission} `{!ReplayScopes} (fuel : nat).

Lemma validate_record_untouched record : untouched (validate_record record).
Proof.
  assert (Hatt : ∀ {A} (m : ES Session A), untouched m → untouched (attempted m)).
  { intros A m Hm s r s'. unfold attempted. destruct (m s) as [x s1] eqn:Hs. apply Hm in Hs. by intros [= <- <-]. }
  unfold validate_record, has_queue, has_job, find_run_owner. repeat untouched_step; eauto with untouched;
    apply Hatt; untouched_solve.
Qed.

Lemma inspect_records_untouched owner method records summary : untouched (inspect_records owner method records summary).
Proof.
  revert summary. induction records as [|record records IH]; intros summary; cbn [inspect_records]; [apply untouched_ret|].
  apply untouched_bind; [apply validate_record_untouched|]. intros _. apply IH.
Qed.

Lemma inspect_records_spec owner method records summary d (Q : ReferenceSummary → Durable → Prop) :
  Q (foldl (note_reference owner method) summary records) d → does (inspect_records owner method records summary) d Q.
Proof.
  revert summary. induction records as [|record records IH]; intros summary HQ; cbn [inspect_records]; [by apply does_ret|].
  apply does_bind, does_untouched; [apply validate_record_untouched|]. intros _. by apply IH.
Qed.

Lemma reference_page_untouched owner after : untouched (reference_page owner after).
Proof.
  unfold reference_page, on_error. intros s r s'. destruct (list_referencing _ _ _ s) as [x s1] eqn:Hs.
  assert (Hu : untouched (list_referencing owner kReferencePageSize after)) by (unfold list_referencing; untouched_solve).
  apply Hu in Hs. destruct x; by intros [= <- <-].
Qed.

(** The keys of the records that name an owner. *)
Definition reference_keys (owner : bytes) (x : SideTables) : list (bytes * bytes * bytes) :=
  map fst (map_to_list (references_of owner x)).

Lemma elem_reference_keys owner x k :
  k ∈ reference_keys owner x ↔ ∃ r, idempotency x !! k = Some r ∧ refers owner (k, r) = true.
Proof.
  unfold reference_keys, references_of. rewrite list_elem_of_fmap. split.
  - intros ([k' r] & -> & Hin). apply elem_of_map_to_list, map_lookup_filter_Some in Hin as [? ?]. by exists r.
  - intros (r & Hr & Hf). exists (k, r). split; [done|]. apply elem_of_map_to_list, map_lookup_filter_Some. done.
Qed.

Lemma decode_records_id rows out : decode_rows decode_record rows = success out → out = rows.
Proof.
  revert out. induction rows as [|r rows IH]; intros out; simpl; [by intros [= <-]|].
  assert (Hr : decode_record r = success r ∨ ∃ e, decode_record r = failure e).
  { unfold decode_record. match goal with |- context [check ?b ?e] => destruct (check b e) end; [by left|by right; eexists]. }
  destruct Hr as [-> |[e ->]]; [|done]. cbn. destruct (decode_rows _ rows) as [rest|]; [|done].
  cbn. intros [= <-]. f_equal. by apply IH.
Qed.

(** The records of some keys. *)
Definition rows_of (x : SideTables) : list (bytes * bytes * bytes) → list IdempotencyRecord → Prop :=
  Forall2 (λ k record, ∃ r, idempotency x !! k = Some r ∧ record = record_at k r).

Lemma omap_rows x keys :
  (∀ k, k ∈ keys → is_Some (idempotency x !! k)) → rows_of x keys (omap (λ k, record_at k <$> idempotency x !! k) keys).
Proof.
  induction keys as [|k keys IH]; intros Hk; simpl; [constructor|].
  destruct (Hk k ltac:(by left)) as [r Hr]. rewrite Hr. constructor; [by exists r|]. apply IH. intros k' Hk'. apply Hk. by right.
Qed.

Lemma record_id_at k r : record_id (record_at k r) = k.
Proof. by destruct k as [[? ?] ?]. Qed.

(** A page of records is a page of the keys. *)
Lemma reference_page_spec owner after d (Q : list IdempotencyRecord → Durable → Prop) :
  (∀ records,
     rows_of (d_side d) (page record_key_ltb kReferencePageSize after (reference_keys owner (d_side d))) records → Q records d) →
  does (reference_page owner after) d Q.
Proof.
  intros HQ. apply does_on_error, does_bind, does_ensure. intros _. apply does_bind, does_side_query, does_of_result.
  intros v Hv%decode_records_id. subst v. apply HQ. apply omap_rows. intros k [Hk _]%page_elem.
  apply elem_reference_keys in Hk as (r & Hr & _). by eexists.
Qed.

(** ** Inspection *)

Lemma page_records {owner after x records} :
  rows_of x (page record_key_ltb kReferencePageSize after (reference_keys owner x)) records →
  page record_key_ltb kReferencePageSize after (reference_keys owner x) = record_id <$> records.
Proof.
  induction 1 as [|k record ks records (r & Hr & ->) _ IH]; [done|]. rewrite IH. simpl. by rewrite record_id_at.
Qed.

Lemma row_at {x keys records k r} :
  rows_of x keys records → keys = record_id <$> records → k ∈ record_id <$> records → idempotency x !! k = Some r →
  record_at k r ∈ records.
Proof.
  intros Hrows Hkeys Hk Hr. rewrite <- Hkeys in Hk. apply list_elem_of_lookup in Hk as [i Hi].
  destruct (Forall2_lookup_l _ _ _ _ _ Hrows Hi) as (record & Hrec & r' & Hr' & ->). simplify_eq.
  by eapply list_elem_of_lookup_2.
Qed.

(** The last record of a page is a reference ahead of the cursor; the others
    ahead are on the page or ahead of it. *)
Lemma page_back {owner after x records back} :
  page record_key_ltb kReferencePageSize after (reference_keys owner x) = record_id <$> records → last records = Some back →
  record_id back ∈ reference_keys owner x ∧ beyond record_key_ltb after (record_id back).
Proof.
  intros Hp Hl%last_Some_elem_of. apply (page_elem record_key_ltb kReferencePageSize). rewrite Hp. by apply list_elem_of_fmap_2.
Qed.

Lemma page_rest {owner after x records back k} :
  page record_key_ltb kReferencePageSize after (reference_keys owner x) = record_id <$> records → last records = Some back →
  k ∈ reference_keys owner x → beyond record_key_ltb after k →
  k ∈ record_id <$> records ∨ beyond record_key_ltb (Some (record_id back)) k.
Proof.
  intros Hp Hl Hk Ha. destruct (page_complete record_key_ltb kReferencePageSize after _ k ltac:(unfold kReferencePageSize; lia) Hk Ha)
    as [Hin|(b & Hb & Hor)].
  - left. by rewrite <- Hp.
  - rewrite Hp, fmap_last, Hl in Hb. injection Hb as <-. destruct Hor as [?| <-]; [by right|left].
    apply list_elem_of_fmap_2. by apply last_Some_elem_of.
Qed.

Lemma page_none {owner after x records k} :
  page record_key_ltb kReferencePageSize after (reference_keys owner x) = record_id <$> records → last records = None →
  k ∈ reference_keys owner x → ¬ beyond record_key_ltb after k.
Proof.
  intros Hp ->%last_None Hk Ha.
  destruct (page_complete record_key_ltb kReferencePageSize after _ k ltac:(unfold kReferencePageSize; lia) Hk Ha) as [Hin|(b & Hb & _)].
  - rewrite Hp in Hin. by apply elem_of_nil in Hin.
  - by rewrite Hp in Hb.
Qed.

Lemma noted owner method records summary :
  let summary' := foldl (note_reference owner method) summary records in
  (pinned summary' = false → pinned summary = false ∧ ∀ r, r ∈ records → is_retiring owner method r = true) ∧
  (retiring summary' = O → retiring summary = O ∧ ∀ r, r ∈ records → is_retiring owner method r = false).
Proof.
  revert summary. induction records as [|record records IH]; intros summary; cbn [foldl].
  { split; intros ?; (split; [done|]); by intros ? ?%elem_of_nil. }
  destruct (IH (note_reference owner method summary record)) as [IHp IHr]. unfold note_reference in *.
  destruct (is_retiring owner method record) eqn:E; cbn [pinned retiring] in *; split.
  - intros [Hn Hr]%IHp. split; [done|]. intros r [->|?]%elem_of_cons; auto.
  - by intros [? _]%IHr.
  - by intros [? _]%IHp.
  - intros [Hn Hr]%IHr. split; [done|]. intros r [->|?]%elem_of_cons; auto.
Qed.

(** What a summary says of the references to an owner ahead of a cursor. *)
Definition summarises (owner method : bytes) (after : option (bytes * bytes * bytes)) (x : SideTables)
    (summary summary' : ReferenceSummary) : Prop :=
  let all (b : bool) := ∀ k r, idempotency x !! k = Some r → refers owner (k, r) = true → beyond record_key_ltb after k →
    is_retiring owner method (record_at k r) = b in
  (pinned summary' = false → pinned summary = false ∧ all true) ∧
  (retiring summary' = O → retiring summary = O ∧ all false).

Section Walk.
Variables (owner : bytes) (keys : list (bytes * bytes * bytes)).

Definition rest (after : option (bytes * bytes * bytes)) : nat := length (List.filter (ahead record_key_ltb after) keys).

Lemma inspect_pages_spec n method after summary d (Q : ReferenceSummary → Durable → Prop) :
  (∀ k, k ∈ reference_keys owner (d_side d) → k ∈ keys) →
  (∀ summary', summarises owner method after (d_side d) summary summary' → Q summary' d) →
  yields (n ≤ rest after)%nat (inspect_pages n owner method after summary) d Q.
Proof.
  intros Hkeys. revert after summary. induction n as [|n IH]; intros after summary HQ; cbn [inspect_pages].
  { apply loop_short. lia. }
  apply loop_bind, reference_page_spec. intros records Hrec. pose proof (page_records Hrec) as Hp.
  destruct (last records) as [back|] eqn:Hl.
  - destruct (page_back Hp Hl) as [Hin Hb]. apply loop_bind, inspect_records_spec.
    eapply loop_weaken, IH; [pose proof (ahead_shorter record_key_ltb keys after _ (Hkeys _ Hin) Hb); unfold rest; lia|].
    destruct (noted owner method records summary) as [Hnp Hnr].
    assert (Hon : ∀ k r, idempotency (d_side d) !! k = Some r → refers owner (k, r) = true → beyond record_key_ltb after k →
      record_at k r ∈ records ∨ beyond record_key_ltb (Some (record_id back)) k).
    { intros k r Hk Hf Ha. destruct (page_rest Hp Hl ltac:(apply elem_reference_keys; eauto) Ha) as [Hi|Hi]; [|by right].
      left. by eapply row_at. }
    intros summary' [Hsp Hsr]. apply HQ. split.
    + intros [[Hn Hr]%Hnp Hrest]%Hsp. split; [done|]. intros k r Hk Hf Ha. destruct (Hon k r Hk Hf Ha); eauto.
    + intros [[Hn Hr]%Hnr Hrest]%Hsr. split; [done|]. intros k r Hk Hf Ha. destruct (Hon k r Hk Hf Ha); eauto.
  - apply loop_ret, HQ. split; intros Hs; (split; [done|]); intros k r Hk Hf Ha;
      by destruct (page_none Hp Hl ltac:(apply elem_reference_keys; eauto) Ha).
Qed.

End Walk.

(** ** Erasure *)

Section Erase.
Variables (now daemon_retention : Z).
Abbreviation purges := (purges now daemon_retention).

Definition records_only (n : nat) : RetentionPurgeCounts := mkCounts 0 n 0 0.

(** From [d], [n] records were removed, and nothing else. *)
Record erased (n : nat) (d d' : Durable) : Prop := {
  erased_purges : purges (records_only n) d d';
  erased_tables : d_tables d' = d_tables d }.

Lemma erased_none d : erased 0 d d.
Proof. split; [apply purges_none|done]. Qed.
Lemma erased_trans n m d d1 d' : erased n d d1 → erased m d1 d' → erased (n + m) d d'.
Proof.
  intros [Hp Ht] [Hp' Ht']. split; [|congruence]. exact (purges_trans _ _ _ _ _ _ _ Hp Hp').
Qed.
Lemma erased_shrinks {n d d'} : erased n d d' → shrinks d d'.
Proof. intros [Hp _]. by eapply purges_shrinks. Qed.

Lemma erase_matching_spec record d (Q : nat → Durable → Prop) :
  (∀ d', erased 1 d d' → d_side d' = forget_record (record_id record) (d_side d) → Q 1%nat d') → Q 0%nat d →
  (∀ r, resource_id r = resource_id record → retirable now daemon_retention (d_tables d) (record_id record) r) →
  does (erase_matching record) d Q.
Proof.
  intros Hone Hzero Hret. apply does_bind, does_side_query. unfold Datatypes.id.
  destruct (idempotency (d_side d) !! record_id record) as [stored|] eqn:Hs; [|by apply does_ret].
  destruct (bytes_eqb _ _) eqn:He; [|by apply does_ret]. apply bool_decide_eq_true in He.
  set (d' := mkDurable (d_tables d) (d_timing d) (forget_record (record_id record) (d_side d))).
  apply does_bind, (does_modify _ _ d'); [by intros s <-|]. apply does_ret, Hone; [|done]. split; [|done].
  destruct d as [t x y]. refine (purges_step _ _ (RemovedRecord _) _ _ _). eapply removal_record; [exact Hs|].
  by apply Hret.
Qed.

Variables (owner method : bytes) (d0 : Durable).
Hypothesis Hretirable :
  ∀ k r, is_retiring owner method (record_at k r) = true → retirable now daemon_retention (d_tables d0) k r.

Lemma is_retiring_spec r : is_retiring owner method r = true ↔ record_method r = method ∧ resource_id r = owner.
Proof. unfold is_retiring, bytes_eqb. by rewrite andb_true_iff, !bool_decide_eq_true. Qed.

(** After the records of a page, none of those to retire is left of it. *)
Lemma erase_records_spec records count d (Q : nat → Durable → Prop) :
  (∃ n, erased n d0 d) →
  (∀ n d', erased n d d' →
     (∀ r, r ∈ records → is_retiring owner method r = true → idempotency (d_side d') !! record_id r = None) →
     Q (count + n)%nat d') →
  does (erase_records owner method records count) d Q.
Proof.
  revert count d. induction records as [|record records IH]; intros count d [m Hm] HQ; cbn [erase_records].
  { apply does_ret. replace count with (count + 0)%nat by lia. apply HQ; [apply erased_none|]. by intros r ?%elem_of_nil. }
  destruct (is_retiring owner method record) eqn:Hr; cbn [negb].
  - apply does_bind, erase_matching_spec.
    + intros d1 Hd1 Hside. apply does_bind, does_ensure. intros _. apply IH; [eexists; by eapply erased_trans|].
      intros n d' Hn Hgone. replace (S count + n)%nat with (count + (1 + n))%nat by lia. apply HQ; [by eapply erased_trans|].
      intros r [->|Hin]%elem_of_cons Hret; [|auto].
      destruct (idempotency (d_side d') !! record_id record) eqn:E; [|done].
      eapply lookup_weaken in E; [|by eapply shrinks_records, erased_shrinks].
      rewrite Hside in E. cbn in E. by rewrite lookup_delete_eq in E.
    + apply does_bind, does_ensure. done.
    + apply is_retiring_spec in Hr as [Hm' Ho]. intros r Hr. rewrite (erased_tables _ _ _ Hm). apply Hretirable, is_retiring_spec.
      split; [done|]. cbn. congruence.
  - apply IH; [eauto|]. intros n d' Hn Hgone. apply HQ; [done|]. intros r [->|?]%elem_of_cons ?; [congruence|auto].
Qed.

Lemma refers_retiring k r : is_retiring owner method (record_at k r) = true → refers owner (k, r) = true.
Proof. intros [_ Hr]%is_retiring_spec. unfold refers, bytes_eqb. apply orb_true_iff. left. by apply bool_decide_eq_true. Qed.

Lemma erase_pages_spec keys n after count d (Q : nat → Durable → Prop) :
  (∃ m, erased m d0 d) → (∀ k, k ∈ reference_keys owner (d_side d0) → k ∈ keys) →
  (∀ k r, idempotency (d_side d) !! k = Some r → is_retiring owner method (record_at k r) = true → beyond record_key_ltb after k) →
  (∀ m d', erased m d d' →
     (∀ k r, idempotency (d_side d') !! k = Some r → is_retiring owner method (record_at k r) = false) → Q (count + m)%nat d') →
  yields (n ≤ rest keys after)%nat (erase_pages n owner method after count) d Q.
Proof.
  intros Hd Hkeys. revert after count d Hd. induction n as [|n IH]; intros after count d [m0 Hd] Hleft HQ; cbn [erase_pages].
  { apply loop_short. lia. }
  assert (Hkeysd : ∀ k, k ∈ reference_keys owner (d_side d) → k ∈ keys).
  { intros k (r & Hr & Hf)%elem_reference_keys. apply Hkeys, elem_reference_keys. exists r. split; [|done].
    by eapply lookup_weaken, shrinks_records, erased_shrinks. }
  apply loop_bind, reference_page_spec. intros records Hrec. pose proof (page_records Hrec) as Hp.
  destruct (last records) as [back|] eqn:Hl.
  - destruct (page_back Hp Hl) as [Hin Hb]. apply loop_bind, erase_records_spec; [eauto|]. intros m d1 Hm Hgone.
    eapply loop_weaken, IH; [| |intros k r Hk Hr|intros m' d' Hm' Hnone].
    + pose proof (ahead_shorter record_key_ltb keys after _ (Hkeysd _ Hin) Hb). unfold rest. lia.
    + eexists. by eapply erased_trans.
    + assert (Hk0 : idempotency (d_side d) !! k = Some r) by by eapply lookup_weaken, shrinks_records, erased_shrinks.
      destruct (page_rest (k := k) Hp Hl) as [Hi|Hi]; [|by eapply Hleft| |done].
      { apply elem_reference_keys. exists r. split; [done|by apply refers_retiring]. }
      by rewrite <- (record_id_at k r), (Hgone _ (row_at Hrec Hp Hi Hk0) Hr) in Hk.
    + replace (count + m + m')%nat with (count + (m + m'))%nat by lia. apply HQ; [by eapply erased_trans|done].
  - apply loop_ret. replace count with (count + 0)%nat by lia. apply HQ; [apply erased_none|]. intros k r Hk.
    destruct (is_retiring owner method (record_at k r)) eqn:Hr; [|done]. exfalso.
    refine (page_none (k := k) Hp Hl _ _); [|by eapply Hleft].
    apply elem_reference_keys. exists r. split; [done|by apply refers_retiring].
Qed.

End Erase.

Lemma reference_keys_length owner x : (length (reference_keys owner x) ≤ size (idempotency x))%nat.
Proof.
  unfold reference_keys. rewrite length_map, length_map_to_list.
  apply map_subseteq_size, map_filter_subseteq.
Qed.

Lemma rest_none keys : rest keys None = length keys.
Proof. unfold rest. f_equal. induction keys as [|k keys IH]; [done|]. cbn. by rewrite IH. Qed.

Lemma inspect_spec owner method d (Q : ReferenceSummary → Durable → Prop) :
  (∀ summary, summarises owner method None (d_side d) (mkSummary 0 false) summary → Q summary d) →
  yields (fuel ≤ size (idempotency (d_side d)))%nat (inspect fuel owner method) d Q.
Proof.
  intros HQ. eapply loop_weaken, (inspect_pages_spec owner (reference_keys owner (d_side d))); [|done..].
  rewrite rest_none. pose proof (reference_keys_length owner (d_side d)). lia.
Qed.

(** The records of an owner that are to be retired are gone afterwards. *)
Lemma retire_spec now daemon_retention owner method summary d (Q : nat → Durable → Prop) :
  summarises owner method None (d_side d) (mkSummary 0 false) summary →
  (∀ k r, is_retiring owner method (record_at k r) = true → retirable now daemon_retention (d_tables d) k r) →
  (∀ n d', erased now daemon_retention n d d' →
     (∀ k r, idempotency (d_side d') !! k = Some r → is_retiring owner method (record_at k r) = false) → Q n d') →
  yields (fuel ≤ size (idempotency (d_side d)))%nat (retire fuel owner method summary) d Q.
Proof.
  intros [_ Hr] Hret HQ. unfold retire. destruct (Nat.eqb_spec (retiring summary) 0) as [Hz|_].
  - apply loop_ret, HQ; [apply erased_none|]. intros k r Hkr. destruct (Hr Hz) as [_ Hall].
    destruct (is_retiring owner method (record_at k r)) eqn:E; [|done]. rewrite <- E. by eapply Hall; [|eapply refers_retiring|].
  - apply loop_and_then. eapply loop_weaken, (erase_pages_spec now daemon_retention owner method d Hret (reference_keys owner (d_side d)));
      [|by exists O; apply erased_none|done|done|].
    + rewrite rest_none. pose proof (reference_keys_length owner (d_side d)). lia.
    + intros m d' Hm Hnone. apply loop_bind, does_ensure. intros _. apply loop_ret. by apply HQ.
Qed.

(** With no other reference, the owner is not referred to any more. *)
Lemma retired_unreferenced now daemon_retention owner method summary n d d' :
  summarises owner method None (d_side d) (mkSummary 0 false) summary → pinned summary = false →
  erased now daemon_retention n d d' →
  (∀ k r, idempotency (d_side d') !! k = Some r → is_retiring owner method (record_at k r) = false) → unreferenced owner (d_side d').
Proof.
  intros [Hp _] Hpin He Hnone k r Hk. destruct (Hp Hpin) as [_ Hall].
  assert (Hf : refers owner (k, r) ≠ true).
  { intros Hf. pose proof (Hnone k r Hk) as Hn. rewrite (Hall k r) in Hn; [done| |done|done].
    by eapply lookup_weaken, shrinks_records, erased_shrinks. }
  apply not_true_is_false in Hf. unfold refers, bytes_eqb in Hf. by rewrite orb_false_iff, !bool_decide_eq_false in Hf.
Qed.

End References.

(** ** History *)

Section History.
Context `{Admission} `{!ReplayScopes} (fuel bound : nat).
Variables (now daemon_retention : Z) (queue : bytes) (q : Queue).
Abbreviation purges := (purges now daemon_retention).
Abbreviation retention := (default daemon_retention (history_retention q)).
Abbreviation cutoff := (retention_cutoff now retention).
Hypothesis Hretention : retention ≠ 0.

Definition runs_only (n : nat) : RetentionPurgeCounts := mkCounts n 0 0 0.

(** The queue is as it was when its policy was read, and the records fit the
    bound. *)
Record visited (d : Durable) : Prop := {
  visited_queue : queues (d_tables d) !! queue = Some q;
  visited_bound : (size (idempotency (d_side d)) ≤ bound)%nat }.

Lemma terminal_before_spec r :
  terminal_before queue cutoff r = true →
  run_queue r = queue ∧ is_terminal_run (run_state r) = true ∧ ∃ c, run_completed_at r = Some c ∧ c < ceil_us cutoff.
Proof.
  unfold terminal_before, bytes_eqb. rewrite !andb_true_iff, bool_decide_eq_true. intros [[Hq Ht] Hc]. split_and!; [done..|].
  destruct (run_completed_at r) as [c|]; [|done]. exists c. split; [done|]. by apply Z.ltb_lt.
Qed.

Lemma terminal_expired d r :
  visited d → terminal_before queue cutoff r = true → expired now daemon_retention (d_tables d) r.
Proof.
  intros Hv (Hq & Ht & c & Hc & Hlt)%terminal_before_spec. split; [done|]. exists q, c. rewrite Hq. split_and!; try done.
  apply (visited_queue d Hv).
Qed.

Lemma elem_terminal_keys key t :
  key ∈ terminal_keys queue cutoff t ↔
  ∃ r, runs t !! key.2 = Some r ∧ terminal_before queue cutoff r = true ∧ key.1 = default 0 (run_completed_at r).
Proof.
  unfold terminal_keys. rewrite list_elem_of_fmap. split.
  - intros ([k r] & -> & Hin). apply elem_of_map_to_list, map_lookup_filter_Some in Hin as [? ?]. by exists r.
  - intros (r & Hr & Ht & Hc). exists (key.2, r). split; [destruct key; unfold terminal_key; by simplify_eq/=|].
    apply elem_of_map_to_list, map_lookup_filter_Some. done.
Qed.

(** Records go with the runs; nothing refers to the runs afterwards. *)
Lemma retire_runs_spec keys result d (Q : RetentionPurgeCounts → Durable → Prop) :
  visited d → (∀ key, key ∈ keys → ∃ r, runs (d_tables d) !! key.2 = Some r ∧ terminal_before queue cutoff r = true) →
  (∀ n d', erased now daemon_retention n d d' → (∀ key, key ∈ keys → unreferenced key.2 (d_side d')) →
     Q (add_counts result (records_only n)) d') →
  yields (fuel ≤ bound)%nat (retire_runs fuel keys result) d Q.
Proof.
  revert result d. induction keys as [|key keys IH]; intros result d Hv Hkeys HQ; cbn [retire_runs].
  { apply loop_ret. rewrite <- (add_counts_none result). apply (HQ O); [apply erased_none|]. by intros key ?%elem_of_nil. }
  assert (Hshort : (fuel ≤ size (idempotency (d_side d)))%nat → (fuel ≤ bound)%nat).
  { pose proof (visited_bound d Hv). lia. }
  apply loop_and_then. eapply loop_weaken, inspect_spec; [exact Hshort|]. intros summary Hs.
  apply loop_bind, does_ensure. intros Hpin%negb_true_iff. apply loop_and_then.
  destruct (Hkeys key) as (r & Hr & Ht); [by left|].
  eapply loop_weaken, (retire_spec fuel now daemon_retention); [exact Hshort|done| |].
  { intros k record [Hm Ho]%is_retiring_spec. left. cbn in Hm, Ho. rewrite Ho. split; [done|]. exists r. split; [done|]. by apply terminal_expired. }
  intros n d1 Hn Hnone. pose proof (erased_shrinks _ _ Hn) as Hsh.
  apply IH.
  - destruct Hv as [Hq Hb]. split; [by rewrite (erased_tables _ _ _ _ _ Hn)|].
    pose proof (map_subseteq_size _ _ (shrinks_records _ _ Hsh)). lia.
  - intros key' Hk'. rewrite (erased_tables _ _ _ _ _ Hn). apply Hkeys. by right.
  - intros m d' Hm Hun.
    replace (add_counts (add_records n result) (records_only m)) with (add_counts result (records_only (n + m)))
      by (unfold add_counts, add_records, records_only; cbn; f_equal; lia).
    apply HQ; [by eapply erased_trans|]. intros key' [->|Hin]%elem_of_cons; [|auto].
    eapply shrinks_unreferenced; [by eapply erased_shrinks|]. by eapply retired_unreferenced.
Qed.

(** Runs that are selected go; the others stay. *)
Record swept (ids : list bytes) (n : nat) (d d' : Durable) : Prop := {
  swept_purges : purges (runs_only n) d d';
  swept_side : d_side d' = d_side d;
  swept_queues : queues (d_tables d') = queues (d_tables d);
  swept_gone k r : runs (d_tables d') !! k = Some r → k ∈ ids → terminal_before queue cutoff r = false }.

Lemma visited_swept ids n d d' : visited d → swept ids n d d' → visited d'.
Proof. intros [Hq Hb] [_ Hs Hqs _]. split; by rewrite ?Hqs, ?Hs. Qed.

Lemma delete_chunk_spec ids d (Q : nat → Durable → Prop) :
  visited d → (∀ id, id ∈ ids → unreferenced id (d_side d)) → (∀ n d', swept ids n d d' → Q n d') →
  does (delete_terminal_chunk queue cutoff ids) d Q.
Proof.
  intros Hv Hun HQ. apply does_bind, does_query. unfold Datatypes.id.
  set (gone := dom _ : gset bytes). destruct d as [t x y]. cbn [d_tables] in *.
  assert (Hgone : ∀ k, k ∈ gone ↔ ∃ r, runs t !! k = Some r ∧ terminal_before queue cutoff r = true ∧ k ∈ ids).
  { intros k. unfold gone. rewrite elem_of_dom. split; [intros [r Hr%map_lookup_filter_Some]|intros (r & Hr)]; exists r; [done|].
    by apply map_lookup_filter_Some. }
  apply does_bind, (does_modify _ _ (mkDurable (without_runs gone t) (without_timing gone x) y)).
  { intros s [= <- <- <-]. done. }
  apply does_ret, HQ. split; [|done|done|].
  - refine (purges_step _ _ (RemovedRuns gone) _ _ _). apply removal_runs. intros k (r & Hr & Ht & Hin)%Hgone.
    split; [by apply Hun|]. exists r. split; [done|]. by apply (terminal_expired (mkDurable t x y)).
  - intros k r [Hr Hk]%map_lookup_filter_Some Hin. cbn in Hk. destruct (terminal_before queue cutoff r) eqn:E; [|done].
    destruct Hk. apply Hgone. eauto.
Qed.

Lemma delete_chunks_spec chunks ids deleted d (Q : nat → Durable → Prop) :
  visited d → (length ids ≤ chunks)%nat → (∀ id, id ∈ ids → unreferenced id (d_side d)) →
  (∀ n d', swept ids n d d' → Q (deleted + n)%nat d') →
  does (delete_chunks chunks queue cutoff ids deleted) d Q.
Proof.
  revert ids deleted d. induction chunks as [|chunks IH]; intros ids deleted d Hv Hlen Hun HQ.
  { destruct ids; [|cbn in Hlen; lia]. apply does_ret. replace deleted with (deleted + 0)%nat by lia. apply HQ.
    split; [apply purges_none|done..|]. by intros k r _ ?%elem_of_nil. }
  destruct ids as [|id ids].
  { apply does_ret. replace deleted with (deleted + 0)%nat by lia. apply HQ.
    split; [apply purges_none|done..|]. by intros k r _ ?%elem_of_nil. }
  set (all := id :: ids) in *. cbn [delete_chunks].
  apply does_bind, delete_chunk_spec; [done| |].
  { intros k Hk. apply Hun. apply elem_of_take in Hk as (i & Hi & _). by eapply list_elem_of_lookup_2. }
  intros n d1 Hn. apply IH; [by eapply visited_swept| | |].
  - rewrite length_drop. unfold all, kMaximumRunIdsPerDelete in *. cbn [length] in *. lia.
  - intros k Hk. rewrite (swept_side _ _ _ _ Hn). apply Hun. rewrite <- (take_drop kMaximumRunIdsPerDelete all).
    apply elem_of_app. by right.
  - intros m d' Hm. rewrite <- Nat.add_assoc. apply HQ. split.
    + exact (purges_trans _ _ _ _ _ _ _ (swept_purges _ _ _ _ Hn) (swept_purges _ _ _ _ Hm)).
    + by rewrite (swept_side _ _ _ _ Hm), (swept_side _ _ _ _ Hn).
    + by rewrite (swept_queues _ _ _ _ Hm), (swept_queues _ _ _ _ Hn).
    + intros k r Hr. rewrite <- (take_drop kMaximumRunIdsPerDelete all). intros [Hin|Hin]%elem_of_app.
      * eapply (swept_gone _ _ _ _ Hn); [|done]. eapply lookup_weaken; [exact Hr|].
        eapply shrinks_runs, purges_shrinks, (swept_purges _ _ _ _ Hm).
      * by eapply (swept_gone _ _ _ _ Hm).
Qed.

(** Nothing of the queue is expired. *)
Definition clear (d : Durable) : Prop := ∀ k r, runs (d_tables d) !! k = Some r → terminal_before queue cutoff r = false.

Definition history_purged (limit : nat) (result result' : RetentionPurgeCounts) (d d' : Durable) : Prop :=
  ∃ c, purges c d d' ∧ result' = add_counts result c ∧ (purged_runs result' ≤ limit)%nat ∧
    purged_jobs c = O ∧ purged_queues c = O ∧ ((purged_runs result' < limit)%nat → clear d').

Lemma keys_page_spec limit after t keys :
  (0 < limit)%nat → keys = page terminal_key_ltb limit after (terminal_keys queue cutoff t) →
  (length keys ≤ limit)%nat ∧
  (∀ key, key ∈ keys → ∃ r, runs t !! key.2 = Some r ∧ terminal_before queue cutoff r = true) ∧
  ∀ k r, runs t !! k = Some r → terminal_before queue cutoff r = true →
    beyond terminal_key_ltb after (terminal_key (k, r)) → k ∉ map snd keys →
    (limit ≤ length keys)%nat ∧ ∃ b, last keys = Some b ∧ beyond terminal_key_ltb (Some b) (terminal_key (k, r)).
Proof.
  intros Hl ->. split_and!.
  - unfold page. rewrite length_take. lia.
  - intros key [(r & ? & ? & _)%elem_terminal_keys _]%page_elem. eauto.
  - intros k r Hr Ht Ha Hk.
    assert (Hin : terminal_key (k, r) ∈ terminal_keys queue cutoff t) by (apply elem_terminal_keys; eauto).
    assert (Hnot : terminal_key (k, r) ∉ page terminal_key_ltb limit after (terminal_keys queue cutoff t)).
    { intros Hp. apply Hk. apply list_elem_of_fmap. by exists (terminal_key (k, r)). }
    split.
    + unfold page in *. rewrite length_take. destruct (Nat.le_gt_cases limit (length (List.filter
        (λ k, match after with Some c => terminal_key_ltb c k | None => true end) (sort_by terminal_key_ltb
          (terminal_keys queue cutoff t))))) as [|Hlt]; [lia|]. destruct Hnot. rewrite take_ge by lia.
      apply list_elem_of_In, List.filter_In. split; [by apply list_elem_of_In, sort_by_elem|]. by destruct after.
    + destruct (page_complete terminal_key_ltb limit after _ _ Hl Hin Ha) as [?|(b & Hb & [?|Heq])]; [done|by exists b|].
      destruct Hnot. rewrite <- Heq. by apply last_Some_elem_of.
Qed.

(** A page of runs, with their records. *)
Lemma purge_page_spec keys result d (k : RetentionPurgeCounts → ES Session (option RetentionPurgeCounts)) Q :
  visited d → keys ≠ [] →
  (∀ key, key ∈ keys → ∃ r, runs (d_tables d) !! key.2 = Some r ∧ terminal_before queue cutoff r = true) →
  (∀ n d', visited d' → purges (mkCounts (length keys) n 0 0) d d' →
     (∀ id r, runs (d_tables d') !! id = Some r → id ∈ map snd keys → terminal_before queue cutoff r = false) →
     yields (fuel ≤ bound)%nat (k (add_counts result (mkCounts (length keys) n 0 0))) d' Q) →
  yields (fuel ≤ bound)%nat
    (and_then (retire_runs fuel keys result) (λ result,
      count ← delete_selected_terminal queue cutoff (map snd keys);
      _ ← ensure (count =? length keys)%nat (invalid_relationship "terminal_run_delete_count");
      k (add_runs count result))) d Q.
Proof.
  intros Hv Hne Hrows Hk. apply loop_and_then, retire_runs_spec; [done..|]. intros n d1 Hn Hun.
  assert (Hv1 : visited d1).
  { destruct Hv as [Hq Hb]. split; [by rewrite (erased_tables _ _ _ _ _ Hn)|].
    pose proof (map_subseteq_size _ _ (shrinks_records _ _ (erased_shrinks _ _ Hn))). lia. }
  apply loop_bind. unfold delete_selected_terminal. rewrite bool_decide_false by by destruct keys.
  apply does_bind, does_ensure. intros _. apply delete_chunks_spec; [done|lia| |].
  { intros id Hid. apply list_elem_of_fmap in Hid as (key & -> & Hkey). auto. }
  intros m d2 Hm. apply loop_bind, does_ensure. intros Heq%Nat.eqb_eq. rewrite Nat.add_0_l in Heq. subst m.
  assert (Hc : mkCounts (length keys) n 0 0 = add_counts (records_only n) (runs_only (length keys)))
    by (unfold add_counts; cbn; f_equal; lia).
  replace (add_runs (0 + length keys) (add_counts result (records_only n)))
    with (add_counts result (mkCounts (length keys) n 0 0)) by (unfold add_counts, add_runs; cbn; f_equal; lia).
  apply Hk; [by eapply visited_swept| |apply (swept_gone _ _ _ _ Hm)].
  rewrite Hc. exact (purges_trans _ _ _ _ _ _ _ (erased_purges _ _ _ _ _ Hn) (swept_purges _ _ _ _ Hm)).
Qed.

Lemma purge_rounds_spec rounds limit after result d (Q : RetentionPurgeCounts → Durable → Prop) :
  visited d → (purged_runs result ≤ limit)%nat → (limit - purged_runs result < rounds)%nat →
  (∀ k r, runs (d_tables d) !! k = Some r → terminal_before queue cutoff r = true →
     beyond terminal_key_ltb after (terminal_key (k, r))) →
  (∀ result' d', history_purged limit result result' d d' → Q result' d') →
  yields (fuel ≤ bound)%nat (purge_rounds fuel rounds queue cutoff limit after result) d Q.
Proof.
  revert after result d. induction rounds as [|rounds IH]; intros after result d Hv Hle Hr Hahead HQ; [lia|].
  cbn [purge_rounds]. destruct (Nat.ltb_spec (purged_runs result) limit) as [Hlt|Hge]; cbn [negb].
  2: { apply loop_ret, HQ. exists no_counts. rewrite add_counts_none. split_and!; [apply purges_none|done..|lia]. }
  set (page_limit := Nat.min kRunPageSize (limit - purged_runs result)).
  assert (Hpos : (0 < page_limit)%nat) by (unfold page_limit, kRunPageSize; lia).
  apply loop_bind, does_bind, does_ensure. intros _. apply does_query.
  remember (page terminal_key_ltb page_limit after (terminal_keys queue cutoff (d_tables d))) as keys eqn:Hkeys.
  destruct (keys_page_spec _ _ _ _ Hpos Hkeys) as (Hlen & Hrows & Hrest). clear Hkeys.
  destruct (last keys) as [back|] eqn:Hback.
  2: { apply last_None in Hback as ->. apply loop_ret, HQ. exists no_counts.
       rewrite add_counts_none. split_and!; [apply purges_none|done..|]. intros _ k r Hk.
       destruct (terminal_before queue cutoff r) eqn:E; [|done].
       destruct (Hrest k r Hk E (Hahead k r Hk E)) as [_ (b & ? & _)]; [|done]. by intros ?%elem_of_nil. }
  apply (purge_page_spec keys result d (λ result, if (length keys <? page_limit)%nat then mret (Some result)
    else purge_rounds fuel rounds queue cutoff limit (Some back) result)); [done|by destruct keys|done|].
  intros n d2 Hv2 Hd2 Hgone.
  assert (Hold : ∀ k r, runs (d_tables d2) !! k = Some r → terminal_before queue cutoff r = true →
     (page_limit ≤ length keys)%nat ∧ beyond terminal_key_ltb (Some back) (terminal_key (k, r))).
  { intros k r Hk Ht. assert (Hk0 : runs (d_tables d) !! k = Some r).
    { eapply lookup_weaken; [exact Hk|]. by eapply shrinks_runs, purges_shrinks. }
    destruct (Hrest k r Hk0 Ht (Hahead k r Hk0 Ht)) as [? (b & Hb & Hbk)]; [|split; [done|by simplify_eq]].
    intros Hin. by rewrite (Hgone k r Hk Hin) in Ht. }
  assert (Hkl : (0 < length keys)%nat) by (destruct keys; [done|cbn; lia]).
  destruct (Nat.ltb_spec (length keys) page_limit) as [Hfew|Hfull].
  - apply loop_ret, HQ. exists (mkCounts (length keys) n 0 0). split_and!; try done; [cbn; lia|].
    intros _ k r Hk. destruct (terminal_before queue cutoff r) eqn:E; [|done]. destruct (Hold k r Hk E). lia.
  - apply IH; [done|cbn; lia..|intros k r Hk Ht; by apply Hold|].
    intros result' d' (c & Hc & -> & Hlim & Hj & Hqs & Hclear). apply HQ. exists (add_counts (mkCounts (length keys) n 0 0) c).
    split_and!; try done; [by eapply purges_trans|by rewrite add_counts_assoc].
Qed.

End History.

(** ** Owners *)

Section Owners.
Context `{Admission} `{!ReplayScopes} (fuel bound : nat).
Variables (now daemon_retention : Z).
Abbreviation purges := (purges now daemon_retention).

(** A candidate of a kind is still one. *)
Definition owner_candidate (kind : RetentionOwnerKind) (t : Tables) (id : bytes) : Prop :=
  match kind with
  | FinishedOnce => childless_job id t ∧ ∃ j, jobs t !! id = Some j ∧ is_once j = true ∧ is_terminal_job_state (job_state j) = true
  | DeletedJob => childless_job id t ∧ ∃ j, jobs t !! id = Some j ∧ job_state j = JobDeleted
  | DeletedQueue => childless_queue id t ∧ ∃ q, queues t !! id = Some q ∧ queue_state q = QueueDeleted
  end.

Lemma candidate_retirable kind t id k r :
  owner_candidate kind t id → is_retiring id (owner_method kind) (record_at k r) = true → retirable now daemon_retention t k r.
Proof.
  intros Hc [Hm Ho]%is_retiring_spec. cbn in Hm, Ho. unfold retirable. rewrite Hm, Ho. right.
  destruct kind; cbn in *; destruct Hc as [Hch (x & Hx & Hs)].
  - left. split_and!; [done..|]. exists x. tauto.
  - left. split_and!; [done..|]. exists x. tauto.
  - right. split_and!; [done..|]. by exists x.
Qed.

Lemma candidates_spec kind t x id : id ∈ candidates kind t x → owner_candidate kind t id.
Proof.
  intros Hin. destruct kind; apply list_elem_of_fmap in Hin as ([k v] & -> & Hin);
    apply elem_of_map_to_list, map_lookup_filter_Some in Hin as [Hk Hc]; cbn in Hc.
  - unfold candidate_job in Hc. cbn in Hc. rewrite !andb_true_iff in Hc. destruct Hc as [Hn [[? ?] _]].
    split; [by apply no_job_runs_spec|]. by exists v.
  - unfold candidate_job, is_deleted_job in Hc. cbn in Hc. rewrite !andb_true_iff, bool_decide_eq_true in Hc.
    destruct Hc as [? ?]. split; [by apply no_job_runs_spec|]. by exists v.
  - unfold candidate_queue, is_deleted_queue in Hc. cbn in Hc. rewrite !andb_true_iff, bool_decide_eq_true in Hc.
    destruct Hc as [? ?]. split; [by apply no_queue_owners_spec|]. by exists v.
Qed.

(** What one owner leaves behind: the records it retired, and its row. *)
Definition owner_purged (kind : RetentionOwnerKind) (id : bytes) (counts counts' : RetentionPurgeCounts) (d d' : Durable)
    : Prop :=
  ∃ c, purges c d d' ∧ counts' = add_counts counts c ∧ purged_runs c = O ∧
    (purged_jobs c + purged_queues c ≤ 1)%nat ∧
    (∀ k, k ≠ id → jobs (d_tables d') !! k = jobs (d_tables d) !! k ∧ queues (d_tables d') !! k = queues (d_tables d) !! k) ∧
    runs (d_tables d') = runs (d_tables d).

Lemma delete_owner_spec kind id d (Q : nat → Durable → Prop) :
  kind ≠ FinishedOnce →
  Q 0%nat d → (∀ d', purges (add_owner kind no_counts) d d' →
    (∀ k, k ≠ id → jobs (d_tables d') !! k = jobs (d_tables d) !! k ∧ queues (d_tables d') !! k = queues (d_tables d) !! k) →
    runs (d_tables d') = runs (d_tables d) → Q 1%nat d') →
  does (delete_owner kind id) d Q.
Proof.
  intros Hkind Hzero Hone. destruct d as [t x y]. destruct kind; [done|..]; cbn [delete_owner];
    apply does_bind, does_statement, does_bind, (does_gets _ d_tables); try done; cbn [d_tables];
    apply does_bind, (does_gets _ d_side); try done; cbn [d_side];
    match goal with |- does (if ?b then _ else _) _ _ => destruct b eqn:Hb end; try (by apply does_ret);
    rewrite !andb_true_iff, negb_true_iff in Hb.
  - destruct Hb as [[[Hj Hn] Hs%bool_decide_eq_true] Hr]. destruct (jobs t !! id) as [j|] eqn:Hid; [|done].
    apply does_bind, (does_modify _ _ (mkDurable (set_jobs (delete id (jobs t)) t) x y)); [by intros s [= <- <- <-]|].
    apply does_ret, Hone; [|intros k Hk; cbn; by rewrite lookup_delete_ne|done].
    refine (purges_step _ _ (RemovedJob id) _ _ _). eapply removal_job; [exact Hid|by apply bool_decide_eq_true in Hj| | |].
    + by apply no_job_runs_spec.
    + by apply has_references_spec.
    + by apply secret_rows_spec.
  - destruct Hb as [[Hq Hn] Hr]. destruct (queues t !! id) as [q|] eqn:Hid; [|done].
    apply does_bind, (does_modify _ _ (mkDurable (set_queues (delete id (queues t)) t) x y)); [by intros s [= <- <- <-]|].
    apply does_ret, Hone; [|intros k Hk; cbn; by rewrite lookup_delete_ne|done].
    refine (purges_step _ _ (RemovedQueue id) _ _ _). eapply removal_queue; [exact Hid|by apply bool_decide_eq_true in Hq| |].
    + by apply no_queue_owners_spec.
    + by apply has_references_spec.
Qed.

Definition manageable (d : Durable) : Prop := (size (idempotency (d_side d)) ≤ bound)%nat.

Lemma manageable_shrinks d d' : shrinks d d' → manageable d → manageable d'.
Proof. intros Hs Hb. pose proof (map_subseteq_size _ _ (shrinks_records _ _ Hs)). unfold manageable in *. lia. Qed.

Lemma erased_counts {n d d'} (counts : RetentionPurgeCounts) :
  erased now daemon_retention n d d' → purges (records_only n) d d' ∧ add_records n counts = add_counts counts (records_only n).
Proof. intros [Hp _]. split; [done|]. unfold add_counts, add_records. cbn. f_equal; lia. Qed.

Lemma purge_owner_spec kind id counts d (Q : RetentionPurgeCounts → Durable → Prop) :
  manageable d → owner_candidate kind (d_tables d) id →
  (∀ counts' d', owner_purged kind id counts counts' d d' → Q counts' d') →
  yields (fuel ≤ bound)%nat (purge_owner fuel kind id counts) d Q.
Proof.
  intros Hm Hc HQ. pose proof Hm as Hb. unfold manageable in Hb. unfold purge_owner.
  apply loop_bind, does_untouched; [destruct kind; cbn; unfold has_secret_references; untouched_solve|]. intros _.
  apply loop_and_then. eapply loop_weaken, inspect_spec; [lia|]. intros summary Hs.
  destruct (_ && _).
  { apply loop_ret, HQ. exists no_counts. rewrite add_counts_none. split_and!; [apply purges_none|done|done|cbn; lia|done..]. }
  apply loop_and_then. eapply loop_weaken, (retire_spec fuel now daemon_retention); [lia|done| |].
  { intros k r Hr. by eapply candidate_retirable. }
  intros n d1 Hn Hnone. destruct (erased_counts counts Hn) as [Hp ->]. pose proof (erased_tables _ _ _ _ _ Hn) as Ht.
  destruct (bool_decide (kind = FinishedOnce)) eqn:Hk; [apply bool_decide_eq_true in Hk|apply bool_decide_eq_false in Hk].
  - apply loop_ret, HQ. exists (records_only n). split_and!; [done|done|done|cbn; lia|by rewrite Ht..].
  - apply loop_bind, delete_owner_spec; [done|by apply loop_bind, does_ensure|]. intros d2 Hp2 Hother Hruns.
    apply loop_bind, does_ensure. intros _. apply loop_ret, HQ.
    exists (add_counts (records_only n) (add_owner kind no_counts)). rewrite Ht in *. split_and!; [by eapply purges_trans| |by destruct kind|by destruct kind; cbn; lia|done..].
    unfold add_counts, add_owner. destruct kind; cbn; f_equal; lia.
Qed.

Lemma candidate_kept kind id id' d d' counts counts' :
  id ≠ id' → owner_purged kind id counts counts' d d' → owner_candidate kind (d_tables d) id' → owner_candidate kind (d_tables d') id'.
Proof.
  intros Hne (c & Hc & _ & _ & _ & Hother & Hruns) Hcand. destruct (Hother id') as [Hj Hq]; [done|].
  unfold owner_candidate, childless_job, childless_queue in *. rewrite Hruns, Hj, Hq. destruct kind; [done..|].
  destruct Hcand as [[Hr Hjobs] ?]. split; [|done]. split; [done|]. intros k j Hk. eapply Hjobs, lookup_weaken; [exact Hk|].
  by eapply shrinks_jobs, purges_shrinks.
Qed.

(** Owners, each at most once. *)
Definition owners_purged (n : nat) (counts counts' : RetentionPurgeCounts) (d d' : Durable) : Prop :=
  ∃ c, purges c d d' ∧ counts' = add_counts counts c ∧ purged_runs c = O ∧ (purged_jobs c + purged_queues c ≤ n)%nat.

Lemma purge_owners_spec kind ids counts d (Q : RetentionPurgeCounts → Durable → Prop) :
  manageable d → NoDup ids → (∀ id, id ∈ ids → owner_candidate kind (d_tables d) id) →
  (∀ counts' d', owners_purged (length ids) counts counts' d d' → Q counts' d') →
  yields (fuel ≤ bound)%nat (purge_owners fuel kind ids counts) d Q.
Proof.
  revert counts d. induction ids as [|id ids IH]; intros counts d Hm Hnd Hc HQ; cbn [purge_owners].
  { apply loop_ret, HQ. exists no_counts. rewrite add_counts_none. split_and!; [apply purges_none|done|done|cbn; lia]. }
  apply NoDup_cons in Hnd as [Hnot Hnd]. apply loop_and_then, purge_owner_spec; [done|apply Hc; by left|].
  intros counts1 d1 Hp. apply IH; [|done| |].
  - destruct Hp as (c & Hp & _). by eapply manageable_shrinks; [eapply purges_shrinks|].
  - intros id' Hin. eapply candidate_kept; [|done|apply Hc; by right]. intros ->. done.
  - destruct Hp as (c & Hp & -> & Hr & Hn & _). intros counts' d' (c' & Hp' & -> & Hr' & Hn'). apply HQ.
    exists (add_counts c c'). split_and!; [by eapply purges_trans|by rewrite add_counts_assoc|cbn; lia|cbn; lia].
Qed.

End Owners.
