(* ===== verification/RetentionContract.v ===== *)
(** * What retention guarantees

    A batch refines the specification, fails without a trace and stays within
    its limit; a batch of history that is not full leaves nothing expired in
    its queue; a sweep comes to an end; removals keep the invariant of the
    store, the attempts that are under way and the owners of the idempotency
    records. *)

From stdpp Require Import base numbers strings list gmap sets.
From S2P Require Import Prelude Effects Values OutputCapture RetryPolicy CronEngine Domain ResourceNames StorageFailure Storage.
From S2P Require Import SchedulerRepository ManagementRepository RecoveryRepository Lifecycle Management ManagementOperations.
From S2P Require Import StoreLogic Completion Keyset ManagementLogic StoreInvariant RetentionRepository Retention RetentionSpec.
From S2P Require Import SchedulerStore RetentionRefinement.
Local Open Scope Z_scope.

(** ** A batch *)

Section Batch.
Context `{Admission} `{!ReplayScopes} (fuel bound : nat).
Variables (now daemon_retention : Z).
Abbreviation purges := (purges now daemon_retention).

(** Where the cursor goes: past a key, or to the next phase. *)
Inductive advances (t : Tables) : RetentionSweepCursor → RetentionSweepCursor → bool → Prop :=
  | advance_queue after id owner :
      is_Some (queues t !! id) → beyond bytes_ltb after id →
      advances t (mkCursor after HistoryPhase owner) (mkCursor (Some id) HistoryPhase owner) false
  | advance_to_once after owner : advances t (mkCursor after HistoryPhase owner) (mkCursor None OnceKeysPhase None) false
  | advance_once queue after id :
      is_Some (jobs t !! id) → beyond bytes_ltb after id →
      advances t (mkCursor queue OnceKeysPhase after) (mkCursor queue OnceKeysPhase (Some id)) false
  | advance_to_jobs queue after : advances t (mkCursor queue OnceKeysPhase after) (mkCursor queue DeletedJobsPhase None) false
  | advance_jobs queue after id :
      is_Some (jobs t !! id) → beyond bytes_ltb after id →
      advances t (mkCursor queue DeletedJobsPhase after) (mkCursor queue DeletedJobsPhase (Some id)) false
  | advance_to_queues queue after : advances t (mkCursor queue DeletedJobsPhase after) (mkCursor queue DeletedQueuesPhase None) false
  | advance_queues queue after id :
      is_Some (queues t !! id) → beyond bytes_ltb after id →
      advances t (mkCursor queue DeletedQueuesPhase after) (mkCursor queue DeletedQueuesPhase (Some id)) false
  | advance_end queue after : advances t (mkCursor queue DeletedQueuesPhase after) first_cursor true.

(** Nothing of a queue is expired. *)
Definition history_clear (queue : bytes) (t : Tables) : Prop :=
  ∀ k r, runs t !! k = Some r → run_queue r = queue → ¬ expired now daemon_retention t r.

Record batch_done (limit : nat) (cursor : RetentionSweepCursor) (b : RetentionBatchResult) (d d' : Durable) : Prop := {
  batch_purges : purges (purged b) d d';
  batch_limit : (purged_runs (purged b) + purged_jobs (purged b) + purged_queues (purged b) ≤ limit)%nat;
  batch_advances : advances (d_tables d) cursor (next_cursor b) (sweep_complete b);
  batch_clear queue : phase cursor = HistoryPhase → phase (next_cursor b) = HistoryPhase →
    after_queue (next_cursor b) = Some queue → (purged_runs (purged b) < limit)%nat → history_clear queue (d_tables d') }.

Lemma valid_limit_positive limit : valid_retention_limit limit = true → (0 < limit)%nat.
Proof. unfold valid_retention_limit. rewrite andb_true_iff, negb_true_iff, Nat.eqb_neq. lia. Qed.

Lemma candidate_present kind t id :
  owner_candidate kind t id → match kind with DeletedQueue => is_Some (queues t !! id) | _ => is_Some (jobs t !! id) end.
Proof. destruct kind; intros [_ (v & Hv & _)]; by exists v. Qed.

Lemma candidates_nodup kind t x : NoDup (candidates kind t x).
Proof. destruct kind; apply NoDup_fst_map_to_list. Qed.

Lemma purge_owner_page_spec kind limit cursor d (Q : RetentionBatchResult → Durable → Prop) :
  manageable bound d →
  (kind = match phase cursor with OnceKeysPhase => FinishedOnce | DeletedJobsPhase => DeletedJob | _ => DeletedQueue end) →
  phase cursor ≠ HistoryPhase →
  (∀ b d', batch_done limit cursor b d d' → Q b d') →
  yields (fuel ≤ bound)%nat (purge_owner_page fuel kind limit cursor) d Q.
Proof.
  intros Hm Hkind Hph HQ. unfold purge_owner_page.
  apply loop_bind, does_bind, does_ensure. intros Hl%valid_limit_positive. apply does_bind, does_statement.
  apply (does_gets _ (λ d, page bytes_ltb limit (after_owner cursor) (candidates kind (d_tables d) (d_side d)))); [done|].
  set (ids := page _ _ _ _).
  assert (Hids : ∀ id, id ∈ ids → owner_candidate kind (d_tables d) id ∧ beyond bytes_ltb (after_owner cursor) id).
  { intros id [Hin Hb]%page_elem. split; [by eapply candidates_spec|done]. }
  assert (Hlen : (length ids ≤ limit)%nat) by (unfold ids, page; rewrite length_take; lia).
  apply loop_and_then, (purge_owners_spec fuel bound now daemon_retention);
    [done|apply page_nodup, candidates_nodup|intros id Hin; by apply Hids|].
  intros counts' d' (c & Hp & -> & Hr & Hn).
  replace (add_counts no_counts c) with c by (by destruct c).
  assert (Hdone : ∀ next final, advances (d_tables d) cursor next final → batch_done limit cursor (mkBatch c next final) d d').
  { intros next final Ha. split; cbn; [done|lia|done|]. intros queue Hh. done. }
  destruct (Nat.eqb_spec (length ids) limit) as [Hfull|Hfew].
  - apply loop_ret, HQ, Hdone. destruct (last ids) as [back|] eqn:Hback.
    2: { apply last_None in Hback. rewrite Hback in Hfull. cbn in Hfull. lia. }
    destruct (Hids back) as [Hc%candidate_present Hb]; [by apply last_Some_elem_of|].
    destruct cursor as [queue ph after]. cbn in *. subst kind. destruct ph; [done|constructor; done..].
  - apply loop_bind, does_of_result. intros b Hb. apply loop_ret, HQ.
    destruct cursor as [queue ph after]. cbn in *. destruct ph; [done|injection Hb as <-; apply Hdone; constructor..].
Qed.

Lemma purge_history_spec policy limit d q (Q : RetentionPurgeCounts → Durable → Prop) :
  manageable bound d → queues (d_tables d) !! policy_id policy = Some q → policy_retention policy = history_retention q →
  (∀ c d', purges c d d' → (purged_runs c + purged_jobs c + purged_queues c ≤ limit)%nat →
     ((purged_runs c < limit)%nat → history_clear (policy_id policy) (d_tables d')) → Q c d') →
  yields (fuel ≤ bound)%nat (purge_queue_history fuel policy now daemon_retention limit) d Q.
Proof.
  intros Hb Hq Hpol HQ. unfold purge_queue_history. rewrite Hpol.
  set (retention := default daemon_retention (history_retention q)).
  assert (Hsame : ∀ c d' r, purges c d d' → run_queue r = policy_id policy → expired now daemon_retention (d_tables d') r →
    retention ≠ 0 ∧ terminal_before (policy_id policy) (retention_cutoff now retention) r = true).
  { intros c d' r Hp Hr (Ht & q' & c' & Hq' & Hc' & Hne & Hlt). rewrite Hr in Hq'.
    assert (q' = q) as ->.
    { eapply lookup_weaken in Hq'; [|by eapply shrinks_queues, purges_shrinks]. congruence. }
    split; [done|]. unfold terminal_before. rewrite Hr, Ht, Hc'. unfold bytes_eqb. rewrite bool_decide_true by done. cbn.
    by apply Z.ltb_lt. }
  destruct (Z.eqb_spec retention 0) as [Hz|Hnz].
  - apply loop_ret, HQ; [apply purges_none|cbn; lia|]. intros _ k r Hr Hrq He.
    by destruct (Hsame no_counts d r (purges_none _ _ d) Hrq He).
  - apply (purge_rounds_spec fuel bound now daemon_retention (policy_id policy) q Hnz); [by split|cbn; lia|cbn; lia|done|].
    intros result' d' (c & Hp & -> & Hlim & Hj & Hqs & Hclear).
    replace (add_counts no_counts c) with c in * by (by destruct c). apply HQ; [done|lia|].
    intros Hlt k r Hr Hrq He. destruct (Hsame c d' r Hp Hrq He) as [_ Ht]. unfold retention in Ht. by rewrite (Hclear Hlt k r Hr) in Ht.
Qed.

Lemma visit_phase_spec limit cursor d (Q : RetentionBatchResult → Durable → Prop) :
  manageable bound d → (∀ b d', batch_done limit cursor b d d' → Q b d') →
  yields (fuel ≤ bound)%nat (visit_phase fuel now daemon_retention limit cursor) d Q.
Proof.
  intros Hm HQ. unfold visit_phase. destruct (phase cursor) eqn:Hph; [|by apply purge_owner_page_spec; rewrite ?Hph..].
  apply loop_bind, does_bind, does_query. unfold Datatypes.id. set (ids := page _ _ _ _).
  assert (Hids : ∀ id, id ∈ ids → is_Some (queues (d_tables d) !! id) ∧ beyond bytes_ltb (after_queue cursor) id).
  { intros id [Hin Hb]%page_elem. split; [|done]. apply list_elem_of_fmap in Hin as ([k q] & -> & Hin).
    apply elem_of_map_to_list in Hin. by exists q. }
  destruct cursor as [after ph owner]. cbn in *. subst ph. destruct ids as [|queue ids'].
  - apply does_ret, loop_ret, HQ. split; cbn; [apply purges_none|lia|constructor|done].
  - destruct (Hids queue) as [[q Hq] Hb]; [by left|]. apply does_bind, does_ensure. intros _. apply does_ret.
    apply loop_and_then, (purge_history_spec _ _ _ q); [done|done|cbn; by rewrite Hq|]. intros c d' Hp Hlim Hclear.
    apply loop_ret, HQ. split; cbn; [done|done|by constructor; [eexists|]|]. intros queue' _ _ [= <-]. done.
Qed.

(** What comes of a batch. *)
Definition batch_outcome (limit : nat) (cursor : RetentionSweepCursor) (r : result Error (option RetentionBatchResult))
    (s s' : Session) : Prop :=
  match r with
  | success (Some b) => batch_done limit cursor b (durable s) (durable s')
  | success None => same_store s s' ∧ (fuel ≤ bound)%nat
  | failure _ => same_store s s'
  end.

Lemma purge_next_batch_spec limit cursor s r s' :
  manageable bound (durable s) → purge_next_batch fuel now daemon_retention limit cursor s = (r, s') →
  batch_outcome limit cursor r s s'.
Proof.
  intros Hm. unfold purge_next_batch, mbind, ES_bind, ensure, of_result.
  destruct (check (valid_retention_limit limit) _); [|by intros [= <- <-]].
  destruct (check (0 <=? daemon_retention) _); [|by intros [= <- <-]].
  destruct (check (negb _) _); [|by intros [= <- <-]].
  unfold on_error, purge_visit, transaction.
  destruct (statement s) as [[[]|e] s1] eqn:Hbegin; apply untouched_statement in Hbegin; [|by intros [= <- <-]].
  destruct (visit_phase _ _ _ _ _ s1) as [[o|e] s2] eqn:Hvisit; [|by intros [= <- <-]].
  assert (Hd1 : durable s1 = durable s) by (destruct Hbegin as [Ht Hx Hy]; unfold durable; by rewrite Ht, Hx, Hy).
  assert (Hs2 : match o with Some b => batch_done limit cursor b (durable s) (durable s2) | None => (fuel ≤ bound)%nat end).
  { exact (visit_phase_spec limit cursor (durable s) (λ b d', batch_done limit cursor b (durable s) d') Hm (λ _ _ Hb, Hb) s1 o s2 Hd1 Hvisit). }
  destruct (statement s2) as [[[]|e] s3] eqn:Hcommit; [|by intros [= <- <-]]. apply untouched_statement in Hcommit as [Ht Hx Hy].
  intros [= <- <-]. destruct o as [b|]; cbn; [|done].
  unfold durable at 2. by rewrite Ht, Hx, Hy.
Qed.

End Batch.

(** ** What removals keep *)

Section Invariants.
Variables (now daemon_retention : Z).
Abbreviation removal := (removal now daemon_retention).
Abbreviation removals := (removals now daemon_retention).

Lemma without_runs_runs ids t k r : runs (without_runs ids t) !! k = Some r ↔ runs t !! k = Some r ∧ k ∉ ids.
Proof. cbn. by rewrite map_lookup_filter_Some. Qed.

Lemma without_runs_attempts ids t k n :
  attempts (without_runs ids t) !! (k, n) = if decide (k ∈ ids) then None else attempts t !! (k, n).
Proof.
  cbn. destruct (decide (k ∈ ids)) as [Hk|Hk]; [apply map_lookup_filter_None; right; intros a _ Hn; by apply Hn|].
  destruct (attempts t !! (k, n)) as [a|] eqn:Ha; [by apply map_lookup_filter_Some|apply map_lookup_filter_None; by left].
Qed.

Lemma without_runs_wf ids t : wf t → wf (without_runs ids t).
Proof.
  intros W. assert (Hr : ∀ k r, runs (without_runs ids t) !! k = Some r → runs t !! k = Some r ∧ k ∉ ids)
    by (intros k r; by rewrite without_runs_runs).
  split; cbn [jobs queues without_runs].
  - intros k r [Hk _]%Hr. by apply (wf_run_key t W).
  - apply (wf_job_key t W).
  - apply (wf_queue_key t W).
  - intros [k n] a. rewrite without_runs_attempts. destruct (decide _); [done|]. apply (wf_attempt_key t W).
  - intros k r [Hk _]%Hr. by eapply wf_row.
  - intros k r [Hk _]%Hr. by eapply wf_origin.
  - intros k r [Hk _]%Hr. by eapply wf_owners.
  - intros k n. rewrite without_runs_attempts. destruct (decide _) as [|Hk]; [by intros [? ?]|].
    intros [r Hrk]%(wf_attempt_run t W). exists r. by apply without_runs_runs.
  - intros k. destruct (decide (k ∈ ids)) as [Hk|Hk].
    + split; [intros n [a Ha]|intros n _ [a Ha]]; pose proof (without_runs_attempts ids t k) as Hnone;
        rewrite Hnone, decide_True in Ha by done; discriminate.
    + eapply numbered_ext, (wf_numbered t W k). intros n. by rewrite without_runs_attempts, decide_False.
  - intros k r [Hk Hn]%Hr. eapply attempts_ext, (wf_attempts t W k r Hk). intros n. by rewrite without_runs_attempts, decide_False.
  - intros k1 k2 r1 r2 [Hk1 _]%Hr [Hk2 _]%Hr. by eapply wf_single.
  - intros k j Hj Ht. destruct (wf_finished t W k j Hj Ht) as [Ho Hlive]. split; [done|]. intros k' r [Hk _]%Hr. by eapply Hlive.
  - intros k r j [Hk _]%Hr. by eapply wf_home.
  - apply (wf_job_home t W).
Qed.

Lemma without_job_wf id t : childless_job id t → wf t → wf (set_jobs (delete id (jobs t)) t).
Proof.
  intros Hc W. assert (Hj : ∀ k j, delete id (jobs t) !! k = Some j → jobs t !! k = Some j)
    by (intros k j [_ ?]%lookup_delete_Some; done).
  split; cbn [jobs queues runs attempts set_jobs]; try apply W.
  - intros k j ?%Hj. by apply (wf_job_key t W).
  - intros k r Hr. destruct (wf_owners t W k r Hr) as [Hj' Hq]. split; [|done].
    rewrite lookup_delete_ne; [done|]. intros Heq. by eapply Hc.
  - intros k j ?%Hj. by apply (wf_finished t W).
  - intros k r j Hr Hl ?%Hj. by eapply (wf_home t W).
  - intros k j ?%Hj. by apply (wf_job_home t W k).
Qed.

Lemma without_queue_wf id t : childless_queue id t → wf t → wf (set_queues (delete id (queues t)) t).
Proof.
  intros [Hr Hj] W. split; cbn [jobs queues runs attempts set_queues]; try apply W.
  - intros k q [_ Hq]%lookup_delete_Some. by apply (wf_queue_key t W).
  - intros k r Hk. destruct (wf_owners t W k r Hk) as [Hj' Hq]. split; [done|].
    rewrite lookup_delete_ne; [done|]. intros Heq. by eapply Hr.
  - intros k j Hk. destruct (wf_job_home t W k j Hk) as (q & Hq & Hd). exists q. split; [|done].
    rewrite lookup_delete_ne; [done|]. intros Heq. by eapply Hj.
Qed.

Lemma removal_wf e d d' : wf (d_tables d) → removal e d d' → wf (d_tables d').
Proof.
  intros W Hr. destruct Hr as [ids t x y _|k r t x y _ _|id j t x y _ _ Hc _ _|id q t x y _ _ Hc _]; cbn in *.
  - by apply without_runs_wf.
  - done.
  - by apply without_job_wf.
  - by apply without_queue_wf.
Qed.

(** An attempt that is under way belongs to a run that is not finished. *)
Lemma running_live t k n r : wf t → running_in t k n → runs t !! k = Some r → is_terminal_run (run_state r) = false.
Proof.
  intros W (a & Ha & Hs) Hr. pose proof (wf_attempts t W k r Hr) as Hat.
  destruct (run_state r); cbn in *; try done; by rewrite (Hat _ _ Ha) in Hs.
Qed.

Lemma removal_running e d d' k n :
  wf (d_tables d) → removal e d d' → running_in (d_tables d') k n ↔ running_in (d_tables d) k n.
Proof.
  intros W Hr. destruct Hr as [ids t x y Hids|k' r t x y _ _|id j t x y _ _ Hc _ _|id q t x y _ _ Hc _]; cbn in *; try done.
  split; [intros (a & Ha & Hs)|intros Hrun; pose proof Hrun as (a & Ha & Hs)]; exists a; (split; [|done]).
  - by apply map_lookup_filter_Some in Ha as [Ha _].
  - apply map_lookup_filter_Some. split; [done|]. cbn. intros (_ & r & Hr & Ht & _)%Hids.
    by rewrite (running_live t k n r W Hrun Hr) in Ht.
Qed.

(** The resource and the scope of every record are there. *)
Definition anchored (d : Durable) : Prop :=
  ∀ k r, idempotency (d_side d) !! k = Some r →
    (k.1.1 = queue_method → is_Some (queues (d_tables d) !! resource_id r)) ∧
    (k.1.1 = job_method → is_Some (jobs (d_tables d) !! resource_id r) ∧ is_Some (queues (d_tables d) !! k.1.2)) ∧
    (k.1.1 = run_method → is_Some (runs (d_tables d) !! resource_id r) ∧ is_Some (jobs (d_tables d) !! k.1.2)).

Lemma removal_anchored e d d' : anchored d → removal e d d' → anchored d'.
Proof.
  intros Ha Hr. destruct Hr as [ids t x y Hids|k' r t x y _ _|id j t x y _ _ _ Hu _|id q t x y _ _ _ Hu]; intros k r' Hk; cbn in Hk |- *.
  - destruct (Ha k r' Hk) as (Hq & Hj & Hr). cbn in *. split_and!; [done..|]. intros [[run Hrun] ?]%Hr. split; [|done].
    exists run. apply without_runs_runs. split; [done|]. intros [Hu _]%Hids. by destruct (Hu k r' Hk).
  - apply lookup_delete_Some in Hk as [_ Hk]. exact (Ha k r' Hk).
  - destruct (Ha k r' Hk) as (Hq & Hj & Hr), (Hu k r' Hk) as [Hres Hscope]. cbn in *. rewrite !lookup_delete_ne by congruence. done.
  - destruct (Ha k r' Hk) as (Hq & Hj & Hr), (Hu k r' Hk) as [Hres Hscope]. cbn in *. rewrite !lookup_delete_ne by congruence. done.
Qed.

End Invariants.

(** ** The cutoff *)

(** Stored times are whole microseconds. *)
Definition stored_time (c : Z) : Prop := in_int64 c ∧ c mod 1000 = 0.

Lemma retention_cutoff_exact now retention :
  in_int64 now → 0 < retention <= int64_max →
  retention_cutoff now retention = 1000 * Z.max (ceil_ticks int64_min) (ceil_ticks now - retention * 1000000).
Proof.
  intros Hnow Hret. unfold retention_cutoff. unfold in_int64, int64_min, int64_max in *.
  change (ceil_ticks (- 2 ^ 63)) with (-9223372036854775). set (tick := ceil_ticks now).
  assert (Htick : -9223372036854775 <= tick <= 9223372036854776).
  { unfold tick, ceil_ticks. pose proof (Z.div_mod (- now) 1000 ltac:(lia)). pose proof (Z.mod_pos_bound (- now) 1000 ltac:(lia)). lia. }
  clearbody tick. rewrite <- Zminus_mod. rewrite (Z.mod_small (tick - -9223372036854775)) by lia.
  rewrite (Z.mod_small retention) by lia.
  assert (Hwrap : ∀ z, -9223372036854775 <= z <= 9223372036854775 → wrap_signed 64 (z * 1000) = z * 1000)
    by (intros z Hz; apply wrap_signed_id; lia).
  pose proof (Z.div_mod (tick - -9223372036854775) 1000000 ltac:(lia)).
  pose proof (Z.mod_pos_bound (tick - -9223372036854775) 1000000 ltac:(lia)).
  destruct (Z.ltb_spec ((tick - -9223372036854775) / 1000000) retention) as [Hlt|Hge].
  - rewrite Hwrap by lia. lia.
  - assert (Hsmall : 0 < retention * 1000000 <= tick - -9223372036854775) by lia.
    rewrite (Z.mod_small (retention * 1000000)) by lia. cbn [subtract_steps].
    destruct (Z.eqb_spec (retention * 1000000) 0) as [|_]; [lia|]. rewrite Z.min_l by (unfold int64_max; lia).
    rewrite Z.sub_diag. cbn [Z.eqb]. rewrite (wrap_signed_id 64 (tick - _)) by lia. rewrite Hwrap by lia. lia.
Qed.

(** The cutoff of a sweep is exact at the full width of the clock, in spite
    of its saturation and of its unsigned arithmetic: for every representable
    time and every positive retention, the stored completions that the
    statements select are exactly those that are older than the retention, and
    nothing overflows on the way. *)
Theorem retention_cutoff_selects now retention c :
  in_int64 now → 0 < retention <= int64_max → stored_time c →
  in_int64 (retention_cutoff now retention) ∧
  (c < ceil_us (retention_cutoff now retention) ↔ c + retention * 1000000000 < now).
Proof.
  intros Hnow Hret [Hc Hm]. rewrite retention_cutoff_exact by done.
  unfold ceil_us, ceil_ticks, in_int64, int64_min, int64_max in *.
  change (- (- - 2 ^ 63 / 1000)) with (-9223372036854775).
  pose proof (Z.div_mod (- now) 1000 ltac:(lia)). pose proof (Z.mod_pos_bound (- now) 1000 ltac:(lia)).
  set (m := Z.max _ _). replace (- (1000 * m)) with (- m * 1000) by lia. rewrite Z.div_mul by lia.
  pose proof (Z.div_mod c 1000 ltac:(lia)). unfold m. split; lia.
Qed.

(** ** Sweeps *)

Section Sweep.
Context `{Admission} `{!ReplayScopes} (fuel : nat).
Variables (now daemon_retention : Z) (limit : nat).

(** The batches of a sweep, one after the other, as the service asks for them. *)
Fixpoint sweep (batches : nat) (cursor : RetentionSweepCursor) (counts : RetentionPurgeCounts)
    : ES Session (option RetentionPurgeCounts) :=
  match batches with
  | O => mret None
  | S batches =>
      and_then (purge_next_batch fuel now daemon_retention limit cursor) (λ b,
        let counts := add_counts counts (purged b) in
        if sweep_complete b then mret (Some counts) else sweep batches (next_cursor b) counts)
  end.

Section Weight.
Variables (qs js : list bytes).

(** What is left to visit of the queues [qs] and the jobs [js]. *)
Definition ahead_of (after : option bytes) (keys : list bytes) : nat := length (List.filter (ahead bytes_ltb after) keys).
Definition weight (cursor : RetentionSweepCursor) : nat :=
  match phase cursor with
  | HistoryPhase => ahead_of (after_queue cursor) qs + 2 * length js + length qs + 3
  | OnceKeysPhase => ahead_of (after_owner cursor) js + length js + length qs + 2
  | DeletedJobsPhase => ahead_of (after_owner cursor) js + length qs + 1
  | DeletedQueuesPhase => ahead_of (after_owner cursor) qs
  end.

Lemma ahead_of_le after keys : (ahead_of after keys ≤ length keys)%nat.
Proof. unfold ahead_of. induction keys as [|k keys IH]; cbn; [lia|]. destruct (ahead _ after k); cbn; lia. Qed.

Lemma advances_weight t cursor next :
  (∀ k, is_Some (queues t !! k) → k ∈ qs) → (∀ k, is_Some (jobs t !! k) → k ∈ js) →
  advances t cursor next false → (weight next < weight cursor)%nat.
Proof.
  intros Hq Hj Ha. inversion Ha as [after id owner Hid Hb|after owner|queue after id Hid Hb|queue after|queue after id Hid Hb|queue after
    |queue after id Hid Hb|]; subst; unfold weight; cbn [phase after_queue after_owner];
    first [ pose proof (ahead_shorter bytes_ltb qs after id (Hq _ Hid) Hb); unfold ahead_of; lia
          | pose proof (ahead_shorter bytes_ltb js after id (Hj _ Hid) Hb); unfold ahead_of; lia
          | pose proof (ahead_of_le None js); pose proof (ahead_of_le None qs); lia ].
Qed.

End Weight.

Lemma sweep_bounded qs js batches cursor counts s v s' :
  (∀ k, is_Some (queues (tables s) !! k) → k ∈ qs) → (∀ k, is_Some (jobs (tables s) !! k) → k ∈ js) →
  (size (idempotency (side s)) < fuel)%nat → (weight qs js cursor < batches)%nat →
  sweep batches cursor counts s = (success v, s') →
  ∃ c, purges now daemon_retention c (durable s) (durable s') ∧ v = Some (add_counts counts c).
Proof.
  revert cursor counts s. induction batches as [|batches IH]; intros cursor counts s Hq Hj Hf Hw; [lia|].
  cbn [sweep]. unfold and_then, mbind, ES_bind.
  destruct (purge_next_batch _ _ _ _ _ s) as [[o|e] s1] eqn:Hs; [|done].
  apply (purge_next_batch_spec fuel (size (idempotency (side s)))) in Hs; [|unfold manageable; cbn; lia].
  destruct o as [b|]; cbn in Hs; [|lia]. destruct Hs as [Hp _ Ha _]. pose proof (purges_shrinks _ _ _ _ _ Hp) as Hsh.
  destruct (sweep_complete b) eqn:Hend; [intros [= <- <-]; by exists (purged b)|]. intros Hrest.
  destruct (IH (next_cursor b) (add_counts counts (purged b)) s1) as (c & Hc & ->); [..|done|].
  - intros k [q Hkq]. apply Hq. exists q. eapply lookup_weaken; [exact Hkq|]. apply (shrinks_queues _ _ Hsh).
  - intros k [j Hkj]. apply Hj. exists j. eapply lookup_weaken; [exact Hkj|]. apply (shrinks_jobs _ _ Hsh).
  - pose proof (map_subseteq_size _ _ (shrinks_records _ _ Hsh)) as Hsize. cbn in Hsize. lia.
  - pose proof (advances_weight qs js _ _ _ Hq Hj Ha). lia.
  - exists (add_counts (purged b) c). split; [by eapply purges_trans|by rewrite add_counts_assoc].
Qed.

End Sweep.

(** ** The contract *)

Section Contract.
Context `{Admission} `{!ReplayScopes} (fuel : nat).
Variables (now daemon_retention : Z) (limit : nat).


(** A visit of a queue that removes fewer runs than its limit leaves no
    expired run in the queue. *)
Theorem history_batch_clears cursor s b s' queue k r :
  purge_next_batch fuel now daemon_retention limit cursor s = (success (Some b), s') → phase cursor = HistoryPhase →
  phase (next_cursor b) = HistoryPhase → after_queue (next_cursor b) = Some queue → (purged_runs (purged b) < limit)%nat →
  runs (tables s') !! k = Some r → run_queue r = queue → ¬ expired now daemon_retention (tables s') r.
Proof.
  intros Hs Hph Hph' Hq Hlt Hk Hr. apply (purge_next_batch_spec fuel (size (idempotency (side s)))) in Hs;
    [|unfold manageable; cbn; lia].
  exact (batch_clear _ _ _ _ _ _ _ Hs queue Hph Hph' Hq Hlt k r Hk Hr).
Qed.

Lemma retention_batch_keeps cursor s r s' :
  wf (tables s) → purge_next_batch fuel now daemon_retention limit cursor s = (r, s') →
  wf (tables s') ∧ (∀ run n, running_in (tables s') run n ↔ running_in (tables s) run n) ∧
  (anchored (durable s) → anchored (durable s')).
Proof.
  intros W Hs. apply (purge_next_batch_spec fuel (size (idempotency (side s)))) in Hs; [|unfold manageable; cbn; lia].
  assert (Hsame : same_store s s' → tables s' = tables s ∧ durable s' = durable s)
    by (intros [Ht Hx Hy]; unfold durable; by rewrite Ht, Hx, Hy).
  destruct r as [[b|]|e]; cbn in Hs; [|destruct (Hsame (proj1 Hs)) as [-> ->]; done|destruct (Hsame Hs) as [-> ->]; done].
  destruct (batch_purges _ _ _ _ _ _ _ Hs) as (l & Hl & _).
  change (tables s) with (d_tables (durable s)) in *. change (tables s') with (d_tables (durable s')).
  clear Hs Hsame. induction Hl as [d|e l d d1 d' Hr _ IH]; [done|].
  destruct (IH (removal_wf _ _ _ _ _ W Hr)) as (W' & Hrun & Ha). split_and!; [done| |].
  - intros run n. rewrite Hrun. by eapply removal_running.
  - intros Han. eapply Ha, removal_anchored; done.
Qed.

(** C15.  Whatever comes of a batch, the store keeps its invariant, the attempts
    that are under way are the same, and no idempotency record loses the
    resource or the scope that it names. *)
Theorem retention_keeps cursor s r s' :
  wf (tables s) → purge_next_batch fuel now daemon_retention limit cursor s = (r, s') →
  wf (tables s') ∧ (∀ run n, running_in (tables s') run n ↔ running_in (tables s) run n) ∧
  (anchored (durable s) → anchored (durable s')).
Proof. apply retention_batch_keeps. Qed.

(** C17.  A sweep comes to an end: after at most two visits of every queue and
    every job and one for each phase it is complete, unless a statement fails or
    the stored data is inconsistent.  What a complete sweep removed is a
    sequence of permitted removals, and its counts are those of its batches. *)
Theorem sweep_terminates batches s r s' :
  (size (idempotency (side s)) < fuel)%nat →
  (2 * (size (queues (tables s)) + size (jobs (tables s))) + 3 < batches)%nat →
  sweep fuel now daemon_retention limit batches first_cursor no_counts s = (r, s') →
  r ≠ success None ∧
  ∀ c, r = success (Some c) → ∃ l, removals now daemon_retention l (durable s) (durable s') ∧ counts_of l = c.
Proof.
  intros Hf Hb Hs. set (qs := map fst (map_to_list (queues (tables s)))). set (js := map fst (map_to_list (jobs (tables s)))).
  assert (Hall : ∀ v, r = success v → ∃ c, purges now daemon_retention c (durable s) (durable s') ∧ v = Some c).
  { intros v ->.
    destruct (sweep_bounded fuel now daemon_retention limit qs js batches first_cursor no_counts s v s') as (c & Hc & ->);
      [| |done| |done|by exists c; destruct c].
    - intros k [q Hq]. apply list_elem_of_fmap. exists (k, q). split; [done|by apply elem_of_map_to_list].
    - intros k [j Hj]. apply list_elem_of_fmap. exists (k, j). split; [done|by apply elem_of_map_to_list].
    - unfold weight, first_cursor. cbn [phase after_queue]. pose proof (ahead_of_le None qs).
      assert (length qs = size (queues (tables s)) ∧ length js = size (jobs (tables s))) as [? ?]; [|lia].
      unfold qs, js. by rewrite !length_map, !length_map_to_list. }
  split; [by intros (c & _ & [=])%Hall|]. intros c (c' & Hc & [= ->])%Hall. exact Hc.
Qed.

End Contract.

(** ** An archive *)

Module Archive.
Import SchedulerStore.Sample.

Definition hour : Z := 60 * minute.

(** A manual run that completed in minute three, and its record. *)
Definition old_run : JobRun :=
  mkRun [3] [2] 1 [1] OriginManual false minute minute (Some minute) (Some (3 * minute)) Cli 0 ∅ JsonNull RunSucceeded None.
Definition recent_run : JobRun :=
  mkRun [4] [2] 1 [1] OriginManual false minute minute (Some minute) (Some (10 * hour)) Cli 0 ∅ JsonNull RunFailed None.
Definition kept_queue : Queue := mkQueueRow [1] 1 [113] QueueActive 1 1 RetryInterrupted ∅ (Some 3600) 0 0 0 None.
Definition gone_queue : Queue := mkQueueRow [9] 2 [114] QueueDeleted 1 1 RetryInterrupted ∅ None 0 0 0 (Some 0).
Definition done_job : JobDefinition := mkJob [2] [1] 1 None JobSucceeded Cli (Once minute) 0 ∅ JsonNull 0 0 None.
Definition gone_job : JobDefinition := mkJob [8] [1] 2 None JobDeleted Cli (Once minute) 0 ∅ JsonNull 0 0 (Some 0).

(** A codec that knows these documents. *)
#[export] Instance admission_archive : Admission := {|
  attribute_document _ _ _ _ := success [123; 125];
  validate_job_attributes _ _ := success tt;
  attribute_applies_to _ _ := true;
  materialize_attributes _ _ _ own := success own;
  normalize_submitted_job_payload _ payload := success payload;
  validate_payload_template _ _ := success [];
  encode_queue_request r := success (cq_name r); validate_queue_request _ := success tt;
  encode_queue_result q := success (row_queue_id q); decode_queue_result _ := success gone_queue;
  encode_job_request r _ := success (default [] (cj_name r)); validate_job_request _ := success tt;
  encode_job_result j := success (job_id j); decode_job_result _ := success gone_job;
  encode_run_request r := success (rn_job r); validate_run_request _ := success tt;
  encode_run_result r := success (run_id r); decode_run_result _ := success old_run;
  queue_to_json _ := success JsonNull; job_to_json _ := success JsonNull;
  poisoned _ := None; timing_origin _ := OriginOperation |}.
#[global] Instance scopes_archive : ReplayScopes := {|
  decode_job_scope text := success text; decode_run_scope text := success text |}.

Definition record (method scope resource : bytes) : IdempotencyRecord := mkRecord method scope [107] scope [123] resource 0 None.
Definition record_entry (method scope resource : bytes) : bytes * bytes * bytes * IdempotencyRecord :=
  (method, scope, [107], record method scope resource).

Definition attempt : JobAttempt :=
  mkAttempt [3] 1 minute (Some minute) (Some (3 * minute)) AttemptCompleted (Some Succeeded) None.
Definition archive : Session :=
  mkSession
    (mkTables {[ [1] := kept_queue; [9] := gone_queue ]} {[ [2] := done_job; [8] := gone_job ]}
       {[ [3] := old_run; [4] := recent_run ]} {[ ([3], 1) := attempt ]} {[ ([3], 1) := mkStoredOutput None None false false false ]})
    {[ [3] := mkTiming 0 Unmeasured None None false ]}
    (mkSide ∅ ∅ (list_to_map [record_entry run_method [2] [3]; record_entry job_method [1] [8]; record_entry queue_method nil_id [9]]))
    tt 0 0.

Definition batch (cursor : RetentionSweepCursor) : result Error (option RetentionBatchResult) * Session :=
  purge_next_batch 10 (11 * hour) 0 100 cursor archive.
Definition whole : result Error (option RetentionPurgeCounts) * Session :=
  sweep 10 (11 * hour) 0 100 20 first_cursor no_counts archive.

Definition first_batch : RetentionBatchResult := mkBatch (mkCounts 1 1 0 0) (mkCursor (Some [1]) HistoryPhase None) false.

Lemma first_batch_result : (batch first_cursor).1 = success (Some first_batch).
Proof. vm_compute. reflexivity. Qed.

Lemma first_batch_runs : purge_next_batch 10 (11 * hour) 0 100 first_cursor archive = (success (Some first_batch), (batch first_cursor).2).
Proof. rewrite <- first_batch_result. apply surjective_pairing. Qed.

Lemma retention_cutoff_selects_witness :
  in_int64 (retention_cutoff (11 * hour) 3600) ∧
  (3 * minute < ceil_us (retention_cutoff (11 * hour) 3600) ↔ 3 * minute + 3600 * 1000000000 < 11 * hour).
Proof.
  apply (retention_cutoff_selects (11 * hour) 3600 (3 * minute)); [split; vm_compute; (reflexivity || discriminate)..|].
  split; [split; vm_compute; discriminate|reflexivity].
Defined.


Lemma history_batch_clears_witness :
  runs (tables (batch first_cursor).2) !! [3] = None ∧ runs (tables (batch first_cursor).2) !! [4] = Some recent_run ∧
  ¬ expired (11 * hour) 0 (tables (batch first_cursor).2) recent_run.
Proof.
  assert (H4 : runs (tables (batch first_cursor).2) !! [4] = Some recent_run) by (vm_compute; reflexivity).
  split_and!; [vm_compute; reflexivity|done|].
  apply (history_batch_clears 10 (11 * hour) 0 100 first_cursor archive first_batch (batch first_cursor).2 [1] [4]);
    [apply first_batch_runs|reflexivity..|cbn; lia|exact H4|reflexivity].
Defined.

(** Over the store of the scheduler, whose run ended in minute three. *)
Definition later : result Error (option RetentionBatchResult) * Session :=
  purge_next_batch 10 (11 * hour) 60 100 first_cursor (session completed).

Lemma retention_keeps_witness :
  is_Some (runs (tables (session completed)) !! [3]) ∧ runs (tables later.2) !! [3] = None ∧ wf (tables later.2).
Proof.
  split_and!; [vm_compute; by eexists|vm_compute; reflexivity|].
  apply (retention_keeps 10 (11 * hour) 60 100 first_cursor (session completed) later.1 later.2); [|apply surjective_pairing].
  apply (step_consistent started); [apply started_completes|apply started_consistent].
Defined.

(** The sweep removes a run, the deleted job and the deleted queue with their
    three records. *)
Lemma whole_result : whole.1 = success (Some (mkCounts 1 3 1 1)).
Proof. vm_compute. reflexivity. Qed.

Lemma sweep_terminates_witness :
  whole.1 ≠ success None ∧
  ∃ l, removals (11 * hour) 0 l (durable archive) (durable whole.2) ∧ counts_of l = mkCounts 1 3 1 1.
Proof.
  destruct (sweep_terminates 10 (11 * hour) 0 100 20 archive whole.1 whole.2) as [Hne Hc];
    [vm_compute; lia|vm_compute; lia|apply surjective_pairing|].
  split; [exact Hne|]. apply Hc, whole_result.
Defined.

End Archive.
