(* ===== verification/RetentionService.v ===== *)
(** * The retention service

    [src/jobu/retention.cpp]: a timer runs one batch after another until the
    sweep is complete, then waits for the next sweep.  The receivers of its
    signals are called synchronously and may start, stop or destroy the
    service; an activation has an identity of its own, so that the callback of
    an old one does not touch the timer of a new one.  The first failure is
    announced once and is final. *)

From stdpp Require Import base numbers strings list gmap sets.
From S2P Require Import Prelude Effects Values OutputCapture RetryPolicy CronEngine Domain ResourceNames StorageFailure Storage.
From S2P Require Import SchedulerRepository ManagementRepository RecoveryRepository Lifecycle Management ManagementOperations.
From S2P Require Import StoreLogic Completion Keyset ManagementLogic StoreInvariant SchedulerStore RetentionRepository Retention.
From S2P Require Import RetentionSpec RetentionRefinement RetentionContract.
Local Open Scope Z_scope.

Record RetentionOptions := mkRetentionOptions {
  default_retention : Z;
  sweep_interval : Z;
  inter_batch_delay : Z;
  batch_size : nat }.

Definition invalid_service_options : Error :=
  mkError InvalidArgument "jobu.retention.invalid_options" "Retention policy, timer delays or batch size are invalid" "".
Definition event_loop_unavailable : Error :=
  mkError Unavailable "jobu.retention.event_loop_unavailable" "Retention requires a valid owner-thread event loop" "".
Definition counter_overflow : Error :=
  mkError Internal "jobu.retention.counter_overflow" "Retention sweep counts exceed their representable range" "".
Definition poisoned_error (last_error : option Error) : Error :=
  default (mkError Internal "db.connection_failed" "Database connection is unusable" "") last_error.

(** Durations in units of [unit] nanoseconds; [now] is the steady clock. *)
Definition valid_delay (unit delay now : Z) : bool :=
  negb ((delay <=? 0) || (int64_max / unit <? delay)) && (now <=? int64_max - delay * unit).

Definition nanoseconds_per_second : Z := 1000000000.
Definition nanoseconds_per_millisecond : Z := 1000000.

(** [failure_origin]. *)
Definition service_failure_origin (e : Error) : StorageFailureOrigin :=
  if bool_decide (code e = "jobu.retention.invalid_relationship") || String.prefix "jobu.storage." (code e)
  then OriginPersistedData else OriginOperation.

(** [add_counts], with the overflow of [size_t]. *)
Definition checked_counts (total batch : RetentionPurgeCounts) : option RetentionPurgeCounts :=
  let fits a b := Z.of_nat b <=? size_max - Z.of_nat a in
  if fits (purged_runs total) (purged_runs batch) && fits (purged_records total) (purged_records batch) &&
     fits (purged_jobs total) (purged_jobs batch) && fits (purged_queues total) (purged_queues batch)
  then Some (add_counts total batch) else None.

Inductive Signal :=
  | BatchCompleted (counts : RetentionPurgeCounts) | SweepCompleted (counts : RetentionPurgeCounts) | RetentionFailed (e : Error).

(** What a receiver may do to the service. *)
Inductive Action := ActStart | ActStop | ActDestroy.

(** The surroundings, by the number of questions asked before: whether the
    event loop can be used, the clocks, whether a started timer is active, and
    what the receivers of a signal do. *)
Class RetentionHost := {
  loop_valid : nat → bool;
  steady_now : nat → Z;
  utc_clock : nat → Z;
  timer_starts : nat → bool;
  reactions : nat → Signal → list Action }.

Record RetentionService `{Environment} := mkRetention {
  database : Session;
  timer : option Z;
  activation : option nat;
  activations : nat;
  sweep_now : option Z;
  cursor : RetentionSweepCursor;
  sweep_counts : RetentionPurgeCounts;
  latched : option Error;
  signals : list Signal;
  alive : bool;
  calls : nat }.
Arguments mkRetention {_}.
Arguments database {_}.
Arguments timer {_}.
Arguments activation {_}.
Arguments activations {_}.
Arguments sweep_now {_}.
Arguments cursor {_}.
Arguments sweep_counts {_}.
Arguments latched {_}.
Arguments signals {_}.
Arguments alive {_}.
Arguments calls {_}.

Section Service.
Context `{Admission} `{!ReplayScopes} `{!RetentionHost} (options : RetentionOptions).

Abbreviation M := (ES RetentionService).

Definition with_timer (x : option Z) (w : RetentionService) : RetentionService :=
  mkRetention (database w) x (activation w) (activations w) (sweep_now w) (cursor w) (sweep_counts w) (latched w) (signals w)
    (alive w) (calls w).
Definition with_database (s : Session) (w : RetentionService) : RetentionService :=
  mkRetention s (timer w) (activation w) (activations w) (sweep_now w) (cursor w) (sweep_counts w) (latched w) (signals w)
    (alive w) (calls w).
Definition with_sweep (now : option Z) (next : RetentionSweepCursor) (counts : RetentionPurgeCounts) (w : RetentionService)
    : RetentionService :=
  mkRetention (database w) (timer w) (activation w) (activations w) now next counts (latched w) (signals w) (alive w) (calls w).
Definition with_signal (x : Signal) (w : RetentionService) : RetentionService :=
  mkRetention (database w) (timer w) (activation w) (activations w) (sweep_now w) (cursor w) (sweep_counts w) (latched w)
    (signals w ++ [x]) (alive w) (calls w).
(** A new [Activation]. *)
Definition activated (w : RetentionService) : RetentionService :=
  mkRetention (database w) (timer w) (Some (activations w)) (S (activations w)) (sweep_now w) (cursor w) (sweep_counts w)
    (latched w) (signals w) (alive w) (calls w).
Definition with_failure (e : Error) (w : RetentionService) : RetentionService :=
  mkRetention (database w) (timer w) (activation w) (activations w) (sweep_now w) (cursor w) (sweep_counts w) (Some e) (signals w)
    (alive w) (calls w).

(** A question to the surroundings. *)
Definition ask {A} (f : nat → A) : M A := λ w,
  (success (f (calls w)),
   mkRetention (database w) (timer w) (activation w) (activations w) (sweep_now w) (cursor w) (sweep_counts w) (latched w)
     (signals w) (alive w) (S (calls w))).

Definition insist (b : bool) (e : Error) : M unit := of_result (check b e).
Definition outcome {A} (m : M A) : M (result Error A) := λ w, let '(r, w) := m w in (success r, w).

Definition arm_timer (delay : Z) : M unit :=
  valid ← ask loop_valid;
  _ ← insist valid event_loop_unavailable;
  now ← ask steady_now;
  _ ← insist (negb (int64_max - delay <? now)) invalid_service_options;
  active ← ask timer_starts;
  _ ← modify (with_timer (if active then Some delay else None));
  insist active event_loop_unavailable.

Definition start : M unit :=
  failed ← gets latched;
  _ ← match failed with Some e => throw e | None => mret tt end;
  now ← ask steady_now;
  now' ← ask steady_now;
  _ ← insist (negb ((default_retention options <? 0) || negb (valid_delay nanoseconds_per_second (sweep_interval options) now) ||
                    negb (valid_delay nanoseconds_per_millisecond (inter_batch_delay options) now') ||
                    (batch_size options <? 1)%nat || (1000 <? batch_size options)%nat)) invalid_service_options;
  valid ← ask loop_valid;
  _ ← insist valid event_loop_unavailable;
  current ← gets activation;
  match current with
  | Some _ => mret tt
  | None => _ ← arm_timer (inter_batch_delay options * nanoseconds_per_millisecond); modify activated
  end.

Definition stopped (w : RetentionService) : RetentionService :=
  mkRetention (database w) None None (activations w) None first_cursor no_counts (latched w) (signals w) (alive w) (calls w).
Definition stop : M unit := modify stopped.

(** The destructor. *)
Definition destroyed (w : RetentionService) : RetentionService :=
  mkRetention (database w) None None (activations w) None first_cursor no_counts (latched w) (signals w) false (calls w).

(** ** Signals *)

Definition act (action : Action) : M unit :=
  match action with
  | ActStart => _ ← outcome start; mret tt
  | ActStop => stop
  | ActDestroy => modify destroyed
  end.

(** A service that is gone is not acted upon. *)
Fixpoint act_all (actions : list Action) : M unit :=
  match actions with
  | [] => mret tt
  | action :: actions =>
      there ← gets alive;
      if (there : bool) then _ ← act action; act_all actions else mret tt
  end.

Definition emit (x : Signal) : M unit :=
  _ ← modify (with_signal x);
  actions ← ask (λ n, reactions n x);
  act_all actions.

Definition fail (e : Error) : M unit :=
  failed ← gets latched;
  match failed with
  | Some _ => mret tt
  | None =>
      let e := sanitized_storage_error e OpMutation (service_failure_origin e) in
      _ ← modify (with_failure e);
      _ ← stop;
      emit (RetentionFailed e)
  end.

(** ** Batches *)

(** Enough for the pages of the records; see [retention_batch_refines]. *)
Definition enough (s : Session) : nat := S (size (idempotency (side s))).

Definition run_batch (now : Z) : M (result Error (option RetentionBatchResult)) := λ w,
  let '(r, s) := purge_next_batch (enough (database w)) now (default_retention options) (batch_size options) (cursor w) (database w) in
  (success r, with_database s w).

(** The service is there and the activation is the one of the callback. *)
Definition continues (current : nat) : M bool := gets (λ w, alive w && bool_decide (activation w = Some current)).

Definition rearm (complete : bool) : M unit :=
  armed ← outcome (arm_timer (if complete then sweep_interval options * nanoseconds_per_second
                              else inter_batch_delay options * nanoseconds_per_millisecond));
  match armed with failure e => fail e | success _ => mret tt end.

Definition accept_batch (current : nat) (now : Z) (b : RetentionBatchResult) : M unit :=
  total ← gets sweep_counts;
  match checked_counts total (purged b) with
  | None => fail counter_overflow
  | Some total =>
      _ ← modify (if sweep_complete b then with_sweep None (next_cursor b) no_counts else with_sweep (Some now) (next_cursor b) total);
      _ ← emit (BatchCompleted (purged b));
      going ← continues current;
      if negb going then mret tt
      else if sweep_complete b then
        _ ← emit (SweepCompleted total);
        going ← continues current;
        if negb going then mret tt else rearm true
      else rearm false
  end.

Definition reported (result : result Error (option RetentionBatchResult)) (last_error : option Error) : Error :=
  match result with
  | failure e =>
      match classify_storage_failure e OpMutation (service_failure_origin e) with Fatal => e | _ => poisoned_error last_error end
  | success _ => poisoned_error last_error
  end.

Definition process_batch : M unit :=
  active ← gets activation;
  match active with
  | None => mret tt
  | Some current =>
      s ← gets database;
      match poisoned (statements s) with
      | Some last_error => fail (poisoned_error last_error)
      | None =>
          begun ← gets sweep_now;
          now ← match begun with Some t => mret t | None => ask utc_clock end;
          _ ← modify (λ w, with_sweep (Some now) (cursor w) (sweep_counts w) w);
          result ← run_batch now;
          s ← gets database;
          match poisoned (statements s) with
          | Some last_error => fail (reported result last_error)
          | None =>
              match result with
              | failure e => fail e
              | success (Some b) => accept_batch current now b
              | success None => mret tt
              end
          end
      end
  end.

(** ** Events *)

(** A new service. *)
Definition fresh (s : Session) : RetentionService :=
  mkRetention s None None 0 None first_cursor no_counts None [] true 0.

(** What happens to a service: calls of its owner, its timer, and the work of
    others on the database. *)
Inductive happens (w : RetentionService) : RetentionService → Prop :=
  | happens_start r w' : alive w = true → start w = (r, w') → happens w w'
  | happens_stop : alive w = true → happens w (stopped w)
  | happens_destroy : alive w = true → happens w (destroyed w)
  | happens_timeout r w' : is_Some (timer w) → process_batch (with_timer None w) = (r, w') → happens w w'
  | happens_elsewhere s : happens w (with_database s w).

End Service.

(** ** What is always so *)

Definition failures (l : list Signal) : list Error := omap (λ x, match x with RetentionFailed e => Some e | _ => None end) l.

Section Lives.
Context `{Admission} `{!ReplayScopes} `{!RetentionHost} (options : RetentionOptions).

Abbreviation M := (ES RetentionService).

Record lives (w : RetentionService) : Prop := {
  lives_failed : is_Some (latched w) → activation w = None;
  lives_idle : activation w = None → sweep_now w = None ∧ cursor w = first_cursor ∧ sweep_counts w = no_counts;
  lives_fresh a : activation w = Some a → (a < activations w)%nat;
  lives_gone : alive w = false → activation w = None;
  lives_announced : failures (signals w) = option_list (latched w) }.

(** The timer runs exactly while the service is active. *)
Definition armed (w : RetentionService) : Prop := is_Some (activation w) ↔ is_Some (timer w).

(** During the callback of an activation: its timer has fired, or it is over. *)
Definition firing (current : nat) (w : RetentionService) : Prop :=
  (current < activations w)%nat ∧
  (activation w = Some current ∧ timer w = None ∨ activation w ≠ Some current ∧ armed w).

(** A service that differs in the number of questions only. *)
Definition asked (n : nat) (w : RetentionService) : RetentionService :=
  mkRetention (database w) (timer w) (activation w) (activations w) (sweep_now w) (cursor w) (sweep_counts w) (latched w)
    (signals w) (alive w) n.

Lemma asked_same w : asked (calls w) w = w.
Proof. by destruct w. Qed.

Lemma ask_asked {A} (f : nat → A) w : ask f w = (success (f (calls w)), asked (S (calls w)) w).
Proof. done. Qed.
Lemma asked_asked n m w : asked n (asked m w) = asked n w.
Proof. done. Qed.

Inductive arm_result (delay : Z) (w : RetentionService) : result Error unit → RetentionService → Prop :=
  | arm_unasked e n : arm_result delay w (failure e) (asked n w)
  | arm_refused e n : arm_result delay w (failure e) (with_timer None (asked n w))
  | arm_done n : arm_result delay w (success tt) (with_timer (Some delay) (asked n w)).

Lemma arm_timer_spec delay w r w' : arm_timer delay w = (r, w') → arm_result delay w r w'.
Proof.
  unfold arm_timer, mbind, ES_bind, ask, insist, of_result, check. cbn.
  destruct (loop_valid _); [|intros [= <- <-]; apply arm_unasked]. cbn.
  destruct (negb _); [|intros [= <- <-]; apply (arm_unasked _ _ _ (S (S (calls w))))]. cbn.
  destruct (timer_starts _); intros [= <- <-]; [apply (arm_done _ _ (S (S (S (calls w)))))|apply (arm_refused _ _ _ (S (S (S (calls w)))))].
Qed.

Inductive start_result (w : RetentionService) : result Error unit → RetentionService → Prop :=
  | start_same r n : start_result w r (asked n w)
  | start_refused e n : activation w = None → start_result w (failure e) (with_timer None (asked n w))
  | start_done delay n :
      activation w = None → latched w = None → start_result w (success tt) (activated (with_timer (Some delay) (asked n w))).

Lemma start_spec w r w' : start options w = (r, w') → start_result w r w'.
Proof.
  unfold start, mbind, ES_bind, gets, insist, of_result.
  destruct (latched w) as [e|] eqn:Hl; [intros [= <- <-]; rewrite <- (asked_same w) at 2; apply start_same|].
  cbn [mret ES_ret]. rewrite ask_asked, ask_asked, asked_asked. destruct (check (negb _) _); [|intros [= <- <-]; apply start_same].
  rewrite ask_asked, asked_asked. destruct (check (loop_valid _) _); [|intros [= <- <-]; apply start_same].
  change (activation (asked _ w)) with (activation w).
  destruct (activation w) as [a|] eqn:Ha; [intros [= <- <-]; apply start_same|].
  destruct (arm_timer _ _) as [x w1] eqn:Hx. apply arm_timer_spec in Hx.
  destruct Hx as [e n|e n|n]; intros [= <- <-]; [apply (start_same w _ n)|by apply (start_refused w _ n)|by apply (start_done w _ n)].
Qed.

(** *** Calls of the owner *)

Lemma lives_stopped w : lives w → lives (stopped w) ∧ armed (stopped w).
Proof. intros []. split; [split; done|]. split; by intros [? ?]. Qed.

Lemma lives_destroyed w : lives w → lives (destroyed w) ∧ armed (destroyed w).
Proof. intros []. split; [split; done|]. split; by intros [? ?]. Qed.

Lemma lives_started w r w' : start_result w r w' → alive w = true → lives w → lives w'.
Proof.
  intros Hr Hal [Hf Hi Hfr Hg Ha]. destruct Hr as [r n|e n Hn|delay n Hn Hl]; [by split|by split|].
  split; cbn; [rewrite Hl; by intros [? ?]|done|intros a [=]; lia|by rewrite Hal|done].
Qed.

Lemma start_armed w r w' : start_result w r w' → armed w → armed w'.
Proof.
  intros Hr Ha. destruct Hr as [r n|e n Hn|delay n Hn _]; [done| |].
  - unfold armed. cbn. rewrite Hn. split; by intros [? ?].
  - unfold armed. cbn. split; intros _; by eexists.
Qed.

Lemma start_firing c w r w' : start_result w r w' → firing c w → firing c w'.
Proof.
  intros Hr [Hc Hor]. pose proof (start_armed _ _ _ Hr) as Harm. destruct Hr as [r n|e n Hn|delay n Hn Hl]; [done| |].
  - split; [done|]. right. cbn. rewrite Hn in *. split; [done|]. destruct Hor as [[? _]|[_ Ha]]; [done|by apply Harm].
  - split; [cbn; lia|]. right. split; [cbn; intros [=]; lia|]. destruct Hor as [[? _]|[_ Ha]]; [congruence|by apply Harm].
Qed.

(** *** Receivers *)

(** A condition that stops, destructions and starts keep. *)
Record robust (P : RetentionService → Prop) : Prop := {
  robust_stop w : P w → P (stopped w);
  robust_destroy w : P w → P (destroyed w);
  robust_asked n w : P w → P (asked n w);
  robust_start w r w' : start_result w r w' → alive w = true → P w → P w' }.

Lemma robust_armed : robust (λ w, lives w ∧ armed w).
Proof.
  split.
  - intros w [Hl _]. by apply lives_stopped.
  - intros w [Hl _]. by apply lives_destroyed.
  - intros n w [[] ?]. by split; [split|].
  - intros w r w' Hr Hal [Hl Ha]. split; [by eapply lives_started|by eapply start_armed].
Qed.

Lemma robust_firing c : robust (λ w, lives w ∧ firing c w).
Proof.
  split.
  - intros w [Hl [Hc _]]. destruct (lives_stopped w Hl) as [Hl' Ha]. split; [done|]. split; [done|]. by right.
  - intros w [Hl [Hc _]]. destruct (lives_destroyed w Hl) as [Hl' Ha]. split; [done|]. split; [done|]. by right.
  - intros n w [[] ?]. by split; [split|].
  - intros w r w' Hr Hal [Hl Hf]. split; [by eapply lives_started|by eapply start_firing].
Qed.

Lemma act_robust P action w r w' : robust P → alive w = true → P w → act options action w = (r, w') → P w'.
Proof.
  intros HP Hal Hw. destruct action; cbn [act].
  - unfold mbind, ES_bind, outcome. destruct (start options w) as [x w1] eqn:Hs. intros [= <- <-].
    apply start_spec in Hs. by eapply robust_start.
  - intros [= <- <-]. by apply robust_stop.
  - intros [= <- <-]. by apply robust_destroy.
Qed.

Lemma act_all_robust P actions w r w' : robust P → P w → act_all options actions w = (r, w') → P w'.
Proof.
  intros HP. revert w. induction actions as [|action actions IH]; intros w Hw; cbn [act_all]; [by intros [= <- <-]|].
  unfold mbind, ES_bind, gets. destruct (alive w) eqn:Hal; [|by intros [= <- <-]].
  destruct (act options action w) as [[u|e] w1] eqn:Ha; (apply (act_robust P) in Ha; [|done..]).
  - by apply IH.
  - by intros [= <- <-].
Qed.

Lemma emit_robust P x w r w' : robust P → P (with_signal x w) → emit options x w = (r, w') → P w'.
Proof.
  intros HP Hw. unfold emit, mbind, ES_bind, modify. rewrite ask_asked. apply act_all_robust; [done|]. by apply robust_asked.
Qed.

Lemma emit_succeeds x w r w' : emit options x w = (r, w') → r = success tt.
Proof.
  unfold emit, mbind, ES_bind, modify. rewrite ask_asked. generalize (asked (S (calls (with_signal x w))) (with_signal x w)).
  induction (reactions _ _) as [|action actions IH]; intros w1; cbn [act_all]; [by intros [= <- _]|].
  unfold mbind, ES_bind, gets. destruct (alive w1); [|by intros [= <- _]].
  destruct action; cbn [act]; unfold mbind, ES_bind, outcome, stop, modify; [destruct (start options w1)|..]; apply IH.
Qed.

(** *** Failures *)

Lemma fail_lives e w r w' : lives w → latched w = None → fail options e w = (r, w') → lives w' ∧ armed w'.
Proof.
  intros [Hf Hi Hfr Hg Ha] Hl. unfold fail, mbind, ES_bind, gets, modify, stop. rewrite Hl.
  apply (emit_robust (λ w, lives w ∧ armed w)); [apply robust_armed|].
  split; [|split; by intros [? ?]]. split; cbn; [done..|].
  unfold failures in *. rewrite omap_app, Ha, Hl. done.
Qed.

Lemma active_unfailed c w : lives w → activation w = Some c → latched w = None.
Proof. intros Hl Ha. destruct (latched w) as [e|] eqn:E; [|done]. by rewrite (lives_failed w Hl ltac:(rewrite E; by eexists)) in Ha. Qed.

(** *** The callback *)

Lemma rearm_lives c complete w r w' :
  lives w → activation w = Some c → rearm options complete w = (r, w') → lives w' ∧ armed w'.
Proof.
  intros Hl Ha. unfold rearm, mbind, ES_bind, outcome. destruct (arm_timer _ w) as [x w1] eqn:Hx. apply arm_timer_spec in Hx.
  pose proof (active_unfailed c w Hl Ha) as Hn. destruct Hl as [Hf Hi Hfr Hg Hs].
  destruct Hx as [e n|e n|n].
  - apply fail_lives; [by split|done].
  - apply fail_lives; [by split|done].
  - intros [= <- <-]. split; [by split|]. unfold armed. cbn. rewrite Ha. split; by eexists.
Qed.

Lemma continues_spec c w b w' :
  lives w → firing c w → continues c w = (b, w') → w' = w ∧ ∃ going : bool, b = success going ∧
    if going then activation w = Some c else armed w.
Proof.
  intros Hl [_ Hor] [= <- <-]. split; [done|]. eexists. split; [done|].
  destruct (bool_decide_reflect (activation w = Some c)) as [Ha|Hna].
  - destruct (alive w) eqn:E; cbn; [done|]. by rewrite (lives_gone w Hl E) in Ha.
  - rewrite andb_false_r. tauto.
Qed.

Lemma accept_batch_lives c now b w r w' :
  lives w → activation w = Some c → timer w = None → accept_batch options c now b w = (r, w') → lives w' ∧ armed w'.
Proof.
  intros Hl Ha Ht. pose proof (active_unfailed c w Hl Ha) as Hn. unfold accept_batch, mbind, ES_bind, gets, modify.
  destruct (checked_counts _ _) as [total|]; [|by apply fail_lives].
  set (w1 := (if sweep_complete b then _ else _) w).
  assert (Hw1 : ∀ x, (∀ e, x ≠ RetentionFailed e) → lives (with_signal x w1) ∧ firing c (with_signal x w1)).
  { intros x Hx. destruct Hl as [Hf Hi Hfr Hg Hs]. unfold w1. destruct (sweep_complete b); (split; [split|split]); cbn; try done;
      try (by rewrite Ha); try (by left); try (by apply Hfr); unfold failures in *; rewrite omap_app, Hs; destruct x; cbn; by rewrite ?app_nil_r || destruct (Hx e). }
  destruct (emit options (BatchCompleted _) w1) as [x w2] eqn:He. pose proof (emit_succeeds _ _ _ _ He) as ->.
  apply (emit_robust (λ w, lives w ∧ firing c w)) in He as [Hl2 Hf2]; [|apply robust_firing|by apply Hw1].
  destruct (continues c w2) as [y w2'] eqn:Hc. apply continues_spec in Hc as [-> (going & -> & Hg)]; [|done..].
  destruct going; cbn [negb]; [|by intros [= <- <-]].
  destruct (sweep_complete b); [|by eapply rearm_lives].
  assert (Hw2 : lives (with_signal (SweepCompleted total) w2) ∧ firing c (with_signal (SweepCompleted total) w2)).
  { destruct Hl2 as [Hf Hi Hfr Hgo Hs]. split; [|done]. split; cbn; [done..|]. unfold failures in *. rewrite omap_app, Hs. cbn. by rewrite app_nil_r. }
  destruct (emit options (SweepCompleted total) w2) as [z w3] eqn:He. pose proof (emit_succeeds _ _ _ _ He) as ->.
  apply (emit_robust (λ w, lives w ∧ firing c w)) in He as [Hl3 Hf3]; [|apply robust_firing|done].
  destruct (continues c w3) as [y w3'] eqn:Hc. apply continues_spec in Hc as [-> (going & -> & Hg3)]; [|done..].
  destruct going; cbn [negb]; [by eapply rearm_lives|by intros [= <- <-]].
Qed.

(** The fuel of a batch is enough. *)
Lemma run_batch_returns now w r w' :
  run_batch options now w = (r, w') → (∃ s, w' = with_database s w) ∧ r ≠ success (success None).
Proof.
  unfold run_batch. destruct (purge_next_batch _ _ _ _ _ _) as [x s] eqn:Hs. intros [= <- <-]. split; [by eexists|].
  apply (purge_next_batch_spec _ (size (idempotency (side (database w))))) in Hs; [|unfold manageable; cbn; lia].
  intros [= ->]. cbn in Hs. unfold enough in Hs. lia.
Qed.

Lemma process_batch_lives w r w' : lives w → timer w = None → process_batch options w = (r, w') → lives w' ∧ armed w'.
Proof.
  intros Hl Ht. unfold process_batch, mbind, ES_bind, gets. destruct (activation w) as [c|] eqn:Ha.
  2: { intros [= <- <-]. split; [done|]. unfold armed. by rewrite Ha, Ht. }
  pose proof (active_unfailed c w Hl Ha) as Hn. destruct (poisoned _) as [last|]; [by apply fail_lives|].
  set (begun := match sweep_now w with Some t => mret t | None => _ end).
  assert (Hb : ∃ now n, begun w = (success now, asked n w)).
  { unfold begun. destruct (sweep_now w) as [t|]; [exists t, (calls w); by rewrite asked_same|by eexists _, _]. }
  destruct Hb as (now & n & ->). unfold modify. set (w1 := with_sweep _ _ _ _).
  assert (Hl1 : ∀ s, lives (with_database s w1)).
  { intros s. destruct Hl. split; cbn; try done. by rewrite Ha. }
  destruct (run_batch options now w1) as [x w2] eqn:Hr. apply run_batch_returns in Hr as Hr2. destruct Hr2 as [[s ->] Hne].
  assert (∃ o, x = success o) as [o ->] by (unfold run_batch in Hr; destruct (purge_next_batch _ _ _ _ _ _); injection Hr as <- _; by eexists).
  destruct (poisoned _) as [last|]; [apply fail_lives; [apply Hl1|done]|].
  destruct o as [[b|]|e]; [|done|apply fail_lives; [apply Hl1|done]].
  apply accept_batch_lives; [apply Hl1|done..].
Qed.

(** *** The database *)

Lemma robust_database s : robust (λ w, database w = s).
Proof. split; [done..|]. intros w r w' Hr _ Hw. by destruct Hr. Qed.

Lemma fail_database e w r w' : fail options e w = (r, w') → database w' = database w.
Proof.
  unfold fail, mbind, ES_bind, gets, modify, stop. destruct (latched w); [by intros [= <- <-]|].
  apply (emit_robust (λ w', database w' = database w)); [apply robust_database|done].
Qed.

Lemma rearm_database complete w r w' : rearm options complete w = (r, w') → database w' = database w.
Proof.
  unfold rearm, mbind, ES_bind, outcome. destruct (arm_timer _ w) as [x w1] eqn:Hx. apply arm_timer_spec in Hx.
  destruct Hx; [by intros ->%fail_database..|by intros [= <- <-]].
Qed.

Lemma accept_batch_database c now b w r w' : accept_batch options c now b w = (r, w') → database w' = database w.
Proof.
  unfold accept_batch, mbind, ES_bind, gets, modify. destruct (checked_counts _ _) as [total|]; [|apply fail_database].
  set (w1 := (if sweep_complete b then _ else _) w). assert (Hw1 : database w1 = database w) by (unfold w1; by destruct (sweep_complete b)).
  destruct (emit options (BatchCompleted _) w1) as [x w2] eqn:He. pose proof (emit_succeeds _ _ _ _ He) as ->.
  apply (emit_robust (λ w', database w' = database w)) in He; [|apply robust_database|done].
  unfold continues, gets. destruct (negb _); [by intros [= <- <-]|]. destruct (sweep_complete b); [|by intros ->%rearm_database].
  destruct (emit options (SweepCompleted total) w2) as [y w3] eqn:He3. pose proof (emit_succeeds _ _ _ _ He3) as ->.
  apply (emit_robust (λ w', database w' = database w)) in He3; [|apply robust_database|done].
  destruct (negb _); [by intros [= <- <-]|by intros ->%rearm_database].
Qed.

(** All that a callback does to the database is a batch, if anything. *)
Lemma process_batch_database w r w' :
  process_batch options w = (r, w') →
  database w' = database w ∨
  ∃ fuel now x, purge_next_batch fuel now (default_retention options) (batch_size options) (cursor w) (database w) = (x, database w').
Proof.
  unfold process_batch, mbind, ES_bind, gets. destruct (activation w) as [c|]; [|intros [= <- <-]; by left].
  destruct (poisoned _) as [last|]; [intros ->%fail_database; by left|].
  set (begun := match sweep_now w with Some t => mret t | None => _ end).
  assert (Hb : ∃ now n, begun w = (success now, asked n w)).
  { unfold begun. destruct (sweep_now w) as [t|]; [exists t, (calls w); by rewrite asked_same|by eexists _, _]. }
  destruct Hb as (now & n & ->). unfold modify, run_batch. cbn [database cursor with_sweep asked].
  destruct (purge_next_batch _ _ _ _ _ _) as [x s] eqn:Hs. cbn [database with_database].
  intros Hr. right. eexists _, now, x. rewrite Hs. f_equal.
  destruct (poisoned _) as [last|]; [by apply fail_database in Hr as ->|].
  destruct x as [[b|]|e]; [by apply accept_batch_database in Hr as ->|by injection Hr as <- <-|by apply fail_database in Hr as ->].
Qed.

(** ** Every life *)

Lemma happens_lives w w' : lives w ∧ armed w → happens options w w' → lives w' ∧ armed w'.
Proof.
  intros [Hl Ha] Hh. destruct Hh as [r w' Hal Hs|Hal|Hal|r w' Ht Hp|s].
  - apply start_spec in Hs. split; [by eapply lives_started|by eapply start_armed].
  - by apply lives_stopped.
  - by apply lives_destroyed.
  - apply process_batch_lives in Hp; [done|destruct Hl; by split|done].
  - split; [destruct Hl; by split|done].
Qed.

Lemma fresh_lives s : lives (fresh s) ∧ armed (fresh s).
Proof. split; [split; try done; by intros [? ?]|]. split; by intros [? ?]. Qed.

Lemma reachable_lives s w : rtc (happens options) (fresh s) w → lives w ∧ armed w.
Proof.
  intros Hr. pose proof (fresh_lives s) as H0'. induction Hr as [|w w1 w2 Hh _ IH]; [done|]. by apply IH, (happens_lives w).
Qed.

(** C23.  Whatever the owner, the timer, the database and the receivers of the
    signals do, and although receivers may start, stop and destroy the service
    while it signals: the timer is armed exactly while the service is active,
    so maintenance neither stalls nor runs on after it was stopped; and a
    failure is announced exactly once, with the error that is kept. *)
Theorem retention_stays_armed s w :
  rtc (happens options) (fresh s) w →
  (is_Some (activation w) ↔ is_Some (timer w)) ∧ failures (signals w) = option_list (latched w).
Proof. intros [Hl Ha]%reachable_lives. split; [done|apply Hl]. Qed.

(** A failure is final: afterwards the error never changes, every start is
    refused with it, no batch runs and nothing is signalled any more. *)
Theorem retention_failure_final s w e w' :
  rtc (happens options) (fresh s) w → latched w = Some e → rtc (happens options) w w' →
  latched w' = Some e ∧ signals w' = signals w ∧ timer w' = None ∧ (start options w').1 = failure e.
Proof.
  intros [Hl Ha]%reachable_lives He Hr.
  assert (Hw : lives w' ∧ armed w' ∧ latched w' = Some e ∧ signals w' = signals w).
  { induction Hr as [|w w1 w2 Hh _ IH]; [done|]. destruct (happens_lives w w1 (conj Hl Ha) Hh) as [Hl1 Ha1].
    assert (latched w1 = Some e ∧ signals w1 = signals w) as [He1 Hs1]; [|destruct IH as (? & ? & ? & ->); auto].
    destruct Hh as [r w1 _ [r' n|e' n Hn|d n Hn Hno]%start_spec| | |r w1 Ht _|s1]; try done.
    exfalso. apply Ha in Ht as [a Hact]. by rewrite (lives_failed w Hl ltac:(rewrite He; by eexists)) in Hact. }
  destruct Hw as (Hl' & Ha' & He' & Hs'). split_and!; [done..| |].
  - destruct (timer w') eqn:Ht; [|done]. exfalso. destruct Ha' as [_ Ha'].
    destruct Ha' as [a Hact]; [rewrite Ht; by eexists|]. by rewrite (lives_failed w' Hl' ltac:(rewrite He'; by eexists)) in Hact.
  - unfold start, mbind, ES_bind, gets. by rewrite He'.
Qed.

End Lives.

(** ** A life *)

Module Sample.
Import RetentionContract.Archive.

Definition options : RetentionOptions := mkRetentionOptions 60 60 10 100.

(** Receivers that restart the service when they hear of a batch. *)
#[global] Instance host_sample : RetentionHost := {|
  loop_valid _ := true; steady_now _ := 0; utc_clock _ := 11 * hour; timer_starts _ := true;
  reactions _ x := match x with BatchCompleted _ => [ActStop; ActStart] | _ => [] end |}.

Definition begun : RetentionService := (start options (fresh archive)).2.
Definition swept : RetentionService := (process_batch options (with_timer None begun)).2.

Lemma begun_happens : happens options (fresh archive) begun.
Proof. eapply happens_start; [reflexivity|apply surjective_pairing]. Qed.
Lemma swept_happens : happens options begun swept.
Proof. eapply happens_timeout; [vm_compute; by eexists|apply surjective_pairing]. Qed.

(** The restarted service has the timer of its own start, and a new sweep. *)
Lemma retention_stays_armed_witness :
  timer swept = Some 10000000 ∧ activation swept = Some 1%nat ∧ cursor swept = first_cursor ∧
  (is_Some (activation swept) ↔ is_Some (timer swept)) ∧ failures (signals swept) = [].
Proof.
  split_and!; [vm_compute; reflexivity..| |].
  - apply (retention_stays_armed options archive swept). eapply rtc_l; [apply begun_happens|]. eapply rtc_once, swept_happens.
  - apply (retention_stays_armed options archive swept). eapply rtc_l; [apply begun_happens|]. eapply rtc_once, swept_happens.
Defined.

(** A record that names a run which is not there. *)
Definition broken : Session :=
  set_side (mkSide ∅ ∅ (list_to_map [record_entry job_method [3] [99]])) archive.
Definition tried : RetentionService := (start options (fresh broken)).2.
Definition failed : RetentionService := (process_batch options (with_timer None tried)).2.
Definition relation_error : Error :=
  mkError Internal "jobu.retention.invalid_relationship" "JobU storage operation cannot safely continue"
    "operation=mutation reason=durable_invariant".

Lemma failed_latched : latched failed = Some relation_error.
Proof. vm_compute. reflexivity. Qed.

Lemma retention_failure_final_witness :
  signals failed = [RetentionFailed relation_error] ∧ latched (stopped failed) = Some relation_error ∧
  (start options (stopped failed)).1 = failure relation_error.
Proof.
  split; [vm_compute; reflexivity|].
  destruct (retention_failure_final options broken failed relation_error (stopped failed)) as (Hl & _ & _ & Hs).
  - eapply rtc_l; [eapply happens_start; [reflexivity|apply surjective_pairing]|].
    eapply rtc_once, happens_timeout; [|apply surjective_pairing]. vm_compute. by eexists.
  - apply failed_latched.
  - eapply rtc_once, happens_stop. vm_compute. reflexivity.
  - split; [exact Hl|exact Hs].
Defined.

End Sample.
