(* ===== verification/System.v ===== *)
(** * The daemon over its store

    The parts that write to the store, together and over any number of
    restarts: startup recovery, then the scheduler, the management service and
    the retention of history on one connection, in any order and with any outcomes.  A stop may come
    between any two of their transactions; what the scheduler remembers is then
    lost, and what the store holds stays.  [src/jobud/runtime_priv.cpp] composes
    the parts in this way ([recover], [start_services]). *)

From stdpp Require Import base numbers strings list gmap sets relations.
From S2P Require Import Prelude Effects Values OutputCapture RetryPolicy CronEngine Domain ResourceNames StorageFailure Storage.
From S2P Require Import SchedulerRepository ManagementRepository Lifecycle Management ManagementOperations StoreLogic.
From S2P Require Import Completion RecoveryRepository Recovery Keyset ManagementLogic ManagementAtomicity StoreInvariant.
From S2P Require Import SchedulerStore RecoveryLogic RecoverySound RecoverySafety RecoveryTermination StartupRecovery.
From S2P Require Import ManagementStatements ManagementSpec ManagementRefinement ManagementContract.
From S2P Require Import RetentionRepository Retention RetentionSpec RetentionContract RetentionService.
Local Open Scope Z_scope.

Section System.
Context `{Admission} `{Startup} `{Runner} `{!ReplayScopes} `{!RetentionHost}.
Variables (options : ManagementServiceOptions) (policy : RecoveryOptions) (history : RetentionOptions).

(** A daemon that serves, with the memory of the scheduler and the state of
    the management service; or one that is stopped, with what it left. *)
Inductive Daemon :=
  | Serving (runtime : Runtime) (service : Service)
  | Down (s : Session).

Definition fresh_service (s : Session) : Service := mkService s OriginOperation None true false None [].

Inductive life : Daemon → Daemon → Prop :=
  | life_schedule runtime runtime' service :
      step runtime runtime' →
      life (Serving runtime service) (Serving runtime' (with_connection (session runtime') service))
  | life_manage runtime service request r service' :
      connection service = session runtime → serve options request service = (r, service') →
      life (Serving runtime service)
        (Serving (mkRuntime (connection service') (active runtime) (cancellations runtime)) service')
  | life_maintain runtime service maintenance r maintenance' :
      database maintenance = session runtime → process_batch history maintenance = (r, maintenance') →
      life (Serving runtime service)
        (Serving (mkRuntime (database maintenance') (active runtime) (cancellations runtime))
           (with_connection (database maintenance') service))
  | life_stop runtime service s :
      same_store (session runtime) s → life (Serving runtime service) (Down s)
  | life_start s fuel report w :
      recover_startup policy fuel (mkRecovery s empty_report 0 0) = (success (Some report), w) →
      life (Down s) (Serving (mkRuntime (store w) ∅ ∅) (fresh_service (store w)))
  | life_refused s fuel r w :
      recover_startup policy fuel (mkRecovery s empty_report 0 0) = (r, w) → life (Down s) (Down (store w)).

(** The store satisfies its invariant; while the daemon serves, the memory of
    the scheduler is exactly the set of attempts that the store says are
    running, and the service works on the same store. *)
Definition sound (d : Daemon) : Prop :=
  match d with
  | Serving runtime service => consistent runtime ∧ connection service = session runtime
  | Down s => wf (tables s)
  end.

Lemma agree_attempts runtime s :
  agree runtime → attempts (tables s) = attempts (tables (session runtime)) →
  agree (mkRuntime s (active runtime) (cancellations runtime)).
Proof. intros Ha Heq k n. cbn [session active]. unfold running_in. rewrite Heq. apply Ha. Qed.

Lemma wf_keyed t : wf t → keyed t.
Proof. intros Hwf. split; [apply (wf_run_key t Hwf)|apply (wf_job_key t Hwf)|apply (wf_queue_key t Hwf)|apply (wf_attempt_key t Hwf)]. Qed.

Lemma life_sound d d' : sound d → life d d' → sound d'.
Proof.
  intros Hd Hl. destruct Hl as [runtime runtime' service Hs|runtime service request r service' Hc Hw
    |runtime service m r m' Hm Hp|runtime service s Hs|s fuel report w Hw|s fuel r w Hw]; cbn [sound] in *.
  - destruct Hd as [Hd _]. split; [by eapply step_consistent|done].
  - destruct Hd as [[Hwf Ha] _]. rewrite <- Hc in Hwf. destruct (serve_keeps _ _ _ _ _ Hwf Hw) as (Hwf' & Heq & _).
    split; [|done]. split; [done|]. apply agree_attempts; [done|]. by rewrite Heq, Hc.
  - destruct Hd as [[Hwf Ha] _]. split; [|done].
    apply process_batch_database in Hp as [->|(fuel & now & x & Hp)]; [by rewrite Hm|]. rewrite Hm in Hp.
    destruct (retention_batch_keeps _ _ _ _ _ _ _ _ Hwf Hp) as (Hwf' & Hrun & _). split; [done|].
    intros k n. cbn [session active]. rewrite Hrun. apply Ha.
  - destruct Hd as [[Hwf _] _]. by destruct Hs as [-> _ _].
  - split; [|done]. destruct (recovery_validated policy fuel (mkRecovery s empty_report 0 0) _ _ (wf_keyed _ Hd) Hw) as (Hk & Hv & Hs).
    apply settled_consistent; [by apply valid_wf|done].
  - refine (recovery_maintains wf policy fuel _ _ (mkRecovery s empty_report 0 0) _ _ Hd Hw).
    + intros time x lower. apply interrupt_unit_safe.
    + intros A m t [_ Hm]. apply Hm.
Qed.


End System.

(** ** A life *)

Module Sample.
Import SchedulerStore.Sample StartupRecovery.Abandoned ManagementContract.Sample.

Abbreviation policy := StartupRecovery.Abandoned.options.
Abbreviation life_of := (life ManagementContract.Sample.options policy RetentionService.Sample.options).

(** The scheduler starts a run; the daemon stops, is started again, and
    suspends the queue. *)
Definition first : Daemon := Serving world (fresh_service (session world)).
Definition restarted : Runtime := mkRuntime (store recovery.2) ∅ ∅.
Definition asked : result Error Response * Service := serve ManagementContract.Sample.options suspend (fresh_service (store recovery.2)).
Definition last : Daemon := Serving (mkRuntime (connection asked.2) ∅ ∅) asked.2.

Lemma lives : rtc life_of first last.
Proof.
  destruct recovery_reported as [report Hr].
  eapply rtc_l; [apply (life_schedule _ _ _ _ started), world_starts|].
  eapply rtc_l; [apply (life_stop _ _ _ _ _ (session started)); reflexivity|].
  eapply rtc_l; [exact (life_start _ _ _ (session started) 10 report recovery.2 Hr)|].
  eapply rtc_l; [|apply rtc_refl].
  exact (life_manage _ _ _ restarted (fresh_service (store recovery.2)) suspend asked.1 asked.2 eq_refl (surjective_pairing asked)).
Qed.


End Sample.
